(* ===== verification/_CoqProject ===== *)
-Q . S2P
Prelude.v
Utf8.v
Points.v
SliceSort.v
Tokens.v
IncludedRanges.v
LexTable.v
Lexer.v
LexerScan.v
LexerNext.v
Selection.v
LexerIncluded.v
ExternalLexer.v
ExternalVM.v
ParseTables.v
ParseTablesCorrect.v
Rewriter.v
Utf16.v
Utf16Correct.v
TreeEdit.v
TreeEditCorrect.v
RewriteTree.v
Partition.v
LexMinimize.v
LexMinimizeCorrect.v
Navigate.v
NavigateCorrect.v
StateError.v
Regex.v
RegexParse.v
RegexParseCorrect.v
RegexClass.v
RegexPrint.v
Nfa.v
NfaPath.v
NfaBuild.v
NfaRegex.v
NfaRule.v
NfaCombined.v
Dfa.v
DfaClosure.v
DfaCorrect.v
LexDfa.v
LexBuild.v
LexImmediate.v
LexPasses.v
LexModes.v
LexBuildCorrect.v
GeneratedLexer.v
Bitset.v
LrGrammar.v
LrFirst.v
Digraph.v
Lr0.v
Lr0Closure.v
Lr0Kernels.v
Lr0Correct.v
Lalr.v
LalrSteps.v
LalrSound.v
LalrExact.v
LrMinimize.v
LrSignature.v
LrGroups.v
LrMerge.v
LrMinimizeCorrect.v
LrStart.v
LrMinimizeRuns.v
LrCompactCore.v
LrTables.v
LrTablesCorrect.v
LrParse.v
LrLanguage.v
Assemble.v
AssembleRows.v
AssembleCorrect.v
ParserStack.v
ParserStackCorrect.v
LrRuntime.v
MissingToken.v
