(* ===== verification/Prelude.v ===== *)
(** * gotreesitter: a verification library

    gotreesitter is a Go implementation of the tree-sitter runtime: a table
    driven lexer feeds a GLR parser, external scanners written by hand or as
    bytecode supply the tokens a DFA cannot, an edited tree is reparsed
    incrementally, and clients navigate and rewrite the result.  grammargen
    compiles grammars to the tables the runtime reads.

    This library models the components that feed the parser, the moves of the
    parser on its stack, the components that work on its result, and the parts of
    grammargen that build lexers, LR automata and parse tables, as executable
    functions, and proves what each promises to the next.  The models follow the
    source function by function and keep its names.  The driver that chooses among
    the versions of the stack, conflict resolution and the construction of trees are
    not modelled.

    ** Parts and files

    Shared foundations.
    - Prelude.v (this file): Go integers, slices and outcomes.  A routine that
      can panic or loop returns [go A]: [Ret], [Panic] (an index or slice bound
      out of range) or [NoFuel].  [index], [store] and [gslice] are Go's checked
      slice operations.  The tactics and the [golen] rewriting hints used
      everywhere live here.
    - Utf8.v: unicode/utf8.  Points.v: [Point], [Range], [InputEdit] and the
      routines that advance a point over text (lexer.go, tree.go, rewrite.go,
      parser_result_helpers.go, utf16.go).
    - SliceSort.v: the contract of sort.Slice as a class, sorts of integers and
      binary search.  Components that sort are proved for every sorter that meets
      the contract.
    - Tokens.v: [Token] (lexer.go) and the token source interface
      (parser_api.go) as a record of operations.
    - StateError.v: the state-and-error monad of the grammargen builders.

    Lexing.
    - LexTable.v: [LexState], [LexTransition] and the derived ASCII table
      (language.go), with the three-way transition lookup of the DFA walks.
    - Lexer.v: the whole of [Lexer] (lexer.go, lexer_included_ranges.go): both
      walks, skipping, byte-order marks, error runs and the retry in the error
      mode.  LexerScan.v and LexerNext.v hold the theorems on contiguous input;
      Selection.v defines the text that included ranges select and
      LexerIncluded.v proves that mode against it.
    - IncludedRanges.v: [normalizeIncludedRanges] and the token source wrapper
      of included_ranges.go, and [coalesceRanges] of tree.go.
    - ExternalLexer.v: the cursor handed to external scanners
      (external_lexer.go).  ExternalVM.v: the scanner bytecode, its validator
      and its interpreter (external_vm.go), which drives that cursor.

    Compiling lexers (grammargen).
    - Regex.v, RegexParse.v: the trees and the parser of regex.go;
      RegexParseCorrect.v, RegexClass.v and RegexPrint.v its theorems.
    - Nfa.v: Thompson's construction and the combined NFA of nfa.go.  NfaPath.v
      (paths and fragments), NfaBuild.v (a program logic for the builder),
      NfaRegex.v, NfaRule.v and NfaCombined.v prove it.
    - Dfa.v: the subset construction of dfa.go; DfaClosure.v and DfaCorrect.v.
      LexDfa.v composes it with the NFA.
    - LexBuild.v: [buildLexDFA] and its passes (dfa.go).  LexImmediate.v,
      LexPasses.v, LexModes.v and LexBuildCorrect.v prove the passes and the
      emitted tables; LexMinimize.v and LexMinimizeCorrect.v the minimisation
      (dfa_minimize.go).  GeneratedLexer.v runs the tables on Lexer.v.

    Compiling parsers (grammargen).
    - Bitset.v: bitset.go.  LrGrammar.v: symbols and productions of
      normalize.go, with derivations.  LrFirst.v: FIRST sets (lr.go).
    - Lr0.v: packed items, closures and [buildLR0] (lr.go, lr_lalr.go);
      Lr0Closure.v, Lr0Kernels.v and Lr0Correct.v prove it.
    - Digraph.v: the closure over a relation (lr_lalr.go).  Lalr.v: the LALR(1)
      lookaheads built with it.  LalrSteps.v says what each of its loops computes,
      for any notion of following ([follow_model]); LalrSound.v instantiates it with
      sentences, LalrExact.v with the items of the canonical LR(1) automaton.

    - LrTables.v: the builder [buildLRTables] chooses (lr.go), and the path through
      [buildLRTablesInternal] on which the LALR builder makes the item sets: actions
      and gotos from items, the metadata of shifts, lookaheads before nonterminal
      extras.  LrTablesCorrect.v says what the rows hold, LrParse.v what tables must say
      of a grammar for the LR machine to accept its sentences, and LrLanguage.v that
      they do.  LrCompactCore.v: the compact cores of lr_parse_core.go.
    - LrMinimize.v: lr_state_minimize.go with the tables and the start matchers of
      lr.go.  Partition.v (shared with the lexer's minimisation), LrSignature.v,
      LrGroups.v, LrMerge.v, LrStart.v, LrMinimizeCorrect.v (which defines the LR
      machine) and LrMinimizeRuns.v prove it.
    - Assemble.v: [buildParseTables] of assemble.go; AssembleRows.v and
      AssembleCorrect.v relate its arrays to the runtime's lookups.

    Parsing.
    - ParseTables.v, ParseTablesCorrect.v: parser_tables.go, with the table
      types of language.go: compressed rows, the dense rows and sorted overflow
      pairs derived from them, the lookups, and the external-symbol masks.
    - ParserStack.v: a stack version as slice, linked list or both, its shifts and
      the reductions of the lane that builds no tree ([noTreeBenchmarkOnly]) (glr.go,
      glr_gss.go, parser_reduce.go, no_tree_node.go); ParserStackCorrect.v.
      LrRuntime.v drives it by the runtime tables and composes the modelled stages
      of the table compiler with it.
    - MissingToken.v: the search of parser.go for a token to insert.

    Sources, trees and edits.
    - Rewriter.v: rewrite.go.  Utf16.v, Utf16Correct.v: utf16.go and the UTF-16
      edits of tree.go.
    - TreeEdit.v, TreeEditCorrect.v: [Tree.Edit], [Node.Edit] and
      [DiffChangedRanges] of tree.go.  RewriteTree.v composes the rewriter with
      the tree editor, as [ApplyToTree] does.
    - Navigate.v, NavigateCorrect.v: cursor.go and walk.go.

    ** What the theorems show

    Lexer.  The contiguous walk returns the maximal munch of the DFA
    ([scanContiguous_maximal_munch]), where the specification is a step relation
    over configurations and an order on accepting ones.  A call of [next] always
    returns, and its token carries the text and positions of the source
    ([next_returns_source_token]); a run of calls gives tokens in order
    ([lex_run_ordered]); an error run is as long as possible
    ([errorRunToken_maximal]); the ASCII table changes nothing, in either mode
    ([next_ascii_table_equiv]).  With included ranges the lexer lexes the selected
    text ([included_lexing_refines]); two corner cases lie outside that result
    ([next_bom_range_livelock], [zero_width_token_ends_before_start]).

    Ranges.  Normalised and coalesced ranges are separated and select the bytes
    the caller selected ([normalizeIncludedRanges_correct],
    [coalesceRanges_correct]).  The wrapper filters its base source exactly
    ([included_source_filters]) when the source cannot seek; over one that can,
    a zero-width token at a range start makes it loop for ever
    ([filterToken_zero_width_livelock]).

    External scanners.  Any sequence of cursor operations yields a token of the
    source ([scanner_token_from_source]); bulk advances are repeated advances
    ([bulk_advance_is_repeated_advance]); [HasPreviousBytes_suffix].  The
    validator accepts exactly the well-formed programs
    ([validate_accepts_wellformed]), and a scan is the step-bounded run of the
    small-step machine ([Scan_is_bounded_run], [payload_roundtrip]).

    Generated lexers.  The regular-expression parser returns on every input
    ([parseRegex_total]) and inverts a printer ([parse_print_roundtrip]); the
    operations on classes are set operations ([class_operations_exact]), except
    that a negated property inside a class loses its complement
    ([class_complement_lost]).  The combined automaton accepts, after any word,
    the terminal that wins among those matching it ([terminals_to_dfa]), because
    the subset construction tracks the reachable NFA states exactly
    ([subsetConstruction_exact]).  The passes are exact or keep well-formedness
    ([pruneImmediateTransitions_exact]; [slash_operator_loses_comment] shows one
    that loses a token), the emitted tables implement the automata
    ([buildLexDFA_tables]), and minimised tables lex like the originals
    ([minimize_preserves_lexing]).  End to end: [generated_lexer_exact].

    Generated automata.  Bit sets implement finite sets ([bitset_refines_sets]).
    FIRST sets hold exactly the tokens that begin a derived string
    ([computeFirstSets_exact]).  The state that [buildLR0] reaches over a prefix
    holds exactly the items valid for it ([buildLR0_exact]).  [digraph] computes
    the closure of a relation without cycles and never more on any relation
    ([digraph_closure]); hence every LALR lookahead follows its item in some
    sentence ([lalr_lookaheads_sound]).  Where the passes lose nothing, the
    lookaheads are exactly those of the canonical LR(1) automaton with states of
    equal core merged ([lalr_lookaheads_exact]); a small grammar with a cyclic
    relation loses one ([lalr_loses_lookahead]).

    Generated parsers.  For the grammars that the code gives to its LALR builder
    (more than 400 productions, no context tags, no precise external builder), without
    productions for extras, with productive symbols and no lookahead lost, the LR
    machine accepts exactly the sentences of the grammar on the tables before conflict
    resolution ([buildLRTables_language]), also after states are merged
    ([compact_tables_language]).  Merging states keeps the runs of the machine on any
    tables ([minimizeParseStates_simulates], [minimizeParseStates_minimal]) and never
    mixes tokens the lexer could confuse ([minimizeParseStates_disjoint]).  The
    runtime's lookups answer like the LR tables that were written
    ([buildParseTables_lookup]).  A reduction of the lane that builds no tree does the
    same to a stack however it is kept ([noTree_reduce_refines]).  Composed: such a
    stack, driven by the runtime tables of such a grammar with every action of a
    conflict kept, accepts its sentences with extras anywhere
    ([lalr_parser_language]).  A token found for insertion lets the real one be
    shifted, on stacks without extras ([missing_token_sound]); with extras it may not
    ([missing_token_counts_extras]).

    Parse tables.  Every derived representation answers as the compressed table
    does ([derived_tables_equivalent]), enumeration is complete
    ([forEachActionIndexInState_complete]), the masks are exact
    ([external_masks_exact]).

    Edits.  [Apply] splices and its records replay
    ([Apply_splices_and_replays], [Apply_rejects_iff]); [Tree.Edit] keeps spans
    nested and points true to the edited text ([TreeEdit_follows_source]), marks
    what the edit overlaps ([TreeEdit_marks_overlap]), and its fast path agrees
    with the general one ([single_byte_path_equiv]).  Together they give
    [ApplyToTree_keeps_tree].  [DiffChangedRanges_after_edit] says what a diff
    against an unchanged reparse reports.  For UTF-16: [utf16_tables_exact],
    [utf16_points_exact], [InputEditForUTF16_exact],
    [DecodeUTF16Bytes_roundtrip].

    Navigation.  A cursor is a path ([cursor_refines_path]), the searching
    descents are exact ([goto_first_child_for_exact]), and the iterative walk is
    the recursive one ([Walk_is_preorder]).

    ** Integers, fuel and bounds

    Go's [int] is [Z]: it indexes slices that fit in memory.  [uint32] offsets,
    rows and columns, [uint16] symbols and [int32] operands wrap explicitly;
    theorems about source positions assume a source shorter than [2^32] bytes,
    the range of the offsets the code stores.  Packed LR items keep 24 bits of
    production and 8 bits of dot, and packing panics outside them, as the code
    does.

    Loops that are not structural carry fuel, and every theorem that says a
    routine returns is an equation with [Ret], so the fuel is proved enough:
    - a DFA walk, [scan_fuel]: one round per source byte and one per state, since
      end-of-input hops are limited by the state count;
    - [next] and error runs, [next_fuel]: one round per source byte, as every
      round consumes a rune;
    - the regular-expression parser: four calls per byte of the pattern and five;
    - epsilon closures: one round per NFA state; the subset construction: one
      round per set of NFA states, [2^n];
    - the two fixed points over immediate tokens: [n + 1] and [n^2 + 1] rounds for
      [n] states; partition refinement: one round per state and one to stop, as
      every round but the last adds a colour;
    - nullable symbols and FIRST sets: [n + 1] and [n^2 + 1] rounds for [n]
      symbols; closure seeds: one round per production and one; [buildLR0]: one
      round per set of items (a run that returned returns the same with more fuel,
      [buildLR0_more]); [digraph]: one nested call per node;
    - the strict partition of parse states: one round per state and one; the walk over
      leading nonterminals: one nested call per symbol; the carriers of inherited
      fields: one round per symbol and one;
    - the UTF-16 encoder: one round per unit; binary searches: the length of the
      searched list; [Walk]: one round per node.
    The step limits of the bytecode interpreter and of the search for a missing token
    are the program's own.  The loops
    of the included-range wrapper have no bound in the source; their theorems
    quantify over the fuel.

    Code outside the repository is an argument: the tables of Go's unicode
    package (with [unicode_ok]), the context that may cancel a construction, and
    the order in which a Go map is iterated over (the class [MapRange]).

    ** What is not modelled

    The GLR driver (which action a version takes, merging and pruning of versions),
    the reductions that build trees (unary collapse, pending parents, fields and
    aliases), recovery but for the search for a missing token, incremental reuse and
    the per-language result repairs: one interdependent body of several ten thousand
    lines that the components here surround.  Arenas, pools, lazily materialised
    children and caches behind sync.Once: the models have no allocation and compute
    derived tables directly; where the code writes the state of a node in place, as
    for the extras a reduction puts back, the model copies the node.  The query engine
    and its clients (highlighting, tags, outlines).  Of grammargen: the normalisation
    of grammars, [expandRegexToRule], [computeLexModes], the context tags and merge
    records of [buildLR0], the precise LR(1) builder, conflict resolution and
    splitting, the chains of nonterminal extras, and the passes of assemble other than
    [buildParseTables].  Language blobs (gob and gzip containers), generated grammars,
    hand-written scanners, telemetry, tools and bindings.

    ** Plan

    In order: [computeLexModes], which connects the LR states to the lex modes; the
    conflict resolution of lr.go; the node queries of tree.go next to Navigate.v; the
    query compiler; the framing of language blobs. *)

From Stdlib Require Import ZArith Lia ZifyBool.
From stdpp Require Import base tactics list numbers option sorting.

(** ** Go integers

    Go [int] values are 64-bit and index slices, so they never overflow on the
    paths modelled here: they are plain [Z].  Fixed-width values carry their
    wrap-around explicitly. *)

Declare Scope go_scope.
Delimit Scope go_scope with go.
Local Open Scope Z_scope.

Definition u8 (z : Z) : Z := z mod 2 ^ 8.
Definition u16 (z : Z) : Z := z mod 2 ^ 16.
Definition u32 (z : Z) : Z := z mod 2 ^ 32.
Definition u64 (z : Z) : Z := z mod 2 ^ 64.
Definition i32 (z : Z) : Z := (z + 2 ^ 31) mod 2 ^ 32 - 2 ^ 31.

(** ** Outcomes of Go code

    [Panic] is a Go run-time panic (an index or slice bound out of range);
    [NoFuel] is a loop whose fuel ran out in the model.  Theorems that say a
    routine returns state an equation with [Ret]. *)

Inductive go (A : Type) : Type :=
| Ret (a : A)
| Panic
| NoFuel.
Arguments Ret {A} a.
Arguments Panic {A}.
Arguments NoFuel {A}.

#[export] Instance go_ret : MRet go := fun A a => Ret a.
#[export] Instance go_bind : MBind go := fun A B f m =>
  match m with Ret a => f a | Panic => Panic | NoFuel => NoFuel end.

Lemma go_bind_ret {A B} (f : A → go B) (m : go A) b :
  (m ≫= f) = Ret b ↔ ∃ a, m = Ret a ∧ f a = Ret b.
Proof.
  destruct m; cbn; split; [eauto|intros (? & [= ->] & ?); done|..];
    try done; by intros (? & ? & ?).
Qed.

(** ** Slices *)

Definition len {A} (l : list A) : Z := Z.of_nat (length l).

(** The element at a Go index, [None] when the index is out of range. *)
Definition zget {A} (l : list A) (i : Z) : option A :=
  if 0 <=? i then l !! Z.to_nat i else None.

(** [l[i]] with its bounds check. *)
Definition index {A} (l : list A) (i : Z) : go A :=
  match zget l i with Some x => Ret x | None => Panic end.

(** [l[i:j]], the elements only. *)
Definition slice {A} (l : list A) (i j : Z) : list A :=
  take (Z.to_nat (j - i)) (drop (Z.to_nat i) l).

(** [l[i:j]] with its bounds check. *)
Definition gslice {A} (l : list A) (i j : Z) : go (list A) :=
  if (0 <=? i) && (i <=? j) && (j <=? len l) then Ret (slice l i j) else Panic.

(** [l[i] = x] with its bounds check. *)
Definition store {A} (l : list A) (i : Z) (x : A) : go (list A) :=
  if (0 <=? i) && (i <? len l) then Ret (<[Z.to_nat i := x]> l) else Panic.

(** [make([]T, n)] filled with [x]. *)
Definition make {A} (n : Z) (x : A) : list A := replicate (Z.to_nat n) x.

(** ** Tactics *)

(** Case analysis on every boolean comparison of integers in the goal. *)
Ltac zcases :=
  repeat match goal with
  | |- context [?a <=? ?b] => destruct (Z.leb_spec a b)
  | |- context [?a <? ?b] => destruct (Z.ltb_spec a b)
  | |- context [?a =? ?b] => destruct (Z.eqb_spec a b)
  end.

(** Linear arithmetic with division and remainder by constants. *)
Ltac zdiv := Z.to_euclidean_division_equations; lia.

(** Invert an equation between monadic results. *)
Ltac gsimpl :=
  repeat match goal with
  | H : Ret _ = Ret _ |- _ => injection H as H; subst
  | H : Panic = Ret _ |- _ => discriminate H
  | H : NoFuel = Ret _ |- _ => discriminate H
  | H : _ ≫= _ = Ret _ |- _ =>
      apply go_bind_ret in H as (? & ? & H)
  end.

Create HintDb golist.
Create Rewrite HintDb golen.

(** ** Integer lemmas *)

Lemma u32_id z : 0 ≤ z < 2 ^ 32 → u32 z = z.
Proof. intros. by apply Z.mod_small. Qed.

Lemma u32_range z : 0 ≤ u32 z < 2 ^ 32.
Proof. by apply Z.mod_pos_bound. Qed.

Lemma u32_add_l a b : u32 (u32 a + b) = u32 (a + b).
Proof. unfold u32. by rewrite Z.add_mod_idemp_l. Qed.

Lemma u32_add_r a b : u32 (a + u32 b) = u32 (a + b).
Proof. unfold u32. by rewrite Z.add_mod_idemp_r. Qed.

Lemma u32_u32 a : u32 (u32 a) = u32 a.
Proof. unfold u32. by rewrite Z.mod_mod. Qed.

Lemma i32_id z : - 2 ^ 31 ≤ z < 2 ^ 31 → i32 z = z.
Proof. intros. unfold i32. rewrite Z.mod_small; lia. Qed.

Lemma u16_id z : 0 ≤ z < 2 ^ 16 → u16 z = z.
Proof. intros. by apply Z.mod_small. Qed.

(** ** Slice lemmas *)

Section slices.
Context {A : Type}.
Implicit Types (l k : list A) (i j : Z) (x : A).

Lemma len_nonneg l : 0 ≤ len l.
Proof. unfold len; lia. Qed.

Lemma len_nil : len (@nil A) = 0.
Proof. done. Qed.

Lemma len_cons x l : len (x :: l) = len l + 1.
Proof. unfold len; cbn [length]; lia. Qed.

Lemma len_app l k : len (l ++ k) = len l + len k.
Proof. unfold len; rewrite length_app; lia. Qed.

Lemma len_insert l n x : len (<[n := x]> l) = len l.
Proof. unfold len. by rewrite length_insert. Qed.

Lemma zget_Some_range l i x : zget l i = Some x → 0 ≤ i < len l.
Proof.
  unfold zget, len. case_match eqn:E; [|done].
  intros ?%lookup_lt_Some. lia.
Qed.

Lemma zget_lookup (l : list A) d x : zget l d = Some x → 0 ≤ d ∧ l !! Z.to_nat d = Some x.
Proof. unfold zget. destruct (Z.leb_spec 0 d); done. Qed.

Lemma zget_Some_iff l i : is_Some (zget l i) ↔ 0 ≤ i < len l.
Proof.
  split; [intros [x ?]; eauto using zget_Some_range|].
  intros. unfold zget, len in *. destruct (Z.leb_spec 0 i); [|lia].
  apply lookup_lt_is_Some. lia.
Qed.

Lemma zget_in_range l i : 0 ≤ i < len l → ∃ x, zget l i = Some x.
Proof. intros H%zget_Some_iff. destruct H. eauto. Qed.

Lemma zget_None l i : zget l i = None ↔ ¬ (0 ≤ i < len l).
Proof.
  rewrite <-(zget_Some_iff l i). apply eq_None_not_Some.
Qed.

Lemma zget_nil i : zget (@nil A) i = None.
Proof. unfold zget. by case_match. Qed.

Lemma zget_nat l (n : nat) : zget l (Z.of_nat n) = l !! n.
Proof. unfold zget. destruct (Z.leb_spec 0 (Z.of_nat n)); [|lia]. by rewrite Nat2Z.id. Qed.

Lemma zget_app_l l k i : i < len l → zget (l ++ k) i = zget l i.
Proof.
  unfold zget, len. intros. destruct (Z.leb_spec 0 i); [|done].
  apply lookup_app_l. lia.
Qed.

Lemma zget_app_r l k i : len l ≤ i → zget (l ++ k) i = zget k (i - len l).
Proof.
  unfold zget, len. intros.
  destruct (Z.leb_spec 0 i), (Z.leb_spec 0 (i - Z.of_nat (length l))); try lia.
  rewrite lookup_app_r by lia. f_equal. lia.
Qed.

Lemma zget_app_Some l k i x : zget l i = Some x → zget (l ++ k) i = Some x.
Proof. intros Hi. rewrite zget_app_l; [done|]. apply zget_Some_range in Hi. lia. Qed.

Lemma zget_cons_0 x l : zget (x :: l) 0 = Some x.
Proof. done. Qed.

Lemma zget_cons_ne x l i : i ≠ 0 → zget (x :: l) i = zget l (i - 1).
Proof.
  intros. unfold zget. destruct (Z.leb_spec 0 i), (Z.leb_spec 0 (i - 1)); try (done || lia).
  by replace (Z.to_nat i) with (S (Z.to_nat (i - 1))) by lia.
Qed.

Lemma zget_drop l i j : 0 ≤ i → 0 ≤ j → zget (drop (Z.to_nat i) l) j = zget l (i + j).
Proof.
  intros. unfold zget. destruct (Z.leb_spec 0 j), (Z.leb_spec 0 (i + j)); try lia.
  rewrite lookup_drop. f_equal. lia.
Qed.

Lemma len_drop l i : 0 ≤ i ≤ len l → len (drop (Z.to_nat i) l) = len l - i.
Proof. unfold len. intros. rewrite length_drop. lia. Qed.

Lemma zget_elem l i x : zget l i = Some x → x ∈ l.
Proof. unfold zget. case_match; [|done]. apply list_elem_of_lookup_2. Qed.

Lemma elem_zget l x : x ∈ l → ∃ i, 0 ≤ i < len l ∧ zget l i = Some x.
Proof.
  intros [n Hn]%list_elem_of_lookup_1. exists (Z.of_nat n).
  rewrite zget_nat. split; [|done]. apply lookup_lt_Some in Hn. unfold len. lia.
Qed.

Lemma Forall_zget (P : A → Prop) l i x : Forall P l → zget l i = Some x → P x.
Proof. intros Hl Hi%zget_elem. revert x Hi. by apply list.Forall_forall. Qed.

Lemma index_Ret l i x : index l i = Ret x ↔ zget l i = Some x.
Proof. unfold index. destruct (zget l i); split; congruence. Qed.

Lemma index_in_range l i : 0 ≤ i < len l → ∃ x, index l i = Ret x ∧ zget l i = Some x.
Proof. intros H. destruct (zget_in_range l i H) as [x Hx]. exists x. by rewrite index_Ret. Qed.

Lemma gslice_ok l i j : 0 ≤ i → i ≤ j → j ≤ len l → gslice l i j = Ret (slice l i j).
Proof. intros. unfold gslice. by zcases; try lia. Qed.

Lemma gslice_Ret l i j k :
  gslice l i j = Ret k ↔ (0 ≤ i ∧ i ≤ j ∧ j ≤ len l) ∧ k = slice l i j.
Proof.
  unfold gslice. zcases; cbn; (split; [intros [=]|intros [? ->]; try done; lia]); auto.
Qed.

Lemma store_ok l i x : 0 ≤ i < len l → store l i x = Ret (<[Z.to_nat i := x]> l).
Proof. intros. unfold store. by zcases; try lia. Qed.

Lemma zget_insert_eq l i x : 0 ≤ i < len l → zget (<[Z.to_nat i := x]> l) i = Some x.
Proof.
  intros. unfold zget, len in *. destruct (Z.leb_spec 0 i); [|lia].
  apply list_lookup_insert_eq. lia.
Qed.

Lemma zget_insert_ne l i j x : 0 ≤ i → i ≠ j → zget (<[Z.to_nat i := x]> l) j = zget l j.
Proof.
  intros. unfold zget in *. destruct (Z.leb_spec 0 j); [|done].
  apply list_lookup_insert_ne. lia.
Qed.

Lemma len_slice l i j : 0 ≤ i → i ≤ j → j ≤ len l → len (slice l i j) = j - i.
Proof. unfold slice, len. rewrite length_take, length_drop. lia. Qed.

Lemma slice_nil l i j : j ≤ i → slice l i j = [].
Proof. intros. unfold slice. by replace (Z.to_nat (j - i)) with 0%nat by lia. Qed.

Lemma slice_all l : slice l 0 (len l) = l.
Proof.
  unfold slice, len. rewrite drop_0, Z.sub_0_r, Nat2Z.id. by apply take_ge.
Qed.

Lemma slice_app_split l i j m :
  0 ≤ i → i ≤ j → j ≤ m → slice l i j ++ slice l j m = slice l i m.
Proof.
  intros. unfold slice.
  replace (Z.to_nat (m - i)) with (Z.to_nat (j - i) + Z.to_nat (m - j))%nat by lia.
  rewrite <-take_take_drop. f_equal. f_equal. rewrite drop_drop. f_equal. lia.
Qed.

Lemma slice_cons l i j x :
  zget l i = Some x → i < j → slice l i j = x :: slice l (i + 1) j.
Proof.
  intros Hx Hij. pose proof (zget_Some_range _ _ _ Hx).
  unfold slice. unfold zget in Hx. destruct (Z.leb_spec 0 i); [|lia].
  replace (Z.to_nat (j - i)) with (S (Z.to_nat (j - (i + 1)))) by lia.
  erewrite drop_S by done. cbn. do 2 f_equal. f_equal. lia.
Qed.

Lemma slice_app_l l k i j : 0 ≤ i → j ≤ len l → slice (l ++ k) i j = slice l i j.
Proof.
  intros. destruct (decide (j ≤ i)) as [|]; [by rewrite !slice_nil|]. unfold slice, len in *.
  rewrite drop_app_le by lia. apply take_app_le. rewrite length_drop. lia.
Qed.

Lemma slice_app_r l k i :
  0 ≤ i ≤ len k → slice (l ++ k) (len l + i) (len (l ++ k)) = slice k i (len k).
Proof.
  intros. unfold slice. rewrite len_app. unfold len in *.
  rewrite drop_app_ge by lia. f_equal; [lia|]. f_equal. lia.
Qed.

Lemma zget_slice l i j n :
  0 ≤ i → j ≤ len l → 0 ≤ n < j - i → zget (slice l i j) n = zget l (i + n).
Proof.
  intros. unfold zget, slice, len in *.
  destruct (Z.leb_spec 0 n), (Z.leb_spec 0 (i + n)); try lia.
  rewrite lookup_take_lt by lia. rewrite lookup_drop. f_equal. lia.
Qed.

Lemma len_make n x : 0 ≤ n → len (make n x) = n.
Proof. intros. unfold make, len. rewrite length_replicate. lia. Qed.

Lemma zget_make n x i : 0 ≤ i < n → zget (make n x) i = Some x.
Proof.
  intros. unfold zget, make. destruct (Z.leb_spec 0 i); [|lia].
  apply lookup_replicate_2. lia.
Qed.

Lemma filter_Forall_id (P : A → Prop) `{∀ x, Decision (P x)} l : Forall P l → filter P l = l.
Proof. induction 1 as [|x l Hx Hl IH]; [done|]. rewrite filter_cons_True by done. by f_equal. Qed.

Lemma filter_Forall_nil (P : A → Prop) `{∀ x, Decision (P x)} l :
  Forall (λ x, ¬ P x) l → filter P l = [].
Proof. induction 1 as [|x l Hx Hl IH]; [done|]. by rewrite filter_cons_False. Qed.

End slices.

#[export] Hint Rewrite @len_app @len_cons @len_nil @len_insert : golen.
#[export] Hint Resolve len_nonneg : golist.

(** ** Sums that a loop lowers *)

Definition total_of {A} (f : A → nat) (l : list A) : nat := sum_list_with f l.

Lemma total_of_set {A} (f : A → nat) l i x y :
  zget l i = Some x → (total_of f (<[Z.to_nat i := y]> l) + f x = total_of f l + f y)%nat.
Proof.
  unfold zget. destruct (0 <=? i); [|done]. generalize (Z.to_nat i) as n. unfold total_of.
  induction l as [|z l IH]; intros [|n]; cbn [lookup list_lookup]; intros Hi; [done..| |].
  - injection Hi as ->. change (<[0%nat := y]> (x :: l)) with (y :: l). cbn [sum_list_with]. lia.
  - specialize (IH n Hi). change (<[S n := y]> (z :: l)) with (z :: <[n := y]> l). cbn [sum_list_with]. lia.
Qed.

Lemma total_of_bound {A} (f : A → nat) b l : Forall (λ x, (f x ≤ b)%nat) l → (total_of f l ≤ length l * b)%nat.
Proof. unfold total_of. induction 1; cbn in *; lia. Qed.

Lemma total_of_store {A} (f : A → nat) l i x y :
  zget l i = Some x → (f y < f x)%nat → (total_of f (<[Z.to_nat i := y]> l) < total_of f l)%nat.
Proof. intros Hi. pose proof (total_of_set f l i x y Hi). lia. Qed.

Lemma total_of_store_eq {A} (f : A → nat) l i x y :
  zget l i = Some x → f y = f x → total_of f (<[Z.to_nat i := y]> l) = total_of f l.
Proof. intros Hi. pose proof (total_of_set f l i x y Hi). lia. Qed.

Lemma zget_map {A B} (f : A → B) l i : zget (map f l) i = f <$> zget l i.
Proof. unfold zget. destruct (0 <=? i); [|done]. apply list_lookup_fmap. Qed.

Lemma NoDup_zget_inj {A} (l : list A) i j x : NoDup l → zget l i = Some x → zget l j = Some x → i = j.
Proof.
  intros Hnd Hi Hj. pose proof (zget_Some_range _ _ _ Hi). pose proof (zget_Some_range _ _ _ Hj).
  unfold zget in *. repeat case_match; try lia.
  assert (Z.to_nat i = Z.to_nat j) by (by eapply NoDup_lookup). lia.
Qed.

Lemma drop_snoc {A} (l : list A) (n : nat) x : (n ≤ length l)%nat → drop n (l ++ [x]) = drop n l ++ [x].
Proof. intros. by rewrite drop_app_le. Qed.

Lemma zget_snoc {A} (l : list A) x i y :
  zget (l ++ [x]) i = Some y → zget l i = Some y ∨ i = len l ∧ y = x.
Proof.
  intros Hi. destruct (Z.lt_ge_cases i (len l)); [left; by rewrite zget_app_l in Hi|right].
  rewrite zget_app_r in Hi by done. pose proof (zget_Some_range _ _ _ Hi) as Hr.
  change (len [x]) with 1 in Hr. assert (i - len l = 0) as E by lia. rewrite E in Hi.
  injection Hi as <-. split; [lia|done].
Qed.

Lemma zget_last {A} (l : list A) x : zget (l ++ [x]) (len l) = Some x.
Proof. rewrite zget_app_r by lia. by rewrite Z.sub_diag. Qed.

(** ** Binary search *)

(** [sort.Search(n, f)]: binary search for the first index where [f] holds. *)
Fixpoint search_loop (f : Z → go bool) (fuel : nat) (i j : Z) : go Z :=
  if i <? j then
    match fuel with
    | O => NoFuel
    | S fuel =>
      let h := Z.shiftr (i + j) 1 in
      c ← f h;
      if (c : bool) then search_loop f fuel i h else search_loop f fuel (h + 1) j
    end
  else Ret i.

(** [sort.Search] on a predicate that is true from [n0] on. *)
Lemma search_loop_spec f fuel i j n0 :
  (∀ h, i ≤ h < j → f h = Ret (n0 <=? h)) → 0 ≤ i ≤ n0 → n0 ≤ j → j - i ≤ Z.of_nat fuel →
  search_loop f fuel i j = Ret n0.
Proof.
  revert i j. induction fuel as [|fuel IH]; intros i j Hf Hi Hj Hfu; cbn;
    destruct (Z.ltb_spec i j); try lia; try (f_equal; lia).
  rewrite Z.shiftr_div_pow2 by lia. change (2 ^ 1) with 2. set (h := (i + j) / 2).
  assert (i ≤ h < j) as Hh by (unfold h; zdiv). rewrite Hf by done. cbn.
  destruct (Z.leb_spec n0 h); apply IH; try lia; intros h' Hh'; apply Hf; lia.
Qed.
