(* ===== verification/Utf8.v ===== *)
(** * UTF-8 runes

    The functions of Go's [unicode/utf8] package that the lexers, the scanners
    and the UTF-16 front end call: [DecodeRune], [DecodeLastRune], [EncodeRune]
    and [RuneLen], on bytes as integers in [0, 255].  The lemmas are the facts
    the components rely on: a decoded rune occupies between one and four bytes
    of the input, only an ASCII byte decodes to an ASCII rune, the bytes after
    the first of a multi-byte rune are never ASCII, and decoding inverts
    encoding. *)

From Stdlib Require Import ZArith Lia ZifyBool.
From stdpp Require Import base tactics list numbers option.
From S2P Require Import Prelude.
Local Open Scope Z_scope.

Definition RuneError : Z := 0xFFFD.
Definition RuneSelf : Z := 0x80.
Definition MaxRune : Z := 0x10FFFF.
Definition byte_ok (b : Z) : Prop := 0 ≤ b < 256.

Definition in_range (lo hi b : Z) : bool := (lo <=? b) && (b <=? hi).

(** Size and accepted second byte for a lead byte, the package's [first] and
    [acceptRanges] tables; [None] for ASCII and invalid lead bytes. *)
Definition lead (b : Z) : option (Z * Z * Z) :=
  if in_range 0xC2 0xDF b then Some (2, 0x80, 0xBF)
  else if b =? 0xE0 then Some (3, 0xA0, 0xBF)
  else if b =? 0xED then Some (3, 0x80, 0x9F)
  else if in_range 0xE1 0xEF b then Some (3, 0x80, 0xBF)
  else if b =? 0xF0 then Some (4, 0x90, 0xBF)
  else if in_range 0xF1 0xF3 b then Some (4, 0x80, 0xBF)
  else if b =? 0xF4 then Some (4, 0x80, 0x8F)
  else None.

Definition cont (b : Z) : bool := in_range 0x80 0xBF b.

Definition DecodeRune (p : list Z) : Z * Z :=
  match p with
  | [] => (RuneError, 0)
  | b0 :: rest =>
    if b0 <? RuneSelf then (b0, 1) else
    match lead b0, rest with
    | Some (sz, lo, hi), b1 :: rest1 =>
      if len p <? sz then (RuneError, 1) else
      if negb (in_range lo hi b1) then (RuneError, 1) else
      if sz <=? 2 then (Z.lor (Z.shiftl (Z.land b0 0x1F) 6) (Z.land b1 0x3F), 2) else
      match rest1 with
      | b2 :: rest2 =>
        if negb (cont b2) then (RuneError, 1) else
        if sz <=? 3 then
          (Z.lor (Z.lor (Z.shiftl (Z.land b0 0x0F) 12) (Z.shiftl (Z.land b1 0x3F) 6))
                 (Z.land b2 0x3F), 3) else
        match rest2 with
        | b3 :: _ =>
          if negb (cont b3) then (RuneError, 1) else
          (Z.lor (Z.lor (Z.lor (Z.shiftl (Z.land b0 0x07) 18) (Z.shiftl (Z.land b1 0x3F) 12))
                        (Z.shiftl (Z.land b2 0x3F) 6))
                 (Z.land b3 0x3F), 4)
        | [] => (RuneError, 1)
        end
      | [] => (RuneError, 1)
      end
    | _, _ => (RuneError, 1)
    end
  end.

Definition RuneStart (b : Z) : bool := negb (Z.land b 0xC0 =? 0x80).

(** The backward walk of [DecodeLastRune] from [start], at most [n] bytes. *)
Fixpoint last_rune_start (p : list Z) (n : nat) (start lim : Z) : Z :=
  match n with
  | O => start
  | S n =>
    if start <? lim then start
    else match zget p start with
         | Some b => if RuneStart b then start else last_rune_start p n (start - 1) lim
         | None => start
         end
  end.

Definition DecodeLastRune (p : list Z) : Z * Z :=
  let fin := len p in
  match zget p (fin - 1) with
  | None => (RuneError, 0)
  | Some r =>
    if r <? RuneSelf then (r, 1) else
    let lim := Z.max 0 (fin - 4) in
    let start := Z.max 0 (last_rune_start p 4 (fin - 2) lim) in
    let '(r, size) := DecodeRune (slice p start fin) in
    if start + size =? fin then (r, size) else (RuneError, 1)
  end.

(** Scalar values other than the surrogates. *)
Definition valid_rune (r : Z) : bool :=
  in_range 0 0xD7FF r || in_range 0xE000 0x10FFFF r.

Definition EncodeRune (r : Z) : list Z :=
  if in_range 0 0x7F r then [r]
  else if in_range 0x80 0x7FF r then
    [Z.lor 0xC0 (Z.shiftr r 6); Z.lor 0x80 (Z.land r 0x3F)]
  else if in_range 0x800 0xD7FF r || in_range 0xE000 0xFFFF r then
    [Z.lor 0xE0 (Z.shiftr r 12); Z.lor 0x80 (Z.land (Z.shiftr r 6) 0x3F);
     Z.lor 0x80 (Z.land r 0x3F)]
  else if in_range 0x10000 0x10FFFF r then
    [Z.lor 0xF0 (Z.shiftr r 18); Z.lor 0x80 (Z.land (Z.shiftr r 12) 0x3F);
     Z.lor 0x80 (Z.land (Z.shiftr r 6) 0x3F); Z.lor 0x80 (Z.land r 0x3F)]
  else [0xEF; 0xBF; 0xBD].

Definition RuneLen (r : Z) : Z :=
  if r <? 0 then -1
  else if r <=? 0x7F then 1
  else if r <=? 0x7FF then 2
  else if in_range 0xD800 0xDFFF r then -1
  else if r <=? 0xFFFF then 3
  else if r <=? 0x10FFFF then 4
  else -1.

(** ** Bit arithmetic *)

Lemma land_ones_mod a n m k :
  0 ≤ n → m = Z.ones n → 2 ^ n = k → Z.land a m = a mod k.
Proof. intros Hn -> <-. by apply Z.land_ones. Qed.

Lemma lor_shiftl_add a b n : 0 ≤ n → 0 ≤ b < 2 ^ n → Z.lor (Z.shiftl a n) b = a * 2 ^ n + b.
Proof.
  intros Hn Hb. rewrite <-Z.shiftl_mul_pow2 by done.
  pose proof (Z.add_lor_land (Z.shiftl a n) b) as Hadd.
  assert (Z.land (Z.shiftl a n) b = 0) as Hland;
    [clear Hadd|by rewrite <-Hadd, Hland, Z.add_0_r].
  apply Z.bits_inj'. intros i Hi. rewrite Z.land_spec, Z.bits_0.
  destruct (Z.lt_ge_cases i n).
  - by rewrite Z.shiftl_spec_low.
  - destruct (decide (b = 0)) as [->|]; [by rewrite Z.bits_0, andb_false_r|].
    rewrite (Z.bits_above_log2 b); [by rewrite andb_false_r|lia|].
    apply Z.log2_lt_pow2; [lia|]. apply Z.lt_le_trans with (2 ^ n); [lia|].
    by apply Z.pow_le_mono_r.
Qed.

(** Shift-and-or assembly of rune bits, as arithmetic. *)
Ltac bits_arith :=
  repeat (first
    [ rewrite (land_ones_mod _ 3 0x07 8) by done
    | rewrite (land_ones_mod _ 4 0x0F 16) by done
    | rewrite (land_ones_mod _ 5 0x1F 32) by done
    | rewrite (land_ones_mod _ 6 0x3F 64) by done ]).

Lemma join2 a b : 0 ≤ b < 64 → Z.lor (Z.shiftl a 6) b = a * 64 + b.
Proof. intros. by apply (lor_shiftl_add a b 6). Qed.

Lemma join3 a b c : 0 ≤ b < 64 → 0 ≤ c < 64 →
  Z.lor (Z.lor (Z.shiftl a 12) (Z.shiftl b 6)) c = a * 4096 + b * 64 + c.
Proof.
  intros. replace (Z.shiftl a 12) with (Z.shiftl (Z.shiftl a 6) 6) by (by rewrite Z.shiftl_shiftl).
  rewrite <-Z.shiftl_lor, !join2 by done. lia.
Qed.

Lemma join4 a b c d : 0 ≤ b < 64 → 0 ≤ c < 64 → 0 ≤ d < 64 →
  Z.lor (Z.lor (Z.lor (Z.shiftl a 18) (Z.shiftl b 12)) (Z.shiftl c 6)) d
  = a * 262144 + b * 4096 + c * 64 + d.
Proof.
  intros. replace (Z.shiftl a 18) with (Z.shiftl (Z.shiftl a 12) 6) by (by rewrite Z.shiftl_shiftl).
  replace (Z.shiftl b 12) with (Z.shiftl (Z.shiftl b 6) 6) by (by rewrite Z.shiftl_shiftl).
  rewrite <-!Z.shiftl_lor, join2, join3 by done. lia.
Qed.

(** ** Shape of a decoded rune *)

Lemma lead_spec b sz lo hi :
  lead b = Some (sz, lo, hi) →
  0x80 ≤ lo ∧ hi ≤ 0xBF ∧ 2 ≤ sz ≤ 4
  ∧ (sz = 2 → 0xC2 ≤ b ≤ 0xDF)
  ∧ (sz = 3 → 0xE0 ≤ b ≤ 0xEF ∧ (b = 0xE0 → lo = 0xA0) ∧ (b = 0xED → hi = 0x9F))
  ∧ (sz = 4 → 0xF0 ≤ b ≤ 0xF4 ∧ (b = 0xF0 → lo = 0x90) ∧ (b = 0xF4 → hi = 0x8F)).
Proof. unfold lead, in_range. repeat case_match; intros [= <- <- <-]; lia. Qed.

(** The four successful shapes and the error shape of [DecodeRune]. *)
Inductive decoded (p : list Z) : Z → Z → Prop :=
| decoded_ascii b rest : p = b :: rest → b < 0x80 → decoded p b 1
| decoded_error b rest : p = b :: rest → 0x80 ≤ b → decoded p RuneError 1
| decoded_2 b0 b1 rest : p = b0 :: b1 :: rest →
    lead b0 = Some (2, 0x80, 0xBF) → cont b1 = true →
    decoded p ((b0 - 0xC0) * 64 + (b1 - 0x80)) 2
| decoded_3 b0 b1 b2 rest lo hi : p = b0 :: b1 :: b2 :: rest →
    lead b0 = Some (3, lo, hi) → lo ≤ b1 ≤ hi → cont b2 = true →
    decoded p ((b0 - 0xE0) * 4096 + (b1 - 0x80) * 64 + (b2 - 0x80)) 3
| decoded_4 b0 b1 b2 b3 rest lo hi : p = b0 :: b1 :: b2 :: b3 :: rest →
    lead b0 = Some (4, lo, hi) → lo ≤ b1 ≤ hi → cont b2 = true → cont b3 = true →
    decoded p ((b0 - 0xF0) * 262144 + (b1 - 0x80) * 4096 + (b2 - 0x80) * 64 + (b3 - 0x80)) 4.

Lemma DecodeRune_decoded p r n : p ≠ [] → DecodeRune p = (r, n) → decoded p r n.
Proof.
  intros Hp. destruct p as [|b0 rest]; [done|]. unfold DecodeRune, RuneSelf.
  destruct (Z.ltb_spec b0 0x80) as [|Hb0];
    [intros [= <- <-]; by eapply decoded_ascii|].
  assert (decoded (b0 :: rest) RuneError 1) as Herr by by eapply decoded_error.
  destruct (lead b0) as [[[sz lo] hi]|] eqn:Hl; [|by intros [= <- <-]].
  pose proof (lead_spec _ _ _ _ Hl) as (Hlo & Hhi & Hsz & H2 & H3 & H4).
  destruct rest as [|b1 rest1]; [by intros [= <- <-]|].
  destruct (_ <? sz) eqn:Hn; [by intros [= <- <-]|].
  unfold cont, in_range.
  destruct (negb _) eqn:Hc1; [by intros [= <- <-]|].
  destruct (Z.leb_spec sz 2).
  { intros [= <- <-]. bits_arith. rewrite join2 by (apply Z.mod_pos_bound; lia).
    assert (sz = 2) as -> by lia.
    replace (b0 mod 32) with (b0 - 0xC0) by zdiv.
    replace (b1 mod 64) with (b1 - 0x80) by zdiv.
    eapply decoded_2; [done| |unfold cont, in_range; lia].
    revert Hl. unfold lead, in_range. repeat case_match; intros [= <- <-]; done || lia. }
  destruct rest1 as [|b2 rest2]; [by intros [= <- <-]|].
  destruct (negb ((128 <=? b2) && _)) eqn:Hc2; [by intros [= <- <-]|].
  destruct (Z.leb_spec sz 3).
  { intros [= <- <-]. bits_arith. rewrite join3 by (apply Z.mod_pos_bound; lia).
    assert (sz = 3) as -> by lia.
    replace (b0 mod 16) with (b0 - 0xE0) by zdiv.
    replace (b1 mod 64) with (b1 - 0x80) by zdiv.
    replace (b2 mod 64) with (b2 - 0x80) by zdiv.
    eapply decoded_3; [done|done|lia|unfold cont, in_range; lia]. }
  destruct rest2 as [|b3 rest3]; [by intros [= <- <-]|].
  destruct (negb ((128 <=? b3) && _)) eqn:Hc3; [by intros [= <- <-]|].
  intros [= <- <-]. bits_arith. rewrite join4 by (apply Z.mod_pos_bound; lia).
  assert (sz = 4) as -> by lia.
  replace (b0 mod 8) with (b0 - 0xF0) by zdiv.
  replace (b1 mod 64) with (b1 - 0x80) by zdiv.
  replace (b2 mod 64) with (b2 - 0x80) by zdiv.
  replace (b3 mod 64) with (b3 - 0x80) by zdiv.
  eapply decoded_4; [done|done|lia|unfold cont, in_range; lia..].
Qed.

(** A rune takes between one byte and four, all of them in the input. *)
Lemma DecodeRune_size p r n :
  p ≠ [] → DecodeRune p = (r, n) → 1 ≤ n ≤ 4 ∧ n ≤ len p.
Proof.
  intros Hp [b rest -> ?|b rest -> ?|b0 b1 rest -> ??|b0 b1 b2 rest lo hi -> ???
            |b0 b1 b2 b3 rest lo hi -> ????]%DecodeRune_decoded; try done;
    unfold len; cbn [length]; lia.
Qed.

(** Only the newline byte decodes to the newline rune; more generally a rune
    below 0x80 is its own single byte. *)
Lemma DecodeRune_ascii b rest r n :
  DecodeRune (b :: rest) = (r, n) → r < 0x80 → b = r ∧ n = 1.
Proof.
  intros H%DecodeRune_decoded; [|done].
  destruct H as [? ? [= <- <-] ?|? ? [= <- <-] ?|? ? ? [= <- ->] Hl Hc
    |? ? ? ? ? ? [= <- ->] Hl ? Hc|? ? ? ? ? ? ? [= <- ->] Hl ? Hc2 Hc3];
    [done|unfold RuneError; lia|..];
    apply lead_spec in Hl; unfold cont, in_range in *; lia.
Qed.

Lemma DecodeRune_lt_RuneSelf b rest : b < 0x80 → DecodeRune (b :: rest) = (b, 1).
Proof. intros. unfold DecodeRune, RuneSelf. by destruct (Z.ltb_spec b 0x80); [|lia]. Qed.

Lemma DecodeRune_newline b rest r n :
  DecodeRune (b :: rest) = (r, n) → (r =? 10) = (b =? 10).
Proof.
  intros Hd. destruct (Z.eqb_spec b 10) as [->|Hb].
  - rewrite DecodeRune_lt_RuneSelf in Hd by lia. by injection Hd as <- <-.
  - destruct (Z.eqb_spec r 10) as [->|]; [|done].
    apply DecodeRune_ascii in Hd as []; lia.
Qed.

(** The bytes of a multi-byte rune after the first are continuation bytes. *)
Lemma DecodeRune_tail p r n :
  p ≠ [] → DecodeRune p = (r, n) → Forall (λ b, 0x80 ≤ b) (slice p 1 n).
Proof.
  intros Hp [b rest -> ?|b rest -> ?|b0 b1 rest -> Hl Hc|b0 b1 b2 rest lo hi -> Hl ? Hc
            |b0 b1 b2 b3 rest lo hi -> Hl ? Hc2 Hc3]%DecodeRune_decoded; try done;
    unfold slice; cbn; try apply lead_spec in Hl; unfold cont, in_range in *;
    repeat constructor; lia.
Qed.

(** Bytes that do not continue a rune change nothing about the rune before. *)
Lemma DecodeRune_app p q :
  p ≠ [] → match q with [] => True | b :: _ => cont b = false end →
  DecodeRune (p ++ q) = DecodeRune p.
Proof.
  intros Hp Hq. destruct q as [|b q]; [by rewrite app_nil_r|].
  destruct p as [|b0 p]; [done|]. cbn [DecodeRune app]. destruct (b0 <? RuneSelf); [done|].
  destruct (lead b0) as [[[sz lo] hi]|] eqn:Hl; [|by destruct p].
  destruct (lead_spec _ _ _ _ Hl) as (Hlo & Hhi & Hsz & _).
  assert (in_range lo hi b = false) as Hb by (unfold cont, in_range in *; lia).
  destruct p as [|b1 [|b2 [|b3 p]]]; cbn [app]; rewrite ?len_cons, ?len_app, ?len_cons, ?len_nil.
  all: pose proof (len_nonneg q); try pose proof (len_nonneg p).
  all: repeat match goal with |- context [if ?c then _ else _] => destruct c eqn:?; cbn [negb] in * end;
       try done; try lia; try congruence.
Qed.

(** ** Encoding *)

(** The bytes of an encoded rune, as arithmetic. *)
Lemma EncodeRune_spec r :
  valid_rune r = true →
  (r < 0x80 ∧ EncodeRune r = [r])
  ∨ (0x80 ≤ r < 0x800 ∧ EncodeRune r = [0xC0 + r / 64; 0x80 + r mod 64])
  ∨ (0x800 ≤ r < 0x10000 ∧
     EncodeRune r = [0xE0 + r / 4096; 0x80 + r / 64 mod 64; 0x80 + r mod 64])
  ∨ (0x10000 ≤ r ≤ MaxRune ∧
     EncodeRune r = [0xF0 + r / 262144; 0x80 + r / 4096 mod 64; 0x80 + r / 64 mod 64;
                     0x80 + r mod 64]).
Proof.
  assert (∀ x, 0 ≤ x < 64 → Z.lor 0x80 x = 0x80 + x) as H80
    by (intros; by apply (lor_shiftl_add 2 x 6)).
  unfold valid_rune, EncodeRune, in_range, MaxRune. intros Hv.
  rewrite !(land_ones_mod _ 6 0x3F 64) by done. rewrite !Z.shiftr_div_pow2 by done.
  change (2 ^ 6) with 64. change (2 ^ 12) with 4096. change (2 ^ 18) with 262144.
  rewrite !H80 by (apply Z.mod_pos_bound; lia).
  repeat case_match; try lia.
  - left. split; [lia|done].
  - right; left. split; [lia|]. f_equal.
    apply (lor_shiftl_add 6 (r / 64) 5); [done|zdiv].
  - do 2 right; left. split; [lia|]. f_equal.
    apply (lor_shiftl_add 14 (r / 4096) 4); [done|zdiv].
  - do 3 right. split; [lia|]. f_equal.
    apply (lor_shiftl_add 30 (r / 262144) 3); [done|zdiv].
Qed.

(** The text of a list of runes. *)
Definition encode (rs : list Z) : list Z := concat (map EncodeRune rs).

Lemma EncodeRune_ne r : valid_rune r = true → EncodeRune r ≠ [].
Proof. intros Hv. by destruct (EncodeRune_spec r Hv) as [[_ ->]|[[_ ->]|[[_ ->]|[_ ->]]]]. Qed.

Lemma valid_rune_range r : valid_rune r = true → 0 ≤ r ≤ MaxRune ∧ ¬ (0xD800 ≤ r ≤ 0xDFFF).
Proof. unfold valid_rune, in_range, MaxRune. lia. Qed.

(** Decoding inverts encoding on every scalar value, whatever follows. *)
Lemma DecodeRune_EncodeRune r rest :
  valid_rune r = true → DecodeRune (EncodeRune r ++ rest) = (r, len (EncodeRune r)).
Proof.
  intros Hv. pose proof (valid_rune_range _ Hv) as [Hr Hs]. unfold MaxRune in *.
  destruct (EncodeRune_spec r Hv) as [[H ->]|[[H ->]|[[H ->]|[H ->]]]]; cbn [app];
    [by apply DecodeRune_lt_RuneSelf|..];
    unfold DecodeRune, RuneSelf, lead, cont, in_range, MaxRune in *.
  - repeat (case_match; try (exfalso; zdiv)); unfold len in *; cbn [length] in *; simplify_eq; try zdiv.
    f_equal. bits_arith. rewrite join2 by (apply Z.mod_pos_bound; lia). zdiv.
  - repeat (case_match; try (exfalso; zdiv)); unfold len in *; cbn [length] in *; simplify_eq; try zdiv;
    f_equal; bits_arith; rewrite join3 by (apply Z.mod_pos_bound; lia); zdiv.
  - repeat (case_match; try (exfalso; zdiv)); unfold len in *; cbn [length] in *; simplify_eq; try zdiv;
    f_equal; bits_arith; rewrite join4 by (apply Z.mod_pos_bound; lia); zdiv.
Qed.
