(* ===== verification/Points.v ===== *)
(** * Source positions

    The row/column arithmetic shared by the lexers, the rewriter, the UTF-16
    front end and the tree editor: [Point], [Range] and [InputEdit]
    (lexer.go, tree.go), the byte loop [computeNewEndPoint] (rewrite.go), its
    bulk version [advancePointByBytes] (parser_result_helpers.go), and
    [addPointDelta] (utf16.go).  Rows and columns are [uint32] and wrap. *)

From Stdlib Require Import ZArith Lia ZifyBool.
From stdpp Require Import base tactics list numbers option.
From S2P Require Import Prelude.
Local Open Scope Z_scope.

Record Point := mkPoint { Row : Z; Column : Z }.

Record Range := mkRange {
  StartByte : Z; EndByte : Z; StartPoint : Point; EndPoint : Point }.

Record InputEdit := mkInputEdit {
  eStartByte : Z; eOldEndByte : Z; eNewEndByte : Z;
  eStartPoint : Point; eOldEndPoint : Point; eNewEndPoint : Point }.

#[export] Instance Point_eq_dec : EqDecision Point.
Proof. solve_decision. Defined.
#[export] Instance Range_eq_dec : EqDecision Range.
Proof. solve_decision. Defined.
#[export] Instance InputEdit_eq_dec : EqDecision InputEdit.
Proof. solve_decision. Defined.

Definition newline : Z := 10.

Definition pointLessThan (a b : Point) : bool :=
  if negb (Row a =? Row b) then Row a <? Row b else Column a <? Column b.

Definition pointLessOrEqual (a b : Point) : bool :=
  if negb (Row a =? Row b) then Row a <? Row b else Column a <=? Column b.

(** One iteration of the byte loops. *)
Definition step_byte (p : Point) (b : Z) : Point :=
  if b =? newline then mkPoint (u32 (Row p + 1)) 0
  else mkPoint (Row p) (u32 (Column p + 1)).

Definition computeNewEndPoint (startPoint : Point) (newText : list Z) : Point :=
  foldl step_byte startPoint newText.

(** [bytes.Count] of a single byte and [bytes.LastIndexByte]. *)
Definition count_byte (c : Z) (b : list Z) : Z := len (filter (λ x, x = c) b).

Fixpoint last_index_from (c : Z) (b : list Z) (i last : Z) : Z :=
  match b with
  | [] => last
  | x :: b => last_index_from c b (i + 1) (if x =? c then i else last)
  end.
Definition LastIndexByte (b : list Z) (c : Z) : Z := last_index_from c b 0 (-1).

Definition advancePointByBytes (start : Point) (b : list Z) : Point :=
  if len b <? 256 then foldl step_byte start b
  else
    let lastNewline := LastIndexByte b newline in
    if lastNewline <? 0 then mkPoint (Row start) (u32 (Column start + u32 (len b)))
    else mkPoint (u32 (Row start + u32 (count_byte newline b)))
                 (u32 (len b - lastNewline - 1)).

Definition addPointDelta (start delta : Point) : Point :=
  if Row delta =? 0 then mkPoint (Row start) (u32 (Column start + Column delta))
  else mkPoint (u32 (Row start + Row delta)) (Column delta).

(** ** Reference: the position after a text, in closed form *)

(** Bytes after the last occurrence of [c], when there is one. *)
Fixpoint tail_len (c : Z) (b : list Z) (n : Z) : Z :=
  match b with
  | [] => n
  | x :: b => tail_len c b (if x =? c then 0 else n + 1)
  end.

Fixpoint has_byte (c : Z) (b : list Z) : bool :=
  match b with [] => false | x :: b => (x =? c) || has_byte c b end.

Definition point_after (p : Point) (b : list Z) : Point :=
  if has_byte newline b
  then mkPoint (u32 (Row p + count_byte newline b)) (u32 (tail_len newline b 0))
  else mkPoint (Row p) (if decide (b = []) then Column p else u32 (Column p + len b)).

Lemma count_byte_cons c x b : count_byte c (x :: b) = count_byte c b + (if x =? c then 1 else 0).
Proof.
  unfold count_byte. rewrite filter_cons. destruct (Z.eqb_spec x c); case_decide; try done;
  rewrite ?len_cons; lia.
Qed.

Lemma count_byte_nonneg c b : 0 ≤ count_byte c b.
Proof. apply len_nonneg. Qed.

Lemma count_byte_le c b : count_byte c b ≤ len b.
Proof. unfold count_byte, len. pose proof (length_filter (λ x, x = c) b). lia. Qed.

Lemma has_byte_count c b : has_byte c b = true → 0 < count_byte c b.
Proof.
  induction b as [|x b IH]; [done|]. cbn. rewrite count_byte_cons.
  pose proof (count_byte_nonneg c b). destruct (x =? c); cbn; [lia|]. intros ?%IH. lia.
Qed.

Section last_byte.
Context (c : Z).

Lemma tail_len_has b n m : has_byte c b = true → tail_len c b n = tail_len c b m.
Proof.
  revert n m. induction b as [|x b IH]; intros n m; [done|]. cbn.
  destruct (x =? c); [done|]. apply IH.
Qed.

Lemma tail_len_no b n : has_byte c b = false → tail_len c b n = n + len b.
Proof.
  revert n. induction b as [|x b IH]; intros n; cbn.
  - rewrite len_nil. lia.
  - destruct (x =? c); [done|]. intros ->%(IH (n + 1)). rewrite len_cons. lia.
Qed.

Lemma count_no b : has_byte c b = false → count_byte c b = 0.
Proof.
  induction b as [|x b IH]; [done|]. cbn. rewrite count_byte_cons.
  destruct (x =? c); [done|]. intros ->%IH. done.
Qed.

Lemma tail_len_bound b n : 0 ≤ n → 0 ≤ tail_len c b n ≤ n + len b.
Proof.
  revert n. induction b as [|x b IH]; intros n Hn; [unfold len; cbn; lia|].
  cbn [tail_len]. rewrite len_cons.
  destruct (x =? c); [specialize (IH 0)|specialize (IH (n + 1))]; lia.
Qed.

Lemma tail_len_lt b : has_byte c b = true → tail_len c b 0 ≤ len b - 1.
Proof.
  destruct b as [|x b]; [done|]. rewrite len_cons. cbn [has_byte tail_len].
  pose proof (tail_len_bound b 0). destruct (x =? c) eqn:Hx; cbn [orb]; [lia|].
  intros Hb. rewrite (tail_len_has _ (0 + 1) 0) by done. lia.
Qed.

Lemma last_index_from_spec b i last :
  last_index_from c b i last =
  if has_byte c b then i + len b - 1 - tail_len c b 0 else last.
Proof.
  revert i last. induction b as [|x b IH]; intros i last; [done|].
  cbn [last_index_from has_byte tail_len]. rewrite IH, len_cons.
  destruct (x =? c) eqn:Hx; cbn [orb].
  - destruct (has_byte c b) eqn:Hb; [lia|]. rewrite tail_len_no by done. lia.
  - destruct (has_byte c b) eqn:Hb; [|done]. rewrite (tail_len_has _ (0 + 1) 0) by done. lia.
Qed.

End last_byte.

Lemma foldl_step_byte_after p b : foldl step_byte p b = point_after p b.
Proof.
  revert p. induction b as [|x b IH]; intros [r c]; [done|].
  cbn [foldl]. rewrite IH. unfold point_after, step_byte.
  cbn [has_byte tail_len]. rewrite count_byte_cons.
  destruct (x =? newline) eqn:Hx; cbn [orb Row Column].
  - destruct (has_byte newline b) eqn:Hb; [f_equal; rewrite u32_add_l; f_equal; lia|].
    rewrite count_no, tail_len_no by done.
    f_equal. case_decide; by subst.
  - destruct (has_byte newline b) eqn:Hb.
    + rewrite (tail_len_has _ _ (0 + 1) 0) by done. f_equal; f_equal; lia.
    + rewrite (decide_False (P := x :: b = [])) by done. f_equal.
      case_decide as Hnil; [subst; cbn; f_equal; lia|].
      rewrite u32_add_l, len_cons. f_equal; lia.
Qed.

(** The bulk routine computes what the byte loop computes, on every input:
    both branches of its length test agree with the loop. *)
Lemma advancePointByBytes_loop p b : advancePointByBytes p b = computeNewEndPoint p b.
Proof.
  unfold advancePointByBytes, computeNewEndPoint. destruct (Z.ltb_spec (len b) 256); [done|].
  rewrite foldl_step_byte_after. unfold point_after, LastIndexByte.
  rewrite last_index_from_spec. destruct (has_byte newline b) eqn:Hb.
  - pose proof (tail_len_lt _ _ Hb). destruct (Z.ltb_spec (0 + len b - 1 - tail_len newline b 0) 0); [lia|].
    rewrite u32_add_r. f_equal. f_equal. lia.
  - cbn. rewrite u32_add_r, decide_False; [done|]. by intros ->.
Qed.

(** Positions compose over concatenated texts. *)
Lemma computeNewEndPoint_app p a b :
  computeNewEndPoint p (a ++ b) = computeNewEndPoint (computeNewEndPoint p a) b.
Proof. apply foldl_app. Qed.

Definition point_ok (p : Point) : Prop := 0 ≤ Row p < 2 ^ 32 ∧ 0 ≤ Column p < 2 ^ 32.

Lemma computeNewEndPoint_ok p b : point_ok p → point_ok (computeNewEndPoint p b).
Proof.
  unfold computeNewEndPoint. revert p. induction b as [|x b IH]; intros p Hp; [done|].
  apply IH. destruct Hp. unfold step_byte. case_match; split; cbn; auto using u32_range; lia.
Qed.

(** Offsetting by the position a text has at the origin is the same as walking
    the text from the start point, as long as the text has fewer than 2^32
    rows (the sentinel row count 0 must mean that there is no newline). *)
Lemma addPointDelta_after p b :
  point_ok p → count_byte newline b < 2 ^ 32 →
  addPointDelta p (computeNewEndPoint (mkPoint 0 0) b) = computeNewEndPoint p b.
Proof.
  intros [Hr Hc] Hn. unfold computeNewEndPoint. rewrite !foldl_step_byte_after.
  unfold point_after, addPointDelta. destruct (has_byte newline b) eqn:Hb; cbn [Row Column].
  - pose proof (has_byte_count _ _ Hb).
    rewrite (u32_id (0 + count_byte newline b)) by lia.
    destruct (Z.eqb_spec (0 + count_byte newline b) 0); [lia|]. done.
  - cbn. f_equal. case_decide; [rewrite Z.add_0_r; by apply u32_id|]. by rewrite u32_add_r.
Qed.

(** A non-empty run without a newline only moves the column. *)
Lemma computeNewEndPoint_flat p b :
  b ≠ [] → Forall (λ x, x ≠ newline) b →
  computeNewEndPoint p b = mkPoint (Row p) (u32 (Column p + len b)).
Proof.
  intros Hb Hn. unfold computeNewEndPoint. rewrite foldl_step_byte_after. unfold point_after.
  assert (has_byte newline b = false) as ->; [|by rewrite decide_False].
  clear Hb. induction Hn as [|x b Hx Hn IH]; [done|]. cbn. rewrite IH.
  by destruct (Z.eqb_spec x newline).
Qed.

(** The row and column of a byte offset of a source. *)
Definition offset_point (src : list Z) (pos : Z) : Point :=
  computeNewEndPoint (mkPoint 0 0) (slice src 0 pos).

Lemma offset_point_step src i j :
  0 ≤ i → i ≤ j → computeNewEndPoint (offset_point src i) (slice src i j) = offset_point src j.
Proof.
  intros. unfold offset_point. by rewrite <-computeNewEndPoint_app, slice_app_split by lia.
Qed.

(** A text shorter than 2^32 bytes has no more rows or columns than bytes. *)
Lemma offset_point_bounds src x :
  0 ≤ x ≤ len src → len src < 2 ^ 32 →
  0 ≤ Row (offset_point src x) ≤ x ∧ 0 ≤ Column (offset_point src x) ≤ x.
Proof.
  intros Hx Hl. unfold offset_point, computeNewEndPoint. rewrite foldl_step_byte_after.
  pose proof (len_slice src 0 x ltac:(lia) ltac:(lia) ltac:(lia)) as Hs.
  set (b := slice src 0 x) in *. pose proof (count_byte_nonneg newline b).
  pose proof (count_byte_le newline b). pose proof (tail_len_bound newline b 0).
  unfold point_after. destruct (has_byte newline b); cbn; [rewrite !u32_id by lia; lia|].
  case_decide; [lia|]. rewrite u32_id by lia. lia.
Qed.
