(* ===== verification/SliceSort.v ===== *)
(** * Sorting slices

    [sort.Slice] promises a permutation ordered by [less] and nothing about
    elements that [less] does not separate.  The class states exactly that
    contract; the components that sort are proved against it, for every
    sorter, and [insertion_sort] is the executable instance used in the
    concrete examples. *)

From Stdlib Require Import ZArith Lia.
From stdpp Require Import base tactics list numbers sorting.
From S2P Require Import Prelude.

(** The comparison functions that [sort.Slice] accepts. *)
Record strict_weak {A} (less : A → A → bool) : Prop := {
  less_asym : ∀ x y, less x y = true → less y x = false;
  less_negtrans : ∀ x y z, less y x = false → less z y = false → less z x = false }.

Class SliceSort := {
  sort_slice : ∀ {A : Type}, (A → A → bool) → list A → list A;
  sort_slice_perm : ∀ (A : Type) (less : A → A → bool) (l : list A),
    sort_slice less l ≡ₚ l;
  sort_slice_sorted : ∀ (A : Type) (less : A → A → bool) (l : list A),
    strict_weak less → StronglySorted (λ x y, less y x = false) (sort_slice less l) }.

Section insertion.
Context {A : Type} (less : A → A → bool).

Fixpoint insert_sorted (x : A) (l : list A) : list A :=
  match l with
  | [] => [x]
  | y :: l => if less y x then y :: insert_sorted x l else x :: y :: l
  end.

Definition insertion_sort (l : list A) : list A := foldr insert_sorted [] l.

Lemma insert_sorted_perm x l : insert_sorted x l ≡ₚ x :: l.
Proof.
  induction l as [|y l IH]; cbn; [done|]. case_match; [|done].
  rewrite IH. apply Permutation_swap.
Qed.

Lemma insertion_sort_perm l : insertion_sort l ≡ₚ l.
Proof. induction l as [|x l IH]; cbn; [done|]. by rewrite insert_sorted_perm, IH. Qed.

Lemma insert_sorted_sorted x l :
  strict_weak less → StronglySorted (λ x y, less y x = false) l →
  StronglySorted (λ x y, less y x = false) (insert_sorted x l).
Proof.
  intros Hw. induction 1 as [|y l Hl IH Hy]; cbn; [repeat constructor|].
  destruct (less y x) eqn:E; constructor; try done.
  - rewrite insert_sorted_perm. constructor; [|done]. by apply (less_asym _ Hw).
  - by constructor.
  - constructor; [done|]. eapply Forall_impl; [exact Hy|]. cbn. intros z Hz.
    by eapply (less_negtrans _ Hw).
Qed.

Lemma insertion_sort_sorted l :
  strict_weak less → StronglySorted (λ x y, less y x = false) (insertion_sort l).
Proof. intros Hw. induction l; cbn; [constructor|]. by apply insert_sorted_sorted. Qed.

End insertion.

#[export] Instance insertion_slice_sort : SliceSort := {
  sort_slice := @insertion_sort;
  sort_slice_perm := @insertion_sort_perm;
  sort_slice_sorted := @insertion_sort_sorted }.

(** Sorting by an integer key, the case of every caller here. *)
Lemma strict_weak_key {A} (f : A → Z) : strict_weak (λ x y, (f x <? f y)%Z).
Proof. split; intros *; lia. Qed.

(** Lexicographic comparison by two integer keys. *)
Definition less2 {A} (f g : A → Z) (x y : A) : bool :=
  if negb (f x =? f y)%Z then (f x <? f y)%Z else (g x <? g y)%Z.

Lemma strict_weak_less2 {A} (f g : A → Z) : strict_weak (less2 f g).
Proof. split; intros *; unfold less2; repeat case_match; lia. Qed.

Lemma less2_false {A} (f g : A → Z) x y :
  less2 f g y x = false → (f x <= f y)%Z ∧ (f x = f y → g x <= g y)%Z.
Proof. unfold less2. case_match; lia. Qed.

(** Where [less] separates all elements the order is unique. *)
Lemma sorted_unique {A} (less : A → A → bool) (l1 l2 : list A) :
  StronglySorted (λ x y, less y x = false) l1 → StronglySorted (λ x y, less y x = false) l2 → l1 ≡ₚ l2 →
  (∀ x y, x ∈ l1 → y ∈ l1 → less x y = false → less y x = false → x = y) → l1 = l2.
Proof.
  intros H1. revert l2. induction H1 as [|x l1 Hl1 IH Hx]; intros l2 H2 P Hanti.
  { by apply Permutation_nil_l in P as <-. }
  destruct H2 as [|y l2 Hl2 Hy]; [by apply Permutation_nil_r in P|].
  assert (x = y) as <-.
  { assert (x ∈ y :: l2) as Hxin by (rewrite <-P; constructor).
    assert (y ∈ x :: l1) as Hyin by (rewrite P; constructor).
    apply elem_of_cons in Hxin as [->|Hxin]; [done|].
    apply elem_of_cons in Hyin as [->|Hyin]; [done|].
    rewrite Forall_forall in Hx, Hy.
    apply Hanti; [constructor|by constructor|by apply Hy|by apply Hx]. }
  f_equal. apply Permutation_cons_inv in P.
  apply IH; [done|done|]. intros z z' Hz Hz'. apply Hanti; by constructor.
Qed.

(** With distinct keys every sorter returns the same slice. *)
Lemma sort_slice_unique {A} (less : A → A → bool) (S1 S2 : SliceSort) (l : list A) :
  strict_weak less →
  (∀ x y, x ∈ l → y ∈ l → less x y = false → less y x = false → x = y) →
  @sort_slice S1 A less l = @sort_slice S2 A less l.
Proof.
  intros Hw Hanti. apply (sorted_unique less); [by apply sort_slice_sorted..|by rewrite !sort_slice_perm|].
  intros x y. rewrite !sort_slice_perm. apply Hanti.
Qed.

(** Sorting by a total order forgets the order of the input. *)
Lemma sort_slice_total `{SliceSort} {A} (less : A → A → bool) (l l' : list A) : strict_weak less →
  (∀ x y, less x y = false → less y x = false → x = y) → l ≡ₚ l' → sort_slice less l = sort_slice less l'.
Proof.
  intros Hw Hanti Hp. apply (sorted_unique less); [by apply sort_slice_sorted..|by rewrite !sort_slice_perm|].
  intros x y _ _. apply Hanti.
Qed.

Lemma StronglySorted_weaken {A} (R Q : A → A → Prop) l :
  (∀ x y, R x y → Q x y) → StronglySorted R l → StronglySorted Q l.
Proof.
  intros HRQ. induction 1 as [|x l Hl IH Hx]; constructor; [done|].
  eapply Forall_impl; [exact Hx|auto].
Qed.

Lemma filter_StronglySorted {A} (R : relation A) (Q : A → Prop) `{∀ x, Decision (Q x)} l :
  StronglySorted R l → StronglySorted R (filter Q l).
Proof.
  induction 1 as [|x l _ IH Hx]; [constructor|]. rewrite filter_cons. case_decide; [|done].
  constructor; [done|]. apply list.Forall_forall. intros y [_ Hy]%list_elem_of_filter.
  rewrite list.Forall_forall in Hx. auto.
Qed.

Lemma StronglySorted_zget {A} (R : A → A → Prop) l i j x y :
  StronglySorted R l → zget l i = Some x → zget l j = Some y → (i < j)%Z → R x y.
Proof.
  intros Hs. revert i j. induction Hs as [|z l Hs IH Hz]; intros i j Hi Hj Hij;
    [by apply zget_elem, elem_of_nil in Hi|].
  pose proof (zget_Some_range _ _ _ Hi). rewrite (zget_cons_ne z l j) in Hj by lia.
  destruct (decide (i = 0%Z)) as [->|].
  - injection Hi as <-. by eapply Forall_forall, zget_elem.
  - rewrite zget_cons_ne in Hi by done. apply (IH (i - 1)%Z (j - 1)%Z); [done..|lia].
Qed.

(** ** Increasing lists of integers *)

Notation increasing := (StronglySorted Z.lt).

Lemma increasing_NoDup l : increasing l → NoDup l.
Proof.
  induction 1 as [|x l Hl IH Hx]; [constructor|]. constructor; [|done].
  intros Hin. rewrite list.Forall_forall in Hx. specialize (Hx x Hin). lia.
Qed.

(** Increasing lists with the same elements are equal. *)
Lemma increasing_ext l k : increasing l → increasing k → (∀ x, x ∈ l ↔ x ∈ k) → l = k.
Proof.
  intros Hl Hk Hin. apply (StronglySorted_unique_strong Z.lt); [lia|done..|].
  apply NoDup_Permutation; [by apply increasing_NoDup..|done].
Qed.

Section sort_ints.
Context `{SliceSort}.

(** [sort.Ints]. *)
Definition sort_ints (l : list Z) : list Z := sort_slice Z.ltb l.

Lemma sort_ints_perm l : sort_ints l ≡ₚ l.
Proof. apply sort_slice_perm. Qed.

Lemma sort_ints_elem l x : x ∈ sort_ints l ↔ x ∈ l.
Proof. by rewrite sort_ints_perm. Qed.

Lemma sort_ints_increasing l : NoDup l → increasing (sort_ints l).
Proof.
  intros Hnd. assert (NoDup (sort_ints l)) as Hnd' by (by rewrite sort_ints_perm).
  pose proof (sort_slice_sorted _ Z.ltb l (strict_weak_key (λ z, z))) as Hs.
  change (sort_slice Z.ltb l) with (sort_ints l) in Hs. revert Hnd'.
  induction Hs as [|x k Hk IH Hx]; intros Hnd'; [constructor|].
  apply NoDup_cons in Hnd' as [Hnx Hnd']. constructor; [by apply IH|].
  rewrite list.Forall_forall in Hx |- *. intros y Hy. specialize (Hx y Hy).
  assert (x ≠ y) by (intros ->; done). lia.
Qed.
End sort_ints.

Fixpoint sublists {A} (l : list A) : list (list A) :=
  match l with [] => [[]] | x :: l => map (cons x) (sublists l) ++ sublists l end.

Lemma length_sublists {A} (l : list A) : length (sublists l) = (2 ^ length l)%nat.
Proof. induction l as [|x l IH]; cbn; [done|]. rewrite length_app, length_map, IH. lia. Qed.

Lemma filter_sublists {A} (P : A → Prop) `{∀ x, Decision (P x)} l : filter P l ∈ sublists l.
Proof.
  induction l as [|x l IH]; [left|]. rewrite filter_cons. cbn [sublists]. apply elem_of_app.
  case_decide; [left|by right]. apply list_elem_of_fmap. eauto.
Qed.

Lemma increasing_seqZ n m : increasing (seqZ n m).
Proof.
  unfold seqZ. generalize (Z.to_nat m). intros j. revert n.
  induction j as [|j IH]; intros n; [constructor|].
  cbn [seq fmap list_fmap]. constructor.
  - rewrite <-fmap_S_seq, <-list_fmap_compose.
    specialize (IH (Z.succ n)). erewrite list_fmap_ext; [exact IH|]. intros i x _. cbn. lia.
  - apply list.Forall_forall. intros x (y & -> & Hy)%list_elem_of_fmap. apply elem_of_seq in Hy. lia.
Qed.

(** Binary search by a key: the elements below [v] are those before one index,
    and the element there is the one with the key, if there is one. *)
Section cut.
Local Open Scope Z_scope.
Context {A : Type} (f : A → Z) (l : list A) (v : Z).

Definition below : Z := len (filter (λ x, f x < v) l).

Lemma below_range : 0 ≤ below ≤ len l.
Proof. unfold below, len. pose proof (length_filter (λ x, f x < v) l). lia. Qed.

Lemma below_spec h x : increasing (map f l) → zget l h = Some x → f x < v ↔ h < below.
Proof.
  unfold below. revert h. induction l as [|y k IH]; intros h Hinc Hx; [by rewrite zget_nil in Hx|].
  cbn in Hinc. apply StronglySorted_inv in Hinc as [Hinc Hy].
  assert (¬ f y < v → filter (λ x, f x < v) k = []) as Hnone.
  { intros Hge. apply filter_Forall_nil, list.Forall_forall. intros z Hz. rewrite list.Forall_forall in Hy.
    specialize (Hy (f z) ltac:(apply list_elem_of_fmap; eauto)). lia. }
  pose proof (zget_Some_range _ _ _ Hx) as Hr. rewrite filter_cons. destruct (decide (h = 0)) as [->|Hh].
  - injection Hx as <-. case_decide; [unfold len; cbn; lia|]. rewrite Hnone by done. unfold len. cbn. lia.
  - rewrite zget_cons_ne in Hx by done. rewrite (IH (h - 1) Hinc Hx). case_decide; [unfold len; cbn; lia|].
    rewrite Hnone by done. unfold len. cbn. lia.
Qed.

Lemma below_find : increasing (map f l) →
  (∃ x, zget l below = Some x ∧ f x = v) ∨ ((v ∉ map f l) ∧ ∀ x, zget l below = Some x → f x ≠ v).
Proof.
  intros Hinc. destruct (decide (v ∈ map f l)) as [Hin|Hnot]; [left|right].
  - apply list_elem_of_fmap in Hin as (x & -> & (h & Hh & Hx)%elem_zget). exists x. split; [|done].
    pose proof (below_spec h x Hinc Hx) as Hb. pose proof below_range as Hr.
    destruct (decide (h = below)) as [<-|Hne]; [done|]. assert (below < h) as Hlt by lia.
    destruct (zget_in_range l below) as [y Hy]; [lia|]. exfalso. pose proof (below_spec below y Hinc Hy).
    assert (f y < f x); [|lia]. eapply (StronglySorted_zget Z.lt (map f l) below h); [done|by rewrite zget_map, Hy|by rewrite zget_map, Hx|done].
  - split; [done|]. intros x Hx <-. apply Hnot, list_elem_of_fmap. exists x. split; [done|by eapply zget_elem].
Qed.

Lemma below_search : increasing (map f l) → ∀ (test : Z → go bool),
  (∀ h x, zget l h = Some x → test h = Ret (negb (f x <? v))) → search_loop test (length l) 0 (len l) = Ret below.
Proof.
  intros Hinc test Htest. pose proof below_range as Hr. apply search_loop_spec; [|lia|lia|unfold len; lia].
  intros h Hh. destruct (zget_in_range l h Hh) as [x Hx]. rewrite (Htest h x Hx). f_equal.
  pose proof (below_spec h x Hinc Hx). lia.
Qed.
End cut.
