(* ===== verification/Tokens.v ===== *)
(** * Tokens and token sources

    [Token] (lexer.go) with every field the lexers fill in, and the
    [TokenSource] interface of parser_api.go as a record of operations on an
    explicit state; the optional extensions, which Go tests with a type
    assertion, are optional operations. *)

From Stdlib Require Import ZArith Lia.
From stdpp Require Import base tactics list numbers option.
From S2P Require Import Prelude Points.
Local Open Scope Z_scope.

Record Token := mkToken {
  tSymbol : Z;
  tText : list Z;
  tStartByte : Z;
  tEndByte : Z;
  tStartPoint : Point;
  tEndPoint : Point;
  tMissing : bool;
  tNoLookahead : bool;
  tExternalScannerToken : bool;
  tExternalScannerStartByte : Z;
  tlexerSkippedPrefix : bool;
  tlexerSkippedPrefixStart : Z;
  tlexerErrorModeLexed : bool;
  tlexerInternalDFALexed : bool;
  tisKeyword : bool }.

Definition point0 : Point := mkPoint 0 0.

(** A token with a symbol, a text and a span, the other fields zero. *)
Definition span_token (sym : Z) (text : list Z) (sb eb : Z) (sp ep : Point) : Token :=
  mkToken sym text sb eb sp ep false false false 0 false 0 false false false.

(** [Token{}]. *)
Definition zeroToken : Token := span_token 0 [] 0 0 point0 point0.

Definition errorSymbol : Z := 65535.

Definition set_skippedPrefix (t : Token) (start : Z) : Token :=
  mkToken (tSymbol t) (tText t) (tStartByte t) (tEndByte t) (tStartPoint t) (tEndPoint t)
    (tMissing t) (tNoLookahead t) (tExternalScannerToken t) (tExternalScannerStartByte t)
    true start (tlexerErrorModeLexed t) (tlexerInternalDFALexed t) (tisKeyword t).

(** The interface a token source offers; [None] is a failed type assertion. *)
Record TokenSource := {
  ts_state : Type;
  ts_Next : ts_state → Token * ts_state;
  ts_SkipToByte : option (ts_state → Z → Token * ts_state);
  ts_SkipToByteWithPoint : option (ts_state → Z → Point → Token * ts_state);
  ts_CanRelexFromTokenStart : option (ts_state → Token → bool);
  ts_RelexFromTokenStart : option (ts_state → Token → option Token * ts_state);
  ts_SetParserState : option (ts_state → Z → ts_state);
  ts_SetGLRStates : option (ts_state → list Z → ts_state);
  ts_Reset : option (ts_state → list Z → ts_state) }.
