(* ===== verification/IncludedRanges.v ===== *)
(** * Included ranges

    included_ranges.go: [normalizeIncludedRanges], which turns the caller's
    ranges into sorted disjoint ones, and the token-source wrapper
    [includedRangeTokenSource], which drops the tokens outside them; and the
    range coalescing of tree.go ([coalesceRanges]) that [ChangedRanges] and
    [DiffChangedRanges] use.  Both sorts go through [SliceSort]. *)

From Stdlib Require Import ZArith Lia ZifyBool.
From stdpp Require Import base tactics list numbers option sorting.
From S2P Require Import Prelude SliceSort Points Tokens.
Local Open Scope Z_scope.

Section normalize.
Context `{SS : SliceSort}.

(** The comparison closure of both sorts. *)
Definition range_less (x y : Range) : bool := less2 StartByte EndByte x y.

(** The merge loop, with [cur] the range being extended. *)
Fixpoint merge_included (cur : Range) (rs : list Range) : list Range :=
  match rs with
  | [] => [cur]
  | r :: rs =>
    if StartByte r <=? EndByte cur then
      if EndByte r >? EndByte cur
      then merge_included (mkRange (StartByte cur) (EndByte r) (StartPoint cur) (EndPoint r)) rs
      else merge_included cur rs
    else cur :: merge_included r rs
  end.

Definition normalizeIncludedRanges (ranges : list Range) : list Range :=
  match ranges with
  | [] => []
  | _ =>
    let tmp := filter (λ r, ¬ (EndByte r ≤ StartByte r)) ranges in
    match sort_slice range_less tmp with
    | [] => []
    | cur :: rest => merge_included cur rest
    end
  end.

Definition rangesOverlapOrTouch (a b : Range) : bool :=
  negb ((EndByte a <? StartByte b) || (EndByte b <? StartByte a)).

Fixpoint coalesce_loop (cur : Range) (rs : list Range) : list Range :=
  match rs with
  | [] => [cur]
  | r :: rs =>
    if rangesOverlapOrTouch cur r then
      let cur := if StartByte r <? StartByte cur
                 then mkRange (StartByte r) (EndByte cur) (StartPoint r) (EndPoint cur) else cur in
      let cur := if EndByte r >? EndByte cur
                 then mkRange (StartByte cur) (EndByte r) (StartPoint cur) (EndPoint r) else cur in
      coalesce_loop cur rs
    else cur :: coalesce_loop r rs
  end.

Definition coalesceRanges (rin : list Range) : list Range :=
  if len rin <=? 1 then rin
  else match sort_slice range_less rin with
       | [] => []
       | cur :: rest => coalesce_loop cur rest
       end.

Definition ChangedRanges (edits : list InputEdit) : list Range :=
  match edits with
  | [] => []
  | _ => coalesceRanges
           (map (λ e, mkRange (eStartByte e) (eNewEndByte e) (eStartPoint e) (eNewEndPoint e)) edits)
  end.

(** ** What the merge promises *)

(** A byte offset is selected by some range; the closed form also counts the
    end offset, which is what touching means for [coalesceRanges]. *)
Definition covered (rs : list Range) (p : Z) : Prop :=
  ∃ r, r ∈ rs ∧ StartByte r ≤ p < EndByte r.
Definition covered_closed (rs : list Range) (p : Z) : Prop :=
  ∃ r, r ∈ rs ∧ StartByte r ≤ p ≤ EndByte r.

(** In order, with a gap of at least one byte between any two ranges. *)
Definition gapped (rs : list Range) : Prop :=
  StronglySorted (λ a b, EndByte a < StartByte b) rs.
Definition nonempty (r : Range) : Prop := StartByte r < EndByte r.
Definition ordered (r : Range) : Prop := StartByte r ≤ EndByte r.
Definition by_start (rs : list Range) : Prop :=
  StronglySorted (λ a b, StartByte a ≤ StartByte b) rs.

(** The start and the end of a range are copied, with their points, from input
    ranges. *)
Definition from_inputs (rs : list Range) (r : Range) : Prop :=
  (∃ a, a ∈ rs ∧ StartByte a = StartByte r ∧ StartPoint a = StartPoint r) ∧
  (∃ b, b ∈ rs ∧ EndByte b = EndByte r ∧ EndPoint b = EndPoint r).

Lemma sort_by_start l : by_start (sort_slice range_less l).
Proof.
  eapply StronglySorted_weaken; [|apply sort_slice_sorted, strict_weak_less2].
  intros x y H%less2_false. tauto.
Qed.

Lemma covered_cons r rs p :
  covered (r :: rs) p ↔ StartByte r ≤ p < EndByte r ∨ covered rs p.
Proof.
  unfold covered. setoid_rewrite elem_of_cons. split.
  - intros (r' & [->|?] & ?); [by left|right; eauto].
  - intros [?|(r' & ? & ?)]; eauto.
Qed.

Lemma covered_closed_cons r rs p :
  covered_closed (r :: rs) p ↔ StartByte r ≤ p ≤ EndByte r ∨ covered_closed rs p.
Proof.
  unfold covered_closed. setoid_rewrite elem_of_cons. split.
  - intros (r' & [->|?] & ?); [by left|right; eauto].
  - intros [?|(r' & ? & ?)]; eauto.
Qed.

(** Every property of ranges that survives extending the end survives the merge. *)
Lemma merge_included_Forall (P : Range → Prop) cur rs :
  (∀ a b, P a → P b → StartByte a ≤ StartByte b → EndByte a < EndByte b →
     P (mkRange (StartByte a) (EndByte b) (StartPoint a) (EndPoint b))) →
  by_start (cur :: rs) → Forall P (cur :: rs) → Forall P (merge_included cur rs).
Proof.
  intros Hext. revert cur. induction rs as [|r rs IH]; intros cur Hs Hne; cbn; [done|].
  inversion_clear Hs as [|? ? Hs' Hcur]. apply Forall_cons in Hne as [Hc Hne'].
  inversion Hs' as [|? ? Hrs Hr]; subst. apply Forall_cons in Hcur as [Hcr Hcrs].
  pose proof (proj1 (Forall_cons _ _ _) Hne') as [? ?].
  destruct (_ <=? _); [destruct (Z.gtb_spec (EndByte r) (EndByte cur))|].
  - apply IH; constructor; auto.
  - apply IH; by constructor.
  - constructor; [done|]. by apply IH.
Qed.

(** Nothing in the merge starts before the first range. *)
Lemma merge_included_starts cur rs :
  by_start (cur :: rs) → Forall (λ r, StartByte cur ≤ StartByte r) (merge_included cur rs).
Proof.
  intros Hs. apply (merge_included_Forall (λ r, StartByte cur ≤ StartByte r)); [done|done|].
  inversion Hs; subst. by constructor; [|].
Qed.

Lemma merge_included_gapped cur rs : by_start (cur :: rs) → gapped (merge_included cur rs).
Proof.
  revert cur. induction rs as [|r rs IH]; intros cur Hs; cbn; [repeat constructor|].
  inversion_clear Hs as [|? ? Hs' Hcur].
  inversion Hs' as [|? ? Hrs Hr]; subst. apply Forall_cons in Hcur as [Hcr Hcrs].
  destruct (Z.leb_spec (StartByte r) (EndByte cur)).
  - destruct (_ >? _); apply IH; by constructor.
  - constructor; [by apply IH|].
    eapply Forall_impl; [by apply merge_included_starts|]. cbn. lia.
Qed.

Lemma merge_included_covered cur rs p :
  by_start (cur :: rs) → covered (merge_included cur rs) p ↔ covered (cur :: rs) p.
Proof.
  revert cur. induction rs as [|r rs IH]; intros cur Hs; cbn; [done|].
  inversion_clear Hs as [|? ? Hs' Hcur]. inversion Hs' as [|? ? Hrs Hr]; subst.
  apply Forall_cons in Hcur as [Hcr Hcrs].
  destruct (Z.leb_spec (StartByte r) (EndByte cur)).
  - destruct (Z.gtb_spec (EndByte r) (EndByte cur)); rewrite IH by (constructor; done);
      rewrite !covered_cons; cbn; intuition lia.
  - rewrite covered_cons, IH by done. by rewrite (covered_cons cur).
Qed.

Lemma merge_included_covered_closed cur rs p :
  by_start (cur :: rs) → covered_closed (merge_included cur rs) p ↔ covered_closed (cur :: rs) p.
Proof.
  revert cur. induction rs as [|r rs IH]; intros cur Hs; cbn; [done|].
  inversion_clear Hs as [|? ? Hs' Hcur]. inversion Hs' as [|? ? Hrs Hr]; subst.
  apply Forall_cons in Hcur as [Hcr Hcrs].
  destruct (Z.leb_spec (StartByte r) (EndByte cur)).
  - destruct (Z.gtb_spec (EndByte r) (EndByte cur)); rewrite IH by (constructor; done);
      rewrite !covered_closed_cons; cbn; intuition lia.
  - rewrite covered_closed_cons, IH by done. by rewrite (covered_closed_cons cur).
Qed.

Lemma merge_included_from inputs cur rs :
  from_inputs inputs cur → Forall (λ r, r ∈ inputs) rs →
  Forall (from_inputs inputs) (merge_included cur rs).
Proof.
  revert cur. induction rs as [|r rs IH]; intros cur Hc Hrs; cbn; [by constructor|].
  apply Forall_cons in Hrs as [Hr Hrs].
  repeat case_match; try constructor; eauto.
  - apply IH; [|done]. split; [apply Hc|]. by exists r.
  - apply IH; [|done]. split; by exists r.
Qed.

(** A gapped list is its own merge. *)
Lemma merge_included_id cur rs : gapped (cur :: rs) → merge_included cur rs = cur :: rs.
Proof.
  revert cur. induction rs as [|r rs IH]; intros cur Hg; [done|]. cbn.
  inversion_clear Hg as [|? ? Hg' Hcur]. apply Forall_cons in Hcur as [? _].
  destruct (Z.leb_spec (StartByte r) (EndByte cur)); [lia|]. by rewrite IH.
Qed.

(** ** Normalization *)

(** The cases of [normalizeIncludedRanges]: nothing left after the filter, or
    the merge of a sorted permutation of what is left. *)
Lemma normalizeIncludedRanges_cases ranges :
  let tmp := filter (λ r, ¬ (EndByte r ≤ StartByte r)) ranges in
  (tmp = [] ∧ normalizeIncludedRanges ranges = []) ∨
  ∃ cur rest, cur :: rest ≡ₚ tmp ∧ sort_slice range_less tmp = cur :: rest ∧
    by_start (cur :: rest) ∧ Forall nonempty (cur :: rest) ∧
    normalizeIncludedRanges ranges = merge_included cur rest.
Proof.
  intros tmp. pose proof (sort_slice_perm _ range_less tmp) as Hp.
  pose proof (sort_by_start tmp) as Hs.
  assert (Forall nonempty (sort_slice range_less tmp)) as Hne.
  { rewrite Hp. apply Forall_forall. intros r [? ?]%list_elem_of_filter. unfold nonempty. lia. }
  unfold normalizeIncludedRanges. destruct ranges as [|r0 rs0]; [by left|].
  fold tmp. destruct (sort_slice range_less tmp) as [|cur rest]; [left|right].
  - by apply Permutation_nil_l in Hp.
  - by exists cur, rest.
Qed.

Lemma normalize_gapped ranges :
  gapped (normalizeIncludedRanges ranges) ∧ Forall nonempty (normalizeIncludedRanges ranges).
Proof.
  destruct (normalizeIncludedRanges_cases ranges)
    as [[_ ->]|(cur & rest & Hp & _ & Hs & Hne & ->)]; [repeat constructor|].
  split; [by apply merge_included_gapped|].
  apply merge_included_Forall; [|done..]. unfold nonempty. cbn. lia.
Qed.

Lemma normalize_covered ranges p : covered (normalizeIncludedRanges ranges) p ↔ covered ranges p.
Proof.
  assert (covered (filter (λ r, ¬ (EndByte r ≤ StartByte r)) ranges) p ↔ covered ranges p) as Hf.
  { unfold covered. setoid_rewrite list_elem_of_filter. split; [by intros (r & [] & ?); exists r|].
    intros (r & ? & ?). exists r. split; [|done]. split; [lia|done]. }
  destruct (normalizeIncludedRanges_cases ranges)
    as [[Ht ->]|(cur & rest & Hp & _ & Hs & _ & ->)]; rewrite <-Hf; [by rewrite Ht|].
  rewrite merge_included_covered by done. unfold covered. by setoid_rewrite Hp.
Qed.

Lemma normalize_from ranges : Forall (from_inputs ranges) (normalizeIncludedRanges ranges).
Proof.
  destruct (normalizeIncludedRanges_cases ranges)
    as [[_ ->]|(cur & rest & Hp & _ & Hs & _ & ->)]; [constructor|].
  assert (∀ r, r ∈ cur :: rest → r ∈ ranges) as Hin.
  { intros r. rewrite Hp. by intros [_ ?]%list_elem_of_filter. }
  apply merge_included_from.
  - split; exists cur; (split; [apply Hin; constructor|done]).
  - apply Forall_forall. intros r Hr. apply Hin. by constructor.
Qed.

(** Sorting a list that is already strictly ordered changes nothing. *)
Lemma sort_gapped_id rs : gapped rs → Forall nonempty rs → sort_slice range_less rs = rs.
Proof.
  intros Hg Hne.
  assert (StronglySorted (λ x y, StartByte x < StartByte y) rs) as Hlt.
  { induction Hg as [|r rs Hg IH Hr]; constructor; apply Forall_cons in Hne as [? ?]; [auto|].
    eapply Forall_impl; [exact Hr|]. unfold nonempty in *. cbn. lia. }
  clear Hg Hne. pose proof (sort_slice_perm _ range_less rs) as Hp.
  pose proof (sort_by_start rs) as Hs. revert Hs Hp. generalize (sort_slice range_less rs).
  induction Hlt as [|r rs Hlt IH Hr]; intros l Hs Hp; [by apply Permutation_nil_r in Hp|].
  destruct Hs as [|x l Hs Hx]; [by apply Permutation_nil_l in Hp|].
  assert (x = r) as ->.
  { assert (x ∈ r :: rs) as Hxin by (rewrite <-Hp; constructor).
    assert (r ∈ x :: l) as Hrin by (rewrite Hp; constructor).
    apply elem_of_cons in Hxin as [->|Hxin]; [done|].
    apply elem_of_cons in Hrin as [->|Hrin]; [done|].
    rewrite Forall_forall in Hr, Hx. specialize (Hr _ Hxin). specialize (Hx _ Hrin). lia. }
  f_equal. apply Permutation_cons_inv in Hp. by apply IH.
Qed.

Lemma normalize_id rs : gapped rs → Forall nonempty rs → normalizeIncludedRanges rs = rs.
Proof.
  intros Hg Hne. unfold normalizeIncludedRanges. destruct rs as [|r rs]; [done|].
  rewrite filter_Forall_id, sort_gapped_id; [by apply merge_included_id|done..|].
  eapply Forall_impl; [exact Hne|]. unfold nonempty. lia.
Qed.

(** ** Coalescing *)

(** On sorted well-ordered ranges the coalescing loop is the merge loop. *)
Lemma coalesce_loop_merge cur rs :
  by_start (cur :: rs) → Forall ordered (cur :: rs) →
  coalesce_loop cur rs = merge_included cur rs.
Proof.
  revert cur. induction rs as [|r rs IH]; intros cur Hs Hwf; [done|]. cbn.
  inversion_clear Hs as [|? ? Hs' Hcur]. inversion Hs' as [|? ? Hrs Hr]; subst.
  apply Forall_cons in Hcur as [Hcr Hcrs]. apply Forall_cons in Hwf as [Hc Hwf'].
  pose proof (proj1 (Forall_cons _ _ _) Hwf') as [Hro Hrso].
  unfold rangesOverlapOrTouch, ordered in *.
  destruct (Z.ltb_spec (EndByte r) (StartByte cur)); [lia|].
  destruct (Z.ltb_spec (EndByte cur) (StartByte r)), (Z.leb_spec (StartByte r) (EndByte cur));
    try lia; cbn; [by rewrite IH|].
  destruct (Z.ltb_spec (StartByte r) (StartByte cur)); [lia|].
  destruct (_ >? _) eqn:?; apply IH; constructor; cbn; try done; lia.
Qed.

End normalize.

(** ** The token-source wrapper *)

Section wrapper.
Context (ts : TokenSource) (ranges : list Range).

(** [includedRangeTokenSource]: the base source's state and the range index. *)
Record includedRangeTokenSource := mkIncluded { irBase : ts_state ts; irIdx : Z }.

Fixpoint advance_idx (rs : list Range) (idx start : Z) : Z :=
  match rs with
  | [] => idx
  | r :: rs => if EndByte r <=? start then advance_idx rs (idx + 1) start else idx
  end.

Definition advanceToMatchingRange (idx : Z) (tok : Token) : bool * Z :=
  let idx := advance_idx (drop (Z.to_nat idx) ranges) idx (tStartByte tok) in
  (idx <? len ranges, idx).

Definition tokenInCurrentRange (idx : Z) (tok : Token) : bool :=
  if (tSymbol tok =? 0) || (len ranges <=? idx) then false
  else match zget ranges idx with
       | Some r => (tStartByte tok <? EndByte r) && (StartByte r <? tEndByte tok)
       | None => false
       end.

(** Seek the base to [off] when it can, otherwise read on; the flag says
    whether the token in hand is still to be examined. *)
Definition reseek (st : ts_state ts) (off : Z) (tok : Token) : Token * bool * ts_state ts :=
  match ts_SkipToByte ts with
  | Some skip => let '(tok, st) := skip st off in (tok, true, st)
  | None => (tok, false, st)
  end.

Fixpoint filterToken (fuel : nat) (s : includedRangeTokenSource) (tok : Token) (hasToken : bool)
  : go (Token * includedRangeTokenSource) :=
  match fuel with
  | O => NoFuel
  | S fuel =>
    let '(tok, st) := if hasToken then (tok, irBase s) else ts_Next ts (irBase s) in
    if tSymbol tok =? 0 then Ret (tok, mkIncluded st (irIdx s)) else
    let '(ok, idx) := advanceToMatchingRange (irIdx s) tok in
    if negb ok then
      Ret (span_token 0 [] (tEndByte tok) (tEndByte tok) (tEndPoint tok) (tEndPoint tok),
           mkIncluded st idx)
    else
      r ← index ranges idx;
      if (tStartByte tok <? StartByte r) && (tEndByte tok <=? StartByte r) then
        let '(tok, has, st) := reseek st (StartByte r) tok in
        filterToken fuel (mkIncluded st idx) tok has
      else if tStartByte tok <? StartByte r then
        match ts_SkipToByte ts with
        | Some skip =>
          let '(tok, st) := skip st (StartByte r) in
          filterToken fuel (mkIncluded st idx) tok true
        | None => Ret (tok, mkIncluded st idx)
        end
      else if tEndByte tok <=? StartByte r then
        let '(tok, has, st) := reseek st (StartByte r) tok in
        filterToken fuel (mkIncluded st idx) tok has
      else if EndByte r <=? tStartByte tok then
        filterToken fuel (mkIncluded st (idx + 1)) tok true
      else Ret (tok, mkIncluded st idx)
  end.

Definition irNext (fuel : nat) (s : includedRangeTokenSource) : go (Token * includedRangeTokenSource) :=
  filterToken fuel s zeroToken false.

(** The fallback loop of [SkipToByte] reads tokens up to the offset. *)
Fixpoint skip_loop (n fuel : nat) (s : includedRangeTokenSource) (offset : Z)
  : go (Token * includedRangeTokenSource) :=
  match n with
  | O => NoFuel
  | S n =>
    '(tok, s) ← irNext fuel s;
    if (tSymbol tok =? 0) || (offset <=? tStartByte tok) then Ret (tok, s)
    else skip_loop n fuel s offset
  end.

Definition irSkipToByte (n fuel : nat) (s : includedRangeTokenSource) (offset : Z)
  : go (Token * includedRangeTokenSource) :=
  match ts_SkipToByte ts with
  | Some skip => let '(tok, st) := skip (irBase s) offset in
                 filterToken fuel (mkIncluded st (irIdx s)) tok true
  | None => skip_loop n fuel s offset
  end.

Definition irSkipToByteWithPoint (n fuel : nat) (s : includedRangeTokenSource) (offset : Z) (pt : Point)
  : go (Token * includedRangeTokenSource) :=
  match ts_SkipToByteWithPoint ts with
  | Some skip => let '(tok, st) := skip (irBase s) offset pt in
                 filterToken fuel (mkIncluded st (irIdx s)) tok true
  | None => irSkipToByte n fuel s offset
  end.

Definition irRelexFromTokenStart (s : includedRangeTokenSource) (tok : Token)
  : option Token * includedRangeTokenSource :=
  match ts_RelexFromTokenStart ts with
  | None => (None, s)
  | Some relex =>
    if negb (tokenInCurrentRange (irIdx s) tok) then (None, s) else
    let '(res, st) := relex (irBase s) tok in
    let s := mkIncluded st (irIdx s) in
    match res with
    | None => (None, s)
    | Some next =>
      if negb (tStartByte next =? tStartByte tok)
         || negb (bool_decide (tStartPoint next = tStartPoint tok))
         || negb (tokenInCurrentRange (irIdx s) next)
      then (None, s) else (Some next, s)
    end
  end.

Definition irReset (s : includedRangeTokenSource) (source : list Z) : includedRangeTokenSource :=
  mkIncluded (match ts_Reset ts with Some f => f (irBase s) source | None => irBase s end) 0.

Definition irSetParserState (s : includedRangeTokenSource) (state : Z) : includedRangeTokenSource :=
  mkIncluded (match ts_SetParserState ts with Some f => f (irBase s) state | None => irBase s end)
    (irIdx s).

Definition irSetGLRStates (s : includedRangeTokenSource) (states : list Z) : includedRangeTokenSource :=
  mkIncluded (match ts_SetGLRStates ts with Some f => f (irBase s) states | None => irBase s end)
    (irIdx s).

(** *** Facts about the range index *)

Lemma advance_idx_ge rs idx start : idx ≤ advance_idx rs idx start.
Proof.
  revert idx. induction rs as [|r rs IH]; intros idx; cbn; [lia|].
  case_match; [|lia]. specialize (IH (idx + 1)). lia.
Qed.

(** The index stops at the first range that ends after [start]. *)
Lemma advance_idx_spec rs idx start :
  let i := advance_idx rs idx start in
  0 ≤ i - idx ≤ len rs ∧
  (∀ k r, 0 ≤ k < i - idx → zget rs k = Some r → EndByte r ≤ start) ∧
  (∀ r, zget rs (i - idx) = Some r → start < EndByte r).
Proof.
  revert idx. induction rs as [|r rs IH]; intros idx; cbn.
  - rewrite Z.sub_diag. split_and!; [lia|unfold len; cbn; lia|lia|done].
  - rewrite len_cons. destruct (Z.leb_spec (EndByte r) start).
    + destruct (IH (idx + 1)) as (Hlen & Hbefore & Hat). set (i := advance_idx _ _ _) in *.
      split_and!; [lia|lia| |].
      * intros k r' Hk Hr'. destruct (decide (k = 0)) as [->|]; [by injection Hr' as <-|].
        rewrite zget_cons_ne in Hr' by done. apply (Hbefore (k - 1)); [lia|done].
      * intros r' Hr'. apply Hat. rewrite zget_cons_ne in Hr' by lia. rewrite <-Hr'.
        f_equal. lia.
    + rewrite Z.sub_diag. pose proof (len_nonneg rs). split_and!; [lia|lia|lia|].
      intros r' Hr'. by injection Hr' as <-.
Qed.

Lemma advanceToMatchingRange_spec idx tok ok i :
  0 ≤ idx ≤ len ranges → advanceToMatchingRange idx tok = (ok, i) →
  idx ≤ i ≤ len ranges ∧ (ok = true ↔ i < len ranges) ∧
  (∀ k r, idx ≤ k < i → zget ranges k = Some r → EndByte r ≤ tStartByte tok) ∧
  (∀ r, zget ranges i = Some r → tStartByte tok < EndByte r).
Proof.
  intros Hidx [= <- <-].
  destruct (advance_idx_spec (drop (Z.to_nat idx) ranges) idx (tStartByte tok)) as (Hl & Hb & Ha).
  rewrite len_drop in Hl by done. set (i := advance_idx _ _ _) in *.
  split_and!; [lia|lia|lia| |].
  - intros k r Hk Hr. apply (Hb (k - idx)); [lia|]. rewrite zget_drop by lia.
    rewrite <-Hr. f_equal. lia.
  - intros r Hr. apply Ha. rewrite zget_drop by lia. rewrite <-Hr. f_equal. lia.
Qed.

(** Every token the wrapper returns, end of input apart, overlaps the range
    the index points at; the index never moves back. *)
Lemma filterToken_overlaps fuel s tok has t s' :
  0 ≤ irIdx s ≤ len ranges →
  filterToken fuel s tok has = Ret (t, s') → tSymbol t ≠ 0 →
  irIdx s ≤ irIdx s' < len ranges ∧ tokenInCurrentRange (irIdx s') t = true.
Proof.
  revert s tok has. induction fuel as [|fuel IH]; intros s tok has Hs; cbn [filterToken]; [done|].
  destruct (if has then _ else _) as [tok1 st].
  destruct (Z.eqb_spec (tSymbol tok1) 0); [intros [= <- <-]; done|].
  destruct (advanceToMatchingRange (irIdx s) tok1) as [ok i] eqn:Hadv.
  apply advanceToMatchingRange_spec in Hadv as (Hi & Hok & Hb & Ha); [|done].
  destruct ok; cbn [negb]; [|intros [= <- <-]; done].
  assert (i < len ranges) as Hlt by by apply Hok.
  destruct (zget_in_range ranges i) as [r Hr]; [lia|].
  intros H Ht. apply go_bind_ret in H as (r' & Hr'%index_Ret & H).
  rewrite Hr in Hr'. injection Hr' as <-. specialize (Ha r Hr).
  assert (∀ st' i' tok' has', i ≤ i' ≤ len ranges →
    filterToken fuel (mkIncluded st' i') tok' has' = Ret (t, s') →
    irIdx s ≤ irIdx s' < len ranges ∧ tokenInCurrentRange (irIdx s') t = true) as IH'.
  { intros st' i' tok' has' Hi' H'. apply IH in H' as [? ?]; cbn in *; [|lia|done].
    split; [lia|done]. }
  assert (∀ st', StartByte r < tEndByte tok1 → (tok1, mkIncluded st' i) = (t, s') →
    irIdx s ≤ irIdx s' < len ranges ∧ tokenInCurrentRange (irIdx s') t = true) as Hret.
  { intros st' He [= <- <-]. cbn. split; [lia|]. unfold tokenInCurrentRange. rewrite Hr.
    repeat (case_match || zcases); lia. }
  destruct (Z.ltb_spec (tStartByte tok1) (StartByte r)), (Z.leb_spec (tEndByte tok1) (StartByte r));
    cbn [andb] in H.
  - destruct (reseek st _ _) as [[tok2 has2] st2]. eapply IH'; [|exact H]. lia.
  - destruct (ts_SkipToByte ts) as [skip|]; [destruct (skip st _) as [tok2 st2]|].
    + eapply IH'; [|exact H]. lia.
    + injection H as H. eapply Hret; [lia|]. by f_equal.
  - destruct (reseek st _ _) as [[tok2 has2] st2]. eapply IH'; [|exact H]. lia.
  - destruct (Z.leb_spec (EndByte r) (tStartByte tok1)); [lia|].
    injection H as H. eapply Hret; [lia|]. by f_equal.
Qed.

(** *** The wrapper as a filter of the base stream *)

(** The base source yields exactly these tokens, then end of input. *)
Fixpoint produces (st : ts_state ts) (toks : list Token) : Prop :=
  match toks with
  | [] => tSymbol (ts_Next ts st).1 = 0
  | t :: toks => tSymbol t ≠ 0 ∧ ∃ st', ts_Next ts st = (t, st') ∧ produces st' toks
  end.

Definition overlaps (t : Token) (r : Range) : bool :=
  (tStartByte t <? EndByte r) && (StartByte r <? tEndByte t).
Definition selected (t : Token) : Prop := existsb (overlaps t) ranges = true.
#[export] Instance selected_dec t : Decision (selected t).
Proof. unfold selected. apply _. Defined.

(** Tokens in source order, as a lexer emits them. *)
Definition in_order (toks : list Token) : Prop :=
  StronglySorted (λ a b, tStartByte a ≤ tStartByte b) toks.

(** The ranges before the index end before every token still to come. *)
Definition passed (idx : Z) (toks : list Token) : Prop :=
  ∀ k r t, 0 ≤ k < idx → zget ranges k = Some r → t ∈ toks → EndByte r ≤ tStartByte t.

(** The tokens read until end of input, at most [n]. *)
Fixpoint drain (n fuel : nat) (s : includedRangeTokenSource) : list Token :=
  match n with
  | O => []
  | S n =>
    match irNext fuel s with
    | Ret (t, s) => if tSymbol t =? 0 then [] else t :: drain n fuel s
    | _ => []
    end
  end.

Lemma selected_iff t : selected t ↔ ∃ r, r ∈ ranges ∧ overlaps t r = true.
Proof.
  unfold selected. rewrite existsb_exists. by setoid_rewrite list_elem_of_In.
Qed.

(** A token left of the current range overlaps no range. *)
Lemma not_selected_before t i r :
  gapped ranges → Forall nonempty ranges → zget ranges i = Some r →
  tEndByte t ≤ StartByte r →
  (∀ k r', 0 ≤ k < i → zget ranges k = Some r' → EndByte r' ≤ tStartByte t) →
  ¬ selected t.
Proof.
  intros Hg Hne Hr He Hb (r' & (k & Hk & Hr')%elem_zget & Ho)%selected_iff.
  unfold overlaps in Ho. destruct (decide (k < i)); [specialize (Hb k r' ltac:(lia) Hr'); lia|].
  destruct (decide (k = i)) as [->|]; [simplify_eq; lia|].
  assert (EndByte r < StartByte r'); [|apply zget_elem in Hr; rewrite Forall_forall in Hne;
    specialize (Hne _ Hr); unfold nonempty in Hne; lia].
  by apply (StronglySorted_zget _ _ i k r r' Hg Hr Hr'); lia.
Qed.

Lemma not_selected_past t :
  (∀ k r, 0 ≤ k < len ranges → zget ranges k = Some r → EndByte r ≤ tStartByte t) → ¬ selected t.
Proof.
  intros Hb (r' & (k & Hk & Hr')%elem_zget & Ho)%selected_iff.
  unfold overlaps in Ho. specialize (Hb k r' Hk Hr'). lia.
Qed.

(** The result of one call: the first selected token and a state that is ready
    for the tokens after it, or end of input when no token is selected. *)
Definition first_selected (toks : list Token) (res : go (Token * includedRangeTokenSource)) : Prop :=
  ∃ t s', res = Ret (t, s') ∧
    ((tSymbol t = 0 ∧ Forall (λ t, ¬ selected t) toks) ∨
     (tSymbol t ≠ 0 ∧ ∃ pre post, toks = pre ++ t :: post ∧ Forall (λ t, ¬ selected t) pre ∧
        selected t ∧ produces (irBase s') post ∧ 0 ≤ irIdx s' ≤ len ranges ∧
        passed (irIdx s') post)).

Lemma first_selected_skip t toks res :
  ¬ selected t → first_selected toks res → first_selected (t :: toks) res.
Proof.
  intros Hns (t' & s' & -> & Hcase). exists t', s'. split; [done|].
  destruct Hcase as [[? ?]|(? & pre & post & -> & ? & ?)]; [left; by split; [|constructor]|].
  right. split; [done|]. exists (t :: pre), post. split; [done|]. by split; [constructor|].
Qed.

Lemma filterToken_first toks fuel st idx tok0 :
  ts_SkipToByte ts = None → gapped ranges → Forall nonempty ranges →
  produces st toks → in_order toks → 0 ≤ idx ≤ len ranges → passed idx toks →
  (length toks < fuel)%nat →
  first_selected toks (filterToken fuel (mkIncluded st idx) tok0 false).
Proof.
  intros Hseek Hg Hne. revert fuel st idx tok0.
  induction toks as [|t toks IH]; intros fuel st idx tok0 Hp Hs Hidx Hpass Hf;
    (destruct fuel as [|fuel]; [cbn in Hf; lia|]); cbn [filterToken irBase irIdx].
  { cbn in Hp. destruct (ts_Next ts st) as [t st'] eqn:E. cbn in Hp. rewrite Hp. cbn.
    exists t, (mkIncluded st' idx). split; [done|]. left. by split. }
  destruct Hp as (Hsym & st' & -> & Hp). inversion_clear Hs as [|? ? Hs' Hmin].
  destruct (Z.eqb_spec (tSymbol t) 0); [done|].
  destruct (advanceToMatchingRange idx t) as [ok i] eqn:Hadv.
  apply advanceToMatchingRange_spec in Hadv as (Hi & Hok & Hb & Ha); [|done].
  assert (passed i (t :: toks)) as Hpass'.
  { intros k r t' Hk Hr Ht'. assert (tStartByte t ≤ tStartByte t') as Hle.
    { apply elem_of_cons in Ht' as [->|Ht']; [lia|]. by eapply Forall_forall in Hmin. }
    destruct (decide (k < idx)); [eapply Hpass; [|done|done]; lia|].
    specialize (Hb k r ltac:(lia) Hr). lia. }
  destruct ok; cbn [negb].
  2:{ assert (i = len ranges) as ->.
      { destruct (decide (i < len ranges)) as [Hlt|]; [by apply Hok in Hlt|lia]. }
      eexists _, _. split; [done|]. left. split; [done|].
      apply Forall_forall. intros t' Ht'. apply not_selected_past. intros k r Hk Hr.
      by eapply Hpass'. }
  destruct (zget_in_range ranges i) as [r Hr]; [split; [lia|by apply Hok]|].
  rewrite (proj2 (index_Ret _ _ _) Hr). cbn [mbind go_bind]. specialize (Ha r Hr).
  assert (passed i toks) as Hpass'' by (intros k r' t' ???; eapply Hpass'; [done..|by constructor]).
  assert (tEndByte t ≤ StartByte r → first_selected (t :: toks)
    (let '(tok, has, st) := reseek st' (StartByte r) t in
     filterToken fuel (mkIncluded st i) tok has)) as Hskip.
  { intros He. apply first_selected_skip.
    - eapply not_selected_before; [done..|]. intros k r' Hk Hr'. eapply Hpass'; [done..|constructor].
    - unfold reseek. rewrite Hseek. apply IH; try done; [lia|cbn in Hf; lia]. }
  assert (StartByte r < tEndByte t → first_selected (t :: toks) (Ret (t, mkIncluded st' i))) as Hret.
  { intros He. exists t, (mkIncluded st' i). split; [done|]. right. split; [done|].
    exists [], toks. split_and!; try done; [|cbn; lia..].
    apply selected_iff. exists r. split; [by eapply zget_elem|]. unfold overlaps. lia. }
  destruct (Z.ltb_spec (tStartByte t) (StartByte r)), (Z.leb_spec (tEndByte t) (StartByte r));
    cbn [andb]; [by apply Hskip| |by apply Hskip|].
  - rewrite Hseek. by apply Hret.
  - destruct (Z.leb_spec (EndByte r) (tStartByte t)); [lia|]. by apply Hret.
Qed.

Lemma filter_skip_pre pre t post :
  Forall (λ t, ¬ selected t) pre → selected t →
  filter (λ t, selected t) (pre ++ t :: post) = t :: filter (λ t, selected t) post.
Proof.
  intros Hpre Ht. by rewrite filter_app, filter_cons_True, (filter_Forall_nil _ pre).
Qed.

Lemma drain_filter n fuel toks st idx :
  ts_SkipToByte ts = None → gapped ranges → Forall nonempty ranges →
  produces st toks → in_order toks → 0 ≤ idx ≤ len ranges → passed idx toks →
  (length toks < fuel)%nat → (length toks < n)%nat →
  drain n fuel (mkIncluded st idx) = filter (λ t, selected t) toks.
Proof.
  intros Hseek Hg Hne. revert toks st idx.
  induction n as [|n IH]; intros toks st idx Hp Hs Hidx Hpass Hf Hn; [lia|].
  cbn [drain]. unfold irNext.
  destruct (filterToken_first toks fuel st idx zeroToken) as (t & [st' idx'] & -> & Hcase); try done.
  destruct Hcase as [[-> Hall]|(Ht & pre & post & -> & Hpre & Hsel & Hp' & Hi' & Hpass')].
  - cbn. by rewrite filter_Forall_nil.
  - destruct (Z.eqb_spec (tSymbol t) 0); [done|]. rewrite filter_skip_pre by done. f_equal.
    rewrite length_app in Hf, Hn. cbn in Hf, Hn.
    apply IH; try done; [|lia..].
    apply StronglySorted_app_1_r in Hs. by inversion Hs.
Qed.

End wrapper.

(** ** Theorems *)

(** C29.  [normalizeIncludedRanges] returns non-empty ranges in increasing order
    with a gap between any two, which select exactly the byte offsets the
    caller's ranges select; each boundary keeps the point of an input range;
    and normalizing again changes nothing.  It holds for every sorter that
    meets the contract of [sort.Slice]. *)
Theorem normalizeIncludedRanges_correct `{SS : SliceSort} ranges :
  gapped (normalizeIncludedRanges ranges) ∧
  Forall nonempty (normalizeIncludedRanges ranges) ∧
  (∀ p, covered (normalizeIncludedRanges ranges) p ↔ covered ranges p) ∧
  Forall (from_inputs ranges) (normalizeIncludedRanges ranges) ∧
  normalizeIncludedRanges (normalizeIncludedRanges ranges) = normalizeIncludedRanges ranges.
Proof.
  pose proof (normalize_gapped ranges) as [Hg Hne].
  split_and!; auto using normalize_covered, normalize_from, normalize_id.
Qed.

(** What [coalesceRanges] makes of well-ordered ranges. *)
Lemma coalesceRanges_spec `{SS : SliceSort} rin :
  Forall ordered rin →
  gapped (coalesceRanges rin) ∧ Forall ordered (coalesceRanges rin) ∧
  (∀ p, covered_closed (coalesceRanges rin) p ↔ covered_closed rin p).
Proof.
  intros Hwf. unfold coalesceRanges. destruct (Z.leb_spec (len rin) 1).
  { split; [|done]. destruct rin as [|r [|r2 rs]]; [repeat constructor..|].
    rewrite !len_cons in *. pose proof (len_nonneg rs). lia. }
  pose proof (sort_slice_perm _ range_less rin) as Hp. pose proof (sort_by_start rin) as Hs.
  assert (Forall ordered (sort_slice range_less rin)) as Hwf' by by rewrite Hp.
  destruct (sort_slice range_less rin) as [|cur rest].
  { apply Permutation_nil_l in Hp as <-. unfold len in *. cbn in *. lia. }
  rewrite coalesce_loop_merge by done. split_and!.
  - by apply merge_included_gapped.
  - apply merge_included_Forall; [|done..]. unfold ordered. cbn. lia.
  - intros p. rewrite merge_included_covered_closed by done.
    unfold covered_closed. by setoid_rewrite Hp.
Qed.

(** [coalesceRanges] on well-ordered ranges returns ranges with a gap
    between any two that touch exactly the offsets, end offsets included, that
    the input ranges touch; a single range is returned as it is. *)
Theorem coalesceRanges_correct `{SS : SliceSort} rin :
  Forall ordered rin →
  gapped (coalesceRanges rin) ∧ Forall ordered (coalesceRanges rin) ∧
  (∀ p, covered_closed (coalesceRanges rin) p ↔ covered_closed rin p).
Proof. apply coalesceRanges_spec. Qed.

Definition ex_ranges : list Range :=
  [mkRange 8 12 (mkPoint 0 8) (mkPoint 0 12); mkRange 0 4 (mkPoint 0 0) (mkPoint 0 4);
   mkRange 4 6 (mkPoint 0 4) (mkPoint 0 6)].

Lemma coalesceRanges_correct_witness :
  Forall ordered ex_ranges ∧
  coalesceRanges ex_ranges =
    [mkRange 0 6 (mkPoint 0 0) (mkPoint 0 6); mkRange 8 12 (mkPoint 0 8) (mkPoint 0 12)] ∧
  gapped (coalesceRanges ex_ranges).
Proof.
  assert (Forall ordered ex_ranges) as H by (repeat constructor; unfold ordered; cbn; lia).
  split; [exact H|]. split; [vm_compute; reflexivity|].
  exact (proj1 (coalesceRanges_correct ex_ranges H)).
Defined.

(** Over a base source that cannot seek and yields the tokens [toks] in
    source order, the included-range wrapper yields exactly the tokens that
    overlap one of the normalized ranges, in order, and then end of input; it
    needs no more loop iterations per call than there are tokens. *)
Theorem included_source_filters (ts : TokenSource) (ranges : list Range) st toks fuel n :
  ts_SkipToByte ts = None → gapped ranges → Forall nonempty ranges →
  produces ts st toks → in_order toks → (length toks < fuel)%nat → (length toks < n)%nat →
  drain ts ranges n fuel (mkIncluded ts st 0) = filter (λ t, selected ranges t) toks.
Proof.
  intros. apply drain_filter; try done; [pose proof (len_nonneg ranges); lia|].
  intros k r t Hk. lia.
Qed.

(** A source that replays a list of tokens. *)
Definition list_source : TokenSource := {|
  ts_state := list Token;
  ts_Next := λ l, match l with [] => (zeroToken, []) | t :: l => (t, l) end;
  ts_SkipToByte := None; ts_SkipToByteWithPoint := None;
  ts_CanRelexFromTokenStart := None; ts_RelexFromTokenStart := None;
  ts_SetParserState := None; ts_SetGLRStates := None; ts_Reset := None |}.

Definition ex_token (sym a b : Z) : Token := span_token sym [] a b (mkPoint 0 a) (mkPoint 0 b).
Definition ex_toks : list Token := [ex_token 3 0 2; ex_token 4 2 7; ex_token 5 9 10; ex_token 6 12 14].
Definition ex_norm : list Range := normalizeIncludedRanges ex_ranges.

Lemma included_source_filters_witness :
  drain list_source ex_norm 10 10 (mkIncluded list_source ex_toks 0)
  = [ex_token 3 0 2; ex_token 4 2 7; ex_token 5 9 10].
Proof.
  rewrite (included_source_filters list_source ex_norm ex_toks ex_toks 10 10);
    [vm_compute; reflexivity|reflexivity| | | | |cbn; lia|cbn; lia].
  - apply (normalize_gapped ex_ranges).
  - apply (normalize_gapped ex_ranges).
  - cbn. repeat (split; [lia|]; eexists; split; [reflexivity|]). reflexivity.
  - repeat constructor; cbn; lia.
Defined.

(** A seekable source whose token at any offset is zero-width. *)
Definition empty_token_source : TokenSource := {|
  ts_state := Z;
  ts_Next := λ p, (ex_token 7 p p, p);
  ts_SkipToByte := Some (λ _ off, (ex_token 7 off off, off)); ts_SkipToByteWithPoint := None;
  ts_CanRelexFromTokenStart := None; ts_RelexFromTokenStart := None;
  ts_SetParserState := None; ts_SetGLRStates := None; ts_Reset := None |}.

(** C38.  Over a source that can seek, a zero-width token at the start of the
    selected range makes the wrapper seek to the same offset again and again:
    no number of iterations makes the call return, although the source meets
    the documented contract of [SkipToByte] (it returns a token at or after
    the requested offset). *)
Theorem filterToken_zero_width_livelock fuel r :
  0 ≤ StartByte r → nonempty r →
  filterToken empty_token_source [r] fuel (mkIncluded empty_token_source (StartByte r) 0)
    zeroToken false = NoFuel.
Proof.
  intros Hr Hne. unfold nonempty in Hne.
  assert (∀ fuel tok has, tok = ex_token 7 (StartByte r) (StartByte r) ∨ has = false →
    filterToken empty_token_source [r] fuel (mkIncluded empty_token_source (StartByte r) 0) tok has
    = NoFuel) as Hloop; [|apply Hloop; by right].
  clear fuel. induction fuel as [|fuel IH]; intros tok has Htok; [done|].
  assert (advance_idx (drop (Z.to_nat 0) [r]) 0 (StartByte r) = 0) as Hidx
    by (change (drop (Z.to_nat 0) [r]) with [r]; cbn; case_match; lia).
  cbn [filterToken irBase irIdx]. unfold advanceToMatchingRange.
  destruct has; [destruct Htok as [->|]; [|done]|]; cbn -[filterToken Z.ltb Z.leb];
    rewrite Hidx; change (0 <? len [r]) with true; change (index [r] 0) with (Ret r);
    cbn -[filterToken Z.ltb Z.leb]; rewrite Z.ltb_irrefl, Z.leb_refl; apply IH; by left.
Qed.

Lemma filterToken_zero_width_livelock_witness :
  filterToken empty_token_source [mkRange 3 9 (mkPoint 0 3) (mkPoint 0 9)] 1000
    (mkIncluded empty_token_source 3 0) zeroToken false = NoFuel.
Proof.
  apply (filterToken_zero_width_livelock 1000 (mkRange 3 9 (mkPoint 0 3) (mkPoint 0 9)));
    unfold nonempty; cbn; lia.
Defined.
