(* ===== verification/LexTable.v ===== *)
(** * Lexer tables

    The DFA tables of language.go: [LexState], [LexTransition], the ASCII
    fast-path table that [buildLexAsciiTable] derives from them, and the
    transition lookup that both DFA walks of the lexer perform (lexer.go and
    lexer_included_ranges.go contain the same lookup code). *)

From Stdlib Require Import ZArith Lia ZifyBool.
From stdpp Require Import base tactics list numbers option.
From S2P Require Import Prelude.
Local Open Scope Z_scope.

Record LexTransition := mkLexTransition {
  trLo : Z; trHi : Z; trNextState : Z; trSkip : bool }.

Record LexState := mkLexState {
  lsAcceptToken : Z;
  lsAcceptPriority : Z;
  lsSkip : bool;
  lsDefault : Z;
  lsEOF : Z;
  lsTransitions : list LexTransition }.

#[export] Instance LexTransition_eq_dec : EqDecision LexTransition.
Proof. solve_decision. Defined.
#[export] Instance LexState_eq_dec : EqDecision LexState.
Proof. solve_decision. Defined.

Definition lexAsciiNoMatch : Z := 0x7FFFFFFF.
Definition lexAsciiSkipBit : Z := - 2 ^ 31.

(** The inner loop: store [v] at the still unmatched columns [c, c+1, ...]. *)
Fixpoint fill_row (n : nat) (c v : Z) (row : list Z) (remaining : Z) : go (list Z * Z) :=
  match n with
  | O => Ret (row, remaining)
  | S n =>
    x ← index row c;
    if x =? lexAsciiNoMatch
    then row ← store row c v; fill_row n (c + 1) v row (remaining - 1)
    else fill_row n (c + 1) v row remaining
  end.

Definition ascii_entry (tr : LexTransition) : Z :=
  let v := i32 (trNextState tr) in
  if trSkip tr then Z.lor v lexAsciiSkipBit else v.

(** The loop over one state's transitions. *)
Fixpoint fill_transitions (trs : list LexTransition) (row : list Z) (remaining : Z) : go (list Z) :=
  match trs with
  | [] => Ret row
  | tr :: trs =>
    if remaining =? 0 then Ret row else
    if (trHi tr <? 0) || (128 <=? trLo tr) then fill_transitions trs row remaining else
    let lo := if trLo tr <? 0 then 0 else trLo tr in
    let hi := if 127 <? trHi tr then 127 else trHi tr in
    '(row, remaining) ← fill_row (Z.to_nat (hi - lo + 1)) lo (ascii_entry tr) row remaining;
    fill_transitions trs row remaining
  end.

Fixpoint buildLexAsciiTable (states : list LexState) : go (list (list Z)) :=
  match states with
  | [] => Ret []
  | st :: states =>
    row ← fill_transitions (lsTransitions st) (make 128 lexAsciiNoMatch) 128;
    rows ← buildLexAsciiTable states;
    Ret (row :: rows)
  end.

(** The linear search over a state's transitions. *)
Definition linear_transition (st : LexState) (r : Z) : Z * bool :=
  match list_find (λ tr, trLo tr ≤ r ∧ r ≤ trHi tr) (lsTransitions st) with
  | Some (_, tr) => (i32 (trNextState tr), trSkip tr)
  | None => (-1, false)
  end.

(** The default transition, taken when no transition matched; it never skips. *)
Definition with_default (st : LexState) (nextState : Z) (skipTransition : bool) : Z * bool :=
  let skipTransition := skipTransition && (0 <=? nextState) in
  if (nextState <? 0) && (0 <=? lsDefault st) then (i32 (lsDefault st), false)
  else (nextState, skipTransition).

(** The lookup of both DFA walks: the table for an ASCII byte when there is
    one, the linear search otherwise, then the default transition. *)
Definition lookup_transition (asciiTable : option (list (list Z))) (st : LexState)
    (curState b r : Z) : go (Z * bool) :=
  '(nextState, skipTransition) ←
    match asciiTable with
    | Some tbl =>
      if (b <? 0x80) && (curState <? len tbl) then
        row ← index tbl curState;
        v ← index row b;
        if v =? lexAsciiNoMatch then Ret (-1, false)
        else Ret (Z.land v (Z.lnot lexAsciiSkipBit), negb (Z.land v lexAsciiSkipBit =? 0))
      else Ret (linear_transition st r)
    | None => Ret (linear_transition st r)
    end;
  Ret (with_default st nextState skipTransition).

(** ** The fast path is the linear search *)

(** A transition whose target the table can represent. *)
Definition tr_ok (tr : LexTransition) : Prop := 0 ≤ trNextState tr < lexAsciiNoMatch.
Definition state_ok (st : LexState) : Prop := Forall tr_ok (lsTransitions st).

(** The row entry the linear search determines. *)
Definition entry_for (trs : list LexTransition) (c : Z) : Z :=
  match list_find (λ tr, trLo tr ≤ c ∧ c ≤ trHi tr) trs with
  | Some (_, tr) => ascii_entry tr
  | None => lexAsciiNoMatch
  end.

Lemma lor_skipbit v : 0 ≤ v < 2 ^ 31 → Z.lor v lexAsciiSkipBit = v - 2 ^ 31.
Proof.
  intros Hv. pose proof (Z.add_lor_land v lexAsciiSkipBit) as Hadd.
  assert (Z.land v lexAsciiSkipBit = 0) as Hland.
  { unfold lexAsciiSkipBit. change (- 2 ^ 31) with (Z.shiftl (-1) 31).
    apply Z.bits_inj'. intros i Hi. rewrite Z.land_spec, Z.bits_0.
    destruct (Z.lt_ge_cases i 31); [by rewrite Z.shiftl_spec_low, andb_false_r|].
    destruct (decide (v = 0)) as [->|]; [by rewrite Z.bits_0|].
    rewrite (Z.bits_above_log2 v); [done|lia|].
    apply Z.log2_lt_pow2; [lia|]. apply Z.lt_le_trans with (2 ^ 31); [lia|].
    by apply Z.pow_le_mono_r. }
  rewrite Hland, Z.add_0_r in Hadd. rewrite Hadd. unfold lexAsciiSkipBit. lia.
Qed.

Lemma ascii_entry_ok tr : tr_ok tr →
  ascii_entry tr ≠ lexAsciiNoMatch ∧
  Z.land (ascii_entry tr) (Z.lnot lexAsciiSkipBit) = trNextState tr ∧
  negb (Z.land (ascii_entry tr) lexAsciiSkipBit =? 0) = trSkip tr.
Proof.
  unfold tr_ok, lexAsciiNoMatch. intros Htr. unfold ascii_entry.
  rewrite i32_id by lia.
  change (Z.lnot lexAsciiSkipBit) with (Z.ones 31).
  assert (∀ v, Z.land v lexAsciiSkipBit = v - v mod 2 ^ 31) as Hsk.
  { intros v. change lexAsciiSkipBit with (Z.lnot (Z.ones 31)).
    rewrite <-Z.ldiff_land, Z.ldiff_ones_r, Z.shiftr_div_pow2, Z.shiftl_mul_pow2 by done.
    pose proof (Z.div_mod v (2 ^ 31)). lia. }
  rewrite Hsk, Z.land_ones by done. destruct (trSkip tr).
  - rewrite lor_skipbit by lia.
    replace ((trNextState tr - 2 ^ 31) mod 2 ^ 31) with (trNextState tr); [lia|].
    rewrite <-(Z.mod_add _ 1) by done. rewrite Z.mod_small; lia.
  - rewrite Z.mod_small by lia. lia.
Qed.

Definition unmatched (row : list Z) : Z := len (filter (λ x, x = lexAsciiNoMatch) row).

Lemma unmatched_insert row (i : nat) v :
  row !! i = Some lexAsciiNoMatch → v ≠ lexAsciiNoMatch →
  unmatched (<[i := v]> row) = unmatched row - 1.
Proof.
  unfold unmatched. revert i. induction row as [|x row IH]; intros i; [done|].
  destruct i as [|i]; cbn [lookup list_lookup].
  - intros [= ->] Hv. change (<[0%nat := v]> (lexAsciiNoMatch :: row)) with (v :: row).
    rewrite filter_cons_False, filter_cons_True, len_cons by done. lia.
  - intros Hi Hv. change (<[S i := v]> (x :: row)) with (x :: <[i := v]> row).
    specialize (IH i Hi Hv). rewrite !filter_cons. case_decide; rewrite ?len_cons; lia.
Qed.

Lemma unmatched_0 row k x : unmatched row = 0 → zget row k = Some x → x ≠ lexAsciiNoMatch.
Proof.
  unfold unmatched. intros Hu Hk ->. apply zget_elem in Hk.
  assert (lexAsciiNoMatch ∈ filter (λ x, x = lexAsciiNoMatch) row) as Hin
    by by apply list_elem_of_filter.
  destruct (filter _ row) as [|y l]; [by apply elem_of_nil in Hin|].
  rewrite len_cons in Hu. pose proof (len_nonneg l). lia.
Qed.

(** What the inner loop leaves in every column. *)
Lemma fill_row_spec n c v row remaining :
  v ≠ lexAsciiNoMatch → 0 ≤ c → c + Z.of_nat n ≤ len row → remaining = unmatched row →
  ∃ row', fill_row n c v row remaining = Ret (row', unmatched row') ∧ len row' = len row ∧
    ∀ k x, zget row k = Some x →
      zget row' k = Some (if bool_decide (c ≤ k < c + Z.of_nat n) && (x =? lexAsciiNoMatch)
                          then v else x).
Proof.
  intros Hv. revert c row remaining.
  induction n as [|n IH]; intros c row remaining Hc Hlen ->; cbn [fill_row].
  { exists row. split_and!; [done..|]. intros k x ->. case_bool_decide; [lia|done]. }
  destruct (index_in_range row c) as (x & -> & Hx); [lia|]. cbn.
  destruct (Z.eqb_spec x lexAsciiNoMatch) as [->|Hne].
  - rewrite store_ok by lia. cbn. assert (row !! Z.to_nat c = Some lexAsciiNoMatch) as Hlk.
    { unfold zget in Hx. by destruct (Z.leb_spec 0 c); [|lia]. }
    destruct (IH (c + 1) (<[Z.to_nat c := v]> row) (unmatched row - 1)) as (row' & -> & Hl & Hk).
    + lia.
    + rewrite len_insert. lia.
    + by rewrite unmatched_insert.
    + exists row'. rewrite len_insert in Hl. split_and!; [done..|]. intros k x Hkx.
      destruct (decide (k = c)) as [->|].
      * rewrite Hx in Hkx. injection Hkx as <-.
        rewrite (Hk c v) by (apply zget_insert_eq; lia).
        rewrite (bool_decide_eq_false_2 (c + 1 ≤ c < _)) by lia.
        rewrite (bool_decide_eq_true_2 (c ≤ c < _)) by lia. done.
      * rewrite (Hk k x) by (rewrite zget_insert_ne by lia; done).
        repeat case_bool_decide; try done; lia.
  - destruct (IH (c + 1) row (unmatched row)) as (row' & -> & Hl & Hk); [lia..|done|].
    exists row'. split_and!; [done..|]. intros k y Hky. rewrite (Hk k y Hky).
    destruct (decide (k = c)) as [->|]; [|repeat case_bool_decide; try done; lia].
    rewrite Hx in Hky. injection Hky as <-. destruct (Z.eqb_spec x lexAsciiNoMatch); [done|].
    by rewrite !andb_false_r.
Qed.

Lemma entry_for_cons tr trs c :
  entry_for (tr :: trs) c = if (trLo tr <=? c) && (c <=? trHi tr) then ascii_entry tr else entry_for trs c.
Proof.
  unfold entry_for. cbn. destruct (decide _), (_ && _) eqn:?; try (done || lia).
  by destruct (list_find _ trs) as [[]|].
Qed.

Lemma fill_transitions_spec trs row remaining :
  Forall tr_ok trs → len row = 128 → remaining = unmatched row →
  ∃ row', fill_transitions trs row remaining = Ret row' ∧ len row' = 128 ∧
    ∀ k x, zget row k = Some x →
      zget row' k = Some (if x =? lexAsciiNoMatch then entry_for trs k else x).
Proof.
  intros Hok. revert row remaining.
  induction Hok as [|tr trs Htr Hok IH]; intros row remaining Hlen ->; cbn [fill_transitions].
  { exists row. split_and!; [done..|]. intros k x ->. by destruct (Z.eqb_spec x lexAsciiNoMatch) as [->|]. }
  destruct (Z.eqb_spec (unmatched row) 0) as [Hu|Hu].
  { exists row. split_and!; [done..|]. intros k x Hk. pose proof (unmatched_0 _ _ _ Hu Hk).
    by destruct (Z.eqb_spec x lexAsciiNoMatch). }
  destruct ((trHi tr <? 0) || (128 <=? trLo tr)) eqn:Hout.
  { destruct (IH row (unmatched row)) as (row' & -> & Hl & Hk); [done..|].
    exists row'. split_and!; [done..|]. intros k x Hkx. rewrite (Hk k x Hkx), entry_for_cons.
    pose proof (zget_Some_range _ _ _ Hkx). by destruct (_ && _) eqn:?; [lia|]. }
  set (lo := if trLo tr <? 0 then 0 else trLo tr). set (hi := if 127 <? trHi tr then 127 else trHi tr).
  assert (0 ≤ lo ∧ hi ≤ 127) as [Hlo Hhi] by (subst lo hi; zcases; lia).
  destruct (ascii_entry_ok tr Htr) as (Hne & _ & _).
  destruct (fill_row_spec (Z.to_nat (hi - lo + 1)) lo (ascii_entry tr) row (unmatched row))
    as (row1 & -> & Hl1 & Hk1); [done|done| |done|].
  { destruct (decide (lo ≤ hi)); [lia|]. subst lo; zcases; lia. }
  cbn. destruct (IH row1 (unmatched row1)) as (row' & -> & Hl & Hk); [lia|done|].
  exists row'. split_and!; [done..|]. intros k x Hkx. pose proof (zget_Some_range _ _ _ Hkx).
  rewrite (Hk k _ (Hk1 k x Hkx)), entry_for_cons.
  destruct (Z.eqb_spec x lexAsciiNoMatch) as [->|Hx].
  - destruct ((trLo tr <=? k) && (k <=? trHi tr)) eqn:Hin.
    + rewrite bool_decide_eq_true_2 by (subst lo hi; zcases; lia). cbn.
      by destruct (Z.eqb_spec (ascii_entry tr) lexAsciiNoMatch).
    + rewrite bool_decide_eq_false_2 by (subst lo hi; zcases; lia). done.
  - rewrite andb_false_r. by destruct (Z.eqb_spec x lexAsciiNoMatch).
Qed.

Lemma buildLexAsciiTable_spec states :
  Forall state_ok states →
  ∃ tbl, buildLexAsciiTable states = Ret tbl ∧ len tbl = len states ∧
    ∀ i st, zget states i = Some st → ∃ row, zget tbl i = Some row ∧
      ∀ c, 0 ≤ c < 128 → zget row c = Some (entry_for (lsTransitions st) c).
Proof.
  induction 1 as [|st states Hst Hok (tbl & Htbl & Hlen & Hrow)]; cbn [buildLexAsciiTable].
  { exists []. split_and!; [done..|]. intros i st. by intros ?%zget_elem%elem_of_nil. }
  destruct (fill_transitions_spec (lsTransitions st) (make 128 lexAsciiNoMatch) 128)
    as (row & -> & Hl & Hk); [done|done|vm_compute; reflexivity|].
  cbn. rewrite Htbl. cbn. exists (row :: tbl). rewrite !len_cons, Hlen. split_and!; [done..|].
  intros i st' Hi. destruct (decide (i = 0)) as [->|Hne].
  - injection Hi as <-. exists row. split; [done|]. intros c Hc.
    by rewrite (Hk c lexAsciiNoMatch) by (apply zget_make; lia).
  - rewrite zget_cons_ne in Hi by done. destruct (Hrow _ _ Hi) as (row' & Hr & Hc).
    exists row'. by rewrite zget_cons_ne.
Qed.

Lemma lookup_transition_linear st curState b r :
  lookup_transition None st curState b r =
  Ret (let '(ns, skip) := linear_transition st r in with_default st ns skip).
Proof. unfold lookup_transition. cbn. by destruct (linear_transition st r). Qed.

(** On every state of a table whose targets fit, and for every byte and rune
    that start the same character, the ASCII table gives the transition the
    linear search gives. *)
Lemma lookup_transition_ascii states tbl st curState b r :
  Forall state_ok states → buildLexAsciiTable states = Ret tbl →
  zget states curState = Some st → 0 ≤ b → (b < 0x80 → r = b) →
  lookup_transition (Some tbl) st curState b r = lookup_transition None st curState b r.
Proof.
  intros Hok Htbl Hst Hb Hr. rewrite lookup_transition_linear. unfold lookup_transition.
  destruct (buildLexAsciiTable_spec states Hok) as (tbl' & Htbl' & Hlen & Hrow).
  rewrite Htbl' in Htbl. injection Htbl as ->.
  destruct (Z.ltb_spec b 0x80) as [Hb'|]; cbn [andb].
  2:{ cbn. by destruct (linear_transition st r). }
  pose proof (zget_Some_range _ _ _ Hst). destruct (Z.ltb_spec curState (len tbl)); [|lia].
  destruct (Hrow _ _ Hst) as (row & Hrw & Hc). specialize (Hr Hb'). subst r.
  rewrite (proj2 (index_Ret _ _ _) Hrw). cbn.
  rewrite (proj2 (index_Ret _ _ _) (Hc b ltac:(lia))). cbn.
  unfold entry_for, linear_transition.
  pose proof (Forall_zget _ _ _ _ Hok Hst) as Hst'.
  destruct (list_find _ (lsTransitions st)) as [[k tr]|] eqn:Hf.
  - assert (tr_ok tr) as Htr.
    { apply list_find_Some in Hf as [Hf _]. by eapply Forall_lookup_1. }
    destruct (ascii_entry_ok tr Htr) as (Hne & -> & ->).
    destruct (Z.eqb_spec (ascii_entry tr) lexAsciiNoMatch); [done|]. cbn.
    unfold tr_ok, lexAsciiNoMatch in Htr. by rewrite (i32_id (trNextState tr)) by lia.
  - by rewrite Z.eqb_refl.
Qed.

Lemma lookup_transition_Ret states tbl st curState b r :
  Forall state_ok states → zget states curState = Some st → 0 ≤ b → (b < 0x80 → r = b) →
  (tbl = None ∨ ∃ t, tbl = Some t ∧ buildLexAsciiTable states = Ret t) →
  lookup_transition tbl st curState b r =
  Ret (let '(ns, skip) := linear_transition st r in with_default st ns skip).
Proof.
  intros Hok Hst Hb Hr [->|(t & -> & Ht)]; [apply lookup_transition_linear|].
  rewrite (lookup_transition_ascii states) by done. apply lookup_transition_linear.
Qed.
