(* ===== verification/Lexer.v ===== *)
(** * The DFA lexer

    lexer.go and lexer_included_ranges.go.  The fields that the lexing methods
    never write form [LexerConfig]; the cursor and the record of the last
    failed attempt form [LexerState], which every method takes and returns.
    Loops carry fuel; [scan_fuel] and [next_fuel] are proved sufficient in
    LexerScan.v and LexerNext.v. *)

From Stdlib Require Import ZArith Lia ZifyBool.
From stdpp Require Import base tactics list numbers option.
From S2P Require Import Prelude Utf8 Points Tokens LexTable IncludedRanges.
Local Open Scope Z_scope.

Record LexerConfig := mkLexerConfig {
  states : list LexState;
  asciiTable : option (list (list Z));
  source : list Z;
  includedRanges : list Range;
  immediateTokens : list bool;
  zeroWidthTokens : list bool;
  errorRunLexState : Z;
  hasErrorRunLexState : bool;
  errorModeRetry : bool }.

(** A position with its row, column and range index ([includedLexerCursor]). *)
Record Cursor := mkCursor { cPos : Z; cRow : Z; cCol : Z; cRangeIdx : Z }.

#[export] Instance Cursor_eq_dec : EqDecision Cursor.
Proof. solve_decision. Defined.

(** [pos], [row], [col], [includedRangeIdx] and the four [failTokenStart*]. *)
Record LexerState := mkLexerState { lCur : Cursor; lFail : Cursor }.

Definition NewLexer (sts : list LexState) (src : list Z) : LexerConfig * LexerState :=
  (mkLexerConfig sts None src [] [] [] 0 false false,
   mkLexerState (mkCursor 0 0 0 0) (mkCursor 0 0 0 0)).

Definition cursor_point (c : Cursor) : Point := mkPoint (cRow c) (cCol c).

Definition allowsZeroWidthToken (l : LexerConfig) (sym : Z) : bool :=
  match zeroWidthTokens l with
  | [] => true
  | zw => match zget zw sym with Some b => b | None => false end
  end.

Definition isImmediateToken (l : LexerConfig) (sym : Z) : bool :=
  (0 <? sym) && match zget (immediateTokens l) sym with Some b => b | None => false end.

(** Row and column after consuming a rune of [size] bytes. *)
Definition move_cursor (c : Cursor) (r size : Z) : Cursor :=
  if r =? newline then mkCursor (cPos c + size) (u32 (cRow c + 1)) 0 (cRangeIdx c)
  else mkCursor (cPos c + size) (cRow c) (u32 (cCol c + size)) (cRangeIdx c).

(** ** Included ranges *)

Definition includedRangeBounds (l : LexerConfig) (index : Z) : Z * Z :=
  match zget (includedRanges l) index with
  | None => (0, 0)
  | Some r =>
    (if StartByte r <? len (source l) then StartByte r else len (source l),
     if EndByte r <? len (source l) then EndByte r else len (source l))
  end.

(** The downward loop of [includedEOFPosition], from index [n - 1]. *)
Fixpoint eof_loop (l : LexerConfig) (n : nat) : Z * Point :=
  match n with
  | O => (len (source l), advancePointByBytes point0 (source l))
  | S i =>
    let '(start, fin) := includedRangeBounds l (Z.of_nat i) in
    if fin <=? start then eof_loop l i
    else match includedRanges l !! i with
         | Some last =>
           if EndByte last <=? len (source l) then (fin, EndPoint last)
           else (len (source l), advancePointByBytes point0 (source l))
         | None => (len (source l), advancePointByBytes point0 (source l))
         end
  end.

Definition includedEOFPosition (l : LexerConfig) : Z * Point :=
  eof_loop l (length (includedRanges l)).

(** The upward loop of [normalizeIncludedCursor] over the ranges from the
    cursor's index on. *)
Fixpoint normalize_loop (l : LexerConfig) (n : nat) (c : Cursor) : Cursor :=
  match n with
  | O =>
    let '(endPos, endPoint) := includedEOFPosition l in
    mkCursor endPos (Row endPoint) (Column endPoint) (cRangeIdx c)
  | S n =>
    let '(start, fin) := includedRangeBounds l (cRangeIdx c) in
    let skip := normalize_loop l n (mkCursor (cPos c) (cRow c) (cCol c) (cRangeIdx c + 1)) in
    if fin <=? start then skip
    else if cPos c <? start then
      match zget (includedRanges l) (cRangeIdx c) with
      | Some r => mkCursor start (Row (StartPoint r)) (Column (StartPoint r)) (cRangeIdx c)
      | None => c
      end
    else if cPos c <? fin then c
    else skip
  end.

Definition normalizeIncludedCursor (l : LexerConfig) (c : Cursor) : Cursor :=
  match includedRanges l with
  | [] => c
  | rs =>
    let c := if (cRangeIdx c <? 0) || (len rs <? cRangeIdx c)
             then mkCursor (cPos c) (cRow c) (cCol c) 0 else c in
    let c := if (0 <? cRangeIdx c) && (cRangeIdx c <=? len rs) then
               let '(_, previousEnd) := includedRangeBounds l (cRangeIdx c - 1) in
               if cPos c <? previousEnd then mkCursor (cPos c) (cRow c) (cCol c) 0 else c
             else c in
    normalize_loop l (Z.to_nat (len rs - cRangeIdx c)) c
  end.

Definition normalizeIncludedPosition (l : LexerConfig) (s : LexerState) : LexerState :=
  mkLexerState (normalizeIncludedCursor l (lCur s)) (lFail s).

(** [setIncludedRanges] moves the cursor to the first selected byte. *)
Definition setIncludedRanges (l : LexerConfig) (s : LexerState) (ranges : list Range)
  : LexerConfig * LexerState :=
  let l := mkLexerConfig (states l) (asciiTable l) (source l) ranges (immediateTokens l)
             (zeroWidthTokens l) (errorRunLexState l) (hasErrorRunLexState l) (errorModeRetry l) in
  let c := lCur s in
  (l, normalizeIncludedPosition l (mkLexerState (mkCursor (cPos c) (cRow c) (cCol c) 0) (lFail s))).

Definition includedRangeIndexForPosition (l : LexerConfig) (pos : Z) : Z :=
  match list_find (λ i, pos < (includedRangeBounds l (Z.of_nat i)).2)
          (seq 0 (length (includedRanges l))) with
  | Some (i, _) => Z.of_nat i
  | None => len (includedRanges l)
  end.

Definition atLogicalEOF (l : LexerConfig) (s : LexerState) : bool :=
  match includedRanges l with
  | [] => len (source l) <=? cPos (lCur s)
  | rs => len rs <=? cRangeIdx (lCur s)
  end.

(** Consume one rune; [None] at the end of the selected input. *)
Definition advanceIncludedCursor (l : LexerConfig) (c : Cursor) : go (Cursor * option (Z * Z)) :=
  let c := normalizeIncludedCursor l c in
  if len (includedRanges l) <=? cRangeIdx c then Ret (c, None) else
  let '(_, fin) := includedRangeBounds l (cRangeIdx c) in
  if fin <=? cPos c then Ret (c, None) else
  b ← index (source l) (cPos c);
  let '(r, size) := if b <? RuneSelf then (b, 1) else DecodeRune (slice (source l) (cPos c) fin) in
  let c := move_cursor c r size in
  let c := if fin <=? cPos c
           then normalizeIncludedCursor l (mkCursor (cPos c) (cRow c) (cCol c) (cRangeIdx c + 1))
           else c in
  Ret (c, Some (r, size)).

Definition skipOneIncludedRune (l : LexerConfig) (s : LexerState) : go LexerState :=
  '(c, res) ← advanceIncludedCursor l (lCur s);
  match res with
  | None => Ret s
  | Some _ => Ret (mkLexerState c (lFail s))
  end.

(** [skipOneRune] advances the lexer by one rune. *)
Definition skipOneRune (l : LexerConfig) (s : LexerState) : go LexerState :=
  match includedRanges l with
  | _ :: _ => skipOneIncludedRune l s
  | [] =>
    if len (source l) <=? cPos (lCur s) then Ret s else
    tail ← gslice (source l) (cPos (lCur s)) (len (source l));
    let '(r, size) := DecodeRune tail in
    Ret (mkLexerState (move_cursor (lCur s) r size) (lFail s))
  end.

(** [includedMarkEnd] ends a boundary token at the prior range end. *)
Definition includedMarkEnd (l : LexerConfig) (c : Cursor) : go (Z * Point) :=
  if (0 <? cRangeIdx c) && (cRangeIdx c <? len (includedRanges l)) then
    let '(start, _) := includedRangeBounds l (cRangeIdx c) in
    if cPos c =? start then
      previous ← index (includedRanges l) (cRangeIdx c - 1);
      let '(_, previousEnd) := includedRangeBounds l (cRangeIdx c - 1) in
      if EndByte previous <=? len (source l) then Ret (previousEnd, EndPoint previous)
      else
        pre ← gslice (source l) 0 previousEnd;
        Ret (previousEnd, advancePointByBytes point0 pre)
    else Ret (cPos c, cursor_point c)
  else Ret (cPos c, cursor_point c).

(** The part of the range [i] that lies in [start, end), when not empty. *)
Definition segment (l : LexerConfig) (start fin : Z) (i : nat) : option (Z * Z) :=
  let '(rangeStart, rangeEnd) := includedRangeBounds l (Z.of_nat i) in
  let s := Z.max start rangeStart in
  let e := Z.min fin rangeEnd in
  if e <=? s then None else Some (s, e).

Definition segments (l : LexerConfig) (start fin : Z) : list (Z * Z) :=
  omap (segment l start fin) (seq 0 (length (includedRanges l))).

(** [tokenText] excludes source gaps when one token crosses ranges. *)
Definition tokenText (l : LexerConfig) (start fin : Z) : go (list Z) :=
  if fin <=? start then Ret [] else
  match includedRanges l with
  | [] => gslice (source l) start fin
  | _ =>
    match segments l start fin with
    | [] => Ret []
    | [(s, e)] => gslice (source l) s e
    | segs =>
      foldr (λ '(s, e) acc, x ← gslice (source l) s e; y ← acc; Ret (x ++ y)) (Ret []) segs
    end
  end.

(** ** The DFA walk over contiguous source *)

(** The last accepting configuration ([accept*] variables); [aPos = -1] means
    none. *)
Record Accept := mkAccept {
  aPos : Z; aRow : Z; aCol : Z; aRangeIdx : Z; aProgress : Z; aStart : Cursor;
  aSymbol : Z; aSkip : bool; aPriority : Z }.

Definition no_accept : Accept := mkAccept (-1) 0 0 0 (-1) (mkCursor 0 0 0 0) 0 false 32767.

(** [acceptPos = -1; acceptSymbol = 0; acceptSkip = false] after a skip. *)
Definition clear_accept (a : Accept) : Accept :=
  mkAccept (-1) (aRow a) (aCol a) (aRangeIdx a) (-1) (aStart a) 0 false (aPriority a).

(** The loop variables of a walk. *)
Record Walk := mkWalk {
  wState : Z; wScan : Cursor; wStart : Cursor; wSkipped : bool; wAccept : Accept; wHops : Z }.

(** The guard on an accepting state: immediate tokens are rejected after
    skipped whitespace, visible zero-width tokens unless allowed. *)
Definition eligible (l : LexerConfig) (startPos : Z) (st : LexState) (start scan : Cursor) : bool :=
  ((0 <? lsAcceptToken st) || lsSkip st) &&
  negb (isImmediateToken l (lsAcceptToken st) && (startPos <? cPos start)) &&
  negb ((0 <? lsAcceptToken st) && (cPos scan =? cPos start)
        && negb (allowsZeroWidthToken l (lsAcceptToken st))).

(** Whether the state's accept replaces the recorded one. *)
Definition improves (a : Accept) (prio pos : Z) : bool :=
  (aPos a <? 0) || (prio <? aPriority a) || ((prio =? aPriority a) && (aProgress a <? pos)).

Definition note_accept (l : LexerConfig) (startPos : Z) (st : LexState) (w : Walk) : Accept :=
  if eligible l startPos st (wStart w) (wScan w) && improves (wAccept w) (lsAcceptPriority st) (cPos (wScan w)) then
    mkAccept (cPos (wScan w)) (cRow (wScan w)) (cCol (wScan w)) 0 (cPos (wScan w)) (wStart w)
      (lsAcceptToken st) (lsSkip st) (lsAcceptPriority st)
  else wAccept w.

(** One iteration of the walk: [inl] continues, [inr] leaves the loop. *)
Definition walk_step (l : LexerConfig) (startPos : Z) (w : Walk) : go (Walk + Walk) :=
  if (wState w <? 0) || (len (states l) <=? wState w) then Ret (inr w) else
  st ← index (states l) (wState w);
  let a := note_accept l startPos st w in
  if len (source l) <=? cPos (wScan w) then
    if (0 <=? lsEOF st) && (wHops w <=? len (states l))
    then Ret (inl (mkWalk (i32 (lsEOF st)) (wScan w) (wStart w) (wSkipped w) a (wHops w + 1)))
    else Ret (inr (mkWalk (wState w) (wScan w) (wStart w) (wSkipped w) a (wHops w)))
  else
    b ← index (source l) (cPos (wScan w));
    tail ← gslice (source l) (cPos (wScan w)) (len (source l));
    let '(r, size) := if b <? 0x80 then (b, 1) else DecodeRune tail in
    '(nextState, skip) ← lookup_transition (asciiTable l) st (wState w) b r;
    if nextState <? 0 then Ret (inr (mkWalk (wState w) (wScan w) (wStart w) (wSkipped w) a 0)) else
    let c := move_cursor (wScan w) r size in
    if (skip : bool) then Ret (inl (mkWalk nextState c c true (clear_accept a) 0))
    else Ret (inl (mkWalk nextState c (wStart w) (wSkipped w) a 0)).

Fixpoint walk_loop (l : LexerConfig) (startPos : Z) (fuel : nat) (w : Walk) : go Walk :=
  match fuel with
  | O => NoFuel
  | S fuel =>
    res ← walk_step l startPos w;
    match res with
    | inr w => Ret w
    | inl w => walk_loop l startPos fuel w
    end
  end.

(** Iterations that always suffice: one per source byte plus the EOF chain. *)
Definition scan_fuel (l : LexerConfig) : nat := (length (source l) + length (states l) + 4)%nat.

(** The synthetic skip accepted when the walk only followed EOF transitions. *)
Definition accept_at_eof (w : Walk) : Accept :=
  if (aPos (wAccept w) <? 0) && (0 <? wHops w) then
    mkAccept (cPos (wScan w)) (cRow (wScan w)) (cCol (wScan w)) 0 (cPos (wScan w)) (wStart w)
      0 true (aPriority (wAccept w))
  else wAccept w.

(** The token built from the accepted configuration. *)
Definition accept_token (a : Accept) (text : list Z) (skipped : bool) (startPos : Z) (sym : Z)
    (internal : bool) : Token :=
  mkToken sym text (u32 (cPos (aStart a))) (u32 (aPos a)) (cursor_point (aStart a))
    (mkPoint (aRow a) (aCol a)) false false false 0 skipped (u32 startPos) false internal false.

Definition scanContiguous (l : LexerConfig) (s : LexerState) (startState startPos startRow startCol : Z)
  : go (option Token * LexerState) :=
  let curState := i32 startState in
  if (curState <? 0) || (len (states l) <=? curState) then Ret (None, s) else
  let c0 := mkCursor startPos startRow startCol 0 in
  w ← walk_loop l startPos (scan_fuel l) (mkWalk curState c0 c0 false no_accept 0);
  let a := accept_at_eof w in
  if aPos a <? 0 then
    let f := wStart w in
    Ret (None, mkLexerState (lCur s) (mkCursor (cPos f) (cRow f) (cCol f) 0))
  else
    let s := mkLexerState (mkCursor (aPos a) (aRow a) (aCol a) (cRangeIdx (lCur s))) (lFail s) in
    if aSkip a then Ret (Some (accept_token a [] (wSkipped w) startPos 0 false), s)
    else
      text ← gslice (source l) (cPos (aStart a)) (aPos a);
      Ret (Some (accept_token a text (wSkipped w) startPos (aSymbol a) true), s).

(** ** The DFA walk over included ranges *)

(** [acceptPos, endPoint = includedMarkEnd(scanCursor)] and its bookkeeping. *)
Definition note_accept_included (l : LexerConfig) (startPos : Z) (st : LexState) (w : Walk)
  : go Accept :=
  if eligible l startPos st (wStart w) (wScan w) && improves (wAccept w) (lsAcceptPriority st) (cPos (wScan w)) then
    '(p, pt) ← includedMarkEnd l (wScan w);
    Ret (mkAccept p (Row pt) (Column pt) (cRangeIdx (wScan w)) (cPos (wScan w)) (wStart w)
           (lsAcceptToken st) (lsSkip st) (lsAcceptPriority st))
  else Ret (wAccept w).

Definition walk_step_included (l : LexerConfig) (startPos : Z) (w : Walk) : go (Walk + Walk) :=
  if (wState w <? 0) || (len (states l) <=? wState w) then Ret (inr w) else
  st ← index (states l) (wState w);
  a ← note_accept_included l startPos st w;
  if len (includedRanges l) <=? cRangeIdx (wScan w) then
    if (0 <=? lsEOF st) && (wHops w <=? len (states l))
    then Ret (inl (mkWalk (i32 (lsEOF st)) (wScan w) (wStart w) (wSkipped w) a (wHops w + 1)))
    else Ret (inr (mkWalk (wState w) (wScan w) (wStart w) (wSkipped w) a (wHops w)))
  else
    b ← index (source l) (cPos (wScan w));
    let '(_, fin) := includedRangeBounds l (cRangeIdx (wScan w)) in
    r ← (if b <? RuneSelf then Ret b
         else window ← gslice (source l) (cPos (wScan w)) fin; Ret (DecodeRune window).1);
    '(nextState, skip) ← lookup_transition (asciiTable l) st (wState w) b r;
    if nextState <? 0 then Ret (inr (mkWalk (wState w) (wScan w) (wStart w) (wSkipped w) a 0)) else
    '(c, res) ← advanceIncludedCursor l (wScan w);
    match (res : option (Z * Z)) with
    | None => Ret (inr (mkWalk (wState w) c (wStart w) (wSkipped w) a 0))
    | Some _ =>
      if (skip : bool) then Ret (inl (mkWalk nextState c c true (clear_accept a) 0))
      else Ret (inl (mkWalk nextState c (wStart w) (wSkipped w) a 0))
    end.

Fixpoint walk_loop_included (l : LexerConfig) (startPos : Z) (fuel : nat) (w : Walk) : go Walk :=
  match fuel with
  | O => NoFuel
  | S fuel =>
    res ← walk_step_included l startPos w;
    match res with
    | inr w => Ret w
    | inl w => walk_loop_included l startPos fuel w
    end
  end.

Definition accept_at_eof_included (l : LexerConfig) (w : Walk) : go Accept :=
  if (aPos (wAccept w) <? 0) && (0 <? wHops w) then
    '(p, pt) ← includedMarkEnd l (wScan w);
    Ret (mkAccept p (Row pt) (Column pt) (cRangeIdx (wScan w)) (cPos (wScan w)) (wStart w)
           0 true (aPriority (wAccept w)))
  else Ret (wAccept w).

Definition scanIncluded (l : LexerConfig) (s : LexerState) (startState startPos startRow startCol : Z)
  : go (option Token * LexerState) :=
  let curState := i32 startState in
  if (curState <? 0) || (len (states l) <=? curState) then Ret (None, s) else
  let c0 := normalizeIncludedCursor l (mkCursor startPos startRow startCol (cRangeIdx (lCur s))) in
  let startPos := cPos c0 in
  w ← walk_loop_included l startPos (scan_fuel l) (mkWalk curState c0 c0 false no_accept 0);
  a ← accept_at_eof_included l w;
  if aPos a <? 0 then Ret (None, mkLexerState (lCur s) (wStart w))
  else
    let s := mkLexerState (mkCursor (aPos a) (aRow a) (aCol a) (aRangeIdx a)) (lFail s) in
    if aSkip a then Ret (Some (accept_token a [] (wSkipped w) startPos 0 false), s)
    else
      text ← tokenText l (cPos (aStart a)) (aPos a);
      Ret (Some (accept_token a text (wSkipped w) startPos (aSymbol a) true), s).

(** ** Tokens *)

Definition scan (l : LexerConfig) (s : LexerState) (startState startPos startRow startCol : Z)
  : go (option Token * LexerState) :=
  match includedRanges l with
  | _ :: _ => scanIncluded l s startState startPos startRow startCol
  | [] => scanContiguous l s startState startPos startRow startCol
  end.

(** [canLexAt] restores the cursor; the failure record keeps what [scan] wrote. *)
Definition canLexAt (l : LexerConfig) (s : LexerState) (lexState : Z) (c : Cursor)
  : go (bool * LexerState) :=
  '(tok, s') ← scan l s lexState (cPos c) (cRow c) (cCol c);
  Ret (match tok with Some _ => true | None => false end, mkLexerState (lCur s) (lFail s')).

Definition utf8BOM : list Z := [0xEF; 0xBB; 0xBF].

Definition skipLeadingBOM (l : LexerConfig) (s : LexerState) : LexerState :=
  if negb (cPos (lCur s) =? 0) || negb (bool_decide (take 3 (source l) = utf8BOM)) then s
  else mkLexerState (mkCursor 3 (cRow (lCur s)) 3 (cRangeIdx (lCur s))) (lFail s).

(** The zero-symbol token at the cursor. *)
Definition eof_token (c : Cursor) : Token :=
  span_token 0 [] (u32 (cPos c)) (u32 (cPos c)) (cursor_point c) (cursor_point c).

(** Skip runes until the error-mode state can lex again. *)
Fixpoint error_run_loop (l : LexerConfig) (fuel : nat) (s : LexerState) : go LexerState :=
  match fuel with
  | O => NoFuel
  | S fuel =>
    if atLogicalEOF l s then Ret s else
    '(ok, s) ← canLexAt l s (errorRunLexState l) (lCur s);
    if (ok : bool) then Ret s else
    s ← skipOneRune l s;
    error_run_loop l fuel s
  end.

Definition next_fuel (l : LexerConfig) : nat := (length (source l) + 2)%nat.

Definition errorRunToken (l : LexerConfig) (s : LexerState) : go (Token * LexerState) :=
  let s := if (cPos (lCur s) <? cPos (lFail s)) && (cPos (lFail s) <=? len (source l))
           then mkLexerState (lFail s) (lFail s) else s in
  let s := normalizeIncludedPosition l s in
  if atLogicalEOF l s then Ret (eof_token (lCur s), s) else
  let c0 := lCur s in
  s ← skipOneRune l s;
  s ← error_run_loop l (next_fuel l) s;
  text ← tokenText l (cPos c0) (cPos (lCur s));
  Ret (span_token errorSymbol text (u32 (cPos c0)) (u32 (cPos (lCur s)))
         (cursor_point c0) (cursor_point (lCur s)), s).

(** The loop of [next]; [callStart] is the cursor at the start of the call and
    [retry] lexes again in the error-run state from there. *)
Fixpoint next_loop (l : LexerConfig) (fuel : nat) (s : LexerState) (startState : Z)
    (emitErrorRuns : bool) (callStart : Cursor) (skippedPrefix : bool)
    (retry : LexerState → go (Token * LexerState)) : go (Token * LexerState) :=
  match fuel with
  | O => NoFuel
  | S fuel =>
    if atLogicalEOF l s then Ret (eof_token (lCur s), s) else
    let c0 := lCur s in
    '(res, s) ← scan l s startState (cPos c0) (cRow c0) (cCol c0);
    match (res : option Token) with
    | Some tok =>
      if tSymbol tok =? 0 then
        if cPos (lCur s) <=? cPos c0 then
          s ← skipOneRune l s;
          next_loop l fuel s startState emitErrorRuns callStart false retry
        else next_loop l fuel s startState emitErrorRuns callStart true retry
      else Ret (if skippedPrefix then set_skippedPrefix tok (u32 (cPos callStart)) else tok, s)
    | None =>
      if emitErrorRuns && hasErrorRunLexState l && errorModeRetry l
         && negb (startState =? errorRunLexState l)
      then retry (mkLexerState callStart (lFail s))
      else
        '(run, s) ←
          (if emitErrorRuns && hasErrorRunLexState l then
             '(ok, s) ← canLexAt l s (errorRunLexState l) c0; Ret (negb ok, s)
           else Ret (false, s));
        if (run : bool) then errorRunToken l s
        else
          s ← skipOneRune l s;
          next_loop l fuel s startState emitErrorRuns callStart false retry
    end
  end.

(** [next], with its one possible recursive call unrolled: the call is made
    with the error-run state, for which the retry condition is false. *)
Definition next (l : LexerConfig) (s : LexerState) (startState : Z) (emitErrorRuns : bool)
  : go (Token * LexerState) :=
  let enter s := skipLeadingBOM l (normalizeIncludedPosition l s) in
  let s0 := enter s in
  next_loop l (next_fuel l) s0 startState emitErrorRuns (lCur s0) false
    (λ s, let s1 := enter s in
          next_loop l (next_fuel l) s1 (errorRunLexState l) true (lCur s1) false (λ _, NoFuel)).

Definition Next (l : LexerConfig) (s : LexerState) (startState : Z) : go (Token * LexerState) :=
  next l s startState false.

Definition NextWithErrorRuns (l : LexerConfig) (s : LexerState) (startState : Z)
  : go (Token * LexerState) :=
  next l s startState true.
