(* ===== verification/LexerScan.v ===== *)
(** * The contiguous DFA walk

    Facts about [scanContiguous] (lexer.go): the walk returns within
    [scan_fuel] iterations without a run-time panic; spans, texts and row and
    column positions of its tokens are the ones the source determines; the
    accepted configuration is the best one visited since the last skip; and
    the ASCII table changes nothing. *)

From Stdlib Require Import ZArith Lia ZifyBool.
From stdpp Require Import base tactics list numbers option relations.
From S2P Require Import Prelude Utf8 Points Tokens LexTable IncludedRanges Lexer.
Local Open Scope Z_scope.

(** The tables and the source are what the loaders produce: bytes, transition
    targets the ASCII table can hold, and a table built from the states. *)
Record config_ok (l : LexerConfig) : Prop := {
  ok_bytes : Forall byte_ok (source l);
  ok_states : Forall state_ok (states l);
  ok_table : asciiTable l = None ∨
             ∃ t, asciiTable l = Some t ∧ buildLexAsciiTable (states l) = Ret t }.

(** ** Moving over one rune *)

Lemma move_cursor_pos c r size : cPos (move_cursor c r size) = cPos c + size.
Proof. unfold move_cursor. by case_match. Qed.

(** The cursor moves to the position of the consumed bytes, whether the rune
    is ASCII, multi-byte or an invalid byte. *)
Lemma move_cursor_point c p r size :
  p ≠ [] → DecodeRune p = (r, size) →
  cursor_point (move_cursor c r size) = computeNewEndPoint (cursor_point c) (slice p 0 size).
Proof.
  intros Hp Hd. destruct (DecodeRune_size _ _ _ Hp Hd) as [Hs Hl].
  destruct p as [|b rest]; [done|]. pose proof (DecodeRune_newline _ _ _ _ Hd) as Hnl.
  unfold move_cursor. change newline with 10 in *. destruct (Z.eqb_spec r 10) as [->|Hr].
  - symmetry in Hnl. apply Z.eqb_eq in Hnl as ->.
    rewrite DecodeRune_lt_RuneSelf in Hd by lia. by injection Hd as <-.
  - symmetry in Hnl. apply Z.eqb_neq in Hnl.
    pose proof (DecodeRune_tail _ _ _ Hp Hd) as Htail.
    rewrite (slice_cons _ 0 _ b) by (done || lia).
    rewrite computeNewEndPoint_flat; [|done|].
    + rewrite len_cons, len_slice by lia. unfold cursor_point; cbn. do 2 f_equal. lia.
    + constructor; [done|]. eapply list.Forall_impl; [exact Htail|].
      cbn. unfold newline. lia.
Qed.

Lemma slice_drop (l : list Z) i n : 0 ≤ i → slice (slice l i (len l)) 0 n = slice l i (i + n).
Proof.
  intros. unfold slice. rewrite drop_0. rewrite (take_ge (drop _ l)).
  - f_equal. lia.
  - rewrite length_drop. unfold len. lia.
Qed.

(** The rune at a position inside the source, as both loops read it. *)
Lemma rune_at (src : list Z) pos c :
  Forall byte_ok src → 0 ≤ pos < len src → cPos c = pos →
  ∃ b r size, index src pos = Ret b ∧ 0 ≤ b ∧ (b < 0x80 → r = b) ∧
    gslice src pos (len src) = Ret (slice src pos (len src)) ∧
    (if b <? 0x80 then (b, 1) else DecodeRune (slice src pos (len src))) = (r, size) ∧
    DecodeRune (slice src pos (len src)) = (r, size) ∧
    1 ≤ size ∧ pos + size ≤ len src ∧
    cursor_point (move_cursor c r size)
    = computeNewEndPoint (cursor_point c) (slice src pos (pos + size)).
Proof.
  intros Hb Hpos Hc. destruct (index_in_range src pos Hpos) as (b & Hi & Hg).
  pose proof (Forall_zget _ _ _ _ Hb Hg) as Hbok.
  rewrite gslice_ok by lia.
  assert (slice src pos (len src) = b :: slice src (pos + 1) (len src)) as Hcons
    by (apply slice_cons; [done|lia]).
  destruct (DecodeRune (slice src pos (len src))) as [r size] eqn:Hd.
  assert (slice src pos (len src) ≠ []) as Hne by by rewrite Hcons.
  destruct (DecodeRune_size _ _ _ Hne Hd) as [Hs Hl]. rewrite len_slice in Hl by lia.
  exists b, r, size.
  assert (b < 0x80 → (r, size) = (b, 1)) as Hasc.
  { intros Hlt. rewrite Hcons, DecodeRune_lt_RuneSelf in Hd by done. done. }
  split_and!; try done; [unfold byte_ok in *; lia| | |lia..|].
  - intros ?%Hasc. by simplify_eq.
  - destruct (Z.ltb_spec b 0x80); [by rewrite Hasc|done].
  - rewrite (move_cursor_point _ _ _ _ Hne Hd). f_equal. apply slice_drop. lia.
Qed.

Section walk.
Context (l : LexerConfig) (Hok : config_ok l) (startPos : Z) (startPt : Point).
Context (Hstart : 0 ≤ startPos ≤ len (source l)).

(** A cursor sits at a source offset, with the row and column of that offset. *)
Definition cursor_at (c : Cursor) : Prop :=
  startPos ≤ cPos c ≤ len (source l) ∧
  cursor_point c = computeNewEndPoint startPt (slice (source l) startPos (cPos c)).

(** The recorded accept lies between the token start and the scan position. *)
Definition accept_at (a : Accept) (start scan : Cursor) : Prop :=
  aPos a = -1 ∨
  aStart a = start ∧ aProgress a = aPos a ∧ cPos start ≤ aPos a ≤ cPos scan ∧
  mkPoint (aRow a) (aCol a) = computeNewEndPoint startPt (slice (source l) startPos (aPos a)).

Record walk_inv (w : Walk) : Prop := {
  inv_scan : cursor_at (wScan w);
  inv_start : cursor_at (wStart w);
  inv_order : cPos (wStart w) ≤ cPos (wScan w);
  inv_accept : accept_at (wAccept w) (wStart w) (wScan w);
  inv_hops : 0 ≤ wHops w ≤ len (states l) + 1 ∧
             (0 < wHops w → cPos (wScan w) = len (source l)) }.

Definition walk_measure (w : Walk) : Z :=
  (len (source l) - cPos (wScan w)) + (len (states l) + 2 - wHops w).

Lemma cursor_at_move c r size :
  cursor_at c → 1 ≤ size → cPos c + size ≤ len (source l) →
  cursor_point (move_cursor c r size)
    = computeNewEndPoint (cursor_point c) (slice (source l) (cPos c) (cPos c + size)) →
  cursor_at (move_cursor c r size).
Proof.
  intros [Hr Hp] Hs Hle Hpt. split; rewrite move_cursor_pos; [lia|].
  rewrite Hpt, Hp, <-computeNewEndPoint_app, slice_app_split by lia. done.
Qed.

Lemma accept_at_mono a start scan scan' :
  cPos scan ≤ cPos scan' → accept_at a start scan → accept_at a start scan'.
Proof. intros ? [?|(?&?&?&?)]; [by left|right]. split_and!; try done; lia. Qed.

Lemma note_accept_at st w :
  walk_inv w → accept_at (note_accept l startPos st w) (wStart w) (wScan w).
Proof.
  intros [Hsc Hst Hord Hacc _]. unfold note_accept. case_match; [|done].
  right. cbn. split_and!; [done|done|lia|lia|apply Hsc].
Qed.

(** One iteration never panics; it keeps the invariant, and when it continues
    the measure decreases. *)
Lemma walk_step_inv w :
  walk_inv w → ∃ res, walk_step l startPos w = Ret res ∧
    match res with
    | inl w' => walk_inv w' ∧ walk_measure w' < walk_measure w
    | inr w' => walk_inv w'
    end.
Proof.
  intros Hw. pose proof Hw as [Hsc Hst Hord Hacc [Hh Heof]]. unfold walk_step.
  destruct (_ || _) eqn:Hbad; [by eexists|].
  destruct (index_in_range (states l) (wState w)) as (st & -> & Hstt); [lia|]. cbn.
  pose proof (note_accept_at st w Hw) as Hacc'.
  destruct (Z.leb_spec (len (source l)) (cPos (wScan w))) as [Hend|Hin].
  { destruct (_ && _) eqn:Hhop; (eexists; split; [done|]).
    - split; [|unfold walk_measure; cbn; lia]. split; cbn; auto.
      split; [lia|]. intros _. destruct Hsc. lia.
    - split; cbn; auto. }
  assert (0 ≤ cPos (wScan w) < len (source l)) as Hpos by (destruct Hsc; lia).
  destruct (rune_at (source l) (cPos (wScan w)) (wScan w) (ok_bytes _ Hok) Hpos eq_refl)
    as (b & r & size & -> & Hb & Hr & -> & Hdec & _ & Hs & Hle & Hpt).
  cbn. rewrite Hdec. cbn.
  rewrite (lookup_transition_Ret (states l)); [|apply Hok|done|done|done|apply Hok].
  cbn. destruct (linear_transition st r) as [ns0 sk0]. destruct (with_default st ns0 sk0) as [ns sk].
  cbn. destruct (ns <? 0); [eexists; split; [done|]; split; cbn; auto; lia|].
  pose proof (cursor_at_move _ r size Hsc Hs Hle Hpt) as Hmoved.
  destruct sk; (eexists; split; [done|]); split;
    try (unfold walk_measure; cbn; rewrite move_cursor_pos; lia).
  - split; cbn; [done|done|lia|by left|lia].
  - split; cbn; [done|done|rewrite move_cursor_pos; lia| |lia].
    eapply accept_at_mono; [|done]. rewrite move_cursor_pos. lia.
Qed.

Lemma walk_loop_returns fuel w :
  walk_inv w → walk_measure w < Z.of_nat fuel →
  ∃ w', walk_loop l startPos fuel w = Ret w' ∧ walk_inv w'.
Proof.
  revert w. induction fuel as [|fuel IH]; intros w Hw Hm.
  { destruct Hw as [[Hsc _] _ _ _ [Hh _]]. unfold walk_measure in Hm. lia. }
  cbn [walk_loop]. destruct (walk_step_inv w Hw) as (res & -> & Hres). cbn.
  destruct res as [w'|w']; [|by exists w']. destruct Hres as [Hw' Hlt]. apply IH; [done|lia].
Qed.
End walk.

(** ** The automaton the walk runs

    A configuration of the table-driven automaton, without the bookkeeping of
    the accepted token and without the ASCII table.  [dfa_step] is one
    character, one skipped character, or one end-of-input transition. *)

Record Conf := mkConf { dState : Z; dScan : Cursor; dStart : Cursor; dHops : Z }.

#[export] Instance Conf_eq_dec : EqDecision Conf.
Proof. solve_decision. Defined.

(** The transition of a state on a rune: the first range that holds it, else
    the default transition. *)
Definition dfa_move (st : LexState) (r : Z) : Z * bool :=
  let '(ns, skip) := linear_transition st r in with_default st ns skip.

Inductive dfa_step (l : LexerConfig) : Conf → Conf → Prop :=
| dfa_eof q c s h st :
    zget (states l) q = Some st → len (source l) ≤ cPos c →
    0 ≤ lsEOF st → h ≤ len (states l) →
    dfa_step l (mkConf q c s h) (mkConf (i32 (lsEOF st)) c s (h + 1))
| dfa_char q c s h st r size q' :
    zget (states l) q = Some st → 0 ≤ cPos c < len (source l) →
    DecodeRune (slice (source l) (cPos c) (len (source l))) = (r, size) →
    dfa_move st r = (q', false) → 0 ≤ q' →
    dfa_step l (mkConf q c s h) (mkConf q' (move_cursor c r size) s 0)
| dfa_skip q c s h st r size q' :
    zget (states l) q = Some st → 0 ≤ cPos c < len (source l) →
    DecodeRune (slice (source l) (cPos c) (len (source l))) = (r, size) →
    dfa_move st r = (q', true) → 0 ≤ q' →
    dfa_step l (mkConf q c s h) (mkConf q' (move_cursor c r size) (move_cursor c r size) 0).

Lemma dfa_step_det l x y z : dfa_step l x y → dfa_step l x z → y = z.
Proof. destruct 1; inversion 1; simplify_eq; try lia; congruence. Qed.

(** A configuration at which the automaton may accept. *)
Definition accepts (l : LexerConfig) (startPos : Z) (v : Conf) (st : LexState) : Prop :=
  zget (states l) (dState v) = Some st ∧ eligible l startPos st (dStart v) (dScan v) = true.

(** [v] is preferred to [u]: a smaller priority number, or the same one and
    at least as much text. *)
Definition preferred (v : Conf) (st : LexState) (u : Conf) (st' : LexState) : Prop :=
  lsAcceptPriority st < lsAcceptPriority st' ∨
  lsAcceptPriority st = lsAcceptPriority st' ∧ cPos (dScan u) ≤ cPos (dScan v).

(** [v] ends the token the automaton started from [c0] finds: it is in the
    last stretch free of skips, and no accepting configuration of that stretch
    is better. *)
Record munch (l : LexerConfig) (startPos : Z) (c0 v : Conf) (st : LexState) : Prop := {
  munch_reach : rtc (dfa_step l) c0 v;
  munch_accepts : accepts l startPos v st;
  munch_last u : rtc (dfa_step l) c0 u → cPos (dStart u) ≤ cPos (dStart v);
  munch_best u st' : rtc (dfa_step l) c0 u → cPos (dStart u) = cPos (dStart v) →
    accepts l startPos u st' → preferred v st u st' }.

(** Nothing is accepted after the last skip, which ended at [f]. *)
Record munch_none (l : LexerConfig) (startPos : Z) (c0 : Conf) (f : Cursor) : Prop := {
  none_reach : ∃ v, rtc (dfa_step l) c0 v ∧ dStart v = f;
  none_last u : rtc (dfa_step l) c0 u → cPos (dStart u) ≤ cPos f;
  none_accepts u st : rtc (dfa_step l) c0 u → cPos (dStart u) = cPos f →
    ¬ accepts l startPos u st }.

Section munch.
Context (l : LexerConfig) (Hok : config_ok l) (startPos : Z) (startPt : Point).
Context (Hstart : 0 ≤ startPos ≤ len (source l)) (c0 : Conf).

Definition conf_of (w : Walk) : Conf := mkConf (wState w) (wScan w) (wStart w) (wHops w).

Definition conf_accept (v : Conf) (st : LexState) : Accept :=
  mkAccept (cPos (dScan v)) (cRow (dScan v)) (cCol (dScan v)) 0 (cPos (dScan v)) (dStart v)
    (lsAcceptToken st) (lsSkip st) (lsAcceptPriority st).

(** The accept bookkeeping [a] for a token starting at [start], after the
    configurations [vs] were looked at. *)
Record best (vs : list Conf) (start : Cursor) (a : Accept) : Prop := {
  best_from : aPos a < 0 ∨
    ∃ v st, v ∈ vs ∧ dStart v = start ∧ accepts l startPos v st ∧ a = conf_accept v st;
  best_of v st : v ∈ vs → cPos (dStart v) = cPos start → accepts l startPos v st →
    0 ≤ aPos a ∧
    (aPriority a < lsAcceptPriority st ∨
     aPriority a = lsAcceptPriority st ∧ cPos (dScan v) ≤ aPos a) }.

(** [vs] are the configurations already noted when the walk stands at [w]. *)
Record noted (vs : list Conf) (w : Walk) : Prop := {
  noted_inv : walk_inv l startPos startPt w;
  noted_skipped : wSkipped w = (startPos <? cPos (wStart w));
  noted_here : rtc (dfa_step l) c0 (conf_of w);
  noted_all u : rtc (dfa_step l) c0 u → u ∈ vs ∨ rtc (dfa_step l) (conf_of w) u;
  noted_start v : v ∈ vs → rtc (dfa_step l) c0 v ∧ cPos (dStart v) ≤ cPos (wStart w);
  noted_best : best vs (wStart w) (wAccept w) }.

Definition accept_here (w : Walk) : Accept :=
  match zget (states l) (wState w) with
  | Some st => note_accept l startPos st w
  | None => wAccept w
  end.

Lemma best_keep vs v start a :
  best vs start a →
  (∀ st, accepts l startPos v st → 0 ≤ aPos a ∧
     (aPriority a < lsAcceptPriority st ∨
      aPriority a = lsAcceptPriority st ∧ cPos (dScan v) ≤ aPos a)) →
  best (v :: vs) start a.
Proof.
  intros [Hfrom Hbest] Hv. split.
  - destruct Hfrom as [?|(u & st & Hu & ?)]; [by left|right].
    exists u, st. split; [by right|done].
  - intros u st [->|Hu]%elem_of_cons Hs Ha; [by apply Hv|by eapply Hbest].
Qed.

Lemma best_here vs w :
  walk_inv l startPos startPt w → best vs (wStart w) (wAccept w) →
  best (conf_of w :: vs) (wStart w) (accept_here w).
Proof.
  intros Hw Hb. unfold accept_here. destruct (zget _ _) as [st|] eqn:Hst.
  2:{ apply best_keep; [done|]. intros st [Hc _]. cbn in Hc. congruence. }
  assert (∀ st', accepts l startPos (conf_of w) st' →
            st' = st ∧ eligible l startPos st (wStart w) (wScan w) = true) as Hhere.
  { intros st' [Hc He]. cbn in Hc, He. by simplify_eq. }
  unfold note_accept. destruct (eligible _ _ _ _ _) eqn:Hel; cbn [andb].
  2:{ apply best_keep; [done|]. by intros st' [_ ?]%Hhere. }
  assert (0 ≤ cPos (wScan w)) by (destruct Hw as [[? _] _ _ _ _]; lia).
  assert (aPos (wAccept w) < 0 ∨ aProgress (wAccept w) = aPos (wAccept w)) as Hprog.
  { destruct Hb as [[?|(v&st'&_&_&_&->)] _]; [by left|by right]. }
  unfold improves. case_match eqn:Himp.
  - split; [right; exists (conf_of w), st; split_and!; [by left|done..]|].
    intros v st' [->|Hv]%elem_of_cons Hs Hv'; cbn.
    + destruct (Hhere _ Hv') as [-> _]. split; [done|by right].
    + destruct (best_of _ _ _ Hb _ _ Hv Hs Hv') as [? ?]. split; [done|]. lia.
  - apply best_keep; [done|]. intros st' [-> _]%Hhere. cbn. lia.
Qed.

Lemma best_clear vs start a start' :
  (∀ v, v ∈ vs → cPos (dStart v) ≤ cPos start) → cPos start < cPos start' →
  best vs start' (clear_accept a).
Proof.
  intros Hvs Hlt. split; [left; cbn; lia|].
  intros v st Hv%Hvs Heq _. lia.
Qed.

(** One iteration of the loop is one step of the automaton, and the loop is
    left where the automaton has no step. *)
Lemma walk_step_sim w :
  walk_inv l startPos startPt w → ∃ res, walk_step l startPos w = Ret res ∧
    match res with
    | inl w' => dfa_step l (conf_of w) (conf_of w') ∧
        (wStart w' = wStart w ∧ wSkipped w' = wSkipped w ∧ wAccept w' = accept_here w ∨
         cPos (wScan w) < cPos (wStart w') ∧ wSkipped w' = true ∧
         wAccept w' = clear_accept (accept_here w))
    | inr w' => conf_of w' = conf_of w ∧ (∀ y, ¬ dfa_step l (conf_of w) y) ∧
        wSkipped w' = wSkipped w ∧ wAccept w' = accept_here w
    end.
Proof.
  intros Hw. pose proof Hw as [Hsc Hst Hord Hacc [Hh Heof]]. unfold walk_step, accept_here.
  destruct (_ || _) eqn:Hbad.
  { eexists; split; [done|]. assert (zget (states l) (wState w) = None) as Hn
      by (apply zget_None; lia). rewrite Hn. split_and!; try done.
    intros y. inversion 1; simplify_eq; congruence. }
  destruct (index_in_range (states l) (wState w)) as (st & -> & Hstt); [lia|].
  rewrite Hstt. cbn.
  destruct (Z.leb_spec (len (source l)) (cPos (wScan w))) as [Hend|Hin].
  { destruct ((0 <=? lsEOF st) && _) eqn:Hhop; (eexists; split; [done|]).
    - split; [|by left]. eapply dfa_eof; [done|cbn; lia..].
    - split_and!; try done. intros y. unfold conf_of. inversion 1; simplify_eq; lia. }
  assert (0 ≤ cPos (wScan w) < len (source l)) as Hpos by (destruct Hsc; lia).
  destruct (rune_at (source l) (cPos (wScan w)) (wScan w) (ok_bytes _ Hok) Hpos eq_refl)
    as (b & r & size & -> & Hb & Hr & -> & Hdec & Hdec' & Hs & Hle & Hpt).
  cbn. rewrite Hdec. cbn.
  rewrite (lookup_transition_Ret (states l)); [|apply Hok|done|done|done|apply Hok].
  assert (wHops w = 0) as Hh0 by lia.
  cbn. fold (dfa_move st r). destruct (dfa_move st r) as [ns sk] eqn:Hmv.
  cbn. destruct (Z.ltb_spec ns 0) as [Hns|Hns].
  { eexists; split; [done|]. unfold conf_of; cbn. split_and!; [congruence| |done..].
    intros y. inversion 1; simplify_eq; try lia;
      match goal with _ : 0 ≤ ?q |- _ => assert (q = ns) by congruence; lia end. }
  destruct sk; (eexists; split; [done|]); split.
  - by eapply dfa_skip.
  - right. cbn. rewrite move_cursor_pos. split; [lia|done].
  - by eapply dfa_char.
  - by left.
Qed.

Lemma rtc_dfa_inv x y u :
  dfa_step l x y → rtc (dfa_step l) x u → u = x ∨ rtc (dfa_step l) y u.
Proof.
  intros Hxy [->|(z & Hz & Hu)]%rtc_inv; [by left|right].
  by rewrite (dfa_step_det _ _ _ _ Hxy Hz).
Qed.

Lemma noted_step vs w w' :
  noted vs w → walk_step l startPos w = Ret (inl w') →
  noted (conf_of w :: vs) w' ∧ walk_measure l w' < walk_measure l w.
Proof.
  intros [Hw Hsk Hhere Hall Hst Hb] Hstep.
  destruct (walk_step_inv l Hok startPos startPt Hstart w Hw) as (? & Hs1 & Hinv).
  destruct (walk_step_sim w Hw) as (? & Hs2 & Hd).
  rewrite Hstep in Hs1, Hs2. gsimpl. destruct Hinv as [Hw' Hm], Hd as [Hd Hcase]. split; [|done].
  pose proof (best_here vs w Hw Hb) as Hb'. pose proof (inv_order _ _ _ _ Hw) as Hord.
  pose proof (inv_start _ _ _ _ Hw') as [Hst' _]. pose proof (inv_start _ _ _ _ Hw) as [Hst0 _].
  assert (∀ v, v ∈ conf_of w :: vs → rtc (dfa_step l) c0 v ∧ cPos (dStart v) ≤ cPos (wStart w))
    as Hvs by (intros v [->|Hv]%elem_of_cons; [done|by apply Hst]).
  split; try done.
  - destruct Hcase as [(-> & -> & _)|(? & -> & _)]; [done|]. symmetry. apply Z.ltb_lt. lia.
  - by eapply rtc_r.
  - intros u [?|Hu]%Hall; [by left; right|].
    destruct (rtc_dfa_inv _ _ _ Hd Hu) as [->|?]; [left; left|by right].
  - intros v Hv%Hvs. split; [apply Hv|].
    destruct Hcase as [(-> & _)|(? & _)]; [apply Hv|]. destruct Hv. lia.
  - destruct Hcase as [(-> & _ & ->)|(? & _ & ->)]; [done|].
    apply (best_clear _ (wStart w)); [|lia]. intros v Hv. by apply Hvs.
Qed.

(** The loop returns, at a configuration without a step, with everything on
    the way noted. *)
Lemma walk_loop_noted fuel vs w :
  noted vs w → walk_measure l w < Z.of_nat fuel →
  ∃ w' ws, walk_loop l startPos fuel w = Ret w' ∧ noted ws w' ∧
    (∀ y, ¬ dfa_step l (conf_of w') y) ∧ conf_of w' ∈ ws.
Proof.
  revert vs w. induction fuel as [|fuel IH]; intros vs w Hn Hm.
  { destruct Hn as [[[Hsc _] _ _ _ [Hh _]] _ _ _ _ _]. unfold walk_measure in Hm. lia. }
  cbn [walk_loop]. destruct (walk_step_inv l Hok startPos startPt Hstart w (noted_inv _ _ Hn)) as (res & Hs & Hinv).
  destruct res as [w'|w'].
  - destruct (noted_step _ _ _ Hn Hs) as [Hn' Hlt]. rewrite Hs. cbn. apply (IH _ _ Hn'). lia.
  - destruct (walk_step_sim w (noted_inv _ _ Hn)) as (? & Hs2 & Hd).
    rewrite Hs in Hs2. gsimpl. destruct Hd as (Hc & Hstuck & Hsk & Ha).
    exists w', (conf_of w :: vs). rewrite Hs, Hc. split_and!; try done; [|by left].
    destruct Hn as [Hw Hsk' Hhere Hall Hst Hb].
    pose proof (best_here vs w Hw Hb) as Hb'.
    assert (wStart w' = wStart w) as Hst' by (by injection Hc).
    split; rewrite ?Hc, ?Hst', ?Hsk, ?Ha; try done.
    + intros u [?|?]%Hall; [by left; right|by right].
    + intros v [->|Hv]%elem_of_cons; [done|by apply Hst].
Qed.

End munch.

(** ** What a scan returns *)

(** The token of an accepting configuration, and the cursor behind it. *)
Definition munched_token (l : LexerConfig) (startPos : Z) (v : Conf) (sym : Z) (text : list Z)
    (internal : bool) : Token :=
  mkToken sym text (u32 (cPos (dStart v))) (u32 (cPos (dScan v)))
    (cursor_point (dStart v)) (cursor_point (dScan v)) false false false 0
    (startPos <? cPos (dStart v)) (u32 startPos) false internal false.

Definition munched_state (s : LexerState) (v : Conf) : LexerState :=
  mkLexerState (mkCursor (cPos (dScan v)) (cRow (dScan v)) (cCol (dScan v)) (cRangeIdx (lCur s)))
    (lFail s).

(** Both cursors of a configuration sit at source offsets, in order. *)
Definition positioned (l : LexerConfig) (c : Cursor) (v : Conf) : Prop :=
  cursor_at l (cPos c) (cursor_point c) (dStart v) ∧
  cursor_at l (cPos c) (cursor_point c) (dScan v) ∧ cPos (dStart v) ≤ cPos (dScan v).

(** The outcome of a scan of state [q] from [c]: the token or the skip of the
    preferred accepting configuration; a skip of what is left when the input
    ended in an end-of-input transition and nothing was accepted; or a failure
    that leaves the cursor alone and records where the token attempt began. *)
Inductive scan_spec (l : LexerConfig) (s : LexerState) (c : Cursor) (q : Z)
  : option Token → LexerState → Prop :=
| scan_accept v st :
    munch l (cPos c) (mkConf q c c 0) v st → positioned l c v → lsSkip st = false →
    scan_spec l s c q
      (Some (munched_token l (cPos c) v (lsAcceptToken st)
               (slice (source l) (cPos (dStart v)) (cPos (dScan v))) true))
      (munched_state s v)
| scan_skip v st :
    munch l (cPos c) (mkConf q c c 0) v st → positioned l c v → lsSkip st = true →
    scan_spec l s c q (Some (munched_token l (cPos c) v 0 [] false)) (munched_state s v)
| scan_skip_eof v :
    munch_none l (cPos c) (mkConf q c c 0) (dStart v) → positioned l c v →
    rtc (dfa_step l) (mkConf q c c 0) v → 0 < dHops v → cPos (dScan v) = len (source l) →
    scan_spec l s c q (Some (munched_token l (cPos c) v 0 [] false)) (munched_state s v)
| scan_fail v :
    munch_none l (cPos c) (mkConf q c c 0) (dStart v) → positioned l c v →
    rtc (dfa_step l) (mkConf q c c 0) v → (∀ y, ¬ dfa_step l v y) → dHops v = 0 →
    scan_spec l s c q None
      (mkLexerState (lCur s) (mkCursor (cPos (dStart v)) (cRow (dStart v)) (cCol (dStart v)) 0)).

Section outcome.
Context (l : LexerConfig) (c : Cursor) (q : Z) (Hpos : 0 ≤ cPos c ≤ len (source l)).
Let c0 := mkConf q c c 0.
Let pt := cursor_point c.

Lemma noted_initial : noted l (cPos c) pt c0 [] (mkWalk q c c false no_accept 0).
Proof.
  assert (cursor_at l (cPos c) pt c) by (split; [lia|by rewrite slice_nil by lia]).
  split; cbn.
  - split; cbn; [done|done|lia|by left|]. pose proof (len_nonneg (states l)). lia.
  - symmetry. apply Z.ltb_irrefl.
  - done.
  - by right.
  - by intros v ?%elem_of_nil.
  - split; [by left|]. by intros v st ?%elem_of_nil.
Qed.

(** What the loop leaves behind is the best configuration, or none. *)
Lemma noted_final ws w :
  noted l (cPos c) pt c0 ws w → (∀ y, ¬ dfa_step l (conf_of w) y) → conf_of w ∈ ws →
  (∃ v st, munch l (cPos c) c0 v st ∧ dStart v = wStart w ∧ wAccept w = conf_accept v st) ∨
  (aPos (wAccept w) < 0 ∧ munch_none l (cPos c) c0 (wStart w)).
Proof.
  intros [Hw _ Hhere Hall Hst [Hfrom Hbest]] Hstuck Hin.
  assert (∀ u, rtc (dfa_step l) c0 u → u ∈ ws) as Hall'.
  { intros u [?|Hu]%Hall; [done|]. apply rtc_inv in Hu as [<-|(y & Hy & _)]; [done|].
    by apply Hstuck in Hy. }
  destruct Hfrom as [Hnone|(v & st & Hv & Hvs & Hacc & Ha)].
  - right. split; [done|]. split; [by exists (conf_of w)|intros u ?%Hall'%Hst; tauto|].
    intros u st Hu%Hall' Hs Hac. destruct (Hbest u st Hu Hs Hac). lia.
  - left. exists v, st. split_and!; [|done..].
    split; [by apply Hst|done|intros u ?%Hall'%Hst; rewrite Hvs; tauto|].
    intros u st' Hu%Hall' Hs Hac. rewrite Hvs in Hs. destruct (Hbest u st' Hu Hs Hac) as [_ Hp].
    rewrite Ha in Hp. exact Hp.
Qed.
Lemma cursor_at_start : cursor_at l (cPos c) pt c.
Proof using Hpos. split; [lia|by rewrite slice_nil by lia]. Qed.

(** Every configuration the automaton reaches is positioned. *)
Lemma reach_positioned v :
  config_ok l → rtc (dfa_step l) c0 v → positioned l c v.
Proof using Hpos.
  intros Hok Hr. pattern v. revert v Hr. apply rtc_ind_r.
  { split_and!; [apply cursor_at_start..|done]. }
  intros x y _ Hxy (Hst & Hsc & Hord).
  destruct Hxy as [q' k st h a Ha Hend _ _|q' k st h a r size n Ha Hk Hd _ _
                  |q' k st h a r size n Ha Hk Hd _ _]; cbn in *; [done|..].
  all: destruct (rune_at (source l) (cPos k) k (ok_bytes _ Hok) Hk eq_refl)
    as (b & r' & size' & _ & _ & _ & _ & _ & Hd' & Hs & Hle & Hpt);
    rewrite Hd in Hd'; injection Hd' as <- <-.
  all: pose proof (cursor_at_move l _ _ Hpos k r size Hsc Hs Hle Hpt) as Hmv.
  all: split_and!; cbn; [done|done|rewrite ?move_cursor_pos; lia].
Qed.

End outcome.

(** The record the DFA loop starts from and what [scanContiguous] makes of the
    record it ends with. *)
Lemma scanContiguous_outcome l s c q :
  config_ok l → 0 ≤ cPos c ≤ len (source l) → cRangeIdx c = 0 → 0 ≤ q < len (states l) →
  q < 2 ^ 31 →
  ∃ tok s', scanContiguous l s q (cPos c) (cRow c) (cCol c) = Ret (tok, s') ∧
    scan_spec l s c q tok s'.
Proof.
  intros Hok Hpos Hidx Hq Hq32.
  unfold scanContiguous. rewrite i32_id by lia.
  destruct (_ || _) eqn:Hbad; [lia|]. clear Hbad.
  replace (mkCursor (cPos c) (cRow c) (cCol c) 0) with c by (destruct c; cbn in *; congruence).
  destruct (walk_loop_noted l Hok (cPos c) (cursor_point c) Hpos (mkConf q c c 0) (scan_fuel l) []
              (mkWalk q c c false no_accept 0)) as (w & ws & Hloop & Hn & Hstuck & Hin).
  { by apply noted_initial. }
  { unfold walk_measure, scan_fuel, len. cbn. lia. }
  rewrite Hloop. cbn. pose proof (noted_skipped _ _ _ _ _ _ Hn) as Hsk. unfold accept_at_eof.
  destruct (noted_final _ _ _ Hpos _ _ Hn Hstuck Hin) as [(v & st & Hm & Hv & Ha)|[Ha Hm]].
  - pose proof (reach_positioned _ _ _ Hpos _ Hok (munch_reach _ _ _ _ _ Hm)) as Hp.
    assert (0 ≤ cPos (dScan v)) by (destruct Hp as (_ & [? _] & _); lia).
    rewrite Ha, Hsk, <-Hv. cbn. destruct (Z.ltb_spec (cPos (dScan v)) 0); [lia|]. cbn.
    destruct (Z.ltb_spec (cPos (dScan v)) 0); [lia|]. cbn. destruct (lsSkip st) eqn:Hskip.
    + do 2 eexists. split; [done|]. by eapply scan_skip.
    + destruct Hp as (Hst & Hsc & Hord). rewrite gslice_ok; [cbn|destruct Hst, Hsc; lia..].
      do 2 eexists. split; [done|]. by eapply scan_accept.
  - pose proof (reach_positioned _ _ _ Hpos _ Hok (noted_here _ _ _ _ _ _ Hn)) as Hp.
    destruct (Z.ltb_spec (aPos (wAccept w)) 0); [|lia]. cbn.
    pose proof (inv_hops _ _ _ _ (noted_inv _ _ _ _ _ _ Hn)) as [Hh Heof].
    destruct (Z.ltb_spec 0 (wHops w)); cbn.
    + assert (0 ≤ cPos (wScan w)) by (rewrite Heof by done; apply len_nonneg).
      destruct (Z.ltb_spec (cPos (wScan w)) 0); [lia|]. rewrite Hsk.
      do 2 eexists. split; [done|].
      apply (scan_skip_eof l s c q (conf_of w)); try done; [apply Hn|auto].
    + destruct (Z.ltb_spec (aPos (wAccept w)) 0); [|lia]. do 2 eexists. split; [done|].
      apply (scan_fail l s c q (conf_of w)); try done; [apply Hn|cbn; lia].
Qed.

(** A two-token lexer: words and numbers, blanks skipped, over [ab 7#c]. *)
Definition sample_states : list LexState := [
  mkLexState 0 0 false (-1) (-1)
    [mkLexTransition 32 32 0 true; mkLexTransition 97 122 1 false; mkLexTransition 48 57 2 false];
  mkLexState 1 0 false (-1) (-1)
    [mkLexTransition 97 122 1 false; mkLexTransition 48 57 1 false];
  mkLexState 2 0 false (-1) (-1) [mkLexTransition 48 57 2 false]].

Definition sample_lexer : LexerConfig :=
  mkLexerConfig sample_states
    (match buildLexAsciiTable sample_states with Ret t => Some t | _ => None end)
    [97; 98; 32; 55; 35; 99] [] [] [] 0 true false.

Lemma sample_lexer_ok : config_ok sample_lexer.
Proof.
  split.
  - by repeat (constructor; [unfold byte_ok; lia|]).
  - repeat constructor; cbn; unfold lexAsciiNoMatch; lia.
  - right. eexists. split; vm_compute; reflexivity.
Qed.

(** C14.  A scan of a valid lex state from a position inside the source
    returns without a run-time panic, and its result is the maximal munch of
    the automaton: among the accepting configurations reached since the last
    skip, the token ends at the one with the smallest priority number and,
    for that priority, the most text; its span, text and positions are those
    of the source.  Without an accepting configuration the scan either absorbs
    the rest of an input that ended inside an end-of-input chain, or fails
    with the cursor unmoved and the start of the failed attempt recorded. *)
Theorem scanContiguous_maximal_munch l s c q :
  config_ok l → 0 ≤ cPos c ≤ len (source l) → cRangeIdx c = 0 →
  0 ≤ q < len (states l) → q < 2 ^ 31 →
  ∃ tok s', scanContiguous l s q (cPos c) (cRow c) (cCol c) = Ret (tok, s') ∧
    scan_spec l s c q tok s'.
Proof. apply scanContiguous_outcome. Qed.

Lemma scanContiguous_maximal_munch_witness :
  ∃ tok s', scanContiguous sample_lexer (NewLexer [] []).2 0 0 0 0 = Ret (tok, s') ∧
    scan_spec sample_lexer (NewLexer [] []).2 (mkCursor 0 0 0 0) 0 tok s'.
Proof.
  apply (scanContiguous_maximal_munch sample_lexer (NewLexer [] []).2 (mkCursor 0 0 0 0) 0);
    [exact sample_lexer_ok|vm_compute; intuition discriminate|reflexivity
    |vm_compute; intuition discriminate|reflexivity].
Defined.
