(* ===== verification/LexerNext.v ===== *)
(** * Tokens of the contiguous lexer

    Facts about [next], [Next], [NextWithErrorRuns] and [errorRunToken]
    (lexer.go) on a lexer without included ranges: they return within their
    fuel, every token carries the text and the row and column positions its
    byte span has in the source, the cursor ends behind the token, and a
    zero-symbol token means the end of the source. *)

From Stdlib Require Import ZArith Lia ZifyBool Sorted.
From stdpp Require Import base tactics relations list numbers option.
From S2P Require Import Prelude Utf8 Points Tokens LexTable IncludedRanges Lexer LexerScan.
Local Open Scope Z_scope.

(** The row and column of a byte offset. *)
Definition position_of (l : LexerConfig) (pos : Z) : Point :=
  computeNewEndPoint point0 (slice (source l) 0 pos).

(** A cursor that tells the truth about its offset. *)
Definition honest (l : LexerConfig) (c : Cursor) : Prop :=
  0 ≤ cPos c ≤ len (source l) ∧ cursor_point c = position_of l (cPos c).

(** The span, the positions and the text of a token are those of the source. *)
Record token_ok (l : LexerConfig) (t : Token) : Prop := {
  tok_span : 0 ≤ tStartByte t ∧ tStartByte t ≤ tEndByte t ∧ tEndByte t ≤ len (source l);
  tok_start : tStartPoint t = position_of l (tStartByte t);
  tok_end : tEndPoint t = position_of l (tEndByte t);
  tok_text : tSymbol t ≠ 0 → tText t = slice (source l) (tStartByte t) (tEndByte t) }.

(** A lexer over one contiguous source, with tables from the loaders. *)
Record lexer_ok (l : LexerConfig) : Prop := {
  lok_config : config_ok l;
  lok_contiguous : includedRanges l = [];
  lok_source : len (source l) < 2 ^ 32;
  lok_states : len (states l) ≤ 2 ^ 31;
  lok_error : hasErrorRunLexState l = true → 0 ≤ errorRunLexState l < len (states l) }.

(** The cursor one rune further. *)
Definition rune_next (l : LexerConfig) (c c' : Cursor) : Prop :=
  0 ≤ cPos c < len (source l) ∧
  ∃ r size, DecodeRune (slice (source l) (cPos c) (len (source l))) = (r, size) ∧
            c' = move_cursor c r size.

Lemma rune_next_det l c c1 c2 : rune_next l c c1 → rune_next l c c2 → c1 = c2.
Proof. intros (_ & r & sz & ? & ->) (_ & r' & sz' & ? & ->). congruence. Qed.

(** Lex state [q] finds a token or a skip at [c]. *)
Definition can_lex (l : LexerConfig) (q : Z) (c : Cursor) : Prop :=
  ∃ s t s', scan l s q (cPos c) (cRow c) (cCol c) = Ret (Some t, s').

Lemma cursor_at_honest l c c' :
  honest l c → cursor_at l (cPos c) (cursor_point c) c' → honest l c'.
Proof.
  intros [Hc Hp] [Hc' Hp']. split; [lia|]. rewrite Hp', Hp. unfold position_of.
  by rewrite <-computeNewEndPoint_app, slice_app_split by lia.
Qed.

Lemma honest_same l c c' : honest l c → cPos c' = cPos c → cursor_point c' = cursor_point c → honest l c'.
Proof. intros [? ?] Hp Hq. unfold honest. by rewrite Hp, Hq. Qed.

Section next.
Context (l : LexerConfig) (Hl : lexer_ok l).

Lemma munched_ok s c v sym text internal :
  honest l c → positioned l c v →
  (sym ≠ 0 → text = slice (source l) (cPos (dStart v)) (cPos (dScan v))) →
  let t := munched_token l (cPos c) v sym text internal in
  let s' := munched_state s v in
  honest l (lCur s') ∧ token_ok l t ∧ cPos (lCur s') = tEndByte t ∧
  cPos c ≤ tStartByte t ∧ lFail s' = lFail s.
Proof.
  intros Hc (Hst & Hsc & Hord) Htext t s'. pose proof (lok_source _ Hl) as Hlen.
  destruct (cursor_at_honest _ _ _ Hc Hst) as [Hst1 Hst2].
  destruct (cursor_at_honest _ _ _ Hc Hsc) as [Hsc1 Hsc2].
  assert (cPos c ≤ cPos (dStart v)) by apply Hst.
  unfold t, s', munched_token, munched_state. cbn. rewrite !u32_id by lia.
  split_and!; [split; [cbn; lia|by cbn]| |done|lia|done].
  split; cbn; rewrite ?u32_id by lia; [lia|done..].
Qed.

(** A scan from an honest cursor. *)
Lemma scan_honest s q c :
  honest l c → 0 ≤ q < 2 ^ 31 →
  ∃ res s', scan l s q (cPos c) (cRow c) (cCol c) = Ret (res, s') ∧
    match res with
    | Some t => honest l (lCur s') ∧ token_ok l t ∧ cPos (lCur s') = tEndByte t ∧
        cPos c ≤ tStartByte t ∧ lFail s' = lFail s
    | None => lCur s' = lCur s ∧
        (q < len (states l) → honest l (lFail s') ∧ cPos c ≤ cPos (lFail s'))
    end.
Proof.
  intros Hc Hq. unfold scan. rewrite lok_contiguous by done.
  destruct (decide (q < len (states l))) as [Hin|Hout].
  2:{ unfold scanContiguous. rewrite i32_id by lia.
      destruct (Z.ltb_spec q 0), (Z.leb_spec (len (states l)) q); try lia. cbn.
      do 2 eexists. split; [done|]. cbn. split; [done|]. lia. }
  set (c1 := mkCursor (cPos c) (cRow c) (cCol c) 0).
  assert (honest l c1) as Hc1 by by apply (honest_same l c).
  destruct (scanContiguous_outcome l s c1 q) as (tok & s' & He & Hs);
    [apply Hl|apply Hc|done|lia..|].
  exists tok, s'. split; [done|].
  destruct Hs as [v st Hm Hp Hsk|v st Hm Hp Hsk|v Hm Hp Hr Hh He'|v Hm Hp Hr Hst Hh].
  1-3: by apply (munched_ok s c1).
  cbn. split; [done|]. intros _. destruct Hp as (Hst1 & _).
  split; [|apply Hst1].
  apply (honest_same l (dStart v)); [by eapply cursor_at_honest|done..].
Qed.

Lemma skipOneRune_honest s :
  honest l (lCur s) → cPos (lCur s) < len (source l) →
  ∃ s', skipOneRune l s = Ret s' ∧ honest l (lCur s') ∧ cPos (lCur s) < cPos (lCur s') ∧
    rune_next l (lCur s) (lCur s').
Proof.
  intros Hc Hlt. unfold skipOneRune. rewrite lok_contiguous by done.
  destruct (Z.leb_spec (len (source l)) (cPos (lCur s))); [lia|].
  assert (0 ≤ cPos (lCur s) < len (source l)) as Hpos by (destruct Hc; lia).
  destruct (rune_at (source l) _ (lCur s) (ok_bytes _ (lok_config _ Hl)) Hpos eq_refl)
    as (b & r & size & _ & _ & _ & -> & _ & Hd & Hs & Hle & Hpt).
  cbn. rewrite Hd. eexists. split; [done|]. cbn. split_and!; [|rewrite move_cursor_pos; lia|by split; eauto].
  destruct Hc as [Hc Hcp]. split; rewrite move_cursor_pos; [lia|].
  rewrite Hpt, Hcp. unfold position_of. by rewrite <-computeNewEndPoint_app, slice_app_split by lia.
Qed.

Lemma skipOneRune_eof s : len (source l) ≤ cPos (lCur s) → skipOneRune l s = Ret s.
Proof.
  intros. unfold skipOneRune. rewrite lok_contiguous by done. by zcases; try lia.
Qed.

Lemma atLogicalEOF_eq s : atLogicalEOF l s = (len (source l) <=? cPos (lCur s)).
Proof. unfold atLogicalEOF. by rewrite lok_contiguous. Qed.

(** Whether a scan succeeds does not depend on the lexer's cursor. *)
Lemma scan_result_det s s' q c :
  match scan l s q (cPos c) (cRow c) (cCol c), scan l s' q (cPos c) (cRow c) (cCol c) with
  | Ret (r, _), Ret (r', _) => r = r'
  | _, _ => True
  end.
Proof.
  unfold scan. rewrite lok_contiguous by done. unfold scanContiguous.
  destruct (_ || _); [done|]. destruct (walk_loop _ _ _ _) as [w| |]; [cbn|done..].
  destruct (_ <? 0); [done|]. destruct (aSkip _); [done|]. by destruct (gslice _ _ _).
Qed.

Lemma rune_reach_mono c c' : 0 ≤ cPos c → rtc (rune_next l) c c' → cPos c ≤ cPos c'.
Proof.
  intros H0. induction 1 as [|c c1 c' (Hc & r & size & Hd & ->) _ IH]; [done|].
  rewrite move_cursor_pos in IH.
  assert (slice (source l) (cPos c) (len (source l)) ≠ []) as Hne.
  { destruct (zget_in_range _ _ Hc) as [b Hb]. by rewrite (slice_cons _ _ _ b) by (done || lia). }
  destruct (DecodeRune_size _ _ _ Hne Hd). lia.
Qed.

Lemma canLexAt_honest s q c :
  honest l c → 0 ≤ q < 2 ^ 31 →
  ∃ ok s', canLexAt l s q c = Ret (ok, s') ∧ lCur s' = lCur s ∧
    (ok = true ↔ can_lex l q c) ∧
    (ok = false → q < len (states l) → honest l (lFail s') ∧ cPos c ≤ cPos (lFail s')).
Proof.
  intros Hc Hq. unfold canLexAt.
  destruct (scan_honest s q c Hc Hq) as (res & s' & Hscan & Hs). rewrite Hscan. cbn.
  do 2 eexists. split; [done|]. split; [done|]. split; [|destruct res; [done|]; intros _; apply Hs].
  split; [destruct res; [|done]; intros _; by exists s, t, s'|].
  intros (s1 & t & s2 & Hscan'). pose proof (scan_result_det s s1 q c) as Hd.
  rewrite Hscan, Hscan' in Hd. cbn in Hd. by destruct res.
Qed.

(** The skip loop of an error run stops at the first rune where the error
    state lexes, or at the end of the source. *)
Lemma error_run_loop_spec fuel s :
  hasErrorRunLexState l = true → honest l (lCur s) →
  len (source l) - cPos (lCur s) < Z.of_nat fuel →
  ∃ s', error_run_loop l fuel s = Ret s' ∧ honest l (lCur s') ∧
    rtc (rune_next l) (lCur s) (lCur s') ∧ cPos (lCur s) ≤ cPos (lCur s') ∧
    (∀ c, rtc (rune_next l) (lCur s) c → cPos c < cPos (lCur s') →
          ¬ can_lex l (errorRunLexState l) c) ∧
    (cPos (lCur s') = len (source l) ∨ can_lex l (errorRunLexState l) (lCur s')).
Proof.
  intros Herr. pose proof (lok_error _ Hl Herr). pose proof (lok_states _ Hl).
  revert s. induction fuel as [|fuel IH]; intros s Hc Hf; [destruct Hc; lia|].
  cbn [error_run_loop]. rewrite atLogicalEOF_eq.
  destruct (Z.leb_spec (len (source l)) (cPos (lCur s))) as [Hend|Hin].
  { exists s. split_and!; try done; [|destruct Hc; left; lia].
    intros c [<-|(y & [? _] & _)]%rtc_inv; lia. }
  destruct (canLexAt_honest s (errorRunLexState l) (lCur s) Hc ltac:(lia))
    as (ok & s1 & -> & Hcur & Hcan & _). cbn. destruct ok.
  { exists s1. rewrite Hcur. split_and!; try done; [|right; by apply Hcan].
    intros c Hr Hlt. apply rune_reach_mono in Hr; [lia|apply Hc]. }
  rewrite <-Hcur in Hc, Hin. destruct (skipOneRune_honest s1 Hc Hin) as (s2 & -> & Hc2 & Hlt & Hrn).
  cbn. rewrite Hcur in Hlt, Hrn. destruct (IH s2 Hc2) as (s3 & -> & Hc3 & Hr3 & Hle3 & Hno & Hend); [lia|].
  exists s3. split_and!; try done; [by eapply rtc_l|lia|].
  intros c [<-|(y & Hy & Hyc)]%rtc_inv Hlt'.
  - intros Hx%Hcan. done.
  - rewrite (rune_next_det _ _ _ _ Hy Hrn) in Hyc. by apply Hno.
Qed.

(** An error-run token starts no earlier than the cursor, ends where the skip
    loop stops, and is the end-of-source token when only skips were left. *)
Lemma errorRunToken_spec s :
  hasErrorRunLexState l = true → honest l (lCur s) → honest l (lFail s) →
  ∃ t s', errorRunToken l s = Ret (t, s') ∧ honest l (lCur s') ∧ token_ok l t ∧
    cPos (lCur s') = tEndByte t ∧ cPos (lCur s) ≤ tStartByte t ∧
    (tSymbol t = 0 ∧ tEndByte t = len (source l) ∨
     tSymbol t = errorSymbol ∧ ∃ c0 c1, cPos c0 = tStartByte t ∧ rune_next l c0 c1 ∧
       rtc (rune_next l) c1 (lCur s') ∧
       (∀ c, rtc (rune_next l) c1 c → cPos c < tEndByte t →
             ¬ can_lex l (errorRunLexState l) c) ∧
       (tEndByte t = len (source l) ∨ can_lex l (errorRunLexState l) (lCur s'))).
Proof.
  intros Herr Hc Hfail. pose proof (lok_source _ Hl) as Hlen. unfold errorRunToken.
  set (s1 := if _ && _ then _ else s).
  assert (honest l (lCur s1) ∧ cPos (lCur s) ≤ cPos (lCur s1)) as [Hc1 Hle].
  { unfold s1. destruct (_ && _) eqn:E; cbn; [split; [done|lia]|done]. }
  clearbody s1. unfold normalizeIncludedPosition, normalizeIncludedCursor.
  rewrite lok_contiguous by done. rewrite atLogicalEOF_eq. cbn [lCur lFail].
  pose proof Hc1 as [Hb1 Hp1].
  destruct (Z.leb_spec (len (source l)) (cPos (lCur s1))) as [Hend|Hin].
  { do 2 eexists. split; [done|]. cbn. rewrite u32_id by lia.
    split_and!; [done| |done|done|left; lia]. split; cbn; rewrite ?u32_id by lia; [lia|done..]. }
  destruct (skipOneRune_honest (mkLexerState (lCur s1) (lFail s1)) Hc1 Hin)
    as (s2 & -> & Hc2 & Hlt & Hrn). cbn [lCur lFail] in *.
  destruct (error_run_loop_spec (next_fuel l) s2 Herr Hc2)
    as (s3 & Hloop & Hc3 & Hr & Hle3 & Hno & Hstop).
  { unfold next_fuel, len in *. destruct Hc2. lia. }
  pose proof Hc3 as [Hb3 Hp3]. cbn. rewrite Hloop. cbn. unfold tokenText.
  destruct (Z.leb_spec (cPos (lCur s3)) (cPos (lCur s1))); [lia|].
  rewrite lok_contiguous by done. rewrite gslice_ok by lia. cbn.
  do 2 eexists. split; [done|]. cbn. rewrite !u32_id by lia.
  split_and!; [done| |done|done|right; split; [done|by exists (lCur s1), (lCur s2)]].
  split; cbn; rewrite ?u32_id by lia; [lia|done..].
Qed.

(** What every returned token satisfies, for a call that began at [from]. *)
Record lexed (from : Z) (t : Token) (s' : LexerState) : Prop := {
  lexed_cursor : honest l (lCur s');
  lexed_token : token_ok l t;
  lexed_end : cPos (lCur s') = tEndByte t;
  lexed_from : from ≤ tStartByte t;
  lexed_eof : tSymbol t = 0 → tEndByte t = len (source l) }.

Lemma lexed_weaken from from' t s' : from' ≤ from → lexed from t s' → lexed from' t s'.
Proof. intros ? [? ? ? ? ?]. split; try done; lia. Qed.

Lemma eof_token_lexed from s :
  honest l (lCur s) → from ≤ cPos (lCur s) → len (source l) ≤ cPos (lCur s) →
  lexed from (eof_token (lCur s)) s.
Proof.
  intros Hc Hf He. pose proof (lok_source _ Hl). pose proof Hc as [? ?].
  split; cbn; rewrite ?u32_id by lia; try done; [|lia].
  split; cbn; rewrite ?u32_id by lia; [lia|done..].
Qed.

Lemma set_skippedPrefix_ok t b : token_ok l t → token_ok l (set_skippedPrefix t b).
Proof. by intros [? ? ? ?]. Qed.

Lemma next_loop_spec fuel s q emit callStart pre retry :
  honest l (lCur s) → 0 ≤ q < 2 ^ 31 → cPos callStart ≤ cPos (lCur s) →
  len (source l) - cPos (lCur s) < Z.of_nat fuel →
  (emit && hasErrorRunLexState l && errorModeRetry l && negb (q =? errorRunLexState l) = true →
   ∀ f, ∃ t s', retry (mkLexerState callStart f) = Ret (t, s') ∧ lexed (cPos callStart) t s') →
  ∃ t s', next_loop l fuel s q emit callStart pre retry = Ret (t, s') ∧
          lexed (cPos callStart) t s'.
Proof.
  intros Hc Hq Hfrom Hf Hretry. revert s pre Hc Hfrom Hf.
  induction fuel as [|fuel IH]; intros s pre Hc Hfrom Hf; [destruct Hc; lia|].
  cbn [next_loop]. rewrite atLogicalEOF_eq.
  destruct (Z.leb_spec (len (source l)) (cPos (lCur s))) as [Hend|Hin].
  { do 2 eexists. split; [done|]. by apply eof_token_lexed. }
  assert (∀ s1 pre, honest l (lCur s1) → cPos (lCur s) = cPos (lCur s1) →
    ∃ t s', (s2 ← skipOneRune l s1; next_loop l fuel s2 q emit callStart pre retry) = Ret (t, s') ∧
            lexed (cPos callStart) t s') as Hskip.
  { intros s1 pre' Hc1 Hp1. destruct (skipOneRune_honest s1 Hc1) as (s2 & -> & ? & ? & _); [lia|].
    cbn. apply IH; [done|lia..]. }
  destruct (scan_honest s q (lCur s) Hc Hq) as (res & s1 & -> & Hs). cbn.
  destruct res as [t|].
  - destruct Hs as (Hc1 & Ht & Hend & Hst & _). pose proof (tok_span _ _ Ht).
    destruct (Z.eqb_spec (tSymbol t) 0) as [Hz|Hz].
    + case_match eqn:Hle; [apply Hskip; [done|lia]|]. apply IH; [done|lia..].
    + do 2 eexists. split; [done|].
      destruct pre; split; try done; try lia. by apply set_skippedPrefix_ok. cbn; lia.
  - destruct Hs as [Hcur Hfail]. rewrite <-Hcur in Hc.
    destruct (emit && hasErrorRunLexState l && errorModeRetry l && negb (q =? errorRunLexState l)).
    { by apply Hretry. }
    destruct (emit && hasErrorRunLexState l) eqn:Herr; cbn; [|apply Hskip; [done|by rewrite Hcur]].
    apply andb_prop in Herr as [_ Herr].
    pose proof (lok_error _ Hl Herr). pose proof (lok_states _ Hl).
    rewrite Hcur in Hc.
    destruct (canLexAt_honest s1 (errorRunLexState l) (lCur s) Hc ltac:(lia))
      as (ok & s2 & -> & Hcur2 & _ & Hfail2).
    cbn. rewrite <-Hcur, <-Hcur2 in Hc. destruct ok; cbn; [apply Hskip; [done|congruence]|].
    destruct (errorRunToken_spec s2 Herr Hc) as (t & s3 & -> & ? & ? & ? & Hle & Hcase);
      [apply Hfail2; [done|lia]|].
    do 2 eexists. split; [done|]. rewrite Hcur2, Hcur in Hle.
    split; try done; [lia|]. intros Hz. destruct Hcase as [[_ ?]|[Hsym _]]; [done|].
    by rewrite Hsym in Hz.
Qed.

Lemma enter_honest s :
  honest l (lCur s) →
  honest l (lCur (skipLeadingBOM l (normalizeIncludedPosition l s))) ∧
  cPos (lCur s) ≤ cPos (lCur (skipLeadingBOM l (normalizeIncludedPosition l s))).
Proof.
  intros Hc. unfold normalizeIncludedPosition, normalizeIncludedCursor, skipLeadingBOM.
  rewrite lok_contiguous by done. cbn [lCur]. destruct (Z.eqb_spec (cPos (lCur s)) 0) as [H0|]; [|done].
  destruct (bool_decide_reflect (take 3 (source l) = utf8BOM)) as [Hbom|]; cbn; [|done].
  split; [|lia]. destruct Hc as [_ Hp]. unfold position_of in Hp. rewrite H0 in Hp.
  rewrite slice_nil in Hp by lia. injection Hp as Hrow _. cbn in Hrow.
  assert (3 ≤ len (source l)).
  { apply (f_equal length) in Hbom. rewrite length_take in Hbom. change (length utf8BOM) with 3%nat in Hbom. unfold len. lia. }
  split; cbn; [lia|]. unfold position_of, slice. rewrite drop_0.
  change (Z.to_nat (3 - 0)) with 3%nat. rewrite Hbom. unfold cursor_point; cbn. by rewrite Hrow.
Qed.

Lemma next_lexed s q emit :
  honest l (lCur s) → 0 ≤ q < 2 ^ 31 →
  ∃ t s', next l s q emit = Ret (t, s') ∧ lexed (cPos (lCur s)) t s'.
Proof.
  intros Hc Hq. unfold next.
  destruct (enter_honest s Hc) as [Hc0 Hle0]. set (s0 := skipLeadingBOM _ _) in *.
  assert (len (source l) + 1 < Z.of_nat (next_fuel l)) by (unfold next_fuel, len; lia).
  destruct (next_loop_spec (next_fuel l) s0 q emit (lCur s0) false
    (λ s, next_loop l (next_fuel l) (skipLeadingBOM l (normalizeIncludedPosition l s))
            (errorRunLexState l) true (lCur (skipLeadingBOM l (normalizeIncludedPosition l s)))
            false (λ _, NoFuel))) as (t & s' & Heq & Ht); [done..|lia|destruct Hc0; lia| |].
  - intros Hcond f. assert (hasErrorRunLexState l = true) as Herr by lia.
    pose proof (lok_error _ Hl Herr). pose proof (lok_states _ Hl).
    destruct (enter_honest (mkLexerState (lCur s0) f) Hc0) as [Hc1 Hle1].
    set (s1 := skipLeadingBOM l (normalizeIncludedPosition l (mkLexerState (lCur s0) f))) in *.
    cbn [lCur] in Hle1.
    destruct (next_loop_spec (next_fuel l) s1 (errorRunLexState l) true (lCur s1) false
                (λ _, NoFuel)) as (t & s' & Heq & Ht); [done|lia|done|destruct Hc1; lia| |].
    + rewrite Z.eqb_refl. cbn. lia.
    + exists t, s'. split; [done|]. by eapply lexed_weaken.
  - exists t, s'. split; [exact Heq|]. by eapply lexed_weaken.
Qed.

End next.

(** ** The ASCII table is only an accelerator *)

Definition without_table (l : LexerConfig) : LexerConfig :=
  mkLexerConfig (states l) None (source l) (includedRanges l) (immediateTokens l)
    (zeroWidthTokens l) (errorRunLexState l) (hasErrorRunLexState l) (errorModeRetry l).

Section table.
Context (l : LexerConfig) (Hok : config_ok l).
Let l' := without_table l.

Lemma lookup_without_table st q b r :
  zget (states l) q = Some st → 0 ≤ b → (b < 0x80 → r = b) →
  lookup_transition (asciiTable l) st q b r = lookup_transition None st q b r.
Proof using Hok.
  intros. rewrite (lookup_transition_Ret (states l)) by (done || apply Hok).
  by rewrite lookup_transition_linear.
Qed.

Lemma byte_at pos b : index (source l) pos = Ret b → 0 ≤ b.
Proof using Hok.
  intros Hb%index_Ret. pose proof (Forall_zget _ _ _ _ (ok_bytes _ Hok) Hb) as Hb'.
  unfold byte_ok in Hb'. lia.
Qed.

Lemma walk_step_table p w : walk_step l p w = walk_step l' p w.
Proof using Hok.
  unfold walk_step. cbn [l' without_table states source asciiTable].
  destruct (_ || _); [done|]. destruct (index (states l) _) as [st| |] eqn:Hst; [cbn|done..].
  apply index_Ret in Hst. change (note_accept l' p st w) with (note_accept l p st w).
  destruct (_ <=? _); [done|]. destruct (index (source l) _) as [b| |] eqn:Hb; [cbn|done..].
  destruct (gslice _ _ _) as [tail| |]; [cbn|done..]. apply byte_at in Hb.
  destruct (Z.ltb_spec b 0x80); [|destruct (DecodeRune tail)]; cbn;
    by rewrite lookup_without_table by (done || lia).
Qed.

Lemma eof_loop_table n : eof_loop l n = eof_loop l' n.
Proof. induction n as [|n IH]; [done|]. cbn. by rewrite IH. Qed.

Lemma normalize_loop_table n c : normalize_loop l n c = normalize_loop l' n c.
Proof.
  revert c. induction n as [|n IH]; intros c; cbn.
  - unfold includedEOFPosition. by rewrite eof_loop_table.
  - by rewrite IH.
Qed.

Lemma normalizeIncludedCursor_table c : normalizeIncludedCursor l c = normalizeIncludedCursor l' c.
Proof.
  unfold normalizeIncludedCursor. cbn [l' without_table includedRanges].
  destruct (includedRanges l); [done|]. by rewrite normalize_loop_table.
Qed.

Lemma advanceIncludedCursor_table c : advanceIncludedCursor l c = advanceIncludedCursor l' c.
Proof.
  unfold advanceIncludedCursor. rewrite <-normalizeIncludedCursor_table.
  cbn [l' without_table includedRanges source].
  change (includedRangeBounds l') with (includedRangeBounds l).
  case_match; [done|]. case_match. case_match; [done|].
  destruct (index _ _); [cbn|done..]. case_match. by rewrite <-normalizeIncludedCursor_table.
Qed.

Lemma walk_step_included_table p w : walk_step_included l p w = walk_step_included l' p w.
Proof using Hok.
  unfold walk_step_included. rewrite <-advanceIncludedCursor_table.
  cbn [l' without_table states source asciiTable includedRanges].
  destruct (_ || _); [done|]. destruct (index (states l) _) as [st| |] eqn:Hst; [cbn|done..].
  apply index_Ret in Hst.
  change (note_accept_included l' p st w) with (note_accept_included l p st w).
  destruct (note_accept_included l p st w) as [a| |]; [cbn|done..].
  destruct (_ <=? _); [done|]. destruct (index (source l) _) as [b| |] eqn:Hb; [cbn|done..].
  apply byte_at in Hb. change (includedRangeBounds l') with (includedRangeBounds l).
  destruct (includedRangeBounds _ _) as [_x fin].
  destruct (Z.ltb_spec b RuneSelf); unfold RuneSelf in *; [|destruct (gslice _ _ _); [cbn|done..]]; cbn;
    by rewrite lookup_without_table by (done || lia).
Qed.

Lemma scan_table s q p r c : scan l s q p r c = scan l' s q p r c.
Proof using Hok.
  assert (∀ n w, walk_loop l p n w = walk_loop l' p n w) as Hw.
  { induction n as [|n IH]; intros w; [done|]. cbn. rewrite walk_step_table.
    destruct (walk_step _ _ _) as [[]| |]; cbn; auto. }
  assert (∀ p n w, walk_loop_included l p n w = walk_loop_included l' p n w) as Hi.
  { intros p'. induction n as [|n IH]; intros w; [done|]. cbn. rewrite walk_step_included_table.
    destruct (walk_step_included _ _ _) as [[]| |]; cbn; auto. }
  unfold scan, scanContiguous, scanIncluded. rewrite Hw, <-normalizeIncludedCursor_table.
  rewrite Hi. done.
Qed.

Lemma skipOneRune_table s : skipOneRune l s = skipOneRune l' s.
Proof.
  unfold skipOneRune, skipOneIncludedRune. by rewrite <-advanceIncludedCursor_table.
Qed.

Lemma canLexAt_table s q c : canLexAt l s q c = canLexAt l' s q c.
Proof using Hok. unfold canLexAt. by rewrite scan_table. Qed.

Lemma error_run_loop_table n s : error_run_loop l n s = error_run_loop l' n s.
Proof using Hok.
  revert s. induction n as [|n IH]; intros s; [done|]. cbn.
  rewrite canLexAt_table. change (atLogicalEOF l' s) with (atLogicalEOF l s).
  destruct (atLogicalEOF l s); [done|].
  destruct (canLexAt l' s _ _) as [[[] s1]| |]; [done| |done..]. cbn.
  rewrite skipOneRune_table. destruct (skipOneRune l' s1); cbn; auto.
Qed.

Lemma normalizeIncludedPosition_table s :
  normalizeIncludedPosition l s = normalizeIncludedPosition l' s.
Proof. unfold normalizeIncludedPosition. by rewrite normalizeIncludedCursor_table. Qed.

Lemma errorRunToken_table s : errorRunToken l s = errorRunToken l' s.
Proof using Hok.
  unfold errorRunToken. cbn [l' without_table source].
  rewrite <-normalizeIncludedPosition_table. set (s1 := normalizeIncludedPosition _ _).
  change (atLogicalEOF l' s1) with (atLogicalEOF l s1). destruct (atLogicalEOF l s1); [done|].
  rewrite skipOneRune_table. destruct (skipOneRune l' s1); [cbn|done..].
  by rewrite error_run_loop_table.
Qed.

Lemma next_loop_table n s q emit c pre k k' :
  (∀ s, k s = k' s) → next_loop l n s q emit c pre k = next_loop l' n s q emit c pre k'.
Proof using Hok.
  intros Hk. revert s pre. induction n as [|n IH]; intros s pre; [done|]. cbn [next_loop].
  change (atLogicalEOF l' s) with (atLogicalEOF l s). destruct (atLogicalEOF l s); [done|].
  cbn [l' without_table hasErrorRunLexState errorModeRetry errorRunLexState].
  rewrite <-scan_table. destruct (scan l s q _ _ _) as [[res s1]| |]; [cbn|done..].
  assert (∀ s pre, (s2 ← skipOneRune l s; next_loop l n s2 q emit c pre k) =
                   (s2 ← skipOneRune l' s; next_loop l' n s2 q emit c pre k')) as Hskip.
  { intros s2 pre2. rewrite skipOneRune_table. destruct (skipOneRune l' s2); cbn; auto. }
  destruct res as [t|].
  - destruct (_ =? _); [|done]. destruct (_ <=? _); auto.
  - destruct (_ && negb _); [auto|]. rewrite canLexAt_table.
    destruct (_ && _); [|apply Hskip]. destruct (canLexAt l' s1 _ _) as [[[] s2]| |]; cbn; auto.
    apply errorRunToken_table.
Qed.
End table.

(** ** A client's calls *)

(** The calls a parser makes: a lex state and whether error runs are wanted. *)
Fixpoint lex_run (l : LexerConfig) (s : LexerState) (calls : list (Z * bool))
  : go (list Token * LexerState) :=
  match calls with
  | [] => Ret ([], s)
  | (q, emit) :: calls =>
    '(t, s) ← next l s q emit;
    '(ts, s) ← lex_run l s calls;
    Ret (t :: ts, s)
  end.

(** The first of the two tokens ends before the second starts. *)
Definition precedes (t t' : Token) : Prop := tEndByte t ≤ tStartByte t'.

Lemma lex_run_spec l s calls :
  lexer_ok l → honest l (lCur s) → Forall (λ c, 0 ≤ c.1 < 2 ^ 31) calls →
  ∃ ts s', lex_run l s calls = Ret (ts, s') ∧ length ts = length calls ∧
    Forall (λ t, token_ok l t ∧ (tSymbol t = 0 → tEndByte t = len (source l)) ∧
                 cPos (lCur s) ≤ tStartByte t) ts ∧
    Sorted precedes ts ∧ honest l (lCur s').
Proof.
  intros Hl Hc Hq. revert s Hc. induction Hq as [|[q emit] calls Hq _ IH]; intros s Hc.
  { exists [], s. split_and!; [done|done|constructor|constructor|apply Hc..]. }
  cbn. destruct (next_lexed l Hl s q emit Hc Hq) as (t & s1 & -> & [Hc1 Ht Hend Hfrom Heof]).
  cbn. destruct (IH s1 Hc1) as (ts & s2 & -> & Hlen & Hts & Hsort & Hc2). cbn.
  pose proof (tok_span _ _ Ht).
  exists (t :: ts), s2. split_and!; [done|cbn; lia| |constructor; [done|]|done].
  - constructor; [done|]. eapply list.Forall_impl; [exact Hts|].
    cbn. intros t' (? & ? & ?). split_and!; [done..|lia].
  - destruct Hts as [|t' ts (_ & _ & ?) _]; constructor. unfold precedes. lia.
Qed.

Lemma sample_lexer_next_ok : lexer_ok sample_lexer.
Proof. split; [apply sample_lexer_ok|done|by vm_compute..]. Qed.

Lemma initial_honest l f : honest l (lCur (mkLexerState (mkCursor 0 0 0 0) f)).
Proof. split; cbn; [pose proof (len_nonneg (source l)); lia|]. unfold position_of. by rewrite slice_nil. Qed.

(** C19.  On a contiguous source, [next] returns within its fuel and without
    a run-time panic from every honest cursor and for every lex state, with or
    without error runs and error-mode retry: the token's text is the source
    between its byte offsets, its start and end points are the row and column
    of those offsets, it does not start before the call did, the cursor is left
    honest at the token's end, and a zero symbol is only returned at the end of
    the source. *)
Theorem next_returns_source_token l s q emit :
  lexer_ok l → honest l (lCur s) → 0 ≤ q < 2 ^ 31 →
  ∃ t s', next l s q emit = Ret (t, s') ∧ lexed l (cPos (lCur s)) t s'.
Proof. intros Hl. by apply next_lexed. Qed.

Lemma next_returns_source_token_witness :
  ∃ t s', next sample_lexer (NewLexer [] []).2 0 true = Ret (t, s') ∧
          lexed sample_lexer 0 t s'.
Proof.
  apply (next_returns_source_token sample_lexer (NewLexer [] []).2 0 true);
    [exact sample_lexer_next_ok|apply initial_honest|vm_compute; intuition discriminate].
Defined.

(** C25.  Whatever lex states a client asks for, a lexer created at the start
    of a source returns one token per call; the tokens are well formed, they
    appear in source order and do not overlap. *)
Theorem lex_run_ordered l f calls :
  lexer_ok l → Forall (λ c, 0 ≤ c.1 < 2 ^ 31) calls →
  ∃ ts s', lex_run l (mkLexerState (mkCursor 0 0 0 0) f) calls = Ret (ts, s') ∧
    length ts = length calls ∧ Forall (token_ok l) ts ∧ StronglySorted precedes ts.
Proof.
  intros Hl Hq. destruct (lex_run_spec l (mkLexerState (mkCursor 0 0 0 0) f) calls Hl
    (initial_honest l f) Hq) as (ts & s' & Heq & Hlen & Hts & Hsort & _).
  exists ts, s'. split_and!; [done|done| |].
  { eapply list.Forall_impl; [exact Hts|]. by intros t (? & _). }
  clear Heq Hlen. induction Hsort as [|t ts Hsort IH Hhd]; [constructor|].
  apply list.Forall_cons_1 in Hts as [(Ht & _) Hts]. specialize (IH Hts).
  constructor; [done|]. destruct Hhd as [|t' ts Ht']; [constructor|].
  apply list.Forall_cons_1 in Hts as [(Hok & _) _]. pose proof (tok_span _ _ Hok).
  constructor; [done|]. apply StronglySorted_inv in IH as [_ IH].
  eapply list.Forall_impl; [exact IH|]. unfold precedes in *. lia.
Qed.

Lemma lex_run_ordered_witness :
  ∃ ts s', lex_run sample_lexer (NewLexer [] []).2 [(0, true); (0, true); (0, true); (0, false)]
           = Ret (ts, s') ∧
    length ts = 4%nat ∧ Forall (token_ok sample_lexer) ts ∧ StronglySorted precedes ts.
Proof.
  apply (lex_run_ordered sample_lexer (mkCursor 0 0 0 0)
           [(0, true); (0, true); (0, true); (0, false)]);
    [exact sample_lexer_next_ok|repeat (constructor; [vm_compute; intuition discriminate|]); constructor].
Defined.

(** The tokens of the sample: a word, a number after a blank, the error run
    for the character no state lexes, and the word behind it. *)
Example sample_run :
  (λ '(ts, _), map (λ t, (tSymbol t, tStartByte t, tEndByte t)) ts) <$>
    (match lex_run sample_lexer (NewLexer [] []).2 [(0, true); (0, true); (0, true); (0, false)] with
     | Ret r => Some r | _ => None end)
  = Some [(1, 0, 2); (2, 3, 4); (errorSymbol, 4, 5); (1, 5, 6)].
Proof. vm_compute. reflexivity. Qed.

(** An error run consumes one rune and then stops at the first rune
    boundary where the error-mode lex state can lex, or at the end of the
    source: no earlier boundary inside the run can be lexed.  When only
    skipped text was left it is the end-of-source token instead. *)
Theorem errorRunToken_maximal l s :
  lexer_ok l → hasErrorRunLexState l = true → honest l (lCur s) → honest l (lFail s) →
  ∃ t s', errorRunToken l s = Ret (t, s') ∧ token_ok l t ∧
    (tSymbol t = 0 ∧ tEndByte t = len (source l) ∨
     tSymbol t = errorSymbol ∧ ∃ c0 c1, cPos c0 = tStartByte t ∧ rune_next l c0 c1 ∧
       rtc (rune_next l) c1 (lCur s') ∧
       (∀ c, rtc (rune_next l) c1 c → cPos c < tEndByte t →
             ¬ can_lex l (errorRunLexState l) c) ∧
       (tEndByte t = len (source l) ∨ can_lex l (errorRunLexState l) (lCur s'))).
Proof.
  intros Hl Herr Hc Hf. destruct (errorRunToken_spec l Hl s Herr Hc Hf)
    as (t & s' & ? & ? & ? & ? & ? & ?). by exists t, s'.
Qed.

Lemma errorRunToken_maximal_witness :
  ∃ t s', errorRunToken sample_lexer (mkLexerState (mkCursor 4 0 4 0) (mkCursor 4 0 4 0))
          = Ret (t, s') ∧ token_ok sample_lexer t ∧
    (tSymbol t = 0 ∧ tEndByte t = 6 ∨
     tSymbol t = errorSymbol ∧ ∃ c0 c1, cPos c0 = tStartByte t ∧ rune_next sample_lexer c0 c1 ∧
       rtc (rune_next sample_lexer) c1 (lCur s') ∧
       (∀ c, rtc (rune_next sample_lexer) c1 c → cPos c < tEndByte t → ¬ can_lex sample_lexer 0 c) ∧
       (tEndByte t = 6 ∨ can_lex sample_lexer 0 (lCur s'))).
Proof.
  apply (errorRunToken_maximal sample_lexer (mkLexerState (mkCursor 4 0 4 0) (mkCursor 4 0 4 0)));
    [exact sample_lexer_next_ok|reflexivity|..];
    (split; [vm_compute; intuition discriminate|vm_compute; reflexivity]).
Defined.

(** The ASCII fast-path table changes nothing: with a table built by
    [buildLexAsciiTable] from states whose targets fit, [next] returns the same
    token and leaves the same lexer state as with the linear transition search,
    on contiguous sources and over included ranges alike. *)
Theorem next_ascii_table_equiv l s q emit :
  config_ok l → next l s q emit = next (without_table l) s q emit.
Proof.
  intros Hok. unfold next. rewrite <-(normalizeIncludedPosition_table l).
  change (skipLeadingBOM (without_table l)) with (skipLeadingBOM l).
  apply (next_loop_table l Hok). intros s'. rewrite <-(normalizeIncludedPosition_table l).
  by apply (next_loop_table l Hok).
Qed.

Lemma next_ascii_table_equiv_witness :
  next sample_lexer (NewLexer [] []).2 0 true =
  next (without_table sample_lexer) (NewLexer [] []).2 0 true.
Proof. apply next_ascii_table_equiv. exact sample_lexer_ok. Defined.
