(* ===== verification/Selection.v ===== *)
(** * The selected text

    What included ranges select from a source: the concatenation of the bytes
    inside the ranges ([selected]), and for every source offset the number of
    selected bytes before it ([loc]), which is where that offset lies in the
    selected text.  Ranges may reach beyond the source; [lo] and [hi] are the
    clipped bounds that [includedRangeBounds] (lexer_included_ranges.go)
    computes. *)

From Stdlib Require Import ZArith Lia ZifyBool.
From stdpp Require Import base tactics list numbers option sorting.
From S2P Require Import Prelude SliceSort Points IncludedRanges.
Local Open Scope Z_scope.

Section selection.
Context (src : list Z).

Definition lo (r : Range) : Z := Z.min (StartByte r) (len src).
Definition hi (r : Range) : Z := Z.min (EndByte r) (len src).

(** The bytes of one range, between two offsets. *)
Definition clip (p q : Z) (r : Range) : list Z := slice src (Z.max p (lo r)) (Z.min q (hi r)).

Definition selected (rs : list Range) : list Z := concat (map (clip 0 (len src)) rs).

Definition before (p : Z) (r : Range) : Z := Z.max 0 (Z.min p (hi r) - lo r).

Fixpoint loc (rs : list Range) (p : Z) : Z :=
  match rs with
  | [] => 0
  | r :: rs => before p r + loc rs p
  end.

(** Sorted disjoint ranges with non-negative bounds. *)
Record ranges_ok (rs : list Range) : Prop := {
  ranges_gapped : gapped rs;
  ranges_nonempty : Forall nonempty rs;
  ranges_nonneg : Forall (λ r, 0 ≤ StartByte r) rs }.

Lemma ranges_ok_cons r rs :
  ranges_ok (r :: rs) → ranges_ok rs ∧ 0 ≤ lo r ≤ hi r ∧ hi r ≤ len src ∧
    Forall (λ r', hi r ≤ lo r') rs.
Proof.
  intros [Hg Hn H0]. apply StronglySorted_inv in Hg as [Hg Hr].
  apply list.Forall_cons_1 in Hn as [Hn Hns]. apply list.Forall_cons_1 in H0 as [H0 H0s].
  unfold nonempty in Hn. pose proof (len_nonneg src). unfold lo, hi.
  split_and!; [by split|lia..|]. eapply list.Forall_impl; [exact Hr|]. cbn. lia.
Qed.

Lemma clip_bounds rs r : ranges_ok rs → r ∈ rs → 0 ≤ lo r ≤ hi r ∧ hi r ≤ len src.
Proof.
  intros [_ Hn H0] Hr. rewrite list.Forall_forall in Hn, H0. pose proof (len_nonneg src).
  specialize (Hn r Hr). specialize (H0 r Hr). unfold nonempty in Hn. unfold lo, hi. lia.
Qed.

(** A later range starts behind an earlier one. *)
Lemma clip_order rs i j a b :
  ranges_ok rs → i < j → zget rs i = Some a → zget rs j = Some b → hi a ≤ lo b.
Proof.
  intros [Hg _ _] Hij Ha Hb.
  pose proof (StronglySorted_zget _ _ _ _ _ _ Hg Ha Hb Hij). unfold hi, lo. cbn in *. lia.
Qed.

(** ** Offsets *)

Lemma loc_nonneg rs p : 0 ≤ loc rs p.
Proof. induction rs; cbn; unfold before in *; lia. Qed.

Lemma loc_zero rs : ranges_ok rs → loc rs 0 = 0.
Proof.
  induction rs as [|r rs IH]; intros Hok; [done|].
  destruct (ranges_ok_cons _ _ Hok) as (Hoks & ? & _). cbn. rewrite IH by done. unfold before. lia.
Qed.

Lemma loc_mono rs p q : p ≤ q → loc rs p ≤ loc rs q.
Proof. intros Hpq. induction rs; cbn; unfold before in *; lia. Qed.

Lemma loc_strict rs p q r : r ∈ rs → p < q → lo r ≤ p < hi r ∨ lo r < q ≤ hi r → loc rs p < loc rs q.
Proof.
  intros Hr Hpq Hin. induction rs as [|a rs IH]; [by apply elem_of_nil in Hr|].
  apply elem_of_cons in Hr as [->|Hr]; cbn.
  - pose proof (loc_mono rs p q). unfold before. lia.
  - specialize (IH Hr). unfold before. lia.
Qed.

(** No selected byte lies between the two offsets. *)
Lemma loc_gap rs p q :
  (∀ r, r ∈ rs → hi r ≤ lo r ∨ (hi r ≤ p ∧ hi r ≤ q) ∨ (p ≤ lo r ∧ q ≤ lo r)) →
  loc rs p = loc rs q.
Proof.
  intros Hr. induction rs as [|a rs IH]; [done|]. cbn. rewrite IH by (intros; apply Hr; by right).
  specialize (Hr a ltac:(by left)). unfold before. lia.
Qed.

Lemma loc_inside rs r p n :
  ranges_ok rs → r ∈ rs → lo r ≤ p → 0 ≤ n → p + n ≤ hi r → loc rs (p + n) = loc rs p + n.
Proof.
  intros Hok. revert r. induction rs as [|a rs IH]; intros r Hr Hp Hn Hpn; [by apply elem_of_nil in Hr|].
  destruct (ranges_ok_cons _ _ Hok) as (Hoks & Ha & _ & Hlater). rewrite list.Forall_forall in Hlater.
  apply elem_of_cons in Hr as [->|Hr]; cbn.
  - rewrite (loc_gap rs (p + n) p); [unfold before; lia|].
    intros r' Hr'%Hlater. lia.
  - rewrite (IH Hoks r Hr) by lia. specialize (Hlater r Hr). unfold before. lia.
Qed.

(** ** The text between two offsets *)

Lemma slice_app2 (a b : list Z) i j :
  0 ≤ i → 0 ≤ j →
  slice (a ++ b) i j =
  slice a (Z.min i (len a)) (Z.min j (len a)) ++ slice b (Z.max 0 (i - len a)) (Z.max 0 (j - len a)).
Proof.
  intros Hi Hj. unfold slice, len. rewrite drop_app, take_app, length_drop. f_equal.
  - destruct (decide (Z.to_nat i ≤ length a)%nat).
    + rewrite (Z.min_l i) by lia. destruct (decide (Z.to_nat j ≤ length a)%nat).
      * by rewrite (Z.min_l j) by lia.
      * rewrite (Z.min_r j) by lia. rewrite !take_ge; [done|rewrite length_drop; lia..].
    + rewrite !drop_ge by lia. by rewrite !take_nil.
  - f_equal; [lia|]. f_equal. lia.
Qed.

Lemma slice_of_slice (a : list Z) x y i j :
  0 ≤ x → x ≤ y → y ≤ len a → 0 ≤ i → j ≤ y - x → slice (slice a x y) i j = slice a (x + i) (x + j).
Proof.
  intros. unfold slice. rewrite skipn_firstn_comm, drop_drop, firstn_firstn.
  f_equal; [lia|]. f_equal. lia.
Qed.

Lemma len_clip rs r : ranges_ok rs → r ∈ rs → len (clip 0 (len src) r) = hi r - lo r.
Proof.
  intros Hok Hr. pose proof (clip_bounds _ _ Hok Hr). unfold clip. rewrite len_slice by lia. lia.
Qed.

Lemma selected_slice rs p q :
  ranges_ok rs → slice (selected rs) (loc rs p) (loc rs q) = concat (map (clip p q) rs).
Proof.
  induction rs as [|r rs IH]; intros Hok; [done|].
  destruct (ranges_ok_cons _ _ Hok) as (Hoks & Hr & Hlen & Hlater). cbn -[slice].
  assert (∀ p, hi r < p ∨ loc rs p = 0) as Hzero.
  { intros x. destruct (decide (hi r < x)); [by left|right].
    clear IH Hok Hoks. induction Hlater; [done|]. cbn. unfold before in *. lia. }
  pose proof (loc_nonneg rs p). pose proof (loc_nonneg rs q).
  pose proof (len_clip (r :: rs) r Hok ltac:(by left)) as Hl.
  change (concat (map (clip 0 (len src)) rs)) with (selected rs).
  rewrite slice_app2 by (unfold before; lia). rewrite Hl. f_equal.
  - unfold clip. rewrite Z.max_r, Z.min_r by lia. pose proof (Hzero p). pose proof (Hzero q).
    destruct (decide (Z.min q (hi r) ≤ Z.max p (lo r))).
    { rewrite !(slice_nil _ _ _); [done|unfold before; lia..]. }
    rewrite slice_of_slice by (unfold before; lia). f_equal; unfold before; lia.
  - rewrite <-IH by done. pose proof (Hzero p). pose proof (Hzero q). f_equal; unfold before; lia.
Qed.

Lemma len_selected rs : ranges_ok rs → len (selected rs) = loc rs (len src).
Proof.
  intros Hok. induction rs as [|r rs IH]; [done|].
  pose proof (len_clip (r :: rs) r Hok ltac:(by left)) as Hl.
  destruct (ranges_ok_cons _ _ Hok) as (Hoks & Hr & Hlen & _). cbn. rewrite len_app, Hl.
  change (concat (map (clip 0 (len src)) rs)) with (selected rs). rewrite IH by done. unfold before. lia.
Qed.

(** Every selected byte lies before [p]. *)
Lemma loc_total rs p :
  ranges_ok rs → (∀ r, r ∈ rs → hi r ≤ lo r ∨ hi r ≤ p) → loc rs p = len (selected rs).
Proof.
  intros Hok Hp. rewrite len_selected by done. apply loc_gap. intros r Hr.
  pose proof (clip_bounds _ _ Hok Hr). specialize (Hp r Hr). lia.
Qed.

Lemma loc_le_total rs p : ranges_ok rs → loc rs p ≤ len (selected rs).
Proof.
  intros Hok. destruct (Z.le_gt_cases p (len src)).
  - rewrite len_selected by done. by apply loc_mono.
  - rewrite <-(loc_total rs p Hok); [lia|]. intros r Hr. pose proof (clip_bounds _ _ Hok Hr). lia.
Qed.

Lemma Forall_selected (P : Z → Prop) rs : Forall P src → Forall P (selected rs).
Proof.
  intros HP. induction rs; cbn; [constructor|]. apply Forall_app. split; [|done].
  unfold clip, slice. by apply Forall_take, Forall_drop.
Qed.

Lemma len_selected_le rs : ranges_ok rs → len (selected rs) ≤ len src.
Proof.
  intros Hok. rewrite len_selected by done.
  assert (∀ x, 0 ≤ x → (∀ r, r ∈ rs → x ≤ lo r) → loc rs (len src) ≤ Z.max 0 (len src - x)) as Hx.
  { induction rs as [|r rs IH]; intros x Hx0 Hx; [cbn; lia|].
    destruct (ranges_ok_cons _ _ Hok) as (Hoks & Hr & Hlen & Hlater). cbn.
    rewrite list.Forall_forall in Hlater.
    specialize (IH Hoks (hi r) ltac:(lia) Hlater). specialize (Hx r ltac:(by left)).
    unfold before. lia. }
  specialize (Hx 0 ltac:(lia)). pose proof (len_nonneg src).
  rewrite Z.sub_0_r, Z.max_r in Hx by lia. apply Hx. intros r Hr.
  pose proof (clip_bounds _ _ Hok Hr). lia.
Qed.

(** What follows the offset [p] of range [i] in the selected text: the rest of
    the range, then the later ranges. *)
Lemma selected_tail rs i r p :
  ranges_ok rs → zget rs i = Some r → lo r ≤ p ≤ hi r →
  slice (selected rs) (loc rs p) (len (selected rs)) =
  slice src p (hi r) ++ selected (drop (Z.to_nat (i + 1)) rs).
Proof.
  intros Hok Hi Hp. rewrite len_selected, selected_slice by done.
  revert i Hi. induction rs as [|a rs IH]; intros i Hi; [by rewrite zget_nil in Hi|].
  pose proof (zget_Some_range _ _ _ Hi) as Hrange.
  destruct (ranges_ok_cons _ _ Hok) as (Hoks & Ha & Hlen & Hlater).
  rewrite list.Forall_forall in Hlater. cbn [map concat].
  destruct (decide (i = 0)) as [->|Hne].
  - rewrite zget_cons_0 in Hi. injection Hi as ->. change (Z.to_nat (0 + 1)) with 1%nat. cbn [drop].
    unfold clip at 1. rewrite Z.max_l, Z.min_r by lia. rewrite drop_0. f_equal. unfold selected. f_equal.
    apply map_ext_in. intros b Hb. apply list_elem_of_In, Hlater in Hb. pose proof (len_nonneg src).
    unfold clip. rewrite !Z.max_r by lia. done.
  - rewrite zget_cons_ne in Hi by done. pose proof (zget_elem _ _ _ Hi) as Hr. apply Hlater in Hr.
    rewrite (IH Hoks (i - 1)) by done. unfold clip. rewrite slice_nil by lia. cbn [app]. f_equal.
    replace (Z.to_nat (i + 1)) with (S (Z.to_nat (i - 1 + 1))) by lia. done.
Qed.
End selection.
