(* ===== verification/LexerIncluded.v ===== *)
(** * Lexing over included ranges

    Facts about the included-range mode of the lexer (lexer_included_ranges.go
    and the methods of lexer.go that dispatch to it): it lexes the selected
    text.  Every call returns what the contiguous lexer returns on the
    concatenation of the ranges, with the same symbol and text, and with offsets
    and points that are true in the full source and lie at the corresponding
    place of the selected text. *)

From Stdlib Require Import ZArith Lia ZifyBool.
From stdpp Require Import base tactics list numbers option.
From S2P Require Import Prelude Utf8 Points SliceSort Tokens LexTable IncludedRanges Lexer LexerScan LexerNext.
From S2P Require Import Selection.
Local Open Scope Z_scope.

(** The contiguous lexer over the selected text. *)
Definition text_lexer (l : LexerConfig) : LexerConfig :=
  mkLexerConfig (states l) (asciiTable l) (selected (source l) (includedRanges l)) []
    (immediateTokens l) (zeroWidthTokens l) (errorRunLexState l) (hasErrorRunLexState l)
    (errorModeRetry l).

(** The points of a range are those of its offsets. *)
Definition range_honest (l : LexerConfig) (r : Range) : Prop :=
  (StartByte r ≤ len (source l) → StartPoint r = position_of l (StartByte r)) ∧
  (EndByte r ≤ len (source l) → EndPoint r = position_of l (EndByte r)).

(** A range does not begin inside a rune. *)
Definition at_rune_start (l : LexerConfig) (r : Range) : Prop :=
  match zget (source l) (StartByte r) with Some b => cont b = false | None => True end.

(** A leading byte-order mark is either selected, with text behind it in the
    same range, or neither read nor built by the selection. *)
Definition bom_ok (l : LexerConfig) : Prop :=
  match includedRanges l with
  | [] => True
  | r :: rs =>
    StartByte r = 0 ∧ 3 < hi (source l) r ∨
    take 3 (selected (source l) (r :: rs)) ≠ utf8BOM ∧
    (0 < lo (source l) r ∨ take 3 (source l) ≠ utf8BOM)
  end.

(** A lexer with normalised included ranges. *)
Record included_ok (l : LexerConfig) : Prop := {
  iok_config : config_ok l;
  iok_some : includedRanges l ≠ [];
  iok_ranges : ranges_ok (includedRanges l);
  iok_points : Forall (range_honest l) (includedRanges l);
  iok_runes : Forall (at_rune_start l) (includedRanges l);
  iok_bom : bom_ok l;
  iok_source : len (source l) < 2 ^ 32;
  iok_states : len (states l) ≤ 2 ^ 31;
  iok_error : hasErrorRunLexState l = true → 0 ≤ errorRunLexState l < len (states l) }.

Lemma text_lexer_ok l : included_ok l → lexer_ok (text_lexer l).
Proof.
  intros Hl. pose proof (len_selected_le (source l) _ (iok_ranges _ Hl)).
  pose proof (iok_source _ Hl). pose proof (iok_config _ Hl) as [Hb Hs Ht].
  split; cbn; [split; cbn; [by apply Forall_selected|done|done]|done|lia|apply Hl|apply Hl].
Qed.

(** ** Cursors *)

Section cursors.
Context (l : LexerConfig) (Hl : included_ok l).
Abbreviation src := (source l).
Abbreviation rs := (includedRanges l).
Abbreviation text := (selected (source l) (includedRanges l)).
Abbreviation at_ c := (loc (source l) (includedRanges l) (cPos c)).

Definition eof_pos : Z := (includedEOFPosition l).1.

(** In a range, or behind the last selected byte. *)
Definition settled (c : Cursor) : Prop :=
  honest l c ∧
  ((∃ r, zget rs (cRangeIdx c) = Some r ∧ lo src r ≤ cPos c < hi src r) ∨
   cRangeIdx c = len rs ∧ cPos c = eof_pos).

(** Settled, or in the gap before the range of the index. *)
Definition resting (c : Cursor) : Prop :=
  honest l c ∧
  ((∃ r, zget rs (cRangeIdx c) = Some r ∧ cPos c < hi src r ∧ lo src r < hi src r ∧
      (lo src r ≤ cPos c ∨ ∃ r', zget rs (cRangeIdx c - 1) = Some r' ∧ hi src r' ≤ cPos c)) ∨
   cRangeIdx c = len rs ∧ cPos c = eof_pos).

Lemma settled_resting c : settled c → resting c.
Proof.
  intros [Hc [(r & Hr & Hp)|?]]; (split; [done|]); [|by right].
  left. exists r. split_and!; [done|lia|lia|left; lia].
Qed.

Lemma bounds_of i r : zget rs i = Some r → includedRangeBounds l i = (lo src r, hi src r).
Proof. intros Hr. unfold includedRangeBounds. rewrite Hr. unfold lo, hi. f_equal; zcases; lia. Qed.

Lemma range_at i r : zget rs i = Some r → 0 ≤ lo src r ≤ hi src r ∧ hi src r ≤ len src ∧ r ∈ rs.
Proof using Hl.
  intros Hr%zget_elem. pose proof (clip_bounds src _ _ (iok_ranges _ Hl) Hr). tauto.
Qed.

Lemma position_start r : r ∈ rs → lo src r < hi src r → StartPoint r = position_of l (lo src r).
Proof using Hl.
  intros Hr Hlt. pose proof (iok_points _ Hl) as Hp. rewrite list.Forall_forall in Hp.
  destruct (Hp r Hr) as [Hs _]. unfold lo, hi in *. rewrite Hs by lia. f_equal. lia.
Qed.

Lemma position_end r : r ∈ rs → EndByte r ≤ len src → EndPoint r = position_of l (hi src r).
Proof using Hl.
  intros Hr Hle. pose proof (iok_points _ Hl) as Hp. rewrite list.Forall_forall in Hp.
  destruct (Hp r Hr) as [_ He]. unfold hi in *. rewrite He by lia. f_equal. lia.
Qed.

Lemma advance_position n : 0 ≤ n ≤ len src → advancePointByBytes point0 (slice src 0 n) = position_of l n.
Proof. intros. by rewrite advancePointByBytes_loop. Qed.

(** The end of the selected input is the end of the last range with selected
    bytes, and the end of the source when there is none. *)
Lemma eof_loop_spec n :
  (n ≤ length rs)%nat →
  let '(e, pt) := eof_loop l n in
  0 ≤ e ≤ len src ∧ pt = position_of l e ∧
  (∀ j r, j < Z.of_nat n → zget rs j = Some r → hi src r ≤ lo src r ∨ hi src r ≤ e) ∧
  ((∃ j r, j < Z.of_nat n ∧ zget rs j = Some r ∧ lo src r < hi src r ∧ e = hi src r) ∨
   e = len src ∧ (∀ j r, j < Z.of_nat n → zget rs j = Some r → hi src r ≤ lo src r)).
Proof using Hl.
  pose proof (len_nonneg src). assert (advancePointByBytes point0 src = position_of l (len src)) as Hend.
  { rewrite <-advance_position by lia. by rewrite slice_all. }
  induction n as [|n IH]; intros Hn; cbn.
  { split_and!; [lia|lia|done|..|right; split; [done|]]; intros j r ? ?%zget_Some_range; lia. }
  destruct (zget_in_range rs (Z.of_nat n)) as [r Hr]; [unfold len; lia|].
  rewrite (bounds_of _ _ Hr). rewrite zget_nat in Hr. rewrite Hr. rewrite <-zget_nat in Hr.
  destruct (range_at _ _ Hr) as (Hb1 & Hb2 & Hin).
  assert (∀ j, j < Z.of_nat (S n) → j = Z.of_nat n ∨ j < Z.of_nat n) as Hj by lia.
  destruct (Z.leb_spec (hi src r) (lo src r)) as [Hle|Hlt].
  { specialize (IH ltac:(lia)). destruct (eof_loop l n) as [e pt].
    destruct IH as (? & ? & Hall & Hor). split_and!; [lia|lia|done|..].
    - intros j r' [->|?]%Hj Hr'; [simplify_eq; by left|by eapply Hall].
    - destruct Hor as [(j & r' & ? & ?)|[? Hnone]]; [left; exists j, r'; split; [lia|done]|right].
      split; [done|]. intros j r' [->|?]%Hj Hr'; [by simplify_eq|by eapply Hnone]. }
  assert (∀ e, hi src r ≤ e → ∀ j r', j < Z.of_nat (S n) → zget rs j = Some r' →
            hi src r' ≤ lo src r' ∨ hi src r' ≤ e) as Hall.
  { intros e He j r' [->|?]%Hj Hr'; [simplify_eq; right; lia|].
    pose proof (clip_order src _ _ _ _ _ (iok_ranges _ Hl) ltac:(eassumption) Hr' Hr). right. lia. }
  destruct (Z.leb_spec (EndByte r) (len src)).
  - split_and!; [lia|lia|by apply position_end|by apply Hall|]. left. exists (Z.of_nat n), r.
    split_and!; [lia|done|done|done].
  - split_and!; [lia|lia|done|by apply Hall|]. left. exists (Z.of_nat n), r.
    split_and!; [lia|done|done|unfold hi; lia].
Qed.

Lemma eof_spec :
  honest l (mkCursor eof_pos (Row (includedEOFPosition l).2) (Column (includedEOFPosition l).2) (len rs)) ∧
  (∀ r, r ∈ rs → hi src r ≤ lo src r ∨ hi src r ≤ eof_pos) ∧
  ((∃ r, r ∈ rs ∧ lo src r < hi src r ∧ eof_pos = hi src r) ∨
   eof_pos = len src ∧ ∀ r, r ∈ rs → hi src r ≤ lo src r).
Proof using Hl.
  pose proof (eof_loop_spec (length rs) ltac:(done)) as He. unfold eof_pos, includedEOFPosition.
  destruct (eof_loop l (length rs)) as [e pt]. destruct He as (He & Hpt & Hall & Hor). cbn.
  split_and!.
  - split; cbn; [lia|]. rewrite <-Hpt. by destruct pt.
  - intros r (j & ? & Hr)%elem_zget. apply (Hall j); [unfold len in *; lia|done].
  - destruct Hor as [(j & r & ? & Hr & ?)|[? Hnone]].
    + left. exists r. split; [by eapply zget_elem|done].
    + right. split; [done|]. intros r (j & ? & Hr)%elem_zget. apply (Hnone j); [unfold len in *; lia|done].
Qed.
Lemma eof_total : loc src rs eof_pos = len text.
Proof using Hl. apply loc_total; [apply Hl|apply eof_spec]. Qed.

Lemma resting_inside c r :
  zget rs (cRangeIdx c) = Some r → cPos c < hi src r → lo src r < hi src r → at_ c < len text.
Proof using Hl.
  intros Hr Hp Hlt. destruct (range_at _ _ Hr) as (? & ? & Hin).
  pose proof (loc_strict src rs (cPos c) (hi src r) r Hin Hp ltac:(lia)).
  pose proof (loc_le_total src rs (hi src r) (iok_ranges _ Hl)). lia.
Qed.

Lemma at_end c : resting c → (len rs <=? cRangeIdx c) = (len text <=? at_ c).
Proof using Hl.
  intros [_ [(r & Hr & Hp & Hlt & _)|[-> ->]]].
  - pose proof (resting_inside _ _ Hr Hp Hlt). apply zget_Some_range in Hr. lia.
  - rewrite eof_total. lia.
Qed.

(** Settled cursors are ordered like the places they lie at. *)
Lemma settled_lt a b : settled a → settled b → cPos a < cPos b ↔ at_ a < at_ b.
Proof using Hl.
  intros [_ Ha] [_ Hb]. split; intros Hlt.
  - destruct Ha as [(r & Hr & Hp)|[_ Hp]].
    + apply (loc_strict _ _ _ _ r); [by eapply zget_elem|done|lia].
    + destruct Hb as [(r & Hr%zget_elem & Hq)|[_ Hq]]; [|lia].
      destruct (proj1 (proj2 (eof_spec)) r Hr); lia.
  - pose proof (loc_mono src rs (cPos b) (cPos a)). lia.
Qed.

Lemma settled_inj a b : settled a → settled b → at_ a = at_ b → a = b.
Proof using Hl.
  intros Ha Hb Heq. pose proof (settled_lt a b Ha Hb). pose proof (settled_lt b a Hb Ha).
  assert (cPos a = cPos b) as Hpos by lia.
  pose proof (at_end a (settled_resting _ Ha)) as Hea. pose proof (at_end b (settled_resting _ Hb)) as Heb.
  assert (cRangeIdx a = cRangeIdx b) as Hidx.
  { destruct Ha as [_ [(r & Hr & Hp)|[Hi _]]], Hb as [_ [(r' & Hr' & Hp')|[Hi' _]]].
    2-4: try apply zget_Some_range in Hr; try apply zget_Some_range in Hr'; lia.
    destruct (Z.lt_trichotomy (cRangeIdx a) (cRangeIdx b)) as [Hlt|[?|Hlt]]; [|done|].
    - pose proof (clip_order src _ _ _ _ _ (iok_ranges _ Hl) Hlt Hr Hr'). lia.
    - pose proof (clip_order src _ _ _ _ _ (iok_ranges _ Hl) Hlt Hr' Hr). lia. }
  destruct Ha as [[_ Hpa] _], Hb as [[_ Hpb] _]. rewrite Hpos, <-Hpb in Hpa. unfold cursor_point in Hpa.
  destruct a, b; cbn in *; congruence.
Qed.

(** ** Moving to selected input *)

Lemma normalize_loop_spec n c :
  Z.of_nat n = len rs - cRangeIdx c → 0 ≤ cRangeIdx c → honest l c →
  (∀ j r, j < cRangeIdx c → zget rs j = Some r → hi src r ≤ lo src r ∨ hi src r ≤ cPos c) →
  settled (normalize_loop l n c) ∧ at_ (normalize_loop l n c) = at_ c.
Proof using Hl.
  revert c. induction n as [|n IH]; intros c Hn Hi Hc Hbefore; cbn [normalize_loop].
  { pose proof eof_spec as (He & Hall & _). pose proof eof_total as Htot. unfold settled, eof_pos in *.
    destruct (includedEOFPosition l) as [e pt]. cbn in *. split.
    - split; [by eapply honest_same|right; cbn; split; [lia|done]].
    - rewrite Htot. symmetry. apply loc_total; [apply Hl|].
      intros r (j & Hj & Hr)%elem_zget. apply (Hbefore j); [lia|done]. }
  destruct (zget_in_range rs (cRangeIdx c)) as [r Hr]; [lia|]. rewrite (bounds_of _ _ Hr), Hr.
  destruct (range_at _ _ Hr) as (Hb1 & Hb2 & Hin).
  set (c1 := mkCursor (cPos c) (cRow c) (cCol c) (cRangeIdx c + 1)).
  assert (hi src r ≤ lo src r ∨ hi src r ≤ cPos c →
          settled (normalize_loop l n c1) ∧ at_ (normalize_loop l n c1) = at_ c) as Hskip.
  { intros Hpast. apply (IH c1); cbn; [lia|lia|by apply (honest_same l c)|].
    intros j r' Hj Hr'. destruct (decide (j = cRangeIdx c)) as [->|]; [by simplify_eq|].
    apply (Hbefore j); [lia|done]. }
  destruct (Z.leb_spec (hi src r) (lo src r)); [auto|].
  destruct (Z.ltb_spec (cPos c) (lo src r)) as [Hgap|].
  - split; cbn.
    + split; [|left; exists r; cbn; (split; [done|lia])]. split; cbn; [lia|].
      rewrite <-position_start by done. by destruct (StartPoint r).
    + symmetry. apply loc_gap. intros r' (j & Hj & Hr')%elem_zget.
      destruct (Z.lt_trichotomy j (cRangeIdx c)) as [Hlt|[->|Hlt]].
      * destruct (Hbefore j r' Hlt Hr'); lia.
      * simplify_eq. lia.
      * pose proof (clip_order src _ _ _ _ _ (iok_ranges _ Hl) Hlt Hr Hr'). lia.
  - destruct (Z.ltb_spec (cPos c) (hi src r)); [|auto].
    split; [|done]. split; [done|]. left. by exists r.
Qed.

Lemma normalize_spec c :
  honest l c → settled (normalizeIncludedCursor l c) ∧ at_ (normalizeIncludedCursor l c) = at_ c.
Proof using Hl.
  intros Hc. unfold normalizeIncludedCursor. pose proof (iok_some _ Hl) as Hne.
  destruct (includedRanges l) as [|r0 rest] eqn:Hrs; [done|]. rewrite <-Hrs in *. clear Hne.
  set (c1 := if _ || _ then _ else c).
  assert (cPos c1 = cPos c ∧ cursor_point c1 = cursor_point c ∧ 0 ≤ cRangeIdx c1 ≤ len rs) as (Hp1 & Hq1 & Hi1).
  { unfold c1. pose proof (len_nonneg rs). destruct (_ || _) eqn:E; cbn; split_and!; try done; lia. }
  clearbody c1. set (c2 := if _ && _ then _ else c1).
  assert (cPos c2 = cPos c ∧ cursor_point c2 = cursor_point c ∧ 0 ≤ cRangeIdx c2 ≤ len rs ∧
          ∀ j r, j < cRangeIdx c2 → zget rs j = Some r → hi src r ≤ lo src r ∨ hi src r ≤ cPos c2)
    as (Hp2 & Hq2 & Hi2 & Hb2).
  { assert (∀ j r, j < 0 → zget rs j = Some r → hi src r ≤ lo src r ∨ hi src r ≤ cPos c1) as Hzero
      by (intros j r ? ?%zget_Some_range; lia).
    unfold c2. destruct (_ && _) eqn:E.
    2:{ split_and!; [done|done|lia|lia|]. intros j r Hj. apply Hzero. lia. }
    destruct (zget_in_range rs (cRangeIdx c1 - 1)) as [r' Hr']; [lia|]. rewrite (bounds_of _ _ Hr').
    destruct (Z.ltb_spec (cPos c1) (hi src r')); cbn; (split_and!; [done|done|lia|lia|]); [done|].
    intros j r Hj Hr. right. destruct (decide (j = cRangeIdx c1 - 1)) as [->|]; [by simplify_eq|].
    assert (j < cRangeIdx c1 - 1) as Hlt by lia. destruct (range_at _ _ Hr') as (? & ? & _).
    pose proof (clip_order src _ _ _ _ _ (iok_ranges _ Hl) Hlt Hr Hr'). lia. }
  rewrite <-Hp2. apply normalize_loop_spec; [lia|lia|by eapply honest_same|done].
Qed.

Lemma normalize_settled c : settled c → normalizeIncludedCursor l c = c.
Proof using Hl.
  intros Hc. destruct (normalize_spec c (proj1 Hc)) as [? ?]. by apply settled_inj.
Qed.
(** No offset before a selected byte lies where the offset behind it does. *)
Lemma loc_least p r q : r ∈ rs → lo src r < p ≤ hi src r → loc src rs q = loc src rs p → p ≤ q.
Proof.
  intros Hr Hp Heq. destruct (Z.le_gt_cases p q) as [|Hlt]; [done|].
  pose proof (loc_strict src rs q p r Hr Hlt ltac:(lia)). lia.
Qed.

Lemma resting_first c r : zget rs 0 = Some r → lo src r < hi src r → resting c → lo src r ≤ cPos c.
Proof using Hl.
  intros Hr Hne [_ Hc].
  assert (∀ j r', zget rs j = Some r' → lo src r ≤ lo src r' ∧ lo src r ≤ hi src r') as Hle.
  { intros j r' Hr'. destruct (range_at _ _ Hr') as (? & ? & _). destruct (range_at _ _ Hr) as (? & ? & _).
    destruct (decide (j = 0)) as [->|]; [simplify_eq; lia|]. pose proof (zget_Some_range _ _ _ Hr').
    pose proof (clip_order src rs 0 j _ _ (iok_ranges _ Hl) ltac:(lia) Hr Hr'). lia. }
  destruct Hc as [(r' & Hr' & _ & _ & [?|(r'' & Hr'' & ?)])|[_ ->]].
  - pose proof (Hle _ _ Hr'). lia.
  - pose proof (Hle _ _ Hr''). lia.
  - destruct (proj1 (proj2 (eof_spec)) r (zget_elem _ _ _ Hr)); lia.
Qed.

(** Between consecutive ranges nothing is selected. *)
Lemma loc_between i r' r :
  zget rs (i - 1) = Some r' → zget rs i = Some r → lo src r < len src →
  loc src rs (hi src r') = loc src rs (lo src r) ∧
  lo src r' < hi src r' ∧ hi src r' < lo src r ∧ EndByte r' ≤ len src.
Proof using Hl.
  intros Hr' Hr Hlt. pose proof (iok_ranges _ Hl) as [Hg Hn _].
  pose proof (StronglySorted_zget _ _ _ _ _ _ Hg Hr' Hr ltac:(lia)) as Hgap. cbn in Hgap.
  pose proof (Forall_zget _ _ _ _ Hn Hr') as Hne. unfold nonempty in Hne.
  assert (lo src r' < hi src r' ∧ hi src r' < lo src r ∧ EndByte r' ≤ len src) as (? & ? & ?)
    by (unfold lo, hi in *; lia).
  split; [|done]. apply loc_gap. intros r'' (j & Hj & Hr'')%elem_zget.
  pose proof (iok_ranges _ Hl) as Hok.
  destruct (Z.lt_trichotomy j i) as [Hj'|[->|Hj']].
  - destruct (decide (j = i - 1)) as [->|]; [simplify_eq; lia|].
    pose proof (clip_order src _ j (i - 1) _ _ Hok ltac:(lia) Hr'' Hr'). lia.
  - simplify_eq. lia.
  - pose proof (clip_order src _ _ _ _ _ Hok Hj' Hr Hr''). destruct (range_at _ _ Hr) as (? & ? & _). lia.
Qed.

(** The end recorded for an accept lies where the scan does, and is the least
    such offset. *)
Lemma mark_spec c :
  settled c → ∃ p pt, includedMarkEnd l c = Ret (p, pt) ∧
    resting (mkCursor p (Row pt) (Column pt) (cRangeIdx c)) ∧ loc src rs p = at_ c ∧
    ∀ d, resting d → at_ d = at_ c → p ≤ cPos d.
Proof using Hl.
  intros Hc. unfold includedMarkEnd. pose proof Hc as [Hh Hcase].
  assert (∀ p pt, p = cPos c → pt = cursor_point c →
    (∀ d, resting d → at_ d = at_ c → p ≤ cPos d) →
    ∃ p' pt', Ret (p, pt) = Ret (p', pt') ∧
      resting (mkCursor p' (Row pt') (Column pt') (cRangeIdx c)) ∧ loc src rs p' = at_ c ∧
      ∀ d, resting d → at_ d = at_ c → p' ≤ cPos d) as Hsame.
  { intros p pt -> -> Hd. exists (cPos c), (cursor_point c). split_and!; try done.
    apply settled_resting in Hc. by destruct c. }
  destruct Hcase as [(r & Hr & Hp)|[Hi Hp]].
  2:{ destruct (_ && _) eqn:E; [lia|]. apply Hsame; [done..|].
      intros d Hd Heq. destruct (proj2 (proj2 eof_spec)) as [(r & Hr & Hlt & He)|[_ Hnone]].
      - rewrite Hp in *. apply (loc_least _ r); [done|lia|by rewrite Hp in Heq || done].
      - destruct Hd as [_ [(r & Hr%zget_elem & _ & Hlt & _)|[_ ->]]]; [|lia].
        specialize (Hnone r Hr). lia. }
  destruct (range_at _ _ Hr) as (Hb1 & Hb2 & Hin). pose proof (zget_Some_range _ _ _ Hr) as Hrange.
  destruct (decide (cRangeIdx c = 0)) as [Hz|Hz].
  { destruct (_ && _) eqn:E; [lia|]. apply Hsame; [done..|]. intros d Hd Heq.
    rewrite Hz in Hr. destruct (decide (lo src r = cPos c)) as [<-|].
    - apply (resting_first _ _ Hr); [lia|done].
    - apply (loc_least _ r); [done|lia|done]. }
  destruct (_ && _) eqn:E; [|lia]. rewrite (bounds_of _ _ Hr).
  destruct (Z.eqb_spec (cPos c) (lo src r)) as [Hst|Hst].
  2:{ apply Hsame; [done..|]. intros d Hd Heq. apply (loc_least _ r); [done|lia|done]. }
  destruct (index_in_range rs (cRangeIdx c - 1)) as (r' & -> & Hr'); [lia|]. cbn.
  rewrite (bounds_of _ _ Hr'). destruct (range_at _ _ Hr') as (Hb1' & Hb2' & Hin').
  destruct (loc_between _ _ _ Hr' Hr ltac:(lia)) as (Hsame' & ? & ? & ?).
  destruct (Z.leb_spec (EndByte r') (len src)); [|lia].
  exists (hi src r'), (EndPoint r'). rewrite Hst. split_and!; [done| |done|].
  - split; [|left; exists r; cbn; split_and!; [done|lia|lia|right; by exists r']].
    split; cbn; [lia|]. rewrite <-position_end by done. by destruct (EndPoint r').
  - intros d Hd Heq. apply (loc_least _ r'); [done|lia|congruence].
Qed.

(** ** Reading a rune *)

Lemma selected_head rs' :
  Forall nonempty rs' → Forall (at_rune_start l) rs' → Forall (λ r, 0 ≤ StartByte r) rs' →
  match selected src rs' with [] => True | b :: _ => cont b = false end.
Proof.
  intros Hn Hr H0. induction rs' as [|r rs' IH]; [done|]. unfold selected in *. cbn [map concat].
  apply list.Forall_cons_1 in Hn as [Hn Hns], Hr as [Hr Hrs], H0 as [H0 H0s].
  specialize (IH Hns Hrs H0s). unfold nonempty in Hn.
  destruct (decide (StartByte r < len src)) as [Hin|Hout].
  - destruct (zget_in_range src (StartByte r)) as [b Hb]; [lia|].
    unfold at_rune_start in Hr. rewrite Hb in Hr. unfold clip, lo, hi.
    rewrite (slice_cons _ _ _ b); [done| |lia]. by rewrite Z.max_r, Z.min_l by lia.
  - unfold clip at 1. rewrite slice_nil; [done|unfold lo, hi; lia].
Qed.

(** The cursor behind a rune of the range [r]. *)
Definition after_rune (c : Cursor) (r : Range) (rn size : Z) : Cursor :=
  let d := move_cursor c rn size in
  if hi src r <=? cPos d
  then normalizeIncludedCursor l (mkCursor (cPos d) (cRow d) (cCol d) (cRangeIdx d + 1)) else d.

Lemma after_rune_spec c r rn size :
  honest l c → zget rs (cRangeIdx c) = Some r → lo src r ≤ cPos c < hi src r →
  DecodeRune (slice src (cPos c) (hi src r)) = (rn, size) →
  settled (after_rune c r rn size) ∧ at_ (after_rune c r rn size) = at_ c + size ∧
  1 ≤ size ∧ cPos c + size ≤ hi src r.
Proof using Hl.
  intros Hh Hr Hp Hd. destruct (range_at _ _ Hr) as (Hb1 & Hb2 & Hin).
  destruct (zget_in_range src (cPos c)) as (b & Hb); [lia|].
  assert (slice src (cPos c) (hi src r) ≠ []) as Hne by (by rewrite (slice_cons _ _ _ b) by (done || lia)).
  destruct (DecodeRune_size _ _ _ Hne Hd) as [Hs Hle]. rewrite len_slice in Hle by lia.
  assert (honest l (move_cursor c rn size)) as Hmv.
  { split; rewrite move_cursor_pos; [destruct Hh; lia|]. rewrite (move_cursor_point _ _ _ _ Hne Hd).
    destruct Hh as [? ->]. rewrite slice_of_slice by lia. unfold position_of.
    rewrite <-computeNewEndPoint_app, Z.add_0_r, slice_app_split by lia. done. }
  rewrite <-(loc_inside src rs r (cPos c) size (iok_ranges _ Hl) Hin) by lia.
  rewrite <-(move_cursor_pos c rn size). unfold after_rune.
  destruct (Z.leb_spec (hi src r) (cPos (move_cursor c rn size))); rewrite move_cursor_pos in *.
  - set (d := mkCursor (cPos c + size) _ _ _).
    destruct (normalize_spec d) as [? ?]; [|by split_and!; try lia].
    apply (honest_same l _ d Hmv); [|done]. by rewrite move_cursor_pos.
  - split_and!; [|done|lia|lia]. split; [done|]. left. exists r.
    rewrite move_cursor_pos. unfold move_cursor. split; [by case_match|lia].
Qed.

(** The rune at a settled cursor, as the walk reads it and as the contiguous
    lexer reads it from the selected text. *)
Lemma advance_spec c :
  settled c → at_ c < len text →
  ∃ r b rn size c', zget rs (cRangeIdx c) = Some r ∧
    index src (cPos c) = Ret b ∧ index text (at_ c) = Ret b ∧
    gslice src (cPos c) (hi src r) = Ret (slice src (cPos c) (hi src r)) ∧
    DecodeRune (slice src (cPos c) (hi src r)) = (rn, size) ∧
    DecodeRune (slice text (at_ c) (len text)) = (rn, size) ∧ (b < 0x80 → (rn, size) = (b, 1)) ∧
    1 ≤ size ∧ advanceIncludedCursor l c = Ret (c', Some (rn, size)) ∧
    settled c' ∧ at_ c' = at_ c + size.
Proof using Hl.
  intros Hc Hlt. pose proof Hc as [Hh [(r & Hr & Hp)|[_ He]]]; [|rewrite He, eof_total in Hlt; lia].
  destruct (range_at _ _ Hr) as (Hb1 & Hb2 & Hin). pose proof (iok_ranges _ Hl) as Hok.
  pose proof (selected_tail src rs _ r (cPos c) Hok Hr ltac:(lia)) as Htail.
  destruct (index_in_range src (cPos c)) as (b & Hi & Hb); [lia|].
  assert (slice src (cPos c) (hi src r) = b :: slice src (cPos c + 1) (hi src r)) as Hcons
    by (apply slice_cons; [done|lia]).
  destruct (DecodeRune (slice src (cPos c) (hi src r))) as [rn size] eqn:Hd.
  destruct (after_rune_spec c r rn size Hh Hr Hp Hd) as (Hset & Hat & Hs & Hle).
  assert (b < 0x80 → (rn, size) = (b, 1)) as Hasc.
  { intros Hasc. rewrite Hcons, DecodeRune_lt_RuneSelf in Hd by done. done. }
  pose proof (loc_nonneg src rs (cPos c)) as Hnn.
  destruct (index_in_range text (at_ c)) as (b' & Hi' & Hb'); [lia|].
  assert (b' = b) as ->.
  { rewrite (slice_cons _ _ _ b'), Hcons in Htail by (done || lia). by injection Htail. }
  assert (DecodeRune (slice text (at_ c) (len text)) = (rn, size)) as Hdt.
  { rewrite Htail, DecodeRune_app; [done|by rewrite Hcons|]. destruct Hok as [_ Hn H0].
    apply selected_head; apply Forall_drop; [done|apply Hl|done]. }
  exists r, b, rn, size, (after_rune c r rn size).
  split_and!; [done|done|done|by rewrite gslice_ok by lia|done..| |done|done].
  unfold advanceIncludedCursor. rewrite normalize_settled by done.
  pose proof (zget_Some_range _ _ _ Hr). destruct (Z.leb_spec (len rs) (cRangeIdx c)); [lia|].
  rewrite (bounds_of _ _ Hr). destruct (Z.leb_spec (hi src r) (cPos c)); [lia|].
  rewrite Hi. cbn. unfold RuneSelf.
  assert ((if b <? 128 then (b, 1) else DecodeRune (slice src (cPos c) (hi src r))) = (rn, size)) as ->
    by (destruct (Z.ltb_spec b 128); [by rewrite Hasc|done]).
  done.
Qed.
End cursors.

(** ** The text of a token *)

Section text.
Context (l : LexerConfig) (Hl : included_ok l) (p q : Z).
Context (Hp : 0 ≤ p).
Abbreviation src := (source l).
Abbreviation rs := (includedRanges l).

Definition segment_of (r : Range) : option (Z * Z) :=
  if Z.min q (hi src r) <=? Z.max p (lo src r) then None
  else Some (Z.max p (lo src r), Z.min q (hi src r)).

Lemma segments_of : segments l p q = omap segment_of rs.
Proof.
  unfold segments.
  assert (∀ rs' k, (∀ i r, rs' !! i = Some r → rs !! (k + i)%nat = Some r) →
    omap (segment l p q) (seq k (length rs')) = omap segment_of rs') as Hgen.
  { induction rs' as [|r rs' IH]; intros k Hk; [done|]. csimpl.
    assert (segment l p q k = segment_of r) as ->.
    { unfold segment. rewrite (bounds_of _ _ r); [done|]. rewrite zget_nat. rewrite <-(Nat.add_0_r k). by apply Hk. }
    assert (omap (segment l p q) (seq (S k) (length rs')) = omap segment_of rs') as Htl.
    { apply IH. intros i r' Hr'. rewrite Nat.add_succ_l, <-Nat.add_succ_r. by apply Hk. }
    by rewrite Htl. }
  by apply Hgen.
Qed.

Lemma segments_text :
  Forall (λ '(s, e), 0 ≤ s ∧ s ≤ e ∧ e ≤ len src) (segments l p q) ∧
  concat (map (λ '(s, e), slice src s e) (segments l p q)) = concat (map (clip src p q) rs).
Proof using Hl Hp.
  rewrite segments_of. pose proof (iok_ranges _ Hl) as Hok. induction rs as [|r rs' IH]; [done|].
  destruct (ranges_ok_cons src _ _ Hok) as (Hoks & Hr & Hlen & _). destruct (IH Hoks) as [IH1 IH2].
  csimpl. destruct (segment_of r) as [se|] eqn:E; unfold segment_of in E;
    destruct (Z.leb_spec (Z.min q (hi src r)) (Z.max p (lo src r))); simplify_eq.
  - split; [constructor; [lia|done]|]. cbn [map concat]. by rewrite IH2.
  - split; [done|]. unfold clip at 1. by rewrite slice_nil, IH2 by lia.
Qed.

(** [tokenText] is the selected text between the two places. *)
Lemma tokenText_spec :
  tokenText l p q = Ret (slice (selected src rs) (loc src rs p) (loc src rs q)).
Proof using Hl Hp.
  unfold tokenText. destruct (Z.leb_spec q p) as [Hle|Hlt].
  { rewrite slice_nil; [done|]. by apply loc_mono. }
  rewrite selected_slice by apply Hl. destruct segments_text as [Hseg <-].
  pose proof (iok_some _ Hl) as Hne. destruct (includedRanges l) as [|r0 rest]; [done|]. clear Hne.
  assert (∀ segs, Forall (λ '(s, e), 0 ≤ s ∧ s ≤ e ∧ e ≤ len src) segs →
    foldr (λ '(s, e) acc, x ← gslice src s e; y ← acc; Ret (x ++ y)) (Ret []) segs
    = Ret (concat (map (λ '(s, e), slice src s e) segs))) as Hfold.
  { induction 1 as [|[s e] segs Hse _ IH]; [done|]. cbn. rewrite gslice_ok by lia. cbn. by rewrite IH. }
  destruct (segments l p q) as [|[s e] [|]] eqn:Hs; [done| |by apply Hfold].
  cbn. apply list.Forall_cons_1 in Hseg as [? _]. rewrite gslice_ok by lia. by rewrite app_nil_r.
Qed.
End text.

(** ** The walk follows the contiguous walk *)

Section walk.
Context (l : LexerConfig) (Hl : included_ok l).
Abbreviation l' := (text_lexer l).
Abbreviation text := (selected (source l) (includedRanges l)).
Abbreviation at_ c := (loc (source l) (includedRanges l) (cPos c)).

(** A settled cursor and a cursor of the selected text at the same place. *)
Definition follows (c c' : Cursor) : Prop := settled l c ∧ at_ c = cPos c'.

Lemma follows_ltb a a' b b' :
  follows a a' → follows b b' → (cPos a <? cPos b) = (cPos a' <? cPos b').
Proof using Hl.
  intros [Ha Haa] [Hb Hbb]. pose proof (settled_lt l Hl a b Ha Hb). lia.
Qed.

Lemma follows_eqb a a' b b' :
  follows a a' → follows b b' → (cPos a =? cPos b) = (cPos a' =? cPos b').
Proof using Hl.
  intros Ha Hb. pose proof (follows_ltb _ _ _ _ Ha Hb). pose proof (follows_ltb _ _ _ _ Hb Ha). lia.
Qed.

(** The recorded accepts: none in both, or the same one, with the end of the
    included walk marked at the cursor it was accepted at. *)
Definition accept_follows (a a' : Accept) : Prop :=
  aPriority a = aPriority a' ∧
  (aPos a < 0 ∧ aPos a' < 0 ∨
   ∃ c, settled l c ∧ at_ c = aPos a' ∧ aProgress a' = aPos a' ∧ aProgress a = cPos c ∧
     aRangeIdx a = cRangeIdx c ∧ 0 ≤ aPos a ∧ 0 ≤ aPos a' ∧
     includedMarkEnd l c = Ret (aPos a, mkPoint (aRow a) (aCol a)) ∧
     follows (aStart a) (aStart a') ∧ aSymbol a = aSymbol a' ∧ aSkip a = aSkip a').

Record walk_follows (w w' : Walk) : Prop := {
  wf_state : wState w = wState w';
  wf_scan : follows (wScan w) (wScan w');
  wf_start : follows (wStart w) (wStart w');
  wf_skipped : wSkipped w = wSkipped w';
  wf_hops : wHops w = wHops w';
  wf_accept : accept_follows (wAccept w) (wAccept w') }.

(** An accept marked at a settled cursor. *)
Lemma mark_accept c c' start start' sym skip prio :
  follows c c' → follows start start' →
  ∃ p pt, includedMarkEnd l c = Ret (p, pt) ∧ 0 ≤ p ∧
    accept_follows (mkAccept p (Row pt) (Column pt) (cRangeIdx c) (cPos c) start sym skip prio)
      (mkAccept (cPos c') (cRow c') (cCol c') 0 (cPos c') start' sym skip prio).
Proof using Hl.
  intros [Hc Hat] Hs. destruct (mark_spec l Hl c Hc) as (p & pt & Hm & [[Hp _] _] & _).
  cbn in Hp. exists p, pt. split_and!; [done|lia|]. split; [done|]. right. exists c.
  pose proof (loc_nonneg (source l) (includedRanges l) (cPos c)). cbn.
  split_and!; try done; [lia|lia|]. rewrite Hm. by destruct pt.
Qed.

Lemma note_accept_follows c0 c0' st w w' :
  follows c0 c0' → walk_follows w w' →
  ∃ a, note_accept_included l (cPos c0) st w = Ret a ∧
       accept_follows a (note_accept l' (cPos c0') st w').
Proof using Hl.
  intros H0 [Hq Hsc Hst Hsk Hh Ha]. unfold note_accept_included, note_accept.
  assert (eligible l (cPos c0) st (wStart w) (wScan w) = eligible l' (cPos c0') st (wStart w') (wScan w')) as ->.
  { unfold eligible. rewrite (follows_ltb _ _ _ _ H0 Hst), (follows_eqb _ _ _ _ Hsc Hst). done. }
  assert (improves (wAccept w) (lsAcceptPriority st) (cPos (wScan w))
          = improves (wAccept w') (lsAcceptPriority st) (cPos (wScan w'))) as ->.
  { unfold improves. destruct Ha as [<- Hor].
    destruct Hor as [[Hn Hn']|(c & Hc & Hat & Hpr' & Hpr & _ & Hp & Hp' & _)].
    - destruct (Z.ltb_spec (aPos (wAccept w)) 0), (Z.ltb_spec (aPos (wAccept w')) 0); done || lia.
    - destruct (Z.ltb_spec (aPos (wAccept w)) 0), (Z.ltb_spec (aPos (wAccept w')) 0); try lia.
      rewrite Hpr, Hpr', <-Hat. destruct Hsc as [Hs1 Hs2].
      pose proof (settled_lt l Hl c (wScan w) Hc Hs1). lia. }
  destruct (_ && _); [|by eexists].
  destruct (mark_accept _ _ _ _ (lsAcceptToken st) (lsSkip st) (lsAcceptPriority st) Hsc Hst)
    as (p & pt & -> & _ & Hacc). cbn. by eexists.
Qed.

Lemma step_follows c0 c0' w w' :
  follows c0 c0' → walk_follows w w' →
  match walk_step l' (cPos c0') w' with
  | Ret (inl v') => ∃ v, walk_step_included l (cPos c0) w = Ret (inl v) ∧ walk_follows v v'
  | Ret (inr v') => ∃ v, walk_step_included l (cPos c0) w = Ret (inr v) ∧ walk_follows v v'
  | _ => True
  end.
Proof using Hl.
  intros H0 Hw. pose proof Hw as [Hq Hsc Hst Hsk Hh Ha]. unfold walk_step, walk_step_included.
  cbn [states source asciiTable text_lexer]. rewrite Hq.
  destruct (_ || _) eqn:Hbad; [by exists w|].
  destruct (index_in_range (states l) (wState w')) as (st & -> & _); [lia|]. cbn [go_bind mbind].
  destruct (note_accept_follows c0 c0' st w w' H0 Hw) as (a & -> & Hacc). cbn [go_bind mbind].
  pose proof Hsc as [Hset Hat]. rewrite (at_end l Hl _ (settled_resting _ _ Hset)), Hat.
  destruct (Z.leb_spec (len text) (cPos (wScan w'))) as [Hend|Hin].
  { rewrite Hh. destruct (_ && _); eexists; (split; [done|]); split; cbn; try done; congruence. }
  rewrite <-Hat in Hin. destruct (advance_spec l Hl _ Hset Hin)
    as (r & b & rn & size & c2 & Hr & Hi & Hi' & Hg & Hd & Hd' & Hasc & Hs & Hadv & Hset2 & Hat2).
  rewrite <-Hat, Hi, Hi', (bounds_of _ _ _ Hr), Hadv. cbn.
  pose proof (loc_nonneg (source l) (includedRanges l) (cPos (wScan w))).
  rewrite (gslice_ok text) by lia. cbn. rewrite Hd', Hg. cbn. rewrite Hd. unfold RuneSelf.
  assert (follows c2 (move_cursor (wScan w') rn size)) as Hmv.
  { split; [done|]. rewrite move_cursor_pos. lia. }
  assert ((if b <? 128 then Ret b else Ret (rn, size).1) = Ret rn) as Hrn.
  { destruct (Z.ltb_spec b 128) as [Hb|]; [|done]. apply Hasc in Hb. by simplify_eq. }
  assert ((if b <? 128 then (b, 1) else (rn, size)) = (rn, size)) as Hrn'.
  { destruct (Z.ltb_spec b 128) as [Hb|]; [|done]. by apply Hasc in Hb. }
  rewrite Hrn, Hrn'. cbn.
  destruct (lookup_transition _ _ _ _ _) as [[ns skip]| |]; [|done..]. cbn.
  destruct (ns <? 0); [eexists; split; [done|]; by split|].
  destruct skip; (eexists; split; [done|]); split; cbn; try done.
  destruct Hacc as [Hprio _]. split; [done|by left].
Qed.

Lemma walk_loop_follows c0 c0' n n' w w' v' :
  follows c0 c0' → walk_follows w w' → (n' ≤ n)%nat →
  walk_loop l' (cPos c0') n' w' = Ret v' →
  ∃ v, walk_loop_included l (cPos c0) n w = Ret v ∧ walk_follows v v'.
Proof using Hl.
  intros H0. revert n w w'. induction n' as [|n' IH]; intros [|n] w w' Hw Hn; [done|done|lia|].
  cbn [walk_loop walk_loop_included]. pose proof (step_follows c0 c0' w w' H0 Hw) as Hstep.
  destruct (walk_step l' (cPos c0') w') as [[u'|u']| |]; [..|done|done]; cbn;
    destruct Hstep as (u & -> & Hu); cbn.
  - apply IH; [done|lia].
  - intros [= <-]. by exists u.
Qed.
(** ** Scans *)

(** A token of the full source and the token of the selected text it stands
    for: the same symbol and text, offsets at the same places, and points true
    to the full source. *)
Record token_follows (t t' : Token) : Prop := {
  tf_symbol : tSymbol t = tSymbol t';
  tf_text : tText t = tText t';
  tf_span : 0 ≤ tStartByte t ≤ len (source l) ∧ 0 ≤ tEndByte t ≤ len (source l);
  tf_start : loc (source l) (includedRanges l) (tStartByte t) = tStartByte t';
  tf_end : loc (source l) (includedRanges l) (tEndByte t) = tEndByte t';
  tf_points : tStartPoint t = position_of l (tStartByte t) ∧ tEndPoint t = position_of l (tEndByte t);
  tf_prefix : tlexerSkippedPrefix t = tlexerSkippedPrefix t' ∧
    (tlexerSkippedPrefix t = true →
     loc (source l) (includedRanges l) (tlexerSkippedPrefixStart t) = tlexerSkippedPrefixStart t');
  tf_internal : tlexerInternalDFALexed t = tlexerInternalDFALexed t' }.

(** The cursors of two lexers between calls. *)
Definition rests (c c' : Cursor) : Prop := resting l c ∧ honest l' c' ∧ at_ c = cPos c'.

Lemma follows_u32 c c' : follows c c' → u32 (cPos c) = cPos c ∧ u32 (cPos c') = cPos c' ∧ 0 ≤ cPos c ≤ len (source l).
Proof using Hl.
  intros [[[Hc _] _] Hat]. pose proof (iok_source _ Hl).
  pose proof (loc_nonneg (source l) (includedRanges l) (cPos c)).
  pose proof (loc_le_total (source l) _ (cPos c) (iok_ranges _ Hl)).
  pose proof (len_selected_le (source l) _ (iok_ranges _ Hl)). rewrite !u32_id by lia. lia.
Qed.

Lemma accept_token_follows a a' text0 skipped c0 c0' sym internal :
  accept_follows a a' → 0 ≤ aPos a' → follows c0 c0' →
  token_follows (accept_token a text0 skipped (cPos c0) sym internal)
    (accept_token a' text0 skipped (cPos c0') sym internal) ∧
  let c := mkCursor (aPos a) (aRow a) (aCol a) (aRangeIdx a) in
  resting l c ∧ at_ c = aPos a' ∧ ∀ d, resting l d → at_ d = aPos a' → aPos a ≤ cPos d.
Proof using Hl.
  intros [_ [?|(c & Hc & Hat & _ & _ & Hidx & Hp & Hp' & Hm & Hst & _)]] Hpos H0; [lia|].
  destruct (mark_spec l Hl c Hc) as (p & pt & Hm' & Hrest & Hloc & Hleast).
  rewrite Hm in Hm'. injection Hm' as <- <-. cbn in Hrest. rewrite <-Hidx in Hrest.
  destruct (follows_u32 _ _ Hst) as (Hu1 & Hu2 & Hu3). destruct (follows_u32 _ _ H0) as (Hu4 & Hu5 & Hu6).
  destruct (follows_u32 c (mkCursor (aPos a') 0 0 0)) as (_ & Hu7 & _); [done|]. cbn in Hu7.
  pose proof Hrest as [[Hb Hpt] _]. cbn in Hb. pose proof (iok_source _ Hl).
  split; [|cbn; split_and!; [done|congruence|intros d ? ?; apply Hleast; [done|congruence]]].
  split; cbn; rewrite ?Hu1, ?Hu2, ?Hu4, ?Hu5, ?Hu7, ?(u32_id (aPos a)) by lia; try done.
  - apply Hst.
  - congruence.
  - split; [|done]. destruct Hst as [[[_ ?] _] _]. done.
  - split; [done|]. intros _. apply H0.
Qed.

(** The lexer behind an accepted token: it advanced exactly when the contiguous
    one did. *)
Lemma accepted_follows a a' txt skipped c0 c0' sym internal c c' i' :
  accept_follows a a' → 0 ≤ aPos a' → follows c0 c0' → rests c c' → cPos c' ≤ aPos a' →
  honest l' (mkCursor (aPos a') (aRow a') (aCol a') i') →
  token_follows (accept_token a txt skipped (cPos c0) sym internal)
    (accept_token a' txt skipped (cPos c0') sym internal) ∧
  rests (mkCursor (aPos a) (aRow a) (aCol a) (aRangeIdx a)) (mkCursor (aPos a') (aRow a') (aCol a') i') ∧
  (aPos a <=? cPos c) = (aPos a' <=? cPos c').
Proof using Hl.
  intros Ha Hpos H0 (Hc & _ & Hat) Hge Hh.
  destruct (accept_token_follows a a' txt skipped c0 c0' sym internal Ha Hpos H0)
    as (Ht & Hrest & Hloc & Hleast). split_and!; [done|by split_and!|]. cbn in Hloc.
  destruct (Z.leb_spec (aPos a') (cPos c')) as [Hle|Hlt].
  - apply Z.leb_le, Hleast; [done|lia].
  - pose proof (loc_mono (source l) (includedRanges l) (aPos a) (cPos c)). lia.
Qed.

(** The accept after the end-of-input rule. *)
Lemma accept_at_eof_follows v v' :
  walk_follows v v' →
  ∃ a, accept_at_eof_included l v = Ret a ∧ accept_follows a (accept_at_eof v').
Proof using Hl.
  intros [_ Hsc Hst _ Hh Hacc]. unfold accept_at_eof_included, accept_at_eof.
  assert ((aPos (wAccept v) <? 0) && (0 <? wHops v) = (aPos (wAccept v') <? 0) && (0 <? wHops v')) as ->.
  { rewrite Hh. destruct Hacc as [_ [[? ?]|(? & _ & _ & _ & _ & _ & ? & ? & _)]]; lia. }
  destruct (_ && _); [|by eexists]. destruct Hacc as [-> _].
  destruct (mark_accept _ _ _ _ 0 true (aPriority (wAccept v')) Hsc Hst) as (p & pt & -> & _ & Hm).
  by eexists.
Qed.

Lemma scan_follows s s' q c c' :
  rests c c' → cRangeIdx (lCur s) = cRangeIdx c → 0 ≤ q < 2 ^ 31 →
  ∃ res t res' t', scan l s q (cPos c) (cRow c) (cCol c) = Ret (res, t) ∧
    scan l' s' q (cPos c') (cRow c') (cCol c') = Ret (res', t') ∧
    match res, res' with
    | Some tok, Some tok' => token_follows tok tok' ∧ rests (lCur t) (lCur t') ∧
        (cPos (lCur t) <=? cPos c) = (cPos (lCur t') <=? cPos c')
    | None, None => lCur t = lCur s ∧ lCur t' = lCur s' ∧
        (q < len (states l) → follows (lFail t) (lFail t'))
    | _, _ => False
    end.
Proof using Hl.
  intros (Hc & Hc' & Hat) Hidx Hq.
  destruct (scan_honest l' (text_lexer_ok l Hl) s' q c' Hc' Hq) as (res' & t' & Heq & Hres).
  pose proof (iok_some _ Hl) as Hne. unfold scan in *.
  destruct (includedRanges l) as [|r0 rest] eqn:Hrs; [done|]. rewrite <-Hrs in *. clear Hne.
  cbn [includedRanges text_lexer] in Heq |- *. rewrite Heq. unfold scanIncluded. unfold scanContiguous in Heq.
  cbn [states text_lexer] in Heq. rewrite i32_id in * by lia. destruct (_ || _) eqn:Hbad.
  { injection Heq as <- <-. do 4 eexists. split_and!; [done..|]. cbn. split_and!; [done..|lia]. }
  set (c0' := mkCursor (cPos c') (cRow c') (cCol c') 0) in *.
  set (c0 := normalizeIncludedCursor l _).
  assert (follows c0 c0') as H0.
  { destruct (normalize_spec l Hl (mkCursor (cPos c) (cRow c) (cCol c) (cRangeIdx (lCur s)))) as [Hs Ha].
    - by apply (honest_same l c); [apply Hc|..].
    - split; [done|]. unfold c0. rewrite Ha. done. }
  clearbody c0. destruct (walk_loop l' _ _ _) as [v'| |] eqn:Hw; [|done..]. cbn [go_bind mbind] in Heq.
  assert (scan_fuel l' ≤ scan_fuel l)%nat as Hfuel.
  { pose proof (len_selected_le (source l) _ (iok_ranges _ Hl)). unfold scan_fuel, len in *. cbn. lia. }
  assert (walk_follows (mkWalk q c0 c0 false no_accept 0) (mkWalk q c0' c0' false no_accept 0)) as Hw0
    by (split; try done; by split; [|left]).
  destruct (walk_loop_follows c0 c0' _ _ _ _ v' H0 Hw0 Hfuel Hw) as (v & -> & Hv). cbn [go_bind mbind].
  destruct (accept_at_eof_follows v v' Hv) as (a & -> & Ha). cbn [go_bind mbind].
  pose proof Hv as [_ Hsc Hst Hsk Hh _]. set (a' := accept_at_eof v') in *. clearbody a'.
  assert ((aPos a <? 0) = (aPos a' <? 0)) as Hneg.
  { destruct Ha as [_ [[? ?]|(? & _ & _ & _ & _ & _ & ? & ? & _)]]; lia. }
  rewrite Hneg. destruct (Z.ltb_spec (aPos a') 0) as [Hn|Hn].
  { injection Heq as <- <-. do 4 eexists. split_and!; [done..|]. cbn. split_and!; [done..|].
    intros _. split; [apply Hst|]. cbn. apply Hst. }
  assert (aSkip a = aSkip a' ∧ aSymbol a = aSymbol a' ∧ follows (aStart a) (aStart a')) as (Hskip & Hsym & Hast).
  { destruct Ha as [_ [[? ?]|(? & _ & _ & _ & _ & _ & _ & _ & _ & ? & ? & ?)]]; [lia|done]. }
  destruct (follows_u32 _ _ Hast) as (_ & _ & Hst0).
  rewrite Hskip, Hsk, Hsym, tokenText_spec by (done || lia).
  destruct (accept_token_follows a a' [] false c0 c0' 0 false Ha Hn H0) as (_ & _ & Hloc & _).
  cbn in Hloc. rewrite Hloc, (proj2 Hast). cbn [go_bind mbind].
  assert (∀ txt sym int, res' = Some (accept_token a' txt (wSkipped v') (cPos c') sym int) →
    t' = mkLexerState (mkCursor (aPos a') (aRow a') (aCol a') (cRangeIdx (lCur s'))) (lFail s') →
    token_follows (accept_token a txt (wSkipped v') (cPos c0) sym int) (accept_token a' txt (wSkipped v') (cPos c') sym int) ∧
    rests (mkCursor (aPos a) (aRow a) (aCol a) (aRangeIdx a)) (lCur t') ∧
    (aPos a <=? cPos c) = (cPos (lCur t') <=? cPos c')) as Hfin.
  { intros txt sym int -> ->. destruct Hres as (Hh' & Hok & Hend & Hfrom & _).
    pose proof (tok_span _ _ Hok). cbn [lCur cPos] in *.
    apply (accepted_follows a a' txt (wSkipped v') c0 c0' sym int); [done..|lia|done]. }
  destruct (aSkip a').
  - injection Heq as <- <-. do 4 eexists. split_and!; [done..|]. by apply Hfin.
  - destruct (gslice _ _ _) as [txt| |] eqn:Hg; [|done..]. cbn [go_bind mbind] in Heq.
    apply gslice_Ret in Hg as [_ ->]. injection Heq as <- <-.
    do 4 eexists. split_and!; [done..|]. by apply Hfin.
Qed.
(** ** Tokens *)

Lemma follows_rests c c' : follows c c' → honest l' c' → rests c c'.
Proof. intros [Hc Hat] Hh. split_and!; [by apply settled_resting|done|done]. Qed.

Lemma atLogicalEOF_follows s s' :
  rests (lCur s) (lCur s') → atLogicalEOF l s = atLogicalEOF l' s'.
Proof using Hl.
  intros (Hc & _ & Hat). pose proof (at_end l Hl _ Hc) as He. pose proof (iok_some _ Hl) as Hne.
  unfold atLogicalEOF. cbn [text_lexer includedRanges source]. rewrite <-Hat, <-He.
  by destruct (includedRanges l).
Qed.

Lemma skipOneRune_follows s s' :
  rests (lCur s) (lCur s') → atLogicalEOF l s = false →
  ∃ t t', skipOneRune l s = Ret t ∧ skipOneRune l' s' = Ret t' ∧ rests (lCur t) (lCur t').
Proof using Hl.
  intros Hr Heof. rewrite (atLogicalEOF_follows _ _ Hr) in Heof. destruct Hr as (Hc & Hc' & Hat).
  assert (cPos (lCur s') < len text) as Hin by (unfold atLogicalEOF in Heof; cbn in Heof; lia).
  destruct (skipOneRune_honest l' (text_lexer_ok l Hl) s' Hc' Hin)
    as (t' & Heq' & Ht' & _ & _ & rn & size & Hd & Hmv).
  destruct (normalize_spec l Hl (lCur s) (proj1 Hc)) as [Hset Hat2].
  destruct (advance_spec l Hl _ Hset) as
    (r & b & rn2 & size2 & c2 & _ & _ & _ & _ & _ & Hd2 & _ & _ & Hadv & Hset2 & Hat3); [lia|].
  assert (advanceIncludedCursor l (lCur s) = Ret (c2, Some (rn2, size2))) as Hadv'.
  { rewrite <-Hadv. unfold advanceIncludedCursor. by rewrite (normalize_settled l Hl _ Hset). }
  rewrite Hat2, Hat in Hd2. cbn [text_lexer source] in Hd. rewrite Hd in Hd2. injection Hd2 as <- <-.
  exists (mkLexerState c2 (lFail s)), t'. split_and!; [|done|].
  - unfold skipOneRune, skipOneIncludedRune. rewrite Hadv'. pose proof (iok_some _ Hl).
    by destruct (includedRanges l).
  - apply follows_rests; [|done]. split; [done|]. cbn [lCur]. rewrite Hmv, move_cursor_pos. lia.
Qed.

Lemma canLexAt_follows s s' q :
  rests (lCur s) (lCur s') → 0 ≤ q < 2 ^ 31 →
  ∃ ok t t', canLexAt l s q (lCur s) = Ret (ok, t) ∧ canLexAt l' s' q (lCur s') = Ret (ok, t') ∧
    lCur t = lCur s ∧ lCur t' = lCur s' ∧
    (ok = false → q < len (states l) → follows (lFail t) (lFail t')).
Proof using Hl.
  intros Hr Hq. unfold canLexAt.
  destruct (scan_follows s s' q _ _ Hr eq_refl Hq) as (res & t & res' & t' & -> & -> & Hres). cbn.
  destruct res, res'; try done; do 3 eexists; (split_and!; [done..|]); [done|]. intros _. apply Hres.
Qed.

Lemma error_run_loop_follows n n' s s' t' :
  hasErrorRunLexState l = true → rests (lCur s) (lCur s') → (n' ≤ n)%nat →
  error_run_loop l' n' s' = Ret t' →
  ∃ t, error_run_loop l n s = Ret t ∧ rests (lCur t) (lCur t').
Proof using Hl.
  intros Herr. pose proof (iok_error _ Hl Herr). pose proof (iok_states _ Hl).
  revert n s s'. induction n' as [|n' IH]; intros [|n] s s' Hr Hn; [done|done|lia|].
  cbn [error_run_loop]. rewrite <-(atLogicalEOF_follows s s' Hr). cbn [errorRunLexState text_lexer].
  destruct (atLogicalEOF l s) eqn:Heof; [intros [= <-]; by exists s|].
  destruct (canLexAt_follows s s' (errorRunLexState l) Hr) as (ok & t & u & -> & -> & Hc & Hc' & _); [lia|].
  cbn [go_bind mbind]. rewrite <-Hc, <-Hc' in Hr. destruct ok; [intros [= <-]; by exists t|].
  destruct (skipOneRune_follows t u Hr) as (t2 & u2 & -> & -> & Hr2).
  { unfold atLogicalEOF in *. by rewrite Hc. }
  cbn [go_bind mbind]. apply IH; [done|lia].
Qed.

Lemma rests_u32 c c' : rests c c' → u32 (cPos c) = cPos c ∧ u32 (cPos c') = cPos c' ∧ 0 ≤ cPos c ≤ len (source l).
Proof using Hl.
  intros ([[Hc _] _] & [Hc' _] & _). pose proof (iok_source _ Hl).
  pose proof (len_selected_le (source l) _ (iok_ranges _ Hl)). cbn in Hc'. rewrite !u32_id by lia. done.
Qed.

(** A token between two resting cursors. *)
Lemma span_token_follows sym txt c c' d d' :
  rests c c' → rests d d' →
  token_follows
    (span_token sym txt (u32 (cPos c)) (u32 (cPos d)) (cursor_point c) (cursor_point d))
    (span_token sym txt (u32 (cPos c')) (u32 (cPos d')) (cursor_point c') (cursor_point d')).
Proof using Hl.
  intros Hc Hd. destruct (rests_u32 _ _ Hc) as (Hu1 & Hu2 & Hu3).
  destruct (rests_u32 _ _ Hd) as (Hu4 & Hu5 & Hu6). rewrite Hu1, Hu2, Hu4, Hu5.
  destruct Hc as ([[_ ?] _] & _ & ?), Hd as ([[_ ?] _] & _ & ?). by split; cbn.
Qed.

Lemma next_fuel_le : (next_fuel l' ≤ next_fuel l)%nat.
Proof using Hl.
  pose proof (len_selected_le (source l) _ (iok_ranges _ Hl)). unfold next_fuel, len in *. cbn. lia.
Qed.

(** Where an error run starts: at the failed attempt when that lies ahead. *)
Definition error_start (l : LexerConfig) (s : LexerState) : LexerState :=
  normalizeIncludedPosition l
    (if (cPos (lCur s) <? cPos (lFail s)) && (cPos (lFail s) <=? len (source l))
     then mkLexerState (lFail s) (lFail s) else s).

Lemma error_start_follows s s' :
  rests (lCur s) (lCur s') → follows (lFail s) (lFail s') → honest l' (lFail s') →
  rests (lCur (error_start l s)) (lCur (error_start l' s')).
Proof using Hl.
  intros (Hr1 & Hr2 & Hr3) [[Hf _] Hf2] Hfh. unfold error_start, normalizeIncludedPosition. cbn [lCur].
  set (s1' := if _ && _ then mkLexerState (lFail s') _ else s').
  set (s1 := if _ && _ then mkLexerState (lFail s) _ else s).
  assert (honest l (lCur s1) ∧ honest l' (lCur s1') ∧ at_ (lCur s1) = cPos (lCur s1')) as (Hh & Hh' & Hat).
  { pose proof (loc_mono (source l) (includedRanges l) (cPos (lFail s)) (cPos (lCur s))).
    pose proof (loc_mono (source l) (includedRanges l) (cPos (lCur s)) (cPos (lFail s))).
    pose proof (proj1 Hf). pose proof (proj1 Hfh). pose proof (proj1 Hr1).
    unfold s1, s1'. destruct (_ && (cPos (lFail s) <=? _)) eqn:E1, (_ && (cPos (lFail s') <=? _)) eqn:E2;
      cbn [lCur]; (split_and!; [done|done|lia]). }
  clearbody s1 s1'. destruct (normalize_spec l Hl _ Hh) as [Hset Hat2].
  apply follows_rests; [|done]. split; [done|]. cbn. lia.
Qed.

Lemma errorRunToken_follows s s' tok' t' :
  hasErrorRunLexState l = true → rests (lCur s) (lCur s') → follows (lFail s) (lFail s') →
  honest l' (lFail s') → errorRunToken l' s' = Ret (tok', t') →
  ∃ tok t, errorRunToken l s = Ret (tok, t) ∧ token_follows tok tok' ∧ rests (lCur t) (lCur t').
Proof using Hl.
  intros Herr Hr Hf Hfh. unfold errorRunToken.
  pose proof (error_start_follows s s' Hr Hf Hfh) as Hr1.
  change (normalizeIncludedPosition l' _) with (error_start l' s').
  change (normalizeIncludedPosition l _) with (error_start l s).
  set (u := error_start l s) in *. set (u' := error_start l' s') in *. clearbody u u'.
  rewrite <-(atLogicalEOF_follows u u' Hr1). destruct (atLogicalEOF l u) eqn:Heof.
  { intros [= <- <-]. do 2 eexists. split_and!; [done| |done]. by apply span_token_follows. }
  destruct (skipOneRune_follows u u' Hr1 Heof) as (v & v' & -> & -> & Hr2). cbn [go_bind mbind].
  destruct (error_run_loop l' _ v') as [w'| |] eqn:Hloop; [|done..]. cbn [go_bind mbind].
  destruct (error_run_loop_follows _ _ v v' w' Herr Hr2 next_fuel_le Hloop) as (w & -> & Hr3).
  cbn [go_bind mbind]. destruct (rests_u32 _ _ Hr1) as (_ & _ & ?).
  assert (tokenText l' (cPos (lCur u')) (cPos (lCur w'))
          = Ret (slice text (cPos (lCur u')) (cPos (lCur w')))) as ->.
  { unfold tokenText. cbn. destruct (Z.leb_spec (cPos (lCur w')) (cPos (lCur u'))).
    - by rewrite slice_nil by lia.
    - destruct Hr3 as (_ & [? _] & _), Hr1 as (_ & [? _] & _). by rewrite gslice_ok by (cbn in *; lia). }
  rewrite (tokenText_spec l Hl) by lia. cbn [go_bind mbind].
  rewrite (proj2 (proj2 Hr1)), (proj2 (proj2 Hr3)). intros [= <- <-].
  do 2 eexists. split_and!; [done| |done]. by apply span_token_follows.
Qed.
(** A result of the contiguous lexer and the one it has over the ranges. *)
Definition result_follows (res : go (Token * LexerState)) (tok' : Token) (t' : LexerState) : Prop :=
  ∃ tok t, res = Ret (tok, t) ∧ token_follows tok tok' ∧ rests (lCur t) (lCur t').

Lemma set_skippedPrefix_follows t t' c c' :
  token_follows t t' → rests c c' →
  token_follows (set_skippedPrefix t (u32 (cPos c))) (set_skippedPrefix t' (u32 (cPos c'))).
Proof using Hl.
  intros [? ? ? ? ? ? ? ?] Hc. destruct (rests_u32 _ _ Hc) as (-> & -> & _). split; try done.
  cbn. split; [done|]. intros _. apply Hc.
Qed.

Lemma next_loop_follows n n' s s' q emit cs cs' pre retry retry' tok' t' :
  0 ≤ q < 2 ^ 31 → rests (lCur s) (lCur s') → rests cs cs' → (n' ≤ n)%nat →
  (hasErrorRunLexState l = true → ∀ f f' tok' t', retry' (mkLexerState cs' f') = Ret (tok', t') →
     result_follows (retry (mkLexerState cs f)) tok' t') →
  next_loop l' n' s' q emit cs' pre retry' = Ret (tok', t') →
  result_follows (next_loop l n s q emit cs pre retry) tok' t'.
Proof using Hl.
  intros Hq Hr Hcs Hn Hretry. revert n s s' pre Hr Hn.
  induction n' as [|n' IH]; intros [|n] s s' pre Hr Hn; [done|done|lia|].
  cbn [next_loop]. rewrite <-(atLogicalEOF_follows s s' Hr). destruct (atLogicalEOF l s) eqn:Heof.
  { intros [= <- <-]. do 2 eexists. split_and!; [done| |done]. by apply span_token_follows. }
  assert (∀ u u' pre, rests (lCur u) (lCur u') → atLogicalEOF l u = false →
    (s2 ← skipOneRune l' u'; next_loop l' n' s2 q emit cs' pre retry') = Ret (tok', t') →
    result_follows (s2 ← skipOneRune l u; next_loop l n s2 q emit cs pre retry) tok' t') as Hskip.
  { intros u u' pre' Hu Heofu. destruct (skipOneRune_follows u u' Hu Heofu) as (v & v' & -> & -> & Hv).
    cbn [go_bind mbind]. apply IH; [done|lia]. }
  destruct (scan_follows s s' q _ _ Hr eq_refl Hq) as (res & t & res' & u' & -> & -> & Hres).
  cbn [go_bind mbind]. destruct res as [tok|], res' as [tk'|]; [|done|done|].
  - destruct Hres as (Ht & Hr2 & Hle). rewrite <-(tf_symbol _ _ Ht), <-Hle.
    destruct (tSymbol tok =? 0).
    + destruct (cPos (lCur t) <=? cPos (lCur s)) eqn:Hback; [|apply IH; [done|lia]].
      apply Hskip; [done|]. rewrite (atLogicalEOF_follows _ _ Hr) in Heof.
      rewrite (atLogicalEOF_follows _ _ Hr2). unfold atLogicalEOF in *. cbn in *. lia.
    + intros [= <- <-]. do 2 eexists. split_and!; [done| |done].
      destruct pre; [by apply set_skippedPrefix_follows|done].
  - destruct Hres as (Hc & Hc' & _).
    cbn [hasErrorRunLexState errorModeRetry errorRunLexState text_lexer].
    destruct (_ && negb _) eqn:Hcond; [apply Hretry; lia|].
    assert (∀ v, lCur v = lCur s → atLogicalEOF l v = false) as Hsame.
    { intros v Hv. unfold atLogicalEOF in *. by rewrite Hv. }
    destruct (emit && hasErrorRunLexState l) eqn:Herr.
    2:{ cbn [go_bind mbind]. apply Hskip; [by rewrite Hc, Hc'|by apply Hsame]. }
    apply andb_prop in Herr as [_ Herr]. pose proof (iok_error _ Hl Herr). pose proof (iok_states _ Hl).
    rewrite <-Hc, <-Hc' in Hr |- *. pose proof Hr as (_ & Hh' & _).
    destruct (canLexAt_follows t u' (errorRunLexState l) Hr) as (ok & v & v' & -> & Hcan & Hv & Hv' & Hf); [lia|].
    destruct (canLexAt_honest l' (text_lexer_ok l Hl) u' (errorRunLexState l) (lCur u') Hh')
      as (ok2 & v2 & Hcan2 & _ & _ & Hf2); [lia|].
    rewrite Hcan in Hcan2. injection Hcan2 as <- <-. rewrite Hcan. cbn [go_bind mbind].
    rewrite <-Hv, <-Hv' in Hr. destruct ok; cbn [negb].
    + apply Hskip; [done|]. apply Hsame. congruence.
    + intros Hrun. destruct Hf2 as [Hf2 _]; [done|cbn; lia|].
      apply (errorRunToken_follows v v' tok' t' Herr Hr); [apply Hf; [done|lia]|done|done].
Qed.
(** ** The start of a call *)

(** The state [next] starts its loop in. *)
Definition enter (l : LexerConfig) (s : LexerState) : LexerState :=
  skipLeadingBOM l (normalizeIncludedPosition l s).

(** A range from the first byte on keeps the beginning of the source. *)
Lemma bom_selected r0 rest :
  includedRanges l = r0 :: rest → StartByte r0 = 0 → 3 < hi (source l) r0 →
  take 3 text = take 3 (source l).
Proof using Hl.
  intros Hrs H0 H3. rewrite Hrs. unfold selected. cbn [map concat]. unfold clip at 1.
  assert (lo (source l) r0 = 0) as -> by (unfold lo; pose proof (len_nonneg (source l)); lia).
  assert (hi (source l) r0 ≤ len (source l)) by (unfold hi; lia).
  rewrite Z.min_r by lia. unfold slice. rewrite drop_0.
  rewrite take_app_le; [|rewrite length_take; unfold len in *; lia].
  rewrite take_take. f_equal. lia.
Qed.

Lemma first_settled r0 rest :
  includedRanges l = r0 :: rest → StartByte r0 = 0 → 3 < hi (source l) r0 →
  follows (mkCursor 0 0 0 0) (mkCursor 0 0 0 0) ∧
  follows (mkCursor 3 (Row (position_of l 3)) (Column (position_of l 3)) 0) (mkCursor 3 0 0 0).
Proof using Hl.
  intros Hrs H0 H3. assert (zget (includedRanges l) 0 = Some r0) as Hr by by rewrite Hrs.
  destruct (range_at l Hl _ _ Hr) as (_ & Hlen & Hin).
  assert (lo (source l) r0 = 0) as Hlo by (unfold lo; pose proof (len_nonneg (source l)); lia).
  pose proof (loc_zero (source l) _ (iok_ranges _ Hl)) as Hloc.
  split; (split; [split; [split; cbn; [lia|]|left; exists r0; cbn; split; [done|lia]]|cbn]).
  - unfold position_of. by rewrite slice_nil.
  - done.
  - by destruct (position_of l 3).
  - change 3 with (0 + 3). rewrite (loc_inside (source l) _ r0 0 3) by (apply Hl || done || lia). lia.
Qed.

Lemma settled_past c r0 rest :
  includedRanges l = r0 :: rest → 0 < lo (source l) r0 → settled l c → 0 < cPos c.
Proof using Hl.
  intros Hrs Hlo Hc. assert (zget (includedRanges l) 0 = Some r0) as Hr by by rewrite Hrs.
  destruct (range_at l Hl _ _ Hr) as (? & ? & Hin).
  destruct (decide (lo (source l) r0 < hi (source l) r0)) as [Hlt|Hge].
  { pose proof (resting_first l Hl c r0 Hr Hlt (settled_resting _ _ Hc)). lia. }
  assert (∀ r, r ∈ includedRanges l → hi (source l) r ≤ lo (source l) r) as Hempty.
  { intros r (j & Hj & Hr')%elem_zget. destruct (decide (j = 0)) as [->|]; [simplify_eq; lia|].
    pose proof (clip_order (source l) _ 0 j _ _ (iok_ranges _ Hl) ltac:(lia) Hr Hr').
    pose proof (iok_ranges _ Hl) as [_ Hn _]. pose proof (Forall_zget _ _ _ _ Hn Hr).
    unfold nonempty, lo, hi in *. lia. }
  destruct Hc as [_ [(r & Hr'%zget_elem & ?)|[_ ->]]]; [specialize (Hempty r Hr'); lia|].
  destruct (proj2 (proj2 (eof_spec l Hl))) as [(r & Hr' & ? & _)|[-> _]]; [specialize (Hempty r Hr')|]; lia.
Qed.

Lemma enter_follows s s' : rests (lCur s) (lCur s') → rests (lCur (enter l s)) (lCur (enter l' s')).
Proof using Hl.
  intros (Hc & Hc' & Hat). destruct (normalize_spec l Hl (lCur s) (proj1 Hc)) as [Hset Hat2].
  pose proof (enter_honest l' (text_lexer_ok l Hl) s' Hc') as [He' _]. unfold enter in *.
  revert He'. unfold normalizeIncludedPosition. set (c1 := normalizeIncludedCursor l (lCur s)) in *.
  change (normalizeIncludedCursor l' (lCur s')) with (lCur s'). intros He'.
  assert (follows c1 (lCur s')) as H1 by (split; [done|lia]). clearbody c1.
  unfold skipLeadingBOM in *. cbn [lCur source text_lexer] in *.
  pose proof (iok_bom _ Hl) as Hbom. unfold bom_ok in Hbom. pose proof (iok_some _ Hl) as Hne.
  destruct (includedRanges l) as [|r0 rest] eqn:Hrs; [done|]. rewrite <-Hrs in *. clear Hne.
  destruct Hbom as [[H0 H3]|[Hnot Hor]].
  - rewrite (bom_selected r0 rest Hrs H0 H3) in *. destruct (first_settled r0 rest Hrs H0 H3) as [Hz H3'].
    pose proof (follows_eqb c1 _ _ _ H1 Hz) as Heq. cbn in Heq. rewrite Heq.
    destruct (Z.eqb_spec (cPos (lCur s')) 0) as [Hz'|Hz']; cbn [negb orb] in *; [|by apply follows_rests].
    destruct (bool_decide_reflect (take 3 (source l) = utf8BOM)) as [Hb|]; cbn [negb lCur] in *;
      [|by apply follows_rests].
    apply follows_rests; [|done]. destruct H3' as [H3' H3l]. split; [|done]. cbn [cPos] in H3l.
    assert (c1 = mkCursor 0 0 0 0) as ->.
    { apply (settled_inj l Hl); [done|apply Hz|]. destruct H1, Hz as [_ Hz]. cbn in *. lia. }
    cbn. replace (mkCursor 3 0 3 0) with (mkCursor 3 (Row (position_of l 3)) (Column (position_of l 3)) 0); [done|].
    unfold position_of, slice. rewrite drop_0. change (Z.to_nat (3 - 0)) with 3%nat. by rewrite Hb.
  - rewrite (bool_decide_eq_false_2 _ Hnot), orb_true_r in *.
    assert (negb (cPos c1 =? 0) || negb (bool_decide (take 3 (source l) = utf8BOM)) = true) as ->.
    { destruct Hor as [Hlo|Hb].
      - pose proof (settled_past c1 r0 rest Hrs Hlo Hset). lia.
      - by rewrite (bool_decide_eq_false_2 _ Hb), orb_true_r. }
    by apply follows_rests.
Qed.

(** ** Calls *)

Lemma next_follows s s' q emit :
  rests (lCur s) (lCur s') → 0 ≤ q < 2 ^ 31 →
  ∃ tok' t', next l' s' q emit = Ret (tok', t') ∧ result_follows (next l s q emit) tok' t'.
Proof using Hl.
  intros Hr Hq. destruct (next_lexed l' (text_lexer_ok l Hl) s' q emit) as (tok' & t' & Heq & _);
    [apply Hr|done|].
  exists tok', t'. split; [done|]. unfold next in *. pose proof (enter_follows _ _ Hr) as He.
  refine (next_loop_follows _ _ (enter l s) (enter l' s') q emit _ _ false _ _ tok' t' Hq He He next_fuel_le _ Heq).
  intros Herr f f' tk' u' Hretry. pose proof (iok_error _ Hl Herr). pose proof (iok_states _ Hl).
  assert (rests (lCur (mkLexerState (lCur (enter l s)) f)) (lCur (mkLexerState (lCur (enter l' s')) f'))) as He2
    by done.
  apply enter_follows in He2.
  refine (next_loop_follows _ _ _ _ (errorRunLexState l) true _ _ false _ _ tk' u' _ He2 He2 next_fuel_le _ Hretry);
    [lia|done].
Qed.

Lemma lex_run_follows s s' calls :
  rests (lCur s) (lCur s') → Forall (λ c, 0 ≤ c.1 < 2 ^ 31) calls →
  ∃ ts t ts' t', lex_run l s calls = Ret (ts, t) ∧ lex_run l' s' calls = Ret (ts', t') ∧
    Forall2 token_follows ts ts'.
Proof using Hl.
  intros Hr Hq. revert s s' Hr. induction Hq as [|[q emit] calls Hq _ IH]; intros s s' Hr.
  { do 4 eexists. split_and!; [done..|constructor]. }
  cbn [lex_run]. destruct (next_follows s s' q emit Hr Hq) as (tok' & t' & -> & tok & t & -> & Ht & Hr2). cbn [go_bind mbind].
  destruct (IH t t' Hr2) as (ts & u & ts' & u' & -> & -> & Hts). cbn [go_bind mbind].
  do 4 eexists. split_and!; [done..|by constructor].
Qed.
End walk.

(** ** From the caller's ranges *)

Section caller.
Context `{SliceSort}.

(** A lexer configuration and the ranges a caller selects: the ranges carry the
    points of their offsets and begin at runes. *)
Record selection_ok (l : LexerConfig) (ranges : list Range) : Prop := {
  sel_config : config_ok l;
  sel_some : normalizeIncludedRanges ranges ≠ [];
  sel_ranges : Forall (λ r, 0 ≤ StartByte r ∧ range_honest l r ∧ at_rune_start l r) ranges;
  sel_bom : bom_ok (setIncludedRanges l (NewLexer [] []).2 (normalizeIncludedRanges ranges)).1;
  sel_source : len (source l) < 2 ^ 32;
  sel_states : len (states l) ≤ 2 ^ 31;
  sel_error : hasErrorRunLexState l = true → 0 ≤ errorRunLexState l < len (states l) }.

Lemma selection_included l s ranges :
  selection_ok l ranges → included_ok (setIncludedRanges l s (normalizeIncludedRanges ranges)).1.
Proof.
  intros [[Hb Hst Ht] Hsome Hr Hbom Hsrc Hstates Herr].
  pose proof (normalize_gapped ranges) as [Hg Hne]. pose proof (normalize_from ranges) as Hfrom.
  rewrite list.Forall_forall in Hr.
  assert (Forall (λ r, 0 ≤ StartByte r ∧ range_honest l r ∧ at_rune_start l r)
            (normalizeIncludedRanges ranges)) as Hall.
  { eapply list.Forall_impl; [exact Hfrom|]. intros r ((a & Ha & Hab & Hap) & (b & Hbr & Hbb & Hbp)).
    destruct (Hr a Ha) as (? & [? _] & ?), (Hr b Hbr) as (_ & [_ ?] & _).
    unfold range_honest, at_rune_start in *. rewrite <-Hab, <-Hap, <-Hbb, <-Hbp. done. }
  split; cbn; try done.
  - split; [done|done|]. eapply list.Forall_impl; [exact Hall|]. by intros r [? _].
  - eapply list.Forall_impl; [exact Hall|]. by intros r (_ & ? & _).
  - eapply list.Forall_impl; [exact Hall|]. by intros r (_ & _ & ?).
Qed.

(** C20.  Lexing over included ranges is lexing the selected text, under the
    conditions of [selection_ok]: the tables and the source are well-formed and
    within their widths, the selection is not empty after normalisation, every range
    carries the points of its offsets and begins at the start of a rune, and a
    leading byte-order mark is either selected with text behind it in the same range
    or neither read nor built by the selection.  (Without the last condition [next]
    may not return, see [next_bom_range_livelock].)  Then for every sequence of
    calls the lexer returns one token per call, without a run-time panic and within
    its fuel, and they are the tokens that the contiguous lexer returns
    on the concatenation of the selected bytes: the same symbols, texts and
    skip flags, with start and end offsets at the corresponding places of the
    full source and the rows and columns those offsets have there. *)
Theorem included_lexing_refines l f ranges calls :
  selection_ok l ranges → Forall (λ c, 0 ≤ c.1 < 2 ^ 31) calls →
  let start := mkLexerState (mkCursor 0 0 0 0) f in
  let '(li, s) := setIncludedRanges l start (normalizeIncludedRanges ranges) in
  ∃ ts t ts' t', lex_run li s calls = Ret (ts, t) ∧
    lex_run (text_lexer li) start calls = Ret (ts', t') ∧ Forall2 (token_follows li) ts ts'.
Proof.
  intros Hsel Hq start. pose proof (selection_included l start ranges Hsel) as Hl.
  destruct (setIncludedRanges l start _) as [li s] eqn:Hset. cbn [fst] in Hl.
  apply lex_run_follows; [done| |done].
  assert (s = normalizeIncludedPosition li start) as -> by (injection Hset as <- <-; done).
  destruct (normalize_spec li Hl (mkCursor 0 0 0 0) (initial_honest li f)) as [Hs Hat].
  apply follows_rests; [|apply (initial_honest (text_lexer li) f)]. split; [done|].
  unfold normalizeIncludedPosition, start. cbn [lCur]. rewrite Hat. apply loc_zero, Hl.
Qed.
End caller.

(** The sample source [ab 7#c] with the ranges [7#c] and [a] selected, in that
    order. *)
Definition sample_ranges : list Range :=
  [mkRange 3 6 (mkPoint 0 3) (mkPoint 0 6); mkRange 0 1 (mkPoint 0 0) (mkPoint 0 1)].

Lemma sample_selection_ok : @selection_ok insertion_slice_sort sample_lexer sample_ranges.
Proof.
  split; [exact sample_lexer_ok|by vm_compute| | |by vm_compute..].
  - repeat constructor; try (vm_compute; discriminate); by vm_compute.
  - right. split; [by vm_compute|right; by vm_compute].
Qed.

Lemma included_lexing_refines_witness :
  let start := mkLexerState (mkCursor 0 0 0 0) (mkCursor 0 0 0 0) in
  let '(li, s) := setIncludedRanges sample_lexer start
                    (@normalizeIncludedRanges insertion_slice_sort sample_ranges) in
  ∃ ts t ts' t', lex_run li s [(0, true); (0, true); (0, true); (0, true)] = Ret (ts, t) ∧
    lex_run (text_lexer li) start [(0, true); (0, true); (0, true); (0, true)] = Ret (ts', t') ∧
    Forall2 (token_follows li) ts ts'.
Proof.
  apply (@included_lexing_refines insertion_slice_sort sample_lexer (mkCursor 0 0 0 0) sample_ranges);
    [exact sample_selection_ok|].
  repeat (constructor; [vm_compute; intuition discriminate|]); constructor.
Defined.

(** One word whose text crosses the gap, the error run, the word behind it and
    the end of the input. *)
Example sample_included_run :
  let '(li, s) := setIncludedRanges sample_lexer (NewLexer [] []).2
                    (@normalizeIncludedRanges insertion_slice_sort sample_ranges) in
  (λ '(ts, _), map (λ t, (tSymbol t, tText t, tStartByte t, tEndByte t)) ts) <$>
    (match lex_run li s [(0, true); (0, true); (0, true); (0, true)] with
     | Ret r => Some r | _ => None end)
  = Some [(1, [97; 55], 0, 4); (errorSymbol, [35], 4, 5); (1, [99], 5, 6); (0, [], 6, 6)].
Proof. vm_compute. reflexivity. Qed.

(** ** Two corner cases *)

Section bom.
Context (l : LexerConfig) (r : Range).
Context (Hrs : includedRanges l = [r]) (Hst0 : StartByte r = 0) (Hend : 0 < EndByte r ≤ 3).
Context (Hbom : take 3 (source l) = utf8BOM).





Context (q : Z) (st : LexState) (Hq : 0 ≤ q < 2 ^ 31) (Hst : zget (states l) q = Some st).
Context (Hacc : lsAcceptToken st = 0) (Hskip : lsSkip st = false) (Heof : lsEOF st < 0).


End bom.




(** A lexer whose first state accepts the empty word, over [axxb] with the
    first and the last byte selected. *)
Definition gap_lexer : LexerConfig :=
  mkLexerConfig [mkLexState 2 0 false (-1) (-1) [mkLexTransition 97 97 1 false];
                 mkLexState 1 0 false (-1) (-1) []]
    None [97; 120; 120; 98]
    [mkRange 0 1 (mkPoint 0 0) (mkPoint 0 1); mkRange 3 4 (mkPoint 0 3) (mkPoint 0 4)] [] [] 0 false false.

Lemma gap_lexer_ok : included_ok gap_lexer.
Proof.
  split; [| | | | | |reflexivity|by vm_compute|done].
  - split; [by repeat (constructor; [unfold byte_ok; lia|])| |by left].
    repeat constructor; cbn; unfold lexAsciiNoMatch; lia.
  - done.
  - split; repeat constructor; by vm_compute.
  - repeat constructor; by vm_compute.
  - repeat constructor; by vm_compute.
  - right. split; [by vm_compute|right; by vm_compute].
Qed.

(** A zero-width token at the start of a later range: its end is moved back to
    the end of the range before the gap while its start stays behind the gap.  The
    second token of this run starts at byte 3 and ends at byte 1. *)
Example zero_width_token_ends_before_start :
  ∃ t1 t2 s, included_ok gap_lexer ∧
    lex_run gap_lexer (NewLexer [] []).2 [(0, false); (0, false)] = Ret ([t1; t2], s) ∧
    tSymbol t2 = 2 ∧ tStartByte t2 = 3 ∧ tEndByte t2 = 1.
Proof. do 3 eexists. split; [exact gap_lexer_ok|]. split; [vm_compute; reflexivity|done]. Qed.
