(* ===== verification/ExternalLexer.v ===== *)
(** * The scanner-facing lexer

    external_lexer.go: the cursor that external scanners drive.  Every method
    that moves the cursor, marks an end or builds the token is a function on
    the record [ExternalLexer]; [source] never changes after [reset]. *)

From Stdlib Require Import ZArith Lia ZifyBool.
From stdpp Require Import base tactics list numbers option.
From S2P Require Import Prelude Utf8 Points Tokens Lexer LexerScan.
Local Open Scope Z_scope.

Record ExternalLexer := mkExternalLexer {
  xSource : list Z;
  xStartPos : Z;
  xPos : Z;
  xEndPos : Z;
  xStartPoint : Point;
  xPoint : Point;
  xEndPoint : Point;
  xEndMarked : bool;
  xAdvancedContent : bool;
  xResultSymbol : Z;
  xHasResult : bool }.

(** [reset] and [newExternalLexer]. *)
Definition newExternalLexer (source : list Z) (pos row col : Z) : ExternalLexer :=
  let pt := mkPoint row col in
  mkExternalLexer source pos pos pos pt pt pt false false 0 false.

Definition xreset (l : ExternalLexer) (source : list Z) (pos row col : Z) : ExternalLexer :=
  newExternalLexer source pos row col.

Definition Lookahead (l : ExternalLexer) : go Z :=
  if len (xSource l) <=? xPos l then Ret 0 else
  b ← index (xSource l) (xPos l);
  if b <? RuneSelf then Ret b
  else tail ← gslice (xSource l) (xPos l) (len (xSource l)); Ret (DecodeRune tail).1.

Definition Previous (l : ExternalLexer) : go Z :=
  if (xPos l <=? 0) || (len (xSource l) <? xPos l) then Ret 0 else
  pre ← gslice (xSource l) 0 (xPos l);
  Ret (DecodeLastRune pre).1.

(** The cursor at [pos] and [pt]; skipped bytes also move the token start. *)
Definition moved (l : ExternalLexer) (skip : bool) (pos : Z) (pt : Point) : ExternalLexer :=
  if skip then
    mkExternalLexer (xSource l) pos pos (xEndPos l) pt pt (xEndPoint l) (xEndMarked l)
      (xAdvancedContent l) (xResultSymbol l) (xHasResult l)
  else
    mkExternalLexer (xSource l) (xStartPos l) pos (xEndPos l) (xStartPoint l) pt (xEndPoint l)
      (xEndMarked l) true (xResultSymbol l) (xHasResult l).

Definition Advance (skip : bool) (l : ExternalLexer) : go ExternalLexer :=
  if len (xSource l) <=? xPos l then Ret l else
  b ← index (xSource l) (xPos l);
  '(r, size) ← (if b <? RuneSelf then Ret (b, 1)
                else tail ← gslice (xSource l) (xPos l) (len (xSource l)); Ret (DecodeRune tail));
  let pt := if r =? newline then mkPoint (u32 (Row (xPoint l) + 1)) 0
            else mkPoint (Row (xPoint l)) (u32 (Column (xPoint l) + u32 size)) in
  Ret (moved l skip (xPos l + size) pt).

(** [for l.pos < len(l.source) && f(l.source[l.pos]) { l.pos++ }] *)
Fixpoint scan_while (f : Z → bool) (src : list Z) (n : nat) (pos : Z) : Z :=
  match n with
  | O => pos
  | S n =>
    match zget src pos with
    | Some b => if f b then scan_while f src n (pos + 1) else pos
    | None => pos
    end
  end.

(** The common body of [AdvanceSpaces] and [AdvanceUntilNewline]. *)
Definition advance_run (f : Z → bool) (skip : bool) (l : ExternalLexer) : go (Z * ExternalLexer) :=
  if len (xSource l) <=? xPos l then Ret (0, l) else
  b ← index (xSource l) (xPos l);
  if negb (f b) then Ret (0, l) else
  let pos := scan_while f (xSource l) (Z.to_nat (len (xSource l) - xPos l)) (xPos l) in
  let n := pos - xPos l in
  let pt := mkPoint (Row (xPoint l)) (u32 (Column (xPoint l) + u32 n)) in
  Ret (n, moved l skip pos pt).

Definition AdvanceSpaces (skip : bool) (l : ExternalLexer) : go (Z * ExternalLexer) :=
  advance_run (λ b, b =? 32) skip l.

Definition AdvanceUntilNewline (skip : bool) (l : ExternalLexer) : go (Z * ExternalLexer) :=
  advance_run (λ b, negb (b =? newline)) skip l.

Definition MarkEnd (l : ExternalLexer) : ExternalLexer :=
  mkExternalLexer (xSource l) (xStartPos l) (xPos l) (xPos l) (xStartPoint l) (xPoint l) (xPoint l)
    true (xAdvancedContent l) (xResultSymbol l) (xHasResult l).

Definition SetResultSymbol (sym : Z) (l : ExternalLexer) : ExternalLexer :=
  mkExternalLexer (xSource l) (xStartPos l) (xPos l) (xEndPos l) (xStartPoint l) (xPoint l)
    (xEndPoint l) (xEndMarked l) (xAdvancedContent l) sym true.

Definition xColumn (l : ExternalLexer) : Z := Column (xPoint l).

(** The comparison loop of [HasPreviousBytes] from byte [i] on. *)
Fixpoint previous_bytes (src : list Z) (start : Z) (text : list Z) : go bool :=
  match text with
  | [] => Ret true
  | c :: text =>
    b ← index src start;
    if b =? c then previous_bytes src (start + 1) text else Ret false
  end.

Definition HasPreviousBytes (text : list Z) (l : ExternalLexer) : go bool :=
  match text with
  | [] => Ret true
  | _ =>
    let start := xPos l - len text in
    if start <? 0 then Ret false else previous_bytes (xSource l) start text
  end.

Definition token (l : ExternalLexer) : go (option Token) :=
  if negb (xHasResult l) then Ret None else
  let endPos := if xEndMarked l then xEndPos l else xPos l in
  let endPoint := if xEndMarked l then xEndPoint l else xPoint l in
  if endPos <? xStartPos l then
    Ret (Some (span_token (xResultSymbol l) [] (u32 endPos) (u32 endPos) endPoint endPoint))
  else
    text ← gslice (xSource l) (xStartPos l) endPos;
    Ret (Some (span_token (xResultSymbol l) text (u32 (xStartPos l)) (u32 endPos)
                 (xStartPoint l) endPoint)).

(** ** The invariant *)

(** A scan that began at offset [from]: the three offsets are inside what was
    read since, and each point is the row and column of its offset. *)
Record xl_ok (from : Z) (l : ExternalLexer) : Prop := {
  xl_bytes : Forall byte_ok (xSource l);
  xl_from : 0 ≤ from ∧ from ≤ xStartPos l ∧ xStartPos l ≤ xPos l ∧ xPos l ≤ len (xSource l);
  xl_end : from ≤ xEndPos l ∧ xEndPos l ≤ xPos l;
  xl_start_point : xStartPoint l = offset_point (xSource l) (xStartPos l);
  xl_point : xPoint l = offset_point (xSource l) (xPos l);
  xl_end_point : xEndPoint l = offset_point (xSource l) (xEndPos l) }.

Lemma newExternalLexer_ok src pos row col :
  Forall byte_ok src → 0 ≤ pos ≤ len src → mkPoint row col = offset_point src pos →
  xl_ok pos (newExternalLexer src pos row col).
Proof. intros Hb Hp Hpt. split; cbn; try done; lia. Qed.

Lemma moved_ok from l skip pos pt :
  xl_ok from l → xPos l ≤ pos ≤ len (xSource l) → pt = offset_point (xSource l) pos →
  xl_ok from (moved l skip pos pt).
Proof.
  intros [? ? ? ? ? ?] Hp ->. destruct skip; split; cbn; try done; lia.
Qed.

(** What one [Advance] does away from the end of the source. *)
Lemma Advance_rune from l skip :
  xl_ok from l → xPos l < len (xSource l) →
  ∃ r size, DecodeRune (slice (xSource l) (xPos l) (len (xSource l))) = (r, size) ∧
    1 ≤ size ≤ 4 ∧ xPos l + size ≤ len (xSource l) ∧
    Advance skip l = Ret (moved l skip (xPos l + size)
                            (offset_point (xSource l) (xPos l + size))) ∧
    Lookahead l = Ret r.
Proof.
  intros [Hb Hf _ _ Hpt _] Hlt.
  assert (0 ≤ xPos l < len (xSource l)) as Hpos by lia.
  destruct (rune_at (xSource l) (xPos l) (mkCursor (xPos l) (Row (xPoint l)) (Column (xPoint l)) 0)
              Hb Hpos eq_refl)
    as (b & r & size & Hi & Hb0 & Hasc & Hsl & Hdec & Hd & Hs & Hle & Hcp).
  assert (slice (xSource l) (xPos l) (len (xSource l)) ≠ []) as Hne.
  { apply index_Ret in Hi. by rewrite (slice_cons _ _ _ b) by (done || lia). }
  destruct (DecodeRune_size _ _ _ Hne Hd) as [Hs4 _].
  exists r, size. split_and!; [done|lia..| |].
  - unfold Advance. destruct (Z.leb_spec (len (xSource l)) (xPos l)); [lia|].
    rewrite Hi. cbn. rewrite Hsl. cbn. unfold RuneSelf.
    replace (if b <? 128 then Ret (b, 1) else Ret (DecodeRune _)) with (Ret (r, size))
      by (rewrite <-Hdec; by destruct (b <? 128)).
    cbn. do 2 f_equal. rewrite <-(offset_point_step _ (xPos l)), <-Hpt by lia.
    assert (cursor_point (mkCursor (xPos l) (Row (xPoint l)) (Column (xPoint l)) 0) = xPoint l)
      as Heta by by destruct (xPoint l).
    rewrite Heta in Hcp. rewrite <-Hcp. unfold move_cursor, cursor_point. cbn. rewrite u32_add_r. by destruct (r =? newline).
  - unfold Lookahead. destruct (Z.leb_spec (len (xSource l)) (xPos l)); [lia|].
    rewrite Hi. cbn. rewrite Hsl. unfold RuneSelf.
    destruct (Z.ltb_spec b 128); cbn; [by rewrite Hasc|by rewrite Hd].
Qed.

Lemma Advance_ok from l skip :
  xl_ok from l → ∃ l', Advance skip l = Ret l' ∧ xl_ok from l' ∧ xSource l' = xSource l.
Proof.
  intros Hl. destruct (decide (xPos l < len (xSource l))) as [Hlt|Hge].
  - destruct (Advance_rune from l skip Hl Hlt) as (r & size & _ & Hs & Hle & -> & _).
    eexists. split; [done|]. split; [|by destruct skip]. apply moved_ok; [done|lia|done].
  - exists l. unfold Advance. by destruct (Z.leb_spec (len (xSource l)) (xPos l)); [|lia].
Qed.

Lemma Lookahead_ok from l : xl_ok from l → ∃ r, Lookahead l = Ret r.
Proof.
  intros Hl. destruct (decide (xPos l < len (xSource l))) as [Hlt|Hge].
  - destruct (Advance_rune from l true Hl Hlt) as (r & size & _ & _ & _ & _ & ->). eauto.
  - exists 0. unfold Lookahead. by destruct (Z.leb_spec (len (xSource l)) (xPos l)); [|lia].
Qed.

(** ** Bulk advances *)

(** The loop the bulk advances stand for: [Advance(skip)] while the lookahead
    satisfies [g]. *)
Fixpoint advance_while (g : Z → bool) (skip : bool) (fuel : nat) (l : ExternalLexer)
  : go ExternalLexer :=
  match fuel with
  | O => NoFuel
  | S fuel =>
    if len (xSource l) <=? xPos l then Ret l else
    r ← Lookahead l;
    if g r then l ← Advance skip l; advance_while g skip fuel l else Ret l
  end.

(** A byte test [f] that agrees with the rune test [g]: on the first byte of a
    rune they coincide, [f] then holds on the whole rune, and not on newlines. *)
Definition rune_test (f g : Z → bool) : Prop :=
  ∀ b rest r size, DecodeRune (b :: rest) = (r, size) →
    g r = f b ∧
    (f b = true → Forall (λ x, f x = true ∧ x ≠ newline) (slice (b :: rest) 0 size)).

Section bulk.
Context (f g : Z → bool) (Hfg : rune_test f g).
Implicit Types (src : list Z) (l : ExternalLexer).

Lemma scan_while_ge src n pos : pos ≤ scan_while f src n pos.
Proof.
  revert pos. induction n as [|n IH]; intros pos; cbn; [done|].
  destruct (zget _ _) as [x|]; [|done]. destruct (f x); [|done]. specialize (IH (pos + 1)). lia.
Qed.

Lemma scan_while_skip src n m pos pos' :
  Forall (λ x, f x = true ∧ x ≠ newline) (slice src pos pos') → 0 ≤ pos ≤ pos' →
  pos' ≤ len src → (n = m + Z.to_nat (pos' - pos))%nat →
  scan_while f src n pos = scan_while f src m pos'.
Proof.
  intros Hs. remember (Z.to_nat (pos' - pos)) as k eqn:Hk. revert n pos Hs Hk.
  induction k as [|k IH]; intros n pos Hs Hk Hp Hle ->.
  { rewrite Nat.add_0_r. f_equal. lia. }
  destruct (zget_in_range src pos) as [b Hb]; [lia|].
  rewrite (slice_cons _ _ _ b) in Hs by (done || lia). apply list.Forall_cons_1 in Hs as [[Hf _] Hs].
  rewrite Nat.add_succ_r. cbn [scan_while]. rewrite Hb, Hf. apply IH; [done|lia..].
Qed.

(** The run ends at the first byte that fails the test, or at the end. *)
Lemma scan_while_spec src pos :
  (∀ x, f x = true → x ≠ newline) →
  0 ≤ pos ≤ len src →
  let e := scan_while f src (Z.to_nat (len src - pos)) pos in
  pos ≤ e ≤ len src ∧ Forall (λ x, f x = true ∧ x ≠ newline) (slice src pos e) ∧
  (∀ b, zget src e = Some b → f b = false).
Proof.
  intros Hnl. remember (Z.to_nat (len src - pos)) as n eqn:Hn. revert pos Hn.
  induction n as [|n IH]; intros pos Hn Hp; cbn [scan_while].
  { split_and!; [lia..|rewrite slice_nil by lia; constructor|].
    intros b ?%zget_Some_range. lia. }
  destruct (zget_in_range src pos) as [b Hb]; [lia|]. rewrite Hb.
  destruct (f b) eqn:Hf; cbn.
  - destruct (IH (pos + 1)) as (He & Hs & Hstop); [lia..|].
    split_and!; [lia..| |done]. rewrite (slice_cons _ _ _ b) by (done || lia). by constructor; auto.
  - split_and!; [lia..|rewrite slice_nil by lia; constructor|]. intros b'. rewrite Hb. by intros [= <-].
Qed.

Lemma rune_test_newline x : f x = true → x ≠ newline.
Proof using Hfg.
  intros Hf ->. destruct (DecodeRune [newline]) as [r size] eqn:Hd.
  rewrite DecodeRune_lt_RuneSelf in Hd by (unfold newline; lia). injection Hd as <- <-.
  destruct (Hfg newline [] newline 1) as [_ H]; [done|].
  specialize (H Hf). apply list.Forall_cons_1 in H as [[_ H] _]. done.
Qed.

Lemma moved_moved l skip p1 pt1 p2 pt2 :
  moved (moved l skip p1 pt1) skip p2 pt2 = moved l skip p2 pt2.
Proof. by destruct skip. Qed.

Lemma flat_point src pos e :
  0 ≤ pos ≤ e → e ≤ len src → Forall (λ x, f x = true ∧ x ≠ newline) (slice src pos e) →
  pos < e →
  mkPoint (Row (offset_point src pos)) (u32 (Column (offset_point src pos) + u32 (e - pos)))
  = offset_point src e.
Proof.
  intros Hp He Hs Hlt. rewrite <-(offset_point_step src pos e) by lia.
  rewrite computeNewEndPoint_flat.
  - by rewrite len_slice, u32_add_r by lia.
  - intros Hn. apply (f_equal len) in Hn. rewrite len_slice in Hn by lia. change (len []) with 0 in Hn. lia.
  - eapply list.Forall_impl; [exact Hs|]. by intros x [_ ?].
Qed.

Lemma rune_bytes l from r size :
  xl_ok from l → xPos l < len (xSource l) →
  DecodeRune (slice (xSource l) (xPos l) (len (xSource l))) = (r, size) →
  ∃ b, zget (xSource l) (xPos l) = Some b ∧ g r = f b ∧
    (f b = true → Forall (λ x, f x = true ∧ x ≠ newline)
                    (slice (xSource l) (xPos l) (xPos l + size))).
Proof using Hfg.
  intros Hl Hlt Hd. pose proof (xl_from _ _ Hl).
  destruct (zget_in_range (xSource l) (xPos l)) as [b Hb]; [lia|]. exists b.
  rewrite <-(slice_drop _ (xPos l) size) by lia.
  rewrite (slice_cons (xSource l) (xPos l) (len (xSource l)) b) in Hd |- * by (done || lia).
  split; [done|]. by apply (Hfg b _ r size).
Qed.

(** Repeated [Advance] arrives where the byte loop stops. *)
Lemma advance_while_run from skip fuel l :
  xl_ok from l → len (xSource l) - xPos l < Z.of_nat fuel →
  let e := scan_while f (xSource l) (Z.to_nat (len (xSource l) - xPos l)) (xPos l) in
  advance_while g skip fuel l =
  Ret (if xPos l <? e then moved l skip e (offset_point (xSource l) e) else l).
Proof using Hfg.
  revert l. induction fuel as [|fuel IH]; intros l Hl Hf; pose proof (xl_from _ _ Hl); [lia|].
  cbn [advance_while]. destruct (Z.leb_spec (len (xSource l)) (xPos l)) as [Hend|Hlt].
  { replace (Z.to_nat _) with 0%nat by lia. cbn. by rewrite Z.ltb_irrefl. }
  destruct (Advance_rune from l skip Hl Hlt) as (r & size & Hd & Hs & Hle & -> & ->). cbn [mbind go_bind].
  destruct (rune_bytes l from r size Hl Hlt Hd) as (b & Hb & Hg & Hrun). rewrite Hg.
  destruct (f b) eqn:Hfb.
  2:{ replace (Z.to_nat (len (xSource l) - xPos l))
        with (S (Z.to_nat (len (xSource l) - xPos l) - 1))%nat by lia.
      cbn [scan_while]. rewrite Hb, Hfb. by rewrite Z.ltb_irrefl. }
  set (l1 := moved l skip (xPos l + size) _).
  assert (xl_ok from l1) as Hl1 by (apply moved_ok; [done|lia|done]).
  assert (xSource l1 = xSource l ∧ xPos l1 = xPos l + size) as [Hsrc Hpos1] by by destruct skip.
  rewrite (IH l1 Hl1) by (rewrite Hsrc, Hpos1; lia). rewrite Hsrc, Hpos1.
  rewrite (scan_while_skip _ (Z.to_nat (len (xSource l) - xPos l))
             (Z.to_nat (len (xSource l) - (xPos l + size))) _ (xPos l + size)) by (auto || lia).
  set (e := scan_while _ _ _ _).
  assert (xPos l + size ≤ e) as He by apply scan_while_ge.
  destruct (Z.ltb_spec (xPos l) e); [|lia]. f_equal. unfold l1.
  destruct (Z.ltb_spec (xPos l + size) e); [apply moved_moved|]. by replace e with (xPos l + size) by lia.
Qed.
(** The bulk advance returns the number of bytes it consumed and leaves the
    lexer where repeated [Advance] leaves it. *)
Lemma advance_run_equiv from skip l :
  xl_ok from l →
  ∃ n l', advance_run f skip l = Ret (n, l') ∧ n = xPos l' - xPos l ∧ xl_ok from l' ∧
    advance_while g skip (S (length (xSource l))) l = Ret l'.
Proof using Hfg.
  intros Hl. pose proof (xl_from _ _ Hl).
  rewrite (advance_while_run from) by (done || unfold len in *; lia).
  pose proof (scan_while_spec (xSource l) (xPos l) rune_test_newline) as Hspec.
  destruct Hspec as (He & Hs & Hstop); [lia|]. set (e := scan_while _ _ _ _) in *.
  unfold advance_run. destruct (Z.leb_spec (len (xSource l)) (xPos l)).
  { exists 0, l. destruct (Z.ltb_spec (xPos l) e); [lia|]. split_and!; [done|lia|done..]. }
  destruct (zget_in_range (xSource l) (xPos l)) as [b Hb]; [lia|].
  rewrite (proj2 (index_Ret _ _ _) Hb). cbn. fold e. destruct (f b) eqn:Hfb; cbn.
  - assert (xPos l < e) as Hlt.
    { destruct (decide (xPos l = e)) as [He'|]; [|lia]. rewrite <-He' in Hstop.
      by rewrite (Hstop b Hb) in Hfb. }
    destruct (Z.ltb_spec (xPos l) e); [|lia]. do 2 eexists.
    rewrite (xl_point _ _ Hl), flat_point by (done || lia).
    split; [done|]. split_and!; [by destruct skip| |done]. apply moved_ok; [done|lia|done].
  - exists 0, l. destruct (Z.ltb_spec (xPos l) e) as [Hlt|]; [|split_and!; [done|lia|done..]].
    rewrite (slice_cons _ _ _ b) in Hs by (done || lia).
    apply list.Forall_cons_1 in Hs as [[? _] _]. congruence.
Qed.
End bulk.

Lemma spaces_test : rune_test (λ b, b =? 32) (λ r, r =? 32).
Proof.
  intros b rest r size Hd. split.
  - destruct (Z.ltb_spec b 0x80).
    + rewrite DecodeRune_lt_RuneSelf in Hd by done. by injection Hd as <- <-.
    + pose proof (DecodeRune_ascii _ _ _ _ Hd). lia.
  - intros ->%Z.eqb_eq. rewrite DecodeRune_lt_RuneSelf in Hd by lia. injection Hd as <- <-.
    by repeat constructor.
Qed.

Lemma newline_test : rune_test (λ b, negb (b =? newline)) (λ r, negb (r =? newline)).
Proof.
  intros b rest r size Hd. assert (b :: rest ≠ []) as Hne by done. split.
  - unfold newline. by rewrite (DecodeRune_newline _ _ _ _ Hd).
  - intros Hb. destruct (DecodeRune_size _ _ _ Hne Hd) as [Hs Hl].
    rewrite (slice_cons _ _ _ b) by (done || lia). constructor.
    + split; [done|]. intros ->. done.
    + eapply list.Forall_impl; [exact (DecodeRune_tail _ _ _ Hne Hd)|].
      cbn. unfold newline. lia.
Qed.

(** ** What a scanner can do *)

(** The calls of a scanner that change the lexer. *)
Inductive scanner_op :=
| OpAdvance (skip : bool)
| OpAdvanceSpaces (skip : bool)
| OpAdvanceUntilNewline (skip : bool)
| OpMarkEnd
| OpSetResultSymbol (sym : Z).

Definition run_op (l : ExternalLexer) (op : scanner_op) : go ExternalLexer :=
  match op with
  | OpAdvance skip => Advance skip l
  | OpAdvanceSpaces skip => '(_, l) ← AdvanceSpaces skip l; Ret l
  | OpAdvanceUntilNewline skip => '(_, l) ← AdvanceUntilNewline skip l; Ret l
  | OpMarkEnd => Ret (MarkEnd l)
  | OpSetResultSymbol sym => Ret (SetResultSymbol sym l)
  end.

Fixpoint run_ops (l : ExternalLexer) (ops : list scanner_op) : go ExternalLexer :=
  match ops with
  | [] => Ret l
  | op :: ops => l ← run_op l op; run_ops l ops
  end.

Lemma MarkEnd_ok from l : xl_ok from l → xl_ok from (MarkEnd l).
Proof. intros [? ? ? ? ? ?]. split; cbn; try done; lia. Qed.

Lemma SetResultSymbol_ok from sym l : xl_ok from l → xl_ok from (SetResultSymbol sym l).
Proof. by intros [? ? ? ? ? ?]. Qed.

Lemma moved_source l skip pos pt : xSource (moved l skip pos pt) = xSource l.
Proof. by destruct skip. Qed.

Lemma advance_run_source f skip l n l' : advance_run f skip l = Ret (n, l') → xSource l' = xSource l.
Proof.
  unfold advance_run. case_match; [by intros [= _ <-]|]. intros (b & _ & Hb)%go_bind_ret.
  revert Hb. case_match; intros [= _ <-]; [done|apply moved_source].
Qed.

Lemma run_op_ok from l op :
  xl_ok from l → ∃ l', run_op l op = Ret l' ∧ xl_ok from l' ∧ xSource l' = xSource l.
Proof.
  intros Hl. destruct op as [skip|skip|skip| |sym]; cbn [run_op].
  - by apply Advance_ok.
  - destruct (advance_run_equiv _ _ spaces_test from skip l Hl) as (n & l' & He & _ & Hl' & _).
    unfold AdvanceSpaces. rewrite He. cbn. eauto using advance_run_source.
  - destruct (advance_run_equiv _ _ newline_test from skip l Hl) as (n & l' & He & _ & Hl' & _).
    unfold AdvanceUntilNewline. rewrite He. cbn. eauto using advance_run_source.
  - eauto using MarkEnd_ok.
  - eauto using SetResultSymbol_ok.
Qed.

Lemma run_ops_ok from l ops :
  xl_ok from l → ∃ l', run_ops l ops = Ret l' ∧ xl_ok from l' ∧ xSource l' = xSource l.
Proof.
  revert l. induction ops as [|op ops IH]; intros l Hl; cbn; [by exists l|].
  destruct (run_op_ok from l op Hl) as (l1 & -> & Hl1 & <-). cbn. by apply IH.
Qed.

(** The token of a lexer state: nothing without a result symbol, the marked
    (or current) end otherwise, and the span collapsed onto the mark when
    skipping moved the start past it. *)
Record token_of (from : Z) (l : ExternalLexer) (t : Token) : Prop := {
  to_symbol : tSymbol t = xResultSymbol l;
  to_span : from ≤ tStartByte t ∧ tStartByte t ≤ tEndByte t ∧ tEndByte t ≤ xPos l;
  to_end : tEndByte t = (if xEndMarked l then xEndPos l else xPos l);
  to_start : tStartByte t = Z.min (xStartPos l) (tEndByte t);
  to_start_point : tStartPoint t = offset_point (xSource l) (tStartByte t);
  to_end_point : tEndPoint t = offset_point (xSource l) (tEndByte t);
  to_text : tText t = slice (xSource l) (tStartByte t) (tEndByte t) }.

Lemma token_spec from l :
  xl_ok from l → len (xSource l) < 2 ^ 32 →
  ∃ res, token l = Ret res ∧
    match res with None => xHasResult l = false | Some t => xHasResult l = true ∧ token_of from l t end.
Proof.
  intros [Hb Hf He Hsp Hp Hep] Hlen. unfold token.
  destruct (xHasResult l); cbn; [|by exists None].
  assert (∃ e, e = (if xEndMarked l then xEndPos l else xPos l) ∧
     (if xEndMarked l then xEndPoint l else xPoint l) = offset_point (xSource l) e ∧
     from ≤ e ≤ xPos l) as (e & Heq & Hpt & Hel).
  { eexists. split; [done|]. destruct (xEndMarked l); (split; [done|lia]). }
  rewrite <-Heq, Hpt. destruct (Z.ltb_spec e (xStartPos l)) as [Hlt|Hge].
  - eexists. split; [done|]. split; [done|].
    split; cbn; rewrite ?u32_id by lia; try done; try lia. by rewrite slice_nil by lia.
  - rewrite gslice_ok by lia. cbn. eexists. split; [done|]. split; [done|].
    split; cbn; rewrite ?u32_id by lia; try done; lia.
Qed.

(** ** Looking back *)

Lemma previous_bytes_spec src start text :
  0 ≤ start → start + len text ≤ len src →
  previous_bytes src start text = Ret (bool_decide (slice src start (start + len text) = text)).
Proof.
  revert start. induction text as [|c text IH]; intros start H0 Hle; cbn.
  { rewrite slice_nil by (unfold len; cbn; lia). done. }
  rewrite len_cons in Hle. pose proof (len_nonneg text).
  destruct (index_in_range src start) as (b & -> & Hb); [lia|]. cbn.
  rewrite (slice_cons _ _ _ b) by (done || rewrite len_cons; lia).
  rewrite len_cons. replace (start + (len text + 1)) with (start + 1 + len text) by lia.
  destruct (Z.eqb_spec b c) as [->|Hne].
  - rewrite IH by lia. do 2 f_equal. apply bool_decide_ext. split; [by intros ->|by intros [= ->]].
  - f_equal. symmetry. apply bool_decide_eq_false. by intros [= -> _].
Qed.

(** The sample: two blanks, a two-byte letter, a newline, and [x]. *)
Definition sample_source : list Z := [32; 32; 0xC3; 0xA9; 10; 120].

Lemma sample_xl_ok : xl_ok 0 (newExternalLexer sample_source 0 0 0).
Proof.
  apply newExternalLexer_ok; [|vm_compute; intuition discriminate|done].
  by repeat (constructor; [unfold byte_ok; lia|]).
Qed.

(** C33.  A scanner that starts at an honest position cannot make the lexer
    panic or return a wrong token, whatever calls it makes in whatever order:
    a token is returned exactly when a result symbol was set, it ends at the
    marked end (the cursor when no end was marked), it starts at the token start
    or, when skipping moved that past the mark, at the mark itself; its text and
    its row and column positions are those of the source. *)
Theorem scanner_token_from_source src pos row col ops :
  Forall byte_ok src → 0 ≤ pos ≤ len src → len src < 2 ^ 32 →
  mkPoint row col = offset_point src pos →
  ∃ l res, run_ops (newExternalLexer src pos row col) ops = Ret l ∧ xSource l = src ∧
    token l = Ret res ∧
    match res with
    | None => xHasResult l = false
    | Some t => xHasResult l = true ∧ token_of pos l t
    end.
Proof.
  intros Hb Hp Hlen Hpt.
  destruct (run_ops_ok pos _ ops (newExternalLexer_ok src pos row col Hb Hp Hpt))
    as (l & Hr & Hl & Hs). cbn in Hs.
  destruct (token_spec pos l Hl) as (res & Ht & Hres); [by rewrite Hs|]. by exists l, res.
Qed.

Lemma scanner_token_from_source_witness :
  ∃ l res, run_ops (newExternalLexer sample_source 0 0 0)
      [OpAdvanceSpaces true; OpMarkEnd; OpAdvanceUntilNewline true; OpSetResultSymbol 7] = Ret l ∧
    xSource l = sample_source ∧ token l = Ret res ∧
    match res with
    | None => xHasResult l = false
    | Some t => xHasResult l = true ∧ token_of 0 l t
    end.
Proof.
  apply scanner_token_from_source;
    [by repeat (constructor; [unfold byte_ok; lia|])|vm_compute; intuition discriminate|done|done].
Defined.

(** [AdvanceSpaces] and [AdvanceUntilNewline] do what their comments
    promise on every source, valid UTF-8 or not: they leave the lexer exactly
    where repeated [Advance] leaves it while the lookahead is a space,
    respectively not a newline, and return the number of bytes consumed. *)
Theorem bulk_advance_is_repeated_advance from skip l :
  xl_ok from l →
  (∃ n l', AdvanceSpaces skip l = Ret (n, l') ∧ n = xPos l' - xPos l ∧
     advance_while (λ r, r =? 32) skip (S (length (xSource l))) l = Ret l') ∧
  (∃ n l', AdvanceUntilNewline skip l = Ret (n, l') ∧ n = xPos l' - xPos l ∧
     advance_while (λ r, negb (r =? newline)) skip (S (length (xSource l))) l = Ret l').
Proof.
  intros Hl. split.
  - destruct (advance_run_equiv _ _ spaces_test from skip l Hl) as (n & l' & ? & ? & _ & ?).
    by exists n, l'.
  - destruct (advance_run_equiv _ _ newline_test from skip l Hl) as (n & l' & ? & ? & _ & ?).
    by exists n, l'.
Qed.

Lemma bulk_advance_is_repeated_advance_witness :
  ∃ n l', AdvanceSpaces true (newExternalLexer sample_source 0 0 0) = Ret (n, l') ∧ n = xPos l' - 0 ∧
     advance_while (λ r, r =? 32) true 7 (newExternalLexer sample_source 0 0 0) = Ret l'.
Proof.
  exact (proj1 (bulk_advance_is_repeated_advance 0 true (newExternalLexer sample_source 0 0 0)
                  sample_xl_ok)).
Defined.

(** [HasPreviousBytes] answers without a run-time panic, and says yes
    exactly when the bytes before the cursor end in the text. *)
Theorem HasPreviousBytes_suffix from l text :
  xl_ok from l →
  ∃ b, HasPreviousBytes text l = Ret b ∧
    (b = true ↔ ∃ pre, slice (xSource l) 0 (xPos l) = pre ++ text).
Proof.
  intros Hl. pose proof (xl_from _ _ Hl). unfold HasPreviousBytes.
  destruct text as [|c text]; [exists true; split; [done|]; split; [|done];
    intros _; eexists; by rewrite app_nil_r|].
  set (t := c :: text). pose proof (len_nonneg t).
  destruct (Z.ltb_spec (xPos l - len t) 0) as [Hneg|Hpos].
  - exists false. split; [done|]. split; [done|]. intros [pre Hpre].
    apply (f_equal len) in Hpre. rewrite len_slice, len_app in Hpre by lia.
    pose proof (len_nonneg pre). lia.
  - rewrite previous_bytes_spec by lia. replace (xPos l - len t + len t) with (xPos l) by lia.
    eexists. split; [done|]. rewrite bool_decide_eq_true.
    rewrite <-(slice_app_split _ 0 (xPos l - len t) (xPos l)) by lia. split.
    + intros Ht. rewrite Ht. eauto.
    + intros [pre Hpre]. apply app_inj_2 in Hpre as [_ ?]; [done|].
      pose proof (len_slice (xSource l) (xPos l - len t) (xPos l)). unfold len in *. lia.
Qed.

Lemma HasPreviousBytes_suffix_witness :
  ∃ b, HasPreviousBytes [32] (newExternalLexer sample_source 0 0 0) = Ret b ∧
    (b = true ↔ ∃ pre, slice sample_source 0 0 = pre ++ [32]).
Proof.
  exact (HasPreviousBytes_suffix 0 (newExternalLexer sample_source 0 0 0) [32] sample_xl_ok).
Defined.
