(* ===== verification/ExternalVM.v ===== *)
(** * The external scanner virtual machine

    external_vm.go: the bytecode, its validator, the interpreter with its step
    limit, and the payload that survives between scans.  [unicode.IsSpace],
    [IsDigit] and [IsLetter] are tables of the Go library and parameters of the
    interpreter; no theorem depends on what they contain. *)

From Stdlib Require Import ZArith Lia ZifyBool.
From stdpp Require Import base tactics relations list numbers option.
From S2P Require Import Prelude Utf8 Points Tokens Lexer LexerScan ExternalLexer.
Local Open Scope Z_scope.

Inductive ExternalVMOp :=
| ExternalVMOpFail
| ExternalVMOpJump
| ExternalVMOpRequireValid
| ExternalVMOpRequireStateEq
| ExternalVMOpSetState
| ExternalVMOpIfRuneEq
| ExternalVMOpIfRuneInRange
| ExternalVMOpIfRuneClass
| ExternalVMOpAdvance
| ExternalVMOpMarkEnd
| ExternalVMOpEmit
| ExternalVMOpUnknown (n : Z).

#[export] Instance ExternalVMOp_eq_dec : EqDecision ExternalVMOp.
Proof. solve_decision. Defined.

Record ExternalVMInstr := mkInstr { iOp : ExternalVMOp; iA : Z; iB : Z; iAlt : Z }.

Record ExternalVMProgram := mkProgram { Code : list ExternalVMInstr; MaxSteps : Z }.

(** The messages of [fmt.Errorf], as values. *)
Inductive vm_error :=
| ErrEmpty
| ErrMaxSteps
| ErrTarget (i : Z) (target : Z) (codeLen : Z) (alt : bool)
| ErrValidIndex (i : Z) (a : Z)
| ErrStateValue (i : Z) (a : Z)
| ErrRuneRange (i : Z) (a b : Z)
| ErrRuneClass (i : Z) (a : Z)
| ErrOpcode (i : Z) (n : Z).

Definition validateExternalVMTarget (i target codeLen : Z) (alt : bool) : option vm_error :=
  if (target <? 0) || (codeLen <=? target) then Some (ErrTarget i target codeLen alt) else None.

(** The switch of the validator for instruction [i]. *)
Definition validate_instr (codeLen i : Z) (ins : ExternalVMInstr) : option vm_error :=
  let target_alt := validateExternalVMTarget i (iAlt ins) codeLen true in
  match iOp ins with
  | ExternalVMOpFail | ExternalVMOpMarkEnd | ExternalVMOpAdvance | ExternalVMOpEmit => None
  | ExternalVMOpJump => validateExternalVMTarget i (iA ins) codeLen false
  | ExternalVMOpRequireValid =>
    if iA ins <? 0 then Some (ErrValidIndex i (iA ins)) else target_alt
  | ExternalVMOpRequireStateEq =>
    if iA ins <? 0 then Some (ErrStateValue i (iA ins)) else target_alt
  | ExternalVMOpSetState => if iA ins <? 0 then Some (ErrStateValue i (iA ins)) else None
  | ExternalVMOpIfRuneEq => target_alt
  | ExternalVMOpIfRuneInRange =>
    if iB ins <? iA ins then Some (ErrRuneRange i (iA ins) (iB ins)) else target_alt
  | ExternalVMOpIfRuneClass =>
    if (iA ins <? 0) || (4 <? iA ins) then Some (ErrRuneClass i (iA ins)) else target_alt
  | ExternalVMOpUnknown n => Some (ErrOpcode i n)
  end.

(** The loop over the instructions; the first error wins. *)
Fixpoint validate_code (codeLen i : Z) (code : list ExternalVMInstr) : option vm_error :=
  match code with
  | [] => None
  | ins :: code =>
    match validate_instr codeLen i ins with
    | Some err => Some err
    | None => validate_code codeLen (i + 1) code
    end
  end.

Definition validateExternalVMProgram (p : ExternalVMProgram) : option vm_error :=
  if len (Code p) =? 0 then Some ErrEmpty
  else if MaxSteps p <? 0 then Some ErrMaxSteps
  else validate_code (len (Code p)) 0 (Code p).

Definition NewExternalVMScanner (p : ExternalVMProgram) : ExternalVMProgram + vm_error :=
  match validateExternalVMProgram p with
  | Some err => inr err
  | None => inl p
  end.

(** [panic(err)] in [MustNewExternalVMScanner]. *)
Definition MustNewExternalVMScanner (p : ExternalVMProgram) : go ExternalVMProgram :=
  match NewExternalVMScanner p with
  | inl s => Ret s
  | inr _ => Panic
  end.

Definition defaultExternalVMMaxSteps (codeLen : Z) : Z :=
  let steps := codeLen * 16 in if steps <? 64 then 64 else steps.

(** ** The payload

    [Some state] is a non-nil [*externalVMPayload], [None] any other value. *)

Definition Create : option Z := Some 0.

Definition put_u32_le (v : Z) : list Z :=
  [u8 v; u8 (Z.shiftr v 8); u8 (Z.shiftr v 16); u8 (Z.shiftr v 24)].

Definition get_u32_le (b0 b1 b2 b3 : Z) : Z :=
  Z.lor (Z.lor (Z.lor b0 (Z.shiftl b1 8)) (Z.shiftl b2 16)) (Z.shiftl b3 24).

(** The number of bytes written, and the buffer afterwards. *)
Definition Serialize (payload : option Z) (buf : list Z) : Z * list Z :=
  if len buf <? 4 then (0, buf)
  else (4, put_u32_le (default 0 payload) ++ drop 4 buf).

Definition Deserialize (payload : option Z) (buf : list Z) : option Z :=
  match payload with
  | None => None
  | Some _ =>
    match buf with
    | b0 :: b1 :: b2 :: b3 :: _ => Some (get_u32_le b0 b1 b2 b3)
    | _ => Some 0
    end
  end.

(** ** The interpreter *)

Section scan.
Context (isSpace isDigit isLetter : Z → bool).

Definition matchesExternalVMRuneClass (r class : Z) : bool :=
  if class =? 0 then isSpace r
  else if class =? 1 then isDigit r
  else if class =? 2 then isLetter r
  else if class =? 3 then (r =? 95) || isLetter r || isDigit r
  else if class =? 4 then r =? newline
  else false.

(** The loop variables: program counter, payload state and lexer. *)
Record VM := mkVM { vPC : Z; vState : Z; vLexer : ExternalLexer }.

(** [inl]: the loop goes on; [inr ok]: [return ok]. *)
Definition vm_exec (ins : ExternalVMInstr) (validSymbols : list bool) (m : VM) : go (VM * option bool) :=
  let goto pc := Ret (mkVM pc (vState m) (vLexer m), None) in
  let branch (c : bool) := goto (if c then vPC m + 1 else iAlt ins) in
  match iOp ins with
  | ExternalVMOpFail => Ret (m, Some false)
  | ExternalVMOpJump => goto (iA ins)
  | ExternalVMOpRequireValid =>
    ok ← (if iA ins <? len validSymbols then index validSymbols (iA ins) else Ret false);
    branch ok
  | ExternalVMOpRequireStateEq => branch (vState m =? u32 (iA ins))
  | ExternalVMOpSetState => Ret (mkVM (vPC m + 1) (u32 (iA ins)) (vLexer m), None)
  | ExternalVMOpIfRuneEq => r ← Lookahead (vLexer m); branch (r =? iA ins)
  | ExternalVMOpIfRuneInRange =>
    r ← Lookahead (vLexer m); branch ((iA ins <=? r) && (r <=? iB ins))
  | ExternalVMOpIfRuneClass =>
    r ← Lookahead (vLexer m); branch (matchesExternalVMRuneClass r (u8 (iA ins)))
  | ExternalVMOpAdvance =>
    l ← Advance (negb (iA ins =? 0)) (vLexer m); Ret (mkVM (vPC m + 1) (vState m) l, None)
  | ExternalVMOpMarkEnd => Ret (mkVM (vPC m + 1) (vState m) (MarkEnd (vLexer m)), None)
  | ExternalVMOpEmit =>
    Ret (mkVM (vPC m) (vState m) (SetResultSymbol (u16 (iA ins)) (vLexer m)), Some true)
  | ExternalVMOpUnknown _ => Ret (m, Some false)
  end.

(** [for steps := 0; steps < maxSteps; steps++], with the steps left. *)
Fixpoint vm_loop (code : list ExternalVMInstr) (validSymbols : list bool) (steps : nat) (m : VM)
  : go (VM * bool) :=
  match steps with
  | O => Ret (m, false)
  | S steps =>
    if (vPC m <? 0) || (len code <=? vPC m) then Ret (m, false) else
    ins ← index code (vPC m);
    '(m, res) ← vm_exec ins validSymbols m;
    match (res : option bool) with
    | Some ok => Ret (m, ok)
    | None => vm_loop code validSymbols steps m
    end
  end.

Definition max_steps (p : ExternalVMProgram) : Z :=
  if MaxSteps p <=? 0 then defaultExternalVMMaxSteps (len (Code p)) else MaxSteps p.

(** [Scan]; the deferred store writes the final state into the payload. *)
Definition Scan (p : ExternalVMProgram) (payload : option Z) (lexer : ExternalLexer)
    (validSymbols : list bool) : go (bool * option Z * ExternalLexer) :=
  if len (Code p) =? 0 then Ret (false, payload, lexer) else
  '(m, ok) ← vm_loop (Code p) validSymbols (Z.to_nat (max_steps p))
               (mkVM 0 (default 0 payload) lexer);
  Ret (ok, (λ _, vState m) <$> payload, vLexer m).
End scan.

(** ** Instruction constructors *)

Definition VMFail : ExternalVMInstr := mkInstr ExternalVMOpFail 0 0 0.
Definition VMJump (target : Z) : ExternalVMInstr := mkInstr ExternalVMOpJump (i32 target) 0 0.
Definition VMRequireValid (validSymbolIndex alt : Z) : ExternalVMInstr :=
  mkInstr ExternalVMOpRequireValid (i32 validSymbolIndex) 0 (i32 alt).
Definition VMRequireStateEq (state alt : Z) : ExternalVMInstr :=
  mkInstr ExternalVMOpRequireStateEq (i32 state) 0 (i32 alt).
Definition VMSetState (state : Z) : ExternalVMInstr := mkInstr ExternalVMOpSetState (i32 state) 0 0.
Definition VMIfRuneEq (r alt : Z) : ExternalVMInstr :=
  mkInstr ExternalVMOpIfRuneEq (i32 r) 0 (i32 alt).
Definition VMIfRuneInRange (start fin alt : Z) : ExternalVMInstr :=
  mkInstr ExternalVMOpIfRuneInRange (i32 start) (i32 fin) (i32 alt).
Definition VMIfRuneClass (class alt : Z) : ExternalVMInstr :=
  mkInstr ExternalVMOpIfRuneClass (i32 class) 0 (i32 alt).
Definition VMAdvance (skip : bool) : ExternalVMInstr :=
  mkInstr ExternalVMOpAdvance (if skip then 1 else 0) 0 0.
Definition VMMarkEnd : ExternalVMInstr := mkInstr ExternalVMOpMarkEnd 0 0 0.
Definition VMEmit (sym : Z) : ExternalVMInstr := mkInstr ExternalVMOpEmit (i32 sym) 0 0.

(** ** What the validator promises *)

Definition target_wf (codeLen target : Z) : Prop := 0 ≤ target < codeLen.

(** An instruction with its operands in range and its branches inside the
    program. *)
Definition instr_wf (codeLen : Z) (ins : ExternalVMInstr) : Prop :=
  match iOp ins with
  | ExternalVMOpFail | ExternalVMOpMarkEnd | ExternalVMOpAdvance | ExternalVMOpEmit => True
  | ExternalVMOpJump => target_wf codeLen (iA ins)
  | ExternalVMOpRequireValid | ExternalVMOpRequireStateEq =>
      0 ≤ iA ins ∧ target_wf codeLen (iAlt ins)
  | ExternalVMOpSetState => 0 ≤ iA ins
  | ExternalVMOpIfRuneEq => target_wf codeLen (iAlt ins)
  | ExternalVMOpIfRuneInRange => iA ins ≤ iB ins ∧ target_wf codeLen (iAlt ins)
  | ExternalVMOpIfRuneClass => 0 ≤ iA ins ≤ 4 ∧ target_wf codeLen (iAlt ins)
  | ExternalVMOpUnknown _ => False
  end.

Record program_wf (p : ExternalVMProgram) : Prop := {
  pw_code : Code p ≠ [];
  pw_steps : 0 ≤ MaxSteps p;
  pw_instrs : Forall (instr_wf (len (Code p))) (Code p) }.

Lemma validate_instr_None codeLen i ins : validate_instr codeLen i ins = None ↔ instr_wf codeLen ins.
Proof.
  unfold validate_instr, instr_wf, validateExternalVMTarget, target_wf.
  destruct (iOp ins); try done; zcases; cbn; split; intros; try done; lia.
Qed.

Lemma validate_code_None codeLen i code :
  validate_code codeLen i code = None ↔ Forall (instr_wf codeLen) code.
Proof.
  revert i. induction code as [|ins code IH]; intros i; cbn; [by split; [constructor|]|].
  rewrite list.Forall_cons, <-(validate_instr_None _ i), <-(IH (i + 1)).
  destruct (validate_instr codeLen i ins); split; [done|by intros []|by intros|by intros []].
Qed.

(** ** Steps of the machine *)

Section semantics.
Context (isSpace isDigit isLetter : Z → bool) (code : list ExternalVMInstr) (valid : list bool).

(** One instruction.  Conditional instructions go to the next instruction when
    their condition holds and to [Alt] otherwise. *)
Inductive vm_step : VM → VM → Prop :=
| step_jump m ins :
    zget code (vPC m) = Some ins → iOp ins = ExternalVMOpJump →
    vm_step m (mkVM (iA ins) (vState m) (vLexer m))
| step_branch m ins c :
    zget code (vPC m) = Some ins → vm_cond ins m c →
    vm_step m (mkVM (if c : bool then vPC m + 1 else iAlt ins) (vState m) (vLexer m))
| step_set_state m ins :
    zget code (vPC m) = Some ins → iOp ins = ExternalVMOpSetState →
    vm_step m (mkVM (vPC m + 1) (u32 (iA ins)) (vLexer m))
| step_advance m ins l :
    zget code (vPC m) = Some ins → iOp ins = ExternalVMOpAdvance →
    Advance (negb (iA ins =? 0)) (vLexer m) = Ret l →
    vm_step m (mkVM (vPC m + 1) (vState m) l)
| step_mark_end m ins :
    zget code (vPC m) = Some ins → iOp ins = ExternalVMOpMarkEnd →
    vm_step m (mkVM (vPC m + 1) (vState m) (MarkEnd (vLexer m)))
with vm_cond : ExternalVMInstr → VM → bool → Prop :=
| cond_valid ins m c :
    iOp ins = ExternalVMOpRequireValid → c = default false (zget valid (iA ins)) → vm_cond ins m c
| cond_state ins m c :
    iOp ins = ExternalVMOpRequireStateEq → c = (vState m =? u32 (iA ins)) → vm_cond ins m c
| cond_rune ins m r c :
    iOp ins = ExternalVMOpIfRuneEq → Lookahead (vLexer m) = Ret r → c = (r =? iA ins) →
    vm_cond ins m c
| cond_range ins m r c :
    iOp ins = ExternalVMOpIfRuneInRange → Lookahead (vLexer m) = Ret r →
    c = ((iA ins <=? r) && (r <=? iB ins)) → vm_cond ins m c
| cond_class ins m r c :
    iOp ins = ExternalVMOpIfRuneClass → Lookahead (vLexer m) = Ret r →
    c = matchesExternalVMRuneClass isSpace isDigit isLetter r (iA ins) → vm_cond ins m c.

(** The machine stands at an [Emit] of [sym]. *)
Definition emits (m : VM) (sym : Z) : Prop :=
  ∃ ins, zget code (vPC m) = Some ins ∧ iOp ins = ExternalVMOpEmit ∧ sym = u16 (iA ins).

Lemma vm_cond_det ins m c c' : vm_cond ins m c → vm_cond ins m c' → c = c'.
Proof. destruct 1; inversion 1; congruence. Qed.

Lemma vm_step_det m m1 m2 : vm_step m m1 → vm_step m m2 → m1 = m2.
Proof.
  destruct 1 as [m ins Hi Ho|m ins c Hi Hc|m ins Hi Ho|m ins l Hi Ho Hl|m ins Hi Ho];
    inversion 1 as [? ins' Hi' Ho'|? ins' c' Hi' Hc'|? ins' Hi' Ho'|? ins' l' Hi' Ho' Hl'|? ins' Hi' Ho'];
    simplify_eq; try congruence;
    try (match goal with H : vm_cond _ _ _ |- _ => destruct H; congruence end).
  by rewrite (vm_cond_det _ _ _ _ Hc Hc').
Qed.

Lemma emits_stuck m sym m' : emits m sym → ¬ vm_step m m'.
Proof.
  intros (ins & Hi & Ho & _) Hs.
  destruct Hs as [? ? Hi'|? ? ? Hi' Hc|? ? Hi'|? ? ? Hi'|? ? Hi']; rewrite Hi in Hi';
    simplify_eq; try congruence. destruct Hc; congruence.
Qed.

Context (Hwf : Forall (instr_wf (len code)) code) (from : Z).

(** What executing an instruction leaves behind: a step of the machine, the
    emission, or a stop. *)
Definition exec_outcome (m m' : VM) (res : option bool) : Prop :=
  xl_ok from (vLexer m') ∧ xSource (vLexer m') = xSource (vLexer m) ∧
  match res with
  | None => vm_step m m' ∧ 0 ≤ vPC m' ≤ len code
  | Some true => ∃ sym, emits m sym ∧
      m' = mkVM (vPC m) (vState m) (SetResultSymbol sym (vLexer m))
  | Some false => m' = m ∧ (∀ y, ¬ vm_step m y) ∧ (∀ sym, ¬ emits m sym)
  end.

Lemma branch_outcome m ins c :
  zget code (vPC m) = Some ins → xl_ok from (vLexer m) → vm_cond ins m c →
  target_wf (len code) (iAlt ins) →
  exec_outcome m (mkVM (if c then vPC m + 1 else iAlt ins) (vState m) (vLexer m)) None.
Proof.
  intros Hi Hl Hc Ht. pose proof (zget_Some_range _ _ _ Hi). unfold target_wf in Ht.
  split; [done|]. split; [done|]. split; [by eapply step_branch|]. destruct c; cbn; lia.
Qed.

Lemma next_outcome m ins st l :
  zget code (vPC m) = Some ins → xl_ok from l → xSource l = xSource (vLexer m) →
  vm_step m (mkVM (vPC m + 1) st l) → exec_outcome m (mkVM (vPC m + 1) st l) None.
Proof.
  intros Hi Hl Hs Hst. pose proof (zget_Some_range _ _ _ Hi).
  split; [done|]. split; [done|]. split; [done|]. cbn. lia.
Qed.

Lemma fail_outcome m ins :
  zget code (vPC m) = Some ins → xl_ok from (vLexer m) → iOp ins = ExternalVMOpFail →
  exec_outcome m m (Some false).
Proof.
  intros Hi Hl Ho. split_and!; try done.
  - intros y Hs. destruct Hs as [? ? Hi'|? ? ? Hi' Hc|? ? Hi'|? ? ? Hi'|? ? Hi']; rewrite Hi in Hi';
      simplify_eq; try congruence. destruct Hc; congruence.
  - intros sym (ins' & Hi' & Ho' & _). congruence.
Qed.

(** A valid program's instruction never panics, whatever symbols are valid. *)
Lemma vm_exec_spec m ins :
  zget code (vPC m) = Some ins → xl_ok from (vLexer m) →
  ∃ m' res, vm_exec isSpace isDigit isLetter ins valid m = Ret (m', res) ∧ exec_outcome m m' res.
Proof using Hwf.
  intros Hi Hl. pose proof (Forall_zget _ _ _ _ Hwf Hi) as Hw.
  pose proof (branch_outcome m ins) as Hbranch.
  destruct (Lookahead_ok from _ Hl) as [r Hrune].
  unfold vm_exec. rewrite Hrune. destruct (iOp ins) eqn:Ho; unfold instr_wf in Hw; rewrite Ho in Hw;
    cbn [mbind go_bind].
  - do 2 eexists. split; [done|]. by eapply fail_outcome.
  - do 2 eexists. split; [done|]. unfold target_wf in Hw. split_and!; try done; [|cbn; lia..].
    by eapply step_jump.
  - replace (if iA ins <? len valid then index valid (iA ins) else Ret false)
      with (Ret (default false (zget valid (iA ins)))).
    + do 2 eexists. split; [done|]. apply Hbranch; [done..|by apply cond_valid|apply Hw].
    + unfold index. destruct (Z.ltb_spec (iA ins) (len valid)) as [Hv|Hv].
      * destruct (zget_in_range valid (iA ins)) as [v ->]; [lia|done].
      * by rewrite (proj2 (zget_None valid (iA ins))) by lia.
  - do 2 eexists. split; [done|]. apply Hbranch; [done..|by apply cond_state|apply Hw].
  - do 2 eexists. split; [done|]. eapply next_outcome; [done..|]. by eapply step_set_state.
  - do 2 eexists. split; [done|]. apply Hbranch; [done..|by eapply cond_rune|apply Hw].
  - do 2 eexists. split; [done|]. apply Hbranch; [done..|by eapply cond_range|apply Hw].
  - do 2 eexists. split; [done|]. apply Hbranch; [done..| |apply Hw].
    eapply cond_class; [done..|]. unfold u8. rewrite Z.mod_small; [done|lia].
  - destruct (Advance_ok from _ (negb (iA ins =? 0)) Hl) as (l & Hadv & Hl' & Hsrc). rewrite Hadv.
    do 2 eexists. split; [done|]. eapply next_outcome; [done..|]. by eapply step_advance.
  - do 2 eexists. split; [done|]. eapply next_outcome; [done|by apply MarkEnd_ok|done|].
    by eapply step_mark_end.
  - do 2 eexists. split; [done|]. split_and!; [by apply SetResultSymbol_ok|done|].
    exists (u16 (iA ins)). split; [by exists ins|done].
  - done.
Qed.

(** The loop follows the machine for at most [n] instructions. *)
Lemma vm_loop_spec n m :
  0 ≤ vPC m → xl_ok from (vLexer m) →
  ∃ m' ok, vm_loop isSpace isDigit isLetter code valid n m = Ret (m', ok) ∧
    xl_ok from (vLexer m') ∧ xSource (vLexer m') = xSource (vLexer m) ∧
    if (ok : bool) then
      ∃ k m1 sym, (k < n)%nat ∧ nsteps vm_step k m m1 ∧ emits m1 sym ∧
        m' = mkVM (vPC m1) (vState m1) (SetResultSymbol sym (vLexer m1))
    else ∀ k m1 sym, (k < n)%nat → nsteps vm_step k m m1 → ¬ emits m1 sym.
Proof using Hwf.
  revert m. induction n as [|n IH]; intros m Hpc Hl; cbn [vm_loop].
  { exists m, false. split_and!; try done. lia. }
  destruct (_ || _) eqn:Hout.
  { exists m, false. split_and!; try done. intros k m1 sym Hk Hs.
    assert (zget code (vPC m) = None) as Hn by (apply zget_None; lia).
    destruct Hs as [m|k m m2 m1 Hs _]; [intros (ins & ? & _); congruence|].
    destruct Hs; congruence. }
  destruct (index_in_range code (vPC m)) as (ins & -> & Hi); [lia|]. cbn [mbind go_bind].
  destruct (vm_exec_spec m ins Hi Hl) as (m' & res & -> & Hl' & Hs' & Hres). cbn [mbind go_bind].
  destruct res as [[]|].
  - destruct Hres as (sym & He & Hm'). exists m', true. split_and!; try done.
    exists 0%nat, m, sym. split_and!; [lia|constructor|done|done].
  - destruct Hres as (-> & Hstuck & Hno). exists m, false. split_and!; try done.
    intros k m1 sym _ Hs. destruct Hs as [m|k m m2 m1 Hs _]; [apply Hno|]. by apply Hstuck in Hs.
  - destruct Hres as [Hstep Hpc']. destruct (IH m') as (m2 & ok & -> & Hl2 & Hs2 & Hok); [lia|done|].
    exists m2, ok. split_and!; [done|done|by rewrite Hs2|]. destruct ok.
    + destruct Hok as (k & m1 & sym & ? & ? & ? & ?). exists (S k), m1, sym.
      split_and!; [lia|by eapply nsteps_l|done|done].
    + intros k m1 sym Hk Hs. destruct Hs as [m|k m m3 m1 Hs Hs3].
      * intros He. by eapply emits_stuck.
      * rewrite <-(vm_step_det _ _ _ Hstep Hs) in Hs3. apply (Hok k); [lia|done].
Qed.
End semantics.

Lemma validate_program p : validateExternalVMProgram p = None ↔ program_wf p.
Proof.
  unfold validateExternalVMProgram. split.
  - intros H. destruct (Z.eqb_spec (len (Code p)) 0) as [|Hc]; [done|].
    destruct (Z.ltb_spec (MaxSteps p) 0); [done|]. apply validate_code_None in H.
    split; [by intros Hn; rewrite Hn in Hc|lia|done].
  - intros [Hc Hs Hi]. destruct (Z.eqb_spec (len (Code p)) 0) as [H0|_].
    { destruct (Code p); [done|]. rewrite len_cons in H0. pose proof (len_nonneg l). lia. }
    destruct (Z.ltb_spec (MaxSteps p) 0); [lia|]. by apply validate_code_None.
Qed.

Lemma get_put_u32_le v :
  0 ≤ v < 2 ^ 32 →
  get_u32_le (u8 v) (u8 (Z.shiftr v 8)) (u8 (Z.shiftr v 16)) (u8 (Z.shiftr v 24)) = v.
Proof.
  intros Hv. unfold get_u32_le, u8. rewrite !Z.shiftr_div_pow2 by lia.
  change (2 ^ 8) with 256. change (2 ^ 16) with 65536. change (2 ^ 24) with 16777216.
  rewrite (Z.lor_comm (v mod 256)), lor_shiftl_add by zdiv.
  rewrite (Z.lor_comm _ (Z.shiftl _ 16)), lor_shiftl_add by zdiv.
  rewrite (Z.lor_comm _ (Z.shiftl _ 24)), lor_shiftl_add by zdiv. zdiv.
Qed.

(** The instruction constructors take a [uint32] state but store an [int32]:
    from [2^31] on the operand is negative and the validator refuses it. *)
Lemma VMSetState_high_state_rejected state i codeLen :
  2 ^ 31 ≤ state < 2 ^ 32 →
  validate_instr codeLen i (VMSetState state) = Some (ErrStateValue i (state - 2 ^ 32)).
Proof.
  intros Hs. unfold validate_instr, VMSetState. cbn [iOp iA].
  assert (i32 state = state - 2 ^ 32) as -> by (unfold i32; zdiv).
  by destruct (Z.ltb_spec (state - 2 ^ 32) 0); [|lia].
Qed.

(** A program that skips blanks and emits symbol 3 on the letter [x]. *)
Definition sample_program : ExternalVMProgram :=
  mkProgram [VMIfRuneEq 32 3; VMAdvance true; VMJump 0; VMIfRuneEq 120 7; VMAdvance false;
             VMMarkEnd; VMEmit 3; VMFail] 0.

Definition ascii_space (r : Z) : bool := (r =? 32) || ((9 <=? r) && (r <=? 13)).
Definition ascii_digit (r : Z) : bool := (48 <=? r) && (r <=? 57).
Definition ascii_letter (r : Z) : bool := ((65 <=? r) && (r <=? 90)) || ((97 <=? r) && (r <=? 122)).

Lemma blanks_x_ok : xl_ok 0 (newExternalLexer [32; 32; 120] 0 0 0).
Proof.
  apply newExternalLexer_ok; [|vm_compute; intuition discriminate|done].
  by repeat (constructor; [unfold byte_ok; lia|]).
Qed.

(** C27.  For a program the validator accepts, [Scan] returns without a
    run-time panic whatever symbols are valid, and it is the bounded run of the
    machine: it succeeds exactly when the machine reaches an [Emit] in fewer
    than the step limit, with the lexer and the payload state the machine has
    there; the lexer keeps its invariant in every case. *)
Theorem Scan_is_bounded_run isSpace isDigit isLetter p payload lexer valid from :
  validateExternalVMProgram p = None → xl_ok from lexer →
  ∃ ok payload' lexer',
    Scan isSpace isDigit isLetter p payload lexer valid = Ret (ok, payload', lexer') ∧
    xl_ok from lexer' ∧ xSource lexer' = xSource lexer ∧ (payload = None → payload' = None) ∧
    (ok = true ↔ ∃ k m sym, Z.of_nat k < max_steps p ∧
       nsteps (vm_step isSpace isDigit isLetter (Code p) valid) k
         (mkVM 0 (default 0 payload) lexer) m ∧ emits (Code p) m sym) ∧
    (ok = true → ∃ k m sym,
       nsteps (vm_step isSpace isDigit isLetter (Code p) valid) k
         (mkVM 0 (default 0 payload) lexer) m ∧ emits (Code p) m sym ∧
       lexer' = SetResultSymbol sym (vLexer m) ∧ payload' = (λ _, vState m) <$> payload).
Proof.
  intros [Hc Hs Hi]%validate_program Hl. unfold Scan.
  destruct (Z.eqb_spec (len (Code p)) 0) as [H0|_].
  { destruct (Code p); [done|]. rewrite len_cons in H0. pose proof (len_nonneg l). lia. }
  destruct (vm_loop_spec isSpace isDigit isLetter (Code p) valid Hi from (Z.to_nat (max_steps p))
              (mkVM 0 (default 0 payload) lexer)) as (m & ok & -> & Hl' & Hsrc & Hok); [done..|].
  cbn [mbind go_bind]. do 3 eexists. split; [done|].
  split_and!; [done|done|by intros ->| |].
  - destruct ok.
    + destruct Hok as (k & m1 & sym & Hk & ? & ? & _). split; [|done]. intros _.
      exists k, m1, sym. split_and!; [lia|done..].
    + split; [done|]. intros (k & m1 & sym & Hk & Hr & He). exfalso.
      by apply (Hok k m1 sym); [lia|..].
  - intros ->. destruct Hok as (k & m1 & sym & Hk & ? & ? & ->). by exists k, m1, sym.
Qed.

Lemma Scan_is_bounded_run_witness :
  ∃ ok payload' lexer',
    Scan ascii_space ascii_digit ascii_letter sample_program (Some 0)
      (newExternalLexer [32; 32; 120] 0 0 0) [true] = Ret (ok, payload', lexer') ∧
    xl_ok 0 lexer' ∧ ok = true.
Proof.
  destruct (Scan_is_bounded_run ascii_space ascii_digit ascii_letter sample_program (Some 0)
              (newExternalLexer [32; 32; 120] 0 0 0) [true] 0) as (ok & p' & l' & He & Hl & _);
    [vm_compute; reflexivity|exact blanks_x_ok|].
  exists ok, p', l'. split; [exact He|]. split; [exact Hl|].
  vm_compute in He. injection He as <-. reflexivity.
Defined.

(** The validator accepts exactly the programs that are not empty, have
    a non-negative step limit, known opcodes, operands in range and branch
    targets inside the program. *)
Theorem validate_accepts_wellformed p :
  validateExternalVMProgram p = None ↔
  Code p ≠ [] ∧ 0 ≤ MaxSteps p ∧ Forall (instr_wf (len (Code p))) (Code p).
Proof.
  rewrite validate_program. split; [intros [? ? ?]; auto|intros (? & ? & ?); by split].
Qed.

(** A payload state survives serialisation: what [Deserialize] reads back
    from the buffer [Serialize] filled is the state that was saved, four bytes
    are written, and the rest of the buffer is untouched. *)
Theorem payload_roundtrip state other buf :
  0 ≤ state < 2 ^ 32 → 4 ≤ len buf →
  (Serialize (Some state) buf).1 = 4 ∧
  len (Serialize (Some state) buf).2 = len buf ∧
  drop 4 (Serialize (Some state) buf).2 = drop 4 buf ∧
  Deserialize (Some other) (Serialize (Some state) buf).2 = Some state.
Proof.
  intros Hs Hb. unfold Serialize. destruct (Z.ltb_spec (len buf) 4); [lia|]. cbn.
  split_and!; [done| |by rewrite drop_0|by rewrite get_put_u32_le].
  rewrite !len_cons. pose proof (len_drop buf 4). change (Z.to_nat 4) with 4%nat in *. lia.
Qed.

Lemma payload_roundtrip_witness :
  Deserialize (Some 9) (Serialize (Some 0x01020304) [0; 0; 0; 0; 7]).2 = Some 0x01020304.
Proof. apply payload_roundtrip; [lia|vm_compute; discriminate]. Defined.
