(* ===== verification/ParseTables.v ===== *)
(** * Parse-table lookup

    parser_tables.go: the compressed small parse table, the tables derived from
    it (dense token rows and sorted overflow pairs), the lookups, and the
    enumeration of a state's actions.  [visit_row] lists the (symbol, value)
    pairs in the order in which the nested loops over a compressed row meet
    them; every loop of the source over such a row is a fold over that list. *)

From Stdlib Require Import ZArith Lia ZifyBool Sorted.
From stdpp Require Import base tactics list numbers option gmap strings.
From S2P Require Import Prelude SliceSort.
Local Open Scope Z_scope.

Inductive ParseActionType :=
| ParseActionShift | ParseActionReduce | ParseActionAccept | ParseActionRecover.

#[export] Instance ParseActionType_eq_dec : EqDecision ParseActionType.
Proof. solve_decision. Defined.

Record ParseAction := mkParseAction {
  paType : ParseActionType; paState : Z; paSymbol : Z; paChildCount : Z;
  paDynamicPrecedence : Z; paProductionID : Z; paExtra : bool; paExtraChain : bool;
  paRepetition : bool }.

Record ParseActionEntry := mkParseActionEntry { peReusable : bool; peActions : list ParseAction }.

(** The fields of [Language] the lookups read. *)
Record Language := mkLanguage {
  Name : string;
  GeneratedByGrammargen : bool;
  SymbolCount : Z;
  TokenCount : Z;
  StateCount : Z;
  LargeStateCount : Z;
  InitialState : Z;
  ParseTable : list (list Z);
  SmallParseTable : list Z;
  SmallParseTableMap : list Z;
  ParseActions : list ParseActionEntry;
  LargeStateGotos : gmap Z Z;
  ExternalSymbols : list Z;
  ExternalLexStates : list (list bool);
  LexModeCount : Z }.

Definition smallTokenDenseThreshold : Z := 8.
Definition cobolSmallTokenDenseThreshold : Z := 12.
Definition typeScriptSmallTokenDenseThreshold : Z := 4.

Record smallActionPair := mkPair { sym : Z; val : Z }.

#[export] Instance smallActionPair_eq_dec : EqDecision smallActionPair.
Proof. solve_decision. Defined.

Definition isCobolLanguage (lang : Language) : bool :=
  String.eqb (Name lang) "cobol" || String.eqb (Name lang) "COBOL".

Definition compactSmallTokenRows (lang : Language) : bool := isCobolLanguage lang.

Definition smallDenseLookupSymbolLimit (lang : Language) : Z :=
  if GeneratedByGrammargen lang && (TokenCount lang <? SymbolCount lang)
  then SymbolCount lang else TokenCount lang.

Definition languageDenseLimit (lang : Language) : Z :=
  if 0 <? LargeStateCount lang then LargeStateCount lang else len (ParseTable lang).

(** ** Walking a compressed row *)

(** The inner loop: at most [n] symbols from [pos], and the position after. *)
Fixpoint visit_syms (table : list Z) (n : nat) (pos : Z) : list Z * Z :=
  match n with
  | O => ([], pos)
  | S n =>
    match zget table pos with
    | None => ([], pos)
    | Some s => let '(syms, pos) := visit_syms table n (pos + 1) in (s :: syms, pos)
    end
  end.

(** The outer loop over [n] groups, each a value, a count and the symbols. *)
Fixpoint visit_groups (table : list Z) (n : nat) (pos : Z) : list smallActionPair :=
  match n with
  | O => []
  | S n =>
    match zget table pos, zget table (pos + 1) with
    | Some v, Some count =>
      let '(syms, pos) := visit_syms table (Z.to_nat count) (pos + 2) in
      map (λ s, mkPair s v) syms ++ visit_groups table n pos
    | _, _ => []
    end
  end.

Definition visit_row (table : list Z) (offset : Z) : list smallActionPair :=
  match zget table offset with
  | None => []
  | Some groupCount => visit_groups table (Z.to_nat groupCount) (offset + 1)
  end.

(** ** Dense token rows *)

(** [if row[sym] == 0 { used++ }; row[sym] = val] for symbols below the limit. *)
Definition fill_used (limit : Z) (acc : list Z * Z) (p : smallActionPair) : list Z * Z :=
  let '(row, used) := acc in
  if (0 <=? sym p) && (sym p <? limit) then
    (<[Z.to_nat (sym p) := val p]> row,
     if default 0 (zget row (sym p)) =? 0 then used + 1 else used)
  else acc.

Definition full_row (lang : Language) (threshold offset : Z) : list Z :=
  let limit := smallDenseLookupSymbolLimit lang in
  let '(row, used) :=
    foldl (fill_used limit) (make limit 0, 0) (visit_row (SmallParseTable lang) offset) in
  if threshold <? used then row else [].

Definition buildSmallTokenLookupFullRows (lang : Language) (threshold : Z) : list (list Z) :=
  map (full_row lang threshold) (SmallParseTableMap lang).

(** The first pass of the compact layout: distinct token symbols and the
    largest one; [seen] is the stamp array restricted to the current stamp. *)
Definition note_seen (tokenCount : Z) (acc : gset Z * Z * Z) (p : smallActionPair) : gset Z * Z * Z :=
  let '(seen, used, maxSym) := acc in
  if (0 <=? sym p) && (sym p <? tokenCount) then
    if bool_decide (sym p ∈ seen) then acc
    else ({[sym p]} ∪ seen, used + 1, if maxSym <? sym p then sym p else maxSym)
  else acc.

Definition fill_row_at (row : list Z) (p : smallActionPair) : list Z :=
  if (0 <=? sym p) && (sym p <? len row) then <[Z.to_nat (sym p) := val p]> row else row.

Definition compact_row (lang : Language) (offset : Z) : list Z :=
  let visited := visit_row (SmallParseTable lang) offset in
  let '(_, used, maxSym) := foldl (note_seen (TokenCount lang)) (∅, 0, -1) visited in
  if cobolSmallTokenDenseThreshold <? used
  then foldl fill_row_at (make (maxSym + 1) 0) visited else [].

Definition buildSmallTokenLookup (lang : Language) : list (list Z) :=
  if (TokenCount lang =? 0) || (len (SmallParseTableMap lang) =? 0) || (len (SmallParseTable lang) =? 0)
  then []
  else if negb (compactSmallTokenRows lang) then
    let threshold :=
      if GeneratedByGrammargen lang then 0
      else if String.eqb (Name lang) "typescript" then typeScriptSmallTokenDenseThreshold
      else smallTokenDenseThreshold in
    buildSmallTokenLookupFullRows lang threshold
  else map (compact_row lang) (SmallParseTableMap lang).

(** ** Overflow pairs *)

(** The counting pass: symbols at or beyond the dense limit, with the declared
    counts taken at face value when there is no dense row. *)
Fixpoint count_groups (table : list Z) (limit : Z) (n : nat) (countPos total : Z) : Z :=
  match n with
  | O => total
  | S n =>
    match zget table (countPos + 1) with
    | None => 0
    | Some symbolCount =>
      if limit =? 0
      then count_groups table limit n (countPos + 2 + symbolCount) (total + symbolCount)
      else
        let '(syms, countPos) := visit_syms table (Z.to_nat symbolCount) (countPos + 2) in
        count_groups table limit n countPos (total + len (filter (λ s, limit ≤ s) syms))
    end
  end.

Section lookups.
Context `{SliceSort}.

Definition overflow_row (table : list Z) (limit offset : Z) : list smallActionPair :=
  match zget table offset with
  | None => []
  | Some groupCount =>
    if count_groups table limit (Z.to_nat groupCount) (offset + 1) 0 =? 0 then []
    else
      sort_slice (λ a b, sym a <? sym b)
        (filter (λ p, limit = 0 ∨ limit ≤ sym p)
           (visit_groups table (Z.to_nat groupCount) (offset + 1)))
  end.

Definition buildSmallLookup (lang : Language) (smallTokenLookup : list (list Z))
  : list (list smallActionPair) :=
  imap (λ i offset, overflow_row (SmallParseTable lang)
                      (len (default [] (smallTokenLookup !! i))) offset)
    (SmallParseTableMap lang).

(** ** The parser's view of the tables *)

Record parserActionTableView := mkView {
  language : Language;
  denseLimit : Z;
  smallBase : Z;
  smallTokenLookup : list (list Z);
  smallLookup : list (list smallActionPair) }.

(** The lookups that [buildParserDerivedTables] builds and the fields [NewParser] sets
    beside them; the classes of actions it also derives are not modelled. *)
Definition derived_view (lang : Language) : parserActionTableView :=
  let build := (0 <? len (SmallParseTableMap lang)) && (0 <? len (SmallParseTable lang)) in
  let tokens := if build then buildSmallTokenLookup lang else [] in
  let small := if build then buildSmallLookup lang tokens else [] in
  mkView lang (languageDenseLimit lang) (LargeStateCount lang) tokens small.

(** The ordered scan of at most eight pairs. *)
Fixpoint scan_pairs (pairs : list smallActionPair) (target : Z) : Z :=
  match pairs with
  | [] => 0
  | p :: pairs =>
    if sym p =? target then val p
    else if target <? sym p then 0
    else scan_pairs pairs target
  end.

(** [for lo < hi]; [hi - lo] iterations always suffice. *)
Fixpoint binary_search (pairs : list smallActionPair) (target : Z) (fuel : nat) (lo hi : Z) : go Z :=
  if lo <? hi then
    match fuel with
    | O => NoFuel
    | S fuel =>
      let mid := Z.shiftr (lo + hi) 1 in
      p ← index pairs mid;
      if sym p <? target then binary_search pairs target fuel (mid + 1) hi
      else binary_search pairs target fuel lo mid
    end
  else Ret lo.

Definition lookup_pairs (pairs : list smallActionPair) (target : Z) : go Z :=
  if len pairs <=? 8 then Ret (scan_pairs pairs target) else
  lo ← binary_search pairs target (length pairs) 0 (len pairs);
  if lo <? len pairs then
    p ← index pairs lo;
    Ret (if sym p =? target then val p else 0)
  else Ret 0.

(** The linear scan of the compressed row. *)
Definition lookup_row (table : list Z) (offset target : Z) : Z :=
  match list_find (λ p, sym p = target) (visit_row table offset) with
  | Some (_, p) => val p
  | None => 0
  end.

Definition lookupActionIndexSmall (v : parserActionTableView) (state s : Z) : go Z :=
  let lang := language v in
  let smallIdx := state - smallBase v in
  match zget (SmallParseTableMap lang) smallIdx with
  | None => Ret 0
  | Some offset =>
    let row := default [] (zget (smallTokenLookup v) smallIdx) in
    if s <? len row then index row s
    else
      match default [] (zget (smallLookup v) smallIdx) with
      | [] => Ret (lookup_row (SmallParseTable lang) offset s)
      | pairs => lookup_pairs pairs s
      end
  end.

Definition lookupActionIndex (v : parserActionTableView) (state s : Z) : go Z :=
  if state <? denseLimit v then
    Ret (default 0 (row ← zget (ParseTable (language v)) state; zget row s))
  else lookupActionIndexSmall v state s.

Definition lookupAction (v : parserActionTableView) (state s : Z) : go (option ParseActionEntry) :=
  idx ← lookupActionIndex v state s;
  Ret (if idx =? 0 then None else zget (ParseActions (language v)) idx).

Definition largeStateGotoKey (state s : Z) : Z := Z.lor (u64 (Z.shiftl state 32)) s.

Definition lookupLargeStateGoto (lang : Language) (state s : Z) : Z :=
  default 0 (LargeStateGotos lang !! largeStateGotoKey state s).

Definition lookupGoto (v : parserActionTableView) (state s : Z) : go Z :=
  let lang := language v in
  let nonterminal := (0 <? TokenCount lang) && (TokenCount lang <=? s) in
  let target := if nonterminal then lookupLargeStateGoto lang state s else 0 in
  if negb (target =? 0) then Ret target else
  raw ← lookupActionIndex v state s;
  if raw =? 0 then Ret 0
  else if nonterminal && (0 <? StateCount lang) && (0 <? InitialState lang) then Ret raw
  else
    Ret (match zget (ParseActions lang) raw with
         | Some entry =>
           match peActions entry with
           | a :: _ => if bool_decide (paType a = ParseActionShift) then paState a else 0
           | [] => 0
           end
         | None => 0
         end).

(** The pairs [forEachActionIndexInState] hands to a visitor that never stops. *)
Definition dense_entries (row : list Z) : list (Z * Z) :=
  filter (λ p, p.2 ≠ 0) (imap (λ i idx, (Z.of_nat i, idx)) row).

Definition action_indices (v : parserActionTableView) (state : Z) : list (Z * Z) :=
  let lang := language v in
  if state <? denseLimit v then
    match zget (ParseTable lang) state with
    | None => []
    | Some row => dense_entries row
    end
  else
    let smallIdx := state - smallBase v in
    match zget (SmallParseTableMap lang) smallIdx with
    | None => []
    | Some offset =>
      let row := default [] (zget (smallTokenLookup v) smallIdx) in
      let pairs := default [] (zget (smallLookup v) smallIdx) in
      if (0 <? len row) || (0 <? len pairs) then
        dense_entries row ++ map (λ p, (sym p, val p)) pairs
      else map (λ p, (sym p, val p)) (visit_row (SmallParseTable lang) offset)
    end.

(** The visitor is called in that order until it returns false. *)
Fixpoint visit_until {S} (visit : S → Z → Z → S * bool) (st : S) (l : list (Z * Z)) : S :=
  match l with
  | [] => st
  | (s, idx) :: l =>
    let '(st, continue) := visit st s idx in
    if (continue : bool) then visit_until visit st l else st
  end.

Definition forEachActionIndexInState {S} (v : parserActionTableView) (state : Z)
    (visit : S → Z → Z → S * bool) (st : S) : S :=
  visit_until visit st (action_indices v state).

(** ** External symbols valid in a state *)

(** The states the parser can be in, when the language does not say. *)
Definition external_state_count (v : parserActionTableView) : Z :=
  let lang := language v in
  if StateCount lang =? 0 then
    Z.max (Z.max (len (ParseTable lang)) (smallBase v + len (SmallParseTableMap lang)))
      (LexModeCount lang)
  else StateCount lang.

(** The indices of the external symbols with an action in [state]. *)
Fixpoint external_row (v : parserActionTableView) (state i : Z) (syms : list Z) : go (list Z) :=
  match syms with
  | [] => Ret []
  | s :: syms =>
    idx ← lookupActionIndex v state s;
    rest ← external_row v state (i + 1) syms;
    Ret (if idx =? 0 then rest else u16 i :: rest)
  end.

Fixpoint external_rows (v : parserActionTableView) (states : list Z) : go (list (list Z)) :=
  match states with
  | [] => Ret []
  | st :: states =>
    row ← external_row v st 0 (ExternalSymbols (language v));
    rest ← external_rows v states;
    Ret (row :: rest)
  end.

Definition buildExternalValidByState (v : parserActionTableView) : go (option (list (list Z))) :=
  let lang := language v in
  if (len (ExternalSymbols lang) =? 0) || (0 <? len (ExternalLexStates lang)) then Ret None
  else if 65535 <? len (ExternalSymbols lang) then Ret None
  else if external_state_count v <=? 0 then Ret None
  else
    rows ← external_rows v (seqZ 0 (external_state_count v));
    Ret (Some rows).

Definition mask_bit (count : Z) (mask i : Z) : Z :=
  if (i <? 0) || (count <=? i) then mask else Z.lor mask (u64 (Z.shiftl 1 i)).

Definition buildExternalValidMaskByState (rows : list (list Z)) (externalSymbolCount : Z)
  : option (list Z) :=
  if (len rows =? 0) || (externalSymbolCount <=? 0) || (64 <? externalSymbolCount) then None
  else
    let masks := map (foldl (mask_bit externalSymbolCount) 0) rows in
    if existsb (λ m, negb (m =? 0)) masks then Some masks else None.
End lookups.
