(* ===== verification/ParseTablesCorrect.v ===== *)
(** * The derived parse tables answer like the compressed table

    Facts about ParseTables.v: the dense rows, the sorted overflow pairs and
    the binary search give the action index the linear scan of the compressed
    row gives; [forEachActionIndexInState] enumerates exactly those indices; the
    external-symbol masks hold exactly the symbols with an action. *)

From Stdlib Require Import ZArith Lia ZifyBool Sorted.
From stdpp Require Import base tactics list numbers option gmap strings.
From S2P Require Import Prelude SliceSort ParseTables.
Local Open Scope Z_scope.

(** The value of the first pair for a symbol. *)
Definition find_val (l : list smallActionPair) (d t : Z) : Z :=
  match list_find (λ p, sym p = t) l with Some (_, p) => val p | None => d end.

Lemma find_val_nil d t : find_val [] d t = d.
Proof. done. Qed.

Lemma find_val_cons p l d t :
  find_val (p :: l) d t = if decide (sym p = t) then val p else find_val l d t.
Proof.
  unfold find_val. cbn. case_decide; [done|].
  by destruct (list_find _ l) as [[i q]|].
Qed.

Lemma find_val_notin l d t : t ∉ map sym l → find_val l d t = d.
Proof.
  induction l as [|p l IH]; [done|]. cbn. rewrite not_elem_of_cons, find_val_cons.
  intros [Hne Hl]. rewrite decide_False by congruence. auto.
Qed.

Lemma find_val_in l d p : NoDup (map sym l) → p ∈ l → find_val l d (sym p) = val p.
Proof.
  induction l as [|q l IH]; [by intros _ ?%elem_of_nil|]. cbn. rewrite NoDup_cons.
  intros [Hq Hl] [->|Hp]%elem_of_cons; rewrite find_val_cons; [by rewrite decide_True|].
  rewrite decide_False; [auto|]. intros Heq. apply Hq. rewrite Heq. by apply list_elem_of_fmap_2.
Qed.

Lemma find_val_perm l l' d t : NoDup (map sym l) → l ≡ₚ l' → find_val l d t = find_val l' d t.
Proof.
  intros Hnd Hp. assert (NoDup (map sym l')) as Hnd' by (by rewrite <-Hp).
  destruct (decide (t ∈ map sym l)) as [(p & -> & Hin)%list_elem_of_fmap_1|Hno].
  - rewrite !find_val_in; auto. by rewrite <-Hp.
  - rewrite !find_val_notin; auto. by rewrite <-Hp.
Qed.

Lemma find_val_filter (P : smallActionPair → Prop) `{∀ p, Decision (P p)} l d t :
  (∀ p, sym p = t → P p) → find_val (filter P l) d t = find_val l d t.
Proof.
  intros HP. induction l as [|p l IH]; [done|]. rewrite find_val_cons, filter_cons.
  destruct (decide (P p)) as [Hp|Hp].
  - rewrite find_val_cons. by rewrite IH.
  - rewrite IH, decide_False; [done|]. intros ?%HP. done.
Qed.

Lemma lookup_row_find table offset t : lookup_row table offset t = find_val (visit_row table offset) 0 t.
Proof. done. Qed.

(** ** Searching sorted pairs *)

Definition sorted_pairs (l : list smallActionPair) : Prop := StronglySorted (λ p q, sym p ≤ sym q) l.

Lemma scan_pairs_find l t : sorted_pairs l → scan_pairs l t = find_val l 0 t.
Proof.
  induction 1 as [|p l Hl IH Hp]; [done|]. cbn. rewrite find_val_cons.
  destruct (Z.eqb_spec (sym p) t); [by rewrite decide_True|]. rewrite decide_False by done.
  destruct (Z.ltb_spec t (sym p)); [|done]. symmetry. apply find_val_notin.
  intros (q & -> & Hq)%list_elem_of_fmap_1. rewrite list.Forall_forall in Hp. specialize (Hp q Hq). lia.
Qed.

(** The loop ends at the first pair that is not below the target. *)
Lemma binary_search_spec l t fuel lo hi :
  sorted_pairs l → 0 ≤ lo ≤ hi → hi ≤ len l → hi - lo ≤ Z.of_nat fuel →
  (∀ i p, zget l i = Some p → i < lo → sym p < t) →
  (∀ i p, zget l i = Some p → hi ≤ i → t ≤ sym p) →
  ∃ r, binary_search l t fuel lo hi = Ret r ∧ 0 ≤ r ≤ len l ∧
    (∀ i p, zget l i = Some p → i < r → sym p < t) ∧
    (∀ i p, zget l i = Some p → r ≤ i → t ≤ sym p).
Proof.
  intros Hs. revert lo hi. induction fuel as [|fuel IH]; intros lo hi Hlh Hhl Hf Hlo Hhi; cbn.
  { destruct (Z.ltb_spec lo hi); [lia|]. exists lo. replace hi with lo in * by lia.
    split_and!; [done|lia..|done|done]. }
  destruct (Z.ltb_spec lo hi).
  2:{ exists lo. replace hi with lo in * by lia. split_and!; [done|lia..|done|done]. }
  rewrite Z.shiftr_div_pow2 by lia. change (2 ^ 1) with 2. set (mid := (lo + hi) / 2).
  assert (lo ≤ mid < hi) as Hm by (unfold mid; zdiv).
  destruct (index_in_range l mid) as (p & -> & Hp); [lia|]. cbn.
  assert (∀ i q, zget l i = Some q → i < mid → sym q ≤ sym p) as Hbelow
    by (intros i q Hq Hi; apply (StronglySorted_zget _ l i mid q p Hs Hq Hp Hi)).
  assert (∀ i q, zget l i = Some q → mid < i → sym p ≤ sym q) as Habove
    by (intros i q Hq Hi; apply (StronglySorted_zget _ l mid i p q Hs Hp Hq Hi)).
  destruct (Z.ltb_spec (sym p) t).
  - apply IH; [lia..| |done]. intros i q Hq Hi. destruct (decide (i = mid)) as [->|]; [congruence|].
    specialize (Hbelow i q Hq). lia.
  - apply IH; [lia..|done|]. intros i q Hq Hi. destruct (decide (i = mid)) as [->|]; [congruence|].
    specialize (Habove i q Hq). lia.
Qed.

Lemma lookup_pairs_find l t :
  sorted_pairs l → NoDup (map sym l) → lookup_pairs l t = Ret (find_val l 0 t).
Proof.
  intros Hs Hnd. unfold lookup_pairs. case_match; [by rewrite scan_pairs_find|].
  destruct (binary_search_spec l t (length l) 0 (len l)) as (r & -> & Hr & Hlo & Hhi);
    [done|pose proof (len_nonneg l); lia|lia|unfold len; lia| | |cbn].
  { intros i p ?%zget_Some_range. lia. }
  { intros i p ?%zget_Some_range. lia. }
  destruct (Z.ltb_spec r (len l)) as [Hlt|Hge].
  - destruct (index_in_range l r) as (p & -> & Hp); [lia|]. cbn. f_equal.
    destruct (Z.eqb_spec (sym p) t) as [<-|Hne].
    { symmetry. apply find_val_in; [done|]. by eapply zget_elem. }
    symmetry. apply find_val_notin. intros (q & -> & Hq)%list_elem_of_fmap_1.
    apply elem_zget in Hq as (i & _ & Hi). specialize (Hhi r p Hp ltac:(lia)).
    destruct (Z.lt_trichotomy i r) as [Hir|[->|Hir]]; [specialize (Hlo i q Hi Hir); lia|congruence|].
    pose proof (StronglySorted_zget _ l r i p q Hs Hp Hi Hir) as Hle. cbn in Hle. lia.
  - f_equal. symmetry. apply find_val_notin. intros (q & -> & Hq)%list_elem_of_fmap_1.
    apply elem_zget in Hq as (i & Hir & Hi). specialize (Hlo i q Hi). lia.
Qed.

(** ** Dense rows *)

Lemma len_fill_row_at row p : len (fill_row_at row p) = len row.
Proof. unfold fill_row_at. case_match; [apply len_insert|done]. Qed.

Lemma len_fill_rows l row : len (foldl fill_row_at row l) = len row.
Proof. revert row. induction l as [|p l IH]; intros row; cbn; [done|]. by rewrite IH, len_fill_row_at. Qed.

Lemma fill_used_row limit l row used :
  len row = limit → (foldl (fill_used limit) (row, used) l).1 = foldl fill_row_at row l.
Proof.
  revert row used. induction l as [|p l IH]; intros row used Hlen; cbn; [done|].
  unfold fill_row_at at 2. rewrite Hlen.
  destruct (_ && _); apply IH; by rewrite ?len_insert.
Qed.

(** With distinct symbols, the filled row holds the value of each symbol's
    pair and what it held before elsewhere. *)
Lemma fill_rows_get l row t d :
  NoDup (map sym l) → zget row t = Some d →
  zget (foldl fill_row_at row l) t = Some (find_val l d t).
Proof.
  revert row d. induction l as [|p l IH]; intros row d Hnd Hd; [done|].
  cbn in Hnd |- *. apply NoDup_cons in Hnd as [Hp Hnd]. rewrite find_val_cons.
  pose proof (zget_Some_range _ _ _ Hd). case_decide as Heq.
  - rewrite (IH _ (val p)); [by rewrite find_val_notin by (by rewrite <-Heq)|done|].
    unfold fill_row_at. rewrite Heq. destruct (_ && _) eqn:E; [by apply zget_insert_eq|lia].
  - apply IH; [done|]. unfold fill_row_at. destruct (_ && _) eqn:E; [|done].
    rewrite zget_insert_ne by lia. done.
Qed.

(** A derived row is absent or holds, below its length, what the linear scan
    finds. *)
Definition row_agrees (table : list Z) (offset : Z) (row : list Z) : Prop :=
  ∀ t, 0 ≤ t < len row → zget row t = Some (lookup_row table offset t).

Definition unique_row (table : list Z) (offset : Z) : Prop :=
  NoDup (map sym (visit_row table offset)).

Lemma zero_row_agrees table offset n :
  unique_row table offset →
  row_agrees table offset (foldl fill_row_at (make n 0) (visit_row table offset)).
Proof.
  intros Hu t Ht. rewrite len_fill_rows in Ht. apply fill_rows_get; [done|].
  apply zget_make. unfold len, make in Ht. rewrite length_replicate in Ht. lia.
Qed.

Lemma full_row_agrees lang threshold offset :
  0 ≤ smallDenseLookupSymbolLimit lang → unique_row (SmallParseTable lang) offset →
  row_agrees (SmallParseTable lang) offset (full_row lang threshold offset).
Proof.
  intros Hl Hu. unfold full_row. destruct (foldl _ _ _) as [row used] eqn:E. case_match.
  - replace row with (foldl fill_row_at (make (smallDenseLookupSymbolLimit lang) 0)
                        (visit_row (SmallParseTable lang) offset)); [by apply zero_row_agrees|].
    rewrite <-(fill_used_row (smallDenseLookupSymbolLimit lang) _ _ 0) by (by apply len_make).
    by rewrite E.
  - intros t Ht. change (len []) with 0 in Ht. lia.
Qed.

Lemma compact_row_agrees lang offset :
  unique_row (SmallParseTable lang) offset →
  row_agrees (SmallParseTable lang) offset (compact_row lang offset).
Proof.
  intros Hu. unfold compact_row. destruct (foldl _ _ _) as [[seen used] maxSym]. case_match.
  - by apply zero_row_agrees.
  - intros t Ht. change (len []) with 0 in Ht. lia.
Qed.

(** What generated languages guarantee: non-negative counts and, in every row
    of the compressed table, each symbol at most once. *)
Record tables_ok (lang : Language) : Prop := {
  tk_counts : 0 ≤ TokenCount lang ∧ 0 ≤ SymbolCount lang;
  tk_unique offset : offset ∈ SmallParseTableMap lang → unique_row (SmallParseTable lang) offset }.

Lemma token_rows_agree lang i offset :
  tables_ok lang → zget (SmallParseTableMap lang) i = Some offset →
  row_agrees (SmallParseTable lang) offset (default [] (zget (buildSmallTokenLookup lang) i)).
Proof.
  intros [Hc Hu] Hi. pose proof (Hu _ (zget_elem _ _ _ Hi)) as Hr. unfold buildSmallTokenLookup.
  assert (row_agrees (SmallParseTable lang) offset []) as Hnil.
  { intros t Ht. change (len []) with 0 in Ht. lia. }
  assert (∀ f : Z → list Z, zget (map f (SmallParseTableMap lang)) i = Some (f offset)) as Hmap.
  { intros f. unfold zget in *. destruct (0 <=? i); [|done]. by rewrite list_lookup_fmap, Hi. }
  destruct (_ || _); [unfold zget; destruct (0 <=? i); exact Hnil|].
  destruct (negb _); unfold buildSmallTokenLookupFullRows; rewrite Hmap; cbn.
  - apply full_row_agrees; [|done]. unfold smallDenseLookupSymbolLimit. case_match; lia.
  - by apply compact_row_agrees.
Qed.

(** ** Overflow pairs *)

Section derived.
Context `{SliceSort}.

Lemma overflow_row_find table limit offset t :
  unique_row table offset → (limit = 0 ∨ limit ≤ t) →
  overflow_row table limit offset = [] ∨
  lookup_pairs (overflow_row table limit offset) t = Ret (lookup_row table offset t).
Proof.
  intros Hu Ht. unfold overflow_row, unique_row in *. rewrite lookup_row_find. unfold visit_row in *.
  destruct (zget table offset) as [gc|]; [|by left]. case_match; [by left|right].
  set (l := visit_groups _ _ _) in *. set (P := λ p, limit = 0 ∨ limit ≤ sym p).
  assert (NoDup (map sym (filter P l))) as Hnd
    by (eapply sublist_NoDup; [exact Hu|]; apply fmap_sublist, sublist_filter).
  pose proof (sort_slice_perm _ (λ a b, sym a <? sym b) (filter P l)) as Hperm.
  rewrite lookup_pairs_find.
  - f_equal. rewrite (find_val_perm _ (filter P l)); [|by rewrite Hperm|done].
    apply find_val_filter. unfold P. intros p ->. done.
  - eapply StronglySorted_weaken; [|apply sort_slice_sorted, strict_weak_key]. cbn. lia.
  - by rewrite Hperm.
Qed.

(** The view a parser uses, and the same language without derived tables. *)
Definition plain_view (lang : Language) : parserActionTableView :=
  mkView lang (languageDenseLimit lang) (LargeStateCount lang) [] [].

Lemma zget_buildSmallLookup lang tokens i offset :
  zget (SmallParseTableMap lang) i = Some offset →
  zget (buildSmallLookup lang tokens) i =
  Some (overflow_row (SmallParseTable lang) (len (default [] (zget tokens i))) offset).
Proof.
  intros Hi. unfold buildSmallLookup, zget in *. destruct (0 <=? i); [|done].
  by rewrite list_lookup_imap, Hi.
Qed.

Lemma lookupActionIndex_derived lang state s :
  tables_ok lang → 0 ≤ s →
  lookupActionIndex (derived_view lang) state s = lookupActionIndex (plain_view lang) state s.
Proof.
  intros Hok Hs. unfold lookupActionIndex. cbn [denseLimit derived_view plain_view language].
  case_match; [done|]. unfold lookupActionIndexSmall.
  cbn [denseLimit derived_view plain_view language smallBase smallTokenLookup smallLookup].
  destruct (zget (SmallParseTableMap lang) _) as [offset|] eqn:Ho; [|done].
  rewrite !zget_nil. cbn [default from_option]. change (len (@nil Z)) with 0.
  destruct (Z.ltb_spec s 0); [lia|]. destruct (_ && _).
  2:{ rewrite !zget_nil. cbn [default from_option]. change (len (@nil Z)) with 0.
      by destruct (Z.ltb_spec s 0); [lia|]. }
  pose proof (token_rows_agree _ _ _ Hok Ho) as Hrow.
  set (row := default [] (zget (buildSmallTokenLookup lang) _)) in *.
  destruct (Z.ltb_spec s (len row)); [by apply index_Ret, Hrow|].
  rewrite (zget_buildSmallLookup _ _ _ _ Ho). cbn [default from_option]. fold row.
  destruct (overflow_row_find (SmallParseTable lang) (len row) offset s) as [->|<-]; [|lia|done|].
  - apply Hok. by eapply zget_elem.
  - by destruct (overflow_row _ _ _).
Qed.
Lemma lookupActionIndex_returns lang state s :
  tables_ok lang → 0 ≤ s → ∃ idx, lookupActionIndex (derived_view lang) state s = Ret idx.
Proof.
  intros Hok Hs. rewrite lookupActionIndex_derived by done. unfold lookupActionIndex.
  cbn [plain_view denseLimit language]. case_match; [by eexists|]. unfold lookupActionIndexSmall.
  cbn [plain_view denseLimit language smallBase smallTokenLookup smallLookup].
  destruct (zget _ _) as [offset|]; [|by eexists]. rewrite !zget_nil. cbn.
  change (len (@nil Z)) with 0. destruct (Z.ltb_spec s 0); [lia|]. by eexists.
Qed.

(** ** Enumeration *)

(** Every group header lies inside the table. *)
Fixpoint groups_complete (table : list Z) (n : nat) (pos : Z) : bool :=
  match n with
  | O => true
  | S n =>
    match zget table (pos + 1) with
    | None => false
    | Some count => groups_complete table n (visit_syms table (Z.to_nat count) (pos + 2)).2
    end
  end.

Definition row_complete (table : list Z) (offset : Z) : bool :=
  match zget table offset with
  | None => true
  | Some groupCount => groups_complete table (Z.to_nat groupCount) (offset + 1)
  end.

Lemma visit_syms_pos table n pos : pos ≤ (visit_syms table n pos).2.
Proof.
  revert pos. induction n as [|n IH]; intros pos; cbn; [done|].
  destruct (zget table pos); [|done]. specialize (IH (pos + 1)).
  destruct (visit_syms _ _ _). cbn in *. lia.
Qed.

Lemma count_groups_complete table limit n pos total :
  0 ≤ pos → limit ≠ 0 → groups_complete table n pos = true →
  count_groups table limit n pos total =
  total + len (filter (λ p, limit ≤ sym p) (visit_groups table n pos)).
Proof.
  intros Hp Hl. revert pos total Hp. induction n as [|n IH]; intros pos total Hp Hc; cbn in *.
  { unfold len. cbn. lia. }
  destruct (zget table (pos + 1)) as [count|] eqn:Hcount; [|done].
  pose proof (zget_Some_range _ _ _ Hcount).
  destruct (zget_in_range table pos) as [v ->]; [lia|].
  destruct (Z.eqb_spec limit 0); [done|].
  pose proof (visit_syms_pos table (Z.to_nat count) (pos + 2)) as Hpos.
  destruct (visit_syms _ _ _) as [syms pos']. cbn in *. rewrite IH by (done || lia).
  rewrite filter_app, len_app. rewrite <-Z.add_assoc. do 2 f_equal.
  unfold len. f_equal. clear. induction syms as [|s syms IH]; [done|].
  cbn [map]. rewrite !filter_cons. cbn. case_decide; cbn; by rewrite IH.
Qed.

(** The overflow pairs are exactly the visited pairs beyond the dense row. *)
Lemma overflow_row_perm table limit offset :
  0 ≤ offset → row_complete table offset = true → limit ≠ 0 →
  overflow_row table limit offset ≡ₚ filter (λ p, limit = 0 ∨ limit ≤ sym p) (visit_row table offset).
Proof.
  intros Ho Hc Hl. unfold overflow_row, row_complete, visit_row in *.
  destruct (zget table offset) as [gc|]; [|done].
  rewrite count_groups_complete by (done || lia).
  rewrite (list_filter_iff (λ p, limit = 0 ∨ limit ≤ sym p) (λ p, limit ≤ sym p)) by (intros p; lia).
  set (l := filter _ _). destruct (Z.eqb_spec (0 + len l) 0) as [H0|]; [|apply sort_slice_perm].
  destruct l; [done|]. rewrite len_cons in H0. pose proof (len_nonneg l). lia.
Qed.

Lemma dense_entries_elem row s idx :
  0 ≤ s → (s, idx) ∈ dense_entries row ↔ zget row s = Some idx ∧ idx ≠ 0.
Proof.
  intros Hs. unfold dense_entries. rewrite list_elem_of_filter. cbn.
  rewrite list_elem_of_lookup. unfold zget. destruct (Z.leb_spec 0 s); [|lia]. split.
  - intros [Hne (i & Hi)]. rewrite list_lookup_imap in Hi.
    destruct (row !! i) eqn:E; [|done]. cbn in Hi. simplify_eq. by rewrite Nat2Z.id.
  - intros [Hi Hne]. split; [done|]. exists (Z.to_nat s). rewrite list_lookup_imap, Hi. cbn.
    by rewrite Z2Nat.id.
Qed.

Lemma pairs_elem l s idx :
  NoDup (map sym l) → idx ≠ 0 →
  (s, idx) ∈ map (λ p, (sym p, val p)) l ↔ find_val l 0 s = idx.
Proof.
  intros Hnd Hne. split.
  - intros (p & [= -> ->] & Hp)%list_elem_of_fmap_1. by apply find_val_in.
  - intros Hf. destruct (decide (s ∈ map sym l)) as [(p & -> & Hp)%list_elem_of_fmap_1|Hno].
    + rewrite find_val_in in Hf by done. rewrite <-Hf. by apply (list_elem_of_fmap_2 (λ p, (sym p, val p))).
    + by rewrite find_val_notin in Hf.
Qed.

(** In a small state the enumeration and the linear scan agree. *)
Lemma small_entries_elem table row offset s idx :
  unique_row table offset → 0 ≤ offset → row_complete table offset = true →
  row_agrees table offset row → 0 ≤ s → idx ≠ 0 →
  let pairs := overflow_row table (len row) offset in
  (s, idx) ∈ (if (0 <? len row) || (0 <? len pairs)
              then dense_entries row ++ map (λ p, (sym p, val p)) pairs
              else map (λ p, (sym p, val p)) (visit_row table offset)) ↔
  lookup_row table offset s = idx.
Proof.
  intros Hu Ho Hc Hrow Hs Hne pairs. rewrite lookup_row_find. pose proof (len_nonneg row) as Hlr.
  destruct (Z.ltb_spec 0 (len row)) as [Hlt|Hge]; cbn [orb].
  - pose proof (overflow_row_perm table (len row) offset Ho Hc ltac:(lia)) as Hp. fold pairs in Hp.
    rewrite elem_of_app, dense_entries_elem, Hp by done.
    set (P := λ p, len row = 0 ∨ len row ≤ sym p).
    assert (NoDup (map sym (filter P (visit_row table offset)))) as Hnd
      by (eapply sublist_NoDup; [exact Hu|]; apply fmap_sublist, sublist_filter).
    rewrite pairs_elem by done. destruct (decide (s < len row)) as [Hin|Hout].
    + rewrite (Hrow s), lookup_row_find by lia. rewrite (find_val_notin (filter P _)).
      * split; [intros [[[= ?] _]|?]; congruence|intros ->; auto].
      * intros (p & -> & [Hp1 _]%list_elem_of_filter)%list_elem_of_fmap_1. destruct Hp1; lia.
    + rewrite (proj2 (zget_None row s)) by lia. rewrite find_val_filter.
      * split; [intros [[? _]|?]; congruence|auto].
      * intros p Hps. unfold P. lia.
  - assert (row = []) as -> by (destruct row; [done|rewrite len_cons in *; pose proof (len_nonneg row); lia]).
    destruct (Z.ltb_spec 0 (len pairs)) as [Hlt'|Hge']; [|by apply pairs_elem].
    cbn [dense_entries imap filter list_filter app]. change (dense_entries [] ++ ?x) with x.
    assert (pairs ≡ₚ visit_row table offset) as Hp.
    { unfold pairs, overflow_row, visit_row in *. destruct (zget table offset); [|done].
      case_match; [change (len []) with 0 in Hlt'; lia|]. rewrite sort_slice_perm.
      rewrite filter_Forall_id; [done|]. apply list.Forall_true. intros p. by left. }
    rewrite Hp. by apply pairs_elem.
Qed.

Lemma action_indices_lookup lang state s idx :
  tables_ok lang → Forall (λ o, 0 ≤ o ∧ row_complete (SmallParseTable lang) o = true) (SmallParseTableMap lang) →
  0 ≤ s → idx ≠ 0 →
  (s, idx) ∈ action_indices (derived_view lang) state ↔
  lookupActionIndex (derived_view lang) state s = Ret idx.
Proof.
  intros Hok Hcomp Hs Hne. rewrite lookupActionIndex_derived by done.
  unfold action_indices, lookupActionIndex. cbn [derived_view plain_view language denseLimit].
  case_match.
  { destruct (zget (ParseTable lang) state) as [row|]; cbn.
    - rewrite dense_entries_elem by done. destruct (zget row s); cbn; naive_solver.
    - rewrite elem_of_nil. naive_solver. }
  unfold lookupActionIndexSmall.
  cbn [derived_view plain_view language denseLimit smallBase smallTokenLookup smallLookup].
  destruct (zget (SmallParseTableMap lang) _) as [offset|] eqn:Ho; [|rewrite elem_of_nil; naive_solver].
  rewrite !zget_nil. cbn [default from_option]. change (len (@nil Z)) with 0.
  destruct (Z.ltb_spec s 0); [lia|].
  destruct (Forall_zget _ _ _ _ Hcomp Ho) as [Ho0 Hc].
  pose proof (tk_unique _ Hok _ (zget_elem _ _ _ Ho)) as Hu.
  destruct (_ && _).
  - rewrite (zget_buildSmallLookup _ _ _ _ Ho). pose proof (token_rows_agree _ _ _ Hok Ho) as Hrow.
    set (row := default [] (zget (buildSmallTokenLookup lang) _)) in *. cbn [default from_option].
    pose proof (small_entries_elem _ _ _ s idx Hu Ho0 Hc Hrow Hs Hne) as ->. naive_solver.
  - rewrite !zget_nil. cbn [default from_option]. change (len []) with 0. cbn [orb Z.ltb Z.compare].
    rewrite pairs_elem, lookup_row_find by done. naive_solver.
Qed.

End derived.

(** ** External symbols *)

Section external.
Context `{SliceSort} (v : parserActionTableView).

Lemma external_row_spec state i syms :
  0 ≤ i → i + len syms ≤ 65536 →
  Forall (λ s, ∃ idx, lookupActionIndex v state s = Ret idx) syms →
  ∃ row, external_row v state i syms = Ret row ∧
    ∀ j, j ∈ row ↔ ∃ k s idx, syms !! k = Some s ∧ j = i + Z.of_nat k ∧
                              lookupActionIndex v state s = Ret idx ∧ idx ≠ 0.
Proof.
  intros Hi Hle Hall. revert i Hi Hle. induction Hall as [|s syms [idx Hidx] _ IH]; intros i Hi Hle; cbn.
  { exists []. split; [done|]. intros j. rewrite elem_of_nil. naive_solver. }
  rewrite len_cons in Hle. pose proof (len_nonneg syms).
  destruct (IH (i + 1)) as (row & -> & Hrow); [lia..|]. rewrite Hidx. cbn.
  eexists. split; [done|]. intros j. rewrite u16_id by lia.
  assert ((j ∈ row ∨ j = i ∧ idx ≠ 0) ↔ ∃ k t idx', (s :: syms) !! k = Some t ∧
            j = i + Z.of_nat k ∧ lookupActionIndex v state t = Ret idx' ∧ idx' ≠ 0) as Hcase.
  { rewrite Hrow. split.
    - intros [(k & t & idx' & Hk & -> & ? & ?)|[-> ?]]; [exists (S k), t, idx'|exists 0%nat, s, idx];
        (split_and!; [done|lia|done|done]).
    - intros ([|k] & t & idx' & Hk & -> & Ht & Hne); cbn in Hk; simplify_eq; [right|left].
      + split; [lia|congruence].
      + exists k, t, idx'. split_and!; [done|lia|done|done]. }
  rewrite <-Hcase. destruct (Z.eqb_spec idx 0); [naive_solver|]. rewrite elem_of_cons. naive_solver.
Qed.

Lemma external_rows_spec states :
  len (ExternalSymbols (language v)) ≤ 65536 →
  (∀ st s, st ∈ states → s ∈ ExternalSymbols (language v) →
           ∃ idx, lookupActionIndex v st s = Ret idx) →
  ∃ rows, external_rows v states = Ret rows ∧ length rows = length states ∧
    ∀ i st row, states !! i = Some st → rows !! i = Some row →
      ∀ j, j ∈ row ↔ ∃ k s idx, ExternalSymbols (language v) !! k = Some s ∧ j = Z.of_nat k ∧
                                lookupActionIndex v st s = Ret idx ∧ idx ≠ 0.
Proof.
  intros Hlen. induction states as [|st states IH]; intros Hall; cbn; [by exists []|].
  destruct (external_row_spec st 0 (ExternalSymbols (language v))) as (row & -> & Hrow);
    [done|lia|apply list.Forall_forall; intros s Hs; apply Hall; [by left|done]|].
  destruct IH as (rows & -> & Hl & Hrows); [intros; apply Hall; [by right|done]|]. cbn.
  eexists. split; [done|]. split; [cbn; by rewrite Hl|].
  intros [|i] st' row' Hst Hrow' j; cbn in Hst, Hrow'; [|by eapply Hrows].
  simplify_eq. rewrite Hrow. naive_solver.
Qed.
End external.

Lemma mask_bit_testbit count mask i b :
  0 ≤ b < count → count ≤ 64 →
  Z.testbit (mask_bit count mask i) b = Z.testbit mask b || (i =? b).
Proof.
  intros Hb Hc. unfold mask_bit. destruct (Z.ltb_spec i 0), (Z.leb_spec count i); cbn [orb];
    try (destruct (Z.eqb_spec i b); [lia|by rewrite orb_false_r]).
  rewrite Z.lor_spec. f_equal. unfold u64. rewrite Z.mod_pow2_bits_low by lia.
  rewrite Z.shiftl_1_l. rewrite Z.pow2_bits_eqb by lia. done.
Qed.

Lemma mask_row_testbit count row b :
  0 ≤ b < count → count ≤ 64 → ∀ mask,
  Z.testbit (foldl (mask_bit count) mask row) b = true ↔ Z.testbit mask b = true ∨ b ∈ row.
Proof.
  intros Hb Hc. induction row as [|i row IH]; intros mask; cbn; [rewrite elem_of_nil; naive_solver|].
  rewrite IH, mask_bit_testbit, orb_true_iff, Z.eqb_eq, elem_of_cons by done. naive_solver.
Qed.

(** The masks of the valid external symbols. *)
Lemma masks_spec rows count :
  0 < count ≤ 64 →
  match buildExternalValidMaskByState rows count with
  | Some masks => ∀ (i : nat) row mask b, rows !! i = Some row → masks !! i = Some mask → 0 ≤ b < count →
      (Z.testbit mask b = true ↔ b ∈ row)
  | None => ∀ (i : nat) row b, rows !! i = Some row → 0 ≤ b < count → b ∉ row
  end.
Proof.
  intros Hc. unfold buildExternalValidMaskByState.
  destruct (Z.eqb_spec (len rows) 0) as [H0|H0]; cbn [orb].
  { destruct rows; [|rewrite len_cons in H0; pose proof (len_nonneg rows); lia].
    intros i row b Hi. by rewrite lookup_nil in Hi. }
  destruct (Z.leb_spec count 0); [lia|]. destruct (Z.ltb_spec 64 count); [lia|]. cbn [orb].
  assert (∀ i row b, rows !! i = Some row → 0 ≤ b < count →
    Z.testbit (foldl (mask_bit count) 0 row) b = true ↔ b ∈ row) as Hbits.
  { intros i row b _ Hb. rewrite mask_row_testbit, Z.bits_0 by lia. naive_solver. }
  destruct (existsb _ _) eqn:Hany.
  - intros i row mask b Hi Hm Hb. rewrite list_lookup_fmap, Hi in Hm. cbn in Hm. simplify_eq. eauto.
  - intros i row b Hi Hb Hin. apply (Hbits i row b Hi Hb) in Hin.
    assert (existsb (λ m, negb (m =? 0)) (map (foldl (mask_bit count) 0) rows) = true) as Hx.
    { apply existsb_exists. exists (foldl (mask_bit count) 0 row). split.
      - apply in_map, list_elem_of_In. by eapply list_elem_of_lookup_2.
      - destruct (Z.eqb_spec (foldl (mask_bit count) 0 row) 0) as [E|]; [|done].
        rewrite E, Z.bits_0 in Hin. done. }
    congruence.
Qed.

(** ** Statements *)

(** A language with one large and one small state; the small row has nine
    tokens with action 5 (a dense row) and two non-terminals with action 7. *)
Definition sample_language : Language :=
  mkLanguage "sample" false 13 10 2 1 1 [[0; 3]]
    [2; 5; 9; 1; 2; 3; 4; 5; 6; 7; 8; 9; 7; 2; 12; 11] [0] [] ∅ [9; 0] [] 0.

Lemma sample_language_ok : tables_ok sample_language.
Proof.
  split; [vm_compute; intuition discriminate|]. intros o ->%list_elem_of_singleton.
  unfold unique_row. apply (bool_decide_unpack _). vm_compute. exact I.
Qed.

(** C22.  The derived tables change nothing: for every language in which no
    compressed row names a symbol twice, and every sorter meeting [sort.Slice]'s
    contract, [lookupActionIndex], [lookupAction] and [lookupGoto] with dense
    token rows, sorted overflow pairs and binary search return what they return
    on the compressed table alone, which for a small state is the value of the
    group that lists the symbol. *)
Theorem derived_tables_equivalent `{SliceSort} lang state s :
  tables_ok lang → 0 ≤ s →
  lookupActionIndex (derived_view lang) state s = lookupActionIndex (plain_view lang) state s ∧
  lookupAction (derived_view lang) state s = lookupAction (plain_view lang) state s ∧
  lookupGoto (derived_view lang) state s = lookupGoto (plain_view lang) state s ∧
  (languageDenseLimit lang ≤ state → ∀ offset,
     zget (SmallParseTableMap lang) (state - LargeStateCount lang) = Some offset →
     lookupActionIndex (derived_view lang) state s = Ret (lookup_row (SmallParseTable lang) offset s)).
Proof.
  intros Hok Hs. pose proof (lookupActionIndex_derived lang state s Hok Hs) as Heq.
  unfold lookupAction, lookupGoto. rewrite Heq. split_and!; [done..|].
  intros Hst offset Ho. unfold lookupActionIndex. cbn [plain_view denseLimit].
  destruct (Z.ltb_spec state (languageDenseLimit lang)); [lia|]. unfold lookupActionIndexSmall.
  cbn [plain_view denseLimit language smallBase smallTokenLookup smallLookup]. rewrite Ho, !zget_nil.
  cbn [default from_option]. change (len (@nil Z)) with 0. by destruct (Z.ltb_spec s 0); [lia|].
Qed.

Lemma derived_tables_equivalent_witness :
  lookupActionIndex (derived_view sample_language) 1 11 = Ret 7.
Proof.
  rewrite (proj2 (proj2 (proj2 (derived_tables_equivalent sample_language 1 11
             sample_language_ok ltac:(lia)))) ltac:(vm_compute; discriminate) 0 eq_refl).
  reflexivity.
Defined.

(** [forEachActionIndexInState] enumerates a state completely and
    soundly: with complete rows, the (symbol, index) pairs it hands to the
    visitor are, index zero apart, exactly those for which [lookupActionIndex]
    returns that index. *)
Theorem forEachActionIndexInState_complete `{SliceSort} lang state s idx :
  tables_ok lang →
  Forall (λ o, 0 ≤ o ∧ row_complete (SmallParseTable lang) o = true) (SmallParseTableMap lang) →
  0 ≤ s → idx ≠ 0 →
  (s, idx) ∈ forEachActionIndexInState (derived_view lang) state
               (λ acc sym idx, (acc ++ [(sym, idx)], true)) [] ↔
  lookupActionIndex (derived_view lang) state s = Ret idx.
Proof.
  intros Hok Hc Hs Hne. rewrite <-action_indices_lookup by done. unfold forEachActionIndexInState.
  enough (∀ l acc, visit_until (λ acc sym idx, (acc ++ [(sym, idx)], true)) acc l = acc ++ l) as ->; [done|].
  induction l as [|[x y] l IH]; intros acc; cbn; [by rewrite app_nil_r|].
  by rewrite IH, <-app_assoc.
Qed.

Lemma forEachActionIndexInState_complete_witness :
  (11, 7) ∈ forEachActionIndexInState (derived_view sample_language) 1
              (λ acc sym idx, (acc ++ [(sym, idx)], true)) [].
Proof.
  apply (forEachActionIndexInState_complete sample_language 1 11 7);
    [exact sample_language_ok|repeat constructor; vm_compute; discriminate|lia|lia|reflexivity].
Defined.

(** The external-symbol tables hold exactly the symbols the parse table
    allows: for a language with at most 64 external symbols and no external lex
    states, the bit of an external symbol in the mask of a state is set iff the
    state has an action for that symbol; without masks no state has one. *)
Theorem external_masks_exact `{SliceSort} lang :
  tables_ok lang → 0 < len (ExternalSymbols lang) ≤ 64 → ExternalLexStates lang = [] →
  0 < external_state_count (derived_view lang) → Forall (λ s, 0 ≤ s) (ExternalSymbols lang) →
  ∃ rows, buildExternalValidByState (derived_view lang) = Ret (Some rows) ∧
    len rows = external_state_count (derived_view lang) ∧
    ∀ state (k : nat) s idx, 0 ≤ state < len rows → ExternalSymbols lang !! k = Some s →
      lookupActionIndex (derived_view lang) state s = Ret idx →
      match buildExternalValidMaskByState rows (len (ExternalSymbols lang)) with
      | Some masks => ∀ mask, zget masks state = Some mask →
          (Z.testbit mask (Z.of_nat k) = true ↔ idx ≠ 0)
      | None => idx = 0
      end.
Proof.
  intros Hok Hlen Hel Hcount Hpos. unfold buildExternalValidByState.
  cbn [derived_view language]. rewrite Hel. change (len (@nil (list bool))) with 0.
  destruct (Z.eqb_spec (len (ExternalSymbols lang)) 0); [lia|].
  destruct (Z.ltb_spec 65535 (len (ExternalSymbols lang))); [lia|]. cbn [orb Z.ltb Z.compare].
  change (mkView _ _ _ _ _) with (derived_view lang) in *.
  destruct (Z.leb_spec (external_state_count (derived_view lang)) 0); [lia|].
  set (sts := seqZ 0 _).
  destruct (external_rows_spec (derived_view lang) sts) as (rows & Hr & Hl & Hrows).
  { cbn. lia. }
  { cbn. intros st s _ Hs. apply lookupActionIndex_returns; [done|].
    rewrite list.Forall_forall in Hpos. auto. }
  rewrite Hr. cbn [mbind go_bind]. exists rows. split; [done|].
  assert (len rows = external_state_count (derived_view lang)) as Hlr.
  { unfold len. rewrite Hl. unfold sts. rewrite length_seqZ. lia. }
  split; [done|]. intros state k s idx Hst Hk Hidx.
  destruct (zget_in_range rows state Hst) as [row Hrow]. pose proof Hrow as Hrow'.
  unfold zget in Hrow'. destruct (Z.leb_spec 0 state); [|lia].
  assert (sts !! Z.to_nat state = Some state) as Hseq.
  { unfold sts. apply lookup_seqZ. lia. }
  assert (Z.of_nat k ∈ row ↔ idx ≠ 0) as Hin.
  { rewrite (Hrows _ _ _ Hseq Hrow'). cbn [language derived_view]. split.
    - intros (k' & s' & idx' & Hk' & Heq & Hi & Hne). replace k' with k in Hk' by lia. congruence.
    - intros Hne. by exists k, s, idx. }
  pose proof (masks_spec rows (len (ExternalSymbols lang)) Hlen) as Hm.
  assert (0 ≤ Z.of_nat k < len (ExternalSymbols lang)) as Hkr
    by (apply lookup_lt_Some in Hk; unfold len; lia).
  destruct (buildExternalValidMaskByState rows _) as [masks|].
  - intros mask Hmask. unfold zget in Hmask. destruct (Z.leb_spec 0 state); [|lia].
    by rewrite (Hm _ _ _ _ Hrow' Hmask Hkr), Hin.
  - destruct (decide (idx = 0)) as [|Hne]; [done|]. apply Hin in Hne.
    by apply (Hm _ _ _ Hrow' Hkr) in Hne.
Qed.

Lemma external_masks_exact_witness :
  ∃ rows, buildExternalValidByState (derived_view sample_language) = Ret (Some rows) ∧
    len rows = 2.
Proof.
  destruct (external_masks_exact sample_language) as (rows & Hr & Hl & _);
    [exact sample_language_ok|vm_compute; intuition discriminate|reflexivity|reflexivity
    |repeat constructor; lia|]. exists rows. split; [exact Hr|]. rewrite Hl. reflexivity.
Defined.
