(* ===== verification/Rewriter.v ===== *)
(** * The source rewriter

    rewrite.go: [Rewriter] collects byte-range edits; [Apply] sorts them, rejects
    invalid and overlapping ones, and builds the new source together with the
    [InputEdit] records for incremental reparsing.  A node enters only through
    its start and end bytes. *)

From Stdlib Require Import ZArith Lia ZifyBool Sorted.
From stdpp Require Import base tactics list numbers option.
From S2P Require Import Prelude Points SliceSort.
Local Open Scope Z_scope.

Record rewriteEdit := mkEdit { eStart : Z; eEnd : Z; eText : list Z }.

Record Rewriter := mkRewriter { rSource : list Z; rEdits : list rewriteEdit }.

Definition NewRewriter (source : list Z) : Rewriter := mkRewriter source [].

Definition ReplaceRange (r : Rewriter) (startByte endByte : Z) (newText : list Z) : Rewriter :=
  mkRewriter (rSource r) (rEdits r ++ [mkEdit startByte endByte newText]).

Definition Replace (r : Rewriter) (nodeStart nodeEnd : Z) (newText : list Z) : Rewriter :=
  ReplaceRange r nodeStart nodeEnd newText.

Definition InsertBefore (r : Rewriter) (nodeStart : Z) (text : list Z) : Rewriter :=
  ReplaceRange r nodeStart nodeStart text.

Definition InsertAfter (r : Rewriter) (nodeEnd : Z) (text : list Z) : Rewriter :=
  ReplaceRange r nodeEnd nodeEnd text.

Definition Delete (r : Rewriter) (nodeStart nodeEnd : Z) : Rewriter :=
  ReplaceRange r nodeStart nodeEnd [].

(** The messages of [fmt.Errorf], as values. *)
Inductive rewrite_error :=
| ErrInvalidRange (startByte endByte sourceLen : Z)
| ErrOverlap (prevStart prevEnd curStart curEnd : Z)
| ErrOverlappingInsertions (pos : Z).

Definition edit_less : rewriteEdit → rewriteEdit → bool := less2 eStart eEnd.

Definition invalid_range (sourceLen : Z) (e : rewriteEdit) : bool :=
  (eEnd e <? eStart e) || (sourceLen <? eEnd e).

(** The loop over the sorted edits that checks their ranges. *)
Fixpoint check_ranges (sourceLen : Z) (es : list rewriteEdit) : option rewrite_error :=
  match es with
  | [] => None
  | e :: es =>
    if invalid_range sourceLen e then Some (ErrInvalidRange (eStart e) (eEnd e) sourceLen)
    else check_ranges sourceLen es
  end.

(** The loop over neighbouring edits. *)
Fixpoint check_overlaps (prev : rewriteEdit) (es : list rewriteEdit) : option rewrite_error :=
  match es with
  | [] => None
  | cur :: es =>
    if eStart cur <? eEnd prev
    then Some (ErrOverlap (eStart prev) (eEnd prev) (eStart cur) (eEnd cur))
    else if (eStart prev =? eEnd prev) && (eStart cur =? eEnd cur) && (eStart prev =? eStart cur)
    then Some (ErrOverlappingInsertions (eStart prev))
    else check_overlaps cur es
  end.

Definition check_edits (sourceLen : Z) (es : list rewriteEdit) : option rewrite_error :=
  match check_ranges sourceLen es with
  | Some err => Some err
  | None => match es with [] => None | e :: es => check_overlaps e es end
  end.

(** The loop that builds the new source: [pos] is the source offset reached,
    [buf] the output so far and [pt] its end point. *)
Fixpoint apply_loop (src : list Z) (es : list rewriteEdit) (pos : Z) (buf : list Z) (pt : Point)
  : go (list Z * list InputEdit) :=
  match es with
  | [] =>
    if pos <? u32 (len src) then
      remaining ← gslice src pos (len src); Ret (buf ++ remaining, [])
    else Ret (buf, [])
  | e :: es =>
    '(buf, pt) ← (if pos <? eStart e then
                    unchanged ← gslice src pos (eStart e);
                    Ret (buf ++ unchanged, computeNewEndPoint pt unchanged)
                  else Ret (buf, pt));
    let startByte := u32 (len buf) in
    oldSpan ← gslice src (eStart e) (eEnd e);
    let newEndPoint := computeNewEndPoint pt (eText e) in
    let edit := mkInputEdit startByte (u32 (startByte + u32 (len oldSpan)))
                  (u32 (startByte + u32 (len (eText e)))) pt
                  (computeNewEndPoint pt oldSpan) newEndPoint in
    '(out, edits) ← apply_loop src es (eEnd e) (buf ++ eText e) newEndPoint;
    Ret (out, edit :: edits)
  end.

Section apply.
Context `{SliceSort}.

Definition Apply (r : Rewriter) : go ((list Z * list InputEdit) + rewrite_error) :=
  match rEdits r with
  | [] => Ret (inl (rSource r, []))
  | _ =>
    let sorted := sort_slice edit_less (rEdits r) in
    match check_edits (len (rSource r)) sorted with
    | Some err => Ret (inr err)
    | None => res ← apply_loop (rSource r) sorted 0 [] (mkPoint 0 0); Ret (inl res)
    end
  end.

(** [tree.Edit] for every record, in order; the tree enters as its [Edit]. *)
Definition ApplyToTree {T} (edit : T → InputEdit → T) (r : Rewriter) (tree : T)
  : go ((list Z * T) + rewrite_error) :=
  res ← Apply r;
  match res with
  | inr err => Ret (inr err)
  | inl (newSource, edits) => Ret (inl (newSource, foldl edit tree edits))
  end.
End apply.

(** ** Reference semantics *)

(** Replace the bytes [[eStart, eEnd)] of a document. *)
Definition splice (doc : list Z) (e : rewriteEdit) : list Z :=
  slice doc 0 (eStart e) ++ eText e ++ slice doc (eEnd e) (len doc).

(** Edits in source order do not move each other when applied from the last
    one to the first. *)
Definition splice_all (src : list Z) (es : list rewriteEdit) : list Z :=
  foldr (λ e doc, splice doc e) src es.

(** Two edits that may be applied together: neither starts inside the other,
    and they are not two insertions at one place. *)
Definition compatible (e f : rewriteEdit) : Prop :=
  (eEnd e ≤ eStart f ∨ eEnd f ≤ eStart e) ∧
  ¬ (eStart e = eEnd e ∧ eStart f = eEnd f ∧ eStart e = eStart f).

Definition in_source (n : Z) (e : rewriteEdit) : Prop :=
  0 ≤ eStart e ∧ eStart e ≤ eEnd e ∧ eEnd e ≤ n.

(** [edits] take [doc] to [out] one after the other, the k-th inserting the
    k-th text; their points are the rows and columns of their offsets in the
    document each applies to, and in the one it produces. *)
Inductive replays : list Z → list rewriteEdit → list InputEdit → list Z → Prop :=
| replays_nil doc : replays doc [] [] doc
| replays_cons doc e es ie ies doc' out :
    0 ≤ eStartByte ie → eStartByte ie ≤ eOldEndByte ie → eOldEndByte ie ≤ len doc →
    eNewEndByte ie = eStartByte ie + len (eText e) →
    doc' = slice doc 0 (eStartByte ie) ++ eText e ++ slice doc (eOldEndByte ie) (len doc) →
    eStartPoint ie = offset_point doc (eStartByte ie) →
    eOldEndPoint ie = offset_point doc (eOldEndByte ie) →
    eNewEndPoint ie = offset_point doc' (eNewEndByte ie) →
    replays doc' es ies out →
    replays doc (e :: es) (ie :: ies) out.

(** ** The checks *)

Lemma invalid_range_iff n e : 0 ≤ eStart e → invalid_range n e = false ↔ in_source n e.
Proof. unfold invalid_range, in_source. lia. Qed.

Lemma check_ranges_None n es :
  Forall (λ e, 0 ≤ eStart e) es → check_ranges n es = None ↔ Forall (in_source n) es.
Proof.
  induction 1 as [|e es He Hes IH]; cbn; [by split; [constructor|]|].
  rewrite list.Forall_cons, <-IH, <-(invalid_range_iff n e He).
  destruct (invalid_range n e); split; [done|by intros []|done|by intros []].
Qed.

Definition edits_sorted (es : list rewriteEdit) : Prop :=
  StronglySorted (λ e f, eStart e ≤ eStart f ∧ (eStart e = eStart f → eEnd e ≤ eEnd f)) es.

(** Each edit ends before the next one starts, and no two neighbours insert at
    the same place. *)
Fixpoint chain (pos : Z) (es : list rewriteEdit) : Prop :=
  match es with
  | [] => True
  | e :: es => pos ≤ eStart e ∧ eStart e ≤ eEnd e ∧ chain (eEnd e) es
  end.

Lemma chain_weaken pos pos' es : pos' ≤ pos → chain pos es → chain pos' es.
Proof. destruct es; cbn; [done|]. intros ? (? & ? & ?). split_and!; [lia|done..]. Qed.

Lemma chain_start pos es f : chain pos es → f ∈ es → pos ≤ eStart f.
Proof.
  revert pos. induction es as [|e es IH]; intros pos; [by intros _ ?%elem_of_nil|].
  cbn. intros (? & ? & Hc) [->|Hf]%elem_of_cons; [done|].
  specialize (IH _ Hc Hf). lia.
Qed.

(** The neighbour check on sorted edits accepts exactly the pairwise
    compatible ones, which then form a chain. *)
Lemma check_overlaps_None n prev es :
  edits_sorted (prev :: es) → Forall (in_source n) (prev :: es) →
  check_overlaps prev es = None ↔ ForallOrdPairs compatible (prev :: es).
Proof.
  revert prev. induction es as [|cur es IH]; intros prev Hs Hin.
  { cbn. split; [intros _|done]. repeat constructor. }
  apply StronglySorted_inv in Hs as [Hs Hprev]. apply list.Forall_cons_1 in Hin as [Hp Hin].
  pose proof Hin as Hin'. apply list.Forall_cons_1 in Hin' as [Hc Hes].
  pose proof Hprev as Hprev'. apply list.Forall_cons_1 in Hprev' as [[Hle Heq] Hprev'].
  specialize (IH cur Hs Hin). unfold in_source in Hp, Hc. cbn [check_overlaps].
  destruct (Z.ltb_spec (eStart cur) (eEnd prev)) as [Hov|Hok].
  { split; [done|]. intros Hall. inversion Hall as [|? ? Hpc _]; subst.
    apply list.Forall_cons_1 in Hpc as [[[?|?] Hno] _]; [lia|]. exfalso. apply Hno. lia. }
  destruct (_ && _) eqn:Hins.
  { split; [done|]. intros Hall. inversion Hall as [|? ? Hpc _]; subst.
    apply list.Forall_cons_1 in Hpc as [[_ Hno] _]. exfalso. apply Hno. lia. }
  rewrite IH. split; [|by inversion 1].
  intros Hall. constructor; [|done]. apply list.Forall_cons. split; [split; [left|]; lia|].
  apply list.Forall_forall. intros f Hf. apply StronglySorted_inv in Hs as [_ Hcur].
  rewrite list.Forall_forall in Hcur, Hes. specialize (Hcur f Hf). specialize (Hes f Hf).
  unfold in_source in Hes. split; [left; lia|]. intros (? & ? & ?).
  inversion Hall as [|? ? Hcf _]; subst. rewrite list.Forall_forall in Hcf.
  destruct (Hcf f Hf) as [_ Hno]. apply Hno. lia.
Qed.

Lemma pairs_chain n es :
  edits_sorted es → Forall (in_source n) es → ForallOrdPairs compatible es → chain 0 es.
Proof.
  intros Hs Hin Hall. assert (Forall (λ e, 0 ≤ eStart e) es) as H0
    by (eapply list.Forall_impl; [exact Hin|]; by intros e [? _]).
  revert H0. generalize 0. induction Hs as [|e es Hs IH He]; intros pos H0; cbn; [done|].
  apply list.Forall_cons_1 in H0 as [? _]. apply list.Forall_cons_1 in Hin as [Hi Hin].
  inversion Hall as [|? ? Hef Hall']; subst. unfold in_source in Hi.
  split_and!; [done|lia|]. apply IH; [done..|]. apply list.Forall_forall. intros f Hf.
  rewrite list.Forall_forall in He, Hef, Hin. specialize (He f Hf).
  destruct (Hef f Hf) as [[?|?] Hno]; [done|]. specialize (Hin f Hf). unfold in_source in Hin.
  exfalso. apply Hno. lia.
Qed.

(** ** Building the output *)

Lemma slice_slice {A} (l : list A) n m : 0 ≤ n ≤ m → slice (slice l 0 m) 0 n = slice l 0 n.
Proof. intros. unfold slice. rewrite !drop_0, take_take. f_equal. lia. Qed.

Lemma slice_tail {A} (l : list A) i k :
  0 ≤ i → 0 ≤ k → i + k ≤ len l → slice (slice l i (len l)) k (len (slice l i (len l))) = slice l (i + k) (len l).
Proof.
  intros. rewrite len_slice by lia. unfold slice. rewrite (take_ge (drop (Z.to_nat i) l)).
  - rewrite drop_drop. f_equal; [lia|]. f_equal. lia.
  - rewrite length_drop. unfold len in *. lia.
Qed.

Section output.
Context (src : list Z).

(** The source from [pos] on with the edits carried out. *)
Fixpoint spliced (pos : Z) (es : list rewriteEdit) : list Z :=
  match es with
  | [] => slice src pos (len src)
  | e :: es => slice src pos (eStart e) ++ eText e ++ spliced (eEnd e) es
  end.

Lemma splice_all_spliced pos es :
  0 ≤ pos ≤ len src → chain pos es → Forall (in_source (len src)) es →
  splice_all src es = slice src 0 pos ++ spliced pos es.
Proof.
  intros Hp Hc Hin. revert pos Hp Hc. induction Hin as [|e es He Hes IH]; intros pos Hp Hc; cbn.
  { rewrite slice_app_split by lia. by rewrite slice_all. }
  destruct Hc as (Hpe & Hse & Hc). unfold in_source in He. fold (splice_all src es).
  rewrite (IH (eEnd e)) by (done || lia). unfold splice.
  set (rest := spliced _ _). set (pre := slice src 0 (eEnd e)).
  assert (len pre = eEnd e) as Hlen by (unfold pre; rewrite len_slice; lia).
  rewrite slice_app_l by lia. unfold pre at 1. rewrite slice_slice by lia.
  replace (eEnd e) with (len pre + 0) at 1 by lia.
  rewrite slice_app_r, slice_all by (pose proof (len_nonneg rest); lia).
  rewrite <-(slice_app_split src 0 pos (eStart e)) by lia. by rewrite <-app_assoc.
Qed.

Definition text_len (es : list rewriteEdit) : Z := foldr (λ e n, len (eText e) + n) 0 es.

Lemma text_len_nonneg es : 0 ≤ text_len es.
Proof.
  unfold text_len. induction es as [|e es IH]; cbn; [done|]. pose proof (len_nonneg (eText e)). lia.
Qed.

Lemma text_len_perm es es' : es ≡ₚ es' → text_len es = text_len es'.
Proof. unfold text_len. induction 1; cbn; lia. Qed.

(** The points of a document after [buf], in terms of [buf] alone. *)
Lemma offset_point_app buf rest : offset_point (buf ++ rest) (len buf) = computeNewEndPoint (mkPoint 0 0) buf.
Proof. unfold offset_point. by rewrite slice_app_l, slice_all by lia. Qed.

(** One edit, once the bytes before it have been copied to [buf]. *)
Lemma replay_one buf e es ies out :
  in_source (len src) e → len buf + (len src - eStart e) + len (eText e) < 2 ^ 32 →
  replays (buf ++ eText e ++ slice src (eEnd e) (len src)) es ies out →
  replays (buf ++ slice src (eStart e) (len src)) (e :: es)
    (mkInputEdit (u32 (len buf)) (u32 (u32 (len buf) + u32 (len (slice src (eStart e) (eEnd e)))))
       (u32 (u32 (len buf) + u32 (len (eText e))))
       (computeNewEndPoint (mkPoint 0 0) buf)
       (computeNewEndPoint (computeNewEndPoint (mkPoint 0 0) buf) (slice src (eStart e) (eEnd e)))
       (computeNewEndPoint (computeNewEndPoint (mkPoint 0 0) buf) (eText e)) :: ies) out.
Proof.
  intros He Hlen Hr. unfold in_source in He. pose proof (len_nonneg buf). pose proof (len_nonneg (eText e)).
  rewrite len_slice by lia. rewrite !u32_id by (rewrite ?u32_id; lia).
  assert (slice src (eStart e) (len src)
          = slice src (eStart e) (eEnd e) ++ slice src (eEnd e) (len src)) as Hsplit
    by (by rewrite slice_app_split by lia).
  eapply replays_cons; cbn; [lia|lia|rewrite len_app, len_slice by lia; lia|lia|done| | | |].
  - by rewrite offset_point_app.
  - rewrite Hsplit, app_assoc, <-computeNewEndPoint_app.
    rewrite <-(offset_point_app (buf ++ slice src (eStart e) (eEnd e)) (slice src (eEnd e) (len src))).
    f_equal. rewrite len_app, len_slice by lia. lia.
  - rewrite slice_app_l, slice_all by lia. rewrite app_assoc, <-computeNewEndPoint_app.
    rewrite <-offset_point_app with (rest := slice (buf ++ slice src (eStart e) (len src))
      (len buf + (eEnd e - eStart e)) (len (buf ++ slice src (eStart e) (len src)))).
    f_equal. by rewrite len_app.
  - rewrite slice_app_l, slice_all by lia. rewrite slice_app_r by (rewrite len_slice; lia).
    rewrite slice_tail by lia. by replace (eStart e + (eEnd e - eStart e)) with (eEnd e) by lia.
Qed.

Lemma apply_loop_spec es pos buf :
  0 ≤ pos ≤ len src → len src < 2 ^ 32 → chain pos es → Forall (in_source (len src)) es →
  len buf + (len src - pos) + text_len es < 2 ^ 32 →
  ∃ edits, apply_loop src es pos buf (computeNewEndPoint (mkPoint 0 0) buf)
           = Ret (buf ++ spliced pos es, edits) ∧
    replays (buf ++ slice src pos (len src)) es edits (buf ++ spliced pos es).
Proof.
  intros Hp Hsrc Hc Hin. revert pos buf Hp Hc. induction Hin as [|e es He Hes IH]; intros pos buf Hp Hc Hlen; cbn.
  { rewrite u32_id by lia. exists []. destruct (Z.ltb_spec pos (len src)).
    - rewrite gslice_ok by lia. cbn. split; [done|constructor].
    - rewrite slice_nil, app_nil_r by lia. split; [done|constructor]. }
  destruct Hc as (Hpe & Hse & Hc). pose proof He as He'. unfold in_source in He'.
  change (text_len (e :: es)) with (len (eText e) + text_len es) in Hlen.
  pose proof (text_len_nonneg es). pose proof (len_nonneg buf). pose proof (len_nonneg (eText e)).
  set (buf1 := buf ++ slice src pos (eStart e)).
  assert ((if pos <? eStart e then
             unchanged ← gslice src pos (eStart e);
             Ret (buf ++ unchanged, computeNewEndPoint (computeNewEndPoint (mkPoint 0 0) buf) unchanged)
           else Ret (buf, computeNewEndPoint (mkPoint 0 0) buf))
          = Ret (buf1, computeNewEndPoint (mkPoint 0 0) buf1)) as ->.
  { unfold buf1. destruct (Z.ltb_spec pos (eStart e)).
    - rewrite gslice_ok by lia. cbn. by rewrite computeNewEndPoint_app.
    - by rewrite slice_nil, app_nil_r by lia. }
  cbn. rewrite gslice_ok by lia. cbn. rewrite <-(computeNewEndPoint_app _ buf1 (eText e)).
  assert (len buf1 = len buf + (eStart e - pos)) as Hb1 by (unfold buf1; rewrite len_app, len_slice; lia).
  destruct (IH (eEnd e) (buf1 ++ eText e)) as (edits & Hloop & Hrep); [lia|done|rewrite len_app; lia|].
  replace (buf ++ slice src pos (eStart e) ++ eText e ++ spliced (eEnd e) es)
    with ((buf1 ++ eText e) ++ spliced (eEnd e) es) by (unfold buf1; by rewrite <-!app_assoc).
  rewrite Hloop. cbn. eexists. split; [done|].
  replace (buf ++ slice src pos (len src)) with (buf1 ++ slice src (eStart e) (len src))
    by (unfold buf1; rewrite <-app_assoc, slice_app_split by lia; done).
  rewrite (computeNewEndPoint_app _ buf1 (eText e)). apply replay_one; [done|lia|].
  by rewrite app_assoc.
Qed.
End output.

(** ** Statements *)

(** Every edit of the list is inside the source and no two of them clash. *)
Record edits_ok (n : Z) (es : list rewriteEdit) : Prop := {
  eo_range : Forall (in_source n) es;
  eo_pairs : ForallOrdPairs compatible es }.

Lemma compatible_sym e f : compatible e f → compatible f e.
Proof. unfold compatible. lia. Qed.

Lemma pairs_perm es es' :
  es ≡ₚ es' → ForallOrdPairs compatible es → ForallOrdPairs compatible es'.
Proof.
  induction 1 as [|e es es' Hp IH|e f es|es1 es2 es3 _ IH1 _ IH2]; intros Hall.
  - done.
  - inversion Hall as [|? ? He Hes]; subst. constructor; [|auto].
    by rewrite <-Hp.
  - inversion Hall as [|? ? Hf Hes]; subst. inversion Hes as [|? ? He Hes']; subst.
    apply list.Forall_cons_1 in Hf as [Hfe Hf].
    constructor; [apply list.Forall_cons; auto using compatible_sym|by constructor].
  - by apply IH2, IH1.
Qed.

Lemma edits_ok_perm n es es' : es ≡ₚ es' → edits_ok n es → edits_ok n es'.
Proof. intros Hp [? ?]. split; [by rewrite <-Hp|by eapply pairs_perm]. Qed.

Section statements.
Context `{SliceSort}.

Lemma sorted_edits es : edits_sorted (sort_slice edit_less es).
Proof.
  eapply StronglySorted_weaken; [|apply sort_slice_sorted, strict_weak_less2].
  intros e f Hef. by apply less2_false in Hef.
Qed.

Lemma check_edits_None n es :
  Forall (λ e, 0 ≤ eStart e) es →
  check_edits n (sort_slice edit_less es) = None ↔ edits_ok n es.
Proof.
  intros H0. pose proof (sort_slice_perm _ edit_less es) as Hp. pose proof (sorted_edits es) as Hs.
  set (sorted := sort_slice edit_less es) in *.
  assert (edits_ok n es ↔ edits_ok n sorted) as ->
    by (split; apply edits_ok_perm; by rewrite Hp).
  rewrite <-Hp in H0. unfold check_edits.
  pose proof (check_ranges_None n sorted H0) as Hr.
  destruct (check_ranges n sorted) as [err|].
  { split; [done|]. intros [Hrange _]. by apply Hr in Hrange. }
  assert (Forall (in_source n) sorted) as Hin by (by apply Hr).
  destruct sorted as [|e sorted]; [split; [intros _; repeat constructor|done]|].
  rewrite (check_overlaps_None n) by done. split; [by intros|by intros [? ?]].
Qed.
End statements.

(** Two edits out of order: insert before byte 3, replace bytes 0 to 2. *)
Definition sample_rewriter : Rewriter :=
  Replace (InsertBefore (NewRewriter [97; 10; 98; 99]) 3 [120; 10]) 0 2 [121].

(** The two results of [Apply], for every sorter. *)
Lemma Apply_correct `{SliceSort} r :
  edits_ok (len (rSource r)) (rEdits r) → len (rSource r) + text_len (rEdits r) < 2 ^ 32 →
  ∃ out edits, Apply r = Ret (inl (out, edits)) ∧
    out = splice_all (rSource r) (sort_slice edit_less (rEdits r)) ∧
    replays (rSource r) (sort_slice edit_less (rEdits r)) edits out.
Proof.
  intros Hok Hlen. unfold Apply. pose proof (len_nonneg (rSource r)) as Hsl.
  assert (Forall (λ e, 0 ≤ eStart e) (rEdits r)) as Hpos
    by (eapply list.Forall_impl; [exact (eo_range _ _ Hok)|]; by intros e [? _]).
  pose proof (proj2 (check_edits_None (len (rSource r)) (rEdits r) Hpos) Hok) as Hcheck.
  pose proof (sort_slice_perm _ edit_less (rEdits r)) as Hp.
  pose proof (edits_ok_perm _ _ _ (symmetry Hp) Hok) as [Hr Hc].
  pose proof (pairs_chain _ _ (sorted_edits (rEdits r)) Hr Hc) as Hch.
  assert (text_len (sort_slice edit_less (rEdits r)) = text_len (rEdits r)) as Htl
    by (by apply text_len_perm).
  pose proof (text_len_nonneg (rEdits r)).
  destruct (apply_loop_spec (rSource r) (sort_slice edit_less (rEdits r)) 0 [])
    as (edits & Hloop & Hrep); [lia|lia|done|done|change (len []) with 0; lia|].
  rewrite slice_all in Hrep. cbn [app] in Hrep, Hloop.
  assert (spliced (rSource r) 0 (sort_slice edit_less (rEdits r))
          = splice_all (rSource r) (sort_slice edit_less (rEdits r))) as Hsp.
  { rewrite (splice_all_spliced _ 0) by (done || lia). by rewrite slice_nil by lia. }
  destruct (rEdits r) as [|e es] eqn:He.
  - apply Permutation_nil_r in Hp. rewrite Hp in *. exists (rSource r), [].
    split_and!; [done..|constructor].
  - change (computeNewEndPoint (mkPoint 0 0) []) with (mkPoint 0 0) in Hloop.
    rewrite Hcheck, Hloop. cbn. exists (spliced (rSource r) 0 (sort_slice edit_less (e :: es))), edits.
    by rewrite Hsp in Hrep |- *.
Qed.

(** C30.  For every sorter meeting [sort.Slice]'s contract, [Apply] on edits
    that lie inside the source and do not clash returns the source with every
    edit carried out in place, and [InputEdit] records that, replayed in order,
    take the old source to the new one, each with the row and column of its
    start and old end in the document it applies to and of its new end in the
    document it produces. *)
Theorem Apply_splices_and_replays `{SliceSort} r :
  edits_ok (len (rSource r)) (rEdits r) → len (rSource r) + text_len (rEdits r) < 2 ^ 32 →
  ∃ out edits, Apply r = Ret (inl (out, edits)) ∧
    out = splice_all (rSource r) (sort_slice edit_less (rEdits r)) ∧
    replays (rSource r) (sort_slice edit_less (rEdits r)) edits out.
Proof. apply Apply_correct. Qed.

Lemma sample_rewriter_ok : edits_ok 4 (rEdits sample_rewriter).
Proof.
  split; [repeat constructor; cbn; lia|].
  repeat constructor; cbn; lia.
Qed.

Lemma Apply_splices_and_replays_witness :
  ∃ edits, Apply sample_rewriter = Ret (inl ([121; 98; 120; 10; 99], edits)) ∧
    replays [97; 10; 98; 99] (sort_slice edit_less (rEdits sample_rewriter)) edits
      [121; 98; 120; 10; 99].
Proof.
  destruct (Apply_splices_and_replays sample_rewriter) as (out & edits & Ha & -> & Hr);
    [exact sample_rewriter_ok|reflexivity|].
  exists edits. split; [exact Ha|exact Hr].
Defined.

(** C39.  [Apply] returns an error exactly when some edit is reversed or ends
    beyond the source, or two edits clash: one starts inside the other, or both
    insert at the same byte. *)
Theorem Apply_rejects_iff `{SliceSort} r :
  Forall (λ e, 0 ≤ eStart e) (rEdits r) →
  (∃ err, Apply r = Ret (inr err)) ↔ ¬ edits_ok (len (rSource r)) (rEdits r).
Proof.
  intros H0. pose proof (check_edits_None (len (rSource r)) (rEdits r) H0) as Hc. unfold Apply.
  destruct (rEdits r) as [|e es].
  { split; [by intros [err ?]|]. intros Hn. exfalso. apply Hn. split; constructor. }
  destruct (check_edits _ _) as [err|].
  - split; [|by exists err]. intros _ Hok. by apply Hc in Hok.
  - split.
    + intros [err He]. apply go_bind_ret in He as (res & _ & He). done.
    + intros Hn. exfalso. by apply Hn, Hc.
Qed.

Lemma Apply_rejects_iff_witness :
  (∃ err, Apply (InsertAfter (InsertBefore (NewRewriter [97; 98]) 1 [120]) 1 [121]) = Ret (inr err)) ↔
  ¬ edits_ok 2 [mkEdit 1 1 [120]; mkEdit 1 1 [121]].
Proof.
  exact (Apply_rejects_iff (InsertAfter (InsertBefore (NewRewriter [97; 98]) 1 [120]) 1 [121])
           ltac:(repeat constructor; cbn; lia)).
Defined.
