(* ===== verification/Utf16.v ===== *)
(** * UTF-16 sources

    utf16.go and [Tree.InputEditForUTF16] of tree.go: the translation of a
    UTF-16 source to the UTF-8 source the parser reads, the offset and line
    tables kept with it, and the conversions of ranges, points and edits that
    read them. *)

From Stdlib Require Import ZArith Lia ZifyBool.
From stdpp Require Import base tactics list numbers option.
From S2P Require Import Prelude Utf8 Points SliceSort IncludedRanges.
Local Open Scope Z_scope.

Inductive UTF16ByteOrder := UTF16LittleEndian | UTF16BigEndian | UTF16OtherOrder (n : Z).

Inductive utf16_error := ErrInvalidUTF16ByteLength | ErrInvalidUTF16ByteOrder | ErrInvalidUTF16Range.

(** [byteOrder.Uint16] on the two bytes of a unit. *)
Definition unit_of (big : bool) (b0 b1 : Z) : Z :=
  if big then Z.lor b1 (Z.shiftl b0 8) else Z.lor b0 (Z.shiftl b1 8).

Fixpoint decode_units (big : bool) (source : list Z) : list Z :=
  match source with
  | b0 :: b1 :: source => unit_of big b0 b1 :: decode_units big source
  | _ => []
  end.

Definition DecodeUTF16Bytes (source : list Z) (order : UTF16ByteOrder) : list Z + utf16_error :=
  if negb (len source mod 2 =? 0) then inr ErrInvalidUTF16ByteLength
  else match order with
       | UTF16LittleEndian => inl (decode_units false source)
       | UTF16BigEndian => inl (decode_units true source)
       | UTF16OtherOrder _ => inr ErrInvalidUTF16ByteOrder
       end.

Record UTF16Range := mkUTF16Range {
  StartCodeUnit : Z; EndCodeUnit : Z; uStartPoint : Point; uEndPoint : Point }.

Record UTF16Edit := mkUTF16Edit {
  uStartCodeUnit : Z; uOldEndCodeUnit : Z; uNewEndCodeUnit : Z }.

Record utf16SourceMap := mkMap {
  msource : list Z;
  mutf8 : list Z;
  byteToUnit : list Z;
  byteBoundary : list bool;
  unitToByte : list Z;
  unitBoundary : list bool;
  lineStartUnits : list Z;
  lineStartBytes : list Z }.

Definition isUTF16LeadSurrogate (u : Z) : bool := (0xD800 <=? u) && (u <=? 0xDBFF).
Definition isUTF16TrailSurrogate (u : Z) : bool := (0xDC00 <=? u) && (u <=? 0xDFFF).

(** The library's [utf16.IsSurrogate] and [utf16.DecodeRune]. *)
Definition IsSurrogate (r : Z) : bool := (0xD800 <=? r) && (r <? 0xE000).

Definition DecodeSurrogates (r1 r2 : Z) : Z :=
  if isUTF16LeadSurrogate r1 && isUTF16TrailSurrogate r2
  then Z.lor (Z.shiftl (r1 - 0xD800) 10) (r2 - 0xDC00) + 0x10000
  else RuneError.

Definition decodeUTF16Rune (source : list Z) (pos : Z) : go (Z * Z) :=
  r ← index source pos;
  if IsSurrogate r then
    if pos + 1 <? len source then
      r2 ← index source (pos + 1);
      let decoded := DecodeSurrogates r r2 in
      if negb (decoded =? RuneError) then Ret (decoded, 2) else Ret (RuneError, 1)
    else Ret (RuneError, 1)
  else Ret (r, 1).

(** [m.unitToByte[u] = byteStart] for the units inside a rune. *)
Fixpoint store_units (n : nat) (u b : Z) (l : list Z) : go (list Z) :=
  match n with
  | O => Ret l
  | S n => l ← store l u b; store_units n (u + 1) b l
  end.

(** The body of the loop for one rune; [out] is the encoded source so far. *)
Definition encode_rune (m : utf16SourceMap) (out : list Z) (unitStart r unitSize : Z)
  : go (utf16SourceMap * list Z) :=
  let byteStart := len out in
  let encoded := EncodeRune r in
  let byteSize := len encoded in
  let unitEnd := unitStart + unitSize in
  let byteEnd := byteStart + byteSize in
  utb ← store (unitToByte m) unitStart (u32 byteStart);
  utb ← store_units (Z.to_nat (unitSize - 1)) (unitStart + 1) (u32 byteStart) utb;
  utb ← store utb unitEnd (u32 byteEnd);
  ub ← store (unitBoundary m) unitStart true;
  ub ← store ub unitEnd true;
  let btu := byteToUnit m ++ make (byteSize - 1) (u32 unitStart) ++ [u32 unitEnd] in
  let bb := byteBoundary m ++ make (byteSize - 1) false ++ [true] in
  let lsu := if r =? newline then lineStartUnits m ++ [u32 unitEnd] else lineStartUnits m in
  let lsb := if r =? newline then lineStartBytes m ++ [u32 byteEnd] else lineStartBytes m in
  Ret (mkMap (msource m) (mutf8 m) btu bb utb ub lsu lsb, out ++ encoded).

Fixpoint encode_loop (fuel : nat) (m : utf16SourceMap) (out : list Z) (unitPos : Z)
  : go (utf16SourceMap * list Z) :=
  if unitPos <? len (msource m) then
    match fuel with
    | O => NoFuel
    | S fuel =>
      '(r, unitSize) ← decodeUTF16Rune (msource m) unitPos;
      '(m, out) ← encode_rune m out unitPos r unitSize;
      encode_loop fuel m out (unitPos + unitSize)
    end
  else Ret (m, out).

Definition initial_map (source : list Z) : utf16SourceMap :=
  mkMap source [] [0] [true] (make (len source + 1) 0)
    (<[0%nat := true]> (make (len source + 1) false)) [0] [0].

Definition encodeUTF16ToUTF8WithMap (source : list Z) : go (list Z * utf16SourceMap) :=
  if len source =? 0 then Ret ([], initial_map source) else
  '(m, out) ← encode_loop (length source) (initial_map source) [] 0;
  Ret (out, mkMap (msource m) out (byteToUnit m) (byteBoundary m) (unitToByte m) (unitBoundary m)
              (lineStartUnits m) (lineStartBytes m)).

(** ** Offsets and points *)

Definition byteToUTF16Unit (m : utf16SourceMap) (offset : Z) : option Z :=
  if u32 (len (byteToUnit m) - 1) <? offset then None
  else match zget (byteBoundary m) offset with
       | Some true => zget (byteToUnit m) offset
       | _ => None
       end.

Definition utf16UnitToByte (m : utf16SourceMap) (offset : Z) : option Z :=
  if u32 (len (unitToByte m) - 1) <? offset then None
  else match zget (unitBoundary m) offset with
       | Some true => zget (unitToByte m) offset
       | _ => None
       end.

(** The row of an offset: the last line start that is not beyond it. *)
Definition point_in_lines (starts : list Z) (offset : Z) : go Point :=
  i ← search_loop (λ i, s ← index starts i; Ret (offset <? s)) (length starts) 0 (len starts);
  let row := if i - 1 <? 0 then 0 else i - 1 in
  lineStart ← index starts row;
  Ret (mkPoint (u32 row) (u32 (offset - lineStart))).

Definition pointForUnit (m : utf16SourceMap) (offset : Z) : go (option Point) :=
  if u32 (len (msource m)) <? offset then Ret None
  else p ← point_in_lines (lineStartUnits m) offset; Ret (Some p).

Definition pointForByte (m : utf16SourceMap) (offset : Z) : go (option Point) :=
  match byteToUTF16Unit m offset with
  | None => Ret None
  | Some unit => pointForUnit m unit
  end.

Definition pointForUTF8Byte (m : utf16SourceMap) (offset : Z) : go (option Point) :=
  if u32 (len (mutf8 m)) <? offset then Ret None
  else p ← point_in_lines (lineStartBytes m) offset; Ret (Some p).

Definition rangeForByteRange (m : utf16SourceMap) (startByte endByte : Z) : go (option UTF16Range) :=
  if endByte <? startByte then Ret None else
  match byteToUTF16Unit m startByte, byteToUTF16Unit m endByte with
  | Some startUnit, Some endUnit =>
    sp ← pointForUnit m startUnit;
    ep ← pointForUnit m endUnit;
    Ret (match sp, ep with
         | Some sp, Some ep => Some (mkUTF16Range startUnit endUnit sp ep)
         | _, _ => None
         end)
  | _, _ => Ret None
  end.

(** The loop of [includedRangesForUTF16]; [None] is [return nil, false]. *)
Fixpoint convert_ranges (m : utf16SourceMap) (ranges : list UTF16Range) : go (option (list Range)) :=
  match ranges with
  | [] => Ret (Some [])
  | r :: ranges =>
    if EndCodeUnit r <? StartCodeUnit r then Ret None else
    match utf16UnitToByte m (StartCodeUnit r), utf16UnitToByte m (EndCodeUnit r) with
    | Some startByte, Some endByte =>
      sp ← pointForUTF8Byte m startByte;
      ep ← pointForUTF8Byte m endByte;
      match (sp : option Point), (ep : option Point) with
      | Some sp, Some ep =>
        rest ← convert_ranges m ranges;
        Ret (option_map (cons (mkRange startByte endByte sp ep)) rest)
      | _, _ => Ret None
      end
    | _, _ => Ret None
    end
  end.

Section ranges.
Context `{SliceSort}.

Definition includedRangesForUTF16 (m : utf16SourceMap) (ranges : list UTF16Range)
  : go (option (list Range)) :=
  match ranges with
  | [] => Ret (Some [])
  | _ => out ← convert_ranges m ranges; Ret (option_map normalizeIncludedRanges out)
  end.

Definition IncludedRangesForUTF16 (source : list Z) (ranges : list UTF16Range)
  : go (option (list Range)) :=
  '(_, m) ← encodeUTF16ToUTF8WithMap source; includedRangesForUTF16 m ranges.

Definition IncludedRangesForUTF16Bytes (source : list Z) (order : UTF16ByteOrder)
    (ranges : list UTF16Range) : go (list Range + utf16_error) :=
  match DecodeUTF16Bytes source order with
  | inr err => Ret (inr err)
  | inl units =>
    out ← IncludedRangesForUTF16 units ranges;
    Ret (match out with Some rs => inl rs | None => inr ErrInvalidUTF16Range end)
  end.
End ranges.

Definition utf16Boundary (source : list Z) (offset : Z) : go bool :=
  if u32 (len source) <? offset then Ret false
  else if (offset =? 0) || (offset =? u32 (len source)) then Ret true
  else
    prev ← index source (offset - 1);
    next ← index source offset;
    Ret (negb (isUTF16LeadSurrogate prev) || negb (isUTF16TrailSurrogate next)).

Fixpoint measure_loop (fuel : nat) (source : list Z) (unitPos byteLen : Z) (pt : Point) : go (Z * Point) :=
  if unitPos <? len source then
    match fuel with
    | O => NoFuel
    | S fuel =>
      '(r, unitSize) ← decodeUTF16Rune source unitPos;
      let byteSize := u32 (RuneLen r) in
      let byteLen := u32 (byteLen + byteSize) in
      let pt := if r =? newline then mkPoint (u32 (Row pt + 1)) 0
                else mkPoint (Row pt) (u32 (Column pt + byteSize)) in
      measure_loop fuel source (unitPos + unitSize) byteLen pt
    end
  else Ret (byteLen, pt).

Definition measureUTF16AsUTF8 (source : list Z) : go (Z * Point) :=
  measure_loop (length source) source 0 0 (mkPoint 0 0).

(** [InputEditForUTF16] for a tree whose source map is [m]. *)
Definition InputEditForUTF16 (m : utf16SourceMap) (edit : UTF16Edit) (newSource : list Z)
  : go (option InputEdit) :=
  if (uOldEndCodeUnit edit <? uStartCodeUnit edit) || (uNewEndCodeUnit edit <? uStartCodeUnit edit)
  then Ret None else
  b1 ← utf16Boundary newSource (uStartCodeUnit edit);
  b2 ← (if (b1 : bool) then utf16Boundary newSource (uNewEndCodeUnit edit) else Ret false);
  if negb b2 then Ret None else
  match utf16UnitToByte m (uStartCodeUnit edit), utf16UnitToByte m (uOldEndCodeUnit edit) with
  | Some startByte, Some oldEndByte =>
    replacement ← gslice newSource (uStartCodeUnit edit) (uNewEndCodeUnit edit);
    '(replacementByteLen, replacementPoint) ← measureUTF16AsUTF8 replacement;
    if 2 ^ 32 - 1 - startByte <? replacementByteLen then Ret None else
    sp ← pointForUTF8Byte m startByte;
    op ← pointForUTF8Byte m oldEndByte;
    Ret (match sp, op with
         | Some sp, Some op =>
           Some (mkInputEdit startByte oldEndByte (u32 (startByte + replacementByteLen)) sp op
                   (addPointDelta sp replacementPoint))
         | _, _ => None
         end)
  | _, _ => Ret None
  end.
