(* ===== verification/Utf16Correct.v ===== *)
(** * The UTF-16 tables are exact

    Facts about Utf16.v: the offset tables are the graph of the rune boundaries
    in both directions, the encoded source is the UTF-8 of the decoded runes,
    points are rows and columns of the UTF-8 source, and edits are translated to
    the byte edit of the encoded sources. *)

From Stdlib Require Import ZArith Lia ZifyBool.
From stdpp Require Import base tactics list numbers option.
From S2P Require Import Prelude Utf8 Points SliceSort IncludedRanges Utf16.
Local Open Scope Z_scope.

Definition unit_ok (u : Z) : Prop := 0 ≤ u < 65536.

(** ** Decoding one rune *)

Lemma DecodeSurrogates_pair r1 r2 :
  isUTF16LeadSurrogate r1 = true → isUTF16TrailSurrogate r2 = true →
  0x10000 ≤ DecodeSurrogates r1 r2 ≤ 0x10FFFF.
Proof.
  unfold DecodeSurrogates, isUTF16LeadSurrogate, isUTF16TrailSurrogate. intros H1 H2.
  rewrite H1, H2. cbn [andb]. rewrite lor_shiftl_add by lia. lia.
Qed.

(** A rune takes one unit, or two when a lead surrogate meets a trail
    surrogate; it is always a scalar value. *)
Lemma decodeUTF16Rune_spec source pos :
  Forall unit_ok source → 0 ≤ pos < len source →
  ∃ r n u, decodeUTF16Rune source pos = Ret (r, n) ∧ zget source pos = Some u ∧
    valid_rune r = true ∧ pos + n ≤ len source ∧
    (n = 1 ∧ r < 0x10000 ∧ (r = newline ↔ u = newline) ∧
       ¬ (isUTF16LeadSurrogate u = true ∧
          ∃ u2, zget source (pos + 1) = Some u2 ∧ isUTF16TrailSurrogate u2 = true) ∨
     n = 2 ∧ 0x10000 ≤ r ∧ isUTF16LeadSurrogate u = true ∧
       ∃ u2, zget source (pos + 1) = Some u2 ∧ isUTF16TrailSurrogate u2 = true).
Proof.
  intros Hok Hp. unfold decodeUTF16Rune.
  destruct (index_in_range source pos Hp) as (u & -> & Hu). cbn.
  pose proof (Forall_zget _ _ _ _ Hok Hu) as Huok. unfold unit_ok in Huok.
  assert (IsSurrogate u = (isUTF16LeadSurrogate u || isUTF16TrailSurrogate u)) as ->.
  { unfold IsSurrogate, isUTF16LeadSurrogate, isUTF16TrailSurrogate. lia. }
  assert (valid_rune RuneError = true ∧ RuneError < 0x10000 ∧ RuneError ≠ newline) as (Hv & Hlt & Hnl)
    by done.
  destruct (_ || _) eqn:Hsur.
  2:{ exists u, 1, u. split_and!; try done; [|lia|].
      - unfold valid_rune, in_range, isUTF16LeadSurrogate, isUTF16TrailSurrogate in *. lia.
      - left. split_and!; try done; [lia|]. intros [Hl _]. rewrite Hl in Hsur. done. }
  assert (u ≠ newline) as Hun.
  { unfold isUTF16LeadSurrogate, isUTF16TrailSurrogate, newline in *. lia. }
  destruct (Z.ltb_spec (pos + 1) (len source)) as [Hin|Hout].
  2:{ exists RuneError, 1, u. split_and!; try done; [lia|]. left. split_and!; try done.
      intros [_ (u2 & Hu2 & _)]. apply zget_Some_range in Hu2. lia. }
  destruct (index_in_range source (pos + 1)) as (u2 & -> & Hu2); [lia|]. cbn.
  destruct (isUTF16LeadSurrogate u) eqn:Hl, (isUTF16TrailSurrogate u2) eqn:Ht.
  { pose proof (DecodeSurrogates_pair u u2 Hl Ht) as Hd.
    destruct (Z.eqb_spec (DecodeSurrogates u u2) RuneError) as [E|_]; [unfold RuneError in E; lia|].
    exists (DecodeSurrogates u u2), 2, u. split_and!; try done; [|lia|].
    - unfold valid_rune, in_range. lia.
    - right. split_and!; try done; [lia|]. eauto. }
  all: assert (DecodeSurrogates u u2 = RuneError) as -> by (unfold DecodeSurrogates; by rewrite Hl, ?Ht).
  all: rewrite Z.eqb_refl; exists RuneError, 1, u; split_and!; try done; [lia|];
    left; split_and!; try done; intros [? (? & ? & ?)]; congruence.
Qed.

Lemma len_EncodeRune r :
  valid_rune r = true → 1 ≤ len (EncodeRune r) ≤ 4 ∧ (r < 0x10000 → len (EncodeRune r) ≤ 3).
Proof.
  intros Hv. unfold len.
  destruct (EncodeRune_spec r Hv) as [[? ->]|[[? ->]|[[? ->]|[? ->]]]]; cbn [length]; lia.
Qed.

Lemma RuneLen_EncodeRune r : valid_rune r = true → RuneLen r = len (EncodeRune r).
Proof.
  intros Hv. pose proof (valid_rune_range r Hv) as [Hr Hs]. unfold RuneLen, in_range, MaxRune, len in *.
  destruct (EncodeRune_spec r Hv) as [[? ->]|[[? ->]|[[? ->]|[? ->]]]]; cbn [length];
    unfold MaxRune in *; repeat case_match; lia.
Qed.

(** The point after an encoded rune. *)
Lemma EncodeRune_point r p :
  valid_rune r = true →
  computeNewEndPoint p (EncodeRune r) =
  if r =? newline then mkPoint (u32 (Row p + 1)) 0
  else mkPoint (Row p) (u32 (Column p + len (EncodeRune r))).
Proof.
  intros Hv. pose proof (valid_rune_range r Hv) as [Hr _]. destruct (Z.eqb_spec r newline) as [->|Hne]; [done|].
  apply computeNewEndPoint_flat.
  - intros Hn. pose proof (len_EncodeRune r Hv) as [Hl _]. rewrite Hn in Hl. change (len []) with 0 in Hl. lia.
  - unfold newline in *.
    destruct (EncodeRune_spec r Hv) as [[? ->]|[[? ->]|[[? ->]|[? ->]]]]; repeat constructor; zdiv.
Qed.

(** ** The reference encoding *)

(** The UTF-8 of a UTF-16 source: pairs are joined, a surrogate without its
    partner becomes U+FFFD. *)
Fixpoint utf8_of (l : list Z) : list Z :=
  match l with
  | [] => []
  | u :: l' =>
    match l' with
    | u2 :: l'' =>
      if isUTF16LeadSurrogate u && isUTF16TrailSurrogate u2
      then EncodeRune (DecodeSurrogates u u2) ++ utf8_of l''
      else EncodeRune (if IsSurrogate u then RuneError else u) ++ utf8_of l'
    | [] => EncodeRune (if IsSurrogate u then RuneError else u)
    end
  end.

Lemma utf8_of_cons u l :
  (∀ u2 l', l = u2 :: l' → isUTF16LeadSurrogate u && isUTF16TrailSurrogate u2 = false) →
  utf8_of (u :: l) = EncodeRune (if IsSurrogate u then RuneError else u) ++ utf8_of l.
Proof.
  intros Hj. destruct l as [|u2 l']; [cbn; by rewrite app_nil_r|].
  cbn [utf8_of]. by rewrite (Hj u2 l' eq_refl).
Qed.

(** Whether a pair is split by cutting between [a] and [b]. *)
Definition joins (a b : list Z) : bool :=
  match list.last a, list.head b with
  | Some x, Some y => isUTF16LeadSurrogate x && isUTF16TrailSurrogate y
  | _, _ => false
  end.

(** Encoding distributes over a cut that splits no pair. *)
Lemma utf8_of_app a b : joins a b = false → utf8_of (a ++ b) = utf8_of a ++ utf8_of b.
Proof.
  remember (length a) as n eqn:Hn. revert a Hn.
  induction n as [n IH] using lt_wf_ind. intros a -> Hj.
  destruct a as [|u [|u2 a]]; [done| |].
  - cbn [app]. rewrite utf8_of_cons; [done|]. intros u2 l' ->. exact Hj.
  - cbn [app]. change (utf8_of (u :: u2 :: ?l)) with
      (if isUTF16LeadSurrogate u && isUTF16TrailSurrogate u2
       then EncodeRune (DecodeSurrogates u u2) ++ utf8_of l
       else EncodeRune (if IsSurrogate u then RuneError else u) ++ utf8_of (u2 :: l)).
    assert (joins (u2 :: a) b = false) as Hj2 by exact Hj.
    assert (joins a b = false) as Hj3.
    { unfold joins in *. destruct a; [done|exact Hj]. }
    destruct (_ && _); rewrite <-app_assoc; f_equal.
    + apply (IH (length a)); [cbn; lia|done|done].
    + apply (IH (length (u2 :: a))) with (a := u2 :: a); [cbn; lia|done|done].
Qed.

(** One rune of the decoder is one step of the encoding. *)
Lemma utf8_of_step source u r n :
  Forall unit_ok source → 0 ≤ u < len source → decodeUTF16Rune source u = Ret (r, n) →
  utf8_of (slice source u (len source)) = EncodeRune r ++ utf8_of (slice source (u + n) (len source)).
Proof.
  intros Hok Hu Hd. destruct (decodeUTF16Rune_spec source u Hok Hu)
    as (r' & n' & w & Hd' & Hw & Hv & Hle & Hcase).
  rewrite Hd in Hd'. injection Hd' as <- <-.
  rewrite (slice_cons _ _ _ w) by (done || lia). unfold decodeUTF16Rune in Hd.
  rewrite (proj2 (index_Ret _ _ _) Hw) in Hd. cbn in Hd.
  destruct Hcase as [(-> & _ & _ & Hno)|(-> & Hr & Hlead & w2 & Hw2 & Htrail)].
  - rewrite utf8_of_cons.
    + f_equal. f_equal. destruct (IsSurrogate w); [|by simplify_eq].
      destruct (_ <? _); [|by simplify_eq]. apply go_bind_ret in Hd as (w2 & _ & Hd).
      revert Hd. case_match; by intros [= ->].
    + intros u2 l' Hl. destruct (isUTF16LeadSurrogate w) eqn:El; [|done]. cbn.
      destruct (isUTF16TrailSurrogate u2) eqn:Et; [|done]. exfalso. apply Hno. split; [done|].
      exists u2. split; [|done].
      assert (u + 1 < len source) as Hlt.
      { destruct (decide (u + 1 < len source)); [done|]. by rewrite slice_nil in Hl by lia. }
      destruct (zget_in_range source (u + 1)) as [x Hx]; [lia|].
      rewrite (slice_cons _ _ _ x) in Hl by (done || lia). congruence.
  - pose proof (zget_Some_range _ _ _ Hw2).
    rewrite (slice_cons _ (u + 1) _ w2) by (done || lia). cbn [utf8_of]. rewrite Hlead, Htrail. cbn [andb].
    replace (u + 1 + 1) with (u + 2) by lia. f_equal. f_equal.
    destruct (IsSurrogate w) eqn:Es.
    + destruct (Z.ltb_spec (u + 1) (len source)); [|lia].
      rewrite (proj2 (index_Ret _ _ _) Hw2) in Hd. cbn in Hd. revert Hd. case_match; by intros [= ->].
    + by injection Hd.
Qed.

(** ** Rune boundaries *)

Section boundaries.
Context (source : list Z) (Hok : Forall unit_ok source).

(** After [k] runes the cursor is at unit [u] of the source and at byte [b] of
    its UTF-8 encoding. *)
Inductive bnd : nat → Z → Z → Prop :=
| bnd_0 : bnd 0 0 0
| bnd_S k u b r n :
    bnd k u b → u < len source → decodeUTF16Rune source u = Ret (r, n) →
    bnd (S k) (u + n) (b + len (EncodeRune r)).

Lemma bnd_range k u b : bnd k u b → 0 ≤ u ≤ len source ∧ 0 ≤ b ≤ 3 * u.
Proof using Hok.
  induction 1 as [|k u b r n _ IH Hu Hd]; [pose proof (len_nonneg source); lia|].
  destruct (decodeUTF16Rune_spec source u Hok) as (r' & n' & w & Hd' & _ & Hv & Hn & Hcase); [lia|].
  rewrite Hd in Hd'. injection Hd' as <- <-. pose proof (len_EncodeRune r Hv) as [? ?].
  destruct Hcase as [(? & ? & _)|(? & _)]; lia.
Qed.

Lemma bnd_step k u b : bnd k u b → u < len source →
  ∃ r n, decodeUTF16Rune source u = Ret (r, n) ∧ valid_rune r = true ∧ 1 ≤ n ≤ 2 ∧
    1 ≤ len (EncodeRune r) ≤ 4 ∧ bnd (S k) (u + n) (b + len (EncodeRune r)).
Proof using Hok.
  intros Hb Hu. pose proof (bnd_range k u b Hb).
  destruct (decodeUTF16Rune_spec source u Hok) as (r & n & w & Hd & _ & Hv & _ & Hcase); [lia|].
  exists r, n. pose proof (len_EncodeRune r Hv) as [? _].
  split_and!; try done; try lia; [destruct Hcase; lia..|]. by eapply bnd_S.
Qed.

Lemma bnd_det k u b u' b' : bnd k u b → bnd k u' b' → u = u' ∧ b = b'.
Proof.
  intros H. revert u' b'. induction H as [|k u b r n _ IH Hu Hd]; intros u' b' H'.
  { by inversion H'. }
  inversion H' as [|? u1 b1 r1 n1 Hb1 Hu1 Hd1]; subst. destruct (IH _ _ Hb1) as [-> ->].
  rewrite Hd in Hd1. by injection Hd1 as -> ->.
Qed.

Lemma bnd_lt k j u b u' b' : bnd k u b → bnd j u' b' → (k < j)%nat → u < u' ∧ b < b'.
Proof using Hok.
  intros H H'. revert u b H. induction H' as [|j u1 b1 r n Hb IH Hu Hd]; intros u b H Hkj; [lia|].
  destruct (bnd_step j u1 b1 Hb Hu) as (r' & n' & Hd' & _ & Hn & Hl & _).
  rewrite Hd in Hd'. injection Hd' as <- <-.
  destruct (decide (k = j)) as [->|].
  - destruct (bnd_det _ _ _ _ _ H Hb) as [-> ->]. lia.
  - destruct (IH u b H) as [? ?]; lia.
Qed.

(** Boundaries are ordered the same way in both encodings. *)
Lemma bnd_unit_inj k j u b b' : bnd k u b → bnd j u b' → k = j ∧ b = b'.
Proof using Hok.
  intros H H'. destruct (Nat.lt_trichotomy k j) as [Hlt|[->|Hlt]].
  - pose proof (bnd_lt _ _ _ _ _ _ H H' Hlt). lia.
  - destruct (bnd_det _ _ _ _ _ H H'). done.
  - pose proof (bnd_lt _ _ _ _ _ _ H' H Hlt). lia.
Qed.

Lemma bnd_byte_inj k j u u' b : bnd k u b → bnd j u' b → k = j ∧ u = u'.
Proof using Hok.
  intros H H'. destruct (Nat.lt_trichotomy k j) as [Hlt|[->|Hlt]].
  - pose proof (bnd_lt _ _ _ _ _ _ H H' Hlt). lia.
  - destruct (bnd_det _ _ _ _ _ H H'). done.
  - pose proof (bnd_lt _ _ _ _ _ _ H' H Hlt). lia.
Qed.
End boundaries.

(** ** Line starts *)

Fixpoint line_starts_from (l : list Z) (i : Z) : list Z :=
  match l with
  | [] => []
  | b :: l => if b =? newline then (i + 1) :: line_starts_from l (i + 1) else line_starts_from l (i + 1)
  end.

(** Offset zero and every offset behind a newline. *)
Definition line_starts (l : list Z) : list Z := 0 :: line_starts_from l 0.

Lemma line_starts_from_app a b i :
  line_starts_from (a ++ b) i = line_starts_from a i ++ line_starts_from b (i + len a).
Proof.
  revert i. induction a as [|x a IH]; intros i; cbn; [by replace (i + len []) with i by (unfold len; cbn; lia)|].
  rewrite IH, len_cons. replace (i + 1 + len a) with (i + (len a + 1)) by lia. by destruct (x =? newline).
Qed.

Lemma line_starts_app a b : line_starts (a ++ b) = line_starts a ++ line_starts_from b (len a).
Proof. unfold line_starts. rewrite line_starts_from_app. done. Qed.

Lemma line_starts_flat l i : Forall (λ x, x ≠ newline) l → line_starts_from l i = [].
Proof.
  intros H. revert i. induction H as [|x l Hx _ IH]; intros i; cbn; [done|].
  destruct (Z.eqb_spec x newline); [done|]. apply IH.
Qed.

Lemma EncodeRune_lines r i :
  valid_rune r = true →
  line_starts_from (EncodeRune r) i = if r =? newline then [i + len (EncodeRune r)] else [].
Proof.
  intros Hv. pose proof (valid_rune_range r Hv) as [Hr _].
  destruct (Z.eqb_spec r newline) as [->|Hne]; [done|].
  apply line_starts_flat. unfold newline in *.
  destruct (EncodeRune_spec r Hv) as [[? ->]|[[? ->]|[[? ->]|[? ->]]]]; repeat constructor; zdiv.
Qed.

(** ** The encoding loop *)

Section encode.
Context (source : list Z) (Hok : Forall unit_ok source) (Hlen : 3 * len source + 1 < 2 ^ 32).
Abbreviation bnd := (bnd source).

(** The tables after [k] runes: up to unit [u], with [out] encoded. *)
Record enc_inv (k : nat) (u : Z) (out : list Z) (m : utf16SourceMap) : Prop := {
  ei_bnd : bnd k u (len out);
  ei_source : msource m = source;
  ei_utb_len : len (unitToByte m) = len source + 1;
  ei_ub_len : len (unitBoundary m) = len source + 1;
  ei_btu_len : len (byteToUnit m) = len out + 1;
  ei_bb_len : len (byteBoundary m) = len out + 1;
  ei_unit i : zget (unitBoundary m) i = Some true ↔ ∃ j b, (j ≤ k)%nat ∧ bnd j i b;
  ei_unit_val j i b : (j ≤ k)%nat → bnd j i b → zget (unitToByte m) i = Some b;
  ei_byte b : zget (byteBoundary m) b = Some true ↔ ∃ j i, (j ≤ k)%nat ∧ bnd j i b;
  ei_byte_val j i b : (j ≤ k)%nat → bnd j i b → zget (byteToUnit m) b = Some i;
  ei_out : out ++ utf8_of (slice source u (len source)) = utf8_of source;
  ei_lines_b : lineStartBytes m = line_starts out;
  ei_lines_u : lineStartUnits m = line_starts (slice source 0 u) }.

Lemma initial_inv : enc_inv 0 0 [] (initial_map source).
Proof using Hok.
  pose proof (len_nonneg source).
  assert (∀ j i b, (j ≤ 0)%nat → bnd j i b → i = 0 ∧ b = 0) as H0
    by (intros j i b Hj Hb; assert (j = 0%nat) as -> by lia; by inversion Hb).
  split; cbn; try done; rewrite ?len_insert, ?len_make by lia; try done.
  - constructor.
  - intros i. split.
    + intros Hi. exists 0%nat, 0. split; [lia|]. replace i with 0; [constructor|].
      destruct (decide (0 = i)) as [|Hne]; [done|].
      change 0%nat with (Z.to_nat 0) in Hi. rewrite zget_insert_ne in Hi by done.
      pose proof (zget_Some_range _ _ _ Hi) as Hr. rewrite len_make in Hr by lia.
      rewrite zget_make in Hi by lia. done.
    + intros (j & b & Hj & Hb). destruct (H0 _ _ _ Hj Hb) as [-> _].
      change 0%nat with (Z.to_nat 0). apply zget_insert_eq. rewrite len_make; lia.
  - intros j i b Hj Hb. destruct (H0 _ _ _ Hj Hb) as [-> ->]. apply zget_make. lia.
  - intros b. split.
    + intros Hb%zget_Some_range. exists 0%nat, 0. split; [lia|].
      replace b with 0 by (unfold len in Hb; cbn in Hb; lia). constructor.
    + intros (j & i & Hj & Hb). by destruct (H0 _ _ _ Hj Hb) as [_ ->].
  - intros j i b Hj Hb. by destruct (H0 _ _ _ Hj Hb) as [-> ->].
  - by rewrite slice_all.
Qed.

(** The appended entries of the byte tables. *)
Lemma zget_appended {A} (l : list A) (n x y : _) i :
  1 ≤ n → zget (l ++ make (n - 1) x ++ [y]) i =
  if i <? len l then zget l i else if i <? len l + n - 1 then Some x
  else if i =? len l + n - 1 then Some y else None.
Proof.
  intros Hn. destruct (Z.ltb_spec i (len l)); [by apply zget_app_l|].
  rewrite zget_app_r by lia. destruct (Z.ltb_spec i (len l + n - 1)).
  - rewrite zget_app_l by (rewrite len_make; lia). apply zget_make. lia.
  - rewrite zget_app_r by (rewrite len_make; lia). rewrite len_make by lia.
    destruct (Z.eqb_spec i (len l + n - 1)) as [->|].
    + by replace (_ - _) with 0 by lia.
    + apply zget_None. change (len [y]) with 1. lia.
Qed.

(** The unit tables after the stores of one rune. *)
Lemma store_rune_ok (utb : list Z) (ub : list bool) u n x y :
  0 ≤ u → 1 ≤ n ≤ 2 → u + n < len utb → len ub = len utb →
  ∃ utb' ub',
    (l1 ← store utb u x; l2 ← store_units (Z.to_nat (n - 1)) (u + 1) x l1; store l2 (u + n) y) = Ret utb' ∧
    (l1 ← store ub u true; store l1 (u + n) true) = Ret ub' ∧
    len utb' = len utb ∧ len ub' = len ub ∧
    (∀ i, zget utb' i = if i =? u + n then Some y else if (u <=? i) && (i <? u + n) then Some x
                        else zget utb i) ∧
    (∀ i, zget ub' i = if (i =? u) || (i =? u + n) then Some true else zget ub i).
Proof.
  intros Hu Hn Hl Hl'.
  assert (∀ (l : list Z) i j z, 0 ≤ i < len l → zget (<[Z.to_nat i := z]> l) j = if j =? i then Some z else zget l j) as Hins.
  { intros l i j z Hi. destruct (Z.eqb_spec j i) as [->|]; [by apply zget_insert_eq|by apply zget_insert_ne; lia]. }
  assert (∀ (l : list bool) i j z, 0 ≤ i < len l → zget (<[Z.to_nat i := z]> l) j = if j =? i then Some z else zget l j) as Hinsb.
  { intros l i j z Hi. destruct (Z.eqb_spec j i) as [->|]; [by apply zget_insert_eq|by apply zget_insert_ne; lia]. }
  destruct (decide (n = 1)) as [->|Hn2].
  - change (Z.to_nat (1 - 1)) with 0%nat. cbn [store_units].
    rewrite !store_ok by lia. cbn. rewrite !store_ok by (rewrite len_insert; lia).
    do 2 eexists. split_and!; [done|done|by rewrite !len_insert|by rewrite !len_insert| |];
      intros i; rewrite ?Hins, ?Hinsb by (rewrite ?len_insert; lia); zcases; cbn; try done; lia.
  - assert (n = 2) as -> by lia. change (Z.to_nat (2 - 1)) with 1%nat. cbn [store_units].
    rewrite !store_ok by lia. cbn. rewrite !store_ok by (rewrite len_insert; lia). cbn.
    rewrite !store_ok by (rewrite !len_insert; lia).
    do 2 eexists. split_and!; [done|done|by rewrite !len_insert|by rewrite !len_insert| |];
      intros i; rewrite ?Hins, ?Hinsb by (rewrite ?len_insert; lia); zcases; cbn; try done; lia.
Qed.
(** The newlines among the units of one rune. *)
Lemma units_lines u r n :
  0 ≤ u < len source → decodeUTF16Rune source u = Ret (r, n) →
  line_starts_from (slice source u (u + n)) u = if r =? newline then [u + n] else [].
Proof using Hok.
  intros Hu Hd. destruct (decodeUTF16Rune_spec source u Hok Hu)
    as (r' & n' & w & Hd' & Hw & Hv & Hle & Hcase).
  rewrite Hd in Hd'. injection Hd' as <- <-. destruct Hcase as [(-> & _ & Hnl & _)|(-> & Hr & Hlead & w2 & Hw2 & Htrail)].
  - rewrite (slice_cons _ _ _ w), slice_nil by (done || lia). cbn.
    destruct (Z.eqb_spec w newline), (Z.eqb_spec r newline); try done; tauto.
  - rewrite (slice_cons _ _ _ w), (slice_cons _ _ _ w2), slice_nil by (done || lia). cbn.
    unfold isUTF16LeadSurrogate, isUTF16TrailSurrogate, newline in *.
    destruct (Z.eqb_spec w 10), (Z.eqb_spec w2 10), (Z.eqb_spec r 10); try lia. done.
Qed.

(** Unit boundaries next to the one reached. *)
Lemma bnd_before k j u b i c : bnd k u b → bnd j i c → (j ≤ k)%nat → i ≤ u ∧ c ≤ b ∧ (i = u → c = b ∧ j = k) ∧ (c = b → i = u).
Proof using Hok.
  intros Hk Hj Hle. destruct (decide (j = k)) as [->|].
  - destruct (bnd_det _ _ _ _ _ _ Hk Hj) as [<- <-]. lia.
  - destruct (bnd_lt source Hok _ _ _ _ _ _ Hj Hk); lia.
Qed.

(** The boundaries known after one more rune of [n] units and [s] bytes. *)
Lemma bnd_next_cases k u b n s j i c :
  bnd k u b → bnd (S k) (u + n) (b + s) → (j ≤ S k)%nat → bnd j i c →
  (j ≤ k)%nat ∧ i ≤ u ∧ c ≤ b ∧ (i = u → c = b) ∨ i = u + n ∧ c = b + s.
Proof using Hok.
  intros Hb Hb' Hj Hbj. destruct (decide (j = S k)) as [->|].
  - right. destruct (bnd_det _ _ _ _ _ _ Hb' Hbj). done.
  - left. destruct (bnd_before _ _ _ _ _ _ Hb Hbj) as (? & ? & ? & ?); [lia|]. split_and!; [lia..|tauto].
Qed.

Section step.
Context (k : nat) (u b n s : Z) (Hb : bnd k u b) (Hb' : bnd (S k) (u + n) (b + s)).
Context (Hn : 1 ≤ n) (Hs : 1 ≤ s).

Lemma unit_flags_step (ub ub' : list bool) :
  (∀ i, zget ub i = Some true ↔ ∃ j c, (j ≤ k)%nat ∧ bnd j i c) →
  (∀ i, zget ub' i = if (i =? u) || (i =? u + n) then Some true else zget ub i) →
  ∀ i, zget ub' i = Some true ↔ ∃ j c, (j ≤ S k)%nat ∧ bnd j i c.
Proof using Hok Hb Hb'.
  intros Hub Hget i. rewrite Hget. destruct (Z.eqb_spec i u) as [->|Hiu]; cbn [orb].
  { split; [|done]. intros _. exists k, b. split; [lia|done]. }
  destruct (Z.eqb_spec i (u + n)) as [->|Hiu'].
  { split; [|done]. intros _. exists (S k), (b + s). split; [lia|done]. }
  rewrite Hub. split; intros (j & c & Hj & Hbj).
  - exists j, c. split; [lia|done].
  - destruct (bnd_next_cases _ _ _ _ _ _ _ _ Hb Hb' Hj Hbj) as [(? & _)|[? _]]; [by exists j, c|done].
Qed.

Lemma unit_values_step (utb utb' : list Z) :
  (∀ j i c, (j ≤ k)%nat → bnd j i c → zget utb i = Some c) →
  (∀ i, zget utb' i = if i =? u + n then Some (b + s)
                      else if (u <=? i) && (i <? u + n) then Some b else zget utb i) →
  ∀ j i c, (j ≤ S k)%nat → bnd j i c → zget utb' i = Some c.
Proof using Hok Hb Hb' Hn.
  intros Hutb Hget j i c Hj Hbj. rewrite Hget.
  destruct (bnd_next_cases _ _ _ _ _ _ _ _ Hb Hb' Hj Hbj) as [(Hjk & Hi & Hc & Heq)|[-> ->]].
  - destruct (Z.eqb_spec i (u + n)); [lia|]. destruct (Z.leb_spec u i); cbn [andb].
    + destruct (Z.ltb_spec i (u + n)); [|lia]. by rewrite Heq by lia.
    + by apply (Hutb j).
  - by rewrite Z.eqb_refl.
Qed.

Lemma byte_flags_step (bb : list bool) :
  len bb = b + 1 → (∀ c, zget bb c = Some true ↔ ∃ j i, (j ≤ k)%nat ∧ bnd j i c) →
  ∀ c, zget (bb ++ make (s - 1) false ++ [true]) c = Some true ↔ ∃ j i, (j ≤ S k)%nat ∧ bnd j i c.
Proof using Hok Hb Hb' Hs.
  intros Hlb Hbb c. rewrite zget_appended, Hlb by lia. split.
  - intros Hc. destruct (Z.ltb_spec c (b + 1)).
    + apply Hbb in Hc as (j & i & Hj & Hbj). exists j, i. split; [lia|done].
    + destruct (Z.ltb_spec c (b + 1 + s - 1)); [done|]. destruct (Z.eqb_spec c (b + 1 + s - 1)); [|done].
      exists (S k), (u + n). split; [lia|]. by replace c with (b + s) by lia.
  - intros (j & i & Hj & Hbj).
    destruct (bnd_next_cases _ _ _ _ _ _ _ _ Hb Hb' Hj Hbj) as [(Hjk & Hi & Hc & _)|[-> ->]].
    + destruct (Z.ltb_spec c (b + 1)); [|lia]. apply Hbb. by exists j, i.
    + destruct (Z.ltb_spec (b + s) (b + 1)); [lia|]. destruct (Z.ltb_spec (b + s) (b + 1 + s - 1)); [lia|].
      by destruct (Z.eqb_spec (b + s) (b + 1 + s - 1)); [|lia].
Qed.

Lemma byte_values_step (btu : list Z) x :
  len btu = b + 1 → (∀ j i c, (j ≤ k)%nat → bnd j i c → zget btu c = Some i) →
  ∀ j i c, (j ≤ S k)%nat → bnd j i c → zget (btu ++ make (s - 1) x ++ [u + n]) c = Some i.
Proof using Hok Hb Hb' Hs.
  intros Hlb Hbtu j i c Hj Hbj. rewrite zget_appended, Hlb by lia.
  destruct (bnd_next_cases _ _ _ _ _ _ _ _ Hb Hb' Hj Hbj) as [(Hjk & Hi & Hc & _)|[-> ->]].
  - destruct (Z.ltb_spec c (b + 1)); [|lia]. by apply (Hbtu j).
  - destruct (Z.ltb_spec (b + s) (b + 1)); [lia|]. destruct (Z.ltb_spec (b + s) (b + 1 + s - 1)); [lia|].
    by destruct (Z.eqb_spec (b + s) (b + 1 + s - 1)); [|lia].
Qed.
End step.

Lemma encode_rune_inv k u out m :
  enc_inv k u out m → u < len source →
  ∃ r n m', decodeUTF16Rune source u = Ret (r, n) ∧ 1 ≤ n ∧
    encode_rune m out u r n = Ret (m', out ++ EncodeRune r) ∧
    enc_inv (S k) (u + n) (out ++ EncodeRune r) m'.
Proof using Hok Hlen.
  intros Hm Hu. pose proof (ei_bnd _ _ _ _ Hm) as Hb.
  destruct (bnd_step source Hok k u _ Hb Hu) as (r & n & Hd & Hv & Hn & Hl & Hb').
  pose proof (bnd_range source Hok _ _ _ Hb) as [Hur Hbr].
  pose proof (bnd_range source Hok _ _ _ Hb') as [Hur' Hbr'].
  set (s := len (EncodeRune r)) in *. set (B := len out) in *.
  destruct (store_rune_ok (unitToByte m) (unitBoundary m) u n (u32 B) (u32 (B + s)))
    as (utb & ub & Hutb & Hub & Hlutb & Hlub & Gutb & Gub);
    [lia|lia|rewrite (ei_utb_len _ _ _ _ Hm); lia|by rewrite (ei_utb_len _ _ _ _ Hm), (ei_ub_len _ _ _ _ Hm)|].
  rewrite !u32_id in Gutb by lia.
  exists r, n. eexists. split; [done|]. split; [lia|]. split.
  { unfold encode_rune. fold B s. apply go_bind_ret in Hutb as (l1 & -> & Hutb).
    apply go_bind_ret in Hutb as (l2 & H2 & H3). cbn. rewrite H2. cbn. rewrite H3. cbn.
    apply go_bind_ret in Hub as (l3 & -> & H4). cbn. rewrite H4. cbn. done. }
  pose proof (ei_btu_len _ _ _ _ Hm) as Hbtu. pose proof (ei_bb_len _ _ _ _ Hm) as Hbb. fold B in Hbtu, Hbb.
  rewrite !(u32_id (u + n)), ?(u32_id (B + s)) by lia. split; cbn.
  - by rewrite len_app.
  - apply Hm.
  - rewrite Hlutb. apply Hm.
  - rewrite Hlub. apply Hm.
  - rewrite !len_app, len_make by lia. change (len [u + n]) with 1. fold B s. lia.
  - rewrite !len_app, len_make by lia. change (len [true]) with 1. fold B s. lia.
  - apply (unit_flags_step k u B n s Hb Hb' (unitBoundary m)); [apply Hm|done].
  - apply (unit_values_step k u B n s Hb Hb' ltac:(lia) (unitToByte m)); [apply Hm|done].
  - apply (byte_flags_step k u B n s Hb Hb'); [lia|done|apply Hm].
  - apply (byte_values_step k u B n s Hb Hb'); [lia|done|apply Hm].
  - rewrite <-app_assoc, <-(utf8_of_step source u r n) by (done || lia). apply Hm.
  - rewrite line_starts_app, EncodeRune_lines by done. fold s B.
    rewrite (ei_lines_b _ _ _ _ Hm). by destruct (r =? newline); [|rewrite app_nil_r].
  - rewrite <-(slice_app_split source 0 u (u + n)) by lia. rewrite line_starts_app, len_slice by lia.
    rewrite Z.sub_0_r, (ei_lines_u _ _ _ _ Hm).
    rewrite (units_lines u r n) by (done || lia). by destruct (r =? newline); [|rewrite app_nil_r].
Qed.

Lemma encode_loop_inv fuel k u out m :
  enc_inv k u out m → len source - u ≤ Z.of_nat fuel →
  ∃ k' m' out', encode_loop fuel m out u = Ret (m', out') ∧ enc_inv k' (len source) out' m'.
Proof using Hok Hlen.
  revert k u out m. induction fuel as [|fuel IH]; intros k u out m Hm Hf;
    pose proof (bnd_range source Hok _ _ _ (ei_bnd _ _ _ _ Hm)) as [Hu _]; cbn;
    rewrite (ei_source _ _ _ _ Hm); destruct (Z.ltb_spec u (len source)); try lia;
    try (assert (u = len source) as -> by lia; eauto).
  destruct (encode_rune_inv k u out m Hm) as (r & n & m1 & -> & Hn & Henc & Hm1); [done|].
  cbn. rewrite Henc. cbn. apply (IH (S k)); [done|lia].
Qed.

(** The finished map. *)
Record map_ok (out : list Z) (m : utf16SourceMap) : Prop := {
  mo_out : out = utf8_of source;
  mo_source : msource m = source;
  mo_utf8 : mutf8 m = out;
  mo_unit i b : utf16UnitToByte m i = Some b ↔ ∃ j, bnd j i b;
  mo_byte b i : byteToUTF16Unit m b = Some i ↔ ∃ j, bnd j i b;
  mo_lines_b : lineStartBytes m = line_starts out;
  mo_lines_u : lineStartUnits m = line_starts source;
  mo_end : ∃ j, bnd j (len source) (len out) }.

Lemma bnd_last k j b i c : bnd k (len source) b → bnd j i c → (j ≤ k)%nat ∧ i ≤ len source ∧ c ≤ b.
Proof using Hok.
  intros Hk Hj. destruct (decide (j ≤ k)%nat) as [Hle|].
  - destruct (bnd_before _ _ _ _ _ _ Hk Hj Hle) as (? & ? & _). done.
  - destruct (bnd_lt source Hok _ _ _ _ _ _ Hk Hj) as [? _]; [lia|].
    pose proof (bnd_range source Hok _ _ _ Hj). lia.
Qed.

Lemma enc_inv_map k out m out' :
  enc_inv k (len source) out m → mutf8 m = out' → out' = out → map_ok out m.
Proof using Hok Hlen.
  intros Hm Hu ->. pose proof (ei_bnd _ _ _ _ Hm) as Hb.
  pose proof (bnd_range source Hok _ _ _ Hb) as [_ Hbr]. pose proof (len_nonneg source).
  split; try done.
  - rewrite <-(ei_out _ _ _ _ Hm), slice_nil by lia. by rewrite app_nil_r.
  - apply Hm.
  - intros i b. unfold utf16UnitToByte. rewrite (ei_utb_len _ _ _ _ Hm).
    rewrite u32_id by lia. destruct (Z.ltb_spec (len source + 1 - 1) i).
    { split; [done|]. intros [j Hj]. pose proof (bnd_last _ _ _ _ _ Hb Hj). lia. }
    pose proof (ei_unit _ _ _ _ Hm i) as Htrue. split.
    + destruct (zget (unitBoundary m) i) as [[]|]; [|done..].
      destruct (proj1 Htrue eq_refl) as (j & c & Hj & Hbj).
      rewrite (ei_unit_val _ _ _ _ Hm j i c Hj Hbj). intros [= <-]. by exists j.
    + intros [j Hbj]. destruct (bnd_last _ _ _ _ _ Hb Hbj) as [Hj _].
      rewrite (proj2 Htrue) by (by exists j, b). by apply (ei_unit_val _ _ _ _ Hm j).
  - intros b i. unfold byteToUTF16Unit. rewrite (ei_btu_len _ _ _ _ Hm).
    rewrite u32_id by lia. destruct (Z.ltb_spec (len out + 1 - 1) b).
    { split; [done|]. intros [j Hj]. pose proof (bnd_last _ _ _ _ _ Hb Hj). lia. }
    pose proof (ei_byte _ _ _ _ Hm b) as Htrue. split.
    + destruct (zget (byteBoundary m) b) as [[]|]; [|done..].
      destruct (proj1 Htrue eq_refl) as (j & c & Hj & Hbj).
      rewrite (ei_byte_val _ _ _ _ Hm j c b Hj Hbj). intros [= <-]. by exists j.
    + intros [j Hbj]. destruct (bnd_last _ _ _ _ _ Hb Hbj) as [Hj _].
      rewrite (proj2 Htrue) by (by exists j, i). by apply (ei_byte_val _ _ _ _ Hm j).
  - apply Hm.
  - rewrite (ei_lines_u _ _ _ _ Hm). by rewrite slice_all.
  - by exists k.
Qed.

Lemma encode_map_ok : ∃ out m, encodeUTF16ToUTF8WithMap source = Ret (out, m) ∧ map_ok out m.
Proof using Hok Hlen.
  unfold encodeUTF16ToUTF8WithMap. pose proof initial_inv as Hinit.
  destruct (Z.eqb_spec (len source) 0) as [H0|Hne].
  - do 2 eexists. split; [done|]. rewrite <-H0 in Hinit at 1. by eapply enc_inv_map.
  - destruct (encode_loop_inv (length source) 0 0 [] (initial_map source) Hinit)
      as (k & m & out & -> & Hm); [unfold len; lia|]. cbn. do 2 eexists. split; [done|].
    apply (enc_inv_map k _ _ out); [|done|done]. by destruct Hm.
Qed.

(** Every unit offset is a boundary or falls inside a pair. *)
Lemma bnd_cover (x : nat) :
  Z.of_nat x ≤ len source →
  (∃ j b, bnd j (Z.of_nat x) b) ∨
  (∃ j b r, bnd j (Z.of_nat x - 1) b ∧ decodeUTF16Rune source (Z.of_nat x - 1) = Ret (r, 2)).
Proof using Hok.
  induction x as [|x IH]; intros Hx; [left; exists 0%nat, 0; constructor|].
  replace (Z.of_nat (S x) - 1) with (Z.of_nat x) by lia. replace (Z.of_nat (S x)) with (Z.of_nat x + 1) by lia.
  destruct IH as [(j & b & Hb)|(j & b & r & Hb & Hd)]; [lia| |].
  - destruct (bnd_step source Hok j _ b Hb) as (r & n & Hd & _ & Hn & _ & Hb'); [lia|].
    destruct (decide (n = 1)) as [->|]; [left; eauto|right].
    exists j, b, r. by replace 2 with n by lia.
  - left. exists (S j). eexists. replace (Z.of_nat x + 1) with (Z.of_nat x - 1 + 2) by lia.
    apply (bnd_S source j _ b r 2 Hb); [lia|done].
Qed.

(** The local surrogate test finds exactly the rune boundaries. *)
Lemma utf16Boundary_iff u :
  0 ≤ u → ∃ c, utf16Boundary source u = Ret c ∧ (c = true ↔ ∃ j b, bnd j u b).
Proof using Hok Hlen.
  intros Hu. pose proof (len_nonneg source). unfold utf16Boundary. rewrite u32_id by lia.
  destruct (Z.ltb_spec (len source) u).
  { exists false. split; [done|]. split; [done|]. intros (j & b & Hb).
    pose proof (bnd_range source Hok _ _ _ Hb). lia. }
  pose proof (bnd_cover (Z.to_nat u)) as Hcov. rewrite Z2Nat.id in Hcov by lia. specialize (Hcov ltac:(lia)).
  destruct (Z.eqb_spec u 0) as [->|Hu0]; cbn [orb].
  { exists true. split; [done|]. split; [|done]. intros _. exists 0%nat, 0. constructor. }
  destruct (Z.eqb_spec u (len source)) as [->|Hul].
  { exists true. split; [done|]. split; [|done]. intros _. destruct Hcov as [?|(j & b & r & Hb & Hd)]; [done|].
    destruct (decodeUTF16Rune_spec source (len source - 1) Hok) as (r' & n' & w & Hd' & _ & _ & Hle & _); [lia|].
    rewrite Hd in Hd'. injection Hd' as <- <-. lia. }
  destruct (index_in_range source (u - 1)) as (prev & -> & Hprev); [lia|]. cbn.
  destruct (index_in_range source u) as (next & -> & Hnext); [lia|]. cbn. eexists. split; [done|].
  split.
  - intros Hc. destruct Hcov as [?|(j & b & r & Hb & Hd)]; [done|exfalso].
    destruct (decodeUTF16Rune_spec source (u - 1) Hok) as (r' & n' & w & Hd' & Hw & _ & _ & Hcase); [lia|].
    rewrite Hd in Hd'. injection Hd' as <- <-.
    destruct Hcase as [(? & _)|(_ & _ & Hl & w2 & Hw2 & Ht)]; [done|].
    replace (u - 1 + 1) with u in Hw2 by lia. simplify_eq. rewrite Hl, Ht in Hc. done.
  - intros (j & b & Hb). destruct (isUTF16LeadSurrogate prev) eqn:Hl; [|done].
    destruct (isUTF16TrailSurrogate next) eqn:Ht; [exfalso|done].
    inversion Hb as [|j' u' b' r n Hb' Hu' Hd]; subst; [done|].
    pose proof (bnd_range source Hok _ _ _ Hb') as [? _].
    destruct (decodeUTF16Rune_spec source u' Hok) as (r' & n' & w & Hd' & Hw & _ & _ & Hcase); [lia|].
    rewrite Hd in Hd'. injection Hd' as <- <-.
    destruct Hcase as [(-> & _ & _ & Hno)|(-> & _ & _ & w2 & Hw2 & Ht2)].
    + apply Hno. replace (u' + 1 - 1) with u' in Hprev by lia. simplify_eq. eauto.
    + replace (u' + 2 - 1) with (u' + 1) in Hprev by lia. simplify_eq.
      unfold isUTF16LeadSurrogate, isUTF16TrailSurrogate in *. lia.
Qed.

(** A boundary cuts the encoding where it cuts the source. *)
Lemma bnd_prefix j u b :
  bnd j u b → utf8_of source = utf8_of (slice source 0 u) ++ utf8_of (slice source u (len source)) ∧
              len (utf8_of (slice source 0 u)) = b.
Proof using Hok Hlen.
  intros Hb. pose proof (bnd_range source Hok _ _ _ Hb) as [Hu _].
  assert (utf8_of source = utf8_of (slice source 0 u) ++ utf8_of (slice source u (len source))) as Hcut.
  { rewrite <-utf8_of_app; [by rewrite slice_app_split, slice_all by lia|].
    unfold joins. destruct (utf16Boundary_iff u) as (c & Hc & Hiff); [lia|].
    assert (c = true) as -> by (apply Hiff; eauto). unfold utf16Boundary in Hc. rewrite u32_id in Hc by lia.
    destruct (Z.ltb_spec (len source) u); [lia|].
    destruct (Z.eqb_spec u 0) as [->|]; [by rewrite slice_nil|].
    destruct (Z.eqb_spec u (len source)) as [->|].
    { rewrite (slice_nil source (len source)) by lia. by destruct (list.last _). }
    cbn [orb] in Hc. apply go_bind_ret in Hc as (prev & Hprev%index_Ret & Hc).
    apply go_bind_ret in Hc as (next & Hnext%index_Ret & Hc).
    rewrite <-(slice_app_split source 0 (u - 1) u) by lia.
    rewrite (slice_cons source (u - 1) _ prev), (slice_nil source (u - 1 + 1)) by (done || lia). rewrite last_snoc.
    rewrite (slice_cons source u _ next) by (done || lia). cbn.
    injection Hc as Hc. destruct (isUTF16LeadSurrogate prev); [|done]. by destruct (isUTF16TrailSurrogate next). }
  split; [done|].
  enough (∀ j u b, bnd j u b → len (utf8_of source) = b + len (utf8_of (slice source u (len source)))) as Hl.
  { specialize (Hl _ _ _ Hb). rewrite Hcut, len_app in Hl. lia. }
  clear j u b Hb Hu Hcut. induction 1 as [|j u b r n Hb IH Hu Hd]; [by rewrite slice_all|].
  pose proof (bnd_range source Hok _ _ _ Hb) as [? _].
  rewrite IH, (utf8_of_step source u r n), len_app by (done || lia). lia.
Qed.

End encode.

(** ** Points *)

Lemma line_starts_from_bounds l i : Forall (λ s, i < s ≤ i + len l) (line_starts_from l i).
Proof.
  revert i. induction l as [|x l IH]; intros i; cbn; [constructor|]. rewrite len_cons.
  pose proof (len_nonneg l).
  assert (Forall (λ s, i < s ≤ i + (len l + 1)) (line_starts_from l (i + 1))) as Hl
    by (eapply list.Forall_impl; [exact (IH (i + 1))|]; cbn; lia).
  destruct (x =? newline); [constructor; [lia|done]|done].
Qed.

(** The row and the column of the end of a text, from its line starts. *)
Lemma line_starts_point p :
  len p < 2 ^ 32 →
  ∃ s, list.last (line_starts p) = Some s ∧ 0 ≤ s ≤ len p ∧
    computeNewEndPoint (mkPoint 0 0) p = mkPoint (u32 (len (line_starts p) - 1)) (len p - s).
Proof.
  induction p as [|x p IH] using rev_ind; intros Hlen; [by exists 0|].
  rewrite len_app in Hlen. change (len [x]) with 1 in Hlen. pose proof (len_nonneg p).
  destruct IH as (s & Hs & Hr & Hpt); [lia|].
  rewrite line_starts_app, computeNewEndPoint_app, Hpt, len_app. change (len [x]) with 1.
  cbn [line_starts_from]. unfold computeNewEndPoint. cbn [foldl]. unfold step_byte.
  destruct (Z.eqb_spec x newline) as [->|Hne].
  - exists (len p + 1). rewrite last_snoc. split_and!; [done|lia..|]. cbn [Row Column].
    rewrite len_app. change (len [len p + 1]) with 1. f_equal; [|lia].
    rewrite u32_add_l. f_equal. lia.
  - exists s. rewrite app_nil_r. split_and!; [done|lia..|]. cbn [Row Column]. f_equal.
    rewrite u32_id; lia.
Qed.

Lemma last_zget {A} (l : list A) x : list.last l = Some x → zget l (len l - 1) = Some x.
Proof.
  intros Hl. apply last_Some in Hl as [l' ->]. rewrite len_app. change (len [x]) with 1.
  replace (len l' + 1 - 1) with (len l') by lia. rewrite zget_app_r by lia. by rewrite Z.sub_diag.
Qed.

(** Binary search over the line starts gives the row and column. *)
Lemma point_in_lines_spec l offset :
  len l < 2 ^ 32 → 0 ≤ offset ≤ len l →
  point_in_lines (line_starts l) offset = Ret (offset_point l offset).
Proof.
  intros Hlen Ho. unfold point_in_lines, offset_point. set (p := slice l 0 offset).
  assert (line_starts l = line_starts p ++ line_starts_from (slice l offset (len l)) offset) as Hsplit.
  { rewrite <-(slice_all l) at 1. rewrite <-(slice_app_split l 0 offset (len l)) by lia.
    rewrite line_starts_app, (len_slice l 0 offset), Z.sub_0_r by lia. done. }
  assert (len p = offset) as Hp by (unfold p; rewrite len_slice; lia).
  destruct (line_starts_point p) as (s & Hs & Hr & ->); [lia|].
  assert (0 < len (line_starts p)) as Hpos by (unfold line_starts; rewrite len_cons; pose proof (len_nonneg (line_starts_from p 0)); lia).
  rewrite (search_loop_spec _ _ _ _ (len (line_starts p))).
  - cbn. destruct (Z.ltb_spec (len (line_starts p) - 1) 0); [lia|].
    rewrite (proj2 (index_Ret (line_starts l) (len (line_starts p) - 1) s)).
    + cbn. do 2 f_equal. rewrite u32_id; lia.
    + rewrite Hsplit, zget_app_l by lia. by apply last_zget.
  - intros h Hh. destruct (index_in_range (line_starts l) h) as (x & -> & Hx); [lia|]. cbn. f_equal.
    rewrite Hsplit in Hx. destruct (Z.leb_spec (len (line_starts p)) h).
    + rewrite zget_app_r in Hx by lia.
      pose proof (Forall_zget _ _ _ _ (line_starts_from_bounds _ offset) Hx) as Hb. cbn in Hb.
      apply Z.ltb_lt. lia.
    + rewrite zget_app_l in Hx by lia. apply Z.ltb_ge. apply zget_elem in Hx.
      unfold line_starts in Hx. apply elem_of_cons in Hx as [->|Hx]; [lia|].
      pose proof (line_starts_from_bounds p 0) as Hb. rewrite list.Forall_forall in Hb. specialize (Hb x Hx). lia.
  - lia.
  - rewrite Hsplit, len_app. pose proof (len_nonneg (line_starts_from (slice l offset (len l)) offset)). lia.
  - unfold len. lia.
Qed.

(** ** Measuring and edits *)

Lemma measure_loop_spec source fuel u n pt :
  Forall unit_ok source → 0 ≤ u ≤ len source → len source - u ≤ Z.of_nat fuel →
  0 ≤ n → n + len (utf8_of (slice source u (len source))) < 2 ^ 32 →
  measure_loop fuel source u n pt =
  Ret (n + len (utf8_of (slice source u (len source))),
       computeNewEndPoint pt (utf8_of (slice source u (len source)))).
Proof.
  intros Hok. revert u n pt. induction fuel as [|fuel IH]; intros u n pt Hu Hf Hn Hlen; cbn;
    destruct (Z.ltb_spec u (len source)) as [Hlt|Hge]; try lia;
    try (rewrite slice_nil by lia; cbn; change (len (@nil Z)) with 0; by rewrite Z.add_0_r).
  destruct (decodeUTF16Rune_spec source u Hok) as (r & k & w & Hd & _ & Hv & Hle & Hcase); [lia|].
  rewrite Hd. cbn. rewrite (utf8_of_step source u r k), len_app in Hlen |- * by (done || lia).
  pose proof (len_EncodeRune r Hv) as [Hl _]. pose proof (len_nonneg (utf8_of (slice source (u + k) (len source)))).
  rewrite RuneLen_EncodeRune by done. rewrite (u32_id (len (EncodeRune r))) by lia. rewrite u32_id by lia.
  rewrite IH by (destruct Hcase; lia). rewrite <-EncodeRune_point, computeNewEndPoint_app by done.
  do 2 f_equal. lia.
Qed.

Lemma measure_spec source :
  Forall unit_ok source → len (utf8_of source) < 2 ^ 32 →
  measureUTF16AsUTF8 source = Ret (len (utf8_of source), computeNewEndPoint (mkPoint 0 0) (utf8_of source)).
Proof.
  intros Hok Hlen. unfold measureUTF16AsUTF8. pose proof (len_nonneg source).
  rewrite measure_loop_spec; rewrite ?slice_all; try done; try lia. unfold len. lia.
Qed.

(** ** Statements *)

(** A source the tables can index: 16-bit units, at most [2^32] encoded bytes. *)
Definition source_ok (source : list Z) : Prop :=
  Forall unit_ok source ∧ 3 * len source + 1 < 2 ^ 32.

Lemma boundary_bytes source out m u b :
  source_ok source → map_ok source out m → 0 ≤ u →
  utf16UnitToByte m u = Some b ↔
  utf16Boundary source u = Ret true ∧ b = len (utf8_of (slice source 0 u)).
Proof.
  intros [Hok Hlen] Hm Hu. rewrite (mo_unit _ _ _ Hm).
  destruct (utf16Boundary_iff source Hok Hlen u Hu) as (c & Hc & Hiff). rewrite Hc. split.
  - intros [j Hb]. destruct (bnd_prefix source Hok Hlen j u b Hb) as [_ <-].
    split; [|done]. f_equal. apply Hiff. eauto.
  - intros [[= ->] ->]. destruct (proj1 Hiff eq_refl) as (j & b & Hb). exists j.
    by destruct (bnd_prefix source Hok Hlen j u b Hb) as [_ ->].
Qed.

(** The units [a], a surrogate pair, a lone trail surrogate, newline, [b]. *)
Definition sample_units : list Z := [97; 0xD83D; 0xDE00; 0xDC00; 10; 98].

Lemma sample_units_ok : source_ok sample_units.
Proof. split; [repeat (constructor; [unfold unit_ok; lia|]); constructor|reflexivity]. Qed.

(** C28.  Encoding a UTF-16 source returns its UTF-8 (pairs joined, lone
    surrogates replaced) and offset tables that are exact and inverse to each
    other: a unit offset maps to a byte offset iff that byte maps back to the
    unit, which is the case exactly at the offsets that do not split a surrogate
    pair, and the byte offset is then the length of the UTF-8 of the units
    before. *)
Theorem utf16_tables_exact source :
  source_ok source →
  ∃ m, encodeUTF16ToUTF8WithMap source = Ret (utf8_of source, m) ∧
    ∀ u b, 0 ≤ u →
      (utf16UnitToByte m u = Some b ↔ byteToUTF16Unit m b = Some u) ∧
      (utf16UnitToByte m u = Some b ↔
         utf16Boundary source u = Ret true ∧ b = len (utf8_of (slice source 0 u))).
Proof.
  intros [Hok Hlen]. destruct (encode_map_ok source Hok Hlen) as (out & m & Henc & Hm).
  exists m. rewrite <-(mo_out _ _ _ Hm). split; [done|]. intros u b Hu. split.
  - by rewrite (mo_unit _ _ _ Hm), (mo_byte _ _ _ Hm).
  - by apply (boundary_bytes source out).
Qed.

Lemma utf16_tables_exact_witness :
  ∃ m, encodeUTF16ToUTF8WithMap sample_units
       = Ret ([97; 240; 159; 152; 128; 239; 191; 189; 10; 98], m).
Proof.
  destruct (utf16_tables_exact sample_units sample_units_ok) as (m & Hm & _). exists m. exact Hm.
Defined.

(** The line tables give exact positions: [pointForUTF8Byte] returns the
    row and byte column of a byte offset of the encoded source, [pointForUnit]
    the row and unit column of a unit offset of the UTF-16 source. *)
Theorem utf16_points_exact source :
  source_ok source →
  ∃ m, encodeUTF16ToUTF8WithMap source = Ret (utf8_of source, m) ∧
    (∀ b, 0 ≤ b ≤ len (utf8_of source) →
       pointForUTF8Byte m b = Ret (Some (offset_point (utf8_of source) b))) ∧
    (∀ u, 0 ≤ u ≤ len source → pointForUnit m u = Ret (Some (offset_point source u))).
Proof.
  intros [Hok Hlen]. destruct (encode_map_ok source Hok Hlen) as (out & m & Henc & Hm).
  exists m. rewrite <-(mo_out _ _ _ Hm). split; [done|].
  destruct (mo_end _ _ _ Hm) as [j Hj]. pose proof (bnd_range source Hok _ _ _ Hj).
  pose proof (len_nonneg source). split.
  - intros b Hb. unfold pointForUTF8Byte. rewrite (mo_utf8 _ _ _ Hm), u32_id by lia.
    destruct (Z.ltb_spec (len out) b); [lia|].
    by rewrite (mo_lines_b _ _ _ Hm), point_in_lines_spec by lia.
  - intros u Hu. unfold pointForUnit. rewrite (mo_source _ _ _ Hm), u32_id by lia.
    destruct (Z.ltb_spec (len source) u); [lia|].
    by rewrite (mo_lines_u _ _ _ Hm), point_in_lines_spec by lia.
Qed.

Lemma utf16_points_exact_witness :
  ∃ m, encodeUTF16ToUTF8WithMap sample_units = Ret (utf8_of sample_units, m) ∧
    pointForUTF8Byte m 9 = Ret (Some (mkPoint 1 0)).
Proof.
  destruct (utf16_points_exact sample_units sample_units_ok) as (m & Hm & Hb & _). exists m.
  split; [exact Hm|]. rewrite (Hb 9); [reflexivity|vm_compute; intuition discriminate].
Defined.

(** The edit's offsets are in order and split no pair of either source, and
    the sources agree before the edit. *)
Record edit_valid (source newSource : list Z) (e : UTF16Edit) : Prop := {
  ev_order : 0 ≤ uStartCodeUnit e ≤ uOldEndCodeUnit e ∧ uStartCodeUnit e ≤ uNewEndCodeUnit e;
  ev_new_start : utf16Boundary newSource (uStartCodeUnit e) = Ret true;
  ev_new_end : utf16Boundary newSource (uNewEndCodeUnit e) = Ret true;
  ev_old_start : utf16Boundary source (uStartCodeUnit e) = Ret true;
  ev_old_end : utf16Boundary source (uOldEndCodeUnit e) = Ret true;
  ev_prefix : slice newSource 0 (uStartCodeUnit e) = slice source 0 (uStartCodeUnit e) }.

(** Encoding two adjacent pieces of a source cut at a boundary. *)
Lemma utf8_of_slices source i j :
  source_ok source → 0 ≤ i ≤ j → j ≤ len source → utf16Boundary source i = Ret true →
  utf8_of (slice source 0 j) = utf8_of (slice source 0 i) ++ utf8_of (slice source i j).
Proof.
  intros [Hok Hlen] Hij Hj Hb. pose proof (len_nonneg source).
  rewrite <-utf8_of_app; [by rewrite slice_app_split by lia|].
  unfold joins. unfold utf16Boundary in Hb. rewrite u32_id in Hb by lia.
  destruct (Z.ltb_spec (len source) i); [done|].
  destruct (decide (i = j)) as [->|Hne]; [rewrite (slice_nil source j) by lia; by destruct (list.last _)|].
  destruct (Z.eqb_spec i 0) as [->|]; [by rewrite (slice_nil source 0 0) by lia|].
  destruct (Z.eqb_spec i (len source)) as [->|]; [lia|]. cbn [orb] in Hb.
  apply go_bind_ret in Hb as (prev & Hprev%index_Ret & Hb).
  apply go_bind_ret in Hb as (next & Hnext%index_Ret & Hb).
  rewrite <-(slice_app_split source 0 (i - 1) i) by lia.
  rewrite (slice_cons source (i - 1) _ prev), (slice_nil source (i - 1 + 1)) by (done || lia).
  rewrite last_snoc, (slice_cons source i _ next) by (done || lia). cbn.
  injection Hb as Hb. destruct (isUTF16LeadSurrogate prev); [|done]. by destruct (isUTF16TrailSurrogate next).
Qed.

Lemma boundary_range source u :
  source_ok source → utf16Boundary source u = Ret true → u ≤ len source.
Proof.
  intros [_ Hlen]. pose proof (len_nonneg source). unfold utf16Boundary. rewrite u32_id by lia.
  destruct (Z.ltb_spec (len source) u); [done|]. lia.
Qed.

Lemma Forall_slice {A} (P : A → Prop) l i j : Forall P l → Forall P (slice l i j).
Proof. intros H. unfold slice. by apply Forall_take, Forall_drop. Qed.

Lemma utf8_len_bound source u :
  source_ok source → 0 ≤ u → utf16Boundary source u = Ret true →
  0 ≤ len (utf8_of (slice source 0 u)) ≤ len (utf8_of source) ∧ len (utf8_of source) + 1 < 2 ^ 32.
Proof.
  intros Hs Hu Hb. pose proof (boundary_range _ _ Hs Hb) as Hr. destruct Hs as [Hok Hlen].
  destruct (encode_map_ok source Hok Hlen) as (out & m & _ & Hm).
  destruct (mo_end _ _ _ Hm) as [j Hj]. pose proof (bnd_range source Hok _ _ _ Hj) as [_ Hout].
  rewrite (mo_out _ _ _ Hm) in Hout. split; [|lia].
  assert (len (utf8_of source) = len (utf8_of (slice source 0 (len source)))) as -> by (by rewrite slice_all).
  rewrite (utf8_of_slices source u (len source)), len_app by (done || lia).
  pose proof (len_nonneg (utf8_of (slice source 0 u))).
  pose proof (len_nonneg (utf8_of (slice source u (len source)))). lia.
Qed.

Lemma offset_point_prefix source u :
  source_ok source → 0 ≤ u → utf16Boundary source u = Ret true →
  offset_point (utf8_of source) (len (utf8_of (slice source 0 u)))
  = computeNewEndPoint (mkPoint 0 0) (utf8_of (slice source 0 u)).
Proof.
  intros Hs Hu Hb. pose proof (boundary_range _ _ Hs Hb).
  assert (utf8_of source = utf8_of (slice source 0 (len source))) as Hall by (by rewrite slice_all).
  unfold offset_point. rewrite Hall, (utf8_of_slices source u (len source)) by (done || lia).
  by rewrite slice_app_l, slice_all by lia.
Qed.

(** [InputEditForUTF16] translates an edit exactly: when its offsets split
    no surrogate pair and the new source agrees with the old one before the
    edit, the byte edit's start, old end and new end are the UTF-8 lengths of the
    corresponding prefixes of the old, old and new source, and its points are the
    rows and byte columns of those offsets. *)
Theorem InputEditForUTF16_exact source newSource m e :
  source_ok source → source_ok newSource →
  encodeUTF16ToUTF8WithMap source = Ret (utf8_of source, m) →
  edit_valid source newSource e →
  let sb := len (utf8_of (slice source 0 (uStartCodeUnit e))) in
  let ob := len (utf8_of (slice source 0 (uOldEndCodeUnit e))) in
  let nb := len (utf8_of (slice newSource 0 (uNewEndCodeUnit e))) in
  InputEditForUTF16 m e newSource =
  Ret (Some (mkInputEdit sb ob nb (offset_point (utf8_of source) sb)
               (offset_point (utf8_of source) ob) (offset_point (utf8_of newSource) nb))).
Proof.
  intros Hs Hn Henc [Hord Hb1 Hb2 Hb3 Hb4 Hpre] sb ob nb.
  destruct (encode_map_ok source (proj1 Hs) (proj2 Hs)) as (out & m' & Henc' & Hm).
  rewrite Henc in Henc'. injection Henc' as <- <-.
  pose proof (boundary_range _ _ Hn Hb2). pose proof (boundary_range _ _ Hs Hb4).
  destruct (utf8_len_bound source (uStartCodeUnit e) Hs ltac:(lia) Hb3) as [Hsb Hlen].
  destruct (utf8_len_bound source (uOldEndCodeUnit e) Hs ltac:(lia) Hb4) as [Hob _].
  destruct (utf8_len_bound newSource (uNewEndCodeUnit e) Hn ltac:(lia) Hb2) as [Hnb Hlen'].
  fold sb in Hsb. fold ob in Hob. fold nb in Hnb.
  unfold InputEditForUTF16. destruct (_ || _) eqn:Hbad; [lia|]. clear Hbad.
  rewrite Hb1. cbn [mbind go_bind]. rewrite Hb2. cbn [mbind go_bind negb].
  rewrite (proj2 (boundary_bytes _ _ _ (uStartCodeUnit e) sb Hs Hm ltac:(lia)) (conj Hb3 eq_refl)).
  rewrite (proj2 (boundary_bytes _ _ _ (uOldEndCodeUnit e) ob Hs Hm ltac:(lia)) (conj Hb4 eq_refl)).
  rewrite gslice_ok by lia. cbn [mbind go_bind].
  pose proof (utf8_of_slices newSource (uStartCodeUnit e) (uNewEndCodeUnit e) Hn ltac:(lia) ltac:(lia) Hb1) as Hcut.
  rewrite Hpre in Hcut. set (rep := slice newSource (uStartCodeUnit e) (uNewEndCodeUnit e)) in *.
  assert (nb = sb + len (utf8_of rep)) as Hnbs by (unfold nb; rewrite Hcut, len_app; done).
  pose proof (len_nonneg (utf8_of rep)).
  rewrite measure_spec; [|apply Forall_slice, Hn|lia]. cbn [mbind go_bind].
  destruct (Z.ltb_spec (2 ^ 32 - 1 - sb) (len (utf8_of rep))); [lia|].
  unfold pointForUTF8Byte. rewrite (mo_utf8 _ _ _ Hm), (mo_lines_b _ _ _ Hm), !u32_id by lia.
  destruct (Z.ltb_spec (len (utf8_of source)) sb); [lia|].
  destruct (Z.ltb_spec (len (utf8_of source)) ob); [lia|].
  rewrite !point_in_lines_spec by lia. cbn [mbind go_bind]. rewrite <-Hnbs. do 3 f_equal.
  unfold sb at 1, nb. rewrite !offset_point_prefix by (done || lia). rewrite Hcut, computeNewEndPoint_app.
  apply addPointDelta_after; [by apply computeNewEndPoint_ok|].
  unfold count_byte, len. pose proof (length_filter (λ x, x = newline) (utf8_of rep)). unfold len in *. lia.
Qed.

(** The new source drops the pair and adds a line. *)
Definition sample_new_units : list Z := [97; 10; 120; 0xDC00; 10; 98].

Lemma InputEditForUTF16_exact_witness :
  ∃ m, encodeUTF16ToUTF8WithMap sample_units = Ret (utf8_of sample_units, m) ∧
    InputEditForUTF16 m (mkUTF16Edit 1 3 3) sample_new_units =
    Ret (Some (mkInputEdit 1 5 3 (mkPoint 0 1) (mkPoint 0 5) (mkPoint 1 1))).
Proof.
  destruct (encode_map_ok sample_units (proj1 sample_units_ok) (proj2 sample_units_ok))
    as (out & m & Henc & Hm).
  assert (out = utf8_of sample_units) as -> by exact (mo_out _ _ _ Hm).
  exists m. split; [exact Henc|].
  apply (InputEditForUTF16_exact sample_units sample_new_units m (mkUTF16Edit 1 3 3));
    [exact sample_units_ok| |exact Henc|].
  - split; [repeat (constructor; [unfold unit_ok; lia|]); constructor|reflexivity].
  - split; [cbn; lia|reflexivity..].
Defined.

Definition unit_bytes (order : UTF16ByteOrder) (u : Z) : list Z :=
  match order with
  | UTF16BigEndian => [Z.shiftr u 8; Z.land u 0xFF]
  | _ => [Z.land u 0xFF; Z.shiftr u 8]
  end.

Lemma unit_join u : unit_ok u → Z.lor (Z.land u 0xFF) (Z.shiftl (Z.shiftr u 8) 8) = u.
Proof.
  intros Hu. unfold unit_ok in Hu. change 0xFF with (Z.ones 8).
  rewrite Z.land_ones, Z.shiftr_div_pow2, Z.lor_comm by lia. change (2 ^ 8) with 256.
  rewrite lor_shiftl_add by zdiv. change (2 ^ 8) with 256. zdiv.
Qed.

Lemma decode_units_bytes units :
  Forall unit_ok units →
  decode_units false (units ≫= unit_bytes UTF16LittleEndian) = units ∧
  decode_units true (units ≫= unit_bytes UTF16BigEndian) = units.
Proof.
  induction 1 as [|u units Hu _ [IH1 IH2]]; [done|]. pose proof (unit_join u Hu) as Hj.
  split; cbn [mbind list_bind app unit_bytes decode_units unit_of]; rewrite Hj; f_equal; assumption.
Qed.

(** [DecodeUTF16Bytes] reads back the units of a byte source in either
    byte order, and refuses a source with a dangling byte and an unknown order. *)
Theorem DecodeUTF16Bytes_roundtrip order units :
  Forall unit_ok units →
  DecodeUTF16Bytes (units ≫= unit_bytes order) order =
  match order with UTF16OtherOrder _ => inr ErrInvalidUTF16ByteOrder | _ => inl units end ∧
  ∀ b, DecodeUTF16Bytes (b :: (units ≫= unit_bytes order)) order = inr ErrInvalidUTF16ByteLength.
Proof.
  intros Hok. assert (len (units ≫= unit_bytes order) = 2 * len units) as Hlen.
  { induction units as [|u units IH]; [done|]. apply list.Forall_cons_1 in Hok as [_ Hok].
    change ((u :: units) ≫= unit_bytes order) with (unit_bytes order u ++ (units ≫= unit_bytes order)).
    rewrite len_app, IH by done. unfold len. destruct order; cbn [length unit_bytes]; lia. }
  unfold DecodeUTF16Bytes. split.
  - rewrite Hlen. destruct (Z.eqb_spec ((2 * len units) mod 2) 0); [|zdiv]. cbn [negb].
    destruct order; [f_equal..|done]; by apply decode_units_bytes.
  - intros b. rewrite len_cons, Hlen. by destruct (Z.eqb_spec ((2 * len units + 1) mod 2) 0); [zdiv|].
Qed.

Lemma DecodeUTF16Bytes_roundtrip_witness :
  DecodeUTF16Bytes [0x3D; 0xD8; 0x00; 0xDE] UTF16LittleEndian = inl [0xD83D; 0xDE00].
Proof.
  exact (proj1 (DecodeUTF16Bytes_roundtrip UTF16LittleEndian [0xD83D; 0xDE00]
           ltac:(repeat (constructor; [unfold unit_ok; lia|]); constructor))).
Defined.
