(* ===== verification/TreeEdit.v ===== *)
(** * Edits on syntax trees

    tree.go: [Tree.Edit], [Node.Edit] and the routines that move byte and point
    spans and mark nodes dirty, and [DiffChangedRanges].

    The children of a finished node are either materialised ([Node.children]) or
    compact references ([nodeHasFinalChildRefs]) to stack entries, which are
    nodes, compact leaves, pending parents or no-tree nodes (no_tree_node.go,
    pending_parent.go).  A node of the model carries its entry kind and whether
    its children are references; every reference of a finished tree has a
    payload.  [editNodeWithDelta] and [editStackEntryWithDelta] are then one
    recursion that looks at the kind where the two differ, and so are the shift
    routines; the worklist of [shiftSubtreeAfterEdit] visits every node of the
    subtree once, in no observable order. *)

From Stdlib Require Import ZArith Lia ZifyBool.
From stdpp Require Import base tactics list numbers option.
From S2P Require Import Prelude Points SliceSort IncludedRanges.
Local Open Scope Z_scope.

(** [stackEntryKindNode] and the compact payloads. *)
Inductive EntryKind := KindNode | KindNoTreeNode | KindCompactFullLeaf | KindPendingParent.

#[export] Instance EntryKind_eq_dec : EqDecision EntryKind.
Proof. solve_decision. Defined.

(** What the parser decided about a node; edits do not touch it. *)
Record NodeInfo := mkInfo { iSymbol : Z; iNamed : bool; iFieldIDs : list Z }.

#[export] Instance NodeInfo_eq_dec : EqDecision NodeInfo.
Proof. solve_decision. Defined.

(** Compact leaves and no-tree nodes have no children; the points of a no-tree
    node, which has none in the source, are never read or written. *)
Inductive Node := mkNode {
  nKind : EntryKind; nFinalRefs : bool;
  nInfo : NodeInfo; nStart : Z; nEnd : Z; nStartPoint : Point; nEndPoint : Point;
  nDirty : bool; nChildren : list Node }.

Definition nSymbol (n : Node) : Z := iSymbol (nInfo n).

Section node_ind.
Context (P : Node → Prop).
Context (Hnode : ∀ k rf sy sb eb sp ep d cs, Forall P cs → P (mkNode k rf sy sb eb sp ep d cs)).

Fixpoint Node_tree_ind (n : Node) : P n :=
  match n with
  | mkNode k rf sy sb eb sp ep d cs =>
    Hnode k rf sy sb eb sp ep d cs
      ((fix go cs : Forall P cs :=
          match cs with
          | [] => Forall_nil_2 P
          | c :: cs => Forall_cons_2 P c cs (Node_tree_ind c) (go cs)
          end) cs)
  end.
End node_ind.

Definition inputEditIsNoop (e : InputEdit) : bool :=
  (eStartByte e =? eOldEndByte e) && (eOldEndByte e =? eNewEndByte e) &&
  bool_decide (eStartPoint e = eOldEndPoint e) && bool_decide (eOldEndPoint e = eNewEndPoint e).

Definition inputEditIsSingleByteReplacement (e : InputEdit) : bool :=
  (eNewEndByte e =? eOldEndByte e) && (eStartByte e <? eOldEndByte e) &&
  (u32 (eOldEndByte e - eStartByte e) =? 1) && bool_decide (eNewEndPoint e = eOldEndPoint e).

Definition addUint32Delta (value delta : Z) : Z :=
  let next := value + delta in
  if next <? 0 then 0 else if 2 ^ 32 - 1 <? next then 2 ^ 32 - 1 else next.

Definition shiftPointAfterEdit (p : Point) (e : InputEdit) (rowDelta : Z) : Point :=
  if Row p <? Row (eOldEndPoint e) then p
  else if Row (eOldEndPoint e) <? Row p then mkPoint (addUint32Delta (Row p) rowDelta) (Column p)
  else
    let columnDelta := if Column (eOldEndPoint e) <=? Column p
                       then Column p - Column (eOldEndPoint e) else 0 in
    mkPoint (addUint32Delta (Row p) rowDelta)
      (addUint32Delta (Column (eNewEndPoint e)) columnDelta).

(** The fields of an entry; a no-tree node has no points. *)
Definition setStackEntryDirty (n : Node) (dirty : bool) : Node :=
  match n with mkNode k rf sy sb eb sp ep _ cs => mkNode k rf sy sb eb sp ep dirty cs end.
Definition setStackEntryStart (n : Node) (startByte : Z) (startPoint : Point) : Node :=
  match n with
  | mkNode k rf sy _ eb sp ep d cs =>
    mkNode k rf sy startByte eb (if decide (k = KindNoTreeNode) then sp else startPoint) ep d cs
  end.
Definition setStackEntryEnd (n : Node) (endByte : Z) (endPoint : Point) : Node :=
  match n with
  | mkNode k rf sy sb _ sp ep d cs =>
    mkNode k rf sy sb endByte sp (if decide (k = KindNoTreeNode) then ep else endPoint) d cs
  end.
Definition set_children (n : Node) (cs : list Node) : Node :=
  match n with mkNode k rf sy sb eb sp ep d _ => mkNode k rf sy sb eb sp ep d cs end.

Definition shiftNoTreeNodeAfterEdit (n : Node) (byteDelta : Z) : Node :=
  match n with
  | mkNode k rf sy sb eb sp ep d cs =>
    mkNode k rf sy (addUint32Delta sb byteDelta) (addUint32Delta eb byteDelta) sp ep d cs
  end.

(** The shift of one entry that has points. *)
Definition shiftCompactFullLeafAfterEdit (n : Node) (e : InputEdit) (byteDelta rowDelta : Z) : Node :=
  match shiftNoTreeNodeAfterEdit n byteDelta with
  | mkNode k rf sy sb eb sp ep d cs =>
    mkNode k rf sy sb eb (shiftPointAfterEdit sp e rowDelta) (shiftPointAfterEdit ep e rowDelta) d cs
  end.

(** Every node of the subtree moves by the edit's deltas. *)
Fixpoint shiftSubtreeNodeAfterEdit (e : InputEdit) (byteDelta rowDelta : Z) (n : Node) : Node :=
  let cs' := map (shiftSubtreeNodeAfterEdit e byteDelta rowDelta) (nChildren n) in
  match nKind n with
  | KindNoTreeNode => set_children (shiftNoTreeNodeAfterEdit n byteDelta) cs'
  | _ => set_children (shiftCompactFullLeafAfterEdit n e byteDelta rowDelta) cs'
  end.

(** Merge the leaf hint of child [i] with the one of the later children, which
    were written after it. *)
Definition later_hint (i : nat) (hint later : option (list nat)) : option (list nat) :=
  match later with
  | Some p => Some p
  | None => cons i <$> hint
  end.

(** [editNodeWithDelta] and [editStackEntryWithDelta]; the second result is the
    path of the node last written to [*leafHint], which only full nodes are. *)
Fixpoint editNodeWithDelta (e : InputEdit) (byteDelta rowDelta : Z) (hasTailShift : bool) (n : Node)
  : Node * option (list nat) :=
  if nEnd n <=? eStartByte e then (n, None)
  else if eOldEndByte e <=? nStart n then
    if negb hasTailShift then (n, None)
    else (shiftSubtreeNodeAfterEdit e byteDelta rowDelta n, None)
  else
    let n' := setStackEntryDirty n true in
    let n' := if eStartByte e <? nStart n
              then setStackEntryStart n' (eNewEndByte e) (eNewEndPoint e) else n' in
    let n' := if nEnd n <=? eOldEndByte e
              then setStackEntryEnd n' (eNewEndByte e) (eNewEndPoint e)
              else setStackEntryEnd n' (addUint32Delta (nEnd n) byteDelta)
                     (shiftPointAfterEdit (nEndPoint n) e rowDelta) in
    let '(cs', descended, hint) :=
      (fix go (i : nat) (cs : list Node) : list Node * bool * option (list nat) :=
         match cs with
         | [] => ([], false, None)
         | c :: cs' =>
           if nEnd c <=? eStartByte e then
             let '(r, d, h) := go (S i) cs' in (c :: r, d, h)
           else if eOldEndByte e <=? nStart c then
             if negb hasTailShift then (c :: cs', false, None)
             else
               let '(r, d, h) := go (S i) cs' in
               (shiftSubtreeNodeAfterEdit e byteDelta rowDelta c :: r, d, h)
           else
             let '(c', hc) := editNodeWithDelta e byteDelta rowDelta hasTailShift c in
             let '(r, d, h) := go (S i) cs' in
             (c' :: r, true, later_hint i hc h)
         end) 0%nat (nChildren n) in
    (set_children n' cs',
     if bool_decide (nKind n = KindNode) && negb descended && (len (nChildren n) =? 0)
     then Some [] else hint).

(** The deltas of an edit. *)
Definition byte_delta (e : InputEdit) : Z := eNewEndByte e - eOldEndByte e.
Definition row_delta (e : InputEdit) : Z := Row (eNewEndPoint e) - Row (eOldEndPoint e).
Definition has_tail_shift (e : InputEdit) : bool :=
  negb (byte_delta e =? 0) || negb (bool_decide (eNewEndPoint e = eOldEndPoint e)).

Definition editNode (n : Node) (e : InputEdit) : Node :=
  (editNodeWithDelta e (byte_delta e) (row_delta e) (has_tail_shift e) n).1.

(** The fast path for one replaced byte: spans stay, the path is marked. *)
Fixpoint editNodeSingleByteReplacement (e : InputEdit) (n : Node) : Node * option (list nat) :=
  if (nEnd n <=? eStartByte e) || (eOldEndByte e <=? nStart n) then (n, None)
  else if nFinalRefs n then editNodeWithDelta e 0 0 false n
  else
    let n' := setStackEntryDirty n true in
    let '(cs', descended, hint) :=
      (fix go (i : nat) (cs : list Node) : list Node * bool * option (list nat) :=
         match cs with
         | [] => ([], false, None)
         | c :: cs' =>
           if nEnd c <=? eStartByte e then
             let '(r, d, h) := go (S i) cs' in (c :: r, d, h)
           else if eOldEndByte e <=? nStart c then (c :: cs', false, None)
           else
             let '(c', hc) := editNodeSingleByteReplacement e c in
             let '(r, d, h) := go (S i) cs' in
             (c' :: r, true, later_hint i hc h)
         end) 0%nat (nChildren n) in
    (set_children n' cs', if negb descended && (len (nChildren n) =? 0) then Some [] else hint).

(** The part of [Tree] that edits touch. *)
Record Tree := mkTree { tRoot : option Node; tEdits : list InputEdit; tLastEditedLeaf : option (list nat) }.

(** On a tree whose lazy compatibility pass has run: the code runs it first. *)
Definition TreeEdit (t : Tree) (e : InputEdit) : Tree :=
  match tRoot t with
  | None => mkTree None (tEdits t ++ [e]) None
  | Some root =>
    let '(root, hint) :=
      if inputEditIsSingleByteReplacement e then editNodeSingleByteReplacement e root
      else editNodeWithDelta e (byte_delta e) (row_delta e) (has_tail_shift e) root in
    mkTree (Some root) (tEdits t ++ [e]) hint
  end.

(** [Node.Edit] on a root. *)
Definition NodeEdit (root : Node) (e : InputEdit) : Node :=
  if inputEditIsNoop e then root else editNode root e.

(** ** Comparing trees

    The source reads children through [Node.Child], which materialises them. *)

Definition nodesStructurallyEqual (a b : Node) : bool :=
  (nSymbol a =? nSymbol b) && (nStart a =? nStart b) && (nEnd a =? nEnd b) &&
  (len (nChildren a) =? len (nChildren b)) && negb (nDirty a) && negb (nDirty b).

Definition changed_range (old new : Node) : Range :=
  mkRange (Z.min (nStart old) (nStart new)) (Z.max (nEnd old) (nEnd new))
    (if nStart new <? nStart old then nStartPoint new else nStartPoint old)
    (if nEnd new <? nEnd old then nEndPoint old else nEndPoint new).

(** [diffNodes] appends to its argument: here the appended ranges. *)
Fixpoint diffNodes (old new : Node) {struct old} : list Range :=
  if nodesStructurallyEqual old new then []
  else if negb (nSymbol old =? nSymbol new) || negb (len (nChildren old) =? len (nChildren new))
  then [changed_range old new]
  else if len (nChildren old) =? 0 then [changed_range old new]
  else
    (fix go (os ns : list Node) : list Range :=
       match os, ns with
       | o :: os, n :: ns => diffNodes o n ++ go os ns
       | _, _ => []
       end) (nChildren old) (nChildren new).

Definition DiffChangedRanges `{SliceSort} (old new : option Node) : list Range :=
  match old, new with
  | Some old, Some new => coalesceRanges (diffNodes old new)
  | _, _ => []
  end.
