(* ===== verification/TreeEditCorrect.v ===== *)
(** * Edited trees stay in order

    Facts about TreeEdit.v: an edit keeps the spans of a tree nested and its
    points true to the edited source, marks exactly the nodes that overlap the
    edited bytes, and the single-byte fast path does what the general path does. *)

From Stdlib Require Import ZArith Lia ZifyBool.
From stdpp Require Import base tactics list numbers option.
From S2P Require Import Prelude Points SliceSort IncludedRanges TreeEdit.
Local Open Scope Z_scope.

(** ** The loop over the children, named *)

Section children.
Context (e : InputEdit) (byteDelta rowDelta : Z) (tail : bool) (edit : Node → Node * option (list nat)).

Fixpoint edit_children (i : nat) (cs : list Node) : list Node * bool * option (list nat) :=
  match cs with
  | [] => ([], false, None)
  | c :: cs' =>
    if nEnd c <=? eStartByte e then
      let '(r, d, h) := edit_children (S i) cs' in (c :: r, d, h)
    else if eOldEndByte e <=? nStart c then
      if negb tail then (c :: cs', false, None)
      else
        let '(r, d, h) := edit_children (S i) cs' in
        (shiftSubtreeNodeAfterEdit e byteDelta rowDelta c :: r, d, h)
    else
      let '(c', hc) := edit c in
      let '(r, d, h) := edit_children (S i) cs' in
      (c' :: r, true, later_hint i hc h)
  end.

End children.

(** A point field of an entry, which a no-tree node does not have. *)
Definition point_field (k : EntryKind) (old new : Point) : Point :=
  if decide (k = KindNoTreeNode) then old else new.

Lemma editNodeWithDelta_eq e bd rd tail k rf sy sb eb sp ep d cs :
  editNodeWithDelta e bd rd tail (mkNode k rf sy sb eb sp ep d cs) =
  if eb <=? eStartByte e then (mkNode k rf sy sb eb sp ep d cs, None)
  else if eOldEndByte e <=? sb then
    if negb tail then (mkNode k rf sy sb eb sp ep d cs, None)
    else (shiftSubtreeNodeAfterEdit e bd rd (mkNode k rf sy sb eb sp ep d cs), None)
  else
    let '(sb', sp') := if eStartByte e <? sb then (eNewEndByte e, point_field k sp (eNewEndPoint e)) else (sb, sp) in
    let '(eb', ep') :=
      if eb <=? eOldEndByte e then (eNewEndByte e, point_field k ep (eNewEndPoint e))
      else (addUint32Delta eb bd, point_field k ep (shiftPointAfterEdit ep e rd)) in
    let '(cs', descended, hint) :=
      edit_children e bd rd tail (editNodeWithDelta e bd rd tail) 0 cs in
    (mkNode k rf sy sb' eb' sp' ep' true cs',
     if bool_decide (k = KindNode) && negb descended && (len cs =? 0) then Some [] else hint).
Proof.
  transitivity (if eb <=? eStartByte e then (mkNode k rf sy sb eb sp ep d cs, @None (list nat))
    else if eOldEndByte e <=? sb then
      if negb tail then (mkNode k rf sy sb eb sp ep d cs, None)
      else (shiftSubtreeNodeAfterEdit e bd rd (mkNode k rf sy sb eb sp ep d cs), None)
    else
      let n' := mkNode k rf sy sb eb sp ep true cs in
      let n' := if eStartByte e <? sb then setStackEntryStart n' (eNewEndByte e) (eNewEndPoint e) else n' in
      let n' := if eb <=? eOldEndByte e then setStackEntryEnd n' (eNewEndByte e) (eNewEndPoint e)
                else setStackEntryEnd n' (addUint32Delta eb bd) (shiftPointAfterEdit ep e rd) in
      let '(cs', descended, hint) := edit_children e bd rd tail (editNodeWithDelta e bd rd tail) 0 cs in
      (set_children n' cs',
       if bool_decide (k = KindNode) && negb descended && (len cs =? 0) then Some [] else hint)); [reflexivity|].
  destruct (eb <=? eStartByte e), (eOldEndByte e <=? sb); try reflexivity.
  destruct (eStartByte e <? sb), (eb <=? eOldEndByte e); reflexivity.
Qed.

Lemma has_points k old new : k ≠ KindNoTreeNode → point_field k old new = new.
Proof. intros. unfold point_field. by rewrite decide_False. Qed.

Lemma shiftSubtreeNodeAfterEdit_eq e bd rd k rf sy sb eb sp ep d cs :
  shiftSubtreeNodeAfterEdit e bd rd (mkNode k rf sy sb eb sp ep d cs) =
  mkNode k rf sy (addUint32Delta sb bd) (addUint32Delta eb bd)
    (point_field k sp (shiftPointAfterEdit sp e rd)) (point_field k ep (shiftPointAfterEdit ep e rd)) d
    (map (shiftSubtreeNodeAfterEdit e bd rd) cs).
Proof. by destruct k. Qed.

(** ** Nesting *)

Lemma map_id_on {A} (f : A → A) l : Forall (λ x, f x = x) l → map f l = l.
Proof. induction 1 as [|x l Hx _ IH]; cbn; [done|]. by rewrite Hx, IH. Qed.

(** The spans of the tree lie in [[lo, hi]]: children inside their parent, in
    order and apart from each other. *)
Fixpoint nested (lo hi : Z) (n : Node) : Prop :=
  match n with
  | mkNode _ _ _ sb eb _ _ _ cs =>
    lo ≤ sb ∧ sb ≤ eb ∧ eb ≤ hi ∧
    (fix go (lo : Z) (cs : list Node) : Prop :=
       match cs with
       | [] => True
       | c :: cs => nested lo eb c ∧ go (nEnd c) cs
       end) sb cs
  end.

Section nested_list.
Context (hi : Z).

Fixpoint nested_list (lo : Z) (cs : list Node) : Prop :=
  match cs with
  | [] => True
  | c :: cs => nested lo hi c ∧ nested_list (nEnd c) cs
  end.
End nested_list.

Lemma nested_eq lo hi k rf sy sb eb sp ep d cs :
  nested lo hi (mkNode k rf sy sb eb sp ep d cs) ↔
  lo ≤ sb ∧ sb ≤ eb ∧ eb ≤ hi ∧ nested_list eb sb cs.
Proof. reflexivity. Qed.

Lemma nested_bounds lo hi n : nested lo hi n → lo ≤ nStart n ∧ nStart n ≤ nEnd n ∧ nEnd n ≤ hi.
Proof. destruct n. rewrite nested_eq. cbn. tauto. Qed.

Lemma nested_weaken lo hi lo' hi' n : lo' ≤ lo → hi ≤ hi' → nested lo hi n → nested lo' hi' n.
Proof. destruct n. rewrite !nested_eq. intros ? ? (? & ? & ? & ?). split_and!; [lia..|done]. Qed.

(** Once a child starts at or beyond an offset, all later ones do. *)
Lemma nested_list_later lo hi cs x : x ≤ lo → nested_list hi lo cs → Forall (λ c, x ≤ nStart c ∧ x ≤ nEnd c) cs.
Proof.
  revert lo. induction cs as [|c cs IH]; intros lo Hx H; constructor.
  - destruct H as [H%nested_bounds _]. lia.
  - destruct H as [H%nested_bounds H']. apply (IH (nEnd c)); [lia|done].
Qed.

Section edit.
Context (e : InputEdit).
Context (Hse : 0 ≤ eStartByte e ≤ eOldEndByte e) (Hsn : eStartByte e ≤ eNewEndByte e).
Context (limit : Z) (Hlim : limit < 2 ^ 32 ∧ limit + byte_delta e < 2 ^ 32).

Abbreviation S_ := (eStartByte e).
Abbreviation O_ := (eOldEndByte e).
Abbreviation N_ := (eNewEndByte e).
Abbreviation edit_node := (editNodeWithDelta e (byte_delta e) (row_delta e) (has_tail_shift e)).
Abbreviation shift_node := (shiftSubtreeNodeAfterEdit e (byte_delta e) (row_delta e)).

(** Where an end offset goes. *)
Definition moved_end (x : Z) : Z :=
  if x <=? S_ then x else if x <? O_ then N_ else x + byte_delta e.

Lemma moved_end_mono x y : x ≤ y → moved_end x ≤ moved_end y.
Proof using Hse Hsn. unfold moved_end, byte_delta. zcases; lia. Qed.

Lemma delta_ok x : O_ ≤ x → x ≤ limit → addUint32Delta x (byte_delta e) = x + byte_delta e.
Proof using Hse Hsn Hlim.
  intros H1 H2. pose proof Hlim as [_ Hl]. unfold addUint32Delta. unfold byte_delta in Hl |- *. zcases; lia.
Qed.

Lemma no_tail_delta : has_tail_shift e = false → byte_delta e = 0 ∧ eNewEndPoint e = eOldEndPoint e.
Proof. unfold has_tail_shift. intros H. split; [lia|]. destruct (decide (eNewEndPoint e = eOldEndPoint e)); [done|].
  rewrite (bool_decide_eq_false_2 _ n) in H. lia. Qed.

(** The loop makes of a child what the edit makes of it. *)
Lemma edit_kept c : nEnd c ≤ S_ ∨ has_tail_shift e = false ∧ O_ ≤ nStart c → (edit_node c).1 = c.
Proof.
  destruct c as [k rf sy sb eb sp ep d cs]. rewrite editNodeWithDelta_eq. cbn.
  intros [H|[-> H]]; [destruct (Z.leb_spec eb S_); [done|lia]|].
  destruct (eb <=? S_); [done|]. destruct (Z.leb_spec O_ sb); [done|lia].
Qed.

Lemma edit_shifted c : S_ < nEnd c → O_ ≤ nStart c → has_tail_shift e = true →
  (edit_node c).1 = shift_node c.
Proof.
  destruct c as [k rf sy sb eb sp ep d cs]. rewrite editNodeWithDelta_eq. cbn [nStart nEnd].
  intros ? ? ->. destruct (Z.leb_spec eb S_); [lia|]. destruct (Z.leb_spec O_ sb); [done|lia].
Qed.

Lemma edit_children_map lo hi i cs :
  nested_list hi lo cs →
  (edit_children e (byte_delta e) (row_delta e) (has_tail_shift e) edit_node i cs).1.1 =
  map (λ c, (edit_node c).1) cs.
Proof using Hse.
  revert lo i. induction cs as [|c cs IH]; intros lo i; [done|]. intros [Hc Hcs].
  specialize (IH (nEnd c) (S i) Hcs). pose proof (nested_bounds _ _ _ Hc) as Hb.
  cbn [edit_children map]. destruct (Z.leb_spec (nEnd c) S_).
  { rewrite edit_kept by auto. destruct (edit_children _ _ _ _ _ _ cs) as [[r d] h]. cbn in *. by rewrite IH. }
  destruct (Z.leb_spec O_ (nStart c)).
  - destruct (has_tail_shift e) eqn:Ht; cbn [negb].
    + rewrite <-Ht, edit_shifted, Ht by done.
      destruct (edit_children _ _ _ _ _ _ cs) as [[r d] h]. cbn in *. by rewrite IH.
    + rewrite <-Ht. symmetry. apply (map_id_on (λ c, (edit_node c).1) (c :: cs)). constructor; [by apply edit_kept; right|].
      eapply list.Forall_impl; [exact (nested_list_later (nEnd c) hi cs O_ ltac:(lia) Hcs)|].
      intros c' [? ?]. by apply edit_kept; right.
  - destruct (edit_node c) as [c' hc]. destruct (edit_children _ _ _ _ _ _ cs) as [[r d] h].
    cbn in *. by rewrite IH.
Qed.

Lemma shift_ends n : O_ ≤ nStart n → nStart n ≤ nEnd n → nEnd n ≤ limit →
  nStart (shift_node n) = nStart n + byte_delta e ∧ nEnd (shift_node n) = nEnd n + byte_delta e.
Proof using Hse Hsn Hlim. destruct n. rewrite shiftSubtreeNodeAfterEdit_eq. cbn. intros. rewrite !delta_ok by lia. done. Qed.

Lemma shift_nested n : ∀ lo hi, O_ ≤ lo → hi ≤ limit → nested lo hi n →
  nested (lo + byte_delta e) (hi + byte_delta e) (shift_node n).
Proof using Hse Hsn Hlim.
  induction n as [k rf sy sb eb sp ep d cs IH] using Node_tree_ind. intros lo hi Hlo Hhi.
  rewrite shiftSubtreeNodeAfterEdit_eq. rewrite !nested_eq. intros (H1 & H2 & H3 & Hcs).
  rewrite !delta_ok by lia. split_and!; [lia..|].
  assert (O_ ≤ sb) as Hsb by lia. clear H1 H2. revert sb Hcs Hsb.
  induction IH as [|c cs Hc _ IHcs]; intros sb Hcs Hsb; [done|]. destruct Hcs as [Hc' Hcs].
  pose proof (nested_bounds _ _ _ Hc') as Hb. cbn. split; [apply Hc; [lia|lia|done]|].
  destruct (shift_ends c) as [_ ->]; [lia..|]. apply IHcs; [done|lia].
Qed.

(** What the edit does to the span of a node, whichever way it is reached. *)
Definition span_moved (n n' : Node) : Prop :=
  (∀ lo hi, hi ≤ limit → nested lo hi n → nested (moved_end lo) (moved_end hi) n') ∧
  (∀ lo hi, hi ≤ limit → nested lo hi n → nEnd n' = moved_end (nEnd n)).

Lemma kept_span n : nEnd n ≤ S_ ∨ has_tail_shift e = false ∧ O_ ≤ nStart n → span_moved n n.
Proof using Hse Hsn.
  intros Hk. split; intros lo hi Hhi Hn; pose proof (nested_bounds _ _ _ Hn) as Hb.
  - destruct n as [k rf sy sb eb sp ep d cs]. rewrite nested_eq in *. cbn in Hk, Hb.
    destruct Hn as (? & ? & ? & ?). pose proof (moved_end_mono lo sb ltac:(lia)) as M1.
    pose proof (moved_end_mono eb hi ltac:(lia)) as M2.
    destruct Hk as [Hk|[Ht Hk]]; [|destruct (no_tail_delta Ht) as [Hd _]];
      unfold moved_end, byte_delta in *; split_and!; try done; revert M1 M2; zcases; lia.
  - destruct Hk as [Hk|[Ht Hk]]; [|destruct (no_tail_delta Ht) as [Hd _]];
      unfold moved_end, byte_delta in *; zcases; lia.
Qed.

Lemma shifted_span n : S_ < nEnd n → O_ ≤ nStart n → span_moved n (shift_node n).
Proof using Hse Hsn Hlim.
  intros He Hs. split; intros lo hi Hhi Hn; pose proof (nested_bounds _ _ _ Hn) as Hb.
  - assert (nested (nStart n) (nEnd n) n) as Hn'
      by (destruct n; rewrite nested_eq in *; cbn; split_and!; [lia..|tauto]).
    apply (shift_nested n (nStart n) (nEnd n)) in Hn'; [|lia..].
    pose proof (moved_end_mono lo (nStart n) ltac:(lia)) as M1.
    pose proof (moved_end_mono (nEnd n) hi ltac:(lia)) as M2.
    eapply nested_weaken; [| |exact Hn']; unfold moved_end, byte_delta in *; revert M1 M2; zcases; lia.
  - destruct (shift_ends n) as [_ ->]; [lia..|]. unfold moved_end. zcases; lia.
Qed.

Lemma nested_list_moved lo hi cs (f : Node → Node) :
  hi ≤ limit → Forall (λ c, span_moved c (f c)) cs → nested_list hi lo cs →
  nested_list (moved_end hi) (moved_end lo) (map f cs).
Proof.
  intros Hhi Hf. revert lo. induction Hf as [|c cs [Hc He] _ IH]; intros lo; [done|].
  intros [Hn Hcs]. split; [by apply Hc|]. cbn. rewrite (He lo hi) by done. by apply IH.
Qed.

(** The edit keeps trees nested and moves every end the same way. *)
Lemma edit_span n : span_moved n (edit_node n).1.
Proof using Hse Hsn Hlim.
  induction n as [k rf sy sb eb sp ep d cs IH] using Node_tree_ind. rewrite editNodeWithDelta_eq.
  destruct (Z.leb_spec eb S_) as [Ha|Ha]; [by apply kept_span; left|].
  destruct (Z.leb_spec O_ sb) as [Hb|Hb].
  { destruct (has_tail_shift e) eqn:Ht; cbn [negb fst]; [by apply shifted_span|by apply kept_span; right]. }
  destruct (if S_ <? sb then _ else _) as [sb' sp'] eqn:E1.
  destruct (if eb <=? O_ then _ else _) as [eb' ep'] eqn:E2.
  assert (sb' = moved_end sb) as Hsb.
  { unfold moved_end, byte_delta. revert E1. zcases; intros [= <- _]; lia. }
  assert (eb ≤ limit → eb' = moved_end eb) as Heb.
  { intros Hl. unfold moved_end. revert E2. zcases; intros [= <- _]; try lia;
      [unfold byte_delta; lia|by apply delta_ok; lia]. }
  destruct (edit_children _ _ _ _ _ _ cs) as [[cs' desc] hint] eqn:Ec. cbn [fst].
  split; intros lo hi Hhi; [|intros Hn%nested_bounds; apply Heb; cbn in Hn; lia].
  rewrite !nested_eq. intros (H1 & H2 & H3 & Hn). rewrite Hsb, Heb by lia.
  pose proof (edit_children_map sb eb 0 cs Hn) as Hmap. rewrite Ec in Hmap. cbn in Hmap. subst cs'.
  split_and!; try (apply moved_end_mono; lia). by apply nested_list_moved; [lia|..].
Qed.

End edit.

(** ** Positions *)

(** The edit [e] leads from one source to the other. *)
Record edit_between (old new : list Z) (e : InputEdit) : Prop := {
  eb_old : 0 ≤ eStartByte e ≤ eOldEndByte e ∧ eOldEndByte e ≤ len old;
  eb_new : eStartByte e ≤ eNewEndByte e ∧ eNewEndByte e ≤ len new;
  eb_prefix : slice old 0 (eStartByte e) = slice new 0 (eStartByte e);
  eb_suffix : slice old (eOldEndByte e) (len old) = slice new (eNewEndByte e) (len new);
  eb_old_point : eOldEndPoint e = offset_point old (eOldEndByte e);
  eb_new_point : eNewEndPoint e = offset_point new (eNewEndByte e);
  eb_size : len old < 2 ^ 32 ∧ len new < 2 ^ 32 }.

(** A slice of a slice. *)
Lemma slice_slice_0 {A} (l : list A) i j k :
  0 ≤ i → i ≤ j → j ≤ k → slice (slice l i k) 0 (j - i) = slice l i j.
Proof.
  intros. unfold slice. rewrite drop_0, take_take. f_equal. lia.
Qed.

Section points.
Context (old new : list Z) (e : InputEdit) (He : edit_between old new e).

Lemma eb_length : len new = len old + byte_delta e.
Proof using He.
  destruct He as [? ? _ Hs _ _ _]. apply (f_equal len) in Hs. unfold byte_delta.
  rewrite !len_slice in Hs by lia. lia.
Qed.

(** What follows the edit is the same text in both sources. *)
Lemma eb_tail x : eOldEndByte e ≤ x ≤ len old →
  slice new (eNewEndByte e) (x + byte_delta e) = slice old (eOldEndByte e) x.
Proof using He.
  intros Hx. pose proof eb_length as Hl. destruct He as [? ? _ Hs _ _ _]. unfold byte_delta in *.
  rewrite <-(slice_slice_0 old (eOldEndByte e) x (len old)), Hs by lia.
  rewrite <-(slice_slice_0 new (eNewEndByte e) _ (len new)) by lia. f_equal. lia.
Qed.

Lemma eb_point_tail x : eOldEndByte e ≤ x ≤ len old →
  offset_point old x = point_after (eOldEndPoint e) (slice old (eOldEndByte e) x) ∧
  offset_point new (x + byte_delta e) = point_after (eNewEndPoint e) (slice old (eOldEndByte e) x).
Proof using He.
  intros Hx. rewrite <-(eb_tail x Hx), <-!foldl_step_byte_after, (eb_tail x Hx).
  pose proof (eb_tail x Hx) as Ht. destruct He as [? ? _ _ -> -> _].
  split; [symmetry; apply offset_point_step; lia|]. rewrite <-Ht. symmetry.
  apply offset_point_step; unfold byte_delta; lia.
Qed.

(** A point at or after the old end of the edit moves to the point of its new
    offset. *)
Lemma shift_point_exact x : eOldEndByte e ≤ x ≤ len old →
  shiftPointAfterEdit (offset_point old x) e (row_delta e) = offset_point new (x + byte_delta e).
Proof using He.
  intros Hx. destruct (eb_point_tail x Hx) as [-> ->]. pose proof eb_length as Hl.
  pose proof (len_slice old (eOldEndByte e) x) as Hs. destruct He as [? ? _ _ Ho Hn Hz].
  unfold byte_delta in Hl.
  pose proof (offset_point_bounds old (eOldEndByte e) ltac:(lia) ltac:(lia)) as [Hor Hoc].
  pose proof (offset_point_bounds new (eNewEndByte e) ltac:(lia) ltac:(lia)) as [Hnr Hnc].
  rewrite <-Ho in Hor, Hoc. rewrite <-Hn in Hnr, Hnc. unfold row_delta.
  specialize (Hs ltac:(lia) ltac:(lia) ltac:(lia)). set (b := slice old (eOldEndByte e) x) in *.
  pose proof (count_byte_le newline b). pose proof (tail_len_bound newline b 0).
  unfold point_after, shiftPointAfterEdit, addUint32Delta.
  destruct (has_byte newline b) eqn:Hb; cbn [Row Column].
  - pose proof (has_byte_count _ _ Hb). rewrite !u32_id by lia. zcases; try lia; f_equal; lia.
  - case_decide; cbn [Row Column]; [|rewrite !u32_id by lia]; zcases; try lia; f_equal; lia.
Qed.

Lemma eb_point_before x : x ≤ eStartByte e → offset_point old x = offset_point new x.
Proof using He.
  intros Hx. destruct He as [? ? Hp _ _ _ _]. unfold offset_point. f_equal.
  destruct (Z.leb_spec x 0); [by rewrite !slice_nil by lia|].
  pose proof (slice_slice_0 old 0 x (eStartByte e) ltac:(lia) ltac:(lia) Hx) as E1.
  pose proof (slice_slice_0 new 0 x (eStartByte e) ltac:(lia) ltac:(lia) Hx) as E2.
  by rewrite <-E1, <-E2, Hp.
Qed.
End points.

(** ** The nodes of a tree *)

Fixpoint preorder (n : Node) : list Node :=
  match n with mkNode _ _ _ _ _ _ _ _ cs => n :: flat_map preorder cs end.

Lemma Forall_preorder (P : Node → Prop) k rf sy sb eb sp ep d cs :
  Forall P (preorder (mkNode k rf sy sb eb sp ep d cs)) ↔
  P (mkNode k rf sy sb eb sp ep d cs) ∧ Forall (λ c, Forall P (preorder c)) cs.
Proof. cbn [preorder]. by rewrite list.Forall_cons, List.Forall_flat_map. Qed.

Lemma nested_list_each lo hi cs : nested_list hi lo cs → Forall (nested lo hi) cs.
Proof.
  revert lo. induction cs as [|c cs IH]; intros lo; [constructor|]. intros [Hc Hcs].
  pose proof (nested_bounds _ _ _ Hc). constructor; [done|].
  eapply list.Forall_impl; [apply IH, Hcs|]. intros c'. apply nested_weaken; lia.
Qed.

Lemma preorder_bounds n : ∀ lo hi, nested lo hi n →
  Forall (λ m, lo ≤ nStart m ∧ nStart m ≤ nEnd m ∧ nEnd m ≤ hi) (preorder n).
Proof.
  induction n as [k rf sy sb eb sp ep d cs IH] using Node_tree_ind. intros lo hi.
  rewrite nested_eq, Forall_preorder. intros (? & ? & ? & Hcs). split; [cbn; lia|].
  apply nested_list_each in Hcs. apply list.Forall_forall. intros c Hc.
  rewrite list.Forall_forall in IH, Hcs. eapply list.Forall_impl; [apply IH; [done|by apply Hcs]|].
  cbn. lia.
Qed.

(** The points of a node that has points are the positions of its offsets. *)
Definition honest (src : list Z) (n : Node) : Prop :=
  nKind n ≠ KindNoTreeNode → nStartPoint n = offset_point src (nStart n) ∧ nEndPoint n = offset_point src (nEnd n).

(** Materialised children are full nodes. *)
Definition kinded (n : Node) : Prop :=
  nKind n = KindNode → nFinalRefs n = false → Forall (λ c, nKind c = KindNode) (nChildren n).

(** A tree with the spans and points of a source. *)
Record tree_of (src : list Z) (n : Node) : Prop := {
  to_root : nKind n = KindNode;
  to_kinds : Forall kinded (preorder n);
  to_nested : nested 0 (len src) n;
  to_points : Forall (honest src) (preorder n) }.

Section honest.
Context (old new : list Z) (e : InputEdit) (He : edit_between old new e).

Abbreviation edit_node := (editNodeWithDelta e (byte_delta e) (row_delta e) (has_tail_shift e)).
Abbreviation shift_node := (shiftSubtreeNodeAfterEdit e (byte_delta e) (row_delta e)).

Lemma eb_point_no_tail x : has_tail_shift e = false → eOldEndByte e ≤ x ≤ len old →
  offset_point old x = offset_point new x.
Proof using He.
  intros Ht Hx. destruct (eb_point_tail _ _ _ He x Hx) as [H1 H2].
  destruct (no_tail_delta e Ht) as [Hd Hp]. rewrite Hd, Hp, Z.add_0_r in H2. congruence.
Qed.

Lemma kept_honest n lo hi : nested lo hi n → hi ≤ len old →
  hi ≤ eStartByte e ∨ has_tail_shift e = false ∧ eOldEndByte e ≤ lo →
  Forall (honest old) (preorder n) → Forall (honest new) (preorder n).
Proof using He.
  intros Hn%preorder_bounds Hhi Hk Hh. apply list.Forall_forall. intros m Hm.
  rewrite list.Forall_forall in Hn, Hh. specialize (Hn m Hm). intros Hkind.
  destruct (Hh m Hm Hkind) as [Hs Hep]. rewrite Hs, Hep.
  destruct Hk as [Hk|[Ht Hk]]; split.
  1,2: apply (eb_point_before _ _ _ He); lia.
  1,2: apply eb_point_no_tail; [done|lia].
Qed.

Lemma shifted_honest n : ∀ lo hi, nested lo hi n → eOldEndByte e ≤ lo → hi ≤ len old →
  Forall (honest old) (preorder n) → Forall (honest new) (preorder (shift_node n)).
Proof using He.
  pose proof (eb_old _ _ _ He) as Ho. pose proof (eb_new _ _ _ He) as Hn'.
  pose proof (eb_length _ _ _ He) as Hl. pose proof (eb_size _ _ _ He) as Hz.
  induction n as [k rf sy sb eb sp ep d cs IH] using Node_tree_ind. intros lo hi Hn Hlo Hhi.
  rewrite shiftSubtreeNodeAfterEdit_eq. rewrite nested_eq in Hn. destruct Hn as (? & ? & ? & Hn).
  apply nested_list_each in Hn. rewrite !Forall_preorder. intros [Hnode Hcs]. split.
  - intros Hkind. destruct (Hnode Hkind) as [Hs Hep]. cbn in Hs, Hep, Hkind |- *. subst sp ep.
    rewrite !has_points, !(delta_ok e (proj1 Ho) (proj1 Hn') (len old)) by (done || lia).
    by rewrite !(shift_point_exact _ _ _ He) by lia.
  - apply List.Forall_map. apply list.Forall_forall. intros c Hc.
    rewrite list.Forall_forall in IH, Hn, Hcs. apply (IH c Hc sb eb); [by apply Hn|lia|lia|by apply Hcs].
Qed.

Lemma edit_honest n : ∀ lo hi, nested lo hi n → hi ≤ len old →
  Forall (honest old) (preorder n) → Forall (honest new) (preorder (edit_node n).1).
Proof using He.
  pose proof (eb_old _ _ _ He) as Ho. pose proof (eb_new _ _ _ He) as Hn'.
  pose proof (eb_length _ _ _ He) as Hl. pose proof (eb_size _ _ _ He) as Hz.
  induction n as [k rf sy sb eb sp ep d cs IH] using Node_tree_ind. intros lo hi Hn Hhi Hh.
  pose proof Hn as Hwhole. rewrite nested_eq in Hn. destruct Hn as (H1 & H2 & H3 & Hn).
  assert (nested sb eb (mkNode k rf sy sb eb sp ep d cs)) as Htight by (rewrite nested_eq; split_and!; [lia..|done]).
  rewrite editNodeWithDelta_eq. destruct (Z.leb_spec eb (eStartByte e)).
  { apply (kept_honest _ sb eb); [done|lia|lia|done]. }
  destruct (Z.leb_spec (eOldEndByte e) sb).
  { destruct (has_tail_shift e) eqn:Ht; cbn [negb fst]; [apply (shifted_honest _ sb eb)|apply (kept_honest _ sb eb)];
      try done; try lia; auto. }
  pose proof (edit_children_map e (proj1 Ho) sb eb 0 cs Hn) as Hmap.
  destruct (edit_children _ _ _ _ _ _ cs) as [[cs' desc] hint]. cbn [fst] in Hmap. subst cs'.
  rewrite Forall_preorder in Hh. destruct Hh as [Hnode Hcs].
  destruct (if eStartByte e <? sb then _ else _) as [sb' sp'] eqn:E1.
  destruct (if eb <=? eOldEndByte e then _ else _) as [eb' ep'] eqn:E2. cbn [fst].
  rewrite Forall_preorder. split; [intros Hkind; destruct (Hnode Hkind) as [Hs Hep];
    cbn in Hs, Hep, Hkind; subst sp ep; rewrite has_points in E1 by done; split; cbn|].
  - revert E1. destruct (Z.ltb_spec (eStartByte e) sb); intros [= <- <-]; [apply (eb_new_point _ _ _ He)|].
    apply (eb_point_before _ _ _ He). lia.
  - revert E2. destruct (Z.leb_spec eb (eOldEndByte e)); intros [= <- <-];
      [rewrite has_points by done; apply (eb_new_point _ _ _ He)|].
    rewrite has_points, (delta_ok e (proj1 Ho) (proj1 Hn') (len old)) by (done || lia).
    apply (shift_point_exact _ _ _ He). lia.
  - apply List.Forall_map. apply nested_list_each in Hn. apply list.Forall_forall. intros c Hc.
    rewrite list.Forall_forall in IH, Hn, Hcs. apply (IH c Hc sb eb); [by apply Hn|lia|by apply Hcs].
Qed.

(** ** Kinds *)

Lemma shift_kind n : nKind (shift_node n) = nKind n.
Proof. destruct n. by rewrite shiftSubtreeNodeAfterEdit_eq. Qed.

Lemma edit_kind n : nKind (edit_node n).1 = nKind n.
Proof.
  destruct n. rewrite editNodeWithDelta_eq. case_match; [done|]. case_match; [case_match; [done|apply shift_kind]|].
  repeat case_match; done.
Qed.

Lemma kinded_map (f : Node → Node) k rf sy sb eb sp ep d cs sb' eb' sp' ep' d' :
  (∀ c, nKind (f c) = nKind c) → kinded (mkNode k rf sy sb eb sp ep d cs) →
  kinded (mkNode k rf sy sb' eb' sp' ep' d' (map f cs)).
Proof.
  intros Hf H Hk Hr. apply List.Forall_map. eapply list.Forall_impl; [exact (H Hk Hr)|].
  intros c. by rewrite Hf.
Qed.

Lemma shifted_kinded n : Forall kinded (preorder n) → Forall kinded (preorder (shift_node n)).
Proof.
  induction n as [k rf sy sb eb sp ep d cs IH] using Node_tree_ind. rewrite shiftSubtreeNodeAfterEdit_eq.
  rewrite !Forall_preorder. intros [Hn Hcs]. split; [eapply kinded_map; [apply shift_kind|exact Hn]|].
  apply List.Forall_map, list.Forall_forall. intros c Hc. rewrite list.Forall_forall in IH, Hcs. by apply IH, Hcs.
Qed.

Lemma edit_kinded n : 0 ≤ eStartByte e ≤ eOldEndByte e → ∀ lo hi, nested lo hi n →
  Forall kinded (preorder n) → Forall kinded (preorder (edit_node n).1).
Proof.
  intros Hse. induction n as [k rf sy sb eb sp ep d cs IH] using Node_tree_ind. intros lo hi Hn Hk.
  rewrite nested_eq in Hn. destruct Hn as (_ & _ & _ & Hn).
  rewrite editNodeWithDelta_eq. destruct (eb <=? eStartByte e); [done|].
  destruct (eOldEndByte e <=? sb); [destruct (has_tail_shift e); [by apply shifted_kinded|done]|].
  pose proof (edit_children_map e Hse sb eb 0 cs Hn) as Hmap.
  destruct (edit_children _ _ _ _ _ _ cs) as [[cs' desc] hint]. cbn [fst] in Hmap. subst cs'.
  destruct (if eStartByte e <? sb then _ else _) as [sb' sp'].
  destruct (if eb <=? eOldEndByte e then _ else _) as [eb' ep']. cbn [fst].
  rewrite Forall_preorder in Hk |- *. destruct Hk as [Hk Hcs].
  split; [eapply (kinded_map (λ c, (edit_node c).1)); [apply edit_kind|exact Hk]|].
  apply nested_list_each in Hn. apply List.Forall_map, list.Forall_forall. intros c Hc.
  rewrite list.Forall_forall in IH, Hcs, Hn. apply (IH c Hc sb eb); [by apply Hn|by apply Hcs].
Qed.

(** ** The nodes an edit marks *)

Definition overlaps (m : Node) : bool := (eStartByte e <? nEnd m) && (nStart m <? eOldEndByte e).
Definition marks (f : Node → bool) (n : Node) : list (NodeInfo * Z * bool) :=
  map (λ m, (nInfo m, len (nChildren m), f m)) (preorder n).

Lemma marks_eq f k rf sy sb eb sp ep d cs :
  marks f (mkNode k rf sy sb eb sp ep d cs) =
  (sy, len cs, f (mkNode k rf sy sb eb sp ep d cs)) :: flat_map (marks f) cs.
Proof.
  unfold marks at 1. cbn [preorder map nInfo nChildren]. f_equal. induction cs as [|c cs IH]; cbn; [done|].
  rewrite map_app, IH. done.
Qed.

Lemma flat_map_map_ext {A B C} (f : B → list C) (g : A → list C) (h : A → B) l :
  Forall (λ x, f (h x) = g x) l → flat_map f (map h l) = flat_map g l.
Proof. induction 1 as [|x l Hx _ IH]; cbn; [done|]. by rewrite Hx, IH. Qed.

Lemma kept_marks n lo hi : nested lo hi n → hi ≤ eStartByte e ∨ eOldEndByte e ≤ lo →
  marks nDirty n = marks (λ m, nDirty m || overlaps m) n.
Proof.
  intros Hn%preorder_bounds Hk. unfold marks. apply map_ext_in. intros m Hm%list_elem_of_In.
  rewrite list.Forall_forall in Hn. specialize (Hn m Hm). f_equal. unfold overlaps.
  destruct (nDirty m); cbn; [done|]. symmetry. zcases; cbn; lia.
Qed.

Lemma shifted_marks n : marks nDirty (shift_node n) = marks nDirty n.
Proof.
  induction n as [k rf sy sb eb sp ep d cs IH] using Node_tree_ind. rewrite shiftSubtreeNodeAfterEdit_eq.
  rewrite !marks_eq. unfold len. rewrite length_map. f_equal. by apply flat_map_map_ext.
Qed.

Lemma edit_marks n : eStartByte e ≤ eOldEndByte e → 0 ≤ eStartByte e → ∀ lo hi, nested lo hi n →
  marks nDirty (edit_node n).1 = marks (λ m, nDirty m || overlaps m) n.
Proof.
  intros Hse Hs. induction n as [k rf sy sb eb sp ep d cs IH] using Node_tree_ind. intros lo hi Hn.
  rewrite nested_eq in Hn. destruct Hn as (H1 & H2 & H3 & Hn).
  assert (nested sb eb (mkNode k rf sy sb eb sp ep d cs)) as Htight by (rewrite nested_eq; split_and!; [lia..|done]).
  rewrite editNodeWithDelta_eq. destruct (Z.leb_spec eb (eStartByte e)).
  { apply (kept_marks _ sb eb); [done|lia]. }
  destruct (Z.leb_spec (eOldEndByte e) sb).
  { destruct (has_tail_shift e) eqn:Ht; cbn [negb fst]; rewrite ?shifted_marks;
      apply (kept_marks _ sb eb); [done|lia|done|lia]. }
  pose proof (edit_children_map e (conj Hs Hse) sb eb 0 cs Hn) as Hmap.
  destruct (edit_children _ _ _ _ _ _ cs) as [[cs' desc] hint]. cbn [fst] in Hmap. subst cs'.
  destruct (if eStartByte e <? sb then _ else _) as [sb' sp'].
  destruct (if eb <=? eOldEndByte e then _ else _) as [eb' ep']. cbn [fst].
  rewrite !marks_eq. cbn [nDirty]. unfold len at 1. rewrite length_map. f_equal.
  - f_equal. unfold overlaps. cbn. destruct d; cbn; [done|]. zcases; cbn; lia.
  - apply flat_map_map_ext. apply nested_list_each in Hn. apply list.Forall_forall. intros c Hc.
    rewrite list.Forall_forall in IH, Hn. apply (IH c Hc sb eb), Hn, Hc.
Qed.
End honest.

(** ** The single-byte path *)

Lemma editNodeSingleByteReplacement_eq e bd rd k rf sy sb eb sp ep d cs :
  editNodeSingleByteReplacement e (mkNode k rf sy sb eb sp ep d cs) =
  if (eb <=? eStartByte e) || (eOldEndByte e <=? sb) then (mkNode k rf sy sb eb sp ep d cs, None)
  else if rf then editNodeWithDelta e 0 0 false (mkNode k rf sy sb eb sp ep d cs)
  else
    let '(cs', descended, hint) :=
      edit_children e bd rd false (editNodeSingleByteReplacement e) 0 cs in
    (mkNode k rf sy sb eb sp ep true cs',
     if negb descended && (len cs =? 0) then Some [] else hint).
Proof. reflexivity. Qed.

Lemma edit_children_ext e bd rd tail f g i cs :
  Forall (λ c, f c = g c) cs → edit_children e bd rd tail f i cs = edit_children e bd rd tail g i cs.
Proof.
  intros H. revert i. induction H as [|c cs Hc _ IH]; intros i; cbn; [done|]. by rewrite Hc, (IH (S i)).
Qed.

Section single_byte.
Context (old new : list Z) (e : InputEdit) (He : edit_between old new e).
Context (Hone : inputEditIsSingleByteReplacement e = true).

Lemma single_byte_deltas :
  eOldEndByte e = eStartByte e + 1 ∧ eNewEndByte e = eOldEndByte e ∧ eNewEndPoint e = eOldEndPoint e ∧
  byte_delta e = 0 ∧ row_delta e = 0 ∧ has_tail_shift e = false.
Proof using He Hone.
  unfold inputEditIsSingleByteReplacement in Hone. apply andb_prop in Hone as [H Hp].
  apply bool_decide_eq_true in Hp. pose proof (eb_old _ _ _ He). pose proof (eb_size _ _ _ He).
  assert (eOldEndByte e = eStartByte e + 1) as Ho.
  { unfold u32 in H. rewrite Z.mod_small in H by lia. lia. }
  unfold has_tail_shift, row_delta, byte_delta. rewrite Hp, bool_decide_eq_true_2 by done.
  split_and!; try done; lia.
Qed.

Lemma fast_path_node n : ∀ lo hi, nested lo hi n → hi ≤ len old → Forall (honest old) (preorder n) →
  nKind n = KindNode → Forall kinded (preorder n) →
  editNodeSingleByteReplacement e n =
  editNodeWithDelta e (byte_delta e) (row_delta e) (has_tail_shift e) n.
Proof using He Hone.
  pose proof single_byte_deltas as (Ho & Hn & Hp & Hb & Hr & Ht). pose proof (eb_size _ _ _ He) as Hz.
  pose proof (eb_old _ _ _ He). pose proof (eb_new _ _ _ He).
  induction n as [k rf sy sb eb sp ep d cs IH] using Node_tree_ind. intros lo hi Hnest Hhi Hh Hkind Hks.
  rewrite nested_eq in Hnest. destruct Hnest as (? & ? & ? & Hcs). apply nested_list_each in Hcs.
  rewrite Forall_preorder in Hh, Hks. destruct Hh as [Hnode Hh], Hks as [Hknode Hks].
  cbn in Hkind. subst k. destruct (Hnode ltac:(done)) as [Hsp Hep]. cbn in Hsp, Hep.
  rewrite editNodeWithDelta_eq, (editNodeSingleByteReplacement_eq e (byte_delta e) (row_delta e)), Ht. cbn [negb].
  destruct (Z.leb_spec eb (eStartByte e)); [done|]. cbn [orb].
  destruct (Z.leb_spec (eOldEndByte e) sb); [done|].
  destruct rf.
  { rewrite editNodeWithDelta_eq, Hb, Hr. destruct (Z.leb_spec eb (eStartByte e)); [lia|].
    by destruct (Z.leb_spec (eOldEndByte e) sb); [lia|]. }
  destruct (Z.ltb_spec (eStartByte e) sb); [lia|]. rewrite !has_points, bool_decide_eq_true_2 by done.
  assert ((if eb <=? eOldEndByte e then (eNewEndByte e, eNewEndPoint e)
     else (addUint32Delta eb (byte_delta e), shiftPointAfterEdit ep e (row_delta e))) = (eb, ep)) as ->.
  { destruct (Z.leb_spec eb (eOldEndByte e)).
    - assert (eb = eNewEndByte e) as -> by lia. rewrite Hep, Hp, (eb_old_point _ _ _ He), Hn. done.
    - rewrite (delta_ok e (proj1 (eb_old _ _ _ He)) (proj1 (eb_new _ _ _ He)) (len old)) by lia.
      rewrite Hb, Z.add_0_r. f_equal. rewrite Hep, (shift_point_exact _ _ _ He), Hb, Z.add_0_r by lia.
      symmetry. apply (eb_point_no_tail _ _ _ He); [done|lia]. }
  rewrite (edit_children_ext _ _ _ _ (editNodeSingleByteReplacement e)
    (editNodeWithDelta e (byte_delta e) (row_delta e) false)); [done|].
  apply list.Forall_forall. intros c Hc. rewrite list.Forall_forall in IH, Hcs, Hh.
  pose proof (Hknode eq_refl eq_refl) as Hck. cbn in Hck. rewrite list.Forall_forall in Hck, Hks.
  rewrite <-Ht. apply (IH c Hc sb eb); [by apply Hcs|lia|by apply Hh|by apply Hck|by apply Hks].
Qed.
End single_byte.

(** [Tree.Edit] on a tree with a root, by the general path. *)
Lemma TreeEdit_general old new e t n :
  edit_between old new e → tree_of old n → tRoot t = Some n →
  TreeEdit t e =
  mkTree (Some (editNodeWithDelta e (byte_delta e) (row_delta e) (has_tail_shift e) n).1)
    (tEdits t ++ [e]) (editNodeWithDelta e (byte_delta e) (row_delta e) (has_tail_shift e) n).2.
Proof.
  intros He [Hk Hks Hn Hh] Hr. unfold TreeEdit. rewrite Hr. destruct (inputEditIsSingleByteReplacement e) eqn:Hone.
  - rewrite (fast_path_node _ _ _ He Hone n 0 (len old)) by done. by destruct (editNodeWithDelta _ _ _ _ n).
  - by destruct (editNodeWithDelta _ _ _ _ n).
Qed.

(** The edited tree fits the edited source. *)
Lemma TreeEdit_tree_of old new e t n :
  edit_between old new e → tree_of old n → tRoot t = Some n →
  ∃ n', tRoot (TreeEdit t e) = Some n' ∧ tree_of new n' ∧ tEdits (TreeEdit t e) = tEdits t ++ [e].
Proof.
  intros He Ht Hr. rewrite (TreeEdit_general old new e t n He Ht Hr). cbn.
  eexists. split_and!; [done| |done]. destruct Ht as [Hk Hks Hn Hh].
  pose proof (eb_old _ _ _ He). pose proof (eb_new _ _ _ He). pose proof (eb_size _ _ _ He).
  pose proof (eb_length _ _ _ He) as Hl. split; [by rewrite edit_kind|by apply (edit_kinded e n ltac:(lia) 0 (len old))| |by apply (edit_honest _ _ _ He n 0 (len old))].
  destruct (edit_span e ltac:(lia) ltac:(lia) (len old) ltac:(lia) n) as [Hs _].
  specialize (Hs 0 (len old) ltac:(lia) Hn). eapply nested_weaken; [| |exact Hs];
    unfold moved_end, byte_delta in *; zcases; lia.
Qed.

(** C23.  [Tree.Edit] keeps a tree in step with its source: if the spans of the
    tree are nested, ordered and inside the old source and every point is the
    row and column of its offset, then after an edit that leads from the old to
    the new source the same holds of the new tree and the new source.  No span
    saturates, and the edit is recorded. *)
Theorem TreeEdit_follows_source old new e t n :
  edit_between old new e → tree_of old n → tRoot t = Some n →
  ∃ n', tRoot (TreeEdit t e) = Some n' ∧ tree_of new n' ∧ tEdits (TreeEdit t e) = tEdits t ++ [e].
Proof. apply TreeEdit_tree_of. Qed.

(** C31.  [Tree.Edit] leaves the shape, the symbols and the fields of the tree alone and
    marks exactly the nodes whose old span meets the edited bytes: in document
    order, a node of the edited tree is dirty iff it was dirty before or starts
    before the old end and ends after the start of the edit. *)
Theorem TreeEdit_marks_overlap old new e t n :
  edit_between old new e → tree_of old n → tRoot t = Some n →
  ∃ n', tRoot (TreeEdit t e) = Some n' ∧
    marks nDirty n' = marks (λ m, nDirty m || overlaps e m) n.
Proof.
  intros He Ht Hr. rewrite (TreeEdit_general old new e t n He Ht Hr). cbn. eexists. split; [done|].
  pose proof (eb_old _ _ _ He). apply (edit_marks e n ltac:(lia) ltac:(lia) 0 (len old)), (to_nested _ _ Ht).
Qed.

(** Replacing one byte by another takes a path of its own that recomputes
    no span; on a tree that fits its source it returns the same tree and the
    same leaf hint as the general path. *)
Theorem single_byte_path_equiv old new e n :
  edit_between old new e → tree_of old n → inputEditIsSingleByteReplacement e = true →
  editNodeSingleByteReplacement e n =
  editNodeWithDelta e (byte_delta e) (row_delta e) (has_tail_shift e) n.
Proof. intros He [Hk Hks Hn Hh] Hone. by apply (fast_path_node old new e He Hone n 0 (len old)). Qed.

(** ** Changed ranges of an edited tree *)

(** The tree a parse without changes returns: the same nodes, none dirty. *)
Fixpoint cleaned (n : Node) : Node :=
  match n with mkNode k rf sy sb eb sp ep _ cs => mkNode k rf sy sb eb sp ep false (map cleaned cs) end.

(** Below a clean node everything is clean. *)
Fixpoint dirty_closed (n : Node) : Prop :=
  match n with
  | mkNode _ _ _ _ _ _ _ d cs =>
    (d = false → Forall (λ c, Forall (λ m, nDirty m = false) (preorder c)) cs) ∧
    (fix go cs := match cs with [] => True | c :: cs => dirty_closed c ∧ go cs end) cs
  end.

Lemma dirty_closed_eq k rf sy sb eb sp ep d cs :
  dirty_closed (mkNode k rf sy sb eb sp ep d cs) ↔
  (d = false → Forall (λ c, Forall (λ m, nDirty m = false) (preorder c)) cs) ∧ Forall dirty_closed cs.
Proof.
  cbn [dirty_closed]. apply and_iff_compat_l. induction cs as [|c cs IH]; [done|].
  rewrite list.Forall_cons. by rewrite IH.
Qed.

Definition dirty_leaf (m : Node) : bool := nDirty m && (len (nChildren m) =? 0).
Definition span (m : Node) : Range := mkRange (nStart m) (nEnd m) (nStartPoint m) (nEndPoint m).
Definition dirty_leaf_spans (n : Node) : list Range :=
  map span (filter (λ m, dirty_leaf m = true) (preorder n)).

Lemma clean_closed n : Forall (λ m, nDirty m = false) (preorder n) → dirty_closed n.
Proof.
  induction n as [k rf sy sb eb sp ep d cs IH] using Node_tree_ind. rewrite Forall_preorder, dirty_closed_eq.
  intros [_ Hcs]. split; [done|]. apply list.Forall_forall. intros c Hc.
  rewrite list.Forall_forall in IH, Hcs. by apply IH, Hcs.
Qed.

Lemma shifted_clean e n : Forall (λ m, nDirty m = false) (preorder n) →
  Forall (λ m, nDirty m = false) (preorder (shiftSubtreeNodeAfterEdit e (byte_delta e) (row_delta e) n)).
Proof.
  induction n as [k rf sy sb eb sp ep d cs IH] using Node_tree_ind. rewrite shiftSubtreeNodeAfterEdit_eq.
  rewrite !Forall_preorder. intros [Hd Hcs]. split; [done|]. apply List.Forall_map, list.Forall_forall.
  intros c Hc. rewrite list.Forall_forall in IH, Hcs. by apply IH, Hcs.
Qed.

Lemma edit_closed e n : 0 ≤ eStartByte e ≤ eOldEndByte e →
  Forall (λ m, nDirty m = false) (preorder n) → ∀ lo hi, nested lo hi n →
  dirty_closed (editNodeWithDelta e (byte_delta e) (row_delta e) (has_tail_shift e) n).1.
Proof.
  intros Hse. induction n as [k rf sy sb eb sp ep d cs IH] using Node_tree_ind. intros Hd lo hi Hn.
  rewrite editNodeWithDelta_eq. destruct (eb <=? eStartByte e); [by apply clean_closed|].
  destruct (eOldEndByte e <=? sb).
  { destruct (has_tail_shift e); cbn [negb fst]; [by apply clean_closed, shifted_clean|by apply clean_closed]. }
  rewrite nested_eq in Hn. destruct Hn as (_ & _ & _ & Hn).
  pose proof (edit_children_map e Hse sb eb 0 cs Hn) as Hmap.
  destruct (edit_children _ _ _ _ _ _ cs) as [[cs' desc] hint]. cbn [fst] in Hmap. subst cs'.
  destruct (if eStartByte e <? sb then _ else _) as [sb' sp'].
  destruct (if eb <=? eOldEndByte e then _ else _) as [eb' ep']. cbn [fst].
  rewrite dirty_closed_eq. split; [done|]. apply List.Forall_map, list.Forall_forall. intros c Hc.
  apply nested_list_each in Hn. rewrite Forall_preorder in Hd. destruct Hd as [_ Hd].
  rewrite list.Forall_forall in IH, Hn, Hd. apply (IH c Hc (Hd c Hc) sb eb), Hn, Hc.
Qed.

Lemma clean_no_leaf_spans ms : Forall (λ m, nDirty m = false) ms → filter (λ m, dirty_leaf m = true) ms = [].
Proof.
  intros H. apply filter_Forall_nil. eapply list.Forall_impl; [exact H|]. intros m Hm. unfold dirty_leaf.
  by rewrite Hm.
Qed.

(** The pairwise walk over the children. *)
Section diff_children.
Context (diff : Node → Node → list Range).
Fixpoint diff_children (os ns : list Node) : list Range :=
  match os, ns with
  | o :: os, n :: ns => diff o n ++ diff_children os ns
  | _, _ => []
  end.
End diff_children.

Lemma diffNodes_eq old new :
  diffNodes old new =
  if nodesStructurallyEqual old new then []
  else if negb (nSymbol old =? nSymbol new) || negb (len (nChildren old) =? len (nChildren new))
  then [changed_range old new]
  else if len (nChildren old) =? 0 then [changed_range old new]
  else diff_children diffNodes (nChildren old) (nChildren new).
Proof. destruct old. reflexivity. Qed.

Lemma diff_cleaned n : dirty_closed n → diffNodes n (cleaned n) = dirty_leaf_spans n.
Proof.
  induction n as [k rf sy sb eb sp ep d cs IH] using Node_tree_ind. rewrite dirty_closed_eq. intros [Hd Hcs].
  rewrite diffNodes_eq. unfold nodesStructurallyEqual, dirty_leaf_spans.
  cbn [cleaned nSymbol nStart nEnd nChildren nDirty preorder].
  assert (len (map cleaned cs) = len cs) as -> by (unfold len; by rewrite length_map). rewrite !Z.eqb_refl.
  cbn [andb negb orb]. rewrite filter_cons. unfold dirty_leaf at 1. cbn [nDirty nChildren].
  destruct d; cbn [negb andb].
  - destruct cs as [|c cs]; [cbn; unfold changed_range; cbn; rewrite Z.min_id, Z.max_id, !Z.ltb_irrefl; done|].
    pose proof (len_nonneg cs). pose proof (len_cons c cs).
    destruct (Z.eqb_spec (len (c :: cs)) 0); [lia|]. rewrite decide_False by done. clear Hd H H0 n. revert IH Hcs. generalize (c :: cs). clear c cs. intros cs IH Hcs.
    induction IH as [|c cs Hc _ IHcs]; [done|]. apply list.Forall_cons_1 in Hcs as [H1 H2].
    cbn [map diff_children flat_map]. rewrite Hc, IHcs, list.filter_app, map_app by done. done.
  - rewrite decide_False by done. rewrite clean_no_leaf_spans; [done|].
    apply List.Forall_flat_map. by apply Hd.
Qed.

(** When a clean tree is edited and a parse then returns the edited tree
    unchanged, [DiffChangedRanges] reports separated ranges that touch exactly
    the offsets touched by the leaves the edit marked: nothing else is reported
    and no marked leaf is missed. *)
Theorem DiffChangedRanges_after_edit `{SliceSort} old new e t n n' :
  edit_between old new e → tree_of old n → Forall (λ m, nDirty m = false) (preorder n) →
  tRoot t = Some n → tRoot (TreeEdit t e) = Some n' →
  gapped (DiffChangedRanges (Some n') (Some (cleaned n'))) ∧
  ∀ p, covered_closed (DiffChangedRanges (Some n') (Some (cleaned n'))) p ↔
    ∃ m, m ∈ preorder n' ∧ nDirty m = true ∧ nChildren m = [] ∧ nStart m ≤ p ≤ nEnd m.
Proof.
  intros He Ht Hd Hr Hr'. pose proof (eb_old _ _ _ He) as [Hse _].
  destruct (TreeEdit_tree_of old new e t n He Ht Hr) as (n1 & Hr1 & [_ _ Hn1 _] & _).
  rewrite Hr' in Hr1. injection Hr1 as <-.
  rewrite (TreeEdit_general old new e t n He Ht Hr) in Hr'. cbn in Hr'. injection Hr' as Hr'.
  pose proof (edit_closed e n Hse Hd 0 (len old) (to_nested _ _ Ht)) as Hc. rewrite Hr' in Hc.
  cbn [DiffChangedRanges]. rewrite diff_cleaned by done. apply preorder_bounds in Hn1.
  destruct (coalesceRanges_spec (dirty_leaf_spans n')) as (Hg & _ & Hcov).
  { apply List.Forall_map, list.Forall_forall. intros m [_ Hm]%list_elem_of_filter.
    rewrite list.Forall_forall in Hn1. apply Hn1 in Hm. unfold ordered. cbn. lia. }
  split; [done|]. intros p. rewrite Hcov. unfold covered_closed, dirty_leaf_spans. split.
  - intros (r & (m & -> & [Hm Hin]%list_elem_of_filter)%list_elem_of_fmap & Hp). exists m.
    unfold dirty_leaf in Hm. apply andb_prop in Hm as [? Hm]. split_and!; try done; [|cbn in Hp; lia..].
    destruct (nChildren m); [done|]. unfold len in Hm. cbn in Hm. lia.
  - intros (m & Hin & Hdm & Hleaf & Hp). exists (span m). split; [|done].
    apply list_elem_of_fmap. exists m. split; [done|]. apply list_elem_of_filter. split; [|done].
    unfold dirty_leaf. by rewrite Hdm, Hleaf.
Qed.

(** A root with two leaves over [ab\ncd], and the insertion of a line break
    and a byte between [a] and [b]. *)
Definition sample_old : list Z := [97; 98; 10; 99; 100].
Definition sample_new : list Z := [97; 10; 120; 98; 10; 99; 100].
Definition leaf_info (sym : Z) : NodeInfo := mkInfo sym true [].
Definition sample_tree : Node :=
  mkNode KindNode false (leaf_info 1) 0 5 (mkPoint 0 0) (mkPoint 1 2) false
    [mkNode KindNode false (leaf_info 2) 0 2 (mkPoint 0 0) (mkPoint 0 2) false []; mkNode KindNode false (leaf_info 3) 3 5 (mkPoint 1 0) (mkPoint 1 2) false []].
Definition sample_edit : InputEdit :=
  mkInputEdit 1 1 3 (mkPoint 0 1) (mkPoint 0 1) (mkPoint 1 1).

Lemma sample_between : edit_between sample_old sample_new sample_edit.
Proof. split; [vm_compute; intuition congruence..| | | | |vm_compute; intuition congruence]; reflexivity. Qed.
Lemma sample_tree_of : tree_of sample_old sample_tree.
Proof.
  split; [done|repeat constructor|cbn; change (len sample_old) with 5; lia|].
  repeat (constructor; [split; reflexivity|]). constructor.
Qed.

(** The same tree with compact references for children. *)
Definition sample_compact : Node :=
  mkNode KindNode true (leaf_info 1) 0 5 (mkPoint 0 0) (mkPoint 1 2) false
    [mkNode KindPendingParent false (leaf_info 2) 0 2 (mkPoint 0 0) (mkPoint 0 2) false
      [mkNode KindNoTreeNode false (leaf_info 4) 0 1 (mkPoint 0 0) (mkPoint 0 0) false []];
     mkNode KindCompactFullLeaf false (leaf_info 3) 3 5 (mkPoint 1 0) (mkPoint 1 2) false []].
Lemma sample_compact_of : tree_of sample_old sample_compact.
Proof.
  split; [done|repeat (constructor; [done|]); constructor|cbn; change (len sample_old) with 5; lia|].
  repeat (constructor; [first [done|split; reflexivity]|]). constructor.
Qed.

Lemma TreeEdit_follows_source_witness :
  ∃ n', tRoot (TreeEdit (mkTree (Some sample_compact) [] None) sample_edit) = Some n' ∧
    tree_of sample_new n' ∧ nEndPoint n' = mkPoint 2 2.
Proof.
  destruct (TreeEdit_follows_source sample_old sample_new sample_edit
    (mkTree (Some sample_compact) [] None) sample_compact sample_between sample_compact_of eq_refl)
    as (n' & Hr & Ht & _).
  exists n'. split_and!; [done|done|]. injection Hr as <-. reflexivity.
Defined.

Lemma TreeEdit_marks_overlap_witness :
  ∃ n', tRoot (TreeEdit (mkTree (Some sample_tree) [] None) sample_edit) = Some n' ∧
    marks nDirty n' = [(leaf_info 1, 2, true); (leaf_info 2, 0, true); (leaf_info 3, 0, false)].
Proof.
  exact (TreeEdit_marks_overlap sample_old sample_new sample_edit
    (mkTree (Some sample_tree) [] None) sample_tree sample_between sample_tree_of eq_refl).
Defined.

Definition sample_replacement : InputEdit :=
  mkInputEdit 3 4 4 (mkPoint 1 0) (mkPoint 1 1) (mkPoint 1 1).

Lemma single_byte_path_equiv_witness :
  editNodeWithDelta sample_replacement (byte_delta sample_replacement)
    (row_delta sample_replacement) (has_tail_shift sample_replacement) sample_tree =
  (mkNode KindNode false (leaf_info 1) 0 5 (mkPoint 0 0) (mkPoint 1 2) true
    [mkNode KindNode false (leaf_info 2) 0 2 (mkPoint 0 0) (mkPoint 0 2) false []; mkNode KindNode false (leaf_info 3) 3 5 (mkPoint 1 0) (mkPoint 1 2) true []],
   Some [1%nat]).
Proof.
  rewrite <-(single_byte_path_equiv sample_old [97; 98; 10; 120; 100] sample_replacement sample_tree).
  - reflexivity.
  - split; [vm_compute; intuition congruence..| | | | |vm_compute; intuition congruence]; reflexivity.
  - exact sample_tree_of.
  - reflexivity.
Defined.

Lemma DiffChangedRanges_after_edit_witness :
  ∃ n', tRoot (TreeEdit (mkTree (Some sample_tree) [] None) sample_edit) = Some n' ∧
    gapped (DiffChangedRanges (Some n') (Some (cleaned n'))) ∧
    DiffChangedRanges (Some n') (Some (cleaned n')) = [mkRange 0 4 (mkPoint 0 0) (mkPoint 1 2)].
Proof.
  eexists. split; [reflexivity|]. split; [|reflexivity].
  apply (DiffChangedRanges_after_edit sample_old sample_new sample_edit
    (mkTree (Some sample_tree) [] None) sample_tree).
  - exact sample_between.
  - exact sample_tree_of.
  - repeat constructor.
  - reflexivity.
  - reflexivity.
Defined.
