(* ===== verification/RewriteTree.v ===== *)
(** * Rewriting a source together with its tree

    [Rewriter.ApplyToTree] (rewrite.go) hands the edit records of [Rewriter.Apply]
    to [Tree.Edit] (tree.go), one after the other.  Here the two components meet:
    the records the rewriter produces are what the tree editor needs to keep the
    tree true to the source. *)

From Stdlib Require Import ZArith Lia ZifyBool.
From stdpp Require Import base tactics list numbers option.
From S2P Require Import Prelude Points SliceSort Rewriter TreeEdit TreeEditCorrect.
Local Open Scope Z_scope.

(** One record of a replay is an edit between two sources. *)
Lemma replay_edit_between doc doc' text ie :
  0 ≤ eStartByte ie → eStartByte ie ≤ eOldEndByte ie → eOldEndByte ie ≤ len doc →
  eNewEndByte ie = eStartByte ie + len text →
  doc' = slice doc 0 (eStartByte ie) ++ text ++ slice doc (eOldEndByte ie) (len doc) →
  eOldEndPoint ie = offset_point doc (eOldEndByte ie) →
  eNewEndPoint ie = offset_point doc' (eNewEndByte ie) →
  len doc + len text < 2 ^ 32 → edit_between doc doc' ie ∧ len doc' ≤ len doc + len text.
Proof.
  intros H1 H2 H3 H4 Hdoc H5 H6 Hlen.
  pose proof (len_nonneg text). pose proof (len_slice doc 0 (eStartByte ie) ltac:(lia) ltac:(lia) ltac:(lia)) as Hp.
  pose proof (len_slice doc (eOldEndByte ie) (len doc) ltac:(lia) ltac:(lia) ltac:(lia)) as Hs.
  assert (len doc' = eNewEndByte ie + (len doc - eOldEndByte ie)) as Hl
    by (rewrite Hdoc, !len_app, Hp, Hs, H4; lia).
  split; [|lia]. split; [lia|lia| | |done|done|lia].
  - rewrite Hdoc, slice_app_l by lia. rewrite Z.sub_0_r in Hp. symmetry.
    pose proof (slice_all (slice doc 0 (eStartByte ie))) as Ha. by rewrite Hp in Ha.
  - set (pre := slice doc 0 (eStartByte ie) ++ text).
    assert (doc' = pre ++ slice doc (eOldEndByte ie) (len doc)) as -> by (unfold pre; by rewrite <-app_assoc).
    assert (eNewEndByte ie = len pre + 0) as -> by (unfold pre; rewrite len_app, Hp; lia).
    rewrite slice_app_r, slice_all by lia. done.
Qed.

Lemma replays_tree doc es ies out t n :
  replays doc es ies out → len doc + text_len es < 2 ^ 32 → tRoot t = Some n → tree_of doc n →
  ∃ n', tRoot (foldl TreeEdit t ies) = Some n' ∧ tree_of out n' ∧
    tEdits (foldl TreeEdit t ies) = tEdits t ++ ies.
Proof.
  intros H. revert t n. induction H as [doc|doc e es ie ies doc' out H1 H2 H3 H4 Hdoc _ H5 H6 _ IH];
    intros t n Hlen Hr Ht; [exists n; by rewrite app_nil_r|].
  cbn [foldl]. change (text_len (e :: es)) with (len (eText e) + text_len es) in Hlen.
  pose proof (text_len_nonneg es).
  destruct (replay_edit_between doc doc' (eText e) ie) as [He Hl]; try done; [lia|].
  destruct (TreeEdit_tree_of doc doc' ie t n He Ht Hr) as (n1 & Hr1 & Ht1 & Hed).
  destruct (IH (TreeEdit t ie) n1 ltac:(lia) Hr1 Ht1) as (n' & ? & ? & Hed').
  exists n'. split_and!; [done..|]. by rewrite Hed', Hed, <-app_assoc.
Qed.

(** C24.  [ApplyToTree] keeps source and tree together: on edits that lie inside
    the source and do not clash, applied to a tree that fits the source, it
    returns the source with all the edits carried out and leaves a tree whose
    spans and points fit that new source, whatever order the edits were added in
    and whichever sorter is used. *)
Theorem ApplyToTree_keeps_tree `{SliceSort} r t n :
  edits_ok (len (rSource r)) (rEdits r) → len (rSource r) + text_len (rEdits r) < 2 ^ 32 →
  tRoot t = Some n → tree_of (rSource r) n →
  ∃ t' n', ApplyToTree TreeEdit r t =
      Ret (inl (splice_all (rSource r) (sort_slice edit_less (rEdits r)), t')) ∧
    tRoot t' = Some n' ∧ tree_of (splice_all (rSource r) (sort_slice edit_less (rEdits r))) n'.
Proof.
  intros Hok Hlen Hr Ht. destruct (Apply_correct r Hok Hlen) as (out & edits & Ha & Hout & Hrep).
  destruct (replays_tree _ _ _ _ t n Hrep) as (n' & Hr' & Ht' & _); [|done..|].
  - by rewrite (text_len_perm _ (rEdits r)) by apply sort_slice_perm.
  - exists (foldl TreeEdit t edits), n'. rewrite <-Hout. unfold ApplyToTree. by rewrite Ha.
Qed.

Lemma ApplyToTree_keeps_tree_witness :
  ∃ t' n', ApplyToTree TreeEdit
      (InsertAfter (Delete (NewRewriter sample_old) 0 1) 5 [10; 33]) (mkTree (Some sample_tree) [] None) =
      Ret (inl ([98; 10; 99; 100; 10; 33], t')) ∧
    tRoot t' = Some n' ∧ tree_of [98; 10; 99; 100; 10; 33] n'.
Proof.
  destruct (ApplyToTree_keeps_tree (InsertAfter (Delete (NewRewriter sample_old) 0 1) 5 [10; 33])
    (mkTree (Some sample_tree) [] None) sample_tree) as (t' & n' & Ha & Hr & Ht).
  - split; [repeat constructor; cbn; change (len sample_old) with 5; lia|].
    repeat constructor; cbn; lia.
  - reflexivity.
  - reflexivity.
  - exact sample_tree_of.
  - exists t', n'. split_and!; [exact Ha|exact Hr|exact Ht].
Defined.
