(* ===== verification/Partition.v ===== *)
(** * Partitions by signature

    Shared by the two minimisations of grammargen (dfa_minimize.go and
    lr_state_minimize.go): maps that number their keys in order of appearance,
    arrays of class numbers, and the argument that a refinement with no more
    classes than before is the same partition. *)

From Stdlib Require Import ZArith Lia ZifyBool.
From stdpp Require Import base tactics list numbers option gmap.
From S2P Require Import Prelude.
Local Open Scope Z_scope.

(** A map that numbers its keys from 0. *)
Definition numbering {K} `{Countable K} (m : gmap K Z) : Prop :=
  (∀ k a, m !! k = Some a → 0 ≤ a < Z.of_nat (size m)) ∧
  (∀ k k' a, m !! k = Some a → m !! k' = Some a → k = k') ∧
  (∀ a, 0 ≤ a < Z.of_nat (size m) → ∃ k, m !! k = Some a).

Lemma numbering_empty {K} `{Countable K} : numbering (∅ : gmap K Z).
Proof. split_and!; intros *; rewrite ?lookup_empty, ?map_size_empty; [done..|lia]. Qed.

Lemma numbering_insert {K} `{Countable K} (m : gmap K Z) k :
  numbering m → m !! k = None → numbering (<[k := Z.of_nat (size m)]> m).
Proof.
  intros (Hr & Hi & Hs) Hk. unfold numbering. rewrite map_size_insert_None by done.
  assert (∀ k' a, <[k := Z.of_nat (size m)]> m !! k' = Some a →
    k' = k ∧ a = Z.of_nat (size m) ∨ m !! k' = Some a ∧ 0 ≤ a < Z.of_nat (size m)) as Hl.
  { intros k' a. destruct (decide (k' = k)) as [->|]; [rewrite lookup_insert_eq; left; by simplify_eq|].
    rewrite lookup_insert_ne by done. intros Ha. right. eauto. }
  split_and!.
  - intros k' a [[_ ->]|[_ ?]]%Hl; lia.
  - intros k1 k2 a [[-> ->]|[? ?]]%Hl [[-> ?]|[? ?]]%Hl; [done|lia|lia|eauto].
  - intros a Ha. destruct (decide (a = Z.of_nat (size m))) as [->|]; [exists k; apply lookup_insert_eq|].
    destruct (Hs a) as [k' Hk']; [lia|]. exists k'. rewrite lookup_insert_ne; [done|]. intros ->. congruence.
Qed.

Definition colf (color : list Z) (i : Z) : Z := default 0 (zget color i).

Lemma colf_zget color i : 0 ≤ i < len color → zget color i = Some (colf color i).
Proof. intros [x Hx]%zget_in_range. unfold colf. by rewrite Hx. Qed.

Lemma index_colf color i : 0 ≤ i < len color → index color i = Ret (colf color i).
Proof. intros H. by apply index_Ret, colf_zget. Qed.

(** Functions onto an interval of the same size are injective. *)
Lemma onto_injective (f : Z → Z) n : (∀ a, 0 ≤ a < n → ∃ b, 0 ≤ b < n ∧ f b = a) →
  ∀ b b', 0 ≤ b < n → 0 ≤ b' < n → f b = f b' → b = b'.
Proof.
  intros Hon. assert (seqZ 0 n ⊆+ map f (seqZ 0 n)) as Hsub.
  { apply NoDup_submseteq; [apply NoDup_seqZ|]. intros a Ha%elem_of_seqZ. destruct (Hon a) as (b & Hb & <-); [lia|].
    apply list_elem_of_fmap. exists b. split; [done|]. apply elem_of_seqZ. lia. }
  apply submseteq_length_Permutation in Hsub; [|by rewrite length_map].
  assert (NoDup (map f (seqZ 0 n))) as Hnd by (rewrite <-Hsub; apply NoDup_seqZ).
  intros b b' Hb Hb' E. apply (NoDup_zget_inj _ b b' (f b) Hnd); rewrite zget_map.
  - unfold zget. replace (0 <=? b) with true by lia. rewrite lookup_seqZ_lt by lia. cbn. do 2 f_equal. lia.
  - unfold zget. replace (0 <=? b') with true by lia. rewrite lookup_seqZ_lt by lia. cbn. rewrite E. do 2 f_equal. lia.
Qed.

(** A colouring of the [n] states by all of [0 .. k-1]. *)
Record coloring (n : Z) (color : list Z) (k : Z) : Prop := {
  co_len : len color = n;
  co_range : Forall (λ c, 0 ≤ c < k) color;
  co_used : ∀ c, 0 ≤ c < k → ∃ i, 0 ≤ i < n ∧ colf color i = c }.

Lemma colf_range n color k i : coloring n color k → 0 ≤ i < n → 0 ≤ colf color i < k.
Proof.
  intros [Hl Hr _] Hi. rewrite <-Hl in Hi. apply colf_zget in Hi.
  by apply (Forall_zget _ _ _ _ Hr) in Hi.
Qed.

Lemma coloring_count n color k : coloring n color k → 0 ≤ k → k ≤ n.
Proof.
  intros [Hl _ Hu] Hk. rewrite <-Hl.
  assert (NoDup (seqZ 0 k)) as Hnd by apply NoDup_seqZ.
  assert (seqZ 0 k ⊆+ color) as Hs%submseteq_length.
  { apply NoDup_submseteq; [done|]. intros c Hc%elem_of_seqZ. destruct (Hu c) as (i & Hi & <-); [lia|].
    rewrite <-Hl in Hi. apply colf_zget in Hi. by apply zget_elem in Hi. }
  rewrite length_seqZ in Hs. unfold len. lia.
Qed.

(** Classes of [color'] lie in classes of [color]. *)
Definition refines (n : Z) (col' col : Z → Z) : Prop :=
  ∀ i j, 0 ≤ i < n → 0 ≤ j < n → col' i = col' j → col i = col j.

(** The class of [color] around a class of [color']. *)
Lemma refines_map n color color' k' : coloring n color' k' → refines n (colf color') (colf color) →
  ∃ f : Z → Z, ∀ i, 0 ≤ i < n → f (colf color' i) = colf color i.
Proof.
  intros Hc Hr. exists (λ a, match list_find (λ i, colf color' i = a) (seqZ 0 n) with Some (_, i) => colf color i | None => 0 end).
  intros i Hi. destruct (list_find _ _) as [[m j]|] eqn:E.
  - apply list_find_Some in E as (Hj%list_elem_of_lookup_2%elem_of_seqZ & E & _). apply Hr; [lia..|done].
  - apply list_find_None in E. rewrite list.Forall_forall in E. destruct (E i); [apply elem_of_seqZ; lia|done].
Qed.

(** A refinement has at least as many classes, and is the same partition when it
    has no more. *)
Lemma refines_count n color k color' k' : coloring n color k → coloring n color' k' → 0 ≤ k' →
  refines n (colf color') (colf color) → k ≤ k'.
Proof.
  intros Hc Hc' Hk' Hr. destruct (refines_map _ _ _ _ Hc' Hr) as [f Hf].
  assert (seqZ 0 k ⊆+ map f (seqZ 0 k')) as Hs%submseteq_length.
  { apply NoDup_submseteq; [apply NoDup_seqZ|]. intros c Hin%elem_of_seqZ. destruct (co_used _ _ _ Hc c) as (i & Hi & <-); [lia|].
    rewrite <-(Hf i Hi). apply list_elem_of_fmap_2, elem_of_seqZ. pose proof (colf_range _ _ _ i Hc' Hi). lia. }
  rewrite length_map, !length_seqZ in Hs. lia.
Qed.

Lemma refines_same n color color' k : coloring n color k → coloring n color' k →
  refines n (colf color') (colf color) → refines n (colf color) (colf color').
Proof.
  intros Hc Hc' Hr. destruct (refines_map _ _ _ _ Hc' Hr) as [f Hf]. intros i j Hi Hj E.
  apply (onto_injective f k); [|by eapply colf_range..|by rewrite !Hf].
  intros a Ha. destruct (co_used _ _ _ Hc a Ha) as (q & Hq & <-). exists (colf color' q). split; [by eapply colf_range|by apply Hf].
Qed.
