(* ===== verification/LexMinimize.v ===== *)
(** * Minimisation of the lexer tables

    grammargen/dfa_minimize.go: [minimizeLexStates] merges the lexer states that
    no input can tell apart, by partition refinement on byte-string signatures.
    The environment switch [lexMinimizeDisabledEnv] is an argument.  Go maps are
    [gmap]s; the source iterates over none of them.  The refinement loop carries
    fuel, one round per state and one to stop, proved sufficient in
    LexMinimizeCorrect.v. *)

From Stdlib Require Import ZArith Lia ZifyBool.
From stdpp Require Import base tactics list numbers option gmap.
From S2P Require Import Prelude LexTable.
Local Open Scope Z_scope.

(** ** Signatures *)

Definition appendColor (buf : list Z) (c : Z) : list Z :=
  buf ++ [u8 (Z.shiftr c 24); u8 (Z.shiftr c 16); u8 (Z.shiftr c 8); u8 c].

Definition appendRune (buf : list Z) (r : Z) : list Z := appendColor buf (i32 r).

(** A run of adjacent transitions to one colour. *)
Record Run := mkRun { rLo : Z; rHi : Z; rColor : Z; rSkip : bool }.

#[export] Instance Run_eq_dec : EqDecision Run.
Proof. solve_decision. Defined.

(** The two nested loops over the transitions, with [run] the run being
    extended; [lexStateSignature] and [coalesceTransitions] share them. *)
Fixpoint runs_from (color : list Z) (run : Run) (trs : list LexTransition) : go (list Run) :=
  match trs with
  | [] => Ret [run]
  | tr :: trs =>
    c ← index color (trNextState tr);
    if (trLo tr =? i32 (rHi run + 1)) && (c =? rColor run) && eqb (trSkip tr) (rSkip run)
    then runs_from color (mkRun (rLo run) (trHi tr) (rColor run) (rSkip run)) trs
    else
      rest ← runs_from color (mkRun (trLo tr) (trHi tr) c (trSkip tr)) trs;
      Ret (run :: rest)
  end.

Definition transition_runs (color : list Z) (trs : list LexTransition) : go (list Run) :=
  match trs with
  | [] => Ret []
  | tr :: trs =>
    c ← index color (trNextState tr);
    runs_from color (mkRun (trLo tr) (trHi tr) c (trSkip tr)) trs
  end.

(** [1] and the colour of a present target, [0] for an absent one. *)
Definition append_target (color : list Z) (buf : list Z) (target : Z) : go (list Z) :=
  if 0 <=? target then c ← index color target; Ret (appendColor (buf ++ [1]) c)
  else Ret (buf ++ [0]).

Definition append_run (buf : list Z) (r : Run) : list Z :=
  appendColor (appendRune (appendRune buf (rLo r)) (rHi r)) (rColor r)
    ++ [if rSkip r then 1 else 0].

Definition lexStateSignature (buf : list Z) (s : LexState) (color : list Z) : go (list Z) :=
  buf ← append_target color buf (lsDefault s);
  buf ← append_target color buf (lsEOF s);
  rs ← transition_runs color (lsTransitions s);
  Ret (foldl append_run buf rs).

Definition coalesceTransitions (trs : list LexTransition) (color : list Z) : go (list LexTransition) :=
  rs ← transition_runs color trs;
  Ret (map (λ r, mkLexTransition (rLo r) (rHi r) (rColor r) (rSkip r)) rs).

(** ** Partition refinement *)

(** [colorKey]: what a state shows before any input. *)
Definition colorKey : Type := Z * Z * bool * bool * bool.

Definition color_key (s : LexState) : colorKey :=
  (lsAcceptToken s, lsAcceptPriority s, lsSkip s, 0 <=? lsDefault s, 0 <=? lsEOF s).

(** The initial partition: the colours and how many there are. *)
Fixpoint initial_colors (states : list LexState) (initMap : gmap colorKey Z) (nextColor : Z)
  : list Z * Z :=
  match states with
  | [] => ([], nextColor)
  | s :: states =>
    match initMap !! color_key s with
    | Some c =>
      let '(cs, n) := initial_colors states initMap nextColor in (c :: cs, n)
    | None =>
      let '(cs, n) := initial_colors states (<[color_key s := nextColor]> initMap) (nextColor + 1) in
      (nextColor :: cs, n)
    end
  end.

(** [groups[c] = append(groups[c], i)] for every state. *)
Fixpoint group_states (color : list Z) (i : Z) (groups : list (list Z)) : go (list (list Z)) :=
  match color with
  | [] => Ret groups
  | c :: color =>
    g ← index groups c;
    groups ← store groups c (g ++ [i]);
    group_states color (i + 1) groups
  end.

(** The signatures of a group's members. *)
Fixpoint member_signatures (states : list LexState) (color members : list Z) : go (list (list Z)) :=
  match members with
  | [] => Ret []
  | idx :: members =>
    s ← index states idx;
    sig ← lexStateSignature [] s color;
    sigs ← member_signatures states color members;
    Ret (sig :: sigs)
  end.

Fixpoint number_signatures (sigs : list (list Z)) (sigMap : gmap (list Z) Z) : gmap (list Z) Z :=
  match sigs with
  | [] => sigMap
  | sig :: sigs =>
    number_signatures sigs
      (match sigMap !! sig with Some _ => sigMap | None => <[sig := Z.of_nat (size sigMap)]> sigMap end)
  end.

(** [newColor[idx] = base + sigMap[sig]]; a missing key would read 0. *)
Fixpoint recolor (sigMap : gmap (list Z) Z) (base : Z) (members : list Z) (sigs : list (list Z))
    (newColor : list Z) : go (list Z) :=
  match members, sigs with
  | idx :: members, sig :: sigs =>
    newColor ← store newColor idx (base + default 0 (sigMap !! sig));
    recolor sigMap base members sigs newColor
  | _, _ => Ret newColor
  end.

(** One group of a round; the state is [newColor], [assignedColor], [changed]. *)
Definition refine_group (states : list LexState) (color members newColor : list Z)
    (assigned : Z) (changed : bool) : go (list Z * Z * bool) :=
  match members with
  | [] => Ret (newColor, assigned, changed)
  | [idx] => newColor ← store newColor idx assigned; Ret (newColor, assigned + 1, changed)
  | _ =>
    sigs ← member_signatures states color members;
    let sigMap := number_signatures sigs ∅ in
    let changed := changed || (1 <? Z.of_nat (size sigMap)) in
    newColor ← recolor sigMap assigned members sigs newColor;
    Ret (newColor, assigned + Z.of_nat (size sigMap), changed)
  end.

Fixpoint refine_groups (states : list LexState) (color : list Z) (groups : list (list Z))
    (newColor : list Z) (assigned : Z) (changed : bool) : go (list Z * Z * bool) :=
  match groups with
  | [] => Ret (newColor, assigned, changed)
  | members :: groups =>
    '(newColor, assigned, changed) ← refine_group states color members newColor assigned changed;
    refine_groups states color groups newColor assigned changed
  end.

(** The rounds; [color] and [newColor] swap roles after each. *)
Fixpoint refine_loop (states : list LexState) (fuel : nat) (color newColor : list Z) (nextColor : Z)
  : go (list Z) :=
  match fuel with
  | O => NoFuel
  | S fuel =>
    groups ← group_states color 0 (make nextColor []);
    '(newColor, assigned, changed) ← refine_groups states color groups newColor 0 false;
    if (changed : bool) then refine_loop states fuel newColor color assigned
    else Ret newColor
  end.

Definition computeLexStateEquivalenceColors (states : list LexState) : go (list Z) :=
  let '(color, nextColor) := initial_colors states ∅ 0 in
  refine_loop states (S (length states)) color (make (len states) 0) nextColor.

(** ** The merged table *)

Definition num_colors (color : list Z) : Z :=
  foldl (λ n c, if n <? c + 1 then c + 1 else n) 0 color.

(** The smallest index of every class. *)
Fixpoint representatives (color : list Z) (i : Z) (rep : list Z) : go (list Z) :=
  match color with
  | [] => Ret rep
  | c :: color =>
    r ← index rep c;
    rep ← (if r =? -1 then store rep c i else Ret rep);
    representatives color (i + 1) rep
  end.

Definition remap_target (color : list Z) (target : Z) : go Z :=
  if 0 <=? target then index color target else Ret (-1).

Definition merged_state (states : list LexState) (color : list Z) (r : Z) : go LexState :=
  s ← index states r;
  def ← remap_target color (lsDefault s);
  eof ← remap_target color (lsEOF s);
  trs ← coalesceTransitions (lsTransitions s) color;
  Ret (mkLexState (lsAcceptToken s) (lsAcceptPriority s) (lsSkip s) def eof trs).

Fixpoint merged_states (states : list LexState) (color rep : list Z) : go (list LexState) :=
  match rep with
  | [] => Ret []
  | r :: rep =>
    s ← merged_state states color r;
    rest ← merged_states states color rep;
    Ret (s :: rest)
  end.

Fixpoint remap_offsets (color : list Z) (n : Z) (offsets : list Z) : go (list Z) :=
  match offsets with
  | [] => Ret []
  | off :: offsets =>
    c ← (if (0 <=? off) && (off <? n) then index color off else Ret off);
    rest ← remap_offsets color n offsets;
    Ret (c :: rest)
  end.

Definition minimizeLexStates (disabled : bool) (states : list LexState) (modeOffsets : list Z)
  : go (list LexState * list Z) :=
  if (len states =? 0) || disabled then Ret (states, modeOffsets) else
  color ← computeLexStateEquivalenceColors states;
  let numColors := num_colors color in
  if numColors =? len states then Ret (states, modeOffsets) else
  rep ← representatives color 0 (make numColors (-1));
  out ← merged_states states color rep;
  newOffsets ← remap_offsets color (len states) modeOffsets;
  Ret (out, newOffsets).

(** Two modes with the same keyword automaton, one of them with a split range:
    the copies merge, the range is joined. *)
Example minimize_shares_states :
  minimizeLexStates false
    [mkLexState 0 0 false (-1) (-1) [mkLexTransition 97 122 1 false];
     mkLexState 5 0 false (-1) (-1) [mkLexTransition 97 122 1 false];
     mkLexState 0 0 false (-1) (-1) [mkLexTransition 97 109 3 false; mkLexTransition 110 122 3 false];
     mkLexState 5 0 false (-1) (-1) [mkLexTransition 97 122 3 false]] [0; 2; 7]
  = Ret ([mkLexState 0 0 false (-1) (-1) [mkLexTransition 97 122 1 false];
          mkLexState 5 0 false (-1) (-1) [mkLexTransition 97 122 1 false]], [0; 0; 7]).
Proof. vm_compute. reflexivity. Qed.
