(* ===== verification/LexMinimizeCorrect.v ===== *)
(** * Minimised tables lex alike

    Facts about LexMinimize.v: the refinement loop stops within its fuel at a
    partition whose classes agree on everything a walk can observe, and the
    lexer of Lexer.v returns the same tokens from the merged table as from the
    table it was built from. *)

From Stdlib Require Import ZArith Lia ZifyBool.
From stdpp Require Import base tactics list numbers option gmap.
From S2P Require Import Prelude Utf8 Points Tokens LexTable Lexer LexerScan LexerNext Partition LexMinimize.
Local Open Scope Z_scope.

(** ** Signatures without the store *)

(** The loops of [transition_runs] and [lexStateSignature] with the colouring as
    a function. *)
Section signature.
Context (col : Z → Z).

Fixpoint col_runs_from (run : Run) (trs : list LexTransition) : list Run :=
  match trs with
  | [] => [run]
  | tr :: trs =>
    if (trLo tr =? i32 (rHi run + 1)) && (col (trNextState tr) =? rColor run) && eqb (trSkip tr) (rSkip run)
    then col_runs_from (mkRun (rLo run) (trHi tr) (rColor run) (rSkip run)) trs
    else run :: col_runs_from (mkRun (trLo tr) (trHi tr) (col (trNextState tr)) (trSkip tr)) trs
  end.

Definition col_runs (trs : list LexTransition) : list Run :=
  match trs with
  | [] => []
  | tr :: trs => col_runs_from (mkRun (trLo tr) (trHi tr) (col (trNextState tr)) (trSkip tr)) trs
  end.

Definition target_bytes (target : Z) : list Z :=
  if 0 <=? target then 1 :: appendColor [] (col target) else [0].
Definition run_bytes (r : Run) : list Z := append_run [] r.
Definition col_signature (s : LexState) : list Z :=
  target_bytes (lsDefault s) ++ target_bytes (lsEOF s) ++ flat_map run_bytes (col_runs (lsTransitions s)).

(** ** What a run list answers *)

Definition run_lookup (rs : list Run) (r : Z) : option (Z * bool) :=
  match list_find (λ x, rLo x ≤ r ∧ r ≤ rHi x) rs with
  | Some (_, x) => Some (rColor x, rSkip x)
  | None => None
  end.

Definition tr_lookup (trs : list LexTransition) (r : Z) : option (Z * bool) :=
  match list_find (λ tr, trLo tr ≤ r ∧ r ≤ trHi tr) trs with
  | Some (_, tr) => Some (trNextState tr, trSkip tr)
  | None => None
  end.

Lemma run_lookup_cons x rs r :
  run_lookup (x :: rs) r =
  if decide (rLo x ≤ r ∧ r ≤ rHi x) then Some (rColor x, rSkip x) else run_lookup rs r.
Proof.
  unfold run_lookup. cbn. case_decide; [done|]. by destruct (list_find _ rs) as [[? ?]|].
Qed.

Lemma tr_lookup_cons tr trs r :
  tr_lookup (tr :: trs) r =
  if decide (trLo tr ≤ r ∧ r ≤ trHi tr) then Some (trNextState tr, trSkip tr) else tr_lookup trs r.
Proof.
  unfold tr_lookup. cbn. case_decide; [done|]. by destruct (list_find _ trs) as [[? ?]|].
Qed.

Definition tr_range (tr : LexTransition) : Prop := - 2 ^ 31 ≤ trLo tr ≤ trHi tr ∧ trHi tr < 2 ^ 31 - 1.

Definition recolored (x : option (Z * bool)) : option (Z * bool) := (λ '(q, sk), (col q, sk)) <$> x.

(** Joining adjacent ranges changes no answer. *)
Lemma col_runs_from_lookup trs run r :
  - 2 ^ 31 ≤ rLo run ≤ rHi run ∧ rHi run < 2 ^ 31 - 1 → Forall tr_range trs →
  run_lookup (col_runs_from run trs) r =
  if decide (rLo run ≤ r ∧ r ≤ rHi run) then Some (rColor run, rSkip run)
  else recolored (tr_lookup trs r).
Proof.
  intros Hr H. revert run Hr. induction H as [|tr trs [Ht1 Ht2] _ IH]; intros run Hr; cbn [col_runs_from].
  { by rewrite run_lookup_cons. }
  rewrite tr_lookup_cons. destruct (_ && _ && _) eqn:Hjoin.
  - rewrite i32_id in Hjoin by lia. apply andb_prop in Hjoin as [Hjoin Hskip%eqb_prop].
    assert (trLo tr = rHi run + 1 ∧ col (trNextState tr) = rColor run) as [Hlo Hcol] by lia.
    rewrite IH by (cbn; lia). cbn. rewrite Hskip.
    destruct (decide (rLo run ≤ r ∧ r ≤ trHi tr)), (decide (rLo run ≤ r ∧ r ≤ rHi run)),
      (decide (trLo tr ≤ r ∧ r ≤ trHi tr)); try lia; try done.
    cbn. by rewrite Hcol.
  - rewrite run_lookup_cons. case_decide; [done|]. rewrite IH by (cbn; lia). cbn. by case_decide.
Qed.

Lemma col_runs_lookup trs r : Forall tr_range trs →
  run_lookup (col_runs trs) r = recolored (tr_lookup trs r).
Proof.
  intros H. destruct H as [|tr trs [? ?] H]; [done|]. cbn [col_runs].
  rewrite col_runs_from_lookup by (done || (cbn; lia)). rewrite tr_lookup_cons. cbn. by case_decide.
Qed.

Lemma col_runs_from_range (P : Run → Prop) trs run :
  (∀ lo hi c sk, P (mkRun lo hi c sk) ↔ - 2 ^ 31 ≤ lo < 2 ^ 31 ∧ - 2 ^ 31 ≤ hi < 2 ^ 31 ∧ - 2 ^ 31 ≤ c < 2 ^ 31) →
  (∀ q, - 2 ^ 31 ≤ col q < 2 ^ 31) → P run → Forall tr_range trs → Forall P (col_runs_from run trs).
Proof.
  intros HP Hc Hrun H. revert run Hrun. induction H as [|tr trs [? ?] _ IH]; intros [lo hi c sk] Hrun; cbn;
    [by repeat constructor|]. apply HP in Hrun as Hrun'. case_match; [|constructor; [done|]];
    apply IH, HP; pose proof (Hc (trNextState tr)); split_and!; lia.
Qed.
End signature.

(** ** The encoding is injective *)

Lemma append_app a b c : appendColor (a ++ b) c = a ++ appendColor b c.
Proof. unfold appendColor. by rewrite <-app_assoc. Qed.

Lemma append_run_app buf r : append_run buf r = buf ++ run_bytes r.
Proof.
  unfold run_bytes, append_run, appendRune. rewrite <-(app_nil_r buf) at 1. by rewrite !append_app, <-app_assoc.
Qed.

Lemma foldl_append_run buf rs : foldl append_run buf rs = buf ++ flat_map run_bytes rs.
Proof.
  revert buf. induction rs as [|r rs IH]; intros buf; cbn; [by rewrite app_nil_r|].
  by rewrite IH, append_run_app, <-app_assoc.
Qed.

Lemma color_bytes_inj c c' : - 2 ^ 31 ≤ c < 2 ^ 31 → - 2 ^ 31 ≤ c' < 2 ^ 31 →
  appendColor [] c = appendColor [] c' → c = c'.
Proof.
  unfold appendColor, u8. cbn [app]. rewrite !Z.shiftr_div_pow2 by lia.
  intros H1 H2 [= E1 E2 E3 E4]. change (2 ^ 24) with 16777216 in *. change (2 ^ 16) with 65536 in *.
  change (2 ^ 8) with 256 in *. Z.to_euclidean_division_equations. lia.
Qed.

Definition in_i32 (c : Z) : Prop := - 2 ^ 31 ≤ c < 2 ^ 31.
Definition run_i32 (r : Run) : Prop := in_i32 (rLo r) ∧ in_i32 (rHi r) ∧ in_i32 (rColor r).

Lemma app_inj_len {A} (a b c d : list A) : length a = length c → a ++ b = c ++ d → a = c ∧ b = d.
Proof. intros. by apply app_inj_1. Qed.

Lemma run_bytes_inj r r' : run_i32 r → run_i32 r' → run_bytes r = run_bytes r' → r = r'.
Proof.
  destruct r as [lo hi c sk], r' as [lo' hi' c' sk']. intros (L1 & H1 & C1) (L2 & H2 & C2).
  unfold run_bytes, append_run, appendRune. cbn [rLo rHi rColor rSkip] in *. rewrite !i32_id by done.
  unfold appendColor at 1 4. rewrite <-!app_assoc. intros E.
  apply app_inj_len in E as [E E']; [|done].
  unfold appendColor at 1 3 in E. apply app_inj_len in E as [E1 E2]; [|done].
  apply color_bytes_inj in E1; [|done..].
  injection E' as ? ? ? ? Esk.
  assert (c = c') as -> by (apply color_bytes_inj; [done..|]; unfold appendColor; cbn; congruence).
  assert (hi = hi') as -> by (apply color_bytes_inj; done).
  subst. f_equal. by destruct sk, sk'.
Qed.

Lemma runs_bytes_inj rs rs' : Forall run_i32 rs → Forall run_i32 rs' →
  flat_map run_bytes rs = flat_map run_bytes rs' → rs = rs'.
Proof.
  intros H. revert rs'. induction H as [|r rs Hr _ IH]; intros ? [|r' rs' Hr' Hrs']; try done.
  change (run_bytes r ++ flat_map run_bytes rs = run_bytes r' ++ flat_map run_bytes rs' → r :: rs = r' :: rs').
  intros [E1 E2]%app_inj_len; [|done]. apply run_bytes_inj in E1 as ->; [|done..]. by rewrite (IH rs').
Qed.

Section signature_inj.
Context (col : Z → Z) (Hcol : ∀ q, in_i32 (col q)).

Lemma col_runs_i32 trs : Forall tr_range trs → Forall run_i32 (col_runs col trs).
Proof using Hcol.
  intros H. destruct H as [|tr trs [? ?] H]; [constructor|].
  apply (col_runs_from_range col run_i32); [done|done| |done].
  pose proof (Hcol (trNextState tr)). unfold run_i32, in_i32 in *. cbn. lia.
Qed.

Lemma target_bytes_inj t t' rest rest' : (0 <=? t) = (0 <=? t') →
  target_bytes col t ++ rest = target_bytes col t' ++ rest' →
  (0 ≤ t → col t = col t') ∧ rest = rest'.
Proof using Hcol.
  unfold target_bytes. intros <-. destruct (Z.leb_spec 0 t).
  - intros [E1 E2]%app_inj_len; [|done]. apply (f_equal tail) in E1. cbn [tail] in E1. split; [|done].
    intros _. apply color_bytes_inj; [apply Hcol..|done].
  - intros [= ->]. split; [lia|done].
Qed.

(** States of one signature have targets of the same colours. *)
Lemma col_signature_inj s s' :
  Forall tr_range (lsTransitions s) → Forall tr_range (lsTransitions s') →
  (0 <=? lsDefault s) = (0 <=? lsDefault s') → (0 <=? lsEOF s) = (0 <=? lsEOF s') →
  col_signature col s = col_signature col s' →
  (0 ≤ lsDefault s → col (lsDefault s) = col (lsDefault s')) ∧
  (0 ≤ lsEOF s → col (lsEOF s) = col (lsEOF s')) ∧
  ∀ r, recolored col (tr_lookup (lsTransitions s) r) = recolored col (tr_lookup (lsTransitions s') r).
Proof using Hcol.
  intros Ht Ht' Hd He. unfold col_signature.
  intros [E1 E]%target_bytes_inj; [|done]. apply target_bytes_inj in E as [E2 E]; [|done].
  split_and!; [done..|]. apply runs_bytes_inj in E; [|by apply col_runs_i32..].
  intros r. by rewrite <-!col_runs_lookup, E.
Qed.
End signature_inj.

(** ** Numbering signatures *)

Lemma number_signatures_spec sigs m :
  numbering m →
  numbering (number_signatures sigs m) ∧ m ⊆ number_signatures sigs m ∧
  (∀ k, is_Some (number_signatures sigs m !! k) ↔ is_Some (m !! k) ∨ k ∈ sigs).
Proof.
  revert m. induction sigs as [|sig sigs IH]; intros m Hm; cbn [number_signatures].
  { split_and!; [done..|]. intros k. split; [by left|]. by intros [?|?%not_elem_of_nil]. }
  destruct (m !! sig) as [a|] eqn:E.
  - destruct (IH m Hm) as (H1 & H2 & H3). split_and!; [done..|]. intros k. rewrite H3, elem_of_cons.
    split; [tauto|]. intros [?|[->|?]]; eauto.
  - destruct (IH _ (numbering_insert m sig Hm E)) as (H1 & H2 & H3). split_and!; [done| |].
    + etrans; [|exact H2]. by apply insert_subseteq.
    + intros k. rewrite H3, elem_of_cons. destruct (decide (k = sig)) as [->|].
      * rewrite lookup_insert_eq. naive_solver.
      * rewrite lookup_insert_ne by done. naive_solver.
Qed.

(** ** Colourings *)

Lemma zget_to_nat {A} (l : list A) i : 0 ≤ i → zget l i = l !! Z.to_nat i.
Proof. intros. by rewrite <-(zget_nat l), Z2Nat.id by done. Qed.

(** The states a table of [n] states may have: every target exists, ranges are
    not empty and [hi + 1] does not wrap. *)
Definition lex_state_wf (n : Z) (s : LexState) : Prop :=
  lsDefault s < n ∧ lsEOF s < n ∧
  Forall (λ tr, 0 ≤ trNextState tr < n ∧ tr_range tr) (lsTransitions s).

Section refine.
Context (sts : list LexState) (Hwf : Forall (lex_state_wf (len sts)) sts) (Hsize : len sts < 2 ^ 31).

Lemma state_at i : 0 ≤ i < len sts → ∃ s, zget sts i = Some s ∧ lex_state_wf (len sts) s.
Proof using Hwf.
  intros [s Hs]%zget_in_range. exists s. split; [done|]. by eapply Forall_zget.
Qed.

(** The signature of the state of an index. *)
Definition sig_of (color : list Z) (i : Z) : list Z :=
  match zget sts i with Some s => col_signature (colf color) s | None => [] end.

Section with_color.
Context (color : list Z) (Hlen : len color = len sts).

Lemma runs_from_eq trs run : Forall (λ tr, 0 ≤ trNextState tr < len sts) trs →
  runs_from color run trs = Ret (col_runs_from (colf color) run trs).
Proof using Hlen.
  intros H. revert run. induction H as [|tr trs Ht _ IH]; intros run; cbn; [done|].
  rewrite index_colf by lia. cbn. case_match; [by rewrite IH|]. by rewrite IH.
Qed.

Lemma transition_runs_eq trs : Forall (λ tr, 0 ≤ trNextState tr < len sts) trs →
  transition_runs color trs = Ret (col_runs (colf color) trs).
Proof using Hlen.
  intros H. destruct H as [|tr trs Ht H]; [done|]. cbn. rewrite index_colf by lia. cbn. by apply runs_from_eq.
Qed.

Lemma append_target_eq buf t : t < len sts → append_target color buf t = Ret (buf ++ target_bytes (colf color) t).
Proof using Hlen.
  intros Ht. unfold append_target, target_bytes. destruct (Z.leb_spec 0 t); [|done].
  rewrite index_colf by lia. cbn. unfold appendColor. by rewrite <-app_assoc.
Qed.

Lemma lexStateSignature_eq s : lex_state_wf (len sts) s →
  lexStateSignature [] s color = Ret (col_signature (colf color) s).
Proof using Hlen.
  intros (Hd & He & Ht). unfold lexStateSignature.
  rewrite append_target_eq by done. cbn [mbind go_bind]. rewrite append_target_eq by done. cbn [mbind go_bind].
  rewrite transition_runs_eq by (eapply list.Forall_impl; [exact Ht|]; by intros ? [? _]).
  cbn [mbind go_bind]. by rewrite foldl_append_run, <-app_assoc.
Qed.

Lemma member_signatures_eq ms : Forall (λ i, 0 ≤ i < len sts) ms →
  member_signatures sts color ms = Ret (map (sig_of color) ms).
Proof using Hlen Hwf.
  induction 1 as [|i ms Hi _ IH]; [done|]. destruct (state_at i Hi) as (s & Hs & Hw).
  cbn [member_signatures map]. rewrite (proj2 (index_Ret _ _ _) Hs). cbn [mbind go_bind].
  rewrite lexStateSignature_eq by done. cbn [mbind go_bind]. rewrite IH. cbn [mbind go_bind].
  unfold sig_of at 2. by rewrite Hs.
Qed.
End with_color.

(** ** Groups *)

Lemma group_states_spec cs i groups : Forall (λ c, 0 ≤ c < len groups) cs →
  ∃ gs, group_states cs i groups = Ret gs ∧ len gs = len groups ∧
    ∀ c g, zget groups c = Some g →
      ∃ g', zget gs c = Some (g ++ g') ∧ ∀ j, j ∈ g' ↔ zget cs (j - i) = Some c.
Proof.
  revert i groups. induction cs as [|c0 cs IH]; intros i groups Hcs; cbn [group_states].
  { exists groups. split_and!; [done..|]. intros c g Hg. exists []. rewrite app_nil_r. split; [done|].
    intros j. rewrite zget_nil. split; [by intros ?%not_elem_of_nil|done]. }
  apply list.Forall_cons_1 in Hcs as [Hc0 Hcs]. destruct (index_in_range groups c0 Hc0) as (g0 & Hi0 & Hg0).
  rewrite Hi0. cbn [mbind go_bind]. rewrite store_ok by done. cbn [mbind go_bind].
  destruct (IH (i + 1) (<[Z.to_nat c0 := g0 ++ [i]]> groups)) as (gs & Hgs & Hl & Hm); [by rewrite len_insert|].
  exists gs. split_and!; [done|by rewrite Hl, len_insert|]. intros c g Hg.
  assert (∀ j, zget (c0 :: cs) (j - i) = Some c ↔ j = i ∧ c = c0 ∨ zget cs (j - (i + 1)) = Some c) as Hsplit.
  { intros j. destruct (decide (j = i)) as [->|Hne].
    - rewrite Z.sub_diag, zget_cons_0. replace (i - (i + 1)) with (-1) by lia.
      assert (zget cs (-1) = None) as -> by (apply zget_None; lia). naive_solver.
    - rewrite zget_cons_ne by lia. replace (j - i - 1) with (j - (i + 1)) by lia. naive_solver. }
  destruct (decide (c = c0)) as [->|Hc].
  - destruct (Hm c0 (g0 ++ [i])) as (g' & Hg' & Hj); [by apply zget_insert_eq|].
    rewrite Hg0 in Hg. injection Hg as <-. exists (i :: g'). rewrite <-app_assoc in Hg'. split; [done|].
    intros j. rewrite elem_of_cons, Hj, Hsplit. naive_solver.
  - destruct (Hm c g) as (g' & Hg' & Hj); [by rewrite zget_insert_ne by lia|].
    exists g'. split; [done|]. intros j. rewrite Hj, Hsplit. naive_solver.
Qed.

(** ** One group *)

Lemma colf_insert nb i j x : 0 ≤ i < len nb → colf (<[Z.to_nat i := x]> nb) j = if decide (j = i) then x else colf nb j.
Proof.
  intros Hi. unfold colf. case_decide as Hj; [subst; by rewrite zget_insert_eq|].
  by rewrite zget_insert_ne by lia.
Qed.

Lemma recolor_spec sg m base ms nb : Forall (λ i, 0 ≤ i < len nb) ms →
  ∃ nb', recolor m base ms (map sg ms) nb = Ret nb' ∧ len nb' = len nb ∧
    ∀ i, colf nb' i = if decide (i ∈ ms) then base + default 0 (m !! sg i) else colf nb i.
Proof.
  revert nb. induction ms as [|i ms IH]; intros nb Hms; cbn [map recolor].
  { exists nb. split_and!; [done..|]. intros i. by rewrite decide_False by apply not_elem_of_nil. }
  apply list.Forall_cons_1 in Hms as [Hi Hms]. rewrite store_ok by done. cbn [mbind go_bind].
  destruct (IH (<[Z.to_nat i := base + default 0 (m !! sg i)]> nb)) as (nb' & Hr & Hl & Hc); [by rewrite len_insert|].
  exists nb'. rewrite Hl, len_insert. split_and!; [done..|]. intros j. rewrite Hc, colf_insert by done.
  destruct (decide (j ∈ ms)), (decide (j = i)), (decide (j ∈ i :: ms)) as [Hin|Hin];
    rewrite elem_of_cons in Hin; naive_solver.
Qed.

(** What a step of the round does to the colours from [A] on. *)
Record group_done (sg : Z → list Z) (ms nb nb' : list Z) (A A' : Z) : Prop := {
  gd_len : len nb' = len nb;
  gd_other : ∀ i, i ∉ ms → colf nb' i = colf nb i;
  gd_range : ∀ i, i ∈ ms → A ≤ colf nb' i < A';
  gd_iff : ∀ i j, i ∈ ms → j ∈ ms → colf nb' i = colf nb' j ↔ sg i = sg j;
  gd_used : ∀ a, A ≤ a < A' → ∃ i, i ∈ ms ∧ colf nb' i = a }.

Lemma recolor_done sg ms nb A : Forall (λ i, 0 ≤ i < len nb) ms →
  let m := number_signatures (map sg ms) ∅ in
  ∃ nb', recolor m A ms (map sg ms) nb = Ret nb' ∧
    group_done sg ms nb nb' A (A + Z.of_nat (size m)) ∧ (ms ≠ [] → 0 < Z.of_nat (size m)).
Proof.
  intros Hms m. destruct (number_signatures_spec (map sg ms) ∅ numbering_empty) as ((Hr & Hi & Hs) & _ & Hdom).
  fold m in Hr, Hi, Hs, Hdom. destruct (recolor_spec sg m A ms nb Hms) as (nb' & Hre & Hl & Hc).
  assert (∀ i, i ∈ ms → ∃ a, m !! sg i = Some a) as Hin.
  { intros i Hin. apply Hdom. right. by apply list_elem_of_fmap_2. }
  assert (∀ i a, i ∈ ms → m !! sg i = Some a → colf nb' i = A + a) as Hcol.
  { intros i a Him Ha. rewrite Hc, decide_True, Ha by done. done. }
  exists nb'. split_and!; [done| |].
  - split; [done| | | |].
    + intros i Hni. by rewrite Hc, decide_False.
    + intros i Him. destruct (Hin i Him) as [a Ha]. rewrite (Hcol i a) by done. apply Hr in Ha. lia.
    + intros i j Him Hjm. destruct (Hin i Him) as [a Ha], (Hin j Hjm) as [b Hb].
      rewrite (Hcol i a), (Hcol j b) by done. split; intros E; [|rewrite E in Ha; assert (a = b); [congruence|lia]].
      apply (Hi _ _ a); [done|]. rewrite Hb. f_equal. lia.
    + intros a Ha. destruct (Hs (a - A)) as [sig Hsig]; [lia|].
      assert (is_Some ((∅ : gmap (list Z) Z) !! sig) ∨ sig ∈ map sg ms) as [[? He]|Hsg] by (apply Hdom; by eexists).
      { by rewrite lookup_empty in He. }
      apply list_elem_of_fmap in Hsg as (i & -> & Him). exists i. split; [done|].
      rewrite (Hcol i (a - A)) by done. lia.
  - destruct ms as [|i ms]; [done|]. intros _. destruct (Hin i) as [a Ha]; [by left|]. apply Hr in Ha. lia.
Qed.

Lemma refine_group_done color ms nb A ch :
  len color = len sts → Forall (λ i, 0 ≤ i < len sts) ms → len nb = len sts →
  ∃ nb' A', refine_group sts color ms nb A ch = Ret (nb', A', ch || (A + 1 <? A')) ∧
    group_done (sig_of color) ms nb nb' A A' ∧ (ms ≠ [] → A < A') ∧ A ≤ A'.
Proof using Hwf.
  intros Hc Hms Hnb.
  assert (Forall (λ i, 0 ≤ i < len nb) ms) as Hms' by by rewrite Hnb.
  destruct (recolor_done (sig_of color) ms nb A Hms') as (nb' & Hre & Hgd & Hpos).
  set (m := number_signatures (map (sig_of color) ms) ∅) in *.
  destruct ms as [|i [|j ms]].
  - exists nb, A. cbn. replace (A + 1 <? A) with false by lia. rewrite orb_false_r. split_and!; [done| |done|lia].
    split; try done; [intros ? ?%not_elem_of_nil; done|intros ? ? ?%not_elem_of_nil; done|lia].
  - exists nb', (A + Z.of_nat (size m)). assert (size m = 1%nat) as Hm.
    { unfold m. cbn. rewrite lookup_empty. by rewrite map_size_insert_None by apply lookup_empty. }
    cbn [recolor map] in Hre. apply list.Forall_cons_1 in Hms' as [Hi _]. rewrite store_ok in Hre by done.
    cbn [mbind go_bind] in Hre. injection Hre as Hre. cbn [refine_group]. rewrite store_ok by done. cbn [mbind go_bind].
    rewrite Hm. replace (A + 1 <? A + Z.of_nat 1) with false by lia. rewrite orb_false_r.
    rewrite Hm in Hgd, Hpos. split_and!; [|done|lia|lia]. rewrite <-Hre. do 4 f_equal.
    unfold m. cbn. rewrite lookup_empty, lookup_insert_eq. rewrite map_size_empty. cbn. lia.
  - exists nb', (A + Z.of_nat (size m)). cbn [refine_group]. rewrite (member_signatures_eq color) by done.
    cbn [mbind go_bind]. fold m. rewrite Hre. cbn [mbind go_bind].
    assert (0 < Z.of_nat (size m)) by (by apply Hpos). split_and!; [|done|lia|lia]. do 3 f_equal. lia.
Qed.

(** ** One round *)

Record round_done (color : list Z) (c0 m : Z) (nb nb' : list Z) (A A' : Z) (ch ch' : bool) : Prop := {
  rd_len : len nb' = len nb;
  rd_mono : A ≤ A';
  rd_other : ∀ i, ¬ (0 ≤ i < len sts ∧ c0 ≤ colf color i < c0 + m) → colf nb' i = colf nb i;
  rd_range : ∀ i, 0 ≤ i < len sts → c0 ≤ colf color i < c0 + m → A ≤ colf nb' i < A';
  rd_iff : ∀ i j, 0 ≤ i < len sts → 0 ≤ j < len sts →
    c0 ≤ colf color i < c0 + m → c0 ≤ colf color j < c0 + m →
    colf nb' i = colf nb' j ↔ colf color i = colf color j ∧ sig_of color i = sig_of color j;
  rd_used : ∀ a, A ≤ a < A' → ∃ i, 0 ≤ i < len sts ∧ c0 ≤ colf color i < c0 + m ∧ colf nb' i = a;
  rd_count : (∀ c, c0 ≤ c < c0 + m → ∃ i, 0 ≤ i < len sts ∧ colf color i = c) →
    A + m ≤ A' ∧ (ch' = true → ch = true ∨ A + m < A');
  rd_stable : ch' = false → ch = false ∧ ∀ i j, 0 ≤ i < len sts → 0 ≤ j < len sts →
    c0 ≤ colf color i < c0 + m → colf color i = colf color j → sig_of color i = sig_of color j }.

Lemma round_done_cons color c0 m g nb nb1 nb' A A1 A' ch ch' :
  0 ≤ m → (∀ i, i ∈ g ↔ 0 ≤ i < len sts ∧ colf color i = c0) →
  group_done (sig_of color) g nb nb1 A A1 → (g ≠ [] → A < A1) → A ≤ A1 →
  round_done color (c0 + 1) m nb1 nb' A1 A' (ch || (A + 1 <? A1)) ch' →
  round_done color c0 (m + 1) nb nb' A A' ch ch'.
Proof.
  intros Hm Hg [G1 G2 G3 G4 G5] Hne HA [R1 R2 R3 R4 R5 R6 R7 R8].
  assert (∀ i, i ∈ g → colf nb' i = colf nb1 i) as Hkeep by (intros i Hi%Hg; apply R3; lia).
  split; [lia|lia| | | | | |].
  - intros i Hi. rewrite R3, G2; [done| |]; [rewrite Hg|]; lia.
  - intros i Hi Hc. destruct (decide (colf color i = c0)) as [E|].
    + rewrite Hkeep by (by apply Hg). pose proof (G3 i (proj2 (Hg i) (conj Hi E))). lia.
    + specialize (R4 i Hi ltac:(lia)). lia.
  - intros i j Hi Hj Hci Hcj.
    assert (∀ x, 0 ≤ x < len sts → colf color x = c0 → x ∈ g ∧ colf nb' x = colf nb1 x ∧ A ≤ colf nb' x < A1) as Hin.
    { intros x Hx E. assert (x ∈ g) as Hxg by (by apply Hg). rewrite Hkeep by done. auto. }
    destruct (decide (colf color i = c0)) as [Ei|Ei], (decide (colf color j = c0)) as [Ej|Ej].
    + destruct (Hin i Hi Ei) as (? & -> & _), (Hin j Hj Ej) as (? & -> & _). rewrite G4 by done.
      rewrite Ei, Ej. tauto.
    + destruct (Hin i Hi Ei) as (? & _ & ?). specialize (R4 j Hj ltac:(lia)). split; [lia|]. intros [? _]. lia.
    + destruct (Hin j Hj Ej) as (? & _ & ?). specialize (R4 i Hi ltac:(lia)). split; [lia|]. intros [? _]. lia.
    + apply R5; lia.
  - intros a Ha. destruct (decide (a < A1)).
    + destruct (G5 a) as (i & Hi & E); [lia|]. exists i. rewrite Hkeep by done. apply Hg in Hi. split_and!; lia.
    + destruct (R6 a) as (i & ? & ? & ?); [lia|]. exists i. split_and!; lia.
  - intros Hu. destruct (R7) as [C1 C2]; [intros c Hc; apply Hu; lia|].
    destruct (Hu c0) as (i & Hi & E); [lia|]. assert (i ∈ g) as Hig by (by apply Hg).
    assert (A < A1) by (apply Hne; intros ->; by apply not_elem_of_nil in Hig).
    split; [lia|]. intros Ht. destruct (C2 Ht) as [Hc|?]; [|right; lia].
    destruct ch; [by left|]. right. cbn in Hc. lia.
  - intros Hf. destruct (R8 Hf) as [Hch Hst]. apply orb_false_iff in Hch as [-> Hle]. split; [done|].
    intros i j Hi Hj Hci Hcj. destruct (decide (colf color i = c0)) as [E|]; [|apply Hst; lia].
    assert (i ∈ g) as Hig by (by apply Hg). assert (j ∈ g) as Hjg by (apply Hg; by rewrite <-Hcj).
    apply G4; [done..|]. pose proof (G3 i Hig). pose proof (G3 j Hjg). lia.
Qed.

Lemma refine_groups_spec color gs c0 nb A ch :
  len color = len sts → len nb = len sts →
  (∀ k g, zget gs k = Some g → ∀ i, i ∈ g ↔ 0 ≤ i < len sts ∧ colf color i = c0 + k) →
  ∃ nb' A' ch', refine_groups sts color gs nb A ch = Ret (nb', A', ch') ∧
    round_done color c0 (len gs) nb nb' A A' ch ch'.
Proof using Hwf.
  intros Hc. revert c0 nb A ch. induction gs as [|g gs IH]; intros c0 nb A ch Hnb Hgs.
  - exists nb, A, ch. split; [done|]. change (len []) with 0.
    split; [done|lia|done|intros; lia|intros; exfalso; lia|intros; exfalso; lia| |].
    + intros _. split; [lia|auto].
    + intros ->. split; [done|intros; exfalso; lia].
  - assert (∀ i, i ∈ g ↔ 0 ≤ i < len sts ∧ colf color i = c0) as Hg.
    { intros i. rewrite (Hgs 0 g (zget_cons_0 _ _)). by rewrite Z.add_0_r. }
    destruct (refine_group_done color g nb A ch) as (nb1 & A1 & Hr & Hgd & Hne & HA);
      [done|apply list.Forall_forall; intros i Hi; by apply Hg in Hi as [? _]|done|].
    destruct (IH (c0 + 1) nb1 A1 (ch || (A + 1 <? A1))) as (nb' & A' & ch' & Hrs & Hrd).
    + by rewrite (gd_len _ _ _ _ _ _ Hgd).
    + intros k g' Hk i. pose proof (zget_Some_range _ _ _ Hk).
      rewrite (Hgs (k + 1) g'); [by replace (c0 + (k + 1)) with (c0 + 1 + k) by lia|].
      rewrite zget_cons_ne by lia. by replace (k + 1 - 1) with k by lia.
    + exists nb', A', ch'. cbn [refine_groups]. rewrite Hr. cbn [mbind go_bind]. split; [exact Hrs|].
      rewrite len_cons. eapply round_done_cons; try done. apply len_nonneg.
Qed.

Lemma colf_Some color j c : zget color j = Some c ↔ 0 ≤ j < len color ∧ colf color j = c.
Proof.
  split.
  - intros H. split; [by apply zget_Some_range in H|]. unfold colf. by rewrite H.
  - intros [Hj <-]. by apply colf_zget.
Qed.

Lemma round_spec color nb k : coloring (len sts) color k → len nb = len sts → 0 ≤ k →
  ∃ gs nb' k' ch, group_states color 0 (make k []) = Ret gs ∧
    refine_groups sts color gs nb 0 false = Ret (nb', k', ch) ∧ coloring (len sts) nb' k' ∧ 0 ≤ k' ∧
    (∀ i j, 0 ≤ i < len sts → 0 ≤ j < len sts →
      colf nb' i = colf nb' j ↔ colf color i = colf color j ∧ sig_of color i = sig_of color j) ∧
    (ch = true → k < k') ∧
    (ch = false → ∀ i j, 0 ≤ i < len sts → 0 ≤ j < len sts →
      colf color i = colf color j → sig_of color i = sig_of color j).
Proof using Hwf.
  intros Hco Hnb Hk. pose proof Hco as [Hl Hr Hu].
  destruct (group_states_spec color 0 (make k [])) as (gs & Hgs & Hlg & Hm); [by rewrite len_make|].
  rewrite len_make in Hlg by done.
  destruct (refine_groups_spec color gs 0 nb 0 false) as (nb' & k' & ch & Hrs & [R1 R2 R3 R4 R5 R6 R7 R8]); [done..| |].
  - intros c g Hg i. pose proof (zget_Some_range _ _ _ Hg) as Hc. rewrite Hlg in Hc.
    destruct (Hm c [] (zget_make k [] c Hc)) as (g' & Hg' & Hj). rewrite Hg in Hg'. injection Hg' as ->.
    cbn [app]. by rewrite Hj, Z.sub_0_r, colf_Some, Hl.
  - rewrite Hlg in *. exists gs, nb', k', ch.
    assert (∀ i, 0 ≤ i < len sts → 0 ≤ colf color i < 0 + k) as Hin.
    { intros i Hi. pose proof (colf_range _ _ _ i Hco Hi). lia. }
    split_and!; [done..| |lia| | |].
    + split; [lia| |].
      * apply list.Forall_forall. intros c [i [Hi Hc]]%elem_zget. rewrite R1, Hnb in Hi.
        assert (c = colf nb' i) as -> by (unfold colf; by rewrite Hc). apply R4; auto.
      * intros c Hc. destruct (R6 c Hc) as (i & ? & _ & ?). eauto.
    + auto.
    + intros ->. destruct R7 as [? C]; [intros c Hc; apply Hu; lia|]. destruct (C eq_refl); [done|lia].
    + intros ->. destruct (R8 eq_refl) as [_ Hs]. auto.
Qed.

(** ** The loop *)

(** States of one colour cannot be told apart in one step. *)
Definition agrees (col : Z → Z) (s s' : LexState) : Prop :=
  color_key s = color_key s' ∧
  (0 ≤ lsDefault s → col (lsDefault s) = col (lsDefault s')) ∧
  (0 ≤ lsEOF s → col (lsEOF s) = col (lsEOF s')) ∧
  ∀ r, recolored col (tr_lookup (lsTransitions s) r) = recolored col (tr_lookup (lsTransitions s') r).

Definition stable (color : list Z) : Prop :=
  ∀ i j s s', zget sts i = Some s → zget sts j = Some s' → colf color i = colf color j →
  agrees (colf color) s s'.

Definition keyed (color : list Z) : Prop :=
  ∀ i j s s', zget sts i = Some s → zget sts j = Some s' → colf color i = colf color j →
  color_key s = color_key s'.

Lemma tr_lookup_target s r q sk : lex_state_wf (len sts) s →
  tr_lookup (lsTransitions s) r = Some (q, sk) → 0 ≤ q < len sts.
Proof.
  intros (_ & _ & Ht). unfold tr_lookup. destruct (list_find _ _) as [[k tr]|] eqn:E; [|done]. intros [= <- _].
  apply list_find_Some in E as (E & _). by apply (Forall_lookup_1 _ _ _ _ Ht) in E as [? _].
Qed.

(** A coarser partition with the same classes on the states agrees too. *)
Lemma agrees_transfer col col' s s' :
  lex_state_wf (len sts) s → lex_state_wf (len sts) s' →
  (∀ i j, 0 ≤ i < len sts → 0 ≤ j < len sts → col i = col j → col' i = col' j) →
  agrees col s s' → agrees col' s s'.
Proof.
  intros Hs Hs' Hcol (Hk & Hd & He & Ht). pose proof Hs as (Hs1 & Hs2 & _). pose proof Hs' as (Hs1' & Hs2' & _).
  pose proof Hk as Hk'. injection Hk' as _ _ _ Hkd Hke. split_and!; [done|..].
  - intros H. apply Hcol; [lia|lia|auto].
  - intros H. apply Hcol; [lia|lia|auto].
  - intros r. specialize (Ht r).
    destruct (tr_lookup (lsTransitions s) r) as [[q sk]|] eqn:E,
      (tr_lookup (lsTransitions s') r) as [[q' sk']|] eqn:E'; try done.
    cbn in Ht |- *. injection Ht as Hq ->. do 2 f_equal.
    apply Hcol; [exact (tr_lookup_target s r q _ Hs E)|exact (tr_lookup_target s' r q' _ Hs' E')|done].
Qed.

Lemma refine_loop_stable fuel color nb k :
  coloring (len sts) color k → 0 ≤ k → len nb = len sts → keyed color → len sts - k < Z.of_nat fuel →
  ∃ final k', refine_loop sts fuel color nb k = Ret final ∧ coloring (len sts) final k' ∧ 0 ≤ k' ∧ stable final.
Proof using Hwf Hsize.
  revert color nb k. induction fuel as [|fuel IH]; intros color nb k Hco Hk Hnb Hkey Hf.
  { pose proof (coloring_count _ _ _ Hco Hk). lia. }
  destruct (round_spec color nb k Hco Hnb Hk) as (gs & nb' & k' & ch & Hgs & Hrs & Hco' & Hk' & Hiff & Hmore & Hst).
  cbn [refine_loop]. rewrite Hgs. cbn [mbind go_bind]. rewrite Hrs. cbn [mbind go_bind].
  assert (∀ i s, zget sts i = Some s → 0 ≤ i < len sts ∧ lex_state_wf (len sts) s) as Hat.
  { intros i s Hs. pose proof (zget_Some_range _ _ _ Hs). split; [done|]. by eapply Forall_zget. }
  destruct ch.
  - apply IH; [done..|by rewrite (co_len _ _ _ Hco)| |specialize (Hmore eq_refl); lia].
    intros i j s s' Hs Hs' E. apply (Hkey i j); [done..|]. apply Hiff in E as [? _]; [done|..]; by eapply Hat.
  - exists nb', k'. split_and!; [done..|]. intros i j s s' Hs Hs' E.
    destruct (Hat i s Hs) as [Hi Hw], (Hat j s' Hs') as [Hj Hw'].
    apply Hiff in E as [E Esig]; [|done..].
    apply (agrees_transfer (colf color)); [done..| |].
    { intros x y Hx Hy Exy. apply Hiff; [done..|]. split; [done|]. by apply Hst. }
    pose proof (Hkey i j s s' Hs Hs' E) as Hks. split; [done|].
    unfold sig_of in Esig. rewrite Hs, Hs' in Esig. injection Hks as _ _ _ Hkd Hke.
    apply col_signature_inj; try done.
    + intros q. unfold colf, in_i32. destruct (zget color q) as [c|] eqn:Hq; [|cbn; lia].
      pose proof (Forall_zget _ _ _ _ (co_range _ _ _ Hco) Hq) as Hc. pose proof (coloring_count _ _ _ Hco Hk).
      cbn in Hc |- *. lia.
    + destruct Hw as (_ & _ & Hw). eapply list.Forall_impl; [exact Hw|]. by intros ? [_ ?].
    + destruct Hw' as (_ & _ & Hw'). eapply list.Forall_impl; [exact Hw'|]. by intros ? [_ ?].
Qed.
End refine.

(** ** The initial partition *)

Lemma initial_colors_spec sts m :
  numbering m →
  ∃ cs m', initial_colors sts m (Z.of_nat (size m)) = (cs, Z.of_nat (size m')) ∧ numbering m' ∧ m ⊆ m' ∧
    Forall2 (λ s c, m' !! color_key s = Some c) sts cs ∧
    (∀ k, is_Some (m' !! k) → is_Some (m !! k) ∨ k ∈ map color_key sts).
Proof.
  revert m. induction sts as [|s sts IH]; intros m Hm; cbn [initial_colors].
  { exists [], m. split_and!; [done..|constructor|auto]. }
  destruct (m !! color_key s) as [c|] eqn:E.
  - destruct (IH m Hm) as (cs & m' & -> & Hm' & Hsub & Hall & Hdom). exists (c :: cs), m'.
    split_and!; [done..| |]; [constructor; [by eapply lookup_weaken|done]|].
    intros k Hk. destruct (Hdom k Hk); [by left|right; by right].
  - replace (Z.of_nat (size m) + 1) with (Z.of_nat (size (<[color_key s := Z.of_nat (size m)]> m)))
      by (rewrite map_size_insert_None by done; lia).
    destruct (IH _ (numbering_insert m _ Hm E)) as (cs & m' & -> & Hm' & Hsub & Hall & Hdom).
    exists (Z.of_nat (size m) :: cs), m'. split_and!; [done..| | |].
    + etrans; [|exact Hsub]. by apply insert_subseteq.
    + constructor; [|done]. eapply lookup_weaken; [apply lookup_insert_eq|done].
    + intros k Hk. destruct (Hdom k Hk) as [Hin|]; [|right; by right].
      destruct (decide (k = color_key s)) as [->|]; [right; by left|]. rewrite lookup_insert_ne in Hin by done. by left.
Qed.

Lemma initial_coloring sts :
  ∃ color k, initial_colors sts ∅ 0 = (color, k) ∧ coloring (len sts) color k ∧ 0 ≤ k ∧ keyed sts color.
Proof.
  destruct (initial_colors_spec sts ∅ numbering_empty) as (cs & m & Hc & (Hr & Hi & Hs) & _ & Hall & Hdom).
  rewrite map_size_empty in Hc. exists cs, (Z.of_nat (size m)).
  assert (∀ i s, zget sts i = Some s → ∃ c, zget cs i = Some c ∧ m !! color_key s = Some c) as Hat.
  { intros i s Hz. pose proof (zget_Some_range _ _ _ Hz). rewrite <-(Z2Nat.id i) in Hz |- * by lia.
    rewrite zget_nat in Hz. destruct (Forall2_lookup_l _ _ _ _ _ Hall Hz) as (c & Hc' & ?).
    exists c. by rewrite zget_nat. }
  pose proof (Forall2_length _ _ _ Hall) as Hl.
  assert (len cs = len sts) as Hlen by (unfold len; lia).
  split_and!; [done| |lia|].
  - split; [done| |].
    + apply list.Forall_forall. intros c [i [Hi' Hc']]%elem_zget. rewrite Hlen in Hi'.
      destruct (zget_in_range sts i Hi') as [s Hz]. destruct (Hat i s Hz) as (c' & E & Hm).
      rewrite Hc' in E. injection E as <-. by apply Hr in Hm.
    + intros c Hc'. destruct (Hs c Hc') as [k Hk]. destruct (Hdom k) as [[? He]|Hin]; [by eexists|by rewrite lookup_empty in He|].
      apply list_elem_of_fmap in Hin as (s & -> & (i & Hi' & Hz)%elem_zget).
      exists i. split; [done|]. destruct (Hat i s Hz) as (c' & E & Hm). unfold colf. rewrite E. cbn. congruence.
  - intros i j s s' Hz Hz'. destruct (Hat i s Hz) as (c & E & Hm), (Hat j s' Hz') as (c' & E' & Hm').
    unfold colf. rewrite E, E'. cbn. intros <-. by apply (Hi _ _ c).
Qed.

(** The colours the refinement ends with. *)
Lemma equivalence_colors sts :
  Forall (lex_state_wf (len sts)) sts → len sts < 2 ^ 31 →
  ∃ color k, computeLexStateEquivalenceColors sts = Ret color ∧ coloring (len sts) color k ∧ 0 ≤ k ∧
    stable sts color.
Proof.
  intros Hwf Hsize. unfold computeLexStateEquivalenceColors.
  destruct (initial_coloring sts) as (color & k & -> & Hco & Hk & Hkey).
  apply refine_loop_stable; try done; [by rewrite len_make by apply len_nonneg|].
  unfold len in *. lia.
Qed.

(** ** The merged table *)

Lemma num_colors_max color a :
  (∀ c, c ∈ color → c + 1 ≤ foldl (λ n c, if n <? c + 1 then c + 1 else n) a color) ∧
  a ≤ foldl (λ n c, if n <? c + 1 then c + 1 else n) a color ∧
  (foldl (λ n c, if n <? c + 1 then c + 1 else n) a color = a ∨
   ∃ c, c ∈ color ∧ foldl (λ n c, if n <? c + 1 then c + 1 else n) a color = c + 1).
Proof.
  revert a. induction color as [|c color IH]; intros a; cbn [foldl].
  { split_and!; [by intros c ?%not_elem_of_nil|lia|by left]. }
  destruct (IH (if a <? c + 1 then c + 1 else a)) as (H1 & H2 & H3).
  assert (a ≤ (if a <? c + 1 then c + 1 else a) ∧ c + 1 ≤ (if a <? c + 1 then c + 1 else a)) by (zcases; lia).
  split_and!; [|lia|].
  - intros c' [->|?]%elem_of_cons; [lia|auto].
  - destruct H3 as [->|(c' & ? & ->)]; [|right; exists c'; split; [by right|done]].
    destruct (a <? c + 1); [right; exists c; split; [by left|done]|by left].
Qed.

Lemma num_colors_eq n color k : coloring n color k → 0 ≤ k → num_colors color = k.
Proof.
  intros [Hl Hr Hu] Hk. destruct (num_colors_max color 0) as (H1 & H2 & H3). unfold num_colors.
  apply Z.le_antisymm.
  - destruct H3 as [->|(c & Hc & ->)]; [done|]. rewrite list.Forall_forall in Hr. specialize (Hr c Hc). lia.
  - destruct (decide (k = 0)) as [->|]; [done|]. destruct (Hu (k - 1)) as (i & Hi & E); [lia|].
    rewrite <-Hl in Hi. apply colf_zget in Hi. rewrite E in Hi. apply zget_elem, H1 in Hi. lia.
Qed.

Lemma representatives_spec color i rep : Forall (λ c, 0 ≤ c < len rep) color → 0 ≤ i →
  ∃ rep', representatives color i rep = Ret rep' ∧ len rep' = len rep ∧
    ∀ c, 0 ≤ c < len rep → c ∈ color ∨ colf rep c ≠ -1 →
      colf rep' c = colf rep c ∧ colf rep c ≠ -1 ∨ i ≤ colf rep' c ∧ zget color (colf rep' c - i) = Some c.
Proof.
  revert i rep. induction color as [|c0 color IH]; intros i rep Hc Hi; cbn [representatives].
  { exists rep. split_and!; [done..|]. intros c Hr [?%not_elem_of_nil|?]; [done|by left]. }
  apply list.Forall_cons_1 in Hc as [H0 Hc]. rewrite index_colf by done. cbn [mbind go_bind].
  set (rep1 := if colf rep c0 =? -1 then <[Z.to_nat c0 := i]> rep else rep).
  assert ((if colf rep c0 =? -1 then store rep c0 i else Ret rep) = Ret rep1) as ->.
  { unfold rep1. destruct (_ =? _); [by rewrite store_ok|done]. }
  assert (len rep1 = len rep) as Hl1 by (unfold rep1; destruct (_ =? _); [by rewrite len_insert|done]).
  cbn [mbind go_bind]. destruct (IH (i + 1) rep1) as (rep' & Hre & Hl & Hspec); [by rewrite Hl1|lia|].
  exists rep'. split_and!; [done|lia|]. intros c Hcr Hor.
  assert (∀ j, i + 1 ≤ j → zget color (j - (i + 1)) = Some c → i ≤ j ∧ zget (c0 :: color) (j - i) = Some c) as Hsh.
  { intros j Hj Hz. split; [lia|]. rewrite zget_cons_ne by lia. by replace (j - i - 1) with (j - (i + 1)) by lia. }
  assert (colf rep1 c = if decide (c = c0 ∧ colf rep c0 = -1) then i else colf rep c) as Hr1.
  { unfold rep1. destruct (Z.eqb_spec (colf rep c0) (-1)) as [E|E].
    - rewrite colf_insert by done. repeat case_decide; naive_solver.
    - rewrite decide_False by tauto. done. }
  assert (c ∈ color ∨ colf rep1 c ≠ -1) as Hor1.
  { rewrite Hr1. case_decide; [right; lia|]. destruct Hor as [[->|?]%elem_of_cons|?]; [right; tauto|by left|by right]. }
  destruct (Hspec c ltac:(lia) Hor1) as [[E1 E2]|[E1 E2]]; [|right; by apply Hsh].
  rewrite Hr1 in E1, E2. case_decide as Hd; [|by left]. right. rewrite E1. split; [lia|].
  rewrite Z.sub_diag, zget_cons_0. by destruct Hd as [-> _].
Qed.

(** The state [s'] of the new table behaves as [s] of the old one, with targets
    renamed by [f]. *)
Record simulates (f : Z → Z) (s s' : LexState) : Prop := {
  sim_accept : lsAcceptToken s' = lsAcceptToken s ∧ lsAcceptPriority s' = lsAcceptPriority s ∧ lsSkip s' = lsSkip s;
  sim_default : if 0 <=? lsDefault s then lsDefault s' = f (lsDefault s) else lsDefault s' < 0;
  sim_eof : if 0 <=? lsEOF s then lsEOF s' = f (lsEOF s) else lsEOF s' < 0;
  sim_lookup : ∀ r, tr_lookup (lsTransitions s') r = recolored f (tr_lookup (lsTransitions s) r) }.

Lemma simulates_id s : simulates (λ q, q) s s.
Proof.
  split; [done|zcases; [done|lia]|zcases; [done|lia]|].
  intros r. unfold recolored. by destruct (tr_lookup _ _) as [[? ?]|].
Qed.

Lemma run_transitions_lookup rs r :
  tr_lookup (map (λ x, mkLexTransition (rLo x) (rHi x) (rColor x) (rSkip x)) rs) r = run_lookup rs r.
Proof.
  induction rs as [|x rs IH]; [done|]. cbn [map]. rewrite tr_lookup_cons, run_lookup_cons. cbn. by rewrite IH.
Qed.

Section merged.
Context (sts : list LexState) (Hwf : Forall (lex_state_wf (len sts)) sts).
Context (color : list Z) (k : Z) (Hco : coloring (len sts) color k) (Hk : 0 ≤ k) (Hst : stable sts color).

Lemma remap_target_eq t : t < len sts → remap_target color t = Ret (if 0 <=? t then colf color t else -1).
Proof using Hco.
  intros Ht. unfold remap_target. destruct (Z.leb_spec 0 t); [|done]. apply index_colf.
  rewrite (co_len _ _ _ Hco). lia.
Qed.

Lemma merged_state_simulates i j s r : zget sts i = Some s → colf color i = colf color j → zget sts j = Some r →
  ∃ s', merged_state sts color j = Ret s' ∧ simulates (colf color) s s'.
Proof using Hwf Hco Hst.
  intros Hi E Hj. pose proof (Forall_zget _ _ _ _ Hwf Hj) as (Hd & He & Ht).
  destruct (Hst i j s r Hi Hj E) as (Hkey & Hdef & Heof & Hlk). unfold merged_state.
  rewrite (proj2 (index_Ret _ _ _) Hj). cbn [mbind go_bind]. rewrite !remap_target_eq by done. cbn [mbind go_bind].
  unfold coalesceTransitions. rewrite (transition_runs_eq sts color (co_len _ _ _ Hco))
    by (eapply list.Forall_impl; [exact Ht|]; by intros ? [? _]).
  cbn [mbind go_bind]. eexists. split; [done|]. injection Hkey as Ha Hp Hsk Hkd Hke.
  split; cbn; [by rewrite Ha, Hp, Hsk| | |].
  - rewrite Hkd. destruct (Z.leb_spec 0 (lsDefault r)); [symmetry; apply Hdef; lia|lia].
  - rewrite Hke. destruct (Z.leb_spec 0 (lsEOF r)); [symmetry; apply Heof; lia|lia].
  - intros x. rewrite run_transitions_lookup, col_runs_lookup; [by rewrite Hlk|].
    eapply list.Forall_impl; [exact Ht|]. by intros ? [_ ?].
Qed.

Lemma merged_states_spec rep : Forall (λ r, 0 ≤ r < len sts) rep →
  ∃ out, merged_states sts color rep = Ret out ∧
    Forall2 (λ r s', merged_state sts color r = Ret s') rep out.
Proof using Hwf Hco Hst.
  induction 1 as [|r rep Hr _ (out & Ho & Hall)]; [exists []; split; [done|constructor]|].
  destruct (zget_in_range _ _ Hr) as [s Hs].
  destruct (merged_state_simulates r r s s Hs eq_refl Hs) as (s' & Hm & _).
  exists (s' :: out). cbn [merged_states]. rewrite Hm. cbn [mbind go_bind]. rewrite Ho.
  split; [done|by constructor].
Qed.

Lemma remap_offsets_eq offs :
  remap_offsets color (len sts) offs =
  Ret (map (λ o, if (0 <=? o) && (o <? len sts) then colf color o else o) offs).
Proof using Hco.
  induction offs as [|o offs IH]; [done|]. cbn [remap_offsets map].
  destruct (_ && _) eqn:E; [rewrite index_colf by (rewrite (co_len _ _ _ Hco); lia)|]; cbn [mbind go_bind];
    by rewrite IH.
Qed.

Lemma merged_table :
  ∃ rep out, representatives color 0 (make k (-1)) = Ret rep ∧ merged_states sts color rep = Ret out ∧
    len out = k ∧ ∀ i s, zget sts i = Some s → ∃ s', zget out (colf color i) = Some s' ∧ simulates (colf color) s s'.
Proof using Hwf Hco Hst Hk.
  pose proof Hco as [Hl Hr Hu].
  destruct (representatives_spec color 0 (make k (-1))) as (rep & Hrep & Hlr & Hspec); [by rewrite len_make|lia|].
  rewrite len_make in Hlr, Hspec by done.
  assert (∀ c, 0 ≤ c < k → 0 ≤ colf rep c < len sts ∧ colf color (colf rep c) = c) as Hat.
  { intros c Hc. assert (colf (make k (-1)) c = -1) as Hm by (unfold colf; by rewrite zget_make).
    destruct (Hspec c Hc) as [[_ ?]|[_ E]]; [|lia|].
    - left. destruct (Hu c Hc) as (i & Hi & <-). rewrite <-Hl in Hi. apply colf_zget in Hi. by apply zget_elem in Hi.
    - rewrite Z.sub_0_r in E. apply colf_Some in E as [E1 E2]. by rewrite Hl in E1. }
  destruct (merged_states_spec rep) as (out & Ho & Hall).
  { apply list.Forall_forall. intros r [c [Hc Hz]]%elem_zget. rewrite Hlr in Hc. destruct (Hat c Hc) as [H _].
    unfold colf in H. rewrite Hz in H. exact H. }
  pose proof (Forall2_length _ _ _ Hall) as Hlen.
  exists rep, out. split_and!; [done..|unfold len in *; lia|]. intros i s Hs.
  pose proof (zget_Some_range _ _ _ Hs) as Hi. pose proof (colf_range _ _ _ _ Hco Hi) as Hc.
  destruct (Hat _ Hc) as [Hj E]. destruct (zget_in_range _ _ Hj) as [r Hr'].
  destruct (merged_state_simulates i _ s r Hs (eq_sym E) Hr') as (s' & Hm & Hsim).
  exists s'. split; [|done]. assert (zget rep (colf color i) = Some (colf rep (colf color i))) as Hz
    by (apply colf_zget; lia).
  rewrite zget_to_nat in Hz by lia. rewrite zget_to_nat by lia.
  destruct (Forall2_lookup_l _ _ _ _ _ Hall Hz) as (s2 & Hs2 & Hm2).
  rewrite Hm in Hm2. injection Hm2 as <-. done.
Qed.
End merged.

(** The minimised table, whatever way [minimizeLexStates] takes. *)
Lemma minimize_simulates disabled sts offs :
  Forall (lex_state_wf (len sts)) sts → len sts < 2 ^ 31 →
  ∃ out f, minimizeLexStates disabled sts offs =
      Ret (out, map (λ o, if (0 <=? o) && (o <? len sts) then f o else o) offs) ∧
    len out ≤ len sts ∧
    ∀ i s, zget sts i = Some s → ∃ s', zget out (f i) = Some s' ∧ simulates f s s'.
Proof.
  intros Hwf Hsize. unfold minimizeLexStates.
  assert (∃ out f, Ret (sts, offs) = Ret (out, map (λ o, if (0 <=? o) && (o <? len sts) then f o else o) offs) ∧
    len out ≤ len sts ∧ ∀ i s, zget sts i = Some s → ∃ s', zget out (f i) = Some s' ∧ simulates f s s') as Hid.
  { exists sts, (λ q, q). split_and!; [|lia|intros i s Hs; exists s; split; [done|apply simulates_id]].
    do 2 f_equal. symmetry. etrans; [|apply map_id]. apply map_ext. intros o. by case_match. }
  destruct (_ || _); [done|].
  destruct (equivalence_colors sts Hwf Hsize) as (color & k & -> & Hco & Hk & Hst). cbn [mbind go_bind].
  rewrite (num_colors_eq _ _ _ Hco Hk). destruct (k =? len sts); [done|].
  destruct (merged_table sts Hwf color k Hco Hk Hst) as (rep & out & -> & Ho & Hlen & Hsim).
  cbn [mbind go_bind]. rewrite Ho. cbn [mbind go_bind]. rewrite (remap_offsets_eq sts color k Hco).
  cbn [mbind go_bind]. exists out, (colf color). split_and!; [done| |done].
  pose proof (coloring_count _ _ _ Hco Hk). lia.
Qed.

(** ** Lexing from the minimised table *)

(** A lexer over another table, with the error-run state where it moved to. *)
Definition with_states (l : LexerConfig) (out : list LexState) (err : Z) : LexerConfig :=
  mkLexerConfig out None (source l) (includedRanges l) (immediateTokens l)
    (zeroWidthTokens l) err (hasErrorRunLexState l) (errorModeRetry l).

Lemma linear_lookup st r :
  linear_transition st r =
  match tr_lookup (lsTransitions st) r with Some (q, sk) => (i32 q, sk) | None => (-1, false) end.
Proof. unfold linear_transition, tr_lookup. by destruct (list_find _ _) as [[? ?]|]. Qed.

Section lexing.
Context (l : LexerConfig) (Hl : lexer_ok l) (Htable : asciiTable l = None).
Context (Hwf : Forall (lex_state_wf (len (states l))) (states l)) (Hsize : len (states l) < 2 ^ 31).
Context (Heof : Forall (λ s, lsEOF s < 0) (states l)).
Context (out : list LexState) (f : Z → Z) (Hout : len out ≤ len (states l)).
Context (Hsim : ∀ i s, zget (states l) i = Some s → ∃ s', zget out (f i) = Some s' ∧ simulates f s s').
Context (err : Z).

Let l' := with_states l out err.
Abbreviation in_table q := (0 ≤ q < len (states l)).

Lemma f_range q : in_table q → 0 ≤ f q < len out.
Proof using Hsim.
  intros [s Hs]%zget_in_range. destruct (Hsim q s Hs) as (s' & Hs' & _). by apply zget_Some_range in Hs'.
Qed.

Lemma i32_f q : in_table q → i32 q = q ∧ i32 (f q) = f q.
Proof using Hsim Hout Hsize.
  intros Hq. pose proof (f_range q Hq). split; apply i32_id; lia.
Qed.

(** The transition of a simulating state. *)
Lemma lookup_sim s s' q q' b r : lex_state_wf (len (states l)) s → simulates f s s' →
  ∃ ns sk, lookup_transition None s q b r = Ret (ns, sk) ∧
    (ns < 0 ∧ lookup_transition None s' q' b r = Ret (ns, sk) ∨
     in_table ns ∧ lookup_transition None s' q' b r = Ret (f ns, sk)).
Proof using Hsim Hout Hsize.
  intros Hw [_ Hdef _ Hlk]. pose proof Hw as (Hd & _ & _). unfold lookup_transition. cbn [mbind go_bind].
  rewrite !linear_lookup, Hlk. unfold with_default.
  destruct (tr_lookup (lsTransitions s) r) as [[n sk]|] eqn:E; cbn [recolored fmap option_fmap option_map].
  - pose proof (tr_lookup_target _ s r n sk Hw E) as Hn. destruct (i32_f n Hn) as [-> ->]. pose proof (f_range n Hn).
    replace (n <? 0) with false by lia. replace (f n <? 0) with false by lia. cbn [andb].
    replace (0 <=? n) with true by lia. replace (0 <=? f n) with true by lia.
    exists n, (sk && true). split; [done|]. by right.
  - cbn. destruct (Z.leb_spec 0 (lsDefault s)) as [Hpos|Hneg].
    + assert (in_table (lsDefault s)) as Hn by lia. rewrite Hdef. destruct (i32_f _ Hn) as [-> ->].
      pose proof (f_range _ Hn). replace (0 <=? f (lsDefault s)) with true by lia.
      exists (lsDefault s), false. split; [done|]. by right.
    + replace (0 <=? lsDefault s') with false by lia. exists (-1), false. split; [done|]. left. split; [lia|done].
Qed.

(** A walk of the old table, seen in the new one. *)
Definition fw (w : Walk) : Walk :=
  mkWalk (f (wState w)) (wScan w) (wStart w) (wSkipped w) (wAccept w) (wHops w).

Lemma note_accept_sim p s s' w : simulates f s s' → note_accept l' p s' (fw w) = note_accept l p s w.
Proof.
  intros [(Ha & Hp & Hs) _ _ _]. unfold note_accept, eligible. cbn [fw wStart wScan wAccept].
  rewrite Ha, Hp, Hs. done.
Qed.

Lemma walk_step_renamed_sim p w : in_table (wState w) →
  match walk_step l p w with
  | Ret (inl w1) => walk_step l' p (fw w) = Ret (inl (fw w1)) ∧ in_table (wState w1) ∧
      0 ≤ cPos (wScan w) < cPos (wScan w1) ∧ cPos (wScan w) < len (source l)
  | Ret (inr w1) => walk_step l' p (fw w) = Ret (inr (fw w1))
  | Panic => walk_step l' p (fw w) = Panic
  | NoFuel => False
  end.
Proof using Hl Htable Hwf Hsize Heof Hout Hsim.
  intros Hq. destruct (zget_in_range _ _ Hq) as [s Hs]. pose proof (Forall_zget _ _ _ _ Hwf Hs) as Hw.
  pose proof (Forall_zget _ _ _ _ Heof Hs) as He. destruct (Hsim _ s Hs) as (s' & Hs' & Hss).
  pose proof (f_range _ Hq) as Hfq. unfold walk_step. cbn [l' with_states states source asciiTable fw wState wScan].
  replace ((wState w <? 0) || (len (states l) <=? wState w)) with false by lia.
  replace ((f (wState w) <? 0) || (len out <=? f (wState w))) with false by lia.
  rewrite (proj2 (index_Ret _ _ _) Hs), (proj2 (index_Ret _ _ _) Hs'). cbn [mbind go_bind].
  rewrite (note_accept_sim p s s' w Hss), Htable.
  assert (lsEOF s' < 0) as He'.
  { pose proof (sim_eof _ _ _ Hss) as E. cbn in He. replace (0 <=? lsEOF s) with false in E by lia. done. }
  destruct (Z.leb_spec (len (source l)) (cPos (wScan w))).
  { cbn in He. replace (0 <=? lsEOF s) with false by lia. replace (0 <=? lsEOF s') with false by lia. done. }
  destruct (decide (0 ≤ cPos (wScan w))) as [Hpos|Hneg].
  2: { assert (index (source l) (cPos (wScan w)) = Panic) as ->; [|done].
       unfold index. assert (zget (source l) (cPos (wScan w)) = None) as -> by (apply zget_None; lia). done. }
  destruct (rune_at (source l) (cPos (wScan w)) (wScan w) (ok_bytes _ (lok_config _ Hl)) ltac:(lia) eq_refl)
    as (b & r & size & -> & Hb & Hr & -> & Hdec & _ & Hsz & Hle & _).
  cbn [mbind go_bind]. rewrite Hdec.
  destruct (lookup_sim s s' (wState w) (f (wState w)) b r Hw Hss) as (ns & sk & -> & [[Hn ->]|[Hn ->]]);
    cbn [mbind go_bind].
  - replace (ns <? 0) with true by lia. done.
  - pose proof (f_range ns Hn). replace (ns <? 0) with false by lia. replace (f ns <? 0) with false by lia.
    destruct sk; cbn; rewrite move_cursor_pos; split_and!; try done; lia.
Qed.

Lemma walk_loop_sim p fuel fuel' w : in_table (wState w) → (0 < fuel)%nat → (0 < fuel')%nat →
  cPos (wScan w) < 0 ∨ len (source l) - cPos (wScan w) < Z.of_nat fuel ∧ len (source l) - cPos (wScan w) < Z.of_nat fuel' →
  walk_loop l' p fuel' (fw w) = (w1 ← walk_loop l p fuel w; Ret (fw w1)).
Proof using Hl Htable Hwf Hsize Heof Hout Hsim.
  revert fuel' w. induction fuel as [|fuel IH]; intros [|fuel'] w Hq Hf1 Hf2 Hpos; [lia..|].
  cbn [walk_loop]. pose proof (walk_step_renamed_sim p w Hq) as Hst.
  destruct (walk_step l p w) as [[w1|w1]| |]; cbn [mbind go_bind]; [|by rewrite Hst..|done].
  destruct Hst as (-> & Hq1 & Hc & Hb). cbn [mbind go_bind]. apply IH; [done|lia..].
Qed.

Lemma scan_sim s q p r c : in_table q → scan l' s (f q) p r c = scan l s q p r c.
Proof using Hl Htable Hwf Hsize Heof Hout Hsim.
  intros Hq. pose proof (f_range q Hq) as Hfq. destruct (i32_f q Hq) as [Eq Efq].
  unfold scan. cbn [l' with_states includedRanges]. rewrite (lok_contiguous _ Hl). unfold scanContiguous.
  cbn [l' with_states states source]. rewrite Eq, Efq.
  replace ((q <? 0) || (len (states l) <=? q)) with false by lia.
  replace ((f q <? 0) || (len out <=? f q)) with false by lia.
  change (mkWalk (f q) (mkCursor p r c 0) (mkCursor p r c 0) false no_accept 0)
    with (fw (mkWalk q (mkCursor p r c 0) (mkCursor p r c 0) false no_accept 0)).
  rewrite (walk_loop_sim p (scan_fuel l)); [|done|unfold scan_fuel; lia..| ].
  - destruct (walk_loop l p (scan_fuel l) _) as [w| |]; done.
  - unfold scan_fuel, len. cbn. lia.
Qed.

Context (Herr : hasErrorRunLexState l = true → err = f (errorRunLexState l)).

Lemma canLexAt_sim s q c : in_table q → canLexAt l' s (f q) c = canLexAt l s q c.
Proof using Hl Htable Hwf Hsize Heof Hout Hsim. intros Hq. unfold canLexAt. by rewrite scan_sim. Qed.

Lemma skipOneRune_sim s : skipOneRune l' s = skipOneRune l s.
Proof using Hl. unfold skipOneRune. cbn [l' with_states includedRanges]. by rewrite (lok_contiguous _ Hl). Qed.

Lemma error_run_loop_sim n s : hasErrorRunLexState l = true → error_run_loop l' n s = error_run_loop l n s.
Proof using Hl Htable Hwf Hsize Heof Hout Hsim Herr.
  intros He. revert s. induction n as [|n IH]; intros s; [done|]. cbn [error_run_loop].
  change (errorRunLexState l') with err. rewrite (Herr He), canLexAt_sim by (by apply (lok_error _ Hl)).
  change (atLogicalEOF l' s) with (atLogicalEOF l s). destruct (atLogicalEOF l s); [done|].
  destruct (canLexAt l s _ _) as [[[] s1]| |]; [done| |done..]. cbn.
  rewrite skipOneRune_sim. destruct (skipOneRune l s1); cbn; auto.
Qed.

Lemma normalizeIncludedPosition_sim s : normalizeIncludedPosition l' s = normalizeIncludedPosition l s.
Proof using Hl.
  unfold normalizeIncludedPosition, normalizeIncludedCursor. cbn [l' with_states includedRanges].
  by rewrite (lok_contiguous _ Hl).
Qed.

Lemma errorRunToken_sim s : hasErrorRunLexState l = true → errorRunToken l' s = errorRunToken l s.
Proof using Hl Htable Hwf Hsize Heof Hout Hsim Herr.
  intros He. unfold errorRunToken. cbn [l' with_states source].
  rewrite normalizeIncludedPosition_sim. set (s1 := normalizeIncludedPosition _ _).
  change (atLogicalEOF l' s1) with (atLogicalEOF l s1). destruct (atLogicalEOF l s1); [done|].
  rewrite skipOneRune_sim. destruct (skipOneRune l s1); [cbn|done..].
  by rewrite error_run_loop_sim.
Qed.

(** Renaming does not change whether a call asks for the error-mode retry. *)
Definition same_retry (q : Z) (emit : bool) : Prop :=
  emit = false ∨ errorModeRetry l = false ∨ (f q = err → q = errorRunLexState l).

Lemma next_loop_sim n s q emit c pre k k' :
  in_table q → same_retry q emit → (∀ s, hasErrorRunLexState l = true → k' s = k s) →
  next_loop l' n s (f q) emit c pre k' = next_loop l n s q emit c pre k.
Proof using Hl Htable Hwf Hsize Heof Hout Hsim Herr.
  intros Hq Hret Hk. revert s pre. induction n as [|n IH]; intros s pre; [done|]. cbn [next_loop].
  change (atLogicalEOF l' s) with (atLogicalEOF l s). destruct (atLogicalEOF l s); [done|].
  cbn [l' with_states hasErrorRunLexState errorModeRetry errorRunLexState].
  rewrite scan_sim by done. destruct (scan l s q _ _ _) as [[res s1]| |]; [cbn|done..].
  assert (∀ s pre, (s2 ← skipOneRune l' s; next_loop l' n s2 (f q) emit c pre k') =
                   (s2 ← skipOneRune l s; next_loop l n s2 q emit c pre k)) as Hskip.
  { intros s2 pre2. rewrite skipOneRune_sim. destruct (skipOneRune l s2); cbn; auto. }
  destruct res as [t|].
  { destruct (_ =? _); [|done]. destruct (_ <=? _); auto. }
  assert (emit && hasErrorRunLexState l && errorModeRetry l && negb (f q =? err) =
          emit && hasErrorRunLexState l && errorModeRetry l && negb (q =? errorRunLexState l)) as ->.
  { destruct Hret as [->|[->|Hret]]; [done|by rewrite !andb_false_r|].
    destruct (decide (hasErrorRunLexState l = true)) as [He|He%not_true_is_false]; [|by rewrite He, andb_false_r].
    pose proof (Herr He) as Herr'. f_equal. f_equal.
    destruct (Z.eqb_spec (f q) err), (Z.eqb_spec q (errorRunLexState l)); try done; [tauto|congruence]. }
  destruct (decide (hasErrorRunLexState l = true)) as [He|He%not_true_is_false];
    [|rewrite He, andb_false_r; apply Hskip].
  destruct (_ && negb _); [by apply Hk|]. rewrite He. destruct emit; cbn [andb]; [|apply Hskip].
  change (canLexAt (with_states l out err)) with (canLexAt l'). rewrite (Herr He).
  rewrite canLexAt_sim by (by apply (lok_error _ Hl)).
  destruct (canLexAt l s1 _ _) as [[[] s2]| |]; cbn; auto. by apply errorRunToken_sim.
Qed.

Lemma next_sim s q emit : in_table q → same_retry q emit → next l' s (f q) emit = next l s q emit.
Proof using Hl Htable Hwf Hsize Heof Hout Hsim Herr.
  intros Hq Hret. unfold next. rewrite normalizeIncludedPosition_sim.
  apply next_loop_sim; [done..|]. intros s' He. rewrite normalizeIncludedPosition_sim.
  change (errorRunLexState l') with err. rewrite (Herr He). apply next_loop_sim; [by apply (lok_error _ Hl)| |done].
  right. right. done.
Qed.
End lexing.

(** ** Statements *)

(** C21.  Minimisation is invisible to the lexer.  For a table whose targets
    exist, whose ranges are not empty and which has no end-of-input transitions
    (the generator emits none), [minimizeLexStates] terminates, returns a table
    that is no larger, and moves every mode offset so that lexing from the moved
    offset over the new table returns, for every source, cursor and mode, the
    token and lexer state that the old table gave.  The error-run state moves
    along with the modes; a mode that is merged with it must not use the
    error-mode retry, which compares the two offsets. *)
Theorem minimize_preserves_lexing disabled l offsets :
  lexer_ok l → asciiTable l = None →
  Forall (lex_state_wf (len (states l))) (states l) → Forall (λ s, lsEOF s < 0) (states l) →
  len (states l) < 2 ^ 31 →
  ∃ out err offs, minimizeLexStates disabled (states l) (errorRunLexState l :: offsets) = Ret (out, err :: offs) ∧
    len out ≤ len (states l) ∧ length offs = length offsets ∧
    ∀ k q q' s emit, offsets !! k = Some q → offs !! k = Some q' → 0 ≤ q < len (states l) →
      emit = false ∨ errorModeRetry l = false ∨ (q' = err → q = errorRunLexState l) →
      next (with_states l out err) s q' emit = next l s q emit.
Proof.
  intros Hl Htab Hwf Heof Hsize.
  destruct (minimize_simulates disabled (states l) (errorRunLexState l :: offsets) Hwf Hsize)
    as (out & f & Hmin & Hlen & Hsim).
  set (mv := λ o, if (0 <=? o) && (o <? len (states l)) then f o else o) in *.
  assert (∀ q, 0 ≤ q < len (states l) → mv q = f q) as Hmv.
  { intros q Hq. unfold mv. replace ((0 <=? q) && (q <? len (states l))) with true by lia. done. }
  exists out, (mv (errorRunLexState l)), (map mv offsets). split_and!; [exact Hmin|done|apply length_map|].
  intros k q q' s emit Hq Hq' Hr Hret.
  assert (map mv offsets !! k = Some (mv q)) as Hmq.
  { change (map mv offsets) with (mv <$> offsets). by rewrite list_lookup_fmap, Hq. }
  rewrite Hmq in Hq'. injection Hq' as <-. rewrite (Hmv q Hr) in Hret |- *.
  apply next_sim; try done. intros He. by apply Hmv, (lok_error _ Hl).
Qed.

(** [computeLexStateEquivalenceColors] stops within [len states + 1]
    rounds, at a partition whose classes cannot be told apart: states of one
    colour accept alike and have, for the default, end-of-input and every rune,
    targets of one colour.  The colours are exactly [0 .. k-1]. *)
Theorem equivalence_colors_stable sts :
  Forall (lex_state_wf (len sts)) sts → len sts < 2 ^ 31 →
  ∃ color k, computeLexStateEquivalenceColors sts = Ret color ∧ coloring (len sts) color k ∧ stable sts color.
Proof.
  intros Hwf Hs. destruct (equivalence_colors sts Hwf Hs) as (color & k & ? & ? & _ & ?). by exists color, k.
Qed.

(** Two modes over copies of one automaton. *)
Definition sample_modes : list LexState :=
  [mkLexState 0 0 false (-1) (-1) [mkLexTransition 97 122 1 false];
   mkLexState 5 0 false (-1) (-1) [mkLexTransition 97 122 1 false];
   mkLexState 0 0 false (-1) (-1) [mkLexTransition 32 32 2 true; mkLexTransition 97 109 3 false; mkLexTransition 110 122 3 false];
   mkLexState 5 0 false (-1) (-1) [mkLexTransition 97 122 3 false]].
Definition sample_mode_lexer : LexerConfig :=
  mkLexerConfig sample_modes None [32; 97; 98] [] [] [] 2 true true.

Lemma sample_modes_wf : Forall (lex_state_wf (len sample_modes)) sample_modes.
Proof.
  change (len sample_modes) with 4.
  repeat (constructor; [split_and!; [cbn; lia..|repeat (constructor; [unfold tr_range; cbn; lia|]); constructor]|]).
  constructor.
Qed.

Lemma sample_mode_lexer_ok : lexer_ok sample_mode_lexer.
Proof.
  assert (Forall byte_ok (source sample_mode_lexer)) as Hb
    by (repeat (constructor; [unfold byte_ok; lia|]); constructor).
  assert (Forall state_ok sample_modes) as Hs
    by (repeat (constructor; [unfold state_ok; repeat (constructor; [vm_compute; intuition congruence|]); constructor|]);
        constructor).
  split; [by split; [| |left]|reflexivity|reflexivity|by vm_compute|by vm_compute].
Qed.

Lemma minimize_preserves_lexing_witness :
  ∃ out err q', minimizeLexStates false sample_modes [2; 0; 2] = Ret (out, [err; 0; q']) ∧ len out = 3 ∧
    next (with_states sample_mode_lexer out err) (NewLexer [] []).2 q' true =
    next sample_mode_lexer (NewLexer [] []).2 2 true.
Proof.
  destruct (minimize_preserves_lexing false sample_mode_lexer [0; 2]) as (out & err & offs & Hmin & _ & _ & Hnext).
  - exact sample_mode_lexer_ok.
  - reflexivity.
  - exact sample_modes_wf.
  - repeat (constructor; [cbn; lia|]). constructor.
  - reflexivity.
  - assert (minimizeLexStates false sample_modes [2; 0; 2] = Ret (out, err :: offs)) as Hm by exact Hmin.
    vm_compute in Hm. injection Hm as Ho He Hof.
    exists out, err, err. split_and!.
    + rewrite <-Ho, <-He. vm_compute. reflexivity.
    + rewrite <-Ho. reflexivity.
    + apply (Hnext 1%nat 2 err); [reflexivity|by rewrite <-Hof, <-He|vm_compute; intuition congruence|].
      right. right. done.
Defined.

Lemma equivalence_colors_stable_witness :
  ∃ k, computeLexStateEquivalenceColors sample_modes = Ret [0; 2; 1; 2] ∧
    coloring 4 [0; 2; 1; 2] k ∧ stable sample_modes [0; 2; 1; 2].
Proof.
  destruct (equivalence_colors_stable sample_modes sample_modes_wf) as (color & k & Hc & Hco & Hst); [reflexivity|].
  exists k. assert (color = [0; 2; 1; 2]) as -> by (vm_compute in Hc; by injection Hc).
  split_and!; [done|exact Hco|exact Hst].
Defined.
