(* ===== verification/Navigate.v ===== *)
(** * Moving over a tree

    cursor.go: [TreeCursor], a stack of frames from the cursor's root to the
    current node, with all its movements; walk.go: the iterative [Walk].  Nodes
    are those of TreeEdit.v; reading a child materialises it in the source, which
    is not visible here.  Stacks are lists with the top first. *)

From Stdlib Require Import ZArith Lia ZifyBool.
From stdpp Require Import base tactics list numbers option gmap strings.
From S2P Require Import Prelude Points TreeEdit TreeEditCorrect.
Local Open Scope Z_scope.

Record cursorFrame := mkFrame { fNode : option Node; fChildIndex : Z }.

(** What a cursor uses of its tree: the root, the source and the language's
    field names. *)
Record CursorTree := mkCursorTree {
  ctRoot : option Node; ctSource : list Z; ctFieldNames : option (list string) }.

Record TreeCursor := mkTreeCursor { tcStack : list cursorFrame; tcTree : option CursorTree }.

Definition NewTreeCursor (node : option Node) (tree : option CursorTree) : TreeCursor :=
  mkTreeCursor [mkFrame node (-1)] tree.

Definition NewTreeCursorFromTree (tree : option CursorTree) : TreeCursor :=
  match tree with
  | None => NewTreeCursor None None
  | Some t => NewTreeCursor (ctRoot t) tree
  end.

Definition ensureStack (c : TreeCursor) : TreeCursor :=
  match tcStack c with
  | [] => mkTreeCursor [mkFrame None (-1)] (tcTree c)
  | _ => c
  end.

Definition CurrentNode (c : TreeCursor) : option Node :=
  match tcStack c with [] => None | f :: _ => fNode f end.

Definition Depth (c : TreeCursor) : Z :=
  match tcStack c with [] => 0 | _ :: rest => len rest end.

(** [append(c.stack, cursorFrame{...})] and the update of the top frame. *)
Definition push (c : TreeCursor) (node : option Node) (i : Z) : TreeCursor :=
  mkTreeCursor (mkFrame node i :: tcStack c) (tcTree c).
Definition set_top (c : TreeCursor) (node : option Node) (i : Z) : TreeCursor :=
  match tcStack c with
  | [] => c
  | _ :: rest => mkTreeCursor (mkFrame node i :: rest) (tcTree c)
  end.

Definition nodeFieldIDAt (n : Node) (i : Z) : Z := default 0 (zget (iFieldIDs (nInfo n)) i).
Definition isNamed (n : Node) : bool := iNamed (nInfo n).

Definition GotoFirstChild (c : TreeCursor) : bool * TreeCursor :=
  match CurrentNode c with
  | None => (false, c)
  | Some node =>
    if len (nChildren node) =? 0 then (false, c) else (true, push c (zget (nChildren node) 0) 0)
  end.

Definition GotoLastChild (c : TreeCursor) : bool * TreeCursor :=
  match CurrentNode c with
  | None => (false, c)
  | Some node =>
    let n := len (nChildren node) in
    if n =? 0 then (false, c) else (true, push c (zget (nChildren node) (n - 1)) (n - 1))
  end.

(** The top frame and the node below it. *)
Definition GotoNextSibling (c : TreeCursor) : bool * TreeCursor :=
  match tcStack c with
  | frame :: mkFrame (Some parentNode) _ :: _ =>
    let next := fChildIndex frame + 1 in
    if len (nChildren parentNode) <=? next then (false, c)
    else (true, set_top c (zget (nChildren parentNode) next) next)
  | _ => (false, c)
  end.

Definition GotoPrevSibling (c : TreeCursor) : bool * TreeCursor :=
  match tcStack c with
  | frame :: mkFrame (Some parentNode) _ :: _ =>
    let prev := fChildIndex frame - 1 in
    if prev <? 0 then (false, c)
    else (true, set_top c (zget (nChildren parentNode) prev) prev)
  | _ => (false, c)
  end.

Definition GotoParent (c : TreeCursor) : bool * TreeCursor :=
  match tcStack c with
  | _ :: (_ :: _) as rest => (true, mkTreeCursor rest (tcTree c))
  | _ => (false, c)
  end.

Definition CurrentFieldID (c : TreeCursor) : Z :=
  match tcStack c with
  | frame :: mkFrame (Some parentNode) _ :: _ => nodeFieldIDAt parentNode (fChildIndex frame)
  | _ => 0
  end.

Definition CurrentFieldName (c : TreeCursor) : string :=
  let fid := CurrentFieldID c in
  match tcTree c with
  | None => ""
  | Some t =>
    if fid =? 0 then ""
    else match ctFieldNames t with
         | None => ""
         | Some names => default "" (zget names fid)
         end
  end.

(** The loop over the children looking for a field. *)
Fixpoint find_field (n : Node) (fid : Z) (cs : list Node) (i : Z) : option (Z * Node) :=
  match cs with
  | [] => None
  | c :: cs => if nodeFieldIDAt n i =? fid then Some (i, c) else find_field n fid cs (i + 1)
  end.

Definition GotoChildByFieldID (c : TreeCursor) (fid : Z) : bool * TreeCursor :=
  if fid =? 0 then (false, c)
  else match CurrentNode c with
       | None => (false, c)
       | Some node =>
         match find_field node fid (nChildren node) 0 with
         | Some (i, child) => (true, push c (Some child) i)
         | None => (false, c)
         end
       end.

(** [Language.FieldByName]: the last index with the name; [FieldID] is 16 bits. *)
Fixpoint field_name_map (names : list string) (i : Z) (m : gmap string Z) : gmap string Z :=
  match names with
  | [] => m
  | fn :: names =>
    field_name_map names (i + 1) (if String.eqb fn "" then m else <[fn := u16 i]> m)
  end.
Definition FieldByName (names : list string) (name : string) : option Z := field_name_map names 0 ∅ !! name.

Definition GotoChildByFieldName (c : TreeCursor) (name : string) : bool * TreeCursor :=
  match tcTree c with
  | None => (false, c)
  | Some t =>
    match ctFieldNames t with
    | None => (false, c)
    | Some names =>
      match FieldByName names name with
      | Some fid => if fid =? 0 then (false, c) else GotoChildByFieldID c fid
      | None => (false, c)
      end
    end
  end.

(** The upward and the downward loop over named children. *)
Fixpoint next_named (cs : list Node) (i : Z) : option (Z * Node) :=
  match cs with
  | [] => None
  | c :: cs => if isNamed c then Some (i, c) else next_named cs (i + 1)
  end.

Fixpoint prev_named (cs : list Node) (n : nat) : option (Z * Node) :=
  match n with
  | O => None
  | S i =>
    match cs !! i with
    | Some c => if isNamed c then Some (Z.of_nat i, c) else prev_named cs i
    | None => prev_named cs i
    end
  end.

Definition GotoFirstNamedChild (c : TreeCursor) : bool * TreeCursor :=
  match CurrentNode c with
  | None => (false, c)
  | Some node =>
    match next_named (nChildren node) 0 with
    | Some (i, child) => (true, push c (Some child) i)
    | None => (false, c)
    end
  end.

Definition GotoLastNamedChild (c : TreeCursor) : bool * TreeCursor :=
  match CurrentNode c with
  | None => (false, c)
  | Some node =>
    match prev_named (nChildren node) (length (nChildren node)) with
    | Some (i, child) => (true, push c (Some child) i)
    | None => (false, c)
    end
  end.

Definition GotoNextNamedSibling (c : TreeCursor) : bool * TreeCursor :=
  match tcStack c with
  | frame :: mkFrame (Some parentNode) _ :: _ =>
    let start := fChildIndex frame + 1 in
    match next_named (drop (Z.to_nat start) (nChildren parentNode)) start with
    | Some (i, child) => (true, set_top c (Some child) i)
    | None => (false, c)
    end
  | _ => (false, c)
  end.

Definition GotoPrevNamedSibling (c : TreeCursor) : bool * TreeCursor :=
  match tcStack c with
  | frame :: mkFrame (Some parentNode) _ :: _ =>
    match prev_named (nChildren parentNode) (Z.to_nat (fChildIndex frame)) with
    | Some (i, child) => (true, set_top c (Some child) i)
    | None => (false, c)
    end
  | _ => (false, c)
  end.

Definition pointGreaterThan (a b : Point) : bool :=
  if negb (Row a =? Row b) then Row b <? Row a else Column b <? Column a.

(** The points of a no-tree node read as the zero point. *)
Definition entry_end_point (n : Node) : Point :=
  if decide (nKind n = KindNoTreeNode) then mkPoint 0 0 else nEndPoint n.

(** [sort.Search] over the children, then the move; -1 when there is none. *)
Definition goto_first_where (c : TreeCursor) (beyond : Node → bool) : go (Z * TreeCursor) :=
  match CurrentNode c with
  | None => Ret (-1, c)
  | Some node =>
    let cs := nChildren node in
    if len cs =? 0 then Ret (-1, c) else
    i ← search_loop (λ i, child ← index cs i; Ret (beyond child)) (length cs) 0 (len cs);
    if len cs <=? i then Ret (-1, c) else Ret (i, push c (zget cs i) i)
  end.

Definition GotoFirstChildForByte (c : TreeCursor) (targetByte : Z) : go (Z * TreeCursor) :=
  goto_first_where c (λ child, targetByte <? nEnd child).

Definition GotoFirstChildForPoint (c : TreeCursor) (targetPoint : Point) : go (Z * TreeCursor) :=
  goto_first_where c (λ child, pointGreaterThan (entry_end_point child) targetPoint).

(** [Reset] keeps one frame, the bottom one, and overwrites it. *)
Definition ResetCursor (c : TreeCursor) (node : option Node) : TreeCursor :=
  mkTreeCursor [mkFrame node (-1)] (tcTree (ensureStack c)).

Definition ResetTree (c : TreeCursor) (tree : option CursorTree) : TreeCursor :=
  let c := mkTreeCursor (tcStack c) tree in
  match tree with
  | None => ResetCursor c None
  | Some t => ResetCursor c (ctRoot t)
  end.

Definition CurrentNodeIsNamed (c : TreeCursor) : bool :=
  match CurrentNode c with None => false | Some n => isNamed n end.

(** [Node.Text]: empty for an invalid span. *)
Definition Text (n : Node) (source : list Z) : list Z :=
  if (nEnd n <? nStart n) || (len source <? nStart n) || (len source <? nEnd n) then []
  else slice source (nStart n) (nEnd n).

Definition CurrentNodeText (c : TreeCursor) : list Z :=
  match tcTree c, CurrentNode c with
  | Some t, Some node => Text node (ctSource t)
  | _, _ => []
  end.

(** ** Walk *)

Inductive WalkAction := WalkContinue | WalkSkipChildren | WalkStop.

Section walk.
Context {S : Type} (fn : S → Node → Z → WalkAction * S).

(** The loop: pop, call back, push the children from the last to the first. *)
Fixpoint walk_stack (fuel : nat) (stack : list (Node * Z)) (s : S) : go S :=
  match stack with
  | [] => Ret s
  | (node, depth) :: stack =>
    match fuel with
    | O => NoFuel
    | Datatypes.S fuel =>
      let '(action, s) := fn s node depth in
      match action with
      | WalkStop => Ret s
      | WalkSkipChildren => walk_stack fuel stack s
      | WalkContinue =>
        walk_stack fuel
          (foldr (λ child stack, (child, depth + 1) :: stack) stack (nChildren node)) s
      end
    end
  end.

Definition Walk (fuel : nat) (node : option Node) (s : S) : go S :=
  match node with
  | None => Ret s
  | Some node => walk_stack fuel [(node, 0)] s
  end.

(** ** Reference: the recursive traversal *)

(** Visit a subtree; [true] when the callback stopped the walk. *)
Fixpoint visit (depth : Z) (n : Node) (s : S) : bool * S :=
  let '(action, s) := fn s n depth in
  match action with
  | WalkStop => (true, s)
  | WalkSkipChildren => (false, s)
  | WalkContinue =>
    (fix go (cs : list Node) (s : S) : bool * S :=
       match cs with
       | [] => (false, s)
       | c :: cs =>
         let '(stop, s) := visit (depth + 1) c s in
         if (stop : bool) then (true, s) else go cs s
       end) (nChildren n) s
  end.
End walk.
