(* ===== verification/NavigateCorrect.v ===== *)
(** * Cursors are paths

    Facts about Navigate.v: a [TreeCursor] behaves as a path from its root, every
    movement does what it does to the path and fails exactly when there is no
    such node; [Walk] is the recursive pre-order traversal. *)

From Stdlib Require Import ZArith Lia ZifyBool.
From stdpp Require Import base tactics list numbers option gmap strings sorting.
From S2P Require Import Prelude SliceSort Points TreeEdit TreeEditCorrect Navigate.
Local Open Scope Z_scope.

(** ** The abstract cursor *)

(** The node at a path, given from the node up to the root. *)
Fixpoint at_path (root : Node) (p : list Z) : option Node :=
  match p with
  | [] => Some root
  | i :: p => n ← at_path root p; zget (nChildren n) i
  end.

(** The stack of a cursor at a path. *)
Inductive represents (root : Node) : list cursorFrame → list Z → Node → Prop :=
| rep_root : represents root [mkFrame (Some root) (-1)] [] root
| rep_child st p n i m :
    represents root st p n → zget (nChildren n) i = Some m →
    represents root (mkFrame (Some m) i :: st) (i :: p) m.

(** The indices of the children that satisfy a condition, in order. *)
Definition child_indices (P : Z → Node → bool) (n : Node) : list Z :=
  filter (λ i, (match zget (nChildren n) i with Some c => P i c | None => false end) = true)
    (seqZ 0 (len (nChildren n))).

Inductive Move :=
| MFirstChild | MLastChild | MNextSibling | MPrevSibling | MParent
| MField (fid : Z) | MFirstNamed | MLastNamed | MNextNamed | MPrevNamed.

(** The child or sibling a movement is about: the first or the last that
    qualifies. *)
Definition move_path (root : Node) (mv : Move) (p : list Z) : option (list Z) :=
  let child f := n ← at_path root p; i ← f n; Some (i :: p) in
  let sibling f := match p with [] => None | i :: p => n ← at_path root p; j ← f n i; Some (j :: p) end in
  match mv with
  | MFirstChild => child (λ n, head (child_indices (λ _ _, true) n))
  | MLastChild => child (λ n, last (child_indices (λ _ _, true) n))
  | MNextSibling => sibling (λ n i, head (child_indices (λ j _, i <? j) n))
  | MPrevSibling => sibling (λ n i, last (child_indices (λ j _, j <? i) n))
  | MParent => match p with [] => None | _ :: p => Some p end
  | MField fid => if fid =? 0 then None else child (λ n, head (child_indices (λ j _, nodeFieldIDAt n j =? fid) n))
  | MFirstNamed => child (λ n, head (child_indices (λ _ c, isNamed c) n))
  | MLastNamed => child (λ n, last (child_indices (λ _ c, isNamed c) n))
  | MNextNamed => sibling (λ n i, head (child_indices (λ j c, (i <? j) && isNamed c) n))
  | MPrevNamed => sibling (λ n i, last (child_indices (λ j c, (j <? i) && isNamed c) n))
  end.

Definition do_move (mv : Move) (c : TreeCursor) : bool * TreeCursor :=
  match mv with
  | MFirstChild => GotoFirstChild c | MLastChild => GotoLastChild c
  | MNextSibling => GotoNextSibling c | MPrevSibling => GotoPrevSibling c
  | MParent => GotoParent c | MField fid => GotoChildByFieldID c fid
  | MFirstNamed => GotoFirstNamedChild c | MLastNamed => GotoLastNamedChild c
  | MNextNamed => GotoNextNamedSibling c | MPrevNamed => GotoPrevNamedSibling c
  end.

Lemma represents_at root st p n : represents root st p n → at_path root p = Some n.
Proof. induction 1 as [|st p n i m _ IH Hi]; [done|]. cbn. by rewrite IH. Qed.

Lemma represents_length root st p n : represents root st p n → len st = len p + 1.
Proof. induction 1 as [|st p n i m _ IH _]; [done|]. rewrite !len_cons. lia. Qed.

(** ** Searching the children *)

(** [i] is the least, or the greatest, index that qualifies. *)
Definition least (Q : Z → Prop) (r : option Z) : Prop :=
  match r with Some i => Q i ∧ ∀ j, Q j → i ≤ j | None => ∀ j, ¬ Q j end.
Definition greatest (Q : Z → Prop) (r : option Z) : Prop :=
  match r with Some i => Q i ∧ ∀ j, Q j → j ≤ i | None => ∀ j, ¬ Q j end.

Definition qualifies (P : Z → Node → bool) (n : Node) (i : Z) : Prop :=
  ∃ c, zget (nChildren n) i = Some c ∧ P i c = true.

Lemma elem_child_indices P n i : i ∈ child_indices P n ↔ qualifies P n i.
Proof.
  unfold child_indices, qualifies. rewrite list_elem_of_filter, elem_of_seqZ. split.
  - intros [H _]. destruct (zget _ i) as [c|]; [|done]. eauto.
  - intros (c & Hc & HP). rewrite Hc. split; [done|]. apply zget_Some_range in Hc. lia.
Qed.

Lemma seqZ_sorted m n : StronglySorted Z.lt (seqZ m n).
Proof.
  destruct (Z.le_gt_cases 0 n) as [Hn|Hn]; [|by rewrite seqZ_nil by lia; constructor].
  rewrite <-(Z2Nat.id n) by done. generalize (Z.to_nat n). intros k. revert m.
  induction k as [|k IH]; intros m; [constructor|].
  rewrite seqZ_cons by lia. replace (Z.pred (Z.of_nat (S k))) with (Z.of_nat k) by lia.
  constructor; [apply IH|]. apply list.Forall_forall. intros x Hx%elem_of_seqZ. lia.
Qed.

Lemma child_indices_sorted P n : StronglySorted Z.lt (child_indices P n).
Proof. apply filter_StronglySorted, seqZ_sorted. Qed.

Lemma head_least P n : least (qualifies P n) (head (child_indices P n)).
Proof.
  pose proof (child_indices_sorted P n) as Hs. pose proof (elem_child_indices P n) as He.
  destruct (child_indices P n) as [|i l]; cbn.
  - intros j Hj%He. by apply not_elem_of_nil in Hj.
  - split; [apply He; by left|]. intros j [->|Hj]%He%elem_of_cons; [done|].
    apply StronglySorted_inv in Hs as [_ Hs]. rewrite list.Forall_forall in Hs. specialize (Hs j Hj). lia.
Qed.

Lemma last_greatest P n : greatest (qualifies P n) (last (child_indices P n)).
Proof.
  pose proof (child_indices_sorted P n) as Hs. pose proof (elem_child_indices P n) as He.
  destruct (last (child_indices P n)) as [i|] eqn:E; cbn.
  - apply last_Some in E as [l E]. rewrite E in Hs, He. split; [apply He; rewrite elem_of_app; right; by left|].
    intros j Hj%He. apply elem_of_app in Hj as [Hj|Hj%list_elem_of_singleton]; [|lia].
    apply StronglySorted_app_1_elem_of with (x1 := j) (x2 := i) in Hs; [lia|done|by left].
  - apply last_None in E. rewrite E in He. intros j Hj%He. by apply not_elem_of_nil in Hj.
Qed.

Lemma least_unique Q r r' : least Q r → least Q r' → r = r'.
Proof.
  destruct r as [i|], r' as [j|]; cbn; [|naive_solver..]. intros [Hi Hi'] [Hj Hj'].
  specialize (Hi' j Hj). specialize (Hj' i Hi). f_equal. lia.
Qed.
Lemma greatest_unique Q r r' : greatest Q r → greatest Q r' → r = r'.
Proof.
  destruct r as [i|], r' as [j|]; cbn; [|naive_solver..]. intros [Hi Hi'] [Hj Hj'].
  specialize (Hi' j Hj). specialize (Hj' i Hi). f_equal. lia.
Qed.

(** The upward loops: the first index from [i] on. *)
Fixpoint first_where (P : Z → Node → bool) (cs : list Node) (i : Z) : option (Z * Node) :=
  match cs with
  | [] => None
  | c :: cs => if P i c then Some (i, c) else first_where P cs (i + 1)
  end.

Lemma next_named_where cs i : next_named cs i = first_where (λ _ c, isNamed c) cs i.
Proof. revert i. induction cs as [|c cs IH]; intros i; cbn; [done|]. by rewrite IH. Qed.
Lemma find_field_where n fid cs i : find_field n fid cs i = first_where (λ j _, nodeFieldIDAt n j =? fid) cs i.
Proof. revert i. induction cs as [|c cs IH]; intros i; cbn; [done|]. by rewrite IH. Qed.

Lemma first_where_spec P n cs i :
  0 ≤ i → (∀ k, 0 ≤ k → zget cs k = zget (nChildren n) (i + k)) →
  least (qualifies (λ j c, (i <=? j) && P j c) n) (fst <$> first_where P cs i) ∧
  ∀ j c, first_where P cs i = Some (j, c) → zget (nChildren n) j = Some c.
Proof.
  revert i. induction cs as [|c cs IH]; intros i Hi Hcs; cbn [first_where].
  - split; [|done]. intros j (c & Hc & HP). specialize (Hcs (j - i)). rewrite zget_nil in Hcs.
    replace (i + (j - i)) with j in Hcs by lia. rewrite <-Hcs in Hc by lia. done.
  - pose proof (Hcs 0 ltac:(lia)) as H0. rewrite zget_cons_0, Z.add_0_r in H0. destruct (P i c) eqn:HP.
    + split; [|by intros j c' [= <- <-]]. cbn. split.
      * exists c. split; [done|]. by rewrite HP, Z.leb_refl.
      * intros j (c' & _ & H). lia.
    + destruct (IH (i + 1)) as [Hl Hc]; [lia| |].
      { intros k Hk. replace (i + 1 + k) with (i + (k + 1)) by lia. rewrite <-Hcs by lia.
        rewrite zget_cons_ne by lia. by replace (k + 1 - 1) with k by lia. }
      split; [|done].
      assert (∀ j, qualifies (λ j c, (i <=? j) && P j c) n j ↔ qualifies (λ j c, (i + 1 <=? j) && P j c) n j) as Hq.
      { intros j. split; intros (c' & Hc' & H); exists c'; (split; [done|]); [|lia].
        destruct (decide (j = i)) as [->|]; [|lia]. rewrite <-H0 in Hc'. injection Hc' as <-.
        rewrite HP in H. lia. }
      destruct (fst <$> first_where P cs (i + 1)) as [r|]; cbn in *; [destruct Hl as [Hl Hl']; split|];
        [by apply Hq|intros j Hj; by apply Hl', Hq|intros j Hj; by apply (Hl j), Hq].
Qed.

Lemma prev_named_spec n k : 0 ≤ Z.of_nat k →
  greatest (qualifies (λ j c, (j <? Z.of_nat k) && isNamed c) n) (fst <$> prev_named (nChildren n) k) ∧
  ∀ j c, prev_named (nChildren n) k = Some (j, c) → zget (nChildren n) j = Some c.
Proof.
  intros _. induction k as [|k [Hl Hc]]; cbn [prev_named].
  { split; [|done]. intros j (c & Hc & H). apply zget_Some_range in Hc. lia. }
  destruct (nChildren n !! k) as [c|] eqn:Hk; rewrite <-(zget_nat _ k) in Hk;
    [destruct (isNamed c) eqn:Hn|].
  { split; [|by intros j c' [= <- <-]]. cbn. split; [exists c; rewrite Hn; split; [done|lia]|].
    intros j (c' & _ & H). lia. }
  all: split; [|done].
  all: assert (∀ j, qualifies (λ j c, (j <? Z.of_nat (S k)) && isNamed c) n j ↔
                    qualifies (λ j c, (j <? Z.of_nat k) && isNamed c) n j) as Hq.
  1,3: intros j; split; intros (c' & Hc' & H); exists c'; (split; [done|]); [|lia];
    (destruct (decide (j = Z.of_nat k)) as [->|]; [|lia]); rewrite Hk in Hc'; simplify_eq; rewrite Hn in H; lia.
  all: destruct (fst <$> prev_named (nChildren n) k) as [r|]; cbn in *; [destruct Hl as [Hl Hl']; split|];
        [by apply Hq|intros j Hj; by apply Hl', Hq|intros j Hj; by apply (Hl j), Hq].
Qed.

(** ** The refinement *)

(** The outcome of a movement to the child or sibling [r] of [n]. *)
Definition moved_to (c : TreeCursor) (mk : Z → TreeCursor) (r : option Z) : bool * TreeCursor :=
  match r with Some i => (true, mk i) | None => (false, c) end.

Definition refines (root : Node) (c : TreeCursor) (res : bool * TreeCursor) (p' : option (list Z)) : Prop :=
  match p' with
  | Some p' => ∃ c' n', res = (true, c') ∧ represents root (tcStack c') p' n' ∧ tcTree c' = tcTree c
  | None => res = (false, c)
  end.

Lemma child_refines root c p n r :
  represents root (tcStack c) p n → (∀ i, r = Some i → is_Some (zget (nChildren n) i)) →
  refines root c (moved_to c (λ i, push c (zget (nChildren n) i) i) r) (i ← r; Some (i :: p)).
Proof.
  intros Hrep Hr. destruct r as [i|]; [|done]. destruct (Hr i eq_refl) as [m Hm]. cbn.
  eexists _, m. split_and!; [done| |done]. cbn. rewrite Hm. by econstructor.
Qed.

Lemma sibling_refines root c f st p n r :
  tcStack c = f :: st → represents root st p n → (∀ i, r = Some i → is_Some (zget (nChildren n) i)) →
  refines root c (moved_to c (λ i, set_top c (zget (nChildren n) i) i) r) (i ← r; Some (i :: p)).
Proof.
  intros Hst Hrep Hr. destruct r as [i|]; [|done]. destruct (Hr i eq_refl) as [m Hm]. cbn.
  eexists _, m. split_and!; [done| |]; unfold set_top; rewrite Hst; cbn; [rewrite Hm; by econstructor|done].
Qed.

(** A loop result as a movement. *)
Lemma found_moved (n : Node) (x : option (Z * Node)) c (mk : option Node → Z → TreeCursor) :
  (∀ j m, x = Some (j, m) → zget (nChildren n) j = Some m) →
  match x with Some (i, child) => (true, mk (Some child) i) | None => (false, c) end =
  moved_to c (λ i, mk (zget (nChildren n) i) i) (fst <$> x).
Proof. intros H. destruct x as [[i m]|]; cbn; [|done]. by rewrite (H i m eq_refl). Qed.

Lemma least_ext Q Q' r : (∀ i, Q i ↔ Q' i) → least Q r → least Q' r.
Proof. intros H. destruct r; cbn; [intros [? ?]; split; [by apply H|intros j Hj; apply H in Hj; auto]|].
  intros Hn j Hj%H. by apply (Hn j). Qed.
Lemma greatest_ext Q Q' r : (∀ i, Q i ↔ Q' i) → greatest Q r → greatest Q' r.
Proof. intros H. destruct r; cbn; [intros [? ?]; split; [by apply H|intros j Hj; apply H in Hj; auto]|].
  intros Hn j Hj%H. by apply (Hn j). Qed.

Lemma qualifies_some P n i : qualifies P n i → is_Some (zget (nChildren n) i).
Proof. intros (c & -> & _). eauto. Qed.

Lemma least_some P n r i : least (qualifies P n) r → r = Some i → is_Some (zget (nChildren n) i).
Proof. intros H ->. destruct H as [H _]. by eapply qualifies_some. Qed.
Lemma greatest_some P n r i : greatest (qualifies P n) r → r = Some i → is_Some (zget (nChildren n) i).
Proof. intros H ->. destruct H as [H _]. by eapply qualifies_some. Qed.

Lemma qualifies_top P n i : (∀ j c, P j c = true) → qualifies P n i ↔ 0 ≤ i < len (nChildren n).
Proof.
  intros HP. rewrite <-zget_Some_iff. split; [apply qualifies_some|]. intros [c Hc]. exists c. auto.
Qed.

Lemma GotoFirstChild_refines root c p n : represents root (tcStack c) p n →
  refines root c (GotoFirstChild c) (move_path root MFirstChild p).
Proof.
  intros Hrep. unfold move_path. rewrite (represents_at _ _ _ _ Hrep). cbn [mbind option_bind].
  pose proof (head_least (λ _ _, true) n) as Hh.
  assert (least (qualifies (λ _ _, true) n) (if len (nChildren n) =? 0 then None else Some 0)) as Hc.
  { pose proof (len_nonneg (nChildren n)). pose proof (λ i, qualifies_top (λ _ _, true) n i ltac:(done)) as Hq.
    destruct (Z.eqb_spec (len (nChildren n)) 0); cbn; [intros j Hj%Hq; lia|].
    split; [apply Hq; lia|intros j Hj%Hq; lia]. }
  rewrite (least_unique _ _ _ Hh Hc).
  assert (GotoFirstChild c = moved_to c (λ i, push c (zget (nChildren n) i) i)
    (if len (nChildren n) =? 0 then None else Some 0)) as ->.
  { unfold GotoFirstChild, CurrentNode. destruct Hrep; cbn; by destruct (_ =? _). }
  apply child_refines; [done|]. intros i. by eapply least_some.
Qed.

Lemma GotoLastChild_refines root c p n : represents root (tcStack c) p n →
  refines root c (GotoLastChild c) (move_path root MLastChild p).
Proof.
  intros Hrep. unfold move_path. rewrite (represents_at _ _ _ _ Hrep). cbn [mbind option_bind].
  pose proof (last_greatest (λ _ _, true) n) as Hh.
  assert (greatest (qualifies (λ _ _, true) n)
    (if len (nChildren n) =? 0 then None else Some (len (nChildren n) - 1))) as Hc.
  { pose proof (len_nonneg (nChildren n)). pose proof (λ i, qualifies_top (λ _ _, true) n i ltac:(done)) as Hq.
    destruct (Z.eqb_spec (len (nChildren n)) 0); cbn; [intros j Hj%Hq; lia|].
    split; [apply Hq; lia|intros j Hj%Hq; lia]. }
  rewrite (greatest_unique _ _ _ Hh Hc).
  assert (GotoLastChild c = moved_to c (λ i, push c (zget (nChildren n) i) i)
    (if len (nChildren n) =? 0 then None else Some (len (nChildren n) - 1))) as ->.
  { unfold GotoLastChild, CurrentNode. destruct Hrep; cbn; by destruct (_ =? _). }
  apply child_refines; [done|]. intros i. by eapply greatest_some.
Qed.

Lemma GotoField_refines root c p n fid : represents root (tcStack c) p n →
  refines root c (GotoChildByFieldID c fid) (move_path root (MField fid) p).
Proof.
  intros Hrep. unfold move_path, GotoChildByFieldID. destruct (fid =? 0); [done|].
  rewrite (represents_at _ _ _ _ Hrep). cbn [mbind option_bind].
  assert (CurrentNode c = Some n) as -> by (unfold CurrentNode; by destruct Hrep).
  rewrite find_field_where. destruct (first_where_spec (λ j _, nodeFieldIDAt n j =? fid) n (nChildren n) 0)
    as [Hl Hz]; [lia|intros k _; by rewrite Z.add_0_l|].
  rewrite (found_moved n _ c (push c)) by done.
  apply (least_ext _ (qualifies (λ j _, nodeFieldIDAt n j =? fid) n)) in Hl.
  2: { intros i. split; intros (m & Hm & H); exists m; (split; [done|]); apply zget_Some_range in Hm; lia. }
  rewrite (least_unique _ _ _ (head_least _ n) Hl). apply child_refines; [done|]. intros i. by eapply least_some.
Qed.

Lemma GotoFirstNamed_refines root c p n : represents root (tcStack c) p n →
  refines root c (GotoFirstNamedChild c) (move_path root MFirstNamed p).
Proof.
  intros Hrep. unfold move_path, GotoFirstNamedChild. rewrite (represents_at _ _ _ _ Hrep). cbn [mbind option_bind].
  assert (CurrentNode c = Some n) as -> by (unfold CurrentNode; by destruct Hrep).
  rewrite next_named_where. destruct (first_where_spec (λ _ c, isNamed c) n (nChildren n) 0)
    as [Hl Hz]; [lia|intros k _; by rewrite Z.add_0_l|].
  rewrite (found_moved n _ c (push c)) by done.
  apply (least_ext _ (qualifies (λ _ c, isNamed c) n)) in Hl.
  2: { intros i. split; intros (m & Hm & H); exists m; (split; [done|]); apply zget_Some_range in Hm; lia. }
  rewrite (least_unique _ _ _ (head_least _ n) Hl). apply child_refines; [done|]. intros i. by eapply least_some.
Qed.

Lemma GotoLastNamed_refines root c p n : represents root (tcStack c) p n →
  refines root c (GotoLastNamedChild c) (move_path root MLastNamed p).
Proof.
  intros Hrep. unfold move_path, GotoLastNamedChild. rewrite (represents_at _ _ _ _ Hrep). cbn [mbind option_bind].
  assert (CurrentNode c = Some n) as -> by (unfold CurrentNode; by destruct Hrep).
  destruct (prev_named_spec n (length (nChildren n))) as [Hl Hz]; [lia|].
  rewrite (found_moved n _ c (push c)) by done.
  apply (greatest_ext _ (qualifies (λ _ c, isNamed c) n)) in Hl.
  2: { intros i. split; intros (m & Hm & H); exists m; (split; [done|]); apply zget_Some_range in Hm; unfold len in *; lia. }
  rewrite (greatest_unique _ _ _ (last_greatest _ n) Hl). apply child_refines; [done|].
  intros i. by eapply greatest_some.
Qed.

Lemma represents_root root st n : represents root st [] n → st = [mkFrame (Some root) (-1)] ∧ n = root.
Proof. by inversion 1. Qed.

(** The stack below the top of a cursor that is not at its root. *)
Lemma represents_parent root c i p m : represents root (tcStack c) (i :: p) m →
  ∃ st n pi, tcStack c = mkFrame (Some m) i :: mkFrame (Some n) pi :: st ∧
    represents root (mkFrame (Some n) pi :: st) p n ∧ zget (nChildren n) i = Some m.
Proof.
  intros H. inversion H as [|st p' n i' m' Hrep Hz E1 E2]; subst.
  inversion Hrep; subst; eauto 10.
Qed.

Lemma sibling_moves root c p n mv : represents root (tcStack c) p n →
  mv ∈ [MNextSibling; MPrevSibling; MNextNamed; MPrevNamed] →
  refines root c (do_move mv c) (move_path root mv p).
Proof.
  intros Hrep Hmv. destruct p as [|i p].
  { apply represents_root in Hrep as [Hst _].
    repeat (apply elem_of_cons in Hmv as [->|Hmv]; [cbn; unfold GotoNextSibling, GotoPrevSibling,
      GotoNextNamedSibling, GotoPrevNamedSibling; by rewrite Hst|]). by apply not_elem_of_nil in Hmv. }
  destruct (represents_parent _ _ _ _ _ Hrep) as (st & m & pi & Hst & Hp & Hz).
  pose proof (zget_Some_range _ _ _ Hz) as Hi.
  assert (∀ r, (∀ j, r = Some j → is_Some (zget (nChildren m) j)) →
    refines root c (moved_to c (λ j, set_top c (zget (nChildren m) j) j) r) (j ← r; Some (j :: p))) as Hsib
    by (intros r; by eapply sibling_refines).
  repeat (apply elem_of_cons in Hmv as [->|Hmv]); [..|by apply not_elem_of_nil in Hmv];
    unfold move_path; rewrite (represents_at _ _ _ _ Hp); cbn [mbind option_bind do_move].
  - unfold GotoNextSibling. rewrite Hst. cbn [fChildIndex].
    assert (least (qualifies (λ j _, i <? j) m) (if len (nChildren m) <=? i + 1 then None else Some (i + 1))) as Hl.
    { destruct (Z.leb_spec (len (nChildren m)) (i + 1)); cbn.
      - intros j (x & Hx%zget_Some_range & H'). lia.
      - split; [|intros j (x & Hx & H'); lia]. destruct (zget_in_range (nChildren m) (i + 1)) as [x Hx]; [lia|].
        exists x. split; [done|lia]. }
    rewrite (least_unique _ _ _ (head_least _ m) Hl).
    replace (if len (nChildren m) <=? i + 1 then (false, c) else (true, set_top c (zget (nChildren m) (i + 1)) (i + 1)))
      with (moved_to c (λ j, set_top c (zget (nChildren m) j) j) (if len (nChildren m) <=? i + 1 then None else Some (i + 1)))
      by (by destruct (_ <=? _)).
    apply Hsib. intros j. by eapply least_some.
  - unfold GotoPrevSibling. rewrite Hst. cbn [fChildIndex].
    assert (greatest (qualifies (λ j _, j <? i) m) (if i - 1 <? 0 then None else Some (i - 1))) as Hl.
    { destruct (Z.ltb_spec (i - 1) 0); cbn.
      - intros j (x & Hx%zget_Some_range & H'). lia.
      - split; [|intros j (x & Hx & H'); lia]. destruct (zget_in_range (nChildren m) (i - 1)) as [x Hx]; [lia|].
        exists x. split; [done|lia]. }
    rewrite (greatest_unique _ _ _ (last_greatest _ m) Hl).
    replace (if i - 1 <? 0 then (false, c) else (true, set_top c (zget (nChildren m) (i - 1)) (i - 1)))
      with (moved_to c (λ j, set_top c (zget (nChildren m) j) j) (if i - 1 <? 0 then None else Some (i - 1)))
      by (by destruct (_ <? _)).
    apply Hsib. intros j. by eapply greatest_some.
  - unfold GotoNextNamedSibling. rewrite Hst. cbn [fChildIndex]. rewrite next_named_where.
    destruct (first_where_spec (λ _ c, isNamed c) m (drop (Z.to_nat (i + 1)) (nChildren m)) (i + 1)) as [Hl Hz'];
      [lia|intros k Hk; by rewrite zget_drop by lia|].
    rewrite (found_moved m _ c (set_top c)) by done.
    apply (least_ext _ (qualifies (λ j c, (i <? j) && isNamed c) m)) in Hl.
    2: { intros j. split; intros (x & Hx & H); exists x; (split; [done|]); lia. }
    rewrite (least_unique _ _ _ (head_least _ m) Hl). apply Hsib. intros j. by eapply least_some.
  - unfold GotoPrevNamedSibling. rewrite Hst. cbn [fChildIndex].
    destruct (prev_named_spec m (Z.to_nat i)) as [Hl Hz']; [lia|].
    rewrite (found_moved m _ c (set_top c)) by done. rewrite Z2Nat.id in Hl by lia.
    rewrite (greatest_unique _ _ _ (last_greatest _ m) Hl). apply Hsib. intros j. by eapply greatest_some.
Qed.

Lemma GotoParent_refines root c p n : represents root (tcStack c) p n →
  refines root c (GotoParent c) (move_path root MParent p).
Proof.
  intros Hrep. unfold GotoParent. destruct p as [|i p]; cbn.
  - by apply represents_root in Hrep as [-> _].
  - destruct (represents_parent _ _ _ _ _ Hrep) as (st & m & pi & -> & Hp & _).
    eexists _, m. split_and!; [done|exact Hp|done].
Qed.

(** ** Binary search over the children *)

Lemma goto_first_where_spec root c p n beyond :
  represents root (tcStack c) p n →
  (∀ i j a b, i ≤ j → zget (nChildren n) i = Some a → zget (nChildren n) j = Some b → beyond a = true → beyond b = true) →
  goto_first_where c beyond =
  match head (child_indices (λ _ c, beyond c) n) with
  | Some i => Ret (i, push c (zget (nChildren n) i) i)
  | None => Ret (-1, c)
  end.
Proof.
  intros Hrep Hmono. unfold goto_first_where.
  assert (CurrentNode c = Some n) as -> by (unfold CurrentNode; by destruct Hrep).
  pose proof (len_nonneg (nChildren n)) as Hn0. pose proof (head_least (λ _ c, beyond c) n) as Hl.
  destruct (Z.eqb_spec (len (nChildren n)) 0) as [E|E].
  { destruct (head _) as [i|]; [|done]. destruct Hl as [(m & Hm%zget_Some_range & _) _]. lia. }
  set (n0 := match head (child_indices (λ _ c, beyond c) n) with Some i => i | None => len (nChildren n) end).
  assert (0 ≤ n0 ≤ len (nChildren n)) as Hr.
  { unfold n0. destruct (head _) as [i|]; [|lia]. destruct Hl as [(m & Hm%zget_Some_range & _) _]. lia. }
  rewrite (search_loop_spec _ _ _ _ n0); [|..|unfold len; lia]; [|intros h Hh|lia|lia].
  - cbn [mbind go_bind]. unfold n0. destruct (head _) as [i|]; [|by rewrite Z.leb_refl].
    destruct Hl as [(m & Hm%zget_Some_range & _) _]. by destruct (Z.leb_spec (len (nChildren n)) i); [lia|].
  - destruct (index_in_range (nChildren n) h) as (m & -> & Hm); [lia|]. cbn [mbind go_bind]. f_equal.
    unfold n0 in *. destruct (head _) as [i|].
    + destruct Hl as [(a & Ha & HPa) Hmin]. destruct (Z.leb_spec i h); [by apply (Hmono i h a m)|].
      destruct (beyond m) eqn:HPm; [|done]. assert (i ≤ h) by (apply Hmin; by exists m). lia.
    + destruct (beyond m) eqn:HPm; [|lia]. exfalso. apply (Hl h). by exists m.
Qed.

Lemma at_path_nested root p n lo hi : nested lo hi root → at_path root p = Some n → nested lo hi n.
Proof.
  intros Hr. revert n. induction p as [|i p IH]; intros n; cbn; [by intros [= <-]|].
  destruct (at_path root p) as [m|]; [|done]. cbn. intros Hz. specialize (IH m eq_refl).
  destruct m as [k rf sy sb eb sp ep d cs]. rewrite nested_eq in IH. destruct IH as (? & ? & ? & IH).
  apply nested_list_each in IH. eapply nested_weaken; [| |exact (Forall_zget _ _ _ _ IH Hz)]; lia.
Qed.

Lemma at_path_preorder root p n : at_path root p = Some n → n ∈ preorder root.
Proof.
  assert (∀ root : Node, root ∈ preorder root) as Hself by (intros []; by left).
  assert (∀ m n root : Node, m ∈ preorder root → n ∈ nChildren m → n ∈ preorder root) as Hchild.
  { intros m n' root'. induction root' as [k rf sy sb eb sp ep d cs IH] using Node_tree_ind.
    cbn [preorder]. intros [->|Hm]%elem_of_cons Hn; right; apply list_elem_of_In, in_flat_map.
    - exists n'. split; [by apply list_elem_of_In|apply list_elem_of_In, Hself].
    - apply list_elem_of_In, in_flat_map in Hm as (c & Hc & Hm). exists c. split; [done|].
      rewrite list.Forall_forall in IH. apply list_elem_of_In, IH; [by apply list_elem_of_In|by apply list_elem_of_In|done]. }
  revert n. induction p as [|i p IH]; intros n; cbn; [intros [= <-]; apply Hself|].
  destruct (at_path root p) as [m|]; [|done]. cbn. intros Hz%zget_elem. by apply (Hchild m n root); [apply IH|].
Qed.

Lemma nested_ends_sorted n lo hi i j a b : nested lo hi n → i ≤ j →
  zget (nChildren n) i = Some a → zget (nChildren n) j = Some b → nEnd a ≤ nEnd b.
Proof.
  destruct n as [k rf sy sb eb sp ep d cs]. rewrite nested_eq. intros (_ & _ & _ & Hn) Hij. cbn.
  clear -Hn Hij. revert sb i j Hn Hij. induction cs as [|c cs IH]; intros lo i j; [by rewrite zget_nil|].
  intros [Hc Hcs] Hij Ha Hb. pose proof (zget_Some_range _ _ _ Ha) as Hi.
  destruct (decide (j = 0)) as [->|].
  { assert (i = 0) as -> by lia. rewrite zget_cons_0 in Ha, Hb. simplify_eq. lia. }
  rewrite zget_cons_ne in Hb by done. destruct (decide (i = 0)) as [->|].
  - rewrite zget_cons_0 in Ha. injection Ha as <-. apply zget_elem in Hb.
    pose proof (nested_list_later (nEnd c) eb cs (nEnd c) (Z.le_refl _) Hcs) as Hl. rewrite list.Forall_forall in Hl.
    specialize (Hl b Hb). lia.
  - rewrite zget_cons_ne in Ha by done. apply (IH (nEnd c) (i - 1) (j - 1)); [done|lia|done|done].
Qed.

(** Later offsets have later positions. *)
Lemma offset_point_mono src x y t : 0 ≤ x → x ≤ y → y ≤ len src → len src < 2 ^ 32 →
  pointGreaterThan (offset_point src x) t = true → pointGreaterThan (offset_point src y) t = true.
Proof.
  intros Hx Hxy Hy Hl. rewrite <-(offset_point_step src x y) by lia.
  pose proof (offset_point_bounds src x ltac:(lia) Hl) as [Hr Hc].
  pose proof (len_slice src x y ltac:(lia) ltac:(lia) ltac:(lia)) as Hs. set (b := slice src x y) in *.
  pose proof (count_byte_le newline b). unfold computeNewEndPoint. rewrite foldl_step_byte_after.
  unfold point_after, pointGreaterThan. destruct (has_byte newline b) eqn:Hb; cbn [Row Column].
  - pose proof (has_byte_count _ _ Hb). rewrite (u32_id (_ + count_byte _ _)) by lia.
    destruct (Z.eqb_spec (Row (offset_point src x)) (Row t)),
      (Z.eqb_spec (Row (offset_point src x) + count_byte newline b) (Row t)); cbn [negb]; lia.
  - case_decide; [done|]. rewrite u32_id by lia.
    destruct (Z.eqb_spec (Row (offset_point src x)) (Row t)); cbn [negb]; lia.
Qed.

(** ** Walk *)

Section walk.
Context {S : Type} (fn : S → Node → Z → WalkAction * S).

Section children.
Context (depth : Z).
Fixpoint visit_children (cs : list Node) (s : S) : bool * S :=
  match cs with
  | [] => (false, s)
  | c :: cs =>
    let '(stop, s) := visit fn (depth + 1) c s in
    if (stop : bool) then (true, s) else visit_children cs s
  end.
End children.

Lemma visit_eq depth n s :
  visit fn depth n s =
  let '(action, s) := fn s n depth in
  match action with
  | WalkStop => (true, s)
  | WalkSkipChildren => (false, s)
  | WalkContinue => visit_children depth (nChildren n) s
  end.
Proof. destruct n. reflexivity. Qed.

Fixpoint visit_stack (stack : list (Node * Z)) (s : S) : S :=
  match stack with
  | [] => s
  | (n, d) :: stack =>
    let '(stop, s) := visit fn d n s in if (stop : bool) then s else visit_stack stack s
  end.

Definition stack_size (stack : list (Node * Z)) : nat := sum_list_with (λ e, length (preorder e.1)) stack.

Lemma push_children (d : Z) (cs : list Node) stack : foldr (λ c stack, (c, d) :: stack) stack cs = map (λ c, (c, d)) cs ++ stack.
Proof. induction cs as [|c cs IH]; cbn; [done|]. by rewrite IH. Qed.

Lemma visit_stack_app d cs stack s :
  visit_stack (map (λ c, (c, d + 1)) cs ++ stack) s =
  let '(stop, s) := visit_children d cs s in if (stop : bool) then s else visit_stack stack s.
Proof.
  revert s. induction cs as [|c cs IH]; intros s; cbn; [done|].
  destruct (visit fn (d + 1) c s) as [[] s1]; [done|]. apply IH.
Qed.

Lemma stack_size_children (d : Z) cs stack :
  stack_size (map (λ c, (c, d)) cs ++ stack) = (length (flat_map preorder cs) + stack_size stack)%nat.
Proof. induction cs as [|c cs IH]; cbn; [done|]. unfold stack_size in *. rewrite length_app, IH. lia. Qed.

Lemma walk_stack_visits fuel stack s : (stack_size stack ≤ fuel)%nat →
  walk_stack fn fuel stack s = Ret (visit_stack stack s).
Proof.
  revert stack s. induction fuel as [|fuel IH]; intros [|[n d] stack] s Hf; [done|destruct n; cbn in Hf; lia|done|].
  cbn [walk_stack visit_stack]. rewrite visit_eq.
  assert (stack_size ((n, d) :: stack) = Datatypes.S (length (flat_map preorder (nChildren n)) + stack_size stack)) as Hs
    by (destruct n; done).
  destruct (fn s n d) as [[] s1].
  - rewrite push_children, IH by (rewrite stack_size_children; lia). by rewrite visit_stack_app.
  - apply IH. lia.
  - done.
Qed.
End walk.

(** ** Statements *)

(** C32.  A cursor refines a path.  Whatever node of the tree a cursor stands
    on, each of its ten relative movements moves it to the node the movement
    names (the first or last child or sibling that qualifies, the parent),
    keeps the frames of its stack the nodes and child indices along the path to
    that node, and returns false and leaves the cursor alone exactly when there
    is no such node. *)
Theorem cursor_refines_path root c p n mv :
  represents root (tcStack c) p n →
  CurrentNode c = Some n ∧ Depth c = len p ∧ refines root c (do_move mv c) (move_path root mv p).
Proof.
  intros Hrep. split_and!.
  - unfold CurrentNode. by destruct Hrep.
  - apply represents_length in Hrep. unfold Depth. destruct (tcStack c); rewrite ?len_cons in Hrep; [|lia].
    unfold len in *. cbn in Hrep. lia.
  - destruct mv; [by eapply GotoFirstChild_refines|by eapply GotoLastChild_refines| |
      |by eapply GotoParent_refines|by eapply GotoField_refines|by eapply GotoFirstNamed_refines
      |by eapply GotoLastNamed_refines| |]; (eapply sibling_moves; [done|]); set_solver.
Qed.

(** On a tree that fits its source and has no point-less nodes, the two
    binary searches find what a scan would find: the first child that ends
    beyond the byte, or beyond the point, and -1 when all end before. *)
Theorem goto_first_child_for_exact src root c p n targetByte targetPoint :
  represents root (tcStack c) p n → tree_of src root → len src < 2 ^ 32 →
  Forall (λ m, nKind m ≠ KindNoTreeNode) (preorder root) →
  let first beyond := match head (child_indices (λ _ m, beyond m) n) with
                      | Some i => Ret (i, push c (zget (nChildren n) i) i)
                      | None => Ret (-1, c)
                      end in
  GotoFirstChildForByte c targetByte = first (λ m, targetByte <? nEnd m) ∧
  GotoFirstChildForPoint c targetPoint = first (λ m, pointGreaterThan (nEndPoint m) targetPoint).
Proof.
  intros Hrep Ht Hlen Hkinds first. pose proof (represents_at _ _ _ _ Hrep) as Hat.
  pose proof (at_path_nested root p n 0 (len src) (to_nested _ _ Ht) Hat) as Hn.
  assert (∀ i a, zget (nChildren n) i = Some a → 0 ≤ nEnd a ≤ len src ∧
    nKind a ≠ KindNoTreeNode ∧ nEndPoint a = offset_point src (nEnd a)) as Hchild.
  { intros i a Ha. assert (at_path root (i :: p) = Some a) as Hap by (cbn; by rewrite Hat).
    pose proof (nested_bounds _ _ _ (at_path_nested root _ a _ _ (to_nested _ _ Ht) Hap)) as Hb.
    apply at_path_preorder in Hap. pose proof (to_points _ _ Ht) as Hh.
    rewrite list.Forall_forall in Hkinds, Hh. specialize (Hkinds a Hap).
    destruct (Hh a Hap Hkinds) as [_ ?]. split_and!; [lia..|done|done]. }
  split; unfold GotoFirstChildForByte, GotoFirstChildForPoint.
  - apply (goto_first_where_spec root c p n); [done|]. intros i j a b Hij Ha Hb H.
    pose proof (nested_ends_sorted n _ _ i j a b Hn Hij Ha Hb). lia.
  - rewrite (goto_first_where_spec root c p n); [|done|].
    + unfold first. assert (child_indices (λ _ m, pointGreaterThan (entry_end_point m) targetPoint) n =
        child_indices (λ _ m, pointGreaterThan (nEndPoint m) targetPoint) n) as ->; [|done].
      unfold child_indices. apply list_filter_iff. intros i. destruct (zget (nChildren n) i) as [a|] eqn:Ha; [|done].
      destruct (Hchild i a Ha) as (_ & Hk & _). unfold entry_end_point. by rewrite decide_False.
    + intros i j a b Hij Ha Hb. destruct (Hchild i a Ha) as (Ra & Ka & Pa), (Hchild j b Hb) as (Rb & Kb & Pb).
      unfold entry_end_point. rewrite !decide_False, Pa, Pb by done.
      apply offset_point_mono; [lia| |lia|done]. by apply (nested_ends_sorted n _ _ i j a b Hn).
Qed.

(** [Walk] is the recursive pre-order traversal: whatever the callback
    does, including skipping children and stopping early, the loop terminates
    within one iteration per node and leaves the state the recursion leaves; a
    callback that always continues sees every node once, in document order. *)
Theorem Walk_is_preorder {S} (fn : S → Node → Z → WalkAction * S) n s :
  Walk fn (length (preorder n)) (Some n) s = Ret (visit fn 0 n s).2 ∧
  Walk (λ l m _, (WalkContinue, l ++ [m])) (length (preorder n)) (Some n) [] = Ret (preorder n).
Proof.
  assert (∀ (T : Type) (f : T → Node → Z → WalkAction * T) t, Walk f (length (preorder n)) (Some n) t = Ret (visit f 0 n t).2) as Hw.
  { intros T f t. unfold Walk. rewrite walk_stack_visits by (unfold stack_size; cbn; lia). cbn.
    by destruct (visit f 0 n t) as [[] ?]. }
  split; [apply Hw|]. rewrite Hw. f_equal.
  assert (∀ m d l, visit (λ l m _, (WalkContinue, l ++ [m])) d m l = (false, l ++ preorder m)) as Hv;
    [|by rewrite Hv].
  clear. intros m. induction m as [k rf sy sb eb sp ep b cs IH] using Node_tree_ind. intros d l.
  rewrite visit_eq. cbn [nChildren preorder].
  rewrite (cons_middle (mkNode k rf sy sb eb sp ep b cs) l (flat_map preorder cs)), app_assoc.
  generalize (l ++ [mkNode k rf sy sb eb sp ep b cs]). clear l.
  induction IH as [|c cs Hc _ IHcs]; intros l; cbn [visit_children flat_map]; [by rewrite app_nil_r|].
  rewrite Hc, IHcs. by rewrite <-app_assoc.
Qed.

(** From the second leaf of the sample tree back to the first. *)
Definition sample_cursor : TreeCursor := (GotoLastChild (NewTreeCursor (Some sample_tree) None)).2.

Lemma cursor_refines_path_witness :
  ∃ c', do_move MPrevSibling sample_cursor = (true, c') ∧ CurrentNode c' = zget (nChildren sample_tree) 0 ∧
    do_move MNextSibling sample_cursor = (false, sample_cursor).
Proof.
  assert (represents sample_tree (tcStack sample_cursor) [1] (mkNode KindNode false (leaf_info 3) 3 5 (mkPoint 1 0) (mkPoint 1 2) false []))
    as Hrep by (eapply rep_child; [constructor|reflexivity]).
  destruct (cursor_refines_path _ _ _ _ MPrevSibling Hrep) as (_ & _ & c' & n' & Hm & Hr & _).
  exists c'. split_and!; [exact Hm| |].
  - destruct (cursor_refines_path _ _ _ _ MParent Hr) as [-> _]. symmetry. exact (represents_at _ _ _ _ Hr).
  - exact (proj2 (proj2 (cursor_refines_path _ _ _ _ MNextSibling Hrep))).
Defined.

Lemma goto_first_child_for_exact_witness :
  GotoFirstChildForByte (NewTreeCursor (Some sample_tree) None) 2 =
  Ret (1, push (NewTreeCursor (Some sample_tree) None) (zget (nChildren sample_tree) 1) 1).
Proof.
  refine (proj1 (goto_first_child_for_exact sample_old sample_tree (NewTreeCursor (Some sample_tree) None) []
    sample_tree 2 (mkPoint 0 0) _ sample_tree_of _ _)).
  - constructor.
  - reflexivity.
  - repeat (constructor; [done|]). constructor.
Defined.
