(* ===== verification/StateError.v ===== *)
(** * State and errors

    The monad of the grammargen routines that mutate one object through many
    calls and give up with an error: a state is threaded through, an error
    carries no state (every caller abandons the object), and a panic is kept
    apart from an error. *)

From Stdlib Require Import ZArith Lia.
From stdpp Require Import base tactics list numbers option.
From S2P Require Import Prelude.

Definition ste (S E A : Type) : Type := S → go (E + A * S).

#[export] Instance ste_ret S E : MRet (ste S E) := λ A a s, Ret (inr (a, s)).
#[export] Instance ste_bind S E : MBind (ste S E) := λ A B f m s,
  match m s with
  | Ret (inr (a, s)) => f a s
  | Ret (inl e) => Ret (inl e)
  | Panic => Panic
  | NoFuel => NoFuel
  end.

Definition fail {S E A} (e : E) : ste S E A := λ _, Ret (inl e).
Definition getS {S E} : ste S E S := λ s, Ret (inr (s, s)).
Definition putS {S E} (s : S) : ste S E () := λ _, Ret (inr ((), s)).

(** A step that may panic, without errors of its own. *)
Definition lift_go {S E A} (m : go A) : ste S E A := λ s, a ← m; Ret (inr (a, s)).

Section laws.
Context {S E : Type}.

Lemma ste_bind_ok {A B} (f : A → ste S E B) (m : ste S E A) s a s' :
  m s = Ret (inr (a, s')) → (m ≫= f) s = f a s'.
Proof. unfold mbind, ste_bind. by intros ->. Qed.

Lemma ste_bind_err {A B} (f : A → ste S E B) (m : ste S E A) s e :
  m s = Ret (inl e) → (m ≫= f) s = Ret (inl e).
Proof. unfold mbind, ste_bind. by intros ->. Qed.

Lemma ste_bind_inv {A B} (f : A → ste S E B) (m : ste S E A) s b s' :
  (m ≫= f) s = Ret (inr (b, s')) →
  ∃ a s1, m s = Ret (inr (a, s1)) ∧ f a s1 = Ret (inr (b, s')).
Proof. unfold mbind, ste_bind. repeat case_match; naive_solver. Qed.

End laws.
