(* ===== verification/Regex.v ===== *)
(** * Regular expressions of terminals

    The syntax trees of grammargen/regex.go and the rune-range arithmetic of
    nfa.go and regex.go: sorting and merging, complement, subtraction and
    intersection.  The language of a tree is given as a predicate on rune
    strings; the NFA builder is proved against it. *)

From Stdlib Require Import ZArith Lia ZifyBool.
From stdpp Require Import base tactics list numbers option sorting.
From S2P Require Import Prelude Utf8 SliceSort.
Local Open Scope Z_scope.

(** Go's regexKind is an integer type: [regexOther] stands for the values that
    are none of its constants. *)
Inductive regexKind :=
| regexLiteral | regexCharClass | regexDot | regexSeq | regexAlt | regexStar
| regexPlus | regexQuestion | regexCount | regexOther (k : Z).

Record runeRange := mkRuneRange { rlo : Z; rhi : Z }.

#[export] Instance runeRange_eq_dec : EqDecision runeRange.
Proof. solve_decision. Defined.

(** A [*regexNode]: nil or a node. *)
Inductive regexNode :=
| NilNode
| mkNode (kind : regexKind) (children : list regexNode) (runes : list runeRange)
    (negate : bool) (value : Z) (count countMax : Z).

(** Induction with a hypothesis for every child. *)
Section induction.
Context (P : regexNode → Prop) (Hnil : P NilNode).
Context (Hnode : ∀ kind children runes negate value count countMax,
  Forall P children → P (mkNode kind children runes negate value count countMax)).

Fixpoint regexNode_nested_ind (node : regexNode) : P node :=
  match node with
  | NilNode => Hnil
  | mkNode kind children runes negate value count countMax =>
    Hnode kind children runes negate value count countMax
      ((fix all (cs : list regexNode) : Forall P cs :=
          match cs with
          | [] => Forall_nil_2 P
          | c :: cs => Forall_cons_2 P c cs (regexNode_nested_ind c) (all cs)
          end) children)
  end.
End induction.

Definition literalNode (v : Z) : regexNode := mkNode regexLiteral [] [] false v 0 0.
Definition classNode (runes : list runeRange) (negate : bool) : regexNode :=
  mkNode regexCharClass [] runes negate 0 0 0.
Definition dotNode : regexNode := mkNode regexDot [] [] false 0 0 0.
Definition groupNode (kind : regexKind) (children : list regexNode) : regexNode :=
  mkNode kind children [] false 0 0 0.
Definition countNode (c : regexNode) (min max : Z) : regexNode :=
  mkNode regexCount [c] [] false 0 min max.

(** The errors of the parser; their messages are left out. *)
Inductive regexError :=
| ExpectedGroupEnd | UnexpectedChar | UnterminatedCount | InvalidCount | UnexpectedEnd
| UnterminatedClass | ExpectedClass | IntersectionClass (e : regexError)
| UnexpectedEndInClass | UnexpectedEndAfterEscape | ExpectedProperty | UnterminatedProperty
| UnsupportedProperty | UnterminatedEscape | InvalidEscape | IncompleteEscape
| EscapeAboveMaxRune.

(** ** Rune ranges *)

Definition maxSupportedRune : Z := 0x10FFFF.

(** The insertion sort of [mergeRanges]: one element sinks into the sorted
    prefix, which is kept last element first. *)
Fixpoint sink (x : runeRange) (prefix : list runeRange) : list runeRange :=
  match prefix with
  | [] => [x]
  | y :: prefix => if rlo x <? rlo y then y :: sink x prefix else x :: y :: prefix
  end.

Definition sort_by_lo (ranges : list runeRange) : list runeRange :=
  reverse (foldl (λ prefix x, sink x prefix) [] ranges).

(** One round of the merging loop; the result is kept last element first. *)
Definition merge_range (result : list runeRange) (r : runeRange) : list runeRange :=
  match result with
  | [] => [r]
  | last :: rest =>
    if rlo r <=? i32 (rhi last + 1) then
      if rhi last <? rhi r then mkRuneRange (rlo last) (rhi r) :: rest else last :: rest
    else r :: last :: rest
  end.

Definition mergeRanges (ranges : list runeRange) : list runeRange :=
  match ranges with
  | [] => []
  | _ => reverse (foldl merge_range [] (sort_by_lo ranges))
  end.

(** The sweep of [complementRanges] over merged ranges from [pos]. *)
Fixpoint gaps (pos : Z) (sorted : list runeRange) : list runeRange :=
  match sorted with
  | [] => if pos <=? maxSupportedRune then [mkRuneRange pos maxSupportedRune] else []
  | r :: sorted =>
    (if pos <? rlo r then [mkRuneRange pos (i32 (rlo r - 1))] else [])
    ++ gaps (i32 (rhi r + 1)) sorted
  end.

Definition complementRanges (ranges : list runeRange) : list runeRange :=
  match ranges with
  | [] => [mkRuneRange 0 maxSupportedRune]
  | _ => gaps 0 (mergeRanges ranges)
  end.

Definition in_rune (r : Z) (x : runeRange) : bool := (rlo x <=? r) && (r <=? rhi x).

(** Membership of a rune in a list of ranges. *)
Definition has_rune (ranges : list runeRange) (r : Z) : bool := existsb (in_rune r) ranges.

Definition range_ok (x : runeRange) : bool :=
  (0 <=? rlo x) && (rlo x <=? rhi x) && (rhi x <=? maxSupportedRune).

(** ** Lemmas on ranges *)

Lemma has_rune_elem ranges r : has_rune ranges r = true ↔ ∃ x, x ∈ ranges ∧ rlo x ≤ r ≤ rhi x.
Proof.
  unfold has_rune, in_rune. rewrite existsb_exists. setoid_rewrite list_elem_of_In.
  split; intros (x & ? & ?); exists x; (split; [done|lia]).
Qed.

Lemma has_rune_perm l k r : l ≡ₚ k → has_rune l r = has_rune k r.
Proof. intros Hp. apply eq_true_iff_eq. rewrite !has_rune_elem. by setoid_rewrite Hp. Qed.

Lemma has_rune_app l k r : has_rune (l ++ k) r = has_rune l r || has_rune k r.
Proof. apply existsb_app. Qed.

Lemma has_rune_cons x l r : has_rune (x :: l) r = in_rune r x || has_rune l r.
Proof. done. Qed.

Lemma has_rune_nil r : has_rune [] r = false.
Proof. done. Qed.

Lemma sink_perm x l : sink x l ≡ₚ x :: l.
Proof.
  induction l as [|y l IH]; cbn; [done|]. case_match; [|done].
  rewrite IH. apply Permutation_swap.
Qed.

Lemma sink_foldl_perm l acc : foldl (λ p x, sink x p) acc l ≡ₚ acc ++ l.
Proof.
  revert acc. induction l as [|x l IH]; intros acc; cbn; [by rewrite app_nil_r|].
  rewrite IH, sink_perm. cbn. by rewrite Permutation_middle.
Qed.

Lemma sort_by_lo_perm l : sort_by_lo l ≡ₚ l.
Proof. unfold sort_by_lo. by rewrite reverse_Permutation, sink_foldl_perm. Qed.

Lemma sink_sorted x l :
  StronglySorted (λ a b, rlo b ≤ rlo a) l → StronglySorted (λ a b, rlo b ≤ rlo a) (sink x l).
Proof.
  induction 1 as [|y l Hl IH Hy]; cbn; [repeat constructor|].
  destruct (Z.ltb_spec (rlo x) (rlo y)); constructor; try done.
  - rewrite sink_perm. constructor; [lia|done].
  - by constructor.
  - constructor; [lia|]. eapply Forall_impl; [exact Hy|]. cbn. intros z Hz. lia.
Qed.

Lemma StronglySorted_reverse {A} (R : A → A → Prop) l :
  StronglySorted R l → StronglySorted (flip R) (reverse l).
Proof.
  induction 1 as [|x l Hl IH Hx]; [constructor|]. rewrite reverse_cons.
  apply StronglySorted_app_2; [|done|by constructor; constructor].
  intros a b Ha Hb. apply list_elem_of_singleton in Hb as ->.
  rewrite elem_of_reverse in Ha. unfold flip. rewrite list.Forall_forall in Hx. by apply Hx.
Qed.

Lemma sort_by_lo_sorted l : StronglySorted (λ a b, rlo a ≤ rlo b) (sort_by_lo l).
Proof.
  unfold sort_by_lo. apply StronglySorted_reverse.
  cut (∀ acc, StronglySorted (λ a b, rlo b ≤ rlo a) acc →
    StronglySorted (λ a b, rlo b ≤ rlo a) (foldl (λ p x, sink x p) acc l)).
  { intros H. apply H. constructor. }
  induction l as [|x l IH]; intros acc Hacc; cbn; [done|]. apply IH. by apply sink_sorted.
Qed.

(** Ranges below the end of the rune space, so that [hi + 1] does not wrap. *)
Definition rune_bound (x : runeRange) : Prop := - 2 ^ 31 ≤ rhi x < 2 ^ 31 - 1.

Lemma range_ok_spec x : range_ok x = true ↔ 0 ≤ rlo x ∧ rlo x ≤ rhi x ∧ rhi x ≤ maxSupportedRune.
Proof. unfold range_ok. lia. Qed.

Lemma range_ok_bound x : range_ok x = true → rune_bound x.
Proof. rewrite range_ok_spec. unfold rune_bound, maxSupportedRune. lia. Qed.

(** Merging from a partial result [acc], last element first, that starts no
    later than what is still to merge: no rune is lost or gained. *)
Lemma merge_has acc l r :
  Forall rune_bound acc → Forall rune_bound l → StronglySorted (λ a b, rlo a ≤ rlo b) l →
  (∀ x y, head acc = Some x → y ∈ l → rlo x ≤ rlo y) →
  has_rune (foldl merge_range acc l) r = has_rune acc r || has_rune l r.
Proof.
  intros Hacc Hl Hs. revert acc Hacc. induction Hs as [|y l Hs IH Hy]; intros acc Hacc Hh; cbn [foldl].
  { by rewrite has_rune_nil, orb_false_r. }
  apply Forall_cons in Hl as [Hb Hl]. rewrite list.Forall_forall in Hy.
  assert (Forall rune_bound (merge_range acc y)) as Hacc'.
  { destruct acc as [|x acc]; cbn; [by apply Forall_singleton|]. apply Forall_cons in Hacc as [??].
    repeat case_match; by repeat apply Forall_cons_2. }
  rewrite IH; [|done..|].
  - assert (has_rune (merge_range acc y) r = has_rune acc r || in_rune r y) as ->.
    { destruct acc as [|x acc]; cbn [merge_range]; [by rewrite has_rune_cons, orb_false_r|].
      apply Forall_cons in Hacc as [Hx _]. pose proof (Hh x y eq_refl ltac:(left)).
      unfold rune_bound in Hx. rewrite i32_id by lia.
      destruct (Z.leb_spec (rlo y) (rhi x + 1)), (Z.ltb_spec (rhi x) (rhi y));
        rewrite !has_rune_cons; unfold in_rune; cbn [rlo rhi]; lia. }
    by rewrite has_rune_cons, orb_assoc.
  - intros x z Hx Hz. destruct acc as [|x0 acc]; cbn in Hx; [simplify_eq; by apply Hy|].
    pose proof (Hh x0 z eq_refl ltac:(by right)). pose proof (Hy z Hz).
    repeat case_match; cbn in Hx; simplify_eq; cbn; lia.
Qed.

Lemma Forall_sort_by_lo (P : runeRange → Prop) l : Forall P l → Forall P (sort_by_lo l).
Proof. by rewrite sort_by_lo_perm. Qed.

(** Merging keeps the set of runes, whatever the order and overlap, even with
    reversed (empty) ranges. *)
Lemma mergeRanges_has ranges r :
  Forall rune_bound ranges → has_rune (mergeRanges ranges) r = has_rune ranges r.
Proof.
  intros Hb. destruct ranges as [|x l]; [done|]. unfold mergeRanges.
  rewrite (has_rune_perm _ _ _ (reverse_Permutation _)), merge_has; [|done| | |done].
  - rewrite has_rune_nil. apply has_rune_perm, sort_by_lo_perm.
  - by apply Forall_sort_by_lo.
  - apply sort_by_lo_sorted.
Qed.

(** Merged ranges are well formed, in order, and leave a gap between two. *)
Definition separated (a b : runeRange) : Prop := rhi a + 1 < rlo b.

Lemma merge_separated acc l :
  Forall (λ x, range_ok x = true) acc → Forall (λ x, range_ok x = true) l →
  StronglySorted (λ a b, rlo a ≤ rlo b) l → StronglySorted (flip separated) acc →
  (∀ x y, head acc = Some x → y ∈ l → rlo x ≤ rlo y) →
  Forall (λ x, range_ok x = true) (foldl merge_range acc l)
  ∧ StronglySorted (flip separated) (foldl merge_range acc l).
Proof.
  intros Hacc Hl Hs. revert acc Hacc. induction Hs as [|y l Hs IH Hy]; intros acc Hacc Hsep Hh; cbn; [done|].
  apply Forall_cons in Hl as [Hyk Hl]. rewrite list.Forall_forall in Hy.
  apply IH; [done|..].
  - destruct acc as [|x acc]; cbn; [by apply Forall_singleton|]. apply Forall_cons in Hacc as [Hx ?].
    rewrite range_ok_spec in Hx, Hyk.
    repeat case_match; repeat apply Forall_cons_2; try done; apply range_ok_spec; cbn; lia.
  - destruct acc as [|x acc]; cbn; [by repeat constructor|]. apply Forall_cons in Hacc as [Hx Ha].
    apply StronglySorted_inv in Hsep as [Hsep Hfx].
    pose proof (range_ok_bound _ Hx) as Hbx. unfold rune_bound in Hbx. rewrite i32_id by lia.
    destruct (Z.leb_spec (rlo y) (rhi x + 1)).
    + case_match; (constructor; [done|]); done.
    + constructor; [by constructor|]. constructor; [unfold separated; cbn; lia|].
      eapply Forall_impl; [exact Hfx|]. unfold separated. cbn. intros z Hz.
      rewrite range_ok_spec in Hx. lia.
  - intros x z Hx Hz. destruct acc as [|x0 acc]; cbn in Hx; [simplify_eq; by apply Hy|].
    pose proof (Hh x0 z eq_refl ltac:(by right)). pose proof (Hy z Hz).
    repeat case_match; cbn in Hx; simplify_eq; cbn; lia.
Qed.

Lemma mergeRanges_separated ranges :
  Forall (λ x, range_ok x = true) ranges →
  Forall (λ x, range_ok x = true) (mergeRanges ranges)
  ∧ StronglySorted separated (mergeRanges ranges).
Proof.
  intros Hok. destruct ranges as [|x l]; [repeat constructor|]. unfold mergeRanges.
  destruct (merge_separated [] (sort_by_lo (x :: l))) as [H1 H2]; try done.
  - by apply Forall_sort_by_lo.
  - apply sort_by_lo_sorted.
  - constructor.
  - split; [by rewrite reverse_Permutation|]. by apply StronglySorted_reverse in H2.
Qed.

Lemma gaps_from b q l y :
  b ≤ q → Forall (λ x, range_ok x = true) l → Forall (λ x, b ≤ rlo x) l →
  y ∈ gaps q l → b ≤ rlo y ∧ rhi y ≤ maxSupportedRune.
Proof.
  intros Hq Hk Hl. revert q Hq. induction l as [|z l IH]; intros q Hq; cbn.
  - case_match; [|by intros ?%elem_of_nil]. by intros ->%list_elem_of_singleton.
  - apply Forall_cons in Hk as [Hz Hk]. apply Forall_cons in Hl as [Hlz Hl].
    pose proof (range_ok_bound _ Hz) as Hbz. unfold rune_bound in Hbz.
    rewrite range_ok_spec in Hz. rewrite !i32_id by (unfold maxSupportedRune in *; lia).
    intros [Hin|Hin]%elem_of_app.
    + case_match; [|by apply elem_of_nil in Hin]. apply list_elem_of_singleton in Hin as ->.
      cbn. lia.
    + eapply IH; [done|done| |exact Hin]. lia.
Qed.

(** The sweep over separated ranges enumerates what they leave out. *)
Lemma gaps_has pos l r :
  0 ≤ pos → pos ≤ r ≤ maxSupportedRune →
  Forall (λ x, range_ok x = true) l → StronglySorted separated l →
  Forall (λ x, pos ≤ rlo x) l →
  has_rune (gaps pos l) r = negb (has_rune l r).
Proof.
  intros Hp Hr Hok Hs. revert pos Hp Hr. induction Hs as [|x l Hs IH Hx]; intros pos Hp Hr Hpos; cbn [gaps].
  { destruct (Z.leb_spec pos maxSupportedRune); [|lia]. cbn. unfold in_rune. cbn. lia. }
  apply Forall_cons in Hok as [Hk Hok]. apply Forall_cons in Hpos as [Hpx _].
  pose proof (range_ok_bound _ Hk) as Hb. unfold rune_bound in Hb. rewrite range_ok_spec in Hk.
  rewrite !i32_id by (unfold maxSupportedRune in *; lia).
  rewrite has_rune_app, has_rune_cons.
  assert (has_rune (if pos <? rlo x then [mkRuneRange pos (rlo x - 1)] else []) r = (r <? rlo x)) as ->.
  { case_match; cbn; unfold in_rune; cbn; lia. }
  assert (Forall (λ y, rhi x + 1 ≤ rlo y) l) as Hnext.
  { eapply Forall_impl; [exact Hx|]. unfold separated. intros; cbn in *; lia. }
  assert (r < rhi x + 1 → has_rune l r = false ∧ has_rune (gaps (rhi x + 1) l) r = false) as Hlow.
  { intros Hlt. split; apply not_true_iff_false; rewrite has_rune_elem; intros (y & Hy & Hin).
    - rewrite list.Forall_forall in Hnext. specialize (Hnext y Hy). lia.
    - pose proof (gaps_from (rhi x + 1) (rhi x + 1) _ _ ltac:(lia) Hok Hnext Hy). lia. }
  destruct (Z.lt_ge_cases r (rhi x + 1)) as [Hlt|Hge].
  - destruct (Hlow Hlt) as [-> ->]. unfold in_rune. lia.
  - rewrite IH; [unfold in_rune; lia|done|lia|lia|done].
Qed.

Lemma complementRanges_has ranges r :
  Forall (λ x, range_ok x = true) ranges →
  has_rune (complementRanges ranges) r
  = (0 <=? r) && (r <=? maxSupportedRune) && negb (has_rune ranges r).
Proof.
  intros Hok. destruct ranges as [|x l].
  { cbn [complementRanges]. rewrite has_rune_cons, !has_rune_nil. unfold in_rune; cbn [rlo rhi]. lia. }
  destruct (mergeRanges_separated _ Hok) as [Hm Hs].
  change (complementRanges (x :: l)) with (gaps 0 (mergeRanges (x :: l))).
  assert (Forall (λ y, 0 ≤ rlo y) (mergeRanges (x :: l))) as Hpos.
  { eapply Forall_impl; [exact Hm|]. cbn. intros y Hy%range_ok_spec. lia. }
  rewrite <-(mergeRanges_has (x :: l)) by (eapply Forall_impl; [exact Hok|apply range_ok_bound]).
  destruct (decide (0 ≤ r ≤ maxSupportedRune)) as [Hr|Hr].
  - rewrite (gaps_has 0) by done. lia.
  - apply eq_true_iff_eq. rewrite has_rune_elem. split; [|lia]. intros (y & Hy & Hin).
    pose proof (gaps_from 0 0 _ y ltac:(lia) Hm Hpos Hy). lia.
Qed.

Lemma gaps_ok pos l :
  0 ≤ pos → Forall (λ x, range_ok x = true) l → Forall (λ x, range_ok x = true) (gaps pos l).
Proof.
  intros Hp Hl. revert pos Hp. induction Hl as [|x l Hx Hl IH]; intros pos Hp; cbn [gaps].
  - case_match; [|constructor]. apply Forall_singleton, range_ok_spec. cbn. lia.
  - pose proof (range_ok_bound _ Hx) as Hb. unfold rune_bound in Hb. rewrite range_ok_spec in Hx.
    rewrite !i32_id by (unfold maxSupportedRune in *; lia). apply Forall_app. split; [|apply IH; lia].
    case_match; [|constructor]. apply Forall_singleton, range_ok_spec. cbn. lia.
Qed.

Lemma complementRanges_ok ranges :
  Forall (λ x, range_ok x = true) ranges → Forall (λ x, range_ok x = true) (complementRanges ranges).
Proof.
  intros Hok. destruct ranges as [|x l]; [by apply Forall_singleton|].
  apply gaps_ok; [done|]. by apply mergeRanges_separated.
Qed.

(** ** The language of a tree *)

Definition lang := list Z → Prop.

Definition lang_eps : lang := λ w, w = [].
Definition lang_cat (L K : lang) : lang := λ w, ∃ u v, w = u ++ v ∧ L u ∧ K v.
Definition lang_or (L K : lang) : lang := λ w, L w ∨ K w.

Fixpoint lang_pow (L : lang) (n : nat) : lang :=
  match n with O => lang_eps | S n => lang_cat L (lang_pow L n) end.

Definition lang_star (L : lang) : lang := λ w, ∃ n, lang_pow L n w.
Definition lang_plus (L : lang) : lang := λ w, ∃ n, lang_pow L (S n) w.

(** A single rune of a set. *)
Definition lang_rune (P : Z → Prop) : lang := λ w, ∃ r, w = [r] ∧ P r.

(** Repetition as the builder counts: at least [min] copies, then up to [max];
    [max = 0] means [min], and a negative [max] no bound, except that from two
    required copies on nothing more is accepted. *)
Definition lang_count (L : lang) (min max : Z) : lang :=
  if max <? 0 then
    if 2 <=? min then lang_pow L (Z.to_nat min)
    else lang_cat (lang_pow L (Z.to_nat min)) (lang_star L)
  else λ w, ∃ n : nat,
    min ≤ Z.of_nat n ≤ Z.max min (if max =? 0 then min else max) ∧ lang_pow L n w.

(** The concatenation and the union of a list of languages. *)
Definition lang_seq (Ls : list lang) : lang := foldr lang_cat lang_eps Ls.
Definition lang_any (Ls : list lang) : lang := λ w, Exists (λ L : lang, L w) Ls.

(** The first child's language, or the empty word for a node without one. *)
Definition on_first (f : lang → lang) (Ls : list lang) : lang :=
  match Ls with [] => lang_eps | L :: _ => f L end.

Fixpoint regex_lang (node : regexNode) : lang :=
  match node with
  | NilNode => lang_eps
  | mkNode kind children runes negate value count countMax =>
    let Ls := map regex_lang children in
    match kind with
    | regexLiteral => lang_rune (λ r, r = value)
    | regexCharClass =>
      if negate then lang_rune (λ r, 0 ≤ r ≤ MaxRune ∧ has_rune runes r = false)
      else lang_rune (λ r, has_rune runes r = true)
    | regexDot => lang_rune (λ r, 0 ≤ r ≤ MaxRune ∧ r ≠ 10)
    | regexSeq => lang_seq Ls
    | regexAlt => match Ls with [] => lang_eps | _ => lang_any Ls end
    | regexStar => on_first lang_star Ls
    | regexPlus => on_first lang_plus Ls
    | regexQuestion => on_first (lang_or lang_eps) Ls
    | regexCount => on_first (λ L, lang_count L count countMax) Ls
    | regexOther _ => λ _, False
    end
  end.
