(* ===== verification/RegexParse.v ===== *)
(** * The regular-expression parser

    grammargen/regex.go: the recursive-descent parser of terminal patterns, over
    the bytes of the pattern.  The state is the position.  The tables of Go's
    unicode package are an argument, with the [strconv] and [strings] functions
    the parser calls modelled here.  Recursion carries fuel: four calls per byte
    and a few to finish suffice, as every atom consumes a byte. *)

From Stdlib Require Import ZArith Lia ZifyBool String Ascii.
From stdpp Require Import base tactics list numbers option.
From S2P Require Import Prelude Utf8 StateError SliceSort Regex.
Local Open Scope Z_scope.

Definition bytes_of (s : string) : list Z :=
  map (λ a, Z.of_N (N_of_ascii a)) (list_ascii_of_string s).

(** ** strings and strconv *)

(** [strings.IndexByte]: the first position of a byte. *)
Fixpoint index_byte (s : list Z) (b : Z) : option Z :=
  match s with
  | [] => None
  | x :: s => if x =? b then Some 0 else (λ i, i + 1) <$> index_byte s b
  end.

(** [unicode.IsSpace]. *)
Definition is_space (r : Z) : bool :=
  in_range 9 13 r || (r =? 32) || (r =? 0x85) || (r =? 0xA0) || (r =? 0x1680)
  || in_range 0x2000 0x200A r || (r =? 0x2028) || (r =? 0x2029) || (r =? 0x202F)
  || (r =? 0x205F) || (r =? 0x3000).

Fixpoint trim_left (fuel : nat) (s : list Z) : list Z :=
  match fuel, s with
  | S fuel, _ :: _ =>
    let '(r, size) := DecodeRune s in
    if is_space r then trim_left fuel (drop (Z.to_nat size) s) else s
  | _, _ => s
  end.

Fixpoint trim_right (fuel : nat) (s : list Z) : list Z :=
  match fuel, s with
  | S fuel, _ :: _ =>
    let '(r, size) := DecodeLastRune s in
    if is_space r then trim_right fuel (take (length s - Z.to_nat size) s) else s
  | _, _ => s
  end.

Definition TrimSpace (s : list Z) : list Z :=
  let s := trim_left (length s) s in trim_right (length s) s.

Definition digit_value (b : Z) : option Z :=
  if in_range 48 57 b then Some (b - 48)
  else if in_range 97 102 b then Some (b - 87)
  else if in_range 65 70 b then Some (b - 55)
  else None.

(** The value of one or more digits in a base up to 16. *)
Fixpoint digits (base acc : Z) (s : list Z) : option Z :=
  match s with
  | [] => Some acc
  | b :: s =>
    d ← digit_value b;
    if d <? base then digits base (acc * base + d) s else None
  end.

Definition ParseUint (s : list Z) (base bits : Z) : option Z :=
  match s with
  | [] => None
  | _ => n ← digits base 0 s; if n <? 2 ^ bits then Some n else None
  end.

Definition Atoi (s : list Z) : option Z :=
  let '(neg, t) :=
    match s with
    | b :: t => if b =? 45 then (true, t) else if b =? 43 then (false, t) else (false, s)
    | [] => (false, s)
    end in
  match t with
  | [] => None
  | _ =>
    n ← digits 10 0 t;
    let v := if neg : bool then - n else n in
    if (- 2 ^ 63 <=? v) && (v <? 2 ^ 63) then Some v else None
  end.

(** ** Unicode tables *)

Record range_entry := mkRangeEntry { reLo : Z; reHi : Z; reStride : Z }.
Record RangeTable := mkRangeTable { R16 : list range_entry; R32 : list range_entry }.

(** The variables of the unicode package that the parser names. *)
Inductive utable :=
| uLetter | uLu | uLl | uLt | uLm | uLo | uNumber | uNd | uNl | uNo | uPunct | uSymbol
| uZ | uZs | uZl | uZp | uMark | uMn | uMc | uSm | uSo | uSk | uSc | uPc | uCc | uCf.

Record unicode := mkUnicode {
  utab : utable → RangeTable;
  IsLetter : Z → bool;
  Properties : list Z → option RangeTable;
  Categories : list Z → option RangeTable;
  Scripts : list Z → option RangeTable }.

Fixpoint stride_loop (fuel : nat) (c hi stride : Z) : go (list runeRange) :=
  if c <=? hi then
    match fuel with
    | O => NoFuel
    | S fuel => rest ← stride_loop fuel (i32 (c + stride)) hi stride; Ret (mkRuneRange c c :: rest)
    end
  else Ret [].

Definition entry_ranges (e : range_entry) : go (list runeRange) :=
  if reStride e =? 1 then Ret [mkRuneRange (reLo e) (reHi e)]
  else stride_loop (Z.to_nat (reHi e - reLo e + 1)) (reLo e) (reHi e) (reStride e).

Fixpoint entries_ranges (es : list range_entry) : go (list runeRange) :=
  match es with
  | [] => Ret []
  | e :: es => x ← entry_ranges e; rest ← entries_ranges es; Ret (x ++ rest)
  end.

Definition rangeTableToRuneRanges (t : RangeTable) : go (list runeRange) :=
  x ← entries_ranges (R16 t); y ← entries_ranges (R32 t); Ret (x ++ y).

Definition emojiRanges : list runeRange :=
  map (λ '(lo, hi), mkRuneRange lo hi)
    [(0x23, 0x23); (0x2A, 0x2A); (0x30, 0x39); (0xA9, 0xA9); (0xAE, 0xAE); (0x200D, 0x200D);
     (0x203C, 0x203C); (0x2049, 0x2049); (0x20E3, 0x20E3); (0x2122, 0x2122); (0x2139, 0x2139);
     (0x2194, 0x2199); (0x21A9, 0x21AA); (0x231A, 0x231B); (0x2328, 0x2328); (0x23CF, 0x23CF);
     (0x23E9, 0x23F3); (0x23F8, 0x23FA); (0x24C2, 0x24C2); (0x25AA, 0x25AB); (0x25B6, 0x25B6);
     (0x25C0, 0x25C0); (0x25FB, 0x25FE); (0x2600, 0x27BF); (0x2934, 0x2935); (0x2B05, 0x2B07);
     (0x2B1B, 0x2B1C); (0x2B50, 0x2B50); (0x2B55, 0x2B55); (0x3030, 0x3030); (0x303D, 0x303D);
     (0x3297, 0x3297); (0x3299, 0x3299); (0xFE0F, 0xFE0F); (0x1F000, 0x1FAFF)].

(** The names of single tables. *)
Definition property_names : list (string * utable) :=
  [("L", uLetter); ("Letter", uLetter); ("Lu", uLu); ("Uppercase_Letter", uLu);
   ("Ll", uLl); ("Lowercase_Letter", uLl); ("Lt", uLt); ("Titlecase_Letter", uLt);
   ("Lm", uLm); ("Modifier_Letter", uLm); ("Lo", uLo); ("Other_Letter", uLo);
   ("N", uNumber); ("Number", uNumber); ("Nd", uNd); ("Decimal_Number", uNd);
   ("Decimal_Digit", uNd); ("Nl", uNl); ("Letter_Number", uNl); ("No", uNo);
   ("Other_Number", uNo); ("P", uPunct); ("Punctuation", uPunct); ("S", uSymbol);
   ("Symbol", uSymbol); ("Z", uZ); ("Separator", uZ); ("Zs", uZs); ("Space_Separator", uZs);
   ("Zl", uZl); ("Line_Separator", uZl); ("Zp", uZp); ("Paragraph_Separator", uZp);
   ("M", uMark); ("Mark", uMark); ("Mn", uMn); ("Nonspacing_Mark", uMn); ("Mc", uMc);
   ("Spacing_Mark", uMc); ("Sm", uSm); ("Math_Symbol", uSm); ("So", uSo); ("Other_Symbol", uSo);
   ("Sk", uSk); ("Modifier_Symbol", uSk); ("Sc", uSc); ("Currency_Symbol", uSc); ("Pc", uPc);
   ("Connector_Punctuation", uPc); ("Cc", uCc); ("Control", uCc); ("Cf", uCf); ("Format", uCf)]%string.

Definition named_table (name : list Z) : option utable :=
  snd <$> head (filter (λ e : string * utable, bytes_of e.1 = name) property_names).

Section parser.
Context `{SliceSort} (U : unicode).

(** The tables that make up a property, in the order they are joined. *)
Fixpoint join_tables (ts : list utable) : go (list runeRange) :=
  match ts with
  | [] => Ret []
  | t :: ts =>
    x ← rangeTableToRuneRanges (utab U t); rest ← join_tables ts; Ret (x ++ rest)
  end.

Definition is_name (name : list Z) (names : list string) : bool :=
  existsb (λ n, bool_decide (bytes_of n = name)) names.

Definition unicodePropertyRanges (name : list Z) : go (regexError + list runeRange) :=
  let found t := x ← t; Ret (inr x) in
  match named_table name with
  | Some t => found (rangeTableToRuneRanges (utab U t))
  | None =>
    if is_name name ["XID_Start"; "ID_Start"]%string then found (join_tables [uLetter; uNl])
    else if is_name name ["XID_Continue"; "ID_Continue"]%string
    then found (join_tables [uLetter; uNl; uMn; uMc; uNd; uPc])
    else match Properties U name, Categories U name, Scripts U name with
    | Some t, _, _ | None, Some t, _ | None, None, Some t => found (rangeTableToRuneRanges t)
    | None, None, None =>
      if is_name name ["Emoji"]%string then Ret (inr emojiRanges)
      else if is_name name ["EMod"; "Emoji_Modifier"]%string
      then Ret (inr [mkRuneRange 0x1F3FB 0x1F3FF])
      else Ret (inl UnsupportedProperty)
    end
  end.

(** ** Differences and intersections of classes *)

Definition range_lo_less (a b : runeRange) : bool := rlo a <? rlo b.

(** Step back over the subtracted ranges that still reach [lo]. *)
Fixpoint step_back (fuel : nat) (sub : list runeRange) (si lo : Z) : go Z :=
  if 0 <? si then
    x ← index sub (si - 1);
    if lo <=? rhi x then
      match fuel with O => NoFuel | S fuel => step_back fuel sub (si - 1) lo end
    else Ret si
  else Ret si.

(** The inner loop of [subtractRuneRanges] for the base range [b]. *)
Fixpoint subtract_loop (fuel : nat) (sub : list runeRange) (b : runeRange) (si lo : Z)
    (result : list runeRange) : go (Z * Z * list runeRange) :=
  if si <? len sub then
    s ← index sub si;
    if rlo s <=? rhi b then
      match fuel with
      | O => NoFuel
      | S fuel =>
        if rhi s <? lo then subtract_loop fuel sub b (si + 1) lo result else
        let result := if lo <? rlo s then result ++ [mkRuneRange lo (i32 (rlo s - 1))] else result in
        let lo := i32 (rhi s + 1) in
        if rhi b <? lo then Ret (si, lo, result) else subtract_loop fuel sub b (si + 1) lo result
      end
    else Ret (si, lo, result)
  else Ret (si, lo, result).

Fixpoint subtract_bases (base sub : list runeRange) (si : Z) (result : list runeRange)
  : go (list runeRange) :=
  match base with
  | [] => Ret result
  | b :: base =>
    si ← step_back (length sub) sub si (rlo b);
    '(si, lo, result) ← subtract_loop (length sub) sub b si (rlo b) result;
    subtract_bases base sub si
      (if lo <=? rhi b then result ++ [mkRuneRange lo (rhi b)] else result)
  end.

Definition subtractRuneRanges (base sub : list runeRange) : go (list runeRange) :=
  subtract_bases (sort_slice range_lo_less base) (sort_slice range_lo_less sub) 0 [].

(** The two-pointer walk of [intersectRuneRanges], on the ranges from the two
    pointers on. *)
Fixpoint intersect_loop (fuel : nat) (base keep : list runeRange) : list runeRange :=
  match fuel, base, keep with
  | S fuel, b :: base', k :: keep' =>
    let lo := if rlo b <? rlo k then rlo k else rlo b in
    let hi := if rhi k <? rhi b then rhi k else rhi b in
    (if lo <=? hi then [mkRuneRange lo hi] else [])
    ++ (if rhi b <? rhi k then intersect_loop fuel base' keep else intersect_loop fuel base keep')
  | _, _, _ => []
  end.

Definition intersectRuneRanges (base keep : list runeRange) : list runeRange :=
  intersect_loop (length base + length keep)
    (sort_slice range_lo_less base) (sort_slice range_lo_less keep).

(** ** Parsing *)

Section input.
Context (input : list Z).

Definition parser : Type → Type := ste Z regexError.

Definition peek : parser (option Z) := λ pos,
  if len input <=? pos then Ret (inr (None, pos)) else
  rest ← gslice input pos (len input);
  Ret (inr (Some (DecodeRune rest).1, pos)).

Definition advance : parser Z := λ pos,
  rest ← gslice input pos (len input);
  let '(r, size) := DecodeRune rest in Ret (inr (r, pos + size)).

Definition get_pos : parser Z := getS.
Definition set_pos (pos : Z) : parser () := putS pos.

(** [p.peek()] and a test of the rune. *)
Definition peek_is (c : Z) : parser bool :=
  r ← peek; mret (bool_decide (r = Some c)).

(** Advance to the closing brace, which is left to the caller. *)
Fixpoint until_brace (fuel : nat) (e : regexError) : parser () :=
  match fuel with
  | O => λ _, NoFuel
  | S fuel =>
    r ← peek;
    match r with
    | None => fail e
    | Some r => if r =? 125 then mret () else advance;; until_brace fuel e
    end
  end.

(** The text up to the closing brace, which is consumed. *)
Definition braced (e : regexError) : parser (list Z) :=
  start ← get_pos;
  until_brace (S (length input)) e;;
  pos ← get_pos;
  content ← lift_go (gslice input start pos);
  advance;;
  mret content.

Definition or_fail {A} (e : regexError) (o : option A) : parser A :=
  match o with Some a => mret a | None => fail e end.

Definition parseCount : parser (Z * Z) :=
  advance;;
  content ← braced UnterminatedCount;
  match index_byte content 44 with
  | Some idx =>
    min ← or_fail InvalidCount (Atoi (TrimSpace (slice content 0 idx)));
    let maxStr := TrimSpace (slice content (idx + 1) (len content)) in
    if bool_decide (maxStr = []) then mret (min, -1) else
    max ← or_fail InvalidCount (Atoi maxStr);
    mret (min, max)
  | None => n ← or_fail InvalidCount (Atoi content); mret (n, n)
  end.

(** The braced form of the three numeric escapes: the number in hexadecimal. *)
Definition braced_hex : parser Z := λ pos,
  rest ← gslice input (pos + 1) (len input);
  match index_byte rest 125 with
  | None => Ret (inl UnterminatedEscape)
  | Some end_ =>
    hex ← gslice input (pos + 1) (pos + 1 + end_);
    Ret (match ParseUint hex 16 32 with
         | None => inl InvalidEscape
         | Some n => inr (n, pos + 1 + end_ + 1)
         end)
  end.

(** The form with exactly [n] digits. *)
Definition fixed_hex (n bits : Z) : parser Z := λ pos,
  if len input <? pos + n then Ret (inl IncompleteEscape) else
  hex ← gslice input pos (pos + n);
  Ret (match ParseUint hex 16 bits with
       | None => inl InvalidEscape
       | Some v => inr (v, pos + n)
       end).

(** [p.pos < len(p.input) && p.input[p.pos] == '{']. *)
Definition at_open_brace : parser bool := λ pos,
  if pos <? len input then b ← index input pos; Ret (inr (b =? 123, pos)) else Ret (inr (false, pos)).

Definition parseHexEscape : parser Z :=
  b ← at_open_brace;
  n ← (if (b : bool) then braced_hex else fixed_hex 2 8);
  mret (i32 n).

Definition parseUnicodeEscape : parser Z :=
  b ← at_open_brace;
  n ← (if (b : bool) then braced_hex else fixed_hex 4 32);
  mret (i32 n).

Definition parseLongUnicodeEscape : parser Z :=
  b ← at_open_brace;
  n ← (if (b : bool) then braced_hex else fixed_hex 8 32);
  if MaxRune <? n then fail EscapeAboveMaxRune else mret (i32 n).

Definition parseEscapeChar : parser Z :=
  r ← peek;
  match r with
  | None => fail UnexpectedEndAfterEscape
  | Some r =>
    advance;;
    if r =? 110 then mret 10        (* n *)
    else if r =? 114 then mret 13   (* r *)
    else if r =? 116 then mret 9    (* t *)
    else if r =? 97 then mret 7     (* a *)
    else if r =? 98 then mret 8     (* b *)
    else if r =? 102 then mret 12   (* f *)
    else if r =? 118 then mret 11   (* v *)
    else if r =? 48 then mret 0     (* 0 *)
    else if r =? 117 then parseUnicodeEscape
    else if r =? 85 then parseLongUnicodeEscape
    else if r =? 120 then parseHexEscape
    else mret r
  end.

Definition lift_err {A} (m : go (regexError + A)) : parser A := λ pos,
  r ← m; Ret (match r with inl e => inl e | inr a => inr (a, pos) end).

Definition parseUnicodeProperty : parser (list runeRange) :=
  r ← peek;
  match r with
  | None => fail ExpectedProperty
  | Some r =>
    if negb (r =? 123) then
      if IsLetter U r then advance;; lift_err (unicodePropertyRanges (EncodeRune r))
      else fail ExpectedProperty
    else
      advance;;
      name ← braced UnterminatedProperty;
      lift_err (unicodePropertyRanges name)
  end.

(** [\s], [\d] and [\w]. *)
Definition space_class : list runeRange :=
  map (λ c, mkRuneRange c c) [32; 9; 10; 13; 12; 11].
Definition digit_class : list runeRange := [mkRuneRange 48 57].
Definition word_class : list runeRange :=
  [mkRuneRange 97 122; mkRuneRange 65 90; mkRuneRange 48 57; mkRuneRange 95 95].

Definition parseEscape : parser regexNode :=
  advance;;
  r ← peek;
  match r with
  | None => fail UnexpectedEndAfterEscape
  | Some r =>
    if r =? 100 then advance;; mret (classNode digit_class false)
    else if r =? 68 then advance;; mret (classNode digit_class true)
    else if r =? 119 then advance;; mret (classNode word_class false)
    else if r =? 87 then advance;; mret (classNode word_class true)
    else if r =? 115 then advance;; mret (classNode space_class false)
    else if r =? 83 then advance;; mret (classNode space_class true)
    else if r =? 112 then
      advance;; ranges ← parseUnicodeProperty; mret (classNode ranges false)
    else if r =? 80 then
      advance;; ranges ← parseUnicodeProperty; mret (classNode ranges true)
    else ch ← parseEscapeChar; mret (literalNode ch)
  end.

(** ** Character classes *)

Definition parseCharClassChar : parser Z :=
  r ← peek;
  match r with
  | None => fail UnexpectedEndInClass
  | Some r => if r =? 92 then advance;; parseEscapeChar else advance;; mret r
  end.

(** The byte after the current one, when there is one. *)
Definition next_byte : parser (option Z) := λ pos, Ret (inr (zget input (pos + 1), pos)).

(** The shorthand classes inside a class: what they add, with the two runes of
    the escape consumed. *)
Definition class_shorthand (next : Z) : option (parser (list runeRange)) :=
  if (next =? 112) || (next =? 80) then Some (advance;; advance;; parseUnicodeProperty)
  else if next =? 115 then Some (advance;; advance;; mret space_class)
  else if next =? 83 then Some (advance;; advance;; mret (complementRanges space_class))
  else if next =? 100 then Some (advance;; advance;; mret digit_class)
  else if next =? 68 then Some (advance;; advance;; mret (complementRanges digit_class))
  else if next =? 119 then Some (advance;; advance;; mret word_class)
  else if next =? 87 then Some (advance;; advance;; mret (complementRanges word_class))
  else None.

(** A character or a range. *)
Definition class_range : parser runeRange :=
  ch ← parseCharClassChar;
  dash ← peek_is 45;
  if (dash : bool) then
    saved ← get_pos;
    advance;;
    r3 ← peek;
    match r3 with
    | Some r3 =>
      if r3 =? 93 then set_pos saved;; mret (mkRuneRange ch ch)
      else hi ← parseCharClassChar; mret (mkRuneRange ch hi)
    | None => set_pos saved;; mret (mkRuneRange ch ch)
    end
  else mret (mkRuneRange ch ch).

Definition wrap_intersection {A} (m : parser A) : parser A := λ pos,
  r ← m pos; Ret (match r with inl e => inl (IntersectionClass e) | inr x => inr x end).

(** [&&[...]]: subtract or intersect the inner class. *)
Definition combine_class (ranges : list runeRange) (inner : regexNode) : parser (list runeRange) :=
  match inner with
  | mkNode _ _ runes negate _ _ _ =>
    if negate then lift_go (subtractRuneRanges ranges runes)
    else mret (intersectRuneRanges ranges runes)
  | NilNode => mret ranges
  end.

(** What stands before a class item: the item is a shorthand, an intersection
    or a range. *)
Fixpoint class_loop (fuel : nat) (negate first : bool) (ranges : list runeRange) : parser regexNode :=
  match fuel with
  | O => λ _, NoFuel
  | S fuel =>
    r ← peek;
    match r with
    | None => fail UnterminatedClass
    | Some r =>
      if (r =? 93) && negb first then advance;; mret (classNode ranges negate) else
      next ← next_byte;
      match (if r =? 92 then next ≫= class_shorthand else None) with
      | Some m => more ← m; class_loop fuel negate false (ranges ++ more)
      | None =>
        if (r =? 38) && bool_decide (next = Some 38) then
          advance;; advance;;
          open ← peek_is 91;
          if (open : bool) then
            inner ← wrap_intersection (
              advance;;
              caret ← peek_is 94;
              (if (caret : bool) then advance;; mret () else mret ());;
              class_loop fuel caret true []);
            ranges ← combine_class ranges inner;
            class_loop fuel negate false ranges
          else fail ExpectedClass
        else
          x ← class_range;
          class_loop fuel negate false (ranges ++ [x])
      end
    end
  end.

Definition parseCharClass : parser regexNode :=
  advance;;
  caret ← peek_is 94;
  (if (caret : bool) then advance;; mret () else mret ());;
  class_loop (S (length input)) caret true [].

(** ** Atoms, sequences and alternatives *)

(** The opening of a group: [(], then [?] and [:] when they follow. *)
Definition group_open : parser () :=
  advance;;
  q ← peek_is 63;
  if (q : bool) then
    advance;;
    colon ← peek_is 58;
    if (colon : bool) then advance;; mret () else mret ()
  else mret ().

Definition quantify (atom : regexNode) : parser regexNode :=
  r ← peek;
  match r with
  | Some 42 => advance;; mret (groupNode regexStar [atom])
  | Some 43 => advance;; mret (groupNode regexPlus [atom])
  | Some 63 => advance;; mret (groupNode regexQuestion [atom])
  | Some 123 => λ saved,
    match parseCount saved with
    | Ret (inl _) => Ret (inr (atom, saved))
    | Ret (inr ((min, max), pos)) => Ret (inr (countNode atom min max, pos))
    | Panic => Panic
    | NoFuel => NoFuel
    end
  | _ => mret atom
  end.

Definition seq_node (items : list regexNode) : regexNode :=
  match items with [item] => item | _ => groupNode regexSeq items end.

Fixpoint parseAlt (fuel : nat) : parser regexNode :=
  match fuel with
  | O => λ _, NoFuel
  | S fuel =>
    left ← parseSeq fuel [];
    bar ← peek_is 124;
    if (bar : bool) then alts ← parseAlts fuel [left]; mret (groupNode regexAlt alts)
    else mret left
  end
with parseAlts (fuel : nat) (alts : list regexNode) : parser (list regexNode) :=
  match fuel with
  | O => λ _, NoFuel
  | S fuel =>
    bar ← peek_is 124;
    if (bar : bool) then
      advance;; alt ← parseSeq fuel []; parseAlts fuel (alts ++ [alt])
    else mret alts
  end
with parseSeq (fuel : nat) (items : list regexNode) : parser regexNode :=
  match fuel with
  | O => λ _, NoFuel
  | S fuel =>
    r ← peek;
    match r with
    | Some r =>
      if (r =? 124) || (r =? 41) then mret (seq_node items) else
      atom ← parseQuantified fuel;
      parseSeq fuel (items ++ [atom])
    | None => mret (seq_node items)
    end
  end
with parseQuantified (fuel : nat) : parser regexNode :=
  match fuel with
  | O => λ _, NoFuel
  | S fuel => atom ← parseAtom fuel; quantify atom
  end
with parseAtom (fuel : nat) : parser regexNode :=
  match fuel with
  | O => λ _, NoFuel
  | S fuel =>
    r ← peek;
    match r with
    | None => fail UnexpectedEnd
    | Some r =>
      if r =? 40 then
        group_open;;
        inner ← parseAlt fuel;
        close ← peek_is 41;
        if (close : bool) then advance;; mret inner else fail ExpectedGroupEnd
      else if r =? 91 then parseCharClass
      else if r =? 46 then advance;; mret dotNode
      else if r =? 92 then parseEscape
      else advance;; mret (literalNode r)
    end
  end.

Definition parse_fuel : nat := 4 * length input + 5.

Definition parseRegex : go (regexError + regexNode) :=
  r ← parseAlt parse_fuel 0;
  Ret (match r with
       | inl e => inl e
       | inr (node, pos) => if pos <? len input then inl UnexpectedChar else inr node
       end).

End input.
End parser.
