(* ===== verification/RegexParseCorrect.v ===== *)
(** * The parser returns, with well-formed trees

    Whatever the pattern, [parseRegex] neither panics nor loops, and a tree it
    returns has the shape the NFA builder relies on.  The two operations on
    class ranges are exact where stated. *)

From Stdlib Require Import ZArith Lia ZifyBool String.
From stdpp Require Import base tactics list numbers option sets sorting.
From S2P Require Import Prelude Utf8 StateError SliceSort Regex RegexParse.
Local Open Scope Z_scope.

(** ** Ranges of tables *)

(** The documented form of Unicode range tables. *)
Definition entry_ok (e : range_entry) : bool :=
  (1 <=? reStride e) && (reStride e <=? MaxRune) && (0 <=? reLo e) && (reLo e <=? reHi e) && (reHi e <=? MaxRune).

Definition table_ok (t : RangeTable) : bool := forallb entry_ok (R16 t) && forallb entry_ok (R32 t).

Record unicode_ok (U : unicode) : Prop := {
  uo_tab : ∀ t, table_ok (utab U t) = true;
  uo_prop : ∀ n t, Properties U n = Some t → table_ok t = true;
  uo_cat : ∀ n t, Categories U n = Some t → table_ok t = true;
  uo_script : ∀ n t, Scripts U n = Some t → table_ok t = true }.

Lemma stride_loop_ret fuel c hi stride :
  0 ≤ c → 1 ≤ stride ≤ MaxRune → hi ≤ MaxRune → hi - c < Z.of_nat fuel →
  ∃ l, stride_loop fuel c hi stride = Ret l.
Proof.
  revert c. induction fuel as [|fuel IH]; intros c Hc Hs Hh Hf; cbn.
  { destruct (Z.leb_spec c hi); [lia|eauto]. }
  destruct (Z.leb_spec c hi); [|eauto]. rewrite i32_id by (unfold MaxRune in *; lia).
  destruct (IH (c + stride)) as [l ->]; [lia..|]. cbn. eauto.
Qed.

Lemma entries_ranges_ret es : forallb entry_ok es = true → ∃ l, entries_ranges es = Ret l.
Proof.
  induction es as [|e es IH]; cbn; [eauto|]. intros [He Hes]%andb_true_iff.
  destruct (IH Hes) as [l Hl]. assert (∃ x, entry_ranges e = Ret x) as [x ->].
  { unfold entry_ok in He. unfold entry_ranges. case_match; [eauto|]. apply stride_loop_ret; lia. }
  cbn. rewrite Hl. cbn. eauto.
Qed.

Lemma table_ranges_ret t : table_ok t = true → ∃ l, rangeTableToRuneRanges t = Ret l.
Proof.
  unfold table_ok, rangeTableToRuneRanges. intros [H1 H2]%andb_true_iff.
  destruct (entries_ranges_ret _ H1) as [x ->]. cbn. destruct (entries_ranges_ret _ H2) as [y ->]. cbn. eauto.
Qed.

Lemma join_tables_ret U ts : unicode_ok U → ∃ l, join_tables U ts = Ret l.
Proof.
  intros HU. induction ts as [|t ts [l IH]]; cbn; [eauto|].
  destruct (table_ranges_ret _ (uo_tab _ HU t)) as [x ->]. cbn. rewrite IH. cbn. eauto.
Qed.

Lemma property_ranges_ret U name : unicode_ok U → ∃ r, unicodePropertyRanges U name = Ret r.
Proof.
  intros HU. unfold unicodePropertyRanges.
  assert (∀ m : go (list runeRange), (∃ l, m = Ret l) → ∃ r : regexError + list runeRange,
    (x ← m; Ret (inr x)) = Ret r) as Hf by (intros m [l ->]; cbn; eauto).
  repeat case_match; try (apply Hf); eauto using join_tables_ret.
  all: apply table_ranges_ret; eauto using uo_tab, uo_prop, uo_cat, uo_script.
Qed.

(** ** Subtraction returns *)

Section classes.
Context `{SliceSort}.

Lemma step_back_ret fuel sub si lo :
  0 ≤ si ≤ len sub → si ≤ Z.of_nat fuel → ∃ i, step_back fuel sub si lo = Ret i ∧ 0 ≤ i ≤ si.
Proof.
  revert si. induction fuel as [|fuel IH]; intros si Hsi Hf; cbn.
  { destruct (Z.ltb_spec 0 si); [lia|]. exists si. split; [done|lia]. }
  destruct (Z.ltb_spec 0 si); [|exists si; split; [done|lia]].
  destruct (index_in_range sub (si - 1)) as (x & -> & _); [lia|]. cbn.
  destruct (Z.leb_spec lo (rhi x)); [|exists si; split; [done|lia]].
  destruct (IH (si - 1)) as (i & Hi & ?); [lia..|]. exists i. split; [done|lia].
Qed.

Lemma subtract_loop_ret fuel sub b si lo result :
  0 ≤ si ≤ len sub → len sub - si ≤ Z.of_nat fuel →
  ∃ i l r, subtract_loop fuel sub b si lo result = Ret (i, l, r) ∧ si ≤ i ≤ len sub.
Proof.
  revert si lo result. induction fuel as [|fuel IH]; intros si lo result Hsi Hf; cbn.
  { destruct (Z.ltb_spec si (len sub)); [lia|]. eexists _, _, _. split; [done|lia]. }
  destruct (Z.ltb_spec si (len sub)); [|eexists _, _, _; split; [done|lia]].
  destruct (index_in_range sub si) as (x & -> & _); [lia|]. cbn.
  destruct (Z.leb_spec (rlo x) (rhi b)); [|eexists _, _, _; split; [done|lia]].
  destruct (Z.ltb_spec (rhi x) lo).
  - destruct (IH (si + 1) lo result) as (i & l & r & Hr & ?); [lia..|]. exists i, l, r. split; [done|lia].
  - destruct (_ <? i32 _); [eexists _, _, _; split; [done|lia]|].
    edestruct (IH (si + 1)) as (i & l & r & Hr & ?); [lia..|]. eexists i, l, r. split; [exact Hr|lia].
Qed.

Lemma subtract_bases_ret base sub si result :
  0 ≤ si ≤ len sub → ∃ l, subtract_bases base sub si result = Ret l.
Proof.
  revert si result. induction base as [|b base IH]; intros si result Hsi; cbn; [eauto|].
  destruct (step_back_ret (length sub) sub si (rlo b)) as (i & -> & Hi); [done|unfold len in *; lia|]. cbn.
  destruct (subtract_loop_ret (length sub) sub b i (rlo b) result) as (j & lo & r & -> & Hj);
    [lia|unfold len in *; lia|]. cbn. apply IH. lia.
Qed.

Lemma subtractRuneRanges_ret base sub : ∃ l, subtractRuneRanges base sub = Ret l.
Proof. apply subtract_bases_ret. pose proof (len_nonneg (sort_slice range_lo_less sub)). lia. Qed.

(** ** Shape of trees *)

(** A known kind, at least one branch in a choice, exactly one child below a
    repetition. *)
Fixpoint shape_ok (node : regexNode) : bool :=
  match node with
  | NilNode => false
  | mkNode kind children _ _ _ _ _ =>
    match kind with
    | regexOther _ => false
    | regexLiteral | regexCharClass | regexDot => bool_decide (children = [])
    | regexSeq => forallb shape_ok children
    | regexAlt => bool_decide (children ≠ []) && forallb shape_ok children
    | regexStar | regexPlus | regexQuestion | regexCount =>
      bool_decide (length children = 1%nat) && forallb shape_ok children
    end
  end.

Section input.
Context (U : unicode) (HU : unicode_ok U) (input : list Z).

(** [m] returns from [pos]; if it does not fail, its result satisfies [Q]. *)
Definition safe {A} (m : parser A) (pos : Z) (Q : A → Z → Prop) : Prop :=
  ∃ r, m pos = Ret r ∧ match r with inl _ => True | inr (a, pos') => Q a pos' end.

Lemma safe_ret {A} (a : A) pos (Q : A → Z → Prop) : Q a pos → safe (mret a) pos Q.
Proof. intros. by exists (inr (a, pos)). Qed.

Lemma safe_fail {A} e pos (Q : A → Z → Prop) : safe (fail e) pos Q.
Proof. by exists (inl e). Qed.

Lemma safe_bind {A B} (m : parser A) (f : A → parser B) pos Q :
  safe m pos (λ a pos', safe (f a) pos' Q) → safe (m ≫= f) pos Q.
Proof.
  intros ([e|[a pos']] & Hm & HQ).
  - exists (inl e). split; [|done]. by apply ste_bind_err.
  - destruct HQ as (r & Hr & HQ). exists r. split; [|done]. by rewrite (ste_bind_ok _ _ _ _ _ Hm).
Qed.

Lemma safe_mono {A} (m : parser A) pos (P Q : A → Z → Prop) :
  safe m pos P → (∀ a pos', P a pos' → Q a pos') → safe m pos Q.
Proof. intros ([e|[a p]] & Hm & HP) HPQ; [by exists (inl e)|exists (inr (a, p)); auto]. Qed.

Notation in_input pos := (0 ≤ pos ≤ len input).

(** Not beyond where it started, and within the input. *)
Definition after (pos pos' : Z) : Prop := pos ≤ pos' ≤ len input.
Definition beyond (pos pos' : Z) : Prop := pos < pos' ≤ len input.

Lemma safe_peek pos (Q : option Z → Z → Prop) :
  in_input pos → (∀ r, pos < len input → Q (Some r) pos) → Q None pos → safe (peek input) pos Q.
Proof.
  intros Hp HS HN. unfold peek, safe. destruct (Z.leb_spec (len input) pos); [by exists (inr (None, pos))|].
  rewrite gslice_ok by lia. eexists. split; [done|]. apply HS. lia.
Qed.

Lemma safe_advance pos (Q : Z → Z → Prop) :
  in_input pos → (∀ r pos', after pos pos' → (pos < len input → beyond pos pos') → Q r pos') →
  safe (advance input) pos Q.
Proof.
  intros Hp HQ. unfold advance, safe. rewrite gslice_ok by lia. cbn [mbind go_bind].
  destruct (DecodeRune (slice input pos (len input))) as [r n] eqn:E. eexists. split; [done|]. apply HQ.
  - destruct (slice input pos (len input)) as [|b l] eqn:Hs; [injection E as <- <-; unfold after; lia|].
    apply DecodeRune_size in E as [? Hn]; [|done]. rewrite <-Hs, len_slice in Hn by lia. unfold after. lia.
  - intros Hlt. destruct (slice input pos (len input)) as [|b l] eqn:Hs.
    + apply (f_equal len) in Hs. rewrite len_slice in Hs by lia. change (len []) with 0 in Hs. lia.
    + apply DecodeRune_size in E as [? Hn]; [|done]. rewrite <-Hs, len_slice in Hn by lia. unfold beyond. lia.
Qed.

Lemma safe_peek_is c pos (Q : bool → Z → Prop) :
  in_input pos → (pos < len input → Q true pos) → Q false pos → safe (peek_is input c) pos Q.
Proof.
  intros Hp HT HF. unfold peek_is. apply safe_bind, safe_peek; [done|..].
  - intros r Hlt. apply safe_ret. by case_bool_decide; [apply HT|].
  - by apply safe_ret.
Qed.

(** From anywhere in the input, [m] returns a position not before; or, from a
    position with input left, one strictly beyond. *)
Definition ret0 {A} (m : parser A) (P : A → Prop) : Prop :=
  ∀ pos, in_input pos → safe m pos (λ a pos', after pos pos' ∧ P a).
Definition ret1 {A} (m : parser A) (P : A → Prop) : Prop :=
  ∀ pos, in_input pos → pos < len input → safe m pos (λ a pos', beyond pos pos' ∧ P a).

Lemma ret0_ret {A} (a : A) (P : A → Prop) : P a → ret0 (mret a) P.
Proof. intros HP pos Hp. apply safe_ret. unfold after. split; [lia|done]. Qed.

Lemma ret0_fail {A} e (P : A → Prop) : ret0 (fail e) P.
Proof. intros pos _. apply safe_fail. Qed.

Lemma ret1_fail {A} e (P : A → Prop) : ret1 (fail e) P.
Proof. intros pos _ _. apply safe_fail. Qed.

Lemma ret0_bind {A B} (m : parser A) (f : A → parser B) P R :
  ret0 m P → (∀ a, P a → ret0 (f a) R) → ret0 (m ≫= f) R.
Proof.
  intros Hm Hf pos Hp. apply safe_bind. eapply safe_mono; [by apply Hm|]. intros a pos' [Ha HP].
  unfold after in Ha. eapply safe_mono; [apply Hf; [done|lia]|]. unfold after. intros b pos'' [? ?]. split; [lia|done].
Qed.

Lemma ret1_bind {A B} (m : parser A) (f : A → parser B) P R :
  ret1 m P → (∀ a, P a → ret0 (f a) R) → ret1 (m ≫= f) R.
Proof.
  intros Hm Hf pos Hp Hlt. apply safe_bind. eapply safe_mono; [by apply Hm|]. intros a pos' [Ha HP].
  unfold beyond in Ha. eapply safe_mono; [apply Hf; [done|lia]|]. unfold after, beyond. intros b pos'' [? ?]. split; [lia|done].
Qed.

Lemma ret0_peek {B} (f : option Z → parser B) R :
  (∀ r, ret1 (f (Some r)) R) → ret0 (f None) R → ret0 (peek input ≫= f) R.
Proof.
  intros HS HN pos Hp. apply safe_bind, safe_peek; [done| |by apply HN]. intros r Hlt.
  eapply safe_mono; [by apply HS|]. unfold after, beyond. intros b pos' [? ?]. split; [lia|done].
Qed.

Lemma ret1_peek {B} (f : option Z → parser B) R :
  (∀ r, ret1 (f (Some r)) R) → ret1 (peek input ≫= f) R.
Proof.
  intros HS pos Hp Hlt. unfold peek. apply safe_bind. unfold safe at 1.
  destruct (Z.leb_spec (len input) pos); [lia|]. rewrite gslice_ok by lia.
  eexists. split; [done|]. by apply HS.
Qed.

Lemma ret0_peek_is {B} c (f : bool → parser B) R :
  ret1 (f true) R → ret0 (f false) R → ret0 (peek_is input c ≫= f) R.
Proof.
  intros HT HF pos Hp. apply safe_bind, safe_peek_is; [done| |by apply HF]. intros Hlt.
  eapply safe_mono; [by apply HT|]. unfold after, beyond. intros b pos' [? ?]. split; [lia|done].
Qed.

Lemma ret1_advance (P : Z → Prop) : (∀ r, P r) → ret1 (advance input) P.
Proof. intros HP pos Hp Hlt. apply safe_advance; [done|]. intros r pos' _ Hb. split; [by apply Hb|done]. Qed.

Lemma ret0_advance (P : Z → Prop) : (∀ r, P r) → ret0 (advance input) P.
Proof. intros HP pos Hp. apply safe_advance; [done|]. intros r pos' Ha _. split; done. Qed.

(** Consume a rune that was peeked, then go on. *)
Lemma ret1_advance_then {B} (m : parser B) R : ret0 m R → ret1 (advance input;; m) R.
Proof. intros Hm. apply (ret1_bind _ _ (λ _, True)); [by apply ret1_advance|done]. Qed.

Lemma ret0_advance_then {B} (m : parser B) R : ret0 m R → ret0 (advance input;; m) R.
Proof. intros Hm. apply (ret0_bind _ _ (λ _, True)); [by apply ret0_advance|done]. Qed.

(** A parser that consumes input where there is some, and fails at the end. *)
Lemma ret1_ret0 {A} (m : parser A) P :
  ret1 m P → (∃ e, m (len input) = Ret (inl e)) → ret0 m P.
Proof.
  intros Hm (e & He) pos Hp. destruct (decide (pos = len input)) as [-> | Hne]; [by exists (inl e)|].
  eapply safe_mono; [apply Hm; lia|]. unfold after, beyond. intros a pos' [? ?]. split; [lia|done].
Qed.

Lemma peek_end : peek input (len input) = Ret (inr (None, len input)).
Proof. unfold peek. by rewrite Z.leb_refl. Qed.

Lemma ret0_mono {A} (m : parser A) (P R : A → Prop) : ret0 m P → (∀ a, P a → R a) → ret0 m R.
Proof. intros Hm HPR pos Hp. eapply safe_mono; [by apply Hm|]. intros a pos' [? ?]. auto. Qed.

Create HintDb parse.
#[local] Hint Resolve ret0_ret ret0_fail ret1_fail ret1_advance_then ret0_advance_then I : parse.

(** ** The pieces of the parser *)

Notation any := (λ _, True).

Lemma until_brace_safe fuel e pos :
  in_input pos → len input - pos < Z.of_nat fuel → safe (until_brace input fuel e) pos (λ _ pos', after pos pos').
Proof.
  revert pos. induction fuel as [|fuel IH]; intros pos Hp Hf; [lia|]. cbn [until_brace].
  apply safe_bind, safe_peek; [done| |apply safe_fail]. intros r Hlt. case_match.
  { apply safe_ret. unfold after. lia. }
  apply safe_bind, safe_advance; [done|]. intros r' pos' _ Hb. specialize (Hb Hlt). unfold beyond in Hb.
  eapply safe_mono; [apply IH; lia|]. unfold after. intros. lia.
Qed.

Lemma braced_ret0 e : ret0 (braced input e) any.
Proof.
  intros pos Hp. unfold braced. apply safe_bind. exists (inr (pos, pos)). split; [done|].
  apply safe_bind. eapply safe_mono; [apply until_brace_safe; [done|unfold len in *; lia]|].
  intros u pos' Ha. unfold after in Ha. apply safe_bind. exists (inr (pos', pos')). split; [done|].
  apply safe_bind. exists (inr (slice input pos pos', pos')). split; [unfold lift_go; by rewrite gslice_ok by lia|].
  apply safe_bind, safe_advance; [lia|]. intros r pos'' Ha' _. apply safe_ret. unfold after in *. split; [lia|done].
Qed.

Lemma or_fail_ret0 {A} e (o : option A) : ret0 (or_fail e o) any.
Proof. destruct o; cbn; auto with parse. Qed.

Lemma parseCount_ret0 : ret0 (parseCount input) any.
Proof.
  unfold parseCount. apply ret0_advance_then. eapply ret0_bind; [apply braced_ret0|]. intros content _.
  destruct (index_byte content 44).
  - eapply ret0_bind; [apply or_fail_ret0|]. intros min _. cbn zeta. case_match; [auto with parse|].
    eapply ret0_bind; [apply or_fail_ret0|]. auto with parse.
  - eapply ret0_bind; [apply or_fail_ret0|]. auto with parse.
Qed.

Lemma index_byte_range s b i : index_byte s b = Some i → 0 ≤ i < len s.
Proof.
  revert i. induction s as [|x s IH]; intros i; cbn; [done|]. rewrite len_cons. pose proof (len_nonneg s).
  case_match; [intros [= <-]; lia|]. intros (j & Hj & ->)%fmap_Some. apply IH in Hj. lia.
Qed.

(** A numeric escape, in its braced or its fixed form. *)
Lemma numeric_ret0 n bits :
  0 ≤ n → ret0 (b ← at_open_brace input; if (b : bool) then braced_hex input else fixed_hex input n bits) any.
Proof.
  intros Hn pos Hp. apply safe_bind. unfold at_open_brace, safe at 1. destruct (Z.ltb_spec pos (len input)).
  - destruct (index_in_range input pos) as (b & -> & _); [lia|]. eexists. split; [done|]. cbn.
    destruct (b =? 123).
    + unfold braced_hex, safe. rewrite gslice_ok by lia. cbn [mbind go_bind].
      destruct (index_byte _ 125) as [e|] eqn:He; [|by eexists].
      apply index_byte_range in He. rewrite len_slice in He by lia. rewrite gslice_ok by lia.
      eexists. split; [done|]. destruct (ParseUint _ _ _); [|done]. unfold after. split; [lia|done].
    + unfold fixed_hex, safe. destruct (Z.ltb_spec (len input) (pos + n)); [by eexists|].
      rewrite gslice_ok by lia. eexists. split; [done|]. destruct (ParseUint _ _ _); [|done]. unfold after. split; [lia|done].
  - eexists. split; [done|]. cbn. unfold fixed_hex, safe.
    destruct (Z.ltb_spec (len input) (pos + n)); [by eexists|]. rewrite gslice_ok by lia.
    eexists. split; [done|]. destruct (ParseUint _ _ _); [|done]. unfold after. split; [lia|done].
Qed.

Lemma ret0_assoc {A B C} (m : parser A) (f : A → parser B) (g : B → parser C) P :
  ret0 ((m ≫= f) ≫= g) P → ret0 (m ≫= λ a, f a ≫= g) P.
Proof.
  intros Hm pos Hp. destruct (Hm pos Hp) as (r & Hr & HP). exists r. split; [|done].
  rewrite <-Hr. unfold mbind, ste_bind. by repeat case_match; simplify_eq.
Qed.

Lemma numeric_then n bits (f : Z → parser Z) :
  0 ≤ n → (∀ v, ret0 (f v) any) →
  ret0 (b ← at_open_brace input; v ← (if (b : bool) then braced_hex input else fixed_hex input n bits); f v) any.
Proof. intros Hn Hf. apply ret0_assoc. eapply ret0_bind; [by apply numeric_ret0|]. auto. Qed.

Lemma parseEscapeChar_ret1 : ret1 (parseEscapeChar input) any.
Proof.
  apply ret1_peek. intros r. apply ret1_advance_then.
  repeat (case_match; [first [apply ret0_ret; done|apply numeric_then; [lia|intros v; repeat case_match; auto with parse]]|]).
  auto with parse.
Qed.

Lemma parseEscapeChar_ret0 : ret0 (parseEscapeChar input) any.
Proof.
  apply ret1_ret0; [apply parseEscapeChar_ret1|]. eexists.
  unfold parseEscapeChar. by rewrite (ste_bind_ok _ _ _ _ _ peek_end).
Qed.

Lemma lift_err_ret0 {A} (m : go (regexError + A)) : (∃ r, m = Ret r) → ret0 (lift_err m) any.
Proof.
  intros (r & ->) pos Hp. unfold lift_err, safe. cbn. eexists. split; [done|].
  destruct r; [done|]. unfold after. split; [lia|done].
Qed.

Lemma lift_go_ret0 {A} (m : go A) : (∃ r, m = Ret r) → ret0 (lift_go m) any.
Proof. intros (r & ->) pos Hp. exists (inr (r, pos)). split; [done|]. unfold after. split; [lia|done]. Qed.

Lemma parseUnicodeProperty_ret0 : ret0 (parseUnicodeProperty U input) any.
Proof.
  apply ret0_peek; [|auto with parse]. intros r. case_match.
  - case_match; [|auto with parse]. apply ret1_advance_then, lift_err_ret0, property_ranges_ret, HU.
  - apply ret1_advance_then. eapply ret0_bind; [apply braced_ret0|]. intros name _.
    apply lift_err_ret0, property_ranges_ret, HU.
Qed.

Lemma parseEscape_ret1 : ret1 (parseEscape U input) (λ n, shape_ok n = true).
Proof.
  apply ret1_advance_then. apply ret0_peek; [|auto with parse]. intros r.
  repeat (case_match; [apply ret1_advance_then; first [apply ret0_ret; reflexivity|
    eapply ret0_bind; [apply parseUnicodeProperty_ret0|intros; apply ret0_ret; reflexivity]]|]).
  eapply ret1_bind; [apply parseEscapeChar_ret1|]. intros. apply ret0_ret. reflexivity.
Qed.

Lemma parseCharClassChar_ret1 : ret1 (parseCharClassChar input) any.
Proof.
  apply ret1_peek. intros r. case_match; apply ret1_advance_then; auto using parseEscapeChar_ret0 with parse.
Qed.

(** Use a specification at a position, in front of a continuation. *)
Lemma safe_ret1_bind {A B} (m : parser A) (f : A → parser B) P pos Q :
  ret1 m P → in_input pos → pos < len input →
  (∀ a pos', beyond pos pos' → P a → safe (f a) pos' Q) → safe (m ≫= f) pos Q.
Proof.
  intros Hm Hp Hlt Hf. apply safe_bind. eapply safe_mono; [by apply Hm|]. intros a pos' [? ?]. auto.
Qed.

Lemma safe_ret0_bind {A B} (m : parser A) (f : A → parser B) P pos Q :
  ret0 m P → in_input pos →
  (∀ a pos', after pos pos' → P a → safe (f a) pos' Q) → safe (m ≫= f) pos Q.
Proof.
  intros Hm Hp Hf. apply safe_bind. eapply safe_mono; [by apply Hm|]. intros a pos' [? ?]. auto.
Qed.

(** A step that reads the position. *)
Lemma safe_pure_bind {A B} (m : parser A) (f : A → parser B) pos a Q :
  m pos = Ret (inr (a, pos)) → safe (f a) pos Q → safe (m ≫= f) pos Q.
Proof. intros Hm Hf. apply safe_bind. by exists (inr (a, pos)). Qed.

Lemma safe_set_pos {B} saved (m : parser B) pos Q : safe m saved Q → safe (set_pos saved;; m) pos Q.
Proof. intros Hm. apply safe_bind. by exists (inr ((), saved)). Qed.

Lemma class_range_ret1 : ret1 (class_range input) any.
Proof.
  eapply ret1_bind; [apply parseCharClassChar_ret1|]. intros ch _ pos Hp.
  apply safe_bind, safe_peek_is; [done|intros Hlt|]; last by apply ret0_ret.
  eapply safe_pure_bind; [done|]. eapply safe_ret1_bind; [by apply (ret1_advance any)|done..|].
  intros r pos' Hb _. unfold beyond in Hb. cbn beta.
  apply safe_bind, safe_peek; [lia|intros r3 Hlt'|].
  - case_match; [by apply safe_set_pos, ret0_ret|].
    eapply safe_ret1_bind; [apply parseCharClassChar_ret1|lia|done|]. intros hi pos'' Hb' _.
    apply safe_ret. unfold after, beyond in *. split; [lia|done].
  - by apply safe_set_pos, ret0_ret.
Qed.

Lemma class_shorthand_ret1 next m : class_shorthand U input next = Some m → ret1 m any.
Proof.
  unfold class_shorthand. repeat case_match; intros [= <-]; apply ret1_advance_then, ret0_advance_then;
    auto using parseUnicodeProperty_ret0 with parse.
Qed.

Lemma combine_class_ret0 ranges inner : ret0 (combine_class ranges inner) any.
Proof.
  unfold combine_class. repeat case_match; auto with parse. apply lift_go_ret0, subtractRuneRanges_ret.
Qed.

Lemma ret0_peek_is_any c : ret0 (peek_is input c) any.
Proof. intros pos Hp. apply safe_peek_is; [done|intros _|]; (split; [|done]); unfold after; lia. Qed.

(** The optional caret. *)
Lemma caret_ret0 (caret : bool) : ret0 (if caret then advance input;; mret () else mret ()) any.
Proof. destruct caret; auto with parse. Qed.

Lemma safe_wrap {A} (m : parser A) pos Q : safe m pos Q → safe (wrap_intersection m) pos Q.
Proof.
  intros (r & Hr & HQ). unfold wrap_intersection, safe. rewrite Hr. cbn. eexists. split; [done|].
  destruct r as [e|x]; done.
Qed.

Definition class_done (pos : Z) (node : regexNode) (pos' : Z) : Prop :=
  beyond pos pos' ∧ shape_ok node = true.

Lemma class_done_mono pos0 pos node pos' : pos0 ≤ pos → class_done pos node pos' → class_done pos0 node pos'.
Proof. unfold class_done, beyond. intros ? [? ?]. split; [lia|done]. Qed.

(** A class after its bracket, given the loop. *)
Lemma class_open_safe (loop : bool → parser regexNode) pos :
  (∀ caret pos', pos ≤ pos' ≤ len input → safe (loop caret) pos' (class_done pos')) → in_input pos →
  safe (caret ← peek_is input 94; (if (caret : bool) then advance input;; mret () else mret ());; loop caret)
    pos (class_done pos).
Proof.
  intros Hl Hp. apply (safe_ret0_bind _ _ any); [by apply ret0_peek_is_any|done|].
  intros caret pos' Ha _. unfold after in Ha. eapply safe_ret0_bind; [apply caret_ret0|lia|].
  intros u pos'' Ha' _. unfold after in Ha'. eapply safe_mono; [apply Hl; lia|].
  intros. eapply class_done_mono; [|done]. lia.
Qed.

Lemma class_loop_safe fuel : ∀ negate first ranges pos, in_input pos → len input - pos < Z.of_nat fuel →
  safe (class_loop U input fuel negate first ranges) pos (class_done pos).
Proof.
  induction fuel as [|fuel IH]; intros negate first ranges pos Hp Hf; [lia|]. cbn [class_loop].
  assert (∀ n f rs pos', beyond pos pos' → safe (class_loop U input fuel n f rs) pos' (class_done pos)) as Hnext.
  { unfold beyond. intros n f rs pos' Hb. eapply safe_mono; [apply IH; lia|]. intros. eapply class_done_mono; [|done]; lia. }
  apply safe_bind, safe_peek; [done|intros r Hlt|apply safe_fail]. case_match.
  { eapply safe_ret1_bind; [by apply (ret1_advance any)|done..|]. intros. by apply safe_ret. }
  eapply safe_pure_bind; [done|]. cbn beta.
  destruct (if r =? 92 then zget input (pos + 1) ≫= class_shorthand U input else None) as [m|] eqn:Hm.
  { eapply safe_ret1_bind; [|done..|].
    - destruct (r =? 92); [|done]. destruct (zget input (pos + 1)); [|done]. by eapply class_shorthand_ret1.
    - auto. }
  clear Hm. destruct ((r =? 38) && _); [|eapply safe_ret1_bind; [apply class_range_ret1|done..|]; auto].
  eapply safe_ret1_bind; [by apply (ret1_advance any)|done..|]. intros u pos1 Hb1 _. unfold beyond in Hb1.
  eapply safe_ret0_bind; [by apply (ret0_advance any)|lia|]. intros u' pos2 Ha2 _. unfold after in Ha2.
  apply safe_bind, safe_peek_is; [lia|intros Hlt2|apply safe_fail]. apply safe_bind, safe_wrap.
  eapply safe_ret1_bind; [by apply (ret1_advance any)|lia|done|]. intros u'' pos3 Hb3 _. unfold beyond in Hb3.
  eapply safe_mono; [apply class_open_safe; [|lia]; intros; apply IH; lia|]. intros inner pos4 [Hb4 Hs].
  unfold beyond in Hb4. eapply safe_ret0_bind; [apply combine_class_ret0|lia|]. intros rs pos5 Ha5 _.
  apply Hnext. unfold after, beyond in *. lia.
Qed.

Lemma parseCharClass_ret1 : ret1 (parseCharClass U input) (λ n, shape_ok n = true).
Proof.
  intros pos Hp Hlt. unfold parseCharClass. eapply safe_ret1_bind; [by apply (ret1_advance any)|done..|].
  intros r pos' Hb _. unfold beyond in Hb.
  eapply safe_mono; [apply class_open_safe; [|lia]|].
  - intros. apply class_loop_safe; [lia|]. unfold len in *. lia.
  - intros node pos''. unfold class_done, beyond. intros [? ?]. split; [lia|done].
Qed.

(** ** Atoms, sequences and alternatives *)

Notation node_ok := (λ n, shape_ok n = true).

Lemma quantify_ret0 atom : shape_ok atom = true → ret0 (quantify input atom) node_ok.
Proof.
  intros Ha. pose proof parseCount_ret0 as HC.
  assert (∀ k, k ∈ [regexStar; regexPlus; regexQuestion] →
    ret1 (advance input;; mret (groupNode k [atom])) node_ok) as Hq.
  { intros k Hk. apply ret1_advance_then, ret0_ret. set_unfold. cbn. rewrite Ha. naive_solver. }
  intros pos Hp. apply safe_bind, safe_peek; [done|intros r Hlt|by apply ret0_ret].
  assert (∀ m, ret1 m node_ok → safe m pos (λ n pos', after pos pos' ∧ shape_ok n = true)) as Hr.
  { intros m Hm. eapply safe_mono; [by apply Hm|]. unfold after, beyond. intros ? ? [? ?]. split; [lia|done]. }
  repeat case_match; try (by apply ret0_ret); try (apply Hr, Hq; set_solver).
  destruct (HC pos Hp) as ([e|[[min max] pos']] & HC' & HP); unfold safe; rewrite HC'.
  - exists (inr (atom, pos)). split; [done|]. unfold after. split; [lia|done].
  - exists (inr (countNode atom min max, pos')). split; [done|]. split; [apply HP|]. cbn. by rewrite Ha.
Qed.

Lemma group_open_ret1 : ret1 (group_open input) any.
Proof.
  apply ret1_advance_then, ret0_peek_is; [|auto with parse].
  apply ret1_advance_then, ret0_peek_is; auto with parse.
Qed.

Lemma seq_node_ok items : forallb shape_ok items = true → shape_ok (seq_node items) = true.
Proof. destruct items as [|x [|y items]]; cbn; [done| |done]. by rewrite andb_true_r. Qed.

(** What the five routines promise with a given fuel; [k] bytes are left. *)
Notation left pos := (len input - pos).

Definition alt_spec (fuel : nat) : Prop := ∀ pos, in_input pos → 4 * left pos + 5 ≤ Z.of_nat fuel →
  safe (parseAlt U input fuel) pos (λ n pos', after pos pos' ∧ shape_ok n = true).

Definition alts_spec (fuel : nat) : Prop := ∀ alts pos, in_input pos → 4 * left pos + 4 ≤ Z.of_nat fuel →
  alts ≠ [] → forallb shape_ok alts = true →
  safe (parseAlts U input fuel alts) pos (λ l pos', after pos pos' ∧ shape_ok (groupNode regexAlt l) = true).

Definition seq_spec (fuel : nat) : Prop := ∀ items pos, in_input pos → 4 * left pos + 4 ≤ Z.of_nat fuel →
  forallb shape_ok items = true →
  safe (parseSeq U input fuel items) pos (λ n pos', after pos pos' ∧ shape_ok n = true).

Definition quantified_spec (fuel : nat) : Prop := ∀ pos, in_input pos → pos < len input →
  4 * left pos + 3 ≤ Z.of_nat fuel →
  safe (parseQuantified U input fuel) pos (λ n pos', beyond pos pos' ∧ shape_ok n = true).

Definition atom_spec (fuel : nat) : Prop := ∀ pos, in_input pos → pos < len input →
  4 * left pos + 2 ≤ Z.of_nat fuel →
  safe (parseAtom U input fuel) pos (λ n pos', beyond pos pos' ∧ shape_ok n = true).

Lemma alt_step fuel : seq_spec fuel → alts_spec fuel → alt_spec (S fuel).
Proof.
  intros HS HA pos Hp Hf. cbn [parseAlt]. apply safe_bind. eapply safe_mono; [apply HS; [done|lia|done]|].
  intros n pos' [Ha Hn]. unfold after in Ha. apply safe_bind, safe_peek_is; [lia|intros Hlt|].
  - apply safe_bind. eapply safe_mono; [apply HA; [lia|lia|done|cbn; by rewrite Hn]|].
    intros l pos'' [Ha' Hl]. apply safe_ret. unfold after in *. split; [lia|done].
  - apply safe_ret. done.
Qed.

Lemma alts_step fuel : seq_spec fuel → alts_spec fuel → alts_spec (S fuel).
Proof.
  intros HS HA alts pos Hp Hf Hne Hok. cbn [parseAlts]. apply safe_bind, safe_peek_is; [done|intros Hlt|].
  - eapply safe_ret1_bind; [by apply (ret1_advance any)|done..|]. intros r pos' Hb _. unfold beyond in Hb.
    apply safe_bind. eapply safe_mono; [apply HS; [lia|lia|done]|]. intros n pos'' [Ha Hn]. unfold after in Ha.
    eapply safe_mono; [apply HA; [lia|lia|by destruct alts|]|].
    + rewrite forallb_app, Hok. cbn. by rewrite Hn.
    + intros l p [? ?]. unfold after in *. split; [lia|done].
  - apply safe_ret. unfold after. split; [lia|]. cbn. by rewrite bool_decide_true, Hok.
Qed.

Lemma seq_step fuel : quantified_spec fuel → seq_spec fuel → seq_spec (S fuel).
Proof.
  intros HQ HS items pos Hp Hf Hok. cbn [parseSeq].
  assert (safe (mret (seq_node items)) pos (λ n pos', after pos pos' ∧ shape_ok n = true)) as Hend.
  { apply safe_ret. unfold after. split; [lia|by apply seq_node_ok]. }
  apply safe_bind, safe_peek; [done|intros r Hlt|done]. case_match; [done|].
  apply safe_bind. eapply safe_mono; [apply HQ; [lia..]|]. intros n pos' [Hb Hn]. unfold beyond in Hb.
  eapply safe_mono; [apply HS; [lia|lia|]|].
  - rewrite forallb_app, Hok. cbn. by rewrite Hn.
  - intros l p [? ?]. unfold after in *. split; [lia|done].
Qed.

Lemma quantified_step fuel : atom_spec fuel → quantified_spec (S fuel).
Proof.
  intros HA pos Hp Hlt Hf. cbn [parseQuantified]. apply safe_bind. eapply safe_mono; [apply HA; [lia..]|].
  intros n pos' [Hb Hn]. unfold beyond in Hb. eapply safe_mono; [apply quantify_ret0; [done|lia]|].
  unfold after, beyond. intros m p [? ?]. split; [lia|done].
Qed.

Lemma atom_step fuel : alt_spec fuel → atom_spec (S fuel).
Proof.
  intros HA pos Hp Hlt Hf. cbn [parseAtom]. apply safe_bind, safe_peek; [done|intros r _|apply safe_fail].
  case_match.
  { eapply safe_ret1_bind; [apply group_open_ret1|done..|]. intros u pos' Hb _. unfold beyond in Hb.
    apply safe_bind. eapply safe_mono; [apply HA; [lia..]|]. intros n pos'' [Ha Hn]. unfold after in Ha.
    apply safe_bind, safe_peek_is; [lia|intros Hlt'|apply safe_fail].
    eapply safe_ret1_bind; [by apply (ret1_advance any)|lia|done|]. intros r' p Hb' _.
    apply safe_ret. unfold beyond in *. split; [lia|done]. }
  case_match; [by apply parseCharClass_ret1|].
  case_match; [by apply ret1_advance_then; [apply ret0_ret|..]|].
  case_match; [by apply parseEscape_ret1|]. by apply ret1_advance_then; [apply ret0_ret|..].
Qed.

(** Four calls for each byte left. *)
Lemma parser_specs fuel :
  alt_spec fuel ∧ alts_spec fuel ∧ seq_spec fuel ∧ quantified_spec fuel ∧ atom_spec fuel.
Proof.
  induction fuel as [|fuel (HA & HAs & HS & HQ & HT)].
  { split_and!; red; intros; exfalso; lia. }
  auto 10 using alt_step, alts_step, seq_step, quantified_step, atom_step.
Qed.

End input.

(** C26.  The parser returns on every pattern, valid or not, without panicking or
    running out of the fuel that is linear in the pattern: either an error, or
    a tree in which every choice has a branch, every repetition exactly one
    child, and no child is missing. *)
Theorem parseRegex_total U input :
  unicode_ok U →
  ∃ r, parseRegex U input = Ret r ∧ ∀ node, r = inr node → shape_ok node = true.
Proof.
  intros HU. pose proof (len_nonneg input).
  destruct (proj1 (parser_specs U HU input (parse_fuel input)) 0) as (r & Hr & HP);
    [lia|unfold parse_fuel, len in *; lia|].
  unfold parseRegex. rewrite Hr. eexists. split; [done|]. intros node.
  destruct r as [e|[n pos]]; [done|]. case_match; [done|]. intros [= <-]. apply HP.
Qed.

End classes.

(** Tables that hold no range: patterns without [\p] need no more. *)
Definition no_tables : unicode :=
  mkUnicode (λ _, mkRangeTable [] []) (λ _, false) (λ _, None) (λ _, None) (λ _, None).

Lemma no_tables_ok : unicode_ok no_tables.
Proof. by split. Qed.

Lemma parseRegex_total_witness :
  unicode_ok no_tables ∧
  ∃ r, parseRegex no_tables (bytes_of "[a-z_]([^;&&[^.]]|\x{41}){2,}"%string) = Ret r ∧
    ∀ node, r = inr node → shape_ok node = true.
Proof. split; [apply no_tables_ok|]. apply (parseRegex_total no_tables), no_tables_ok. Defined.
