(* ===== verification/RegexClass.v ===== *)
(** * Differences and intersections of character classes

    What an inner class after [&&] does to a class (grammargen/regex.go,
    [intersectRuneRanges] and [subtractRuneRanges]): the two-pointer walks over
    sorted ranges compute the set operations, for the intersection on any
    ranges, for the difference when the ranges of the left class do not overlap. *)

From Stdlib Require Import ZArith Lia ZifyBool String.
From stdpp Require Import base tactics list numbers option sets sorting.
From S2P Require Import Prelude Utf8 StateError SliceSort Regex RegexParse RegexParseCorrect.
Local Open Scope Z_scope.

Lemma has_rune_false ranges r : has_rune ranges r = false ↔ ∀ x, x ∈ ranges → ¬ rlo x ≤ r ≤ rhi x.
Proof. rewrite <-not_true_iff_false, has_rune_elem. naive_solver. Qed.

Definition by_lo : list runeRange → Prop := StronglySorted (λ a b, rlo a ≤ rlo b).

(** ** Intersection *)

(** The pointer that moves on drops a range whose runes were all met. *)
Lemma intersect_loop_has fuel base keep r :
  (length base + length keep ≤ fuel)%nat → by_lo base → by_lo keep →
  has_rune (intersect_loop fuel base keep) r = true ↔ has_rune base r = true ∧ has_rune keep r = true.
Proof.
  revert base keep. induction fuel as [|fuel IH]; intros base keep Hf Hb Hk.
  { destruct base; [|cbn in Hf; lia]. cbn. naive_solver. }
  destruct base as [|b base]; [cbn; naive_solver|]. destruct keep as [|k keep]; [cbn; naive_solver|].
  pose proof Hb as Hb0. pose proof Hk as Hk0. apply StronglySorted_inv in Hb as [Hb Hbs], Hk as [Hk Hks].
  rewrite Forall_forall in Hbs, Hks. cbn [intersect_loop]. rewrite has_rune_app, orb_true_iff.
  assert (has_rune (if (if rlo b <? rlo k then rlo k else rlo b) <=? (if rhi k <? rhi b then rhi k else rhi b)
    then [mkRuneRange (if rlo b <? rlo k then rlo k else rlo b) (if rhi k <? rhi b then rhi k else rhi b)] else []) r = true
    ↔ in_rune r b = true ∧ in_rune r k = true) as ->.
  { unfold in_rune. repeat case_match; cbn; unfold in_rune; cbn [rlo rhi]; lia. }
  cbn [length] in Hf. case_match.
  - rewrite IH by (cbn [length]; auto; lia). rewrite !(has_rune_cons b), !(has_rune_cons k), !orb_true_iff.
    unfold in_rune in *. split; [naive_solver|]. intros [[Hrb|Hr] Hrk]; [|naive_solver].
    destruct Hrk as [Hrk|(x & Hx & Hr)%has_rune_elem]; [naive_solver|]. specialize (Hks x Hx). left. lia.
  - rewrite IH by (cbn [length]; auto; lia). rewrite !(has_rune_cons b), !(has_rune_cons k), !orb_true_iff.
    unfold in_rune in *. split; [naive_solver|]. intros [Hrb [Hrk|Hr]]; [|naive_solver].
    destruct Hrb as [Hrb|(x & Hx & Hr)%has_rune_elem]; [naive_solver|]. specialize (Hbs x Hx). left. lia.
Qed.

Section sorted.
Context `{SliceSort}.

Lemma sort_by_lo_slice l : by_lo (sort_slice range_lo_less l).
Proof.
  pose proof (sort_slice_sorted _ range_lo_less l (strict_weak_key rlo)) as Hs.
  unfold by_lo. induction Hs as [|x l' ? ? Hx]; constructor; [done|]. eapply Forall_impl; [exact Hx|].
  unfold range_lo_less. lia.
Qed.

Lemma intersect_has base keep r :
  has_rune (intersectRuneRanges base keep) r = true ↔ has_rune base r = true ∧ has_rune keep r = true.
Proof.
  unfold intersectRuneRanges. rewrite intersect_loop_has; [|by rewrite !sort_slice_perm|apply sort_by_lo_slice..].
  by rewrite !(has_rune_perm (sort_slice _ _) _ r (sort_slice_perm _ _ _)).
Qed.

(** ** Difference *)

Section subtract.
Context (sub : list runeRange) (Hsort : by_lo sub) (Hsub : Forall (λ x, range_ok x = true) sub).

Lemma sorted_after i j x y : zget sub i = Some x → zget sub j = Some y → i ≤ j → rlo x ≤ rlo y.
Proof.
  intros Hx Hy Hij. destruct (decide (i = j)) as [-> | Hne]; [by simplify_eq|].
  apply (StronglySorted_zget _ _ i j x y Hsort); [done|done|lia].
Qed.

Lemma sub_ok j s : zget sub j = Some s → 0 ≤ rlo s ≤ rhi s ∧ rhi s ≤ maxSupportedRune.
Proof. intros Hs%zget_elem. rewrite Forall_forall in Hsub. specialize (Hsub s Hs). apply range_ok_spec in Hsub. lia. Qed.

(** Everything before position [si] ends before [lo], everything from it on
    starts after [hi]: no subtracted rune lies between. *)
Lemma no_sub_between si lo hi r :
  0 ≤ si → (∀ j s, j < si → zget sub j = Some s → rhi s < lo) →
  (∀ s, zget sub si = Some s → hi < rlo s) → lo ≤ r ≤ hi → has_rune sub r = false.
Proof.
  intros Hsi Hbefore Hafter Hr. apply has_rune_false. intros x (j & Hj & Hx)%elem_zget Hin.
  destruct (decide (j < si)) as [Hlt|Hge]; [specialize (Hbefore j x Hlt Hx); lia|].
  destruct (zget_in_range sub si) as [s Hs]; [lia|]. specialize (Hafter s Hs).
  pose proof (sorted_after si j s x Hs Hx ltac:(lia)). lia.
Qed.

(** What the loop for one range, from [si] and [lo], has done at [i] and [l]:
    the runes before [l] are settled, and after [l] there is nothing to
    subtract. *)
Definition settled (b : runeRange) (lo : Z) (result : list runeRange) (i l : Z) (res : list runeRange) : Prop :=
  0 ≤ i ∧ (∀ j s, j < i → zget sub j = Some s → rhi s ≤ rhi b) ∧ lo ≤ l ∧
  (∀ r, l ≤ r ≤ rhi b → has_rune sub r = false) ∧
  ∀ r, has_rune res r = true ↔
    has_rune result r = true ∨ (lo ≤ r < l ∧ r ≤ rhi b ∧ has_rune sub r = false).

Notation ends_before si lo := (∀ j s, j < si → zget sub j = Some s → rhi s < lo).

(** The loop stops where the next range starts beyond [b]. *)
Lemma settled_stop b si lo result :
  0 ≤ si → ends_before si lo → lo ≤ rhi b → (∀ s, zget sub si = Some s → rhi b < rlo s) →
  settled b lo result si lo result.
Proof.
  intros Hsi Hbefore Hlo Hafter. split_and!; [done| |done| |].
  - intros j s Hj Hs. specialize (Hbefore j s Hj Hs). lia.
  - intros r Hr. by eapply no_sub_between.
  - intros r. split; [auto|]. intros [?|?]; [done|lia].
Qed.

(** The range [s] at [si] reaches [lo]: what lies before it is kept, and its
    own runes are dropped. *)
Lemma piece_has b si s lo result r :
  0 ≤ si → ends_before si lo → zget sub si = Some s → lo ≤ rhi s → rlo s ≤ rhi b →
  has_rune (if lo <? rlo s then result ++ [mkRuneRange lo (i32 (rlo s - 1))] else result) r = true ↔
    has_rune result r = true ∨ (lo ≤ r < rhi s + 1 ∧ r ≤ rhi b ∧ has_rune sub r = false).
Proof.
  intros Hsi Hbefore Hs Hhi Hlo. pose proof (sub_ok _ _ Hs) as Hok. unfold maxSupportedRune in Hok.
  assert (∀ r, rlo s ≤ r ≤ rhi s → has_rune sub r = true) as Hdrop
    by (intros; apply has_rune_elem; exists s; split; [by eapply zget_elem|done]).
  destruct (Z.ltb_spec lo (rlo s)).
  - rewrite has_rune_app, orb_true_iff, i32_id by lia. cbn. unfold in_rune. cbn [rlo rhi].
    destruct (decide (rlo s ≤ r ≤ rhi s)); [rewrite Hdrop by done; naive_solver lia|].
    split; [|lia]. intros [?|?]; [auto|]. right. split_and!; [lia..|].
    eapply (no_sub_between si lo (rlo s - 1)); [done..| |lia]. intros s' Hs'. simplify_eq. lia.
  - split; [auto|]. intros [?|(? & ? & Hf)]; [done|]. rewrite Hdrop in Hf by lia. done.
Qed.

Lemma subtract_loop_exact fuel b si lo result i l res :
  0 ≤ si → ends_before si lo → lo ≤ rhi b →
  subtract_loop fuel sub b si lo result = Ret (i, l, res) → settled b lo result i l res.
Proof.
  revert si lo result. induction fuel as [|fuel IH]; intros si lo result Hsi Hbefore Hlo; cbn [subtract_loop].
  all: destruct (Z.ltb_spec si (len sub)) as [Hlt|Hge];
    [|intros [= <- <- <-]; apply settled_stop; [done..|]; intros s [_ ?]%zget_Some_range; lia].
  all: destruct (index_in_range sub si) as (s & -> & Hs); [lia|]; cbn [mbind go_bind];
    destruct (Z.leb_spec (rlo s) (rhi b)) as [Hle|Hgt];
    [|intros [= <- <- <-]; apply settled_stop; [done..|]; intros s' Hs'; simplify_eq; lia].
  { done. }
  assert (∀ x j s', j < si + 1 → zget sub j = Some s' → lo ≤ x → rhi s < x → rhi s' < x) as Hnext.
  { intros x j s' Hj Hs' Hx Hsx. destruct (decide (j = si)) as [-> | Hne]; [by simplify_eq|].
    specialize (Hbefore j s' ltac:(lia) Hs'). lia. }
  destruct (Z.ltb_spec (rhi s) lo) as [Hskip|Hhit].
  { intros Hrun. apply IH in Hrun; [done|lia| |done]. intros. by eapply Hnext; [| |lia|lia]. }
  pose proof (sub_ok _ _ Hs) as Hok. unfold maxSupportedRune in Hok. rewrite (i32_id (rhi s + 1)) by lia.
  pose proof (λ r, piece_has b si s lo result r Hsi Hbefore Hs Hhit Hle) as Hpiece.
  destruct (Z.ltb_spec (rhi b) (rhi s + 1)).
  - intros [= <- <- <-]. split_and!; [done| |lia|intros; lia|done].
    intros j s' Hj Hs'. specialize (Hbefore j s' Hj Hs'). lia.
  - intros Hrun. apply IH in Hrun as (Hi & Hends & Hl & Hrest & Hres);
      [|lia|intros; by eapply Hnext; [| |lia|lia]|lia].
    split_and!; [done|done|lia|done|]. intros r. rewrite Hres, Hpiece.
    destruct (decide (r < rhi s + 1)); naive_solver lia.
Qed.

(** Bases in order and disjoint. *)
Definition disjoint_ranges (a b : runeRange) : Prop := rhi a < rlo b.

Lemma subtract_bases_exact base si result res :
  StronglySorted disjoint_ranges base → Forall (λ x, range_ok x = true) base → 0 ≤ si ≤ len sub →
  Forall (λ b, ends_before si (rlo b)) base →
  subtract_bases base sub si result = Ret res →
  ∀ r, has_rune res r = true ↔ has_rune result r = true ∨ has_rune base r = true ∧ has_rune sub r = false.
Proof.
  intros Hs. revert si result. induction Hs as [|b base Hs IH Hb]; intros si result Hok Hsi Hbefore; cbn [subtract_bases].
  { intros [= <-] r. cbn. naive_solver. }
  inversion_clear Hok as [|? ? Hbok Hok']. inversion_clear Hbefore as [|? ? Hbef Hbef'].
  apply range_ok_spec in Hbok.
  destruct (step_back_ret (length sub) sub si (rlo b)) as (i & -> & Hi); [done|unfold len in *; lia|].
  cbn [mbind go_bind].
  destruct (subtract_loop_ret (length sub) sub b i (rlo b) result) as (j & lo & r0 & Hrun & Hj);
    [lia|unfold len in *; lia|]. rewrite Hrun. cbn [mbind go_bind].
  apply subtract_loop_exact in Hrun as (_ & Hends & Hlo & Hrest & Hres);
    [|lia|intros k s ? Hk; apply (Hbef k s); [lia|done]|lia].
  intros Hrest' r. apply (IH _ _ Hok') with (r := r) in Hrest'; [|lia|].
  - rewrite Hrest'. rewrite (has_rune_cons b), orb_true_iff.
    assert (has_rune (if lo <=? rhi b then r0 ++ [mkRuneRange lo (rhi b)] else r0) r = true ↔
      has_rune result r = true ∨ in_rune r b = true ∧ has_rune sub r = false) as ->; [|naive_solver].
    unfold in_rune. destruct (Z.leb_spec lo (rhi b)).
    + rewrite has_rune_app, orb_true_iff, Hres. cbn. unfold in_rune. cbn [rlo rhi].
      specialize (Hrest r). destruct (decide (r < lo)); naive_solver lia.
    + rewrite Hres. naive_solver lia.
  - apply list.Forall_forall. intros b' Hb' k s Hk Hs'. specialize (Hends k s Hk Hs').
    rewrite list.Forall_forall in Hb. specialize (Hb b' Hb'). unfold disjoint_ranges in Hb. lia.
Qed.

End subtract.

(** No rune lies in two ranges of the list. *)
Definition no_overlap (ranges : list runeRange) : Prop :=
  ∀ r, (length (filter (λ x, in_rune r x = true) ranges) ≤ 1)%nat.

Lemma no_overlap_sorted l :
  by_lo l → Forall (λ x, range_ok x = true) l → no_overlap l → StronglySorted disjoint_ranges l.
Proof.
  intros Hs. induction Hs as [|b l Hs IH Hb]; intros Hok Hno; constructor; inversion_clear Hok as [|? ? Hbo Hok'].
  - apply IH; [done|]. intros r. specialize (Hno r). rewrite filter_cons in Hno. case_decide; cbn in Hno; lia.
  - rewrite list.Forall_forall in Hb, Hok' |- *. intros y Hy. specialize (Hb y Hy).
    specialize (Hok' y Hy). apply range_ok_spec in Hok', Hbo. unfold disjoint_ranges.
    destruct (decide (rhi b < rlo y)) as [?|Hge]; [done|]. specialize (Hno (rlo y)).
    rewrite filter_cons, decide_True in Hno by (unfold in_rune; lia). cbn in Hno.
    assert (y ∈ filter (λ x, in_rune (rlo y) x = true) l) as Hin
      by (apply list_elem_of_filter; split; [unfold in_rune; lia|done]).
    destruct (filter _ l); [by apply elem_of_nil in Hin|cbn in Hno; lia].
Qed.

Lemma subtract_has base sub :
  forallb range_ok base = true → forallb range_ok sub = true → no_overlap base →
  ∃ l, subtractRuneRanges base sub = Ret l ∧
    ∀ r, has_rune l r = true ↔ has_rune base r = true ∧ has_rune sub r = false.
Proof.
  intros Hb Hs Hno. destruct (subtractRuneRanges_ret base sub) as (l & Hl). exists l. split; [done|].
  assert (∀ m, forallb range_ok m = true → Forall (λ x, range_ok x = true) (sort_slice range_lo_less m)) as Hok.
  { intros m Hm. rewrite sort_slice_perm. apply list.Forall_forall. intros x Hx%list_elem_of_In.
    by eapply forallb_forall in Hm. }
  intros r. unfold subtractRuneRanges in Hl. apply (subtract_bases_exact _ (sort_by_lo_slice _) (Hok _ Hs)) with (r := r) in Hl.
  - rewrite Hl, has_rune_nil. rewrite !(has_rune_perm (sort_slice _ _) _ r (sort_slice_perm _ _ _)). naive_solver.
  - apply no_overlap_sorted; [apply sort_by_lo_slice|by apply Hok|]. intros x. rewrite sort_slice_perm. apply Hno.
  - by apply Hok.
  - pose proof (len_nonneg (sort_slice range_lo_less sub)). lia.
  - apply list.Forall_forall. intros b _ j s Hj Hz. apply zget_Some_range in Hz. lia.
Qed.

(** Ranges listed by distinct lower ends are sorted already. *)
Lemma sort_slice_id l :
  StronglySorted (λ a b, rlo a < rlo b) l → sort_slice range_lo_less l = l.
Proof.
  intros Hl. rewrite (sort_slice_unique range_lo_less _ insertion_slice_sort); [|apply (strict_weak_key rlo)|].
  - cbn. induction Hl as [|x l Hl IH Hx]; cbn; [done|]. fold (insertion_sort range_lo_less l). rewrite IH.
    destruct l as [|y l]; [done|]. cbn. inversion_clear Hx. unfold range_lo_less. by rewrite (proj2 (Z.ltb_ge _ _)) by lia.
  - intros x y (i & _ & Hi)%elem_zget (j & _ & Hj)%elem_zget. unfold range_lo_less. intros H1 H2.
    destruct (Z.lt_total i j) as [Hij|[-> |Hij]]; [|by simplify_eq|].
    + pose proof (StronglySorted_zget _ _ _ _ _ _ Hl Hi Hj Hij). cbn in *. lia.
    + pose proof (StronglySorted_zget _ _ _ _ _ _ Hl Hj Hi Hij). cbn in *. lia.
Qed.

(** C34.  Inner classes compute set operations.  The intersection holds exactly the
    runes of both classes, whatever their ranges.  The difference holds exactly
    the runes of the left class outside the right one, when the ranges are in
    order and no rune lies in two ranges of the left class; without that
    condition it may keep runes that were to be removed, such as rune 55 of
    0-200 and 50-60 less 0-100 and 5-6. *)
Theorem class_operations_exact base other :
  (∀ r, has_rune (intersectRuneRanges base other) r = true ↔ has_rune base r = true ∧ has_rune other r = true) ∧
  (forallb range_ok base = true → forallb range_ok other = true → no_overlap base →
   ∃ l, subtractRuneRanges base other = Ret l ∧
     ∀ r, has_rune l r = true ↔ has_rune base r = true ∧ has_rune other r = false) ∧
  ∃ l, subtractRuneRanges [mkRuneRange 0 200; mkRuneRange 50 60] [mkRuneRange 0 100; mkRuneRange 5 6] = Ret l ∧
    has_rune l 55 = true.
Proof.
  split_and!; [apply intersect_has|apply subtract_has|].
  unfold subtractRuneRanges. rewrite !sort_slice_id by (repeat constructor).
  eexists. split; reflexivity.
Qed.

End sorted.

Lemma class_operations_exact_witness :
  let base := [mkRuneRange 48 57; mkRuneRange 97 122] in let other := [mkRuneRange 55 99] in
  forallb range_ok base = true ∧ forallb range_ok other = true ∧ no_overlap base ∧
  ∃ l, subtractRuneRanges base other = Ret l ∧ has_rune l 100 = true ∧ has_rune l 56 = false.
Proof.
  intros base other.
  assert (no_overlap base) as Hno.
  { intros r. unfold base. rewrite !filter_cons, filter_nil. unfold in_rune. cbn [rlo rhi].
    repeat case_decide; cbn; lia. }
  split; [reflexivity|]. split; [reflexivity|]. split; [exact Hno|].
  destruct (proj1 (proj2 (class_operations_exact base other)) eq_refl eq_refl Hno) as (l & Hl & Hr).
  exists l. split; [exact Hl|]. split; [by apply Hr|]. apply not_true_iff_false. intros H%Hr. by destruct H.
Defined.
