(* ===== verification/RegexPrint.v ===== *)
(** * Printed patterns parse back

    A printer for trees of regular expressions, with the precedences of the
    pattern syntax, and the proof that the parser of grammargen/regex.go returns
    the printed tree.  The printer is the specification: it says which pattern
    denotes which tree. *)

From Stdlib Require Import ZArith Lia ZifyBool String.
From stdpp Require Import base tactics list numbers option sets.
From S2P Require Import Prelude Utf8 StateError SliceSort Regex RegexParse RegexParseCorrect.
Local Open Scope Z_scope.

(** ** The printer *)

(** Runes with a meaning of their own, escaped outside and inside classes. *)
Definition meta : list Z := bytes_of "()[.\|*+?{".
Definition class_meta : list Z := bytes_of "[]\^-&".

Definition escaped (special : list Z) (r : Z) : list Z :=
  if bool_decide (r ∈ special) then [92; r] else [r].

Definition print_range (x : runeRange) : list Z :=
  if rlo x =? rhi x then escaped class_meta (rlo x)
  else escaped class_meta (rlo x) ++ [45] ++ escaped class_meta (rhi x).

Fixpoint decimal (fuel : nat) (n : Z) : list Z :=
  match fuel with
  | O => []
  | S fuel => if n <? 10 then [48 + n] else decimal fuel (n / 10) ++ [48 + n mod 10]
  end.

(** Nineteen digits write every Go integer. *)
Definition print_int (n : Z) : list Z := decimal 19 n.

Definition print_count (min max : Z) : list Z :=
  [123] ++ print_int min ++ [44] ++ (if max <? 0 then [] else print_int max) ++ [125].

Definition group (enclose : bool) (s : list Z) : list Z :=
  if enclose then [40; 63; 58] ++ s ++ [41] else s.

(** Level 0 is a choice, 1 a sequence, 2 a repetition and 3 an atom: a node
    above its level is put in a group.  The result is a list of runes. *)
Fixpoint print (level : nat) (node : regexNode) : list Z :=
  match node with
  | NilNode => []
  | mkNode kind children runes negate value count countMax =>
    match kind with
    | regexLiteral => escaped meta value
    | regexCharClass => [91] ++ (if negate then [94] else []) ++ concat (map print_range runes) ++ [93]
    | regexDot => [46]
    | regexSeq => group (1 <? level)%nat (concat (map (print 2) children))
    | regexAlt => group (0 <? level)%nat
        match children with
        | [] => []
        | c :: cs => print 1 c ++ concat (map (λ d, [124] ++ print 1 d) cs)
        end
    | regexStar => group (2 <? level)%nat (concat (map (print 3) children) ++ [42])
    | regexPlus => group (2 <? level)%nat (concat (map (print 3) children) ++ [43])
    | regexQuestion => group (2 <? level)%nat (concat (map (print 3) children) ++ [63])
    | regexCount => group (2 <? level)%nat (concat (map (print 3) children) ++ print_count count countMax)
    | regexOther _ => []
    end
  end.

Definition range_valid (x : runeRange) : bool := valid_rune (rlo x) && valid_rune (rhi x).

(** The trees that patterns denote: scalar values as runes, classes with a
    range, sequences of other than one item, choices of at least two, counts
    that are Go integers (a maximum of -1 is no maximum). *)
Fixpoint canonical (node : regexNode) : bool :=
  match node with
  | mkNode regexLiteral [] [] false v 0 0 => valid_rune v
  | mkNode regexCharClass [] runes _ 0 0 0 => bool_decide (runes ≠ []) && forallb range_valid runes
  | mkNode regexDot [] [] false 0 0 0 => true
  | mkNode regexSeq cs [] false 0 0 0 => negb (length cs =? 1)%nat && forallb canonical cs
  | mkNode regexAlt cs [] false 0 0 0 => (2 <=? length cs)%nat && forallb canonical cs
  | mkNode (regexStar | regexPlus | regexQuestion) [c] [] false 0 0 0 => canonical c
  | mkNode regexCount [c] [] false 0 min max =>
    in_range 0 (2 ^ 63 - 1) min && in_range (-1) (2 ^ 63 - 1) max && canonical c
  | _ => false
  end.

(** ** Numbers *)

Lemma digits_app base acc l k : digits base acc (l ++ k) = digits base acc l ≫= λ a, digits base a k.
Proof.
  revert acc. induction l as [|b l IH]; intros acc; [done|]. cbn [app digits].
  destruct (digit_value b); [|done]. cbn. case_match; [apply IH|done].
Qed.

Lemma digit_value_dec d : 0 ≤ d < 10 → digit_value (48 + d) = Some d.
Proof. intros. unfold digit_value, in_range. replace (48 + d - 48) with d by lia. by zcases; try lia. Qed.

Lemma digits_decimal fuel n :
  0 ≤ n < 10 ^ Z.of_nat fuel → digits 10 0 (decimal fuel n) = Some n.
Proof.
  revert n. induction fuel as [|fuel IH]; intros n Hn; [cbn in *; f_equal; lia|]. cbn [decimal].
  rewrite Nat2Z.inj_succ, Z.pow_succ_r in Hn by lia.
  pose proof (Z.div_mod n 10). pose proof (Z.mod_pos_bound n 10).
  destruct (Z.ltb_spec n 10).
  - cbn [digits]. rewrite digit_value_dec by lia. cbn. by rewrite (proj2 (Z.ltb_lt n 10)) by lia.
  - rewrite digits_app, IH by (split; [apply Z.div_pos; lia|apply Z.div_lt_upper_bound; lia]).
    cbn [mbind option_bind digits]. rewrite digit_value_dec by lia. cbn.
    rewrite (proj2 (Z.ltb_lt _ 10)) by lia. f_equal. lia.
Qed.

Lemma decimal_digits fuel n : 0 ≤ n → Forall (λ b, 48 ≤ b ≤ 57) (decimal fuel n).
Proof.
  revert n. induction fuel as [|fuel IH]; intros n Hn; cbn [decimal]; [constructor|].
  pose proof (Z.mod_pos_bound n 10). destruct (Z.ltb_spec n 10); [repeat constructor; lia|].
  apply Forall_app. split; [apply IH, Z.div_pos; lia|]. repeat constructor; lia.
Qed.

Lemma print_int_ne n : print_int n ≠ [].
Proof. unfold print_int. cbn [decimal]. case_match; [done|]. by intros [_ ?]%app_nil. Qed.

Lemma digit_not_space b : 48 ≤ b ≤ 57 → is_space b = false.
Proof. unfold is_space, in_range. lia. Qed.

Lemma DecodeLastRune_digit l b : 48 ≤ b ≤ 57 → DecodeLastRune (l ++ [b]) = (b, 1).
Proof.
  intros Hb. unfold DecodeLastRune. rewrite len_app. change (len [b]) with 1.
  rewrite zget_app_r by lia. replace (len l + 1 - 1 - len l) with 0 by lia. rewrite zget_cons_0.
  unfold RuneSelf. by rewrite (proj2 (Z.ltb_lt _ _)) by lia.
Qed.

Lemma TrimSpace_digits s : Forall (λ b, 48 ≤ b ≤ 57) s → TrimSpace s = s.
Proof.
  intros Hs. unfold TrimSpace.
  assert (trim_left (length s) s = s) as ->.
  { destruct Hs as [|b s Hb Hs]; [done|]. cbn [length trim_left]. rewrite DecodeRune_lt_RuneSelf by lia.
    by rewrite digit_not_space. }
  destruct s as [|b s _] using rev_ind; [done|]. apply Forall_app in Hs as [_ Hb]. inversion_clear Hb.
  rewrite length_app, Nat.add_comm. cbn [length Nat.add trim_right].
  destruct (s ++ [b]) as [|x l] eqn:E; [done|]. rewrite <-E, DecodeLastRune_digit by done.
  by rewrite digit_not_space.
Qed.

Lemma Atoi_print n : 0 ≤ n < 2 ^ 63 → Atoi (print_int n) = Some n.
Proof.
  intros Hn. pose proof (digits_decimal 19 n ltac:(cbn; lia)) as Hd. fold (print_int n) in Hd.
  pose proof (decimal_digits 19 n ltac:(lia)) as Hds. fold (print_int n) in Hds.
  pose proof (print_int_ne n). destruct Hds as [|b s Hb Hs]; [done|]. unfold Atoi.
  destruct (Z.eqb_spec b 45); [lia|]. destruct (Z.eqb_spec b 43); [lia|]. rewrite Hd. cbn.
  rewrite (proj2 (andb_true_iff _ _)); [done|]. lia.
Qed.

(** ** Parsing from the runes that are left *)

Section input.
Context `{SliceSort} (U : unicode) (input : list Z).

(** The runes left at a position. *)
Definition at_ (pos : Z) (rs : list Z) : Prop :=
  0 ≤ pos ≤ len input ∧ slice input pos (len input) = encode rs ∧ Forall (λ r, valid_rune r = true) rs.

(** From the runes [rs], [m] returns [a] and leaves the runes [rs']. *)
Definition parses {A} (m : parser A) (rs : list Z) (a : A) (rs' : list Z) : Prop :=
  ∀ pos, at_ pos rs → ∃ pos', m pos = Ret (inr (a, pos')) ∧ at_ pos' rs'.

Lemma parses_ret {A} (a : A) rs : parses (mret a) rs a rs.
Proof. intros pos Hp. eauto. Qed.

Lemma parses_bind {A B} (m : parser A) (f : A → parser B) rs a rs1 b rs2 :
  parses m rs a rs1 → parses (f a) rs1 b rs2 → parses (m ≫= f) rs b rs2.
Proof.
  intros Hm Hf pos Hp. destruct (Hm pos Hp) as (pos1 & E & Hp1). destruct (Hf pos1 Hp1) as (pos2 & E2 & Hp2).
  exists pos2. split; [|done]. by rewrite (ste_bind_ok _ _ _ _ _ E).
Qed.

Lemma at_decode pos r rs : at_ pos (r :: rs) →
  pos + len (EncodeRune r) ≤ len input ∧ 0 < len (EncodeRune r) ∧
  DecodeRune (slice input pos (len input)) = (r, len (EncodeRune r)) ∧ at_ (pos + len (EncodeRune r)) rs.
Proof.
  intros (Hp & Hs & Hv). inversion_clear Hv as [|? ? Hr Hrs].
  change (encode (r :: rs)) with (EncodeRune r ++ encode rs) in Hs.
  pose proof (f_equal len Hs) as Hl. rewrite len_slice, len_app in Hl by lia.
  pose proof (len_nonneg (encode rs)). pose proof (EncodeRune_ne r Hr).
  assert (0 < len (EncodeRune r)) as Hpos by (destruct (EncodeRune r); [done|rewrite len_cons; pose proof (len_nonneg l); lia]).
  split_and!; [lia|done|rewrite Hs; by apply DecodeRune_EncodeRune|]. split_and!; [lia..| |done].
  rewrite <-(slice_app_split input pos (pos + len (EncodeRune r)) (len input)) in Hs by lia.
  apply app_inj_1 in Hs as [_ ?]; [done|]. apply Nat2Z.inj. fold (len (slice input pos (pos + len (EncodeRune r)))).
  fold (len (EncodeRune r)). rewrite len_slice; lia.
Qed.

Lemma at_nil pos : at_ pos [] → pos = len input.
Proof. intros (Hp & Hs & _). apply (f_equal len) in Hs. rewrite len_slice in Hs by lia. change (len (encode [])) with 0 in Hs. lia. Qed.

Lemma parses_peek r rs : parses (peek input) (r :: rs) (Some r) (r :: rs).
Proof.
  intros pos Hp. exists pos. split; [|done]. destruct (at_decode _ _ _ Hp) as (? & ? & Hd & _). destruct Hp as [Hp _].
  unfold peek. rewrite (proj2 (Z.leb_gt _ _)) by lia. rewrite gslice_ok by lia. cbn. by rewrite Hd.
Qed.

Lemma parses_peek_nil : parses (peek input) [] None [].
Proof. intros pos Hp. exists pos. split; [|done]. rewrite (at_nil _ Hp). apply peek_end. Qed.

Lemma parses_advance r rs : parses (advance input) (r :: rs) r rs.
Proof.
  intros pos Hp. destruct (at_decode _ _ _ Hp) as (? & ? & Hd & Hat). destruct Hp as [Hp _].
  eexists. split; [|done]. unfold advance. rewrite gslice_ok by lia. cbn. by rewrite Hd.
Qed.

Lemma parses_peek_is c rs : parses (peek_is input c) rs (bool_decide (head rs = Some c)) rs.
Proof.
  unfold peek_is. destruct rs as [|r rs].
  - eapply parses_bind; [apply parses_peek_nil|]. apply parses_ret.
  - eapply parses_bind; [apply parses_peek|]. apply parses_ret.
Qed.

(** Dispatch on the next rune, and dropping it. *)
Lemma parses_peek_then {B} (f : option Z → parser B) rs b rs' :
  parses (f (head rs)) rs b rs' → parses (peek input ≫= f) rs b rs'.
Proof.
  intros Hf. destruct rs; (eapply parses_bind; [first [apply parses_peek|apply parses_peek_nil]|done]).
Qed.

Lemma parses_peek_is_then {B} c (f : bool → parser B) rs b rs' :
  parses (f (bool_decide (head rs = Some c))) rs b rs' → parses (peek_is input c ≫= f) rs b rs'.
Proof. intros Hf. eapply parses_bind; [apply parses_peek_is|done]. Qed.

Lemma parses_advance_then {B} (m : parser B) r rs b rs' :
  parses m rs b rs' → parses (advance input;; m) (r :: rs) b rs'.
Proof. intros Hm. eapply parses_bind; [apply parses_advance|done]. Qed.

(** A step that reads the position. *)
Lemma parses_read {A B} (m : parser A) (f : A → parser B) rs a b rs' :
  (∀ pos, at_ pos rs → m pos = Ret (inr (a, pos))) → parses (f a) rs b rs' → parses (m ≫= f) rs b rs'.
Proof. intros Hm. apply parses_bind. intros pos Hp. eauto. Qed.

(** ** Escapes and classes *)

(** Runes that an escape denotes as themselves. *)
Definition plain_escape (r : Z) : bool :=
  negb (bool_decide (r ∈ bytes_of "nrtabfv0uUxdDwWsSpP")).

Lemma special_plain r : r ∈ meta ∨ r ∈ class_meta → plain_escape r = true ∧ 0 ≤ r < 128.
Proof.
  assert (Forall (λ r, plain_escape r = true ∧ 0 ≤ r < 128) (meta ++ class_meta)) as Hf.
  { apply list.Forall_forall. intros x Hx.
    assert (forallb (λ r, plain_escape r && in_range 0 127 r) (meta ++ class_meta) = true) as Hb by reflexivity.
    rewrite forallb_forall in Hb. specialize (Hb x (proj1 (list_elem_of_In _ _) Hx)). unfold in_range in Hb.
    apply andb_true_iff in Hb as [? ?]. split; [done|lia]. }
  intros Hr. rewrite list.Forall_forall in Hf. apply Hf, elem_of_app. tauto.
Qed.

Lemma plain_neq r c : plain_escape r = true → c ∈ bytes_of "nrtabfv0uUxdDwWsSpP" → (r =? c) = false.
Proof.
  unfold plain_escape. intros Hp%negb_true_iff%bool_decide_eq_false Hc. apply Z.eqb_neq. by intros ->.
Qed.

(** Membership of concrete runes, by evaluation. *)
Ltac in_list := refine (bool_decide_eq_true_1 _ _); vm_compute; reflexivity.

Ltac plain_cases H := repeat (rewrite (plain_neq _ _ H); [|in_list]).

Lemma parses_escape r rs : plain_escape r = true → parses (parseEscapeChar input) (r :: rs) r rs.
Proof.
  intros Hr. apply parses_peek_then. cbn [head]. apply parses_advance_then. plain_cases Hr. apply parses_ret.
Qed.

Lemma parses_class_char r rs : parses (parseCharClassChar input) (escaped class_meta r ++ rs) r rs.
Proof.
  unfold escaped. apply parses_peek_then. case_bool_decide as Hm; cbn [head app].
  - apply parses_advance_then, parses_escape. apply special_plain. auto.
  - destruct (Z.eqb_spec r 92) as [-> | Hne]; [|apply parses_advance_then, parses_ret].
    destruct Hm. in_list.
Qed.

(** The rune that starts a printed class item. *)
Lemma escaped_head special r rs : 92 ∈ special →
  ∃ h t, escaped special r ++ rs = h :: t ∧ (∀ c, c ∈ special → c ≠ 92 → h ≠ c).
Proof.
  intros Hs. unfold escaped. case_bool_decide; cbn [app]; eexists _, _; (split; [done|]); [congruence|].
  intros c Hc _ ->. done.
Qed.

Lemma parses_class_range x rest :
  (∃ h t, rest = h :: t ∧ h ≠ 45) → parses (class_range input) (print_range x ++ rest) x rest.
Proof.
  intros (h & t & -> & Hh). unfold class_range, print_range. destruct x as [lo hi]. cbn [rlo rhi].
  destruct (Z.eqb_spec lo hi) as [-> | Hne].
  - eapply parses_bind; [apply parses_class_char|]. apply parses_peek_is_then. cbn [head].
    rewrite bool_decide_false by naive_solver. apply parses_ret.
  - rewrite <-!app_assoc. eapply parses_bind; [apply parses_class_char|]. apply parses_peek_is_then. cbn [head app].
    rewrite bool_decide_true by done.
    intros pos Hp. assert (parses (
        advance input;; r3 ← peek input;
        match r3 with
        | Some r3 => if r3 =? 93 then set_pos pos;; mret (mkRuneRange lo lo)
                     else hi0 ← parseCharClassChar input; mret (mkRuneRange lo hi0)
        | None => set_pos pos;; mret (mkRuneRange lo lo)
        end) (45 :: escaped class_meta hi ++ h :: t) (mkRuneRange lo hi) (h :: t)) as Hrun; [|by apply Hrun].
    apply parses_advance_then, parses_peek_then.
    destruct (escaped_head class_meta hi (h :: t)) as (h' & t' & E & Hh'); [in_list|]. rewrite E. cbn [head].
    rewrite (proj2 (Z.eqb_neq _ _)) by (apply Hh'; [in_list|done]). rewrite <-E.
    eapply parses_bind; [apply parses_class_char|]. apply parses_ret.
Qed.

(** The start of a printed range: an escape, or a rune without a meaning. *)
Lemma print_range_head x rs :
  (∃ c t, print_range x ++ rs = 92 :: c :: t ∧ plain_escape c = true ∧ 0 ≤ c < 128)
  ∨ ∃ h t, print_range x ++ rs = h :: t ∧ h ∉ class_meta.
Proof.
  assert (∀ r s, (∃ c t, escaped class_meta r ++ s = 92 :: c :: t ∧ plain_escape c = true ∧ 0 ≤ c < 128)
    ∨ ∃ h t, escaped class_meta r ++ s = h :: t ∧ h ∉ class_meta) as He.
  { intros r s. unfold escaped. case_bool_decide as Hr; [left|right]; eexists _, _; (split; [done|]); [|done].
    apply special_plain. auto. }
  unfold print_range. case_match; [apply He|]. rewrite <-!app_assoc. apply He.
Qed.

(** In front of the closing bracket comes neither a dash nor a caret. *)
Lemma class_rest_head xs rest :
  ∃ h t, concat (map print_range xs) ++ 93 :: rest = h :: t ∧ h ≠ 45 ∧ h ≠ 94.
Proof.
  destruct xs as [|x xs]; cbn [map concat app]; [by exists 93, rest|]. rewrite <-app_assoc.
  destruct (print_range_head x (concat (map print_range xs) ++ 93 :: rest)) as [(c & t & -> & _)|(h & t & -> & Hh)].
  - by eexists _, _.
  - eexists _, _. split; [done|]. split; intros ->; destruct Hh; in_list.
Qed.

Lemma at_next_byte pos c rs : at_ pos (92 :: c :: rs) → 0 ≤ c < 128 → zget input (pos + 1) = Some c.
Proof.
  intros Hp Hc. destruct (at_decode _ _ _ Hp) as (_ & _ & _ & Hp1). change (len (EncodeRune 92)) with 1 in Hp1.
  destruct Hp1 as (Hp1 & Hs & _). change (encode (c :: rs)) with (EncodeRune c ++ encode rs) in Hs.
  assert (EncodeRune c = [c]) as E by (unfold EncodeRune, in_range; by zcases; try lia). rewrite E in Hs.
  destruct (zget_in_range input (pos + 1)) as [b Hb].
  { destruct (decide (pos + 1 = len input)) as [He|]; [|lia]. rewrite He, slice_nil in Hs by lia. done. }
  rewrite (slice_cons _ _ _ b) in Hs; [by injection Hs as <- _|done|].
  apply zget_Some_range in Hb. lia.
Qed.

Lemma parses_next_byte {B} (f : option Z → parser B) rs b rs' :
  (∀ next, (∀ c t, rs = 92 :: c :: t → 0 ≤ c < 128 → next = Some c) → parses (f next) rs b rs') →
  parses (next_byte input ≫= f) rs b rs'.
Proof.
  intros Hf pos Hp. change ((next_byte input ≫= f) pos) with (f (zget input (pos + 1)) pos).
  apply Hf; [|done]. intros c t -> Hc. by eapply at_next_byte.
Qed.

Lemma shorthand_plain c : plain_escape c = true → class_shorthand U input c = None.
Proof. intros Hc. unfold class_shorthand. by plain_cases Hc. Qed.

Lemma parses_class_loop fuel negate first acc ranges rest :
  (length (concat (map print_range ranges)) < fuel)%nat → (first = true → ranges ≠ []) →
  parses (class_loop U input fuel negate first acc) (concat (map print_range ranges) ++ 93 :: rest)
    (classNode (acc ++ ranges) negate) rest.
Proof.
  revert fuel first acc. induction ranges as [|x xs IH]; intros [|fuel] first acc Hf Hfirst; try (cbn in Hf; lia);
    cbn [class_loop map concat app]; apply parses_peek_then.
  { destruct first; [by destruct Hfirst|]. cbn. rewrite app_nil_r. apply parses_advance_then, parses_ret. }
  cbn [map concat] in Hf. rewrite length_app in Hf.
  assert (1 ≤ length (print_range x))%nat by (unfold print_range, escaped; repeat case_match; cbn; lia).
  rewrite <-app_assoc. set (more := concat (map print_range xs) ++ 93 :: rest).
  assert (parses (y ← class_range input; class_loop U input fuel negate false (acc ++ [y])) (print_range x ++ more)
    (classNode (acc ++ x :: xs) negate) rest) as Hitem.
  { eapply parses_bind.
    - apply parses_class_range. destruct (class_rest_head xs rest) as (h & t & E & ? & _). eauto.
    - rewrite (cons_middle x acc xs), app_assoc. apply IH; [lia|done]. }
  destruct (print_range_head x more) as [(c & t & E & Hc & Hr)|(h & t & E & Hh)]; rewrite E; cbn [head].
  - cbn [Z.eqb Pos.eqb andb]. apply parses_next_byte. intros next Hn. rewrite (Hn c t eq_refl Hr). cbn [mbind option_bind].
    rewrite shorthand_plain by done. cbn. rewrite <-E. exact Hitem.
  - assert (∀ d, d ∈ class_meta → (h =? d) = false) as Hne by (intros d Hd; apply Z.eqb_neq; congruence).
    rewrite (Hne 93) by in_list. cbn [andb]. apply parses_next_byte. intros next _.
    rewrite (Hne 92), (Hne 38) by in_list. cbn [andb]. rewrite <-E. exact Hitem.
Qed.

(** No more runes than bytes are left. *)
Lemma at_length pos rs : at_ pos rs → (length rs ≤ length input)%nat.
Proof.
  intros (Hp & Hs & Hv). apply (f_equal len) in Hs. rewrite len_slice in Hs by lia.
  assert (length rs ≤ length (encode rs))%nat; [|unfold len in *; lia].
  clear -Hv. induction Hv as [|r rs Hr Hrs IH]; [done|]. change (encode (r :: rs)) with (EncodeRune r ++ encode rs).
  rewrite length_app. cbn [length]. pose proof (EncodeRune_ne r Hr). destruct (EncodeRune r); [done|]. cbn. lia.
Qed.

Lemma parses_bounded {A} (m : parser A) rs a rs' :
  ((length rs ≤ length input)%nat → parses m rs a rs') → parses m rs a rs'.
Proof. intros Hm pos Hp. apply Hm; [|done]. by eapply at_length. Qed.

Lemma parses_class runes (negate : bool) rest : runes ≠ [] →
  parses (parseCharClass U input)
    (91 :: (if negate then [94] else []) ++ concat (map print_range runes) ++ 93 :: rest)
    (classNode runes negate) rest.
Proof.
  intros Hne. apply parses_bounded. intros Hlen. cbn [length] in Hlen. rewrite !length_app in Hlen.
  unfold parseCharClass. apply parses_advance_then, parses_peek_is_then.
  destruct negate; cbn [app head].
  - rewrite bool_decide_true by done. apply (parses_bind _ _ _ () (concat (map print_range runes) ++ 93 :: rest)).
    + apply parses_advance_then, parses_ret.
    + apply parses_class_loop; [lia|done].
  - rewrite bool_decide_false; [|destruct (class_rest_head runes rest) as (h & t & -> & _ & ?); cbn; congruence].
    eapply parses_bind; [apply parses_ret|]. apply parses_class_loop; [lia|done].
Qed.

(** ** Counts *)

Lemma parses_until_brace fuel e cs rest :
  (length cs < fuel)%nat → 125 ∉ cs → parses (until_brace input fuel e) (cs ++ 125 :: rest) () (125 :: rest).
Proof.
  revert fuel. induction cs as [|c cs IH]; intros [|fuel] Hf Hc; try (cbn in Hf; lia); cbn [until_brace app];
    apply parses_peek_then; cbn [head].
  - apply parses_ret.
  - apply not_elem_of_cons in Hc as [Hne Hc]. rewrite (proj2 (Z.eqb_neq _ _)) by done.
    apply parses_advance_then, IH; [cbn in Hf; lia|done].
Qed.

Lemma encode_ascii cs : Forall (λ b, 0 ≤ b < 128) cs → encode cs = cs.
Proof.
  induction 1 as [|c cs Hc Hcs IH]; [done|]. change (encode (c :: cs)) with (EncodeRune c ++ encode cs).
  rewrite IH. unfold EncodeRune, in_range. by zcases; try lia.
Qed.

Lemma encode_app a b : encode (a ++ b) = encode a ++ encode b.
Proof. unfold encode. by rewrite map_app, concat_app. Qed.

Lemma parses_braced e cs rest :
  Forall (λ b, 0 ≤ b < 128) cs → 125 ∉ cs → parses (braced input e) (cs ++ 125 :: rest) cs rest.
Proof.
  intros Ha Hc. apply parses_bounded. rewrite length_app. intros Hlen pos Hp.
  assert (parses (until_brace input (S (length input)) e) (cs ++ 125 :: rest) () (125 :: rest)) as Hu
    by (apply parses_until_brace; [lia|done]).
  destruct (Hu pos Hp) as (pos1 & E1 & Hp1). destruct (parses_advance _ _ pos1 Hp1) as (pos2 & E2 & Hp2).
  exists pos2. split; [|done]. unfold braced, get_pos, getS. unfold mbind at 1, ste_bind at 1.
  rewrite (ste_bind_ok _ _ _ _ _ E1). unfold mbind at 1, ste_bind at 1.
  destruct Hp as (Hp & Hs & _), Hp1 as (Hp1 & Hs1 & _).
  rewrite encode_app, <-Hs1, (encode_ascii cs) in Hs by done.
  pose proof (f_equal len Hs) as Hl. rewrite len_app, !len_slice in Hl by lia.
  pose proof (len_nonneg cs).
  rewrite <-(slice_app_split input pos pos1 (len input)) in Hs by lia. apply app_inv_tail in Hs.
  unfold lift_go. unfold mbind at 1, ste_bind at 1. rewrite gslice_ok by lia. rewrite Hs. cbn [mbind go_bind].
  by rewrite (ste_bind_ok _ _ _ _ _ E2).
Qed.

Lemma index_byte_app l b s : b ∉ l → index_byte (l ++ b :: s) b = Some (len l).
Proof.
  induction l as [|x l IH]; intros Hb; cbn [app index_byte]; [by rewrite Z.eqb_refl|].
  apply not_elem_of_cons in Hb as [Hne Hb]. rewrite (proj2 (Z.eqb_neq _ _)) by done. rewrite IH by done.
  cbn. f_equal. rewrite len_cons. lia.
Qed.

Definition count_ok (min max : Z) : Prop := 0 ≤ min < 2 ^ 63 ∧ -1 ≤ max < 2 ^ 63.

Lemma parses_count min max rest :
  count_ok min max → parses (parseCount input) (print_count min max ++ rest) (min, max) rest.
Proof.
  intros [Hmin Hmax]. unfold print_count. rewrite <-!app_assoc.
  set (b := if max <? 0 then [] else print_int max).
  assert (Forall (λ b, 48 ≤ b ≤ 57) (print_int min)) as Da by (apply decimal_digits; lia).
  assert (Forall (λ b, 48 ≤ b ≤ 57) b) as Db by (unfold b; case_match; [constructor|apply decimal_digits; lia]).
  assert (∀ l c, Forall (λ b, 48 ≤ b ≤ 57) l → ¬ 48 ≤ c ≤ 57 → c ∉ l) as Hout
    by (intros l c Hl Hc Hin; rewrite list.Forall_forall in Hl; specialize (Hl c Hin); lia).
  unfold parseCount. apply parses_advance_then.
  eapply (parses_bind _ _ _ (print_int min ++ 44 :: b)).
  { replace (print_int min ++ [44] ++ b ++ [125] ++ rest) with ((print_int min ++ 44 :: b) ++ 125 :: rest)
      by (by rewrite <-app_assoc). apply parses_braced.
    - assert (∀ l, Forall (λ b, 48 ≤ b ≤ 57) l → Forall (λ b, 0 ≤ b < 128) l) as Hw
        by (intros l Hl; eapply Forall_impl; [exact Hl|]; cbn beta; lia).
      apply Forall_app. split; [auto|]. constructor; [lia|auto].
    - rewrite not_elem_of_app, not_elem_of_cons. split_and!; [by apply Hout; [|lia]|lia|by apply Hout; [|lia]]. }
  cbn beta. rewrite index_byte_app by (by apply Hout; [|lia]).
  assert (slice (print_int min ++ 44 :: b) 0 (len (print_int min)) = print_int min) as ->.
  { rewrite slice_app_l by lia. apply slice_all. }
  assert (slice (print_int min ++ 44 :: b) (len (print_int min) + 1) (len (print_int min ++ 44 :: b)) = b) as ->.
  { rewrite slice_app_r; [|rewrite len_cons; pose proof (len_nonneg b); lia].
    change (44 :: b) with ([44] ++ b). change 1 with (len [44] + 0) at 1. rewrite slice_app_r; [apply slice_all|].
    pose proof (len_nonneg b). lia. }
  rewrite !TrimSpace_digits by done. eapply parses_bind; [rewrite Atoi_print by lia; apply parses_ret|].
  cbn zeta. unfold b. destruct (Z.ltb_spec max 0).
  - rewrite bool_decide_true by done. replace max with (-1) by lia. apply parses_ret.
  - rewrite bool_decide_false by apply print_int_ne. rewrite Atoi_print by lia.
    eapply parses_bind; apply parses_ret.
Qed.

(** ** Nodes *)

Notation is_canonical c := (canonical c = true).

(** The shapes of canonical trees. *)
Inductive canon : regexNode → Prop :=
| CLiteral v : valid_rune v = true → canon (literalNode v)
| CClass runes negate : runes ≠ [] → forallb range_valid runes = true → canon (classNode runes negate)
| CDot : canon dotNode
| CSeq cs : length cs ≠ 1%nat → Forall (λ c, is_canonical c) cs → canon (groupNode regexSeq cs)
| CAlt c d cs : Forall (λ c, is_canonical c) (c :: d :: cs) → canon (groupNode regexAlt (c :: d :: cs))
| CRepeat k c : k ∈ [(regexStar, 42); (regexPlus, 43); (regexQuestion, 63)] → is_canonical c →
    canon (groupNode k.1 [c])
| CCount c min max : count_ok min max → is_canonical c → canon (countNode c min max).

Lemma canonical_view n : is_canonical n → canon n.
Proof.
  destruct n as [|kind cs runes negate value count countMax]; [done|].
  assert (∀ k (c : regexNode), k ∈ [(regexStar, 42); (regexPlus, 43); (regexQuestion, 63)] → is_canonical c →
    canon (groupNode k.1 [c])) as Hrep by (intros; by constructor).
  destruct kind; cbn [canonical]; repeat case_match; try done; subst.
  - apply CLiteral.
  - intros [?%bool_decide_eq_true ?]%andb_true_iff. by apply CClass.
  - intros _. apply CDot.
  - intros [?%negb_true_iff%Nat.eqb_neq Hcs]%andb_true_iff. apply CSeq; [done|].
    apply list.Forall_forall. intros c Hc%list_elem_of_In. by eapply forallb_forall in Hcs.
  - intros [Hl Hcs]%andb_true_iff. destruct cs as [|c [|d cs]]; [done..|]. apply CAlt.
    apply list.Forall_forall. intros x Hx%list_elem_of_In. by eapply forallb_forall in Hcs.
  - apply (Hrep (regexStar, 42)). set_solver.
  - apply (Hrep (regexPlus, 43)). set_solver.
  - apply (Hrep (regexQuestion, 63)). set_solver.
  - intros [Hc ?]%andb_true_iff. unfold in_range in Hc. apply CCount; [|done]. split; lia.
Qed.

(** Runes that end an item or belong to the one before it. *)
Definition after_item : list Z := bytes_of "*+?{|)".

Definition starts (s : list Z) : Prop := ∃ h t, s = h :: t ∧ h ∉ after_item.

Lemma literal_starts r : starts (escaped meta r).
Proof.
  assert (∀ c, c ∈ after_item → c ∈ meta) as Hs.
  { intros c Hc. assert (forallb (λ c, bool_decide (c ∈ meta)) after_item = true) as Hf by reflexivity.
    rewrite forallb_forall in Hf. eapply bool_decide_eq_true_1, Hf. by apply list_elem_of_In. }
  unfold escaped. case_bool_decide; eexists _, _; (split; [done|]); [|auto].
  intros Hin. assert (bool_decide (92 ∈ after_item) = false) as E by reflexivity. by apply bool_decide_eq_false in E.
Qed.

Lemma concrete_starts h t : bool_decide (h ∈ after_item) = false → starts (h :: t).
Proof. intros E%bool_decide_eq_false. eexists _, _. done. Qed.

Lemma print3_starts n : is_canonical n → starts (print 3 n).
Proof.
  intros Hn%canonical_view. destruct Hn as [v ?|runes negate ? ?| |cs ? ?|c d cs ?|k c Hk ?|c min max ? ?].
  - apply literal_starts.
  - by apply concrete_starts.
  - by apply concrete_starts.
  - by apply concrete_starts.
  - by apply concrete_starts.
  - set_unfold in Hk. destruct_or! Hk; subst; by apply concrete_starts.
  - by apply concrete_starts.
Qed.

Lemma starts_app s t : starts s → starts (s ++ t).
Proof. intros (h & u & -> & Hh). by exists h, (u ++ t). Qed.

Lemma print2_starts n : is_canonical n → starts (print 2 n).
Proof.
  intros Hn. pose proof (print3_starts n Hn) as H3. apply canonical_view in Hn.
  destruct Hn as [v ?|runes negate ? ?| |cs ? ?|c d cs ?|k c Hk Hc|c min max ? Hc]; try done.
  - set_unfold in Hk. destruct_or! Hk; subst; cbn; rewrite app_nil_r; by apply starts_app, print3_starts.
  - cbn. rewrite app_nil_r. by apply starts_app, print3_starts.
Qed.

(** What follows an item, a sequence and a choice. *)
Definition no_quantifier (rest : list Z) : Prop := ∀ c, c ∈ [42; 43; 63; 123] → head rest ≠ Some c.
Definition seq_end (rest : list Z) : Prop := rest = [] ∨ head rest = Some 124 ∨ head rest = Some 41.
Definition alt_end (rest : list Z) : Prop := rest = [] ∨ head rest = Some 41.

Lemma seq_end_no_quantifier rest : seq_end rest → no_quantifier rest.
Proof. intros [-> | [E|E]] c Hc; [done|rewrite E..]; set_unfold; naive_solver lia. Qed.

Lemma starts_no_quantifier s t : starts s → no_quantifier (s ++ t).
Proof.
  intros (h & u & -> & Hh) c Hc [= ->]. destruct Hh. set_unfold in Hc. destruct_or! Hc; subst; in_list.
Qed.

(** A printed node at each level parses to the node; fuel as in [parse_fuel]. *)
Definition atom_at (n : regexNode) : Prop := ∀ fuel rest,
  (4 * length (print 3 n ++ rest) + 2 ≤ fuel)%nat → parses (parseAtom U input fuel) (print 3 n ++ rest) n rest.

Definition quantified_at (n : regexNode) : Prop := ∀ fuel rest,
  (4 * length (print 2 n ++ rest) + 3 ≤ fuel)%nat → no_quantifier rest →
  parses (parseQuantified U input fuel) (print 2 n ++ rest) n rest.

Definition seq_at (n : regexNode) : Prop := ∀ fuel rest,
  (4 * length (print 1 n ++ rest) + 4 ≤ fuel)%nat → seq_end rest →
  parses (parseSeq U input fuel []) (print 1 n ++ rest) n rest.

Definition alt_at (n : regexNode) : Prop := ∀ fuel rest,
  (4 * length (print 0 n ++ rest) + 5 ≤ fuel)%nat → alt_end rest →
  parses (parseAlt U input fuel) (print 0 n ++ rest) n rest.

(** *** From one level to the next *)

Lemma group_atom n : print 3 n = group true (print 0 n) → alt_at n → atom_at n.
Proof.
  intros E Hn [|fuel] rest Hf; [lia|]. rewrite E in Hf |- *. unfold group in *.
  cbn [app length] in Hf |- *. rewrite <-app_assoc in Hf |- *. cbn [parseAtom].
  apply parses_peek_then. cbn [head]. change (40 =? 40) with true. cbn iota.
  eapply parses_bind.
  { unfold group_open. apply parses_advance_then, parses_peek_is_then. cbn [head]. rewrite bool_decide_true by done.
    apply parses_advance_then, parses_peek_is_then. cbn [head]. rewrite bool_decide_true by done.
    apply parses_advance_then, parses_ret. }
  eapply parses_bind; [apply Hn; [cbn in *; lia|by right]|].
  apply parses_peek_is_then. cbn [head app]. rewrite bool_decide_true by done. apply parses_advance_then, parses_ret.
Qed.

Lemma quantify_none atom rest : no_quantifier rest → parses (quantify input atom) rest atom rest.
Proof.
  intros Hr. apply parses_peek_then. unfold no_quantifier in Hr. destruct (head rest) as [c|]; [|apply parses_ret].
  assert (c ≠ 42 ∧ c ≠ 43 ∧ c ≠ 63 ∧ c ≠ 123) as (? & ? & ? & ?)
    by (split_and!; intros ->; (eapply Hr; [|reflexivity]); set_solver).
  repeat case_match; subst; try done; apply parses_ret.
Qed.

Lemma atom_quantified n : print 2 n = print 3 n → atom_at n → quantified_at n.
Proof.
  intros E Hn [|fuel] rest Hf Hr; [lia|]. rewrite E in *. cbn [parseQuantified].
  eapply parses_bind; [apply Hn; lia|]. by apply quantify_none.
Qed.

(** The sequence loop. *)
Lemma parses_seq cs : Forall (λ c, quantified_at c ∧ is_canonical c) cs → ∀ items fuel rest,
  (4 * length (concat (map (print 2) cs) ++ rest) + 4 ≤ fuel)%nat → seq_end rest →
  parses (parseSeq U input fuel items) (concat (map (print 2) cs) ++ rest) (seq_node (items ++ cs)) rest.
Proof.
  induction 1 as [|c cs [Hc Hcan] Hcs IH]; intros items [|fuel] rest Hf Hend; try lia;
    cbn [map concat parseSeq app]; apply parses_peek_then.
  - rewrite app_nil_r. destruct Hend as [-> | [-> | ->]]; apply parses_ret.
  - cbn [map concat] in Hf. rewrite <-app_assoc in Hf |- *. set (more := concat (map (print 2) cs) ++ rest) in *.
    destruct (print2_starts c Hcan) as (h & t & E & Hh). rewrite length_app in Hf.
    assert (1 ≤ length (print 2 c))%nat by (rewrite E; cbn; lia).
    assert (head (print 2 c ++ more) = Some h) as -> by (by rewrite E).
    assert (∀ d, d ∈ after_item → (h =? d) = false) as Hne by (intros d Hd; apply Z.eqb_neq; congruence).
    rewrite (Hne 124), (Hne 41) by in_list. cbn [orb].
    eapply parses_bind; [apply Hc|].
    + rewrite length_app. lia.
    + destruct Hcs as [|d cs [_ Hd] _]; [by apply seq_end_no_quantifier|]. unfold more. cbn [map concat].
      rewrite <-app_assoc. by apply starts_no_quantifier, print2_starts.
    + rewrite (cons_middle c items cs), app_assoc. apply IH; [fold more; lia|done].
Qed.

Lemma quantified_seq n : print 1 n = print 2 n → is_canonical n → quantified_at n → seq_at n.
Proof.
  intros E Hcan Hn fuel rest Hf Hend. rewrite E in *.
  pose proof (parses_seq [n] ltac:(by repeat constructor) [] fuel rest) as Hp.
  cbn [map concat app] in Hp. rewrite app_nil_r in Hp. by apply Hp.
Qed.

Lemma seq_alt n : print 0 n = print 1 n → seq_at n → alt_at n.
Proof.
  intros E Hn [|fuel] rest Hf Hend; [lia|]. rewrite E in *. cbn [parseAlt].
  eapply parses_bind; [apply Hn; [lia|by destruct Hend; [left|right; right]]|].
  apply parses_peek_is_then. rewrite bool_decide_false; [apply parses_ret|].
  by destruct Hend as [-> | ->].
Qed.

(** *** The kinds of node *)

Lemma literal_atom v : atom_at (literalNode v).
Proof.
  intros [|fuel] rest Hf; [lia|]. cbn [parseAtom print literalNode]. unfold escaped in *. apply parses_peek_then.
  case_bool_decide as Hm; cbn [app head].
  - change (parses (parseEscape U input) (92 :: v :: rest) (literalNode v) rest). unfold parseEscape.
    apply parses_advance_then, parses_peek_then. cbn [head].
    pose proof (proj1 (special_plain v (or_introl Hm))) as Hp. plain_cases Hp.
    eapply parses_bind; [by apply parses_escape|]. apply parses_ret.
  - assert (∀ c, c ∈ meta → (v =? c) = false) as Hne by (intros c Hc; apply Z.eqb_neq; congruence).
    rewrite (Hne 40), (Hne 91), (Hne 46), (Hne 92) by in_list. apply parses_advance_then, parses_ret.
Qed.

Lemma class_atom runes negate : runes ≠ [] → atom_at (classNode runes negate).
Proof.
  intros Hne [|fuel] rest Hf; [lia|]. cbn [parseAtom print classNode]. rewrite <-!app_assoc.
  apply parses_peek_then. cbn [head app]. by apply parses_class.
Qed.

Lemma dot_atom : atom_at dotNode.
Proof.
  intros [|fuel] rest Hf; [lia|]. cbn [parseAtom print dotNode app]. apply parses_peek_then. cbn [head].
  apply parses_advance_then, parses_ret.
Qed.

(** The alternatives after the first. *)
Definition bars (cs : list regexNode) : list Z := concat (map (λ d, 124 :: print 1 d) cs).

(** The loop over alternatives. *)
Lemma parses_alts cs : Forall seq_at cs → ∀ alts fuel rest,
  (4 * length (bars cs ++ rest) + 4 ≤ fuel)%nat → alt_end rest →
  parses (parseAlts U input fuel alts) (bars cs ++ rest) (alts ++ cs) rest.
Proof.
  induction 1 as [|c cs Hc Hcs IH]; intros alts [|fuel] rest Hf Hend; try lia;
    cbn [parseAlts]; apply parses_peek_is_then.
  - cbn [bars map concat app]. rewrite bool_decide_false by (by destruct Hend as [-> | ->]).
    rewrite app_nil_r. apply parses_ret.
  - change (bars (c :: cs)) with (124 :: print 1 c ++ bars cs) in *. cbn [app head length] in Hf |- *.
    rewrite bool_decide_true by done. rewrite <-app_assoc in Hf |- *. rewrite length_app in Hf.
    apply parses_advance_then. eapply parses_bind; [apply Hc|].
    + rewrite length_app. lia.
    + destruct cs; [by destruct Hend; [left|right; right]|by right; left].
    + rewrite (cons_middle c alts cs), app_assoc. apply IH; [lia|done].
Qed.

Lemma alt_alt c d cs : Forall seq_at (c :: d :: cs) → alt_at (groupNode regexAlt (c :: d :: cs)).
Proof.
  intros Hs [|fuel] rest Hf Hend; [lia|]. inversion_clear Hs as [|? ? Hc Hcs].
  change (print 0 (groupNode regexAlt (c :: d :: cs))) with (print 1 c ++ bars (d :: cs)) in *.
  rewrite <-app_assoc in Hf |- *. rewrite length_app in Hf. cbn [parseAlt].
  eapply parses_bind; [apply Hc; [rewrite length_app; lia|by right; left]|].
  apply parses_peek_is_then. rewrite bool_decide_true by done.
  eapply parses_bind; [apply (parses_alts (d :: cs) Hcs [c]); [lia|done]|]. apply parses_ret.
Qed.

Lemma seq_seq cs : length cs ≠ 1%nat → Forall (λ c, quantified_at c ∧ is_canonical c) cs →
  seq_at (groupNode regexSeq cs).
Proof.
  intros Hl Hcs fuel rest Hf Hend. cbn [print groupNode group Nat.ltb Nat.leb] in Hf |- *.
  pose proof (parses_seq cs Hcs [] fuel rest Hf Hend) as Hp. cbn [app] in Hp.
  replace (groupNode regexSeq cs) with (seq_node cs); [done|]. by destruct cs as [|? [|? ?]].
Qed.

Lemma repeat_quantified k c :
  k ∈ [(regexStar, 42); (regexPlus, 43); (regexQuestion, 63)] → atom_at c → quantified_at (groupNode k.1 [c]).
Proof.
  intros Hk Hc [|fuel] rest Hf Hr; [lia|].
  assert (print 2 (groupNode k.1 [c]) = print 3 c ++ [k.2]) as E
    by (set_unfold in Hk; destruct_or! Hk; subst; cbn; by rewrite app_nil_r).
  rewrite E, <-app_assoc in Hf |- *. cbn [parseQuantified].
  eapply parses_bind; [apply Hc; lia|]. apply parses_peek_then. cbn [head app].
  set_unfold in Hk. destruct_or! Hk; subst; apply parses_advance_then, parses_ret.
Qed.

Lemma count_quantified c min max :
  count_ok min max → atom_at c → quantified_at (countNode c min max).
Proof.
  intros Hk Hc [|fuel] rest Hf Hr; [lia|].
  assert (print 2 (countNode c min max) = print 3 c ++ print_count min max) as E by (cbn; by rewrite app_nil_r).
  rewrite E, <-app_assoc in Hf |- *. cbn [parseQuantified].
  eapply parses_bind; [apply Hc; lia|]. apply parses_peek_then.
  change (head (print_count min max ++ rest)) with (Some 123). cbn iota.
  intros pos Hp. destruct (parses_count min max rest Hk pos Hp) as (pos' & Hrun & Hp').
  exists pos'. by rewrite Hrun.
Qed.

Definition levels (n : regexNode) : Prop := alt_at n ∧ seq_at n ∧ quantified_at n ∧ atom_at n.

(** Each kind is parsed at one level, and reaches the others without or with a
    group. *)
Lemma atom_levels n : is_canonical n → (∀ l, (l ≤ 3)%nat → print l n = print 3 n) → atom_at n → levels n.
Proof.
  intros Hc E Ha. assert (quantified_at n) as Hq by (apply atom_quantified; auto).
  assert (seq_at n) as Hs by (apply quantified_seq; [by rewrite (E 1%nat), (E 2%nat) by lia|done..]).
  split_and!; [|done..]. apply seq_alt; [by rewrite (E 0%nat), (E 1%nat) by lia|done].
Qed.

Lemma quantified_levels n : is_canonical n → (∀ l, (l ≤ 2)%nat → print l n = print 2 n) →
  print 3 n = group true (print 0 n) → quantified_at n → levels n.
Proof.
  intros Hc E E3 Hq. assert (seq_at n) as Hs by (apply quantified_seq; [by rewrite (E 1%nat) by lia|done..]).
  assert (alt_at n) as Ha by (apply seq_alt; [by rewrite (E 0%nat), (E 1%nat) by lia|done]).
  split_and!; [done..|]. by apply group_atom.
Qed.

Lemma seq_levels n : is_canonical n → print 1 n = print 0 n → print 2 n = print 3 n →
  print 3 n = group true (print 0 n) → seq_at n → levels n.
Proof.
  intros Hc E1 E2 E3 Hs. assert (alt_at n) as Ha by (by apply seq_alt).
  assert (atom_at n) as Hat by (by apply group_atom). split_and!; [done..|by apply atom_quantified|done].
Qed.

Lemma alt_levels n : is_canonical n → print 1 n = print 3 n → print 2 n = print 3 n →
  print 3 n = group true (print 0 n) → alt_at n → levels n.
Proof.
  intros Hc E1 E2 E3 Ha. assert (atom_at n) as Hat by (by apply group_atom).
  assert (quantified_at n) as Hq by (by apply atom_quantified).
  split_and!; [done| |done..]. apply quantified_seq; [congruence|done..].
Qed.

Lemma print_parses n : is_canonical n → levels n.
Proof.
  induction n as [|kind children runes negate value count countMax IH] using regexNode_nested_ind; [done|].
  intros Hcan. pose proof (canonical_view _ Hcan) as Hv.
  inversion Hv as [v ?|rs ng ? ?| |cs Hl Hcs|c d cs Hcs|k c Hk Hc|c min max Hk Hc]; subst; cbn [fst] in *.
  - apply atom_levels; [done|done|apply literal_atom].
  - apply atom_levels; [done|done|by apply class_atom].
  - apply atom_levels; [done|done|apply dot_atom].
  - apply seq_levels; [done..|]. apply seq_seq; [done|]. rewrite list.Forall_forall in IH, Hcs |- *.
    intros c Hc. split; [apply IH; auto|auto].
  - apply alt_levels; [done..|]. apply alt_alt. rewrite list.Forall_forall in IH, Hcs |- *.
    intros x Hx. apply IH; auto.
  - rewrite Forall_singleton in IH. assert (levels (groupNode k.1 [c])) as Hlv; [|done].
    apply quantified_levels; [done|..|].
    + intros [|[|[|l]]] Hl; [..|lia]; set_unfold in Hk; destruct_or! Hk; by subst.
    + set_unfold in Hk; destruct_or! Hk; by subst.
    + by apply repeat_quantified, IH.
  - rewrite Forall_singleton in IH. assert (levels (countNode c count countMax)) as Hlv; [|done].
    apply quantified_levels; [done|intros [|[|[|l]]] Hl; [done..|lia]|done|]. by apply count_quantified, IH.
Qed.

(** ** Properties *)

Lemma parses_property name ranges rest :
  Forall (λ b, 0 ≤ b < 128) name → 125 ∉ name → unicodePropertyRanges U name = Ret (inr ranges) →
  parses (parseUnicodeProperty U input) (123 :: name ++ 125 :: rest) ranges rest.
Proof.
  intros Ha Hb E. unfold parseUnicodeProperty. apply parses_peek_then. cbn [head].
  apply parses_advance_then. eapply parses_bind; [by apply parses_braced|].
  intros pos Hp. unfold lift_err. rewrite E. eauto.
Qed.

(** A pattern that is one atom. *)
Lemma parses_single h t n fuel :
  h ≠ 124 → h ≠ 41 → (∀ fuel, parses (parseAtom U input (S fuel)) (h :: t) n []) →
  parses (parseAlt U input (S (S (S (S fuel))))) (h :: t) n [].
Proof.
  intros H1 H2 Ha. cbn [parseAlt]. apply (parses_bind _ _ _ n []).
  - change (parses (parseSeq U input (S (S (S fuel))) []) (h :: t) n []). cbn [parseSeq].
    apply parses_peek_then. cbn [head]. rewrite !(proj2 (Z.eqb_neq _ _)) by done. cbn [orb].
    apply (parses_bind _ _ _ n []).
    + apply (parses_bind _ _ _ n []); [apply Ha|]. by apply quantify_none.
    + apply parses_peek_then, (parses_ret (seq_node [n])).
  - apply parses_peek_is_then. apply parses_ret.
Qed.

Lemma parses_escaped_property name ranges fuel :
  Forall (λ b, 0 ≤ b < 128) name → 125 ∉ name → unicodePropertyRanges U name = Ret (inr ranges) →
  parses (parseAtom U input (S fuel)) (92 :: 80 :: 123 :: name ++ [125]) (classNode ranges true) [].
Proof.
  intros Ha Hb E. cbn [parseAtom]. apply parses_peek_then. cbn [head].
  change (parses (parseEscape U input) (92 :: 80 :: 123 :: name ++ [125]) (classNode ranges true) []).
  apply parses_advance_then, parses_peek_then. cbn [head].
  change (parses (advance input;; ranges ← parseUnicodeProperty U input; mret (classNode ranges true))
    (80 :: 123 :: name ++ [125]) (classNode ranges true) []).
  apply parses_advance_then. eapply parses_bind; [by apply parses_property|]. apply parses_ret.
Qed.

(** Inside a class, [\p] and [\P] alike. *)
Lemma parses_class_property p name ranges fuel :
  p = 112 ∨ p = 80 →
  Forall (λ b, 0 ≤ b < 128) name → 125 ∉ name → unicodePropertyRanges U name = Ret (inr ranges) →
  parses (parseAtom U input (S fuel)) (91 :: 92 :: p :: 123 :: name ++ [125; 93]) (classNode ranges false) [].
Proof.
  intros Hp Ha Hb E. cbn [parseAtom]. apply parses_peek_then. cbn [head].
  change (parses (parseCharClass U input) (91 :: 92 :: p :: 123 :: name ++ [125; 93]) (classNode ranges false) []).
  apply parses_bounded. cbn [length]. intros Hlen. unfold parseCharClass.
  apply parses_advance_then, parses_peek_is_then. cbn [head]. rewrite bool_decide_false by done.
  eapply parses_bind; [apply parses_ret|]. destruct (length input) as [|n]; [lia|].
  cbn [class_loop]. apply parses_peek_then. cbn [head]. change ((92 =? 93) && negb true) with false. cbn iota.
  apply parses_next_byte. intros next Hn. rewrite (Hn p _ eq_refl) by lia. cbn [mbind option_bind].
  change (92 =? 92) with true. cbn iota. assert (class_shorthand U input p =
    Some (advance input;; advance input;; parseUnicodeProperty U input)) as -> by (by destruct Hp as [-> | ->]).
  eapply parses_bind.
  - apply parses_advance_then, parses_advance_then. change [125; 93] with (125 :: [93]). by apply parses_property.
  - apply parses_peek_then. cbn. apply parses_advance_then, parses_ret.
Qed.

End input.

(** ** Printed runes have an encoding *)

Notation all_valid := (Forall (λ r, valid_rune r = true)).

Lemma valid_concat {A} (f : A → list Z) l : Forall (λ x, all_valid (f x)) l → all_valid (concat (map f l)).
Proof. induction 1; cbn; [constructor|by apply Forall_app]. Qed.

Lemma valid_group b s : all_valid s → all_valid (group b s).
Proof.
  intros Hs. destruct b; [|done]. unfold group. rewrite !Forall_app. split_and!; [|done|]; by repeat constructor.
Qed.

Lemma valid_escaped special r : valid_rune r = true → all_valid (escaped special r).
Proof. intros. unfold escaped. case_match; by repeat constructor. Qed.

Lemma valid_range x : range_valid x = true → all_valid (print_range x).
Proof.
  intros [? ?]%andb_true_iff. unfold print_range. case_match; [by apply valid_escaped|].
  rewrite !Forall_app. split_and!; [by apply valid_escaped|by repeat constructor|by apply valid_escaped].
Qed.

Lemma valid_int n : 0 ≤ n → all_valid (print_int n).
Proof.
  intros Hn. eapply Forall_impl; [by apply decimal_digits|]. unfold valid_rune, in_range. cbn beta. lia.
Qed.

Lemma valid_count min max : count_ok min max → all_valid (print_count min max).
Proof.
  intros [? ?]. unfold print_count. rewrite !Forall_app.
  split_and!; [by repeat constructor|apply valid_int; lia|by repeat constructor| |by repeat constructor].
  destruct (Z.ltb_spec max 0); [constructor|by apply valid_int].
Qed.

Lemma print_valid n : canonical n = true → ∀ l, all_valid (print l n).
Proof.
  induction n as [|kind children runes negate value count countMax IH] using regexNode_nested_ind; [done|].
  intros Hcan l. pose proof (canonical_view _ Hcan) as Hv.
  assert (∀ l, Forall (λ c, canonical c = true) children → Forall (λ c, all_valid (print l c)) children) as Hch.
  { intros l' Hc. rewrite list.Forall_forall in IH, Hc |- *. auto. }
  inversion Hv as [v ?|rs ng ? Hrs| |cs Hl Hcs|c d cs Hcs|k c Hk Hc|c min max Hk Hc]; subst; cbn [fst] in *.
  - by apply valid_escaped.
  - cbn [print]. rewrite !Forall_app. split_and!; [by repeat constructor|destruct negate; by repeat constructor| |by repeat constructor].
    apply valid_concat, list.Forall_forall. intros x Hx%list_elem_of_In. eapply valid_range, forallb_forall; eauto.
  - by repeat constructor.
  - by apply valid_group, valid_concat, Hch.
  - apply valid_group. specialize (Hch 1%nat Hcs). inversion_clear Hch as [|? ? H1 H2].
    apply Forall_app. split; [done|]. apply valid_concat. eapply Forall_impl; [exact H2|].
    intros x Hx. by constructor.
  - specialize (Hch 3%nat ltac:(by repeat constructor)).
    set_unfold in Hk; destruct_or! Hk; subst; cbn [print fst]; apply valid_group, Forall_app;
      (split; [by apply valid_concat|by repeat constructor]).
  - specialize (Hch 3%nat ltac:(by repeat constructor)). cbn [print]. apply valid_group, Forall_app.
    split; [by apply valid_concat|by apply valid_count].
Qed.

(** A pattern given by its runes. *)
Lemma parse_runes `{SliceSort} U rs node :
  all_valid rs → parses (encode rs) (parseAlt U (encode rs) (parse_fuel (encode rs))) rs node [] →
  parseRegex U (encode rs) = Ret (inr node).
Proof.
  intros Hv Hp. pose proof (len_nonneg (encode rs)).
  destruct (Hp 0) as (pos & Hrun & Hpos); [split_and!; [lia..|apply slice_all|done]|].
  unfold parseRegex. rewrite Hrun. cbn. by rewrite (at_nil _ _ Hpos), Z.ltb_irrefl.
Qed.

(** C17.  Parsing inverts printing: the pattern printed for a canonical tree, with
    escapes, classes, counts and groups where precedence requires them, parses
    to that tree, whatever the Unicode tables. *)
Theorem parse_print_roundtrip `{SliceSort} U node :
  canonical node = true → parseRegex U (encode (print 0 node)) = Ret (inr node).
Proof.
  intros Hcan. pose proof (print_valid _ Hcan 0%nat) as Hv. apply parse_runes; [done|].
  set (input := encode (print 0 node)). apply parses_bounded. intros Hlen.
  destruct (print_parses U input node Hcan) as [Ha _]. specialize (Ha (parse_fuel input) []).
  rewrite app_nil_r in Ha. apply Ha; [unfold parse_fuel; lia|by left].
Qed.

(** A choice of a counted group, a negated class and escapes. *)
Definition sample_tree : regexNode :=
  groupNode regexAlt
    [groupNode regexSeq [literalNode 40; countNode (groupNode regexSeq [literalNode 97; dotNode]) 2 (-1)];
     groupNode regexStar [classNode [mkRuneRange 93 93; mkRuneRange 97 0x1F600] true]].

Lemma parse_print_roundtrip_witness :
  canonical sample_tree = true ∧
  parseRegex no_tables (encode (print 0 sample_tree)) = Ret (inr sample_tree).
Proof.
  assert (canonical sample_tree = true) as Hc by (vm_compute; reflexivity).
  split; [exact Hc|]. exact (parse_print_roundtrip no_tables sample_tree Hc).
Defined.

(** A complemented property inside a class is not complemented.  The pattern
    [\P{name}] denotes the complement of the property, but as an item of a class
    it adds the ranges of the property itself, like [\p{name}]. *)
Theorem class_complement_lost `{SliceSort} U name ranges :
  Forall (λ b, 0 ≤ b < 128) name → 125 ∉ name → unicodePropertyRanges U name = Ret (inr ranges) →
  parseRegex U (bytes_of "\P{" ++ name ++ bytes_of "}") = Ret (inr (classNode ranges true)) ∧
  parseRegex U (bytes_of "[\p{" ++ name ++ bytes_of "}]") = Ret (inr (classNode ranges false)) ∧
  parseRegex U (bytes_of "[\P{" ++ name ++ bytes_of "}]") = Ret (inr (classNode ranges false)).
Proof.
  intros Ha Hb E.
  assert (∀ l, Forall (λ b, 0 ≤ b < 128) l → all_valid l) as Hw
    by (intros l Hl; eapply Forall_impl; [exact Hl|]; unfold valid_rune, in_range; cbn beta; lia).
  assert (∀ h t node, Forall (λ b, 0 ≤ b < 128) (h :: t) → h ≠ 124 → h ≠ 41 →
    (∀ input fuel, parses input (parseAtom U input (S fuel)) (h :: t) node []) →
    parseRegex U (h :: t) = Ret (inr node)) as Hrun.
  { intros h t node Hh H1 H2 Hp. rewrite <-(encode_ascii (h :: t)) by done. apply parse_runes; [auto|].
    unfold parse_fuel. rewrite encode_ascii by done. cbn [length].
    replace (4 * S (length t) + 5)%nat with (S (S (S (S (4 * length t + 5))))) by lia. by apply parses_single. }
  assert (∀ l k, Forall (λ b, 0 ≤ b < 128) l → Forall (λ b, 0 ≤ b < 128) k →
    Forall (λ b, 0 ≤ b < 128) (l ++ name ++ k)) as Hf by (intros; rewrite !Forall_app; auto).
  split_and!.
  - apply (Hrun 92 (80 :: 123 :: name ++ [125])); [|done|done|intros; by apply parses_escaped_property].
    apply (Hf [92; 80; 123] [125]); repeat constructor; lia.
  - apply (Hrun 91 (92 :: 112 :: 123 :: name ++ [125; 93])); [|done|done|intros; apply parses_class_property; auto].
    apply (Hf [91; 92; 112; 123] [125; 93]); repeat constructor; lia.
  - apply (Hrun 91 (92 :: 80 :: 123 :: name ++ [125; 93])); [|done|done|intros; apply parses_class_property; auto].
    apply (Hf [91; 92; 80; 123] [125; 93]); repeat constructor; lia.
Qed.

Lemma class_complement_lost_witness :
  unicodePropertyRanges no_tables (bytes_of "Emoji") = Ret (inr emojiRanges) ∧
  parseRegex no_tables (bytes_of "[\P{" ++ bytes_of "Emoji" ++ bytes_of "}]") = Ret (inr (classNode emojiRanges false)).
Proof.
  split; [reflexivity|].
  refine (proj2 (proj2 (class_complement_lost no_tables (bytes_of "Emoji") emojiRanges _ _ eq_refl))).
  - repeat constructor; vm_compute; discriminate.
  - refine (bool_decide_eq_false_1 _ _). vm_compute. reflexivity.
Defined.
