(* ===== verification/Nfa.v ===== *)
(** * The NFA builder

    grammargen/nfa.go: Thompson's construction from regular expressions and
    from terminal rules.  The builder is a slice of states that only grows;
    every operation is a step of a state-and-error monad on it.  [Rule] and
    [RuleKind] are those of grammar.go, [TerminalPattern] that of normalize.go.
    The regular-expression parser is an argument of this file; RegexParse.v
    models it. *)

From Stdlib Require Import ZArith Lia ZifyBool.
From stdpp Require Import base tactics list numbers option gmap.
From S2P Require Import Prelude Utf8 StateError SliceSort Regex.
Local Open Scope Z_scope.

Record nfaTransition := mkNfaTransition {
  tlo : Z; thi : Z; tepsilon : bool; tnext : Z }.

Record nfaState := mkNfaState {
  transitions : list nfaTransition;
  accept : Z;
  priority : Z;
  tieOrder : Z }.

Record nfa := mkNfa { nfaStates : list nfaState; nfaStart : Z }.

Record nfaFragment := mkFragment { fstart : Z; fend : Z }.

Definition emptyState : nfaState := mkNfaState [] 0 0 0.

(** ** Rules (grammar.go) *)

Inductive RuleKind :=
| RuleString | RulePattern | RuleSymbol | RuleSeq | RuleChoice | RuleRepeat
| RuleRepeat1 | RuleOptional | RuleToken | RuleImmToken | RuleField | RulePrec
| RulePrecLeft | RulePrecRight | RulePrecDynamic | RuleBlank | RuleAlias.

(** A [*Rule]: nil or a node; strings are their bytes. *)
Inductive Rule :=
| NilRule
| mkRule (Kind : RuleKind) (Value : list Z) (Children : list Rule) (Prec : Z) (Named : bool).

Record TerminalPattern := mkTerminalPattern {
  SymbolID : Z;
  tpRule : Rule;
  Priority : Z;
  Immediate : bool }.

Inductive nfaError :=
| UnsupportedRuleKind (k : RuleKind)
| UnsupportedRegexKind (k : regexKind)
| ParseRegexError (pattern : list Z) (e : regexError)
| TerminalError (symbol : Z) (e : nfaError).

Definition builder : Type → Type := ste (list nfaState) nfaError.

Definition addState : builder Z := λ states,
  Ret (inr (len states, states ++ [emptyState])).

Definition addTransition (from : Z) (t : nfaTransition) : builder () := λ states,
  st ← index states from;
  states ← store states from
    (mkNfaState (transitions st ++ [t]) (accept st) (priority st) (tieOrder st));
  Ret (inr ((), states)).

Definition addEpsilon (from to : Z) : builder () :=
  addTransition from (mkNfaTransition 0 0 true to).

Definition addCharRange (from lo hi to : Z) : builder () :=
  addTransition from (mkNfaTransition lo hi false to).

Definition buildEpsilon : builder nfaFragment :=
  s ← addState; e ← addState;
  addEpsilon s e;;
  mret (mkFragment s e).

(** The runes a string decodes to, the [DecodeRuneInString] loops: an invalid
    byte counts as one [RuneError]. *)
Fixpoint decode_loop (fuel : nat) (s : list Z) : list Z :=
  match fuel, s with
  | S fuel, _ :: _ =>
    let '(r, size) := DecodeRune s in r :: decode_loop fuel (drop (Z.to_nat size) s)
  | _, _ => []
  end.

Definition runes_of (s : list Z) : list Z := decode_loop (length s) s.

Fixpoint string_loop (rs : list Z) (cur : Z) : builder Z :=
  match rs with
  | [] => mret cur
  | r :: rs => next ← addState; addCharRange cur r r next;; string_loop rs next
  end.

(** The value that stands for end of input. *)
Definition nul_string : list Z := [0].

Definition buildString (s : list Z) : builder nfaFragment :=
  if decide (s = [] ∨ s = nul_string) then buildEpsilon else
  start ← addState;
  cur ← string_loop (runes_of s) start;
  mret (mkFragment start cur).

(** ** Fragments of regular expressions *)

Fixpoint range_loop (start end_ : Z) (ranges : list runeRange) : builder () :=
  match ranges with
  | [] => mret ()
  | rr :: ranges => addCharRange start (rlo rr) (rhi rr) end_;; range_loop start end_ ranges
  end.

Section loops.
Context {A : Type} (build : A → builder nfaFragment).

(** The loop of a sequence: each fragment is linked behind the last. *)
Definition seq_loop : list A → nfaFragment → builder nfaFragment :=
  fix seq_loop cs cur :=
    match cs with
    | [] => mret cur
    | c :: cs =>
      next ← build c;
      addEpsilon (fend cur) (fstart next);;
      seq_loop cs (mkFragment (fstart cur) (fend next))
    end.

(** The loop of a choice between [start] and [end]. *)
Definition alt_loop (start end_ : Z) : list A → builder () :=
  fix alt_loop cs :=
    match cs with
    | [] => mret ()
    | c :: cs =>
      frag ← build c;
      addEpsilon start (fstart frag);;
      addEpsilon (fend frag) end_;;
      alt_loop cs
    end.

End loops.

Section repetitions.
(** The construction of the repeated child. *)
Context (build : builder nfaFragment).

(** Wrap a fragment in fresh states: [skip] lets it be left out, [loop] lets it
    be repeated.  The three repetitions of both builders have this shape. *)
Definition wrap (skip loop : bool) : builder nfaFragment :=
  inner ← build;
  start ← addState;
  end_ ← addState;
  addEpsilon start (fstart inner);;
  (if skip then addEpsilon start end_ else mret ());;
  (if loop then addEpsilon (fend inner) (fstart inner) else mret ());;
  addEpsilon (fend inner) end_;;
  mret (mkFragment start end_).

(** [n] copies in a row, behind [cur] unless it is the first. *)
Fixpoint copies (n : nat) (cur : option nfaFragment) : builder (option nfaFragment) :=
  match n with
  | O => mret cur
  | S n =>
    copy ← build;
    match cur with
    | None => copies n (Some copy)
    | Some f =>
      addEpsilon (fend f) (fstart copy);;
      copies n (Some (mkFragment (fstart f) (fend copy)))
    end
  end.

(** [n] further copies, each of which may be left out. *)
Fixpoint optional_copies (n : nat) (cur : nfaFragment) : builder nfaFragment :=
  match n with
  | O => mret cur
  | S n =>
    opt ← build;
    end_ ← addState;
    addEpsilon (fend cur) (fstart opt);;
    addEpsilon (fend cur) end_;;
    addEpsilon (fend opt) end_;;
    optional_copies n (mkFragment (fstart cur) end_)
  end.

(** Counted repetition.  With a negative count no copy is built and the
    fragment is Go's zero value. *)
Definition counted (minCount countMax : Z) : builder nfaFragment :=
  let maxCount := if countMax =? 0 then minCount else countMax in
  built ← copies (Z.to_nat minCount) None;
  cur ← (if minCount =? 0 then buildEpsilon
         else mret (default (mkFragment 0 0) built));
  if maxCount <? 0 then
    if 2 <=? minCount then mret cur else
    star ← build;
    loop ← addState;
    addEpsilon (fend cur) loop;;
    addEpsilon loop (fstart star);;
    addEpsilon (fend star) loop;;
    mret (mkFragment (fstart cur) loop)
  else optional_copies (Z.to_nat (maxCount - minCount)) cur.

End repetitions.

Fixpoint buildFromRegexNode (node : regexNode) : builder nfaFragment :=
  match node with
  | NilNode => buildEpsilon
  | mkNode kind children runes negate value count countMax =>
    match kind with
    | regexLiteral =>
      start ← addState; end_ ← addState;
      addCharRange start value value end_;;
      mret (mkFragment start end_)
    | regexCharClass =>
      start ← addState; end_ ← addState;
      range_loop start end_ (if negate then complementRanges runes else mergeRanges runes);;
      mret (mkFragment start end_)
    | regexDot =>
      start ← addState; end_ ← addState;
      (addCharRange start 0 9 end_;; addCharRange start 11 MaxRune end_);;
      mret (mkFragment start end_)
    | regexSeq =>
      match children with
      | [] => buildEpsilon
      | c :: cs => first ← buildFromRegexNode c; seq_loop buildFromRegexNode cs first
      end
    | regexAlt =>
      match children with
      | [] => buildEpsilon
      | _ =>
        start ← addState; end_ ← addState;
        alt_loop buildFromRegexNode start end_ children;;
        mret (mkFragment start end_)
      end
    | regexStar =>
      match children with [] => buildEpsilon | c :: _ => wrap (buildFromRegexNode c) true true end
    | regexPlus =>
      match children with [] => buildEpsilon | c :: _ => wrap (buildFromRegexNode c) false true end
    | regexQuestion =>
      match children with [] => buildEpsilon | c :: _ => wrap (buildFromRegexNode c) true false end
    | regexCount =>
      match children with
      | [] => buildEpsilon
      | c :: _ => counted (buildFromRegexNode c) count countMax
      end
    | regexOther _ => fail (UnsupportedRegexKind kind)
    end
  end.

Fixpoint regexCanMatchEmpty (node : regexNode) : bool :=
  match node with
  | NilNode => true
  | mkNode kind children _ _ _ count _ =>
    match kind with
    | regexLiteral | regexCharClass | regexDot => false
    | regexSeq => forallb regexCanMatchEmpty children
    | regexAlt => existsb regexCanMatchEmpty children
    | regexStar | regexQuestion => true
    | regexPlus => match children with [] => true | c :: _ => regexCanMatchEmpty c end
    | regexCount =>
      (count =? 0) || match children with [] => true | c :: _ => regexCanMatchEmpty c end
    | regexOther _ => false
    end
  end.

(** ** Fragments of rules *)

(** The value of a string rule. *)
Definition string_value (r : Rule) : option (list Z) :=
  match r with mkRule RuleString v _ _ _ => Some v | _ => None end.

(** Put a fragment behind what is built so far. *)
Definition link (cur : option nfaFragment) (next : nfaFragment) : builder (option nfaFragment) :=
  match cur with
  | None => mret (Some next)
  | Some f =>
    addEpsilon (fend f) (fstart next);;
    mret (Some (mkFragment (fstart f) (fend next)))
  end.

(** Build the run of string rules read so far. *)
Definition flush (pending : option (list Z)) (cur : option nfaFragment)
  : builder (option nfaFragment) :=
  match pending with
  | None => mret cur
  | Some s => next ← buildString s; link cur next
  end.

(** The trie edges: the target of a state and a rune. *)
Notation trie := (gmap (Z * Z) Z).

Section rule_loops.
Context (build : Rule → builder nfaFragment).

(** The loop of [buildSeq]: the values of adjacent string rules are joined
    before they are built. *)
Definition rule_seq_loop
  : list Rule → option (list Z) → option nfaFragment → builder (option nfaFragment) :=
  fix rule_seq_loop cs pending cur :=
    match cs with
    | [] => flush pending cur
    | c :: cs =>
      match string_value c with
      | Some v => rule_seq_loop cs (Some (default [] pending ++ v)) cur
      | None =>
        cur ← flush pending cur;
        next ← build c;
        cur ← link cur next;
        rule_seq_loop cs None cur
      end
    end.

Definition buildSeq (children : list Rule) : builder nfaFragment :=
  match children with
  | [] => buildEpsilon
  | _ =>
    cur ← rule_seq_loop children None None;
    mret (default (mkFragment 0 0) cur)
  end.

Definition nextState (edges : trie) (from r : Z) : builder (Z * trie) :=
  match edges !! (from, r) with
  | Some to => mret (to, edges)
  | None =>
    to ← addState;
    addCharRange from r r to;;
    mret (to, <[(from, r) := to]> edges)
  end.

Fixpoint trie_walk (edges : trie) (cur : Z) (rs : list Z) : builder (Z * trie) :=
  match rs with
  | [] => mret (cur, edges)
  | r :: rs => '(cur, edges) ← nextState edges cur r; trie_walk edges cur rs
  end.

Fixpoint string_choice_loop (start end_ : Z) (edges : trie) (vs : list (list Z)) : builder () :=
  match vs with
  | [] => mret ()
  | v :: vs =>
    '(cur, edges) ← trie_walk edges start (runes_of v);
    addEpsilon cur end_;;
    string_choice_loop start end_ edges vs
  end.

(** [None] when some child is not a string rule, before any state is added. *)
Definition buildStringChoice (children : list Rule) : option (builder nfaFragment) :=
  vs ← mapM string_value children;
  Some (start ← addState; end_ ← addState;
        string_choice_loop start end_ ∅ vs;;
        mret (mkFragment start end_)).

Definition buildChoice (children : list Rule) : builder nfaFragment :=
  match children with
  | [] => buildEpsilon
  | _ =>
    match buildStringChoice children with
    | Some b => b
    | None =>
      start ← addState; end_ ← addState;
      alt_loop build start end_ children;;
      mret (mkFragment start end_)
    end
  end.

(** [buildStar], [buildPlus] and [buildOptional]. *)
Definition buildStar (r : Rule) : builder nfaFragment := wrap (build r) true true.
Definition buildPlus (r : Rule) : builder nfaFragment := wrap (build r) false true.
Definition buildOptional (r : Rule) : builder nfaFragment := wrap (build r) true false.

End rule_loops.

Section rules.
Context (parseRegex : list Z → go (regexError + regexNode)).

Definition buildPattern (pattern : list Z) : builder nfaFragment := λ states,
  node ← parseRegex pattern;
  match node with
  | inl e => Ret (inl (ParseRegexError pattern e))
  | inr node => buildFromRegexNode node states
  end.

Fixpoint buildFromRule (r : Rule) : builder nfaFragment :=
  match r with
  | NilRule => buildEpsilon
  | mkRule kind value children _ _ =>
    match kind with
    | RuleString => buildString value
    | RulePattern => buildPattern value
    | RuleSeq => buildSeq buildFromRule children
    | RuleChoice => buildChoice buildFromRule children
    | RuleRepeat =>
      match children with [] => buildEpsilon | c :: _ => buildStar buildFromRule c end
    | RuleRepeat1 =>
      match children with [] => buildEpsilon | c :: _ => buildPlus buildFromRule c end
    | RuleOptional =>
      match children with [] => buildEpsilon | c :: _ => buildOptional buildFromRule c end
    | RuleBlank => buildEpsilon
    | _ => fail (UnsupportedRuleKind kind)
    end
  end.

(** Short-circuiting loops over children. *)
Definition all_loop {A} (f : A → go bool) : list A → go bool :=
  fix all_loop l :=
    match l with
    | [] => Ret true
    | x :: l => b ← f x; if (b : bool) then all_loop l else Ret false
    end.

Definition any_loop {A} (f : A → go bool) : list A → go bool :=
  fix any_loop l :=
    match l with
    | [] => Ret false
    | x :: l => b ← f x; if (b : bool) then Ret true else any_loop l
    end.

Fixpoint terminalRuleCanMatchEmpty (r : Rule) : go bool :=
  match r with
  | NilRule => Ret true
  | mkRule kind value children _ _ =>
    match kind with
    | RuleBlank => Ret true
    | RuleString => Ret (bool_decide (value = [] ∨ value = nul_string))
    | RulePattern =>
      node ← parseRegex value;
      Ret (match node with inl _ => false | inr node => regexCanMatchEmpty node end)
    | RuleSeq => all_loop terminalRuleCanMatchEmpty children
    | RuleChoice => any_loop terminalRuleCanMatchEmpty children
    | RuleRepeat | RuleOptional => Ret true
    | RuleRepeat1 =>
      match children with [] => Ret true | c :: _ => terminalRuleCanMatchEmpty c end
    | _ => match children with [] => Ret false | c :: _ => terminalRuleCanMatchEmpty c end
    end
  end.

(** ** The combined NFA *)

Definition setAccept (s symID prio tie : Z) : builder () := λ states,
  st ← index states s;
  states ← store states s (mkNfaState (transitions st) symID prio tie);
  Ret (inr ((), states)).

Definition string_counts (patterns : list TerminalPattern) : gmap (list Z) Z :=
  foldl (λ counts pat,
    match string_value (tpRule pat) with
    | Some v => <[v := default 0 (counts !! v) + 1]> counts
    | None => counts
    end) ∅ patterns.

(** The literals that share the trie: string rules whose value occurs once. *)
Definition trie_literal (counts : gmap (list Z) Z) (pat : TerminalPattern) : option (list Z) :=
  v ← string_value (tpRule pat);
  if bool_decide (v ≠ nul_string) && (default 0 (counts !! v) =? 1) then Some v else None.

Definition with_terminal (symID : Z) (m : builder nfaFragment) : builder nfaFragment := λ states,
  r ← m states;
  Ret (match r with inl e => inl (TerminalError symID e) | inr x => inr x end).

Fixpoint combined_loop (counts : gmap (list Z) Z) (start i : Z) (edges : trie)
    (patterns : list TerminalPattern) : builder () :=
  match patterns with
  | [] => mret ()
  | pat :: patterns =>
    match trie_literal counts pat with
    | Some v =>
      '(cur, edges) ← trie_walk edges start (runes_of v);
      setAccept cur (SymbolID pat) (Priority pat) i;;
      combined_loop counts start (i + 1) edges patterns
    | None =>
      frag ← with_terminal (SymbolID pat) (buildFromRule (tpRule pat));
      addEpsilon start (fstart frag);;
      setAccept (fend frag) (SymbolID pat) (Priority pat) i;;
      combined_loop counts start (i + 1) edges patterns
    end
  end.

Definition buildCombinedNFA (patterns : list TerminalPattern) : go (nfaError + nfa) :=
  r ← (start ← addState;
       combined_loop (string_counts patterns) start 0 ∅ patterns;;
       mret start) [];
  Ret (match r with
       | inl e => inl e
       | inr (start, states) => inr (mkNfa states start)
       end).

End rules.
