(* ===== verification/NfaPath.v ===== *)
(** * Paths and fragments

    The transition graph of an NFA and the words on its paths.  A fragment is a
    region of states closed under transitions with an entry and an exit; its
    language is what the paths from entry to exit spell.  The lemmas compose
    fragments by epsilon edges, once for each shape the builder produces. *)

From Stdlib Require Import ZArith Lia ZifyBool.
From stdpp Require Import base tactics list numbers option sets.
From S2P Require Import Prelude Utf8 SliceSort StateError Regex Nfa.
Local Open Scope Z_scope.

(** [G p l q]: an edge from [p] to [q] that reads [l], or nothing. *)
Definition graph := Z → option Z → Z → Prop.

Definition word (l : option Z) : list Z := match l with Some c => [c] | None => [] end.

Inductive path (G : graph) : Z → list Z → Z → Prop :=
| path_refl p : path G p [] p
| path_step p l q w r : G p l q → path G q w r → path G p (word l ++ w) r.

Create HintDb nfa.
#[export] Hint Constructors path : nfa.

Lemma path_eps (G : graph) p q w r : G p None q → path G q w r → path G p w r.
Proof. apply (path_step G p None). Qed.

Lemma path_edge (G : graph) p l q : G p l q → path G p (word l) q.
Proof. intros. rewrite <-(app_nil_r (word l)). eauto with nfa. Qed.

Lemma path_app (G : graph) p u q v r : path G p u q → path G q v r → path G p (u ++ v) r.
Proof. induction 1; [done|]. rewrite <-app_assoc. eauto with nfa. Qed.

Lemma path_mono (G G' : graph) p w q :
  (∀ p l q, G p l q → G' p l q) → path G p w q → path G' p w q.
Proof. induction 2; eauto with nfa. Qed.

(** Soundness of residual languages: what holds at the target and is carried
    back along edges holds along paths. *)
Lemma path_sound (G : graph) t (Res : Z → list Z → Prop) p w :
  Res t [] → (∀ p l q w, G p l q → Res q w → Res p (word l ++ w)) → path G p w t → Res p w.
Proof. induction 3; eauto. Qed.

(** The words that lead to [e] and go on in [K]. *)
Definition via (G : graph) (p e : Z) (K : lang) : lang := lang_cat (λ u, path G p u e) K.

Lemma via_step (G : graph) p l q e K w : G p l q → via G q e K w → via G p e K (word l ++ w).
Proof. intros H (u & v & -> & ? & ?). exists (word l ++ u), v. rewrite app_assoc. eauto with nfa. Qed.

Lemma via_exit (G : graph) e (K : lang) w : K w → via G e e K w.
Proof. intros. exists [], w. eauto with nfa. Qed.

(** ** Languages *)

Lemma lang_cat_mono (L L' K K' : lang) w :
  (∀ w, L w → L' w) → (∀ w, K w → K' w) → lang_cat L K w → lang_cat L' K' w.
Proof. intros H1 H2 (u & v & -> & ? & ?). exists u, v. eauto. Qed.

Lemma lang_cat_eps_r (L : lang) w : lang_cat L lang_eps w ↔ L w.
Proof.
  split; [intros (u & v & -> & ? & ->); by rewrite app_nil_r|].
  intros. exists w, []. by rewrite app_nil_r.
Qed.

Lemma lang_cat_eps_l (L : lang) w : lang_cat lang_eps L w ↔ L w.
Proof. split; [by intros (u & v & -> & -> & ?)|]. intros. by exists [], w. Qed.

Lemma lang_cat_assoc (L K M : lang) w : lang_cat (lang_cat L K) M w ↔ lang_cat L (lang_cat K M) w.
Proof.
  split.
  - intros (? & z & -> & (x & y & -> & ? & ?) & ?). exists x, (y ++ z). rewrite app_assoc.
    split_and!; [done..|]. by exists y, z.
  - intros (x & ? & -> & ? & (y & z & -> & ? & ?)). exists (x ++ y), z. rewrite app_assoc.
    split_and!; [done| |done]. by exists x, y.
Qed.

(** Equality of languages. *)
Definition lang_eq (L K : lang) : Prop := ∀ w, L w ↔ K w.
Infix "≡L" := lang_eq (at level 70).

#[export] Instance lang_eq_equivalence : Equivalence lang_eq.
Proof.
  split; [by intros L w|by intros L K H w; rewrite (H w)|].
  intros L K M H1 H2 w. by rewrite (H1 w), (H2 w).
Qed.

#[export] Instance lang_cat_proper : Proper (lang_eq ==> lang_eq ==> lang_eq) lang_cat.
Proof. intros L L' HL K K' HK w. split; apply lang_cat_mono; intros ? ?; by (apply HL || apply HK). Qed.

#[export] Instance lang_or_proper : Proper (lang_eq ==> lang_eq ==> lang_eq) lang_or.
Proof. intros L L' HL K K' HK w. unfold lang_or. by rewrite (HL w), (HK w). Qed.

#[export] Instance lang_pow_proper : Proper (lang_eq ==> eq ==> lang_eq) lang_pow.
Proof.
  intros L L' HL n ? <-. induction n as [|n IH]; cbn; [done|].
  intros w. by apply lang_cat_proper.
Qed.

#[export] Instance lang_star_proper : Proper (lang_eq ==> lang_eq) lang_star.
Proof. intros L L' HL w. unfold lang_star. by setoid_rewrite (λ n, lang_pow_proper L L' HL n n eq_refl w). Qed.

#[export] Instance lang_plus_proper : Proper (lang_eq ==> lang_eq) lang_plus.
Proof. intros L L' HL w. unfold lang_plus. by setoid_rewrite (λ n, lang_pow_proper L L' HL (S n) _ eq_refl w). Qed.

Lemma lang_cat_eps_r_eq (L : lang) : lang_cat L lang_eps ≡L L.
Proof. intros w. apply lang_cat_eps_r. Qed.

Lemma lang_cat_eps_l_eq (L : lang) : lang_cat lang_eps L ≡L L.
Proof. intros w. apply lang_cat_eps_l. Qed.

Lemma lang_cat_assoc_eq (L K M : lang) : lang_cat (lang_cat L K) M ≡L lang_cat L (lang_cat K M).
Proof. intros w. apply lang_cat_assoc. Qed.

Lemma lang_pow_add (L : lang) n m : lang_pow L (n + m) ≡L lang_cat (lang_pow L n) (lang_pow L m).
Proof.
  induction n as [|n IH]; intros w; cbn.
  - by rewrite lang_cat_eps_l.
  - rewrite lang_cat_assoc. by apply lang_cat_proper.
Qed.

Lemma lang_star_plus (L : lang) : lang_star L ≡L lang_or lang_eps (lang_plus L).
Proof.
  intros w. unfold lang_star, lang_plus, lang_or. split.
  - intros [[|n] ?]; [by left|]. right. by exists n.
  - intros [?|[n ?]]; [by exists 0%nat|by exists (S n)].
Qed.

Lemma lang_plus_star (L : lang) : lang_plus L ≡L lang_cat L (lang_star L).
Proof.
  intros w. unfold lang_plus, lang_star. split.
  - intros (n & u & v & -> & ? & ?). exists u, v. split_and!; [done..|]. by exists n.
  - intros (u & v & -> & ? & n & ?). exists n, u, v. done.
Qed.

(** ** Fragments *)

(** States [lo, ..., hi - 1] with entry [s] and exit [e]. *)
Record Frag (lo hi : Z) (G : graph) (s e : Z) (L : lang) : Prop := {
  fr_entry : lo ≤ s < hi;
  fr_exit : lo ≤ e < hi;
  fr_closed : ∀ p l q, lo ≤ p < hi → G p l q → lo ≤ q < hi;
  fr_lang : ∀ w, path G s w e ↔ L w }.

(** [G'] is [G] with the epsilon edges [es]. *)
Definition adds (G G' : graph) (es : list (Z * Z)) : Prop :=
  ∀ p l q, G' p l q ↔ G p l q ∨ (l = None ∧ (p, q) ∈ es).

Lemma adds_nil G : adds G G [].
Proof. intros p l q. split; [by left|]. intros [?|[_ ?%elem_of_nil]]; done. Qed.

Lemma adds_app G G' G'' es es' : adds G G' es → adds G' G'' es' → adds G G'' (es ++ es').
Proof. intros H1 H2 p l q. rewrite (H2 p l q), (H1 p l q), elem_of_app. naive_solver. Qed.

Lemma adds_mono G G' es p l q : adds G G' es → G p l q → G' p l q.
Proof. intros H ?. apply H. by left. Qed.

Lemma adds_path G G' es p w q : adds G G' es → path G p w q → path G' p w q.
Proof. intros H. apply path_mono. intros. by eapply adds_mono. Qed.

Lemma adds_eps G G' es p q : adds G G' es → (p, q) ∈ es → G' p None q.
Proof. intros H ?. apply H. by right. Qed.

(** The paths inside a closed region depend on its edges only. *)
Lemma path_region lo hi (G G' : graph) p w q :
  (∀ p l q, lo ≤ p < hi → G p l q → lo ≤ q < hi ∧ G' p l q) →
  lo ≤ p < hi → path G p w q → path G' p w q.
Proof. intros HG Hp Hpath. induction Hpath; [constructor|]. edestruct HG; [done..|]. eauto with nfa. Qed.

Lemma Frag_ext lo hi (G G' : graph) s e L :
  (∀ p l q, lo ≤ p < hi → G p l q ↔ G' p l q) → Frag lo hi G s e L → Frag lo hi G' s e L.
Proof.
  intros HG [Hs He Hc Hl]. split; [done..| |].
  - intros p l q Hp. rewrite <-HG by done. eauto.
  - intros w. rewrite <-Hl. split; apply (path_region lo hi); try done; intros p l q Hp HE.
    + rewrite <-HG in HE by done. eauto.
    + rewrite <-HG by done. eauto.
Qed.

Lemma Frag_lang lo hi G s e L L' : L ≡L L' → Frag lo hi G s e L → Frag lo hi G s e L'.
Proof. intros HL [? ? ? H]. split; [done..|]. intros w. by rewrite H. Qed.

Lemma Frag_stays lo hi G s e L p w q :
  Frag lo hi G s e L → lo ≤ p < hi → path G p w q → lo ≤ q < hi.
Proof. intros HF Hp Hpath. induction Hpath; [done|]. apply IHHpath. by eapply fr_closed. Qed.

(** No edge of the region enters, or leaves, a state. *)
Definition no_in (lo hi : Z) (G : graph) (s : Z) : Prop := ∀ p l, lo ≤ p < hi → ¬ G p l s.
Definition no_out (G : graph) (e : Z) : Prop := ∀ l q, ¬ G e l q.

Lemma no_out_path G e w q : no_out G e → path G e w q → w = [] ∧ q = e.
Proof. intros H Hp. inversion Hp; subst; [done|]. by edestruct H. Qed.

(** Two states and the edges from the first to the second. *)
Lemma Frag_pair lo (G : graph) (P : option Z → Prop) :
  (∀ l q, G lo l q ↔ q = lo + 1 ∧ P l) → no_out G (lo + 1) →
  Frag lo (lo + 2) G lo (lo + 1) (λ w, ∃ l, P l ∧ w = word l).
Proof.
  intros HG Ho. split; [lia..| |].
  - intros p l q Hp HE. assert (p = lo ∨ p = lo + 1) as [-> | ->] by lia.
    + apply HG in HE as [-> _]. lia.
    + by apply Ho in HE.
  - intros w. split.
    + intros Hp. inversion Hp as [|? l q v ? HE Hq]; subst; [lia|].
      apply HG in HE as [-> HP]. apply no_out_path in Hq as [-> _]; [|done].
      exists l. by rewrite app_nil_r.
    + intros (l & HP & ->). apply path_edge, HG. done.
Qed.

(** One more state behind the exit, reached by the labels of [P]. *)
Lemma Frag_snoc lo m (G G' : graph) s e L (P : option Z → Prop) :
  Frag lo m G s e L → no_out G m →
  (∀ p l q, G' p l q ↔ G p l q ∨ (p = e ∧ P l ∧ q = m)) →
  Frag lo (m + 1) G' s m (lang_cat L (λ w, ∃ l, P l ∧ w = word l)).
Proof.
  intros [Hs He Hc Hl] Hm HG. split; [lia..| |].
  - intros p l q Hp [HE|(-> & _ & ->)]%HG; [|lia].
    destruct (decide (p = m)) as [->|]; [by apply Hm in HE|]. eapply Hc in HE; lia.
  - set (K := λ w, ∃ l, P l ∧ w = word l). intros w. split.
    + intros Hp. cut ((lo ≤ s < m → via G s e K w) ∧ (s = m → w = [])).
      { intros [Hv _]. specialize (Hv Hs). revert Hv. apply lang_cat_mono; [apply Hl|done]. }
      revert Hp. apply (path_sound _ _ (λ p w, (lo ≤ p < m → via G p e K w) ∧ (p = m → w = [])));
        [split; [lia|done]|].
      intros p l q v [HE|(-> & HP & ->)]%HG [IH1 IH2].
      * split; [|intros ->; by apply Hm in HE]. intros Hp. apply via_step with q; [done|].
        apply IH1. by eapply Hc.
      * split; [|lia]. intros _. rewrite IH2, app_nil_r by done. apply via_exit. by exists l.
    + intros (u & v & -> & ?%Hl & l & HP & ->). eapply path_app.
      * eapply path_mono; [|done]. intros. apply HG. by left.
      * apply path_edge, HG. by right.
Qed.

Lemma Frag_seq lo m hi (G G' : graph) s1 e1 s2 e2 L1 L2 :
  Frag lo m G s1 e1 L1 → Frag m hi G s2 e2 L2 → adds G G' [(e1, s2)] →
  Frag lo hi G' s1 e2 (lang_cat L1 L2).
Proof.
  intros [Hs1 He1 Hc1 Hl1] [Hs2 He2 Hc2 Hl2] HG. split; [lia..| |].
  - intros p l q Hp [HE|(_ & [= -> ->]%list_elem_of_singleton)]%HG.
    + destruct (decide (p < m)); [eapply Hc1 in HE|eapply Hc2 in HE]; lia.
    + lia.
  - intros w. split.
    + intros Hp. cut ((lo ≤ s1 < m → via G s1 e1 L2 w) ∧ (m ≤ s1 < hi → path G s1 w e2)).
      { intros [Hv _]. specialize (Hv Hs1). revert Hv. apply lang_cat_mono; [apply Hl1|done]. }
      revert Hp. apply (path_sound _ _
        (λ p w, (lo ≤ p < m → via G p e1 L2 w) ∧ (m ≤ p < hi → path G p w e2)));
        [split; [lia|constructor]|].
      intros p l q v [HE|(-> & [= -> ->]%list_elem_of_singleton)]%HG [IH1 IH2].
      * split; intros Hp; [apply via_step with q; eauto|eauto with nfa].
      * split; [|lia]. intros _. apply via_exit. apply Hl2. by apply IH2.
    + intros (u & v & -> & Hu%Hl1 & Hv%Hl2). eapply path_app; [by eapply adds_path|].
      eapply path_eps; [eapply (adds_eps _ _ _ _ _ HG), list_elem_of_here|by eapply adds_path].
Qed.

(** One more branch of a choice between [s] and [e]. *)
Lemma Frag_alt lo m hi (G G' : graph) s e s2 e2 L L2 :
  Frag lo m G s e L → Frag m hi G s2 e2 L2 → s ≠ e → no_in lo m G s → no_out G e →
  adds G G' [(s, s2); (e2, e)] →
  Frag lo hi G' s e (lang_or L L2) ∧ no_in lo hi G' s ∧ no_out G' e.
Proof.
  intros [Hs He Hc Hl] [Hs2 He2 Hc2 Hl2] Hse Hin Hout HG.
  assert (∀ p l q, G' p l q → G p l q ∨ l = None ∧ (p = s ∧ q = s2 ∨ p = e2 ∧ q = e)) as HG'.
  { intros p l q [?|[? Hes]]%HG; [by left|]. right. split; [done|].
    apply elem_of_cons in Hes as [[= -> ->]|[= -> ->]%list_elem_of_singleton]; auto. }
  split_and!; [split; [lia..| |]| |].
  - intros p l q Hp [HE|(_ & [[-> ->]|[-> ->]])]%HG'; [|lia..].
    destruct (decide (p < m)); [eapply Hc in HE|eapply Hc2 in HE]; lia.
  - intros w. split.
    + set (Res p w := (p = s → lang_or L L2 w) ∧ (lo ≤ p < m → p ≠ s → path G p w e)
             ∧ (m ≤ p < hi → via G p e2 lang_eps w)).
      intros Hp. cut (Res s w); [intros [H _]; by apply H|]. revert Hp. apply path_sound.
      { unfold Res. split_and!; [done|constructor|lia]. }
      intros p l q v [HE|(-> & [[-> ->]|[-> ->]])]%HG' (IHs & IH1 & IH2).
      * assert (lo ≤ p < m → path G p (word l ++ v) e) as Hgo.
        { intros Hp. apply path_step with q; [done|]. apply IH1; [by eapply Hc|].
          intros ->. by eapply Hin. }
        unfold Res. split_and!; [|auto|].
        -- intros ->. left. apply Hl. by apply Hgo.
        -- intros Hp. apply via_step with q; [done|]. eapply IH2, Hc2; done.
      * unfold Res. split_and!; [|done|lia]. intros _. right. apply Hl2.
        by apply (lang_cat_eps_r (λ u, path G s2 u e2)), IH2.
      * unfold Res. split_and!; [intros ->; lia|lia|]. intros _. apply via_exit.
        by apply no_out_path in IH1 as [-> _].
    + intros [?%Hl|?%Hl2]; [by eapply adds_path|].
      eapply path_eps; [eapply (adds_eps _ _ _ _ _ HG), list_elem_of_here|].
      rewrite <-(app_nil_r w). eapply path_app; [by eapply adds_path|].
      apply path_edge with (l := None). eapply (adds_eps _ _ _ _ _ HG), list_elem_of_further, list_elem_of_here.
  - intros p l Hp [HE|(_ & [[-> ->]|[-> ->]])]%HG'; [|lia..].
    destruct (decide (p < m)); [apply (Hin p l); [lia|done]|eapply Hc2 in HE; lia].
  - intros l q [HE|(_ & [[-> ->]|[-> ->]])]%HG'; [by eapply Hout|done|lia].
Qed.

Lemma lang_star_cons (L : lang) u v : L u → lang_star L v → lang_star L (u ++ v).
Proof. intros ? [n ?]. exists (S n), u, v. done. Qed.

Lemma lang_star_nil (L : lang) : lang_star L [].
Proof. by exists 0%nat. Qed.

#[export] Hint Resolve lang_star_cons lang_star_nil via_exit : nfa.

(** What the builder's repetitions accept. *)
Definition wrap_lang (skip loop : bool) (L : lang) : lang :=
  lang_or (λ w, skip = true ∧ w = []) (lang_cat L (if loop then lang_star L else lang_eps)).

Definition wrap_edges (skip loop : bool) (s e s1 e1 : Z) : list (Z * Z) :=
  [(s, s1)] ++ (if skip then [(s, e)] else []) ++ (if loop then [(e1, s1)] else []) ++ [(e1, e)].

Lemma elem_wrap_edges skip loop s e s1 e1 p q :
  (p, q) ∈ wrap_edges skip loop s e s1 e1 ↔
  p = s ∧ q = s1 ∨ skip = true ∧ p = s ∧ q = e ∨ loop = true ∧ p = e1 ∧ q = s1 ∨ p = e1 ∧ q = e.
Proof. unfold wrap_edges. destruct skip, loop; set_solver. Qed.

Section repetition.
Context (lo m : Z) (G G' : graph) (s1 e1 : Z) (L : lang).

Lemma loop_paths w :
  Frag lo m G s1 e1 L → (∀ p l q, G p l q → G' p l q) → G' e1 None s1 →
  lang_cat L (lang_star L) w → path G' s1 w e1.
Proof.
  intros [_ _ _ Hl] HG Hback (u & v & -> & Hu & n & Hv).
  revert u v Hu Hv. induction n as [|n IH]; intros u v Hu Hv.
  - rewrite Hv, app_nil_r. eapply path_mono; [done|]. by apply Hl.
  - destruct Hv as (v1 & v2 & -> & H1 & H2). eapply path_app.
    + eapply path_mono; [done|]. by apply Hl.
    + eapply path_eps; [done|]. by apply IH.
Qed.

Lemma Frag_wrap skip loop :
  Frag lo m G s1 e1 L → no_out G m → no_out G (m + 1) →
  adds G G' (wrap_edges skip loop m (m + 1) s1 e1) →
  Frag lo (m + 2) G' m (m + 1) (wrap_lang skip loop L).
Proof.
  intros HF Hm Hm1 HG. destruct (HF) as [Hs He Hc Hl].
  assert (∀ p q, (p, q) ∈ wrap_edges skip loop m (m + 1) s1 e1 → G' p None q) as HE
    by (intros; by eapply adds_eps).
  split; [lia..| |].
  - intros p l q Hp [HE'|[_ HE']]%HG; [|apply elem_wrap_edges in HE'; lia].
    destruct (decide (p < m)); [eapply Hc in HE'; lia|].
    assert (p = m ∨ p = m + 1) as [-> | ->] by lia; [by apply Hm in HE'|by apply Hm1 in HE'].
  - set (K := if loop then lang_star L else lang_eps). intros w. split.
    + set (Res p w := (p = m + 1 → w = []) ∧ (lo ≤ p < m → via G p e1 K w)
                      ∧ (p = m → wrap_lang skip loop L w)).
      intros Hp. cut (Res m w); [intros (_ & _ & H); by apply H|]. revert Hp. apply path_sound.
      { unfold Res. split_and!; [done|lia|lia]. }
      intros p l q v [HE'|[-> HE']]%HG (IH1 & IH2 & IH3); unfold Res.
      { split_and!; [intros ->; by apply Hm1 in HE'|intros Hp|intros ->; by apply Hm in HE'].
        apply via_step with q; [done|]. by eapply IH2, Hc. }
      assert (via G s1 e1 K v → lang_cat L K v) as Hvia
        by (apply lang_cat_mono; [apply Hl|done]).
      assert (K []) as HK by (unfold K; destruct loop; [apply lang_star_nil|done]).
      cbn [word app]. apply elem_wrap_edges in HE' as [[-> ->]|[(-> & -> & ->)|[(-> & -> & ->)|[-> ->]]]].
      * split_and!; [lia|lia|]. intros _. right. apply Hvia, IH2, Hs.
      * split_and!; [lia|lia|]. intros _. left. auto.
      * split_and!; [lia| |lia]. intros _. apply via_exit.
        destruct (Hvia (IH2 Hs)) as (u & ? & -> & ? & ?). by apply lang_star_cons.
      * split_and!; [lia| |lia]. intros _. rewrite IH1 by done. by apply via_exit.
    + intros [[-> ->]|Hw].
      { apply (path_edge _ _ None), HE, elem_wrap_edges. auto. }
      eapply path_eps; [apply HE, elem_wrap_edges; auto 6|].
      rewrite <-(app_nil_r w). apply (path_app _ _ _ e1);
        [|apply (path_edge _ _ None), HE, elem_wrap_edges; auto 6].
      destruct loop.
      * apply loop_paths; [done|intros; by eapply adds_mono|apply HE, elem_wrap_edges; auto 6|done].
      * apply (lang_cat_eps_r L) in Hw. eapply adds_path; [done|]. by apply Hl.
Qed.

End repetition.

(** [{n,}] with [n < 2]: a loop state behind the required copies. *)
Lemma Frag_loop lo m h (G G' : graph) s e s2 e2 L1 L2 :
  Frag lo m G s e L1 → Frag m h G s2 e2 L2 → no_out G h →
  adds G G' [(e, h); (h, s2); (e2, h)] →
  Frag lo (h + 1) G' s h (lang_cat L1 (lang_star L2)).
Proof.
  intros [Hs He Hc Hl] HF2 Hh HG. destruct (HF2) as [Hs2 He2 Hc2 Hl2].
  assert (∀ p q, (p, q) ∈ [(e, h); (h, s2); (e2, h)] ↔
    p = e ∧ q = h ∨ p = h ∧ q = s2 ∨ p = e2 ∧ q = h) as HE by set_solver.
  split; [lia..| |].
  - intros p l q Hp [HE'|[_ HE'%HE]]%HG; [|lia].
    destruct (decide (p < m)); [eapply Hc in HE'; lia|].
    destruct (decide (p < h)); [eapply Hc2 in HE'; lia|].
    assert (p = h) as -> by lia. by apply Hh in HE'.
  - intros w. split.
    + set (Res p w := (lo ≤ p < m → via G p e (lang_star L2) w)
             ∧ (m ≤ p < h → via G p e2 (lang_star L2) w) ∧ (p = h → lang_star L2 w)).
      intros Hp. cut (Res s w).
      { intros (Hv & _). specialize (Hv Hs). revert Hv. apply lang_cat_mono; [apply Hl|done]. }
      revert Hp. apply path_sound; [unfold Res; split_and!; [lia|lia|eauto with nfa]|].
      intros p l q v [HE'|[-> [[-> ->]|[[-> ->]|[-> ->]]]%HE]]%HG (IH1 & IH2 & IH3); unfold Res.
      * split_and!; [intros; eapply via_step; eauto..|intros ->; by apply Hh in HE'].
      * split_and!; [|lia|lia]. intros _. apply via_exit. by apply IH3.
      * split_and!; [lia|lia|]. intros _. destruct (IH2 Hs2) as (x & y & -> & Hx%Hl2 & ?).
        cbn [word app]. by apply lang_star_cons.
      * split_and!; [lia| |lia]. intros _. apply via_exit. by apply IH3.
    + intros (u & v & -> & Hu%Hl & n & Hv). eapply path_app; [by eapply adds_path|].
      eapply path_eps; [apply (adds_eps _ _ _ e h HG), HE; auto|].
      revert v Hv. induction n as [|n IH]; intros v Hv; [rewrite Hv; constructor|].
      destruct Hv as (x & y & -> & Hx%Hl2 & Hy).
      eapply path_eps; [apply (adds_eps _ _ _ h s2 HG), HE; auto|].
      eapply path_app; [by eapply adds_path|].
      eapply path_eps; [apply (adds_eps _ _ _ e2 h HG), HE; auto|]. by apply IH.
Qed.

(** One more copy that may be left out. *)
Lemma Frag_opt lo m h (G G' : graph) s e s2 e2 L1 L2 :
  Frag lo m G s e L1 → Frag m h G s2 e2 L2 → no_out G h →
  adds G G' [(e, s2); (e, h); (e2, h)] →
  Frag lo (h + 1) G' s h (lang_cat L1 (lang_or L2 lang_eps)).
Proof.
  intros [Hs He Hc Hl] HF2 Hh HG. destruct (HF2) as [Hs2 He2 Hc2 Hl2].
  assert (∀ p q, (p, q) ∈ [(e, s2); (e, h); (e2, h)] ↔
    p = e ∧ q = s2 ∨ p = e ∧ q = h ∨ p = e2 ∧ q = h) as HE by set_solver.
  split; [lia..| |].
  - intros p l q Hp [HE'|[_ HE'%HE]]%HG; [|lia].
    destruct (decide (p < m)); [eapply Hc in HE'; lia|].
    destruct (decide (p < h)); [eapply Hc2 in HE'; lia|].
    assert (p = h) as -> by lia. by apply Hh in HE'.
  - intros w. split.
    + set (Res p w := (lo ≤ p < m → via G p e (lang_or L2 lang_eps) w)
             ∧ (m ≤ p < h → via G p e2 lang_eps w) ∧ (p = h → w = [])).
      intros Hp. cut (Res s w).
      { intros (Hv & _). specialize (Hv Hs). revert Hv. apply lang_cat_mono; [apply Hl|done]. }
      revert Hp. apply path_sound; [unfold Res; split_and!; [lia|lia|done]|].
      intros p l q v [HE'|[-> [[-> ->]|[[-> ->]|[-> ->]]]%HE]]%HG (IH1 & IH2 & IH3); unfold Res.
      * split_and!; [intros; eapply via_step; eauto..|intros ->; by apply Hh in HE'].
      * split_and!; [|lia|lia]. intros _. apply via_exit. left. apply Hl2.
        by apply (lang_cat_eps_r (λ u, path G s2 u e2)), IH2.
      * split_and!; [|lia|lia]. intros _. apply via_exit. right. by apply IH3.
      * split_and!; [lia| |lia]. intros _. apply via_exit. by apply IH3.
    + intros (u & v & -> & Hu%Hl & Hv). eapply path_app; [by eapply adds_path|].
      destruct Hv as [Hv%Hl2| ->].
      * eapply path_eps; [apply (adds_eps _ _ _ e s2 HG), HE; auto|].
        rewrite <-(app_nil_r v). eapply path_app; [by eapply adds_path|].
        apply (path_edge _ _ None), (adds_eps _ _ _ e2 h HG), HE. auto.
      * apply (path_edge _ _ None), (adds_eps _ _ _ e h HG), HE. auto.
Qed.
