(* ===== verification/NfaBuild.v ===== *)
(** * Running the NFA builder

    A small program logic for the builder.  [runs m N Q]: the step [m] succeeds
    from the states [N], and its result and the new states satisfy [Q].  A
    construction [builds] a language when, from any states, it appends a
    fragment of that language and leaves the states before it alone. *)

From Stdlib Require Import ZArith Lia ZifyBool.
From stdpp Require Import base tactics list numbers option sets.
From S2P Require Import Prelude Utf8 SliceSort StateError Regex Nfa NfaPath.
Local Open Scope Z_scope.

(** ** The graph of the builder's states *)

Definition reads (t : nfaTransition) (l : option Z) : Prop :=
  match l with
  | None => tepsilon t = true
  | Some c => tepsilon t = false ∧ tlo t ≤ c ≤ thi t
  end.

Definition edges (N : list nfaState) : graph := λ p l q,
  ∃ st t, zget N p = Some st ∧ t ∈ transitions st ∧ tnext t = q ∧ reads t l.

(** What a state accepts: symbol, priority and tie order. *)
Definition label (N : list nfaState) (p : Z) : Z * Z * Z :=
  match zget N p with
  | Some st => (accept st, priority st, tieOrder st)
  | None => (0, 0, 0)
  end.

(** Targets are states, and the ranges are not empty and end below the last
    rune value. *)
Definition trans_wf (n : Z) (t : nfaTransition) : Prop :=
  0 ≤ tnext t < n ∧ (tepsilon t = false → - 2 ^ 31 ≤ tlo t ≤ thi t ∧ thi t < 2 ^ 31 - 1).

Definition nfa_wf (N : list nfaState) : Prop :=
  ∀ p st t, zget N p = Some st → t ∈ transitions st → trans_wf (len N) t.

(** From [N] to [N'] states were added, those below [b] are as before, nothing
    was given a label, and well-formed states stay so. *)
Record grows (b : Z) (N N' : list nfaState) : Prop := {
  gr_len : len N ≤ len N';
  gr_keep : ∀ p, p < b → zget N' p = zget N p;
  gr_label : ∀ p, label N' p = label N p;
  gr_wf : nfa_wf N → nfa_wf N' }.

Lemma grows_refl b N : grows b N N.
Proof. done. Qed.

Lemma grows_trans b N N' N'' : grows b N N' → grows b N' N'' → grows b N N''.
Proof.
  intros [L1 K1 A1 W1] [L2 K2 A2 W2]. split; [lia| | |auto].
  - intros. by rewrite K2, K1.
  - intros. by rewrite A2, A1.
Qed.

Lemma grows_weaken b c N N' : grows c N N' → b ≤ c → grows b N N'.
Proof. intros [? K ? ?] ?. split; [done| |done..]. intros. apply K. lia. Qed.

Lemma grows_edges b N N' p l q : grows b N N' → p < b → edges N' p l q ↔ edges N p l q.
Proof. intros HG ?. unfold edges. by rewrite (gr_keep _ _ _ HG). Qed.

Lemma edges_range N p l q : edges N p l q → 0 ≤ p < len N.
Proof. intros (st & t & ? & _). by eapply zget_Some_range. Qed.

Lemma no_out_fresh N p : len N ≤ p → no_out (edges N) p.
Proof. intros Hp l q HE%edges_range. lia. Qed.

Lemma Frag_grows lo hi N N' s e L :
  grows hi N N' → Frag lo hi (edges N) s e L → Frag lo hi (edges N') s e L.
Proof. intros HG. apply Frag_ext. intros. symmetry. eapply grows_edges; [done|lia]. Qed.

Lemma edges_addState N p l q : edges (N ++ [emptyState]) p l q ↔ edges N p l q.
Proof.
  unfold edges. split; intros (st & t & Hp & Ht & H); exists st, t; (split; [|done]).
  - destruct (Z.lt_ge_cases p (len N)); [by rewrite zget_app_l in Hp|].
    rewrite zget_app_r in Hp by done. destruct (decide (p - len N = 0)) as [E|].
    + rewrite E in Hp. injection Hp as <-. by apply elem_of_nil in Ht.
    + apply zget_Some_range in Hp. change (len [emptyState]) with 1 in Hp. lia.
  - apply zget_Some_range in Hp as Hr. rewrite zget_app_l; [done|lia].
Qed.

Lemma label_addState N p : label (N ++ [emptyState]) p = label N p.
Proof.
  unfold label. destruct (Z.lt_ge_cases p (len N)); [by rewrite zget_app_l|].
  rewrite zget_app_r by done. rewrite (proj2 (zget_None N p)) by lia.
  destruct (decide (p - len N = 0)) as [->|]; [done|].
  rewrite zget_cons_ne, zget_nil by done. done.
Qed.

Lemma grows_addState b N : b ≤ len N → grows b N (N ++ [emptyState]).
Proof.
  split; [rewrite len_app; unfold len; cbn; lia| |apply label_addState|].
  - intros. apply zget_app_l. lia.
  - intros Hwf p st t Hp Ht. rewrite len_app. change (len [emptyState]) with 1.
    destruct (Z.lt_ge_cases p (len N)) as [Hlt|Hge].
    + rewrite zget_app_l in Hp by done. destruct (Hwf p st t Hp Ht). split; [lia|done].
    + rewrite zget_app_r in Hp by done. apply zget_elem, list_elem_of_singleton in Hp as ->.
      by apply elem_of_nil in Ht.
Qed.

(** ** Runs *)

Definition runs {A} (m : builder A) (N : list nfaState) (Q : A → list nfaState → Prop) : Prop :=
  ∃ a N', m N = Ret (inr (a, N')) ∧ Q a N'.

Lemma runs_ret {A} (a : A) N (Q : A → list nfaState → Prop) : Q a N → runs (mret a) N Q.
Proof. intros. by exists a, N. Qed.

Lemma runs_bind {A B} (m : builder A) (f : A → builder B) N Q :
  runs m N (λ a N', runs (f a) N' Q) → runs (m ≫= f) N Q.
Proof.
  intros (a & N' & Hm & b & N'' & Hf & HQ). exists b, N''. split; [|done].
  by rewrite (ste_bind_ok _ _ _ _ _ Hm).
Qed.

Lemma runs_mono {A} (m : builder A) N (P Q : A → list nfaState → Prop) :
  runs m N P → (∀ a N', P a N' → Q a N') → runs m N Q.
Proof. intros (a & N' & ? & ?) HPQ. exists a, N'. auto. Qed.

Lemma runs_addState b N Q :
  b ≤ len N →
  (∀ N', len N' = len N + 1 → grows b N N' → adds (edges N) (edges N') [] → Q (len N) N') →
  runs addState N Q.
Proof.
  intros Hb HQ. exists (len N), (N ++ [emptyState]). split; [done|]. apply HQ.
  - by autorewrite with golen.
  - by apply grows_addState.
  - intros p l q. rewrite edges_addState. set_solver.
Qed.

Lemma addTransition_run b a t N :
  0 ≤ b → b ≤ a < len N → trans_wf (len N) t →
  ∃ N', addTransition a t N = Ret (inr ((), N')) ∧ len N' = len N ∧ grows b N N' ∧
    ∀ p l q, edges N' p l q ↔ edges N p l q ∨ (p = a ∧ reads t l ∧ q = tnext t).
Proof.
  intros Hb Ha Ht. unfold addTransition.
  destruct (index_in_range N a) as (st & -> & Hst); [lia|]. cbn.
  rewrite store_ok by lia. cbn. eexists. split; [done|].
  set (st' := mkNfaState _ _ _ _). set (N' := <[Z.to_nat a := st']> N).
  assert (zget N' a = Some st') as Ha' by (apply zget_insert_eq; lia).
  assert (∀ p, p ≠ a → zget N' p = zget N p) as Hne by (intros; apply zget_insert_ne; lia).
  assert (len N' = len N) as Hlen by apply len_insert.
  split_and!; [done|split; [lia| | |]|].
  - intros p Hp. apply Hne. lia.
  - intros p. unfold label. destruct (decide (p = a)) as [->|]; [by rewrite Ha', Hst|by rewrite Hne].
  - intros Hwf p st0 t0 Hp Ht0. rewrite Hlen. destruct (decide (p = a)) as [->|].
    + rewrite Ha' in Hp. injection Hp as <-. cbn in Ht0.
      apply elem_of_app in Ht0 as [Ht0| ->%list_elem_of_singleton]; [by eapply Hwf|done].
    + rewrite Hne in Hp by done. by eapply Hwf.
  - intros p l q. unfold edges. destruct (decide (p = a)) as [->|Hpa].
    + rewrite Ha', Hst. split.
      * intros (? & u & [= <-] & Hu & <- & Hr). cbn in Hu.
        apply elem_of_app in Hu as [Hu| ->%list_elem_of_singleton]; [left; by exists st, u|by right].
      * intros [(? & u & [= <-] & Hu & <- & Hr)|(_ & Hr & ->)]; eexists st', _;
          (split_and!; [done|apply elem_of_app|..]); [by left|done|done|right; apply list_elem_of_here|done|done].
    + rewrite Hne by done. naive_solver.
Qed.

Lemma runs_addEpsilon b a c N (Q : () → list nfaState → Prop) :
  0 ≤ b → b ≤ a < len N → b ≤ c < len N →
  (∀ N', len N' = len N → grows b N N' → adds (edges N) (edges N') [(a, c)] → Q () N') →
  runs (addEpsilon a c) N Q.
Proof.
  intros Hb Ha Hc HQ.
  destruct (addTransition_run b a (mkNfaTransition 0 0 true c) N Hb Ha)
    as (N' & Hr & Hl & Hg & He); [split; cbn; [lia|done]|].
  exists (), N'. split; [done|]. apply HQ; [done..|].
  intros p l q. rewrite He. cbn. destruct l; cbn; set_solver.
Qed.

(** The rune ranges of transitions. *)
Definition rune_range (lo hi : Z) : Prop := - 2 ^ 31 ≤ lo ≤ hi ∧ hi < 2 ^ 31 - 1.

Lemma runs_addCharRange b a lo hi c N (Q : () → list nfaState → Prop) :
  0 ≤ b → b ≤ a < len N → b ≤ c < len N → rune_range lo hi →
  (∀ N', len N' = len N → grows b N N' →
    (∀ p l q, edges N' p l q ↔
      edges N p l q ∨ (p = a ∧ (∃ r, l = Some r ∧ lo ≤ r ≤ hi) ∧ q = c)) → Q () N') →
  runs (addCharRange a lo hi c) N Q.
Proof.
  intros Hb Ha Hc Hr HQ.
  destruct (addTransition_run b a (mkNfaTransition lo hi false c) N Hb Ha)
    as (N' & Hrun & Hl & Hg & He); [split; cbn; [lia|done]|].
  exists (), N'. split; [done|]. apply HQ; [done..|].
  intros p l q. rewrite He. cbn. destruct l; cbn; naive_solver.
Qed.

(** ** Constructions *)

(** From any states, [m] appends a fragment of [L]. *)
Definition builds (m : builder nfaFragment) (L : lang) : Prop := ∀ N,
  runs m N (λ f N', grows (len N) N N'
    ∧ Frag (len N) (len N') (edges N') (fstart f) (fend f) L).

Lemma builds_lang m L L' : L ≡L L' → builds m L → builds m L'.
Proof. intros HL Hm N. eapply runs_mono; [apply Hm|]. intros f N' [? ?]. split; [done|]. by eapply Frag_lang. Qed.

(** Run a construction behind what was built since [b]. *)
Lemma runs_build b m L N (Q : nfaFragment → list nfaState → Prop) :
  builds m L → b ≤ len N →
  (∀ f N', grows b N N' → grows (len N) N N' →
    Frag (len N) (len N') (edges N') (fstart f) (fend f) L → Q f N') →
  runs m N Q.
Proof.
  intros Hm Hb HQ. eapply runs_mono; [apply Hm|]. intros f N' [Hg HF]. apply HQ; [|done..].
  by eapply grows_weaken.
Qed.

Lemma builds_epsilon : builds buildEpsilon lang_eps.
Proof.
  intros N. pose proof (len_nonneg N). unfold buildEpsilon.
  apply runs_bind, (runs_addState (len N)); [done|]. intros N1 L1 G1 A1.
  apply runs_bind, (runs_addState (len N)); [lia|]. intros N2 L2 G2 A2.
  apply runs_bind, (runs_addEpsilon (len N)); [lia..|]. intros N3 L3 G3 A3.
  apply runs_ret. cbn. split; [eauto using grows_trans|].
  pose proof (adds_app _ _ _ _ _ (adds_app _ _ _ _ _ A1 A2) A3) as HA. cbn in HA.
  replace (len N3) with (len N + 2) by lia. rewrite L1.
  apply (Frag_lang _ _ _ _ _ (λ w, ∃ l, l = None ∧ w = word l)).
  { intros w. unfold lang_eps. naive_solver. }
  apply Frag_pair.
  - intros l q. rewrite (HA _ l q). split.
    + intros [?%edges_range|[-> Hin]]; [lia|]. set_solver by lia.
    + intros [-> ->]. right. rewrite L1. set_solver.
  - intros l q [?%edges_range|[_ Hin]]%HA; [lia|]. set_solver by lia.
Qed.

(** Add edges that read the runes of [P] from one state to another. *)
Definition char_step (body : Z → Z → builder ()) (P : Z → Prop) : Prop :=
  ∀ b a c N (Q : () → list nfaState → Prop),
  0 ≤ b → b ≤ a < len N → b ≤ c < len N →
  (∀ N', len N' = len N → grows b N N' →
    (∀ p l q, edges N' p l q ↔ edges N p l q ∨ (p = a ∧ (∃ r, l = Some r ∧ P r) ∧ q = c)) →
    Q () N') →
  runs (body a c) N Q.

Lemma char_step_range lo hi :
  rune_range lo hi → char_step (λ a c, addCharRange a lo hi c) (λ r, lo ≤ r ≤ hi).
Proof. intros Hr b a c N Q Hb Ha Hc HQ. by apply (runs_addCharRange b). Qed.

Lemma char_step_seq body1 body2 P1 P2 :
  char_step body1 P1 → char_step body2 P2 →
  char_step (λ a c, body1 a c;; body2 a c) (λ r, P1 r ∨ P2 r).
Proof.
  intros H1 H2 b a c N Q Hb Ha Hc HQ. apply runs_bind, (H1 b); [done..|]. intros N1 L1 G1 E1.
  apply (H2 b); [done|lia|lia|]. intros N2 L2 G2 E2. apply HQ; [lia|by eapply grows_trans|].
  intros p l q. rewrite E2, E1. naive_solver.
Qed.

Lemma char_step_ext body P P' : (∀ r, P r ↔ P' r) → char_step body P → char_step body P'.
Proof.
  intros HP Hb b a c N Q ??? HQ. apply (Hb b); [done..|]. intros N' ?? HE. apply HQ; [done..|].
  intros p l q. rewrite HE. by setoid_rewrite HP.
Qed.

Lemma range_ok_rune_range x : range_ok x = true → rune_range (rlo x) (rhi x).
Proof. rewrite range_ok_spec. unfold rune_range, maxSupportedRune. lia. Qed.

Lemma char_step_ranges ranges :
  Forall (λ x, range_ok x = true) ranges →
  char_step (λ a c, range_loop a c ranges) (λ r, has_rune ranges r = true).
Proof.
  induction 1 as [|x ranges Hx Hranges IH].
  - intros b a c N Q ??? HQ. apply runs_ret, HQ; [done|apply grows_refl|].
    intros p l q. split; [by left|]. by intros [?|(_ & (r & _ & [=]) & _)].
  - eapply char_step_ext, (char_step_seq _ _ _ _ (char_step_range _ _ (range_ok_rune_range x Hx)) IH).
    intros r. rewrite has_rune_cons. unfold in_rune. lia.
Qed.

Lemma runs_assoc {A B C} (m : builder A) (f : A → builder B) (g : B → builder C) N Q :
  runs ((m ≫= f) ≫= g) N Q → runs (m ≫= λ a, f a ≫= g) N Q.
Proof.
  intros (c & N' & H & HQ). exists c, N'. split; [|done].
  unfold mbind, ste_bind in *. repeat case_match; simplify_eq; done.
Qed.

Lemma builds_chars body P :
  char_step body P →
  builds (start ← addState; end_ ← addState; body start end_;; mret (mkFragment start end_))
    (lang_rune P).
Proof.
  intros Hbody N. pose proof (len_nonneg N).
  apply runs_bind, (runs_addState (len N)); [done|]. intros N1 L1 G1 A1.
  apply runs_bind, (runs_addState (len N)); [lia|]. intros N2 L2 G2 A2.
  apply runs_bind, (Hbody (len N)); [lia..|]. intros N3 L3 G3 E3.
  apply runs_ret. cbn. split; [eauto using grows_trans|].
  pose proof (adds_app _ _ _ _ _ A1 A2) as HA. cbn in HA.
  replace (len N3) with (len N + 2) by lia. rewrite L1.
  eapply (Frag_lang _ _ _ _ _ (λ w, ∃ l, (∃ r, l = Some r ∧ P r) ∧ w = word l)).
  { intros w. unfold lang_rune. naive_solver. }
  apply Frag_pair.
  - intros l q. rewrite E3, L1. split; [|naive_solver].
    intros [[?%edges_range|[_ ?%elem_of_nil]]%HA|?]; [lia|done|naive_solver].
  - intros l q [[?%edges_range|[_ ?%elem_of_nil]]%HA|?]%E3; [lia|done|lia].
Qed.

(** ** Strings *)

Lemma Frag_point lo G : no_out G lo → Frag lo (lo + 1) G lo lo lang_eps.
Proof.
  intros Ho. split; [lia..| |].
  - intros p l q Hp HE. assert (p = lo) as -> by lia. by apply Ho in HE.
  - intros w. split; [by intros [-> _]%no_out_path|]. intros ->. constructor.
Qed.

Lemma runs_string_loop b rs s cur L N :
  0 ≤ b → Forall (λ r, rune_range r r) rs → Frag b (len N) (edges N) s cur L →
  runs (string_loop rs cur) N (λ e N', grows b N N'
    ∧ Frag b (len N') (edges N') s e (lang_cat L (λ w, w = rs))).
Proof.
  intros Hb Hrs. revert cur L N. induction Hrs as [|r rs Hr Hrs IH]; intros cur L N HF; cbn.
  { apply runs_ret. split; [apply grows_refl|]. eapply Frag_lang; [|done].
    intros w. by rewrite lang_cat_eps_r. }
  pose proof (fr_exit _ _ _ _ _ _ HF) as He.
  apply runs_bind, (runs_addState b); [lia|]. intros N1 L1 G1 A1.
  apply runs_bind, (runs_addCharRange b); [lia|lia|lia|done|]. intros N2 L2 G2 E2.
  apply (Frag_snoc _ _ _ (edges N2) _ _ _ (λ l, l = Some r)) in HF.
  - eapply runs_mono; [apply IH; replace (len N2) with (len N + 1) by lia; exact HF|].
    intros e N' [G3 HF']. split; [eauto using grows_trans|].
    eapply Frag_lang; [|done]. intros w. rewrite lang_cat_assoc.
    apply lang_cat_proper; [done|]. intros v. unfold lang_cat. naive_solver.
  - by apply no_out_fresh.
  - intros p l q. rewrite E2, (A1 p l q). split; [|naive_solver lia].
    intros [[?|[_ ?%elem_of_nil]]|(-> & (? & -> & ?) & ->)]; [by left|done|].
    right. split_and!; [done|f_equal; lia|done].
Qed.

(** What a string rule matches. *)
Definition string_lang (s : list Z) : lang :=
  λ w, w = if decide (s = [] ∨ s = nul_string) then [] else runes_of s.

Lemma DecodeRune_range p : Forall byte_ok p → rune_range (DecodeRune p).1 (DecodeRune p).1.
Proof.
  intros Hp. destruct (DecodeRune p) as [r n] eqn:E. destruct p as [|b p].
  { injection E as <- <-. unfold rune_range, RuneError. cbn. lia. }
  apply Forall_cons in Hp as [Hb _]. unfold byte_ok in Hb. unfold rune_range. cbn [fst].
  apply DecodeRune_decoded in E as [b0 rest [= -> ->] ?|b0 rest [= -> ->] ?|b0 b1 rest [= -> ->] Hl Hc
    |b0 b1 b2 rest lo hi [= -> ->] Hl ? Hc|b0 b1 b2 b3 rest lo hi [= -> ->] Hl ? Hc2 Hc3];
    [lia|unfold RuneError; lia|..|done]; apply lead_spec in Hl; unfold cont, in_range in *; lia.
Qed.

Lemma decode_loop_range fuel s :
  Forall byte_ok s → Forall (λ r, rune_range r r) (decode_loop fuel s).
Proof.
  revert s. induction fuel as [|fuel IH]; intros [|b s] Hs; cbn [decode_loop]; try constructor.
  pose proof (DecodeRune_range _ Hs) as Hr. destruct (DecodeRune (b :: s)) as [r k].
  constructor; [done|]. apply IH. by apply Forall_drop.
Qed.

Lemma runes_of_range s : Forall byte_ok s → Forall (λ r, rune_range r r) (runes_of s).
Proof. apply decode_loop_range. Qed.

Lemma builds_string s : Forall byte_ok s → builds (buildString s) (string_lang s).
Proof.
  intros Hs. unfold buildString, string_lang. case_decide; [apply builds_epsilon|].
  intros N. pose proof (len_nonneg N).
  apply runs_bind, (runs_addState (len N)); [done|]. intros N1 L1 G1 A1.
  apply runs_bind. eapply runs_mono.
  { apply (runs_string_loop (len N)); [done|by apply runes_of_range|]. rewrite L1. apply Frag_point.
    intros l q [?%edges_range|[_ ?%elem_of_nil]]%A1; [lia|done]. }
  intros e N' [G2 HF]. apply runs_ret. split; [by eapply grows_trans|].
  eapply Frag_lang; [|exact HF]. intros w. by rewrite lang_cat_eps_l.
Qed.

(** ** Sequences, choices and repetitions *)

(** Put a construction behind the fragment built since [b]. *)
Lemma runs_link {A} b s e L m K N (Q : A → list nfaState → Prop) (k : nfaFragment → builder A) :
  0 ≤ b → Frag b (len N) (edges N) s e L → builds m K →
  (∀ f N', grows b N N' → Frag b (len N') (edges N') s (fend f) (lang_cat L K) →
    runs (k f) N' Q) →
  runs (f ← m; addEpsilon e (fstart f);; k f) N Q.
Proof.
  intros Hb HF Hm HQ. pose proof (fr_exit _ _ _ _ _ _ HF) as He.
  apply runs_bind, (runs_build b _ K); [done|lia|]. intros f N1 G1 G1' F1.
  pose proof (fr_entry _ _ _ _ _ _ F1). pose proof (fr_exit _ _ _ _ _ _ F1).
  apply runs_bind, (runs_addEpsilon b); [lia..|]. intros N2 L2 G2 A2.
  apply HQ; [by eapply grows_trans|]. rewrite L2.
  eapply Frag_seq; [|exact F1|exact A2]. by eapply Frag_grows.
Qed.

Lemma runs_seq_loop {A} (build : A → builder nfaFragment) (L : A → lang) b cs s e K N :
  0 ≤ b → Forall (λ c, builds (build c) (L c)) cs → Frag b (len N) (edges N) s e K →
  runs (seq_loop build cs (mkFragment s e)) N (λ f N', grows b N N'
    ∧ Frag b (len N') (edges N') (fstart f) (fend f) (lang_cat K (lang_seq (map L cs)))).
Proof.
  intros Hb Hcs. revert e K N. induction Hcs as [|c cs Hc Hcs IH]; intros e K N HF; cbn.
  { apply runs_ret. split; [apply grows_refl|]. eapply Frag_lang; [|done].
    intros w. by rewrite lang_cat_eps_r. }
  eapply runs_link; [done..|]. intros f N' G1 F1. eapply runs_mono; [by apply IH|].
  intros g N'' [G2 F2]. split; [by eapply grows_trans|]. eapply Frag_lang; [|exact F2].
  intros w. by rewrite lang_cat_assoc.
Qed.

Lemma runs_alt_loop {A} (build : A → builder nfaFragment) (L : A → lang) b s e cs K N :
  0 ≤ b → s ≠ e → Forall (λ c, builds (build c) (L c)) cs →
  Frag b (len N) (edges N) s e K → no_in b (len N) (edges N) s → no_out (edges N) e →
  runs (alt_loop build s e cs) N (λ _ N', grows b N N'
    ∧ Frag b (len N') (edges N') s e (lang_or K (lang_any (map L cs)))).
Proof.
  intros Hb Hse Hcs. revert K N. induction Hcs as [|c cs Hc Hcs IH]; intros K N HF Hin Hout; cbn.
  { apply runs_ret. split; [apply grows_refl|]. eapply Frag_lang; [|done].
    intros w. unfold lang_or, lang_any. rewrite Exists_nil. naive_solver. }
  pose proof (fr_entry _ _ _ _ _ _ HF). pose proof (fr_exit _ _ _ _ _ _ HF).
  apply runs_bind, (runs_build b _ (L c)); [done|lia|]. intros f N1 G1 G1' F1.
  pose proof (fr_entry _ _ _ _ _ _ F1). pose proof (fr_exit _ _ _ _ _ _ F1).
  apply runs_bind, (runs_addEpsilon b); [lia..|]. intros N2 L2 G2 A2.
  apply runs_bind, (runs_addEpsilon b); [lia..|]. intros N3 L3 G3 A3.
  destruct (Frag_alt b (len N) (len N1) (edges N1) (edges N3) s e (fstart f) (fend f) K (L c))
    as (HF' & Hin' & Hout'); [by eapply Frag_grows|done|done| | |by eapply (adds_app _ _ _ [_])|].
  { intros p l Hp. rewrite grows_edges by (done || lia). by apply Hin. }
  { intros l q. rewrite grows_edges by (done || lia). by apply Hout. }
  rewrite <-L2, <-L3 in HF', Hin'.
  eapply runs_mono; [by apply IH|]. intros u N' [G4 F4].
  split; [eauto using grows_trans|]. eapply Frag_lang; [|exact F4]. intros w.
  unfold lang_or, lang_any. rewrite Exists_cons. naive_solver.
Qed.

Lemma Frag_empty lo G : no_out G lo → no_out G (lo + 1) → Frag lo (lo + 2) G lo (lo + 1) (λ _, False).
Proof.
  intros H1 H2. eapply Frag_lang, (Frag_pair lo G (λ _, False)); [| |done].
  - intros w. split; [by intros (? & [] & _)|done].
  - intros l q. split; [by intros ?%H1|by intros [_ []]].
Qed.

(** The choice between two fresh states. *)
Lemma builds_alt {A} (build : A → builder nfaFragment) (L : A → lang) cs :
  Forall (λ c, builds (build c) (L c)) cs →
  builds (start ← addState; end_ ← addState;
          alt_loop build start end_ cs;; mret (mkFragment start end_))
    (lang_any (map L cs)).
Proof.
  intros Hcs N. pose proof (len_nonneg N).
  apply runs_bind, (runs_addState (len N)); [done|]. intros N1 L1 G1 A1.
  apply runs_bind, (runs_addState (len N)); [lia|]. intros N2 L2 G2 A2.
  pose proof (adds_app _ _ _ _ _ A1 A2) as HA. cbn in HA.
  assert (∀ p, len N ≤ p → no_out (edges N2) p) as Ho.
  { intros p Hp l q [?%edges_range|[_ ?%elem_of_nil]]%HA; [lia|done]. }
  apply runs_bind. eapply runs_mono.
  { eapply (runs_alt_loop _ L (len N) _ _ _ (λ _, False)); [done|lia|done|..].
    - replace (len N2) with (len N + 2) by lia. rewrite L1. apply Frag_empty; apply Ho; lia.
    - intros p l Hp. apply Ho. lia.
    - apply Ho. lia. }
  intros u N' [G3 F3]. apply runs_ret. split; [eauto using grows_trans|].
  eapply Frag_lang; [|exact F3]. intros w. unfold lang_or. naive_solver.
Qed.

Lemma runs_addEpsilon_if b (c : bool) a d N (Q : () → list nfaState → Prop) :
  0 ≤ b → b ≤ a < len N → b ≤ d < len N →
  (∀ N', len N' = len N → grows b N N' →
    adds (edges N) (edges N') (if c then [(a, d)] else []) → Q () N') →
  runs (if c then addEpsilon a d else mret ()) N Q.
Proof.
  intros Hb Ha Hd HQ. destruct c; [by apply (runs_addEpsilon b)|].
  apply runs_ret, HQ; [done|apply grows_refl|apply adds_nil].
Qed.

Lemma builds_wrap m L skip loop :
  builds m L → builds (wrap m skip loop) (wrap_lang skip loop L).
Proof.
  intros Hm N. pose proof (len_nonneg N). unfold wrap.
  apply runs_bind, (runs_build (len N) _ L); [done..|]. intros f N1 G1 _ F1.
  pose proof (fr_entry _ _ _ _ _ _ F1). pose proof (fr_exit _ _ _ _ _ _ F1).
  pose proof (gr_len _ _ _ G1).
  apply runs_bind, (runs_addState (len N)); [lia|]. intros N2 L2 G2 A2.
  apply runs_bind, (runs_addState (len N)); [lia|]. intros N3 L3 G3 A3.
  apply runs_bind, (runs_addEpsilon (len N)); [lia..|]. intros N4 L4 G4 A4.
  apply runs_bind, (runs_addEpsilon_if (len N)); [lia..|]. intros N5 L5 G5 A5.
  apply runs_bind, (runs_addEpsilon_if (len N)); [lia..|]. intros N6 L6 G6 A6.
  apply runs_bind, (runs_addEpsilon (len N)); [lia..|]. intros N7 L7 G7 A7.
  apply runs_ret. cbn. split; [eauto 10 using grows_trans|].
  replace (len N7) with (len N1 + 2) by lia. replace (len N2) with (len N1 + 1) in * by lia.
  eapply Frag_wrap; [exact F1|apply no_out_fresh; lia..|].
  apply (adds_app _ _ _ [] _ A2), (adds_app _ _ _ [] _ A3), (adds_app _ _ _ _ _ A4),
    (adds_app _ _ _ _ _ A5), (adds_app _ _ _ _ _ A6), A7.
Qed.

(** ** Counted repetition *)

Section counted.
Context (m : builder nfaFragment) (L : lang) (Hm : builds m L).

Lemma runs_copies b n s e K N :
  0 ≤ b → Frag b (len N) (edges N) s e K →
  runs (copies m n (Some (mkFragment s e))) N (λ o N', ∃ f, o = Some f ∧ grows b N N'
    ∧ Frag b (len N') (edges N') (fstart f) (fend f) (lang_cat K (lang_pow L n))).
Proof.
  intros Hb. revert e K N. induction n as [|n IH]; intros e K N HF; cbn.
  { apply runs_ret. eexists. split_and!; [done|apply grows_refl|]. eapply Frag_lang; [|done].
    intros w. by rewrite lang_cat_eps_r. }
  eapply runs_link; [done..|]. intros f N' G1 F1. eapply runs_mono; [by apply IH|].
  intros o N'' (g & -> & G2 & F2). exists g. split_and!; [done|by eapply grows_trans|].
  eapply Frag_lang; [|exact F2]. intros w. by rewrite lang_cat_assoc.
Qed.

(** The required copies, or an empty fragment. *)
Lemma runs_required minCount N :
  0 ≤ minCount →
  runs (built ← copies m (Z.to_nat minCount) None;
        if minCount =? 0 then buildEpsilon else mret (default (mkFragment 0 0) built)) N
    (λ f N', grows (len N) N N'
      ∧ Frag (len N) (len N') (edges N') (fstart f) (fend f) (lang_pow L (Z.to_nat minCount))).
Proof.
  intros Hn. pose proof (len_nonneg N). destruct (Z.eqb_spec minCount 0) as [->|Hne].
  { apply runs_bind, runs_ret. apply builds_epsilon. }
  destruct (Z.to_nat minCount) as [|n] eqn:E; [lia|]. cbn.
  apply runs_bind, runs_bind, (runs_build (len N) _ L); [done..|]. intros [s e] N1 G1 _ F1.
  eapply runs_mono; [by apply (runs_copies (len N))|].
  intros o N2 (g & -> & G2 & F2). apply runs_ret. split; [by eapply grows_trans|done].
Qed.

Lemma runs_optional_copies b n s e K N :
  0 ≤ b → Frag b (len N) (edges N) s e K →
  runs (optional_copies m n (mkFragment s e)) N (λ f N', grows b N N'
    ∧ Frag b (len N') (edges N') (fstart f) (fend f)
        (lang_cat K (lang_pow (lang_or L lang_eps) n))).
Proof.
  intros Hb. revert e K N. induction n as [|n IH]; intros e K N HF; cbn.
  { apply runs_ret. split; [apply grows_refl|]. eapply Frag_lang; [|done].
    intros w. by rewrite lang_cat_eps_r. }
  pose proof (fr_exit _ _ _ _ _ _ HF).
  apply runs_bind, (runs_build b _ L); [done|lia|]. intros f N1 G1 G1' F1.
  pose proof (fr_entry _ _ _ _ _ _ F1). pose proof (fr_exit _ _ _ _ _ _ F1).
  apply runs_bind, (runs_addState b); [lia|]. intros N2 L2 G2 A2.
  apply runs_bind, (runs_addEpsilon b); [lia..|]. intros N3 L3 G3 A3.
  apply runs_bind, (runs_addEpsilon b); [lia..|]. intros N4 L4 G4 A4.
  apply runs_bind, (runs_addEpsilon b); [lia..|]. intros N5 L5 G5 A5.
  eapply runs_mono.
  { apply IH. replace (len N5) with (len N1 + 1) by lia.
    eapply Frag_opt; [eapply Frag_grows; [exact G1'|exact HF]|exact F1|by apply no_out_fresh|].
    apply (adds_app _ _ _ [] _ A2), (adds_app _ _ _ [_] _ A3), (adds_app _ _ _ [_] _ A4), A5. }
  intros g N6 [G6 F6]. split; [eauto 10 using grows_trans|].
  eapply Frag_lang; [|exact F6]. intros w. by rewrite lang_cat_assoc.
Qed.

End counted.

Lemma lang_pow_opt (L : lang) k w :
  lang_pow (lang_or L lang_eps) k w ↔ ∃ n, (n ≤ k)%nat ∧ lang_pow L n w.
Proof.
  revert w. induction k as [|k IH]; intros w; cbn.
  { split; [intros ->; by exists 0%nat|]. by intros ([|?] & ? & ?); [|lia]. }
  split.
  - intros (u & v & -> & [Hu| ->] & (n & ? & Hv)%IH).
    + exists (S n). split; [lia|]. by exists u, v.
    + exists n. split; [lia|done].
  - intros ([|n] & ? & Hw).
    + exists [], w. split_and!; [done|by right|]. apply IH. exists 0%nat. split; [lia|done].
    + destruct Hw as (u & v & -> & ? & ?). exists u, v. split_and!; [done|by left|].
      apply IH. exists n. split; [lia|done].
Qed.

Lemma lang_count_bounded (L : lang) min max :
  0 ≤ min →
  lang_cat (lang_pow L (Z.to_nat min)) (lang_pow (lang_or L lang_eps) (Z.to_nat (max - min)))
  ≡L λ w, ∃ n : nat, min ≤ Z.of_nat n ≤ Z.max min max ∧ lang_pow L n w.
Proof.
  intros Hmin w. split.
  - intros (u & v & -> & Hu & (n & ? & Hv)%lang_pow_opt). exists (Z.to_nat min + n)%nat.
    split; [lia|]. apply lang_pow_add. by exists u, v.
  - intros (n & Hn & Hw). replace n with (Z.to_nat min + (n - Z.to_nat min))%nat in Hw by lia.
    apply lang_pow_add in Hw as (u & v & -> & Hu & Hv). exists u, v. split_and!; [done..|].
    apply lang_pow_opt. eexists. split; [|exact Hv]. lia.
Qed.

Lemma builds_counted m L min max :
  builds m L → 0 ≤ min → builds (counted m min max) (lang_count L min max).
Proof.
  intros Hm Hmin N. pose proof (len_nonneg N). unfold counted.
  set (maxCount := if max =? 0 then min else max).
  assert ((maxCount <? 0) = (max <? 0)) as Hmax
    by (unfold maxCount; destruct (Z.eqb_spec max 0); lia).
  apply runs_assoc, runs_bind. eapply runs_mono; [by apply (runs_required m L)|].
  intros [s e] N1 [G1 F1]. cbn [fstart fend] in *. unfold lang_count. rewrite Hmax.
  destruct (Z.ltb_spec max 0); [destruct (Z.leb_spec 2 min); [by apply runs_ret|]|].
  - pose proof (fr_entry _ _ _ _ _ _ F1). pose proof (fr_exit _ _ _ _ _ _ F1).
    apply runs_bind, (runs_build (len N) _ L); [done|lia|]. intros f N2 G2 G2' F2.
    pose proof (fr_entry _ _ _ _ _ _ F2). pose proof (fr_exit _ _ _ _ _ _ F2).
    apply runs_bind, (runs_addState (len N)); [lia|]. intros N3 L3 G3 A3.
    apply runs_bind, (runs_addEpsilon (len N)); [lia..|]. intros N4 L4 G4 A4.
    apply runs_bind, (runs_addEpsilon (len N)); [lia..|]. intros N5 L5 G5 A5.
    apply runs_bind, (runs_addEpsilon (len N)); [lia..|]. intros N6 L6 G6 A6.
    apply runs_ret. split; [eauto 10 using grows_trans|]. cbn [fstart fend].
    replace (len N6) with (len N2 + 1) by lia.
    eapply Frag_loop; [eapply Frag_grows; [exact G2'|exact F1]|exact F2|by apply no_out_fresh|].
    apply (adds_app _ _ _ [] _ A3), (adds_app _ _ _ [_] _ A4), (adds_app _ _ _ [_] _ A5), A6.
  - eapply runs_mono; [by apply (runs_optional_copies m L Hm (len N))|].
    intros f N2 [G2 F2]. split; [by eapply grows_trans|].
    eapply Frag_lang; [|exact F2]. by apply lang_count_bounded.
Qed.
