(* ===== verification/NfaRegex.v ===== *)
(** * Thompson's construction is correct

    From any states of the builder, a regular expression yields a fragment
    whose paths spell exactly its language, and [regexCanMatchEmpty] decides
    whether the empty word is one of them. *)

From Stdlib Require Import ZArith Lia ZifyBool.
From stdpp Require Import base tactics list numbers option sets.
From S2P Require Import Prelude Utf8 SliceSort StateError Regex Nfa NfaPath NfaBuild.
Local Open Scope Z_scope.

(** The trees the construction is meant for: a known kind everywhere, ranges
    in order and within Unicode, no negative count. *)
Fixpoint regex_ok (node : regexNode) : bool :=
  match node with
  | NilNode => true
  | mkNode kind children runes _ value count _ =>
    match kind with
    | regexOther _ => false
    | regexLiteral => (0 <=? value) && (value <=? MaxRune)
    | regexCharClass => forallb range_ok runes
    | regexCount => (0 <=? count) && forallb regex_ok children
    | _ => forallb regex_ok children
    end
  end.

Lemma Forall_forallb {A} (f : A → bool) l : forallb f l = true ↔ Forall (λ x, f x = true) l.
Proof. rewrite forallb_forall, list.Forall_forall. by setoid_rewrite list_elem_of_In. Qed.

Lemma wrap_star L : wrap_lang true true L ≡L lang_star L.
Proof.
  rewrite lang_star_plus, lang_plus_star. intros w. unfold wrap_lang, lang_or, lang_eps. naive_solver.
Qed.

Lemma wrap_plus L : wrap_lang false true L ≡L lang_plus L.
Proof. rewrite lang_plus_star. intros w. unfold wrap_lang, lang_or. naive_solver. Qed.

Lemma wrap_optional L : wrap_lang true false L ≡L lang_or lang_eps L.
Proof. intros w. unfold wrap_lang, lang_or. rewrite lang_cat_eps_r. unfold lang_eps. naive_solver. Qed.

Lemma lang_rune_ext (P Q : Z → Prop) : (∀ r, P r ↔ Q r) → lang_rune P ≡L lang_rune Q.
Proof. intros H w. unfold lang_rune. by setoid_rewrite H. Qed.

Lemma builds_class (runes : list runeRange) (negate : bool) :
  forallb range_ok runes = true →
  builds (start ← addState; end_ ← addState;
    range_loop start end_ (if negate then complementRanges runes else mergeRanges runes);;
    mret (mkFragment start end_))
    (if negate then lang_rune (λ r, 0 ≤ r ≤ MaxRune ∧ has_rune runes r = false)
     else lang_rune (λ r, has_rune runes r = true)).
Proof.
  intros Hok%Forall_forallb. eapply builds_lang, builds_chars, char_step_ranges.
  - destruct negate; apply lang_rune_ext; intros r.
    + rewrite complementRanges_has by done. unfold maxSupportedRune, MaxRune. lia.
    + rewrite mergeRanges_has; [done|]. eapply Forall_impl; [exact Hok|]. apply range_ok_bound.
  - destruct negate; [by apply complementRanges_ok|by apply mergeRanges_separated].
Qed.

(** The children of a well-formed node, built by induction. *)
Lemma regex_children children :
  Forall (λ c, regex_ok c = true → builds (buildFromRegexNode c) (regex_lang c)) children →
  forallb regex_ok children = true →
  Forall (λ c, builds (buildFromRegexNode c) (regex_lang c)) children.
Proof.
  rewrite Forall_forallb, !list.Forall_forall. eauto.
Qed.

Lemma builds_regex node : regex_ok node = true → builds (buildFromRegexNode node) (regex_lang node).
Proof.
  induction node as [|kind cs runes negate value count countMax IH] using regexNode_nested_ind;
    intros Hok; [apply builds_epsilon|].
  destruct kind; cbn [regex_ok] in Hok; try done.
  - eapply builds_lang, builds_chars, char_step_range; [apply lang_rune_ext; lia|].
    unfold rune_range, MaxRune in *. lia.
  - by apply builds_class.
  - eapply builds_lang, builds_chars, char_step_seq, char_step_range; [|by apply char_step_range|done].
    apply lang_rune_ext. unfold MaxRune. lia.
  - apply regex_children in IH; [|done]. destruct IH as [|c cs Hc Hcs]; [apply builds_epsilon|].
    intros N. pose proof (len_nonneg N).
    apply runs_bind, (runs_build (len N) _ (regex_lang c)); [done..|]. intros [s e] N1 G1 _ F1.
    eapply runs_mono; [by apply (runs_seq_loop _ regex_lang (len N))|].
    intros f N2 [G2 F2]. split; [by eapply grows_trans|done].
  - apply regex_children in IH; [|done]. destruct cs as [|c cs]; [apply builds_epsilon|].
    by apply builds_alt.
  - apply regex_children in IH; [|done]. destruct IH as [|c cs Hc _]; [apply builds_epsilon|].
    by eapply builds_lang, builds_wrap; [apply wrap_star|].
  - apply regex_children in IH; [|done]. destruct IH as [|c cs Hc _]; [apply builds_epsilon|].
    by eapply builds_lang, builds_wrap; [apply wrap_plus|].
  - apply regex_children in IH; [|done]. destruct IH as [|c cs Hc _]; [apply builds_epsilon|].
    by eapply builds_lang, builds_wrap; [apply wrap_optional|].
  - apply andb_true_iff in Hok as [Hn Hok]. apply regex_children in IH; [|done].
    destruct IH as [|c cs Hc _]; [apply builds_epsilon|]. apply builds_counted; [done|lia].
Qed.

(** ** The empty word *)

Lemma lang_seq_nil Ls : lang_seq Ls [] ↔ Forall (λ L : lang, L []) Ls.
Proof.
  induction Ls as [|L Ls IH]; cbn; [by rewrite Forall_nil|]. rewrite Forall_cons, <-IH. split.
  - intros (u & v & [-> ->]%eq_sym%app_eq_nil & ? & ?). done.
  - intros [??]. by exists [], [].
Qed.

Lemma lang_pow_nil (L : lang) n : (n ≠ 0)%nat → lang_pow L n [] ↔ L [].
Proof.
  induction n as [|[|n] IH]; [done|..]; intros _; cbn.
  - apply lang_cat_eps_r.
  - split; [by intros (u & v & [-> ->]%eq_sym%app_eq_nil & ? & ?)|].
    intros ?. exists [], []. split_and!; [done..|]. by apply IH.
Qed.

Lemma lang_count_nil (L : lang) min max : 0 ≤ min → lang_count L min max [] ↔ min = 0 ∨ L [].
Proof.
  intros Hmin. unfold lang_count. destruct (Z.ltb_spec max 0).
  - destruct (Z.leb_spec 2 min).
    + rewrite lang_pow_nil by lia. split; [by right|]. intros [|]; [lia|done].
    + split.
      * intros (u & v & [-> ->]%eq_sym%app_eq_nil & Hu & _).
        destruct (decide (min = 0)); [by left|]. right. by rewrite lang_pow_nil in Hu by lia.
      * intros Hor. exists [], []. split_and!; [done| |apply lang_star_nil].
        destruct (decide (min = 0)) as [->|]; [done|]. rewrite lang_pow_nil by lia. naive_solver.
  - split.
    + intros (n & ? & Hn). destruct (decide (min = 0)); [by left|]. right.
      by rewrite lang_pow_nil in Hn by lia.
    + intros H1. exists (Z.to_nat min). split; [case_match; lia|].
      destruct (decide (min = 0)) as [->|]; [done|]. rewrite lang_pow_nil by lia. naive_solver.
Qed.

Lemma lang_rune_nil P : ¬ lang_rune P [].
Proof. by intros (r & ? & _). Qed.

Lemma Forall_iff_forallb {A} (f : A → bool) (Q : A → Prop) l :
  Forall (λ x, f x = true ↔ Q x) l → forallb f l = true ↔ Forall Q l.
Proof. induction 1 as [|x l Hx Hl IH]; cbn; [by rewrite Forall_nil|]. by rewrite andb_true_iff, Forall_cons, Hx, IH. Qed.

Lemma Exists_iff_existsb {A} (f : A → bool) (Q : A → Prop) l :
  Forall (λ x, f x = true ↔ Q x) l → existsb f l = true ↔ Exists Q l.
Proof.
  induction 1 as [|x l Hx Hl IH]; cbn; [rewrite Exists_nil; split; done|].
  by rewrite orb_true_iff, Exists_cons, Hx, IH.
Qed.

(** A choice needs a branch: the parser never builds an empty one. *)
Fixpoint alts_ok (node : regexNode) : bool :=
  match node with
  | NilNode => true
  | mkNode kind children _ _ _ _ _ =>
    match kind, children with
    | regexAlt, [] => false
    | _, _ => forallb alts_ok children
    end
  end.

Lemma regexCanMatchEmpty_spec node :
  regex_ok node = true → alts_ok node = true →
  regexCanMatchEmpty node = true ↔ regex_lang node [].
Proof.
  induction node as [|kind cs runes negate value count countMax IH] using regexNode_nested_ind;
    intros Hok Ha; [done|].
  assert (forallb regex_ok cs = true → Forall (λ c, regexCanMatchEmpty c = true ↔ regex_lang c []) cs) as Hcs.
  { rewrite Forall_forallb. assert (forallb alts_ok cs = true) as Ha'%Forall_forallb
      by (destruct kind, cs; done).
    intros Hr. rewrite list.Forall_forall in IH, Ha', Hr |- *. intros c Hc. apply IH; [done|by apply Hr|by apply Ha']. }
  destruct kind; cbn [regex_ok regexCanMatchEmpty regex_lang] in *; try done.
  - split; [done|by intros ?%lang_rune_nil].
  - destruct negate; (split; [done|by intros ?%lang_rune_nil]).
  - split; [done|by intros ?%lang_rune_nil].
  - rewrite lang_seq_nil, Forall_map. apply Forall_iff_forallb. by apply Hcs.
  - destruct cs as [|c cs]; [done|]. rewrite (Exists_iff_existsb _ (λ c, regex_lang c [])) by by apply Hcs.
    change (Exists (λ c, regex_lang c []) (c :: cs)
      ↔ Exists (λ L : lang, L []) (map regex_lang (c :: cs))). by rewrite Exists_map.
  - destruct cs as [|c cs]; [done|]. split; [intros _; apply lang_star_nil|done].
  - destruct cs as [|c cs]; [done|]. apply Hcs in Hok. apply Forall_cons in Hok as [-> _].
    cbn. unfold lang_plus. split; [intros; exists 0%nat; by apply lang_cat_eps_r|].
    intros [n Hn]. by apply lang_pow_nil in Hn.
  - destruct cs as [|c cs]; [done|]. split; [intros _; by left|done].
  - apply andb_true_iff in Hok as [Hn Hok]. apply Hcs in Hok. destruct cs as [|c cs]; cbn.
    { rewrite orb_true_r. done. }
    apply Forall_cons in Hok as [Hc _]. rewrite lang_count_nil by lia.
    rewrite orb_true_iff, Hc, Z.eqb_eq. done.
Qed.
