(* ===== verification/NfaRule.v ===== *)
(** * The language of terminal rules

    What a rule tree matches, the conditions under which its fragment matches
    exactly that, and the string trie that choices of literals share. *)

From Stdlib Require Import ZArith Lia ZifyBool.
From stdpp Require Import base tactics list numbers option sets gmap.
From S2P Require Import Prelude Utf8 SliceSort StateError Regex Nfa NfaPath NfaBuild NfaRegex.
Local Open Scope Z_scope.

(** ** Decoding strings *)

Lemma decode_loop_fuel n m s : (length s ≤ n)%nat → (length s ≤ m)%nat → decode_loop n s = decode_loop m s.
Proof.
  revert m s. induction n as [|n IH]; intros [|m] [|b s]; cbn [decode_loop length];
    intros Hn Hm; try done; try lia.
  destruct (DecodeRune (b :: s)) as [r k] eqn:E.
  pose proof (DecodeRune_size (b :: s) _ _ ltac:(done) E) as [Hk _]. f_equal.
  apply IH; rewrite length_drop; cbn [length]; lia.
Qed.

Lemma runes_of_step s r k :
  s ≠ [] → DecodeRune s = (r, k) → runes_of s = r :: runes_of (drop (Z.to_nat k) s).
Proof.
  intros Hs E. destruct s as [|b s]; [done|].
  pose proof (DecodeRune_size _ _ _ Hs E) as [Hk _].
  unfold runes_of. cbn [length decode_loop]. rewrite E. f_equal.
  apply decode_loop_fuel; rewrite length_drop; cbn [length]; lia.
Qed.

Lemma runes_of_encode rs : Forall (λ r, valid_rune r = true) rs → runes_of (encode rs) = rs.
Proof.
  induction 1 as [|r rs Hr Hrs IH]; [done|]. unfold encode. cbn [map concat]. fold (encode rs).
  pose proof (EncodeRune_ne r Hr) as Hne.
  rewrite (runes_of_step _ r (len (EncodeRune r))).
  - f_equal. unfold len. by rewrite Nat2Z.id, drop_app_length.
  - by intros [? _]%app_eq_nil.
  - by apply DecodeRune_EncodeRune.
Qed.

(** Well-formed UTF-8: the encoding of scalar values. *)
Definition utf8_ok (s : list Z) : bool :=
  forallb valid_rune (runes_of s) && bool_decide (encode (runes_of s) = s).

Lemma utf8_ok_iff s :
  utf8_ok s = true ↔ ∃ rs, Forall (λ r, valid_rune r = true) rs ∧ s = encode rs.
Proof.
  unfold utf8_ok. rewrite andb_true_iff, Forall_forallb, bool_decide_eq_true. split.
  - intros [? ?]. by exists (runes_of s).
  - intros (rs & Hrs & ->). by rewrite runes_of_encode.
Qed.

Lemma utf8_ok_app s t :
  utf8_ok s = true → utf8_ok t = true →
  utf8_ok (s ++ t) = true ∧ runes_of (s ++ t) = runes_of s ++ runes_of t.
Proof.
  intros (rs & Hrs & ->)%utf8_ok_iff (ts & Hts & ->)%utf8_ok_iff.
  assert (encode rs ++ encode ts = encode (rs ++ ts)) as ->
    by (unfold encode; by rewrite map_app, concat_app).
  assert (Forall (λ r, valid_rune r = true) (rs ++ ts)) as Hall by by apply Forall_app.
  rewrite !runes_of_encode by done. split; [|done]. apply utf8_ok_iff. eauto.
Qed.

Lemma runes_of_inj s t :
  utf8_ok s = true → utf8_ok t = true → runes_of s = runes_of t → s = t.
Proof.
  intros (rs & Hrs & ->)%utf8_ok_iff (ts & Hts & ->)%utf8_ok_iff.
  rewrite !runes_of_encode by done. by intros ->.
Qed.

Lemma runes_of_nil s : runes_of s = [] ↔ s = [].
Proof.
  split; [|by intros ->]. destruct s as [|b s]; [done|].
  destruct (DecodeRune (b :: s)) as [r k] eqn:E. by rewrite (runes_of_step (b :: s) _ _ ltac:(done) E).
Qed.

(** ** Languages of rules *)

Section rule_lang.
Context (parseRegex : list Z → go (regexError + regexNode)).

Fixpoint rule_lang (r : Rule) : lang :=
  match r with
  | NilRule => lang_eps
  | mkRule kind value children _ _ =>
    let Ls := map rule_lang children in
    match kind with
    | RuleString => string_lang value
    | RulePattern =>
      match parseRegex value with Ret (inr node) => regex_lang node | _ => λ _, False end
    | RuleSeq => lang_seq Ls
    | RuleChoice => match Ls with [] => lang_eps | _ => lang_any Ls end
    | RuleRepeat => on_first lang_star Ls
    | RuleRepeat1 => on_first lang_plus Ls
    | RuleOptional => on_first (lang_or lang_eps) Ls
    | RuleBlank => lang_eps
    | _ => λ _, False
    end
  end.

(** A literal inside a sequence or a choice: well-formed text, and not the
    end-of-input value, which is special on its own only. *)
Definition literal_ok (r : Rule) : bool :=
  match string_value r with
  | Some v => utf8_ok v && bool_decide (v ≠ nul_string)
  | None => true
  end.

(** The rules of terminals: the kinds that survive the flattening of token
    wrappers, with patterns that parse. *)
Definition bytes_ok (v : list Z) : bool := forallb (in_range 0 255) v.

Fixpoint rule_ok (r : Rule) : bool :=
  match r with
  | NilRule => true
  | mkRule kind value children _ _ =>
    match kind with
    | RuleString => bytes_ok value
    | RuleBlank => true
    | RulePattern =>
      match parseRegex value with Ret (inr node) => regex_ok node && alts_ok node | _ => false end
    | RuleSeq | RuleChoice => forallb literal_ok children && forallb rule_ok children
    | RuleRepeat | RuleRepeat1 | RuleOptional => forallb rule_ok children
    | _ => false
    end
  end.

End rule_lang.

Section rule_induction.
Context (P : Rule → Prop) (Hnil : P NilRule).
Context (Hnode : ∀ kind value children prec named,
  Forall P children → P (mkRule kind value children prec named)).

Fixpoint Rule_nested_ind (r : Rule) : P r :=
  match r with
  | NilRule => Hnil
  | mkRule kind value children prec named =>
    Hnode kind value children prec named
      ((fix all (cs : list Rule) : Forall P cs :=
          match cs with
          | [] => Forall_nil_2 P
          | c :: cs => Forall_cons_2 P c cs (Rule_nested_ind c) (all cs)
          end) children)
  end.
End rule_induction.

(** ** Tries *)

(** The states of a trie with root [s]: [W] gives each its word.  Every trie
    state has exactly the edges of the trie, besides epsilon edges. *)
Record trie_inv (s : Z) (N : list nfaState) (E : trie) (W : gmap Z (list Z)) : Prop := {
  ti_root : W !! s = Some [];
  ti_range : ∀ p w, W !! p = Some w → s ≤ p < len N;
  ti_inj : ∀ p q w, W !! p = Some w → W !! q = Some w → p = q;
  ti_edge : ∀ p r q, E !! (p, r) = Some q ↔ ∃ w, W !! p = Some w ∧ W !! q = Some (w ++ [r]);
  ti_parent : ∀ q w r, W !! q = Some (w ++ [r]) → ∃ p, W !! p = Some w;
  ti_graph : ∀ p w r q, W !! p = Some w → edges N p (Some r) q ↔ E !! (p, r) = Some q }.

(** From one trie to a larger one: the new trie states are new states, and all
    other edges are as before. *)
Record trie_grows (b : Z) (N N' : list nfaState) (W W' : gmap Z (list Z)) : Prop := {
  tg_grows : grows b N N';
  tg_words : W ⊆ W';
  tg_new : ∀ p w, W' !! p = Some w → W !! p = None → len N ≤ p < len N';
  tg_all : ∀ p, len N ≤ p < len N' → is_Some (W' !! p);
  tg_eps : ∀ p q, edges N' p None q ↔ edges N p None q;
  tg_other : ∀ p l q, W' !! p = None → edges N' p l q ↔ edges N p l q }.

Lemma trie_grows_refl b N W : trie_grows b N N W W.
Proof. split; [apply grows_refl|done|naive_solver|lia|done..]. Qed.

Lemma trie_grows_trans b N1 N2 N3 W1 W2 W3 :
  trie_grows b N1 N2 W1 W2 → trie_grows b N2 N3 W2 W3 → trie_grows b N1 N3 W1 W3.
Proof.
  intros [G1 S1 H1 D1 E1 O1] [G2 S2 H2 D2 E2 O2].
  pose proof (gr_len _ _ _ G1). pose proof (gr_len _ _ _ G2).
  split; [by eapply grows_trans|by etrans| | | |].
  - intros p w Hp Hn. destruct (W2 !! p) as [w2|] eqn:E.
    + pose proof (H1 _ _ E Hn). lia.
    + pose proof (H2 _ _ Hp E). lia.
  - intros p Hp. destruct (decide (p < len N2)); [|apply D2; lia].
    destruct (D1 p) as [w Hw]; [lia|]. exists w. by eapply lookup_weaken.
  - intros. by rewrite E2, E1.
  - intros p l q Hp. rewrite O2 by done. apply O1.
    destruct (W2 !! p) eqn:E; [|done]. eapply lookup_weaken in E; [|exact S2]. congruence.
Qed.

Lemma trie_grows_weaken b c N N' W W' : trie_grows c N N' W W' → b ≤ c → trie_grows b N N' W W'.
Proof. intros [? ? ? ? ? ?] ?. split; [by eapply grows_weaken|done..]. Qed.

(** A new trie state [q], behind a state without an edge for [r]. *)
Lemma trie_inv_insert s N N2 E W p w r :
  trie_inv s N E W → W !! p = Some w → E !! (p, r) = None → 0 ≤ s → len N2 = len N + 1 →
  (∀ x l y, edges N2 x l y ↔ edges N x l y ∨ (x = p ∧ l = Some r ∧ y = len N)) →
  trie_inv s N2 (<[(p, r) := len N]> E) (<[len N := w ++ [r]]> W).
Proof.
  intros Inv Hp HE Hs Hlen HG. set (q := len N) in *.
  destruct (Inv) as [Hroot Hrange Hinj Hedge Hparent Hgraph].
  assert (W !! q = None) as Hq.
  { destruct (W !! q) as [u|] eqn:HW; [|done]. apply Hrange in HW. lia. }
  assert (∀ x u, W !! x = Some u → x ≠ q) as Hne by congruence.
  assert (∀ x, W !! x ≠ Some (w ++ [r])) as Hfresh.
  { intros x Hx. assert (E !! (p, r) = Some x) by (apply Hedge; eauto). congruence. }
  split.
  - rewrite lookup_insert_ne; [done|]. apply not_eq_sym. by eapply Hne.
  - intros x u [[<- _]|[_ Hx%Hrange]]%lookup_insert_Some; [|lia]. apply Hrange in Hp. lia.
  - intros x y u [[<- <-]|[? Hx]]%lookup_insert_Some [[<- ?]|[? Hy]]%lookup_insert_Some;
      [done|by apply Hfresh in Hy| |by eapply Hinj]. subst. by apply Hfresh in Hx.
  - intros x c y. rewrite lookup_insert_Some. split.
    + intros [[[= <- <-] <-]|[Hxc (u & Hx & Hy)%Hedge]].
      * exists w. rewrite lookup_insert_ne by (apply not_eq_sym; by eapply Hne).
        by rewrite lookup_insert_eq.
      * exists u. rewrite !lookup_insert_ne by (apply not_eq_sym; by eapply Hne). done.
    + intros (u & Hx & Hy). apply lookup_insert_Some in Hx as [[<- <-]|[? Hx]].
      * apply lookup_insert_Some in Hy as [[<- Hu]|[? Hy]].
        -- apply (f_equal length) in Hu. rewrite !length_app in Hu. cbn in Hu. lia.
        -- apply Hparent in Hy as [z Hz]. by apply Hfresh in Hz.
      * apply lookup_insert_Some in Hy as [[<- Hu]|[? Hy]].
        -- apply app_inj_tail in Hu as [<- <-]. left. split; [|done]. f_equal. by eapply Hinj.
        -- right. split; [|apply Hedge; eauto]. intros [= <- <-].
           simplify_eq. by apply Hfresh in Hy.
  - intros y u c [[<- Hu]|[? Hy]]%lookup_insert_Some.
    + apply app_inj_tail in Hu as [<- <-]. exists p.
      rewrite lookup_insert_ne; [done|]. apply not_eq_sym. by eapply Hne.
    + apply Hparent in Hy as [z Hz]. exists z.
      rewrite lookup_insert_ne; [done|]. apply not_eq_sym. by eapply Hne.
  - intros x u c y [[<- <-]|[? Hx]]%lookup_insert_Some; rewrite HG.
    + rewrite lookup_insert_ne by (intros [=]; subst; congruence). split.
      * intros [?%edges_range|(-> & _)]; [unfold q in *; lia|congruence].
      * intros (? & ? & ?)%Hedge. congruence.
    + rewrite lookup_insert_Some, (Hgraph x u) by done. split.
      * intros [Hx'|(-> & [= ->] & ->)]; [|by left].
        destruct (decide ((p, r) = (x, c))) as [[= <- <-]|]; [congruence|by right].
      * intros [[[= <- <-] <-]|[??]]; [right; auto|by left].
Qed.

(** One step in the trie, adding a state where it has no edge yet. *)
Lemma runs_nextState b s N E W p w r :
  0 ≤ b ≤ s → rune_range r r → trie_inv s N E W → W !! p = Some w →
  runs (nextState E p r) N (λ '(q, E') N', ∃ W', trie_inv s N' E' W'
    ∧ W' !! q = Some (w ++ [r]) ∧ trie_grows b N N' W W').
Proof.
  intros Hb Hrr Inv Hp. pose proof (ti_range _ _ _ _ Inv _ _ Hp) as Hr. unfold nextState.
  destruct (E !! (p, r)) as [q|] eqn:HE.
  { apply runs_ret. exists W. split_and!; [done| |apply trie_grows_refl].
    apply (ti_edge _ _ _ _ Inv) in HE as (w' & ? & ?). by simplify_eq. }
  apply runs_bind, (runs_addState b); [lia|]. intros N1 L1 G1 A1.
  apply runs_bind, (runs_addCharRange b); [lia|lia|lia|done|]. intros N2 L2 G2 E2. apply runs_ret.
  set (q := len N) in *. assert (W !! q = None) as Hq.
  { destruct (W !! q) as [u|] eqn:HW; [|done]. apply (ti_range _ _ _ _ Inv) in HW. lia. }
  assert (∀ x l y, edges N2 x l y ↔ edges N x l y ∨ (x = p ∧ l = Some r ∧ y = q)) as HG.
  { intros x l y. rewrite E2, (A1 x l y). split; [|naive_solver lia].
    intros [[?|[_ ?%elem_of_nil]]|(-> & (? & -> & ?) & ->)]; [by left|done|].
    right. split_and!; [done|f_equal; lia|done]. }
  exists (<[q := w ++ [r]]> W). assert (p ≠ q) as Hpq by congruence.
  split_and!; [|by rewrite lookup_insert_eq|].
  - apply trie_inv_insert; [done..|lia|lia|done].
  - split; [by eapply grows_trans|by apply insert_subseteq| | | |].
    + intros x u Hx Hn. destruct (decide (x = q)) as [->|]; [lia|].
      rewrite lookup_insert_ne in Hx by done. congruence.
    + intros x Hx. assert (x = q) as -> by lia. rewrite lookup_insert_eq. eauto.
    + intros x y. rewrite HG. naive_solver.
    + intros x l y Hx. rewrite HG. destruct (decide (x = q)) as [->|];
        [by rewrite lookup_insert_eq in Hx|]. rewrite lookup_insert_ne in Hx by done.
      split; [|by left]. intros [?|(-> & _)]; [done|congruence].
Qed.

Lemma runs_trie_walk b s N E W p w rs :
  0 ≤ b ≤ s → Forall (λ r, rune_range r r) rs → trie_inv s N E W → W !! p = Some w →
  runs (trie_walk E p rs) N (λ '(q, E') N', ∃ W', trie_inv s N' E' W'
    ∧ W' !! q = Some (w ++ rs) ∧ trie_grows b N N' W W').
Proof.
  intros Hb Hrs. revert N E W p w. induction Hrs as [|r rs Hr Hrs IH]; intros N E W p w Inv Hp; cbn.
  { apply runs_ret. exists W. rewrite app_nil_r. split_and!; [done..|apply trie_grows_refl]. }
  apply runs_bind. eapply runs_mono; [by apply (runs_nextState b s)|].
  intros [q E1] N1 (W1 & Inv1 & Hq & G1). eapply runs_mono; [by eapply IH|].
  intros [q' E2] N2 (W2 & Inv2 & Hq' & G2). exists W2. rewrite <-app_assoc in Hq'.
  split_and!; [done..|by eapply trie_grows_trans].
Qed.

(** The trie of a lone root. *)
Lemma trie_inv_init s N :
  0 ≤ s < len N → (∀ r q, ¬ edges N s (Some r) q) → trie_inv s N ∅ {[ s := [] ]}.
Proof.
  intros Hs Ho. split; [apply lookup_singleton_eq|..].
  - intros p w [<- _]%lookup_singleton_Some. lia.
  - by intros p q w [<- _]%lookup_singleton_Some [<- _]%lookup_singleton_Some.
  - intros p r q. rewrite lookup_empty. split; [done|].
    intros (w & _ & [_ Hw]%lookup_singleton_Some). by destruct w.
  - intros q w r [_ Hw]%lookup_singleton_Some. by destruct w.
  - intros p w r q [<- _]%lookup_singleton_Some. rewrite lookup_empty. split; [|done].
    by intros ?%Ho.
Qed.

(** Every word of the trie is read on the way to its state. *)
Lemma trie_path s N E W p w : trie_inv s N E W → W !! p = Some w → path (edges N) s w p.
Proof.
  intros Inv. revert p. induction w as [|r w IH] using rev_ind; intros p Hp.
  { assert (p = s) as -> by (eapply (ti_inj _ _ _ _ Inv); [done|apply Inv]). constructor. }
  destruct (ti_parent _ _ _ _ Inv _ _ _ Hp) as [x Hx].
  eapply path_app; [by apply IH|]. apply (path_edge _ _ (Some r)).
  apply (ti_graph _ _ _ _ Inv _ _ _ _ Hx), (ti_edge _ _ _ _ Inv). eauto.
Qed.

(** ** Choices of strings *)

(** The trie of a choice: its states and the end make up the region, and the
    states of the words in [ws] lead to the end. *)
Record choice_inv (s e : Z) (N : list nfaState) (E : trie) (W : gmap Z (list Z)) (ws : list (list Z)) : Prop := {
  ci_trie : trie_inv s N E W;
  ci_end : s < e < len N ∧ W !! e = None ∧ no_out (edges N) e;
  ci_all : ∀ p, s ≤ p < len N → p = e ∨ is_Some (W !! p);
  ci_eps : ∀ p w q, W !! p = Some w → edges N p None q ↔ q = e ∧ w ∈ ws;
  ci_words : ∀ w, w ∈ ws → ∃ p, W !! p = Some w }.

Lemma choice_frag s e N E W ws :
  choice_inv s e N E W ws → Frag s (len N) (edges N) s e (λ w, w ∈ ws).
Proof.
  intros [Ti (He & HWe & Ho) Hall Heps Hws]. split; [lia|lia| |].
  - intros p l q Hp HE. destruct (Hall p Hp) as [->|[w Hw]]; [by apply Ho in HE|].
    destruct l as [r|].
    + apply (ti_graph _ _ _ _ Ti _ _ _ _ Hw), (ti_edge _ _ _ _ Ti) in HE as (? & _ & Hq).
      by eapply ti_range.
    + destruct (proj1 (Heps _ _ _ Hw) HE) as [Hqe _]. lia.
  - intros w. split.
    + set (Res p v := (∀ u, W !! p = Some u → u ++ v ∈ ws) ∧ (p = e → v = [])).
      intros Hp. cut (Res s w); [intros [H _]; apply (H []), Ti|]. revert Hp. apply path_sound.
      { split; [congruence|done]. }
      intros p l q v HE [IH1 IH2]. split; [|intros ->; by apply Ho in HE].
      intros u Hu. destruct l as [r|]; cbn.
      * apply (ti_graph _ _ _ _ Ti _ _ _ _ Hu), (ti_edge _ _ _ _ Ti) in HE as (? & ? & Hq).
        simplify_eq. apply IH1 in Hq. by rewrite <-app_assoc in Hq.
      * apply (Heps _ _ _ Hu) in HE as [-> ?]. by rewrite IH2, app_nil_r.
    + intros Hw. destruct (Hws w Hw) as [p Hp]. rewrite <-(app_nil_r w).
      eapply path_app; [by eapply trie_path|]. apply (path_edge _ _ None).
      apply (Heps _ _ _ Hp). done.
Qed.

(** One literal more. *)
Lemma choice_step s e N N1 N2 E E1 W W1 ws p w b :
  choice_inv s e N E W ws → trie_grows b N N1 W W1 → trie_inv s N1 E1 W1 →
  W1 !! p = Some w → len N2 = len N1 → adds (edges N1) (edges N2) [(p, e)] →
  choice_inv s e N2 E1 W1 (w :: ws).
Proof.
  intros [Ti (He & HWe & Ho) Hall Heps Hws] G1 Ti1 Hp Hlen HA.
  pose proof (gr_len _ _ _ (tg_grows _ _ _ _ _ G1)).
  assert (∀ x u, W !! x = Some u → W1 !! x = Some u) as Hsub
    by (intros; eapply lookup_weaken; [done|apply G1]).
  assert (W1 !! e = None) as HWe1.
  { destruct (W1 !! e) eqn:E'; [|done]. pose proof (tg_new _ _ _ _ _ G1 _ _ E' HWe). lia. }
  assert (∀ x l y, edges N2 x l y ↔ edges N1 x l y ∨ (l = None ∧ x = p ∧ y = e)) as HG.
  { intros. rewrite (HA _ _ _). set_solver. }
  split.
  - destruct Ti1 as [? Hr ? ? ? Hg]. split; try done; [intros; rewrite Hlen; eauto|].
    intros x u r y Hx. rewrite HG, (Hg _ _ _ _ Hx). naive_solver.
  - split_and!; [lia|lia|done|]. intros l q [HE|(_ & -> & _)]%HG; [|congruence].
    apply (tg_other _ _ _ _ _ G1) in HE; [by apply Ho in HE|done].
  - intros x Hx. destruct (decide (x < len N)); [|right; apply G1; lia].
    destruct (Hall x) as [|[u Hu]]; [lia|by left|]. right. eauto.
  - intros x u q Hx. rewrite HG, (tg_eps _ _ _ _ _ G1). split.
    + intros [HE|(_ & -> & ->)]; [|split; [done|]; simplify_eq; left].
      destruct (W !! x) as [u'|] eqn:Hx'.
      * assert (u' = u) as -> by (apply Hsub in Hx'; congruence).
        apply (Heps _ _ _ Hx') in HE as [-> ?]. split; [done|by right].
      * apply edges_range in HE. pose proof (tg_new _ _ _ _ _ G1 _ _ Hx Hx'). lia.
    + intros [-> [->|Hu]%elem_of_cons].
      * right. split_and!; [done| |done]. by eapply (ti_inj _ _ _ _ Ti1).
      * left. destruct (Hws u Hu) as [y Hy]. assert (x = y) as ->
          by (eapply (ti_inj _ _ _ _ Ti1); eauto). by apply (Heps _ _ _ Hy).
  - intros u [->|Hu]%elem_of_cons; [by exists p|]. destruct (Hws u Hu) as [y Hy]. eauto.
Qed.

Lemma runs_string_choice b s e N E W ws vs :
  0 ≤ b ≤ s → Forall (Forall byte_ok) vs → choice_inv s e N E W ws →
  runs (string_choice_loop s e E vs) N (λ _ N', grows b N N' ∧ ∃ E' W' ws',
    choice_inv s e N' E' W' ws' ∧ ∀ w, w ∈ ws' ↔ w ∈ ws ∨ w ∈ map runes_of vs).
Proof.
  intros Hb Hvs. revert N E W ws. induction Hvs as [|v vs Hv Hvs IH]; intros N E W ws Inv; cbn.
  { apply runs_ret. split; [apply grows_refl|]. exists E, W, ws. split; [done|]. set_solver. }
  apply runs_bind. eapply runs_mono.
  { apply (runs_trie_walk b s); [done|by apply runes_of_range|apply Inv|apply Inv]. }
  intros [q E1] N1 (W1 & Ti1 & Hq & G1). pose proof (ti_range _ _ _ _ Ti1 _ _ Hq).
  destruct (ci_end _ _ _ _ _ _ Inv) as (Hend & _).
  pose proof (gr_len _ _ _ (tg_grows _ _ _ _ _ G1)).
  apply runs_bind, (runs_addEpsilon b); [lia..|]. intros N2 L2 G2 A2.
  eapply runs_mono; [eapply IH, choice_step; done|].
  intros u N3 (G3 & E' & W' & ws' & Inv' & Hws'). split.
  { eapply grows_trans; [apply G1|]. by eapply grows_trans. }
  exists E', W', ws'. split; [done|]. intros w. rewrite Hws'. set_solver.
Qed.

Lemma builds_string_choice vs :
  Forall (Forall byte_ok) vs →
  builds (start ← addState; end_ ← addState;
          string_choice_loop start end_ ∅ vs;; mret (mkFragment start end_))
    (λ w, w ∈ map runes_of vs).
Proof.
  intros Hvs N. pose proof (len_nonneg N).
  apply runs_bind, (runs_addState (len N)); [done|]. intros N1 L1 G1 A1.
  apply runs_bind, (runs_addState (len N)); [lia|]. intros N2 L2 G2 A2.
  pose proof (adds_app _ _ _ _ _ A1 A2) as HA. cbn in HA.
  assert (∀ p, len N ≤ p → no_out (edges N2) p) as Ho.
  { intros p Hp l q [?%edges_range|[_ ?%elem_of_nil]]%HA; [lia|done]. }
  apply runs_bind. eapply runs_mono.
  { apply (runs_string_choice (len N) (len N) (len N1) N2 ∅ {[ len N := [] ]} []); [lia|done|].
    split; [apply trie_inv_init; [lia|intros r q; by apply Ho]|..].
    - split_and!; [lia|lia|rewrite lookup_singleton_ne by lia; done|apply Ho; lia].
    - intros p Hp. assert (p = len N1 ∨ p = len N) as [-> | ->] by lia; [by left|].
      right. rewrite lookup_singleton_eq. eauto.
    - intros p w q [<- _]%lookup_singleton_Some.
      split; [by intros ?%Ho|by intros [_ ?%elem_of_nil]].
    - by intros w ?%elem_of_nil. }
  intros u N3 (G3 & E' & W' & ws' & Inv & Hws). apply runs_ret. split; [eauto using grows_trans|].
  eapply Frag_lang; [|by eapply choice_frag]. intros w. rewrite Hws. set_solver.
Qed.

(** ** Sequences with joined strings *)

Definition text_ok (v : list Z) : Prop := utf8_ok v = true ∧ v ≠ nul_string.

Lemma bytes_ok_Forall v : bytes_ok v = true ↔ Forall byte_ok v.
Proof.
  unfold bytes_ok. rewrite Forall_forallb. split; intros H; (eapply Forall_impl; [exact H|]);
    cbn; unfold in_range, byte_ok; lia.
Qed.

Lemma EncodeRune_bytes r : valid_rune r = true → Forall byte_ok (EncodeRune r).
Proof.
  intros Hv. pose proof (valid_rune_range r Hv) as [Hr _]. unfold MaxRune in Hr.
  destruct (EncodeRune_spec r Hv) as [[? ->]|[[? ->]|[[? ->]|[? ->]]]];
    unfold byte_ok, MaxRune in *; repeat apply Forall_cons_2; try constructor; zdiv.
Qed.

Lemma utf8_ok_bytes v : utf8_ok v = true → Forall byte_ok v.
Proof.
  intros (rs & Hrs & ->)%utf8_ok_iff. unfold encode. induction Hrs as [|r rs Hr Hrs IH]; cbn; [done|].
  apply Forall_app. split; [by apply EncodeRune_bytes|done].
Qed.

Lemma literals_bytes cs vs :
  mapM string_value cs = Some vs → forallb literal_ok cs = true → Forall (Forall byte_ok) vs.
Proof.
  rewrite mapM_Some. intros Hvs. induction Hvs as [|c v cs vs Hv Hvs IH]; cbn; [done|].
  intros [Hc Hcs]%andb_true_iff. constructor; [|by apply IH]. unfold literal_ok in Hc.
  rewrite Hv in Hc. apply andb_true_iff in Hc as [? _]. by apply utf8_ok_bytes.
Qed.

Lemma string_lang_text v : v ≠ nul_string → string_lang v ≡L λ w, w = runes_of v.
Proof.
  intros Hv w. unfold string_lang. case_decide as Hd; [|done].
  destruct Hd as [->|]; [|done]. done.
Qed.

Lemma text_ok_app v u :
  text_ok v → text_ok u →
  text_ok (v ++ u) ∧ lang_cat (string_lang v) (string_lang u) ≡L string_lang (v ++ u).
Proof.
  intros [Hv Hv'] [Hu Hu']. destruct (utf8_ok_app v u Hv Hu) as [Hok Hr].
  assert (v ++ u ≠ nul_string) as Hne.
  { unfold nul_string in *. destruct v as [|a v]; [done|]. intros [= -> [-> ->]%app_eq_nil]. done. }
  split; [done|]. rewrite !string_lang_text by done. rewrite Hr. intros w.
  unfold lang_cat. naive_solver.
Qed.

Lemma text_ok_nil : text_ok [].
Proof. done. Qed.

(** What is built so far of a sequence that starts at [b]. *)
Definition cur_ok (b : Z) (N : list nfaState) (cur : option nfaFragment) (K : lang) : Prop :=
  match cur with
  | None => b = len N ∧ K ≡L lang_eps
  | Some f => Frag b (len N) (edges N) (fstart f) (fend f) K
  end.

Lemma runs_link_cur b cur K m L N :
  0 ≤ b → cur_ok b N cur K → builds m L →
  runs (next ← m; link cur next) N (λ o N', grows b N N' ∧ is_Some o ∧ cur_ok b N' o (lang_cat K L)).
Proof.
  intros Hb Hcur Hm. destruct cur as [[s e]|]; cbn in Hcur.
  - eapply (runs_link b s e K); [done..|]. intros f N' G F. by apply runs_ret.
  - destruct Hcur as [-> HK]. apply runs_bind, (runs_build (len N) _ L); [done..|].
    intros f N' G _ F. apply runs_ret. split_and!; [done..|]. cbn.
    eapply Frag_lang; [|done]. rewrite HK. intros w. by rewrite lang_cat_eps_l.
Qed.

Definition pending_lang (pending : option (list Z)) : lang :=
  match pending with None => lang_eps | Some v => string_lang v end.

Lemma runs_flush b pending cur K N :
  0 ≤ b → (∀ v, pending = Some v → text_ok v) → cur_ok b N cur K →
  runs (flush pending cur) N (λ o N', grows b N N' ∧ (is_Some pending ∨ is_Some cur → is_Some o)
    ∧ cur_ok b N' o (lang_cat K (pending_lang pending))).
Proof.
  intros Hb Hpend Hcur. destruct pending as [v|]; cbn.
  - destruct (Hpend v eq_refl) as [Hv%utf8_ok_bytes _].
    eapply runs_mono; [by apply (runs_link_cur b), builds_string|]. naive_solver.
  - apply runs_ret. split_and!; [apply grows_refl|by intros [[]|]; [done|]|].
    destruct cur; cbn in *.
    + eapply Frag_lang; [|done]. intros w. by rewrite lang_cat_eps_r.
    + destruct Hcur as [-> HK]. split; [done|]. by rewrite lang_cat_eps_r_eq.
Qed.

Lemma runs_rule_seq (build : Rule → builder nfaFragment) (L : Rule → lang) b cs pending cur K N :
  (∀ c v, string_value c = Some v → L c = string_lang v) →
  0 ≤ b → Forall (λ c, builds (build c) (L c)) cs → forallb literal_ok cs = true →
  (∀ v, pending = Some v → text_ok v) → cur_ok b N cur K →
  runs (rule_seq_loop build cs pending cur) N (λ o N', grows b N N'
    ∧ (is_Some pending ∨ is_Some cur ∨ cs ≠ [] → is_Some o)
    ∧ cur_ok b N' o (lang_cat K (lang_cat (pending_lang pending) (lang_seq (map L cs))))).
Proof.
  intros HL Hb Hcs Hlit. revert pending cur K N.
  induction Hcs as [|c cs Hc Hcs IH]; intros pending cur K N Hpend Hcur; cbn.
  { eapply runs_mono; [by apply (runs_flush b)|]. intros o N' (? & Ho & ?).
    split_and!; [done|naive_solver|]. destruct o; cbn in *.
    - eapply Frag_lang; [|done]. by rewrite lang_cat_eps_r_eq.
    - by rewrite lang_cat_eps_r_eq. }
  cbn in Hlit. apply andb_true_iff in Hlit as [Hc' Hlit]. specialize (IH Hlit).
  unfold literal_ok in Hc'. destruct (string_value c) as [v|] eqn:Hv.
  - rewrite (HL c v Hv). assert (text_ok v) as Htv
      by (by apply andb_true_iff in Hc' as [? ?%bool_decide_eq_true]).
    assert (text_ok (default [] pending)) as Htp
      by (destruct pending; [by apply Hpend|apply text_ok_nil]).
    destruct (text_ok_app _ _ Htp Htv) as [Htx Hcat].
    eapply runs_mono; [apply (IH _ cur K); [by intros ? [= <-]|done]|].
    intros o N' (? & Ho & Hcur'). split_and!; [done|naive_solver|].
    assert (pending_lang pending ≡L string_lang (default [] pending)) as Hpl by (by destruct pending).
    destruct o; cbn in *.
    + eapply Frag_lang; [|done]. rewrite Hpl, <-Hcat. intros w. apply lang_cat_proper; [done|].
      intros u. by rewrite lang_cat_assoc.
    + destruct Ho as [? [=]]. left. eauto.
  - apply runs_bind. eapply runs_mono; [by apply (runs_flush b)|]. intros o1 N1 (G1 & _ & C1).
    apply runs_assoc, runs_bind. eapply runs_mono; [by eapply (runs_link_cur b)|].
    intros o2 N2 (G2 & [f ->] & C2). eapply runs_mono; [by apply (IH None (Some f))|].
    intros o N' (G3 & Ho & C3). split_and!; [eauto using grows_trans|naive_solver|].
    destruct o; cbn in *.
    + eapply Frag_lang; [|done]. by rewrite !lang_cat_assoc_eq, lang_cat_eps_l_eq.
    + destruct Ho as [? [=]]. right; left. eauto.
Qed.

(** * Terminals to NFA *)

Section rules.
Context (parseRegex : list Z → go (regexError + regexNode)).
Local Notation L := (rule_lang parseRegex).
Local Notation build := (buildFromRule parseRegex).
Local Notation ok := (rule_ok parseRegex).

Lemma string_value_lang c v : string_value c = Some v → L c = string_lang v.
Proof. destruct c as [|[] ????]; cbn; try done. by intros [= <-]. Qed.

Lemma rule_children (P : Rule → Prop) cs :
  Forall (λ c, ok c = true → P c) cs → forallb ok cs = true → Forall P cs.
Proof. rewrite Forall_forallb, !list.Forall_forall. eauto. Qed.

Lemma builds_seq cs :
  Forall (λ c, builds (build c) (L c)) cs → forallb literal_ok cs = true →
  builds (buildSeq build cs) (lang_seq (map L cs)).
Proof.
  intros Hcs Hlit. destruct cs as [|c cs]; [apply builds_epsilon|].
  intros N. pose proof (len_nonneg N). unfold buildSeq. apply runs_bind. eapply runs_mono.
  { apply (runs_rule_seq _ L (len N) _ _ _ lang_eps); try done. apply string_value_lang. }
  intros o N' (G & Ho & C). destruct Ho as [f ->]; [naive_solver|]. apply runs_ret.
  split; [done|]. cbn in *. eapply Frag_lang; [|exact C]. by rewrite !lang_cat_eps_l_eq.
Qed.

Lemma any_strings cs vs :
  mapM string_value cs = Some vs → forallb literal_ok cs = true →
  (λ w, w ∈ map runes_of vs) ≡L lang_any (map L cs).
Proof.
  rewrite mapM_Some. intros Hvs Hlit w. unfold lang_any.
  induction Hvs as [|c v cs vs Hv Hvs IH]; cbn in *.
  { rewrite Exists_nil. split; [by intros ?%elem_of_nil|done]. }
  apply andb_true_iff in Hlit as [Hc Hlit]. rewrite elem_of_cons, Exists_cons, IH by done.
  unfold literal_ok in Hc. rewrite Hv in Hc.
  apply andb_true_iff in Hc as [_ Hnul%bool_decide_eq_true].
  by rewrite (string_value_lang _ _ Hv), (string_lang_text v Hnul w).
Qed.

Lemma builds_choice cs :
  Forall (λ c, builds (build c) (L c)) cs → forallb literal_ok cs = true →
  builds (buildChoice build cs) (match map L cs with [] => lang_eps | _ => lang_any (map L cs) end).
Proof.
  intros Hcs Hlit. destruct cs as [|c cs]; [apply builds_epsilon|]. unfold buildChoice, buildStringChoice.
  destruct (mapM string_value (c :: cs)) as [vs|] eqn:Hvs; cbn [mbind option_bind].
  - eapply builds_lang, builds_string_choice; [by apply any_strings|by eapply literals_bytes].
  - by apply builds_alt.
Qed.

(** The construction of a rule adds a fragment for the rule's language. *)
Lemma builds_rule r : ok r = true → builds (build r) (L r).
Proof.
  induction r as [|kind value cs prec named IH] using Rule_nested_ind; intros Hok;
    [apply builds_epsilon|].
  destruct kind; cbn [rule_ok] in Hok; try done.
  - by apply builds_string, bytes_ok_Forall.
  - intros N. cbn. unfold buildPattern. destruct (parseRegex value) as [[e|node]| |] eqn:Hp; try done.
    apply andb_true_iff in Hok as [Hok _]. apply (builds_regex node Hok N).
  - apply andb_true_iff in Hok as [Hlit Hok]. apply rule_children in IH; [|done].
    by apply builds_seq.
  - apply andb_true_iff in Hok as [Hlit Hok]. apply rule_children in IH; [|done].
    by apply builds_choice.
  - apply rule_children in IH; [|done]. destruct IH as [|c cs Hc _]; [apply builds_epsilon|].
    by eapply builds_lang, builds_wrap; [apply wrap_star|].
  - apply rule_children in IH; [|done]. destruct IH as [|c cs Hc _]; [apply builds_epsilon|].
    by eapply builds_lang, builds_wrap; [apply wrap_plus|].
  - apply rule_children in IH; [|done]. destruct IH as [|c cs Hc _]; [apply builds_epsilon|].
    by eapply builds_lang, builds_wrap; [apply wrap_optional|].
  - apply builds_epsilon.
Qed.

(** ** The empty word *)

(** Every choice of the rule has a branch. *)
Fixpoint choices_ok (r : Rule) : bool :=
  match r with
  | NilRule => true
  | mkRule kind _ children _ _ =>
    match kind, children with
    | RuleChoice, [] => false
    | _, _ => forallb choices_ok children
    end
  end.

Definition decides (b : go bool) (P : Prop) : Prop := ∃ c, b = Ret c ∧ (c = true ↔ P).

Lemma all_loop_decides {A} (f : A → go bool) (P : A → Prop) l :
  Forall (λ x, decides (f x) (P x)) l → decides (all_loop f l) (Forall P l).
Proof.
  induction 1 as [|x l (c & Hc & Hx) _ (d & Hd & IH)]; cbn.
  { exists true. by rewrite Forall_nil. }
  rewrite Hc. cbn. destruct c; [exists d|exists false]; rewrite Forall_cons;
    (split; [done|]); naive_solver.
Qed.

Lemma any_loop_decides {A} (f : A → go bool) (P : A → Prop) l :
  Forall (λ x, decides (f x) (P x)) l → decides (any_loop f l) (Exists P l).
Proof.
  induction 1 as [|x l (c & Hc & Hx) _ (d & Hd & IH)]; cbn.
  { exists false. rewrite Exists_nil. naive_solver. }
  rewrite Hc. cbn. destruct c; [exists true|exists d]; rewrite Exists_cons;
    (split; [done|]); naive_solver.
Qed.

Lemma canMatchEmpty_decides r :
  ok r = true → choices_ok r = true → decides (terminalRuleCanMatchEmpty parseRegex r) (L r []).
Proof.
  induction r as [|kind value cs prec named IH] using Rule_nested_ind; intros Hok Hch; [by exists true|].
  assert (forallb ok cs = true →
    Forall (λ c, decides (terminalRuleCanMatchEmpty parseRegex c) (L c [])) cs) as Hcs.
  { rewrite Forall_forallb. assert (forallb choices_ok cs = true) as Hch'%Forall_forallb
      by (destruct kind, cs; done).
    intros Hr. rewrite list.Forall_forall in IH, Hch', Hr |- *. intros c Hc.
    apply IH; [done|by apply Hr|by apply Hch']. }
  destruct kind; cbn [rule_ok terminalRuleCanMatchEmpty rule_lang] in *; try done.
  - eexists. split; [done|]. rewrite bool_decide_eq_true. unfold string_lang. case_decide; [done|].
    split; [done|]. intros Hn. symmetry in Hn. apply (proj1 (runes_of_nil _)) in Hn. by left.
  - destruct (parseRegex value) as [[e|node]| |] eqn:Hp; try done.
    apply andb_true_iff in Hok as [Hok Ha]. eexists. split; [done|]. by apply regexCanMatchEmpty_spec.
  - apply andb_true_iff in Hok as [_ Hok]. apply Hcs, all_loop_decides in Hok as (c & Hc & Hf).
    exists c. split; [done|]. by rewrite lang_seq_nil, Forall_map.
  - apply andb_true_iff in Hok as [_ Hok]. apply Hcs, any_loop_decides in Hok as (c & Hc & Hf).
    exists c. split; [done|]. rewrite Hf. destruct cs as [|c0 cs]; [done|].
    change (Exists (λ c, L c []) (c0 :: cs) ↔ Exists (λ K : lang, K []) (map L (c0 :: cs))).
    by rewrite Exists_map.
  - exists true. split; [done|]. destruct cs; [done|]. split; [intros _; apply lang_star_nil|done].
  - apply Hcs in Hok. destruct Hok as [|c cs' (d & Hd & Hc) _]; [by exists true|]. exists d.
    split; [done|]. rewrite Hc. cbn. unfold lang_plus. split.
    + intros. exists 0%nat. by apply lang_cat_eps_r.
    + intros [n Hn]. by apply lang_pow_nil in Hn.
  - exists true. split; [done|]. destruct cs; [done|]. split; [intros _; by left|done].
  - by exists true.
Qed.

End rules.
