(* ===== verification/NfaCombined.v ===== *)
(** * The combined NFA

    [buildCombinedNFA] of grammargen/nfa.go: one start state, a trie for the
    literals that occur once, and one fragment for every other terminal.  The
    words that reach a labelled state are exactly those the terminal of that
    label matches. *)

From Stdlib Require Import ZArith Lia ZifyBool String.
From stdpp Require Import base tactics list numbers option sets gmap.
From S2P Require Import Prelude Utf8 SliceSort StateError Regex Nfa NfaPath NfaBuild NfaRegex NfaRule.
From S2P Require Import RegexParse RegexParseCorrect.
Local Open Scope Z_scope.

Lemma runs_setAccept s symID prio tie N (Q : () → list nfaState → Prop) :
  0 ≤ s < len N →
  (∀ N', len N' = len N → (∀ p l q, edges N' p l q ↔ edges N p l q) →
    (∀ p, label N' p = if decide (p = s) then (symID, prio, tie) else label N p) →
    (nfa_wf N → nfa_wf N') → Q () N') →
  runs (setAccept s symID prio tie) N Q.
Proof.
  intros Hs HQ. unfold setAccept, runs. destruct (index_in_range N s Hs) as (st & -> & Hst). cbn.
  rewrite store_ok by done. cbn. eexists (), _. split; [done|]. apply HQ; [apply len_insert|..].
  - intros p l q. unfold edges. destruct (decide (p = s)) as [->|].
    + rewrite zget_insert_eq, Hst by done. naive_solver.
    + rewrite zget_insert_ne by lia. done.
  - intros p. unfold label. case_decide as Hp.
    + subst. by rewrite zget_insert_eq.
    + by rewrite zget_insert_ne by lia.
  - intros Hwf p st' t Hp Ht. rewrite len_insert. destruct (decide (p = s)) as [->|].
    + rewrite zget_insert_eq in Hp by done. injection Hp as <-. by eapply Hwf.
    + rewrite zget_insert_ne in Hp by lia. by eapply Hwf.
Qed.

Definition no_label : Z * Z * Z := (0, 0, 0).

Lemma label_fresh N p : len N ≤ p → label N p = no_label.
Proof. intros. unfold label. by rewrite (proj2 (zget_None N p)) by lia. Qed.

(** The label of a pattern: [accept], [priority] and [tieOrder]. *)
Definition pattern_label (pat : TerminalPattern) (i : Z) : Z * Z * Z :=
  (SymbolID pat, Priority pat, i).

Record piece := mkPiece {
  pc_lo : Z; pc_hi : Z; pc_start : Z; pc_end : Z; pc_pat : TerminalPattern; pc_index : Z }.

Section combined.
Context (parseRegex : list Z → go (regexError + regexNode)).
Local Notation L := (rule_lang parseRegex).

Definition piece_ok (N : list nfaState) (W : gmap Z (list Z)) (pc : piece) : Prop :=
  Frag (pc_lo pc) (pc_hi pc) (edges N) (pc_start pc) (pc_end pc) (L (tpRule (pc_pat pc)))
  ∧ pc_hi pc ≤ len N
  ∧ (∀ p, pc_lo pc ≤ p < pc_hi pc → W !! p = None)
  ∧ (∀ p, pc_lo pc ≤ p < pc_hi pc →
      label N p = if decide (p = pc_end pc) then pattern_label (pc_pat pc) (pc_index pc) else no_label).

(** The start state is the root of the trie of the literals [lits] and leads
    to every piece. *)
Record comb_inv (N : list nfaState) (E : trie) (W : gmap Z (list Z))
    (lits : list (list Z * (Z * Z * Z))) (pieces : list piece) : Prop := {
  co_trie : trie_inv 0 N E W;
  co_eps : ∀ p w q, W !! p = Some w →
    edges N p None q ↔ p = 0 ∧ ∃ pc, pc ∈ pieces ∧ pc_start pc = q;
  co_piece : ∀ pc, pc ∈ pieces → piece_ok N W pc;
  co_label : ∀ p w, W !! p = Some w → label N p ≠ no_label → (w, label N p) ∈ lits;
  co_lits : ∀ w l, (w, l) ∈ lits → ∃ p, W !! p = Some w ∧ label N p = l;
  co_wf : nfa_wf N;
  co_known : ∀ p, label N p = no_label ∨ (∃ w, (w, label N p) ∈ lits)
    ∨ ∃ pc, pc ∈ pieces ∧ label N p = pattern_label (pc_pat pc) (pc_index pc) }.

(** Where the paths from the start lead: within the trie, or into a piece. *)
Lemma comb_paths N E W lits pieces q u w p :
  comb_inv N E W lits pieces → W !! q = Some u → path (edges N) q w p →
  W !! p = Some (u ++ w)
  ∨ u = [] ∧ ∃ pc, pc ∈ pieces ∧ pc_lo pc ≤ p < pc_hi pc ∧ path (edges N) (pc_start pc) w p.
Proof.
  intros [Ti Heps Hpc _ _ _ _] Hq Hpath. revert u Hq.
  induction Hpath as [q|q l q' w p HE Hpath IH]; intros u Hq; [left; by rewrite app_nil_r|].
  destruct l as [r|]; cbn.
  - apply (ti_graph _ _ _ _ Ti _ _ _ _ Hq), (ti_edge _ _ _ _ Ti) in HE as (u' & ? & Hq').
    simplify_eq. destruct (IH _ Hq') as [Hp|[?%app_nil _]]; [left; by rewrite <-app_assoc in Hp|naive_solver].
  - apply (Heps _ _ _ Hq) in HE as [-> (pc & Hin & <-)]. right.
    destruct (Hpc pc Hin) as (HF & _).
    split; [pose proof (ti_root _ _ _ _ Ti); congruence|]. exists pc. split; [done|].
    split; [eapply Frag_stays; [done|apply HF|done]|done].
Qed.

(** The labels on the states that a word reaches. *)
Lemma comb_accepts N E W lits pieces w l :
  comb_inv N E W lits pieces → l ≠ no_label →
  (∃ q, path (edges N) 0 w q ∧ label N q = l) ↔
  (w, l) ∈ lits ∨ ∃ pc, pc ∈ pieces ∧ L (tpRule (pc_pat pc)) w ∧ pattern_label (pc_pat pc) (pc_index pc) = l.
Proof.
  intros Inv Hl. destruct (Inv) as [Ti Heps Hpc Hlab Hlits _ _]. split.
  - intros (q & Hp & Hq). destruct (comb_paths _ _ _ _ _ _ _ _ _ Inv (ti_root _ _ _ _ Ti) Hp)
      as [Hw|(_ & pc & Hin & Hr & Hpath)]; cbn in *.
    + left. rewrite <-Hq. apply Hlab; [done|by rewrite Hq].
    + right. destruct (Hpc pc Hin) as (HF & _ & _ & Hlb). rewrite (Hlb q Hr) in Hq.
      case_decide as Hd; [|by rewrite Hq in Hl]. subst q. exists pc.
      split_and!; [done|by apply (fr_lang _ _ _ _ _ _ HF)|done].
  - intros [(p & Hp & Hq)%Hlits|(pc & Hin & Hw & Hq)].
    + exists p. split; [by eapply trie_path|done].
    + destruct (Hpc pc Hin) as (HF & _ & _ & Hlb). exists (pc_end pc). split.
      * eapply path_eps; [apply (Heps _ _ _ (ti_root _ _ _ _ Ti)); eauto|].
        by apply (fr_lang _ _ _ _ _ _ HF).
      * rewrite Hlb by apply HF. by rewrite decide_True.
Qed.

(** ** The loop *)

(** A trie keeps its invariant when its states keep their edges. *)
Lemma trie_inv_keep s N N' E W :
  trie_inv s N E W → len N ≤ len N' →
  (∀ p w r q, W !! p = Some w → edges N' p (Some r) q ↔ edges N p (Some r) q) →
  trie_inv s N' E W.
Proof.
  intros [? Hr ? ? ? Hg] Hlen HE. split; try done.
  - intros p w Hp%Hr. lia.
  - intros p w r q Hp. rewrite (HE _ _ _ _ Hp). by eapply Hg.
Qed.

Lemma piece_ok_keep N N' W W' pc :
  piece_ok N W pc → len N ≤ len N' →
  (∀ p, pc_lo pc ≤ p < pc_hi pc → W' !! p = None ∧ label N' p = label N p
    ∧ ∀ l q, edges N' p l q ↔ edges N p l q) →
  piece_ok N' W' pc.
Proof.
  intros (HF & Hhi & HW & Hlab) Hlen Hkeep. split_and!; [|lia|..].
  - eapply Frag_ext; [|done]. intros p l q Hp. symmetry. by apply Hkeep.
  - intros p Hp. by apply Hkeep.
  - intros p Hp. destruct (Hkeep p Hp) as (_ & -> & _). by apply Hlab.
Qed.

(** A new literal: walk its runes into the trie and label the state. *)
Lemma comb_literal N E W lits pieces N1 N2 E1 W1 p w l :
  comb_inv N E W lits pieces → trie_grows 0 N N1 W W1 → trie_inv 0 N1 E1 W1 →
  W1 !! p = Some w → (∀ l, (w, l) ∉ lits) → len N2 = len N1 →
  (∀ x l y, edges N2 x l y ↔ edges N1 x l y) →
  (∀ x, label N2 x = if decide (x = p) then l else label N1 x) → (nfa_wf N1 → nfa_wf N2) →
  comb_inv N2 E1 W1 ((w, l) :: lits) pieces.
Proof.
  intros [Ti Heps Hpc Hlab Hlits Hwf Hkn] G Ti1 Hp Hnew Hlen HE Hl Hwf2.
  pose proof (gr_len _ _ _ (tg_grows _ _ _ _ _ G)) as Hg.
  assert (∀ x u, W !! x = Some u → W1 !! x = Some u) as Hsub
    by (intros; eapply lookup_weaken; [done|apply G]).
  assert (∀ x u, W1 !! x = Some u → W !! x = Some u ∨ W !! x = None ∧ len N ≤ x < len N1) as Hcase.
  { intros x u Hx. destruct (W !! x) as [u'|] eqn:Hx'.
    - left. apply Hsub in Hx'. congruence.
    - right. split; [done|]. by eapply G. }
  assert (∀ x, label N1 x = label N x) as HlabN by (intros; apply G).
  split.
  - eapply trie_inv_keep; [done|lia|]. intros. by rewrite HE.
  - intros x u q Hx. rewrite HE, (tg_eps _ _ _ _ _ G).
    destruct (Hcase x u Hx) as [Hx'|[Hx' Hr]]; [by eapply Heps|].
    pose proof (ti_range _ _ _ _ Ti _ _ (ti_root _ _ _ _ Ti)).
    split; [intros ?%edges_range; lia|]. intros [-> _]. lia.
  - intros pc Hin. destruct (Hpc pc Hin) as (HF & Hhi & HW & _).
    apply (piece_ok_keep N _ W); [by apply Hpc|lia|]. intros x Hx.
    assert (W1 !! x = None) as Hx1.
    { destruct (W1 !! x) as [u|] eqn:Hx1; [|done]. specialize (HW x Hx).
      apply Hcase in Hx1 as [|[_ ?]]; [congruence|lia]. }
    split_and!; [done| |].
    + rewrite Hl, decide_False by congruence. apply HlabN.
    + intros l' q. rewrite HE. by apply (tg_other _ _ _ _ _ G).
  - intros x u Hx. rewrite Hl. case_decide as Hd.
    + intros _. assert (u = w) as -> by congruence. left.
    + intros Hne. right. rewrite HlabN in Hne |- *.
      destruct (Hcase x u Hx) as [Hx'|[_ Hr]]; [by apply Hlab|]. by rewrite label_fresh in Hne by lia.
  - intros u l' [[= -> ->]|Hin]%elem_of_cons.
    + exists p. rewrite Hl. by rewrite decide_True.
    + destruct (Hlits u l' Hin) as (x & Hx & Hlx). exists x. split; [auto|].
      rewrite Hl, decide_False; [by rewrite HlabN|]. intros ->.
      assert (u = w) as -> by (apply Hsub in Hx; congruence). by eapply Hnew.
  - by apply Hwf2, (gr_wf _ _ _ (tg_grows _ _ _ _ _ G)).
  - intros x. rewrite Hl. case_decide; [right; left; exists w; left|]. rewrite HlabN.
    destruct (Hkn x) as [?|[[u ?]|?]]; [by left|right; left; exists u; by right|by right; right].
Qed.

(** A new piece: a fragment behind an epsilon edge from the start. *)
Lemma comb_piece N E W lits pieces N1 N2 N3 f pat i :
  comb_inv N E W lits pieces → grows (len N) N N1 →
  Frag (len N) (len N1) (edges N1) (fstart f) (fend f) (L (tpRule pat)) →
  adds (edges N1) (edges N2) [(0, fstart f)] → len N2 = len N1 → len N3 = len N1 →
  (∀ p, label N2 p = label N1 p) → (∀ x l y, edges N3 x l y ↔ edges N2 x l y) →
  (∀ x, label N3 x = if decide (x = fend f) then pattern_label pat i else label N2 x) →
  (nfa_wf N1 → nfa_wf N3) →
  comb_inv N3 E W lits (mkPiece (len N) (len N1) (fstart f) (fend f) pat i :: pieces).
Proof.
  intros [Ti Heps Hpc Hlab Hlits Hwf Hkn] G HF HA L2 L3 HL2 HE3 HL3 Hwf3.
  pose proof (gr_len _ _ _ G). pose proof (fr_exit _ _ _ _ _ _ HF) as He.
  pose proof (ti_range _ _ _ _ Ti _ _ (ti_root _ _ _ _ Ti)) as H0.
  assert (∀ x l y, edges N3 x l y ↔ edges N1 x l y ∨ (l = None ∧ x = 0 ∧ y = fstart f)) as HE.
  { intros. rewrite HE3, (HA _ _ _). set_solver. }
  assert (∀ x, x < len N → label N3 x = label N x) as Hlow.
  { intros x Hx. rewrite HL3, decide_False, HL2 by lia. apply G. }
  split.
  - eapply trie_inv_keep; [done|lia|]. intros p w r q Hp. rewrite HE.
    rewrite (grows_edges _ _ _ _ _ _ G) by (apply (ti_range _ _ _ _ Ti) in Hp; lia). naive_solver.
  - intros p w q Hp. rewrite HE. rewrite (grows_edges _ _ _ _ _ _ G), (Heps _ _ _ Hp)
      by (apply (ti_range _ _ _ _ Ti) in Hp; lia). set_solver.
  - intros pc [->|Hin]%elem_of_cons.
    + split_and!; cbn; [|lia|..].
      * eapply Frag_ext; [|exact HF]. intros p l q Hp. rewrite HE. naive_solver lia.
      * intros p Hp. destruct (W !! p) eqn:HW; [|done]. apply (ti_range _ _ _ _ Ti) in HW. lia.
      * intros p Hp. rewrite HL3. case_decide; [done|]. rewrite HL2, (gr_label _ _ _ G).
        apply label_fresh. lia.
    + destruct (Hpc pc Hin) as (HFp & Hhi & HW & _).
      apply (piece_ok_keep N _ W); [by apply Hpc|lia|]. intros x Hx.
      split_and!; [by apply HW|apply Hlow; lia|].
      intros l q. rewrite HE, (grows_edges _ _ _ _ _ _ G) by lia. split; [|by left].
      intros [?|(_ & -> & _)]; [done|]. specialize (HW 0 Hx). by rewrite (ti_root _ _ _ _ Ti) in HW.
  - intros p w Hp. rewrite Hlow by (apply (ti_range _ _ _ _ Ti) in Hp; lia). by apply Hlab.
  - intros w l (p & Hp & Hl)%Hlits. exists p. split; [done|].
    rewrite Hlow; [done|]. apply (ti_range _ _ _ _ Ti) in Hp. lia.
  - by apply Hwf3, (gr_wf _ _ _ G).
  - intros x. rewrite HL3. case_decide; [right; right; eexists; split; [left|done]|].
    rewrite HL2, (gr_label _ _ _ G).
    destruct (Hkn x) as [?|[?|(pc & ? & ?)]]; [by left|by right; left|].
    right; right. exists pc. split; [by right|done].
Qed.

(** What the loop has put into the trie and beside it. *)
Definition literal_of (counts : gmap (list Z) Z) (todo : list TerminalPattern) (i : Z) w l : Prop :=
  ∃ k pat v, todo !! k = Some pat ∧ trie_literal counts pat = Some v
    ∧ w = runes_of v ∧ l = pattern_label pat (i + Z.of_nat k).

Definition piece_of (counts : gmap (list Z) Z) (todo : list TerminalPattern) (i : Z) pat j : Prop :=
  ∃ k, todo !! k = Some pat ∧ trie_literal counts pat = None ∧ j = i + Z.of_nat k.

Definition has_piece (pieces : list piece) pat j : Prop :=
  ∃ pc, pc ∈ pieces ∧ pc_pat pc = pat ∧ pc_index pc = j.

Lemma literal_of_cons counts pat todo i w l :
  literal_of counts (pat :: todo) i w l ↔
  (∃ v, trie_literal counts pat = Some v ∧ w = runes_of v ∧ l = pattern_label pat i)
  ∨ literal_of counts todo (i + 1) w l.
Proof.
  split.
  - intros ([|k] & pat' & v & Hk & Hv & -> & ->); cbn in Hk.
    + left. simplify_eq. rewrite Z.add_0_r. eauto.
    + right. exists k, pat', v. split_and!; [done..|]. f_equal. lia.
  - intros [(v & Hv & -> & ->)|(k & pat' & v & Hk & Hv & -> & ->)].
    + exists 0%nat, pat, v. by rewrite Z.add_0_r.
    + exists (S k), pat', v. split_and!; [done..|]. f_equal. lia.
Qed.

Lemma piece_of_cons counts pat todo i pat' j :
  piece_of counts (pat :: todo) i pat' j ↔
  (trie_literal counts pat = None ∧ pat' = pat ∧ j = i) ∨ piece_of counts todo (i + 1) pat' j.
Proof.
  split.
  - intros ([|k] & Hk & Hv & ->); cbn in Hk.
    + left. simplify_eq. split_and!; [done..|lia].
    + right. exists k. split_and!; [done..|lia].
  - intros [(Hv & -> & ->)|(k & Hk & Hv & ->)].
    + exists 0%nat. split_and!; [done..|lia].
    + exists (S k). split_and!; [done..|lia].
Qed.

Lemma has_piece_cons pc pieces pat j :
  has_piece (pc :: pieces) pat j ↔ (pc_pat pc = pat ∧ pc_index pc = j) ∨ has_piece pieces pat j.
Proof. unfold has_piece. setoid_rewrite elem_of_cons. naive_solver. Qed.

Lemma trie_literal_Some counts pat v :
  trie_literal counts pat = Some v →
  string_value (tpRule pat) = Some v ∧ v ≠ nul_string ∧ default 0 (counts !! v) = 1.
Proof.
  unfold trie_literal. destruct (string_value (tpRule pat)) as [u|]; cbn; [|done].
  case_match eqn:E; [|done]. intros [= ->].
  apply andb_true_iff in E as [?%bool_decide_eq_true ?%Z.eqb_eq]. done.
Qed.

Lemma trie_literal_bytes counts pat v :
  trie_literal counts pat = Some v → rule_ok parseRegex (tpRule pat) = true → Forall byte_ok v.
Proof.
  intros (Hv & _)%trie_literal_Some Hok. apply bytes_ok_Forall.
  destruct (tpRule pat) as [|[] ????]; cbn in *; try done. by injection Hv as <-.
Qed.

Lemma runs_combined counts todo i N E W lits pieces :
  Forall (λ pat, rule_ok parseRegex (tpRule pat) = true) todo →
  NoDup (map runes_of (omap (trie_literal counts) todo)) →
  (∀ w l, (w, l) ∈ lits → w ∉ map runes_of (omap (trie_literal counts) todo)) →
  comb_inv N E W lits pieces →
  runs (combined_loop parseRegex counts 0 i E todo) N (λ _ N', ∃ E' W' lits' pieces',
    comb_inv N' E' W' lits' pieces'
    ∧ (∀ w l, (w, l) ∈ lits' ↔ (w, l) ∈ lits ∨ literal_of counts todo i w l)
    ∧ (∀ pat j, has_piece pieces' pat j ↔ has_piece pieces pat j ∨ piece_of counts todo i pat j)).
Proof.
  intros Hok. revert i N E W lits pieces.
  induction Hok as [|pat todo Hp Hok IH]; intros i N E W lits pieces Hnd Hfresh Inv; cbn.
  { apply runs_ret. exists E, W, lits, pieces. split_and!; [done|..].
    - intros w l. split; [by left|]. by intros [?|([]&?&?&?&_)].
    - intros pat j. split; [by left|]. by intros [?|([]&?&_)]. }
  cbn in Hnd, Hfresh.
  destruct (trie_literal counts pat) as [v|] eqn:Hv; cbn in Hnd, Hfresh.
  - apply NoDup_cons in Hnd as [Hnv Hnd].
    apply runs_bind. eapply runs_mono; [apply (runs_trie_walk 0 0); [done| |apply Inv|apply Inv]|].
    { by apply runes_of_range, (trie_literal_bytes counts pat). }
    intros [p E1] N1 (W1 & Ti1 & Hw & G1). cbn in Hw.
    apply runs_bind, runs_setAccept; [by eapply ti_range|]. intros N2 L2 E2 Lab2 Wf2.
    assert (comb_inv N2 E1 W1 ((runes_of v, pattern_label pat i) :: lits) pieces) as Inv2.
    { eapply comb_literal; try done. intros l Hin. apply Hfresh in Hin. by destruct Hin; left. }
    eapply runs_mono; [eapply IH; [done| |exact Inv2]|].
    { intros w l [[= -> ->]|Hin]%elem_of_cons; [done|]. apply Hfresh in Hin. intros Hc; apply Hin; by right. }
    intros _ N' (E' & W' & lits' & pieces' & Inv' & Hl & Hpc).
    exists E', W', lits', pieces'. split_and!; [done| |].
    + intros w l. rewrite Hl, literal_of_cons, elem_of_cons, Hv. split.
      * intros [[[= -> ->]|?]|?]; [right; left; eauto|by left|by right; right].
      * intros [?|[(? & [= <-] & -> & ->)|?]]; [by left; right|by left; left|by right].
    + intros pat' j. rewrite Hpc, piece_of_cons, Hv. split; [intros [?|?]; auto|].
      intros [?|[([=] & _)|?]]; auto.
  - apply runs_bind. destruct (builds_rule parseRegex (tpRule pat) Hp N) as (f & N1 & Hrun & G1 & F1).
    exists f, N1. split; [unfold with_terminal; by rewrite Hrun|].
    pose proof (fr_exit _ _ _ _ _ _ F1) as He. pose proof (gr_len _ _ _ G1).
    pose proof (fr_entry _ _ _ _ _ _ F1).
    pose proof (ti_range _ _ _ _ (co_trie _ _ _ _ _ Inv) _ _ (ti_root _ _ _ _ (co_trie _ _ _ _ _ Inv))).
    apply runs_bind, (runs_addEpsilon 0); [lia..|]. intros N2 L2 G2 A2.
    apply runs_bind, runs_setAccept; [lia|]. intros N3 L3 E3 Lab3 Wf3.
    assert (comb_inv N3 E W lits
      (mkPiece (len N) (len N1) (fstart f) (fend f) pat i :: pieces)) as Inv3.
    { eapply comb_piece; try done; [lia|intros p; apply G2|]. intros. by apply Wf3, (gr_wf _ _ _ G2). }
    eapply runs_mono; [by eapply (IH (i + 1)); [..|exact Inv3]|].
    intros _ N' (E' & W' & lits' & pieces' & Inv' & Hl & Hpc).
    exists E', W', lits', pieces'. split_and!; [done| |].
    + intros w l. rewrite Hl, literal_of_cons, Hv. split; [intros [?|?]; auto|].
      intros [?|[(? & [=] & _)|?]]; auto.
    + intros pat' j. rewrite Hpc, piece_of_cons, has_piece_cons, Hv. cbn. split.
      * intros [[[-> ->]|?]|?]; [right; left; done|by left|by right; right].
      * intros [?|[(_ & -> & ->)|?]]; [by left; right|by left; left|by right].
Qed.

End combined.

(** ** Literals that occur once *)

Lemma string_counts_spec ps v :
  default 0 (string_counts ps !! v)
  = Z.of_nat (length (filter (λ p, string_value (tpRule p) = Some v) ps)).
Proof.
  unfold string_counts. cut (∀ m : gmap (list Z) Z,
    default 0 (foldl (λ counts pat, match string_value (tpRule pat) with
      | Some u => <[u := default 0 (counts !! u) + 1]> counts | None => counts end) m ps !! v)
    = default 0 (m !! v) + Z.of_nat (length (filter (λ p, string_value (tpRule p) = Some v) ps))).
  { intros ->. by rewrite lookup_empty. }
  induction ps as [|p ps IH]; intros m; cbn [foldl]; [rewrite filter_nil; cbn; lia|].
  rewrite IH, filter_cons. destruct (string_value (tpRule p)) as [u|] eqn:Hu.
  - destruct (decide (u = v)) as [->|Hne].
    + rewrite lookup_insert_eq, decide_True by done. cbn. lia.
    + rewrite lookup_insert_ne, decide_False by congruence. done.
  - by rewrite decide_False.
Qed.

Lemma trie_literals_NoDup counts ps :
  (∀ v, default 0 (counts !! v) = 1 →
    (length (filter (λ p, string_value (tpRule p) = Some v) ps) ≤ 1)%nat) →
  NoDup (omap (trie_literal counts) ps).
Proof.
  induction ps as [|p ps IH]; intros Hc; cbn; [constructor|].
  assert (NoDup (omap (trie_literal counts) ps)) as Hnd.
  { apply IH. intros v Hv%Hc. rewrite filter_cons in Hv. case_decide; cbn in Hv; lia. }
  destruct (trie_literal counts p) as [v|] eqn:Hv; [|done]. constructor; [|done].
  apply trie_literal_Some in Hv as (Hv & _ & H1).
  intros (q & Hq & (Hqv & _ & _)%trie_literal_Some)%list_elem_of_omap.
  specialize (Hc v H1). rewrite filter_cons, decide_True in Hc by done. cbn in Hc.
  assert (q ∈ filter (λ p, string_value (tpRule p) = Some v) ps) as Hin by (by apply list_elem_of_filter).
  destruct (filter _ ps); [by apply elem_of_nil in Hin|cbn in Hc; lia].
Qed.

(** ** The theorem *)

(** Terminals the compiler produces: a supported rule, and literals in UTF-8. *)
Definition terminal_ok (parseRegex : list Z → go (regexError + regexNode)) (pat : TerminalPattern) : bool :=
  rule_ok parseRegex (tpRule pat)
  && match string_value (tpRule pat) with Some v => utf8_ok v | None => true end.

Lemma trie_words_NoDup parseRegex ps :
  forallb (terminal_ok parseRegex) ps = true →
  NoDup (map runes_of (omap (trie_literal (string_counts ps)) ps)).
Proof.
  intros Hok%Forall_forallb. rewrite list.Forall_forall in Hok.
  assert (∀ v, v ∈ omap (trie_literal (string_counts ps)) ps → utf8_ok v = true) as Hutf.
  { intros v (pat & Hin & (Hv & _)%trie_literal_Some)%list_elem_of_omap. specialize (Hok pat Hin).
    unfold terminal_ok in Hok. rewrite Hv in Hok. by apply andb_true_iff in Hok as [_ ?]. }
  apply NoDup_fmap_2_strong.
  - intros v u Hv Hu. apply runes_of_inj; auto.
  - apply trie_literals_NoDup. intros v Hv. rewrite string_counts_spec in Hv. lia.
Qed.

(** The states after the loop, from the lone start state. *)
Lemma combined_run parseRegex ps :
  forallb (terminal_ok parseRegex) ps = true →
  ∃ N E W lits pieces, buildCombinedNFA parseRegex ps = Ret (inr (mkNfa N 0))
    ∧ comb_inv parseRegex N E W lits pieces
    ∧ (∀ w l, (w, l) ∈ lits ↔ literal_of (string_counts ps) ps 0 w l)
    ∧ (∀ pat j, has_piece pieces pat j ↔ piece_of (string_counts ps) ps 0 pat j).
Proof.
  intros Hok. pose proof (trie_words_NoDup _ _ Hok) as Hnd.
  assert (comb_inv parseRegex [emptyState] ∅ {[ 0 := [] ]} [] []) as Inv.
  { assert (∀ p, no_out (edges [emptyState]) p) as Ho.
    { intros p l q HE. apply (edges_addState []) in HE as ?%edges_range. change (len []) with 0 in *. lia. }
    split.
    - apply trie_inv_init; [done|]. intros r q. apply Ho.
    - intros p w q _. split; [by intros ?%Ho|]. by intros (_ & pc & ?%elem_of_nil & _).
    - by intros pc ?%elem_of_nil.
    - intros p w [<- _]%lookup_singleton_Some. by intros [].
    - by intros w l ?%elem_of_nil.
    - intros p st t Hp Ht. apply zget_elem, list_elem_of_singleton in Hp as ->. by apply elem_of_nil in Ht.
    - intros p. left. unfold label. destruct (zget [emptyState] p) eqn:E; [|done].
      by apply zget_elem, list_elem_of_singleton in E as ->. }
  destruct (runs_combined parseRegex (string_counts ps) ps 0 [emptyState] ∅ {[ 0 := [] ]} [] [])
    as ([] & N & Hrun & E & W & lits & pieces & Inv' & Hl & Hp); [| |by intros ?? ?%elem_of_nil|done|].
  - apply Forall_forallb in Hok. eapply Forall_impl; [exact Hok|]. cbn. intros pat Hpat.
    by apply andb_true_iff in Hpat as [? _].
  - done.
  - exists N, E, W, lits, pieces. split_and!; [|done|..].
    + unfold buildCombinedNFA. unfold mbind at 2, ste_bind at 1. cbn.
      rewrite (ste_bind_ok _ _ _ _ _ Hrun). done.
    + intros w l. rewrite Hl. split; [by intros [?%elem_of_nil|?]|by right].
    + intros pat j. rewrite Hp. split; [|by right].
      intros [(pc & ?%elem_of_nil & _)|?]; done.
Qed.

Lemma combined_exact parseRegex ps :
  forallb (terminal_ok parseRegex) ps = true →
  ∃ N, buildCombinedNFA parseRegex ps = Ret (inr (mkNfa N 0)) ∧
  ∀ w sym prio tie, sym ≠ 0 →
    (∃ q, path (edges N) 0 w q ∧ label N q = (sym, prio, tie)) ↔
    (∃ k pat, ps !! k = Some pat ∧ rule_lang parseRegex (tpRule pat) w
      ∧ SymbolID pat = sym ∧ Priority pat = prio ∧ Z.of_nat k = tie).
Proof.
  intros Hok. destruct (combined_run _ _ Hok) as (N & E & W & lits & pieces & Hrun & Inv & Hl & Hp).
  exists N. split; [done|]. intros w sym prio tie Hsym.
  rewrite (comb_accepts _ _ _ _ _ _ _ _ Inv) by (unfold no_label; congruence).
  assert (∀ k pat v, ps !! k = Some pat → trie_literal (string_counts ps) pat = Some v →
    rule_lang parseRegex (tpRule pat) w ↔ w = runes_of v) as Hlit.
  { intros k pat v _ (Hv & Hnul & _)%trie_literal_Some.
    rewrite (string_value_lang _ _ _ Hv). by apply string_lang_text. }
  split.
  - intros [(k & pat & v & Hk & Hv & -> & [= -> -> ->])%Hl|(pc & Hin & Hw & [= <- <- <-])].
    + exists k, pat. split_and!; [done|by eapply Hlit|done..].
    + destruct (proj1 (Hp (pc_pat pc) (pc_index pc))) as (k & Hk & _ & ->); [by exists pc|].
      by exists k, (pc_pat pc).
  - intros (k & pat & Hk & Hw & <- & <- & <-).
    destruct (trie_literal (string_counts ps) pat) as [v|] eqn:Hv.
    + left. apply Hl. exists k, pat, v. split_and!; [done..|by eapply Hlit|done].
    + right. destruct (proj2 (Hp pat (Z.of_nat k))) as (pc & Hin & <- & Hi); [by exists k|].
      exists pc. by rewrite Hi.
Qed.

(** The combined NFA of the terminals accepts a word with a label, a symbol
    other than 0 with its priority and tie order, exactly when some terminal
    with that symbol and priority, at that position, matches the word. *)
Theorem buildCombinedNFA_exact parseRegex ps :
  forallb (terminal_ok parseRegex) ps = true →
  ∃ N, buildCombinedNFA parseRegex ps = Ret (inr (mkNfa N 0)) ∧
  ∀ w sym prio tie, sym ≠ 0 →
    (∃ q, path (edges N) 0 w q ∧ label N q = (sym, prio, tie)) ↔
    (∃ k pat, ps !! k = Some pat ∧ rule_lang parseRegex (tpRule pat) w
      ∧ SymbolID pat = sym ∧ Priority pat = prio ∧ Z.of_nat k = tie).
Proof. apply combined_exact. Qed.

(** Two keywords and an identifier pattern that also matches them. *)
Definition sample_terminals : list TerminalPattern :=
  let string_terminal id v prio := mkTerminalPattern id (mkRule RuleString (bytes_of v) [] 0 false) prio false in
  let pattern_terminal id v prio := mkTerminalPattern id (mkRule RulePattern (bytes_of v) [] 0 false) prio false in
  [string_terminal 1 "if" 0; string_terminal 2 "in" 0; pattern_terminal 3 "[a-z]+" 0]%string.

Lemma sample_terminals_ok : forallb (terminal_ok (RegexParse.parseRegex no_tables)) sample_terminals = true.
Proof. by vm_compute. Qed.

Lemma buildCombinedNFA_exact_witness :
  forallb (terminal_ok (RegexParse.parseRegex no_tables)) sample_terminals = true ∧
  ∃ N, buildCombinedNFA (RegexParse.parseRegex no_tables) sample_terminals = Ret (inr (mkNfa N 0)) ∧
    ∃ q, path (edges N) 0 [105; 102] q ∧ label N q = (1, 0, 0).
Proof.
  split; [apply sample_terminals_ok|].
  destruct (buildCombinedNFA_exact _ _ sample_terminals_ok) as (N & Hrun & Hex).
  exists N. split; [exact Hrun|]. apply Hex; [lia|]. exists 0%nat. eexists. split_and!; reflexivity.
Defined.

(** [terminalRuleCanMatchEmpty] decides whether the empty word is in the
    language of a terminal, which is the language the NFA of that terminal
    accepts. *)
Theorem terminalRuleCanMatchEmpty_exact parseRegex r :
  rule_ok parseRegex r = true → choices_ok r = true →
  ∃ b, terminalRuleCanMatchEmpty parseRegex r = Ret b ∧ (b = true ↔ rule_lang parseRegex r []).
Proof. apply canMatchEmpty_decides. Qed.

Lemma terminalRuleCanMatchEmpty_exact_witness :
  let r := mkRule RulePattern (bytes_of "([0-9]+|x)?y*") [] 0 false in
  rule_ok (RegexParse.parseRegex no_tables) r = true ∧ rule_lang (RegexParse.parseRegex no_tables) r [].
Proof.
  intros r. assert (rule_ok (RegexParse.parseRegex no_tables) r = true) as Hok by (vm_compute; reflexivity).
  split; [exact Hok|].
  destruct (terminalRuleCanMatchEmpty_exact (RegexParse.parseRegex no_tables) r Hok eq_refl) as (b & Hb & Hl).
  apply Hl. vm_compute in Hb. injection Hb as <-. reflexivity.
Defined.
