(* ===== verification/Dfa.v ===== *)
(** * Subset construction

    grammargen/dfa.go: epsilon closures with a generation-stamped scratch, the
    sweep that partitions the rune space, and the worklist construction of the
    deterministic automaton.  Hash chains are lists, newest entry first.  The
    context is an argument: whether it is done when the loop looks at it, on
    every 64th round.  The slice [epsilonClosure] returns is a buffer of the
    scratch; both callers copy it at once, so it is a value here. *)

From Stdlib Require Import ZArith Lia ZifyBool.
From stdpp Require Import base tactics list numbers option gmap.
From S2P Require Import Prelude Utf8 SliceSort StateError Regex Nfa.
Local Open Scope Z_scope.

Record dfaTransition := mkDfaTransition { dlo : Z; dhi : Z; dnext : Z }.

Record dfaState := mkDfaState {
  dtransitions : list dfaTransition;
  daccept : Z;
  dacceptPriority : Z;
  dskip : bool }.

Definition maxInt : Z := 2 ^ 63 - 1.

Section dfa.
Context `{SliceSort}.

Definition sameIntSlice (a b : list Z) : bool := bool_decide (a = b).

(** ** Epsilon closures *)

Record dfaSubsetScratch := mkScratch { seenGen : Z; seen : list Z }.

Definition newDFASubsetScratch (stateCount : Z) : dfaSubsetScratch := mkScratch 1 (make stateCount 0).

Definition nextSeenGen (s : dfaSubsetScratch) : dfaSubsetScratch :=
  let gen := u32 (seenGen s + 1) in
  if gen =? 0 then mkScratch 1 (map (λ _, 0) (seen s)) else mkScratch gen (seen s).

(** Mark and collect a state not yet seen in this generation; the stack is kept
    top first. *)
Definition visit_state (gen state : Z) (acc : list Z * list Z * list Z)
  : go (list Z * list Z * list Z) :=
  let '(seen, closure, stack) := acc in
  g ← index seen state;
  if g =? gen then Ret acc else
  seen ← store seen state gen;
  Ret (seen, closure ++ [state], state :: stack).

Fixpoint visit_seeds (gen : Z) (seeds : list Z) acc : go (list Z * list Z * list Z) :=
  match seeds with
  | [] => Ret acc
  | s :: seeds => acc ← visit_state gen s acc; visit_seeds gen seeds acc
  end.

Fixpoint visit_epsilons (gen : Z) (ts : list nfaTransition) acc : go (list Z * list Z * list Z) :=
  match ts with
  | [] => Ret acc
  | t :: ts =>
    acc ← (if tepsilon t then visit_state gen (tnext t) acc else Ret acc);
    visit_epsilons gen ts acc
  end.

Fixpoint closure_loop (fuel : nat) (N : list nfaState) (gen : Z) acc : go (list Z * list Z) :=
  let '(seen, closure, stack) := acc in
  match stack with
  | [] => Ret (seen, closure)
  | state :: stack =>
    match fuel with
    | O => NoFuel
    | S fuel =>
      st ← index N state;
      acc ← visit_epsilons gen (transitions st) (seen, closure, stack);
      closure_loop fuel N gen acc
    end
  end.

Definition epsilonClosure (s : dfaSubsetScratch) (N : list nfaState) (seeds : list Z)
  : go (list Z * dfaSubsetScratch) :=
  let s := nextSeenGen s in
  acc ← visit_seeds (seenGen s) seeds (seen s, [], []);
  '(seen, closure) ← closure_loop (length N) N (seenGen s) acc;
  Ret (sort_ints closure, mkScratch (seenGen s) seen).

(** ** Moves *)

Record nfaRangeMove := mkMove { mlo : Z; mhi : Z; mtargets : list Z }.
Record nfaSweepEvent := mkEvent { point : Z; evState : Z; delta : Z }.

Fixpoint collect_events (N : list nfaState) (states : list Z) : go (list nfaSweepEvent) :=
  match states with
  | [] => Ret []
  | s :: states =>
    st ← index N s;
    rest ← collect_events N states;
    Ret (concat (map (λ t,
      if tepsilon t then [] else
      [mkEvent (tlo t) (tnext t) 1; mkEvent (i32 (thi t + 1)) (tnext t) (-1)]) (transitions st))
      ++ rest)
  end.

Definition event_less (a b : nfaSweepEvent) : bool :=
  if negb (point a =? point b) then point a <? point b
  else if negb (evState a =? evState b) then evState a <? evState b
  else delta a <? delta b.

Definition bump (active : gmap Z Z) (ev : nfaSweepEvent) : gmap Z Z :=
  let c := default 0 (active !! evState ev) + delta ev in
  if c =? 0 then delete (evState ev) active else <[evState ev := c]> active.

(** Record a move, extending the last one when it continues it; the moves are
    kept last first. *)
Definition emit_move (moves : list nfaRangeMove) (lo hi : Z) (targets : list Z) : list nfaRangeMove :=
  match moves with
  | last :: rest =>
    if (i32 (mhi last + 1) =? lo) && sameIntSlice (mtargets last) targets
    then mkMove (mlo last) hi (mtargets last) :: rest
    else mkMove lo hi targets :: moves
  | [] => [mkMove lo hi targets]
  end.

(** The sweep: after the last event at a point, the active states are the
    targets up to the next point. *)
Fixpoint sweep (evs : list nfaSweepEvent) (active : gmap Z Z) (moves : list nfaRangeMove)
  : list nfaRangeMove :=
  match evs with
  | [] => moves
  | ev :: evs =>
    let active := bump active ev in
    match evs with
    | [] => moves
    | next :: _ =>
      if point next =? point ev then sweep evs active moves else
      let hi := i32 (point next - 1) in
      if bool_decide (active = ∅) || (hi <? point ev) then sweep evs active moves else
      sweep evs active
        (emit_move moves (point ev) hi (sort_ints (map fst (map_to_list active))))
    end
  end.

Definition collectTransitionMoves (N : list nfaState) (states : list Z) : go (list nfaRangeMove) :=
  events ← collect_events N states;
  Ret (reverse (sweep (sort_slice event_less events) ∅ [])).

(** ** The construction *)

Definition hashIntSlice (vals : list Z) : Z :=
  foldl (λ h v, u64 (Z.lxor h (u32 v) * 0x100000001b3)) 0xcbf29ce484222325 vals.

Record subset := mkSubset {
  stateMap : gmap Z (list Z);
  closureCache : gmap Z (list (list Z * list Z));
  stateSets : list (list Z);
  dfaStates : list dfaState;
  worklist : list (Z * list Z);
  scratch : dfaSubsetScratch }.

Fixpoint find_state (sets : list (list Z)) (chain : list Z) (states : list Z) : go (option Z) :=
  match chain with
  | [] => Ret None
  | idx :: chain =>
    set ← index sets idx;
    if sameIntSlice set states then Ret (Some idx) else find_state sets chain states
  end.

(** The accept symbol of a set: lowest priority number, then lowest tie order,
    then lowest symbol.  The accumulator is (accept, priority, tie order). *)
Definition better (best : Z * Z * Z) (st : nfaState) : Z * Z * Z :=
  let '(acc, bestPriority, bestTie) := best in
  if 0 <? accept st then
    if (priority st <? bestPriority)
       || ((priority st =? bestPriority) && (tieOrder st <? bestTie))
       || ((priority st =? bestPriority) && (tieOrder st =? bestTie)
           && ((acc =? 0) || (accept st <? acc)))
    then (accept st, priority st, tieOrder st) else best
  else best.

Fixpoint best_accept (N : list nfaState) (states : list Z) (best : Z * Z * Z) : go (Z * Z * Z) :=
  match states with
  | [] => Ret best
  | s :: states => st ← index N s; best_accept N states (better best st)
  end.

Definition addDFAState (N : list nfaState) (states : list Z) (s : subset) : go (Z * subset) :=
  let hash := hashIntSlice states in
  let chain := default [] (stateMap s !! hash) in
  found ← find_state (stateSets s) chain states;
  match found with
  | Some idx => Ret (idx, s)
  | None =>
    let id := len (dfaStates s) in
    '(acc, prio, _) ← best_accept N states (0, maxInt, maxInt);
    Ret (id, mkSubset (<[hash := id :: chain]> (stateMap s)) (closureCache s)
               (stateSets s ++ [states]) (dfaStates s ++ [mkDfaState [] acc prio false])
               (worklist s ++ [(id, states)]) (scratch s))
  end.

Definition find_closure (chain : list (list Z * list Z)) (targets : list Z) : option (list Z) :=
  snd <$> head (filter (λ e, sameIntSlice e.1 targets = true) chain).

Definition closureForTargets (N : list nfaState) (targets : list Z) (s : subset)
  : go (list Z * subset) :=
  let hash := hashIntSlice targets in
  let chain := default [] (closureCache s !! hash) in
  match find_closure chain targets with
  | Some closure => Ret (closure, s)
  | None =>
    '(closure, scr) ← epsilonClosure (scratch s) N targets;
    Ret (closure, mkSubset (stateMap s) (<[hash := (targets, closure) :: chain]> (closureCache s))
                    (stateSets s) (dfaStates s) (worklist s) scr)
  end.

(** Append a transition, extending the last one when it continues it. *)
Definition add_transition (ts : list dfaTransition) (lo hi target : Z) : list dfaTransition :=
  match reverse ts with
  | last :: front =>
    if (dnext last =? target) && (i32 (dhi last + 1) =? lo)
    then reverse front ++ [mkDfaTransition (dlo last) hi (dnext last)]
    else ts ++ [mkDfaTransition lo hi target]
  | [] => [mkDfaTransition lo hi target]
  end.

Definition set_transitions (ds : list dfaState) (id : Z) (f : list dfaTransition → list dfaTransition)
  : go (list dfaState) :=
  d ← index ds id;
  store ds id (mkDfaState (f (dtransitions d)) (daccept d) (dacceptPriority d) (dskip d)).

Definition with_dfa (s : subset) (ds : list dfaState) : subset :=
  mkSubset (stateMap s) (closureCache s) (stateSets s) ds (worklist s) (scratch s).

Fixpoint move_loop (N : list nfaState) (curID : Z) (moves : list nfaRangeMove) (s : subset) : go subset :=
  match moves with
  | [] => Ret s
  | move :: moves =>
    '(targetStates, s) ← closureForTargets N (mtargets move) s;
    if bool_decide (targetStates = []) then move_loop N curID moves s else
    '(targetID, s) ← addDFAState N targetStates s;
    ds ← set_transitions (dfaStates s) curID
           (λ ts, add_transition ts (mlo move) (mhi move) targetID);
    move_loop N curID moves (with_dfa s ds)
  end.

(** The transitions of one state of the worklist. *)
Definition expand_state (N : list nfaState) (curID : Z) (states : list Z) (s : subset) : go subset :=
  moves ← collectTransitionMoves N states;
  ds ← (if bool_decide (moves = []) then Ret (dfaStates s)
        else set_transitions (dfaStates s) curID (λ _, []));
  move_loop N curID moves (with_dfa s ds).

Inductive subsetError := SubsetCancelled (dfaStateCount : Z).

Fixpoint work_loop (fuel : nat) (cancelled : Z → bool) (N : list nfaState) (iter : Z) (s : subset)
  : go (subsetError + list dfaState) :=
  match worklist s with
  | [] => Ret (inr (dfaStates s))
  | (curID, states) :: rest =>
    match fuel with
    | O => NoFuel
    | S fuel =>
      let s := mkSubset (stateMap s) (closureCache s) (stateSets s) (dfaStates s) rest (scratch s) in
      let iter := iter + 1 in
      if (Z.land iter 63 =? 0) && cancelled iter
      then Ret (inl (SubsetCancelled (len (dfaStates s)))) else
      s ← expand_state N curID states s;
      work_loop fuel cancelled N iter s
    end
  end.

(** The code takes sets of immediate symbols as further arguments and ignores them. *)
Definition subsetConstruction (fuel : nat) (cancelled : Z → bool) (n : nfa)
  : go (subsetError + list dfaState) :=
  let N := nfaStates n in
  '(startClosure, scr) ← epsilonClosure (newDFASubsetScratch (len N)) N [nfaStart n];
  '(_, s) ← addDFAState N startClosure (mkSubset ∅ ∅ [] [] [] scr);
  work_loop fuel cancelled N 0 s.

End dfa.
