(* ===== verification/DfaClosure.v ===== *)
(** * Closures and moves

    The two computations of the subset construction on a set of NFA states.
    [epsilonClosure] returns, in increasing order, the states that the seeds
    reach without reading; its loop needs one round per NFA state.
    [collectTransitionMoves] partitions the runes that some state reads into
    ranges with one target set each. *)

From Stdlib Require Import ZArith Lia ZifyBool.
From stdpp Require Import base tactics list numbers option sets gmap sorting.
From S2P Require Import Prelude Utf8 SliceSort StateError Regex Nfa NfaPath NfaBuild Dfa.
Local Open Scope Z_scope.

Section closures.
Context `{SliceSort}.

(** ** Epsilon closures *)

(** No stamp is newer than the generation. *)
Definition scratch_ok (n : Z) (s : dfaSubsetScratch) : Prop :=
  len (seen s) = n ∧ 0 ≤ seenGen s < 2 ^ 32 ∧ Forall (λ g, g ≤ seenGen s) (seen s).

Lemma scratch_ok_new n : 0 ≤ n → scratch_ok n (newDFASubsetScratch n).
Proof.
  intros Hn. unfold scratch_ok, newDFASubsetScratch. cbn [seen seenGen]. split_and!; [by apply len_make|lia|lia|].
  apply list.Forall_forall. intros g [-> _]%elem_of_replicate. lia.
Qed.

Lemma nextSeenGen_ok n s :
  scratch_ok n s → scratch_ok n (nextSeenGen s) ∧ Forall (λ g, g ≠ seenGen (nextSeenGen s)) (seen (nextSeenGen s)).
Proof.
  intros (Hlen & Hgen & Hs). unfold nextSeenGen. destruct (Z.eqb_spec (u32 (seenGen s + 1)) 0).
  - unfold scratch_ok. cbn [seen seenGen].
    assert (∀ g, g ∈ map (λ _ : Z, 0) (seen s) → g = 0) as Hz by (intros g (? & -> & _)%list_elem_of_fmap; done).
    split_and!; [unfold len in *; by rewrite length_map|lia|lia|..];
      apply list.Forall_forall; intros g ->%Hz; lia.
  - assert (u32 (seenGen s + 1) = seenGen s + 1) as ->.
    { apply u32_id. destruct (decide (seenGen s + 1 < 2 ^ 32)); [lia|].
      assert (seenGen s = 2 ^ 32 - 1) as E by lia. by rewrite E in n0. }
    unfold scratch_ok. cbn [seen seenGen].
    destruct (decide (seenGen s + 1 < 2 ^ 32)) as [Hlt|Hge].
    2:{ assert (seenGen s = 2 ^ 32 - 1) as E by lia. by rewrite E in n0. }
    split_and!; [done|lia|lia|..]; (eapply Forall_impl; [exact Hs|]); cbn; lia.
Qed.

Section closure.
Context (N : list nfaState) (Hwf : nfa_wf N).

Definition in_states (p : Z) : Prop := 0 ≤ p < len N.

(** [p] leads to [q] without reading. *)
Definition eps_reach (p q : Z) : Prop := path (edges N) p [] q.

(** During a closure: the stamps mark the collected states, the collected
    states are reachable, and those neither on the stack nor [busy] have been expanded. *)
Record closing (gen : Z) (seeds busy : list Z) (visited closure stack : list Z) : Prop := {
  cl_len : len visited = len N;
  cl_seen : ∀ p, in_states p → zget visited p = Some gen ↔ p ∈ closure;
  cl_old : Forall (λ g, g ≤ gen) visited;
  cl_nodup : NoDup closure;
  cl_states : Forall in_states closure;
  cl_stack : stack ⊆ closure;
  cl_reach : ∀ q, q ∈ closure → ∃ p, p ∈ seeds ∧ eps_reach p q;
  cl_done : ∀ p q, p ∈ closure → p ∉ stack → p ∉ busy → edges N p None q → q ∈ closure }.

Lemma visit_state_closing gen seeds busy p visited closure stack :
  closing gen seeds busy visited closure stack → in_states p → (∃ s, s ∈ seeds ∧ eps_reach s p) →
  ∃ visited' closure' stack', visit_state gen p (visited, closure, stack) = Ret (visited', closure', stack')
    ∧ closing gen seeds busy visited' closure' stack' ∧ p ∈ closure' ∧ closure ⊆ closure'
    ∧ (length closure' + length stack = length closure + length stack')%nat.
Proof.
  intros Cl Hp Hr. unfold visit_state.
  destruct (index_in_range visited p) as (g & -> & Hg); [rewrite (cl_len _ _ _ _ _ _ Cl); exact Hp|]. cbn.
  destruct (Z.eqb_spec g gen) as [->|Hne].
  { exists visited, closure, stack. split_and!; try done. by apply (cl_seen _ _ _ _ _ _ Cl). }
  destruct Cl as [Hlen Hseen Hold Hnd Hst Hstk Hreach Hdone].
  assert (0 ≤ p < len visited) as Hpr by (rewrite Hlen; exact Hp).
  assert (p ∉ closure) as Hnin by (rewrite <-Hseen, Hg by done; congruence).
  rewrite store_ok by done. cbn. eexists _, _, _. split_and!; [done| |set_solver|set_solver|rewrite length_app; cbn; lia].
  split.
  - by rewrite len_insert.
  - intros q Hq. rewrite elem_of_app, list_elem_of_singleton. destruct (decide (q = p)) as [->|].
    + rewrite zget_insert_eq by done. naive_solver.
    + rewrite zget_insert_ne by (unfold in_states in *; lia). rewrite Hseen by done. naive_solver.
  - apply Forall_insert; [done|lia].
  - apply NoDup_app. split_and!; [done|set_solver|apply NoDup_singleton].
  - apply Forall_app. split; [done|]. by apply Forall_singleton.
  - set_solver.
  - intros q [Hq|Hq%list_elem_of_singleton]%elem_of_app; [by apply Hreach|by subst].
  - intros x q Hx Hnx Hb HE. apply elem_of_app in Hx as [Hx|Hx%list_elem_of_singleton]; [|set_solver].
    apply elem_of_app. left. eapply Hdone; [done| |done|done]. set_solver.
Qed.

Lemma visit_seeds_closing gen all busy seeds visited closure stack :
  closing gen all busy visited closure stack → Forall in_states seeds → seeds ⊆ all →
  ∃ visited' closure' stack', visit_seeds gen seeds (visited, closure, stack) = Ret (visited', closure', stack')
    ∧ closing gen all busy visited' closure' stack' ∧ seeds ⊆ closure' ∧ closure ⊆ closure'
    ∧ (length closure' + length stack = length closure + length stack')%nat.
Proof.
  revert visited closure stack. induction seeds as [|s seeds IH]; intros visited closure stack Cl Hs Hsub; cbn [visit_seeds].
  { exists visited, closure, stack. split_and!; try done. set_solver. }
  apply Forall_cons in Hs as [Hs Hseeds].
  destruct (visit_state_closing gen all busy s _ _ _ Cl Hs) as (v1 & c1 & k1 & -> & Cl1 & Hin1 & Hsub1 & Hl1).
  { exists s. split; [set_solver|constructor]. }
  cbn [mbind go_bind]. destruct (IH _ _ _ Cl1 Hseeds) as (v2 & c2 & k2 & -> & Cl2 & Hin2 & Hsub2 & Hl2); [set_solver|].
  exists v2, c2, k2. split_and!; [done|done|set_solver|set_solver|lia].
Qed.

Lemma visit_epsilons_closing gen seeds busy ts p visited closure stack :
  closing gen seeds busy visited closure stack → p ∈ closure →
  (∀ t, t ∈ ts → in_states (tnext t) ∧ (tepsilon t = true → edges N p None (tnext t))) →
  ∃ visited' closure' stack', visit_epsilons gen ts (visited, closure, stack) = Ret (visited', closure', stack')
    ∧ closing gen seeds busy visited' closure' stack' ∧ closure ⊆ closure'
    ∧ (∀ t, t ∈ ts → tepsilon t = true → tnext t ∈ closure')
    ∧ (length closure' + length stack = length closure + length stack')%nat.
Proof.
  revert visited closure stack. induction ts as [|t ts IH]; intros visited closure stack Cl Hp Hts; cbn [visit_epsilons].
  { exists visited, closure, stack. split_and!; try done. by intros t ?%elem_of_nil. }
  destruct (Hts t ltac:(left)) as [Ht HE]. destruct (tepsilon t) eqn:Heps.
  - destruct (visit_state_closing gen seeds busy (tnext t) _ _ _ Cl Ht) as (v1 & c1 & k1 & -> & Cl1 & Hin1 & Hsub1 & Hl1).
    { destruct (cl_reach _ _ _ _ _ _ Cl p Hp) as (s & Hs & Hsp). exists s. split; [done|].
      apply (path_app _ _ [] p []); [done|]. by apply (path_edge _ _ None), HE. }
    cbn [mbind go_bind]. destruct (IH _ _ _ Cl1) as (v2 & c2 & k2 & -> & Cl2 & Hsub2 & Hall & Hl2);
      [set_solver|intros; apply Hts; by right|].
    exists v2, c2, k2. split_and!; [done|done|set_solver| |lia].
    intros t' [->|Ht']%elem_of_cons; [set_solver|by apply Hall].
  - cbn [mbind go_bind]. destruct (IH _ _ _ Cl) as (v2 & c2 & k2 & -> & Cl2 & Hsub2 & Hall & Hl2);
      [done|intros; apply Hts; by right|].
    exists v2, c2, k2. split_and!; [done..| |lia].
    intros t' [->|Ht']%elem_of_cons; [congruence|by apply Hall].
Qed.

Lemma closing_bound gen seeds busy visited closure stack :
  closing gen seeds busy visited closure stack → (length closure ≤ length N)%nat.
Proof.
  intros Cl. replace (length N) with (length (seqZ 0 (len N))) by (rewrite length_seqZ; unfold len; lia).
  apply submseteq_length, NoDup_submseteq; [apply Cl|]. intros p Hp.
  pose proof (cl_states _ _ _ _ _ _ Cl) as Hst. rewrite list.Forall_forall in Hst.
  specialize (Hst p Hp). apply elem_of_seqZ. unfold in_states in Hst. lia.
Qed.

(** Expanding the top of the stack. *)
Lemma pop_closing gen seeds p st visited closure stack :
  closing gen seeds [] visited closure (p :: stack) → zget N p = Some st →
  ∃ visited' closure' stack',
    visit_epsilons gen (transitions st) (visited, closure, stack) = Ret (visited', closure', stack')
    ∧ closing gen seeds [] visited' closure' stack' ∧ closure ⊆ closure'
    ∧ (length closure' + length stack = length closure + length stack')%nat.
Proof.
  intros Cl Hst. assert (p ∈ closure) as Hp by (apply (cl_stack _ _ _ _ _ _ Cl); left).
  assert (closing gen seeds [p] visited closure stack) as Cl1.
  { destruct Cl as [? ? ? ? ? Hstk ? Hdone]. split; try done; [set_solver|].
    intros x y Hx Hnx Hne. apply Hdone; [done| |set_solver]. set_solver. }
  destruct (visit_epsilons_closing gen seeds [p] (transitions st) p _ _ _ Cl1 Hp)
    as (v & c & k & Hrun & Cl2 & Hsub & Hall & Hl).
  { intros t Ht. destruct (Hwf p st t Hst Ht) as [Hr _]. split; [done|]. intros. by exists st, t. }
  exists v, c, k. split_and!; [done| |done|done].
  destruct Cl2 as [? ? ? ? ? ? ? Hdone]. split; try done.
  intros x y Hx Hnx _ HE. destruct (decide (x = p)) as [->|]; [|eapply Hdone; [done|done|set_solver|done]].
  destruct HE as (st' & t & Hst' & Ht & <- & Hr). rewrite Hst in Hst'. injection Hst' as <-. by apply Hall.
Qed.

Lemma closure_loop_closing gen seeds fuel visited closure stack :
  closing gen seeds [] visited closure stack →
  (length N + length stack ≤ fuel + length closure)%nat →
  ∃ visited' closure', closure_loop fuel N gen (visited, closure, stack) = Ret (visited', closure')
    ∧ closing gen seeds [] visited' closure' [] ∧ closure ⊆ closure'.
Proof.
  revert visited closure stack. induction fuel as [|fuel IH]; intros visited closure stack Cl Hf.
  { pose proof (closing_bound _ _ _ _ _ _ Cl). destruct stack as [|p stack]; [|cbn in Hf; lia].
    exists visited, closure. done. }
  destruct stack as [|p stack]; [by exists visited, closure|]. cbn [closure_loop].
  assert (p ∈ closure) as Hp by (apply (cl_stack _ _ _ _ _ _ Cl); left).
  pose proof (cl_states _ _ _ _ _ _ Cl) as Hst. rewrite list.Forall_forall in Hst.
  destruct (index_in_range N p (Hst p Hp)) as (st & -> & Hpst). cbn [mbind go_bind].
  destruct (pop_closing gen seeds p st visited closure stack Cl Hpst)
    as (v1 & c1 & k1 & -> & Cl1 & Hsub1 & Hl1).
  cbn [mbind go_bind]. destruct (IH _ _ _ Cl1) as (v2 & c2 & -> & Cl2 & Hsub2); [cbn in Hf; lia|].
  exists v2, c2. split_and!; [done|done|set_solver].
Qed.

(** The states reached from [seeds] without reading, in increasing order. *)
Definition closure_of (seeds l : list Z) : Prop :=
  increasing l ∧ Forall in_states l ∧ ∀ q, q ∈ l ↔ ∃ p, p ∈ seeds ∧ eps_reach p q.

Lemma eps_closed (P : Z → Prop) p q :
  (∀ x y, P x → edges N x None y → P y) → P p → eps_reach p q → P q.
Proof.
  intros HP Hp Hr. unfold eps_reach in Hr. remember [] as w eqn:Hw.
  induction Hr as [|p l x w q HE Hr IH]; [done|]. destruct l as [c|]; [done|]. cbn in Hw.
  apply IH; [|done]. by eapply HP.
Qed.

Lemma epsilonClosure_exact s seeds :
  scratch_ok (len N) s → Forall in_states seeds →
  ∃ l s', epsilonClosure s N seeds = Ret (l, s') ∧ scratch_ok (len N) s' ∧ closure_of seeds l.
Proof.
  intros Hs Hseeds. unfold epsilonClosure. destruct (nextSeenGen_ok _ _ Hs) as [(Hlen & Hgen & Hold) Hnew].
  set (s1 := nextSeenGen s) in *.
  assert (closing (seenGen s1) seeds [] (seen s1) [] []) as Cl.
  { split; [done| |done|constructor|constructor|done|set_solver|set_solver].
    intros p Hp. split; [|by intros ?%elem_of_nil]. intros Hg%zget_elem.
    rewrite list.Forall_forall in Hnew. by apply Hnew in Hg. }
  destruct (visit_seeds_closing _ _ _ seeds _ _ _ Cl) as (v1 & c1 & k1 & -> & Cl1 & Hin & _ & Hl1); [done..|].
  cbn [mbind go_bind]. destruct (closure_loop_closing (seenGen s1) seeds (length N) _ _ _ Cl1)
    as (v2 & c2 & -> & Cl2 & Hsub); [cbn in Hl1; lia|]. cbn.
  eexists _, _. split_and!; [done|..].
  - split; [apply Cl2|]. split; [done|]. apply Cl2.
  - split_and!; [apply sort_ints_increasing, Cl2| |].
    + rewrite sort_ints_perm. apply Cl2.
    + intros q. rewrite sort_ints_elem. split; [apply Cl2|]. intros (p & Hp & Hr).
      apply (eps_closed (λ x, x ∈ c2) p); [|by apply Hsub, Hin|done]. intros x y Hx HE.
      eapply (cl_done _ _ _ _ _ _ Cl2); [done|set_solver|set_solver|done].
Qed.

End closure.

(** ** Moves *)

Section moves.
Context (N : list nfaState) (Hwf : nfa_wf N) (states : list Z) (Hst : Forall (in_states N) states).

(** What the set of states can read next. *)
Definition move_to (c q : Z) : Prop := ∃ p, p ∈ states ∧ edges N p (Some c) q.

(** The rune transitions of the set. *)
Definition rune_transitions : list nfaTransition :=
  filter (λ t, tepsilon t = false) (states ≫= λ s, default [] (transitions <$> zget N s)).

Lemma rune_transitions_spec c q :
  move_to c q ↔ ∃ t, t ∈ rune_transitions ∧ tnext t = q ∧ tlo t ≤ c ≤ thi t.
Proof.
  unfold move_to, rune_transitions, edges. split.
  - intros (p & Hp & st & t & Hst' & Ht & Hq & He & Hc). exists t. split_and!; [|done|lia..].
    apply list_elem_of_filter. split; [done|]. apply list_elem_of_bind. exists p. split; [|done].
    by rewrite Hst'.
  - intros (t & [He (p & Ht & Hp)%list_elem_of_bind]%list_elem_of_filter & Hq & Hc).
    destruct (zget N p) as [st|] eqn:Hst'; [|by apply elem_of_nil in Ht].
    exists p. split; [done|]. exists st, t. done.
Qed.

Definition events_of (t : nfaTransition) : list nfaSweepEvent :=
  [mkEvent (tlo t) (tnext t) 1; mkEvent (thi t + 1) (tnext t) (-1)].

Lemma rune_transitions_range t :
  t ∈ rune_transitions → - 2 ^ 31 ≤ tlo t ≤ thi t ∧ thi t < 2 ^ 31 - 1.
Proof.
  intros [He (p & Ht & Hp)%list_elem_of_bind]%list_elem_of_filter.
  destruct (zget N p) as [st|] eqn:Hst'; [|by apply elem_of_nil in Ht].
  by apply (Hwf p st t).
Qed.

Lemma collect_events_spec : collect_events N states = Ret (rune_transitions ≫= events_of).
Proof.
  assert (∀ l, Forall (in_states N) l → collect_events N l =
    Ret (filter (λ t, tepsilon t = false) (l ≫= λ s, default [] (transitions <$> zget N s)) ≫= events_of)) as Hl.
  2: by apply Hl.
  induction 1 as [|p l Hp Hl IH]; [done|]. cbn [collect_events].
  destruct (index_in_range N p Hp) as (st & -> & Hpst). cbn [mbind go_bind]. rewrite IH.
  cbn [mbind go_bind]. f_equal. rewrite bind_cons, Hpst, filter_app, bind_app. f_equal. cbn.
  assert (∀ t, t ∈ transitions st → tepsilon t = false → i32 (thi t + 1) = thi t + 1) as Hi.
  { intros t Ht He. apply i32_id. destruct (Hwf p st t Hpst Ht) as [_ Hr]. specialize (Hr He). lia. }
  revert Hi. generalize (transitions st). clear. intros ts. induction ts as [|t ts IH]; intros Hi; [done|].
  cbn [map concat]. rewrite filter_cons, IH by (intros; apply Hi; [by right|done]).
  destruct (tepsilon t) eqn:He.
  - by rewrite decide_False.
  - rewrite decide_True by done. rewrite bind_cons. unfold events_of at 2. by rewrite Hi by (done || left).
Qed.

(** *** Counting events *)

Fixpoint total (evs : list nfaSweepEvent) (q : Z) : Z :=
  match evs with
  | [] => 0
  | ev :: evs => (if evState ev =? q then delta ev else 0) + total evs q
  end.

Lemma total_app evs evs' q : total (evs ++ evs') q = total evs q + total evs' q.
Proof. induction evs as [|ev evs IH]; cbn; [done|]. rewrite IH. lia. Qed.

Lemma total_perm evs evs' q : evs ≡ₚ evs' → total evs q = total evs' q.
Proof. induction 1; cbn; lia. Qed.

Definition before (c : Z) (ev : nfaSweepEvent) : Prop := point ev ≤ c.
#[local] Instance before_dec c ev : Decision (before c ev).
Proof. unfold before. apply _. Defined.

(** Up to a point, the events of a target count the transitions that read it. *)
Lemma total_before ts c q :
  (∀ t, t ∈ ts → tlo t ≤ thi t) →
  0 ≤ total (filter (before c) (ts ≫= events_of)) q
  ∧ (total (filter (before c) (ts ≫= events_of)) q ≠ 0 ↔
     ∃ t, t ∈ ts ∧ tnext t = q ∧ tlo t ≤ c ≤ thi t).
Proof.
  induction ts as [|t ts IH]; intros Hts; cbn [mbind list_bind].
  { rewrite filter_nil. cbn. split; [lia|]. split; [lia|]. by intros (t & ?%elem_of_nil & _). }
  destruct IH as [IH1 IH2]; [intros; apply Hts; by right|]. specialize (Hts t ltac:(left)).
  rewrite filter_app, total_app.
  assert (total (filter (before c) (events_of t)) q
    = if (tnext t =? q) && (tlo t <=? c) && (c <=? thi t) then 1 else 0) as ->.
  { unfold events_of. rewrite !filter_cons, filter_nil. unfold before. cbn [point].
    destruct (decide (tlo t ≤ c)), (decide (thi t + 1 ≤ c)); cbn; repeat case_match; lia. }
  split; [case_match; lia|]. setoid_rewrite elem_of_cons. case_match eqn:E.
  - split; [intros _|lia]. exists t. split; [by left|lia].
  - rewrite Z.add_0_l, IH2. split.
    + intros (t' & ? & ?). eauto.
    + intros (t' & [->|Ht'] & ? & ?); [lia|eauto].
Qed.

(** The events sorted as the sweep sees them. *)
Definition sorted_events : list nfaSweepEvent := sort_slice event_less (rune_transitions ≫= events_of).

Lemma event_less_weak : strict_weak event_less.
Proof. split; intros *; unfold event_less; repeat case_match; lia. Qed.

Lemma sorted_events_sorted : StronglySorted (λ a b, point a ≤ point b) sorted_events.
Proof.
  eapply StronglySorted_weaken, (sort_slice_sorted _ _ _ event_less_weak).
  intros a b. unfold event_less. repeat case_match; lia.
Qed.

Lemma total_move c q :
  total (filter (before c) sorted_events) q ≠ 0 ↔ move_to c q.
Proof.
  rewrite (total_perm _ (filter (before c) (rune_transitions ≫= events_of)))
    by (unfold sorted_events; by rewrite sort_slice_perm).
  rewrite rune_transitions_spec. apply total_before. intros t Ht%rune_transitions_range. lia.
Qed.

(** The active map holds the totals that are not zero. *)
Definition active_ok (evs : list nfaSweepEvent) (active : gmap Z Z) : Prop :=
  ∀ q, active !! q = if total evs q =? 0 then None else Some (total evs q).

Lemma bump_ok evs active ev : active_ok evs active → active_ok (evs ++ [ev]) (bump active ev).
Proof.
  intros Ha q. rewrite total_app. cbn [total]. rewrite Z.add_0_r.
  unfold bump. rewrite (Ha (evState ev)).
  assert (default 0 (if total evs (evState ev) =? 0 then None else Some (total evs (evState ev)))
    = total evs (evState ev)) as ->.
  { case_match eqn:E; cbn; [|done]. apply Z.eqb_eq in E. lia. }
  destruct (Z.eqb_spec (evState ev) q) as [<-|Hq].
  - case_match eqn:E; [by rewrite lookup_delete_eq|by rewrite lookup_insert_eq].
  - rewrite Z.add_0_r. case_match; [rewrite lookup_delete_ne|rewrite lookup_insert_ne]; auto.
Qed.

(** The targets on a rune, in increasing order. *)
Definition target_set (c : Z) (l : list Z) : Prop := increasing l ∧ ∀ q, q ∈ l ↔ move_to c q.

Lemma active_targets evs active c :
  active_ok evs active → (∀ q, total evs q ≠ 0 ↔ move_to c q) →
  target_set c (sort_ints (map fst (map_to_list active))).
Proof.
  intros Ha Hc. split.
  - apply sort_ints_increasing. apply NoDup_fst_map_to_list.
  - intros q. rewrite sort_ints_elem, <-Hc, list_elem_of_fmap. specialize (Ha q). split.
    + intros ([q' n] & -> & Hin%elem_of_map_to_list). cbn in *. rewrite Ha in Hin. by destruct (Z.eqb_spec (total evs q') 0).
    + intros Hne. exists (q, total evs q). split; [done|]. apply elem_of_map_to_list.
      rewrite Ha. case_match; [lia|done].
Qed.

(** *** The sweep *)

(** The moves found so far, last first, for the runes below [x]. *)
Record moves_below (x : Z) (ms : list nfaRangeMove) : Prop := {
  mb_range : Forall (λ m, - 2 ^ 31 ≤ mlo m ≤ mhi m ∧ mhi m < x) ms;
  mb_sorted : StronglySorted (λ a b, mhi b < mlo a) ms;
  mb_targets : ∀ m c, m ∈ ms → mlo m ≤ c ≤ mhi m → target_set c (mtargets m) ∧ mtargets m ≠ [];
  mb_cover : ∀ c q, c < x → move_to c q → ∃ m, m ∈ ms ∧ mlo m ≤ c ≤ mhi m }.

Lemma moves_skip x y ms :
  moves_below x ms → x ≤ y → (∀ c q, x ≤ c < y → ¬ move_to c q) → moves_below y ms.
Proof.
  intros [Hr Hs Ht Hc] Hxy Hno. split; [|done..|].
  - eapply Forall_impl; [exact Hr|]. cbn. lia.
  - intros c q Hlt Hm. destruct (decide (c < x)); [by eapply Hc|]. exfalso. eapply (Hno c q); [lia|done].
Qed.

Lemma moves_emit x y ms T :
  moves_below x ms → - 2 ^ 31 ≤ x < y → y ≤ 2 ^ 31 - 1 → (∀ c, x ≤ c < y → target_set c T) → T ≠ [] →
  moves_below y (emit_move ms x (y - 1) T).
Proof.
  intros Mb Hxy Hy HT Hne. destruct (Mb) as [Hr Hs Ht Hc].
  assert (moves_below y (mkMove x (y - 1) T :: ms)) as Hnew.
  { split.
    - constructor; [cbn; lia|]. eapply Forall_impl; [exact Hr|]. cbn. lia.
    - constructor; [done|]. eapply Forall_impl; [exact Hr|]. cbn. lia.
    - intros m c [->|Hm]%elem_of_cons Hin; [|by apply Ht]. cbn in *. split; [apply HT; lia|done].
    - intros c q Hlt Hm. destruct (decide (c < x)).
      + destruct (Hc c q) as (m & ? & ?); [lia|done|]. exists m. split; [by right|done].
      + exists (mkMove x (y - 1) T). cbn. split; [left|lia]. }
  unfold emit_move. destruct ms as [|m ms]; [done|]. case_match eqn:E; [|done].
  apply andb_true_iff in E as [Hadj HTeq%bool_decide_eq_true].
  apply Forall_cons in Hr as [Hm Hr]. rewrite i32_id in Hadj by lia. apply Z.eqb_eq in Hadj.
  apply StronglySorted_inv in Hs as [Hs Hms]. split.
  - constructor; [cbn; lia|]. eapply Forall_impl; [exact Hr|]. cbn. lia.
  - constructor; [done|]. exact Hms.
  - intros m' c [->|Hm']%elem_of_cons Hin; [|apply Ht; [by right|done]]. cbn in *. rewrite HTeq.
    split; [|done]. destruct (decide (c < x)); [|apply HT; lia].
    rewrite <-HTeq. apply Ht; [left|lia].
  - intros c q Hlt Hmv. destruct (mb_cover _ _ Hnew c q Hlt Hmv) as (m' & Hin & Hcm).
    apply elem_of_cons in Hin as [->|[->|Hin]%elem_of_cons]; cbn in *.
    + eexists. split; [left|]. cbn. lia.
    + eexists. split; [left|]. cbn. lia.
    + exists m'. split; [by right|done].
Qed.

(** Between two consecutive points the events so far are those before. *)
Lemma events_split done ev evs c :
  sorted_events = done ++ ev :: evs → (∀ next, head evs = Some next → c < point next) →
  point ev ≤ c → filter (before c) sorted_events = done ++ [ev].
Proof.
  intros Hall Hnext Hc. pose proof sorted_events_sorted as Hs. rewrite Hall in Hs |- *.
  rewrite (cons_middle ev done evs), app_assoc in Hs |- *. apply StronglySorted_app in Hs as (Hcross & _ & Hs).
  rewrite filter_app. rewrite (filter_Forall_id (before c) (done ++ [ev])).
  - rewrite (filter_Forall_nil (before c) evs); [by rewrite app_nil_r|].
    destruct evs as [|next evs]; [constructor|]. specialize (Hnext next eq_refl).
    apply StronglySorted_inv in Hs as [_ Hs]. constructor; [unfold before; lia|].
    eapply Forall_impl; [exact Hs|]. unfold before. cbn. lia.
  - apply list.Forall_forall. intros x Hx. unfold before.
    pose proof sorted_events_sorted as Hs'. rewrite Hall in Hs'.
    apply elem_of_app in Hx as [Hx| ->%list_elem_of_singleton]; [|done].
    apply StronglySorted_app in Hs' as (Hc' & _). specialize (Hc' x ev Hx ltac:(left)). cbn in Hc'. lia.
Qed.

Lemma sorted_events_point ev : ev ∈ sorted_events → - 2 ^ 31 ≤ point ev ≤ 2 ^ 31 - 1.
Proof.
  unfold sorted_events. rewrite sort_slice_perm. intros (t & Hev & Ht)%list_elem_of_bind.
  apply rune_transitions_range in Ht. unfold events_of in Hev.
  apply elem_of_cons in Hev as [->|[->|?%elem_of_nil]%elem_of_cons]; cbn; (lia || done).
Qed.

Lemma sweep_ok ev evs done active ms :
  sorted_events = done ++ ev :: evs → active_ok done active → moves_below (point ev) ms →
  ∃ x, moves_below x (sweep (ev :: evs) active ms) ∧ ∀ c q, x ≤ c → ¬ move_to c q.
Proof.
  revert ev done active ms. induction evs as [|next evs IH]; intros ev done active ms Hall Ha Mb.
  { cbn. exists (point ev). split; [done|]. intros c q Hc (t & Ht & _ & Hin)%rune_transitions_spec.
    assert (mkEvent (thi t + 1) (tnext t) (-1) ∈ sorted_events) as Hev.
    { unfold sorted_events. rewrite sort_slice_perm. apply list_elem_of_bind. exists t.
      split; [|done]. unfold events_of. right. left. }
    pose proof sorted_events_sorted as Hs. rewrite Hall in Hs, Hev.
    apply elem_of_app in Hev as [Hev|Hev%list_elem_of_singleton].
    - apply StronglySorted_app in Hs as (Hcross & _). specialize (Hcross _ ev Hev ltac:(left)). cbn in Hcross. lia.
    - subst ev. cbn in Hc. lia. }
  set (active' := bump active ev). assert (active_ok (done ++ [ev]) active') as Ha' by by apply bump_ok.
  assert (sorted_events = (done ++ [ev]) ++ next :: evs) as Hall' by (by rewrite <-app_assoc).
  pose proof (sorted_events_point ev ltac:(rewrite Hall; set_solver)) as Hpe.
  pose proof (sorted_events_point next ltac:(rewrite Hall; set_solver)) as Hpn.
  assert (point ev ≤ point next) as Hle.
  { pose proof sorted_events_sorted as Hs. rewrite Hall' in Hs. apply StronglySorted_app in Hs as (Hcross & _).
    apply (Hcross ev next); set_solver. }
  change (sweep (ev :: next :: evs) active ms) with
    (if point next =? point ev then sweep (next :: evs) active' ms else
     let hi := i32 (point next - 1) in
     if bool_decide (active' = ∅) || (hi <? point ev) then sweep (next :: evs) active' ms else
     sweep (next :: evs) active' (emit_move ms (point ev) hi (sort_ints (map fst (map_to_list active'))))).
  destruct (Z.eqb_spec (point next) (point ev)) as [Heq|Hne]; [apply (IH next (done ++ [ev])); [done|done|by rewrite Heq]|].
  cbn zeta. rewrite i32_id by lia.
  assert (∀ c q, point ev ≤ c < point next → total (done ++ [ev]) q ≠ 0 ↔ move_to c q) as Htot.
  { intros c q Hc. rewrite <-total_move, (events_split done ev (next :: evs)); [done|done| |lia].
    intros ? [= <-]. lia. }
  assert (∀ c, point ev ≤ c < point next → target_set c (sort_ints (map fst (map_to_list active')))) as Hts.
  { intros c Hc. eapply active_targets; [done|]. intros q. by apply Htot. }
  destruct (bool_decide (active' = ∅) || (point next - 1 <? point ev)) eqn:Hskip;
    apply (IH next (done ++ [ev])); try done.
  - apply orb_true_iff in Hskip as [Hempty%bool_decide_eq_true|]; [|lia].
    eapply moves_skip; [done|done|]. intros c q Hc Hm%(Htot c q Hc). apply Hm.
    specialize (Ha' q). rewrite Hempty, lookup_empty in Ha'. by destruct (Z.eqb_spec (total (done ++ [ev]) q) 0).
  - apply orb_false_iff in Hskip as [Hempty%bool_decide_eq_false _].
    apply moves_emit; [done|lia|lia|done|]. intros Hnil. apply Hempty, map_eq. intros q.
    rewrite lookup_empty. destruct (active' !! q) as [n|] eqn:Hq; [|done].
    assert (q ∈ sort_ints (map fst (map_to_list active'))) as Hin.
    { apply sort_ints_elem, list_elem_of_fmap. exists (q, n). split; [done|]. by apply elem_of_map_to_list. }
    rewrite Hnil in Hin. by apply elem_of_nil in Hin.
Qed.

(** The moves of a set of states: ranges in increasing order, one target set
    for all runes of a range, and every rune that can be read in some range. *)
Record moves_of (ms : list nfaRangeMove) : Prop := {
  mv_range : Forall (λ m, - 2 ^ 31 ≤ mlo m ≤ mhi m ∧ mhi m < 2 ^ 31 - 1) ms;
  mv_sorted : StronglySorted (λ a b, mhi a < mlo b) ms;
  mv_targets : ∀ m c, m ∈ ms → mlo m ≤ c ≤ mhi m → target_set c (mtargets m) ∧ mtargets m ≠ [];
  mv_cover : ∀ c q, move_to c q → ∃ m, m ∈ ms ∧ mlo m ≤ c ≤ mhi m }.

Lemma moves_below_final x ms :
  moves_below x ms → (∀ c q, x ≤ c → ¬ move_to c q) → moves_of (reverse ms).
Proof.
  intros [Hr Hs Ht Hc] Hx. split.
  - rewrite reverse_Permutation. apply list.Forall_forall. intros m Hm.
    rewrite list.Forall_forall in Hr. specialize (Hr m Hm). split; [lia|].
    destruct (Ht m (mhi m) Hm) as [[_ Hts] Hne]; [lia|].
    destruct (mtargets m) as [|q T]; [done|].
    assert (move_to (mhi m) q) as (t & Hin%rune_transitions_range & _ & Hcm)%rune_transitions_spec
      by (apply Hts; left). lia.
  - by apply StronglySorted_reverse in Hs.
  - intros m c Hm. apply Ht. by rewrite elem_of_reverse in Hm.
  - intros c q Hm. destruct (Hc c q) as (m & ? & ?); [|done|].
    + destruct (decide (c < x)); [done|]. exfalso. eapply Hx; [|done]. lia.
    + exists m. by rewrite elem_of_reverse.
Qed.

Lemma collectTransitionMoves_exact :
  ∃ ms, collectTransitionMoves N states = Ret ms ∧ moves_of ms.
Proof.
  unfold collectTransitionMoves. rewrite collect_events_spec. cbn [mbind go_bind].
  fold sorted_events. eexists. split; [done|]. destruct sorted_events as [|ev evs] eqn:Hev.
  - cbn. split; [constructor|constructor|by intros ?? ?%elem_of_nil|].
    intros c q (t & Ht & _)%rune_transitions_spec.
    assert (mkEvent (tlo t) (tnext t) 1 ∈ sorted_events) as Hin.
    { unfold sorted_events. rewrite sort_slice_perm. apply list_elem_of_bind. exists t. split; [left|done]. }
    rewrite Hev in Hin. by apply elem_of_nil in Hin.
  - destruct (sweep_ok ev evs [] ∅ []) as (x & Mb & Hx); [done|by intros q| |by eapply moves_below_final].
    split; [constructor|constructor|by intros ?? ?%elem_of_nil|].
    intros c q Hc Hm%total_move. destruct Hm.
    rewrite (filter_Forall_nil (before c)); [done|]. rewrite Hev.
    pose proof sorted_events_sorted as Hs. rewrite Hev in Hs. apply StronglySorted_inv in Hs as [_ Hs].
    constructor; [unfold before; lia|]. eapply Forall_impl; [exact Hs|]. unfold before. cbn. lia.
Qed.

End moves.
End closures.
