(* ===== verification/DfaCorrect.v ===== *)
(** * The subset construction is correct

    Reading a word, the constructed automaton is in the state whose set is
    exactly the NFA states the word reaches, and that state accepts the best
    label among them.  The worklist needs at most one round per set of NFA
    states. *)

From Stdlib Require Import ZArith Lia ZifyBool.
From stdpp Require Import base tactics list numbers option sets gmap sorting.
From S2P Require Import Prelude Utf8 SliceSort StateError Regex Nfa NfaPath NfaBuild Dfa DfaClosure.
Local Open Scope Z_scope.

Section subset.
Context `{SliceSort} (N : list nfaState) (Hwf : nfa_wf N).

(** ** Accepting *)

(** Lexicographic order on (priority, tie order, symbol). *)
Definition label_le (a b : Z * Z * Z) : Prop :=
  let '(sym, prio, tie) := a in
  let '(sym', prio', tie') := b in
  prio < prio' ∨ prio = prio' ∧ (tie < tie' ∨ tie = tie' ∧ sym ≤ sym').

(** The best label of the states in [S], if any of them accepts. *)
Definition best_label (S : Z → Prop) (acc prio : Z) : Prop :=
  (acc = 0 ∧ prio = maxInt ∧ ∀ p, S p → (label N p).1.1 ≤ 0)
  ∨ 0 < acc ∧ ∃ p tie, S p ∧ label N p = (acc, prio, tie) ∧
      ∀ p', S p' → 0 < (label N p').1.1 → label_le (acc, prio, tie) (label N p').

(** Go integers bound the priorities and positions. *)
Definition labels_bounded : Prop :=
  ∀ p, (label N p).1.2 ≤ maxInt ∧ (label N p).2 ≤ maxInt.

Lemma label_le_trans a b c : label_le a b → label_le b c → label_le a c.
Proof. destruct a as [[??]?], b as [[??]?], c as [[??]?]. unfold label_le. lia. Qed.

(** The loop over a set: what is best so far. *)
Definition best_so_far (seen : list Z) (best : Z * Z * Z) : Prop :=
  (best = (0, maxInt, maxInt) ∧ ∀ p, p ∈ seen → (label N p).1.1 ≤ 0)
  ∨ 0 < best.1.1 ∧ (∃ p, p ∈ seen ∧ label N p = best) ∧
    ∀ p, p ∈ seen → 0 < (label N p).1.1 → label_le best (label N p).

Lemma best_step done p st best :
  labels_bounded → zget N p = Some st → best_so_far done best → best_so_far (done ++ [p]) (better best st).
Proof.
  intros Hb Hp Hbest. specialize (Hb p).
  assert (label N p = (accept st, priority st, tieOrder st)) as Hl by (unfold label; by rewrite Hp).
  rewrite Hl in Hb. cbn [fst snd] in Hb. destruct best as [[acc prio] tie]. unfold better.
  destruct (Z.ltb_spec 0 (accept st)) as [Hacc|Hacc].
  - case_match eqn:E.
    + right. cbn [fst]. split; [done|]. split; [exists p; split; [set_solver|done]|].
      intros x [Hx| ->%list_elem_of_singleton]%elem_of_app Hpos; [|rewrite Hl; cbn; lia].
      destruct Hbest as [[_ Hnone]|(Hpos' & _ & Hmin)]; [specialize (Hnone x Hx); lia|].
      eapply label_le_trans; [|by apply Hmin]. cbn in *. lia.
    + destruct Hbest as [[[= -> -> ->] _]|(Hpos & (x & Hx & Hlx) & Hmin)]; [exfalso; lia|].
      right. split; [done|]. split; [exists x; split; [set_solver|done]|].
      intros y [Hy| ->%list_elem_of_singleton]%elem_of_app Hyp; [by apply Hmin|].
      rewrite Hl. cbn in *. lia.
  - destruct Hbest as [[Hz Hnone]|(Hpos & (x & Hx & Hlx) & Hmin)].
    + left. split; [done|]. intros y [Hy| ->%list_elem_of_singleton]%elem_of_app; [by apply Hnone|].
      by rewrite Hl.
    + right. split; [done|]. split; [exists x; split; [set_solver|done]|].
      intros y [Hy| ->%list_elem_of_singleton]%elem_of_app Hyp; [by apply Hmin|].
      rewrite Hl in Hyp. cbn in Hyp. lia.
Qed.

Lemma best_accept_spec S done best :
  labels_bounded → Forall (in_states N) S → best_so_far done best →
  ∃ best', best_accept N S best = Ret best' ∧ best_so_far (done ++ S) best'.
Proof.
  intros Hb HS. revert done best. induction HS as [|p S Hp HS IH]; intros done best Hbest; cbn.
  { exists best. by rewrite app_nil_r. }
  destruct (index_in_range N p Hp) as (st & -> & Hst). cbn.
  destruct (IH (done ++ [p]) (better best st)) as (b' & Hrun & Hb'); [by apply best_step|].
  exists b'. rewrite <-app_assoc in Hb'. done.
Qed.

Lemma best_accept_label S :
  labels_bounded → Forall (in_states N) S →
  ∃ acc prio tie, best_accept N S (0, maxInt, maxInt) = Ret (acc, prio, tie)
    ∧ best_label (λ p, p ∈ S) acc prio.
Proof.
  intros Hb HS. destruct (best_accept_spec S [] (0, maxInt, maxInt) Hb HS) as ([[acc prio] tie] & Hrun & Hbest).
  { left. split; [done|]. by intros p ?%elem_of_nil. }
  exists acc, prio, tie. split; [done|]. cbn in Hbest.
  destruct Hbest as [[[= -> -> ->] Hnone]|(Hpos & (p & Hp & Hl) & Hmin)]; [by left|].
  right. split; [done|]. exists p, tie. done.
Qed.

(** ** Invariant of the construction *)

(** A DFA state's set: increasing, closed under epsilon edges. *)
Definition set_ok (S : list Z) : Prop :=
  increasing S ∧ Forall (in_states N) S ∧ ∀ p q, p ∈ S → eps_reach N p q → q ∈ S.

Lemma closure_set_ok seeds S : closure_of N seeds S → set_ok S.
Proof.
  intros (Hinc & Hst & Hin). split_and!; [done..|]. intros p q Hp Hr.
  apply Hin in Hp as (s & Hs & Hsp). apply Hin. exists s. split; [done|].
  by apply (path_app _ _ [] p []).
Qed.

Lemma set_ok_ext S T : set_ok S → set_ok T → (∀ q, q ∈ S ↔ q ∈ T) → S = T.
Proof. intros (HS & _) (HT & _). by apply increasing_ext. Qed.

(** [T] is what [S] reaches by reading [c]. *)
Definition reads_to (S : list Z) (c : Z) (T : list Z) : Prop :=
  ∀ q, q ∈ T ↔ ∃ p, p ∈ S ∧ path (edges N) p [c] q.

Lemma path_rune_inv p c q :
  path (edges N) p [c] q ↔ ∃ x y, eps_reach N p x ∧ edges N x (Some c) y ∧ eps_reach N y q.
Proof.
  split.
  - intros Hp. remember [c] as w eqn:Hw. revert Hw. induction Hp as [|p l z w q HE Hp IH]; [done|].
    destruct l as [c'|]; cbn; intros Hw.
    + injection Hw as -> ->. exists p, z. split_and!; [constructor|done|done].
    + destruct (IH Hw) as (x & y & ? & ? & ?). exists x, y. split_and!; [|done..]. by eapply path_eps.
  - intros (x & y & Hx & HE & Hy). apply (path_app _ _ [] x [c]); [done|].
    apply (path_step _ _ (Some c) y []); [done|exact Hy].
Qed.

Lemma path_cons_inv p c w y :
  path (edges N) p (c :: w) y → ∃ x, path (edges N) p [c] x ∧ path (edges N) x w y.
Proof.
  intros Hp. remember (c :: w) as v eqn:Hv. revert Hv.
  induction Hp as [|p l z v y HE Hp IH]; [done|]. destruct l as [c'|]; cbn; intros Hv.
  - injection Hv as -> ->. exists z. split; [|done]. by apply (path_edge _ _ (Some c)).
  - destruct (IH Hv) as (x & ? & ?). exists x. split; [by eapply path_eps|done].
Qed.

(** Moving and closing is reading one rune. *)
Lemma closure_reads S c M T :
  set_ok S → target_set N S c M → closure_of N M T → reads_to S c T.
Proof.
  intros (_ & _ & Hcl) [_ HM] (_ & _ & HT) q. rewrite HT. split.
  - intros (y & (p & Hp & HE)%HM & Hr). exists p. split; [done|]. apply path_rune_inv.
    exists p, y. split_and!; [constructor|done|done].
  - intros (p & Hp & (x & y & Hx & HE & Hy)%path_rune_inv). exists y. split; [|done].
    apply HM. exists x. split; [by eapply Hcl|done].
Qed.

(** The transitions built from the moves [ms]. *)
Record trans_part (sets : list (list Z)) (S : list Z) (ms : list nfaRangeMove) (ts : list dfaTransition) : Prop := {
  tp_range : Forall (λ t, dlo t ≤ dhi t < 2 ^ 31 - 1 ∧ - 2 ^ 31 ≤ dlo t) ts;
  tp_sorted : StronglySorted (λ a b, dhi a < dlo b) ts;
  tp_next : ∀ t c, t ∈ ts → dlo t ≤ c ≤ dhi t → ∃ T, zget sets (dnext t) = Some T ∧ T ≠ [] ∧ reads_to S c T;
  tp_cover : ∀ m c, m ∈ ms → mlo m ≤ c ≤ mhi m → ∃ t, t ∈ ts ∧ dlo t ≤ c ≤ dhi t;
  tp_ends : ∀ t, t ∈ ts → ∃ m, m ∈ ms ∧ dhi t = mhi m }.

Lemma trans_part_prefix sets sets' S ms ts :
  sets `prefix_of` sets' → trans_part sets S ms ts → trans_part sets' S ms ts.
Proof.
  intros [k ->] [? ? Hn ? ?]. split; try done. intros t c Ht Hc.
  destruct (Hn t c Ht Hc) as (T & HT & ?). exists T. split; [|done].
  apply zget_Some_range in HT as Hr. rewrite zget_app_l; [done|lia].
Qed.

(** One more move. *)
Lemma trans_part_snoc sets S ms ts m target T :
  trans_part sets S ms ts → - 2 ^ 31 ≤ mlo m ≤ mhi m → mhi m < 2 ^ 31 - 1 →
  (∀ m', m' ∈ ms → mhi m' < mlo m) → zget sets target = Some T → T ≠ [] →
  (∀ c, mlo m ≤ c ≤ mhi m → reads_to S c T) →
  trans_part sets S (ms ++ [m]) (add_transition ts (mlo m) (mhi m) target).
Proof.
  intros [Hr Hs Hn Hc He] Hm Hm' Hlt HT Hne Hreads. unfold add_transition.
  assert (∀ t, t ∈ ts → dhi t < mlo m) as Hbelow.
  { intros t Ht. destruct (He t Ht) as (m' & Hin & ->). by apply Hlt. }
  assert (trans_part sets S (ms ++ [m]) (ts ++ [mkDfaTransition (mlo m) (mhi m) target])) as Hnew.
  { split.
    - apply Forall_app. split; [done|]. apply Forall_singleton. cbn. lia.
    - apply StronglySorted_app_2; [|done|by constructor; constructor].
      intros a b Ha ->%list_elem_of_singleton. by apply Hbelow.
    - intros t c [Ht| ->%list_elem_of_singleton]%elem_of_app Hin; [by apply Hn|]. cbn in *.
      exists T. auto.
    - intros m' c [Hm0| ->%list_elem_of_singleton]%elem_of_app Hin.
      + destruct (Hc m' c Hm0 Hin) as (t & ? & ?). exists t. set_solver.
      + eexists. split; [apply elem_of_app; right; apply list_elem_of_here|]. done.
    - intros t [Ht| ->%list_elem_of_singleton]%elem_of_app.
      + destruct (He t Ht) as (m' & ? & ?). exists m'. set_solver.
      + exists m. set_solver. }
  destruct (reverse ts) as [|last front] eqn:Hrev.
  { by rewrite <-(reverse_involutive ts), Hrev in Hnew. }
  case_match eqn:Hadj; [|done]. apply andb_true_iff in Hadj as [Hsame%Z.eqb_eq Hadj].
  assert (ts = reverse front ++ [last]) as Hts
    by (by rewrite <-(reverse_involutive ts), Hrev, reverse_cons).
  rewrite Hts in Hr, Hs, Hn, Hc, He, Hnew, Hbelow. clear Hts Hrev.
  set (fr := reverse front) in *. clearbody fr. clear front.
  apply Forall_app in Hr as [Hrf Hrl]. rewrite Forall_singleton in Hrl.
  apply StronglySorted_app in Hs as (Hcross & Hsf & _).
  rewrite i32_id in Hadj by lia. apply Z.eqb_eq in Hadj. split.
  - apply Forall_app. split; [done|]. apply Forall_singleton. cbn. lia.
  - apply StronglySorted_app_2; [|done|by constructor; constructor].
    intros a b Ha ->%list_elem_of_singleton. cbn. apply Hcross; [done|apply list_elem_of_here].
  - intros t c [Ht| ->%list_elem_of_singleton]%elem_of_app Hin; [apply Hn; [set_solver|done]|].
    cbn in *. rewrite Hsame. exists T. split_and!; [done..|].
    destruct (decide (c < mlo m)); [|apply Hreads; lia].
    destruct (Hn last c) as (T' & HT' & _ & HR); [set_solver|lia|]. rewrite Hsame, HT in HT'.
    by injection HT' as <-.
  - intros m' c Hm0 Hin. destruct (tp_cover _ _ _ _ Hnew m' c Hm0 Hin) as (t & Ht & Htc).
    assert (t ∈ fr ∨ t = last ∨ t = mkDfaTransition (mlo m) (mhi m) target) as Hcase by set_solver.
    destruct Hcase as [Hf|Hlast].
    + exists t. set_solver.
    + eexists. split; [apply elem_of_app; right; apply list_elem_of_here|]. cbn.
      destruct Hlast as [-> | ->]; cbn in *; lia.
  - intros t [Ht| ->%list_elem_of_singleton]%elem_of_app; [|exists m; set_solver].
    destruct (He t) as (m' & ? & ?); [set_solver|]. exists m'. set_solver.
Qed.

(** The states in order: those below [k] have their transitions, and the
    worklist holds those from [w] on. *)
Record sub_inv (k w : Z) (s : subset) : Prop := {
  si_scratch : scratch_ok (len N) (scratch s);
  si_len : len (stateSets s) = len (dfaStates s);
  si_sets : Forall set_ok (stateSets s);
  si_distinct : NoDup (stateSets s);
  si_map : ∀ h i, i ∈ default [] (stateMap s !! h) → 0 ≤ i < len (stateSets s);
  si_map_all : ∀ i S, zget (stateSets s) i = Some S → i ∈ default [] (stateMap s !! hashIntSlice S);
  si_cache : ∀ h T C, (T, C) ∈ default [] (closureCache s !! h) → closure_of N T C;
  si_accept : ∀ i S d, zget (stateSets s) i = Some S → zget (dfaStates s) i = Some d →
    best_label (λ p, p ∈ S) (daccept d) (dacceptPriority d);
  si_bounds : 0 ≤ k ≤ w ∧ w ≤ len (stateSets s);
  si_work : worklist s = imap (λ j S, (w + Z.of_nat j, S)) (drop (Z.to_nat w) (stateSets s));
  si_fresh : ∀ i d, w ≤ i → zget (dfaStates s) i = Some d → dtransitions d = [];
  si_done : ∀ i S d, i < k → zget (stateSets s) i = Some S → zget (dfaStates s) i = Some d →
    ∃ ms, moves_of N S ms ∧ trans_part (stateSets s) S ms (dtransitions d) }.

Lemma find_state_spec sets chain S :
  (∀ i, i ∈ chain → 0 ≤ i < len sets) →
  ∃ r, find_state sets chain S = Ret r ∧
    match r with
    | Some i => zget sets i = Some S
    | None => ∀ i, i ∈ chain → zget sets i ≠ Some S
    end.
Proof.
  induction chain as [|i chain IH]; intros Hc; cbn.
  { exists None. split; [done|]. by intros i ?%elem_of_nil. }
  destruct (index_in_range sets i) as (T & -> & HT); [apply Hc; left|]. cbn. unfold sameIntSlice.
  case_bool_decide as Heq; [exists (Some i); by subst|].
  destruct IH as (r & Hr & Hspec); [intros; apply Hc; by right|]. exists r. split; [done|].
  destruct r; [done|]. intros j [->|Hj]%elem_of_cons; [congruence|by apply Hspec].
Qed.

(** Adding a set: found, or appended with its accept label. *)
Lemma addDFAState_inv k w s S :
  labels_bounded → sub_inv k w s → set_ok S →
  ∃ id s', addDFAState N S s = Ret (id, s') ∧ sub_inv k w s' ∧ zget (stateSets s') id = Some S
    ∧ stateSets s `prefix_of` stateSets s' ∧ dfaStates s `prefix_of` dfaStates s'.
Proof.
  intros Hlab Inv HS. unfold addDFAState. set (h := hashIntSlice S).
  set (chain := default [] (stateMap s !! h)).
  destruct (find_state_spec (stateSets s) chain S (si_map _ _ _ Inv h)) as (r & -> & Hr). cbn [mbind go_bind].
  destruct r as [i|]; [by exists i, s|].
  destruct (best_accept_label S Hlab) as (acc & prio & tie & -> & Hbest); [apply HS|]. cbn [mbind go_bind].
  eexists _, _. split; [done|]. cbn [stateSets dfaStates].
  destruct (Inv) as [Isc Il Is Id Im Ima Ic Ia Ib Iw If Idn].
  split_and!; [|rewrite <-Il; apply zget_last|by exists [S]|by eexists [_]].
  assert (∀ i, zget (stateSets s) i ≠ Some S) as Hnew.
  { intros i Hi. pose proof (Ima i S Hi) as Hin. by eapply Hr. }
  split; cbn [scratch stateSets dfaStates stateMap closureCache worklist]; try done.
  - rewrite !len_app, Il. done.
  - apply Forall_app. split; [done|]. by apply Forall_singleton.
  - apply NoDup_app. split_and!; [done| |apply NoDup_singleton]. intros T HT ->%list_elem_of_singleton.
    apply elem_zget in HT as (i & _ & Hi). by eapply Hnew.
  - intros h' i. rewrite len_app. change (len [S]) with 1. destruct (decide (h = h')) as [<-|Hh].
    + rewrite lookup_insert_eq. cbn. intros [->|Hi]%elem_of_cons.
      * pose proof (len_nonneg (dfaStates s)). lia.
      * apply Im in Hi. lia.
    + rewrite lookup_insert_ne by done. intros Hi%Im. lia.
  - intros i T [HT|[-> ->]]%zget_snoc.
    + apply Ima in HT. destruct (decide (h = hashIntSlice T)) as [Hh|Hh].
      * rewrite <-Hh, lookup_insert_eq. cbn. right. unfold chain. by rewrite Hh.
      * by rewrite lookup_insert_ne.
    + fold h. rewrite lookup_insert_eq, Il. cbn. left.
  - intros i T d [HT|[-> ->]]%zget_snoc [Hd|[Hi ->]]%zget_snoc.
    + by eapply Ia.
    + apply zget_Some_range in HT. lia.
    + apply zget_Some_range in Hd. lia.
    + done.
  - rewrite len_app. change (len [S]) with 1. lia.
  - rewrite drop_snoc by (unfold len in *; lia). rewrite imap_app, Iw. f_equal. cbn.
    do 2 f_equal. rewrite length_drop, <-Il. unfold len in *. lia.
  - intros i d Hi [Hd|[_ ->]]%zget_snoc; [by eapply If|done].
  - intros i T d Hi [HT|[-> ->]]%zget_snoc Hd.
    + apply zget_snoc in Hd as [Hd|[-> _]]; [|apply zget_Some_range in HT; lia].
      destruct (Idn i T d Hi HT Hd) as (ms & ? & ?). exists ms. split; [done|].
      eapply trans_part_prefix; [|done]. by eexists.
    + lia.
Qed.

Lemma find_closure_spec chain T C : find_closure chain T = Some C → (T, C) ∈ chain.
Proof.
  unfold find_closure. destruct (filter _ chain) as [|[T' C'] l] eqn:E; cbn; [done|]. intros [= <-].
  assert ((T', C') ∈ filter (λ e, sameIntSlice e.1 T = true) chain) as Hin by (rewrite E; left).
  apply list_elem_of_filter in Hin as [Heq%bool_decide_eq_true ?]. cbn in Heq. by subst.
Qed.

Lemma closureForTargets_inv k w s T :
  sub_inv k w s → Forall (in_states N) T →
  ∃ C s', closureForTargets N T s = Ret (C, s') ∧ sub_inv k w s' ∧ closure_of N T C
    ∧ stateSets s' = stateSets s ∧ dfaStates s' = dfaStates s.
Proof.
  intros Inv HT. unfold closureForTargets. set (h := hashIntSlice T).
  destruct (find_closure _ T) as [C|] eqn:Hf.
  { exists C, s. split_and!; try done. apply find_closure_spec in Hf. by eapply si_cache. }
  destruct (epsilonClosure_exact N Hwf (scratch s) T) as (C & scr & -> & Hscr & HC); [apply Inv|done|].
  cbn [mbind go_bind]. eexists _, _. split_and!; [done| |done..].
  destruct Inv as [Isc Il Is Id Im Ima Ic Ia Ib Iw If Idn].
  split; cbn [scratch stateSets dfaStates stateMap closureCache worklist]; try done.
  intros h' T' C'. destruct (decide (h = h')) as [<-|Hh].
  - rewrite lookup_insert_eq. cbn. intros [[= -> ->]|Hin]%elem_of_cons; [done|by eapply Ic].
  - rewrite lookup_insert_ne by done. by apply Ic.
Qed.

Lemma set_transitions_inv k s d f :
  sub_inv k (k + 1) s → zget (dfaStates s) k = Some d →
  ∃ ds d', set_transitions (dfaStates s) k f = Ret ds ∧ sub_inv k (k + 1) (with_dfa s ds)
    ∧ zget ds k = Some d' ∧ dtransitions d' = f (dtransitions d).
Proof.
  intros Inv Hd. pose proof (zget_Some_range _ _ _ Hd) as Hr. unfold set_transitions.
  rewrite (proj2 (index_Ret _ _ _) Hd). cbn [mbind go_bind]. rewrite store_ok by done.
  eexists _, _. split_and!; [done| |by apply zget_insert_eq|done].
  destruct Inv as [Isc Il Is Id Im Ima Ic Ia Ib Iw If Idn].
  assert (∀ i e d', zget (<[Z.to_nat k := d']> (dfaStates s)) i = Some e →
    i = k ∧ e = d' ∨ i ≠ k ∧ zget (dfaStates s) i = Some e) as Hcase.
  { intros i e d' He. destruct (decide (i = k)) as [->|Hne].
    - left. rewrite zget_insert_eq in He by done. by injection He.
    - right. by rewrite zget_insert_ne in He by lia. }
  split; cbn [with_dfa scratch stateSets dfaStates stateMap closureCache worklist]; try done.
  - by rewrite len_insert.
  - intros i S e HS [[-> ->]|[_ He]]%Hcase; cbn; by eapply Ia.
  - intros i e Hi [[-> ->]|[_ He]]%Hcase; [lia|by eapply If].
  - intros i S e Hi HS [[-> ->]|[_ He]]%Hcase; [lia|by eapply Idn].
Qed.

Lemma target_states S c M : target_set N S c M → Forall (in_states N) M.
Proof.
  intros [_ HM]. apply list.Forall_forall. intros q Hq.
  apply HM in Hq as (p & _ & st & t & Hst & Ht & <- & _). by apply (Hwf p st t).
Qed.

Lemma closure_ne M C : closure_of N M C → M ≠ [] → C ≠ [].
Proof.
  intros (_ & _ & HC) HM ->. destruct M as [|q M]; [done|].
  assert (q ∈ @nil Z) as ?%elem_of_nil; [|done]. apply HC. exists q. split; [left|constructor].
Qed.

Lemma move_loop_inv k S moves ms s d :
  labels_bounded → set_ok S → moves_of N S (ms ++ moves) → sub_inv k (k + 1) s →
  zget (dfaStates s) k = Some d → trans_part (stateSets s) S ms (dtransitions d) →
  ∃ s' d', move_loop N k moves s = Ret s' ∧ sub_inv k (k + 1) s' ∧ stateSets s `prefix_of` stateSets s'
    ∧ zget (dfaStates s') k = Some d' ∧ trans_part (stateSets s') S (ms ++ moves) (dtransitions d').
Proof.
  intros Hlab HS. revert ms s d. induction moves as [|m moves IH]; intros ms s d Hmv Inv Hd Htp; cbn [move_loop].
  { exists s, d. rewrite app_nil_r. done. }
  assert (m ∈ ms ++ m :: moves) as Hm by set_solver.
  pose proof (mv_range _ _ _ Hmv) as Hrange. rewrite list.Forall_forall in Hrange. specialize (Hrange m Hm).
  destruct (mv_targets _ _ _ Hmv m (mlo m) Hm) as [Hts Hne]; [lia|].
  destruct (closureForTargets_inv k (k + 1) s (mtargets m) Inv) as (C & s1 & -> & Inv1 & HC & Hsets1 & Hdfa1);
    [by eapply target_states|]. cbn [mbind go_bind].
  rewrite bool_decide_false by (by eapply closure_ne).
  destruct (addDFAState_inv k (k + 1) s1 C Hlab Inv1) as (id & s2 & -> & Inv2 & Hid & Hpre & Hdpre);
    [by eapply closure_set_ok|]. cbn [mbind go_bind]. rewrite Hsets1, Hdfa1 in *.
  assert (zget (dfaStates s2) k = Some d) as Hd2.
  { destruct Hdpre as [l ->]. rewrite zget_app_l; [done|]. by apply zget_Some_range in Hd as []. }
  destruct (set_transitions_inv k s2 d (λ ts, add_transition ts (mlo m) (mhi m) id) Inv2 Hd2)
    as (ds & d' & -> & Inv3 & Hd' & Htr). cbn [mbind go_bind].
  rewrite (cons_middle m ms moves), app_assoc in Hmv |- *.
  destruct (IH (ms ++ [m]) (with_dfa s2 ds) d') as (s' & d'' & Hrun & Inv' & Hpre' & Hd'' & Htp'); try done.
  - rewrite Htr. cbn [with_dfa stateSets]. apply (trans_part_snoc _ _ _ _ _ _ C); [|lia|lia| |done|by eapply closure_ne|].
    + by eapply trans_part_prefix.
    + intros m' Hm'. pose proof (mv_sorted _ _ _ Hmv) as Hsort. rewrite <-app_assoc in Hsort.
      apply StronglySorted_app in Hsort as (Hcross & _). apply Hcross; [done|left].
    + intros c Hc. eapply closure_reads; [done| |done].
      eapply (mv_targets _ _ _ Hmv); [set_solver|done].
  - exists s', d''. split_and!; try done. etrans; [exact Hpre|done].
Qed.

(** The next state of the worklist is done. *)
Lemma finish_state k s S d ms :
  sub_inv k (k + 1) s → zget (stateSets s) k = Some S → zget (dfaStates s) k = Some d →
  moves_of N S ms → trans_part (stateSets s) S ms (dtransitions d) → sub_inv (k + 1) (k + 1) s.
Proof.
  intros Inv HS Hd Hmv Htp. destruct Inv as [Isc Il Is Id Im Ima Ic Ia Ib Iw If Idn].
  split; try done; [lia|]. intros i T e Hi HT He. destruct (decide (i = k)) as [->|].
  - simplify_eq. by exists ms.
  - apply (Idn i T e); [lia|done..].
Qed.

Lemma worklist_cons k s id S rest :
  sub_inv k k s → worklist s = (id, S) :: rest →
  id = k ∧ zget (stateSets s) k = Some S ∧
  sub_inv k (k + 1) (mkSubset (stateMap s) (closureCache s) (stateSets s) (dfaStates s) rest (scratch s)).
Proof.
  intros Inv Hw. destruct (Inv) as [Isc Il Is Id Im Ima Ic Ia Ib Iw If Idn].
  rewrite Iw in Hw. destruct (drop (Z.to_nat k) (stateSets s)) as [|S' l] eqn:Hdrop; [done|].
  cbn in Hw. injection Hw as Hid -> Hrest.
  assert (stateSets s !! Z.to_nat k = Some S) as Hk.
  { rewrite <-(Nat.add_0_r (Z.to_nat k)), <-lookup_drop, Hdrop. done. }
  assert (zget (stateSets s) k = Some S) as HS by (unfold zget; case_match; [done|lia]).
  pose proof (zget_Some_range _ _ _ HS). split_and!; [lia|done|].
  split; cbn [scratch stateSets dfaStates stateMap closureCache worklist]; try done.
  - lia.
  - rewrite <-Hrest. replace (Z.to_nat (k + 1)) with (Z.to_nat k + 1)%nat by lia.
    rewrite <-drop_drop, Hdrop. cbn. apply imap_ext. intros j T _. cbn. f_equal. lia.
  - intros i d Hi. apply If. lia.
Qed.

(** ** Termination *)

Lemma set_in_sublists S : set_ok S → S ∈ sublists (seqZ 0 (len N)).
Proof.
  intros (Hinc & Hst & _). rewrite list.Forall_forall in Hst.
  rewrite (increasing_ext S (filter (λ q, q ∈ S) (seqZ 0 (len N)))); [apply filter_sublists|done|..].
  - apply filter_StronglySorted, increasing_seqZ.
  - intros q. rewrite list_elem_of_filter, elem_of_seqZ. split; [|naive_solver].
    intros Hq. split; [done|]. specialize (Hst q Hq). unfold in_states in Hst. lia.
Qed.

Lemma sets_bound k w s : sub_inv k w s → (length (stateSets s) ≤ 2 ^ length N)%nat.
Proof.
  intros Inv. replace (length N) with (length (seqZ 0 (len N))) by (rewrite length_seqZ; unfold len; lia).
  rewrite <-length_sublists. apply submseteq_length, NoDup_submseteq; [apply Inv|].
  intros S HS. apply set_in_sublists. pose proof (si_sets _ _ _ Inv) as Hs.
  rewrite list.Forall_forall in Hs. by apply Hs.
Qed.

Lemma trans_part_nil sets S : trans_part sets S [] [].
Proof.
  split; [constructor|constructor|by intros ?? ?%elem_of_nil|by intros ?? ?%elem_of_nil
    |by intros ? ?%elem_of_nil].
Qed.

Lemma expand_state_inv k S s d :
  labels_bounded → sub_inv k (k + 1) s → zget (stateSets s) k = Some S →
  zget (dfaStates s) k = Some d → dtransitions d = [] →
  ∃ s', expand_state N k S s = Ret s' ∧ sub_inv (k + 1) (k + 1) s' ∧ stateSets s `prefix_of` stateSets s'.
Proof.
  intros Hlab Inv HS Hd Hfresh. assert (set_ok S) as HSok by (eapply Forall_zget; [apply Inv|done]).
  unfold expand_state.
  destruct (collectTransitionMoves_exact N Hwf S) as (ms & -> & Hms); [apply HSok|]. cbn [mbind go_bind].
  assert (∃ ds d', (if bool_decide (ms = []) then Ret (dfaStates s)
      else set_transitions (dfaStates s) k (λ _, [])) = Ret ds
    ∧ sub_inv k (k + 1) (with_dfa s ds) ∧ zget ds k = Some d' ∧ dtransitions d' = []) as
    (ds & d' & -> & Inv2 & Hd' & Hnil).
  { case_bool_decide; [|by apply (set_transitions_inv k s d (λ _, []))].
    exists (dfaStates s), d. by destruct s. }
  cbn [mbind go_bind].
  destruct (move_loop_inv k S ms [] (with_dfa s ds) d') as (s3 & d3 & Hrun & Inv3 & Hpre & Hd3 & Htp3);
    try done; [rewrite Hnil; apply trans_part_nil|].
  exists s3. split_and!; [done| |done]. eapply finish_state; [done| |done..].
  destruct Hpre as [l Hl]. cbn in Hl. rewrite Hl, zget_app_l; [done|]. by apply zget_Some_range in HS as [].
Qed.

Lemma worklist_nil k s : sub_inv k k s → worklist s = [] → k = len (stateSets s).
Proof.
  intros Inv Hw. pose proof (si_work _ _ _ Inv) as Hwk. rewrite Hw in Hwk.
  pose proof (si_bounds _ _ _ Inv). apply (f_equal length) in Hwk.
  rewrite length_imap, length_drop in Hwk. unfold len in *. cbn in Hwk. lia.
Qed.

Lemma work_loop_inv fuel cancelled iter k s :
  labels_bounded → sub_inv k k s → (2 ^ length N ≤ fuel + Z.to_nat k)%nat →
  (∃ i n, cancelled i = true ∧ work_loop fuel cancelled N iter s = Ret (inl (SubsetCancelled n)))
  ∨ ∃ s', work_loop fuel cancelled N iter s = Ret (inr (dfaStates s'))
      ∧ sub_inv (len (stateSets s')) (len (stateSets s')) s' ∧ stateSets s `prefix_of` stateSets s'.
Proof.
  intros Hlab. revert iter k s. induction fuel as [|fuel IH]; intros iter k s Inv Hfuel.
  all: destruct (worklist s) as [|[id S] rest] eqn:Hw.
  1,3: right; exists s; unfold work_loop; rewrite Hw; rewrite <-(worklist_nil k s) by done; by split_and!.
  all: destruct (worklist_cons _ _ _ _ _ Inv Hw) as (-> & HS & Inv1).
  all: pose proof (zget_Some_range _ _ _ HS) as Hk.
  - pose proof (sets_bound _ _ _ Inv). unfold len in Hk. lia.
  - cbn [work_loop]. rewrite Hw. case_match eqn:Hc.
    { left. apply andb_true_iff in Hc as [_ Hc]. by eexists _, _. }
    destruct (zget_in_range (dfaStates s) k) as [d Hd]; [by rewrite <-(si_len _ _ _ Inv)|].
    destruct (expand_state_inv k S _ d Hlab Inv1 HS Hd) as (s3 & -> & Inv3 & Hpre3).
    { by eapply (si_fresh _ _ _ Inv k). }
    cbn [mbind go_bind].
    destruct (IH (iter + 1) (k + 1) s3) as [Hcan|(s4 & Hrun & Inv4 & Hpre4)]; [done|lia|by left|].
    right. exists s4. split_and!; try done. etrans; [exact Hpre3|done].
Qed.

(** ** The automaton *)

(** The state reached by a rune: the first transition whose range has it. *)
Definition dfa_next (ds : list dfaState) (q c : Z) : option Z :=
  d ← zget ds q;
  t ← head (filter (λ t, dlo t ≤ c ≤ dhi t) (dtransitions d));
  Some (dnext t).

Fixpoint dfa_run (ds : list dfaState) (q : Z) (w : list Z) : option Z :=
  match w with
  | [] => Some q
  | c :: w => q ← dfa_next ds q c; dfa_run ds q w
  end.

(** Every state is done: one step follows the sets. *)
Lemma dfa_next_spec s q S c :
  sub_inv (len (stateSets s)) (len (stateSets s)) s → zget (stateSets s) q = Some S →
  match dfa_next (dfaStates s) q c with
  | Some q' => ∃ T, zget (stateSets s) q' = Some T ∧ T ≠ [] ∧ reads_to S c T
  | None => ∀ p q', p ∈ S → ¬ path (edges N) p [c] q'
  end.
Proof.
  intros Inv HS. pose proof (zget_Some_range _ _ _ HS) as Hq.
  destruct (zget_in_range (dfaStates s) q) as [d Hd]; [by rewrite <-(si_len _ _ _ Inv)|].
  destruct (si_done _ _ _ Inv q S d) as (ms & Hms & Htp); [lia|done..|].
  unfold dfa_next. rewrite Hd. cbn [mbind option_bind].
  destruct (filter _ (dtransitions d)) as [|t ts] eqn:Hf; cbn [head mbind option_bind].
  - intros p q' Hp (x & y & Hx & HE & _)%path_rune_inv.
    assert (set_ok S) as (_ & _ & Hcl) by (eapply Forall_zget; [apply Inv|done]).
    destruct (mv_cover _ _ _ Hms c y) as (m & Hm & Hmc); [exists x; split; [by eapply Hcl|done]|].
    destruct (tp_cover _ _ _ _ Htp m c Hm Hmc) as (t & Ht & Htc).
    assert (t ∈ @nil dfaTransition) as ?%elem_of_nil; [|done].
    rewrite <-Hf. by apply list_elem_of_filter.
  - assert (t ∈ filter (λ t, dlo t ≤ c ≤ dhi t) (dtransitions d)) as Ht by (rewrite Hf; left).
    apply list_elem_of_filter in Ht as [Htc Ht]. by apply (tp_next _ _ _ _ Htp).
Qed.

(** Reading a word keeps the set of NFA states reached. *)
Lemma dfa_run_spec s q S w :
  sub_inv (len (stateSets s)) (len (stateSets s)) s → zget (stateSets s) q = Some S → S ≠ [] →
  match dfa_run (dfaStates s) q w with
  | Some q' => ∃ T, zget (stateSets s) q' = Some T ∧ T ≠ [] ∧
      ∀ y, y ∈ T ↔ ∃ p, p ∈ S ∧ path (edges N) p w y
  | None => ∀ p y, p ∈ S → ¬ path (edges N) p w y
  end.
Proof.
  intros Inv. revert q S. induction w as [|c w IH]; intros q S HS Hne; cbn [dfa_run].
  { exists S. split_and!; [done..|]. intros y. assert (set_ok S) as (_ & _ & Hcl)
      by (eapply Forall_zget; [apply Inv|done]). split; [|intros (p & Hp & Hr); by eapply Hcl].
    intros Hy. exists y. split; [done|constructor]. }
  assert (∀ p y, path (edges N) p (c :: w) y ↔ ∃ x, path (edges N) p [c] x ∧ path (edges N) x w y) as Hsplit.
  { intros p y. split; [|intros (x & H1 & H2); by apply (path_app _ _ [c] x)]. apply path_cons_inv. }
  pose proof (dfa_next_spec s q S c Inv HS) as Hstep. destruct (dfa_next (dfaStates s) q c) as [q1|].
  - destruct Hstep as (T & HT & HTne & Hreads). cbn [mbind option_bind]. specialize (IH q1 T HT HTne).
    destruct (dfa_run (dfaStates s) q1 w) as [q2|].
    + destruct IH as (U & HU & HUne & Hin). exists U. split_and!; [done..|]. intros y. rewrite Hin.
      split.
      * intros (x & (p & Hp & Hpx)%Hreads & Hxy). exists p. split; [done|]. apply Hsplit. eauto.
      * intros (p & Hp & (x & Hpx & Hxy)%Hsplit). exists x. split; [apply Hreads; eauto|done].
    + intros p y Hp (x & Hpx & Hxy)%Hsplit. eapply (IH x y); [apply Hreads; eauto|done].
  - intros p y Hp (x & Hpx & _)%Hsplit. by eapply Hstep.
Qed.

Lemma best_label_ext (S T : Z → Prop) acc prio :
  (∀ p, S p ↔ T p) → best_label S acc prio → best_label T acc prio.
Proof. unfold best_label. intros HST. by setoid_rewrite HST. Qed.

(** The invariant holds of the empty construction. *)
Lemma sub_inv_start scr : scratch_ok (len N) scr → sub_inv 0 0 (mkSubset ∅ ∅ [] [] [] scr).
Proof.
  intros Hscr. split; cbn [scratch stateSets dfaStates stateMap closureCache worklist]; try done.
  - constructor.
  - intros h i. rewrite lookup_empty. by intros ?%elem_of_nil.
  - intros i S. by rewrite zget_nil.
  - intros h T C. rewrite lookup_empty. by intros ?%elem_of_nil.
  - intros i S d. by rewrite zget_nil.
  - intros i d _. by rewrite zget_nil.
  - intros i S d _. by rewrite zget_nil.
Qed.

Lemma addDFAState_first S scr id s :
  addDFAState N S (mkSubset ∅ ∅ [] [] [] scr) = Ret (id, s) → id = 0.
Proof.
  unfold addDFAState. cbn [stateMap stateSets dfaStates]. rewrite lookup_empty. cbn.
  destruct (best_accept N S _) as [[[? ?] ?]| |]; cbn; [|done..]. by intros [= <- _].
Qed.

(** A well-formed automaton: ranges that are not empty, in order, apart, and
    targets that are states. *)
Definition dfa_wf (ds : list dfaState) : Prop := ∀ q d, zget ds q = Some d →
  StronglySorted (λ a b, dhi a < dlo b) (dtransitions d) ∧
  Forall (λ t, dlo t ≤ dhi t < 2 ^ 31 - 1 ∧ - 2 ^ 31 ≤ dlo t ∧ 0 ≤ dnext t < len ds) (dtransitions d) ∧
  0 ≤ daccept d.

Lemma sub_inv_wf s : sub_inv (len (stateSets s)) (len (stateSets s)) s → dfa_wf (dfaStates s).
Proof.
  intros Inv q d Hd. pose proof (zget_Some_range _ _ _ Hd) as Hq. rewrite <-(si_len _ _ _ Inv) in Hq.
  destruct (zget_in_range (stateSets s) q Hq) as [S HS].
  destruct (si_done _ _ _ Inv q S d) as (ms & _ & Htp); [lia|done..|]. split_and!.
  - apply Htp.
  - pose proof (tp_range _ _ _ _ Htp) as Hr. rewrite list.Forall_forall in Hr |- *. intros t Ht.
    specialize (Hr t Ht). destruct (tp_next _ _ _ _ Htp t (dlo t) Ht) as (T & HT & _); [lia|].
    apply zget_Some_range in HT. rewrite <-(si_len _ _ _ Inv). lia.
  - destruct (si_accept _ _ _ Inv q S d HS Hd) as [(-> & _)|[? _]]; lia.
Qed.

(** The work list runs to its end, unless it is cancelled; then every state of
    the automaton has a set, the first one the closure of the start. *)
Lemma subset_runs fuel cancelled start :
  labels_bounded → 0 ≤ start < len N → (2 ^ length N ≤ fuel)%nat →
  (∃ i n, cancelled i = true ∧
     subsetConstruction fuel cancelled (mkNfa N start) = Ret (inl (SubsetCancelled n)))
  ∨ ∃ s S, subsetConstruction fuel cancelled (mkNfa N start) = Ret (inr (dfaStates s)) ∧
    sub_inv (len (stateSets s)) (len (stateSets s)) s ∧ zget (stateSets s) 0 = Some S ∧
    closure_of N [start] S.
Proof.
  intros Hlab Hstart Hfuel. unfold subsetConstruction. cbn [nfaStates nfaStart].
  destruct (epsilonClosure_exact N Hwf (newDFASubsetScratch (len N)) [start]) as (S & scr & -> & Hscr & HS).
  { apply scratch_ok_new, len_nonneg. } { by apply Forall_singleton. }
  cbn [mbind go_bind].
  destruct (addDFAState_inv 0 0 _ S Hlab (sub_inv_start scr Hscr)) as (id & s & Hadd & Inv & Hid & _);
    [by eapply closure_set_ok|]. rewrite Hadd. cbn [mbind go_bind]. apply addDFAState_first in Hadd as ->.
  destruct (work_loop_inv fuel cancelled 0 0 s Hlab Inv) as [Hc|(s' & Hrun & Inv' & l & Hpre)];
    [lia|by left|right]. exists s', S. split_and!; [done..| |done].
  rewrite Hpre, zget_app_l; [done|]. by apply zget_Some_range in Hid as [].
Qed.

(** The sets are the states that words reach. *)
Lemma run_reaches s S start w :
  sub_inv (len (stateSets s)) (len (stateSets s)) s → zget (stateSets s) 0 = Some S → closure_of N [start] S →
  match dfa_run (dfaStates s) 0 w with
  | Some q => ∃ T, zget (stateSets s) q = Some T ∧ T ≠ [] ∧ ∀ y, y ∈ T ↔ path (edges N) start w y
  | None => ∀ y, ¬ path (edges N) start w y
  end.
Proof.
  intros Inv HS0 HS.
  assert (∀ y, path (edges N) start w y ↔ ∃ p, p ∈ S ∧ path (edges N) p w y) as Hreach.
  { destruct HS as (_ & _ & Hin). intros y. split.
    - intros Hp. exists start. split; [|done]. apply Hin. exists start. split; [left|constructor].
    - intros (p & (x & ->%list_elem_of_singleton & Hsp)%Hin & Hp). by apply (path_app _ _ [] p w). }
  assert (S ≠ []) as Hne by (by eapply closure_ne).
  pose proof (dfa_run_spec s 0 S w Inv HS0 Hne) as Hrs. destruct (dfa_run (dfaStates s) 0 w) as [q|].
  - destruct Hrs as (T & HT & HTne & Hin). exists T. split_and!; [done..|]. intros y. by rewrite Hin, Hreach.
  - intros y (p & Hp & Hpy)%Hreach. by eapply Hrs.
Qed.

Lemma subset_outcome fuel cancelled start :
  labels_bounded → 0 ≤ start < len N → (2 ^ length N ≤ fuel)%nat →
  (∃ i n, cancelled i = true ∧
     subsetConstruction fuel cancelled (mkNfa N start) = Ret (inl (SubsetCancelled n)))
  ∨ ∃ ds, subsetConstruction fuel cancelled (mkNfa N start) = Ret (inr ds) ∧
    dfa_wf ds ∧ 0 < len ds ∧ (∀ w, dfa_run ds 0 w = Some 0 → path (edges N) start w start) ∧
    ∀ w, match dfa_run ds 0 w with
         | Some q => ∃ d, zget ds q = Some d ∧ (∃ y, path (edges N) start w y) ∧
             best_label (path (edges N) start w) (daccept d) (dacceptPriority d)
         | None => ∀ y, ¬ path (edges N) start w y
         end.
Proof.
  intros Hlab Hstart Hfuel.
  destruct (subset_runs fuel cancelled start Hlab Hstart Hfuel) as [?|(s & S & Hrun & Inv & HS0 & HS)]; [by left|right].
  pose proof (λ w, run_reaches s S start w Inv HS0 HS) as Hw.
  exists (dfaStates s). split; [done|]. split; [by apply sub_inv_wf|]. split_and!.
  - apply zget_Some_range in HS0. rewrite <-(si_len _ _ _ Inv). lia.
  - intros w E. pose proof (Hw w) as H1. rewrite E in H1. destruct H1 as (T & HT & _ & Hin).
    pose proof (Hw []) as H2. cbn [dfa_run] in H2. destruct H2 as (T' & HT' & _ & Hin').
    apply Hin. assert (T = T') as -> by congruence. apply Hin'. constructor.
  - intros w. specialize (Hw w). destruct (dfa_run (dfaStates s) 0 w) as [q|]; [|done].
    destruct Hw as (T & HT & HTne & Hin). pose proof (zget_Some_range _ _ _ HT) as Hq.
    destruct (zget_in_range (dfaStates s) q) as [d Hd]; [by rewrite <-(si_len _ _ _ Inv)|].
    exists d. split_and!; [done| |].
    + destruct T as [|y T]; [done|]. exists y. apply Hin. left.
    + eapply best_label_ext; [|by eapply (si_accept _ _ _ Inv)]. intros y. cbn. by rewrite Hin.
Qed.

End subset.

(** C18.  From a well-formed NFA, with one round of fuel for every set of states, the
    construction returns an automaton, unless the context is cancelled.  After
    any word the automaton is in a state exactly when the NFA reaches one, and
    it accepts there the best label reached: lowest priority number, then
    lowest tie order, then lowest symbol.  The ranges of a state are not empty,
    in order and apart, and its targets are states. *)
Theorem subsetConstruction_exact `{SliceSort} fuel cancelled N start :
  nfa_wf N → labels_bounded N → 0 ≤ start < len N → (2 ^ length N ≤ fuel)%nat →
  (∃ i n, cancelled i = true ∧
     subsetConstruction fuel cancelled (mkNfa N start) = Ret (inl (SubsetCancelled n)))
  ∨ ∃ ds, subsetConstruction fuel cancelled (mkNfa N start) = Ret (inr ds) ∧ dfa_wf ds ∧
    ∀ w, match dfa_run ds 0 w with
         | Some q => ∃ d, zget ds q = Some d ∧ (∃ y, path (edges N) start w y) ∧
             best_label N (path (edges N) start w) (daccept d) (dacceptPriority d)
         | None => ∀ y, ¬ path (edges N) start w y
         end.
Proof.
  intros Hwf Hlab Hs Hf.
  destruct (subset_outcome N Hwf fuel cancelled start Hlab Hs Hf) as [?|(ds & Hds & Hdw & _ & _ & Hw)]; [by left|].
  right. exists ds. done.
Qed.

(** An NFA for [a] and [a|b], the second with the better priority. *)
Definition sample_nfa : list nfaState :=
  [mkNfaState [mkNfaTransition 0 0 true 1; mkNfaTransition 97 98 false 2] 0 0 0;
   mkNfaState [mkNfaTransition 97 97 false 3] 0 0 0;
   mkNfaState [] 7 1 0; mkNfaState [] 8 2 1].

Lemma sample_nfa_wf : nfa_wf sample_nfa.
Proof.
  intros p st t E%zget_elem Ht. unfold sample_nfa in E. set_unfold.
  unfold trans_wf. change (len sample_nfa) with 4. destruct_or! E; subst st; cbn in Ht; set_unfold;
    destruct_or? Ht; subst; try done; cbn [tlo thi tepsilon tnext]; unfold MaxRune; split; lia || done.
Qed.

Lemma sample_nfa_bounded : labels_bounded sample_nfa.
Proof.
  intros p. unfold label, sample_nfa.
  destruct (zget _ p) as [st|] eqn:E; [|unfold maxInt; cbn [fst snd]; lia].
  apply zget_elem in E. set_unfold. unfold maxInt. destruct_or! E; subst st; cbn [fst snd accept priority tieOrder]; lia.
Qed.

Lemma subsetConstruction_exact_witness :
  nfa_wf sample_nfa ∧ labels_bounded sample_nfa ∧
  ∃ ds, subsetConstruction 16 (λ _, false) (mkNfa sample_nfa 0) = Ret (inr ds) ∧
    ∀ y, ¬ path (edges sample_nfa) 0 [99] y.
Proof.
  split; [apply sample_nfa_wf|]. split; [apply sample_nfa_bounded|].
  destruct (subsetConstruction_exact 16 (λ _, false) sample_nfa 0) as [(? & ? & [=] & _)|(ds & Hds & _ & Hw)];
    [apply sample_nfa_wf|apply sample_nfa_bounded|done|cbn; lia|].
  exists ds. split; [exact Hds|]. specialize (Hw [99]). revert Hw.
  assert (dfa_run ds 0 [99] = None) as ->; [|done].
  vm_compute in Hds. injection Hds as <-. reflexivity.
Defined.
