(* ===== verification/LexDfa.v ===== *)
(** * From terminals to the automaton

    The composition that [buildLexDFA] of grammargen/dfa.go performs for each
    lex mode: [buildCombinedNFA], then [subsetConstruction].  The automaton
    accepts, after any word, the terminal that wins among those matching it. *)

From Stdlib Require Import ZArith Lia ZifyBool.
From stdpp Require Import base tactics list numbers option sets gmap sorting.
From S2P Require Import Prelude Utf8 SliceSort StateError Regex Nfa NfaPath NfaBuild NfaRegex NfaRule.
From S2P Require Import NfaRule NfaCombined Dfa DfaClosure DfaCorrect.
From S2P Require Import RegexParse RegexParseCorrect.
Local Open Scope Z_scope.

Section lex_dfa.
Context (parseRegex : list Z → go (regexError + regexNode)) (ps : list TerminalPattern).

(** Some terminal matches the word at position [k]. *)
Definition matches (k : nat) (pat : TerminalPattern) (w : list Z) : Prop :=
  ps !! k = Some pat ∧ rule_lang parseRegex (tpRule pat) w.

(** The winner: no match has a lower priority number, and none with the same
    comes earlier. *)
Definition winner (k : nat) (pat : TerminalPattern) (w : list Z) : Prop :=
  matches k pat w ∧ ∀ k' pat', matches k' pat' w →
    Priority pat < Priority pat' ∨ Priority pat = Priority pat' ∧ (k ≤ k')%nat.

(** Symbols are positive, priorities and positions are Go integers. *)
Definition terminal_bounds : Prop :=
  Forall (λ pat, 0 < SymbolID pat ∧ Priority pat ≤ maxInt) ps ∧ len ps ≤ maxInt.

(** The best label of the states a word reaches is the winner's. *)
Lemma best_label_winner N w acc prio :
  Forall (λ pat, 0 < SymbolID pat) ps →
  (∀ w sym prio tie, sym ≠ 0 →
    (∃ q, path (edges N) 0 w q ∧ label N q = (sym, prio, tie)) ↔
    (∃ k pat, ps !! k = Some pat ∧ rule_lang parseRegex (tpRule pat) w
      ∧ SymbolID pat = sym ∧ Priority pat = prio ∧ Z.of_nat k = tie)) →
  best_label N (path (edges N) 0 w) acc prio →
  (acc = 0 ∧ ∀ k pat, ¬ matches k pat w)
  ∨ ∃ k pat, winner k pat w ∧ acc = SymbolID pat ∧ prio = Priority pat.
Proof.
  intros Hsym Hex. rewrite list.Forall_forall in Hsym.
  assert (∀ k pat, matches k pat w → ∃ q, path (edges N) 0 w q
    ∧ label N q = (SymbolID pat, Priority pat, Z.of_nat k) ∧ 0 < SymbolID pat) as Hm.
  { intros k pat [Hk Hw]. pose proof (Hsym pat (list_elem_of_lookup_2 _ _ _ Hk)).
    destruct (proj2 (Hex w (SymbolID pat) (Priority pat) (Z.of_nat k) ltac:(lia))) as (q & Hp & Hl);
      [by exists k, pat|]. by exists q. }
  intros [(-> & _ & Hnone)|(Hpos & p & tie & Hp & Hl & Hmin)].
  - left. split; [done|]. intros k pat (q & Hq & Hlq & Hs)%Hm. specialize (Hnone q Hq).
    rewrite Hlq in Hnone. cbn in Hnone. lia.
  - right. destruct (proj1 (Hex w acc prio tie ltac:(lia))) as (k & pat & Hk & Hw & <- & <- & <-); [by exists p|].
    exists k, pat. split_and!; [|done..]. split; [done|]. intros k' pat' (q & Hq & Hlq & Hs)%Hm.
    specialize (Hmin q Hq). rewrite Hlq in Hmin. cbn in Hmin. lia.
Qed.

End lex_dfa.

(** The combined NFA meets what the subset construction needs. *)
Lemma combined_bounded parseRegex ps N :
  forallb (terminal_ok parseRegex) ps = true → terminal_bounds ps →
  buildCombinedNFA parseRegex ps = Ret (inr (mkNfa N 0)) →
  nfa_wf N ∧ labels_bounded N ∧ 0 < len N.
Proof.
  intros Hok [Hb Hlen] Hrun. rewrite list.Forall_forall in Hb.
  destruct (combined_run _ _ Hok) as (N' & E & W & lits & pieces & Hrun' & Inv & Hl & Hp).
  rewrite Hrun in Hrun'. injection Hrun' as <-. split_and!.
  - apply Inv.
  - assert (∀ pat (k : nat), ps !! k = Some pat → (pattern_label pat (0 + Z.of_nat k)).1.2 ≤ maxInt
      ∧ (pattern_label pat (0 + Z.of_nat k)).2 ≤ maxInt) as Hpl.
    { intros pat k Hk. pose proof (Hb pat (list_elem_of_lookup_2 _ _ _ Hk)) as [_ ?].
      apply lookup_lt_Some in Hk. unfold len in Hlen. cbn [pattern_label fst snd]. lia. }
    intros p. destruct (co_known _ _ _ _ _ _ Inv p) as [->|[[w Hin]|(pc & Hin & ->)]].
    + unfold no_label, maxInt. cbn [fst snd]. lia.
    + apply Hl in Hin as (k & pat & v & Hk & _ & _ & ->). by apply Hpl.
    + destruct (proj1 (Hp (pc_pat pc) (pc_index pc))) as (k & Hk & _ & ->); [by exists pc|]. by apply Hpl.
  - pose proof (ti_range _ _ _ _ (co_trie _ _ _ _ _ _ Inv) _ _ (ti_root _ _ _ _ (co_trie _ _ _ _ _ _ Inv))). lia.
Qed.

(** The start state of the combined NFA is entered by no word. *)
Lemma combined_start parseRegex ps N w :
  forallb (terminal_ok parseRegex) ps = true →
  buildCombinedNFA parseRegex ps = Ret (inr (mkNfa N 0)) → path (edges N) 0 w 0 → w = [].
Proof.
  intros Hok Hrun Hp.
  destruct (combined_run _ _ Hok) as (N' & E & W & lits & pieces & Hrun' & Inv & _ & _).
  rewrite Hrun in Hrun'. injection Hrun' as <-.
  pose proof (ti_root _ _ _ _ (co_trie _ _ _ _ _ _ Inv)) as H0.
  destruct (comb_paths _ _ _ _ _ _ _ _ _ _ Inv H0 Hp) as [Hw|[_ (pc & Hin & Hr & _)]]; [by simplify_eq|].
  destruct (co_piece _ _ _ _ _ _ Inv pc Hin) as (_ & _ & HW & _). rewrite HW in H0; done.
Qed.

(** After every word the automaton accepts the winner, if there is one. *)
Definition accepts_winner (parseRegex : list Z → go (regexError + regexNode)) (ps : list TerminalPattern)
    (ds : list dfaState) : Prop :=
  ∀ w, match dfa_run ds 0 w with
       | None => ∀ k pat, ¬ matches parseRegex ps k pat w
       | Some q => ∃ d, zget ds q = Some d ∧
           ((daccept d = 0 ∧ ∀ k pat, ¬ matches parseRegex ps k pat w)
            ∨ ∃ k pat, winner parseRegex ps k pat w
                ∧ daccept d = SymbolID pat ∧ dacceptPriority d = Priority pat)
       end.

Lemma terminals_outcome `{SliceSort} parseRegex ps :
  forallb (terminal_ok parseRegex) ps = true → terminal_bounds ps →
  ∃ N, buildCombinedNFA parseRegex ps = Ret (inr (mkNfa N 0)) ∧
  ∀ fuel cancelled, (2 ^ length N ≤ fuel)%nat →
  (∃ i n, cancelled i = true ∧ subsetConstruction fuel cancelled (mkNfa N 0) = Ret (inl (SubsetCancelled n)))
  ∨ ∃ ds, subsetConstruction fuel cancelled (mkNfa N 0) = Ret (inr ds) ∧ dfa_wf ds ∧ 0 < len ds ∧
    (∀ w, dfa_run ds 0 w = Some 0 → w = []) ∧ accepts_winner parseRegex ps ds.
Proof.
  intros Hok Hb. destruct (combined_exact parseRegex ps Hok) as (N & Hrun & Hex).
  exists N. split; [done|]. intros fuel cancelled Hfuel.
  destruct (combined_bounded _ _ _ Hok Hb Hrun) as (Hwf & Hlab & Hlen).
  destruct (subset_outcome N Hwf fuel cancelled 0 Hlab) as [?|(ds & Hds & Hdw & Hl & H0 & Hspec)]; [lia|done|by left|].
  right. exists ds. split_and!; [done..|intros w Hw; by eapply combined_start, H0|]. intros w. specialize (Hspec w).
  assert (Forall (λ pat, 0 < SymbolID pat) ps) as Hsym
    by (destruct Hb as [Hb _]; eapply Forall_impl; [exact Hb|]; naive_solver).
  destruct (dfa_run ds 0 w) as [q|].
  - destruct Hspec as (d & Hd & _ & Hbest). exists d. split; [done|]. by eapply best_label_winner.
  - intros k pat [Hk Hw]. rewrite list.Forall_forall in Hsym.
    pose proof (Hsym pat (list_elem_of_lookup_2 _ _ _ Hk)).
    destruct (proj2 (Hex w (SymbolID pat) (Priority pat) (Z.of_nat k) ltac:(lia))) as (q & Hp & _);
      [by exists k, pat|]. by eapply Hspec.
Qed.

(** C16.  The automaton built from the terminals is the lexer of their rules.  For
    terminals whose patterns parse and whose symbols and priorities are in range,
    the automaton accepts after a word the symbol and priority of the winning
    terminal, the one with the lowest priority number and the earliest position among
    those whose rule matches the word; it accepts nothing when no rule matches.
    Whether a terminal is immediate plays no part: comments in the source say that
    accepts prefer non-immediate tokens, but [subsetConstruction] ignores the set of
    immediate symbols that it is given. *)
Theorem terminals_to_dfa `{SliceSort} parseRegex ps :
  forallb (terminal_ok parseRegex) ps = true → terminal_bounds ps →
  ∃ N, buildCombinedNFA parseRegex ps = Ret (inr (mkNfa N 0)) ∧
  ∀ fuel, (2 ^ length N ≤ fuel)%nat →
  ∃ ds, subsetConstruction fuel (λ _, false) (mkNfa N 0) = Ret (inr ds) ∧
  ∀ w, match dfa_run ds 0 w with
       | None => ∀ k pat, ¬ matches parseRegex ps k pat w
       | Some q => ∃ d, zget ds q = Some d ∧
           ((daccept d = 0 ∧ ∀ k pat, ¬ matches parseRegex ps k pat w)
            ∨ ∃ k pat, winner parseRegex ps k pat w
                ∧ daccept d = SymbolID pat ∧ dacceptPriority d = Priority pat)
       end.
Proof.
  intros Hok Hb. destruct (terminals_outcome parseRegex ps Hok Hb) as (N & Hrun & Hout).
  exists N. split; [done|]. intros fuel Hf.
  destruct (Hout fuel (λ _, false) Hf) as [(? & ? & [=] & _)|(ds & Hds & _ & _ & _ & Hw)]. by exists ds.
Qed.

Lemma sample_bounds : terminal_bounds sample_terminals.
Proof. split; [repeat constructor; done|done]. Qed.

(** On the sample the word [if] is the first keyword, though the identifier
    matches it too. *)
Lemma terminals_to_dfa_witness :
  forallb (terminal_ok (RegexParse.parseRegex no_tables)) sample_terminals = true ∧
  terminal_bounds sample_terminals ∧
  ∃ k pat, winner (RegexParse.parseRegex no_tables) sample_terminals k pat [105; 102] ∧ SymbolID pat = 1.
Proof.
  split; [apply sample_terminals_ok|]. split; [apply sample_bounds|].
  destruct (terminals_to_dfa _ _ sample_terminals_ok sample_bounds) as (N & Hrun & Hex).
  vm_compute in Hrun. injection Hrun as <-.
  destruct (Hex 256%nat) as (ds & Hds & Hw); [cbn; lia|]. vm_compute in Hds. injection Hds as <-.
  destruct (Hw [105; 102]) as (d & Hd & [[Ha _]|(k & pat & Hk & Ha & _)]); vm_compute in Hd; injection Hd as <-.
  - discriminate Ha.
  - exists k, pat. split; [exact Hk|]. symmetry. exact Ha.
Defined.
