(* ===== verification/LexBuild.v ===== *)
(** * Building the lexer tables of a grammar

    grammargen/dfa.go, [buildLexDFA] and the passes it runs for each lex mode:
    selection and ordering of the terminals, the automaton, removal of paths
    that leave an immediate token, skip marks, the two conflict passes, the
    conversion to the states of the runtime lexer, and the concatenation of the
    modes.  A Go map that is only read is a [gmap]; one that is iterated over is
    visited in an order that the language leaves open, the class [MapRange]. *)

From Stdlib Require Import ZArith Lia ZifyBool String.
From stdpp Require Import base tactics list numbers option gmap sorting.
From S2P Require Import Prelude Utf8 SliceSort StateError LexTable LexMinimize Regex RegexParse Nfa Dfa.
Local Open Scope Z_scope.

(** The order in which a loop over a map meets its entries. *)
Class MapRange := {
  range_order : ∀ {A : Type}, list A → list A;
  range_order_perm : ∀ (A : Type) (l : list A), range_order l ≡ₚ l }.

#[export] Instance key_order : MapRange := {
  range_order := λ A l, l; range_order_perm := λ A l, Permutation_refl l }.

(** [m[k]] of a [map[int]bool]. *)
Definition sym_in (m : gmap Z bool) (k : Z) : bool := default false (m !! k).

Record lexModeSpec := mkLexModeSpec {
  validSymbols : gmap Z bool;
  preferredSymbols : gmap Z bool;
  skipWhitespace : bool }.

(** ** Questions about rules *)

Definition is_wrapper (k : RuleKind) : bool :=
  match k with
  | RulePrec | RulePrecLeft | RulePrecRight | RulePrecDynamic
  | RuleAlias | RuleField | RuleToken | RuleImmToken => true
  | _ => false
  end.

Fixpoint stringRuleValue (r : Rule) : option (list Z) :=
  match r with
  | NilRule => None
  | mkRule kind value children _ _ =>
    match kind with
    | RuleString => Some value
    | _ =>
      if is_wrapper kind then
        match children with [] => None | c :: _ => stringRuleValue c end
      else None
    end
  end.

Fixpoint ruleCanMatchNonEmpty (r : Rule) : bool :=
  match r with
  | NilRule => false
  | mkRule kind value children _ _ =>
    match kind with
    | RuleString | RulePattern | RuleSymbol => bool_decide (value ≠ [])
    | RuleSeq | RuleChoice => existsb ruleCanMatchNonEmpty children
    | RuleRepeat | RuleRepeat1 | RuleOptional =>
      match children with [] => false | c :: _ => ruleCanMatchNonEmpty c end
    | _ =>
      if is_wrapper kind then
        match children with [] => false | c :: _ => ruleCanMatchNonEmpty c end
      else false
    end
  end.

Definition rulesCanMatchNonEmpty (rules : list Rule) : bool := existsb ruleCanMatchNonEmpty rules.

(** The runes of one literal of a sequence against the prefix: the answer, or
    how much of the prefix is consumed.  [more] says that the rules after the
    literal can match something. *)
Fixpoint prefix_runes (prefix : list Z) (more : bool) (consumed : Z) (rs : list Z) : bool + Z :=
  match rs with
  | [] => inr consumed
  | ch :: rs =>
    match zget prefix consumed with
    | Some b =>
      if ch mod 256 =? b then
        if consumed + 1 =? len prefix then inl (bool_decide (rs ≠ []) || more)
        else prefix_runes prefix more (consumed + 1) rs
      else inl false
    | None => inl false
    end
  end.

Fixpoint prefix_seq (prefix : list Z) (consumed : Z) (children : list Rule) : bool :=
  match children with
  | [] => false
  | child :: rest =>
    match stringRuleValue child with
    | Some value =>
      match prefix_runes prefix (rulesCanMatchNonEmpty rest) consumed (runes_of value) with
      | inl answer => answer
      | inr consumed => prefix_seq prefix consumed rest
      end
    | None =>
      (consumed =? len prefix) && (ruleCanMatchNonEmpty child || rulesCanMatchNonEmpty rest)
    end
  end.

Fixpoint expandedRuleStartsWithPrefixAndCanContinue (r : Rule) (prefix : list Z) : bool :=
  match r with
  | NilRule => false
  | mkRule kind value children _ _ =>
    bool_decide (prefix ≠ []) &&
    match kind with
    | RuleChoice => existsb (λ c, expandedRuleStartsWithPrefixAndCanContinue c prefix) children
    | RuleSeq => prefix_seq prefix 0 children
    | _ =>
      if is_wrapper kind then
        match children with
        | [] => false
        | c :: _ => expandedRuleStartsWithPrefixAndCanContinue c prefix
        end
      else false
    end
  end.

(** [strings.ReplaceAll(s, `\/`, `/`)]. *)
Fixpoint unescape_slash (s : list Z) : list Z :=
  match s with
  | a :: ((b :: rest) as tail) =>
    if (a =? 92) && (b =? 47) then 47 :: unescape_slash rest else a :: unescape_slash tail
  | _ => s
  end.

(** [strings.HasPrefix] and [strings.Contains]. *)
Fixpoint has_prefix (s prefix : list Z) : bool :=
  match prefix, s with
  | [], _ => true
  | p :: prefix, b :: s => (p =? b) && has_prefix s prefix
  | _ :: _, [] => false
  end.

Fixpoint contains (s sub : list Z) : bool :=
  has_prefix s sub || match s with [] => false | _ :: s => contains s sub end.

Fixpoint isLineCommentPatternWithPrefix (r : Rule) (prefix : list Z) : bool :=
  match r with
  | NilRule => false
  | mkRule kind value children _ _ =>
    bool_decide (prefix ≠ []) &&
    match kind with
    | RulePattern =>
      let pattern := unescape_slash value in has_prefix pattern prefix && contains pattern (bytes_of ".*")
    | _ =>
      if is_wrapper kind then
        match children with [] => false | c :: _ => isLineCommentPatternWithPrefix c prefix end
      else
        bool_decide (prefix = bytes_of "//")
        && expandedRuleStartsWithPrefixAndCanContinue r prefix
    end
  end.

(** The finite sets of line breaks that a rule denotes, as lists of strings;
    repeated entries do not matter. *)
Definition line_breaks : list (list Z) := [[]; [13]; [10]; [13; 10]].

(** Concatenations, given up when one is no line break. *)
Definition break_products (out vs : list (list Z)) : option (list (list Z)) :=
  let ps := concat (map (λ p, map (λ s, p ++ s) vs) out) in
  if forallb (λ p, bool_decide (p ∈ line_breaks)) ps then Some ps else None.

Section breaks.
Context (f : Rule → option (list (list Z))).

Definition seq_breaks : list Rule → list (list Z) → option (list (list Z)) :=
  fix loop children out :=
    match children with
    | [] => Some out
    | c :: children => vs ← f c; next ← break_products out vs; loop children next
    end.

Definition choice_breaks : list Rule → list (list Z) → option (list (list Z)) :=
  fix loop children out :=
    match children with
    | [] => Some out
    | c :: children => vs ← f c; loop children (out ++ vs)
    end.
End breaks.

(** The patterns that are recognised by their text. *)
Definition break_pattern (value : list Z) : option (list (list Z)) :=
  if bool_decide (value = bytes_of "\n" ∨ value = [10]) then Some [[10]]
  else if bool_decide (value = bytes_of "\r" ∨ value = [13]) then Some [[13]]
  else if bool_decide (value = bytes_of "\r?\n") then Some [[10]; [13; 10]]
  else if bool_decide (value = bytes_of "\r\n") then Some [[13; 10]]
  else None.

Fixpoint finiteLineBreakStrings (r : Rule) : option (list (list Z)) :=
  match r with
  | NilRule => None
  | mkRule kind value children _ _ =>
    match kind with
    | RuleBlank => Some [[]]
    | RuleString => if bool_decide (value ∈ [[]; [13]; [10]]) then Some [value] else None
    | RulePattern => break_pattern value
    | RuleSeq => seq_breaks finiteLineBreakStrings children [[]]
    | RuleChoice => choice_breaks finiteLineBreakStrings children []
    | RuleOptional =>
      match children with
      | [] => Some [[]]
      | c :: _ => vs ← finiteLineBreakStrings c; Some ([] :: vs)
      end
    | _ =>
      if is_wrapper kind then
        match children with [] => None | c :: _ => finiteLineBreakStrings c end
      else None
    end
  end.

Definition isLineBreakOnlyRule (r : Rule) : bool :=
  match finiteLineBreakStrings r with
  | None | Some [] => false
  | Some vs => forallb (λ v, bool_decide (v ∈ [[10]; [13; 10]; [13]])) vs
  end.

(** ** Terminals of a mode *)

(** The set of the symbols of the patterns that satisfy [P]. *)
Definition symbols_of (P : TerminalPattern → bool) (patterns : list TerminalPattern) : gmap Z bool :=
  foldl (λ m p, if P p then <[SymbolID p := true]> m else m) ∅ patterns.

Definition preferModePatterns (patterns : list TerminalPattern) (preferred : gmap Z bool)
  : list TerminalPattern :=
  if (len patterns <? 2) || (size preferred =? 0)%nat then patterns else
  filter (λ p, sym_in preferred (SymbolID p) = true) patterns
  ++ filter (λ p, sym_in preferred (SymbolID p) = false) patterns.

Definition modePatterns (patterns : list TerminalPattern) (mode : lexModeSpec) : list TerminalPattern :=
  let valid := filter (λ p, sym_in (validSymbols mode) (SymbolID p) = true) patterns in
  if (0 <? size (preferredSymbols mode))%nat
  then preferModePatterns valid (preferredSymbols mode) else valid.

(** ** Immediate tokens *)

(** Whether a transition leads to a state that is marked. *)
Fixpoint any_marked (can : list bool) (ts : list dfaTransition) : go bool :=
  match ts with
  | [] => Ret false
  | t :: ts => c ← index can (dnext t); if (c : bool) then Ret true else any_marked can ts
  end.

(** One pass over the states from [i] on. *)
Fixpoint reach_pass (dfa : list dfaState) (i : Z) (can : list bool) (changed : bool) : go (list bool * bool) :=
  match dfa with
  | [] => Ret (can, changed)
  | s :: dfa =>
    c ← index can i;
    if (c : bool) then reach_pass dfa (i + 1) can changed else
    hit ← any_marked can (dtransitions s);
    if (hit : bool) then can ← store can i true; reach_pass dfa (i + 1) can true
    else reach_pass dfa (i + 1) can changed
  end.

Fixpoint reach_loop (fuel : nat) (dfa : list dfaState) (can : list bool) : go (list bool) :=
  match fuel with
  | O => NoFuel
  | S fuel =>
    '(can, changed) ← reach_pass dfa 0 can false;
    if (changed : bool) then reach_loop fuel dfa can else Ret can
  end.

(** Lower the priority of state [i] to those of its successors. *)
Fixpoint lower_priority (i : Z) (ts : list dfaTransition) (best : list Z) (changed : bool)
  : go (list Z * bool) :=
  match ts with
  | [] => Ret (best, changed)
  | t :: ts =>
    b ← index best (dnext t);
    own ← index best i;
    if b <? own then best ← store best i b; lower_priority i ts best true
    else lower_priority i ts best changed
  end.

Fixpoint priority_pass (dfa : list dfaState) (i : Z) (best : list Z) (changed : bool)
  : go (list Z * bool) :=
  match dfa with
  | [] => Ret (best, changed)
  | s :: dfa =>
    '(best, changed) ← lower_priority i (dtransitions s) best changed;
    priority_pass dfa (i + 1) best changed
  end.

Fixpoint priority_loop (fuel : nat) (dfa : list dfaState) (best : list Z) : go (list Z) :=
  match fuel with
  | O => NoFuel
  | S fuel =>
    '(best, changed) ← priority_pass dfa 0 best false;
    if (changed : bool) then priority_loop fuel dfa best else Ret best
  end.

Fixpoint kept_transitions (can : list bool) (best : list Z) (curPrio : Z) (ts : list dfaTransition)
  : go (list dfaTransition) :=
  match ts with
  | [] => Ret []
  | t :: ts =>
    c ← index can (dnext t);
    b ← (if (c : bool) then Ret 0 else index best (dnext t));
    rest ← kept_transitions can best curPrio ts;
    Ret (if c || (b <? curPrio) then t :: rest else rest)
  end.

(** Rounds of the two loops: every round but the last marks a state, or lowers
    a priority to one of the accepting states'. *)
Definition reach_fuel (n : nat) : nat := S n.
Definition priority_fuel (n : nat) : nat := S (n * n).

(** The starting values of the two loops. *)
Definition own_priority (d : dfaState) : Z :=
  if (0 <? daccept d) && (dacceptPriority d <? maxInt) then dacceptPriority d else maxInt.

Definition accepts_immediate (immediateSyms : gmap Z bool) (d : dfaState) : bool :=
  (0 <? daccept d) && sym_in immediateSyms (daccept d).

Fixpoint prune_states (immediateSyms : gmap Z bool) (can : list bool) (best : list Z)
    (dfa : list dfaState) : go (list dfaState) :=
  match dfa with
  | [] => Ret []
  | d :: dfa =>
    ts ← (if (daccept d =? 0) || negb (sym_in immediateSyms (daccept d)) then Ret (dtransitions d)
          else kept_transitions can best (dacceptPriority d) (dtransitions d));
    rest ← prune_states immediateSyms can best dfa;
    Ret (mkDfaState ts (daccept d) (dacceptPriority d) (dskip d) :: rest)
  end.

Definition pruneImmediateTransitions (dfa : list dfaState) (immediateSyms : gmap Z bool)
  : go (list dfaState) :=
  can ← reach_loop (reach_fuel (length dfa)) dfa (map (accepts_immediate immediateSyms) dfa);
  best ← priority_loop (priority_fuel (length dfa)) dfa
    (map own_priority dfa);
  prune_states immediateSyms can best dfa.

(** ** Skip marks and conflicts *)

Definition mark_skips (skipExtras : gmap Z bool) (dfa : list dfaState) : list dfaState :=
  map (λ d, if (0 <? daccept d) && sym_in skipExtras (daccept d)
            then mkDfaState (dtransitions d) (daccept d) (dacceptPriority d) true else d) dfa.

Section build.
Context `{SliceSort, MapRange} (parseRegex : list Z → go (regexError + regexNode)).

(** The epsilon closure with a map of the states seen. *)
Definition push_unseen (acc : gset Z * list Z) (t : nfaTransition) : gset Z * list Z :=
  let '(seen, stack) := acc in
  if tepsilon t && negb (bool_decide (tnext t ∈ seen))
  then ({[ tnext t ]} ∪ seen, tnext t :: stack) else (seen, stack).

Fixpoint map_closure (fuel : nat) (N : list nfaState) (seen : gset Z) (stack : list Z) : go (gset Z) :=
  match stack with
  | [] => Ret seen
  | s :: stack =>
    match fuel with
    | O => NoFuel
    | S fuel =>
      st ← index N s;
      let '(seen, stack) := foldl push_unseen (seen, stack) (transitions st) in
      map_closure fuel N seen stack
    end
  end.

Definition mapEpsilonClosure (n : nfa) (states : list Z) : go (list Z) :=
  seen ← map_closure (length (nfaStates n)) (nfaStates n) (list_to_set states) (reverse (remove_dups states));
  Ret (sort_ints (elements seen)).

(** The runes that the states read, as ranges. *)
Fixpoint read_ranges (N : list nfaState) (states : list Z) : go (list runeRange) :=
  match states with
  | [] => Ret []
  | s :: states =>
    st ← index N s;
    rest ← read_ranges N states;
    Ret (map (λ t, mkRuneRange (tlo t) (thi t))
           (filter (λ t, tepsilon t = false ∧ tlo t ≤ thi t) (transitions st)) ++ rest)
  end.

(** The symbol of the skipped extras, and the runes that start one. *)
Fixpoint extras_first (skipExtras : gmap Z bool) (patterns : list TerminalPattern)
    (skipSymID : Z) (chars : list runeRange) : go (Z * list runeRange) :=
  match patterns with
  | [] => Ret (skipSymID, chars)
  | p :: patterns =>
    match tpRule p with
    | NilRule => extras_first skipExtras patterns skipSymID chars
    | _ =>
      if negb (sym_in skipExtras (SymbolID p)) then extras_first skipExtras patterns skipSymID chars else
      let skipSymID := if skipSymID =? 0 then SymbolID p else skipSymID in
      r ← buildCombinedNFA parseRegex [p];
      match r with
      | inl _ => extras_first skipExtras patterns skipSymID chars
      | inr n =>
        closure ← mapEpsilonClosure n [nfaStart n];
        ranges ← read_ranges (nfaStates n) closure;
        extras_first skipExtras patterns skipSymID (chars ++ ranges)
      end
    end
  end.

(** Tokens that stay as they are: immediate ones, literals, line breaks. *)
Definition protected_terminal (skipExtras : gmap Z bool) (p : TerminalPattern) : bool :=
  Immediate p
  || match string_value (tpRule p) with Some _ => true | None => false end
  || (negb (sym_in skipExtras (SymbolID p)) && isLineBreakOnlyRule (tpRule p)).

(** How many runes lead from the start to each accepted symbol. *)
Fixpoint count_targets (dfa : list dfaState) (ts : list dfaTransition) (counts : gmap Z Z) (total : Z)
  : go (gmap Z Z * Z) :=
  match ts with
  | [] => Ret (counts, total)
  | t :: ts =>
    target ← index dfa (dnext t);
    if (0 <? daccept target) && negb (dskip target) then
      let n := i32 (dhi t - dlo t + 1) in
      count_targets dfa ts (<[daccept target := default 0 (counts !! daccept target) + n]> counts) (total + n)
    else count_targets dfa ts counts total
  end.

(** All runes of a range start an extra. *)
Fixpoint all_extras (n : nat) (chars : list runeRange) (r : Z) : bool :=
  match n with
  | O => true
  | S n => has_rune chars r && all_extras n chars (r + 1)
  end.

Section redirect.
Context (chars : list runeRange) (protected : gmap Z bool) (counts : gmap Z Z) (total skipSymID : Z).

(** Whether a transition on extras goes to a skip state instead of [target]. *)
Definition redirects (target : dfaState) : bool :=
  (0 <? daccept target) && negb (dskip target)
  && negb (sym_in protected (daccept target))
  && (default 0 (counts !! daccept target) * 2 <? total).

(** The loop over the transitions of the start state: those settled, and the
    states with the ones added.  The start state is no target, so its own
    transitions are never copied while they change. *)
Fixpoint redirect_loop (ts : list dfaTransition) (dfa : list dfaState)
  : go (list dfaTransition * list dfaState) :=
  match ts with
  | [] => Ret ([], dfa)
  | t :: ts =>
    if negb (all_extras (Z.to_nat (dhi t - dlo t + 1)) chars (dlo t)) then
      '(ts, dfa) ← redirect_loop ts dfa; Ret (t :: ts, dfa)
    else
      target ← index dfa (dnext t);
      if redirects target then
        '(ts, dfa') ← redirect_loop ts (dfa ++ [mkDfaState (dtransitions target) skipSymID 2000 true]);
        Ret (mkDfaTransition (dlo t) (dhi t) (len dfa) :: ts, dfa')
      else
        '(ts, dfa) ← redirect_loop ts dfa; Ret (t :: ts, dfa)
  end.
End redirect.

Definition fixExtrasOverrideConflicts (dfa : list dfaState) (patterns : list TerminalPattern)
    (skipExtras : gmap Z bool) : go (list dfaState) :=
  match dfa with
  | [] => Ret dfa
  | start :: _ =>
    '(skipSymID, chars) ← extras_first skipExtras patterns 0 [];
    if (skipSymID =? 0) || bool_decide (chars = []) then Ret dfa else
    '(counts, total) ← count_targets dfa (dtransitions start) ∅ 0;
    if total =? 0 then Ret dfa else
    '(ts, dfa) ← redirect_loop chars (symbols_of (protected_terminal skipExtras) patterns)
      counts total skipSymID (dtransitions start) dfa;
    match dfa with
    | d :: dfa => Ret (mkDfaState ts (daccept d) (dacceptPriority d) (dskip d) :: dfa)
    | [] => Ret []
    end
  end.

(** ** Operators that start a line comment *)

(** The literals by symbol, the last one of a symbol counting. *)
Definition string_literals (patterns : list TerminalPattern) : gmap Z (list Z) :=
  foldl (λ m p, match stringRuleValue (tpRule p) with
                | Some v => if bool_decide (v ≠ []) then <[SymbolID p := v]> m else m
                | None => m
                end) ∅ patterns.

Definition stringOperatorsWithLineCommentPrefix (patterns : list TerminalPattern) : gmap Z (list Z) :=
  filter (λ '(sym, lit), existsb (λ p,
    negb (SymbolID p =? sym) && isLineCommentPatternWithPrefix (tpRule p) lit) patterns = true)
    (string_literals patterns).

Fixpoint state_after (dfa : list dfaState) (state : Z) (rs : list Z) : Z :=
  match rs with
  | [] => state
  | ch :: rs =>
    match zget dfa state with
    | None => -1
    | Some d =>
      match head (filter (λ t, dlo t ≤ ch ≤ dhi t) (dtransitions d)) with
      | Some t => if dnext t <? 0 then -1 else state_after dfa (dnext t) rs
      | None => -1
      end
    end
  end.

Definition dfaStateAfterLiteral (dfa : list dfaState) (lit : list Z) : Z := state_after dfa 0 (runes_of lit).

Fixpoint protect_loop (protected : list (Z * list Z)) (dfa : list dfaState) : go (list dfaState) :=
  match protected with
  | [] => Ret dfa
  | (sym, lit) :: protected =>
    let state := dfaStateAfterLiteral dfa lit in
    if state <? 0 then protect_loop protected dfa else
    dfa ← store dfa state (mkDfaState [] sym 0 false);
    protect_loop protected dfa
  end.

Definition protectStringOperatorsFromLineComments (dfa : list dfaState) (patterns : list TerminalPattern)
  : go (list dfaState) :=
  match dfa with
  | [] => Ret dfa
  | _ => protect_loop (range_order (map_to_list (stringOperatorsWithLineCommentPrefix patterns))) dfa
  end.

(** ** States of the runtime lexer *)

Definition clamp16 (p : Z) : Z := if 32767 <? p then 32767 else if p <? -32768 then -32768 else p.

Definition accept_priority (d : dfaState) : Z :=
  if (0 <? daccept d) && (dacceptPriority d <? maxInt) then clamp16 (dacceptPriority d) else 0.

Definition convert_state (d : dfaState) : LexState :=
  mkLexState (u16 (daccept d)) (accept_priority d) (dskip d) (-1) (-1)
    (map (λ t, mkLexTransition (dlo t) (dhi t) (dnext t) false) (dtransitions d)).

Definition wsRanges : list runeRange := [mkRuneRange 9 10; mkRuneRange 13 13; mkRuneRange 32 32].

(** A skipping loop over a whitespace range that no transition overlaps. *)
Definition add_ws (ts : list LexTransition) (ws : runeRange) : list LexTransition :=
  if existsb (λ t, (trLo t <=? rhi ws) && (rlo ws <=? trHi t)) ts then ts
  else ts ++ [mkLexTransition (rlo ws) (rhi ws) 0 true].

Definition addWhitespaceSkip (st : LexState) : LexState :=
  mkLexState (lsAcceptToken st) (lsAcceptPriority st) (lsSkip st) (lsDefault st) (lsEOF st)
    (sort_slice (λ a b, trLo a <? trLo b) (foldl add_ws (lsTransitions st) wsRanges)).

Definition convertDFAToLexStates (dfa : list dfaState) (addSkipTransitions : bool) : list LexState :=
  match map convert_state dfa with
  | st :: states => if addSkipTransitions then addWhitespaceSkip st :: states else st :: states
  | [] => []
  end.

(** Move the targets of a mode behind the modes before it. *)
Definition shift_target (offset q : Z) : Z := if 0 <=? q then q + offset else q.

Definition shift_state (offset : Z) (st : LexState) : LexState :=
  mkLexState (lsAcceptToken st) (lsAcceptPriority st) (lsSkip st)
    (shift_target offset (lsDefault st)) (shift_target offset (lsEOF st))
    (map (λ t, mkLexTransition (trLo t) (trHi t) (shift_target offset (trNextState t)) (trSkip t))
       (lsTransitions st)).

(** ** All modes *)

Inductive lexBuildError :=
| TerminalError (e : nfaError)
| ModeError (mode : Z) (e : subsetError).

Section modes.
Context (fuel : nat) (cancelled : Z → Z → bool) (patterns : list TerminalPattern) (skipExtras : gmap Z bool).

(** The automaton of one mode, after its passes. *)
Definition mode_dfa (mi : Z) (mode : lexModeSpec) : go (lexBuildError + list dfaState) :=
  let ps := modePatterns patterns mode in
  r ← buildCombinedNFA parseRegex ps;
  match r with
  | inl e => Ret (inl (TerminalError e))
  | inr combined =>
    let immediateSyms := symbols_of Immediate ps in
    r ← subsetConstruction fuel (cancelled mi) combined;
    match r with
    | inl e => Ret (inl (ModeError mi e))
    | inr dfa =>
      dfa ← (if (0 <? size immediateSyms)%nat then pruneImmediateTransitions dfa immediateSyms else Ret dfa);
      let dfa := mark_skips skipExtras dfa in
      dfa ← (if skipWhitespace mode && (0 <? len dfa)
             then fixExtrasOverrideConflicts dfa ps skipExtras else Ret dfa);
      dfa ← protectStringOperatorsFromLineComments dfa ps;
      Ret (inr dfa)
    end
  end.

Fixpoint modes_loop (mi : Z) (modes : list lexModeSpec) (allStates : list LexState) (offsets : list Z)
  : go (lexBuildError + list LexState * list Z) :=
  match modes with
  | [] => Ret (inr (allStates, offsets))
  | mode :: modes =>
    r ← mode_dfa mi mode;
    match r with
    | inl e => Ret (inl e)
    | inr dfa =>
      let lexStates := convertDFAToLexStates dfa (skipWhitespace mode) in
      let offset := len allStates in
      let lexStates := if 0 <? offset then map (shift_state offset) lexStates else lexStates in
      modes_loop (mi + 1) modes (allStates ++ lexStates) (offsets ++ [offset])
    end
  end.

(** [minimizeDisabled] is the switch carried by the context, [disabledEnv] the
    environment variable that [minimizeLexStates] reads. *)
Definition buildLexDFA (minimizeDisabled disabledEnv : bool) (lexModes : list lexModeSpec)
  : go (lexBuildError + list LexState * list Z) :=
  r ← modes_loop 0 lexModes [] [];
  match r with
  | inl e => Ret (inl e)
  | inr (states, offsets) =>
    if minimizeDisabled then Ret (inr (states, offsets)) else
    '(states, offsets) ← minimizeLexStates disabledEnv states offsets;
    Ret (inr (states, offsets))
  end.

End modes.
End build.
