(* ===== verification/LexImmediate.v ===== *)
(** * Paths that leave an immediate token

    [pruneImmediateTransitions] of grammargen/dfa.go computes two fixed points
    over the automaton, by rounds that update an array in place, and drops the
    transitions that lead to nothing an immediate token may give way to.  Both
    loops stop within their fuel, and the two arrays say exactly which states
    reach an immediate accept and what the best priority reached is. *)

From Stdlib Require Import ZArith Lia ZifyBool.
From stdpp Require Import base tactics list numbers option gmap relations sorting.
From S2P Require Import Prelude SliceSort Dfa DfaCorrect Regex Nfa LexBuild.
Local Open Scope Z_scope.

Section prune.
Context (ds : list dfaState) (Hwf : dfa_wf ds).

(** One transition, and any number of them. *)
Definition successor (i j : Z) : Prop :=
  ∃ d t, zget ds i = Some d ∧ t ∈ dtransitions d ∧ dnext t = j.
Definition reaches : Z → Z → Prop := rtc successor.

Lemma successor_range i j : successor i j → 0 ≤ j < len ds.
Proof using Hwf.
  intros (d & t & Hd & Ht & <-). destruct (Hwf i d Hd) as (_ & Hall & _).
  rewrite list.Forall_forall in Hall. specialize (Hall t Ht). lia.
Qed.

(** The rest of the states, as the loops see them. *)
Definition states_from (i : Z) (rest : list dfaState) : Prop :=
  0 ≤ i ∧ i + len rest = len ds ∧ ∀ k, 0 ≤ k → zget ds (i + k) = zget rest k.

Lemma states_from_start : states_from 0 ds.
Proof. split_and!; [lia..|]. intros k _. done. Qed.

Lemma states_from_cons i d rest :
  states_from i (d :: rest) → zget ds i = Some d ∧ states_from (i + 1) rest ∧ 0 ≤ i < len ds.
Proof.
  intros (Hi & Hl & Hk). rewrite len_cons in Hl. pose proof (len_nonneg rest).
  split_and!; [|split_and!; [lia..|]|lia..].
  - specialize (Hk 0 ltac:(lia)). by rewrite Z.add_0_r in Hk.
  - intros k Hk0. specialize (Hk (k + 1) ltac:(lia)). rewrite zget_cons_ne in Hk by lia.
    replace (i + 1 + k) with (i + (k + 1)) by lia. rewrite Hk. f_equal. lia.
Qed.

(** ** States that reach an immediate accept *)

Section reach.
Context (goal : dfaState → bool).

Definition reaches_goal (i : Z) : Prop := ∃ j e, reaches i j ∧ zget ds j = Some e ∧ goal e = true.

Record marks (can : list bool) : Prop := {
  mk_len : len can = len ds;
  mk_goal i d : zget ds i = Some d → goal d = true → zget can i = Some true;
  mk_sound i : zget can i = Some true → reaches_goal i }.

(** The states before [i] that are not marked have no marked successor. *)
Definition settled (can : list bool) (i : Z) (done : Z → Prop) : Prop :=
  ∀ k j, done k → zget can k = Some false → successor k j → zget can j = Some false.

Definition unmarked (can : list bool) : nat := total_of (λ c : bool, if c then O else 1%nat) can.

Lemma any_marked_spec can ts : len can = len ds → Forall (λ t, 0 ≤ dnext t < len ds) ts →
  ∃ hit, any_marked can ts = Ret hit ∧
    if (hit : bool) then ∃ t, t ∈ ts ∧ zget can (dnext t) = Some true
    else ∀ t, t ∈ ts → zget can (dnext t) = Some false.
Proof.
  intros Hl. induction 1 as [|t ts Ht _ (hit & IH & Hhit)]; cbn [any_marked].
  { exists false. split; [done|]. by intros t ?%elem_of_nil. }
  destruct (index_in_range can (dnext t)) as (c & -> & Hc); [lia|]. cbn [mbind go_bind]. destruct c.
  - exists true. split; [done|]. exists t. split; [left|done].
  - exists hit. split; [done|]. destruct hit.
    + destruct Hhit as (t' & ? & ?). exists t'. split; [by right|done].
    + intros t' [->|?]%elem_of_cons; auto.
Qed.

Lemma targets_range i d : zget ds i = Some d → Forall (λ t, 0 ≤ dnext t < len ds) (dtransitions d).
Proof using Hwf.
  intros Hd. destruct (Hwf i d Hd) as (_ & Hall & _). eapply list.Forall_impl; [exact Hall|]. naive_solver.
Qed.

Lemma marks_store can i j : marks can → 0 ≤ i < len ds → successor i j → zget can j = Some true →
  marks (<[Z.to_nat i := true]> can).
Proof.
  intros [Hl Hg Hs] Hi Hij Hj. split; [by rewrite len_insert|..].
  - intros k d Hk Hd. destruct (decide (k = i)) as [->|]; [apply zget_insert_eq; lia|].
    rewrite zget_insert_ne by lia. by eapply Hg.
  - intros k. destruct (decide (k = i)) as [->|]; [|rewrite zget_insert_ne by lia; auto].
    intros _. destruct (Hs j Hj) as (m & e & Hr & He). exists m, e. split; [by eapply rtc_l|done].
Qed.

(** One pass: marks stay right, and a pass without a change has seen every
    state settled. *)
Lemma reach_pass_spec rest i can changed : states_from i rest → marks can →
  ∃ can' changed', reach_pass rest i can changed = Ret (can', changed') ∧ marks can' ∧
    ((changed' = changed ∧ can' = can ∧ settled can i (λ k, i ≤ k)) ∨
     (changed' = true ∧ (unmarked can' < unmarked can)%nat)).
Proof using Hwf.
  revert i can changed. induction rest as [|d rest IH]; intros i can changed Hfrom Hm; cbn [reach_pass].
  { exists can, changed. split_and!; [done..|]. left. split_and!; [done..|].
    intros k j Hk Hc _. destruct Hfrom as (_ & Hl & _), Hm as [Hlen _ _]. rewrite len_nil in Hl.
    apply zget_Some_range in Hc. lia. }
  destruct (states_from_cons _ _ _ Hfrom) as (Hd & Hfrom' & Hi).
  destruct (index_in_range can i) as (c & -> & Hc); [rewrite (mk_len _ Hm); lia|]. cbn [mbind go_bind].
  assert (∀ k, i ≤ k → k = i ∨ i + 1 ≤ k) as Hcase by lia.
  destruct c.
  - destruct (IH (i + 1) can changed Hfrom' Hm) as (can' & ch' & Hrun & Hm' & Hout). exists can', ch'.
    split_and!; [done..|]. destruct Hout as [(-> & -> & Hset)|?]; [left|by right]. split_and!; [done..|].
    intros k j [->|Hk]%Hcase Hk0; [congruence|by apply Hset].
  - destruct (any_marked_spec can (dtransitions d) (mk_len _ Hm) (targets_range _ _ Hd)) as (hit & -> & Hhit).
    cbn [mbind go_bind]. destruct hit.
    + destruct Hhit as (t & Ht & Hct). rewrite store_ok by (rewrite (mk_len _ Hm); lia). cbn [mbind go_bind].
      assert (successor i (dnext t)) as Hsucc by (by exists d, t).
      destruct (IH (i + 1) _ true Hfrom' (marks_store can i _ Hm Hi Hsucc Hct)) as (can' & ch' & Hrun & Hm' & Hout).
      exists can', ch'. split_and!; [done..|]. right.
      assert (unmarked (<[Z.to_nat i := true]> can) < unmarked can)%nat as Hlt
        by (apply (total_of_store _ can i false); [done|cbn; lia]).
      destruct Hout as [(-> & -> & _)|[-> ?]]; split; first [done | lia].
    + destruct (IH (i + 1) can changed Hfrom' Hm) as (can' & ch' & Hrun & Hm' & Hout). exists can', ch'.
      split_and!; [done..|]. destruct Hout as [(-> & -> & Hset)|?]; [left|by right]. split_and!; [done..|].
      intros k j [->|Hk]%Hcase Hk0; [|by apply Hset]. intros (d' & t & Hd' & Ht & <-). simplify_eq. by apply Hhit.
Qed.

Lemma reach_loop_spec fuel can : marks can → (unmarked can < fuel)%nat →
  ∃ can', reach_loop fuel ds can = Ret can' ∧ len can' = len ds ∧
    ∀ i, 0 ≤ i < len ds → zget can' i = Some true ↔ reaches_goal i.
Proof using Hwf.
  revert can. induction fuel as [|fuel IH]; intros can Hm Hf; [lia|]. cbn [reach_loop].
  destruct (reach_pass_spec ds 0 can false states_from_start Hm) as (can' & ch & -> & Hm' & Hout).
  cbn [mbind go_bind]. destruct Hout as [(-> & -> & Hset)|[-> Hlt]]; [|apply IH; [done|lia]].
  exists can. split_and!; [done|apply Hm|]. intros i Hi. split; [apply Hm|].
  intros (j & e & Hr & He & Hg). destruct (zget can i) as [[]|] eqn:Hc; [done| |apply zget_None in Hc; rewrite (mk_len _ Hm) in Hc; lia].
  exfalso. pose proof (mk_goal _ Hm j e He Hg) as Hj. clear He Hg. revert Hc. induction Hr as [x|x y z Hxy Hyz IHr]; intros Hc; [congruence|].
  apply IHr; [by eapply successor_range|done|].
  pose proof (zget_Some_range _ _ _ Hc). eapply Hset; [|done..]. lia.
Qed.

Lemma unmarked_bound can : (unmarked can ≤ length can)%nat.
Proof.
  unfold unmarked. etrans; [apply (total_of_bound _ 1)|lia]. apply list.Forall_forall. intros []; lia.
Qed.

Lemma marks_start : marks (map goal ds).
Proof.
  assert (∀ i, zget (map goal ds) i = goal <$> zget ds i) as Hz.
  { intros i. unfold zget. destruct (0 <=? i); [|done]. apply list_lookup_fmap. }
  split.
  - unfold len. by rewrite length_map.
  - intros i d Hd Hg. by rewrite Hz, Hd; cbn; rewrite Hg.
  - intros i. rewrite Hz. destruct (zget ds i) as [d|] eqn:Hd; [|done]. cbn. intros [= Hg].
    exists i, d. split; [constructor|done].
Qed.

Lemma reach_exact : ∃ can, reach_loop (reach_fuel (length ds)) ds (map goal ds) = Ret can ∧ len can = len ds ∧
  ∀ i, 0 ≤ i < len ds → zget can i = Some true ↔ reaches_goal i.
Proof using Hwf.
  apply reach_loop_spec; [apply marks_start|]. unfold reach_fuel.
  pose proof (unmarked_bound (map goal ds)) as Hb. rewrite length_map in Hb. lia.
Qed.
End reach.

(** ** The best priority reached *)

Definition priority_of (i : Z) : Z := match zget ds i with Some d => own_priority d | None => maxInt end.

Definition reaches_priority (i p : Z) : Prop := ∃ j, reaches i j ∧ 0 ≤ j < len ds ∧ priority_of j = p.

Record lowest (best : list Z) : Prop := {
  lo_len : len best = len ds;
  lo_own i b : zget best i = Some b → b ≤ priority_of i;
  lo_from i b : zget best i = Some b → reaches_priority i b }.

(** How many states have a lower priority number. *)
Definition rank (p : Z) : nat := length (filter (λ d, own_priority d < p) ds).
Definition ranks (best : list Z) : nat := total_of rank best.

Lemma rank_lt j b p : 0 ≤ j < len ds → priority_of j = b → b < p → (rank b < rank p)%nat.
Proof using.
  unfold priority_of, rank. intros Hj. destruct (zget_in_range ds j Hj) as [d Hd]. rewrite Hd. intros Hb Hlt.
  apply zget_elem in Hd. clear Hj Hwf. induction ds as [|e l IH]; [by apply elem_of_nil in Hd|].
  assert (length (filter (λ d, (own_priority d < b)%Z) l) ≤ length (filter (λ d, (own_priority d < p)%Z) l))%nat as Hle.
  { clear IH Hd. induction l as [|x l IH]; [done|]. rewrite !filter_cons. repeat case_decide; cbn; lia. }
  rewrite !filter_cons. apply elem_of_cons in Hd as [->|Hd].
  - rewrite decide_False, decide_True by lia. cbn. lia.
  - specialize (IH Hd). repeat case_decide; cbn; lia.
Qed.

(** The successors of the states in [done] have no lower number. *)
Definition balanced (best : list Z) (done : Z → dfaTransition → Prop) : Prop :=
  ∀ k d t b c, zget ds k = Some d → t ∈ dtransitions d → done k t →
    zget best k = Some b → zget best (dnext t) = Some c → b ≤ c.

Lemma lowest_store best i j b : lowest best → 0 ≤ i < len ds → successor i j → zget best j = Some b →
  b < default 0 (zget best i) → lowest (<[Z.to_nat i := b]> best).
Proof.
  intros [Hl Ho Hfr] Hi Hij Hj Hlt. destruct (zget_in_range best i) as [o Hio]; [lia|].
  rewrite Hio in Hlt. cbn in Hlt.
  split; [by rewrite len_insert|..]; intros k c; destruct (decide (k = i)) as [->|];
    rewrite ?zget_insert_eq, ?zget_insert_ne by lia; auto; intros [= <-].
  - specialize (Ho i o Hio). lia.
  - destruct (Hfr j b Hj) as (m & Hr & Hm). exists m. split; [by eapply rtc_l|done].
Qed.

Lemma lower_priority_spec i d ts best changed : lowest best → zget ds i = Some d →
  (∀ t, t ∈ ts → t ∈ dtransitions d) →
  ∃ best' changed', lower_priority i ts best changed = Ret (best', changed') ∧ lowest best' ∧
    ((changed' = changed ∧ best' = best ∧ balanced best (λ k t, k = i ∧ t ∈ ts)) ∨
     (changed' = true ∧ (ranks best' < ranks best)%nat)).
Proof using Hwf.
  intros Hlo Hd. pose proof (zget_Some_range _ _ _ Hd) as Hi. revert best changed Hlo.
  induction ts as [|t ts IH]; intros best changed Hlo Hts; cbn [lower_priority].
  { exists best, changed. split_and!; [done..|]. left. split_and!; [done..|].
    intros ? ? ? ? ? _ _ [_ ?%elem_of_nil]. done. }
  assert (t ∈ dtransitions d) as Ht by (apply Hts; left).
  assert (successor i (dnext t)) as Hsucc by (by exists d, t).
  pose proof (successor_range _ _ Hsucc) as Hn.
  destruct (index_in_range best (dnext t)) as (b & -> & Hb); [rewrite (lo_len _ Hlo); lia|].
  destruct (index_in_range best i) as (o & -> & Ho); [rewrite (lo_len _ Hlo); lia|]. cbn [mbind go_bind].
  assert (∀ t', t' ∈ ts → t' ∈ dtransitions d) as Hts' by (intros t' ?; apply Hts; by right).
  destruct (Z.ltb_spec b o) as [Hlt|Hge].
  - rewrite store_ok by (rewrite (lo_len _ Hlo); lia). cbn [mbind go_bind].
    assert (lowest (<[Z.to_nat i := b]> best)) as Hlo'
      by (eapply lowest_store; [done|lia|done|done|by rewrite Ho]).
    destruct (IH _ true Hlo' Hts') as (best' & ch' & Hrun & Hl' & Hout). exists best', ch'.
    split_and!; [done..|]. right.
    assert (ranks (<[Z.to_nat i := b]> best) < ranks best)%nat as Hr.
    { apply (total_of_store _ best i o); [done|]. destruct (lo_from _ Hlo _ _ Hb) as (j & _ & Hj & Hp).
      by eapply rank_lt. }
    destruct Hout as [(-> & -> & _)|[-> ?]]; split; first [done | lia].
  - destruct (IH best changed Hlo Hts') as (best' & ch' & Hrun & Hl' & Hout). exists best', ch'.
    split_and!; [done..|]. destruct Hout as [(-> & -> & Hbal)|?]; [left|by right]. split_and!; [done..|].
    intros k d' t' b' c' Hk Ht' [-> [->|Hin]%elem_of_cons] Hb' Hc'; [simplify_eq; lia|by eapply Hbal].
Qed.

Lemma priority_pass_spec rest i best changed : states_from i rest → lowest best →
  ∃ best' changed', priority_pass rest i best changed = Ret (best', changed') ∧ lowest best' ∧
    ((changed' = changed ∧ best' = best ∧ balanced best (λ k _, i ≤ k)) ∨
     (changed' = true ∧ (ranks best' < ranks best)%nat)).
Proof using Hwf.
  revert i best changed. induction rest as [|d rest IH]; intros i best changed Hfrom Hlo; cbn [priority_pass].
  { exists best, changed. split_and!; [done..|]. left. split_and!; [done..|].
    intros k ? ? ? ? Hk _ Hik _ _. destruct Hfrom as (_ & Hl & _). rewrite len_nil in Hl.
    apply zget_Some_range in Hk. lia. }
  destruct (states_from_cons _ _ _ Hfrom) as (Hd & Hfrom' & Hi).
  destruct (lower_priority_spec i d (dtransitions d) best changed Hlo Hd (λ _ H, H))
    as (best1 & ch1 & -> & Hlo1 & Hout1). cbn [mbind go_bind].
  destruct (IH (i + 1) best1 ch1 Hfrom' Hlo1) as (best' & ch' & -> & Hlo' & Hout). exists best', ch'.
  split_and!; [done..|]. destruct Hout1 as [(-> & -> & Hb1)|[-> H1]], Hout as [(-> & -> & Hb)|[-> H2]].
  - left. split_and!; [done..|]. intros k d' t b c Hk Ht Hik. destruct (decide (k = i)) as [->|].
    + apply (Hb1 i d' t b c Hk Ht). split; [done|]. by simplify_eq.
    + apply (Hb k d' t b c Hk Ht). lia.
  - right. split; [done|lia].
  - right. split; [done|lia].
  - right. split; [done|lia].
Qed.

Lemma priority_loop_spec fuel best : lowest best → (ranks best < fuel)%nat →
  ∃ best', priority_loop fuel ds best = Ret best' ∧ len best' = len ds ∧
    ∀ i p, zget best' i = Some p → reaches_priority i p ∧ ∀ q, reaches_priority i q → p ≤ q.
Proof using Hwf.
  revert best. induction fuel as [|fuel IH]; intros best Hlo Hf; [lia|]. cbn [priority_loop].
  destruct (priority_pass_spec ds 0 best false states_from_start Hlo) as (best' & ch & -> & Hlo' & Hout).
  cbn [mbind go_bind]. destruct Hout as [(-> & -> & Hbal)|[-> Hlt]]; [|apply IH; [done|lia]].
  exists best. split_and!; [done|apply Hlo|]. intros i p Hp. split; [by apply (lo_from _ Hlo)|].
  intros q (j & Hr & Hj & <-). revert p Hp. induction Hr as [x|x y z Hxy Hyz IHr]; intros p Hp.
  { by apply (lo_own _ Hlo). }
  pose proof (successor_range _ _ Hxy) as Hy. destruct (zget_in_range best y) as [b Hb]; [rewrite (lo_len _ Hlo); lia|].
  etrans; [|by apply (IHr Hj b)]. destruct Hxy as (d & t & Hd & Ht & <-).
  eapply Hbal; [done..| |done|done]. apply zget_Some_range in Hd. lia.
Qed.

Lemma lowest_start : lowest (map own_priority ds).
Proof using.
  split.
  - unfold len. by rewrite length_map.
  - intros i b. unfold priority_of. rewrite zget_map. destruct (zget ds i); [|done]. cbn. intros [= <-]. done.
  - intros i b. rewrite zget_map. destruct (zget ds i) as [d|] eqn:Hd; [|done]. cbn. intros [= <-].
    exists i. pose proof (zget_Some_range _ _ _ Hd). split_and!; [apply rtc_refl|lia..|]. unfold priority_of. by rewrite Hd.
Qed.

Lemma priority_exact : ∃ best, priority_loop (priority_fuel (length ds)) ds (map own_priority ds) = Ret best ∧
  len best = len ds ∧
  ∀ i p, zget best i = Some p → reaches_priority i p ∧ ∀ q, reaches_priority i q → p ≤ q.
Proof using Hwf.
  apply priority_loop_spec; [apply lowest_start|]. unfold priority_fuel, ranks.
  pose proof (total_of_bound rank (length ds) (map own_priority ds)) as Hb. rewrite length_map in Hb.
  assert (total_of rank (map own_priority ds) ≤ length ds * length ds)%nat; [|lia].
  apply Hb. apply list.Forall_forall. intros p _. unfold rank. apply length_filter.
Qed.

(** ** The transitions that stay *)

Section kept.
Context (immediateSyms : gmap Z bool).

(** What a path may lead to so that an immediate token gives way to it: another
    immediate token, or a token of better priority. *)
Definition leads_on (d : dfaState) (t : dfaTransition) : Prop :=
  reaches_goal (accepts_immediate immediateSyms) (dnext t)
  ∨ ∃ p, reaches_priority (dnext t) p ∧ p < dacceptPriority d.

Record pruned (d d' : dfaState) : Prop := {
  pr_accept : daccept d' = daccept d ∧ dacceptPriority d' = dacceptPriority d ∧ dskip d' = dskip d;
  pr_other : accepts_immediate immediateSyms d = false → dtransitions d' = dtransitions d;
  pr_order : sublist (dtransitions d') (dtransitions d);
  pr_kept t : accepts_immediate immediateSyms d = true →
    t ∈ dtransitions d' ↔ t ∈ dtransitions d ∧ leads_on d t }.

Context (can : list bool) (best : list Z) (Hcl : len can = len ds) (Hbl : len best = len ds).
Context (Hcan : ∀ i, 0 ≤ i < len ds → zget can i = Some true ↔ reaches_goal (accepts_immediate immediateSyms) i).
Context (Hbest : ∀ i p, zget best i = Some p → reaches_priority i p ∧ ∀ q, reaches_priority i q → p ≤ q).

Lemma kept_transitions_spec d ts : Forall (λ t, 0 ≤ dnext t < len ds) ts →
  ∃ ts', kept_transitions can best (dacceptPriority d) ts = Ret ts' ∧ sublist ts' ts ∧
    ∀ t, t ∈ ts' ↔ t ∈ ts ∧ leads_on d t.
Proof using Hcl Hbl Hcan Hbest.
  induction 1 as [|t ts Ht _ (ts' & Hrun & Hsub & Hin)]; cbn [kept_transitions].
  { exists []. split_and!; [done..|]. intros t. split; [by intros ?%elem_of_nil|by intros [?%elem_of_nil _]]. }
  destruct (index_in_range can (dnext t)) as (c & -> & Hc); [lia|].
  destruct (index_in_range best (dnext t)) as (b & Hbi & Hb); [lia|]. cbn [mbind go_bind].
  assert (∃ x, (if c then Ret 0 else index best (dnext t)) = Ret x ∧ (c = true ∨ x < dacceptPriority d ↔ leads_on d t)) as (x & -> & Hx).
  { specialize (Hcan _ Ht). rewrite Hc in Hcan. unfold leads_on. destruct c.
    - exists 0. split; [done|]. naive_solver.
    - exists b. split; [done|]. destruct (Hbest _ _ Hb) as [Hr Hmin]. split.
      + intros [?|?]; [done|]. right. by exists b.
      + intros [?%Hcan|(p & Hp%Hmin & ?)]; [done|]. right. lia. }
  cbn [mbind go_bind]. rewrite Hrun. cbn [mbind go_bind].
  destruct (c || (x <? dacceptPriority d)) eqn:E.
  - exists (t :: ts'). split_and!; [done|by constructor|]. intros t'. rewrite !elem_of_cons, Hin.
    assert (leads_on d t) by (apply Hx; lia). naive_solver.
  - exists ts'. split_and!; [done|by constructor|]. intros t'. rewrite elem_of_cons, Hin.
    assert (¬ leads_on d t) by (intros [->|?]%Hx; [done|lia]). naive_solver.
Qed.

Lemma prune_states_spec rest i : states_from i rest →
  ∃ rest', prune_states immediateSyms can best rest = Ret rest' ∧ Forall2 pruned rest rest'.
Proof using Hcl Hbl Hcan Hbest Hwf.
  revert i. induction rest as [|d rest IH]; intros i Hfrom; cbn [prune_states]; [exists []; done|].
  destruct (states_from_cons _ _ _ Hfrom) as (Hd & Hfrom' & Hi).
  destruct (IH _ Hfrom') as (rest' & Hrest & Hall). destruct (Hwf i d Hd) as (_ & _ & Hacc).
  assert ((daccept d =? 0) || negb (sym_in immediateSyms (daccept d)) = negb (accepts_immediate immediateSyms d)) as ->.
  { unfold accepts_immediate. rewrite negb_andb. f_equal. lia. }
  destruct (accepts_immediate immediateSyms d) eqn:E; cbn [negb].
  - destruct (kept_transitions_spec d _ (targets_range _ _ Hd)) as (ts & -> & Hsub & Hin). cbn [mbind go_bind].
    rewrite Hrest. eexists. split; [done|]. constructor; [|done]. split; cbn; [done|congruence|done|naive_solver].
  - cbn [mbind go_bind]. rewrite Hrest. eexists. split; [done|]. constructor; [|done].
    split; cbn; [done|done|done|congruence].
Qed.
End kept.

Lemma prune_outcome immediateSyms :
  ∃ ds', pruneImmediateTransitions ds immediateSyms = Ret ds' ∧ Forall2 (pruned immediateSyms) ds ds'.
Proof using Hwf.
  unfold pruneImmediateTransitions.
  destruct (reach_exact (accepts_immediate immediateSyms)) as (can & -> & Hcl & Hcan).
  destruct priority_exact as (best & -> & Hbl & Hbest). cbn [mbind go_bind].
  by apply (prune_states_spec immediateSyms can best Hcl Hbl Hcan Hbest ds 0), states_from_start.
Qed.
End prune.

Lemma StronglySorted_sublist {A} (R : A → A → Prop) l k : sublist l k → StronglySorted R k → StronglySorted R l.
Proof.
  induction 1 as [|x l k Hs IH|x l k Hs IH]; [done|..]; inversion_clear 1 as [|? ? Hk Hx]; [|auto].
  constructor; [auto|]. rewrite list.Forall_forall in Hx |- *. intros y Hy. apply Hx. by eapply elem_of_sublist.
Qed.

(** A pruned automaton is well formed. *)
Lemma pruned_wf imm ds ds' : dfa_wf ds → Forall2 (pruned ds imm) ds ds' → dfa_wf ds'.
Proof.
  intros Hwf Hall. assert (len ds' = len ds) as Hl by (unfold len; by rewrite (Forall2_length _ _ _ Hall)).
  intros i d' Hd'. pose proof (zget_Some_range _ _ _ Hd') as Hi. rewrite Hl in Hi.
  destruct (zget_in_range ds i Hi) as [d Hd]. assert (pruned ds imm d d') as [(Ha & _ & _) _ Hsub _].
  { unfold zget in Hd, Hd'. replace (0 <=? i) with true in * by lia.
    destruct (Forall2_lookup_l _ _ _ _ _ Hall Hd) as (x & Hx & Hp). by simplify_eq. }
  destruct (Hwf i d Hd) as (Hs & Hf & H0). split_and!; [| |by rewrite Ha].
  - by eapply StronglySorted_sublist.
  - rewrite Hl. rewrite list.Forall_forall in Hf |- *. intros t Ht. apply Hf. by eapply elem_of_sublist.
Qed.

(** C35.  On every well-formed automaton [pruneImmediateTransitions] ends, and
    changes nothing but the transitions of the states that accept an immediate
    token.  Such a state keeps, in order, exactly the transitions from which an
    immediate accept can be reached, or an accept whose priority number is lower
    than its own. *)
Theorem pruneImmediateTransitions_exact ds immediateSyms :
  dfa_wf ds →
  ∃ ds', pruneImmediateTransitions ds immediateSyms = Ret ds' ∧ dfa_wf ds' ∧
    Forall2 (pruned ds immediateSyms) ds ds'.
Proof.
  intros Hwf. destruct (prune_outcome ds Hwf immediateSyms) as (ds' & Hrun & Hall).
  exists ds'. split_and!; [done|by eapply pruned_wf|done].
Qed.

(** A character that may start an escape: state 1 accepts the immediate token 5
    and leads to the token 7 of better priority on a digit, and to the token 8
    of worse priority on a letter. *)
Definition sample_escape : list dfaState :=
  [mkDfaState [mkDfaTransition 92 92 1] 0 maxInt false;
   mkDfaState [mkDfaTransition 48 57 2; mkDfaTransition 97 122 3] 5 (-500) false;
   mkDfaState [] 7 (-1000) false; mkDfaState [] 8 0 false].

Lemma sample_escape_wf : dfa_wf sample_escape.
Proof.
  intros q d Hd. pose proof (zget_Some_range _ _ _ Hd) as Hq. change (len sample_escape) with 4 in *.
  assert (q = 0 ∨ q = 1 ∨ q = 2 ∨ q = 3) as [-> |[-> |[-> | ->]]] by lia; injection Hd as <-.
  all: split_and!; [repeat (constructor; cbn; try lia)..|cbn; lia].
Qed.

Lemma pruneImmediateTransitions_exact_witness :
  ∃ ds', pruneImmediateTransitions sample_escape {[ 5 := true ]} = Ret ds' ∧
    zget ds' 1 = Some (mkDfaState [mkDfaTransition 48 57 2] 5 (-500) false) ∧
    Forall2 (pruned sample_escape {[ 5 := true ]}) sample_escape ds'.
Proof.
  destruct (pruneImmediateTransitions_exact sample_escape {[ 5 := true ]} sample_escape_wf) as (ds' & Hrun & _ & Hall).
  exists ds'. split_and!; [exact Hrun| |exact Hall]. vm_compute in Hrun. injection Hrun as <-. reflexivity.
Defined.
