(* ===== verification/LexPasses.v ===== *)
(** * The passes over the automaton of a lex mode

    grammargen/dfa.go between [subsetConstruction] and [convertDFAToLexStates]:
    the closure on maps of [epsilonClosure] (the one outside the scratch
    buffers), the runes that start a skipped extra, [fixExtrasOverrideConflicts]
    and [protectStringOperatorsFromLineComments].  Every pass returns, without a
    run-time panic, a well-formed automaton. *)

From Stdlib Require Import ZArith Lia ZifyBool.
From stdpp Require Import base tactics list numbers option gmap fin_sets fin_map_dom relations sorting.
From S2P Require Import Prelude Utf8 SliceSort StateError Regex RegexParse Nfa NfaPath NfaBuild NfaRegex NfaRule.
From S2P Require Import NfaRule NfaCombined Dfa DfaClosure DfaCorrect LexDfa LexBuild LexImmediate.
Local Open Scope Z_scope.

(** ** The closure on maps *)

Section map_closure.
Context (N : list nfaState) (Hwf : nfa_wf N) (seeds : list Z).

Record map_closing (busy : Z → Prop) (seen : gset Z) (stack : list Z) : Prop := {
  mc_states p : p ∈ seen → in_states N p;
  mc_stack p : p ∈ stack → p ∈ seen;
  mc_reach q : q ∈ seen → ∃ p, p ∈ seeds ∧ eps_reach N p q;
  mc_done p q : p ∈ seen → p ∉ stack → ¬ busy p → edges N p None q → q ∈ seen }.

Lemma map_closing_bound busy seen stack : map_closing busy seen stack → (size seen ≤ length N)%nat.
Proof.
  intros Cl. replace (length N) with (length (seqZ 0 (len N))) by (rewrite length_seqZ; unfold len; lia).
  unfold size, set_size. cbn. apply submseteq_length, NoDup_submseteq; [apply NoDup_elements|].
  intros p Hp%elem_of_elements%(mc_states _ _ _ Cl). apply elem_of_seqZ. unfold in_states in Hp. lia.
Qed.

(** The states of one list of transitions. *)
Lemma push_unseen_spec p st ts seen stack : zget N p = Some st → (∀ t, t ∈ ts → t ∈ transitions st) →
  p ∈ seen → map_closing (eq p) seen stack →
  let '(seen', stack') := foldl push_unseen (seen, stack) ts in
  map_closing (eq p) seen' stack' ∧ seen ⊆ seen' ∧
  (length stack' + size seen = length stack + size seen')%nat ∧
  ∀ t, t ∈ ts → tepsilon t = true → tnext t ∈ seen'.
Proof using Hwf.
  intros Hp. revert seen stack. induction ts as [|t ts IH]; intros seen stack Hts Hps Cl; cbn [foldl].
  { split_and!; [done..|]. by intros t ?%elem_of_nil. }
  assert (∀ t', t' ∈ ts → t' ∈ transitions st) as Hts' by (intros t' ?; apply Hts; by right).
  unfold push_unseen at 2. destruct (tepsilon t && _) eqn:E.
  - apply andb_true_iff in E as [Et Hn%negb_true_iff%bool_decide_eq_false].
    assert (edges N p None (tnext t)) as HE by (exists st, t; split_and!; [done|apply Hts; left|done..]).
    specialize (IH ({[ tnext t ]} ∪ seen) (tnext t :: stack) Hts' ltac:(set_solver)).
    destruct (foldl push_unseen _ ts) as [seen' stack'].
    destruct IH as (Cl' & Hsub & Hl & Hall).
    { destruct Cl as [Hst Hsk Hre Hdo]. split.
      - intros q [->%elem_of_singleton|?]%elem_of_union; [|auto].
        destruct (Hwf p st t Hp ltac:(apply Hts; left)) as [? _]. done.
      - intros q [->|?]%elem_of_cons; set_solver.
      - intros q [->%elem_of_singleton|?]%elem_of_union; [|auto].
        destruct (Hre p Hps) as (s & Hs & Hr). exists s. split; [done|].
        eapply (path_app _ _ [] _ [] _); [exact Hr|]. by apply (path_edge _ _ None).
      - intros x y Hx Hns Hb Hxy. apply elem_of_union. right.
        apply elem_of_union in Hx as [->%elem_of_singleton|Hx]; [set_solver|].
        apply (Hdo x y Hx); [set_solver|done|done]. }
    rewrite size_union, size_singleton in Hl by set_solver. cbn [length] in Hl.
    split_and!; [done|set_solver|lia|]. intros t' [->|?]%elem_of_cons ?; [set_solver|auto].
  - specialize (IH seen stack Hts' Hps Cl). destruct (foldl push_unseen _ ts) as [seen' stack'].
    destruct IH as (Cl' & Hsub & Hl & Hall). split_and!; [done..|].
    intros t' [->|?]%elem_of_cons Ht'; [|auto]. rewrite Ht' in E. cbn in E.
    apply negb_false_iff, bool_decide_eq_true in E. set_solver.
Qed.

Lemma map_closure_spec fuel seen stack : map_closing (λ _, False) seen stack →
  (length N + length stack ≤ fuel + size seen)%nat →
  ∃ seen', map_closure fuel N seen stack = Ret seen' ∧ map_closing (λ _, False) seen' [] ∧ seen ⊆ seen'.
Proof using Hwf.
  revert seen stack. induction fuel as [|fuel IH]; intros seen stack Cl Hf.
  { pose proof (map_closing_bound _ _ _ Cl). destruct stack; [by exists seen|cbn in Hf; lia]. }
  destruct stack as [|p stack]; [by exists seen|]. cbn [map_closure].
  assert (p ∈ seen) as Hp by (apply (mc_stack _ _ _ Cl); left).
  destruct (index_in_range N p (mc_states _ _ _ Cl p Hp)) as (st & -> & Hst). cbn [mbind go_bind].
  assert (map_closing (eq p) seen stack) as Cl1.
  { destruct Cl as [? ? ? Hdo]. split; [done|set_solver|done|]. intros x y Hx Hnx Hne. apply Hdo; [done|set_solver|tauto]. }
  pose proof (push_unseen_spec p st (transitions st) seen stack Hst (λ _ H, H) Hp Cl1) as Hpush.
  destruct (foldl push_unseen _ _) as [seen1 stack1].
  destruct Hpush as (Cl2 & Hsub & Hl & Hall).
  destruct (IH seen1 stack1) as (seen' & -> & Cl' & Hsub'); [|cbn in Hf; lia|].
  - destruct Cl2 as [? ? ? Hdo]. split; try done. intros x y Hx Hnx _ HE.
    destruct (decide (p = x)) as [<-|]; [|by eapply Hdo].
    destruct HE as (st' & t & Hst' & Ht & <- & He). simplify_eq. by apply Hall.
  - exists seen'. split_and!; [done..|set_solver].
Qed.
End map_closure.

Lemma remove_dups_id (l : list Z) : NoDup l → remove_dups l = l.
Proof. induction 1 as [|x l Hx Hl IH]; cbn; [done|]. destruct (decide_rel _ x l); [done|by f_equal]. Qed.

(** The closure on maps is the closure: the states reached without reading, in
    increasing order. *)
Lemma mapEpsilonClosure_closure `{SliceSort} N start seeds :
  nfa_wf N → Forall (in_states N) seeds → NoDup seeds →
  ∃ l, mapEpsilonClosure (mkNfa N start) seeds = Ret l ∧ closure_of N seeds l.
Proof.
  intros Hwf Hseeds Hnd. unfold mapEpsilonClosure. cbn [nfaStates].
  rewrite (remove_dups_id _ Hnd).
  destruct (map_closure_spec N Hwf seeds (length N) (list_to_set seeds) (reverse seeds)) as (seen & -> & Cl & Hsub).
  - rewrite list.Forall_forall in Hseeds. split.
    + intros p Hp%elem_of_list_to_set. by apply Hseeds.
    + intros p Hp. apply elem_of_list_to_set. by rewrite elem_of_reverse in Hp.
    + intros q Hq%elem_of_list_to_set. exists q. split; [done|constructor].
    + intros p q Hp%elem_of_list_to_set Hn. rewrite elem_of_reverse in Hn. done.
  - rewrite length_reverse, size_list_to_set by done. lia.
  - cbn [mbind go_bind]. eexists. split; [done|]. split_and!.
    + apply sort_ints_increasing, NoDup_elements.
    + apply list.Forall_forall. intros p. rewrite sort_ints_elem. intros Hp%elem_of_elements. by apply (mc_states _ _ _ _ _ Cl).
    + intros q. rewrite sort_ints_elem, elem_of_elements. split; [apply Cl|]. intros (p & Hp & Hr).
      apply (eps_closed N (λ x, x ∈ seen) p); [|by apply Hsub, elem_of_list_to_set|done].
      intros x y Hx HE. eapply (mc_done _ _ _ _ _ Cl); [done|set_solver|tauto|done].
Qed.

(** ** The runes that start an extra *)

Section extras.
Context `{SliceSort} (parseRegex : list Z → go (regexError + regexNode)) (skipExtras : gmap Z bool).

(** [r] can start a word of the terminal's automaton. *)
Definition starts_extra (p : TerminalPattern) (r : Z) : Prop :=
  tpRule p ≠ NilRule ∧ sym_in skipExtras (SymbolID p) = true ∧
  ∃ N y, buildCombinedNFA parseRegex [p] = Ret (inr (mkNfa N 0)) ∧ path (edges N) 0 [r] y.

Lemma read_ranges_spec N states : nfa_wf N → Forall (in_states N) states →
  ∃ ranges, read_ranges N states = Ret ranges ∧
    ∀ r, has_rune ranges r = true ↔ ∃ p y, p ∈ states ∧ edges N p (Some r) y.
Proof using.
  intros Hwf. induction 1 as [|p states Hp _ (ranges & Hrun & Hr)]; cbn [read_ranges].
  { exists []. split; [done|]. intros r. split; [done|]. by intros (p & y & ?%elem_of_nil & _). }
  destruct (index_in_range N p Hp) as (st & -> & Hst). cbn [mbind go_bind]. rewrite Hrun. eexists. split; [done|].
  intros r. unfold has_rune in *. rewrite existsb_app, orb_true_iff, Hr.
  fold (has_rune (map (λ t, mkRuneRange (tlo t) (thi t))
    (filter (λ t, tepsilon t = false ∧ tlo t ≤ thi t) (transitions st))) r). rewrite has_rune_elem.
  setoid_rewrite elem_of_cons. split.
  - intros [(x & (t & -> & Ht)%list_elem_of_fmap & Hx)|(q & y & Hq & HE)]; [|by exists q, y; auto].
    apply list_elem_of_filter in Ht as [[He _] Ht]. exists p, (tnext t). split; [by left|]. by exists st, t.
  - intros (q & y & [->|Hq] & HE); [|right; by exists q, y]. left.
    destruct HE as (st' & t & Hst' & Ht & <- & He & Hlo). simplify_eq.
    exists (mkRuneRange (tlo t) (thi t)). split; [|done]. apply list_elem_of_fmap. exists t. split; [done|].
    apply list_elem_of_filter. cbn in *. split; [split; [done|lia]|done].
Qed.

Lemma first_runes N : nfa_wf N → 0 < len N →
  ∃ l ranges, mapEpsilonClosure (mkNfa N 0) [0] = Ret l ∧ read_ranges N l = Ret ranges ∧
    ∀ r, has_rune ranges r = true ↔ ∃ y, path (edges N) 0 [r] y.
Proof.
  intros Hwf Hl. destruct (mapEpsilonClosure_closure N 0 [0] Hwf) as (l & Hrun & Hinc & Hst & Hin).
  { constructor; [unfold in_states; lia|constructor]. } { apply NoDup_singleton. }
  destruct (read_ranges_spec N l Hwf Hst) as (ranges & Hread & Hr). exists l, ranges. split_and!; [done..|].
  intros r. rewrite Hr. split.
  - intros (p & y & (s & ->%list_elem_of_singleton & Hs)%Hin & HE). exists y. apply path_rune_inv.
    exists p, y. split_and!; [done..|constructor].
  - intros (y & (p & z & Hp & HE & _)%path_rune_inv). exists p, z. split; [|done]. apply Hin. exists 0. split; [left|done].
Qed.

Lemma terminal_bounds_one ps p : terminal_bounds ps → p ∈ ps → terminal_bounds [p].
Proof.
  intros [Hb Hl] Hp. rewrite list.Forall_forall in Hb. split; [|done]. constructor; [by apply Hb|constructor].
Qed.

Lemma extras_first_spec ps sym chars :
  forallb (terminal_ok parseRegex) ps = true → terminal_bounds ps → 0 ≤ sym →
  ∃ sym' chars', extras_first parseRegex skipExtras ps sym chars = Ret (sym', chars') ∧ 0 ≤ sym' ∧
    ∀ r, has_rune chars' r = true ↔ has_rune chars r = true ∨ ∃ p, p ∈ ps ∧ starts_extra p r.
Proof.
  intros Hok Hb. revert sym chars. induction ps as [|p ps IH]; intros sym chars Hs; cbn [extras_first].
  { exists sym, chars. split_and!; [done..|]. intros r. split; [by left|]. by intros [?|(p & ?%elem_of_nil & _)]. }
  cbn [forallb] in Hok. apply andb_true_iff in Hok as [Hp Hok].
  assert (terminal_bounds ps) as Hb'.
  { destruct Hb as [Hf Hl]. apply list.Forall_cons_1 in Hf as [_ Hf]. rewrite len_cons in Hl. split; [done|lia]. }
  assert (terminal_bounds [p]) as Hb1 by (eapply terminal_bounds_one; [exact Hb|left]).
  specialize (IH Hok Hb'). assert (¬ (∃ r, starts_extra p r) →
    ∃ sym' chars', extras_first parseRegex skipExtras ps sym chars = Ret (sym', chars') ∧ 0 ≤ sym' ∧
    ∀ r, has_rune chars' r = true ↔ has_rune chars r = true ∨ ∃ p', p' ∈ p :: ps ∧ starts_extra p' r) as Hskip.
  { intros Hn. destruct (IH sym chars Hs) as (sym' & chars' & Hrun & Hs' & Hr). exists sym', chars'.
    split_and!; [done..|]. intros r. rewrite Hr. setoid_rewrite elem_of_cons. naive_solver. }
  destruct (tpRule p) as [|kind value children m pr] eqn:Hrule; [apply Hskip; intros [r [? _]]; congruence|].
  destruct (negb _) eqn:Hskipped; [apply Hskip; intros [r (_ & Hsym & _)]; by rewrite Hsym in Hskipped|].
  clear Hskip. apply negb_false_iff in Hskipped.
  assert (forallb (terminal_ok parseRegex) [p] = true) as Hok1 by (cbn; by rewrite Hp).
  destruct (combined_exact parseRegex [p] Hok1) as (N & Hrun & _).
  destruct (combined_bounded _ _ _ Hok1 Hb1 Hrun) as (Hwf & _ & HN).
  destruct (first_runes N Hwf HN) as (l & ranges & Hl & Hread & Hfirst).
  rewrite Hrun. cbn [mbind go_bind nfaStart nfaStates]. rewrite Hl. cbn [mbind go_bind]. rewrite Hread. cbn [mbind go_bind].
  destruct (IH (if sym =? 0 then SymbolID p else sym) (chars ++ ranges)) as (sym' & chars' & Hrun' & Hs' & Hr).
  { destruct Hb1 as [Hf _]. apply list.Forall_cons_1 in Hf as [[? _] _]. zcases; lia. }
  exists sym', chars'. split_and!; [done..|]. intros r. rewrite Hr. unfold has_rune at 1. rewrite existsb_app, orb_true_iff.
  fold (has_rune chars r) (has_rune ranges r). rewrite Hfirst. setoid_rewrite elem_of_cons.
  assert ((∃ y, path (edges N) 0 [r] y) ↔ starts_extra p r) as ->; [|naive_solver].
  split; [intros [y Hy]; split_and!; [congruence|done|by exists N, y]|].
  intros (_ & _ & N' & y & Hrun2 & Hy). rewrite Hrun in Hrun2. injection Hrun2 as <-. by exists y.
Qed.
End extras.

(** ** Well-formed states *)

Definition ranges_in (n : Z) (ts : list dfaTransition) : Prop :=
  StronglySorted (λ a b, dhi a < dlo b) ts ∧
  Forall (λ t, dlo t ≤ dhi t < 2 ^ 31 - 1 ∧ - 2 ^ 31 ≤ dlo t ∧ 0 ≤ dnext t < n) ts.

Definition state_in (n : Z) (d : dfaState) : Prop := ranges_in n (dtransitions d) ∧ 0 ≤ daccept d.

Lemma dfa_wf_states ds : dfa_wf ds ↔ Forall (state_in (len ds)) ds.
Proof.
  unfold dfa_wf, state_in, ranges_in. rewrite list.Forall_forall. split.
  - intros Hwf d [i [_ Hi]]%elem_zget. destruct (Hwf i d Hi) as (? & ? & ?). done.
  - intros Hall q d Hd%zget_elem%Hall. tauto.
Qed.

Lemma ranges_in_mono n m ts : n ≤ m → ranges_in n ts → ranges_in m ts.
Proof. intros Hnm [Hs Hf]. split; [done|]. eapply Forall_impl; [exact Hf|]. cbn. lia. Qed.

Lemma states_in_mono n m ds : n ≤ m → Forall (state_in n) ds → Forall (state_in m) ds.
Proof.
  intros Hnm Hall. eapply Forall_impl; [exact Hall|]. intros d [Hr Ha]. split; [by eapply ranges_in_mono|done].
Qed.

(** Skip marks change nothing that a run sees. *)
Lemma mark_skips_wf skipExtras ds : dfa_wf ds → dfa_wf (mark_skips skipExtras ds).
Proof.
  rewrite !dfa_wf_states. unfold mark_skips. intros Hall.
  assert (len (map (λ d, if (0 <? daccept d) && sym_in skipExtras (daccept d)
    then mkDfaState (dtransitions d) (daccept d) (dacceptPriority d) true else d) ds) = len ds) as ->
    by (unfold len; by rewrite length_map).
  apply Forall_fmap. eapply Forall_impl; [exact Hall|]. intros d Hd. cbn. by case_match.
Qed.

Lemma mark_skips_len skipExtras ds : len (mark_skips skipExtras ds) = len ds.
Proof. unfold mark_skips, len. by rewrite length_map. Qed.

(** ** Extras that a token overrides *)

Lemma count_targets_returns ds ts counts total : Forall (λ t, 0 ≤ dnext t < len ds) ts →
  ∃ counts' total', count_targets ds ts counts total = Ret (counts', total').
Proof.
  intros Hts. revert counts total. induction Hts as [|t ts Ht _ IH]; intros counts total; cbn [count_targets]; [by eexists _, _|].
  destruct (index_in_range ds (dnext t) Ht) as (d & -> & _). cbn [mbind go_bind]. case_match; apply IH.
Qed.

(** A transition of the same range, to a state. *)
Definition retargets (n : Z) (t t' : dfaTransition) : Prop := dlo t' = dlo t ∧ dhi t' = dhi t ∧ 0 ≤ dnext t' < n.

Lemma retargets_ranges n m ts ts' : ranges_in n ts → Forall2 (retargets m) ts ts' → ranges_in m ts'.
Proof.
  intros [Hs Hf] H2. split.
  - clear Hf. induction H2 as [|t t' ts ts' (Hl & Hh & _) H2 IH]; [constructor|].
    inversion_clear Hs as [|? ? Hs' Hx]. constructor; [auto|]. rewrite Hh. clear IH Hs'.
    induction H2 as [|u u' us us' (Hu & _ & _) _ IH]; [constructor|].
    apply list.Forall_cons_1 in Hx as [? ?]. constructor; [by rewrite Hu|auto].
  - clear Hs. induction H2 as [|t t' ts ts' (Hl & Hh & Hn) H2 IH]; [constructor|].
    apply list.Forall_cons_1 in Hf as [Ht Hf]. constructor; [lia|auto].
Qed.

Section fix_extras.
Context (chars : list runeRange) (protected : gmap Z bool) (counts : gmap Z Z) (total skipSymID : Z).
Context (Hsym : 0 ≤ skipSymID).

Lemma redirect_loop_wf ts dfa : Forall (state_in (len dfa)) dfa → Forall (λ t, 0 ≤ dnext t < len dfa) ts →
  ∃ ts' ext, redirect_loop chars protected counts total skipSymID ts dfa = Ret (ts', dfa ++ ext) ∧
    Forall (state_in (len (dfa ++ ext))) (dfa ++ ext) ∧ Forall2 (retargets (len (dfa ++ ext))) ts ts'.
Proof using Hsym.
  revert dfa. induction ts as [|t ts IH]; intros dfa Hall Hts; cbn [redirect_loop].
  { exists [], []. rewrite app_nil_r. split_and!; [done|done|constructor]. }
  apply list.Forall_cons_1 in Hts as [Ht Hts].
  assert (∃ ts' ext, ('(ts, dfa) ← redirect_loop chars protected counts total skipSymID ts dfa; Ret (t :: ts, dfa))
      = Ret (ts', dfa ++ ext) ∧
    Forall (state_in (len (dfa ++ ext))) (dfa ++ ext) ∧ Forall2 (retargets (len (dfa ++ ext))) (t :: ts) ts') as Hkeep.
  { destruct (IH dfa Hall Hts) as (ts' & ext & -> & Hall' & H2). exists (t :: ts'), ext. split_and!; [done..|].
    constructor; [|done]. rewrite len_app. pose proof (len_nonneg ext). split_and!; [done..|lia|lia]. }
  destruct (negb _); [done|]. destruct (index_in_range dfa (dnext t) Ht) as (target & -> & Htg). cbn [mbind go_bind].
  destruct (redirects _ _ _ target); [|done].
  set (d := mkDfaState (dtransitions target) skipSymID 2000 true).
  pose proof (Forall_zget _ _ _ _ Hall Htg) as [Hr _].
  destruct (IH (dfa ++ [d])) as (ts' & ext & -> & Hall' & H2).
  - rewrite len_app. change (len [d]) with 1. apply Forall_app. split; [by eapply states_in_mono; [|exact Hall]; lia|].
    constructor; [|constructor]. split; [by eapply ranges_in_mono; [|exact Hr]; lia|done].
  - rewrite len_app. change (len [d]) with 1. eapply Forall_impl; [exact Hts|]. cbn. lia.
  - cbn [mbind go_bind]. rewrite <-app_assoc in *. eexists _, ([d] ++ ext). split_and!; [done..|].
    constructor; [|done]. rewrite !len_app. change (len [d]) with 1. pose proof (len_nonneg dfa).
    pose proof (len_nonneg ext). split_and!; [done..|cbn; lia|cbn; lia].
Qed.

(** Nothing is redirected. *)
Lemma redirect_loop_id ts dfa : Forall (λ t, 0 ≤ dnext t < len dfa) ts →
  (∀ t d, t ∈ ts → zget dfa (dnext t) = Some d →
     all_extras (Z.to_nat (dhi t - dlo t + 1)) chars (dlo t) = true → redirects protected counts total d = false) →
  redirect_loop chars protected counts total skipSymID ts dfa = Ret (ts, dfa).
Proof using.
  induction 1 as [|t ts Ht Hts IH]; intros Hno; cbn [redirect_loop]; [done|].
  rewrite IH by (intros; eapply Hno; [by right|done..]).
  destruct (all_extras _ _ _) eqn:E; [|done]. cbn [negb].
  destruct (index_in_range dfa (dnext t) Ht) as (d & -> & Hd). cbn [mbind go_bind].
  by rewrite (Hno t d ltac:(left) Hd E).
Qed.
End fix_extras.

Lemma first_transition ts t : StronglySorted (λ a b, dhi a < dlo b) ts →
  Forall (λ t, dlo t ≤ dhi t) ts → t ∈ ts → head (filter (λ x, dlo x ≤ dlo t ≤ dhi x) ts) = Some t.
Proof.
  induction 1 as [|x ts Hs IH Hx]; intros Hf Ht; [by apply elem_of_nil in Ht|].
  apply list.Forall_cons_1 in Hf as [Hx0 Hf]. rewrite filter_cons.
  apply elem_of_cons in Ht as [->|Ht].
  - by rewrite decide_True by lia.
  - rewrite list.Forall_forall in Hx. specialize (Hx t Ht). rewrite decide_False by lia. by apply IH.
Qed.

(** ** Protected operators *)

Lemma state_after_range ds state rs : dfa_wf ds → 0 < len ds → 0 ≤ state < len ds →
  state_after ds state rs < len ds.
Proof.
  intros Hwf Hl. revert state. induction rs as [|r rs IH]; intros state Hs; cbn [state_after]; [lia|].
  destruct (zget ds state) as [d|] eqn:Hd; [|lia].
  destruct (head _) as [t|] eqn:Ht; [|lia]. zcases; [lia|]. apply IH.
  destruct (Hwf _ _ Hd) as (_ & Hf & _). rewrite list.Forall_forall in Hf. apply head_Some_elem_of in Ht.
  apply list_elem_of_filter in Ht as [_ Ht]. specialize (Hf t Ht). lia.
Qed.

Lemma protect_loop_wf protected ds : dfa_wf ds → 0 < len ds → Forall (λ x, 0 ≤ x.1) protected →
  ∃ ds', protect_loop protected ds = Ret ds' ∧ dfa_wf ds' ∧ len ds' = len ds.
Proof.
  intros Hwf Hl Hp. revert ds Hwf Hl. induction Hp as [|[sym lit] protected Hs Hp IH]; intros ds Hwf Hl; cbn [protect_loop]; [by exists ds|].
  zcases; [by apply IH|].
  pose proof (state_after_range ds 0 (runes_of lit) Hwf Hl ltac:(lia)) as Hr. fold (dfaStateAfterLiteral ds lit) in Hr.
  rewrite store_ok by lia. cbn [mbind go_bind].
  destruct (IH (<[Z.to_nat (dfaStateAfterLiteral ds lit) := mkDfaState [] sym 0 false]> ds)) as (ds' & Hrun & Hwf' & Hl').
  - apply dfa_wf_states. rewrite len_insert. apply Forall_insert; [by apply dfa_wf_states|].
    split; [split; constructor|done].
  - by rewrite len_insert.
  - rewrite len_insert in Hl'. by exists ds'.
Qed.

Lemma string_literals_symbols ps sym lit : string_literals ps !! sym = Some lit → ∃ p, p ∈ ps ∧ SymbolID p = sym.
Proof.
  revert sym lit. induction ps as [|p l IH] using rev_ind; intros sym lit; [done|].
  unfold string_literals. rewrite foldl_snoc. fold (string_literals l). intros Hl.
  assert (∀ lit, string_literals l !! sym = Some lit → ∃ q, q ∈ l ++ [p] ∧ SymbolID q = sym) as Hin.
  { intros lit' (q & Hq & Hs)%IH. exists q. split; [apply elem_of_app; by left|done]. }
  destruct (stringRuleValue (tpRule p)) as [v|]; [|by eapply Hin]. case_bool_decide; [|by eapply Hin].
  destruct (decide (SymbolID p = sym)) as [<-|].
  - exists p. split; [apply elem_of_app; right; left|done].
  - rewrite lookup_insert_ne in Hl by done. by eapply Hin.
Qed.

Section passes.
Context `{SliceSort, MapRange} (parseRegex : list Z → go (regexError + regexNode)).
Context (ps : list TerminalPattern) (skipExtras : gmap Z bool).
Context (Hok : forallb (terminal_ok parseRegex) ps = true) (Hb : terminal_bounds ps).

Lemma fixExtras_wf ds : dfa_wf ds → 0 < len ds →
  ∃ ds', fixExtrasOverrideConflicts parseRegex ds ps skipExtras = Ret ds' ∧ dfa_wf ds' ∧ 0 < len ds'.
Proof using Hok Hb.
  intros Hwf Hl. pose proof (proj1 (dfa_wf_states _) Hwf) as Hall. unfold fixExtrasOverrideConflicts.
  destruct ds as [|start rest] eqn:Eds; [done|]. rewrite <-Eds in *.
  destruct (extras_first_spec parseRegex skipExtras ps 0 [] Hok Hb) as (sym & chars & -> & Hs & _); [lia|]. cbn [mbind go_bind].
  destruct (_ || _); [by exists ds|].
  assert (state_in (len ds) start) as [Hr Ha] by (rewrite list.Forall_forall in Hall; apply Hall; rewrite Eds; left).
  assert (Forall (λ t, 0 ≤ dnext t < len ds) (dtransitions start)) as Hts.
  { destruct Hr as [_ Hf]. eapply Forall_impl; [exact Hf|]. cbn. lia. }
  destruct (count_targets_returns ds (dtransitions start) ∅ 0 Hts) as (counts & total & ->). cbn [mbind go_bind].
  destruct (total =? 0); [by exists ds|].
  destruct (redirect_loop_wf chars (symbols_of (protected_terminal skipExtras) ps) counts total sym Hs
    (dtransitions start) ds Hall Hts) as (ts & ext & -> & Hall' & H2). cbn [mbind go_bind].
  rewrite Eds in Hall', H2 |- *. cbn [app] in Hall', H2 |- *. eexists. split; [done|].
  apply list.Forall_cons_1 in Hall' as [_ Hall']. split; [|rewrite len_cons; pose proof (len_nonneg (rest ++ ext)); lia].
  apply dfa_wf_states. rewrite len_cons in *. constructor; [|done].
  split; [by eapply retargets_ranges|done].
Qed.

(** No token overrides an extra: every single rune that starts one is accepted
    as an extra, or as a token that stays as it is. *)
Definition no_override (ds : list dfaState) : Prop :=
  ∀ r q d, (∃ p, p ∈ ps ∧ starts_extra parseRegex skipExtras p r) → dfa_next ds 0 r = Some q → zget ds q = Some d →
    daccept d = 0 ∨ dskip d = true ∨
    sym_in (symbols_of (protected_terminal skipExtras) ps) (daccept d) = true.

Lemma fixExtras_id ds : dfa_wf ds → no_override ds →
  fixExtrasOverrideConflicts parseRegex ds ps skipExtras = Ret ds.
Proof using Hok Hb.
  intros Hwf Hno. unfold fixExtrasOverrideConflicts.
  destruct ds as [|start rest] eqn:Eds; [done|]. rewrite <-Eds in *.
  destruct (extras_first_spec parseRegex skipExtras ps 0 [] Hok Hb) as (sym & chars & -> & Hs & Hfirst); [lia|]. cbn [mbind go_bind].
  destruct (_ || _); [done|].
  assert (zget ds 0 = Some start) as Hst by (by rewrite Eds). destruct (Hwf 0 start Hst) as (Hsort & Hf & _).
  assert (Forall (λ t, 0 ≤ dnext t < len ds) (dtransitions start)) as Hts by (eapply Forall_impl; [exact Hf|]; cbn; lia).
  destruct (count_targets_returns ds (dtransitions start) ∅ 0 Hts) as (counts & total & ->). cbn [mbind go_bind].
  destruct (total =? 0); [done|]. rewrite redirect_loop_id; [|done|].
  - cbn [mbind go_bind]. rewrite Eds. by destruct start.
  - intros t d Ht Hd Hex. rewrite list.Forall_forall in Hf. pose proof (Hf t Ht) as Hrange.
    assert (has_rune chars (dlo t) = true) as Hc.
    { replace (Z.to_nat (dhi t - dlo t + 1)) with (S (Z.to_nat (dhi t - dlo t))) in Hex by lia.
      cbn [all_extras] in Hex. by apply andb_true_iff in Hex as [? _]. }
    apply Hfirst in Hc as [?|Hc]; [done|].
    assert (dfa_next ds 0 (dlo t) = Some (dnext t)) as Hnext.
    { unfold dfa_next. rewrite Hst. cbn. rewrite (first_transition _ t); [done|done| |done].
      apply list.Forall_forall. intros x Hx. specialize (Hf x Hx). lia. }
    unfold redirects. destruct (Hno _ _ _ Hc Hnext Hd) as [-> |[-> | ->]]; cbn; by rewrite ?andb_false_r.
Qed.

Lemma protect_wf ds : dfa_wf ds → 0 < len ds →
  ∃ ds', protectStringOperatorsFromLineComments ds ps = Ret ds' ∧ dfa_wf ds' ∧ len ds' = len ds.
Proof using Hb.
  clear Hok. intros Hwf Hl. unfold protectStringOperatorsFromLineComments.
  destruct ds as [|d rest] eqn:Eds; [by exists []|]. rewrite <-Eds in *. apply protect_loop_wf; [done..|].
  rewrite range_order_perm. apply list.Forall_forall. intros [sym lit] Hin%elem_of_map_to_list.
  apply map_lookup_filter_Some in Hin as [(p & Hp & <-)%string_literals_symbols _].
  destruct Hb as [Hf _]. rewrite list.Forall_forall in Hf. specialize (Hf p Hp). cbn. lia.
Qed.

Lemma protect_id ds : stringOperatorsWithLineCommentPrefix ps = ∅ →
  protectStringOperatorsFromLineComments ds ps = Ret ds.
Proof using.
  intros Hnone. unfold protectStringOperatorsFromLineComments. destruct ds; [done|].
  rewrite Hnone, map_to_list_empty. assert (range_order (@nil (Z * list Z)) = []) as ->; [|done].
  apply Permutation_nil_r. apply range_order_perm.
Qed.
End passes.
