(* ===== verification/LexModes.v ===== *)
(** * The automaton of a lex mode

    What [buildLexDFA] (grammargen/dfa.go) makes of the terminals of one mode
    before it turns the automaton into lexer states: construction and passes
    return a well-formed automaton unless the context is cancelled, and for a
    mode in which no pass has anything to settle the automaton accepts the
    winning terminal of every word. *)

From Stdlib Require Import ZArith Lia ZifyBool String.
From stdpp Require Import base tactics list numbers option gmap sorting.
From S2P Require Import Prelude Utf8 SliceSort StateError Regex RegexParse Nfa NfaPath NfaBuild NfaRegex NfaRule.
From S2P Require Import NfaRule NfaCombined Dfa DfaClosure DfaCorrect LexDfa LexBuild LexImmediate LexPasses RegexParseCorrect.
Local Open Scope Z_scope.

(** ** New states do not skip *)

Definition no_skips (ds : list dfaState) : Prop := Forall (λ d, dskip d = false) ds.

Section no_skips.
Context `{SliceSort} (N : list nfaState).

Lemma addDFAState_no_skips S s id s' :
  no_skips (dfaStates s) → addDFAState N S s = Ret (id, s') → no_skips (dfaStates s').
Proof.
  intros Hs Hrun. unfold addDFAState in Hrun. gsimpl. case_match; gsimpl; [done|].
  destruct (best_accept _ _ _) as [[[? ?] ?]| |]; gsimpl. apply Forall_app. split; [done|by repeat constructor].
Qed.

Lemma set_transitions_no_skips ds id f ds' : no_skips ds → set_transitions ds id f = Ret ds' → no_skips ds'.
Proof.
  unfold set_transitions. intros Hs Hrun. gsimpl.
  match goal with Hi : index ds id = Ret ?d |- _ => apply index_Ret in Hi; pose proof (Forall_zget _ _ _ _ Hs Hi) as Hd end.
  unfold store in *. case_match; [|done]. gsimpl. by apply Forall_insert.
Qed.

Lemma move_loop_no_skips cur moves s s' :
  no_skips (dfaStates s) → move_loop N cur moves s = Ret s' → no_skips (dfaStates s').
Proof.
  revert s. induction moves as [|m moves IH]; intros s Hs Hrun; cbn [move_loop] in Hrun; [by gsimpl|].
  destruct (closureForTargets N (mtargets m) s) as [[T s1]| |] eqn:Hcl; [|done..]. cbn [mbind go_bind] in Hrun.
  assert (dfaStates s1 = dfaStates s) as E1.
  { unfold closureForTargets in Hcl. destruct (find_closure _ _); [by simplify_eq|].
    destruct (epsilonClosure _ _ _) as [[? ?]| |]; cbn in Hcl; by simplify_eq. }
  case_bool_decide; [eapply IH; [|done]; by rewrite E1|].
  destruct (addDFAState N T s1) as [[id s2]| |] eqn:Hadd; [|done..]. cbn [mbind go_bind] in Hrun.
  destruct (set_transitions _ _ _) as [ds| |] eqn:Hset; [|done..]. cbn [mbind go_bind] in Hrun.
  eapply IH; [|done]. cbn. eapply set_transitions_no_skips; [|done].
  eapply addDFAState_no_skips; [|done]. by rewrite E1.
Qed.

Lemma work_loop_no_skips fuel cancelled iter s ds :
  no_skips (dfaStates s) → work_loop fuel cancelled N iter s = Ret (inr ds) → no_skips ds.
Proof.
  revert iter s. induction fuel as [|fuel IH]; intros iter s Hs Hrun; cbn [work_loop] in Hrun;
    (destruct (worklist s) as [|[cur S] rest]; [by gsimpl|]); [done|].
  destruct (_ && _); [done|]. destruct (expand_state _ _ _ _) as [s1| |] eqn:Hex; [|done..].
  cbn [mbind go_bind] in Hrun. eapply IH; [|done]. unfold expand_state in Hex.
  destruct (collectTransitionMoves N S) as [moves| |]; [|done..]. cbn [mbind go_bind] in Hex.
  destruct (if bool_decide (moves = []) then _ else _) as [ds1| |] eqn:E; [|done..]. cbn [mbind go_bind dfaStates] in *.
  eapply move_loop_no_skips; [|done]. cbn. case_bool_decide; [by gsimpl|]. by eapply set_transitions_no_skips.
Qed.

Lemma subsetConstruction_no_skips fuel cancelled start ds :
  subsetConstruction fuel cancelled (mkNfa N start) = Ret (inr ds) → no_skips ds.
Proof.
  unfold subsetConstruction. cbn [nfaStates nfaStart]. intros Hrun.
  destruct (epsilonClosure _ _ _) as [[S scr]| |]; [|done..]. cbn [mbind go_bind] in Hrun.
  destruct (addDFAState _ _ _) as [[id s]| |] eqn:Hadd; [|done..]. cbn [mbind go_bind] in Hrun.
  eapply work_loop_no_skips; [|done]. eapply addDFAState_no_skips; [|done]. constructor.
Qed.
End no_skips.

(** Skip marks leave the runs as they are. *)
Lemma zget_mark_skips skipExtras ds q :
  zget (mark_skips skipExtras ds) q =
  (λ d, if (0 <? daccept d) && sym_in skipExtras (daccept d)
        then mkDfaState (dtransitions d) (daccept d) (dacceptPriority d) true else d) <$> zget ds q.
Proof. apply zget_map. Qed.

Lemma mark_skips_next skipExtras ds q c : dfa_next (mark_skips skipExtras ds) q c = dfa_next ds q c.
Proof. unfold dfa_next. rewrite zget_mark_skips. destruct (zget ds q) as [d|]; cbn; [|done]. by case_match. Qed.

Lemma mark_skips_run skipExtras ds q w : dfa_run (mark_skips skipExtras ds) q w = dfa_run ds q w.
Proof.
  revert q. induction w as [|c w IH]; intros q; cbn [dfa_run]; [done|]. rewrite mark_skips_next.
  destruct (dfa_next ds q c); cbn; [apply IH|done].
Qed.

(** Exactly the accepting states of skipped extras are marked. *)
Definition skips_marked (skipExtras : gmap Z bool) (ds : list dfaState) : Prop :=
  ∀ q d, zget ds q = Some d → dskip d = (0 <? daccept d) && sym_in skipExtras (daccept d).

Lemma mark_skips_marked skipExtras ds : no_skips ds → skips_marked skipExtras (mark_skips skipExtras ds).
Proof.
  intros Hns q d. rewrite zget_mark_skips. destruct (zget ds q) as [e|] eqn:He; [|done]. cbn.
  pose proof (Forall_zget _ _ _ _ Hns He) as Hsk. cbn in Hsk. intros [= <-]. destruct (_ && _) eqn:E; cbn; congruence.
Qed.

(** ** The terminals of a mode *)

Lemma preferModePatterns_perm ps preferred : preferModePatterns ps preferred ≡ₚ ps.
Proof.
  unfold preferModePatterns. destruct (_ || _); [done|]. induction ps as [|p ps IH]; [done|].
  rewrite !filter_cons. destruct (sym_in preferred (SymbolID p)).
  - rewrite decide_True, decide_False by done. cbn. by rewrite IH.
  - rewrite decide_False, decide_True by done. rewrite <-Permutation_middle. by rewrite IH.
Qed.

Lemma modePatterns_perm patterns mode :
  modePatterns patterns mode ≡ₚ filter (λ p, sym_in (validSymbols mode) (SymbolID p) = true) patterns.
Proof. unfold modePatterns. case_match; [apply preferModePatterns_perm|done]. Qed.

Lemma modePatterns_ok parseRegex patterns mode :
  forallb (terminal_ok parseRegex) patterns = true → forallb (terminal_ok parseRegex) (modePatterns patterns mode) = true.
Proof.
  intros Hok%Forall_forallb. apply Forall_forallb. rewrite modePatterns_perm.
  rewrite list.Forall_forall in Hok |- *. intros p [_ Hp]%list_elem_of_filter. by apply Hok.
Qed.

Lemma modePatterns_bounds patterns mode : terminal_bounds patterns → terminal_bounds (modePatterns patterns mode).
Proof.
  intros [Hf Hl]. split.
  - rewrite modePatterns_perm. rewrite list.Forall_forall in Hf |- *. intros p [_ Hp]%list_elem_of_filter. by apply Hf.
  - pose proof (length_filter (λ p, sym_in (validSymbols mode) (SymbolID p) = true) patterns).
    unfold len in *. rewrite modePatterns_perm. lia.
Qed.

(** ** Construction and passes *)

Section mode.
Context `{SliceSort, MapRange} (parseRegex : list Z → go (regexError + regexNode)).
Context (fuel : nat) (cancelled : Z → Z → bool) (patterns : list TerminalPattern) (skipExtras : gmap Z bool).
Context (Hok : forallb (terminal_ok parseRegex) patterns = true) (Hb : terminal_bounds patterns).

(** Fuel for the subset construction of a mode: one round for every set of
    states of its NFA. *)
Definition fuel_enough (mode : lexModeSpec) : Prop :=
  ∀ N, buildCombinedNFA parseRegex (modePatterns patterns mode) = Ret (inr (mkNfa N 0)) → (2 ^ length N ≤ fuel)%nat.

Definition mode_cancelled (mi : Z) (e : lexBuildError) : Prop :=
  ∃ i n, cancelled mi i = true ∧ e = ModeError mi (SubsetCancelled n).

Lemma mode_dfa_wf mi mode : fuel_enough mode →
  (∃ e, mode_dfa parseRegex fuel cancelled patterns skipExtras mi mode = Ret (inl e) ∧ mode_cancelled mi e)
  ∨ ∃ ds, mode_dfa parseRegex fuel cancelled patterns skipExtras mi mode = Ret (inr ds) ∧ dfa_wf ds ∧ 0 < len ds.
Proof using Hok Hb.
  intros Hf. pose proof (modePatterns_ok _ _ mode Hok) as Hok'. pose proof (modePatterns_bounds _ mode Hb) as Hb'.
  unfold mode_dfa. set (ps := modePatterns patterns mode) in *.
  destruct (terminals_outcome parseRegex ps Hok' Hb') as (N & Hrun & Hout). rewrite Hrun. cbn [mbind go_bind].
  destruct (Hout fuel (cancelled mi) (Hf N Hrun)) as [(i & n & Hc & Hsub)|(ds & Hsub & Hwf & Hl & _ & _)];
    rewrite Hsub; cbn [mbind go_bind].
  { left. eexists. split; [done|]. by exists i, n. }
  right. assert (∃ ds1, (if (0 <? size (symbols_of Immediate ps))%nat
      then pruneImmediateTransitions ds (symbols_of Immediate ps) else Ret ds) = Ret ds1 ∧ dfa_wf ds1 ∧ len ds1 = len ds)
    as (ds1 & -> & Hwf1 & Hl1).
  { case_match; [|by exists ds]. destruct (prune_outcome ds Hwf (symbols_of Immediate ps)) as (ds1 & Hp & Hall).
    exists ds1. split_and!; [done|by eapply pruned_wf|]. unfold len. by rewrite (Forall2_length _ _ _ Hall). }
  cbn [mbind go_bind]. pose proof (mark_skips_wf skipExtras _ Hwf1) as Hwf2.
  assert (0 < len (mark_skips skipExtras ds1)) as Hl2 by (rewrite mark_skips_len; lia).
  set (ds2 := mark_skips skipExtras ds1) in *.
  assert (∃ ds3, (if skipWhitespace mode && (0 <? len ds2)
      then fixExtrasOverrideConflicts parseRegex ds2 ps skipExtras else Ret ds2) = Ret ds3 ∧ dfa_wf ds3 ∧ 0 < len ds3)
    as (ds3 & -> & Hwf3 & Hl3).
  { case_match; [|by exists ds2]. by apply fixExtras_wf. }
  cbn [mbind go_bind]. destruct (protect_wf ps Hb' ds3 Hwf3 Hl3) as (ds4 & -> & Hwf4 & Hl4).
  cbn [mbind go_bind]. exists ds4. split_and!; [done..|lia].
Qed.

(** A mode whose passes have nothing to settle: no immediate tokens, no token
    that overrides an extra, no operator that starts a line comment. *)
Record plain_mode (mode : lexModeSpec) : Prop := {
  plain_immediate : Forall (λ p, Immediate p = false) (modePatterns patterns mode);
  plain_extras r p k pat : skipWhitespace mode = true → p ∈ modePatterns patterns mode →
    starts_extra parseRegex skipExtras p r → winner parseRegex (modePatterns patterns mode) k pat [r] →
    sym_in skipExtras (SymbolID pat) = true ∨
    sym_in (symbols_of (protected_terminal skipExtras) (modePatterns patterns mode)) (SymbolID pat) = true;
  plain_operators : stringOperatorsWithLineCommentPrefix (modePatterns patterns mode) = ∅ }.

Lemma symbols_of_none P ps : Forall (λ p, P p = false) ps → symbols_of P ps = ∅.
Proof using.
  clear. unfold symbols_of. generalize (∅ : gmap Z bool) as m. intros m Hall. revert m.
  induction Hall as [|p ps Hp _ IH]; intros m; cbn [foldl]; [done|]. by rewrite Hp.
Qed.

Lemma mode_dfa_plain mi mode : fuel_enough mode → plain_mode mode →
  (∃ e, mode_dfa parseRegex fuel cancelled patterns skipExtras mi mode = Ret (inl e) ∧ mode_cancelled mi e)
  ∨ ∃ ds, mode_dfa parseRegex fuel cancelled patterns skipExtras mi mode = Ret (inr ds) ∧ dfa_wf ds ∧ 0 < len ds ∧
    (∀ w, dfa_run ds 0 w = Some 0 → w = []) ∧ accepts_winner parseRegex (modePatterns patterns mode) ds ∧
    skips_marked skipExtras ds.
Proof using Hok Hb.
  intros Hf [Himm Hext Hop]. pose proof (modePatterns_ok _ _ mode Hok) as Hok'.
  pose proof (modePatterns_bounds _ mode Hb) as Hb'.
  unfold mode_dfa. set (ps := modePatterns patterns mode) in *.
  destruct (terminals_outcome parseRegex ps Hok' Hb') as (N & Hrun & Hout). rewrite Hrun. cbn [mbind go_bind].
  destruct (Hout fuel (cancelled mi) (Hf N Hrun)) as [(i & n & Hc & Hsub)|(ds & Hsub & Hwf & Hl & Hst & Hw)];
    rewrite Hsub; cbn [mbind go_bind].
  { left. eexists. split; [done|]. by exists i, n. }
  right. rewrite (symbols_of_none _ _ Himm), map_size_empty. cbn [Nat.ltb Nat.leb mbind go_bind].
  pose proof (mark_skips_wf skipExtras _ Hwf) as Hwf2.
  pose proof (mark_skips_marked skipExtras ds (subsetConstruction_no_skips _ _ _ _ _ Hsub)) as Hm.
  assert (accepts_winner parseRegex ps (mark_skips skipExtras ds)) as Hw2.
  { intros w. rewrite mark_skips_run. specialize (Hw w). destruct (dfa_run ds 0 w) as [q|]; [|done].
    destruct Hw as (d & Hd & Hcase). rewrite zget_mark_skips, Hd. cbn. eexists. split; [done|].
    destruct (_ && _); exact Hcase. }
  set (ds2 := mark_skips skipExtras ds) in *.
  assert ((if skipWhitespace mode && (0 <? len ds2)
      then fixExtrasOverrideConflicts parseRegex ds2 ps skipExtras else Ret ds2) = Ret ds2) as ->.
  { destruct (skipWhitespace mode) eqn:Hsw; cbn [andb]; [|done]. destruct (0 <? len ds2); [|done].
    apply (fixExtras_id parseRegex ps skipExtras Hok' Hb'); [done|]. intros r q e (p & Hp & Hr) Hnext Hd.
    specialize (Hw2 [r]). cbn [dfa_run] in Hw2. rewrite Hnext in Hw2. cbn in Hw2.
    destruct Hw2 as (d' & Hd' & Hcase). rewrite Hd in Hd'. injection Hd' as <-. destruct Hcase as [[? _]|(k & pat & Hk & Ha & _)]; [by left|].
    rewrite Ha. right. destruct (Hext r p k pat eq_refl Hp Hr Hk) as [Hs|?]; [left|by right].
    rewrite (Hm q _ Hd), Ha, Hs, andb_true_r. destruct Hk as [[Hk _] _].
    destruct Hb' as [Hf' _]. rewrite list.Forall_forall in Hf'.
    pose proof (Hf' pat (list_elem_of_lookup_2 _ _ _ Hk)) as [Hpos _]. apply Z.ltb_lt. exact Hpos. }
  cbn [mbind go_bind]. rewrite (protect_id ps ds2 Hop). cbn [mbind go_bind].
  exists ds2. split_and!; [done|done| | |done|done].
  - unfold ds2. by rewrite mark_skips_len.
  - intros w. unfold ds2. rewrite mark_skips_run. apply Hst.
Qed.
End mode.

(** ** Operators and line comments *)

(** The division sign and a line comment kept as a pattern. *)
Definition slash_terminals : list TerminalPattern :=
  [mkTerminalPattern 1 (mkRule RuleString (bytes_of "/") [] 0 false) 0 false;
   mkTerminalPattern 2 (mkRule RulePattern (bytes_of "\/\/.*") [] 0 false) 0 false]%string.

Definition slash_mode : lexModeSpec := mkLexModeSpec {[ 1 := true; 2 := true ]} ∅ false.

Lemma range_order_singleton `{MapRange} {A} (x : A) : range_order [x] = [x].
Proof. apply Permutation_singleton_r, range_order_perm. Qed.

(** [protectStringOperatorsFromLineComments] takes any literal that is a
    prefix of the comment pattern for the comment marker.  With a division sign
    and a comment [//...] in one mode the automaton ends after the first slash,
    in whatever order the map is visited: the comment rule matches two slashes,
    and the automaton does not read them. *)
Theorem slash_operator_loses_comment `{MapRange} :
  ∃ ds, mode_dfa (RegexParse.parseRegex no_tables) 4096 (λ _ _, false) slash_terminals ∅ 0 slash_mode = Ret (inr ds) ∧
    dfa_run ds 0 [47; 47] = None ∧
    ∃ k pat, winner (RegexParse.parseRegex no_tables) (modePatterns slash_terminals slash_mode) k pat [47; 47] ∧
      SymbolID pat = 2.
Proof.
  set (ps := modePatterns slash_terminals slash_mode).
  assert (forallb (terminal_ok (RegexParse.parseRegex no_tables)) ps = true) as Hok by (vm_compute; reflexivity).
  assert (terminal_bounds ps) as Hb by (split; [repeat constructor; done|done]).
  destruct (terminals_outcome _ _ Hok Hb) as (N & HN & Hout).
  assert (2 ^ length N ≤ 4096)%nat as Hf
    by (clear Hout; vm_compute in HN; injection HN as <-; apply Nat.leb_le; vm_compute; reflexivity).
  destruct (Hout 4096%nat (λ _, false) Hf) as [(? & ? & [=] & _)|(ds & Hds & _ & _ & _ & Hw)].
  unfold mode_dfa. fold ps. rewrite HN. cbn [mbind go_bind]. rewrite Hds. cbn [mbind go_bind].
  assert (symbols_of Immediate ps = ∅) as -> by (vm_compute; reflexivity).
  unfold protectStringOperatorsFromLineComments.
  assert (stringOperatorsWithLineCommentPrefix ps = {[ 1 := [47] ]}) as -> by (vm_compute; reflexivity).
  rewrite map_to_list_singleton, range_order_singleton.
  vm_compute in HN. injection HN as <-. vm_compute in Hds. injection Hds as <-.
  destruct (Hw [47; 47]) as (d & Hd & Hcase). vm_compute in Hd. injection Hd as <-.
  eexists. split; [vm_compute; reflexivity|]. split; [reflexivity|].
  destruct Hcase as [[[=] _]|(k & pat & Hk & Ha & _)]. by exists k, pat.
Qed.
