(* ===== verification/LexBuildCorrect.v ===== *)
(** * The tables implement the automata

    [buildLexDFA] of grammargen/dfa.go turns the automaton of every lex mode into
    states of the runtime lexer, moves them behind the states of the modes before
    it, and minimises the whole.  [table_of] says that a table contains an
    automaton, under a numbering of its states; each step keeps it. *)

From Stdlib Require Import ZArith Lia ZifyBool.
From stdpp Require Import base tactics list numbers option gmap sorting.
From S2P Require Import Prelude Utf8 SliceSort StateError LexTable LexMinimize LexMinimizeCorrect.
From S2P Require Import Regex RegexParse RegexParseCorrect Nfa NfaCombined Dfa DfaCorrect LexDfa LexBuild LexImmediate LexPasses LexModes.
Local Open Scope Z_scope.

(** ** Lookup in ranges that are apart *)

(** No rune is in two transitions. *)
Definition apart (trs : list LexTransition) : Prop :=
  ∀ t u r, t ∈ trs → u ∈ trs → trLo t ≤ r ≤ trHi t → trLo u ≤ r ≤ trHi u → t = u.

Lemma tr_lookup_Some trs t r : apart trs → t ∈ trs → trLo t ≤ r ≤ trHi t →
  tr_lookup trs r = Some (trNextState t, trSkip t).
Proof.
  intros Hap Ht Hr. unfold tr_lookup. destruct (list_find _ trs) as [[k u]|] eqn:E.
  - apply list_find_Some in E as (Hu & Hur & _). apply list_elem_of_lookup_2 in Hu.
    by rewrite (Hap t u r Ht Hu Hr ltac:(lia)).
  - apply list_find_None in E. rewrite list.Forall_forall in E. by destruct (E t Ht).
Qed.

Lemma tr_lookup_None trs r : (∀ t, t ∈ trs → ¬ (trLo t ≤ r ≤ trHi t)) → tr_lookup trs r = None.
Proof.
  intros Hno. unfold tr_lookup. destruct (list_find _ trs) as [[k u]|] eqn:E; [|done].
  apply list_find_Some in E as (Hu & Hur & _). apply list_elem_of_lookup_2 in Hu. by destruct (Hno u Hu).
Qed.

Definition plain_transition (t : dfaTransition) : LexTransition := mkLexTransition (dlo t) (dhi t) (dnext t) false.

(** The lookup of a converted state, as a lookup in the automaton. *)
Lemma tr_lookup_convert ts r :
  tr_lookup (map plain_transition ts) r =
  (λ t, (dnext t, false)) <$> head (filter (λ t, dlo t ≤ r ≤ dhi t) ts).
Proof.
  induction ts as [|t ts IH]; [done|]. cbn [map]. rewrite tr_lookup_cons, filter_cons. cbn [plain_transition trLo trHi].
  case_decide; [done|exact IH].
Qed.

Lemma sorted_apart n ts : ranges_in n ts → ∀ t u r, t ∈ ts → u ∈ ts → dlo t ≤ r ≤ dhi t → dlo u ≤ r ≤ dhi u → t = u.
Proof.
  intros [Hs _]. induction Hs as [|x ts Hs IH Hx]; intros t u r Ht Hu; [by apply elem_of_nil in Ht|].
  rewrite list.Forall_forall in Hx.
  apply elem_of_cons in Ht as [->|Ht]; apply elem_of_cons in Hu as [->|Hu]; intros; [done|..|by eapply IH].
  - specialize (Hx u Hu). lia.
  - specialize (Hx t Ht). lia.
Qed.

(** ** Skipped blanks *)

Definition overlaps (ts : list dfaTransition) (ws : runeRange) : bool :=
  existsb (λ t, (dlo t <=? rhi ws) && (rlo ws <=? dhi t)) ts.

(** The runes that the start state skips. *)
Definition skipped_rune (ts : list dfaTransition) (r : Z) : bool :=
  existsb (λ ws, in_rune r ws && negb (overlaps ts ws)) wsRanges.

Arguments skipped_rune : simpl never.

Definition ws_transition (ws : runeRange) : LexTransition := mkLexTransition (rlo ws) (rhi ws) 0 true.

(** The blanks are added in order, each tested against what is there. *)
Lemma add_ws_elem ts wss : (∀ a b r, a ∈ wss → b ∈ wss → in_rune r a = true → in_rune r b = true → a = b) →
  Forall (λ a, rlo a ≤ rhi a) wss → NoDup wss →
  ∀ trs, (∀ ws, ws ∈ wss → existsb (λ t, (trLo t <=? rhi ws) && (rlo ws <=? trHi t)) trs = overlaps ts ws) →
  ∀ t, t ∈ foldl add_ws trs wss ↔ t ∈ trs ∨ ∃ ws, ws ∈ wss ∧ overlaps ts ws = false ∧ t = ws_transition ws.
Proof.
  intros Hdis Hne Hnd. induction Hnd as [|ws wss Hws Hnd IH]; intros trs Hov t; cbn [foldl].
  { split; [by left|]. by intros [?|(ws & ?%elem_of_nil & _)]. }
  apply list.Forall_cons_1 in Hne as [Hne0 Hne]. rewrite IH; [|intros a b r ? ?; apply Hdis; by right|done|].
  - unfold add_ws. rewrite (Hov ws ltac:(left)). setoid_rewrite elem_of_cons. destruct (overlaps ts ws) eqn:E.
    + naive_solver congruence.
    + rewrite elem_of_app, list_elem_of_singleton. unfold ws_transition. naive_solver.
  - intros ws' Hin. unfold add_ws. rewrite (Hov ws ltac:(left)). destruct (overlaps ts ws); [apply Hov; by right|].
    rewrite existsb_app, (Hov ws' ltac:(by right)). cbn [existsb trLo trHi].
    assert ((rlo ws <=? rhi ws') && (rlo ws' <=? rhi ws) = false) as ->; [|by rewrite !orb_false_r].
    destruct (_ && _) eqn:E; [|done]. rewrite list.Forall_forall in Hne. specialize (Hne ws' Hin).
    destruct Hws. rewrite (Hdis ws ws' (Z.max (rlo ws) (rlo ws'))); [done|left|by right|unfold in_rune; lia..].
Qed.

Lemma wsRanges_apart a b r : a ∈ wsRanges → b ∈ wsRanges → in_rune r a = true → in_rune r b = true → a = b.
Proof.
  unfold wsRanges, in_rune. rewrite !elem_of_cons, !elem_of_nil. intros [->|[->|[->|[]]]] [->|[->|[->|[]]]]; cbn; lia || done.
Qed.

Lemma overlaps_convert ts ws :
  existsb (λ t, (trLo t <=? rhi ws) && (rlo ws <=? trHi t)) (map plain_transition ts) = overlaps ts ws.
Proof. unfold overlaps. induction ts as [|t ts IH]; [done|]. cbn in *. by rewrite IH. Qed.

Lemma ws_elem ts t : t ∈ foldl add_ws (map plain_transition ts) wsRanges ↔
  t ∈ map plain_transition ts ∨ ∃ ws, ws ∈ wsRanges ∧ overlaps ts ws = false ∧ t = ws_transition ws.
Proof.
  apply add_ws_elem; [apply wsRanges_apart|by repeat (constructor; [cbn; lia|])| |intros; apply overlaps_convert].
  refine (bool_decide_unpack _ _). vm_compute. done.
Qed.

(** A blank that is added is in no transition of the state. *)
Lemma skipped_rune_spec ts r : skipped_rune ts r = true ↔
  ∃ ws, ws ∈ wsRanges ∧ in_rune r ws = true ∧ overlaps ts ws = false.
Proof.
  unfold skipped_rune. rewrite existsb_exists. split.
  - intros (ws & Hin%list_elem_of_In & [Hr Ho%negb_true_iff]%andb_true_iff). by exists ws.
  - intros (ws & Hin & Hr & Ho). exists ws. rewrite <-list_elem_of_In, Hr, Ho. done.
Qed.

Lemma overlaps_false ts ws t r : overlaps ts ws = false → t ∈ ts → in_rune r ws = true → ¬ (dlo t ≤ r ≤ dhi t).
Proof.
  unfold overlaps, in_rune. intros Hov Ht Hr Hin. apply not_true_iff_false in Hov. apply Hov, existsb_exists.
  exists t. rewrite <-list_elem_of_In. split; [done|lia].
Qed.

(** ** A table that contains an automaton *)

(** The move of a state: its transition, else, in the start state, a skip. *)
Definition step_of (ds : list dfaState) (skip : bool) (i r : Z) : option (Z * bool) :=
  match dfa_next ds i r with
  | Some j => Some (j, false)
  | None =>
    match zget ds i with
    | Some d => if (i =? 0) && skip && skipped_rune (dtransitions d) r then Some (0, true) else None
    | None => None
    end
  end.

Record entry (g : Z → Z) (ds : list dfaState) (skip : bool) (i : Z) (d : dfaState) (st : LexState) : Prop := {
  en_accept : lsAcceptToken st = u16 (daccept d);
  en_priority : lsAcceptPriority st = accept_priority d;
  en_skip : lsSkip st = dskip d;
  en_default : lsDefault st < 0;
  en_eof : lsEOF st < 0;
  en_lookup r : tr_lookup (lsTransitions st) r = recolored g (step_of ds skip i r) }.

Definition table_of (sts : list LexState) (g : Z → Z) (ds : list dfaState) (skip : bool) : Prop :=
  ∀ i d, zget ds i = Some d → ∃ st, zget sts (g i) = Some st ∧ entry g ds skip i d st.

Lemma table_of_range sts g ds skip i : table_of sts g ds skip → 0 ≤ i < len ds → 0 ≤ g i < len sts.
Proof. intros Ht [d Hd]%zget_in_range. destruct (Ht i d Hd) as (st & Hst & _). by apply zget_Some_range in Hst. Qed.

Lemma recolored_id x : recolored (λ q, q) x = x.
Proof. by destruct x as [[? ?]|]. Qed.

Lemma recolored_recolored f g x : recolored f (recolored g x) = recolored (λ q, f (g q)) x.
Proof. by destruct x as [[? ?]|]. Qed.

Section convert.
Context `{SliceSort} (ds : list dfaState) (Hwf : dfa_wf ds).

Lemma state_ranges i d : zget ds i = Some d → ranges_in (len ds) (dtransitions d).
Proof using Hwf. intros (? & ? & _)%Hwf. done. Qed.

Lemma convert_entry i d skip : zget ds i = Some d → (i =? 0) && skip = false →
  entry (λ q, q) ds skip i d (convert_state d).
Proof.
  intros Hd Hsk. split; cbn; [done..|lia|lia|]. intros r. rewrite recolored_id. unfold step_of, dfa_next.
  rewrite Hd. cbn. change (λ t, mkLexTransition (dlo t) (dhi t) (dnext t) false) with plain_transition.
  rewrite tr_lookup_convert. destruct (head _) as [t|]; cbn; [done|]. by rewrite Hsk.
Qed.

(** The start state with its blanks. *)
Lemma whitespace_entry d : zget ds 0 = Some d → entry (λ q, q) ds true 0 d (addWhitespaceSkip (convert_state d)).
Proof using Hwf.
  intros Hd. split; cbn; [done..|lia|lia|]. intros r. rewrite recolored_id. unfold step_of, dfa_next.
  rewrite Hd. cbn. change (λ t, mkLexTransition (dlo t) (dhi t) (dnext t) false) with plain_transition.
  set (trs := sort_slice _ _). assert (∀ t, t ∈ trs ↔ t ∈ map plain_transition (dtransitions d)
    ∨ ∃ ws, ws ∈ wsRanges ∧ overlaps (dtransitions d) ws = false ∧ t = ws_transition ws) as Hin.
  { intros t. unfold trs. rewrite sort_slice_perm. apply ws_elem. }
  pose proof (sorted_apart _ _ (state_ranges _ _ Hd)) as Hap. clearbody trs.
  assert (apart trs) as Htrs.
  { intros t u x Ht%Hin Hu%Hin Hx Hy.
    destruct Ht as [(t' & -> & Ht')%list_elem_of_fmap|(a & Ha & Hoa & ->)];
      destruct Hu as [(u' & -> & Hu')%list_elem_of_fmap|(b & Hb & Hob & ->)]; cbn in Hx, Hy.
    - by rewrite (Hap t' u' x).
    - by destruct (overlaps_false _ _ _ x Hob Ht'); [unfold in_rune; lia|].
    - by destruct (overlaps_false _ _ _ x Hoa Hu'); [unfold in_rune; lia|].
    - rewrite (wsRanges_apart a b x); [done|done|done|unfold in_rune; lia..]. }
  destruct (head _) as [t|] eqn:Ht; cbn.
  - apply head_Some_elem_of, list_elem_of_filter in Ht as [Hr Ht].
    apply (tr_lookup_Some _ (plain_transition t)); [done| |cbn; lia]. apply Hin. left. apply list_elem_of_fmap. by exists t.
  - assert (∀ t, t ∈ dtransitions d → ¬ (dlo t ≤ r ≤ dhi t)) as Hno.
    { intros t Ht' Hr. assert (t ∈ filter (λ t, dlo t ≤ r ≤ dhi t) (dtransitions d)) as Hf by (by apply list_elem_of_filter).
      destruct (filter _ _); [by apply elem_of_nil in Hf|done]. }
    destruct (skipped_rune (dtransitions d) r) eqn:Hs.
    + apply skipped_rune_spec in Hs as (ws & Hws & Hr & Hov). unfold in_rune in Hr.
      apply (tr_lookup_Some _ (ws_transition ws)); [done| |cbn; lia]. apply Hin. right. by exists ws.
    + apply tr_lookup_None. intros t [(t' & -> & Ht')%list_elem_of_fmap|(ws & Hws & Hov & ->)]%Hin; cbn; [by apply Hno|].
      intros Hr. assert (skipped_rune (dtransitions d) r = true); [|congruence].
      apply skipped_rune_spec. exists ws. split_and!; [done|unfold in_rune; lia|done].
Qed.

Lemma zget_convert skip i : zget (convertDFAToLexStates ds skip) i =
  (λ d, if (i =? 0) && skip then addWhitespaceSkip (convert_state d) else convert_state d) <$> zget ds i.
Proof using.
  clear Hwf. unfold convertDFAToLexStates. destruct ds as [|d l]; [cbn [map]; by rewrite !zget_nil|]. cbn [map].
  destruct (decide (i = 0)) as [->|Hne].
  - destruct skip; reflexivity.
  - replace (i =? 0) with false by lia. cbn [andb].
    destruct skip; rewrite !zget_cons_ne by done; apply zget_map.
Qed.

Lemma convert_table skip : table_of (convertDFAToLexStates ds skip) (λ q, q) ds skip.
Proof using Hwf.
  intros i d Hd. rewrite zget_convert, Hd. cbn. eexists. split; [done|].
  destruct ((i =? 0) && skip) eqn:E; [|by apply convert_entry].
  apply andb_true_iff in E as [->%Z.eqb_eq ->]. by apply whitespace_entry.
Qed.

(** The states are well formed for the minimiser. *)
Lemma convert_wf skip : 0 < len ds →
  Forall (lex_state_wf (len (convertDFAToLexStates ds skip))) (convertDFAToLexStates ds skip) ∧
  len (convertDFAToLexStates ds skip) = len ds.
Proof using Hwf.
  intros Hl. assert (len (convertDFAToLexStates ds skip) = len ds) as Hlen.
  { unfold convertDFAToLexStates. destruct ds as [|d l]; [done|]. cbn [map].
    destruct skip; rewrite !len_cons; unfold len; by rewrite length_map. }
  split; [|done]. rewrite Hlen. apply list.Forall_forall. intros st [i [_ Hi]]%elem_zget. rewrite zget_convert in Hi.
  destruct (zget ds i) as [d|] eqn:Hd; [|done]. cbn in Hi. injection Hi as <-.
  destruct (state_ranges i d Hd) as [_ Hf]. rewrite list.Forall_forall in Hf.
  assert (∀ t, t ∈ map plain_transition (dtransitions d) → 0 ≤ trNextState t < len ds ∧ tr_range t) as Hplain.
  { intros t (t' & -> & Ht')%list_elem_of_fmap. specialize (Hf t' Ht'). unfold tr_range. cbn. lia. }
  destruct (_ && _); cbn; (split_and!; cbn; [lia..|]); apply list.Forall_forall.
  - intros t. rewrite sort_slice_perm. intros [Ht|(ws & Hws & _ & ->)]%ws_elem; [by apply Hplain|].
    assert (0 ≤ rlo ws ≤ rhi ws ∧ rhi ws ≤ 32).
    { unfold wsRanges in Hws. rewrite !elem_of_cons, elem_of_nil in Hws. destruct Hws as [->|[->|[->|[]]]]; cbn; lia. }
    unfold tr_range, ws_transition. cbn. lia.
  - apply Hplain.
Qed.
End convert.

(** ** Modes side by side *)

Lemma step_of_target ds skip i r q sk : dfa_wf ds → step_of ds skip i r = Some (q, sk) → 0 ≤ q < len ds.
Proof.
  intros Hwf. unfold step_of, dfa_next. destruct (zget ds i) as [d|] eqn:Hd; cbn; [|done].
  pose proof (zget_Some_range _ _ _ Hd).
  destruct (head _) as [t|] eqn:Ht; cbn.
  - intros [= <- _]. apply head_Some_elem_of, list_elem_of_filter in Ht as [_ Ht].
    destruct (Hwf _ _ Hd) as (_ & Hf & _). rewrite list.Forall_forall in Hf. specialize (Hf t Ht). lia.
  - destruct (_ && _); [|done]. intros [= <- _]. lia.
Qed.

Lemma recolored_ext f g x : (∀ q sk, x = Some (q, sk) → f q = g q) → recolored f x = recolored g x.
Proof. destruct x as [[q sk]|]; [|done]. intros Heq. cbn. by rewrite (Heq q sk). Qed.

Lemma tr_lookup_shift offset trs r :
  tr_lookup (map (λ t, mkLexTransition (trLo t) (trHi t) (shift_target offset (trNextState t)) (trSkip t)) trs) r
  = recolored (shift_target offset) (tr_lookup trs r).
Proof.
  induction trs as [|t trs IH]; [done|]. cbn [map]. rewrite !tr_lookup_cons. cbn [trLo trHi trNextState trSkip].
  case_decide; [done|exact IH].
Qed.

Lemma shift_entry offset ds skip i d st : dfa_wf ds → entry (λ q, q) ds skip i d st →
  entry (λ q, offset + q) ds skip i d (shift_state offset st).
Proof.
  intros Hwf [Ha Hp Hs Hd He Hl]. assert (∀ q, q < 0 → shift_target offset q = q) as Hneg.
  { intros q Hq. unfold shift_target. by replace (0 <=? q) with false by lia. }
  split; cbn; [done..|rewrite Hneg; lia|rewrite Hneg; lia|]. intros r.
  rewrite tr_lookup_shift, Hl, recolored_id. apply recolored_ext. intros q sk [Hq _]%step_of_target; [|done].
  unfold shift_target. replace (0 <=? q) with true by lia. lia.
Qed.

Lemma entry_ext f g ds skip i d st : dfa_wf ds → (∀ q, 0 ≤ q < len ds → f q = g q) →
  entry f ds skip i d st → entry g ds skip i d st.
Proof.
  intros Hwf Hfg [Ha Hp Hs Hd He Hl]. split; [done..|]. intros r. rewrite Hl. apply recolored_ext.
  intros q sk Hq. by eapply Hfg, step_of_target.
Qed.

Definition shifted (offset : Z) (sts : list LexState) : list LexState :=
  if 0 <? offset then map (shift_state offset) sts else sts.

Lemma shifted_table pre sts ds skip : dfa_wf ds → table_of sts (λ q, q) ds skip →
  table_of (pre ++ shifted (len pre) sts) (λ q, len pre + q) ds skip.
Proof.
  intros Hwf Ht i d Hd. destruct (Ht i d Hd) as (st & Hst & He). pose proof (zget_Some_range _ _ _ Hst) as Hi.
  pose proof (len_nonneg pre). rewrite zget_app_r by lia. replace (len pre + i - len pre) with i by lia.
  unfold shifted. destruct (Z.ltb_spec 0 (len pre)).
  - exists (shift_state (len pre) st). rewrite zget_map, Hst. split; [done|]. by apply shift_entry.
  - exists st. split; [done|]. eapply entry_ext; [done| |exact He]. cbn. lia.
Qed.

Lemma table_of_app sts post g ds skip : table_of sts g ds skip → table_of (sts ++ post) g ds skip.
Proof.
  intros Ht i d Hd. destruct (Ht i d Hd) as (st & Hst & He). exists st. split; [|done].
  apply zget_Some_range in Hst as Hr. rewrite zget_app_l; [done|lia].
Qed.

Lemma lex_state_wf_mono n m sts : n ≤ m → Forall (lex_state_wf n) sts → Forall (lex_state_wf m) sts.
Proof.
  intros Hnm Hall. eapply Forall_impl; [exact Hall|]. intros st (Hd & He & Ht). split_and!; [lia..|].
  eapply Forall_impl; [exact Ht|]. cbn. intros t [? ?]. split; [lia|done].
Qed.

Lemma shifted_wf pre sts : Forall (lex_state_wf (len pre)) pre → Forall (lex_state_wf (len sts)) sts →
  Forall (lex_state_wf (len (pre ++ shifted (len pre) sts))) (pre ++ shifted (len pre) sts) ∧
  len (shifted (len pre) sts) = len sts.
Proof.
  intros Hpre Hsts. pose proof (len_nonneg pre). pose proof (len_nonneg sts).
  assert (len (shifted (len pre) sts) = len sts) as Hl.
  { unfold shifted. destruct (_ <? _); [|done]. unfold len. by rewrite length_map. }
  split; [|done]. rewrite len_app, Hl. apply Forall_app. split; [eapply lex_state_wf_mono; [|exact Hpre]; lia|].
  unfold shifted. destruct (Z.ltb_spec 0 (len pre)); [|eapply lex_state_wf_mono; [|exact Hsts]; lia].
  apply Forall_fmap. eapply Forall_impl; [exact Hsts|]. intros st (Hd & He & Ht). cbn.
  assert (∀ q, q < len sts → shift_target (len pre) q < len pre + len sts) as Hlt
    by (intros q Hq; unfold shift_target; zcases; lia).
  split_and!; cbn; [apply Hlt; lia..|]. apply Forall_fmap. eapply Forall_impl; [exact Ht|].
  intros t [Hn Hr]. cbn. split; [|done]. specialize (Hlt (trNextState t) ltac:(lia)). unfold shift_target in *. revert Hlt.
  zcases; lia.
Qed.

(** ** The minimised table *)

Lemma table_of_simulates sts out f g ds skip : dfa_wf ds →
  (∀ i s, zget sts i = Some s → ∃ s', zget out (f i) = Some s' ∧ simulates f s s') →
  table_of sts g ds skip → table_of out (λ q, f (g q)) ds skip.
Proof.
  intros Hwf Hsim Ht i d Hd. destruct (Ht i d Hd) as (st & Hst & [Ha Hp Hs Hdf He Hl]).
  destruct (Hsim _ _ Hst) as (st' & Hst' & [(Ea & Ep & Es) Hd' He' Hl']). exists st'. split; [done|].
  replace (0 <=? lsDefault st) with false in Hd' by lia. replace (0 <=? lsEOF st) with false in He' by lia.
  split; [congruence..|done|done|]. intros r. by rewrite Hl', Hl, recolored_recolored.
Qed.

(** ** All modes *)

Section modes.
Context `{SliceSort, MapRange} (parseRegex : list Z → go (regexError + regexNode)).
Context (fuel : nat) (cancelled : Z → Z → bool) (patterns : list TerminalPattern) (skipExtras : gmap Z bool).
Context (Hok : forallb (terminal_ok parseRegex) patterns = true) (Hb : terminal_bounds patterns).

Notation automaton := (mode_dfa parseRegex fuel cancelled patterns skipExtras).
Notation enough := (fuel_enough parseRegex fuel patterns).

(** The table contains the automaton of mode [mi], with its start at [off]. *)
Definition implements (sts : list LexState) (mi : Z) (mode : lexModeSpec) (off : Z) : Prop :=
  ∃ ds g, automaton mi mode = Ret (inr ds) ∧ dfa_wf ds ∧ 0 < len ds ∧ off = g 0 ∧
    table_of sts g ds (skipWhitespace mode).

Lemma implements_app sts post mi mode off : implements sts mi mode off → implements (sts ++ post) mi mode off.
Proof using. intros (ds & g & ? & ? & ? & ? & ?). exists ds, g. split_and!; [done..|]. by apply table_of_app. Qed.

Lemma modes_loop_spec modes mi all offs :
  Forall enough modes → Forall (lex_state_wf (len all)) all →
  (∃ e k, modes_loop parseRegex fuel cancelled patterns skipExtras mi modes all offs = Ret (inl e) ∧
     mode_cancelled cancelled k e)
  ∨ ∃ post new, modes_loop parseRegex fuel cancelled patterns skipExtras mi modes all offs
      = Ret (inr (all ++ post, offs ++ new)) ∧
    Forall (lex_state_wf (len (all ++ post))) (all ++ post) ∧ length new = length modes ∧
    ∀ k mode off, modes !! k = Some mode → new !! k = Some off →
      implements (all ++ post) (mi + Z.of_nat k) mode off.
Proof using Hok Hb.
  intros Hf. revert mi all offs. induction Hf as [|mode modes Hm Hf IH]; intros mi all offs Hall; cbn [modes_loop].
  { right. exists [], []. rewrite !app_nil_r. done. }
  destruct (mode_dfa_wf parseRegex fuel cancelled patterns skipExtras Hok Hb mi mode Hm)
    as [(e & He & Hc)|(ds & Hds & Hwf & Hl)].
  { left. exists e, mi. rewrite He. done. }
  rewrite Hds. cbn [mbind go_bind]. fold (shifted (len all) (convertDFAToLexStates ds (skipWhitespace mode))).
  set (sts := convertDFAToLexStates ds (skipWhitespace mode)).
  destruct (convert_wf ds Hwf (skipWhitespace mode) Hl) as [Hsts _]. fold sts in Hsts.
  destruct (shifted_wf all sts Hall Hsts) as [Hall' Hlen].
  destruct (IH (mi + 1) (all ++ shifted (len all) sts) (offs ++ [len all]) Hall')
    as [?|(post & new & Hrun & Hwf' & Hnew & Himp)]; [by left|right].
  exists (shifted (len all) sts ++ post), (len all :: new). rewrite <-!app_assoc in *. split_and!; [done|done|cbn; lia|].
  intros [|k] mode' off; cbn.
  - intros [= <-] [= <-]. exists ds, (λ q, len all + q). rewrite Z.add_0_r. split_and!; [done..|lia|].
    rewrite app_assoc. by apply table_of_app, shifted_table, convert_table.
  - intros Hk Hoff. replace (mi + Z.of_nat (S k)) with (mi + 1 + Z.of_nat k) by lia. by apply (Himp k).
Qed.

(** The tables fit 32-bit state numbers. *)
Definition tables_fit (modes : list lexModeSpec) : Prop :=
  ∀ sts offs, modes_loop parseRegex fuel cancelled patterns skipExtras 0 modes [] [] = Ret (inr (sts, offs)) →
    len sts < 2 ^ 31.

Lemma buildLexDFA_implements minimizeDisabled disabledEnv modes :
  Forall enough modes → tables_fit modes →
  (∃ e k, buildLexDFA parseRegex fuel cancelled patterns skipExtras minimizeDisabled disabledEnv modes = Ret (inl e) ∧
     mode_cancelled cancelled k e)
  ∨ ∃ sts offs,
    buildLexDFA parseRegex fuel cancelled patterns skipExtras minimizeDisabled disabledEnv modes = Ret (inr (sts, offs)) ∧
    len sts < 2 ^ 31 ∧ length offs = length modes ∧
    ∀ k mode off, modes !! k = Some mode → offs !! k = Some off → implements sts (Z.of_nat k) mode off.
Proof using Hok Hb.
  intros Hf Hfit. unfold buildLexDFA.
  destruct (modes_loop_spec modes 0 [] [] Hf ltac:(constructor)) as [(e & k & Hrun & Hc)|(sts & offs & Hrun & Hwf & Hl & Himp)].
  { left. exists e, k. by rewrite Hrun. }
  right. cbn [app] in *. pose proof (Hfit _ _ Hrun) as Hsize. rewrite Hrun. cbn [mbind go_bind].
  destruct minimizeDisabled; [exists sts, offs; split_and!; done|].
  destruct (minimize_simulates disabledEnv sts offs Hwf Hsize) as (out & f & Hmin & Hlen & Hsim).
  rewrite Hmin. cbn [mbind go_bind]. eexists _, _. split_and!; [done|lia|by rewrite length_map|].
  intros k mode off' Hk Hoff. apply list_lookup_fmap_Some in Hoff as (off & -> & Hoff).
  destruct (Himp k mode off Hk Hoff) as (ds & g & Hds & Hdw & Hdl & -> & Ht).
  pose proof (table_of_range _ _ _ _ 0 Ht ltac:(lia)) as Hr.
  replace ((0 <=? g 0) && (g 0 <? len sts)) with true by lia.
  exists ds, (λ q, f (g q)). split_and!; [done..|]. by eapply table_of_simulates.
Qed.
End modes.

(** C15.  The emitted tables implement the automata.  From terminals that the
    compiler accepts, and enough fuel for the subset construction, [buildLexDFA]
    returns, without a run-time panic, either the report of a cancellation or
    tables with one offset for each mode.  The tables, minimised or not, contain
    the well-formed automaton of every mode from its offset on: accepted symbols,
    clamped priorities and skip marks are those of the automaton, every rune
    leads where it leads in the automaton, and the start state alone skips the
    blanks that no transition of it overlaps. *)
Theorem buildLexDFA_tables `{SliceSort, MapRange} parseRegex fuel cancelled patterns skipExtras
    minimizeDisabled disabledEnv modes :
  forallb (terminal_ok parseRegex) patterns = true → terminal_bounds patterns →
  Forall (fuel_enough parseRegex fuel patterns) modes →
  tables_fit parseRegex fuel cancelled patterns skipExtras modes →
  (∃ e k, buildLexDFA parseRegex fuel cancelled patterns skipExtras minimizeDisabled disabledEnv modes = Ret (inl e) ∧
     mode_cancelled cancelled k e)
  ∨ ∃ sts offs,
    buildLexDFA parseRegex fuel cancelled patterns skipExtras minimizeDisabled disabledEnv modes = Ret (inr (sts, offs)) ∧
    len sts < 2 ^ 31 ∧ length offs = length modes ∧
    ∀ k mode off, modes !! k = Some mode → offs !! k = Some off →
      implements parseRegex fuel cancelled patterns skipExtras sts (Z.of_nat k) mode off.
Proof. intros Hok Hb. by apply buildLexDFA_implements. Qed.

(** The keywords and the identifier in one mode that skips blanks. *)
Definition keyword_mode : lexModeSpec := mkLexModeSpec {[ 1 := true; 2 := true; 3 := true ]} ∅ true.

Lemma keyword_mode_fuel : Forall (fuel_enough (RegexParse.parseRegex no_tables) 256 sample_terminals) [keyword_mode].
Proof. constructor; [|constructor]. intros N HN. vm_compute in HN. injection HN as <-. vm_compute. lia. Qed.

Lemma keyword_mode_fit :
  tables_fit (RegexParse.parseRegex no_tables) 256 (λ _ _, false) sample_terminals ∅ [keyword_mode].
Proof. intros sts offs Hrun. vm_compute in Hrun. injection Hrun as <- <-. reflexivity. Qed.

Lemma buildLexDFA_tables_witness :
  ∃ sts off, buildLexDFA (RegexParse.parseRegex no_tables) 256 (λ _ _, false) sample_terminals ∅ false false [keyword_mode]
      = Ret (inr (sts, [off])) ∧
    implements (RegexParse.parseRegex no_tables) 256 (λ _ _, false) sample_terminals ∅ sts 0 keyword_mode off.
Proof.
  destruct (buildLexDFA_tables (RegexParse.parseRegex no_tables) 256 (λ _ _, false) sample_terminals ∅ false false
    [keyword_mode] sample_terminals_ok sample_bounds keyword_mode_fuel keyword_mode_fit)
    as [(e & k & Hrun & _)|(sts & offs & Hrun & _ & _ & Himp)].
  - exfalso. vm_compute in Hrun. discriminate Hrun.
  - assert (offs = [0]) as -> by (vm_compute in Hrun; by injection Hrun).
    exists sts, 0. split; [exact Hrun|]. exact (Himp 0%nat keyword_mode 0 eq_refl eq_refl).
Defined.
