(* ===== verification/GeneratedLexer.v ===== *)
(** * The generated lexer lexes by the rules

    The end of the path from terminals to tokens: the tables that [buildLexDFA]
    (grammargen/dfa.go) emits, run by [scanContiguous] (lexer.go).  A scan skips
    the longest run of blanks, then returns the terminal whose rule matches a
    prefix of what follows, chosen by priority and then by length; it fails when
    no terminal matches. *)

From Stdlib Require Import ZArith Lia ZifyBool String.
From stdpp Require Import base tactics list numbers option gmap relations sorting.
From S2P Require Import Prelude Utf8 Points Tokens SliceSort StateError LexTable Lexer LexerScan LexMinimize LexMinimizeCorrect.
From S2P Require Import Regex RegexParse Nfa NfaPath NfaBuild NfaRegex NfaRule NfaCombined.
From S2P Require Import RegexParseCorrect Dfa DfaCorrect LexDfa LexBuild LexImmediate LexPasses LexModes LexBuildCorrect.
Local Open Scope Z_scope.

(** The runes [w] of the source from offset [a] to offset [b]. *)
Inductive reads (src : list Z) : Z → list Z → Z → Prop :=
| reads_nil a : reads src a [] a
| reads_cons a r size w b : 0 ≤ a < len src → DecodeRune (slice src a (len src)) = (r, size) →
    reads src (a + size) w b → reads src a (r :: w) b.

Lemma reads_snoc src a w b r size : reads src a w b → 0 ≤ b < len src →
  DecodeRune (slice src b (len src)) = (r, size) → reads src a (w ++ [r]) (b + size).
Proof. induction 1 as [a|a r' size' w b Ha Hd Hr IH]; intros Hb Hdec; cbn; econstructor; eauto using reads_nil. Qed.

Lemma dfa_run_snoc ds q w p c : dfa_run ds q w = Some p → dfa_run ds q (w ++ [c]) = dfa_next ds p c.
Proof.
  revert q. induction w as [|x w IH]; intros q; cbn.
  - intros [= ->]. by destruct (dfa_next ds p c).
  - destruct (dfa_next ds q x); [cbn; apply IH|done].
Qed.

(** ** The automaton inside the table *)

Section runs.
Context (l : LexerConfig) (ds : list dfaState) (g : Z → Z) (skip : bool).
Context (Hwf : dfa_wf ds) (Hl : 0 < len ds) (Htab : table_of (states l) g ds skip) (Hsize : len (states l) < 2 ^ 31).
Context (Hstart : ∀ w, dfa_run ds 0 w = Some 0 → w = []).

(** The runes that are skipped before a token. *)
Definition blank (r : Z) : Prop :=
  skip = true ∧ ∃ d, zget ds 0 = Some d ∧ skipped_rune (dtransitions d) r = true.

Lemma entry_move q d st r : zget ds q = Some d → entry g ds skip q d st →
  dfa_move st r = match step_of ds skip q r with Some (j, sk) => (g j, sk) | None => (-1, false) end.
Proof using Hwf Htab Hsize.
  intros Hd [_ _ _ Hdef _ Hlk]. unfold dfa_move. rewrite linear_lookup, Hlk. unfold with_default.
  replace (0 <=? lsDefault st) with false by lia.
  destruct (step_of ds skip q r) as [[j sk]|] eqn:Hs; cbn; [|done].
  pose proof (step_of_target _ _ _ _ _ _ Hwf Hs) as Hj. pose proof (table_of_range _ _ _ _ _ Htab Hj) as Hg.
  rewrite i32_id by lia. replace (g j <? 0) with false by lia. replace (0 <=? g j) with true by lia.
  by rewrite andb_true_r.
Qed.

Lemma step_of_cases q r j sk : step_of ds skip q r = Some (j, sk) →
  sk = false ∧ dfa_next ds q r = Some j ∨ sk = true ∧ q = 0 ∧ j = 0 ∧ blank r.
Proof using.
  unfold step_of. destruct (dfa_next ds q r) as [i|]; [intros [= <- <-]; by left|].
  destruct (zget ds q) as [d|] eqn:Hd; [|done]. destruct (_ && _) eqn:E; [|done]. intros [= <- <-]. right.
  apply andb_true_iff in E as [[->%Z.eqb_eq Hsk]%andb_true_iff Hr]. split_and!; [done..|]. split; [done|]. by exists d.
Qed.

Lemma run_state q w p : 0 ≤ q < len ds → dfa_run ds q w = Some p → 0 ≤ p < len ds.
Proof using Hwf.
  revert q. induction w as [|c w IH]; intros q Hq; cbn; [by intros [= <-]|].
  destruct (dfa_next ds q c) as [j|] eqn:E; [|done]. cbn. apply IH.
  eapply (step_of_target ds false q c _ false Hwf). unfold step_of. by rewrite E.
Qed.

(** A reachable configuration: blanks were skipped, then a word was read. *)
Definition conf_at (c : Cursor) (u : Conf) : Prop :=
  dHops u = 0 ∧ ∃ ws w q, reads (source l) (cPos c) ws (cPos (dStart u)) ∧ Forall blank ws ∧
    reads (source l) (cPos (dStart u)) w (cPos (dScan u)) ∧ dfa_run ds 0 w = Some q ∧ dState u = g q.

Lemma reach_conf_at c u : rtc (dfa_step l) (mkConf (g 0) c c 0) u → conf_at c u.
Proof using Hwf Hl Htab Hsize Hstart.
  intros Hr. pattern u. revert u Hr. apply rtc_ind_r.
  { split; [done|]. exists [], [], 0. split_and!; [constructor|constructor|constructor|done|done]. }
  intros x y _ Hxy (Hh & ws & w & q & Hws & Hb & Hw & Hrun & Hq).
  pose proof (run_state 0 w q ltac:(lia) Hrun) as Hqr. destruct (zget_in_range ds q Hqr) as [d Hd].
  destruct (Htab q d Hd) as (st' & Hst' & Hent).
  destruct Hxy as [x0 k s h st Hst Hend He Hhop|x0 k s h st r size q' Hst Hk Hdec Hmv Hq'
                  |x0 k s h st r size q' Hst Hk Hdec Hmv Hq']; cbn in *; subst x0;
    rewrite Hst in Hst'; injection Hst' as <-.
  - pose proof (en_eof _ _ _ _ _ _ Hent). lia.
  - rewrite (entry_move q d st r Hd Hent) in Hmv.
    destruct (step_of ds skip q r) as [[j sk]|] eqn:Hs; [|injection Hmv; lia]. injection Hmv as <- ->.
    apply step_of_cases in Hs as [[_ Hn]|[? _]]; [|done]. split; [done|]. exists ws, (w ++ [r]), j. cbn.
    rewrite move_cursor_pos. split_and!; [done|done|by apply reads_snoc|by rewrite (dfa_run_snoc _ _ _ _ _ Hrun)|done].
  - rewrite (entry_move q d st r Hd Hent) in Hmv.
    destruct (step_of ds skip q r) as [[j sk]|] eqn:Hs; [|done]. injection Hmv as <- ->.
    apply step_of_cases in Hs as [[? _]|(_ & -> & -> & Hbl)]; [done|]. apply Hstart in Hrun as ->.
    inversion Hw; subst. split; [done|]. exists (ws ++ [r]), [], 0. cbn. rewrite move_cursor_pos.
    split_and!; [|apply Forall_app; split; [done|by apply Forall_singleton]|constructor|done|done].
    match goal with E : cPos s = cPos k |- _ => rewrite E in Hws end. by apply reads_snoc.
Qed.

(** The configurations that the source determines are reached. *)
Lemma reach_blanks c ws p : reads (source l) (cPos c) ws p → Forall blank ws →
  ∃ k, cPos k = p ∧ rtc (dfa_step l) (mkConf (g 0) c c 0) (mkConf (g 0) k k 0).
Proof using Hwf Hl Htab Hsize.
  intros Hr. remember (cPos c) as a eqn:Ea. revert c Ea. induction Hr as [a|a r size w b Ha Hdec Hr IH]; intros c -> Hall.
  { by exists c. }
  apply list.Forall_cons_1 in Hall as [Hbl Hall].
  destruct (IH (move_cursor c r size) ltac:(by rewrite move_cursor_pos) Hall) as (k & Hk & Hrtc).
  exists k. split; [done|]. eapply rtc_l; [|exact Hrtc].
  destruct Hbl as (Hsk & d & Hd & Hskip). destruct (Htab 0 d Hd) as (st & Hst & Hent).
  pose proof (table_of_range _ _ _ _ 0 Htab ltac:(lia)).
  eapply dfa_skip; [exact Hst|done|exact Hdec| |lia]. rewrite (entry_move 0 d st r Hd Hent).
  assert (step_of ds skip 0 r = Some (0, true)) as ->; [|done]. unfold step_of.
  destruct (dfa_next ds 0 r) as [j|] eqn:E.
  - exfalso. unfold dfa_next in E. rewrite Hd in E. cbn in E. destruct (head _) as [t|] eqn:Ht; [|done].
    apply head_Some_elem_of, list_elem_of_filter in Ht as [Hr' Ht].
    apply skipped_rune_spec in Hskip as (ws & _ & Hin & Hov). by eapply overlaps_false.
  - by rewrite Hd, Hsk, Hskip.
Qed.

Lemma reach_word q k s w e p : 0 ≤ q < len ds → reads (source l) (cPos k) w e → dfa_run ds q w = Some p →
  ∃ k', cPos k' = e ∧ rtc (dfa_step l) (mkConf (g q) k s 0) (mkConf (g p) k' s 0).
Proof using Hwf Hl Htab Hsize.
  intros Hq Hr. remember (cPos k) as a eqn:Ea. revert q Hq k Ea.
  induction Hr as [a|a r size w b Ha Hdec Hr IH]; intros q Hq k ->; cbn [dfa_run].
  { intros [= <-]. by exists k. }
  destruct (dfa_next ds q r) as [j|] eqn:E; [|done]. cbn. intros Hrun.
  assert (step_of ds skip q r = Some (j, false)) as Hs by (unfold step_of; by rewrite E).
  pose proof (step_of_target _ _ _ _ _ _ Hwf Hs) as Hj.
  destruct (IH j Hj (move_cursor k r size) ltac:(by rewrite move_cursor_pos) Hrun) as (k' & Hk' & Hrtc).
  exists k'. split; [done|]. eapply rtc_l; [|exact Hrtc].
  destruct (zget_in_range ds q Hq) as [d Hd]. destruct (Htab q d Hd) as (st & Hst & Hent).
  pose proof (table_of_range _ _ _ _ j Htab Hj).
  eapply dfa_char; [exact Hst|done|exact Hdec| |lia]. by rewrite (entry_move q d st r Hd Hent), Hs.
Qed.

(** ** Candidates *)

Context (parseRegex : list Z → go (regexError + regexNode)) (ps : list TerminalPattern) (skipExtras : gmap Z bool).
Context (Hwin : accepts_winner parseRegex ps ds) (Hmark : skips_marked skipExtras ds).
Context (Hsyms : Forall (λ p, 0 < SymbolID p < 2 ^ 16 ∧ Priority p < maxInt) ps).

(** What the lexer may return: not an immediate token after skipped blanks, not
    an empty token unless it is listed. *)
Definition admissible (from p e sym : Z) : bool :=
  negb (isImmediateToken l sym && (from <? p)) && negb ((e =? p) && negb (allowsZeroWidthToken l sym)).

(** A terminal wins the text from [p] to [e] and may be returned. *)
Definition candidate (from p e : Z) (pat : TerminalPattern) : Prop :=
  ∃ w k, reads (source l) p w e ∧ winner parseRegex ps k pat w ∧ admissible from p e (SymbolID pat) = true.

(** [p] is where the longest run of blanks ends. *)
Definition blanks_end (from p : Z) : Prop :=
  (∃ ws, reads (source l) from ws p ∧ Forall blank ws) ∧
  ∀ ws p', reads (source l) from ws p' → Forall blank ws → p' ≤ p.

(** The choice among the candidates: priority, then length. *)
Definition chosen (from p e : Z) (pat : TerminalPattern) : Prop :=
  candidate from p e pat ∧ ∀ e' pat', candidate from p e' pat' →
    clamp16 (Priority pat) < clamp16 (Priority pat') ∨
    clamp16 (Priority pat) = clamp16 (Priority pat') ∧ e' ≤ e.

Lemma winner_symbol k pat w : winner parseRegex ps k pat w → 0 < SymbolID pat < 2 ^ 16 ∧ Priority pat < maxInt.
Proof using Hsyms.
  intros [[Hk _] _]. rewrite list.Forall_forall in Hsyms. apply Hsyms. by eapply list_elem_of_lookup_2.
Qed.

(** The accepting configurations are the candidates. *)
Lemma accepts_candidate c u st : rtc (dfa_step l) (mkConf (g 0) c c 0) u → accepts l (cPos c) u st →
  ∃ pat, candidate (cPos c) (cPos (dStart u)) (cPos (dScan u)) pat ∧
    lsAcceptToken st = SymbolID pat ∧ lsAcceptPriority st = clamp16 (Priority pat) ∧
    lsSkip st = sym_in skipExtras (SymbolID pat).
Proof using Hwf Hl Htab Hsize Hstart Hwin Hmark Hsyms.
  intros Hr [Hst Hel]. destruct (reach_conf_at c u Hr) as (_ & ws & w & q & _ & _ & Hw & Hrun & Hq).
  pose proof (Hwin w) as Hcase. rewrite Hrun in Hcase. destruct Hcase as (d & Hd & Hcase).
  destruct (Htab q d Hd) as (st' & Hst' & [Ha Hp Hs _ _ _]). rewrite Hq, Hst' in Hst. injection Hst as ->.
  pose proof (Hmark q d Hd) as Hsk. unfold eligible in Hel.
  destruct Hcase as [[H0 _]|(k & pat & Hk & Hacc & Hprio)].
  { rewrite Ha, Hs, Hsk, H0 in Hel. done. }
  pose proof (winner_symbol _ _ _ Hk) as [Hsym Hpr]. rewrite Hacc in Ha, Hsk. rewrite u16_id in Ha by lia.
  exists pat. split_and!; [|done| |].
  - exists w, k. split_and!; [done..|]. rewrite Ha in Hel. unfold admissible.
    replace (0 <? SymbolID pat) with true in Hel by lia. exact Hel.
  - rewrite Hp. unfold accept_priority. rewrite Hacc, Hprio.
    replace (0 <? SymbolID pat) with true by lia. by replace (Priority pat <? maxInt) with true by lia.
  - rewrite Hs, Hsk. by replace (0 <? SymbolID pat) with true by lia.
Qed.

Lemma candidate_accepts c ws p e pat : reads (source l) (cPos c) ws p → Forall blank ws →
  candidate (cPos c) p e pat →
  ∃ u st, rtc (dfa_step l) (mkConf (g 0) c c 0) u ∧ cPos (dStart u) = p ∧ cPos (dScan u) = e ∧
    accepts l (cPos c) u st ∧ lsAcceptPriority st = clamp16 (Priority pat).
Proof using Hwf Hl Htab Hsize Hwin Hsyms.
  intros Hws Hb (w & k & Hw & Hk & Hadm). destruct (reach_blanks c ws p Hws Hb) as (s & Hs & Hr1).
  pose proof (Hwin w) as Hcase. destruct (dfa_run ds 0 w) as [q|] eqn:Hrun; 
    [|destruct (Hcase k pat); apply Hk].
  destruct Hcase as (d & Hd & Hcase). destruct (reach_word 0 s s w e q) as (k' & Hk' & Hr2); [lia|by rewrite Hs|done|].
  destruct (Htab q d Hd) as (st & Hst & [Ha Hp Hsk _ _ _]).
  destruct Hcase as [[_ Hno]|(k2 & pat2 & Hk2 & Hacc & Hprio)]; [destruct (Hno k pat); apply Hk|].
  assert (SymbolID pat2 = SymbolID pat ∧ Priority pat2 = Priority pat) as [Es Ep].
  { destruct Hk as [Hm1 Hb1], Hk2 as [Hm2 Hb2]. pose proof (Hb1 _ _ Hm2) as H1. pose proof (Hb2 _ _ Hm1) as H2.
    assert (k = k2) as -> by lia. destruct Hm1 as [Hm1 _], Hm2 as [Hm2 _]. by simplify_eq. }
  pose proof (winner_symbol _ _ _ Hk) as [Hsym Hpr]. rewrite Hacc, Es, u16_id in Ha by lia.
  exists (mkConf (g q) k' s 0), st. split_and!; [by etrans|done|done| |].
  - split; [done|]. unfold eligible. cbn. rewrite Ha. replace (0 <? SymbolID pat) with true by lia.
    rewrite Hs, Hk'. exact Hadm.
  - rewrite Hp. unfold accept_priority. rewrite Hacc, Hprio, Es, Ep.
    replace (0 <? SymbolID pat) with true by lia. by replace (Priority pat <? maxInt) with true by lia.
Qed.

(** ** What a scan returns *)

Inductive lex_result (s : LexerState) (c : Cursor) : option Token → LexerState → Prop :=
| lex_token p e pat t s' :
    blanks_end (cPos c) p → chosen (cPos c) p e pat → sym_in skipExtras (SymbolID pat) = false →
    tSymbol t = SymbolID pat → tText t = slice (source l) p e →
    tStartByte t = u32 p → tEndByte t = u32 e → cPos (lCur s') = e →
    lex_result s c (Some t) s'
| lex_extra p e pat t s' :
    blanks_end (cPos c) p → chosen (cPos c) p e pat → sym_in skipExtras (SymbolID pat) = true →
    tSymbol t = 0 → tStartByte t = u32 p → tEndByte t = u32 e → cPos (lCur s') = e →
    lex_result s c (Some t) s'
| lex_fail p s' :
    blanks_end (cPos c) p → (∀ e pat, ¬ candidate (cPos c) p e pat) →
    lCur s' = lCur s → cPos (lFail s') = p →
    lex_result s c None s'.

Lemma last_start_blanks c v :
  rtc (dfa_step l) (mkConf (g 0) c c 0) v →
  (∀ u, rtc (dfa_step l) (mkConf (g 0) c c 0) u → cPos (dStart u) ≤ cPos (dStart v)) →
  blanks_end (cPos c) (cPos (dStart v)).
Proof using Hwf Hl Htab Hsize Hstart.
  intros Hr Hlast. destruct (reach_conf_at c v Hr) as (_ & ws & _ & _ & Hws & Hb & _). split; [by exists ws|].
  intros ws' p' Hws' Hb'. destruct (reach_blanks c ws' p' Hws' Hb') as (k & <- & Hk). by apply (Hlast _ Hk).
Qed.

Lemma munch_chosen c v st : munch l (cPos c) (mkConf (g 0) c c 0) v st →
  ∃ pat, blanks_end (cPos c) (cPos (dStart v)) ∧ chosen (cPos c) (cPos (dStart v)) (cPos (dScan v)) pat ∧
    lsAcceptToken st = SymbolID pat ∧ lsSkip st = sym_in skipExtras (SymbolID pat).
Proof using Hwf Hl Htab Hsize Hstart Hwin Hmark Hsyms.
  intros [Hr Hacc Hlast Hbest]. pose proof (last_start_blanks c v Hr Hlast) as Hend.
  destruct (accepts_candidate c v st Hr Hacc) as (pat & Hcand & Ht & Hp & Hs). exists pat.
  split_and!; [done| |done|done]. split; [done|]. intros e' pat' Hcand'. destruct Hend as [(ws & Hws & Hb) _].
  destruct (candidate_accepts c ws _ e' pat' Hws Hb Hcand') as (u & st' & Hu & Hus & Hue & Hua & Hup).
  destruct (Hbest u st' Hu Hus Hua) as [?|[? ?]]; rewrite <-Hp, <-Hup; [by left|right]. split; [done|lia].
Qed.

Lemma scan_result s c : config_ok l → 0 ≤ cPos c ≤ len (source l) → cRangeIdx c = 0 →
  ∃ tok s', scanContiguous l s (g 0) (cPos c) (cRow c) (cCol c) = Ret (tok, s') ∧ lex_result s c tok s'.
Proof using Hwf Hl Htab Hsize Hstart Hwin Hmark Hsyms.
  intros Hok Hpos Hidx. pose proof (table_of_range _ _ _ _ 0 Htab ltac:(lia)) as Hg.
  destruct (scanContiguous_outcome l s c (g 0) Hok Hpos Hidx Hg ltac:(lia)) as (tok & s' & Hrun & Hspec).
  exists tok, s'. split; [done|]. destruct Hspec as [v st Hm _ Hsk|v st Hm _ Hsk|v _ _ Hr Hh _|v [_ Hlast Hno] _ Hr _ _].
  - destruct (munch_chosen c v st Hm) as (pat & Hend & Hch & Ht & Hs). rewrite Hsk in Hs.
    by eapply (lex_token _ _ (cPos (dStart v)) (cPos (dScan v)) pat).
  - destruct (munch_chosen c v st Hm) as (pat & Hend & Hch & Ht & Hs). rewrite Hsk in Hs.
    by eapply (lex_extra _ _ (cPos (dStart v)) (cPos (dScan v)) pat).
  - destruct (reach_conf_at c v Hr) as [Hh0 _]. lia.
  - pose proof (last_start_blanks c v Hr Hlast) as Hend. eapply (lex_fail _ _ (cPos (dStart v))); [done| |done|done].
    intros e pat Hcand. destruct Hend as [(ws & Hws & Hb) _].
    destruct (candidate_accepts c ws _ e pat Hws Hb Hcand) as (u & st & Hu & Hus & _ & Hua & _). by eapply Hno.
Qed.
End runs.

(** ** The theorem *)

(** C2.  The generated lexer lexes by the rules.  From terminals that the compiler
    accepts, and enough fuel for the subset construction, [buildLexDFA] returns
    tables, minimised or not.  Over these tables, a scan that starts in a mode
    whose passes have nothing to settle skips the longest run of blanks and then
    returns a terminal whose rule wins a prefix of the rest: no other such
    terminal has a lower priority number, and none with the same number is
    longer.  An extra comes back as a skip, and the scan fails exactly when no
    terminal wins a prefix. *)
Theorem generated_lexer_exact `{SliceSort, MapRange} parseRegex fuel patterns skipExtras
    minimizeDisabled disabledEnv modes :
  forallb (terminal_ok parseRegex) patterns = true → terminal_bounds patterns →
  Forall (λ p, SymbolID p < 2 ^ 16 ∧ Priority p < maxInt) patterns →
  Forall (fuel_enough parseRegex fuel patterns) modes →
  tables_fit parseRegex fuel (λ _ _, false) patterns skipExtras modes →
  ∃ sts offs,
    buildLexDFA parseRegex fuel (λ _ _, false) patterns skipExtras minimizeDisabled disabledEnv modes
      = Ret (inr (sts, offs)) ∧ length offs = length modes ∧
    ∀ k mode off, modes !! k = Some mode → offs !! k = Some off → plain_mode parseRegex patterns skipExtras mode →
    ∃ ds, mode_dfa parseRegex fuel (λ _ _, false) patterns skipExtras (Z.of_nat k) mode = Ret (inr ds) ∧
    ∀ l s c, states l = sts → config_ok l → 0 ≤ cPos c ≤ len (source l) → cRangeIdx c = 0 →
    ∃ tok s', scanContiguous l s off (cPos c) (cRow c) (cCol c) = Ret (tok, s') ∧
      lex_result l ds (skipWhitespace mode) parseRegex (modePatterns patterns mode) skipExtras s c tok s'.
Proof.
  intros Hok Hb Hsyms Hf Hfit.
  destruct (buildLexDFA_implements parseRegex fuel (λ _ _, false) patterns skipExtras Hok Hb minimizeDisabled disabledEnv
    modes Hf Hfit) as [(e & k & _ & (? & ? & [=] & _))|(sts & offs & Hrun & Hsize & Hlen & Himp)].
  exists sts, offs. split_and!; [done..|]. intros k mode off Hk Hoff Hplain.
  destruct (Himp k mode off Hk Hoff) as (ds & g & Hds & _ & _ & -> & Htab). exists ds. split; [done|].
  assert (fuel_enough parseRegex fuel patterns mode) as Hfm
    by (rewrite list.Forall_forall in Hf; eapply Hf, list_elem_of_lookup_2, Hk).
  destruct (mode_dfa_plain parseRegex fuel (λ _ _, false) patterns skipExtras Hok Hb (Z.of_nat k) mode Hfm Hplain)
    as [(e & _ & (? & ? & [=] & _))|(ds' & Hds' & Hwf & Hl & Hst & Hw & Hm)].
  rewrite Hds in Hds'. injection Hds' as <-. intros l s c <- Hcfg Hpos Hidx.
  eapply scan_result; [done..| |done|done|done]. rewrite modePatterns_perm. destruct Hb as [Hb _].
  rewrite list.Forall_forall in Hb, Hsyms |- *. intros p [_ Hp]%list_elem_of_filter.
  destruct (Hb p Hp), (Hsyms p Hp). done.
Qed.

(** The keywords are a mode whose passes have nothing to settle. *)
Lemma keyword_mode_plain : plain_mode (RegexParse.parseRegex no_tables) sample_terminals ∅ keyword_mode.
Proof.
  split.
  - change (Forall (λ p, Immediate p = false) sample_terminals). by repeat constructor.
  - intros r p k pat _ _ (_ & Hs & _). done.
  - vm_compute. reflexivity.
Qed.

Lemma generated_lexer_exact_witness :
  ∃ sts off ds tok s',
    buildLexDFA (RegexParse.parseRegex no_tables) 256 (λ _ _, false) sample_terminals ∅ false false [keyword_mode]
      = Ret (inr (sts, [off])) ∧
    let l := mkLexerConfig sts None [32; 32; 105; 102] [] [] [] 0 false false in
    scanContiguous l (NewLexer [] []).2 off 0 0 0 = Ret (Some tok, s') ∧ tSymbol tok = 1 ∧ tStartByte tok = 2 ∧
    lex_result l ds true (RegexParse.parseRegex no_tables) (modePatterns sample_terminals keyword_mode) ∅
      (NewLexer [] []).2 (mkCursor 0 0 0 0) (Some tok) s'.
Proof.
  destruct (generated_lexer_exact (RegexParse.parseRegex no_tables) 256 sample_terminals ∅ false false [keyword_mode]
    sample_terminals_ok sample_bounds) as (sts & offs & Hrun & _ & Hlex).
  - repeat constructor; done.
  - exact keyword_mode_fuel.
  - exact keyword_mode_fit.
  - pose proof Hrun as Hrun'. vm_compute in Hrun'. injection Hrun' as Ests Eoffs.
    destruct (Hlex 0%nat keyword_mode 0 eq_refl) as (ds & _ & Hscan); [by rewrite <-Eoffs|exact keyword_mode_plain|].
    destruct (Hscan (mkLexerConfig sts None [32; 32; 105; 102] [] [] [] 0 false false) (NewLexer [] []).2
      (mkCursor 0 0 0 0)) as (tok & s' & Hs & Hres).
    + reflexivity.
    + split; [by repeat (constructor; [unfold byte_ok; lia|])| |by left]. cbn [states]. rewrite <-Ests.
      repeat (constructor; [unfold state_ok; repeat (constructor; [vm_compute; intuition congruence|]); constructor|]).
      constructor.
    + vm_compute. intuition congruence.
    + reflexivity.
    + pose proof Hs as Hs'. rewrite <-Ests in Hs'. vm_compute in Hs'.
      destruct tok as [t|]; [injection Hs' as Etok _|discriminate Hs'].
      exists sts, 0, ds, t, s'. cbv zeta. split_and!; [by rewrite Hrun, <-Eoffs|exact Hs|by rewrite <-Etok..|exact Hres].
Defined.
