(* ===== verification/Bitset.v ===== *)
(** * Bit sets

    grammargen/bitset.go: sets of non-negative integers in 64-bit words, the
    representation of FIRST sets and lookaheads in the table generator.  A set is
    its list of words; [mem] says what a list of words contains, and every
    operation is described by what it does to [mem]. *)

From Stdlib Require Import ZArith Lia ZifyBool.
From stdpp Require Import base tactics list numbers option sorting.
From S2P Require Import Prelude.
Local Open Scope Z_scope.

Definition bitset : Type := list Z.

Definition newBitset (capacity : Z) : bitset :=
  let n := Z.quot (capacity + 63) 64 in
  make (if n =? 0 then 1 else n) 0.

Definition grow (b : bitset) (idx : Z) : bitset :=
  let need := Z.quot idx 64 + 1 in
  if need <=? len b then b else b ++ make (need - len b) 0.

(** [1 << uint(idx%64)] on 64 bits. *)
Definition bit (idx : Z) : Z :=
  let s := u64 (Z.rem idx 64) in if s <? 64 then 2 ^ s else 0.

Definition add (b : bitset) (idx : Z) : go bitset :=
  let w := Z.quot idx 64 in
  let b := if len b <=? w then grow b idx else b in
  x ← index b w;
  store b w (Z.lor x (bit idx)).

Definition clear_bit (b : bitset) (idx : Z) : go bitset :=
  let w := Z.quot idx 64 in
  if len b <=? w then Ret b else
  x ← index b w;
  store b w (Z.ldiff x (bit idx)).

Definition contains_bit (b : bitset) (idx : Z) : go bool :=
  let w := Z.quot idx 64 in
  if len b <=? w then Ret false else
  x ← index b w;
  Ret (negb (Z.land x (bit idx) =? 0)).

Definition empty (b : bitset) : bool := forallb (λ w, w =? 0) b.

(** The loop of [unionWith] over the words of the other set, which is no longer. *)
Fixpoint union_words (b other : bitset) (changed : bool) : bitset * bool :=
  match b, other with
  | x :: b, w :: other =>
    let '(b, changed) := union_words b other (changed || negb (Z.lor x w =? x)) in
    (Z.lor x w :: b, changed)
  | _, _ => (b, changed)
  end.

Definition unionWith (b other : bitset) : bitset * bool :=
  union_words (if len b <? len other then b ++ make (len other - len b) 0 else b) other false.

Definition equal (b other : bitset) : bool :=
  forallb (λ i, default 0 (zget b i) =? default 0 (zget other i)) (seqZ 0 (Z.max (len b) (len other))).

Definition clone (b : bitset) : bitset := b.

(** [bits.TrailingZeros64] of a word that is not 0, and [bits.OnesCount64]. *)
Fixpoint trailing_zeros (p : positive) : Z :=
  match p with xO p => trailing_zeros p + 1 | _ => 0 end.

Fixpoint ones_count (p : positive) : Z :=
  match p with xH => 1 | xO p => ones_count p | xI p => ones_count p + 1 end.

Definition count (b : bitset) : Z :=
  foldl (λ n w, n + match w with Zpos p => ones_count p | _ => 0 end) 0 b.

(** The indices of the bits of one word, lowest first. *)
Fixpoint word_bits (fuel : nat) (base w : Z) : list Z :=
  match fuel with
  | O => []
  | S fuel =>
    match w with
    | Zpos p => (base + trailing_zeros p) :: word_bits fuel base (Z.land w (w - 1))
    | _ => []
    end
  end.

(** The calls of [forEach], in order. *)
Fixpoint forEach (wi : Z) (b : bitset) : list Z :=
  match b with
  | [] => []
  | w :: b => word_bits 64 (wi * 64) w ++ forEach (wi + 1) b
  end.

Definition hash (b : bitset) : Z :=
  foldl (λ h w, u64 (Z.lxor h w * 0x100000001b3)) 0xcbf29ce484222325 b.

(** ** What a set contains *)

Definition mem (b : bitset) (i : Z) : Prop :=
  ∃ w, zget b (i / 64) = Some w ∧ Z.testbit w (i mod 64) = true.

#[export] Instance mem_dec b i : Decision (mem b i).
Proof.
  unfold mem. destruct (zget b (i / 64)) as [w|]; [|right; by intros (? & [=] & _)].
  destruct (Z.testbit w (i mod 64)) eqn:E; [left; by exists w|right; intros (? & [= <-] & ?); congruence].
Defined.

(** Words are 64-bit numbers. *)
Definition words_ok (b : bitset) : Prop := Forall (λ w, 0 ≤ w < 2 ^ 64) b.

Lemma mem_nonneg b i : mem b i → 0 ≤ i.
Proof. intros (w & Hw & _). apply zget_Some_range in Hw. Z.to_euclidean_division_equations. lia. Qed.

Lemma bit_testbit i k : 0 ≤ i → 0 ≤ k → Z.testbit (bit i) k = bool_decide (k = i mod 64).
Proof.
  intros Hi Hk. unfold bit, u64. rewrite Z.rem_mod_nonneg by lia.
  assert (0 ≤ i mod 64 < 64) as Hm by (apply Z.mod_pos_bound; lia).
  rewrite (Z.mod_small (i mod 64)) by lia. replace (i mod 64 <? 64) with true by lia.
  rewrite Z.pow2_bits_eqb by lia. case_bool_decide; lia.
Qed.

Lemma lor_word x w : 0 ≤ x < 2 ^ 64 → 0 ≤ w < 2 ^ 64 → 0 ≤ Z.lor x w < 2 ^ 64.
Proof.
  intros Hx Hw. split; [apply Z.lor_nonneg; lia|].
  destruct (decide (Z.lor x w = 0)) as [->|]; [lia|]. apply Z.log2_lt_pow2; [|].
  { assert (0 ≤ Z.lor x w) by (apply Z.lor_nonneg; lia). lia. }
  rewrite Z.log2_lor by lia. apply Z.max_lub_lt.
  - destruct (decide (x = 0)) as [->|]; [done|]. apply Z.log2_lt_pow2; lia.
  - destruct (decide (w = 0)) as [->|]; [done|]. apply Z.log2_lt_pow2; lia.
Qed.

Lemma bit_range i : 0 ≤ i → 0 ≤ bit i < 2 ^ 64.
Proof.
  intros Hi. unfold bit, u64. rewrite Z.rem_mod_nonneg by lia.
  assert (0 ≤ i mod 64 < 64) as Hm by (apply Z.mod_pos_bound; lia).
  rewrite (Z.mod_small (i mod 64)) by lia. replace (i mod 64 <? 64) with true by lia.
  split; [apply Z.pow_nonneg; lia|]. apply Z.pow_lt_mono_r; lia.
Qed.

(** Index and remainder determine the number. *)
Lemma div_mod_inj i j : i / 64 = j / 64 → i mod 64 = j mod 64 → i = j.
Proof. Z.to_euclidean_division_equations. lia. Qed.

Lemma mem_insert b i j w x : 0 ≤ i → zget b (i / 64) = Some x →
  mem (<[Z.to_nat (i / 64) := w]> b) j ↔
  if decide (j / 64 = i / 64) then Z.testbit w (j mod 64) = true else mem b j.
Proof.
  intros Hi Hx. pose proof (zget_Some_range _ _ _ Hx) as Hr. unfold mem. case_decide as E.
  - rewrite E, zget_insert_eq by lia. naive_solver.
  - rewrite zget_insert_ne by lia. done.
Qed.

Lemma mem_app_zero b n i : mem (b ++ make n 0) i ↔ mem b i.
Proof.
  unfold mem. destruct (decide (i / 64 < len b)) as [Hlt|Hge].
  - by rewrite zget_app_l.
  - rewrite zget_app_r by lia. split.
    + intros (w & Hw & Hb). apply zget_elem, elem_of_replicate in Hw as [-> _]. by rewrite Z.bits_0 in Hb.
    + intros (w & Hw & _). apply zget_Some_range in Hw. lia.
Qed.

Lemma words_ok_app_zero b n : words_ok b → words_ok (b ++ make n 0).
Proof. intros Hb. apply Forall_app. split; [done|]. apply Forall_replicate. lia. Qed.

Lemma newBitset_spec capacity : 0 ≤ capacity → words_ok (newBitset capacity) ∧ ∀ i, ¬ mem (newBitset capacity) i.
Proof.
  intros Hc. unfold newBitset. set (n := if _ =? _ then _ else _). split.
  - apply (words_ok_app_zero []). constructor.
  - intros i Hi. apply (mem_app_zero []) in Hi as (w & Hw & _). by rewrite zget_nil in Hw.
Qed.

Lemma add_spec b idx : 0 ≤ idx → words_ok b →
  ∃ b', add b idx = Ret b' ∧ words_ok b' ∧ ∀ i, mem b' i ↔ mem b i ∨ i = idx.
Proof.
  intros Hidx Hb. unfold add. rewrite Z.quot_div_nonneg by lia.
  set (b1 := if len b <=? idx / 64 then grow b idx else b).
  assert (words_ok b1 ∧ idx / 64 < len b1 ∧ ∀ i, mem b1 i ↔ mem b i) as (Hb1 & Hl & Hm).
  { unfold b1, grow. rewrite Z.quot_div_nonneg by lia. destruct (Z.leb_spec (len b) (idx / 64)); [|done].
    destruct (Z.leb_spec (idx / 64 + 1) (len b)); [lia|]. split_and!; [by apply words_ok_app_zero| |intros; apply mem_app_zero].
    rewrite len_app, len_make by lia. lia. }
  assert (0 ≤ idx / 64) by (apply Z.div_pos; lia).
  destruct (index_in_range b1 (idx / 64)) as (x & -> & Hx); [lia|]. cbn [mbind go_bind].
  rewrite store_ok by lia. pose proof (Forall_zget _ _ _ _ Hb1 Hx) as Hxw. eexists. split_and!; [done|..].
  - apply Forall_insert; [done|]. apply lor_word; [done|by apply bit_range].
  - intros j. rewrite (mem_insert _ _ _ _ x) by done. rewrite <-Hm.
    assert (0 ≤ j mod 64 < 64) by (apply Z.mod_pos_bound; lia). case_decide as E.
    + rewrite Z.lor_spec, bit_testbit, orb_true_iff, bool_decide_eq_true by lia. unfold mem. rewrite E, Hx.
      split; [intros [?|?]; [left; by exists x|right; by apply div_mod_inj]|].
      intros [(w & [= <-] & ?)| ->]; auto.
    + split; [by left|]. intros [?| ->]; done.
Qed.

Lemma contains_spec b idx : 0 ≤ idx → contains_bit b idx = Ret (bool_decide (mem b idx)).
Proof.
  intros Hidx. unfold contains_bit. rewrite Z.quot_div_nonneg by lia. assert (0 ≤ idx / 64) by (apply Z.div_pos; lia).
  destruct (Z.leb_spec (len b) (idx / 64)).
  { rewrite bool_decide_eq_false_2; [done|]. intros (w & Hw & _). apply zget_Some_range in Hw. lia. }
  destruct (index_in_range b (idx / 64)) as (x & -> & Hx); [lia|]. cbn [mbind go_bind]. f_equal.
  assert (0 ≤ idx mod 64 < 64) as Hm by (apply Z.mod_pos_bound; lia).
  destruct (Z.testbit x (idx mod 64)) eqn:E.
  - rewrite bool_decide_eq_true_2 by (by exists x). apply negb_true_iff, Z.eqb_neq. intros Hz.
    assert (Z.testbit (Z.land x (bit idx)) (idx mod 64) = false) as Hf by (by rewrite Hz, Z.bits_0).
    rewrite Z.land_spec, E, bit_testbit, bool_decide_eq_true_2 in Hf by lia. done.
  - rewrite bool_decide_eq_false_2 by (intros (w & Hw & ?); congruence). apply negb_false_iff, Z.eqb_eq.
    apply Z.bits_inj'. intros k Hk. rewrite Z.land_spec, Z.bits_0, bit_testbit by lia.
    case_bool_decide as Ek; [by rewrite Ek, E|by rewrite andb_false_r].
Qed.

Lemma clear_spec b idx : 0 ≤ idx → words_ok b →
  ∃ b', clear_bit b idx = Ret b' ∧ words_ok b' ∧ ∀ i, mem b' i ↔ mem b i ∧ i ≠ idx.
Proof.
  intros Hidx Hb. unfold clear_bit. rewrite Z.quot_div_nonneg by lia. assert (0 ≤ idx / 64) by (apply Z.div_pos; lia).
  destruct (Z.leb_spec (len b) (idx / 64)).
  { exists b. split_and!; [done..|]. intros i. split; [|by intros [? _]]. intros Hi. split; [done|]. intros ->.
    destruct Hi as (w & Hw & _). apply zget_Some_range in Hw. lia. }
  destruct (index_in_range b (idx / 64)) as (x & -> & Hx); [lia|]. cbn [mbind go_bind].
  rewrite store_ok by lia. pose proof (Forall_zget _ _ _ _ Hb Hx) as Hxw. cbn in Hxw. eexists. split_and!; [done|..].
  - apply Forall_insert; [done|]. split; [apply Z.ldiff_nonneg; lia|].
    assert (Z.ldiff x (bit idx) ≤ x); [|lia]. apply Z.ldiff_le; [lia|]. apply Z.bits_inj'. intros k Hk.
    rewrite Z.ldiff_spec, Z.ldiff_spec, Z.bits_0. destruct (Z.testbit x k), (Z.testbit (bit idx) k); done.
  - intros j. rewrite (mem_insert _ _ _ _ x) by done. assert (0 ≤ j mod 64 < 64) by (apply Z.mod_pos_bound; lia).
    case_decide as E.
    + rewrite Z.ldiff_spec, bit_testbit, andb_true_iff, negb_true_iff, bool_decide_eq_false by lia. unfold mem.
      rewrite E, Hx. split.
      * intros [? ?]. split; [by exists x|]. by intros ->.
      * intros [(w & [= <-] & ?) Hne]. split; [done|]. intros ?. by apply Hne, div_mod_inj.
    + split; [|by intros [? _]]. intros Hj. split; [done|]. by intros ->.
Qed.

(** ** Unions *)

Lemma union_words_zget b other changed k : len other ≤ len b →
  zget (union_words b other changed).1 k =
  (λ x, match zget other k with Some w => Z.lor x w | None => x end) <$> zget b k.
Proof.
  revert other changed k. induction b as [|x b IH]; intros [|w other] changed k Hl; cbn [union_words].
  - cbn [fst]. by rewrite zget_nil.
  - rewrite len_cons, len_nil in Hl. pose proof (len_nonneg other). lia.
  - cbn [fst]. rewrite zget_nil. by destruct (zget _ k).
  - rewrite !len_cons in Hl. specialize (IH other (changed || negb (Z.lor x w =? x)) (k - 1) ltac:(lia)).
    destruct (union_words _ _ _) as [b' c']. cbn in *.
    destruct (decide (k = 0)) as [->|Hk]; [by rewrite !zget_cons_0|]. by rewrite !zget_cons_ne.
Qed.

Lemma union_words_changed b other changed : len other ≤ len b →
  (union_words b other changed).2 = changed || negb (bool_decide ((union_words b other changed).1 = b)).
Proof.
  revert other changed. induction b as [|x b IH]; intros [|w other] changed Hl; cbn [union_words].
  - cbn [snd fst]. by rewrite bool_decide_eq_true_2, orb_false_r.
  - rewrite len_cons, len_nil in Hl. pose proof (len_nonneg other). lia.
  - cbn [snd fst]. by rewrite bool_decide_eq_true_2, orb_false_r.
  - rewrite !len_cons in Hl. specialize (IH other (changed || negb (Z.lor x w =? x)) ltac:(lia)).
    destruct (union_words _ _ _) as [b' c']. cbn in *. rewrite IH. rewrite <-orb_assoc. f_equal.
    rewrite <-negb_andb. f_equal. destruct (Z.eqb_spec (Z.lor x w) x) as [->|Hne]; cbn.
    + apply bool_decide_ext. split; [by intros ->|by intros [=]].
    + rewrite bool_decide_eq_false_2; [done|]. by intros [= ?].
Qed.

Lemma union_words_ok b other changed : words_ok b → words_ok other → words_ok (union_words b other changed).1.
Proof.
  intros Hb. revert other changed. induction Hb as [|x b Hx Hb IH]; intros other changed Ho; [destruct Ho; constructor|].
  destruct Ho as [|w other Hw Ho]; cbn [union_words]; [by constructor|].
  specialize (IH other (changed || negb (Z.lor x w =? x)) Ho). destruct (union_words _ _ _). constructor; [by apply lor_word|done].
Qed.

(** The padded set before the loop. *)
Definition padded (b other : bitset) : bitset := if len b <? len other then b ++ make (len other - len b) 0 else b.

Lemma padded_spec b other : len other ≤ len (padded b other) ∧ (∀ i, mem (padded b other) i ↔ mem b i) ∧
  (words_ok b → words_ok (padded b other)).
Proof.
  unfold padded. destruct (Z.ltb_spec (len b) (len other)); [|done].
  split_and!; [rewrite len_app, len_make by lia; lia|intros; apply mem_app_zero|apply words_ok_app_zero].
Qed.

Lemma unionWith_mem b other i : mem (unionWith b other).1 i ↔ mem b i ∨ mem other i.
Proof.
  destruct (padded_spec b other) as (Hl & Hm & _). unfold unionWith. fold (padded b other).
  rewrite <-Hm. unfold mem. rewrite union_words_zget by done.
  destruct (zget (padded b other) (i / 64)) as [x|] eqn:Hx; cbn.
  - destruct (zget other (i / 64)) as [w|]; cbn.
    + split.
      * intros (y & [= <-] & Hy). assert (0 ≤ i mod 64) by (apply Z.mod_pos_bound; lia).
        rewrite Z.lor_spec in Hy. apply orb_true_iff in Hy as [?|?]; [left; by exists x|right; by exists w].
      * intros [(y & [= <-] & Hy)|(y & [= <-] & Hy)]; (eexists; split; [done|]); rewrite Z.lor_spec, Hy; [done|apply orb_true_r].
    + split; [by left|]. intros [?|(y & [=] & _)]; done.
  - split; [by intros (? & [=] & _)|]. intros [(? & [=] & _)|(w & Hw & _)].
    apply zget_Some_range in Hw. apply zget_None in Hx. lia.
Qed.

(** Lists of sets, by index. *)
Definition in_set (F : list bitset) (x t : Z) : Prop := ∃ b, zget F x = Some b ∧ mem b t.

Lemma in_set_ext F F' x y t : zget F x = zget F' y → in_set F x t ↔ in_set F' y t.
Proof. unfold in_set. by intros ->. Qed.

Lemma in_set_union F x y b c : zget F x = Some b → zget F y = Some c →
  ∀ z t, in_set (<[Z.to_nat x := (unionWith b c).1]> F) z t ↔ in_set F z t ∨ z = x ∧ in_set F y t.
Proof.
  intros Hb Hc z t. pose proof (zget_Some_range _ _ _ Hb) as Hx. unfold in_set. rewrite Hc. destruct (decide (z = x)) as [->|].
  - rewrite zget_insert_eq, Hb by lia. split.
    + intros (d & [= <-] & [?|?]%unionWith_mem); [left; by exists b|right; split; [done|by exists c]].
    + intros [(d & [= <-] & ?)|[_ (d & [= <-] & ?)]]; (eexists; split; [done|]); apply unionWith_mem; auto.
  - rewrite zget_insert_ne by lia. naive_solver.
Qed.

(** Two padded sets with the same members are the same words. *)
Lemma words_ext b b' : words_ok b → words_ok b' → len b = len b' → (∀ i, mem b i ↔ mem b' i) → b = b'.
Proof.
  intros Hb Hb' Hl Hm. apply list_eq. intros n. rewrite <-!zget_nat.
  destruct (zget b (Z.of_nat n)) as [x|] eqn:Hx, (zget b' (Z.of_nat n)) as [y|] eqn:Hy; [|..|done].
  2-3: (apply zget_None in Hx || apply zget_None in Hy);
       (apply zget_Some_range in Hx || apply zget_Some_range in Hy); lia.
  f_equal. pose proof (Forall_zget _ _ _ _ Hb Hx) as Hxw. pose proof (Forall_zget _ _ _ _ Hb' Hy) as Hyw. cbn in *.
  apply Z.bits_inj'. intros k Hk. destruct (decide (k < 64)) as [Hlt|Hge].
  - specialize (Hm (64 * Z.of_nat n + k)). unfold mem in Hm.
    replace ((64 * Z.of_nat n + k) / 64) with (Z.of_nat n) in Hm by (Z.to_euclidean_division_equations; lia).
    replace ((64 * Z.of_nat n + k) mod 64) with k in Hm by (Z.to_euclidean_division_equations; lia).
    rewrite Hx, Hy in Hm. apply eq_true_iff_eq. naive_solver.
  - assert (∀ z, 0 ≤ z < 2 ^ 64 → Z.testbit z k = false) as Hhigh; [|by rewrite !Hhigh].
    intros z Hz. destruct (decide (z = 0)) as [->|]; [apply Z.bits_0|]. apply Z.bits_above_log2; [lia|].
    apply Z.log2_lt_pow2; [lia|]. apply Z.lt_le_trans with (2 ^ 64); [lia|]. apply Z.pow_le_mono_r; lia.
Qed.

Lemma len_union_words b other changed : len (union_words b other changed).1 = len b.
Proof.
  revert other changed. induction b as [|x b IH]; intros [|w other] changed; cbn [union_words]; [done..|].
  specialize (IH other (changed || negb (Z.lor x w =? x))). destruct (union_words _ _ _). cbn in *. by rewrite !len_cons, IH.
Qed.

Lemma unionWith_spec b other : words_ok b → words_ok other →
  words_ok (unionWith b other).1 ∧ (∀ i, mem (unionWith b other).1 i ↔ mem b i ∨ mem other i) ∧
  ((unionWith b other).2 = false ↔ ∀ i, mem other i → mem b i).
Proof.
  intros Hb Ho. destruct (padded_spec b other) as (Hl & Hm & Hw). split_and!.
  - unfold unionWith. fold (padded b other). by apply union_words_ok; [apply Hw|].
  - intros i. apply unionWith_mem.
  - pose proof (unionWith_mem b other) as Hu. unfold unionWith in *. fold (padded b other) in *.
    rewrite union_words_changed by done. cbn [orb]. rewrite negb_false_iff, bool_decide_eq_true. split.
    + intros E i Hi. rewrite <-Hm, <-E. apply Hu. by right.
    + intros Hsub. apply words_ext; [by apply union_words_ok; [apply Hw|]|by apply Hw|apply len_union_words|].
      intros i. rewrite Hu, Hm. naive_solver.
Qed.

(** ** Comparison *)

Lemma zget_default_pad b n k : default 0 (zget (b ++ make n 0) k) = default 0 (zget b k).
Proof.
  destruct (decide (k < len b)) as [?|Hge]; [by rewrite zget_app_l|]. rewrite zget_app_r by lia.
  assert (zget b k = None) as -> by (apply zget_None; lia).
  destruct (zget (make n 0) _) as [x|] eqn:E; [|done]. by apply zget_elem, elem_of_replicate in E as [-> _].
Qed.

Lemma equal_spec b other : words_ok b → words_ok other → equal b other = true ↔ ∀ i, mem b i ↔ mem other i.
Proof.
  intros Hb Ho. unfold equal. rewrite forallb_forall.
  pose proof (padded_spec b other) as (Hl1 & Hm1 & Hw1). pose proof (padded_spec other b) as (Hl2 & Hm2 & Hw2).
  assert (len (padded b other) = len (padded other b)) as Hlen.
  { unfold padded. destruct (Z.ltb_spec (len b) (len other)), (Z.ltb_spec (len other) (len b)); rewrite ?len_app, ?len_make by lia; lia. }
  assert (∀ b other k, default 0 (zget (padded b other) k) = default 0 (zget b k)) as Hdef
    by (intros; unfold padded; case_match; [apply zget_default_pad|done]).
  split.
  - intros Hall i. rewrite <-Hm1, <-Hm2. assert (padded b other = padded other b) as ->; [|done].
    apply list_eq. intros n. rewrite <-!zget_nat.
    destruct (decide (Z.of_nat n < len (padded b other))) as [Hlt|Hge].
    + destruct (zget_in_range (padded b other) (Z.of_nat n)) as [x Hx]; [lia|].
      destruct (zget_in_range (padded other b) (Z.of_nat n)) as [y Hy]; [lia|]. rewrite Hx, Hy. f_equal.
      specialize (Hall (Z.of_nat n)). rewrite <-list_elem_of_In, elem_of_seqZ, <-(Hdef b other), <-(Hdef other b), Hx, Hy in Hall.
      cbn in Hall. apply Z.eqb_eq, Hall. unfold padded in Hlt. revert Hlt.
      destruct (Z.ltb_spec (len b) (len other)); rewrite ?len_app, ?len_make by lia; lia.
    + trans (@None Z); [|symmetry]; apply zget_None; lia.
  - intros Hsame k _. rewrite <-(Hdef b other), <-(Hdef other b).
    rewrite (words_ext (padded b other) (padded other b)); [apply Z.eqb_refl|auto..|].
    intros i. by rewrite Hm1, Hm2.
Qed.

Lemma empty_spec b : words_ok b → empty b = true ↔ ∀ i, ¬ mem b i.
Proof.
  intros Hb. trans (equal b [] = true).
  - unfold empty, equal. rewrite !forallb_forall. split.
    + intros Hall k _. destruct (zget b k) as [w|] eqn:E; [|by rewrite zget_nil]. rewrite zget_nil. cbn.
      apply Hall, list_elem_of_In. by eapply zget_elem.
    + intros Hall w [k [Hk Hw]]%list_elem_of_In%elem_zget. specialize (Hall k).
      rewrite <-list_elem_of_In, elem_of_seqZ, Hw, zget_nil in Hall. apply Hall. change (len (@nil Z)) with 0. lia.
  - rewrite equal_spec; [|done|constructor]. assert (∀ i, ¬ mem [] i) as Hno
      by (intros i (w & Hw & _); by rewrite zget_nil in Hw). naive_solver.
Qed.

(** ** Enumeration *)

Lemma clear_lowest p k : 0 ≤ k →
  Z.testbit (Z.land (Zpos p) (Zpos p - 1)) k = Z.testbit (Zpos p) k && negb (k =? trailing_zeros p).
Proof.
  revert k. induction p as [p IH|p IH|]; intros k Hk; cbn [trailing_zeros].
  - change (Zpos p~1) with (2 * Zpos p + 1). replace (2 * Zpos p + 1 - 1) with (2 * Zpos p) by lia.
    rewrite Z.land_spec. destruct (decide (k = 0)) as [->|Hne].
    + by rewrite Z.testbit_odd_0, Z.testbit_even_0.
    + replace k with (Z.succ (k - 1)) by lia. rewrite Z.testbit_odd_succ, Z.testbit_even_succ by lia.
      rewrite andb_diag. replace (Z.succ (k - 1) =? 0) with false by lia. by rewrite andb_true_r.
  - change (Zpos p~0) with (2 * Zpos p). replace (2 * Zpos p - 1) with (2 * (Zpos p - 1) + 1) by lia.
    rewrite Z.land_spec. destruct (decide (k = 0)) as [->|Hne]; [by rewrite Z.testbit_even_0|].
    replace k with (Z.succ (k - 1)) by lia. rewrite Z.testbit_odd_succ, !Z.testbit_even_succ by lia.
    rewrite <-Z.land_spec, IH by lia. f_equal. f_equal. lia.
  - change (Z.land 1 (1 - 1)) with 0. rewrite Z.bits_0. destruct (Z.eqb_spec k 0) as [->|]; [done|].
    replace k with (Z.succ (k - 1)) by lia. change 1 with (2 * 0 + 1). by rewrite Z.testbit_odd_succ, Z.bits_0 by lia.
Qed.

Lemma lowest_bit p : 0 ≤ trailing_zeros p ∧ Z.testbit (Zpos p) (trailing_zeros p) = true ∧
  ∀ k, k < trailing_zeros p → Z.testbit (Zpos p) k = false.
Proof.
  assert (∀ q : positive, 0 ≤ trailing_zeros q) as Hpos by (induction q; cbn; lia).
  split; [done|]. induction p as [p IH|p [IH1 IH2]|]; cbn [trailing_zeros].
  - change (Zpos p~1) with (2 * Zpos p + 1). rewrite Z.testbit_odd_0. split; [done|]. intros k Hk. by apply Z.testbit_neg_r.
  - change (Zpos p~0) with (2 * Zpos p). specialize (Hpos p). split.
    + replace (trailing_zeros p + 1) with (Z.succ (trailing_zeros p)) by lia. by rewrite Z.testbit_even_succ by lia.
    + intros k Hk. destruct (decide (k < 0)); [by apply Z.testbit_neg_r|].
      destruct (decide (k = 0)) as [->|]; [apply Z.testbit_even_0|].
      replace k with (Z.succ (k - 1)) by lia. rewrite Z.testbit_even_succ by lia. apply IH2. lia.
  - split; [done|]. intros k Hk. by apply Z.testbit_neg_r.
Qed.

Lemma testbit_high w k : 0 ≤ w < 2 ^ 64 → 64 ≤ k → Z.testbit w k = false.
Proof.
  intros Hw Hk. destruct (decide (w = 0)) as [->|]; [apply Z.bits_0|]. apply Z.bits_above_log2; [lia|].
  apply Z.log2_lt_pow2; [lia|]. apply Z.lt_le_trans with (2 ^ 64); [lia|]. apply Z.pow_le_mono_r; lia.
Qed.

Lemma ones_count_pos p : 0 < ones_count p.
Proof. induction p; cbn; lia. Qed.

Definition word_count (w : Z) : Z := match w with Zpos p => ones_count p | _ => 0 end.

Lemma word_count_clear p : word_count (Z.land (Zpos p) (Zpos p - 1)) = ones_count p - 1.
Proof.
  assert (∀ z, 0 ≤ z → word_count (2 * z) = word_count z) as Hdouble by (intros [|z|z] ?; [done|done|lia]).
  induction p as [p IH|p IH|]; [| |done].
  - assert (Z.land (Zpos p~1) (Zpos p~1 - 1) = 2 * Zpos p) as ->.
    { change (Zpos p~1) with (2 * Zpos p + 1). replace (2 * Zpos p + 1 - 1) with (2 * Zpos p) by lia.
      apply Z.bits_inj'. intros k Hk. rewrite Z.land_spec. destruct (decide (k = 0)) as [->|].
      - by rewrite Z.testbit_even_0, andb_false_r.
      - replace k with (Z.succ (k - 1)) by lia. by rewrite Z.testbit_odd_succ, Z.testbit_even_succ, andb_diag by lia. }
    change (ones_count p = ones_count p + 1 - 1). lia.
  - assert (Z.land (Zpos p~0) (Zpos p~0 - 1) = 2 * Z.land (Zpos p) (Zpos p - 1)) as ->.
    { change (Zpos p~0) with (2 * Zpos p). replace (2 * Zpos p - 1) with (2 * (Zpos p - 1) + 1) by lia.
      apply Z.bits_inj'. intros k Hk. rewrite Z.land_spec. destruct (decide (k = 0)) as [->|].
      - by rewrite !Z.testbit_even_0.
      - replace k with (Z.succ (k - 1)) by lia. by rewrite Z.testbit_odd_succ, !Z.testbit_even_succ, Z.land_spec by lia. }
    rewrite Hdouble by (apply Z.land_nonneg; lia). rewrite IH. done.
Qed.

Lemma word_bits_spec fuel base w lo : 0 ≤ w < 2 ^ 64 → 0 ≤ lo → (∀ k, k < lo → Z.testbit w k = false) →
  64 - lo ≤ Z.of_nat fuel →
  (∀ x, x ∈ word_bits fuel base w ↔ lo ≤ x - base ∧ Z.testbit w (x - base) = true) ∧
  StronglySorted Z.lt (word_bits fuel base w) ∧ len (word_bits fuel base w) = word_count w.
Proof.
  revert w lo. induction fuel as [|fuel IH]; intros w lo Hw Hlo Hz Hf; cbn [word_bits].
  { assert (w = 0) as ->.
    { apply Z.bits_inj'. intros k Hk. rewrite Z.bits_0. destruct (decide (k < lo)); [by apply Hz|]. apply testbit_high; lia. }
    split_and!; [|constructor|done]. intros x. rewrite Z.bits_0. split; [by intros ?%elem_of_nil|by intros [_ ?]]. }
  destruct w as [|p|p]; [| |lia].
  { split_and!; [|constructor|done]. intros x. rewrite Z.bits_0. split; [by intros ?%elem_of_nil|by intros [_ ?]]. }
  destruct (lowest_bit p) as (Hp & Ht & Hlow). set (tz := trailing_zeros p) in *.
  assert (lo ≤ tz) as Hle by (destruct (decide (tz < lo)); [rewrite Hz in Ht by done; done|lia]).
  assert (tz < 64) as Hlt by (destruct (decide (64 ≤ tz)); [rewrite testbit_high in Ht by lia; done|lia]).
  assert (Z.land (Zpos p) (Zpos p - 1) ≤ Zpos p) as Hland.
  { apply Z.ldiff_le; [lia|]. apply Z.bits_inj'. intros k Hk. rewrite Z.ldiff_spec, Z.land_spec, Z.bits_0.
    destruct (Z.testbit (Zpos p) k), (Z.testbit (Zpos p - 1) k); done. }
  assert (0 ≤ Z.land (Zpos p) (Zpos p - 1)) by (apply Z.land_nonneg; lia).
  destruct (IH (Z.land (Zpos p) (Zpos p - 1)) (tz + 1)) as (Hin & Hs & Hc); [lia|lia| |lia|].
  { intros k Hk. destruct (decide (k < 0)); [by apply Z.testbit_neg_r|]. rewrite clear_lowest by lia. fold tz.
    destruct (decide (k = tz)) as [->|]; [by rewrite Z.eqb_refl, andb_false_r|]. rewrite Hlow by lia. done. }
  split_and!.
  - intros x. rewrite elem_of_cons, Hin. split.
    + intros [->|[Hx Hb]]; [replace (base + tz - base) with tz by lia; split; [lia|done]|].
      split; [lia|]. rewrite clear_lowest in Hb by lia. by apply andb_true_iff in Hb as [? _].
    + intros [Hx Hb]. destruct (decide (x - base = tz)) as [E|Hne]; [left; lia|right].
      assert (tz ≤ x - base) by (destruct (decide (x - base < tz)); [rewrite Hlow in Hb by done; done|lia]).
      split; [lia|]. rewrite clear_lowest, Hb by lia. fold tz. cbn. apply negb_true_iff. lia.
  - constructor; [done|]. apply list.Forall_forall. intros x [Hx _]%Hin. lia.
  - rewrite len_cons, Hc, word_count_clear. cbn. lia.
Qed.

(** [forEach] visits the members, lowest first; [count] says how many. *)
Lemma forEach_from b wi : words_ok b → 0 ≤ wi →
  (∀ x, x ∈ forEach wi b ↔ wi * 64 ≤ x ∧ mem b (x - wi * 64)) ∧ StronglySorted Z.lt (forEach wi b).
Proof.
  intros Hb. revert wi. induction Hb as [|w b Hw Hb IH]; intros wi Hwi; cbn [forEach].
  { split; [|constructor]. intros x. split; [by intros ?%elem_of_nil|]. intros (_ & w & Hw & _). by rewrite zget_nil in Hw. }
  destruct (IH (wi + 1) ltac:(lia)) as [Hin Hs].
  destruct (word_bits_spec 64 (wi * 64) w 0 Hw) as (Hwin & Hws & _); [lia|intros; by apply Z.testbit_neg_r|lia|].
  assert (∀ x, x ∈ word_bits 64 (wi * 64) w → wi * 64 ≤ x < (wi + 1) * 64) as Hrange.
  { intros x [Hx Hx']%Hwin. destruct (decide (64 ≤ x - wi * 64)); [by rewrite testbit_high in Hx' by lia|lia]. }
  split.
  - intros x. rewrite elem_of_app, Hwin, Hin. unfold mem. split.
    + intros [[Hx Hbit]|(Hx & v & Hv & Hbit)].
      * split; [lia|]. pose proof (Hrange x ltac:(by apply Hwin)).
        replace ((x - wi * 64) / 64) with 0 by (Z.to_euclidean_division_equations; lia).
        exists w. split; [done|]. replace ((x - wi * 64) mod 64) with (x - wi * 64) by (Z.to_euclidean_division_equations; lia). done.
      * split; [lia|]. exists v. replace ((x - wi * 64) / 64) with ((x - (wi + 1) * 64) / 64 + 1) by (Z.to_euclidean_division_equations; lia).
        replace ((x - wi * 64) mod 64) with ((x - (wi + 1) * 64) mod 64) by (Z.to_euclidean_division_equations; lia).
        split; [|done]. rewrite zget_cons_ne by (apply zget_Some_range in Hv; lia). by replace (_ + 1 - 1) with ((x - (wi + 1) * 64) / 64) by lia.
    + intros (Hx & v & Hv & Hbit). destruct (decide (x - wi * 64 < 64)) as [Hlt|Hge].
      * replace ((x - wi * 64) / 64) with 0 in Hv by (Z.to_euclidean_division_equations; lia). injection Hv as <-.
        left. split; [lia|]. by replace ((x - wi * 64) mod 64) with (x - wi * 64) in Hbit by (Z.to_euclidean_division_equations; lia).
      * right. split; [lia|]. exists v. rewrite zget_cons_ne in Hv by (Z.to_euclidean_division_equations; lia).
        replace ((x - (wi + 1) * 64) / 64) with ((x - wi * 64) / 64 - 1) by (Z.to_euclidean_division_equations; lia).
        replace ((x - (wi + 1) * 64) mod 64) with ((x - wi * 64) mod 64) by (Z.to_euclidean_division_equations; lia). done.
  - revert Hws Hrange. generalize (word_bits 64 (wi * 64) w) as l. induction 1 as [|y l Hl IHl Hy]; intros Hrange; [done|].
    cbn. constructor; [apply IHl; intros; apply Hrange; by right|]. apply Forall_app. split; [done|].
    apply list.Forall_forall. intros z [Hz _]%Hin. specialize (Hrange y ltac:(left)). lia.
Qed.

Lemma count_spec b : words_ok b → count b = len (forEach 0 b).
Proof.
  intros Hb. unfold count. assert (∀ n wi, foldl (λ n w, n + word_count w) n b = n + len (forEach wi b)) as Hc.
  { induction Hb as [|w b Hw Hb IH]; intros n wi; cbn [foldl forEach]; [rewrite len_nil; lia|].
    destruct (word_bits_spec 64 (wi * 64) w 0 Hw) as (_ & _ & Hl); [lia|intros; by apply Z.testbit_neg_r|lia|].
    rewrite (IH _ (wi + 1)), len_app, Hl. lia. }
  apply (Hc 0 0).
Qed.

(** The bit sets implement finite sets of non-negative integers.  On words of
    64 bits, [contains] decides membership; [add], [clear] and [unionWith] return
    words of 64 bits that contain what they should, at any index; [unionWith]
    reports a change exactly when the other set is no subset; [equal] and [empty]
    compare the sets and not their lengths; [forEach] visits the members in
    increasing order, and [count] is their number. *)
Theorem bitset_refines_sets b other idx :
  words_ok b → words_ok other → 0 ≤ idx →
  contains_bit b idx = Ret (bool_decide (mem b idx)) ∧
  (∃ b', add b idx = Ret b' ∧ words_ok b' ∧ ∀ i, mem b' i ↔ mem b i ∨ i = idx) ∧
  (∃ b', clear_bit b idx = Ret b' ∧ words_ok b' ∧ ∀ i, mem b' i ↔ mem b i ∧ i ≠ idx) ∧
  words_ok (unionWith b other).1 ∧ (∀ i, mem (unionWith b other).1 i ↔ mem b i ∨ mem other i) ∧
  ((unionWith b other).2 = false ↔ ∀ i, mem other i → mem b i) ∧
  (equal b other = true ↔ ∀ i, mem b i ↔ mem other i) ∧
  (empty b = true ↔ ∀ i, ¬ mem b i) ∧
  (∀ i, i ∈ forEach 0 b ↔ mem b i) ∧ StronglySorted Z.lt (forEach 0 b) ∧ count b = len (forEach 0 b).
Proof.
  intros Hb Ho Hi. destruct (unionWith_spec b other Hb Ho) as (Hw & Hm & Hc).
  destruct (forEach_from b 0 Hb) as [Hin Hs]; [lia|].
  split_and!; [by apply contains_spec|by apply add_spec|by apply clear_spec|done|done|apply Hc|by apply equal_spec
    |by apply empty_spec| |done|by apply count_spec].
  intros i. rewrite Hin, Z.mul_0_l, Z.sub_0_r. split; [by intros [_ ?]|]. intros Hm'. split; [by apply mem_nonneg in Hm'|done].
Qed.

Lemma bitset_refines_sets_witness :
  ∃ b', add [5] 70 = Ret b' ∧ b' = [5; 64] ∧ ∀ i, mem b' i ↔ mem [5] i ∨ i = 70.
Proof.
  destruct (bitset_refines_sets [5] [2] 70) as (_ & (b' & Hadd & _ & Hm) & _).
  - constructor; [lia|constructor].
  - constructor; [lia|constructor].
  - lia.
  - exists b'. split; [exact Hadd|]. split; [vm_compute in Hadd; injection Hadd as <-; reflexivity|exact Hm].
Defined.
