(* ===== verification/LrGrammar.v ===== *)
(** * Normalised grammars

    The symbols and productions that the table generator works on
    (grammargen/normalize.go), and what they derive. *)

From Stdlib Require Import ZArith Lia ZifyBool.
From stdpp Require Import base tactics list numbers option relations.
From S2P Require Import Prelude Nfa.
Local Open Scope Z_scope.

Inductive Assoc := AssocNone | AssocLeft | AssocRight.
Inductive SymbolKind := SymbolTerminal | SymbolNamedToken | SymbolExternal | SymbolNonterminal.

#[export] Instance Assoc_eq_dec : EqDecision Assoc.
Proof. solve_decision. Defined.
#[export] Instance SymbolKind_eq_dec : EqDecision SymbolKind.
Proof. solve_decision. Defined.

(** Names are byte strings. *)
Record SymbolInfo := mkSymbolInfo {
  siName : list Z; siVisible : bool; siNamed : bool; siSupertype : bool; siKind : SymbolKind;
  siIsExtra : bool; siImmediate : bool; siGeneratedRepeatAux : bool }.

Record FieldAssign := mkFieldAssign { faChildIndex : Z; faFieldName : list Z }.
Record AliasInfo := mkAliasInfo { aiChildIndex : Z; aiName : list Z; aiNamed : bool }.

Record Production := mkProduction {
  LHS : Z; RHS : list Z; Prec : Z; HasExplicitPrec : bool; prAssoc : Assoc; DynPrec : Z;
  ProductionID : Z; prFields : list FieldAssign; prAliases : list AliasInfo; prIsExtra : bool }.

(** The part of [NormalizedGrammar] that the choice of a builder, the item sets and
    the minimisation of parse states read. *)
Record NormalizedGrammar := mkNormalizedGrammar {
  Symbols : list SymbolInfo; Productions : list Production; Terminals : list TerminalPattern; ExtraSymbols : list Z; AugmentProdID : Z;
  KeywordSymbols : list Z; WordSymbolID : Z; ExternalSymbols : list Z;
  PreferPreciseExternalLexStates : bool; CompactParseStates : bool }.

(** A grammar given by its symbols and productions. *)
Definition plain_grammar (symbols : list SymbolInfo) (prods : list Production) (augment : Z) : NormalizedGrammar :=
  mkNormalizedGrammar symbols prods [] [] augment [] 0 [] false false.

Definition is_token_kind (k : SymbolKind) : bool :=
  match k with SymbolTerminal | SymbolNamedToken | SymbolExternal => true | SymbolNonterminal => false end.

Definition TokenCount (ng : NormalizedGrammar) : Z :=
  foldl (λ n s, if is_token_kind (siKind s) then n + 1 else n) 0 (Symbols ng).

(** A production without precedence, fields or aliases. *)
Definition plain_production (lhs : Z) (rhs : list Z) : Production :=
  mkProduction lhs rhs 0 false AssocNone 0 0 [] [] false.
Definition plain_symbol (k : SymbolKind) : SymbolInfo := mkSymbolInfo [] true true false k false false false.

(** ** Well-formed grammars and derivations *)

(** The tokens come first; productions rewrite nonterminals to symbols. *)
Record grammar_wf (ng : NormalizedGrammar) : Prop := {
  gw_tokens i s : zget (Symbols ng) i = Some s → is_token_kind (siKind s) = (i <? TokenCount ng);
  gw_lhs p : p ∈ Productions ng → TokenCount ng ≤ LHS p < len (Symbols ng);
  gw_rhs p x : p ∈ Productions ng → x ∈ RHS p → 0 ≤ x < len (Symbols ng) }.

(** One rewriting step of a sentential form. *)
Inductive derives_step (ng : NormalizedGrammar) : list Z → list Z → Prop :=
| derive a p b : p ∈ Productions ng → derives_step ng (a ++ LHS p :: b) (a ++ RHS p ++ b).

Definition derives (ng : NormalizedGrammar) : list Z → list Z → Prop := rtc (derives_step ng).

Lemma derives_context ng u v a b : derives ng u v → derives ng (a ++ u ++ b) (a ++ v ++ b).
Proof.
  induction 1 as [u|u v w Huv _ IH]; [constructor|]. eapply rtc_l; [|exact IH].
  destruct Huv as [c p d Hp]. pose proof (derive ng (a ++ c) p (d ++ b) Hp) as Hs.
  assert (∀ x : list Z, a ++ (c ++ x) ++ b = (a ++ c) ++ x ++ b) as E by (intros; by rewrite !app_assoc).
  rewrite !E. rewrite <-(app_assoc (RHS p) d b). exact Hs.
Qed.

Lemma derives_app ng u u' v v' : derives ng u u' → derives ng v v' → derives ng (u ++ v) (u' ++ v').
Proof.
  intros Hu Hv. etrans; [apply (derives_context ng u u' [] v Hu)|]. cbn.
  pose proof (derives_context ng v v' u' [] Hv) as H. by rewrite !app_nil_r in H.
Qed.

Lemma derives_production ng p : p ∈ Productions ng → derives ng [LHS p] (RHS p).
Proof. intros Hp. apply rtc_once. pose proof (derive ng [] p [] Hp) as H. by rewrite app_nil_r in H. Qed.

Lemma TokenCount_range ng : 0 ≤ TokenCount ng ≤ len (Symbols ng).
Proof.
  unfold TokenCount. assert (∀ l n, n ≤ foldl (λ n s, if is_token_kind (siKind s) then n + 1 else n) n l ≤ n + len l) as H.
  { induction l as [|s l IH]; intros n; cbn [foldl]; [rewrite len_nil; lia|]. rewrite len_cons.
    destruct (is_token_kind _); [specialize (IH (n + 1))|specialize (IH n)]; lia. }
  specialize (H (Symbols ng) 0). lia.
Qed.

(** A check of well-formedness. *)
Definition grammar_wfb (ng : NormalizedGrammar) : bool :=
  forallb (λ i, match zget (Symbols ng) i with
    | Some s => eqb (is_token_kind (siKind s)) (i <? TokenCount ng) | None => true end) (seqZ 0 (len (Symbols ng))) &&
  forallb (λ p, (TokenCount ng <=? LHS p) && (LHS p <? len (Symbols ng)) &&
    forallb (λ x, (0 <=? x) && (x <? len (Symbols ng))) (RHS p)) (Productions ng).

Lemma grammar_wfb_ok ng : grammar_wfb ng = true → grammar_wf ng.
Proof.
  unfold grammar_wfb. rewrite andb_true_iff, !forallb_forall. setoid_rewrite <-list_elem_of_In. intros [Hs Hp]. split.
  - intros i s Hi. pose proof (zget_Some_range _ _ _ Hi) as Hr. specialize (Hs i). rewrite Hi in Hs.
    apply eqb_prop, Hs, elem_of_seqZ. lia.
  - intros p Hin. specialize (Hp p Hin). lia.
  - intros p x Hin Hx. specialize (Hp p Hin). apply andb_true_iff in Hp as [_ Hp]. rewrite forallb_forall in Hp.
    specialize (Hp x). rewrite <-list_elem_of_In in Hp. specialize (Hp Hx). lia.
Qed.
