(* ===== verification/LrFirst.v ===== *)
(** * FIRST sets

    grammargen/lr.go, [computeFirstSets], [firstOfSequence] and
    [firstOfSequenceWithFallback]: nullable symbols and FIRST sets by rounds over
    the productions, in bit sets.  Both loops stop within their fuel, at the
    nullable symbols and first tokens of the grammar's derivations. *)

From Stdlib Require Import ZArith Lia ZifyBool.
From stdpp Require Import base tactics list numbers option relations.
From S2P Require Import Prelude Bitset LrGrammar.
Local Open Scope Z_scope.

Section first.
Context (ng : NormalizedGrammar).

(** ** The code *)

(** Tokens start with themselves. *)
Fixpoint init_first (i : Z) (syms : list SymbolInfo) : go (list bitset) :=
  match syms with
  | [] => Ret []
  | s :: syms =>
    b ← (if is_token_kind (siKind s) then add (newBitset (TokenCount ng)) i else Ret (newBitset (TokenCount ng)));
    rest ← init_first (i + 1) syms;
    Ret (b :: rest)
  end.

(** Every symbol is a nonterminal marked nullable. *)
Fixpoint all_nullable (nullables : list bool) (syms : list Z) : go bool :=
  match syms with
  | [] => Ret true
  | sym :: syms =>
    if sym <? TokenCount ng then Ret false else
    n ← index nullables sym;
    if (n : bool) then all_nullable nullables syms else Ret false
  end.

Fixpoint nullable_pass (prods : list Production) (nullables : list bool) (changed : bool)
  : go (list bool * bool) :=
  match prods with
  | [] => Ret (nullables, changed)
  | p :: prods =>
    done ← index nullables (LHS p);
    if (done : bool) then nullable_pass prods nullables changed else
    n ← all_nullable nullables (RHS p);
    if (n : bool) then
      nullables ← store nullables (LHS p) true;
      nullable_pass prods nullables true
    else nullable_pass prods nullables changed
  end.

Fixpoint nullable_loop (fuel : nat) (nullables : list bool) : go (list bool) :=
  match fuel with
  | O => NoFuel
  | S fuel =>
    '(nullables, changed) ← nullable_pass (Productions ng) nullables false;
    if (changed : bool) then nullable_loop fuel nullables else Ret nullables
  end.

(** The symbols of one right-hand side, up to the first that is not nullable. *)
Fixpoint first_rhs (nullables : list bool) (lhs : Z) (rhs : list Z) (firstSets : list bitset) (changed : bool)
  : go (list bitset * bool) :=
  match rhs with
  | [] => Ret (firstSets, changed)
  | sym :: rhs =>
    b ← index firstSets lhs;
    other ← index firstSets sym;
    let '(b, grew) := unionWith b other in
    firstSets ← store firstSets lhs b;
    let changed := changed || grew in
    if TokenCount ng <=? sym then
      n ← index nullables sym;
      if (n : bool) then first_rhs nullables lhs rhs firstSets changed else Ret (firstSets, changed)
    else Ret (firstSets, changed)
  end.

Fixpoint first_pass (nullables : list bool) (prods : list Production) (firstSets : list bitset) (changed : bool)
  : go (list bitset * bool) :=
  match prods with
  | [] => Ret (firstSets, changed)
  | p :: prods =>
    '(firstSets, changed) ← first_rhs nullables (LHS p) (RHS p) firstSets changed;
    first_pass nullables prods firstSets changed
  end.

Fixpoint first_loop (fuel : nat) (nullables : list bool) (firstSets : list bitset) : go (list bitset) :=
  match fuel with
  | O => NoFuel
  | S fuel =>
    '(firstSets, changed) ← first_pass nullables (Productions ng) firstSets false;
    if (changed : bool) then first_loop fuel nullables firstSets else Ret firstSets
  end.

(** Every round of the first loop but the last marks a symbol, every round of
    the second but the last adds a token to a set. *)
Definition nullable_fuel : nat := S (length (Symbols ng)).
Definition first_fuel : nat := S (length (Symbols ng) * length (Symbols ng)).

(** The FIRST sets and the nullable symbols. *)
Definition computeFirstSets : go (list bitset * list bool) :=
  firstSets ← init_first 0 (Symbols ng);
  nullables ← nullable_loop nullable_fuel (make (len (Symbols ng)) false);
  firstSets ← first_loop first_fuel nullables firstSets;
  Ret (firstSets, nullables).

Section sequences.
Context (firstSets : list bitset) (nullables : list bool).

Fixpoint first_seq (syms : list Z) (result : bitset) : go bitset :=
  match syms with
  | [] => Ret result
  | sym :: syms =>
    b ← index firstSets sym;
    let result := (unionWith result b).1 in
    if sym <? TokenCount ng then Ret result else
    n ← index nullables sym;
    if (n : bool) then first_seq syms result else Ret result
  end.

Definition firstOfSequence (syms : list Z) : go bitset := first_seq syms (newBitset (TokenCount ng)).

Definition firstOfSequenceWithFallback (syms : list Z) (fallback : option bitset) : go bitset :=
  result ← firstOfSequence syms;
  n ← all_nullable nullables syms;
  if (n : bool) then
    match fallback with Some f => Ret (unionWith result f).1 | None => Ret result end
  else Ret result.
End sequences.
End first.

(** ** Nullable symbols *)

Section first_facts.
Context (ng : NormalizedGrammar) (Hwf : grammar_wf ng).

Notation nsyms := (len (Symbols ng)).

(** [l] is marked nullable. *)
Definition marked (nullables : list bool) (sym : Z) : Prop := zget nullables sym = Some true.

Record null_inv (nullables : list bool) : Prop := {
  ni_len : len nullables = nsyms;
  ni_sound x : marked nullables x → TokenCount ng ≤ x ∧ derives ng [x] [] }.

Lemma all_nullable_spec nullables syms : null_inv nullables → Forall (λ x, 0 ≤ x < nsyms) syms →
  ∃ b, all_nullable ng nullables syms = Ret b ∧ (b = true ↔ Forall (marked nullables) syms).
Proof using.
  intros Hn. induction 1 as [|x syms Hx _ (b & Hb & Hbs)]; cbn [all_nullable].
  { exists true. split; [done|]. split; [constructor|done]. }
  destruct (Z.ltb_spec x (TokenCount ng)).
  { exists false. split; [done|]. split; [done|]. intros [Hm _]%list.Forall_cons_1. apply (ni_sound _ Hn) in Hm as [? _]. lia. }
  destruct (index_in_range nullables x) as (n & -> & Hnx); [rewrite (ni_len _ Hn); lia|]. cbn [mbind go_bind]. destruct n.
  - exists b. split; [done|]. rewrite Hbs. split; [by constructor|by intros [_ ?]%list.Forall_cons_1].
  - exists false. split; [done|]. split; [done|]. intros [Hm _]%list.Forall_cons_1. unfold marked in Hm. congruence.
Qed.

Lemma derives_nil syms : Forall (λ x, derives ng [x] []) syms → derives ng syms [].
Proof using. induction 1 as [|x syms Hx _ IH]; [constructor|]. by apply (derives_app ng [x] [] syms []). Qed.

Definition unset (nullables : list bool) : nat := total_of (λ c : bool, if c then O else 1%nat) nullables.

Lemma nullable_pass_spec prods nullables changed : null_inv nullables → (∀ p, p ∈ prods → p ∈ Productions ng) →
  ∃ nullables' changed', nullable_pass ng prods nullables changed = Ret (nullables', changed') ∧ null_inv nullables' ∧
    ((changed' = changed ∧ nullables' = nullables ∧
      ∀ p, p ∈ prods → Forall (marked nullables) (RHS p) → marked nullables (LHS p)) ∨
     (changed' = true ∧ (unset nullables' < unset nullables)%nat)).
Proof using Hwf.
  revert nullables changed. induction prods as [|p prods IH]; intros nullables changed Hn Hin; cbn [nullable_pass].
  { exists nullables, changed. split_and!; [done..|]. left. split_and!; [done..|]. by intros p ?%elem_of_nil. }
  assert (p ∈ Productions ng) as Hp by (apply Hin; left). pose proof (gw_lhs _ Hwf p Hp) as Hlhs.
  assert (∀ q, q ∈ prods → q ∈ Productions ng) as Hin' by (intros q ?; apply Hin; by right).
  pose proof (TokenCount_range ng).
  destruct (index_in_range nullables (LHS p)) as (done' & -> & Hd); [rewrite (ni_len _ Hn); lia|]. cbn [mbind go_bind].
  assert (marked nullables (LHS p) ∨ ¬ Forall (marked nullables) (RHS p) →
    ∃ nullables' changed', nullable_pass ng prods nullables changed = Ret (nullables', changed') ∧ null_inv nullables' ∧
    ((changed' = changed ∧ nullables' = nullables ∧
      ∀ q, q ∈ p :: prods → Forall (marked nullables) (RHS q) → marked nullables (LHS q)) ∨
     (changed' = true ∧ (unset nullables' < unset nullables)%nat))) as Hkeep.
  { intros Hcase. destruct (IH nullables changed Hn Hin') as (n' & c' & Hrun & Hn' & Hout). exists n', c'.
    split_and!; [done..|]. destruct Hout as [(-> & -> & Hcl)|?]; [left|by right]. split_and!; [done..|].
    intros q [->|Hq]%elem_of_cons Hall; [tauto|by apply Hcl]. }
  destruct done'; [apply Hkeep; by left|].
  destruct (all_nullable_spec nullables (RHS p) Hn) as (b & -> & Hb).
  { apply list.Forall_forall. intros x Hx. by eapply (gw_rhs _ Hwf). }
  cbn [mbind go_bind]. destruct b; [|apply Hkeep; right; intros ?%Hb; done]. clear Hkeep.
  rewrite store_ok by (rewrite (ni_len _ Hn); lia). cbn [mbind go_bind].
  assert (null_inv (<[Z.to_nat (LHS p) := true]> nullables)) as Hn1.
  { split; [rewrite len_insert; apply Hn|]. intros x. unfold marked.
    destruct (decide (x = LHS p)) as [->|]; [|rewrite zget_insert_ne by lia; apply Hn]. intros _. split; [lia|].
    etrans; [by apply derives_production|]. apply derives_nil. eapply Forall_impl; [by apply Hb|].
    intros y Hy. by apply (ni_sound _ Hn). }
  destruct (IH _ true Hn1 Hin') as (n' & c' & Hrun & Hn' & Hout). exists n', c'. split_and!; [done..|]. right.
  assert (unset (<[Z.to_nat (LHS p) := true]> nullables) < unset nullables)%nat
    by (apply (total_of_store _ nullables (LHS p) false); [done|cbn; lia]).
  destruct Hout as [(-> & -> & _)|[-> ?]]; split; first [done | lia].
Qed.

(** Marks that no production adds to are the nullable symbols. *)
Definition null_closed (nullables : list bool) : Prop :=
  ∀ p, p ∈ Productions ng → Forall (marked nullables) (RHS p) → marked nullables (LHS p).

Lemma null_closed_complete nullables u : null_closed nullables → derives ng u [] → Forall (marked nullables) u.
Proof using.
  intros Hc Hd. remember [] as v eqn:Hv. revert Hv. induction Hd as [u|u v w Huv _ IH]; intros ->; [constructor|].
  specialize (IH eq_refl). destruct Huv as [a p b Hp]. rewrite !Forall_app in IH. destruct IH as (Ha & Hr & Hb).
  apply Forall_app. split; [done|]. constructor; [by apply Hc|done].
Qed.

Lemma nullable_loop_spec fuel nullables : null_inv nullables → (unset nullables < fuel)%nat →
  ∃ nullables', nullable_loop ng fuel nullables = Ret nullables' ∧ null_inv nullables' ∧ null_closed nullables'.
Proof using Hwf.
  revert nullables. induction fuel as [|fuel IH]; intros nullables Hn Hf; [lia|]. cbn [nullable_loop].
  destruct (nullable_pass_spec (Productions ng) nullables false Hn (λ _ H, H)) as (n' & c' & -> & Hn' & Hout).
  cbn [mbind go_bind]. destruct Hout as [(-> & -> & Hcl)|[-> ?]]; [by exists nullables|]. apply IH; [done|lia].
Qed.

Lemma nullables_exact : ∃ nullables,
  nullable_loop ng (nullable_fuel ng) (make nsyms false) = Ret nullables ∧ null_inv nullables ∧ null_closed nullables.
Proof using Hwf.
  apply nullable_loop_spec.
  - split; [apply len_make, len_nonneg|]. intros x Hx%zget_elem. by apply elem_of_replicate in Hx as [? _].
  - unfold nullable_fuel, unset. pose proof (total_of_bound (λ c : bool, if c then O else 1%nat) 1 (make nsyms false)) as Hb.
    unfold make in Hb at 3. rewrite length_replicate in Hb. unfold len in Hb.
    assert (total_of (λ c : bool, if c then O else 1%nat) (make (len (Symbols ng)) false) ≤ length (Symbols ng))%nat; [|lia].
    etrans; [apply Hb|lia]. apply Forall_replicate. done.
Qed.

(** ** First tokens *)

Context (nullables : list bool) (Hnull : null_inv nullables) (Hclosed : null_closed nullables).

Record first_inv (F : list bitset) : Prop := {
  fi_len : len F = nsyms;
  fi_words : Forall words_ok F;
  fi_token x : 0 ≤ x < TokenCount ng → in_set F x x;
  fi_sound x t : in_set F x t → 0 ≤ t < TokenCount ng ∧ ∃ beta, derives ng [x] (t :: beta) }.

(** The token [t] is in a set of the sequence, behind nullable symbols only. *)
Fixpoint in_first (F : list bitset) (u : list Z) (t : Z) : Prop :=
  match u with
  | [] => False
  | x :: u => in_set F x t ∨ (marked nullables x ∧ in_first F u t)
  end.

Lemma in_first_app F u v t : in_first F (u ++ v) t ↔ in_first F u t ∨ (Forall (marked nullables) u ∧ in_first F v t).
Proof using.
  induction u as [|x u IH]; cbn; [split; [by right|by intros [[]|[_ ?]]]|]. rewrite IH, list.Forall_cons. tauto.
Qed.

(** How many tokens the sets lack. *)
Definition missing (b : bitset) : nat := length (filter (λ t, ¬ mem b t) (seqZ 0 (TokenCount ng))).

Lemma missing_lt b b' t : 0 ≤ t < TokenCount ng → (∀ i, mem b i → mem b' i) → ¬ mem b t → mem b' t →
  (missing b' < missing b)%nat.
Proof using.
  intros Ht Hsub Hb Hb'. unfold missing. assert (t ∈ seqZ 0 (TokenCount ng)) as Hin by (apply elem_of_seqZ; lia).
  revert Hin. generalize (seqZ 0 (TokenCount ng)) as l. induction l as [|x l IH]; [by intros ?%elem_of_nil|].
  assert (length (filter (λ t, ¬ mem b' t) l) ≤ length (filter (λ t, ¬ mem b t) l))%nat as Hle.
  { clear IH. induction l as [|y l IH]; [done|]. rewrite !filter_cons. repeat case_decide; cbn; naive_solver lia. }
  intros [->|Hin]%elem_of_cons; rewrite !filter_cons.
  - rewrite decide_False, decide_True by tauto. cbn. lia.
  - specialize (IH Hin). repeat case_decide; cbn; try lia. naive_solver.
Qed.

(** The effect of one union. *)
Lemma first_union F x y b c : first_inv F → zget F x = Some b → zget F y = Some c →
  (∃ beta, derives ng [x] (y :: beta)) → let F' := <[Z.to_nat x := (unionWith b c).1]> F in
  first_inv F' ∧ (∀ z t, in_set F' z t ↔ in_set F z t ∨ z = x ∧ in_set F y t).
Proof using.
  intros [Hl Hw Ht Hs] Hb Hc (beta & Hd) F'. pose proof (zget_Some_range _ _ _ Hb) as Hx.
  pose proof (Forall_zget _ _ _ _ Hw Hb) as Hwb. pose proof (Forall_zget _ _ _ _ Hw Hc) as Hwc.
  destruct (unionWith_spec b c Hwb Hwc) as (Hwu & _).
  pose proof (in_set_union F x y b c Hb Hc) as Hin. fold F' in Hin.
  split; [|done]. split; [unfold F'; by rewrite len_insert|by apply Forall_insert|..].
  - intros z Hz. apply Hin. left. by apply Ht.
  - intros z t [?|[-> Hct]]%Hin; [by apply Hs|]. destruct (Hs y t Hct) as (Ht' & beta' & Hd'). split; [done|].
    exists (beta' ++ beta). etrans; [exact Hd|]. apply (derives_app ng [y] (t :: beta') beta beta); [done|constructor].
Qed.

(** [F'] has the sets of [F], or more and fewer tokens are missing. *)
Definition grows_to (F F' : list bitset) (changed changed' : bool) : Prop :=
  (changed' = changed ∧ (∀ z t, in_set F' z t ↔ in_set F z t) ∧ total_of missing F' = total_of missing F) ∨
  (changed' = true ∧ (total_of missing F' < total_of missing F)%nat).

Lemma first_grows_trans F F' F'' c c' c'' : grows_to F F' c c' → grows_to F' F'' c' c'' → grows_to F F'' c c''.
Proof using.
  intros [(-> & H1 & E1)|[-> H1]] [(-> & H2 & E2)|[-> H2]]; [left|right..].
  - split_and!; [done| |lia]. intros z t. by rewrite H2.
  - split; [done|lia].
  - split; [done|lia].
  - split; [done|lia].
Qed.

Lemma union_grows F x y b c : first_inv F → zget F x = Some b → zget F y = Some c →
  (∃ beta, derives ng [x] (y :: beta)) → ∀ changed,
  grows_to F (<[Z.to_nat x := (unionWith b c).1]> F) changed (changed || (unionWith b c).2).
Proof using.
  intros HF Hb Hc Hd changed. destruct (first_union F x y b c HF Hb Hc Hd) as [_ Hin]. unfold grows_to.
  destruct (unionWith_spec b c) as (_ & Hm & Hch); [eapply Forall_zget; [apply HF|done]..|].
  destruct (unionWith b c).2 eqn:Eg; [right|left].
  - split; [apply orb_true_r|]. apply (total_of_store _ F x b); [done|].
    destruct (decide (Exists (λ t, mem c t ∧ ¬ mem b t) (seqZ 0 (TokenCount ng)))) as [He|He].
    + apply list.Exists_exists in He as (t & Ht & Hct & Hnb).
      apply (missing_lt _ _ t); [apply elem_of_seqZ in Ht; lia|intros i Hi; apply Hm; by left|done|apply Hm; by right].
    + exfalso. assert (true = false); [|done]. apply Hch. intros i Hi. destruct (decide (mem b i)) as [|Hnb]; [done|].
      destruct He. apply list.Exists_exists. exists i. split; [|done]. apply elem_of_seqZ.
      destruct (fi_sound _ HF y i) as [? _]; [by exists c|lia].
  - pose proof (proj1 Hch eq_refl) as Hsub. split_and!; [apply orb_false_r| |].
    + intros z t. rewrite Hin. split; [|by left]. intros [?|[-> (d & Hd' & Ht)]]; [done|]. simplify_eq.
      exists b. split; [done|by apply Hsub].
    + apply (total_of_store_eq _ F x b); [done|]. unfold missing. f_equal. apply list_filter_iff. intros t. rewrite Hm. naive_solver.
Qed.

Lemma in_first_ext F F' u t : (∀ z t, in_set F' z t ↔ in_set F z t) → in_first F' u t ↔ in_first F u t.
Proof using. intros He. induction u as [|x u IH]; cbn; [done|]. by rewrite He, IH. Qed.

Lemma first_rhs_spec p pre rhs F changed : first_inv F → p ∈ Productions ng → RHS p = pre ++ rhs →
  Forall (marked nullables) pre →
  ∃ F' changed', first_rhs ng nullables (LHS p) rhs F changed = Ret (F', changed') ∧ first_inv F' ∧
    grows_to F F' changed changed' ∧ (∀ z t, in_set F z t → in_set F' z t) ∧
    ((∀ z t, in_set F' z t ↔ in_set F z t) → ∀ t, in_first F rhs t → in_set F (LHS p) t).
Proof using Hwf Hnull.
  intros HF Hp. pose proof (gw_lhs _ Hwf p Hp) as Hlhs. pose proof (TokenCount_range ng) as Htc.
  revert pre F changed HF. induction rhs as [|x rhs IH]; intros pre F changed HF Hrhs Hpre; cbn [first_rhs].
  { exists F, changed. split_and!; [done..|left; done|done|done]. }
  assert (0 ≤ x < nsyms) as Hx by (eapply (gw_rhs _ Hwf p); [done|rewrite Hrhs; apply elem_of_app; right; left]).
  destruct (index_in_range F (LHS p)) as (b & -> & Hb); [rewrite (fi_len _ HF); lia|].
  destruct (index_in_range F x) as (c & -> & Hc); [rewrite (fi_len _ HF); lia|]. cbn [mbind go_bind].
  assert (∃ beta, derives ng [LHS p] (x :: beta)) as Hder.
  { exists rhs. etrans; [by apply derives_production|]. rewrite Hrhs. apply (derives_app ng pre [] (x :: rhs) (x :: rhs)); [|constructor].
    apply derives_nil. eapply Forall_impl; [exact Hpre|]. intros y Hy. by apply (ni_sound _ Hnull). }
  destruct (first_union F (LHS p) x b c HF Hb Hc Hder) as [HF1 Hin1].
  pose proof (union_grows F (LHS p) x b c HF Hb Hc Hder changed) as Hg1.
  destruct (unionWith b c) as [b' grew]. cbn [fst snd] in *.
  rewrite store_ok by (rewrite (fi_len _ HF); lia). cbn [mbind go_bind]. set (F1 := <[Z.to_nat (LHS p) := b']> F) in *.
  assert (¬ marked nullables x → ∃ F' changed', Ret (F1, changed || grew) = Ret (F', changed') ∧ first_inv F' ∧
    grows_to F F' changed changed' ∧ (∀ z t, in_set F z t → in_set F' z t) ∧
    ((∀ z t, in_set F' z t ↔ in_set F z t) → ∀ t, in_first F (x :: rhs) t → in_set F (LHS p) t)) as Hstop.
  { intros Hnot. exists F1, (changed || grew). split_and!; [done..|intros; apply Hin1; by left|].
    intros Hsame t [Ht|[? _]]; [|done]. apply Hsame, Hin1. by right. }
  destruct (Z.leb_spec (TokenCount ng) x) as [Hnt|Htok].
  2: { apply Hstop. intros [? _]%(ni_sound _ Hnull). lia. }
  destruct (index_in_range nullables x) as (n & -> & Hn); [rewrite (ni_len _ Hnull); lia|]. cbn [mbind go_bind].
  destruct n; [|apply Hstop; unfold marked; congruence].
  destruct (IH (pre ++ [x]) F1 (changed || grew) HF1) as (F' & changed' & Hrun & HF' & Hg & Hmono & Hcl).
  { by rewrite <-app_assoc. } { apply Forall_app. split; [done|]. by apply Forall_singleton. }
  exists F', changed'. split_and!; [done..|by eapply first_grows_trans|intros z t ?; apply Hmono, Hin1; by left|].
  intros Hsame t Ht. assert (∀ z t, in_set F1 z t ↔ in_set F z t) as Hsame1.
  { intros z u. split; [intros ?%Hmono; by apply Hsame|intros; apply Hin1; by left]. }
  apply Hsame1. destruct Ht as [Ht|[_ Ht]]; [apply Hin1; by right|]. apply Hcl; [|by apply (in_first_ext F F1)].
  intros z u. by rewrite Hsame, Hsame1.
Qed.

Lemma first_pass_spec prods F changed : first_inv F → (∀ p, p ∈ prods → p ∈ Productions ng) →
  ∃ F' changed', first_pass ng nullables prods F changed = Ret (F', changed') ∧ first_inv F' ∧
    grows_to F F' changed changed' ∧ (∀ z t, in_set F z t → in_set F' z t) ∧
    ((∀ z t, in_set F' z t ↔ in_set F z t) → ∀ p t, p ∈ prods → in_first F (RHS p) t → in_set F (LHS p) t).
Proof using Hwf Hnull.
  revert F changed. induction prods as [|p prods IH]; intros F changed HF Hin; cbn [first_pass].
  { exists F, changed. split_and!; [done..|left; done|done|]. by intros _ p t ?%elem_of_nil. }
  destruct (first_rhs_spec p [] (RHS p) F changed HF) as (F1 & c1 & -> & HF1 & Hg1 & Hm1 & Hc1);
    [apply Hin; left|done|constructor|]. cbn [mbind go_bind].
  destruct (IH F1 c1 HF1) as (F' & c' & Hrun & HF' & Hg & Hm & Hc); [intros; apply Hin; by right|].
  exists F', c'. split_and!; [done..|by eapply first_grows_trans|auto|]. intros Hsame.
  assert (∀ z t, in_set F1 z t ↔ in_set F z t) as Hsame1.
  { intros z u. split; [intros ?%Hm; by apply Hsame|apply Hm1]. }
  intros q t [->|Hq]%elem_of_cons Ht; [by apply Hc1|]. apply Hsame1. apply (Hc (λ z u, ltac:(by rewrite Hsame, Hsame1)) q t Hq).
  by apply (in_first_ext F F1).
Qed.

Definition first_closed (F : list bitset) : Prop :=
  ∀ p t, p ∈ Productions ng → in_first F (RHS p) t → in_set F (LHS p) t.

Lemma first_loop_spec fuel F : first_inv F → (total_of missing F < fuel)%nat →
  ∃ F', first_loop ng fuel nullables F = Ret F' ∧ first_inv F' ∧ first_closed F'.
Proof using Hwf Hnull.
  revert F. induction fuel as [|fuel IH]; intros F HF Hf; [lia|]. cbn [first_loop].
  destruct (first_pass_spec (Productions ng) F false HF (λ _ H, H)) as (F' & c' & -> & HF' & Hg & Hm & Hc).
  cbn [mbind go_bind]. destruct Hg as [(-> & Hsame & _)|[-> Hlt]]; [|apply IH; [done|lia]].
  exists F'. split_and!; [done..|]. intros p t Hp Ht. apply Hsame. apply (Hc Hsame p t Hp). by apply (in_first_ext F F').
Qed.

(** Closed sets contain what the grammar derives. *)
Lemma first_complete F u t beta : first_inv F → first_closed F → 0 ≤ t < TokenCount ng →
  derives ng u (t :: beta) → in_first F u t.
Proof using Hclosed.
  intros HF Hc Ht Hd. remember (t :: beta) as v eqn:Hv. revert Hv. induction Hd as [u|u v w Huv _ IH]; intros ->.
  { left. by apply (fi_token _ HF). }
  specialize (IH eq_refl). destruct Huv as [a p b Hp]. rewrite !in_first_app in IH. apply in_first_app.
  destruct IH as [?|[Ha [Hr|[Hr Hb]]]]; [by left|right..]; (split; [done|]); cbn.
  - left. by apply Hc.
  - right. split; [by apply Hclosed|done].
Qed.

Lemma first_seq_sound F u t : first_inv F → in_first F u t → 0 ≤ t < TokenCount ng ∧ ∃ beta, derives ng u (t :: beta).
Proof using Hnull.
  intros HF. induction u as [|x u IH]; cbn; [done|]. intros [Hx|[Hm Hu]].
  - destruct (fi_sound _ HF x t Hx) as (Ht & beta & Hd). split; [done|]. exists (beta ++ u).
    apply (derives_app ng [x] (t :: beta) u u); [done|constructor].
  - destruct (IH Hu) as (Ht & beta & Hd). split; [done|]. exists beta.
    apply (derives_app ng [x] [] u (t :: beta)); [by apply (ni_sound _ Hnull)|done].
Qed.

(** ** The initial sets and sequences *)

Lemma init_first_spec syms i : 0 ≤ i → ∃ F, init_first ng i syms = Ret F ∧ len F = len syms ∧ Forall words_ok F ∧
  ∀ k t, in_set F k t ↔ t = i + k ∧ ∃ s, zget syms k = Some s ∧ is_token_kind (siKind s) = true.
Proof using.
  pose proof (TokenCount_range ng) as Htc. revert i. induction syms as [|s syms IH]; intros i Hi; cbn [init_first].
  { exists []. split_and!; [done..|constructor|]. intros k t. unfold in_set. rewrite !zget_nil. naive_solver. }
  destruct (newBitset_spec (TokenCount ng)) as [Hw0 Hm0]; [lia|]. destruct (add_spec _ i Hi Hw0) as (b1 & Hadd & Hw1 & Hm1).
  destruct (IH (i + 1)) as (F & HF & Hl & Hw & Hin); [lia|]. rewrite HF.
  assert (∃ b, (if is_token_kind (siKind s) then add (newBitset (TokenCount ng)) i else Ret (newBitset (TokenCount ng))) = Ret b ∧
    words_ok b ∧ ∀ t, mem b t ↔ t = i ∧ is_token_kind (siKind s) = true) as (b & -> & Hwb & Hmb).
  { destruct (is_token_kind _); [exists b1|exists (newBitset (TokenCount ng))]; split_and!; [done..| |done|done|]; intros t.
    - rewrite Hm1. specialize (Hm0 t). tauto.
    - specialize (Hm0 t). naive_solver. }
  exists (b :: F). cbn [mbind go_bind]. split_and!; [done|rewrite !len_cons; lia|by constructor|].
  intros k t. unfold in_set. destruct (decide (k = 0)) as [->|Hk].
  - rewrite !zget_cons_0, Z.add_0_r. specialize (Hmb t). naive_solver.
  - rewrite !zget_cons_ne by done. specialize (Hin (k - 1) t). unfold in_set in Hin. rewrite Hin.
    split; (intros [-> ?]; split; [lia|done]).
Qed.

Lemma missing_bound b : (missing b ≤ length (Symbols ng))%nat.
Proof using.
  unfold missing. etrans; [apply length_filter|]. rewrite length_seqZ. pose proof (TokenCount_range ng). unfold len in *. lia.
Qed.

Lemma init_first_inv : ∃ F, init_first ng 0 (Symbols ng) = Ret F ∧ first_inv F ∧ (total_of missing F < first_fuel ng)%nat.
Proof using Hwf.
  destruct (init_first_spec (Symbols ng) 0) as (F & HF & Hl & Hw & Hin); [lia|]. exists F.
  pose proof (TokenCount_range ng) as Htc. split_and!; [done|split; [done..| |]|].
  - intros x Hx. apply Hin. split; [lia|]. destruct (zget_in_range (Symbols ng) x) as [s Hs]; [lia|].
    exists s. split; [done|]. rewrite (gw_tokens _ Hwf x s Hs). lia.
  - intros x t (-> & s & Hs & Hk)%Hin. rewrite (gw_tokens _ Hwf x s Hs) in Hk. apply zget_Some_range in Hs.
    split; [lia|]. exists []. constructor.
  - pose proof (total_of_bound missing (length (Symbols ng)) F) as Hb. unfold first_fuel.
    assert (length F = length (Symbols ng)) as HlF by (unfold len in Hl; lia). rewrite HlF in Hb.
    assert (total_of missing F ≤ length (Symbols ng) * length (Symbols ng))%nat; [|lia].
    etrans; [apply Hb|lia]. apply list.Forall_forall. intros b _. apply missing_bound.
Qed.

Lemma first_seq_spec F syms result : first_inv F → Forall (λ x, 0 ≤ x < nsyms) syms → words_ok result →
  ∃ b, first_seq ng F nullables syms result = Ret b ∧ words_ok b ∧ ∀ t, mem b t ↔ mem result t ∨ in_first F syms t.
Proof using Hnull.
  intros HF Hsyms. revert result. induction Hsyms as [|x syms Hx _ IH]; intros result Hw; cbn [first_seq].
  { exists result. split_and!; [done..|]. intros t. cbn. tauto. }
  destruct (index_in_range F x) as (c & -> & Hc); [rewrite (fi_len _ HF); lia|]. cbn [mbind go_bind].
  assert (∀ t, in_set F x t ↔ mem c t) as Hin by (intros t; unfold in_set; rewrite Hc; naive_solver).
  destruct (unionWith_spec result c Hw) as (Hw1 & Hm1 & _); [by apply (Forall_zget _ _ _ _ (fi_words _ HF) Hc)|].
  assert (¬ marked nullables x → ∃ b, Ret (unionWith result c).1 = Ret b ∧ words_ok b ∧
    ∀ t, mem b t ↔ mem result t ∨ in_first F (x :: syms) t) as Hstop.
  { intros Hno. eexists. split_and!; [done..|]. intros t. cbn. rewrite Hm1, Hin. tauto. }
  destruct (Z.ltb_spec x (TokenCount ng)); [apply Hstop; intros [? _]%(ni_sound _ Hnull); lia|].
  destruct (index_in_range nullables x) as (n & -> & Hn); [rewrite (ni_len _ Hnull); lia|]. cbn [mbind go_bind].
  destruct n; [|apply Hstop; unfold marked; congruence].
  destruct (IH _ Hw1) as (b & Hb & Hwb & Hmb). exists b. split_and!; [done..|]. intros t.
  cbn. rewrite Hmb, Hm1, Hin. unfold marked. tauto.
Qed.

Lemma firstOfSequence_spec F syms : first_inv F → first_closed F → Forall (λ x, 0 ≤ x < nsyms) syms →
  ∃ b, firstOfSequence ng F nullables syms = Ret b ∧ words_ok b ∧
    ∀ t, mem b t ↔ 0 ≤ t < TokenCount ng ∧ ∃ beta, derives ng syms (t :: beta).
Proof using Hnull Hclosed.
  intros HF Hc Hsyms. destruct (newBitset_spec (TokenCount ng)) as [Hw0 Hm0]; [apply TokenCount_range|].
  destruct (first_seq_spec F syms _ HF Hsyms Hw0) as (b & Hb & Hw & Hm). exists b. split_and!; [done..|]. intros t. rewrite Hm. split.
  - intros [?%Hm0|?]; [done|]. by apply (first_seq_sound F).
  - intros (Ht & beta & Hd). right. by apply (first_complete F syms t beta).
Qed.

Lemma nullable_iff syms : Forall (marked nullables) syms ↔ derives ng syms [].
Proof using Hnull Hclosed.
  split; [|by apply null_closed_complete]. intros Hall. apply derives_nil. eapply Forall_impl; [exact Hall|].
  intros x Hx. by apply (ni_sound _ Hnull).
Qed.

Lemma firstOfSequenceWithFallback_spec F syms fallback : first_inv F → first_closed F →
  Forall (λ x, 0 ≤ x < nsyms) syms → words_ok fallback →
  ∃ b, firstOfSequenceWithFallback ng F nullables syms (Some fallback) = Ret b ∧ words_ok b ∧
    ∀ t, mem b t ↔ (0 ≤ t < TokenCount ng ∧ ∃ beta, derives ng syms (t :: beta)) ∨ (derives ng syms [] ∧ mem fallback t).
Proof using Hnull Hclosed.
  intros HF Hc Hsyms Hwf'. unfold firstOfSequenceWithFallback.
  destruct (firstOfSequence_spec F syms HF Hc Hsyms) as (b & -> & Hw & Hm). cbn [mbind go_bind].
  destruct (all_nullable_spec nullables syms Hnull Hsyms) as (n & -> & Hn). cbn [mbind go_bind].
  rewrite nullable_iff in Hn. destruct n.
  - destruct (unionWith_spec b fallback Hw Hwf') as (Hw' & Hm' & _). eexists. split_and!; [done..|].
    intros t. rewrite Hm', Hm. tauto.
  - exists b. split_and!; [done..|]. intros t. rewrite Hm. split; [by left|]. intros [?|[?%Hn _]]; done.
Qed.
End first_facts.

Lemma computeFirstSets_inv ng : grammar_wf ng → ∃ F nullables, computeFirstSets ng = Ret (F, nullables) ∧
  null_inv ng nullables ∧ null_closed ng nullables ∧ first_inv ng F ∧ first_closed ng nullables F.
Proof.
  intros Hwf. destruct (init_first_inv ng Hwf) as (F0 & HF0 & Hinv0 & Hfuel).
  destruct (nullables_exact ng Hwf) as (nullables & Hn & Hnull & Hcl).
  destruct (first_loop_spec ng Hwf nullables Hnull (first_fuel ng) F0 Hinv0 Hfuel) as (F & HF & Hinv & Hfc).
  exists F, nullables. unfold computeFirstSets. rewrite HF0. cbn [mbind go_bind]. rewrite Hn. cbn [mbind go_bind].
  by rewrite HF.
Qed.

(** C36.  FIRST sets are exact.  On a grammar whose tokens come first and whose
    productions are over its symbols, [computeFirstSets] ends within its fuel and
    without an index out of range.  A symbol is marked nullable exactly when it
    derives the empty word; the set of a symbol holds exactly the tokens that a
    sentence derived from it can begin with.  [firstOfSequence] returns the first
    tokens of a sequence of symbols, and [firstOfSequenceWithFallback] adds the
    fallback exactly when the sequence derives the empty word. *)
Theorem computeFirstSets_exact ng : grammar_wf ng → ∃ F nullables,
  computeFirstSets ng = Ret (F, nullables) ∧ len F = len (Symbols ng) ∧ len nullables = len (Symbols ng) ∧
  (∀ x, zget nullables x = Some true ↔ derives ng [x] []) ∧
  (∀ x b, zget F x = Some b → words_ok b ∧
    ∀ t, mem b t ↔ 0 ≤ t < TokenCount ng ∧ ∃ beta, derives ng [x] (t :: beta)) ∧
  (∀ syms, Forall (λ x, 0 ≤ x < len (Symbols ng)) syms →
    (∃ b, firstOfSequence ng F nullables syms = Ret b ∧ words_ok b ∧
      ∀ t, mem b t ↔ 0 ≤ t < TokenCount ng ∧ ∃ beta, derives ng syms (t :: beta)) ∧
    ∀ fallback, words_ok fallback →
      ∃ b, firstOfSequenceWithFallback ng F nullables syms (Some fallback) = Ret b ∧ words_ok b ∧
      ∀ t, mem b t ↔ (0 ≤ t < TokenCount ng ∧ ∃ beta, derives ng syms (t :: beta)) ∨
                     (derives ng syms [] ∧ mem fallback t)).
Proof.
  intros Hwf. destruct (computeFirstSets_inv ng Hwf) as (F & nullables & Hrun & Hnull & Hcl & Hinv & Hfc). exists F, nullables.
  split_and!; [done|apply Hinv|apply Hnull| | |].
  - intros x. rewrite <-(nullable_iff ng nullables Hnull Hcl), list.Forall_singleton. done.
  - intros x b Hb. split; [by eapply Forall_zget; [apply Hinv|]|]. intros t. split.
    + intros Ht. apply (fi_sound _ _ Hinv). by exists b.
    + intros (Ht & beta & Hd). apply (first_complete ng nullables Hcl F [x] t beta) in Hd; [|done..].
      destruct Hd as [(c & ? & ?)|[_ []]]. by simplify_eq.
  - intros syms Hsyms. split; [by apply firstOfSequence_spec|]. intros fb Hfb. by apply firstOfSequenceWithFallback_spec.
Qed.

(** Tokens [a] (0) and [b] (1); [S' → S], [S → A b], [A → a A |]. *)
Definition sample_grammar : NormalizedGrammar :=
  plain_grammar
    [plain_symbol SymbolTerminal; plain_symbol SymbolTerminal; plain_symbol SymbolNonterminal;
     plain_symbol SymbolNonterminal; plain_symbol SymbolNonterminal]
    [plain_production 2 [3]; plain_production 3 [4; 1]; plain_production 4 [0; 4]; plain_production 4 []] 0.

Lemma sample_grammar_wf : grammar_wf sample_grammar.
Proof. by apply grammar_wfb_ok. Qed.

Lemma computeFirstSets_exact_witness :
  computeFirstSets sample_grammar = Ret ([[1]; [2]; [3]; [3]; [1]], [false; false; false; false; true]) ∧
  ∃ beta, derives sample_grammar [3] (1 :: beta).
Proof.
  destruct (computeFirstSets_exact sample_grammar sample_grammar_wf) as (F & nullables & Hrun & _ & _ & _ & Hset & _).
  assert (computeFirstSets sample_grammar = Ret ([[1]; [2]; [3]; [3]; [1]], [false; false; false; false; true])) as E
    by (vm_compute; reflexivity).
  split; [exact E|]. rewrite Hrun in E. injection E as -> ->.
  destruct (Hset 3 [3] eq_refl) as [_ Hm]. apply (Hm 1). exists 3. split; vm_compute; reflexivity.
Defined.
