(* ===== verification/Digraph.v ===== *)
(** * The digraph algorithm

    grammargen/lr_lalr.go, [digraph]: the sets F(x) = f(x) ∪ ⋃ F(y) over the
    edges x → y of a relation, by one depth-first traversal that collapses
    strongly connected components.  The results never exceed the sets that the
    relation reaches, and are exact when the relation has no cycle but self loops.
    On a relation with cycles a node can lose members. *)

From Stdlib Require Import ZArith Lia ZifyBool.
From stdpp Require Import base tactics list numbers option relations.
From S2P Require Import Prelude Bitset.
Local Open Scope Z_scope.

(** ** The code *)

(** The variables that [traverse] captures; the top of the stack comes first. *)
Record dg := mkDg { dres : list bitset; ddepth : list Z; dstack : list Z; dd : Z }.

Definition infinity : Z := 0x7FFFFFFF.

(** What the loop over the edges does with an edge to a visited node. *)
Definition relax (x y : Z) (st : dg) : go dg :=
  dy ← index (ddepth st) y;
  dx ← index (ddepth st) x;
  depth ← (if dy <? dx then store (ddepth st) x dy else Ret (ddepth st));
  rx ← index (dres st) x;
  ry ← index (dres st) y;
  result ← store (dres st) x (unionWith rx ry).1;
  Ret (mkDg result depth (dstack st) (dd st)).

Fixpoint visit_edges (traverse : Z → dg → go dg) (x : Z) (ys : list Z) (st : dg) : go dg :=
  match ys with
  | [] => Ret st
  | y :: ys =>
    dy ← index (ddepth st) y;
    st ← (if dy =? 0 then traverse y st else Ret st);
    st ← relax x y st;
    visit_edges traverse x ys st
  end.

(** Pops the stack down to [x]. *)
Fixpoint pop_scc (x : Z) (stack depth : list Z) (result : list bitset) : go (list Z * list Z * list bitset) :=
  match stack with
  | [] => Panic
  | top :: stack =>
    depth ← store depth top infinity;
    if top =? x then Ret (stack, depth, result) else
    rx ← index result x;
    result ← store result top (clone rx);
    pop_scc x stack depth result
  end.

Fixpoint traverse (rel : list (list Z)) (fuel : nat) (x : Z) (st : dg) : go dg :=
  match fuel with
  | O => NoFuel
  | S fuel =>
    let d := dd st + 1 in
    depth ← store (ddepth st) x d;
    ys ← index rel x;
    st ← visit_edges (traverse rel fuel) x ys (mkDg (dres st) depth (x :: dstack st) d);
    dx ← index (ddepth st) x;
    if dx =? dd st then
      '(stack, depth, result) ← pop_scc x (dstack st) (ddepth st) (dres st);
      Ret (mkDg result depth stack (dd st - 1))
    else Ret (mkDg (dres st) (ddepth st) (dstack st) (dd st - 1))
  end.

Fixpoint clone_all (f : list bitset) (nodes : list Z) : go (list bitset) :=
  match nodes with
  | [] => Ret []
  | i :: nodes => b ← index f i; rest ← clone_all f nodes; Ret (clone b :: rest)
  end.

Fixpoint visit_nodes (rel : list (list Z)) (fuel : nat) (nodes : list Z) (st : dg) : go dg :=
  match nodes with
  | [] => Ret st
  | i :: nodes =>
    di ← index (ddepth st) i;
    st ← (if di =? 0 then traverse rel fuel i st else Ret st);
    visit_nodes rel fuel nodes st
  end.

(** A call nests at most once per node. *)
Definition digraph (n : Z) (f : list bitset) (rel : list (list Z)) : go (list bitset) :=
  result ← clone_all f (seqZ 0 n);
  st ← visit_nodes rel (S (Z.to_nat n)) (seqZ 0 n) (mkDg result (make n 0) [] 0);
  Ret (dres st).

(** ** What the sets should be *)

Definition edge (rel : list (list Z)) (x y : Z) : Prop := ∃ ys, zget rel x = Some ys ∧ y ∈ ys.

Notation reach rel := (rtc (edge rel)).

(** [t] is in the set of a node that [x] reaches. *)
Definition in_closure (f : list bitset) (rel : list (list Z)) (x t : Z) : Prop :=
  ∃ y, reach rel x y ∧ in_set f y t.

(** No cycles but self loops. *)
Definition acyclic (rel : list (list Z)) : Prop := ∀ x y, reach rel x y → reach rel y x → x = y.

Section digraph_facts.
Context (n : Z) (f : list bitset) (rel : list (list Z)).
Context (Hn : n < infinity) (Hf : len f = n) (Hfw : Forall words_ok f) (Hrel : len rel = n)
  (Hrange : ∀ x y, edge rel x y → 0 ≤ y < n).

(** A stack node reaches a node of the path whose level is not above its number. *)
Definition anchored (path : list Z) (z k : Z) : Prop :=
  ∃ a p b, path = a ++ p :: b ∧ reach rel z p ∧ len b + 1 ≤ k.

(** [path] holds the nodes of the pending calls, the innermost first. *)
Record dg_inv (path : list Z) (st : dg) : Prop := {
  di_res : len (dres st) = n;
  di_depth : len (ddepth st) = n;
  di_dd : dd st = len path;
  di_words : Forall words_ok (dres st);
  di_status z k : zget (ddepth st) z = Some k → k = 0 ∨ k = infinity ∨ z ∈ dstack st;
  di_stack z : z ∈ dstack st → ∃ k, zget (ddepth st) z = Some k ∧ 0 < k < infinity ∧ anchored path z k;
  di_nodup : NoDup (dstack st);
  di_sub : path `sublist_of` dstack st;
  di_upper x t : in_set (dres st) x t → in_closure f rel x t;
  di_lower x t : in_set f x t → in_set (dres st) x t;
  di_done z y : acyclic rel → zget (ddepth st) z = Some infinity → edge rel z y →
    zget (ddepth st) y = Some infinity ∧ ∀ t, in_set (dres st) y t → in_set (dres st) z t }.

Lemma di_path path st z : dg_inv path st → z ∈ path → z ∈ dstack st.
Proof using. intros Hst Hz. eapply elem_of_sublist; [exact Hz|apply Hst]. Qed.

(** Visited nodes keep their number and their set, except [except]. *)
Definition keeps (except : Z → Prop) (st st' : dg) : Prop :=
  ∀ z k, zget (ddepth st) z = Some k → k ≠ 0 → ¬ except z →
    zget (ddepth st') z = Some k ∧ zget (dres st') z = zget (dres st) z.

Lemma keeps_trans P st1 st2 st3 : keeps P st1 st2 → keeps P st2 st3 → keeps P st1 st3.
Proof using.
  intros H12 H23 z k Hk Hk0 Hz. destruct (H12 z k Hk Hk0 Hz) as [Hk' E]. destruct (H23 z k Hk' Hk0 Hz) as [Hk'' E'].
  split; [done|congruence].
Qed.

Lemma keeps_weaken (P Q : Z → Prop) st st' : (∀ z, P z → Q z) → keeps P st st' → keeps Q st st'.
Proof using. intros HPQ HK z k Hk Hk0 Hz. apply HK; auto. Qed.

Definition unvisited_in (depth : list Z) : nat := total_of (λ k : Z, if k =? 0 then 1%nat else O) depth.
Definition unvisited (st : dg) : nat := unvisited_in (ddepth st).

Lemma unvisited_pop depth z : 0 ≤ z < len depth →
  (unvisited_in (<[Z.to_nat z := infinity]> depth) ≤ unvisited_in depth)%nat.
Proof using.
  intros [k Hk]%zget_in_range. pose proof (total_of_set (λ k : Z, if k =? 0 then 1%nat else O) depth z k infinity Hk) as E.
  cbn in E. unfold unvisited_in. lia.
Qed.

Lemma relax_spec path x y st : dg_inv (x :: path) st → edge rel x y → zget (ddepth st) y ≠ Some 0 →
  ∃ st', relax x y st = Ret st' ∧ dg_inv (x :: path) st' ∧ dstack st' = dstack st ∧
    keeps (λ z, z = x) st st' ∧ unvisited st' = unvisited st ∧
    (∀ z t, in_set (dres st') z t ↔ in_set (dres st) z t ∨ z = x ∧ in_set (dres st) y t) ∧
    (∃ k k', zget (ddepth st) x = Some k ∧ zget (ddepth st') x = Some k' ∧ k' ≤ k).
Proof using Hn Hrange.
  intros Hst Hxy Hy0. pose proof (Hrange x y Hxy) as Hy. unfold relax.
  destruct (di_stack _ _ Hst x) as (kx & Hkx & Hkx0 & Hax); [apply (di_path (x :: path)); [done|left]|].
  pose proof (zget_Some_range _ _ _ Hkx) as Hx. rewrite (di_depth _ _ Hst) in Hx.
  destruct (index_in_range (ddepth st) y) as (ky & -> & Hky); [rewrite (di_depth _ _ Hst); lia|].
  rewrite (proj2 (index_Ret _ _ _) Hkx). cbn [mbind go_bind].
  set (depth' := if ky <? kx then <[Z.to_nat x := ky]> (ddepth st) else ddepth st).
  assert ((if ky <? kx then store (ddepth st) x ky else Ret (ddepth st)) = Ret depth') as ->.
  { unfold depth'. destruct (ky <? kx); [|done]. apply store_ok. rewrite (di_depth _ _ Hst). lia. }
  cbn [mbind go_bind].
  destruct (index_in_range (dres st) x) as (rx & -> & Hrx); [rewrite (di_res _ _ Hst); lia|].
  destruct (index_in_range (dres st) y) as (ry & -> & Hry); [rewrite (di_res _ _ Hst); lia|].
  cbn [mbind go_bind]. rewrite (store_ok (dres st)) by (rewrite (di_res _ _ Hst); lia).
  pose proof (in_set_union (dres st) x y rx ry Hrx Hry) as Hin. set (res' := <[Z.to_nat x := _]> (dres st)) in *.
  cbn [mbind go_bind]. eexists. split; [reflexivity|].
  assert (∀ z, z ≠ x → zget depth' z = zget (ddepth st) z) as Hne.
  { intros z Hz. unfold depth'. destruct (ky <? kx); [|done]. apply zget_insert_ne; lia. }
  assert (zget depth' x = Some (Z.min ky kx)) as Heq.
  { unfold depth'. destruct (Z.ltb_spec ky kx); [rewrite zget_insert_eq by (rewrite (di_depth _ _ Hst); lia)|rewrite Hkx]; f_equal; lia. }
  assert (ky < kx → y ∈ dstack st) as Hys.
  { intros Hlt. destruct (di_status _ _ Hst y ky Hky) as [-> |[-> |?]]; [done|unfold infinity in *; lia|done]. }
  assert (0 < Z.min ky kx < infinity ∧ anchored (x :: path) x (Z.min ky kx)) as (Hmin & Hanch).
  { destruct (decide (ky < kx)) as [Hlt|]; [|by replace (Z.min ky kx) with kx by lia].
    replace (Z.min ky kx) with ky by lia. destruct (di_stack _ _ Hst y (Hys Hlt)) as (k & ? & Hk & a & p & b & Ep & Hr & Hl).
    simplify_eq. split; [done|]. exists a, p, b. split_and!; [done|by eapply rtc_l|done]. }
  assert (keeps (λ z, z = x) st (mkDg res' depth' (dstack st) (dd st))) as Hkeep.
  { intros z k Hk _ Hz. cbn. split; [by rewrite Hne|]. apply zget_insert_ne; [lia|done]. }
  split_and!; [|done|done| |done|exists kx, (Z.min ky kx); split_and!; [done..|lia]].
  2: { unfold unvisited, unvisited_in. cbn. unfold depth'. destruct (Z.ltb_spec ky kx); [|done].
       apply total_of_store_eq with kx; [done|]. destruct (Z.eqb_spec ky 0), (Z.eqb_spec kx 0); lia. }
  assert (∀ z t, z ≠ x → in_set res' z t ↔ in_set (dres st) z t) as Hin' by (intros; rewrite Hin; tauto).
  split; cbn; try apply Hst.
  - unfold res'. rewrite len_insert. apply Hst.
  - unfold depth'. destruct (ky <? kx); rewrite ?len_insert; apply Hst.
  - apply Forall_insert; [apply Hst|]. apply unionWith_spec; (eapply Forall_zget; [apply Hst|done]).
  - intros z k. destruct (decide (z = x)) as [->|]; [|rewrite Hne by done; apply Hst].
    intros _. right; right. apply (di_path (x :: path)); [done|left].
  - intros z Hz. destruct (decide (z = x)) as [->|]; [by exists (Z.min ky kx)|]. rewrite Hne by done. by apply Hst.
  - intros z t [?|[-> Ht]]%Hin; [by apply Hst|]. apply (di_upper _ _ Hst) in Ht as (w & Hw & Ht).
    exists w. split; [by eapply rtc_l|done].
  - intros z t Ht. apply Hin. left. by apply Hst.
  - intros z w Hac Hz Hzw. destruct (decide (z = x)) as [->|Hzx].
    { rewrite Heq in Hz. injection Hz as ?. lia. }
    rewrite Hne in Hz by done. destruct (di_done _ _ Hst z w Hac Hz Hzw) as [Hw Hsub].
    assert (w ≠ x) as Hwx by (intros ->; rewrite Hkx in Hw; injection Hw as ?; lia).
    rewrite Hne by done. split; [done|]. intros t. rewrite (Hin' w), (Hin' z) by done. apply Hsub.
Qed.

(** What a call of [traverse] does: it finishes [x] and leaves on the stack, of
    the nodes it visited, those that wait for an enclosing call. *)
Definition finishes (path : list Z) (x : Z) (st st' : dg) (new : list Z) : Prop :=
  dg_inv path st' ∧ dstack st' = new ++ dstack st ∧ keeps (λ _, False) st st' ∧
  (∀ z t, z ∈ new → in_set f z t → in_set (dres st') x t) ∧ (unvisited st' ≤ unvisited st)%nat ∧
  zget (ddepth st') x ≠ Some 0 ∧ (acyclic rel → new = []).

Definition traverses (run : Z → dg → go dg) (bound : nat) : Prop :=
  ∀ path x st, dg_inv path st → zget (ddepth st) x = Some 0 → (∀ p, p ∈ path → reach rel p x) →
    (unvisited st ≤ bound)%nat → ∃ st' new, run x st = Ret st' ∧ finishes path x st st' new.

(** The edge's target is finished, or on the stack. *)
Lemma visit_target run bound path y st : traverses run bound → dg_inv path st → 0 ≤ y < n →
  (∀ p, p ∈ path → reach rel p y) → (unvisited st ≤ bound)%nat →
  ∃ dy st' new, index (ddepth st) y = Ret dy ∧ (if dy =? 0 then run y st else Ret st) = Ret st' ∧ finishes path y st st' new.
Proof using.
  intros Hrun Hst Hy Hpath Hb. destruct (index_in_range (ddepth st) y) as (dy & Ey & Hdy); [rewrite (di_depth _ _ Hst); lia|].
  destruct (Z.eqb_spec dy 0) as [->|Hne].
  - destruct (Hrun path y st Hst Hdy Hpath Hb) as (st' & new & Hr & Hfin). by exists 0, st', new.
  - exists dy, st, []. replace (dy =? 0) with false by lia. split_and!; [done..|]. split_and!; try done.
    + by intros z t ?%elem_of_nil.
    + rewrite Hdy. by intros [= ?].
Qed.

Lemma visit_edges_spec run bound path x ys st : traverses run bound → dg_inv (x :: path) st →
  (∀ y, y ∈ ys → edge rel x y) → (∀ p, p ∈ x :: path → reach rel p x) → (unvisited st ≤ bound)%nat →
  ∃ st' above, visit_edges run x ys st = Ret st' ∧ dg_inv (x :: path) st' ∧ dstack st' = above ++ dstack st ∧
    keeps (λ z, z = x) st st' ∧ (unvisited st' ≤ unvisited st)%nat ∧
    (∀ z t, z ∈ above → in_set f z t → in_set (dres st') x t) ∧
    (∀ t, in_set (dres st) x t → in_set (dres st') x t) ∧
    (∃ k k', zget (ddepth st) x = Some k ∧ zget (ddepth st') x = Some k' ∧ k' ≤ k) ∧
    (acyclic rel → above = [] ∧ ∀ y, y ∈ ys → y = x ∨
      zget (ddepth st') y = Some infinity ∧ ∀ t, in_set (dres st') y t → in_set (dres st') x t).
Proof using Hn Hrange.
  intros Hrun Hst Hys Hpath. revert st Hst. induction ys as [|y ys IH]; intros st Hst Hb; cbn [visit_edges].
  { destruct (di_stack _ _ Hst x) as (kx & Hkx & _); [apply (di_path (x :: path)); [done|left]|].
    exists st, []. split_and!; try done; [by intros z t ?%elem_of_nil|by exists kx, kx|].
    intros _. split; [done|]. by intros y ?%elem_of_nil. }
  pose proof (Hys y ltac:(left)) as Hxy.
  destruct (visit_target run bound (x :: path) y st Hrun Hst (Hrange _ _ Hxy)) as
    (dy & st1 & new & -> & Hst1 & Hinv1 & Estack1 & Hk1 & Hnew & Hu1 & Hy1 & Hac1); [|done|].
  { intros p Hp. eapply rtc_r; [by apply Hpath|done]. }
  cbn [mbind go_bind]. rewrite Hst1. cbn [mbind go_bind]. clear Hst1 dy.
  destruct (relax_spec path x y st1 Hinv1 Hxy Hy1) as (st2 & -> & Hinv2 & Estack2 & Hk2 & Hu2 & Hin2 & kx1 & kx2 & Hkx1 & Hkx2 & Hle2).
  cbn [mbind go_bind].
  destruct (IH (λ z Hz, Hys z ltac:(by right)) st2 Hinv2 ltac:(lia)) as
    (st' & above & Hrun' & Hinv' & Estack' & Hk' & Hu' & Habove & Hmono & (k2 & k' & ? & Hk'x & Hle') & Hac').
  destruct (di_stack _ _ Hst x) as (kx & Hkx & Hkx0 & _); [apply (di_path (x :: path)); [done|left]|].
  destruct (Hk1 x kx Hkx) as [Hkx' Eres]; [lia|by intros []|]. simplify_eq.
  exists st', (above ++ new). split_and!; [done|done|by rewrite Estack', Estack2, Estack1, app_assoc| |lia| | | |].
  - eapply keeps_trans; [eapply keeps_weaken; [|exact Hk1]; done|]. by eapply keeps_trans.
  - intros z t [?|Hz]%elem_of_app Ht; [by eapply Habove|]. apply Hmono, Hin2. right. split; [done|]. by eapply Hnew.
  - intros t Ht. apply Hmono, Hin2. left. by eapply in_set_ext.
  - eexists _, k'. split_and!; [done..|lia].
  - intros Hac. destruct (Hac' Hac) as [-> Hdone]. rewrite (Hac1 Hac). split; [done|].
    intros w [->|Hw]%elem_of_cons; [|by apply Hdone]. destruct (decide (y = x)) as [|Hyx]; [by left|right].
    destruct (zget_in_range (ddepth st1) y) as [ky Hky]; [rewrite (di_depth _ _ Hinv1); by apply (Hrange x)|].
    destruct (di_status _ _ Hinv1 y ky Hky) as [-> |[-> |Hon]]; [done| |].
    + destruct (Hk2 y _ Hky) as [Hd2 Er2]; [done..|]. destruct (Hk' y _ Hd2) as [Hd' Er']; [done..|].
      split; [done|]. intros t Ht. apply Hmono, Hin2. right. split; [done|]. eapply in_set_ext; [|exact Ht]. congruence.
    + destruct Hyx. destruct (di_stack _ _ Hinv1 y Hon) as (_ & _ & _ & a & p & b & Ep & Hr & _).
      apply Hac; [|by apply rtc_once]. etrans; [exact Hr|]. apply Hpath. rewrite Ep. apply elem_of_app. right. left.
Qed.

(** ** Popping a component *)

Lemma pop_scc_spec x above stack depth res :
  x ∉ above → (∀ z, z ∈ x :: above → 0 ≤ z < len depth ∧ 0 ≤ z < len res) →
  ∃ depth' res', pop_scc x (above ++ x :: stack) depth res = Ret (stack, depth', res') ∧
    len depth' = len depth ∧ len res' = len res ∧
    (unvisited_in depth' ≤ unvisited_in depth)%nat ∧
    (∀ z, zget depth' z = if decide (z ∈ x :: above) then Some infinity else zget depth z) ∧
    (∀ z, zget res' z = if decide (z ∈ above) then zget res x else zget res z).
Proof using.
  revert depth res. induction above as [|top above IH]; intros depth res Hx Hr; cbn [pop_scc app].
  { destruct (Hr x) as [Hd Hs]; [left|]. rewrite store_ok by done. cbn [mbind go_bind]. rewrite Z.eqb_refl.
    exists (<[Z.to_nat x := infinity]> depth), res. split_and!; [done|by rewrite len_insert|done|by apply unvisited_pop| |].
    - intros z. case_decide as Hz.
      + apply list_elem_of_singleton in Hz as ->. by apply zget_insert_eq.
      + apply zget_insert_ne; [lia|]. intros ->. apply Hz. left.
    - intros z. rewrite decide_False by apply not_elem_of_nil. done. }
  apply not_elem_of_cons in Hx as [Hxt Hx]. destruct (Hr top) as [Hd Hs]; [right; left|]. destruct (Hr x) as [Hdx Hsx]; [left|].
  rewrite store_ok by done. cbn [mbind go_bind]. replace (top =? x) with false by lia.
  destruct (zget_in_range res x Hsx) as [rx Hrx]. rewrite (proj2 (index_Ret _ _ _) Hrx). cbn [mbind go_bind]. rewrite store_ok by done.
  cbn [mbind go_bind]. unfold clone. destruct (IH (<[Z.to_nat top := infinity]> depth) (<[Z.to_nat top := rx]> res) Hx) as
    (depth' & res' & Hrun & Hl & Hl' & Hu & Hd' & Hr').
  { intros z Hz. rewrite !len_insert. apply Hr. rewrite !elem_of_cons in *. tauto. }
  rewrite len_insert in Hl. rewrite len_insert in Hl'. pose proof (unvisited_pop depth top Hd) as Hu'.
  exists depth', res'. split_and!; [done..|lia| |].
  - intros z. rewrite Hd'. destruct (decide (z ∈ x :: above)) as [Hz|Hz].
    + rewrite decide_True by (rewrite !elem_of_cons in *; tauto). done.
    + destruct (decide (z = top)) as [->|Hzt].
      * rewrite decide_True by (right; left). by apply zget_insert_eq.
      * rewrite decide_False by (rewrite !elem_of_cons in *; tauto). apply zget_insert_ne; [lia|done].
  - intros z. rewrite Hr', (zget_insert_ne _ top x) by lia. destruct (decide (z ∈ above)) as [Hz|Hz].
    + rewrite decide_True by (by right). done.
    + destruct (decide (z = top)) as [->|Hzt].
      * rewrite decide_True by left. rewrite zget_insert_eq by done. done.
      * rewrite decide_False by (rewrite elem_of_cons; tauto). apply zget_insert_ne; [lia|done].
Qed.

(** ** A call *)

Lemma path_bound path x st : dg_inv path st → zget (ddepth st) x = Some 0 → (x ∉ dstack st) ∧ len path + 1 ≤ n.
Proof using.
  intros Hst Hx. assert (x ∉ dstack st) as Hnot.
  { intros (k & ? & ? & _)%(di_stack _ _ Hst). simplify_eq. lia. }
  split; [done|]. pose proof (sublist_length _ _ (di_sub _ _ Hst)) as Hl.
  assert (x :: dstack st ⊆+ seqZ 0 n) as Hsub%submseteq_length.
  { apply NoDup_submseteq; [constructor; [done|apply Hst]|]. intros z Hz. apply elem_of_seqZ.
    assert (0 ≤ z < len (ddepth st)) as Hr; [|rewrite (di_depth _ _ Hst) in Hr; lia].
    apply elem_of_cons in Hz as [->|(k & Hk & _)%(di_stack _ _ Hst)]; by eapply zget_Some_range. }
  rewrite length_seqZ in Hsub. cbn in Hsub. unfold len. lia.
Qed.

Lemma enter_inv path x st : dg_inv path st → zget (ddepth st) x = Some 0 →
  dg_inv (x :: path) (mkDg (dres st) (<[Z.to_nat x := dd st + 1]> (ddepth st)) (x :: dstack st) (dd st + 1)).
Proof using Hn.
  intros Hst Hx. destruct (path_bound path x st Hst Hx) as [Hnot Hb]. pose proof (len_nonneg path).
  pose proof (zget_Some_range _ _ _ Hx) as Hxr. pose proof (di_dd _ _ Hst) as Edd.
  assert (∀ z, z ≠ x → zget (<[Z.to_nat x := dd st + 1]> (ddepth st)) z = zget (ddepth st) z) as Hne
    by (intros; apply zget_insert_ne; [lia|done]).
  split; cbn [dres ddepth dstack dd].
  - apply Hst.
  - rewrite len_insert. apply Hst.
  - rewrite len_cons. lia.
  - apply Hst.
  - intros z k. destruct (decide (z = x)) as [->|]; [intros _; right; right; left|].
    rewrite Hne by done. intros [?|[?|?]]%(di_status _ _ Hst); auto. right; right. by right.
  - intros z. destruct (decide (z = x)) as [->|Hz].
    + intros _. exists (dd st + 1). rewrite zget_insert_eq by done. split_and!; [done|lia|lia|].
      exists [], x, path. split_and!; [done|constructor|lia].
    + intros [?|Hin]%elem_of_cons; [done|]. rewrite Hne by done.
      destruct (di_stack _ _ Hst z Hin) as (k & Hk & Hk0 & a & p & b & -> & Hr & Hl).
      exists k. split_and!; [done|lia|lia|]. by exists (x :: a), p, b.
  - constructor; [done|apply Hst].
  - apply sublist_skip, Hst.
  - apply Hst.
  - apply Hst.
  - intros z y Hac Hz Hzy. assert (z ≠ x) as Hzx.
    { intros ->. rewrite zget_insert_eq in Hz by done. injection Hz as ?. lia. }
    rewrite Hne in Hz by done. destruct (di_done _ _ Hst z y Hac Hz Hzy) as [Hy Hsub]. split; [|done].
    rewrite Hne; [done|]. intros ->. rewrite Hx in Hy. done.
Qed.

Lemma unvisited_enter x d depth : zget depth x = Some 0 → d ≠ 0 →
  (unvisited_in (<[Z.to_nat x := d]> depth) < unvisited_in depth)%nat.
Proof using. intros Hx Hd. apply total_of_store with 0; [done|]. cbn. replace (d =? 0) with false by lia. lia. Qed.

Section exits.
Context (path above : list Z) (x : Z) (st st1 : dg) (kx : Z).
Context (Hst : dg_inv path st) (Hx0 : zget (ddepth st) x = Some 0) (Hpath : ∀ p, p ∈ path → reach rel p x)
  (Hst1 : dg_inv (x :: path) st1) (Estack : dstack st1 = above ++ x :: dstack st)
  (Hkeep : keeps (λ z, z = x) st st1) (Habove : ∀ z t, z ∈ above → in_set f z t → in_set (dres st1) x t)
  (Hkx : zget (ddepth st1) x = Some kx) (Hu : (unvisited st1 ≤ unvisited st)%nat).

Lemma exit_stack : NoDup above ∧ (x ∉ above) ∧ (∀ z, z ∈ above → z ∉ dstack st).
Proof using Hst1 Estack.
  pose proof (di_nodup _ _ Hst1) as Hnd. rewrite Estack in Hnd. apply NoDup_app in Hnd as (Ha & Hdis & _).
  split_and!; [done|intros Hin; apply (Hdis x Hin); left|]. intros z Hz Hz'. apply (Hdis z Hz). by right.
Qed.

Lemma above_reaches z : z ∈ above → reach rel z x.
Proof using Hst1 Estack Hpath.
  intros Hz. destruct (di_stack _ _ Hst1 z) as (_ & _ & _ & a & p & b & Ep & Hr & _); [rewrite Estack; apply elem_of_app; by left|].
  etrans; [exact Hr|]. assert (p ∈ x :: path) as [->|Hp]%elem_of_cons by (rewrite Ep; apply elem_of_app; right; left); [constructor|by apply Hpath].
Qed.

(** A node visited before the call is not popped by it. *)
Lemma visited_kept z k : zget (ddepth st) z = Some k → k ≠ 0 → z ≠ x ∧ (z ∉ above).
Proof using Hst Hx0 Hst1 Estack Hkeep Hn.
  clear Hu. intros Hz Hk. assert (z ≠ x) as Hzx by (intros ->; congruence). split; [done|]. intros Hin.
  destruct (Hkeep z k Hz Hk Hzx) as [Hz1 _]. destruct (di_status _ _ Hst z k Hz) as [->|[->|Hs]]; [done| |by apply exit_stack in Hs].
  destruct (di_stack _ _ Hst1 z) as (k & ? & ? & _); [rewrite Estack; apply elem_of_app; by left|]. simplify_eq. lia.
Qed.

(** [x] is taken for the root of a component: it and the nodes above are popped. *)
Lemma exit_root ys : zget rel x = Some ys →
  (acyclic rel → above = [] ∧ ∀ y, y ∈ ys → y = x ∨
     zget (ddepth st1) y = Some infinity ∧ ∀ t, in_set (dres st1) y t → in_set (dres st1) x t) →
  ∃ depth' res', pop_scc x (dstack st1) (ddepth st1) (dres st1) = Ret (dstack st, depth', res') ∧
    finishes path x st (mkDg res' depth' (dstack st) (dd st1 - 1)) [].
Proof using Hst Hx0 Hpath Hst1 Estack Hkeep Habove Hkx Hu Hn.
  intros Hys Hac. destruct exit_stack as (Hnd & Hxa & Hdis).
  assert (∀ z, z ∈ x :: above → 0 ≤ z < n) as Hrng.
  { intros z Hz. destruct (di_stack _ _ Hst1 z) as (k & Hk & _).
    - rewrite Estack. apply elem_of_app. apply elem_of_cons in Hz as [->|?]; [right; left|by left].
    - apply zget_Some_range in Hk. by rewrite (di_depth _ _ Hst1) in Hk. }
  destruct (pop_scc_spec x above (dstack st) (ddepth st1) (dres st1) Hxa) as (depth' & res' & Hrun & Hl & Hl' & Hu' & Hd & Hr).
  { intros z ?%Hrng. by rewrite (di_depth _ _ Hst1), (di_res _ _ Hst1). }
  exists depth', res'. rewrite Estack. split; [done|].
  assert (∀ z, z ∉ above → z ≠ x → zget depth' z = zget (ddepth st1) z) as Hd1.
  { intros z Hz1 Hz2. rewrite Hd, decide_False; [done|]. by intros [?|?]%elem_of_cons. }
  assert (∀ z t, in_set res' z t ↔ if decide (z ∈ above) then in_set (dres st1) x t else in_set (dres st1) z t) as Hin.
  { intros z t. unfold in_set. rewrite Hr. by case_decide. }
  assert (∀ z k, zget (ddepth st) z = Some k → k ≠ 0 → zget depth' z = Some k ∧ zget res' z = zget (dres st) z) as Hvis.
  { intros z k Hz Hk. destruct (visited_kept z k Hz Hk) as [Hzx Hza]. destruct (Hkeep z k Hz Hk Hzx) as [Ez Er].
    rewrite Hd1 by done. split; [done|]. by rewrite Hr, decide_False. }
  split_and!; [split; cbn [dres ddepth dstack dd]|done| | |unfold unvisited in *; cbn [ddepth]; lia| |done].
  - rewrite Hl'. apply Hst1.
  - rewrite Hl. apply Hst1.
  - rewrite (di_dd _ _ Hst1), len_cons. lia.
  - apply list.Forall_forall. intros b (z & _ & Hz)%elem_zget. rewrite Hr in Hz.
    case_decide; (eapply Forall_zget; [apply (di_words _ _ Hst1)|done]).
  - intros z k. rewrite Hd. case_decide as Hz; [intros [= <-]; by right; left|].
    intros [?|[?|Hin']]%(di_status _ _ Hst1); auto. right; right. rewrite Estack in Hin'.
    rewrite elem_of_cons in Hz. apply elem_of_app in Hin' as [?|[?|?]%elem_of_cons]; tauto.
  - intros z Hz. destruct (di_stack _ _ Hst z Hz) as (k & Hk & Hk0 & Ha). exists k.
    split; [apply Hvis; [done|lia]|done].
  - apply Hst.
  - apply Hst.
  - intros z t Ht%Hin. case_decide as Hz; [|by apply Hst1].
    destruct (di_upper _ _ Hst1 x t Ht) as (y & Hy & Hyt). exists y. split; [|done]. etrans; [by apply above_reaches|done].
  - intros z t Ht. apply Hin. case_decide; [by eapply Habove|by apply Hst1].
  - intros z y Hacy Hz Hzy. destruct (Hac Hacy) as [-> Hdone]. assert (∀ w t, in_set res' w t ↔ in_set (dres st1) w t) as Hin'
      by (intros; rewrite Hin, decide_False; [done|apply not_elem_of_nil]).
    assert (∀ w, zget (ddepth st1) w = Some infinity → zget depth' w = Some infinity) as Hdw
      by (intros w Hw; rewrite Hd; by case_decide).
    destruct (decide (z = x)) as [->|Hzx].
    + destruct Hzy as (ys' & ? & Hy). simplify_eq. destruct (Hdone y Hy) as [->|[Hy1 Hy2]]; [split; [done|auto]|].
      split; [by apply Hdw|]. intros t. rewrite !Hin'. apply Hy2.
    + rewrite Hd1 in Hz by (done || apply not_elem_of_nil). destruct (di_done _ _ Hst1 z y Hacy Hz Hzy) as [Hy1 Hy2].
      split; [by apply Hdw|]. intros t. rewrite !Hin'. apply Hy2.
  - intros z k Hz Hk _. by apply Hvis.
  - by intros z t ?%elem_of_nil.
  - rewrite Hd, decide_True by left. done.
Qed.

(** [x] waits on the stack for an enclosing call. *)
Lemma exit_wait : kx < len path + 1 →
  finishes path x st (mkDg (dres st1) (ddepth st1) (dstack st1) (dd st1 - 1)) (above ++ [x]).
Proof using Hst Hx0 Hpath Hst1 Estack Hkeep Habove Hkx Hu.
  intros Hlt. assert (∃ a p b, path = a ++ p :: b ∧ reach rel x p ∧ len b + 1 ≤ kx) as (a0 & p0 & b0 & Ep0 & Hr0 & Hl0).
  { destruct (di_stack _ _ Hst1 x) as (k & ? & _ & a & p & b & Ep & Hr & Hl); [apply (di_path (x :: path)); [done|left]|].
    simplify_eq. destruct a as [|y a]; simplify_eq/=; [lia|]. by exists a, p, b. }
  split_and!; [split; cbn [dres ddepth dstack dd]; try apply Hst1| | | |done| |].
  - rewrite (di_dd _ _ Hst1), len_cons. lia.
  - intros z Hz. destruct (di_stack _ _ Hst1 z Hz) as (k & Hk & Hk0 & a & p & b & Ep & Hr & Hl). exists k. split_and!; [done|lia|lia|].
    destruct a as [|y a]; simplify_eq/=; [|by exists a, p, b]. exists a0, p0, b0. split_and!; [done|by etrans|lia].
  - etrans; [|apply Hst1]. by apply sublist_cons.
  - cbn. by rewrite Estack, <-app_assoc.
  - intros z k Hz Hk _. apply Hkeep; [done..|]. intros ->. congruence.
  - intros z t [?|Hz]%elem_of_app Ht; [by eapply Habove|]. apply list_elem_of_singleton in Hz as ->. by apply Hst1.
  - cbn. destruct (di_stack _ _ Hst1 x) as (k & ? & ? & _); [apply (di_path (x :: path)); [done|left]|]. rewrite Hkx. intros [= ->]. simplify_eq. lia.
  - intros Hac. exfalso. destruct (path_bound path x st Hst Hx0) as [Hnot _]. apply Hnot. apply (di_path path); [done|].
    rewrite Ep0. apply elem_of_app. right. rewrite (Hac x p0); [left|done|]. apply Hpath. rewrite Ep0. apply elem_of_app. right. left.
Qed.
End exits.

Lemma traverse_spec fuel : traverses (traverse rel fuel) fuel.
Proof using Hn Hrel Hrange.
  induction fuel as [|fuel IH]; intros path x st Hst Hx0 Hpath Hb.
  { pose proof (unvisited_enter x 1 (ddepth st) Hx0 ltac:(done)). unfold unvisited in Hb. lia. }
  cbn [traverse]. pose proof (zget_Some_range _ _ _ Hx0) as Hx. pose proof (len_nonneg path) as Hlp.
  rewrite store_ok by done. cbn [mbind go_bind].
  destruct (index_in_range rel x) as (ys & -> & Hys); [rewrite Hrel, <-(di_depth _ _ Hst); done|]. cbn [mbind go_bind].
  pose proof (enter_inv path x st Hst Hx0) as Hst0. set (st0 := mkDg _ _ _ _) in *.
  pose proof (unvisited_enter x (dd st + 1) (ddepth st) Hx0 ltac:(rewrite (di_dd _ _ Hst); lia)) as Hlt.
  assert (unvisited st0 < unvisited st)%nat as Hlt0 by exact Hlt. clear Hlt.
  destruct (visit_edges_spec (traverse rel fuel) fuel path x ys st0 IH Hst0) as
    (st1 & above & -> & Hst1 & Estack & Hk & Hu & Habove & _ & (k0 & kx & Hk0 & Hkx & Hle) & Hac).
  { intros y Hy. by exists ys. } { intros p [->|Hp]%elem_of_cons; [constructor|by apply Hpath]. } { lia. }
  cbn [mbind go_bind]. rewrite (proj2 (index_Ret _ _ _) Hkx). cbn [mbind go_bind].
  assert (k0 = len path + 1) as ->.
  { unfold st0 in Hk0. cbn in Hk0. rewrite zget_insert_eq, (di_dd _ _ Hst) in Hk0 by done. by injection Hk0. }
  assert (keeps (λ z, z = x) st st1) as Hkeep.
  { intros z k Hz Hk' Hzx. apply (Hk z k); [|done..]. unfold st0. cbn. by rewrite zget_insert_ne by lia. }
  rewrite (di_dd _ _ Hst1), len_cons. destruct (Z.eqb_spec kx (len path + 1)) as [->|Hne].
  - destruct (exit_root path above x st st1 (len path + 1) Hst Hx0 Hpath Hst1 Estack Hkeep Habove Hkx ltac:(lia) ys Hys Hac)
      as (depth' & res' & -> & Hfin). cbn [mbind go_bind]. rewrite (di_dd _ _ Hst1), len_cons in Hfin. eexists _, []. by split.
  - pose proof (exit_wait path above x st st1 kx Hst Hx0 Hpath Hst1 Estack Hkeep Habove Hkx ltac:(lia) ltac:(lia)) as Hfin.
    rewrite (di_dd _ _ Hst1), len_cons in Hfin. eexists _, _. by split.
Qed.

(** ** The whole traversal *)

Lemma visit_nodes_spec fuel nodes st : dg_inv [] st → (∀ i, i ∈ nodes → 0 ≤ i < n) → (unvisited st ≤ fuel)%nat →
  ∃ st', visit_nodes rel fuel nodes st = Ret st' ∧ dg_inv [] st' ∧ keeps (λ _, False) st st' ∧
    ∀ i, i ∈ nodes → zget (ddepth st') i ≠ Some 0.
Proof using Hn Hrel Hrange.
  revert st. induction nodes as [|i nodes IH]; intros st Hst Hin Hfu; cbn [visit_nodes].
  { exists st. split_and!; [done..|]. by intros i ?%elem_of_nil. }
  destruct (visit_target _ _ [] i st (traverse_spec fuel) Hst) as
    (di & st1 & new & -> & Hrun & Hinv1 & _ & Hk1 & _ & Hu1 & Hi1 & _); [apply Hin; left|by intros p ?%elem_of_nil|done|].
  cbn [mbind go_bind]. rewrite Hrun. cbn [mbind go_bind].
  destruct (IH st1 Hinv1 (λ j Hj, Hin j ltac:(by right)) ltac:(lia)) as (st' & Hrun' & Hinv' & Hk' & Hv).
  exists st'. split_and!; [done..|by eapply keeps_trans|]. intros j [->|Hj]%elem_of_cons; [|by apply Hv].
  destruct (zget_in_range (ddepth st1) i) as [k Hk]; [rewrite (di_depth _ _ Hinv1); apply Hin; left|].
  destruct (Hk' i k Hk) as [-> _]; [congruence|by intros []|congruence].
Qed.

Lemma clone_all_spec (l : list bitset) (pre : list bitset) : clone_all (pre ++ l) (seqZ (len pre) (len l)) = Ret l.
Proof using.
  revert pre. induction l as [|b l IH]; intros pre; [done|].
  assert (seqZ (len pre) (len (b :: l)) = len pre :: seqZ (len (pre ++ [b])) (len l)) as ->.
  { rewrite len_app, !len_cons, len_nil. pose proof (len_nonneg l). rewrite seqZ_cons by lia. do 2 f_equal; lia. }
  cbn [clone_all]. assert (zget (pre ++ b :: l) (len pre) = Some b) as Hb.
  { rewrite zget_app_r by lia. rewrite Z.sub_diag. done. }
  rewrite (proj2 (index_Ret _ _ _) Hb). cbn [mbind go_bind]. specialize (IH (pre ++ [b])). rewrite <-app_assoc in IH. cbn in IH.
  by rewrite IH.
Qed.

Lemma start_inv : dg_inv [] (mkDg f (make n 0) [] 0).
Proof using Hf Hfw.
  assert (∀ z k, zget (make n 0) z = Some k → k = 0) as Hz by (intros z k Hz%zget_elem; by apply elem_of_replicate in Hz as [-> _]).
  split; cbn; [done|rewrite len_make; [done|rewrite <-Hf; apply len_nonneg]|done|done|eauto|by intros z ?%elem_of_nil
    |constructor|constructor| |done|].
  - intros x t Ht. by exists x.
  - intros z y _ ?%Hz. done.
Qed.

Lemma digraph_spec : ∃ F, digraph n f rel = Ret F ∧ len F = n ∧ Forall words_ok F ∧
  (∀ x t, in_set f x t → in_set F x t) ∧ (∀ x t, in_set F x t → in_closure f rel x t) ∧
  (acyclic rel → ∀ x t, in_set F x t ↔ in_closure f rel x t).
Proof using Hn Hf Hfw Hrel Hrange.
  unfold digraph. pose proof (clone_all_spec f []) as E. cbn in E. rewrite Hf in E. change (len (@nil bitset)) with 0 in E. rewrite E. clear E.
  cbn [mbind go_bind]. pose proof (len_nonneg f) as Hn0.
  destruct (visit_nodes_spec (S (Z.to_nat n)) (seqZ 0 n) _ start_inv) as (st & -> & Hst & _ & Hv).
  { intros i ?%elem_of_seqZ. lia. }
  { unfold unvisited, unvisited_in. cbn [ddepth]. etrans; [apply (total_of_bound _ 1)|unfold make; rewrite length_replicate; lia].
    apply list.Forall_forall. intros k _. destruct (k =? 0); lia. }
  cbn [mbind go_bind]. exists (dres st). split_and!; [done|apply Hst|apply Hst|apply Hst|apply Hst|].
  assert (∀ z, 0 ≤ z < n → zget (ddepth st) z = Some infinity) as Hall.
  { intros z Hz. destruct (zget_in_range (ddepth st) z) as [k Hk]; [rewrite (di_depth _ _ Hst); done|].
    destruct (di_status _ _ Hst z k Hk) as [->|[->|Hs]]; [|done|].
    - destruct (Hv z); [apply elem_of_seqZ; lia|done].
    - destruct (di_stack _ _ Hst z Hs) as (_ & _ & _ & a & p & b & Ep & _). by destruct a. }
  intros Hac x t. split; [apply Hst|]. intros (y & Hxy & Ht). apply (di_lower _ _ Hst) in Ht.
  induction Hxy as [y|x w y Hxw _ IH]; [done|]. destruct Hxw as (ys & Hys & Hw). pose proof (zget_Some_range _ _ _ Hys) as Hx.
  apply (di_done _ _ Hst x w Hac); [apply Hall; by rewrite <-Hrel|by exists ys|by apply IH].
Qed.
End digraph_facts.

(** [digraph] returns, without an index out of range and within one nested call
    per node, a set for every node: it holds the node's own set and nothing that is
    not in the set of a node it reaches.  When the relation has no cycle but self
    loops, every set is exactly the union over the nodes it reaches, the least
    solution of F(x) = f(x) ∪ ⋃ F(y). *)
Theorem digraph_closure n f rel :
  n < infinity → len f = n → Forall words_ok f → len rel = n → (∀ x y, edge rel x y → 0 ≤ y < n) →
  ∃ F, digraph n f rel = Ret F ∧ len F = n ∧ Forall words_ok F ∧
    (∀ x t, in_set f x t → in_set F x t) ∧ (∀ x t, in_set F x t → in_closure f rel x t) ∧
    (acyclic rel → ∀ x t, in_set F x t ↔ in_closure f rel x t).
Proof. apply digraph_spec. Qed.

(** A chain [0 → 1 → 2] with a self loop at 1. *)
Definition chain : list (list Z) := [[1]; [1; 2]; []].

Lemma chain_edge x y : edge chain x y ↔ (x = 0 ∧ y = 1) ∨ (x = 1 ∧ (y = 1 ∨ y = 2)).
Proof.
  split.
  - intros (ys & Hys & Hy). pose proof (zget_Some_range _ _ _ Hys) as Hx. change (len chain) with 3 in Hx.
    assert (x = 0 ∨ x = 1 ∨ x = 2) as [-> | [-> | ->]] by lia; injection Hys as <-;
      repeat (apply elem_of_cons in Hy as [-> | Hy]; [lia|]); by apply elem_of_nil in Hy.
  - intros [[-> ->]|[-> [-> | ->]]]; eexists; (split; [reflexivity|]); rewrite ?elem_of_cons; auto.
Qed.

Lemma chain_acyclic : acyclic chain.
Proof.
  assert (∀ x y, reach chain x y → x ≤ y) as Hle.
  { induction 1 as [x|x y z Hxy _ IH]; [lia|]. apply chain_edge in Hxy. lia. }
  intros x y Hxy%Hle Hyx%Hle. lia.
Qed.

Lemma digraph_closure_witness :
  digraph 3 [[1]; [2]; [4]] chain = Ret [[7]; [6]; [4]] ∧ in_closure [[1]; [2]; [4]] chain 0 2.
Proof.
  assert (digraph 3 [[1]; [2]; [4]] chain = Ret [[7]; [6]; [4]]) as E by (vm_compute; reflexivity).
  split; [exact E|].
  destruct (digraph_closure 3 [[1]; [2]; [4]] chain) as (F & HF & _ & _ & _ & _ & Hac); [done|done| |done| |].
  - repeat constructor; lia.
  - intros x y ?%chain_edge. lia.
  - rewrite E in HF. injection HF as <-. apply (Hac chain_acyclic 0 2). exists [7]. split; [done|]. exists 7. by split.
Defined.

(** On a relation with cycles a node can lose members.  The counter that
    numbers the nodes is the nesting depth of the calls and not the height of the
    stack, so a node can have the number of an earlier node that still waits on the
    stack; an edge to that node then does not lower its number, and it is closed as
    a component of its own.  Here node 2 reaches node 0 through 3 and 1, and its set
    lacks the member of node 0. *)
Theorem digraph_loses_members :
  let f := [[1]; [2]; [4]; [8]] in
  let rel := [[1; 2]; [3; 0]; [3]; [1]] in
  digraph 4 f rel = Ret [[15]; [15]; [14]; [15]] ∧ in_closure f rel 2 0 ∧ ¬ in_set [[15]; [15]; [14]; [15]] 2 0.
Proof.
  split_and!; [vm_compute; reflexivity| |].
  - exists 0. split; [|exists [1]; split; [done|]; exists 1; by split].
    apply rtc_l with 3; [exists [3]; split; [done|left]|]. apply rtc_l with 1; [exists [1]; split; [done|left]|].
    apply rtc_once. exists [3; 0]. split; [done|]. right; left.
  - intros (b & [= <-] & w & [= <-] & Hw). done.
Qed.
