(* ===== verification/Lr0.v ===== *)
(** * The LR(0) automaton

    grammargen/lr.go and lr_lalr.go: packed items, item sets, their transitions,
    and [buildLR0] without context tags (grammars of fewer than 2000 productions,
    or with the tags disabled).  Arrays that the context keeps between calls and
    that every call starts by invalidating (the [dot0Index], the generations of
    seen symbols) are fresh here.  Budgets and cancellation are parameters; the
    record of merges kept for diagnostics is left out. *)

From Stdlib Require Import ZArith Lia ZifyBool.
From stdpp Require Import base tactics list numbers option gmap.
From S2P Require Import Prelude SliceSort LrGrammar.
Local Open Scope Z_scope.

(** ** Items *)

Record coreItem := mkCoreItem { ciProdIdx : Z; ciDot : Z }.

(** 24 bits of production, 8 bits of dot. *)
Definition packLR0CoreEntry (prodIdx dot : Z) : go Z :=
  if (prodIdx <? 0) || (0x00FFFFFF <? prodIdx) then Panic else
  if (dot <? 0) || (0xFF <? dot) then Panic else
  Ret (Z.lor (u32 prodIdx) (u32 (Z.shiftl (u32 dot) 24))).

Definition entry_prodIdx (ce : Z) : Z := Z.land ce 0x00FFFFFF.
Definition entry_dot (ce : Z) : Z := u8 (Z.shiftr ce 24).

Record lr0ItemSet := mkLr0ItemSet { cores : list Z; coreHash : Z; annotationArgTag : Z }.

Definition mixCoreItem (p d : Z) : Z :=
  let x := u64 (u64 p * 0x9e3779b97f4a7c15 + u64 d * 0x517cc1b727220a95) in
  let x := Z.lxor x (Z.shiftr x 33) in
  let x := u64 (x * 0xff51afd7ed558ccd) in
  Z.lxor x (Z.shiftr x 33).

(** By production, then by dot. *)
Definition entry_less : Z → Z → bool := less2 entry_prodIdx entry_dot.

Definition sameSortedLR0CoreEntries (a b : list Z) : bool := bool_decide (a = b).
Definition sameAnnotationArgTagLR0 (a b : lr0ItemSet) : bool := annotationArgTag a =? annotationArgTag b.

(** The binary search for an item, and whether it was found. *)
Definition coreLookup (set : lr0ItemSet) (prodIdx dot : Z) : go (Z * bool) :=
  let prodIdx32 := u32 prodIdx in
  let dot8 := u8 dot in
  lo ← search_loop (λ mid, ce ← index (cores set) mid;
         Ret (negb ((entry_prodIdx ce <? prodIdx32) || ((entry_prodIdx ce =? prodIdx32) && (entry_dot ce <? dot8)))))
       (length (cores set)) 0 (len (cores set));
  if lo <? len (cores set) then
    ce ← index (cores set) lo;
    Ret (if (entry_prodIdx ce =? prodIdx32) && (entry_dot ce =? dot8) then (lo, true) else (0, false))
  else Ret (0, false).

(** ** Transitions *)

Record lrTransition := mkLrTransition { ltSym : Z; ltTarget : Z }.
Notation lrTransitionRow := (list lrTransition).

Definition ensureTransitionState (ts : list lrTransitionRow) (state : Z) : list lrTransitionRow :=
  if state <? len ts then ts else ts ++ make (state - len ts + 1) [].

Definition transitionRow (ts : list lrTransitionRow) (state : Z) : lrTransitionRow := default [] (zget ts state).

(** The row with the target of [sym] replaced, or added at the end. *)
Fixpoint set_target (row : lrTransitionRow) (sym target : Z) : lrTransitionRow :=
  match row with
  | [] => [mkLrTransition (u32 sym) (u32 target)]
  | t :: row => if ltSym t =? sym then mkLrTransition (ltSym t) (u32 target) :: row else t :: set_target row sym target
  end.

Definition lr_addTransition (ts : list lrTransitionRow) (state sym target : Z) : go (list lrTransitionRow) :=
  let ts := ensureTransitionState ts state in
  row ← index ts state;
  store ts state (set_target row sym target).

Section lr0.
Context `{SliceSort}.

Definition sortStateTransitions (ts : list lrTransitionRow) (state : Z) : go (list lrTransitionRow) :=
  match zget ts state with
  | Some row => if len row <? 2 then Ret ts else store ts state (sort_slice (λ a b, ltSym a <? ltSym b) row)
  | None => Ret ts
  end.

Definition transitionTarget (ts : list lrTransitionRow) (state sym : Z) : go (Z * bool) :=
  let row := transitionRow ts state in
  if len row =? 0 then Ret (0, false) else
  let want := u32 sym in
  idx ← search_loop (λ i, t ← index row i; Ret (want <=? ltSym t)) (length row) 0 (len row);
  if idx <? len row then
    t ← index row idx;
    Ret (if ltSym t =? want then (ltTarget t, true) else (0, false))
  else Ret (0, false).

(** ** Closures *)

Context (ng : NormalizedGrammar).

(** The productions of a symbol, in order. *)
Fixpoint prods_from (i : Z) (prods : list Production) (sym : Z) : list Z :=
  match prods with
  | [] => []
  | p :: prods => if LHS p =? sym then i :: prods_from (i + 1) prods sym else prods_from (i + 1) prods sym
  end.
Definition prodsByLHS (sym : Z) : list Z := prods_from 0 (Productions ng) sym.

(** The productions of one symbol of the queue; the queue is a stack, its top first. *)
Fixpoint seed_prods (idxs : list Z) (seenProd : list bool) (prods queue : list Z) : go (list bool * list Z * list Z) :=
  match idxs with
  | [] => Ret (seenProd, prods, queue)
  | i :: idxs =>
    s ← index seenProd i;
    seenProd ← (if (s : bool) then Ret seenProd else store seenProd i true);
    let prods := if (s : bool) then prods else prods ++ [i] in
    p ← index (Productions ng) i;
    let queue := match RHS p with s :: _ => if TokenCount ng <=? s then s :: queue else queue | [] => queue end in
    seed_prods idxs seenProd prods queue
  end.

Fixpoint seed_loop (fuel : nat) (seenSym seenProd : list bool) (queue prods : list Z) : go (list Z) :=
  match queue with
  | [] => Ret prods
  | cur :: queue =>
    match fuel with
    | O => NoFuel
    | S fuel =>
      if (cur <? TokenCount ng) || (cur <? 0) || (len (Symbols ng) <=? cur)
      then seed_loop fuel seenSym seenProd queue prods else
      s ← index seenSym cur;
      if (s : bool) then seed_loop fuel seenSym seenProd queue prods else
      seenSym ← store seenSym cur true;
      '(seenProd, prods, queue) ← seed_prods (prodsByLHS cur) seenProd prods queue;
      seed_loop fuel seenSym seenProd queue prods
    end
  end.

(** Every production is pushed at most once, after the symbol itself. *)
Definition seed_fuel : nat := S (length (Productions ng)).

Definition closure_seeds (sym : Z) : go (list Z) :=
  prods ← seed_loop seed_fuel (make (len (Symbols ng)) false) (make (len (Productions ng)) false) [sym] [];
  Ret (if 1 <? len prods then sort_ints prods else prods).

Fixpoint seeds_from (syms : list Z) : go (list (list Z)) :=
  match syms with
  | [] => Ret []
  | sym :: syms =>
    prods ← (if sym <? TokenCount ng then Ret [] else closure_seeds sym);
    rest ← seeds_from syms;
    Ret (prods :: rest)
  end.

Definition ensureLR0Dot0ClosureSeeds : go (list (list Z)) := seeds_from (seqZ 0 (len (Symbols ng))).

Section closure.
Context (seeds : list (list Z)).

Fixpoint add_kernel (kernel : list coreItem) (cs dot0Index : list Z) : go (list Z * list Z) :=
  match kernel with
  | [] => Ret (cs, dot0Index)
  | ki :: kernel =>
    ce ← packLR0CoreEntry (ciProdIdx ki) (ciDot ki);
    dot0Index ← (if ciDot ki =? 0 then store dot0Index (ciProdIdx ki) (len cs) else Ret dot0Index);
    add_kernel kernel (cs ++ [ce]) dot0Index
  end.

Fixpoint add_seeds (prods : list Z) (cs dot0Index : list Z) : go (list Z * list Z) :=
  match prods with
  | [] => Ret (cs, dot0Index)
  | prodIdx :: prods =>
    i ← index dot0Index prodIdx;
    if 0 <=? i then add_seeds prods cs dot0Index else
    dot0Index ← store dot0Index prodIdx (len cs);
    ce ← packLR0CoreEntry prodIdx 0;
    add_seeds prods (cs ++ [ce]) dot0Index
  end.

Fixpoint expand_kernel (kernel : list coreItem) (cs dot0Index : list Z) : go (list Z) :=
  match kernel with
  | [] => Ret cs
  | ki :: kernel =>
    p ← index (Productions ng) (ciProdIdx ki);
    if len (RHS p) <=? ciDot ki then expand_kernel kernel cs dot0Index else
    nextSym ← index (RHS p) (ciDot ki);
    if nextSym <? TokenCount ng then expand_kernel kernel cs dot0Index else
    prods ← index seeds nextSym;
    '(cs, dot0Index) ← add_seeds prods cs dot0Index;
    expand_kernel kernel cs dot0Index
  end.

Definition cores_hash (cs : list Z) : Z :=
  foldl (λ h ce, u64 (h + mixCoreItem (entry_prodIdx ce) (entry_dot ce))) 0 cs.

Definition lr0Closure (kernel : list coreItem) : go lr0ItemSet :=
  '(cs, dot0Index) ← add_kernel kernel [] (make (len (Productions ng)) (-1));
  cs ← expand_kernel kernel cs dot0Index;
  let cs := if 1 <? len cs then sort_slice entry_less cs else cs in
  Ret (mkLr0ItemSet cs (cores_hash cs) 0).

(** ** One state *)

(** The symbol after the dot, if any. *)
Definition next_symbol (ce : Z) : go (option Z) :=
  p ← index (Productions ng) (entry_prodIdx ce);
  if entry_dot ce <? len (RHS p) then sym ← index (RHS p) (entry_dot ce); Ret (Some sym) else Ret None.

(** The symbols after a dot in order of appearance, the bucket of each, and how
    many items each bucket gets. *)
Fixpoint collect_symbols (ces : list Z) (bucketIdx syms counts : list Z) : go (list Z * list Z * list Z) :=
  match ces with
  | [] => Ret (bucketIdx, syms, counts)
  | ce :: ces =>
    next ← next_symbol ce;
    match next with
    | None => collect_symbols ces bucketIdx syms counts
    | Some sym =>
      b ← index bucketIdx sym;
      if b <? 0 then
        bucketIdx ← store bucketIdx sym (len syms);
        collect_symbols ces bucketIdx (syms ++ [sym]) (counts ++ [1])
      else
        c ← index counts b;
        counts ← store counts b (c + 1);
        collect_symbols ces bucketIdx syms counts
    end
  end.

Fixpoint bucket_offsets (counts : list Z) (total : Z) : list Z * Z :=
  match counts with
  | [] => ([], total)
  | c :: counts => let '(offsets, n) := bucket_offsets counts (total + c) in (total :: offsets, n)
  end.

(** Writes every advanced item to the next free slot of its bucket. *)
Fixpoint fill_kernels (ces : list Z) (bucketIdx next : list Z) (scratch : list coreItem) : go (list Z * list coreItem) :=
  match ces with
  | [] => Ret (next, scratch)
  | ce :: ces =>
    sym ← next_symbol ce;
    match sym with
    | None => fill_kernels ces bucketIdx next scratch
    | Some sym =>
      b ← index bucketIdx sym;
      writePos ← index next b;
      scratch ← store scratch writePos (mkCoreItem (entry_prodIdx ce) (entry_dot ce + 1));
      next ← store next b (writePos + 1);
      fill_kernels ces bucketIdx next scratch
    end
  end.

(** What [buildLR0] keeps in the context. *)
Record lr0ctx := mkLr0Ctx {
  lalrLR0ItemSets : list lr0ItemSet;
  transitions : list lrTransitionRow;
  coreMap : gmap Z (list Z);
  lalrLR0CoreEntries : Z;
  lalrLR0StateBudgetExceeded : bool;
  lalrLR0CoreBudgetExceeded : bool }.

Definition addToHashMap (m : gmap Z (list Z)) (hash idx : Z) : gmap Z (list Z) := <[hash := idx :: default [] (m !! hash)]> m.

Fixpoint find_lr0_state (sets : list lr0ItemSet) (chain : list Z) (closedSet : lr0ItemSet) : go Z :=
  match chain with
  | [] => Ret (-1)
  | idx :: chain =>
    set ← index sets idx;
    if sameAnnotationArgTagLR0 set closedSet && sameSortedLR0CoreEntries (cores set) (cores closedSet)
    then Ret idx else find_lr0_state sets chain closedSet
  end.

Context (stateBudget coreBudget : Z) (cancelled : Z → bool).

(** The item sets with one more, and whether a budget is exceeded. *)
Definition append_state (ctx : lr0ctx) (closedSet : lr0ItemSet) : lr0ctx * bool :=
  let sets := lalrLR0ItemSets ctx ++ [closedSet] in
  let n := lalrLR0CoreEntries ctx + len (cores closedSet) in
  let m := addToHashMap (coreMap ctx) (coreHash closedSet) (len (lalrLR0ItemSets ctx)) in
  let overStates := (0 <? stateBudget) && (stateBudget <? len sets) in
  let overCores := (0 <? coreBudget) && (coreBudget <? n) in
  (mkLr0Ctx sets (transitions ctx) m n (lalrLR0StateBudgetExceeded ctx || overStates)
     (lalrLR0CoreBudgetExceeded ctx || (negb overStates && overCores)), overStates || overCores).

Definition with_transitions (ctx : lr0ctx) (ts : list lrTransitionRow) : lr0ctx :=
  mkLr0Ctx (lalrLR0ItemSets ctx) ts (coreMap ctx) (lalrLR0CoreEntries ctx)
    (lalrLR0StateBudgetExceeded ctx) (lalrLR0CoreBudgetExceeded ctx).

(** The successor on one symbol; the flag says that a budget stopped the build. *)
Definition goto_symbol (stateIdx sym : Z) (kernel : list coreItem) (ctx : lr0ctx) : go (lr0ctx * bool) :=
  if len kernel =? 0 then Ret (ctx, false) else
  closedSet ← lr0Closure kernel;
  found ← find_lr0_state (lalrLR0ItemSets ctx) (default [] (coreMap ctx !! coreHash closedSet)) closedSet;
  if found <? 0 then
    let targetIdx := len (lalrLR0ItemSets ctx) in
    let '(ctx, stop) := append_state ctx closedSet in
    if (stop : bool) then Ret (ctx, true) else
    ts ← lr_addTransition (transitions ctx) stateIdx sym targetIdx;
    Ret (with_transitions ctx ts, false)
  else
    ts ← lr_addTransition (transitions ctx) stateIdx sym found;
    Ret (with_transitions ctx ts, false).

Fixpoint goto_loop (stateIdx idx : Z) (syms offsets ends : list Z) (scratch : list coreItem) (ctx : lr0ctx)
  : go (lr0ctx * bool) :=
  match syms with
  | [] => Ret (ctx, false)
  | sym :: syms =>
    lo ← index offsets idx;
    hi ← index ends idx;
    kernel ← gslice scratch lo hi;
    '(ctx, stop) ← goto_symbol stateIdx sym kernel ctx;
    if (stop : bool) then Ret (ctx, true) else goto_loop stateIdx (idx + 1) syms offsets ends scratch ctx
  end.

Definition expand_lr0_state (stateIdx : Z) (ctx : lr0ctx) : go (lr0ctx * bool) :=
  itemSet ← index (lalrLR0ItemSets ctx) stateIdx;
  '(bucketIdx, syms, counts) ← collect_symbols (cores itemSet) (make (len (Symbols ng)) (-1)) [] [];
  let '(offsets, totalKernelItems) := bucket_offsets counts 0 in
  '(ends, scratch) ← fill_kernels (cores itemSet) bucketIdx offsets (make totalKernelItems (mkCoreItem 0 0));
  '(ctx, stop) ← goto_loop stateIdx 0 syms offsets ends scratch ctx;
  if (stop : bool) then Ret (ctx, true) else
  ts ← sortStateTransitions (transitions ctx) stateIdx;
  Ret (with_transitions ctx ts, false).

(** The states in order; cancellation is looked at every 64 states. *)
Fixpoint lr0_loop (fuel : nat) (stateIdx : Z) (ctx : lr0ctx) : go lr0ctx :=
  if stateIdx <? len (lalrLR0ItemSets ctx) then
    match fuel with
    | O => NoFuel
    | S fuel =>
      if (Z.land stateIdx 63 =? 0) && cancelled stateIdx then Ret ctx else
      '(ctx, stop) ← expand_lr0_state stateIdx ctx;
      if (stop : bool) then Ret ctx else lr0_loop fuel (stateIdx + 1) ctx
    end
  else Ret ctx.
End closure.

Definition buildLR0 (stateBudget coreBudget : Z) (cancelled : Z → bool) (fuel : nat) : go lr0ctx :=
  seeds ← ensureLR0Dot0ClosureSeeds;
  initialSet ← lr0Closure seeds [mkCoreItem (AugmentProdID ng) 0];
  let '(ctx, stop) := append_state stateBudget coreBudget (mkLr0Ctx [] [] ∅ 0 false false) initialSet in
  if (stop : bool) then Ret ctx else
  lr0_loop seeds stateBudget coreBudget cancelled fuel 0 ctx.
End lr0.
