(* ===== verification/Lr0Closure.v ===== *)
(** * Items and closures

    Packed items decode to the production and dot they were packed from.
    [ensureLR0Dot0ClosureSeeds] finds the productions that a nonterminal can
    expand to at the left edge, and [lr0Closure] returns, in order, the closure of
    its kernel. *)

From Stdlib Require Import ZArith Lia ZifyBool.
From stdpp Require Import base tactics list numbers option relations gmap sorting.
From S2P Require Import Prelude SliceSort LrGrammar Lr0.
Local Open Scope Z_scope.

(** What [buildLR0] needs of a grammar: the packed items must not overflow. *)
Record lr0_grammar (ng : NormalizedGrammar) : Prop := {
  lg_wf : grammar_wf ng;
  lg_prods : len (Productions ng) ≤ 2 ^ 24;
  lg_rhs p : p ∈ Productions ng → len (RHS p) ≤ 255;
  lg_syms : len (Symbols ng) ≤ 2 ^ 32;
  lg_augment : 0 ≤ AugmentProdID ng < len (Productions ng) }.

Definition lr0_grammarb (ng : NormalizedGrammar) : bool :=
  grammar_wfb ng && (len (Productions ng) <=? 2 ^ 24) && forallb (λ p, len (RHS p) <=? 255) (Productions ng) &&
  (len (Symbols ng) <=? 2 ^ 32) && (0 <=? AugmentProdID ng) && (AugmentProdID ng <? len (Productions ng)).

Lemma lr0_grammarb_ok ng : lr0_grammarb ng = true → lr0_grammar ng.
Proof.
  unfold lr0_grammarb. rewrite !andb_true_iff, forallb_forall. setoid_rewrite <-list_elem_of_In.
  intros [[[[[Hwf ?] Hr] ?] ?] ?]. split; [by apply grammar_wfb_ok|lia| |lia|lia]. intros p Hp. specialize (Hr p Hp). lia.
Qed.

Notation item := (Z * Z)%type.

Definition packed (i : item) : Z := i.1 + i.2 * 2 ^ 24.
Definition unpacked (ce : Z) : item := (entry_prodIdx ce, entry_dot ce).

Lemma land_low x y k : 0 ≤ k → 0 ≤ x < 2 ^ k → Z.lor x (Z.shiftl y k) = x + y * 2 ^ k.
Proof.
  intros Hk Hx. rewrite Z.shiftl_mul_pow2 by lia. pose proof (Z.add_lor_land x (y * 2 ^ k)).
  assert (Z.land x (y * 2 ^ k) = 0); [|lia].
  apply Z.bits_inj'. intros i Hi. rewrite Z.land_spec, Z.bits_0. destruct (decide (i < k)).
  - rewrite (Z.mul_pow2_bits_low y k i) by lia. apply andb_false_r.
  - destruct (decide (x = 0)) as [->|]; [by rewrite Z.bits_0|]. rewrite (Z.bits_above_log2 x i); [done|lia|].
    apply Z.log2_lt_pow2; [lia|]. apply Z.lt_le_trans with (2 ^ k); [lia|]. apply Z.pow_le_mono_r; lia.
Qed.

Lemma pack_ok p d : 0 ≤ p < 2 ^ 24 → 0 ≤ d ≤ 255 → packLR0CoreEntry p d = Ret (packed (p, d)).
Proof.
  intros Hp Hd. unfold packLR0CoreEntry. replace ((p <? 0) || (0x00FFFFFF <? p)) with false by lia.
  replace ((d <? 0) || (0xFF <? d)) with false by lia. f_equal. unfold packed. cbn [fst snd].
  rewrite (u32_id p), (u32_id d) by lia. rewrite u32_id; [apply land_low; lia|]. rewrite Z.shiftl_mul_pow2 by lia. lia.
Qed.

Lemma unpack_pack p d : 0 ≤ p < 2 ^ 24 → 0 ≤ d ≤ 255 → unpacked (packed (p, d)) = (p, d).
Proof.
  intros Hp Hd. unfold unpacked, packed, entry_prodIdx, entry_dot. cbn [fst snd]. f_equal.
  - change 0x00FFFFFF with (Z.ones 24). rewrite Z.land_ones by lia. rewrite Z.mod_add by lia. apply Z.mod_small. lia.
  - rewrite Z.shiftr_div_pow2 by lia. rewrite Z.div_add by lia. rewrite Z.div_small by lia. unfold u8. apply Z.mod_small. lia.
Qed.

Section items.
Context (ng : NormalizedGrammar) (Hng : lr0_grammar ng).

(** The symbol after the dot. *)
Definition item_next (i : item) : option Z := p ← zget (Productions ng) i.1; zget (RHS p) i.2.

Definition item_ok (i : item) : Prop := ∃ p, zget (Productions ng) i.1 = Some p ∧ 0 ≤ i.2 ≤ len (RHS p).

Lemma item_ok_range i : item_ok i → 0 ≤ i.1 < 2 ^ 24 ∧ 0 ≤ i.2 ≤ 255.
Proof using Hng.
  intros (p & Hp & Hd). pose proof (zget_Some_range _ _ _ Hp). pose proof (lg_prods _ Hng).
  pose proof (lg_rhs _ Hng p (zget_elem _ _ _ Hp)). lia.
Qed.

Lemma item_ok_zero q p : zget (Productions ng) q = Some p → item_ok (q, 0).
Proof using. intros Hp. exists p. split; [done|]. cbn. pose proof (len_nonneg (RHS p)). lia. Qed.

Lemma item_next_ok p d X : item_next (p, d) = Some X → item_ok (p, d) ∧ item_ok (p, d + 1) ∧ 0 ≤ X < len (Symbols ng).
Proof using Hng.
  unfold item_next, item_ok. cbn. destruct (zget (Productions ng) p) as [pr|] eqn:Hp; cbn; [|done]. intros HX.
  pose proof (zget_Some_range _ _ _ HX). split_and!; try (exists pr; split; [done|lia]).
  all: eapply (gw_rhs _ (lg_wf _ Hng) pr X); (eapply zget_elem; done).
Qed.

(** The items of a list of entries. *)
Definition entries_ok (cs : list Z) : Prop := Forall (λ ce, item_ok (unpacked ce) ∧ packed (unpacked ce) = ce) cs.

Definition has (cs : list Z) (i : item) : Prop := item_ok i ∧ packed i ∈ cs.

Lemma pack_item i : item_ok i → packLR0CoreEntry i.1 i.2 = Ret (packed i) ∧ unpacked (packed i) = i.
Proof using Hng.
  intros Hi. destruct (item_ok_range i Hi). destruct i as [p d]. split; [by apply pack_ok|by apply unpack_pack].
Qed.

Lemma entries_ok_snoc cs i : entries_ok cs → item_ok i → entries_ok (cs ++ [packed i]).
Proof using Hng.
  intros Hcs Hi. apply Forall_app. split; [done|]. apply Forall_singleton. by rewrite (proj2 (pack_item i Hi)).
Qed.

Lemma has_snoc cs i j : item_ok i → has (cs ++ [packed i]) j ↔ has cs j ∨ j = i.
Proof using Hng.
  intros Hi. unfold has. rewrite elem_of_app, list_elem_of_singleton. split.
  - intros [Hj [?|E]]; [by left|right]. by rewrite <-(proj2 (pack_item i Hi)), <-(proj2 (pack_item j Hj)), E.
  - intros [[? ?]| ->]; auto.
Qed.

Lemma has_unpacked cs ce : entries_ok cs → ce ∈ cs → has cs (unpacked ce).
Proof using. intros Hcs Hce. unfold entries_ok in Hcs. rewrite list.Forall_forall in Hcs. destruct (Hcs ce Hce) as [? E]. split; [done|by rewrite E]. Qed.

(** ** Left edges *)

(** A production of [B] starts with the nonterminal [C]. *)
Definition left_step (B C : Z) : Prop :=
  ∃ p rest, p ∈ Productions ng ∧ LHS p = B ∧ RHS p = C :: rest ∧ TokenCount ng ≤ C.

Notation left_reach := (rtc left_step).

Lemma prods_from_elem i prods sym q :
  q ∈ prods_from i prods sym ↔ ∃ p, zget prods (q - i) = Some p ∧ LHS p = sym.
Proof using.
  revert i. induction prods as [|p prods IH]; intros i; cbn [prods_from].
  { split; [by intros ?%elem_of_nil|]. intros (p & Hp & _). by rewrite zget_nil in Hp. }
  assert (q ∈ prods_from (i + 1) prods sym ↔ ∃ p', zget (p :: prods) (q - i) = Some p' ∧ LHS p' = sym ∧ q ≠ i) as E.
  { rewrite IH. split; intros (p' & Hp' & Hl).
    - exists p'. pose proof (zget_Some_range _ _ _ Hp'). rewrite zget_cons_ne by lia.
      replace (q - i - 1) with (q - (i + 1)) by lia. split_and!; [done|done|lia].
    - exists p'. destruct Hl as [Hl Hne]. rewrite zget_cons_ne in Hp' by lia.
      replace (q - (i + 1)) with (q - i - 1) by lia. done. }
  destruct (Z.eqb_spec (LHS p) sym) as [<-|Hne].
  - rewrite elem_of_cons, E. split.
    + intros [->|(p' & ? & ? & _)]; [exists p; by rewrite Z.sub_diag|by exists p'].
    + intros (p' & Hp' & Hl). destruct (decide (q = i)); [by left|right; by exists p'].
  - rewrite E. split; intros (p' & Hp' & Hl); [exists p'; tauto|]. exists p'. split_and!; [done..|].
    intros ->. rewrite Z.sub_diag in Hp'. injection Hp' as <-. done.
Qed.

Lemma prodsByLHS_elem sym q : q ∈ prodsByLHS ng sym ↔ ∃ p, zget (Productions ng) q = Some p ∧ LHS p = sym.
Proof using. unfold prodsByLHS. by rewrite prods_from_elem, Z.sub_0_r. Qed.

(** How many productions belong to symbols not seen yet. *)
Definition pending (seenSym : list bool) (prods : list Production) : nat :=
  length (filter (λ p, zget seenSym (LHS p) ≠ Some true) prods).

Lemma pending_mark seenSym prods i cur : zget seenSym cur = Some false →
  (pending (<[Z.to_nat cur := true]> seenSym) prods + length (prods_from i prods cur) = pending seenSym prods)%nat.
Proof using.
  intros Hc. pose proof (zget_Some_range _ _ _ Hc) as Hr. unfold pending. revert i.
  induction prods as [|p prods IH]; intros i; [done|]. cbn [prods_from]. rewrite !filter_cons. specialize (IH (i + 1)).
  destruct (Z.eqb_spec (LHS p) cur) as [->|Hne].
  - rewrite decide_False by (rewrite zget_insert_eq by lia; by intros ?).
    rewrite decide_True by (rewrite Hc; done). cbn. lia.
  - rewrite zget_insert_ne by lia. case_decide; cbn; lia.
Qed.

Record seed_inv (sym : Z) (seenSym seenProd : list bool) (queue prods : list Z) : Prop := {
  sd_syms : len seenSym = len (Symbols ng);
  sd_prods : len seenProd = len (Productions ng);
  sd_reach C : zget seenSym C = Some true ∨ C ∈ queue → left_reach sym C ∧ TokenCount ng ≤ C < len (Symbols ng);
  sd_start : zget seenSym sym = Some true ∨ sym ∈ queue;
  sd_closed C D : zget seenSym C = Some true → left_step C D → zget seenSym D = Some true ∨ D ∈ queue;
  sd_seen q : zget seenProd q = Some true ↔ q ∈ prods;
  sd_found q : q ∈ prods ↔ ∃ p, zget (Productions ng) q = Some p ∧ zget seenSym (LHS p) = Some true;
  sd_nodup : NoDup prods }.

(** The production starts with the nonterminal [C]. *)
Definition starts_with (q C : Z) : Prop :=
  ∃ p rest, zget (Productions ng) q = Some p ∧ RHS p = C :: rest ∧ TokenCount ng ≤ C.

Lemma seed_prods_spec idxs seenProd prods queue :
  len seenProd = len (Productions ng) → (∀ q, q ∈ idxs → 0 ≤ q < len (Productions ng)) →
  (∀ q, zget seenProd q = Some true ↔ q ∈ prods) → NoDup prods →
  ∃ seenProd' prods' queue', seed_prods ng idxs seenProd prods queue = Ret (seenProd', prods', queue') ∧
    len seenProd' = len (Productions ng) ∧ (∀ q, zget seenProd' q = Some true ↔ q ∈ prods') ∧ NoDup prods' ∧
    (∀ q, q ∈ prods' ↔ q ∈ prods ∨ q ∈ idxs) ∧
    (∀ C, C ∈ queue' ↔ C ∈ queue ∨ ∃ q, q ∈ idxs ∧ starts_with q C) ∧
    (length queue' ≤ length queue + length idxs)%nat.
Proof using.
  revert seenProd prods queue. induction idxs as [|i idxs IH]; intros seenProd prods queue Hl Hr Hs Hnd; cbn [seed_prods].
  { exists seenProd, prods, queue. split_and!; [done|done|done|done| | |cbn; lia].
    - intros q. rewrite elem_of_nil. tauto.
    - intros C. split; [by left|]. intros [?|(q & ?%elem_of_nil & _)]; done. }
  pose proof (Hr i ltac:(left)) as Hi.
  destruct (index_in_range seenProd i) as (sn & -> & Hsn); [lia|]. cbn [mbind go_bind].
  destruct (index_in_range (Productions ng) i Hi) as (p & Hp & Hpi).
  set (queue1 := match RHS p with s :: _ => if TokenCount ng <=? s then s :: queue else queue | [] => queue end).
  assert (∀ C, C ∈ queue1 ↔ C ∈ queue ∨ starts_with i C) as Hq1.
  { intros C. unfold queue1, starts_with. rewrite Hpi. destruct (RHS p) as [|X rest] eqn:E.
    - split; [by left|]. intros [?|(p' & r & [= <-] & E' & _)]; [done|congruence].
    - destruct (Z.leb_spec (TokenCount ng) X).
      + rewrite elem_of_cons. split; [intros [->|?]; [right; by exists p, rest|by left]|].
        intros [?|(p' & r & [= <-] & E' & _)]; [by right|left; congruence].
      + split; [by left|]. intros [?|(p' & r & [= <-] & E' & ?)]; [done|]. rewrite E in E'. injection E' as -> _. lia. }
  assert (length queue1 ≤ S (length queue))%nat as Hql by (unfold queue1; destruct (RHS p); [lia|]; destruct (_ <=? _); cbn; lia).
  assert (∃ seenProd1 prods1, (if sn then Ret seenProd else store seenProd i true) = Ret seenProd1 ∧
    prods1 = (if sn then prods else prods ++ [i]) ∧ len seenProd1 = len (Productions ng) ∧
    (∀ q, zget seenProd1 q = Some true ↔ q ∈ prods1) ∧ NoDup prods1 ∧ ∀ q, q ∈ prods1 ↔ q ∈ prods ∨ q = i)
    as (seenProd1 & prods1 & -> & <- & Hl1 & Hs1 & Hnd1 & Hin1).
  { destruct sn.
    - exists seenProd, prods. split_and!; [done..|]. intros q. split; [by left|]. intros [?| ->]; [done|by apply Hs].
    - exists (<[Z.to_nat i := true]> seenProd), (prods ++ [i]). assert (i ∉ prods) as Hni by (rewrite <-Hs, Hsn; done).
      assert (∀ q, q ∈ prods ++ [i] ↔ q ∈ prods ∨ q = i) as E by (intros q; by rewrite elem_of_app, list_elem_of_singleton).
      split_and!; [apply store_ok; lia|done|by rewrite len_insert| |apply NoDup_app; split_and!; [done|by intros q ? ->%list_elem_of_singleton|apply NoDup_singleton]|done].
      intros q. rewrite E. destruct (decide (q = i)) as [->|Hne]; [rewrite zget_insert_eq by lia; tauto|].
      rewrite zget_insert_ne by lia. rewrite Hs. tauto. }
  cbn [mbind go_bind]. rewrite Hp. cbn [mbind go_bind]. fold queue1.
  destruct (IH seenProd1 prods1 queue1 Hl1 (λ q Hq, Hr q ltac:(by right)) Hs1 Hnd1) as
    (sp' & pr' & q' & Hrun & Hl' & Hs' & Hnd' & Hin' & Hq' & Hlen').
  exists sp', pr', q'. split_and!; [done..| | |cbn; lia].
  - intros q. rewrite Hin', Hin1, elem_of_cons. tauto.
  - intros C. rewrite Hq', Hq1. split.
    + intros [[?|?]|(q & ? & ?)]; [by left|right; exists i; split; [left|done]|right; exists q; split; [by right|done]].
    + intros [?|(q & [->|?]%elem_of_cons & ?)]; [tauto|tauto|right; by exists q].
Qed.

Lemma left_step_starts C D : left_step C D ↔ ∃ q, q ∈ prodsByLHS ng C ∧ starts_with q D.
Proof using.
  split.
  - intros (p & rest & (q & _ & Hq)%elem_zget & Hl & HR & HD). exists q. split; [apply prodsByLHS_elem; by exists p|by exists p, rest].
  - intros (q & (p & Hp & Hl)%prodsByLHS_elem & p' & rest & ? & HR & HD). simplify_eq. exists p, rest. split_and!; [by eapply zget_elem|done..].
Qed.

Lemma left_step_range C D : left_step C D → TokenCount ng ≤ D < len (Symbols ng).
Proof using Hng.
  intros (p & rest & Hp & _ & HR & HD). pose proof (gw_rhs _ (lg_wf _ Hng) p D Hp) as Hr. rewrite HR in Hr.
  specialize (Hr ltac:(left)). lia.
Qed.

(** Taking one nonterminal that was not seen from the queue. *)
Lemma seed_mark sym cur seenSym seenProd queue prods :
  seed_inv sym seenSym seenProd (cur :: queue) prods → zget seenSym cur = Some false →
  ∃ seenProd' prods' queue', seed_prods ng (prodsByLHS ng cur) seenProd prods queue = Ret (seenProd', prods', queue') ∧
    seed_inv sym (<[Z.to_nat cur := true]> seenSym) seenProd' queue' prods' ∧
    (length queue' + pending (<[Z.to_nat cur := true]> seenSym) (Productions ng) ≤
     length queue + pending seenSym (Productions ng))%nat.
Proof using Hng.
  intros Hinv Hcur. pose proof (zget_Some_range _ _ _ Hcur) as Hcr.
  destruct (sd_reach _ _ _ _ _ Hinv cur) as [Hreach Hrange]; [right; left|].
  assert (∀ C, zget (<[Z.to_nat cur := true]> seenSym) C = Some true ↔ zget seenSym C = Some true ∨ C = cur) as Hsym.
  { intros C. destruct (decide (C = cur)) as [->|]; [rewrite zget_insert_eq by lia; tauto|rewrite zget_insert_ne by lia; tauto]. }
  destruct (seed_prods_spec (prodsByLHS ng cur) seenProd prods queue) as
    (sp' & pr' & q' & Hrun & Hl' & Hs' & Hnd' & Hin' & Hq' & Hlen'); [apply Hinv| |apply Hinv|apply Hinv|].
  { intros q (p & Hp & _)%prodsByLHS_elem. by eapply zget_Some_range. }
  exists sp', pr', q'. split_and!; [done| |]. 2: { pose proof (pending_mark seenSym (Productions ng) 0 cur Hcur) as E.
    fold (prodsByLHS ng cur) in E. lia. }
  assert (∀ C, C ∈ q' ↔ C ∈ queue ∨ left_step cur C) as Hq'' by (intros C; by rewrite Hq', left_step_starts).
  split; [by rewrite len_insert, (sd_syms _ _ _ _ _ Hinv)|done|..|done| |done].
  - intros C [[HC| ->]%Hsym|[HC|HC]%Hq'']; [apply Hinv; by left|done|apply Hinv; right; by right|].
    split; [by eapply rtc_r|by eapply left_step_range].
  - destruct (sd_start _ _ _ _ _ Hinv) as [?|[->|?]%elem_of_cons]; [left; apply Hsym; by left|left; apply Hsym; by right|].
    right. apply Hq''. by left.
  - intros C D [HC| ->]%Hsym HCD; [|right; apply Hq''; by right].
    destruct (sd_closed _ _ _ _ _ Hinv C D HC HCD) as [?|[->|?]%elem_of_cons]; [left; apply Hsym; by left|left; apply Hsym; by right|].
    right. apply Hq''. by left.
  - intros q. rewrite Hin', (sd_found _ _ _ _ _ Hinv), prodsByLHS_elem. split.
    + intros [(p & Hp & Hl)|(p & Hp & Hl)]; (exists p; split; [done|]); apply Hsym; auto.
    + intros (p & Hp & [Hl|Hl]%Hsym); [left|right]; by exists p.
Qed.

(** With an empty queue the productions found are those at the left edge. *)
Lemma seed_done sym seenSym seenProd prods q : seed_inv sym seenSym seenProd [] prods →
  q ∈ prods ↔ ∃ p, zget (Productions ng) q = Some p ∧ left_reach sym (LHS p).
Proof using.
  intros Hinv. rewrite (sd_found _ _ _ _ _ Hinv). split; intros (p & Hp & Hl); (exists p; split; [done|]).
  - apply (sd_reach _ _ _ _ _ Hinv). by left.
  - assert (zget seenSym sym = Some true) as Hs by (destruct (sd_start _ _ _ _ _ Hinv) as [?|?%elem_of_nil]; done).
    pose proof (sd_closed _ _ _ _ _ Hinv) as Hcl. clear Hp Hinv. revert Hl Hs. generalize (LHS p) as E. intros E Hl.
    induction Hl as [C|C D E HCD _ IHl]; intros Hs; [done|]. apply IHl.
    destruct (Hcl C D Hs HCD) as [?|?%elem_of_nil]; done.
Qed.

Lemma seed_loop_spec fuel sym seenSym seenProd queue prods :
  seed_inv sym seenSym seenProd queue prods → (length queue + pending seenSym (Productions ng) ≤ fuel)%nat →
  ∃ prods', seed_loop ng fuel seenSym seenProd queue prods = Ret prods' ∧ NoDup prods' ∧
    ∀ q, q ∈ prods' ↔ ∃ p, zget (Productions ng) q = Some p ∧ left_reach sym (LHS p).
Proof using Hng.
  revert seenSym seenProd queue prods. induction fuel as [|fuel IH]; intros seenSym seenProd queue prods Hinv Hf;
    (destruct queue as [|cur queue];
     [exists prods; split_and!; [done|apply Hinv|intros q; by eapply seed_done]|]); [cbn in Hf; lia|].
  cbn [seed_loop]. cbn [length] in Hf. destruct (sd_reach _ _ _ _ _ Hinv cur) as [Hreach Hrange]; [right; left|].
  pose proof (TokenCount_range ng). replace ((cur <? TokenCount ng) || (cur <? 0) || (len (Symbols ng) <=? cur)) with false by lia.
  destruct (index_in_range seenSym cur) as (sn & -> & Hsn); [rewrite (sd_syms _ _ _ _ _ Hinv); lia|]. cbn [mbind go_bind].
  destruct sn.
  - apply IH; [|lia]. destruct Hinv as [A B C D E F G I]. split; try done.
    + intros x [?|?]; apply C; [by left|right; by right].
    + destruct D as [?|[->|?]%elem_of_cons]; auto.
    + intros x y Hx Hxy. destruct (E x y Hx Hxy) as [?|[->|?]%elem_of_cons]; auto.
  - rewrite store_ok by (rewrite (sd_syms _ _ _ _ _ Hinv); lia). cbn [mbind go_bind].
    destruct (seed_mark _ _ _ _ _ _ Hinv Hsn) as (sp' & pr' & q' & -> & Hinv' & Hm). cbn [mbind go_bind].
    apply IH; [done|lia].
Qed.

Context `{SliceSort}.

Lemma closure_seeds_spec sym : TokenCount ng ≤ sym < len (Symbols ng) →
  ∃ prods, closure_seeds ng sym = Ret prods ∧ NoDup prods ∧
    ∀ q, q ∈ prods ↔ ∃ p, zget (Productions ng) q = Some p ∧ left_reach sym (LHS p).
Proof using Hng.
  intros Hsym. unfold closure_seeds.
  assert (∀ n x, zget (make n false) x ≠ Some true) as Hno.
  { intros n x Hx%zget_elem. by apply elem_of_replicate in Hx as [? _]. }
  destruct (seed_loop_spec (seed_fuel ng) sym (make (len (Symbols ng)) false) (make (len (Productions ng)) false) [sym] [])
    as (prods & -> & Hnd & Hin).
  - split; [apply len_make, len_nonneg|apply len_make, len_nonneg|..|constructor].
    + intros C [?%Hno| ->%list_elem_of_singleton]; [done|]. split; [constructor|done].
    + right. left.
    + intros C D ?%Hno. done.
    + intros q. split; [by intros ?%Hno|by intros ?%elem_of_nil].
    + intros q. split; [by intros ?%elem_of_nil|]. by intros (p & _ & ?%Hno).
  - unfold seed_fuel, pending. cbn. pose proof (length_filter (λ p, zget (make (len (Symbols ng)) false) (LHS p) ≠ Some true) (Productions ng)). lia.
  - cbn [mbind go_bind]. exists (if 1 <? len prods then sort_ints prods else prods). split; [done|].
    destruct (1 <? len prods); [|done]. split; [by rewrite sort_ints_perm|]. intros q. by rewrite sort_ints_elem.
Qed.

(** The table of closures. *)
Definition seeds_ok (seeds : list (list Z)) : Prop :=
  len seeds = len (Symbols ng) ∧ ∀ B prods, zget seeds B = Some prods → TokenCount ng ≤ B →
    NoDup prods ∧ ∀ q, q ∈ prods ↔ ∃ p, zget (Productions ng) q = Some p ∧ left_reach B (LHS p).

Lemma seeds_spec : ∃ seeds, ensureLR0Dot0ClosureSeeds ng = Ret seeds ∧ seeds_ok seeds.
Proof using Hng.
  unfold ensureLR0Dot0ClosureSeeds, seeds_ok.
  assert (∀ k (i : Z), 0 ≤ i → i + Z.of_nat k = len (Symbols ng) →
    ∃ seeds, seeds_from ng (seqZ i (Z.of_nat k)) = Ret seeds ∧ len seeds = Z.of_nat k ∧
      ∀ B prods, zget seeds (B - i) = Some prods → TokenCount ng ≤ B →
        NoDup prods ∧ ∀ q, q ∈ prods ↔ ∃ p, zget (Productions ng) q = Some p ∧ left_reach B (LHS p)) as Hgen.
  { induction k as [|k IH]; intros i Hi Hk.
    - exists []. split_and!; [done..|]. intros B prods HB. by rewrite zget_nil in HB.
    - rewrite seqZ_cons by lia. replace (Z.pred (Z.of_nat (S k))) with (Z.of_nat k) by lia. cbn [seeds_from].
      destruct (IH (Z.succ i)) as (seeds & HIH & Hl & Hs); [lia|lia|].
      assert (∃ prods, (if i <? TokenCount ng then Ret [] else closure_seeds ng i) = Ret prods ∧ (TokenCount ng ≤ i →
        NoDup prods ∧ ∀ q, q ∈ prods ↔ ∃ p, zget (Productions ng) q = Some p ∧ left_reach i (LHS p))) as (prods & -> & Hp).
      { destruct (Z.ltb_spec i (TokenCount ng)); [exists []; split; [done|lia]|].
        destruct (closure_seeds_spec i) as (prods & ? & ?); [lia|]. by exists prods. }
      cbn [mbind go_bind]. rewrite HIH. cbn [mbind go_bind]. exists (prods :: seeds). split_and!; [done|rewrite len_cons; lia|].
      intros B ps HB HBt. destruct (decide (B = i)) as [->|Hne].
      + rewrite Z.sub_diag in HB. injection HB as <-. by apply Hp.
      + rewrite zget_cons_ne in HB by lia. apply Hs; [|done]. by replace (B - Z.succ i) with (B - i - 1) by lia. }
  destruct (Hgen (length (Symbols ng)) 0) as (seeds & Hrun & Hl & Hs); [lia|done|]. exists seeds.
  unfold len at 1. split_and!; [done|exact Hl|]. intros B prods HB. apply Hs. by rewrite Z.sub_0_r.
Qed.

(** ** The closure of a kernel *)

(** The closure of a set of items. *)
Inductive closes (K : item → Prop) : item → Prop :=
| closes_kernel i : K i → closes K i
| closes_expand i B q p : closes K i → item_next i = Some B → TokenCount ng ≤ B →
    zget (Productions ng) q = Some p → LHS p = B → closes K (q, 0).

(** Through the left edges of the kernel's next symbols. *)
Lemma closes_left K i : closes K i ↔ K i ∨ ∃ k B q p, K k ∧ item_next k = Some B ∧ TokenCount ng ≤ B ∧
  i = (q, 0) ∧ zget (Productions ng) q = Some p ∧ left_reach B (LHS p).
Proof using.
  split.
  - induction 1 as [i Hi|i B q p _ IH Hn HB Hq Hl]; [by left|right].
    destruct IH as [Hi|(k & B' & q' & p' & Hk & Hn' & HB' & -> & Hq' & Hr)]; [exists i, B, q, p; rewrite Hl; by repeat split|].
    exists k, B', q, p. split_and!; [done..|]. eapply rtc_r; [exact Hr|]. unfold item_next in Hn. cbn in Hn. rewrite Hq' in Hn. cbn in Hn.
    destruct (RHS p') as [|X rest] eqn:E; [done|]. injection Hn as ->.
    exists p', rest. rewrite Hl. split_and!; [by eapply zget_elem|done..].
  - intros [Hi|(k & B & q & p & Hk & Hn & HB & -> & Hq & Hr)]; [by constructor|].
    assert (∀ C, left_reach B C → TokenCount ng ≤ C ∧ ∃ i, closes K i ∧ item_next i = Some C) as Hgen.
    { apply rtc_ind_r; [split; [done|exists k; by split; [constructor|]]|]. intros C D HBC HCD IH.
      destruct IH as (HC & i & Hi & Hin). destruct HCD as (r & rest & (j & _ & Hj)%elem_zget & Hl & HR & HD).
      split; [done|]. exists (j, 0). split; [by eapply closes_expand|]. unfold item_next. cbn. rewrite Hj. cbn. by rewrite HR. }
    destruct (Hgen _ Hr) as (? & i & Hi & Hin). by eapply closes_expand.
Qed.

Lemma closes_ok K i : (∀ k, K k → item_ok k) → closes K i → item_ok i.
Proof using. intros HK [j Hj|j B q p _ _ _ Hq _]; [by apply HK|by eapply item_ok_zero]. Qed.

Definition kit (ki : coreItem) : item := (ciProdIdx ki, ciDot ki).

(** Entries without repetition, and an index that knows which have the dot at 0. *)
Record partial_set (cs dot0Index : list Z) : Prop := {
  ps_ok : entries_ok cs;
  ps_nodup : NoDup cs;
  ps_len : len dot0Index = len (Productions ng);
  ps_index q k : zget dot0Index q = Some k → 0 ≤ k ↔ has cs (q, 0) }.

Lemma partial_snoc cs dot0Index i : partial_set cs dot0Index → item_ok i → ¬ has cs i →
  partial_set (cs ++ [packed i]) (if i.2 =? 0 then <[Z.to_nat i.1 := len cs]> dot0Index else dot0Index).
Proof using Hng.
  intros [Hok Hnd Hl Hidx] Hi Hnot. pose proof (len_nonneg cs) as Hcs.
  assert (0 ≤ i.1 < len dot0Index) as Hr.
  { destruct Hi as (p & Hp & _). apply zget_Some_range in Hp. lia. }
  split.
  - by apply entries_ok_snoc.
  - apply NoDup_app. split_and!; [done| |apply NoDup_singleton]. intros ce Hce ->%list_elem_of_singleton. by apply Hnot.
  - destruct (i.2 =? 0); [|done]. by rewrite len_insert.
  - intros q k. rewrite has_snoc by done. destruct (Z.eqb_spec i.2 0) as [E|E].
    + destruct (decide (q = i.1)) as [->|Hne].
      * rewrite zget_insert_eq by done. intros [= <-]. split; [right; destruct i; cbn in *; by subst|done].
      * rewrite zget_insert_ne by lia. intros Hk. rewrite (Hidx q k Hk). split; [by left|].
        intros [?| <-]; [done|]. by destruct Hne.
    + intros Hk. rewrite (Hidx q k Hk). split; [by left|]. intros [?| <-]; [done|]. by destruct E.
Qed.

Lemma add_kernel_spec kernel cs dot0Index : partial_set cs dot0Index → Forall (λ ki, item_ok (kit ki)) kernel →
  NoDup (map kit kernel) → (∀ i, i ∈ map kit kernel → ¬ has cs i) →
  ∃ cs' dot0Index', add_kernel kernel cs dot0Index = Ret (cs', dot0Index') ∧ partial_set cs' dot0Index' ∧
    ∀ i, has cs' i ↔ has cs i ∨ i ∈ map kit kernel.
Proof using Hng.
  revert cs dot0Index. induction kernel as [|ki kernel IH]; intros cs dot0Index Hps Hok Hnd Hdis; cbn [add_kernel map].
  { exists cs, dot0Index. split_and!; [done..|]. intros i. rewrite elem_of_nil. tauto. }
  apply list.Forall_cons in Hok as [Hki Hok]. cbn [map] in *. apply NoDup_cons in Hnd as [Hnk Hnd].
  pose proof (proj1 (pack_item _ Hki)) as Epack. cbn [kit fst snd] in Epack. rewrite Epack. cbn [mbind go_bind].
  pose proof (partial_snoc cs dot0Index (kit ki) Hps Hki (Hdis _ ltac:(left))) as Hps1. cbn [kit fst snd] in Hps1.
  assert ((if ciDot ki =? 0 then store dot0Index (ciProdIdx ki) (len cs) else Ret dot0Index) =
    Ret (if ciDot ki =? 0 then <[Z.to_nat (ciProdIdx ki) := len cs]> dot0Index else dot0Index)) as ->.
  { destruct (ciDot ki =? 0); [|done]. apply store_ok. rewrite (ps_len _ _ Hps).
    destruct Hki as (p & Hp & _). by apply zget_Some_range in Hp. }
  cbn [mbind go_bind]. destruct (IH _ _ Hps1 Hok Hnd) as (cs' & d' & Hrun & Hps' & Hin').
  { intros i Hi [Hh| ->]%has_snoc; [by apply (Hdis i); [right|]|done|done]. }
  exists cs', d'. split_and!; [done..|]. intros i. rewrite Hin', has_snoc by done. rewrite elem_of_cons. tauto.
Qed.

Lemma add_seeds_spec prods cs dot0Index : partial_set cs dot0Index → (∀ q, q ∈ prods → 0 ≤ q < len (Productions ng)) →
  ∃ cs' dot0Index', add_seeds prods cs dot0Index = Ret (cs', dot0Index') ∧ partial_set cs' dot0Index' ∧
    ∀ i, has cs' i ↔ has cs i ∨ ∃ q, q ∈ prods ∧ i = (q, 0).
Proof using Hng.
  revert cs dot0Index. induction prods as [|q prods IH]; intros cs dot0Index Hps Hr; cbn [add_seeds].
  { exists cs, dot0Index. split_and!; [done..|]. intros i. split; [by left|]. intros [?|(q & ?%elem_of_nil & _)]; done. }
  pose proof (Hr q ltac:(left)) as Hq. assert (∀ q', q' ∈ prods → 0 ≤ q' < len (Productions ng)) as Hr' by (intros; apply Hr; by right).
  destruct (index_in_range dot0Index q) as (k & -> & Hk); [rewrite (ps_len _ _ Hps); done|]. cbn [mbind go_bind].
  destruct (zget_in_range (Productions ng) q Hq) as [p Hp]. pose proof (item_ok_zero q p Hp) as Hok.
  destruct (Z.leb_spec 0 k) as [Hk0|Hk0].
  - destruct (IH cs dot0Index Hps Hr') as (cs' & d' & Hrun & Hps' & Hin'). exists cs', d'. split_and!; [done..|].
    intros i. rewrite Hin'. split.
    + intros [?|(q' & ? & ->)]; [by left|right; exists q'; split; [by right|done]].
    + intros [?|(q' & [->|?]%elem_of_cons & ->)]; [by left|left; by apply (ps_index _ _ Hps q k)|right; by exists q'].
  - assert (¬ has cs (q, 0)) as Hno by (intros Hh%(ps_index _ _ Hps q k Hk); lia).
    pose proof (partial_snoc cs dot0Index (q, 0) Hps Hok Hno) as Hps1. cbn [fst snd] in Hps1. cbn [Z.eqb] in Hps1.
    rewrite store_ok by (rewrite (ps_len _ _ Hps); done). cbn [mbind go_bind].
    pose proof (proj1 (pack_item _ Hok)) as E. cbn [fst snd] in E. rewrite E. cbn [mbind go_bind].
    destruct (IH _ _ Hps1 Hr') as (cs' & d' & Hrun & Hps' & Hin'). exists cs', d'. split_and!; [done..|].
    intros i. rewrite Hin', has_snoc by done. split.
    + intros [[?| ->]|(q' & ? & ->)]; [by left|right; exists q; split; [left|done]|right; exists q'; split; [by right|done]].
    + intros [?|(q' & [->|?]%elem_of_cons & ->)]; [tauto|tauto|right; by exists q'].
Qed.

(** What the kernel's next symbols expand to. *)
Definition expansion (K : item → Prop) (i : item) : Prop :=
  ∃ k B q p, K k ∧ item_next k = Some B ∧ TokenCount ng ≤ B ∧
    i = (q, 0) ∧ zget (Productions ng) q = Some p ∧ left_reach B (LHS p).

Lemma expand_kernel_spec seeds kernel cs dot0Index : seeds_ok seeds → partial_set cs dot0Index →
  Forall (λ ki, item_ok (kit ki)) kernel →
  ∃ cs', expand_kernel ng seeds kernel cs dot0Index = Ret cs' ∧ entries_ok cs' ∧ NoDup cs' ∧
    ∀ i, has cs' i ↔ has cs i ∨ expansion (λ k, k ∈ map kit kernel) i.
Proof using Hng.
  intros [Hsl Hsd]. revert cs dot0Index. induction kernel as [|ki kernel IH]; intros cs dot0Index Hps Hok; cbn [expand_kernel].
  { exists cs. split_and!; [done|apply Hps|apply Hps|]. intros i. split; [by left|].
    intros [?|(k & B & q & p & ?%elem_of_nil & _)]; done. }
  apply list.Forall_cons in Hok as [Hki Hok]. pose proof Hki as (pr & Hpr & Hdot). cbn [kit fst snd] in Hpr, Hdot.
  rewrite (proj2 (index_Ret _ _ _) Hpr). cbn [mbind go_bind].
  assert (item_next (kit ki) = zget (RHS pr) (ciDot ki)) as En by (unfold item_next; cbn; by rewrite Hpr).
  assert ((∀ B, item_next (kit ki) = Some B → TokenCount ng ≤ B → False) →
    ∃ cs', expand_kernel ng seeds kernel cs dot0Index = Ret cs' ∧ entries_ok cs' ∧ NoDup cs' ∧
    ∀ i, has cs' i ↔ has cs i ∨ expansion (λ k, k ∈ map kit (ki :: kernel)) i) as Hskip.
  { intros Hno. destruct (IH cs dot0Index Hps Hok) as (cs' & Hrun & Hok' & Hnd' & Hin'). exists cs'. split_and!; [done..|].
    intros i. rewrite Hin'. unfold expansion. cbn [map]. setoid_rewrite elem_of_cons. split; [naive_solver|].
    intros [?|(k & B & q & p & [->|Hk] & Hn & HB & Hrest)]; [by left|by destruct (Hno B)|right; naive_solver]. }
  destruct (Z.leb_spec (len (RHS pr)) (ciDot ki)) as [Hend|Hmid].
  { apply Hskip. intros B HB. rewrite En in HB. apply zget_Some_range in HB. lia. }
  destruct (index_in_range (RHS pr) (ciDot ki)) as (X & -> & HX); [lia|]. cbn [mbind go_bind].
  destruct (Z.ltb_spec X (TokenCount ng)); [apply Hskip; intros B HB; rewrite En, HX in HB; injection HB as <-; lia|]. clear Hskip.
  pose proof (gw_rhs _ (lg_wf _ Hng) pr X (zget_elem _ _ _ Hpr) (zget_elem _ _ _ HX)) as HXr.
  destruct (index_in_range seeds X) as (prods & -> & Hprods); [lia|]. cbn [mbind go_bind].
  destruct (Hsd X prods Hprods ltac:(done)) as [_ Hseed].
  destruct (add_seeds_spec prods cs dot0Index Hps) as (cs1 & d1 & -> & Hps1 & Hin1).
  { intros q (p & Hp & _)%Hseed. by eapply zget_Some_range. }
  cbn [mbind go_bind]. destruct (IH cs1 d1 Hps1 Hok) as (cs' & Hrun & Hok' & Hnd' & Hin'). exists cs'. split_and!; [done..|].
  intros i. rewrite Hin', Hin1. unfold expansion. cbn [map]. setoid_rewrite elem_of_cons. split.
  - intros [[?|(q & (p & Hp & Hl)%Hseed & ->)]|?]; [by left|right|right; naive_solver].
    exists (kit ki), X, q, p. rewrite En, HX. by repeat split; [left|..].
  - intros [?|(k & B & q & p & [->|Hk] & Hn & HB & -> & Hq & Hl)]; [tauto| |right; naive_solver].
    rewrite En, HX in Hn. injection Hn as <-. left; right. exists q. split; [|done]. apply Hseed. by exists p.
Qed.

(** ** Item sets *)

(** The order of the entries, as a number. *)
Definition ekey (ce : Z) : Z := entry_prodIdx ce * 256 + entry_dot ce.

Definition core_set (cs : list Z) : Prop := entries_ok cs ∧ increasing (map ekey cs).

Lemma entry_dot_range ce : 0 ≤ entry_dot ce < 256.
Proof using. unfold entry_dot, u8. apply Z.mod_pos_bound. lia. Qed.

Lemma ekey_inj x y : packed (unpacked x) = x → packed (unpacked y) = y → ekey x = ekey y → x = y.
Proof using.
  unfold ekey. intros Hx Hy E. pose proof (entry_dot_range x). pose proof (entry_dot_range y).
  rewrite <-Hx, <-Hy. unfold unpacked. f_equal; f_equal; lia.
Qed.

Lemma entries_keys_inj cs cs' : entries_ok cs → entries_ok cs' → map ekey cs = map ekey cs' → cs = cs'.
Proof using.
  intros Hok. revert cs'. induction Hok as [|x cs [_ Hx] Hok IH]; intros [|y cs'] Hok' E; [done..|].
  apply list.Forall_cons in Hok' as [[_ Hy] Hok']. cbn in E. injection E as E1 E2. f_equal; [by apply ekey_inj|by apply IH].
Qed.

Lemma core_set_ext cs cs' : core_set cs → core_set cs' → (∀ i, has cs i ↔ has cs' i) → cs = cs'.
Proof using.
  intros [Hok Hs] [Hok' Hs'] Hin.
  assert (∀ ce, ce ∈ cs ↔ ce ∈ cs') as Hce.
  { intros ce. split; intros Hce.
    - pose proof (proj2 (proj1 (Hin _) (has_unpacked cs ce Hok Hce))) as Hp. unfold entries_ok in Hok.
      rewrite list.Forall_forall in Hok. by rewrite (proj2 (Hok ce Hce)) in Hp.
    - pose proof (proj2 (proj2 (Hin _) (has_unpacked cs' ce Hok' Hce))) as Hp. unfold entries_ok in Hok'.
      rewrite list.Forall_forall in Hok'. by rewrite (proj2 (Hok' ce Hce)) in Hp. }
  apply entries_keys_inj; [done..|]. apply increasing_ext; [done..|]. intros k. rewrite !list_elem_of_fmap. naive_solver.
Qed.

Lemma core_set_NoDup cs : core_set cs → NoDup cs.
Proof using. intros [_ Hs%increasing_NoDup]. by apply NoDup_fmap_1 in Hs. Qed.

Lemma sort_entries cs : entries_ok cs → NoDup cs →
  core_set (if 1 <? len cs then sort_slice entry_less cs else cs) ∧
  ∀ i, has (if 1 <? len cs then sort_slice entry_less cs else cs) i ↔ has cs i.
Proof using.
  intros Hok Hnd. destruct (Z.ltb_spec 1 (len cs)) as [Hl|Hl].
  2: { split; [|done]. split; [done|]. destruct cs as [|x [|y cs]]; [constructor|repeat constructor|].
       rewrite !len_cons in Hl. pose proof (len_nonneg cs). lia. }
  pose proof (sort_slice_perm _ entry_less cs) as Hp. split; [|intros i; unfold has; by rewrite Hp].
  assert (entries_ok (sort_slice entry_less cs)) as Hok' by (unfold entries_ok; by rewrite Hp).
  split; [done|]. assert (NoDup (sort_slice entry_less cs)) as Hnd' by (by rewrite Hp).
  pose proof (sort_slice_sorted _ entry_less cs (strict_weak_less2 _ _)) as Hs. clear Hp. revert Hs Hok' Hnd'.
  generalize (sort_slice entry_less cs) as l. induction 1 as [|x l _ IH Hx]; intros Hok' Hnd'; [constructor|]. apply list.Forall_cons in Hok' as [[_ Ex] Hok'].
  apply NoDup_cons in Hnd' as [Hnx Hnd']. cbn [map]. constructor; [by apply IH|]. apply list.Forall_forall.
  intros k (y & -> & Hy)%list_elem_of_fmap. rewrite list.Forall_forall in Hx. specialize (Hx y Hy).
  apply less2_false in Hx as [H1 H2]. unfold entries_ok in Hok'. rewrite list.Forall_forall in Hok'. destruct (Hok' y Hy) as [_ Ey].
  assert (ekey x ≠ ekey y) by (intros E; apply ekey_inj in E; [by subst|done..]).
  unfold ekey in *. pose proof (entry_dot_range x). pose proof (entry_dot_range y). lia.
Qed.

(** [lr0Closure] returns the closure, in order, with its hash and no tag. *)
Lemma lr0Closure_spec seeds kernel : seeds_ok seeds → Forall (λ ki, item_ok (kit ki)) kernel → NoDup (map kit kernel) →
  ∃ cs, lr0Closure ng seeds kernel = Ret (mkLr0ItemSet cs (cores_hash cs) 0) ∧ core_set cs ∧
    ∀ i, has cs i ↔ closes (λ k, k ∈ map kit kernel) i.
Proof using Hng.
  intros Hseeds Hok Hnd. unfold lr0Closure.
  assert (∀ i, ¬ has [] i) as Hno by (intros i [_ ?%elem_of_nil]; done).
  destruct (add_kernel_spec kernel [] (make (len (Productions ng)) (-1))) as (cs1 & d1 & -> & Hps1 & Hin1); [|done|done|by intros i _ ?%Hno|].
  { split; [constructor|constructor|apply len_make, len_nonneg|]. intros q k Hq. apply zget_elem, elem_of_replicate in Hq as [-> _].
    split; [lia|by intros ?%Hno]. }
  cbn [mbind go_bind]. destruct (expand_kernel_spec seeds kernel cs1 d1 Hseeds Hps1 Hok) as (cs2 & -> & Hok2 & Hnd2 & Hin2).
  cbn [mbind go_bind]. destruct (sort_entries cs2 Hok2 Hnd2) as [Hset Hin3]. eexists. split_and!; [done|done|].
  intros i. rewrite Hin3, Hin2, Hin1, closes_left. unfold expansion. split; [|tauto]. intros [[?%Hno|?]|?]; tauto.
Qed.
End items.
