(* ===== verification/Lr0Kernels.v ===== *)
(** * The kernels of a state's successors

    The first half of one round of [buildLR0]: the symbols after a dot, and for
    each the advanced items, sorted into one array by counting.  The slice of a
    symbol is the list of its advanced items, in order. *)

From Stdlib Require Import ZArith Lia ZifyBool.
From stdpp Require Import base tactics list numbers option relations gmap sorting.
From S2P Require Import Prelude SliceSort LrGrammar Lr0 Lr0Closure.
Local Open Scope Z_scope.

Section kernels.
Context (ng : NormalizedGrammar) (Hng : lr0_grammar ng).

Lemma next_symbol_spec cs ce : entries_ok ng cs → ce ∈ cs → next_symbol ng ce = Ret (item_next ng (unpacked ce)).
Proof using.
  intros Hok Hce. unfold entries_ok in Hok. rewrite list.Forall_forall in Hok. destruct (Hok ce Hce) as [(p & Hp & Hd) _].
  unfold next_symbol, item_next, unpacked in *. cbn [fst snd] in *. rewrite (proj2 (index_Ret _ _ _) Hp), Hp. cbn [mbind go_bind option_bind].
  destruct (Z.ltb_spec (entry_dot ce) (len (RHS p))).
  - destruct (index_in_range (RHS p) (entry_dot ce)) as (X & -> & ->); [lia|done].
  - symmetry. f_equal. apply zget_None. lia.
Qed.

Definition advanced (ce : Z) : coreItem := mkCoreItem (entry_prodIdx ce) (entry_dot ce + 1).

(** The items before [X], with the dot behind it. *)
Definition kernel_of (cs : list Z) (X : Z) : list coreItem :=
  map advanced (filter (λ ce, item_next ng (unpacked ce) = Some X) cs).

Lemma kernel_of_app cs cs' X : kernel_of (cs ++ cs') X = kernel_of cs X ++ kernel_of cs' X.
Proof using. unfold kernel_of. by rewrite filter_app, map_app. Qed.

Lemma kernel_of_cons ce cs X : kernel_of (ce :: cs) X =
  (if decide (item_next ng (unpacked ce) = Some X) then [advanced ce] else []) ++ kernel_of cs X.
Proof using. unfold kernel_of. rewrite filter_cons. by case_decide. Qed.

Lemma kernel_of_snoc done ce X : item_next ng (unpacked ce) = Some X →
  ∀ Y, kernel_of (done ++ [ce]) Y = kernel_of done Y ++ (if decide (Y = X) then [advanced ce] else []).
Proof using.
  intros HX Y. rewrite kernel_of_app, kernel_of_cons, HX, app_nil_r. f_equal. destruct (decide (Y = X)) as [->|Hne].
  - by rewrite decide_True.
  - rewrite decide_False; [done|]. by intros [= ->].
Qed.

Lemma kernel_of_snoc_end done ce : item_next ng (unpacked ce) = None → ∀ Y, kernel_of (done ++ [ce]) Y = kernel_of done Y.
Proof using. intros HX Y. rewrite kernel_of_app, kernel_of_cons, HX, decide_False by done. by rewrite !app_nil_r. Qed.

(** ** Counting *)

Record collected (done : list Z) (bucketIdx syms counts : list Z) : Prop := {
  co_len : len bucketIdx = len (Symbols ng);
  co_bucket X b : zget bucketIdx X = Some b → (b < 0 ∧ X ∉ syms) ∨ zget syms b = Some X;
  co_nodup : NoDup syms;
  co_counts : len counts = len syms;
  co_count b X : zget syms b = Some X → zget counts b = Some (len (kernel_of done X));
  co_syms X : X ∈ syms ↔ kernel_of done X ≠ [] }.

Lemma collect_step cs done ce bucketIdx syms counts X : entries_ok ng cs → ce ∈ cs →
  collected done bucketIdx syms counts → item_next ng (unpacked ce) = Some X →
  ∃ bucketIdx' syms' counts', collected (done ++ [ce]) bucketIdx' syms' counts' ∧
    ∀ rest, collect_symbols ng (ce :: rest) bucketIdx syms counts = collect_symbols ng rest bucketIdx' syms' counts'.
Proof using Hng.
  intros Hok Hce [Hl Hb Hnd Hlc Hc Hs] HX. destruct (item_next_ok ng Hng _ _ _ HX) as (_ & _ & HXr).
  pose proof (kernel_of_snoc done ce X HX) as Hk.
  destruct (index_in_range bucketIdx X) as (b & Eb & HbX); [lia|].
  destruct (Hb X b HbX) as [[Hneg HnX]|HsX].
  - exists (<[Z.to_nat X := len syms]> bucketIdx), (syms ++ [X]), (counts ++ [1]). split.
    2: { intros rest. cbn [collect_symbols]. rewrite (next_symbol_spec cs) by done. cbn [mbind go_bind]. rewrite HX, Eb. cbn [mbind go_bind].
         replace (b <? 0) with true by lia. rewrite store_ok by lia. done. }
    assert (kernel_of done X = []) as Enil. { destruct (kernel_of done X) eqn:E; [done|]. destruct HnX. apply Hs. by rewrite E. }
    split.
    + by rewrite len_insert.
    + intros Y c. destruct (decide (Y = X)) as [->|Hne].
      * rewrite zget_insert_eq by lia. intros [= <-]. right. apply zget_last.
      * rewrite zget_insert_ne by lia. intros [[? ?]|HY]%Hb; [left; split; [done|]|right].
        -- intros [?|?%list_elem_of_singleton]%elem_of_app; done.
        -- rewrite zget_app_l; [done|]. apply zget_Some_range in HY. lia.
    + apply NoDup_app. split_and!; [done|by intros Y ? ->%list_elem_of_singleton|apply NoDup_singleton].
    + rewrite !len_app, Hlc. done.
    + intros c Y [HY|[-> ->]]%zget_snoc.
      * rewrite zget_app_l by (apply zget_Some_range in HY; lia). rewrite Hk, decide_False; [by rewrite app_nil_r; apply Hc|].
        intros ->. destruct HnX. by eapply zget_elem.
      * rewrite <-Hlc, zget_last, Hk, Enil, decide_True by done. done.
    + intros Y. rewrite elem_of_app, list_elem_of_singleton, Hs, Hk. destruct (decide (Y = X)) as [->|Hne].
      * split; [intros _; by destruct (kernel_of done X)|by right].
      * rewrite app_nil_r. tauto.
  - pose proof (Hc b X HsX) as Hcb. pose proof (zget_Some_range _ _ _ HsX) as Hbr.
    exists bucketIdx, syms, (<[Z.to_nat b := len (kernel_of done X) + 1]> counts). split.
    2: { intros rest. cbn [collect_symbols]. rewrite (next_symbol_spec cs) by done. cbn [mbind go_bind]. rewrite HX, Eb. cbn [mbind go_bind].
         replace (b <? 0) with false by lia. rewrite (proj2 (index_Ret _ _ _) Hcb). cbn [mbind go_bind]. rewrite store_ok by lia. done. }
    split; [done|done|done|by rewrite len_insert| |].
    + intros c Y HY. destruct (decide (c = b)) as [->|Hne].
      * rewrite HsX in HY. injection HY as <-. rewrite zget_insert_eq by lia. rewrite Hk, decide_True by done. by rewrite len_app.
      * rewrite zget_insert_ne by lia. rewrite Hk, decide_False; [by rewrite app_nil_r; apply Hc|].
        intros ->. apply Hne. by eapply NoDup_zget_inj.
    + intros Y. rewrite Hs, Hk. destruct (decide (Y = X)) as [->|Hne]; [|by rewrite app_nil_r].
      split; [intros ? [? _]%app_nil; done|]. intros _. apply Hs. by eapply zget_elem.
Qed.

Lemma collect_symbols_spec cs rest done bucketIdx syms counts : entries_ok ng cs → cs = done ++ rest →
  collected done bucketIdx syms counts →
  ∃ bucketIdx' syms' counts', collect_symbols ng rest bucketIdx syms counts = Ret (bucketIdx', syms', counts') ∧
    collected cs bucketIdx' syms' counts'.
Proof using Hng.
  intros Hok. revert done bucketIdx syms counts. induction rest as [|ce rest IH]; intros done bucketIdx syms counts Ecs Hco.
  { rewrite app_nil_r in Ecs. subst. by exists bucketIdx, syms, counts. }
  assert (ce ∈ cs) as Hce by (rewrite Ecs; apply elem_of_app; right; left).
  assert (cs = (done ++ [ce]) ++ rest) as Ecs' by (by rewrite <-app_assoc).
  destruct (item_next ng (unpacked ce)) as [X|] eqn:HX.
  - destruct (collect_step cs done ce _ _ _ X Hok Hce Hco HX) as (b' & s' & c' & Hco' & Hstep). rewrite Hstep. by apply (IH (done ++ [ce])).
  - cbn [collect_symbols]. rewrite (next_symbol_spec cs) by done. cbn [mbind go_bind]. rewrite HX. apply (IH (done ++ [ce])); [done|].
    pose proof (kernel_of_snoc_end done ce HX) as Hk.
    destruct Hco as [A B C D E F]. split; [done|done|done|done|intros b Y ?; rewrite Hk; by apply E|intros Y; by rewrite Hk].
Qed.

Lemma collect_all cs : entries_ok ng cs →
  ∃ bucketIdx syms counts, collect_symbols ng cs (make (len (Symbols ng)) (-1)) [] [] = Ret (bucketIdx, syms, counts) ∧
    collected cs bucketIdx syms counts.
Proof using Hng.
  intros Hok. apply (collect_symbols_spec cs cs []); [done..|]. split; [apply len_make, len_nonneg| |constructor|done| |].
  - intros X b Hb. apply zget_elem, elem_of_replicate in Hb as [-> _]. left. split; [lia|apply not_elem_of_nil].
  - intros b X HX. by rewrite zget_nil in HX.
  - intros X. split; [by intros ?%elem_of_nil|done].
Qed.

(** ** Filling *)

(** The buckets lie one behind the other. *)
Lemma bucket_offsets_spec counts total offsets n : Forall (λ c, 0 ≤ c) counts → bucket_offsets counts total = (offsets, n) →
  len offsets = len counts ∧ total ≤ n ∧
  (∀ b o, zget offsets b = Some o → total ≤ o) ∧
  (∀ b o c, zget offsets b = Some o → zget counts b = Some c → o + c ≤ n) ∧
  (∀ b b' o o' c, b < b' → zget offsets b = Some o → zget offsets b' = Some o' → zget counts b = Some c → o + c ≤ o').
Proof using.
  intros Hc. revert total offsets n. induction Hc as [|c counts Hc0 Hc IH]; intros total offsets n; cbn [bucket_offsets].
  { intros [= <- <-]. split_and!; [done|lia|..]; intros *; rewrite !zget_nil; done. }
  destruct (bucket_offsets counts (total + c)) as [os m] eqn:E. intros [= <- <-].
  destruct (IH _ _ _ E) as (Hl & Hle & Hlo & Hhi & Hmid). split_and!; [by rewrite !len_cons, Hl|lia|..].
  - intros b o. destruct (decide (b = 0)) as [->|]; [intros [= <-]; lia|]. rewrite zget_cons_ne by done. intros ?%Hlo. lia.
  - intros b o d. destruct (decide (b = 0)) as [->|]; [intros [= <-] [= <-]; lia|]. rewrite !zget_cons_ne by done. apply Hhi.
  - intros b b' o o' d Hb Ho Ho' Hd. pose proof (zget_Some_range _ _ _ Ho). rewrite zget_cons_ne in Ho' by lia.
    destruct (decide (b = 0)) as [->|]; [injection Ho as <-; injection Hd as <-; by apply Hlo in Ho'|].
    rewrite zget_cons_ne in Ho, Hd by done. by apply (Hmid (b - 1) (b' - 1) o o' d); [lia|..].
Qed.

Section filling.
Context (cs bucketIdx syms counts offsets : list Z) (total : Z).
Context (Hok : entries_ok ng cs) (Hco : collected cs bucketIdx syms counts) (Hoff : bucket_offsets counts 0 = (offsets, total)).

Lemma counts_nonneg : Forall (λ c, 0 ≤ c) counts.
Proof using Hco.
  apply list.Forall_forall. intros c (b & Hb & Hc)%elem_zget. rewrite (co_counts _ _ _ _ Hco) in Hb.
  destruct (zget_in_range syms b Hb) as [X HX]. rewrite (co_count _ _ _ _ Hco b X HX) in Hc. injection Hc as <-. apply len_nonneg.
Qed.

(** The items of [done] are in their buckets. *)
Record filled (done next : list Z) (scratch : list coreItem) : Prop := {
  fl_next : len next = len syms;
  fl_pos b X o : zget syms b = Some X → zget offsets b = Some o → zget next b = Some (o + len (kernel_of done X));
  fl_len : len scratch = total;
  fl_slot b X o j it : zget syms b = Some X → zget offsets b = Some o →
    zget (kernel_of done X) j = Some it → zget scratch (o + j) = Some it }.

Lemma fill_step done ce rest next scratch X : cs = done ++ ce :: rest → filled done next scratch →
  item_next ng (unpacked ce) = Some X →
  ∃ next' scratch', filled (done ++ [ce]) next' scratch' ∧
    fill_kernels ng (ce :: rest) bucketIdx next scratch = fill_kernels ng rest bucketIdx next' scratch'.
Proof using Hng Hok Hco Hoff.
  intros Ecs [Hn Hpos Hl Hslot] HX. destruct (item_next_ok ng Hng _ _ _ HX) as (_ & _ & HXr).
  destruct (bucket_offsets_spec counts 0 offsets total counts_nonneg Hoff) as (Hlo & _ & Hlow & Hhi & Hmid).
  pose proof (co_counts _ _ _ _ Hco) as Hlc.
  pose proof (kernel_of_snoc done ce X HX) as Hk.
  assert (X ∈ syms) as HXs.
  { apply (co_syms _ _ _ _ Hco). rewrite Ecs, kernel_of_app, kernel_of_cons, decide_True by done. by intros [_ ?]%app_nil. }
  destruct (index_in_range bucketIdx X) as (b & Eb & HbX); [rewrite (co_len _ _ _ _ Hco); lia|].
  destruct (co_bucket _ _ _ _ Hco X b HbX) as [[_ ?]|HsX]; [done|]. pose proof (zget_Some_range _ _ _ HsX) as Hbr.
  destruct (zget_in_range offsets b) as [o Ho]; [lia|]. pose proof (Hpos b X o HsX Ho) as Hw.
  pose proof (co_count _ _ _ _ Hco b X HsX) as Hcb. set (w := o + len (kernel_of done X)) in *.
  assert (len (kernel_of done X) < len (kernel_of cs X)) as Hlt.
  { rewrite Ecs, kernel_of_app, kernel_of_cons, decide_True by done. rewrite !len_app. change (len [advanced ce]) with 1.
    pose proof (len_nonneg (kernel_of rest X)). lia. }
  pose proof (len_nonneg (kernel_of done X)). pose proof (Hhi b o _ Ho Hcb). pose proof (Hlow b o Ho).
  exists (<[Z.to_nat b := w + 1]> next), (<[Z.to_nat w := advanced ce]> scratch). split.
  2: { cbn [fill_kernels]. rewrite (next_symbol_spec cs) by (done || (rewrite Ecs; apply elem_of_app; right; left)).
       cbn [mbind go_bind]. rewrite HX, Eb. cbn [mbind go_bind]. rewrite (proj2 (index_Ret _ _ _) Hw). cbn [mbind go_bind].
       rewrite (store_ok scratch) by lia. cbn [mbind go_bind]. rewrite (store_ok next) by lia. done. }
  split; [by rewrite len_insert| |by rewrite len_insert|].
  - intros c Y o' HY Ho'. rewrite Hk. destruct (decide (c = b)) as [->|Hne].
    + rewrite HsX in HY. injection HY as <-. rewrite zget_insert_eq by lia. rewrite decide_True by done. rewrite Ho in Ho'. injection Ho' as <-.
      rewrite len_app. change (len [advanced ce]) with 1. f_equal. lia.
    + rewrite zget_insert_ne by lia. rewrite decide_False; [rewrite app_nil_r; by apply Hpos|].
      intros ->. apply Hne. by apply (NoDup_zget_inj syms c b X (co_nodup _ _ _ _ Hco)).
  - intros c Y o' j it HY Ho' Hj. rewrite Hk in Hj. destruct (decide (c = b)) as [->|Hne].
    + rewrite HsX in HY. injection HY as <-. rewrite decide_True in Hj by done. rewrite Ho in Ho'. injection Ho' as <-.
      apply zget_snoc in Hj as [Hj|[-> ->]].
      * rewrite zget_insert_ne by (pose proof (zget_Some_range _ _ _ Hj); lia). by apply (Hslot b X).
      * apply zget_insert_eq. lia.
    + rewrite decide_False, app_nil_r in Hj.
      2: { intros ->. apply Hne. by apply (NoDup_zget_inj syms c b X (co_nodup _ _ _ _ Hco)). }
      rewrite zget_insert_ne; [by apply (Hslot c Y)|lia|]. pose proof (zget_Some_range _ _ _ Hj) as Hjr.
      pose proof (co_count _ _ _ _ Hco c Y HY) as Hcc. assert (len (kernel_of done Y) ≤ len (kernel_of cs Y)) as Hle.
      { rewrite Ecs, kernel_of_app, len_app. pose proof (len_nonneg (kernel_of (ce :: rest) Y)). lia. }
      destruct (decide (c < b)); [pose proof (Hmid c b o' o _ ltac:(lia) Ho' Ho Hcc); lia|].
      pose proof (Hmid b c o o' _ ltac:(lia) Ho Ho' Hcb). lia.
Qed.

Lemma fill_kernels_spec rest done next scratch : cs = done ++ rest → filled done next scratch →
  ∃ next' scratch', fill_kernels ng rest bucketIdx next scratch = Ret (next', scratch') ∧ filled cs next' scratch'.
Proof using Hng Hok Hco Hoff.
  revert done next scratch. induction rest as [|ce rest IH]; intros done next scratch Ecs Hfl.
  { rewrite app_nil_r in Ecs. subst. by exists next, scratch. }
  assert (cs = (done ++ [ce]) ++ rest) as Ecs' by (by rewrite <-app_assoc).
  destruct (item_next ng (unpacked ce)) as [X|] eqn:HX.
  - destruct (fill_step done ce rest next scratch X Ecs Hfl HX) as (n' & s' & Hfl' & ->). by apply (IH (done ++ [ce])).
  - cbn [fill_kernels]. rewrite (next_symbol_spec cs) by (done || (rewrite Ecs; apply elem_of_app; right; left)).
    cbn [mbind go_bind]. rewrite HX. apply (IH (done ++ [ce])); [done|].
    pose proof (kernel_of_snoc_end done ce HX) as Hk.
    destruct Hfl as [A B C D]. split; [done|intros b Y o ? ?; rewrite Hk; by apply B|done|intros b Y o j it; rewrite Hk; apply D].
Qed.

(** Every symbol's slice holds its kernel. *)
Lemma kernels_spec : ∃ ends scratch,
  fill_kernels ng cs bucketIdx offsets (make total (mkCoreItem 0 0)) = Ret (ends, scratch) ∧
  len offsets = len syms ∧ len ends = len syms ∧
  ∀ b X, zget syms b = Some X → ∃ lo hi, zget offsets b = Some lo ∧ zget ends b = Some hi ∧
    gslice scratch lo hi = Ret (kernel_of cs X).
Proof using Hng Hok Hco Hoff.
  destruct (bucket_offsets_spec counts 0 offsets total counts_nonneg Hoff) as (Hlo & Htot & Hlow & Hhi & _).
  pose proof (co_counts _ _ _ _ Hco) as Hlc.
  destruct (fill_kernels_spec cs [] offsets (make total (mkCoreItem 0 0))) as (ends & scratch & Hrun & [Hn Hpos Hl Hslot]); [done| |].
  { split; [lia| |by apply len_make|].
    - intros b X o _ Ho. change (kernel_of [] X) with (@nil coreItem). rewrite len_nil, Z.add_0_r. done.
    - intros b X o j it _ _ Hj. change (kernel_of [] X) with (@nil coreItem) in Hj. by rewrite zget_nil in Hj. }
  exists ends, scratch. split_and!; [done|lia|done|]. intros b X HX. pose proof (zget_Some_range _ _ _ HX) as Hb.
  destruct (zget_in_range offsets b) as [o Ho]; [lia|]. exists o, (o + len (kernel_of cs X)).
  pose proof (co_count _ _ _ _ Hco b X HX) as Hcb. pose proof (Hhi b o _ Ho Hcb). pose proof (Hlow b o Ho).
  pose proof (len_nonneg (kernel_of cs X)). split_and!; [done|by apply Hpos|]. rewrite gslice_ok by lia. f_equal.
  apply list_eq. intros j. rewrite <-!zget_nat. destruct (decide (Z.of_nat j < len (kernel_of cs X))) as [Hj|Hj].
  - destruct (zget_in_range (kernel_of cs X) (Z.of_nat j)) as [it Hit]; [lia|]. rewrite zget_slice by lia. rewrite Hit. by apply (Hslot b X).
  - trans (@None coreItem); [|symmetry]; apply zget_None; [|lia]. rewrite len_slice by lia. lia.
Qed.
End filling.

(** An item belongs to the kernel when it is an advanced item. *)
Lemma kernel_of_elem cs X i : entries_ok ng cs →
  i ∈ map kit (kernel_of cs X) ↔ ∃ p d, has ng cs (p, d) ∧ item_next ng (p, d) = Some X ∧ i = (p, d + 1).
Proof using Hng.
  intros Hok. unfold kernel_of. rewrite list_elem_of_fmap. split.
  - intros (ki & -> & Hki). apply list_elem_of_fmap in Hki as (ce & -> & [Hn Hce]%list_elem_of_filter).
    exists (entry_prodIdx ce), (entry_dot ce). split_and!; [by apply has_unpacked|done|done].
  - intros (p & d & [Hi Hp] & Hn & ->). exists (mkCoreItem p (d + 1)). split; [done|]. apply list_elem_of_fmap.
    exists (packed (p, d)). unfold entries_ok in Hok. rewrite list.Forall_forall in Hok. destruct (Hok _ Hp) as [_ E].
    destruct (item_ok_range ng Hng _ Hi) as [H1 H2]. cbn [fst snd] in *. pose proof (unpack_pack p d H1 H2) as Eu.
    split; [|apply list_elem_of_filter; by rewrite Eu]. unfold advanced. unfold unpacked in Eu. injection Eu as -> ->. done.
Qed.

Lemma kernel_of_ok cs X : entries_ok ng cs → NoDup cs →
  Forall (λ ki, item_ok ng (kit ki)) (kernel_of cs X) ∧ NoDup (map kit (kernel_of cs X)).
Proof using Hng.
  intros Hok Hnd. split.
  - apply list.Forall_forall. intros ki Hki. assert (kit ki ∈ map kit (kernel_of cs X)) as Hin by (apply list_elem_of_fmap; eauto).
    apply kernel_of_elem in Hin as (p & d & _ & Hn & ->); [|done]. by apply (item_next_ok ng Hng p d X).
  - unfold kernel_of. rewrite map_map. apply NoDup_fmap_2_strong; [|by apply NoDup_filter].
    intros x y [_ Hx]%list_elem_of_filter [_ Hy]%list_elem_of_filter. unfold advanced, kit. cbn. intros [= E1 E2].
    unfold entries_ok in Hok. rewrite list.Forall_forall in Hok. rewrite <-(proj2 (Hok x Hx)), <-(proj2 (Hok y Hy)).
    unfold unpacked. f_equal. f_equal; lia.
Qed.
End kernels.
