(* ===== verification/Lr0Correct.v ===== *)
(** * The automaton is the set of valid items

    [buildLR0] returns within its fuel the automaton whose state after a prefix
    holds exactly the items that are valid for the prefix. *)

From Stdlib Require Import ZArith Lia ZifyBool.
From stdpp Require Import base tactics list numbers option relations gmap sorting.
From S2P Require Import Prelude SliceSort LrGrammar LrFirst Lr0 Lr0Closure Lr0Kernels.
Local Open Scope Z_scope.

(** ** Valid items *)

(** The item is valid for the prefix: from the start item, dots move over the
    symbols of the prefix, and a nonterminal after a dot brings in its productions. *)
Inductive valid_item (ng : NormalizedGrammar) : list Z → item → Prop :=
| valid_start : valid_item ng [] (AugmentProdID ng, 0)
| valid_expand g i B q p : valid_item ng g i → item_next ng i = Some B → TokenCount ng ≤ B →
    zget (Productions ng) q = Some p → LHS p = B → valid_item ng g (q, 0)
| valid_shift g p d X : valid_item ng g (p, d) → item_next ng (p, d) = Some X → valid_item ng (g ++ [X]) (p, d + 1).

Section valid.
Context (ng : NormalizedGrammar).

Lemma valid_nil i : valid_item ng [] i ↔ closes ng (λ k, k = (AugmentProdID ng, 0)) i.
Proof using.
  split.
  - remember [] as g eqn:Hg. induction 1 as [|g i B q p _ IH Hn HB Hq Hl|g p d X _ _ _]; [by constructor|by eapply closes_expand; [apply IH|..]|].
    by destruct g.
  - induction 1 as [i ->|i B q p _ IH Hn HB Hq Hl]; [constructor|by eapply valid_expand].
Qed.

(** The kernel of the successor. *)
Definition shifted (S : item → Prop) (X : Z) (k : item) : Prop :=
  ∃ p d, S (p, d) ∧ item_next ng (p, d) = Some X ∧ k = (p, d + 1).

Lemma valid_snoc g X i : valid_item ng (g ++ [X]) i ↔ closes ng (shifted (valid_item ng g) X) i.
Proof using.
  split.
  - remember (g ++ [X]) as h eqn:Hh. induction 1 as [|h i B q p _ IH Hn HB Hq Hl|h p d Y Hv _ Hn]; [by destruct g|by eapply closes_expand; [apply IH|..]|].
    apply app_inj_tail in Hh as [-> ->]. constructor. by exists p, d.
  - induction 1 as [i (p & d & Hv & Hn & ->)|i B q p _ IH Hn HB Hq Hl]; [by constructor|by eapply valid_expand].
Qed.

Lemma closes_ext K K' i : (∀ k, K k ↔ K' k) → closes ng K i ↔ closes ng K' i.
Proof using.
  intros HK. split; (induction 1 as [i Hi|i B q p _ IH Hn HB Hq Hl]; [constructor; by apply HK|by eapply closes_expand]).
Qed.

Lemma shifted_ext S S' X k : (∀ i, S i ↔ S' i) → shifted S X k ↔ shifted S' X k.
Proof using. intros HS. unfold shifted. by setoid_rewrite HS. Qed.
End valid.

(** ** Rows of transitions *)

Section rows.

Lemma transitionRow_ensure ts state j : 0 ≤ state → transitionRow (ensureTransitionState ts state) j = transitionRow ts j.
Proof using.
  intros Hs. unfold transitionRow, ensureTransitionState. destruct (Z.ltb_spec state (len ts)); [done|].
  destruct (decide (j < len ts)) as [Hj|Hj]; [by rewrite zget_app_l|]. rewrite zget_app_r by lia.
  rewrite (proj2 (zget_None ts j)) by lia. destruct (zget (make _ _) _) as [row|] eqn:E; [|done].
  apply zget_elem, elem_of_replicate in E as [-> _]. done.
Qed.

Lemma addTransition_spec ts state sym target : 0 ≤ state →
  ∃ ts', lr_addTransition ts state sym target = Ret ts' ∧
    ∀ j, transitionRow ts' j = if decide (j = state) then set_target (transitionRow ts state) sym target else transitionRow ts j.
Proof using.
  intros Hs. unfold lr_addTransition. set (ts1 := ensureTransitionState ts state).
  assert (state < len ts1) as Hl.
  { unfold ts1, ensureTransitionState. destruct (Z.ltb_spec state (len ts)); [done|]. rewrite len_app, len_make by lia. lia. }
  destruct (index_in_range ts1 state) as (row & -> & Hrow); [lia|]. cbn [mbind go_bind]. rewrite store_ok by lia.
  eexists. split; [done|]. intros j. assert (row = transitionRow ts state) as ->.
  { rewrite <-(transitionRow_ensure ts state state Hs). unfold transitionRow. fold ts1. by rewrite Hrow. }
  destruct (decide (j = state)) as [->|Hne].
  - unfold transitionRow at 1. by rewrite zget_insert_eq by lia.
  - unfold transitionRow at 1. rewrite zget_insert_ne by lia. by rewrite <-(transitionRow_ensure ts state j Hs).
Qed.

Lemma set_target_new row sym target : 0 ≤ sym < 2 ^ 32 → sym ∉ map ltSym row →
  set_target row sym target = row ++ [mkLrTransition sym (u32 target)].
Proof using.
  intros Hs. induction row as [|t row IH]; cbn [set_target map app]; [by rewrite u32_id|].
  rewrite not_elem_of_cons. intros [Hne Hnot]. replace (ltSym t =? sym) with false by lia. by rewrite IH.
Qed.

Context `{SliceSort}.

Lemma sort_row row : NoDup (map ltSym row) → increasing (map ltSym (sort_slice (λ a b, ltSym a <? ltSym b) row)).
Proof using.
  intros Hnd. pose proof (sort_slice_perm _ (λ a b, ltSym a <? ltSym b) row) as Hp.
  assert (NoDup (map ltSym (sort_slice (λ a b, ltSym a <? ltSym b) row))) as Hnd' by (by rewrite (fmap_Permutation ltSym _ _ Hp)).
  pose proof (sort_slice_sorted _ _ row (strict_weak_key ltSym)) as Hs. clear Hp. revert Hs Hnd'.
  generalize (sort_slice (λ a b, ltSym a <? ltSym b) row) as l. induction 1 as [|x l _ IH Hx]; cbn [map]; [constructor|].
  intros [Hnx Hnd']%NoDup_cons. constructor; [by apply IH|]. apply list.Forall_forall. intros k (y & -> & Hy)%list_elem_of_fmap.
  rewrite list.Forall_forall in Hx. specialize (Hx y Hy). assert (ltSym x ≠ ltSym y); [|lia].
  intros E. apply Hnx. rewrite E. apply list_elem_of_fmap. eauto.
Qed.

Lemma sortStateTransitions_spec ts state : NoDup (map ltSym (transitionRow ts state)) →
  ∃ ts', sortStateTransitions ts state = Ret ts' ∧
    increasing (map ltSym (transitionRow ts' state)) ∧ (transitionRow ts' state ≡ₚ transitionRow ts state) ∧
    ∀ j, j ≠ state → transitionRow ts' j = transitionRow ts j.
Proof using.
  intros Hnd. unfold sortStateTransitions. destruct (zget ts state) as [row|] eqn:Hrow.
  2: { exists ts. unfold transitionRow. rewrite Hrow. split_and!; [done|constructor|done|done]. }
  pose proof (zget_Some_range _ _ _ Hrow) as Hs. assert (transitionRow ts state = row) as E by (unfold transitionRow; by rewrite Hrow).
  rewrite E in Hnd |- *. destruct (Z.ltb_spec (len row) 2) as [Hl|Hl].
  - exists ts. rewrite E. split_and!; [done| |done|done]. destruct row as [|t [|t' row]]; [constructor|repeat constructor|].
    rewrite !len_cons in Hl. pose proof (len_nonneg row). lia.
  - rewrite store_ok by lia. eexists. split; [done|]. unfold transitionRow. rewrite zget_insert_eq by lia.
    split_and!; [by apply sort_row|apply sort_slice_perm|]. intros j Hj. by rewrite zget_insert_ne by lia.
Qed.

(** The binary search finds the target of a symbol. *)
Lemma transitionTarget_spec ts state sym : 0 ≤ sym < 2 ^ 32 → increasing (map ltSym (transitionRow ts state)) →
  (∃ t, mkLrTransition sym t ∈ transitionRow ts state ∧ transitionTarget ts state sym = Ret (t, true)) ∨
  ((sym ∉ map ltSym (transitionRow ts state)) ∧ transitionTarget ts state sym = Ret (0, false)).
Proof using.
  intros Hsym Hinc. unfold transitionTarget. rewrite u32_id by done. set (row := transitionRow ts state) in *.
  destruct (Z.eqb_spec (len row) 0) as [E|Hne].
  { right. destruct row; [split; [apply not_elem_of_nil|done]|]. rewrite len_cons in E. pose proof (len_nonneg row). lia. }
  rewrite (below_search ltSym row sym Hinc).
  2: { intros h t Ht. rewrite (proj2 (index_Ret _ _ _) Ht). cbn. f_equal. lia. }
  cbn [mbind go_bind]. pose proof (below_range ltSym row sym) as Hr.
  destruct (below_find ltSym row sym Hinc) as [(t & Ht & E)|[Hno Hne']].
  - left. exists (ltTarget t). pose proof (zget_Some_range _ _ _ Ht). replace (_ <? _) with true by lia.
    rewrite (proj2 (index_Ret _ _ _) Ht). cbn [mbind go_bind]. rewrite E, Z.eqb_refl.
    split; [|done]. rewrite <-E. destruct t. by eapply zget_elem.
  - right. split; [done|]. destruct (Z.ltb_spec (below ltSym row sym) (len row)) as [Hlt|]; [|done].
    destruct (index_in_range row (below ltSym row sym)) as (t & -> & Ht); [lia|]. cbn [mbind go_bind].
    specialize (Hne' t Ht). by replace (ltSym t =? sym) with false by lia.
Qed.
End rows.

(** ** The invariant *)

Section automaton.
Context `{SliceSort} (ng : NormalizedGrammar) (Hng : lr0_grammar ng).

(** [T] is the successor of [S] on [X]. *)
Definition goto_set (S : list Z) (X : Z) (T : list Z) : Prop :=
  ∀ i, has ng T i ↔ closes ng (shifted ng (has ng S) X) i.

(** Some item of [S] has [X] after its dot. *)
Definition reads_symbol (S : list Z) (X : Z) : Prop := ∃ i, has ng S i ∧ item_next ng i = Some X.

(** The transitions of a row lead to successors; targets are stored in 32 bits. *)
Definition row_targets (sets : list lr0ItemSet) (S : list Z) (row : lrTransitionRow) : Prop :=
  ∀ X t, mkLrTransition X t ∈ row → ∃ j T, t = u32 j ∧ zget sets j = Some T ∧ goto_set S X (cores T).

Definition row_done (sets : list lr0ItemSet) (S : list Z) (row : lrTransitionRow) : Prop :=
  increasing (map ltSym row) ∧ row_targets sets S row ∧ ∀ X, X ∈ map ltSym row ↔ reads_symbol S X.

(** The items are those valid for some prefix. *)
Definition of_prefix (cs : list Z) : Prop :=
  ∃ g, (∃ i, valid_item ng g i) ∧ ∀ i, has ng cs i ↔ valid_item ng g i.

Record sets_inv (ctx : lr0ctx) : Prop := {
  li_set j T : zget (lalrLR0ItemSets ctx) j = Some T →
    core_set ng (cores T) ∧ coreHash T = cores_hash (cores T) ∧ annotationArgTag T = 0 ∧ of_prefix (cores T);
  li_nodup : NoDup (map cores (lalrLR0ItemSets ctx));
  li_map h j : j ∈ default [] (coreMap ctx !! h) ↔ ∃ T, zget (lalrLR0ItemSets ctx) j = Some T ∧ coreHash T = h;
  li_first : ∃ T, zget (lalrLR0ItemSets ctx) 0 = Some T ∧ ∀ i, has ng (cores T) i ↔ valid_item ng [] i;
  li_budget : lalrLR0StateBudgetExceeded ctx = false ∧ lalrLR0CoreBudgetExceeded ctx = false }.

(** The rows before [k] are finished, those from [k] on are empty. *)
Record rows_inv (k : Z) (ctx : lr0ctx) : Prop := {
  ri_range : 0 ≤ k ≤ len (lalrLR0ItemSets ctx);
  ri_done j T : 0 ≤ j < k → zget (lalrLR0ItemSets ctx) j = Some T →
    row_done (lalrLR0ItemSets ctx) (cores T) (transitionRow (transitions ctx) j);
  ri_empty j : k ≤ j → transitionRow (transitions ctx) j = [] }.

(** Row [k] has the transitions of the symbols of [ds]. *)
Record part_inv (k : Z) (S ds : list Z) (ctx : lr0ctx) : Prop := {
  pi_sets : sets_inv ctx;
  pi_set : ∃ T, zget (lalrLR0ItemSets ctx) k = Some T ∧ cores T = S;
  pi_done j T : 0 ≤ j < k → zget (lalrLR0ItemSets ctx) j = Some T →
    row_done (lalrLR0ItemSets ctx) (cores T) (transitionRow (transitions ctx) j);
  pi_syms : map ltSym (transitionRow (transitions ctx) k) = ds;
  pi_row : row_targets (lalrLR0ItemSets ctx) S (transitionRow (transitions ctx) k);
  pi_empty j : k < j → transitionRow (transitions ctx) j = [] }.

Lemma row_targets_snoc sets T S row : row_targets sets S row → row_targets (sets ++ [T]) S row.
Proof using.
  intros Hr X t Ht. destruct (Hr X t Ht) as (j & T' & -> & HT & Hg). exists j, T'. split_and!; [done|by apply zget_app_Some|done].
Qed.

Lemma row_done_snoc sets T S row : row_done sets S row → row_done (sets ++ [T]) S row.
Proof using. intros (? & ? & ?). split_and!; [done|by apply row_targets_snoc|done]. Qed.

(** ** Finding or adding a state *)

Lemma find_state_none sets chain closedSet : (∀ j, j ∈ chain → is_Some (zget sets j)) →
  (∃ j T, find_lr0_state sets chain closedSet = Ret j ∧ zget sets j = Some T ∧ cores T = cores closedSet) ∨
  (find_lr0_state sets chain closedSet = Ret (-1) ∧
   ∀ j T, j ∈ chain → zget sets j = Some T → annotationArgTag T = annotationArgTag closedSet → cores T ≠ cores closedSet).
Proof using.
  induction chain as [|j chain IH]; intros Hc; cbn [find_lr0_state].
  { right. split; [done|]. by intros j T ?%elem_of_nil. }
  destruct (Hc j ltac:(left)) as [T HT]. rewrite (proj2 (index_Ret _ _ _) HT). cbn [mbind go_bind].
  unfold sameAnnotationArgTagLR0, sameSortedLR0CoreEntries.
  destruct (Z.eqb_spec (annotationArgTag T) (annotationArgTag closedSet)) as [Et|Et]; cbn [andb].
  1: destruct (bool_decide_reflect (cores T = cores closedSet)) as [E|Hne]; [left; by exists j, T|].
  all: destruct (IH (λ j' Hj', Hc j' ltac:(by right))) as [?|[Hr Hno]]; [by left|right; split; [done|]].
  all: intros j' T' [->|Hj']%elem_of_cons HT' Ht'; [simplify_eq; done|by eapply Hno].
Qed.

Lemma add_state_inv ctx T : sets_inv ctx → core_set ng (cores T) → coreHash T = cores_hash (cores T) → annotationArgTag T = 0 →
  of_prefix (cores T) → cores T ∉ map cores (lalrLR0ItemSets ctx) →
  ∃ ctx', append_state 0 0 ctx T = (ctx', false) ∧ sets_inv ctx' ∧ lalrLR0ItemSets ctx' = lalrLR0ItemSets ctx ++ [T] ∧
    transitions ctx' = transitions ctx.
Proof using.
  intros [Hs Hnd Hm Hf Hfl] Hset Hh Ht Hg Hnew. unfold append_state. cbn [Z.ltb Z.compare andb orb negb].
  eexists. split_and!; [done|split; cbn [lalrLR0ItemSets coreMap]|done|done].
  - intros j U [HU|[-> ->]]%zget_snoc; [by eapply Hs|done].
  - rewrite map_app. apply NoDup_app. split_and!; [done|by intros x Hx ->%list_elem_of_singleton|apply NoDup_singleton].
  - intros h j. unfold addToHashMap. rewrite lookup_insert. case_decide as E; cbn.
    + rewrite elem_of_cons, Hm. subst h. split.
      * intros [->|(U & HU & EU)]; [exists T; by rewrite zget_last|]. exists U. split; [by apply zget_app_Some|done].
      * intros (U & [HU|[-> ->]]%zget_snoc & EU); [right; by exists U|by left].
    + rewrite Hm. split.
      * intros (U & HU & EU). exists U. split; [by apply zget_app_Some|done].
      * intros (U & [HU|[-> ->]]%zget_snoc & EU); [by exists U|done].
  - destruct Hf as (U & HU & Hv). exists U. split; [by apply zget_app_Some|done].
  - cbn. by rewrite !orb_false_r.
Qed.

(** ** One successor *)

Lemma reads_range S X : reads_symbol S X → 0 ≤ X < 2 ^ 32.
Proof using Hng.
  intros ([p d] & _ & Hn). destruct (item_next_ok ng Hng _ _ _ Hn) as (_ & _ & Hr). pose proof (lg_syms _ Hng). lia.
Qed.

Lemma reads_kernel S X : entries_ok ng S → reads_symbol S X ↔ kernel_of ng S X ≠ [].
Proof using Hng.
  intros Hok. split.
  - intros ([p d] & Hh & Hn) E. assert ((p, d + 1) ∈ map kit (kernel_of ng S X)) as Hin by (apply kernel_of_elem; [done..|by exists p, d]).
    rewrite E in Hin. by apply elem_of_nil in Hin.
  - intros Hne. destruct (kernel_of ng S X) as [|ki l] eqn:E; [done|].
    assert (kit ki ∈ map kit (kernel_of ng S X)) as Hin by (rewrite E; left).
    apply kernel_of_elem in Hin as (p & d & Hh & Hn & _); [by exists (p, d)|done..].
Qed.

(** Entering the transition to a successor. *)
Lemma enter_transition k S ds ctx X j T : part_inv k S ds ctx → reads_symbol S X → X ∉ ds → 0 ≤ k →
  zget (lalrLR0ItemSets ctx) j = Some T → goto_set S X (cores T) →
  ∃ ts, lr_addTransition (transitions ctx) k X j = Ret ts ∧ part_inv k S (ds ++ [X]) (with_transitions ctx ts).
Proof using Hng.
  intros Hp HX Hnd Hk Hj Hg. destruct (addTransition_spec (transitions ctx) k X j Hk) as (ts & -> & Hts). exists ts. split; [done|].
  pose proof (Hts k) as Hk'. rewrite decide_True in Hk' by done.
  rewrite set_target_new in Hk' by first [by eapply reads_range | by rewrite (pi_syms _ _ _ _ Hp)].
  destruct Hp as [A B C D E F]. split; cbn [with_transitions lalrLR0ItemSets transitions].
  - destruct A as [A1 A2 A3 A4 A5]. by split.
  - done.
  - intros j' T' Hj' HT'. rewrite Hts, decide_False by lia. by apply C.
  - by rewrite Hk', map_app, D.
  - rewrite Hk'. intros Y t [Ht|Ht]%elem_of_app; [by apply E|]. apply list_elem_of_singleton in Ht. injection Ht as -> ->. by exists j, T.
  - intros j' Hj'. rewrite Hts, decide_False by lia. by apply F.
Qed.

Lemma goto_symbol_spec seeds k S ds ctx X : seeds_ok ng seeds → part_inv k S ds ctx → 0 ≤ k → reads_symbol S X → X ∉ ds →
  ∃ ctx', goto_symbol ng seeds 0 0 k X (kernel_of ng S X) ctx = Ret (ctx', false) ∧ part_inv k S (ds ++ [X]) ctx'.
Proof using Hng.
  intros Hseeds Hp Hk HX Hds. destruct (pi_set _ _ _ _ Hp) as (Tk & HTk & ES).
  destruct (li_set _ (pi_sets _ _ _ _ Hp) k Tk HTk) as (Hset & _ & _ & g & _ & Hg). rewrite ES in Hset, Hg.
  pose proof (proj1 (reads_kernel S X (proj1 Hset)) HX) as Hne.
  unfold goto_symbol. replace (len (kernel_of ng S X) =? 0) with false by (destruct (kernel_of ng S X); [done|unfold len; cbn; lia]).
  destruct (kernel_of_ok ng Hng S X (proj1 Hset) (core_set_NoDup ng S Hset)) as [Hkok Hknd].
  destruct (lr0Closure_spec ng Hng seeds (kernel_of ng S X) Hseeds Hkok Hknd) as (cs & -> & Hcs & Hin). cbn [mbind go_bind].
  set (T := mkLr0ItemSet cs (cores_hash cs) 0).
  assert (goto_set S X (cores T)) as Hgoto.
  { intros i. cbn. rewrite Hin. apply closes_ext. intros i'. apply (kernel_of_elem ng Hng S X i' (proj1 Hset)). }
  assert (∀ i, has ng cs i ↔ valid_item ng (g ++ [X]) i) as Hvalid.
  { intros i. change cs with (cores T). rewrite (Hgoto i), valid_snoc. apply closes_ext. intros i'. by apply shifted_ext. }
  change (coreHash T) with (cores_hash cs). pose proof (li_map _ (pi_sets _ _ _ _ Hp) (cores_hash cs)) as Hmap.
  destruct (find_state_none (lalrLR0ItemSets ctx) (default [] (coreMap ctx !! cores_hash cs)) T) as [(j & U & -> & HU & EU)|[-> Hno]].
  { intros j (U & -> & _)%Hmap. done. }
  - cbn [mbind go_bind]. replace (j <? 0) with false by (apply zget_Some_range in HU; lia).
    destruct (enter_transition k S ds ctx X j U Hp HX Hds Hk HU) as (ts & -> & Hp'); [by rewrite EU|]. eauto.
  - cbn [mbind go_bind]. change (-1 <? 0) with true. cbn match.
    destruct (add_state_inv ctx T (pi_sets _ _ _ _ Hp) Hcs eq_refl eq_refl) as (ctx1 & -> & Hs1 & Es1 & Et1);
      [exists (g ++ [X]); split; [|exact Hvalid]; destruct HX as ([p d] & Hh & Hn); exists (p, d + 1); constructor; [by apply Hg|done]| |].
    { intros (U & EU & (j & _ & HU)%elem_zget)%list_elem_of_fmap. destruct (li_set _ (pi_sets _ _ _ _ Hp) j U HU) as (_ & Hh & Ht & _).
      apply (Hno j U); [|done|done|done]. apply Hmap. exists U. split; [done|]. by rewrite Hh, <-EU. }
    assert (part_inv k S ds ctx1) as Hp1.
    { destruct Hp as [A B C D E F]. split; rewrite ?Es1, ?Et1; [done| | |done|by apply row_targets_snoc|done].
      - destruct B as (U & HU & EU). exists U. split; [by apply zget_app_Some|done].
      - intros j U Hj [HU|[-> ->]]%zget_snoc; [by apply row_done_snoc, C|]. destruct B as (V & HV%zget_Some_range & _). lia. }
    destruct (enter_transition k S ds ctx1 X (len (lalrLR0ItemSets ctx)) T Hp1 HX Hds Hk) as (ts & -> & Hp'); [rewrite Es1; apply zget_last|done|]. eauto.
Qed.

(** ** One state *)

Lemma goto_loop_spec seeds k S offsets ends scratch all rest ds ctx : seeds_ok ng seeds → 0 ≤ k → part_inv k S ds ctx →
  all = ds ++ rest → NoDup all → (∀ X, X ∈ all → reads_symbol S X) →
  (∀ b X, zget all b = Some X → ∃ lo hi, zget offsets b = Some lo ∧ zget ends b = Some hi ∧ gslice scratch lo hi = Ret (kernel_of ng S X)) →
  ∃ ctx', goto_loop ng seeds 0 0 k (len ds) rest offsets ends scratch ctx = Ret (ctx', false) ∧ part_inv k S all ctx'.
Proof using Hng.
  intros Hseeds Hk. revert ds ctx. induction rest as [|X rest IH]; intros ds ctx Hp Eall Hnd Hreads Hker; cbn [goto_loop].
  { rewrite app_nil_r in Eall. subst. eauto. }
  destruct (Hker (len ds) X) as (lo & hi & Hlo & Hhi & Hsl).
  { rewrite Eall, zget_app_r by lia. by rewrite Z.sub_diag. }
  rewrite (proj2 (index_Ret _ _ _) Hlo). cbn [mbind go_bind]. rewrite (proj2 (index_Ret _ _ _) Hhi). cbn [mbind go_bind].
  rewrite Hsl. cbn [mbind go_bind].
  destruct (goto_symbol_spec seeds k S ds ctx X Hseeds Hp Hk) as (ctx1 & -> & Hp1).
  { apply Hreads. rewrite Eall. apply elem_of_app. right. left. }
  { rewrite Eall in Hnd. apply NoDup_app in Hnd as (_ & Hdis & _). intros Hin. apply (Hdis X Hin). left. }
  cbn [mbind go_bind]. replace (len ds + 1) with (len (ds ++ [X])) by (by rewrite len_app).
  apply IH; [done|by rewrite <-app_assoc|done..].
Qed.

Lemma expand_state_spec seeds k ctx : seeds_ok ng seeds → sets_inv ctx → rows_inv k ctx → k < len (lalrLR0ItemSets ctx) →
  ∃ ctx', expand_lr0_state ng seeds 0 0 k ctx = Ret (ctx', false) ∧ sets_inv ctx' ∧ rows_inv (k + 1) ctx'.
Proof using Hng.
  intros Hseeds Hs [Hk Hdone Hempty] Hlt. unfold expand_lr0_state.
  destruct (index_in_range (lalrLR0ItemSets ctx) k) as (T & -> & HT); [lia|]. cbn [mbind go_bind].
  destruct (li_set _ Hs k T HT) as ([Hok Hinc] & _).
  destruct (collect_all ng Hng (cores T) Hok) as (bucketIdx & syms & counts & -> & Hco). cbn [mbind go_bind].
  destruct (bucket_offsets counts 0) as [offsets total] eqn:Hoff.
  destruct (kernels_spec ng Hng (cores T) bucketIdx syms counts offsets total Hok Hco Hoff) as (ends & scratch & -> & _ & _ & Hker).
  cbn [mbind go_bind].
  assert (∀ X, X ∈ syms ↔ reads_symbol (cores T) X) as Hsyms.
  { intros X. rewrite (co_syms _ _ _ _ _ Hco), reads_kernel; done. }
  destruct (goto_loop_spec seeds k (cores T) offsets ends scratch syms syms [] ctx Hseeds ltac:(lia)) as (ctx1 & Hrun & Hp1);
    [|done|apply Hco|by intros X ?%Hsyms|done|].
  { split; [done|by exists T|intros j U Hj HU; apply Hdone; [lia|done]|by rewrite Hempty by lia| |intros j Hj; apply Hempty; lia].
    rewrite Hempty by lia. by intros X t ?%elem_of_nil. }
  change (len (@nil Z)) with 0 in Hrun. rewrite Hrun. cbn [mbind go_bind].
  destruct (sortStateTransitions_spec (transitions ctx1) k) as (ts & -> & Hinc' & Hperm & Hoth).
  { rewrite (pi_syms _ _ _ _ Hp1). apply Hco. }
  cbn [mbind go_bind]. eexists. split; [done|]. destruct Hp1 as [A B C D E F]. destruct B as (Tk & HTk & ET). split.
  { destruct A as [A1 A2 A3 A4 A5]. by split. }
  split; cbn [with_transitions lalrLR0ItemSets transitions].
  - apply zget_Some_range in HTk. lia.
  - intros j U Hj HU. destruct (decide (j = k)) as [->|Hne]; [|rewrite Hoth by done; apply C; [lia|done]].
    assert (U = Tk) as -> by congruence. rewrite ET. split_and!; [done| |].
    + intros X t. rewrite Hperm. apply E.
    + intros X. rewrite <-Hsyms, <-D. by rewrite (fmap_Permutation ltSym _ _ Hperm).
  - intros j Hj. rewrite Hoth by lia. apply F. lia.
Qed.

(** ** How many states there are *)

Fixpoint item_keys (i : Z) (prods : list Production) : list Z :=
  match prods with
  | [] => []
  | p :: prods => map (λ d, i * 256 + d) (seqZ 0 (len (RHS p) + 1)) ++ item_keys (i + 1) prods
  end.

(** The number of items of the grammar. *)
Definition item_count : nat := total_of (λ p, S (length (RHS p))) (Productions ng).

Lemma item_keys_elem i prods k : k ∈ item_keys i prods ↔
  ∃ q d p, zget prods (q - i) = Some p ∧ 0 ≤ d ≤ len (RHS p) ∧ k = q * 256 + d.
Proof using.
  revert i. induction prods as [|p prods IH]; intros i; cbn [item_keys].
  { split; [by intros ?%elem_of_nil|]. intros (q & d & p & Hp & _). by rewrite zget_nil in Hp. }
  rewrite elem_of_app, list_elem_of_fmap, IH. split.
  - intros [(d & -> & Hd%elem_of_seqZ)|(q & d & p' & Hp' & Hd & ->)].
    + exists i, d, p. rewrite Z.sub_diag. split_and!; [done|lia|lia|done].
    + exists q, d, p'. pose proof (zget_Some_range _ _ _ Hp'). rewrite zget_cons_ne by lia.
      replace (q - i - 1) with (q - (i + 1)) by lia. by repeat (split; [done|]).
  - intros (q & d & p' & Hp' & Hd & ->). destruct (decide (q = i)) as [->|Hne].
    + rewrite Z.sub_diag in Hp'. injection Hp' as <-. left. exists d. split; [done|]. apply elem_of_seqZ. lia.
    + right. exists q, d, p'. rewrite zget_cons_ne in Hp' by lia. replace (q - (i + 1)) with (q - i - 1) by lia. by repeat (split; [done|]).
Qed.

Lemma item_keys_length i prods : length (item_keys i prods) = total_of (λ p, S (length (RHS p))) prods.
Proof using.
  revert i. induction prods as [|p prods IH]; intros i; cbn [item_keys]; [done|].
  rewrite length_app, length_map, length_seqZ, IH. unfold total_of, len. cbn [sum_list_with]. lia.
Qed.

Lemma item_keys_increasing i prods : (∀ p, p ∈ prods → len (RHS p) ≤ 255) → increasing (item_keys i prods).
Proof using.
  revert i. induction prods as [|p prods IH]; intros i Hr; cbn [item_keys]; [constructor|].
  pose proof (Hr p ltac:(left)) as Hp. specialize (IH (i + 1) (λ q Hq, Hr q ltac:(by right))).
  assert (increasing (map (λ d, i * 256 + d) (seqZ 0 (len (RHS p) + 1)))) as Hinc.
  { pose proof (increasing_seqZ 0 (len (RHS p) + 1)) as Hs. revert Hs. generalize (seqZ 0 (len (RHS p) + 1)) as l.
    induction 1 as [|x l _ IHl Hx]; cbn; constructor; [done|]. apply list.Forall_forall. intros y (z & -> & Hz)%list_elem_of_fmap.
    rewrite list.Forall_forall in Hx. specialize (Hx z Hz). lia. }
  assert (∀ x y, x ∈ map (λ d, i * 256 + d) (seqZ 0 (len (RHS p) + 1)) → y ∈ item_keys (i + 1) prods → x < y) as Hlt.
  { intros x y (d & -> & Hd%elem_of_seqZ)%list_elem_of_fmap (q & e & p' & Hp' & He & ->)%item_keys_elem.
    apply zget_Some_range in Hp'. lia. }
  revert Hinc Hlt. generalize (map (λ d, i * 256 + d) (seqZ 0 (len (RHS p) + 1))) as l.
  induction 1 as [|x l _ IHl Hx]; intros Hlt; cbn [app]; [done|]. constructor; [apply IHl; intros; apply Hlt; [by right|done]|].
  apply Forall_app. split; [done|]. apply list.Forall_forall. intros y Hy. apply Hlt; [left|done].
Qed.

Lemma set_keys cs : core_set ng cs → map ekey cs ∈ sublists (item_keys 0 (Productions ng)).
Proof using Hng.
  intros [Hok Hinc]. rewrite (increasing_ext (map ekey cs) (filter (λ k, k ∈ map ekey cs) (item_keys 0 (Productions ng)))).
  - apply filter_sublists.
  - done.
  - apply filter_StronglySorted, item_keys_increasing, Hng.
  - intros k. rewrite list_elem_of_filter. split; [|by intros [? _]]. intros Hk. split; [done|].
    apply list_elem_of_fmap in Hk as (ce & -> & Hce). unfold entries_ok in Hok. rewrite list.Forall_forall in Hok.
    destruct (Hok ce Hce) as [(p & Hp & Hd) _]. apply item_keys_elem. exists (entry_prodIdx ce), (entry_dot ce), p.
    rewrite Z.sub_0_r. by repeat (split; [done|]).
Qed.

Lemma lr0_sets_bound ctx : sets_inv ctx → (length (lalrLR0ItemSets ctx) ≤ 2 ^ item_count)%nat.
Proof using Hng.
  intros Hs. unfold item_count. rewrite <-(item_keys_length 0), <-length_sublists.
  rewrite <-(length_map (λ T, map ekey (cores T)) (lalrLR0ItemSets ctx)). apply submseteq_length, NoDup_submseteq.
  - rewrite <-(map_map cores (map ekey)). apply NoDup_fmap_2_strong; [|apply Hs].
    intros x y (T & -> & (i & _ & HT)%elem_zget)%list_elem_of_fmap (U & -> & (j & _ & HU)%elem_zget)%list_elem_of_fmap E.
    destruct (li_set _ Hs i T HT) as ([HT1 _] & _). destruct (li_set _ Hs j U HU) as ([HU1 _] & _).
    by apply (entries_keys_inj ng).
  - intros x (T & -> & (i & _ & HT)%elem_zget)%list_elem_of_fmap. apply set_keys. by apply (li_set _ Hs i T HT).
Qed.

(** ** The whole construction *)

Lemma lr0_loop_spec seeds fuel k ctx : seeds_ok ng seeds → sets_inv ctx → rows_inv k ctx →
  (2 ^ item_count ≤ fuel + Z.to_nat k)%nat →
  ∃ ctx', lr0_loop ng seeds 0 0 (λ _, false) fuel k ctx = Ret ctx' ∧ sets_inv ctx' ∧ rows_inv (len (lalrLR0ItemSets ctx')) ctx'.
Proof using Hng.
  intros Hseeds. revert k ctx. induction fuel as [|fuel IH]; intros k ctx Hs Hr Hf; cbn [lr0_loop];
    pose proof (ri_range _ _ Hr) as Hk; pose proof (lr0_sets_bound ctx Hs) as Hb; destruct (Z.ltb_spec k (len (lalrLR0ItemSets ctx))) as [Hlt|Hge];
    try (exists ctx; assert (k = len (lalrLR0ItemSets ctx)) as <- by lia; done); [unfold len in *; lia|].
  rewrite andb_false_r. destruct (expand_state_spec seeds k ctx Hseeds Hs Hr Hlt) as (ctx1 & -> & Hs1 & Hr1). cbn [mbind go_bind].
  apply IH; [done|done|lia].
Qed.

Lemma buildLR0_inv fuel : (2 ^ item_count ≤ fuel)%nat →
  ∃ ctx, buildLR0 ng 0 0 (λ _, false) fuel = Ret ctx ∧ sets_inv ctx ∧ rows_inv (len (lalrLR0ItemSets ctx)) ctx.
Proof using Hng.
  intros Hf. unfold buildLR0. destruct (seeds_spec ng Hng) as (seeds & -> & Hseeds). cbn [mbind go_bind].
  destruct (zget_in_range (Productions ng) (AugmentProdID ng) (lg_augment _ Hng)) as [p Hp].
  destruct (lr0Closure_spec ng Hng seeds [mkCoreItem (AugmentProdID ng) 0] Hseeds) as (cs & -> & Hcs & Hin).
  { apply Forall_singleton. by eapply item_ok_zero. } { apply NoDup_singleton. }
  cbn [mbind go_bind]. unfold append_state. cbn [Z.ltb Z.compare andb orb negb lalrLR0ItemSets transitions coreMap].
  assert (∀ i, has ng cs i ↔ valid_item ng [] i) as Hv.
  { intros i. rewrite Hin, valid_nil. apply closes_ext. intros k. cbn. by rewrite list_elem_of_singleton. }
  apply lr0_loop_spec; [done| | |lia].
  - split; cbn [lalrLR0ItemSets coreMap app].
    + intros j T HT. apply (zget_snoc []) in HT as [HT|[-> ->]]; [by rewrite zget_nil in HT|]. cbn. split_and!; [done..|exists []; split; [eexists; apply valid_start|done]].
    + apply NoDup_singleton.
    + intros h j. unfold addToHashMap. rewrite lookup_empty. cbn [default coreHash]. rewrite lookup_insert, lookup_empty. case_decide as E; cbn.
      * rewrite list_elem_of_singleton. split; [intros ->; by eexists|].
        intros (T & HT & _). apply (zget_snoc []) in HT as [HT|[-> ->]]; [by rewrite zget_nil in HT|done].
      * split; [by intros ?%elem_of_nil|]. intros (T & HT & Eh). apply (zget_snoc []) in HT as [HT|[-> ->]]; [by rewrite zget_nil in HT|]. done.
    + eexists. split; [done|]. exact Hv.
    + done.
  - split; cbn [lalrLR0ItemSets transitions app].
    + unfold len. cbn. lia.
    + intros. lia.
    + intros j _. unfold transitionRow. by rewrite zget_nil.
Qed.

(** ** Walks *)

(** Following the transitions from a state. *)
Fixpoint lr_walk (ts : list lrTransitionRow) (state : Z) (g : list Z) : go (option Z) :=
  match g with
  | [] => Ret (Some state)
  | X :: g => '(t, ok) ← transitionTarget ts state X; if (ok : bool) then lr_walk ts t g else Ret None
  end.

Lemma valid_prefix g h i : valid_item ng (g ++ h) i → ∃ i', valid_item ng g i'.
Proof using.
  revert i. induction h as [|X h IH] using rev_ind; intros i; [rewrite app_nil_r; eauto|].
  rewrite app_assoc. intros Hv%valid_snoc. assert (∃ p d, valid_item ng (g ++ h) (p, d)) as (p & d & Hpd); [|by eapply IH].
  induction Hv as [i (p & d & Hv & _)|]; eauto.
Qed.

Lemma valid_item_range g i : valid_item ng g i → Forall (λ X, 0 ≤ X < len (Symbols ng)) g.
Proof using Hng.
  induction 1 as [|g i B q p _ IH _ _ _ _|g p d X _ IH Hn]; [constructor|done|]. apply Forall_app. split; [done|].
  apply Forall_singleton. by apply (item_next_ok ng Hng p d X).
Qed.

Lemma lr_walk_spec ctx : sets_inv ctx → rows_inv (len (lalrLR0ItemSets ctx)) ctx → len (lalrLR0ItemSets ctx) ≤ 2 ^ 32 →
  ∀ h g j T, zget (lalrLR0ItemSets ctx) j = Some T → (∀ i, has ng (cores T) i ↔ valid_item ng g i) →
  Forall (λ X, 0 ≤ X < len (Symbols ng)) h → ∃ r, lr_walk (transitions ctx) j h = Ret r ∧
    match r with
    | Some j' => ∃ T', zget (lalrLR0ItemSets ctx) j' = Some T' ∧ ∀ i, has ng (cores T') i ↔ valid_item ng (g ++ h) i
    | None => ∀ i, ¬ valid_item ng (g ++ h) i
    end.
Proof using Hng.
  intros Hs Hr Hlen h. induction h as [|X h IH]; intros g j T HT Hv Hh; cbn [lr_walk].
  { exists (Some j). split; [done|]. exists T. by rewrite app_nil_r. }
  apply list.Forall_cons in Hh as [HX Hh]. pose proof (zget_Some_range _ _ _ HT) as Hj.
  destruct (ri_done _ _ Hr j T Hj HT) as (Hinc & Htar & Hsyms). pose proof (lg_syms _ Hng).
  destruct (transitionTarget_spec (transitions ctx) j X ltac:(lia) Hinc) as [(t & Ht & ->)|[Hno ->]]; cbn [mbind go_bind].
  - destruct (Htar X t Ht) as (j' & T' & -> & HT' & Hg). pose proof (zget_Some_range _ _ _ HT'). rewrite u32_id by lia.
    replace (g ++ X :: h) with ((g ++ [X]) ++ h) by (by rewrite <-app_assoc). apply (IH (g ++ [X]) j' T'); [done| |done].
    intros i. rewrite (Hg i), valid_snoc. apply closes_ext. intros k. by apply shifted_ext.
  - exists None. split; [done|]. intros i Hvi. replace (g ++ X :: h) with ((g ++ [X]) ++ h) in Hvi by (by rewrite <-app_assoc).
    apply valid_prefix in Hvi as (i' & Hi'%valid_snoc). apply Hno, Hsyms.
    induction Hi' as [k (p & d & Hpd & Hn & _)|]; [|done]. exists (p, d). split; [by apply Hv|done].
Qed.

(** The state holds exactly the items valid for the prefix. *)
Definition at_state (ctx : lr0ctx) (g : list Z) (j : Z) : Prop :=
  ∃ T, zget (lalrLR0ItemSets ctx) j = Some T ∧ ∀ i, has ng (cores T) i ↔ valid_item ng g i.

Lemma walk_spec ctx : sets_inv ctx → rows_inv (len (lalrLR0ItemSets ctx)) ctx → len (lalrLR0ItemSets ctx) ≤ 2 ^ 32 →
  ∀ g, Forall (λ X, 0 ≤ X < len (Symbols ng)) g → ∃ r, lr_walk (transitions ctx) 0 g = Ret r ∧
    match r with Some j => at_state ctx g j | None => ∀ i, ¬ valid_item ng g i end.
Proof using Hng.
  intros Hs Hr Hlen g Hg. destruct (li_first _ Hs) as (T0 & HT0 & Hv0). by apply (lr_walk_spec ctx Hs Hr Hlen g [] 0 T0).
Qed.

Lemma state_prefix ctx j : sets_inv ctx → 0 ≤ j < len (lalrLR0ItemSets ctx) → ∃ g, (∃ i, valid_item ng g i) ∧ at_state ctx g j.
Proof using.
  intros Hs Hj. destruct (zget_in_range _ _ Hj) as [T HT]. destruct (li_set _ Hs j T HT) as (_ & _ & _ & g & Hi & Hg).
  exists g. split; [done|]. by exists T.
Qed.

(** The state of a prefix is unique, and the walk finds it. *)
Lemma walk_at_state ctx : sets_inv ctx → rows_inv (len (lalrLR0ItemSets ctx)) ctx → len (lalrLR0ItemSets ctx) ≤ 2 ^ 32 →
  ∀ g j i, valid_item ng g i → at_state ctx g j → lr_walk (transitions ctx) 0 g = Ret (Some j).
Proof using Hng.
  intros Hs Hr Hlen g j i Hi (T & HT & Hg). destruct (walk_spec ctx Hs Hr Hlen g (valid_item_range g i Hi)) as (r & -> & Hr').
  destruct r as [j'|]; [|by destruct (Hr' i)]. destruct Hr' as (T' & HT' & Hg'). do 2 f_equal.
  apply (NoDup_zget_inj _ j' j (cores T) (li_nodup _ Hs)); rewrite zget_map; [|by rewrite HT].
  rewrite HT'. cbn. f_equal. apply (core_set_ext ng); [by apply (li_set _ Hs j' T' HT')|by apply (li_set _ Hs j T HT)|].
  intros k. by rewrite Hg, Hg'.
Qed.

(** [coreLookup] finds the position of an item. *)
Lemma coreLookup_spec T i : core_set ng (cores T) → item_ok ng i →
  (∃ k, coreLookup T i.1 i.2 = Ret (k, true) ∧ zget (cores T) k = Some (packed i)) ∨
  (coreLookup T i.1 i.2 = Ret (0, false) ∧ ¬ has ng (cores T) i).
Proof using Hng.
  intros [Hok Hinc] Hi. destruct (item_ok_range ng Hng i Hi) as [H1 H2]. destruct i as [p d]. cbn [fst snd] in *.
  unfold coreLookup. rewrite u32_id by lia. assert (u8 d = d) as -> by (unfold u8; apply Z.mod_small; lia).
  rewrite (below_search ekey (cores T) (p * 256 + d) Hinc).
  2: { intros h ce Hce. rewrite (proj2 (index_Ret _ _ _) Hce). cbn [mbind go_bind]. do 2 f_equal. unfold ekey.
       pose proof (entry_dot_range ce). lia. }
  cbn [mbind go_bind]. pose proof (below_range ekey (cores T) (p * 256 + d)) as Hr.
  destruct (below_find ekey (cores T) (p * 256 + d) Hinc) as [(ce & Hce & E)|[Hno Hne]].
  - left. exists (below ekey (cores T) (p * 256 + d)). pose proof (zget_Some_range _ _ _ Hce). replace (_ <? _) with true by lia.
    rewrite (proj2 (index_Ret _ _ _) Hce). cbn [mbind go_bind]. unfold ekey in E. pose proof (entry_dot_range ce).
    replace ((entry_prodIdx ce =? p) && (entry_dot ce =? d)) with true by lia. split; [done|]. rewrite Hce. f_equal.
    unfold entries_ok in Hok. rewrite list.Forall_forall in Hok. rewrite <-(proj2 (Hok ce (zget_elem _ _ _ Hce))). unfold unpacked. f_equal. f_equal; lia.
  - right. split.
    + destruct (Z.ltb_spec (below ekey (cores T) (p * 256 + d)) (len (cores T))) as [Hlt|]; [|done].
      destruct (index_in_range (cores T) (below ekey (cores T) (p * 256 + d))) as (ce & -> & Hce); [lia|]. cbn [mbind go_bind].
      specialize (Hne ce Hce). unfold ekey in Hne. by replace ((entry_prodIdx ce =? p) && (entry_dot ce =? d)) with false by lia.
    + intros [_ Hp]. apply Hno, list_elem_of_fmap. exists (packed (p, d)). split; [|done].
      pose proof (unpack_pack p d H1 H2) as E. unfold unpacked in E. unfold ekey. injection E as -> ->. done.
Qed.
End automaton.

(** C5.  The LR(0) automaton is the automaton of valid items.  On a grammar whose
    items fit 24 and 8 bits, [buildLR0] without budgets and without context tags
    (which the code adds from 2000 productions on unless they are disabled) returns, within one round
    per set of items, pairwise different item sets, each in order.  Provided there
    are at most 2^32 of them, walking the transitions from state 0 over any
    sequence of symbols ends in the state that holds exactly the items valid for
    the sequence, and fails exactly when no item is; every state is reached by some
    sequence; [coreLookup] finds exactly the items of a state. *)
Theorem buildLR0_exact `{SliceSort} ng fuel : lr0_grammar ng → (2 ^ item_count ng ≤ fuel)%nat →
  ∃ ctx, buildLR0 ng 0 0 (λ _, false) fuel = Ret ctx ∧
    NoDup (map cores (lalrLR0ItemSets ctx)) ∧
    (∀ j T, zget (lalrLR0ItemSets ctx) j = Some T → core_set ng (cores T) ∧
      ∀ i, item_ok ng i →
        (∃ k, coreLookup T i.1 i.2 = Ret (k, true) ∧ zget (cores T) k = Some (packed i)) ∨
        (coreLookup T i.1 i.2 = Ret (0, false) ∧ ¬ has ng (cores T) i)) ∧
    (len (lalrLR0ItemSets ctx) ≤ 2 ^ 32 →
      (∀ g, Forall (λ X, 0 ≤ X < len (Symbols ng)) g → ∃ r, lr_walk (transitions ctx) 0 g = Ret r ∧
        match r with
        | Some j => ∃ T, zget (lalrLR0ItemSets ctx) j = Some T ∧ ∀ i, has ng (cores T) i ↔ valid_item ng g i
        | None => ∀ i, ¬ valid_item ng g i
        end) ∧
      (∀ j, 0 ≤ j < len (lalrLR0ItemSets ctx) → ∃ g, lr_walk (transitions ctx) 0 g = Ret (Some j))).
Proof.
  intros Hng Hf. destruct (buildLR0_inv ng Hng fuel Hf) as (ctx & Hrun & Hs & Hr). exists ctx.
  split_and!; [done|apply Hs| |].
  { intros j T HT. destruct (li_set _ _ Hs j T HT) as (Hset & _). split; [done|]. intros i Hi. by apply (coreLookup_spec ng Hng). }
  intros Hlen. split; [by apply (walk_spec ng Hng)|]. intros j Hj.
  destruct (state_prefix ng ctx j Hs Hj) as (g & [i Hi] & Hg). exists g. by apply (walk_at_state ng Hng ctx Hs Hr Hlen g j i).
Qed.

Lemma sample_lr0_grammar : lr0_grammar sample_grammar.
Proof. by apply lr0_grammarb_ok. Qed.

(** The number of states, the state after a word, and its items. *)
Definition sample_run (g : list Z) : option (Z * go (option Z) * option (list item)) :=
  match buildLR0 sample_grammar 0 0 (λ _, false) 512 with
  | Ret ctx => Some (len (lalrLR0ItemSets ctx), lr_walk (transitions ctx) 0 g,
      match lr_walk (transitions ctx) 0 g with
      | Ret (Some j) => T ← zget (lalrLR0ItemSets ctx) j; Some (map unpacked (cores T))
      | _ => None
      end)
  | _ => None
  end.

Lemma buildLR0_exact_witness : ∃ ctx T,
  buildLR0 sample_grammar 0 0 (λ _, false) 512 = Ret ctx ∧ len (lalrLR0ItemSets ctx) = 6 ∧
  lr_walk (transitions ctx) 0 [0; 4] = Ret (Some 5) ∧ zget (lalrLR0ItemSets ctx) 5 = Some T ∧
  map unpacked (cores T) = [(2, 2)] ∧ ∀ i, has sample_grammar (cores T) i ↔ valid_item sample_grammar [0; 4] i.
Proof.
  destruct (buildLR0_exact sample_grammar 512 sample_lr0_grammar) as (ctx & Hrun & _ & _ & Hwalk).
  { vm_compute. lia. }
  assert (sample_run [0; 4] = Some (6, Ret (Some 5), Some [(2, 2)])) as E by (vm_compute; reflexivity).
  unfold sample_run in E. rewrite Hrun in E. injection E as Hlen Hw HT. rewrite Hw in HT.
  destruct (Hwalk ltac:(rewrite Hlen; lia)) as [Hstate _].
  destruct (Hstate [0; 4]) as (r & Hr & Hset).
  { do 2 (apply list.Forall_cons; split; [vm_compute; split; [discriminate|reflexivity]|]). constructor. }
  assert (lr_walk (transitions ctx) 0 [0; 4] = Ret (Some 5)) as Hw' by exact Hw. rewrite Hw' in Hr. injection Hr as <-. destruct Hset as (T & HT' & Hv). rewrite HT' in HT. cbn in HT. injection HT as HT.
  exists ctx, T. exact (conj Hrun (conj Hlen (conj Hw' (conj HT' (conj HT Hv))))).
Defined.
