(* ===== verification/Lalr.v ===== *)
(** * LALR(1) lookaheads

    grammargen/lr_lalr.go, [computeLALRLookaheads] and
    [materializeLALRItemSets]: the nonterminal transitions, what they read
    directly, the relations READS and INCLUDES, the two passes of [digraph], the
    LOOKBACK entries and the lookaheads of the completed items.  Debug output, the
    record of contributors kept for diagnostics and the hashes recomputed at the
    end are left out; without context tags the pruning of conditional types does
    nothing. *)

From Stdlib Require Import ZArith Lia ZifyBool.
From stdpp Require Import base tactics list numbers option gmap.
From S2P Require Import Prelude SliceSort Bitset LrGrammar LrFirst Digraph Lr0.
Local Open Scope Z_scope.

Record ntTransition := mkNtTransition { ntState : Z; ntNonterm : Z; ntTarget : Z }.

Record lookbackEntry := mkLookback { lbStateIdx : Z; lbCoreIdx : Z; lbNtIdx : Z; lbLastPred : Z }.

Record coreEntry := mkCoreEntry { ceProdIdx : Z; ceDot : Z; lookaheads : bitset }.

Section lalr.
Context `{SliceSort} (ng : NormalizedGrammar) (nullables : list bool).

(** ** Nonterminal transitions *)

(** The edges on nonterminals of the rows from state [s] on. *)
Fixpoint nt_pairs (s : Z) (ts : list lrTransitionRow) : list ntTransition :=
  match ts with
  | [] => []
  | row :: ts =>
    map (λ e, mkNtTransition s (ltSym e) (ltTarget e)) (filter (λ e, TokenCount ng ≤ ltSym e) row) ++ nt_pairs (s + 1) ts
  end.

Definition nt_transitions (ts : list lrTransitionRow) : list ntTransition :=
  sort_slice (less2 ntState ntNonterm) (nt_pairs 0 ts).

(** The map from a state and a symbol to the index. *)
Fixpoint nt_index (i : Z) (nts : list ntTransition) (m : gmap (Z * Z) Z) : gmap (Z * Z) Z :=
  match nts with
  | [] => m
  | nt :: nts => nt_index (i + 1) nts (<[(ntState nt, ntNonterm nt) := i]> m)
  end.

(** ** What a transition reads *)

Fixpoint add_tokens (row : lrTransitionRow) (b : bitset) : go bitset :=
  match row with
  | [] => Ret b
  | e :: row => b ← (if ltSym e <? TokenCount ng then add b (ltSym e) else Ret b); add_tokens row b
  end.

Fixpoint direct_reads (ts : list lrTransitionRow) (nts : list ntTransition) : go (list bitset) :=
  match nts with
  | [] => Ret []
  | nt :: nts =>
    b ← add_tokens (transitionRow ts (ntTarget nt)) (newBitset (TokenCount ng));
    rest ← direct_reads ts nts;
    Ret (b :: rest)
  end.

(** The end of input is read after the start symbol. *)
Definition seed_end (ix : gmap (Z * Z) Z) (dr : list bitset) : go (list bitset) :=
  aug ← index (Productions ng) (AugmentProdID ng);
  startSym ← index (RHS aug) 0;
  match ix !! (0, startSym) with
  | Some i => b ← index dr i; b ← add b 0; store dr i b
  | None => Ret dr
  end.

Fixpoint nullable_edges (row : lrTransitionRow) : go (list Z) :=
  match row with
  | [] => Ret []
  | e :: row =>
    n ← (if TokenCount ng <=? ltSym e then index nullables (ltSym e) else Ret false);
    rest ← nullable_edges row;
    Ret (if (n : bool) then ltSym e :: rest else rest)
  end.

Fixpoint read_edges (ix : gmap (Z * Z) Z) (q : Z) (syms : list Z) : list Z :=
  match syms with
  | [] => []
  | sym :: syms => match ix !! (q, sym) with Some j => u32 j :: read_edges ix q syms | None => read_edges ix q syms end
  end.

Fixpoint reads_relation (ts : list lrTransitionRow) (ix : gmap (Z * Z) Z) (nts : list ntTransition) : go (list (list Z)) :=
  match nts with
  | [] => Ret []
  | nt :: nts =>
    syms ← nullable_edges (transitionRow ts (ntTarget nt));
    rest ← reads_relation ts ix nts;
    Ret (read_edges ix (ntTarget nt) (sort_ints syms) :: rest)
  end.

(** ** Includes and lookbacks *)

(** The positions of nonterminals that only nullable symbols follow, and whether
    the whole is nullable. *)
Fixpoint include_positions (dot : Z) (rhs : list Z) : go (list Z * bool) :=
  match rhs with
  | [] => Ret ([], true)
  | sym :: rhs =>
    '(positions, suffixNullable) ← include_positions (dot + 1) rhs;
    n ← (if sym <? TokenCount ng then Ret false else index nullables sym);
    Ret (if (TokenCount ng <=? sym) && suffixNullable then dot :: positions else positions, suffixNullable && n)
  end.

Fixpoint include_table (prods : list Production) : go (list (list Z)) :=
  match prods with
  | [] => Ret []
  | p :: prods =>
    '(positions, _) ← include_positions 0 (RHS p);
    rest ← include_table prods;
    Ret (positions :: rest)
  end.

Section tracing.
Context (sets : list lr0ItemSet) (ts : list lrTransitionRow) (ix : gmap (Z * Z) Z).

(** The edge from the transition on [sym] to the one the trace started with. *)
Definition add_include (stateIdx lhs curState sym : Z) (includes : list (list Z)) : go (list (list Z)) :=
  match ix !! (stateIdx, lhs), ix !! (curState, sym) with
  | Some srcIdx, Some tgtIdx => es ← index includes tgtIdx; store includes tgtIdx (es ++ [u32 srcIdx])
  | _, _ => Ret includes
  end.

(** Follows a right-hand side from [curState]; the result has the last state and
    the one before it, when every transition exists. *)
Fixpoint trace (stateIdx lhs dot : Z) (rhs positions : list Z) (curState lastPred : Z) (includes : list (list Z))
  : go (option (Z * Z) * list (list Z)) :=
  match rhs with
  | [] => Ret (Some (curState, lastPred), includes)
  | sym :: rhs =>
    let here := match positions with k :: _ => k =? dot | [] => false end in
    includes ← (if (here : bool) then add_include stateIdx lhs curState sym includes else Ret includes);
    let positions := if (here : bool) then tail positions else positions in
    '(next, ok) ← transitionTarget ts curState sym;
    if (ok : bool) then trace stateIdx lhs (dot + 1) rhs positions next curState includes else Ret (None, includes)
  end.

(** One core of a state. *)
Definition trace_core (table : list (list Z)) (stateIdx ce : Z) (includes : list (list Z)) (lookbacks : list lookbackEntry)
  : go (list (list Z) * list lookbackEntry) :=
  if negb (entry_dot ce =? 0) then Ret (includes, lookbacks) else
  let pi := entry_prodIdx ce in
  prod ← index (Productions ng) pi;
  positions ← index table pi;
  '(last, includes) ← trace stateIdx (LHS prod) 0 (RHS prod) positions stateIdx stateIdx includes;
  match last with
  | None => Ret (includes, lookbacks)
  | Some (curState, lastPred) =>
    match ix !! (stateIdx, LHS prod) with
    | None => Ret (includes, lookbacks)
    | Some srcIdx =>
      set ← index sets curState;
      '(coreIdx, ok) ← coreLookup set pi (len (RHS prod));
      Ret (includes, if (ok : bool) then lookbacks ++ [mkLookback (u32 curState) (u32 coreIdx) (u32 srcIdx) (u32 lastPred)]
                     else lookbacks)
    end
  end.

Fixpoint trace_cores (table : list (list Z)) (stateIdx : Z) (ces : list Z) (includes : list (list Z)) (lookbacks : list lookbackEntry)
  : go (list (list Z) * list lookbackEntry) :=
  match ces with
  | [] => Ret (includes, lookbacks)
  | ce :: ces =>
    '(includes, lookbacks) ← trace_core table stateIdx ce includes lookbacks;
    trace_cores table stateIdx ces includes lookbacks
  end.

(** All states; [None] when cancelled, which is looked at every 64 states. *)
Fixpoint trace_states (cancelled : Z → bool) (table : list (list Z)) (stateIdx : Z) (rest : list lr0ItemSet)
  (includes : list (list Z)) (lookbacks : list lookbackEntry) : go (option (list (list Z) * list lookbackEntry)) :=
  match rest with
  | [] => Ret (Some (includes, lookbacks))
  | set :: rest =>
    if (Z.land stateIdx 63 =? 0) && cancelled stateIdx then Ret None else
    '(includes, lookbacks) ← trace_cores table stateIdx (cores set) includes lookbacks;
    trace_states cancelled table (stateIdx + 1) rest includes lookbacks
  end.
End tracing.

(** ** Lookaheads *)

Definition allocLookaheadBitset : bitset := newBitset (TokenCount ng).

(** [copy] stops at the end of the shorter slice. *)
Definition cloneLookaheadBitset (src : bitset) : bitset :=
  take (length allocLookaheadBitset) src ++ drop (length src) allocLookaheadBitset.

Fixpoint collect_lookaheads (followSets : list bitset) (lookbacks : list lookbackEntry) (las : list (gmap Z bitset))
  : go (list (gmap Z bitset)) :=
  match lookbacks with
  | [] => Ret las
  | lb :: lookbacks =>
    laByCore ← index las (lbStateIdx lb);
    follow ← index followSets (lbNtIdx lb);
    let la := match laByCore !! lbCoreIdx lb with
              | Some existing => (unionWith existing follow).1
              | None => cloneLookaheadBitset follow
              end in
    las ← store las (lbStateIdx lb) (<[lbCoreIdx lb := la]> laByCore);
    collect_lookaheads followSets lookbacks las
  end.

(** The augmented production reduces at the end of input. *)
Definition augment_lookahead (sets : list lr0ItemSet) (ts : list lrTransitionRow) (las : list (gmap Z bitset))
  : go (list (gmap Z bitset)) :=
  aug ← index (Productions ng) (AugmentProdID ng);
  match RHS aug with
  | [] => Ret las
  | start :: _ =>
    '(targetState, ok) ← transitionTarget ts 0 start;
    if negb ok then Ret las else
    augSet ← index sets targetState;
    '(idx, ok) ← coreLookup augSet (AugmentProdID ng) (len (RHS aug));
    if negb ok then Ret las else
    laByCore ← index las targetState;
    la ← add (default allocLookaheadBitset (laByCore !! idx)) 0;
    store las targetState (<[idx := la]> laByCore)
  end.

Fixpoint materialize_cores (ci : Z) (ces : list Z) (laByCore : gmap Z bitset) : list coreEntry :=
  match ces with
  | [] => []
  | ce :: ces => mkCoreEntry (entry_prodIdx ce) (entry_dot ce) (default [] (laByCore !! ci)) :: materialize_cores (ci + 1) ces laByCore
  end.

Fixpoint materializeLALRItemSets (sets : list lr0ItemSet) (las : list (gmap Z bitset)) : list (list coreEntry) :=
  match sets, las with
  | set :: sets, laByCore :: las => materialize_cores 0 (cores set) laByCore :: materializeLALRItemSets sets las
  | _, _ => []
  end.

(** The item sets with lookaheads; none without nonterminal transitions or when
    cancelled. *)
Definition computeLALRLookaheads (cancelled : Z → bool) (ctx : lr0ctx) : go (list (list coreEntry)) :=
  let sets := lalrLR0ItemSets ctx in
  let ts := transitions ctx in
  let nts := nt_transitions ts in
  let ix := nt_index 0 nts ∅ in
  let numTrans := len nts in
  if numTrans =? 0 then Ret [] else
  dr ← direct_reads ts nts;
  dr ← seed_end ix dr;
  reads ← reads_relation ts ix nts;
  readSets ← digraph numTrans dr reads;
  table ← include_table (Productions ng);
  traced ← trace_states sets ts ix cancelled table 0 sets (make numTrans []) [];
  match traced with
  | None => Ret []
  | Some (includes, lookbacks) =>
    followSets ← digraph numTrans readSets includes;
    las ← collect_lookaheads followSets lookbacks (make (len sets) ∅);
    las ← augment_lookahead sets ts las;
    Ret (materializeLALRItemSets sets las)
  end.

End lalr.

(** [buildItemSetsLALR]: the automaton, then the lookaheads. *)
Definition buildItemSetsLALR `{SliceSort} (ng : NormalizedGrammar) (stateBudget coreBudget : Z) (cancelled : Z → bool) (fuel : nat)
  : go (list (list coreEntry)) :=
  '(_, nullables) ← computeFirstSets ng;
  ctx ← buildLR0 ng stateBudget coreBudget cancelled fuel;
  if lalrLR0StateBudgetExceeded ctx || lalrLR0CoreBudgetExceeded ctx then Ret [] else
  computeLALRLookaheads ng nullables cancelled ctx.
