(* ===== verification/LalrSteps.v ===== *)
(** * The steps of the lookahead computation

    What each loop of [computeLALRLookaheads] (grammargen/lr_lalr.go) computes on
    the automaton of [buildLR0]: the table of nonterminal transitions, the tokens
    read directly, the relations READS and INCLUDES, the lookback entries.  The
    sets are followed through both passes for any notion of following that is
    closed under the relations ([follow_model]). *)

From Stdlib Require Import ZArith Lia ZifyBool.
From stdpp Require Import base tactics list numbers option relations gmap sorting.
From S2P Require Import Prelude SliceSort Bitset LrGrammar LrFirst Digraph Lr0 Lr0Closure Lr0Kernels Lr0Correct Lalr.
Local Open Scope Z_scope.

(** The augmented production is S' → S, S' occurs nowhere else, and symbol 0 is
    the end of input. *)
Record lalr_grammar (ng : NormalizedGrammar) : Prop := {
  la_lr0 : lr0_grammar ng;
  la_end : 0 < TokenCount ng;
  la_start : ∃ aug S, zget (Productions ng) (AugmentProdID ng) = Some aug ∧ RHS aug = [S] ∧ TokenCount ng ≤ S ∧
    ∀ p, p ∈ Productions ng → LHS aug ∉ RHS p }.

Definition lalr_grammarb (ng : NormalizedGrammar) : bool :=
  lr0_grammarb ng && (0 <? TokenCount ng) &&
  match zget (Productions ng) (AugmentProdID ng) with
  | Some aug => match RHS aug with [start] => TokenCount ng <=? start | _ => false end &&
      forallb (λ p, bool_decide (LHS aug ∉ RHS p)) (Productions ng)
  | None => false
  end.

Lemma lalr_grammarb_ok ng : lalr_grammarb ng = true → lalr_grammar ng.
Proof.
  unfold lalr_grammarb. rewrite !andb_true_iff. intros [[Hlr0 Ht] Hs]. destruct (zget _ _) as [aug|] eqn:Haug; [|done].
  apply andb_true_iff in Hs as [HS Hno]. rewrite forallb_forall in Hno. setoid_rewrite <-list_elem_of_In in Hno.
  destruct (RHS aug) as [|start [|]] eqn:HR; [done| |done]. split; [by apply lr0_grammarb_ok|lia|]. exists aug, start.
  split_and!; [done|done|lia|]. intros p Hp. apply (bool_decide_eq_true (LHS aug ∉ RHS p)). by apply Hno.
Qed.

(** [reading g A t]: the token [t] is read after [A] and perhaps more nullable
    symbols, after the prefix [g]; [following] passes tokens to the symbols that end a
    production as well. *)
Record follow_model (ng : NormalizedGrammar) (reading following : list Z → Z → Z → Prop) : Prop := {
  fm_token g A i t : valid_item ng (g ++ [A]) i → item_next ng i = Some t → 0 ≤ t < TokenCount ng → reading g A t;
  fm_null g A C t : derives ng [C] [] → reading (g ++ [A]) C t → reading g A t;
  fm_end aug S : zget (Productions ng) (AugmentProdID ng) = Some aug → RHS aug = [S] → reading [] S 0;
  fm_read g A t : reading g A t → following g A t;
  fm_production g p beta A eta t : p ∈ Productions ng → RHS p = beta ++ A :: eta → derives ng eta [] →
    following g (LHS p) t → following (g ++ beta) A t }.

(** Only the empty prefix has the start item. *)
Lemma start_item_prefix ng g : lalr_grammar ng → valid_item ng g (AugmentProdID ng, 0) → g = [].
Proof.
  intros Hng. destruct (la_start _ Hng) as (aug & S & Haug & _ & _ & Hno). remember (AugmentProdID ng, 0) as i eqn:Ei.
  intros Hv. revert Ei. induction Hv as [|g [r e] B q p Hv IH Hn HB Hq Hl|g r e X Hv IH Hn]; intros E; [done| |].
  - injection E as ->. unfold item_next in Hn. cbn in Hn. destruct (zget (Productions ng) r) as [pr|] eqn:Hr; [|done]. cbn in Hn.
    simplify_eq. destruct (Hno pr); [by eapply zget_elem|by eapply zget_elem].
  - injection E as -> E. destruct (item_next_ok ng (la_lr0 _ Hng) _ _ _ Hn) as ((p & _ & ?) & _). cbn in *. lia.
Qed.

(** The values of one run of [computeLALRLookaheads], step by step. *)
Record lalr_steps := mkSteps {
  st_direct : list bitset; st_seed : list bitset; st_reads : list (list Z); st_read : list bitset;
  st_table : list (list Z); st_includes : list (list Z); st_lookbacks : list lookbackEntry; st_follow : list bitset;
  st_collected : list (gmap Z bitset); st_las : list (gmap Z bitset) }.

Section steps.
Context `{SliceSort} (ng : NormalizedGrammar) (Hng : lalr_grammar ng) (ctx : lr0ctx).
Context (Hsets : sets_inv ng ctx) (Hrows : rows_inv ng (len (lalrLR0ItemSets ctx)) ctx) (Hlen : len (lalrLR0ItemSets ctx) ≤ 2 ^ 32).

Notation sets := (lalrLR0ItemSets ctx).
Notation ts := (transitions ctx).
Notation at_state := (at_state ng ctx).

(** ** Edges *)

Lemma edge_facts s X t : mkLrTransition X t ∈ transitionRow ts s →
  0 ≤ s < len sets ∧ 0 ≤ t < len sets ∧ 0 ≤ X < len (Symbols ng) ∧
  (∀ g, at_state g s → at_state (g ++ [X]) t ∧ ∃ i, valid_item ng g i ∧ item_next ng i = Some X).
Proof using Hng Hsets Hrows Hlen.
  intros He. assert (0 ≤ s < len sets) as Hs.
  { destruct (decide (0 ≤ s)) as [H0|H0].
    - destruct (decide (s < len sets)) as [|Hge]; [lia|]. rewrite (ri_empty _ _ _ Hrows) in He by lia. by apply elem_of_nil in He.
    - unfold transitionRow in He. rewrite (proj2 (zget_None ts s)) in He by lia. by apply elem_of_nil in He. }
  destruct (zget_in_range sets s Hs) as [S HS]. destruct (ri_done _ _ _ Hrows s S Hs HS) as (_ & Htar & Hsym).
  destruct (Htar X t He) as (j & T & -> & HT & Hg). pose proof (zget_Some_range _ _ _ HT). rewrite u32_id by lia.
  destruct (proj1 (Hsym X)) as ([p d] & Hh & Hn); [apply list_elem_of_fmap; by exists (mkLrTransition X (u32 j))|].
  split_and!; [lia|lia|lia|lia|apply (item_next_ok ng (la_lr0 _ Hng) p d X Hn)|apply (item_next_ok ng (la_lr0 _ Hng) p d X Hn)|].
  intros g (S' & HS' & Hv). simplify_eq. split; [|exists (p, d); split; [by apply Hv|done]]. exists T. split; [done|].
  intros i. rewrite (Hg i), valid_snoc. apply closes_ext. intros k. by apply shifted_ext.
Qed.

Lemma target_edge s X : 0 ≤ X < len (Symbols ng) → ∃ t ok, transitionTarget ts s X = Ret (t, ok) ∧
  (ok = true → mkLrTransition X t ∈ transitionRow ts s).
Proof using Hng Hrows.
  intros HX. pose proof (lg_syms _ (la_lr0 _ Hng)).
  assert (increasing (map ltSym (transitionRow ts s))) as Hinc.
  { destruct (decide (0 ≤ s < len sets)) as [Hs|Hs].
    - destruct (zget_in_range sets s Hs) as [S HS]. by apply (ri_done _ _ _ Hrows s S Hs HS).
    - assert (transitionRow ts s = []) as ->; [|constructor]. destruct (decide (0 ≤ s)); [apply (ri_empty _ _ _ Hrows); lia|].
      unfold transitionRow. by rewrite (proj2 (zget_None ts s)) by lia. }
  destruct (transitionTarget_spec ts s X ltac:(lia) Hinc) as [(t & Ht & ->)|[_ ->]]; [by exists t, true|by exists 0, false].
Qed.

(** ** The table of nonterminal transitions *)

Lemma nt_pairs_elem s0 rows nt : nt ∈ nt_pairs ng s0 rows ↔ ∃ row, zget rows (ntState nt - s0) = Some row ∧
  mkLrTransition (ntNonterm nt) (ntTarget nt) ∈ row ∧ TokenCount ng ≤ ntNonterm nt.
Proof using.
  revert s0. induction rows as [|row rows IH]; intros s0; cbn [nt_pairs].
  { split; [by intros ?%elem_of_nil|]. intros (row & Hrow & _). by rewrite zget_nil in Hrow. }
  rewrite elem_of_app, list_elem_of_fmap, IH. split.
  - intros [([X t] & -> & [Hge Hin]%list_elem_of_filter)|(row' & Hrow & Hin)].
    + exists row. cbn in *. by rewrite Z.sub_diag.
    + exists row'. pose proof (zget_Some_range _ _ _ Hrow). rewrite zget_cons_ne by lia.
      by replace (ntState nt - s0 - 1) with (ntState nt - (s0 + 1)) by lia.
  - intros (row' & Hrow & Hin & Hge). destruct (decide (ntState nt = s0)) as [E|Hne].
    + left. rewrite E, Z.sub_diag in Hrow. injection Hrow as <-. exists (mkLrTransition (ntNonterm nt) (ntTarget nt)).
      rewrite <-E. split; [by destruct nt|]. by apply list_elem_of_filter.
    + right. rewrite zget_cons_ne in Hrow by lia. exists row'. by replace (ntState nt - (s0 + 1)) with (ntState nt - s0 - 1) by lia.
Qed.

Notation nts := (nt_transitions ng ts).
Notation ix := (nt_index 0 nts ∅).

Lemma nts_elem nt : nt ∈ nts → mkLrTransition (ntNonterm nt) (ntTarget nt) ∈ transitionRow ts (ntState nt) ∧ TokenCount ng ≤ ntNonterm nt.
Proof using.
  unfold nt_transitions. rewrite sort_slice_perm, nt_pairs_elem, Z.sub_0_r. intros (row & Hrow & Hin & Hge). split; [|done].
  unfold transitionRow. by rewrite Hrow.
Qed.

Lemma nt_index_lookup i l m k j : nt_index i l m !! k = Some j →
  m !! k = Some j ∨ ∃ nt, zget l (j - i) = Some nt ∧ (ntState nt, ntNonterm nt) = k.
Proof using.
  revert i m. induction l as [|nt l IH]; intros i m; cbn [nt_index]; [by left|]. intros [Hm|(nt' & Hnt & Hk)]%IH.
  - rewrite lookup_insert in Hm. case_decide as E; [|by left]. injection Hm as <-. right. exists nt. by rewrite Z.sub_diag.
  - right. exists nt'. pose proof (zget_Some_range _ _ _ Hnt). rewrite zget_cons_ne by lia.
    by replace (j - i - 1) with (j - (i + 1)) by lia.
Qed.

Lemma ix_lookup s A j : ix !! (s, A) = Some j → ∃ t, zget nts j = Some (mkNtTransition s A t) ∧
  mkLrTransition A t ∈ transitionRow ts s ∧ TokenCount ng ≤ A.
Proof using.
  intros [Hm|(nt & Hnt & [= <- <-])]%nt_index_lookup; [by rewrite lookup_empty in Hm|]. rewrite Z.sub_0_r in Hnt.
  exists (ntTarget nt). split; [rewrite Hnt; by destruct nt|]. by apply zget_elem, nts_elem in Hnt.
Qed.

(** ** Reads *)

Context (reading following : list Z → Z → Z → Prop) (Hmodel : follow_model ng reading following).

(** What the sets of the transitions may hold, whatever the prefix. *)
Definition read_ok (i t : Z) : Prop := 0 ≤ t < TokenCount ng ∧ ∀ nt, zget nts i = Some nt →
  ∀ g, at_state g (ntState nt) → reading g (ntNonterm nt) t.

Record table_ok (P : Z → Z → Prop) (F : list bitset) : Prop := {
  to_len : len F = len nts;
  to_words : Forall words_ok F;
  to_mem i t : in_set F i t → P i t }.

Lemma add_tokens_spec row b : words_ok b → (∀ e, e ∈ row → 0 ≤ ltSym e) →
  ∃ b', add_tokens ng row b = Ret b' ∧ words_ok b' ∧
    ∀ t, mem b' t ↔ mem b t ∨ ∃ e, e ∈ row ∧ ltSym e = t ∧ t < TokenCount ng.
Proof using.
  revert b. induction row as [|e row IH]; intros b Hw Hpos; cbn [add_tokens].
  { exists b. split_and!; [done..|]. intros t. split; [by left|]. intros [?|(e & ?%elem_of_nil & _)]; done. }
  assert (∃ b1, (if ltSym e <? TokenCount ng then add b (ltSym e) else Ret b) = Ret b1 ∧ words_ok b1 ∧
    ∀ t, mem b1 t ↔ mem b t ∨ (ltSym e = t ∧ t < TokenCount ng)) as (b1 & -> & Hw1 & Hm1).
  { destruct (Z.ltb_spec (ltSym e) (TokenCount ng)).
    - destruct (add_spec b (ltSym e) (Hpos e ltac:(left)) Hw) as (b1 & ? & ? & Hm). exists b1. split_and!; [done..|].
      intros t. rewrite Hm. naive_solver.
    - exists b. split_and!; [done..|]. intros t. split; [by left|]. intros [?|[? ?]]; [done|lia]. }
  cbn [mbind go_bind]. destruct (IH b1 Hw1 (λ e' He', Hpos e' ltac:(by right))) as (b' & ? & ? & Hm'). exists b'. split_and!; [done..|].
  intros t. rewrite Hm', Hm1. setoid_rewrite elem_of_cons. naive_solver.
Qed.

Lemma direct_reads_spec l : (∀ nt, nt ∈ l → nt ∈ nts) → ∃ dr, direct_reads ng ts l = Ret dr ∧ len dr = len l ∧ Forall words_ok dr ∧
  ∀ i t, in_set dr i t ↔ ∃ nt e, zget l i = Some nt ∧ e ∈ transitionRow ts (ntTarget nt) ∧ ltSym e = t ∧ t < TokenCount ng.
Proof using Hng Hsets Hrows Hlen.
  induction l as [|nt l IH]; intros Hl; cbn [direct_reads].
  { exists []. split_and!; [done..|constructor|]. intros i t. unfold in_set. setoid_rewrite zget_nil. naive_solver. }
  destruct (newBitset_spec (TokenCount ng)) as [Hw0 Hm0]; [apply TokenCount_range|].
  destruct (add_tokens_spec (transitionRow ts (ntTarget nt)) (newBitset (TokenCount ng)) Hw0) as (b & -> & Hw & Hm).
  { intros [X t] He. apply edge_facts in He as (_ & _ & HX & _). cbn. lia. }
  cbn [mbind go_bind]. destruct (IH (λ x Hx, Hl x ltac:(by right))) as (dr & -> & Hld & Hwd & Hmd). cbn [mbind go_bind].
  exists (b :: dr). split_and!; [done|by rewrite !len_cons, Hld|by constructor|]. intros i t.
  destruct (decide (i = 0)) as [->|Hne].
  - unfold in_set. rewrite !zget_cons_0. specialize (Hm t). specialize (Hm0 t). naive_solver.
  - rewrite zget_cons_ne by done. rewrite <-Hmd. apply in_set_ext. by rewrite zget_cons_ne.
Qed.

Lemma dr_read_ok i nt e : zget nts i = Some nt → e ∈ transitionRow ts (ntTarget nt) → ltSym e < TokenCount ng → read_ok i (ltSym e).
Proof using Hng Hsets Hrows Hlen Hmodel.
  intros Hnt He Ht. destruct e as [t q]. cbn in *. destruct (edge_facts _ _ _ He) as (_ & _ & Hr & Hstep). split; [lia|].
  intros nt' Hnt' g Hg. simplify_eq. destruct (nts_elem nt (zget_elem _ _ _ Hnt)) as [Hedge _].
  destruct (edge_facts _ _ _ Hedge) as (_ & _ & _ & Hstep'). destruct (Hstep' g Hg) as [Hq _].
  destruct (Hstep _ Hq) as (_ & it & Hv & Hn). apply (fm_token _ _ _ Hmodel g _ it t Hv Hn). lia.
Qed.

Lemma seed_end_spec dr : table_ok read_ok dr → ∃ dr', seed_end ng ix dr = Ret dr' ∧ table_ok read_ok dr'.
Proof using Hng Hsets Hmodel.
  intros [Hl Hw Hm]. unfold seed_end. destruct (la_start _ Hng) as (aug & S & Haug & HS & HSt & _).
  rewrite (proj2 (index_Ret _ _ _) Haug). cbn [mbind go_bind]. rewrite HS. cbn [mbind go_bind index].
  change (index [S] 0) with (Ret S). cbn [mbind go_bind]. destruct (ix !! (0, S)) as [i|] eqn:Ei; [|by exists dr].
  destruct (ix_lookup 0 S i Ei) as (t & Hnt & _ & _). pose proof (zget_Some_range _ _ _ Hnt) as Hi.
  destruct (index_in_range dr i) as (b & -> & Hb); [lia|]. cbn [mbind go_bind].
  destruct (add_spec b 0) as (b' & -> & Hw' & Hm'); [lia|by apply (Forall_zget _ _ _ _ Hw Hb)|]. cbn [mbind go_bind].
  rewrite store_ok by lia. eexists. split; [done|]. split; [by rewrite len_insert|by apply Forall_insert|].
  intros j u (c & Hc & Hu). destruct (decide (j = i)) as [->|Hne].
  - rewrite zget_insert_eq in Hc by lia. injection Hc as <-. apply Hm' in Hu as [Hu| ->]; [apply Hm; by exists b|].
    split; [pose proof (la_end _ Hng); lia|]. intros nt Hnt' g (T & HT & Hv). simplify_eq. cbn [ntState ntNonterm] in *.
    destruct (li_first _ _ Hsets) as (T0 & HT0 & Hv0). simplify_eq.
    assert (g = []) as ->. { apply (start_item_prefix ng g Hng), Hv, Hv0. constructor. }
    by apply (fm_end _ _ _ Hmodel aug).
  - rewrite zget_insert_ne in Hc by lia. apply Hm. by exists c.
Qed.

Context (nullables : list bool) (Hnull : null_inv ng nullables) (Hclosed : null_closed ng nullables).

Lemma marked_iff C : marked nullables C ↔ derives ng [C] [].
Proof using Hnull Hclosed.
  split; [by intros [_ ?]%(ni_sound _ _ Hnull)|]. intros [? _]%(null_closed_complete ng nullables _ Hclosed)%list.Forall_cons_1. done.
Qed.

Lemma nullable_edges_spec row : (∀ e, e ∈ row → 0 ≤ ltSym e < len (Symbols ng)) →
  ∃ syms, nullable_edges ng nullables row = Ret syms ∧ ∀ C, C ∈ syms ↔ C ∈ map ltSym row ∧ derives ng [C] [].
Proof using Hnull Hclosed.
  induction row as [|e row IH]; intros Hr; cbn [nullable_edges]; [exists []; split; [done|]; intros C; by rewrite !elem_of_nil; tauto|].
  pose proof (Hr e ltac:(left)) as He. destruct (IH (λ x Hx, Hr x ltac:(by right))) as (syms & HIH & Hsyms).
  assert (∃ n, (if TokenCount ng <=? ltSym e then index nullables (ltSym e) else Ret false) = Ret n ∧
    (n = true ↔ derives ng [ltSym e] [])) as (n & -> & Hn).
  { destruct (Z.leb_spec (TokenCount ng) (ltSym e)).
    - destruct (index_in_range nullables (ltSym e)) as (n & -> & Hn); [rewrite (ni_len _ _ Hnull); done|].
      exists n. split; [done|]. rewrite <-marked_iff. unfold marked. naive_solver.
    - exists false. split; [done|]. split; [done|]. rewrite <-marked_iff. intros [? _]%(ni_sound _ _ Hnull). lia. }
  cbn [mbind go_bind]. rewrite HIH. cbn [mbind go_bind]. eexists. split; [done|]. intros C. cbn [map]. rewrite elem_of_cons.
  destruct n; [rewrite elem_of_cons|]; rewrite Hsyms; naive_solver.
Qed.

Lemma read_edges_elem q syms j : j ∈ read_edges ix q syms ↔ ∃ C i, C ∈ syms ∧ ix !! (q, C) = Some i ∧ j = u32 i.
Proof using.
  induction syms as [|C syms IH]; cbn [read_edges].
  { split; [by intros ?%elem_of_nil|]. by intros (C & i & ?%elem_of_nil & _). }
  setoid_rewrite elem_of_cons. destruct (ix !! (q, C)) as [i|] eqn:E; [rewrite elem_of_cons|]; rewrite IH; naive_solver.
Qed.

Lemma reads_relation_spec l : (∀ nt, nt ∈ l → nt ∈ nts) → ∃ rel, reads_relation ng nullables ts ix l = Ret rel ∧ len rel = len l ∧
  ∀ i j, edge rel i j ↔ ∃ nt C k, zget l i = Some nt ∧ ix !! (ntTarget nt, C) = Some k ∧ j = u32 k ∧ derives ng [C] [].
Proof using Hng Hsets Hrows Hlen Hnull Hclosed.
  induction l as [|nt l IH]; intros Hl; cbn [reads_relation].
  { exists []. split_and!; [done..|]. intros i j. unfold edge. setoid_rewrite zget_nil. naive_solver. }
  destruct (nullable_edges_spec (transitionRow ts (ntTarget nt))) as (syms & -> & Hsyms).
  { intros [X t] He. apply edge_facts in He as (_ & _ & HX & _). cbn. lia. }
  cbn [mbind go_bind]. destruct (IH (λ x Hx, Hl x ltac:(by right))) as (rel & -> & Hlr & Hrel). cbn [mbind go_bind].
  eexists. split; [done|]. split; [by rewrite !len_cons, Hlr|]. intros i j. destruct (decide (i = 0)) as [->|Hne].
  - unfold edge. rewrite !zget_cons_0. split.
    + intros (ys & [= <-] & (C & k & HC & Hk & ->)%read_edges_elem). exists nt, C, k. rewrite sort_ints_elem in HC.
      split_and!; [done..|]. by apply Hsyms.
    + intros (nt' & C & k & [= <-] & Hk & -> & HC). eexists. split; [done|]. apply read_edges_elem. exists C, k.
      split_and!; [|done..]. apply sort_ints_elem, Hsyms. split; [|done]. apply ix_lookup in Hk as (t & _ & Hin & _).
      apply list_elem_of_fmap. by exists (mkLrTransition C t).
  - rewrite zget_cons_ne by done. rewrite <-Hrel. unfold edge. by rewrite zget_cons_ne.
Qed.

Lemma reads_ok i j nt C k t : zget nts i = Some nt → ix !! (ntTarget nt, C) = Some k → derives ng [C] [] →
  j = k → read_ok j t → read_ok i t.
Proof using Hng Hsets Hrows Hlen Hmodel.
  intros Hnt Hk HC -> [Ht Hread]. split; [done|]. intros nt' Hnt' g Hg. simplify_eq.
  destruct (ix_lookup _ _ _ Hk) as (u & Hu & _). destruct (nts_elem nt (zget_elem _ _ _ Hnt)) as [Hedge _].
  destruct (edge_facts _ _ _ Hedge) as (_ & _ & _ & Hstep). destruct (Hstep g Hg) as [Hq _].
  apply (fm_null _ _ _ Hmodel g _ C t HC). by apply (Hread _ Hu).
Qed.

(** ** The two passes *)

Context (Hcount : len nts < infinity).

Lemma ix_u32 k j : ix !! k = Some j → 0 ≤ j < len nts ∧ u32 j = j.
Proof using Hcount.
  destruct k as [s A]. intros (t & Ht & _)%ix_lookup. pose proof (zget_Some_range _ _ _ Ht) as Hr. split; [done|].
  apply u32_id. unfold infinity in Hcount. lia.
Qed.

Lemma digraph_ok (P : Z → Z → Prop) f rel : table_ok P f → len rel = len nts → (∀ i j, edge rel i j → 0 ≤ j < len nts) →
  (∀ i j t, edge rel i j → P j t → P i t) → ∃ F, digraph (len nts) f rel = Ret F ∧ table_ok P F.
Proof using Hcount.
  intros [Hl Hw Hm] Hlr Hr Hstep. destruct (digraph_spec (len nts) f rel Hcount Hl Hw Hlr Hr) as (F & HF & HlF & HwF & _ & Hup & _).
  exists F. split; [done|]. split; [done|done|]. intros i t (j & Hij & Ht)%Hup. apply Hm in Ht.
  induction Hij as [i|i k j Hik _ IH]; [done|]. eapply Hstep; [exact Hik|by apply IH].
Qed.

(** The token can follow the nonterminal after some prefix that leads to its state. *)
Definition follow_ok (i t : Z) : Prop := 0 ≤ t < TokenCount ng ∧ ∃ nt g, zget nts i = Some nt ∧
  at_state g (ntState nt) ∧ following g (ntNonterm nt) t.

Lemma read_follow_ok F : table_ok read_ok F → table_ok follow_ok F.
Proof using Hng Hsets Hrows Hlen Hmodel.
  intros [Hl Hw Hm]. split; [done..|]. intros i t Ht. destruct (Hm i t Ht) as [Hr Hread]. split; [done|].
  destruct Ht as (b & Hb & _). apply zget_Some_range in Hb. destruct (zget_in_range nts i) as [nt Hnt]; [lia|].
  destruct (nts_elem nt (zget_elem _ _ _ Hnt)) as [Hedge _]. destruct (edge_facts _ _ _ Hedge) as (Hs & _).
  destruct (state_prefix ng ctx (ntState nt) Hsets Hs) as (g & _ & Hg). exists nt, g. split_and!; [done..|]. by apply (fm_read _ _ _ Hmodel), Hread.
Qed.

(** ** Includes *)

(** The transition [i] ends a production of the transition [j], up to nullable symbols. *)
Definition inc_rel (i j : Z) : Prop := ∃ nti ntj p beta eta,
  zget nts i = Some nti ∧ zget nts j = Some ntj ∧ p ∈ Productions ng ∧ LHS p = ntNonterm ntj ∧
  RHS p = beta ++ ntNonterm nti :: eta ∧ derives ng eta [] ∧
  ∀ g, at_state g (ntState ntj) → at_state (g ++ beta) (ntState nti).

Definition inc_ok (includes : list (list Z)) : Prop := len includes = len nts ∧ ∀ i j, edge includes i j → inc_rel i j.

Lemma includes_follow i j t : inc_rel i j → follow_ok j t → follow_ok i t.
Proof using Hmodel.
  intros (nti & ntj & p & beta & eta & Hi & Hj & Hp & Hl & HR & Heta & Hstep) (Ht & nt & g & Hnt & Hg & Hf). simplify_eq.
  split; [done|]. exists nti, (g ++ beta). split_and!; [done|by apply Hstep|]. apply (fm_production _ _ _ Hmodel g p beta _ eta); [done..|]. by rewrite Hl.
Qed.

(** The positions of a table row. *)
Definition pos_ok (rhs : list Z) (k : Z) : Prop :=
  ∃ beta A eta, rhs = beta ++ A :: eta ∧ len beta = k ∧ TokenCount ng ≤ A ∧ derives ng eta [].

Lemma pos_ok_cons x rhs k : pos_ok (x :: rhs) k ↔ (k = 0 ∧ TokenCount ng ≤ x ∧ derives ng rhs []) ∨ pos_ok rhs (k - 1).
Proof using.
  split.
  - intros ([|y beta] & A & eta & [= -> ->] & <- & HA & He); [by left|]. right. exists beta, A, eta. rewrite len_cons. split_and!; [done|lia|done..].
  - intros [(-> & Hx & Hr)|(beta & A & eta & -> & Hl & HA & He)]; [by exists [], x, rhs|].
    exists (x :: beta), A, eta. rewrite len_cons. split_and!; [done|lia|done..].
Qed.

Lemma include_positions_spec rhs dot : Forall (λ x, 0 ≤ x < len (Symbols ng)) rhs →
  ∃ ps b, include_positions ng nullables dot rhs = Ret (ps, b) ∧ (b = true ↔ derives ng rhs []) ∧
    (∀ k, k ∈ ps ↔ pos_ok rhs (k - dot)) ∧ increasing ps.
Proof using Hnull Hclosed.
  intros Hr. revert dot. induction Hr as [|x rhs Hx _ IH]; intros dot; cbn [include_positions].
  { exists [], true. split_and!; [done|split; [constructor|done]| |constructor]. intros k. split; [by intros ?%elem_of_nil|].
    by intros ([] & ? & ? & ? & _). }
  destruct (IH (dot + 1)) as (ps & b & -> & Hb & Hps & Hinc). cbn [mbind go_bind].
  assert (∃ n, (if x <? TokenCount ng then Ret false else index nullables x) = Ret n ∧ (n = true ↔ marked nullables x)) as (n & -> & Hn).
  { destruct (Z.ltb_spec x (TokenCount ng)).
    - exists false. split; [done|]. split; [done|]. intros [? _]%(ni_sound _ _ Hnull). lia.
    - destruct (index_in_range nullables x) as (n & -> & Hn); [rewrite (ni_len _ _ Hnull); done|].
      exists n. unfold marked. split; [done|]. naive_solver. }
  assert (∀ k, k ∈ ps → dot < k) as Hlow.
  { intros k (beta & A & eta & _ & Hl & _)%Hps. pose proof (len_nonneg beta). lia. }
  cbn [mbind go_bind]. eexists _, _. split_and!; [done| | |].
  - rewrite andb_true_iff, Hb, Hn. split.
    + intros [? [_ ?]%(ni_sound _ _ Hnull)]. by apply (derives_app ng [x] [] rhs []).
    + intros [? Hall]%(null_closed_complete ng nullables _ Hclosed)%list.Forall_cons_1. split; [|done].
      apply derives_nil. eapply Forall_impl; [exact Hall|]. intros y Hy. by apply marked_iff.
  - intros k. rewrite pos_ok_cons. replace (k - dot - 1) with (k - (dot + 1)) by lia. rewrite <-Hps.
    destruct (Z.leb_spec (TokenCount ng) x); [destruct b; cbn [andb]|]; rewrite ?elem_of_cons; (split; [|intros [(Hk & ? & ?%Hb)|?]]).
    all: first [done|lia|by right|by left; lia|idtac].
    intros [->|?]; [left; split_and!; [lia|done|by apply Hb]|by right].
  - destruct ((TokenCount ng <=? x) && b); [|done]. constructor; [done|]. apply list.Forall_forall. by intros k ?%Hlow.
Qed.

(** The positions of a production from [d] on, in order. *)
Definition pos_from (p : Production) (d : Z) (ps : list Z) : Prop :=
  increasing ps ∧ ∀ k, k ∈ ps ↔ pos_ok (RHS p) k ∧ d ≤ k.

Definition row_ok (p : Production) (ps : list Z) : Prop := pos_from p 0 ps.

Lemma pos_from_next p d ps : pos_from p d ps → let here := match ps with k :: _ => k =? d | [] => false end in
  (here = true ↔ pos_ok (RHS p) d) ∧ pos_from p (d + 1) (if here then tail ps else ps).
Proof using.
  intros [Hinc Hps]. destruct ps as [|k ps]; cbn [tail].
  { cbn. split; [split; [done|]; intros Hd; exfalso; apply (elem_of_nil d), Hps; split; [done|lia]|]. split; [done|]. intros k. rewrite (Hps k).
    split; [|intros [? ?]; split; [done|lia]]. intros [Hk ?]. exfalso. apply (elem_of_nil k), Hps. by split. }
  apply StronglySorted_inv in Hinc as Hinc'. destruct Hinc' as [Hinc' Hall]. rewrite list.Forall_forall in Hall.
  destruct (proj1 (Hps k)) as [Hk Hdk]; [left|]. destruct (Z.eqb_spec k d) as [->|Hne]; cbn; (split; [split|split]).
  - done.
  - done.
  - done.
  - intros k. split.
    + intros Hin. destruct (proj1 (Hps k)) as [? _]; [by right|]. specialize (Hall k Hin). split; [done|lia].
    + intros [Hok Hlt]. assert (k ∈ d :: ps) as [->|?]%elem_of_cons by (apply Hps; split; [done|lia]); [lia|done].
  - done.
  - intros Hd. assert (d ∈ k :: ps) as [->|Hin]%elem_of_cons by (apply Hps; split; [done|lia]); [done|]. specialize (Hall d Hin). lia.
  - done.
  - intros k'. rewrite Hps. split; [|intros [? ?]; split; [done|lia]]. intros [Hok ?]. split; [done|].
    assert (k' ∈ k :: ps) as [->|Hin]%elem_of_cons by (by apply Hps); [lia|]. specialize (Hall k' Hin). lia.
Qed.

Lemma include_table_spec prods : (∀ p, p ∈ prods → p ∈ Productions ng) →
  ∃ table, include_table ng nullables prods = Ret table ∧ Forall2 row_ok prods table.
Proof using Hng Hnull Hclosed.
  induction prods as [|p prods IH]; intros Hin; cbn [include_table]; [exists []; by split|].
  destruct (include_positions_spec (RHS p) 0) as (ps & b & -> & _ & Hps & Hinc).
  { apply list.Forall_forall. intros x Hx. eapply (gw_rhs _ (lg_wf _ (la_lr0 _ Hng)) p); [apply Hin; left|done]. }
  cbn [mbind go_bind]. destruct (IH (λ q Hq, Hin q ltac:(by right))) as (table & -> & Htab). cbn [mbind go_bind].
  eexists. split; [done|]. constructor; [|done]. split; [done|]. intros k. rewrite Hps, Z.sub_0_r. split; [|by intros [? _]].
  intros Hk. split; [done|]. destruct Hk as (beta & ? & ? & _ & <- & _). apply len_nonneg.
Qed.

Section one_production.
Context (s0 : Z) (p : Production) (Hp : p ∈ Productions ng).

Lemma add_include_spec beta sym eta cur includes : RHS p = beta ++ sym :: eta → derives ng eta [] →
  (∀ g, at_state g s0 → at_state (g ++ beta) cur) → inc_ok includes →
  ∃ includes', add_include ix s0 (LHS p) cur sym includes = Ret includes' ∧ inc_ok includes'.
Proof using Hp Hcount.
  intros HR Heta Hstep [Hl Hinc]. unfold add_include.
  destruct (ix !! (s0, LHS p)) as [src|] eqn:Es; [|by exists includes].
  destruct (ix !! (cur, sym)) as [tgt|] eqn:Et; [|by exists includes].
  destruct (ix_u32 _ _ Es) as [Hsr ->]. destruct (ix_u32 _ _ Et) as [Htr _].
  destruct (index_in_range includes tgt) as (es & -> & Hes); [lia|]. cbn [mbind go_bind]. rewrite store_ok by lia.
  eexists. split; [done|]. split; [by rewrite len_insert|]. intros i j (ys & Hys & Hj).
  destruct (decide (i = tgt)) as [->|Hne]; [|rewrite zget_insert_ne in Hys by lia; apply Hinc; by exists ys].
  rewrite zget_insert_eq in Hys by lia. injection Hys as <-.
  apply elem_of_app in Hj as [Hj|Hj]; [apply Hinc; by exists es|]. apply list_elem_of_singleton in Hj as ->.
  destruct (ix_lookup _ _ _ Es) as (u & Hu & _). destruct (ix_lookup _ _ _ Et) as (v & Hv & _).
  exists (mkNtTransition cur sym v), (mkNtTransition s0 (LHS p) u), p, beta, eta. by split_and!.
Qed.

(** Where a trace ends. *)
Definition trace_end (last : option (Z * Z)) : Prop :=
  match last with Some (q, _) => 0 ≤ q < len sets ∧ ∀ g, at_state g s0 → at_state (g ++ RHS p) q | None => True end.

Lemma trace_spec rhs : ∀ beta positions cur last includes, RHS p = beta ++ rhs → pos_from p (len beta) positions →
  (∀ g, at_state g s0 → at_state (g ++ beta) cur) → 0 ≤ cur < len sets → inc_ok includes →
  ∃ last' includes', trace ts ix s0 (LHS p) (len beta) rhs positions cur last includes = Ret (last', includes') ∧
    inc_ok includes' ∧ trace_end last'.
Proof using Hng Hsets Hrows Hlen Hp Hcount.
  induction rhs as [|sym rhs IH]; intros beta positions cur last includes HR Hpos Hstep Hcur Hinc; cbn [trace].
  { exists (Some (cur, last)), includes. rewrite app_nil_r in HR. split_and!; [done..|]. split; [done|]. by rewrite HR. }
  destruct (pos_from_next p (len beta) positions Hpos) as [Hhere Hpos1].
  set (here := match positions with k :: _ => k =? len beta | [] => false end) in *.
  assert (∃ includes1, (if here then add_include ix s0 (LHS p) cur sym includes else Ret includes) = Ret includes1 ∧ inc_ok includes1)
    as (includes1 & -> & Hinc1).
  { destruct here; [|by exists includes]. destruct (proj1 Hhere eq_refl) as (beta' & A & eta & HR' & Hl & _ & He).
    rewrite HR in HR'. unfold len in Hl. apply app_inj_1 in HR' as [<- [= <- <-]]; [|lia]. by apply (add_include_spec beta sym rhs). }
  cbn [mbind go_bind]. destruct (target_edge cur sym) as (next & ok & -> & Hok).
  { apply (gw_rhs _ (lg_wf _ (la_lr0 _ Hng)) p sym Hp). rewrite HR. apply elem_of_app. right. left. }
  cbn [mbind go_bind]. destruct ok; [|by exists None, includes1].
  destruct (edge_facts _ _ _ (Hok eq_refl)) as (_ & Hnr & _ & Hnext).
  replace (len beta + 1) with (len (beta ++ [sym])) by (by rewrite len_app). apply IH; [by rewrite <-app_assoc|by rewrite len_app| |done|done].
  intros g Hg. rewrite app_assoc. apply Hnext, Hstep, Hg.
Qed.
End one_production.

(** ** Lookbacks *)

(** The core [ci] of state [q] is a completed item of production [p]. *)
Definition completes (q ci pi : Z) (p : Production) : Prop :=
  zget (Productions ng) pi = Some p ∧ ∃ T, zget sets q = Some T ∧ zget (cores T) ci = Some (packed (pi, len (RHS p))).

Definition lb_ok (lb : lookbackEntry) : Prop := ∃ pi p nt, completes (lbStateIdx lb) (lbCoreIdx lb) pi p ∧
  zget nts (lbNtIdx lb) = Some nt ∧ ntNonterm nt = LHS p ∧
  ∀ g, at_state g (ntState nt) → at_state (g ++ RHS p) (lbStateIdx lb).

Lemma cores_bound T : core_set ng (cores T) → len (cores T) ≤ 2 ^ 32.
Proof using Hng.
  intros [Hok Hinc]. assert (map ekey (cores T) ⊆+ seqZ 0 (2 ^ 32)) as Hsub%submseteq_length.
  { apply NoDup_submseteq; [by apply increasing_NoDup|]. intros k (ce & -> & Hce)%list_elem_of_fmap. apply elem_of_seqZ.
    unfold entries_ok in Hok. rewrite list.Forall_forall in Hok. destruct (Hok ce Hce) as [Hi _].
    destruct (item_ok_range ng (la_lr0 _ Hng) _ Hi) as [H1 H2]. unfold unpacked, ekey in *. cbn [fst snd] in *. lia. }
  rewrite length_map, length_seqZ in Hsub. unfold len. lia.
Qed.

(** Looking up the completed item of a production. *)
Lemma lookup_completed T q pi p : zget sets q = Some T → zget (Productions ng) pi = Some p →
  ∃ k ok, coreLookup T pi (len (RHS p)) = Ret (k, ok) ∧ (ok = true → completes q k pi p ∧ u32 k = k).
Proof using Hng Hsets.
  intros HT Hpi. destruct (li_set _ _ Hsets q T HT) as (Hset & _).
  destruct (coreLookup_spec ng (la_lr0 _ Hng) T (pi, len (RHS p)) Hset) as [(k & Hk & Hc)|[Hk _]].
  { exists p. split; [done|]. cbn. pose proof (len_nonneg (RHS p)). lia. }
  - exists k, true. split; [done|]. intros _. split; [split; [done|by exists T]|]. apply u32_id.
    apply zget_Some_range in Hc. pose proof (cores_bound T Hset). lia.
  - by exists 0, false.
Qed.

Lemma trace_core_spec table s0 T ce includes lbs : Forall2 row_ok (Productions ng) table → zget sets s0 = Some T → ce ∈ cores T →
  inc_ok includes → Forall lb_ok lbs →
  ∃ includes' lbs', trace_core ng sets ts ix table s0 ce includes lbs = Ret (includes', lbs') ∧ inc_ok includes' ∧ Forall lb_ok lbs'.
Proof using Hng Hsets Hrows Hlen Hcount.
  intros Htab HT Hce Hinc Hlbs. unfold trace_core. destruct (entry_dot ce =? 0); cbn [negb]; [|by exists includes, lbs].
  destruct (li_set _ _ Hsets s0 T HT) as ([Hok _] & _). unfold entries_ok in Hok. rewrite list.Forall_forall in Hok.
  destruct (Hok ce Hce) as [(p & Hp & _) _]. cbn [unpacked fst] in Hp. set (pi := entry_prodIdx ce) in *.
  rewrite (proj2 (index_Ret _ _ _) Hp). cbn [mbind go_bind].
  destruct (zget_lookup _ _ _ Hp) as [Hpi0 Hpl]. destruct (Forall2_lookup_l _ _ _ _ _ Htab Hpl) as (ps & Hps & Hrow).
  assert (zget table pi = Some ps) as Hps' by (unfold zget; by replace (0 <=? pi) with true by lia).
  rewrite (proj2 (index_Ret _ _ _) Hps'). cbn [mbind go_bind].
  destruct (trace_spec s0 p (zget_elem _ _ _ Hp) (RHS p) [] ps s0 s0 includes) as (last & includes1 & Hrun & Hinc1 & Hend);
    [done|done|intros g; by rewrite app_nil_r|by eapply zget_Some_range|done|].
  change (len (@nil Z)) with 0 in Hrun. rewrite Hrun. cbn [mbind go_bind]. destruct last as [[q lp]|]; [|by exists includes1, lbs].
  destruct Hend as [Hq Hstep]. destruct (ix !! (s0, LHS p)) as [src|] eqn:Es; [|by exists includes1, lbs].
  destruct (index_in_range sets q Hq) as (U & -> & HU). cbn [mbind go_bind].
  destruct (lookup_completed U q pi p HU Hp) as (k & ok & -> & Hok'). cbn [mbind go_bind]. eexists _, _. split_and!; [done|done|].
  destruct ok; [|done]. apply Forall_app. split; [done|]. apply Forall_singleton. destruct (Hok' eq_refl) as [Hcomp Hk].
  destruct (ix_u32 _ _ Es) as [_ Hsrc]. destruct (ix_lookup _ _ _ Es) as (u & Hu & _).
  exists pi, p, (mkNtTransition s0 (LHS p) u). cbn [lbStateIdx lbCoreIdx lbNtIdx ntState ntNonterm].
  rewrite (u32_id q), Hk, Hsrc by lia. by split_and!.
Qed.

Lemma trace_cores_spec table s0 T ces includes lbs : Forall2 row_ok (Productions ng) table → zget sets s0 = Some T →
  (∀ ce, ce ∈ ces → ce ∈ cores T) → inc_ok includes → Forall lb_ok lbs →
  ∃ includes' lbs', trace_cores ng sets ts ix table s0 ces includes lbs = Ret (includes', lbs') ∧ inc_ok includes' ∧ Forall lb_ok lbs'.
Proof using Hng Hsets Hrows Hlen Hcount.
  intros Htab HT. revert includes lbs. induction ces as [|ce ces IH]; intros includes lbs Hin Hinc Hlbs; cbn [trace_cores]; [eauto|].
  destruct (trace_core_spec table s0 T ce includes lbs Htab HT) as (includes1 & lbs1 & -> & Hinc1 & Hlbs1); [apply Hin; left|done|done|].
  cbn [mbind go_bind]. apply IH; [intros; apply Hin; by right|done|done].
Qed.

Lemma trace_states_spec table rest done includes lbs : Forall2 row_ok (Productions ng) table → sets = done ++ rest →
  inc_ok includes → Forall lb_ok lbs →
  ∃ includes' lbs', trace_states ng sets ts ix (λ _, false) table (len done) rest includes lbs = Ret (Some (includes', lbs')) ∧
    inc_ok includes' ∧ Forall lb_ok lbs'.
Proof using Hng Hsets Hrows Hlen Hcount.
  intros Htab. revert done includes lbs. induction rest as [|T rest IH]; intros done includes lbs Esets Hinc Hlbs; cbn [trace_states]; [eauto|].
  rewrite andb_false_r. destruct (trace_cores_spec table (len done) T (cores T) includes lbs Htab) as (includes1 & lbs1 & -> & Hinc1 & Hlbs1);
    [by rewrite Esets, zget_app_r, Z.sub_diag by lia|done|done|done|].
  cbn [mbind go_bind]. replace (len done + 1) with (len (done ++ [T])) by (by rewrite len_app).
  apply IH; [by rewrite <-app_assoc|done|done].
Qed.

(** ** Lookaheads of completed items *)

Definition la_ok (q ci t : Z) : Prop := 0 ≤ t < TokenCount ng ∧ ∃ pi p g,
  completes q ci pi p ∧ at_state (g ++ RHS p) q ∧ (following g (LHS p) t ∨ pi = AugmentProdID ng ∧ g = [] ∧ t = 0).

Definition las_ok (las : list (gmap Z bitset)) : Prop := len las = len sets ∧
  ∀ q m ci b, zget las q = Some m → m !! ci = Some b → words_ok b ∧ ∀ t, mem b t → la_ok q ci t.

Lemma las_ok_insert las q m ci b : las_ok las → zget las q = Some m → words_ok b → (∀ t, mem b t → la_ok q ci t) →
  las_ok (<[Z.to_nat q := <[ci := b]> m]> las).
Proof using.
  intros [Hl Hm] Hq Hw Hb. pose proof (zget_Some_range _ _ _ Hq) as Hr. split; [by rewrite len_insert|].
  intros q' m' ci' b' Hq' Hci. destruct (decide (q' = q)) as [->|Hne].
  - rewrite zget_insert_eq in Hq' by lia. injection Hq' as <-. rewrite lookup_insert in Hci. case_decide as E.
    + injection Hci as <-. by subst.
    + by eapply Hm.
  - rewrite zget_insert_ne in Hq' by lia. by eapply Hm.
Qed.

Lemma clone_lookahead b : words_ok b → words_ok (cloneLookaheadBitset ng b) ∧ ∀ t, mem (cloneLookaheadBitset ng b) t → mem b t.
Proof using.
  intros Hw. unfold cloneLookaheadBitset, allocLookaheadBitset.
  assert (∃ n, newBitset (TokenCount ng) = make n 0) as [n ->] by (eexists; reflexivity).
  unfold make. rewrite length_replicate, drop_replicate. set (c := Z.to_nat n). split.
  - apply Forall_app. split; [by apply Forall_take|apply Forall_replicate; lia].
  - intros t Ht. assert (mem (take c b ++ make (Z.of_nat (c - length b)) 0) t) as Ht'.
    { unfold make. by rewrite Nat2Z.id. }
    apply mem_app_zero in Ht' as (w & Hget & Hbit). exists w. split; [|done].
    apply zget_lookup in Hget as [Hi Hget]. apply lookup_take_Some in Hget as [Hget _]. unfold zget. by replace (0 <=? t / 64) with true by lia.
Qed.

Lemma collect_lookaheads_spec F lbs las : table_ok follow_ok F → Forall lb_ok lbs → las_ok las →
  ∃ las', collect_lookaheads ng F lbs las = Ret las' ∧ las_ok las'.
Proof using.
  intros HF Hlbs. revert las. induction Hlbs as [|lb lbs Hlb _ IH]; intros las Hlas; cbn [collect_lookaheads]; [eauto|].
  destruct Hlb as (pi & p & nt & Hcomp & Hnt & HA & Hstep). pose proof Hcomp as (_ & T & HT & _).
  destruct (index_in_range las (lbStateIdx lb)) as (m & -> & Hm); [rewrite (proj1 Hlas); by eapply zget_Some_range|]. cbn [mbind go_bind].
  destruct (index_in_range F (lbNtIdx lb)) as (follow & -> & Hfol); [rewrite (to_len _ _ HF); by eapply zget_Some_range|]. cbn [mbind go_bind].
  pose proof (Forall_zget _ _ _ _ (to_words _ _ HF) Hfol) as Hwf.
  assert (∀ t, mem follow t → la_ok (lbStateIdx lb) (lbCoreIdx lb) t) as Hf.
  { intros t Ht. destruct (to_mem _ _ HF (lbNtIdx lb) t) as (Hr & nt' & g & Hnt' & Hg & Hcan); [by exists follow|]. simplify_eq.
    split; [done|]. exists pi, p, g. split_and!; [done|by apply Hstep|]. left. by rewrite <-HA. }
  rewrite store_ok by (rewrite (proj1 Hlas); by eapply zget_Some_range). cbn [mbind go_bind]. apply IH. apply las_ok_insert; [done|done|..].
  - destruct (m !! lbCoreIdx lb) as [b|] eqn:Eb; [|by apply clone_lookahead].
    destruct (proj2 Hlas _ _ _ _ Hm Eb) as [Hwb _]. by apply unionWith_spec.
  - intros t. destruct (m !! lbCoreIdx lb) as [b|] eqn:Eb; [|intros Ht; by apply Hf, clone_lookahead].
    destruct (proj2 Hlas _ _ _ _ Hm Eb) as [_ Hb]. intros [?|?]%unionWith_mem; [by apply Hb|by apply Hf].
Qed.

Lemma augment_lookahead_spec las : las_ok las → ∃ las', augment_lookahead ng sets ts las = Ret las' ∧ las_ok las'.
Proof using Hng Hsets Hrows Hlen.
  intros Hlas. unfold augment_lookahead. destruct (la_start _ Hng) as (aug & S & Haug & HS & HSt & _).
  rewrite (proj2 (index_Ret _ _ _) Haug). cbn [mbind go_bind]. rewrite HS.
  assert (0 ≤ S < len (Symbols ng)) as HSr.
  { eapply (gw_rhs _ (lg_wf _ (la_lr0 _ Hng)) aug); [by eapply zget_elem|]. rewrite HS. left. }
  destruct (target_edge 0 S HSr) as (q & ok & -> & Hok). cbn [mbind go_bind]. destruct ok; cbn [negb]; [|eauto].
  destruct (edge_facts _ _ _ (Hok eq_refl)) as (_ & Hq & _ & Hstep). destruct (index_in_range sets q Hq) as (T & -> & HT). cbn [mbind go_bind].
  rewrite <-HS. destruct (lookup_completed T q (AugmentProdID ng) aug HT Haug) as (k & ok & -> & Hcomp). cbn [mbind go_bind].
  destruct ok; cbn [negb]; [|eauto]. destruct (Hcomp eq_refl) as [Hc _].
  destruct (index_in_range las q) as (m & -> & Hm); [by rewrite (proj1 Hlas)|]. cbn [mbind go_bind].
  destruct (newBitset_spec (TokenCount ng)) as [Hw0 Hm0]; [apply TokenCount_range|].
  assert (words_ok (default (allocLookaheadBitset ng) (m !! k)) ∧ ∀ t, mem (default (allocLookaheadBitset ng) (m !! k)) t → la_ok q k t) as [Hw Hb].
  { destruct (m !! k) as [b|] eqn:Eb; cbn; [by apply (proj2 Hlas q m k b)|]. split; [done|]. by intros t ?%Hm0. }
  destruct (add_spec _ 0 ltac:(lia) Hw) as (b' & -> & Hw' & Hm'). cbn [mbind go_bind]. rewrite store_ok by (by rewrite (proj1 Hlas)).
  eexists. split; [done|]. apply las_ok_insert; [done..|]. intros t [?| ->]%Hm'; [by apply Hb|].
  split; [pose proof (la_end _ Hng); lia|]. exists (AugmentProdID ng), aug, []. split_and!; [done| |].
  - rewrite HS. apply Hstep. destruct (li_first _ _ Hsets) as (T0 & HT0 & Hv0). by exists T0.
  - by right.
Qed.

Lemma materialize_cores_spec ci0 ces m ci e : zget (materialize_cores ci0 ces m) ci = Some e →
  ∃ ce, zget ces ci = Some ce ∧ ceProdIdx e = entry_prodIdx ce ∧ ceDot e = entry_dot ce ∧ lookaheads e = default [] (m !! (ci0 + ci)).
Proof using.
  revert ci0 ci. induction ces as [|ce ces IH]; intros ci0 ci; cbn [materialize_cores]; [by rewrite zget_nil|].
  destruct (decide (ci = 0)) as [->|Hne].
  - intros [= <-]. exists ce. by rewrite Z.add_0_r.
  - rewrite !zget_cons_ne by done. intros (ce' & ? & ? & ? & E)%IH. exists ce'. split_and!; [done..|].
    by replace (ci0 + 1 + (ci - 1)) with (ci0 + ci) in E by lia.
Qed.

Lemma materialize_spec l las q ces : len las = len l → zget (materializeLALRItemSets l las) q = Some ces →
  ∃ T m, zget l q = Some T ∧ zget las q = Some m ∧ ces = materialize_cores 0 (cores T) m.
Proof using.
  revert las q. induction l as [|T l IH]; intros [|m las] q Hl; cbn [materializeLALRItemSets]; try by rewrite zget_nil.
  destruct (decide (q = 0)) as [->|Hne]; [intros [= <-]; by exists T, m|]. rewrite !zget_cons_ne by done. apply IH.
  rewrite !len_cons in Hl. lia.
Qed.

(** There is a transition on the start symbol. *)
Lemma nts_nonempty : len nts ≠ 0.
Proof using Hng Hsets Hrows.
  clear Hcount. destruct (la_start _ Hng) as (aug & S & Haug & HS & HSt & _). destruct (li_first _ _ Hsets) as (T0 & HT0 & Hv0).
  pose proof (zget_Some_range _ _ _ HT0) as Hr. destruct (ri_done _ _ _ Hrows 0 T0 Hr HT0) as (_ & _ & Hsym).
  assert (S ∈ map ltSym (transitionRow ts 0)) as ([S' t] & -> & Hin)%list_elem_of_fmap.
  { apply Hsym. exists (AugmentProdID ng, 0). split; [apply Hv0; constructor|]. unfold item_next. cbn. rewrite Haug. cbn. by rewrite HS. }
  unfold transitionRow in Hin. destruct (zget ts 0) as [row|] eqn:E; cbn in Hin; [|by apply elem_of_nil in Hin].
  assert (mkNtTransition 0 S' t ∈ nts) as Hnt.
  { unfold nt_transitions. rewrite sort_slice_perm. apply nt_pairs_elem. exists row. cbn [ntState ntNonterm ntTarget]. by rewrite Z.sub_0_r. }
  destruct nts as [|nt l]; [by apply elem_of_nil in Hnt|]. rewrite len_cons. pose proof (len_nonneg l). lia.
Qed.

(** What each step returned, and what is known of it. *)
Record lalr_run (r : lalr_steps) : Prop := {
  lr_direct : direct_reads ng ts nts = Ret (st_direct r);
  lr_direct_len : len (st_direct r) = len nts;
  lr_direct_words : Forall words_ok (st_direct r);
  lr_direct_mem i t : in_set (st_direct r) i t ↔ ∃ nt e, zget nts i = Some nt ∧ e ∈ transitionRow ts (ntTarget nt) ∧ ltSym e = t ∧ t < TokenCount ng;
  lr_seed : seed_end ng ix (st_direct r) = Ret (st_seed r);
  lr_seed_ok : table_ok read_ok (st_seed r);
  lr_reads : reads_relation ng nullables ts ix nts = Ret (st_reads r);
  lr_reads_len : len (st_reads r) = len nts;
  lr_reads_edge i j : edge (st_reads r) i j ↔ ∃ nt C, zget nts i = Some nt ∧ ix !! (ntTarget nt, C) = Some j ∧ derives ng [C] [];
  lr_pass1 : digraph (len nts) (st_seed r) (st_reads r) = Ret (st_read r);
  lr_read_ok : table_ok read_ok (st_read r);
  lr_table : include_table ng nullables (Productions ng) = Ret (st_table r);
  lr_rows : Forall2 row_ok (Productions ng) (st_table r);
  lr_trace : trace_states ng sets ts ix (λ _, false) (st_table r) 0 sets (make (len nts) []) [] = Ret (Some (st_includes r, st_lookbacks r));
  lr_inc : inc_ok (st_includes r);
  lr_pass2 : digraph (len nts) (st_read r) (st_includes r) = Ret (st_follow r);
  lr_follow_ok : table_ok follow_ok (st_follow r);
  lr_collect : collect_lookaheads ng (st_follow r) (st_lookbacks r) (make (len sets) ∅) = Ret (st_collected r);
  lr_las1 : las_ok (st_collected r);
  lr_augment : augment_lookahead ng sets ts (st_collected r) = Ret (st_las r);
  lr_las : las_ok (st_las r) }.

Lemma lalr_run_exists : ∃ r, lalr_run r.
Proof using Hng Hsets Hrows Hlen Hnull Hclosed Hcount Hmodel.
  destruct (direct_reads_spec nts (λ _ H, H)) as (dr0 & Hdir & Hl0 & Hw0 & Hm0).
  destruct (seed_end_spec dr0) as (dr & Hseed & Hdr).
  { split; [done..|]. intros i t (nt & e & Hnt & He & <- & Ht)%Hm0. by apply (dr_read_ok i nt e). }
  destruct (reads_relation_spec nts (λ _ H, H)) as (rs & Hrel & Hlr & Hreads).
  assert (∀ i j, edge rs i j ↔ ∃ nt C, zget nts i = Some nt ∧ ix !! (ntTarget nt, C) = Some j ∧ derives ng [C] []) as Hedge.
  { intros i j. rewrite Hreads. split.
    - intros (nt & C & k & Hnt & Hk & -> & HC). destruct (ix_u32 _ _ Hk) as [_ ->]. eauto.
    - intros (nt & C & Hnt & Hj & HC). exists nt, C, j. split_and!; [done..| |done]. by destruct (ix_u32 _ _ Hj) as [_ ->]. }
  destruct (digraph_ok read_ok dr rs Hdr Hlr) as (rF & Hpass1 & Hread).
  { intros i j (nt & C & _ & Hk & _)%Hedge. by apply (ix_u32 _ _ Hk). }
  { intros i j t (nt & C & Hnt & Hk & HC)%Hedge. by apply (reads_ok i j nt C j). }
  destruct (include_table_spec (Productions ng) (λ _ H, H)) as (table & Htable & Htab).
  destruct (trace_states_spec table sets [] (make (len nts) []) [] Htab eq_refl) as (inc & lbs & Hrun & Hinc & Hlbs).
  { split; [apply len_make, len_nonneg|]. intros i j (ys & Hys & Hj). apply zget_elem, elem_of_replicate in Hys as [-> _]. by apply elem_of_nil in Hj. }
  { constructor. }
  destruct (digraph_ok follow_ok rF inc (read_follow_ok _ Hread) (proj1 Hinc)) as (fF & Hpass2 & Hfollow).
  { intros i j (_ & ntj & _ & _ & _ & _ & Hj & _)%(proj2 Hinc). by eapply zget_Some_range. }
  { intros i j t Hij%(proj2 Hinc). by apply includes_follow. }
  destruct (collect_lookaheads_spec fF lbs (make (len sets) ∅) Hfollow Hlbs) as (las1 & Hcol & Hlas1).
  { split; [apply len_make, len_nonneg|]. intros q m ci b Hq Hci. apply zget_elem, elem_of_replicate in Hq as [-> _]. by rewrite lookup_empty in Hci. }
  destruct (augment_lookahead_spec las1 Hlas1) as (las & Haug & Hlas). by exists (mkSteps dr0 dr rs rF table inc lbs fF las1 las).
Qed.

Lemma lalr_run_result r : lalr_run r →
  computeLALRLookaheads ng nullables (λ _, false) ctx = Ret (materializeLALRItemSets sets (st_las r)).
Proof using Hng Hsets Hrows.
  clear Hcount. intros R. unfold computeLALRLookaheads. pose proof nts_nonempty as Hne. replace (len nts =? 0) with false by lia.
  rewrite (lr_direct _ R). cbn [mbind go_bind]. rewrite (lr_seed _ R). cbn [mbind go_bind].
  rewrite (lr_reads _ R). cbn [mbind go_bind]. rewrite (lr_pass1 _ R). cbn [mbind go_bind].
  rewrite (lr_table _ R). cbn [mbind go_bind]. rewrite (lr_trace _ R). cbn [mbind go_bind].
  rewrite (lr_pass2 _ R). cbn [mbind go_bind]. rewrite (lr_collect _ R). cbn [mbind go_bind].
  rewrite (lr_augment _ R). done.
Qed.

Lemma lookaheads_spec : ∃ las, computeLALRLookaheads ng nullables (λ _, false) ctx = Ret (materializeLALRItemSets sets las) ∧ las_ok las.
Proof using Hng Hsets Hrows Hlen Hnull Hclosed Hcount Hmodel.
  destruct lalr_run_exists as [r R]. exists (st_las r).
  split; [by eapply lalr_run_result|apply R].
Qed.
End steps.
