(* ===== verification/LalrSound.v ===== *)
(** * Lookaheads are genuine

    Every token that [computeLALRLookaheads] gives a completed item can follow
    the item's left-hand side in a sentence, after a prefix that leads to the
    item's state.  The reverse fails: a token is lost on a small grammar. *)

From Stdlib Require Import ZArith Lia ZifyBool.
From stdpp Require Import base tactics list numbers option relations gmap sorting.
From S2P Require Import Prelude SliceSort Bitset LrGrammar LrFirst Digraph Lr0 Lr0Closure Lr0Kernels Lr0Correct Lalr LalrSteps.
Local Open Scope Z_scope.

(** The symbol that derives all sentences. *)
Definition start_symbol (ng : NormalizedGrammar) : Z :=
  match zget (Productions ng) (AugmentProdID ng) with Some aug => LHS aug | None => 0 end.

(** The text begins with the token; the end of input begins the empty text. *)
Definition begins (w : list Z) (t : Z) : Prop := match w with [] => t = 0 | x :: _ => x = t end.

(** [t] can follow [A] after the prefix [g]. *)
Definition can_follow (ng : NormalizedGrammar) (g : list Z) (A t : Z) : Prop :=
  ∃ w, derives ng [start_symbol ng] (g ++ A :: w) ∧ begins w t.

Section derivations.
Context (ng : NormalizedGrammar) (Hng : lalr_grammar ng).

Lemma start_symbol_eq aug : zget (Productions ng) (AugmentProdID ng) = Some aug → start_symbol ng = LHS aug.
Proof using. unfold start_symbol. by intros ->. Qed.

(** A valid item's production can be applied behind the rest of the prefix. *)
Lemma valid_derives g q d : valid_item ng g (q, d) →
  ∃ p pre w, zget (Productions ng) q = Some p ∧ g = pre ++ take (Z.to_nat d) (RHS p) ∧ 0 ≤ d ∧
    derives ng [start_symbol ng] (pre ++ LHS p :: w).
Proof using Hng.
  remember (q, d) as i eqn:Ei. intros Hv. revert q d Ei.
  induction Hv as [|g [r e] B q p Hv IH Hn HB Hq Hl|g r e X Hv IH Hn]; intros q' d [= <- <-].
  - destruct (la_start _ Hng) as (aug & S & Haug & _). exists aug, [], []. split_and!; [done|done|lia|].
    rewrite (start_symbol_eq aug Haug). constructor.
  - destruct (IH r e eq_refl) as (pr & pre & w & Hr & -> & He & Hd). unfold item_next in Hn. cbn in Hn. rewrite Hr in Hn. cbn in Hn.
    apply zget_lookup in Hn as [_ Hn]. exists p, (pre ++ take (Z.to_nat e) (RHS pr)), (drop (S (Z.to_nat e)) (RHS pr) ++ w).
    split_and!; [done|by rewrite app_nil_r|lia|]. etrans; [exact Hd|]. apply rtc_once.
    pose proof (derive ng pre pr w (zget_elem _ _ _ Hr)) as Hs. rewrite <-(take_drop_middle _ _ _ Hn) in Hs at 1.
    rewrite <-!app_assoc in Hs. rewrite <-app_assoc, Hl. exact Hs.
  - destruct (IH r e eq_refl) as (pr & pre & w & Hr & -> & He & Hd). unfold item_next in Hn. cbn in Hn. rewrite Hr in Hn. cbn in Hn.
    apply zget_lookup in Hn as [_ Hn]. exists pr, pre, w. split_and!; [done| |lia|done].
    replace (Z.to_nat (e + 1)) with (S (Z.to_nat e)) by lia. rewrite (take_S_r _ _ _ Hn). by rewrite app_assoc.
Qed.

(** The symbol after the dot of a valid item can be read after the prefix. *)
Lemma valid_reads g i X : valid_item ng g i → item_next ng i = Some X → ∃ w, derives ng [start_symbol ng] (g ++ X :: w).
Proof using Hng.
  destruct i as [q d]. intros Hv Hn. destruct (valid_derives g q d Hv) as (p & pre & w & Hq & -> & Hd & Hder).
  unfold item_next in Hn. cbn in Hn. rewrite Hq in Hn. cbn in Hn. apply zget_lookup in Hn as [_ Hn].
  exists (drop (S (Z.to_nat d)) (RHS p) ++ w). etrans; [exact Hder|]. apply rtc_once.
  pose proof (derive ng pre p w (zget_elem _ _ _ Hq)) as Hs. rewrite <-(take_drop_middle _ _ _ Hn) in Hs at 1.
  rewrite <-!app_assoc in Hs. rewrite <-app_assoc. exact Hs.
Qed.

(** ** Following through relations *)

Lemma can_follow_nullable g A C t : derives ng [C] [] → can_follow ng (g ++ [A]) C t → can_follow ng g A t.
Proof using.
  intros HC (w & Hd & Hb). exists w. split; [|done]. etrans; [exact Hd|]. rewrite <-app_assoc. cbn.
  pose proof (derives_context ng [C] [] (g ++ [A]) w HC) as Hs. by rewrite <-!app_assoc in Hs.
Qed.

Lemma can_follow_production g p beta A eta t : p ∈ Productions ng → RHS p = beta ++ A :: eta → derives ng eta [] →
  can_follow ng g (LHS p) t → can_follow ng (g ++ beta) A t.
Proof using.
  intros Hp HR Heta (w & Hd & Hb). exists w. split; [|done]. etrans; [exact Hd|].
  etrans; [apply rtc_once, (derive ng g p w Hp)|]. rewrite HR.
  pose proof (derives_context ng eta [] (g ++ beta ++ [A]) w Heta) as Hs. cbn [app] in Hs.
  repeat rewrite <-app_assoc in Hs. repeat rewrite <-app_assoc. exact Hs.
Qed.

(** Following in a sentence is closed under the relations. *)
Lemma can_follow_model : follow_model ng (can_follow ng) (can_follow ng).
Proof using Hng.
  split.
  - intros g A i t Hv Hn _. destruct (valid_reads _ i t Hv Hn) as [w Hd]. exists (t :: w). split; [|done]. by rewrite <-app_assoc in Hd.
  - apply can_follow_nullable.
  - intros aug S Haug HS. exists []. split; [|done]. cbn. rewrite (start_symbol_eq aug Haug), <-HS.
    apply derives_production. by eapply zget_elem.
  - done.
  - apply can_follow_production.
Qed.
End derivations.


(** C7.  LALR(1) lookaheads are genuine.  On a grammar with an augmented start
    production, [buildItemSetsLALR] without budgets and context tags returns; whenever a token is in
    the lookahead set of an item, the item is completed, and there is a prefix that
    leads, with the production's right-hand side, to the item's state, and after
    which the token can follow the production's left-hand side in a sentence (the
    end of input, when nothing follows). *)
Theorem lalr_lookaheads_sound `{SliceSort} ng fuel ctx :
  lalr_grammar ng → (2 ^ item_count ng ≤ fuel)%nat → buildLR0 ng 0 0 (λ _, false) fuel = Ret ctx →
  len (lalrLR0ItemSets ctx) ≤ 2 ^ 32 → len (nt_transitions ng (transitions ctx)) < infinity →
  ∃ items, buildItemSetsLALR ng 0 0 (λ _, false) fuel = Ret items ∧
    ∀ q ces ci e t, zget items q = Some ces → zget ces ci = Some e → mem (lookaheads e) t →
      0 ≤ t < TokenCount ng ∧ ∃ p g w, zget (Productions ng) (ceProdIdx e) = Some p ∧ ceDot e = len (RHS p) ∧
        lr_walk (transitions ctx) 0 (g ++ RHS p) = Ret (Some q) ∧
        derives ng [start_symbol ng] (g ++ LHS p :: w) ∧ begins w t.
Proof.
  intros Hng Hf Hrun Hlen Hcount. pose proof (la_lr0 _ Hng) as Hlr0.
  destruct (buildLR0_inv ng Hlr0 fuel Hf) as (ctx' & Hrun' & Hs & Hr). rewrite Hrun in Hrun'. injection Hrun' as <-.
  destruct (computeFirstSets_inv ng (lg_wf _ Hlr0)) as (F & nullables & Hfirst & Hnull & Hclosed & _).
  unfold buildItemSetsLALR. rewrite Hfirst. cbn [mbind go_bind]. rewrite Hrun. cbn [mbind go_bind].
  assert (lalrLR0StateBudgetExceeded ctx || lalrLR0CoreBudgetExceeded ctx = false) as -> by (destruct (li_budget _ _ Hs) as [-> ->]; done).
  destruct (lookaheads_spec ng Hng ctx Hs Hr Hlen _ _ (can_follow_model ng Hng) nullables Hnull Hclosed Hcount) as (las & -> & Hl & Hlas). eexists. split; [done|].
  intros q ces ci e t Hq Hci Ht. apply materialize_spec in Hq as (T & m & HT & Hm & ->); [|done].
  apply materialize_cores_spec in Hci as (ce & Hce & Ep & Ed & El). rewrite Z.add_0_l in El. rewrite El in Ht.
  destruct (m !! ci) as [b|] eqn:Eb; cbn in Ht; [|destruct Ht as (x & Hx & _); by rewrite zget_nil in Hx].
  destruct (Hlas q m ci b Hm Eb) as [_ Hb]. destruct (Hb t Ht) as (Htr & pi & p & g & (Hp & T' & HT' & Hc) & Hat & Hfol).
  assert (can_follow ng g (LHS p) t) as (w & Hd & Hw).
  { destruct Hfol as [?|(-> & -> & ->)]; [done|]. exists []. rewrite (start_symbol_eq ng p Hp). split; [constructor|done]. }
  simplify_eq. assert (item_ok ng (pi, len (RHS p))) as Hok.
  { exists p. split; [done|]. cbn. pose proof (len_nonneg (RHS p)). lia. }
  destruct (pack_item ng Hlr0 _ Hok) as [_ Eu]. unfold unpacked in Eu. injection Eu as E1 E2.
  split; [done|]. exists p, g, w. rewrite Ep, Ed, E1, E2. split_and!; [done|done| |done|done].
  apply (walk_at_state ng Hlr0 ctx Hs Hr Hlen _ q (pi, len (RHS p))); [|done].
  destruct Hat as (T'' & HT'' & Hv). simplify_eq. apply Hv. split; [done|by eapply zget_elem].
Qed.

(** Tokens: the end of input (0), [a] (1), [c] (2), [b] (3).
    [S' → S], [A → ], [S → A], [A → a S], [A → b S], [S → a c B], [B → A]. *)
Definition lost_grammar : NormalizedGrammar :=
  plain_grammar
    [plain_symbol SymbolTerminal; plain_symbol SymbolTerminal; plain_symbol SymbolTerminal; plain_symbol SymbolTerminal;
     plain_symbol SymbolNonterminal; plain_symbol SymbolNonterminal; plain_symbol SymbolNonterminal; plain_symbol SymbolNonterminal]
    [plain_production 4 [5]; plain_production 7 []; plain_production 5 [7]; plain_production 7 [1; 5];
     plain_production 7 [3; 5]; plain_production 5 [1; 2; 6]; plain_production 6 [7]] 0.

Lemma lost_grammar_ok : lalr_grammar lost_grammar.
Proof. by apply lalr_grammarb_ok. Qed.

Lemma lost_step a q p b : zget (Productions lost_grammar) q = Some p →
  derives_step lost_grammar (a ++ LHS p :: b) (a ++ RHS p ++ b).
Proof. intros Hp. apply derive. by eapply zget_elem. Qed.

(** What the construction gives for a word: the state it leads to, the items of
    the state with their lookaheads, and the transition on the end of input. *)
Definition lost_run (g : list Z) : option (go (option Z) * option (list (Z * Z * bitset)) * go (Z * bool)) :=
  match buildLR0 lost_grammar 0 0 (λ _, false) 20, buildItemSetsLALR lost_grammar 0 0 (λ _, false) 20 with
  | Ret ctx, Ret items => Some (lr_walk (transitions ctx) 0 g, map (λ e, (ceProdIdx e, ceDot e, lookaheads e)) <$> zget items 8,
      transitionTarget (transitions ctx) 8 0)
  | _, _ => None
  end.

(** C37.  A lookahead is lost on a small grammar without conflicts.  The sentence
    a c a is derived from the start symbol, with the empty production of A at its
    end.  The prefix leads to state 8, whose only completed item is that
    production, but its lookahead set is empty and there is no transition on the
    end of input: the parser has no action there and rejects the sentence. *)
Theorem lalr_loses_lookahead :
  derives lost_grammar [start_symbol lost_grammar] ([1; 2; 1] ++ [7]) ∧
  derives lost_grammar [start_symbol lost_grammar] [1; 2; 1] ∧
  lost_run [1; 2; 1] = Some (Ret (Some 8),
    Some [(1, 0, [0]); (2, 0, []); (3, 0, []); (3, 1, []); (4, 0, []); (5, 0, [])], Ret (0, false)).
Proof.
  assert (derives lost_grammar [start_symbol lost_grammar] ([1; 2; 1] ++ [7])) as Hd.
  { eapply rtc_l; [apply (lost_step [] 0 (plain_production 4 [5]) [] eq_refl)|].
    eapply rtc_l; [apply (lost_step [] 5 (plain_production 5 [1; 2; 6]) [] eq_refl)|].
    eapply rtc_l; [apply (lost_step [1; 2] 6 (plain_production 6 [7]) [] eq_refl)|].
    eapply rtc_l; [apply (lost_step [1; 2] 3 (plain_production 7 [1; 5]) [] eq_refl)|].
    eapply rtc_l; [apply (lost_step [1; 2; 1] 2 (plain_production 5 [7]) [] eq_refl)|]. constructor. }
  split; [exact Hd|]. split; [|vm_compute; reflexivity].
  eapply rtc_r; [exact Hd|]. apply (lost_step [1; 2; 1] 1 (plain_production 7 []) [] eq_refl).
Qed.

(** The sizes of the automaton, and one item with its lookaheads. *)
Definition lost_item (q ci : Z) : option (Z * Z * option coreEntry) :=
  match buildLR0 lost_grammar 0 0 (λ _, false) (2 ^ 17), buildItemSetsLALR lost_grammar 0 0 (λ _, false) (2 ^ 17) with
  | Ret ctx, Ret items => Some (len (lalrLR0ItemSets ctx), len (nt_transitions lost_grammar (transitions ctx)),
      ces ← zget items q; zget ces ci)
  | _, _ => None
  end.

Lemma lalr_lookaheads_sound_witness : ∃ items ces e,
  buildItemSetsLALR lost_grammar 0 0 (λ _, false) (2 ^ 17) = Ret items ∧ zget items 3 = Some ces ∧ zget ces 0 = Some e ∧
  ceProdIdx e = 1 ∧ ∃ g w, derives lost_grammar [start_symbol lost_grammar] (g ++ 7 :: w) ∧ begins w 0.
Proof.
  assert (lost_item 3 0 = Some (11, 10, Some (mkCoreEntry 1 0 [1]))) as E by (vm_compute; reflexivity).
  assert (2 ^ item_count lost_grammar ≤ 2 ^ 17)%nat as Hfuel by (apply Nat.pow_le_mono_r; [lia|vm_compute; lia]).
  unfold lost_item in E. revert E Hfuel. generalize (2 ^ 17)%nat as fuel. intros fuel E Hfuel.
  destruct (buildLR0 lost_grammar 0 0 (λ _, false) fuel) as [ctx| |] eqn:Hrun; [|discriminate..].
  destruct (lalr_lookaheads_sound lost_grammar fuel ctx lost_grammar_ok) as (items & Hitems & Hla).
  - exact Hfuel.
  - exact Hrun.
  - destruct (buildItemSetsLALR _ _ _ _ _); [|discriminate..]. injection E as -> _ _. lia.
  - destruct (buildItemSetsLALR _ _ _ _ _); [|discriminate..]. injection E as _ En _.
    change (len (nt_transitions lost_grammar (transitions ctx)) = 10) in En. rewrite En. reflexivity.
  - rewrite Hitems in E. injection E as _ _ He. destruct (zget items 3) as [ces|] eqn:Hces; [|discriminate]. cbn in He.
    exists items, ces, (mkCoreEntry 1 0 [1]). destruct (Hla 3 ces 0 (mkCoreEntry 1 0 [1]) 0) as (_ & p & g & w & Hp & _ & _ & Hd & Hb);
      [exact Hces|exact He|exists 1; split; reflexivity|]. injection Hp as <-.
    split; [exact Hitems|]. split; [exact Hces|]. split; [exact He|]. split; [reflexivity|]. exists g, w. split; [exact Hd|exact Hb].
Defined.
