(* ===== verification/LalrExact.v ===== *)
(** * Lookaheads are those of the merged LR(1) automaton

    The items of Knuth's canonical LR(1) automaton, as an inductive definition,
    and the proof that [buildItemSetsLALR] (grammargen/lr_lalr.go) gives a
    completed item exactly the lookaheads that the canonical items over the same
    LR(0) state have, when the relations it closes over are free of cycles. *)

From Stdlib Require Import ZArith Lia ZifyBool.
From stdpp Require Import base tactics list numbers option relations gmap sorting.
From S2P Require Import Prelude SliceSort Bitset LrGrammar LrFirst Digraph Lr0 Lr0Closure Lr0Kernels Lr0Correct Lalr LalrSteps.
Local Open Scope Z_scope.

(** ** LR(1) items *)

(** What follows the dot. *)
Definition after_dot (ng : NormalizedGrammar) (i : item) : list Z :=
  match zget (Productions ng) i.1 with Some p => drop (Z.to_nat i.2) (RHS p) | None => [] end.

(** FIRST of a sequence that the token [t] follows. *)
Definition first_of (ng : NormalizedGrammar) (rest : list Z) (t u : Z) : Prop :=
  (0 ≤ u < TokenCount ng ∧ ∃ w, derives ng rest (u :: w)) ∨ (derives ng rest [] ∧ u = t).

(** The item with lookahead [t] is valid for the prefix. *)
Inductive lr1_item (ng : NormalizedGrammar) : list Z → item → Z → Prop :=
| lr1_start : lr1_item ng [] (AugmentProdID ng, 0) 0
| lr1_expand g p d B t q pr u : lr1_item ng g (p, d) t → item_next ng (p, d) = Some B → TokenCount ng ≤ B →
    zget (Productions ng) q = Some pr → LHS pr = B → first_of ng (after_dot ng (p, d + 1)) t u → lr1_item ng g (q, 0) u
| lr1_shift g p d X t : lr1_item ng g (p, d) t → item_next ng (p, d) = Some X → lr1_item ng (g ++ [X]) (p, d + 1) t.

(** Every symbol derives a string of tokens. *)
Definition productive (ng : NormalizedGrammar) : Prop :=
  ∀ X, 0 ≤ X < len (Symbols ng) → ∃ w, Forall (λ t, 0 ≤ t < TokenCount ng) w ∧ derives ng [X] w.

Section items.
Context (ng : NormalizedGrammar) (Hng : lalr_grammar ng).

Lemma after_dot_next p d X : item_next ng (p, d) = Some X → after_dot ng (p, d) = X :: after_dot ng (p, d + 1).
Proof using.
  unfold item_next, after_dot. cbn. destruct (zget (Productions ng) p) as [pr|]; [|done]. cbn. intros [Hd Hl]%zget_lookup.
  rewrite (drop_S _ _ _ Hl). by replace (Z.to_nat (d + 1)) with (S (Z.to_nat d)) by lia.
Qed.

Lemma after_dot_split q p beta eta : zget (Productions ng) q = Some p → RHS p = beta ++ eta → after_dot ng (q, len beta) = eta.
Proof using. unfold after_dot, len. cbn. intros -> HR. by rewrite HR, Nat2Z.id, drop_app_length. Qed.

Lemma item_next_split q p beta A eta : zget (Productions ng) q = Some p → RHS p = beta ++ A :: eta → item_next ng (q, len beta) = Some A.
Proof using. unfold item_next. cbn. intros -> HR. cbn. by rewrite HR, zget_app_r, Z.sub_diag by lia. Qed.

Lemma after_dot_range p d : Forall (λ X, 0 ≤ X < len (Symbols ng)) (after_dot ng (p, d)).
Proof using Hng.
  unfold after_dot. cbn. destruct (zget (Productions ng) p) as [pr|] eqn:Hp; [|constructor]. apply Forall_drop, list.Forall_forall.
  intros x Hx. apply (gw_rhs _ (lg_wf _ (la_lr0 _ Hng)) pr x); [by eapply zget_elem|done].
Qed.

Lemma lr1_valid g i t : lr1_item ng g i t → valid_item ng g i.
Proof using. induction 1 as [|g p d B t q pr u _ IH Hn HB Hq Hl _|g p d X t _ IH Hn]; [constructor|by eapply valid_expand|by constructor]. Qed.

(** ** First tokens by rules *)

(** The token begins what the sequence derives. *)
Inductive starts : list Z → Z → Prop :=
| starts_token t u : 0 ≤ t < TokenCount ng → starts (t :: u) t
| starts_null X u t : derives ng [X] [] → starts u t → starts (X :: u) t
| starts_prod p u t : p ∈ Productions ng → starts (RHS p) t → starts (LHS p :: u) t.

Lemma derives_nil_iff u : derives ng u [] ↔ Forall (λ X, derives ng [X] []) u.
Proof using Hng.
  split; [|apply derives_nil]. intros Hd. destruct (computeFirstSets_inv ng (lg_wf _ (la_lr0 _ Hng))) as (_ & nullables & _ & Hnull & Hcl & _).
  eapply Forall_impl; [by apply (null_closed_complete ng nullables)|]. intros X HX. by apply (ni_sound _ _ Hnull).
Qed.

Lemma first_app u v t : starts (u ++ v) t ↔ starts u t ∨ (derives ng u [] ∧ starts v t).
Proof using Hng.
  induction u as [|X u IH]; cbn [app].
  { split; [right; split; [constructor|done]|]. intros [H|[_ ?]]; [inversion H|done]. }
  split.
  - inversion 1; subst; [left; by constructor| |left; by constructor]. destruct (proj1 IH) as [?|[? ?]]; [done|left; by constructor|].
    right. split; [by apply (derives_app ng [X] [] u [])|done].
  - intros [H|[Hd Hv]]; [inversion H; subst; [by constructor|constructor; [done|apply IH; by left]|by constructor]|].
    apply derives_nil_iff in Hd as [HX Hu]%list.Forall_cons_1. constructor; [done|]. apply IH. right. split; [|done]. by apply derives_nil_iff.
Qed.

Lemma starts_derives u t : starts u t ↔ 0 ≤ t < TokenCount ng ∧ ∃ w, derives ng u (t :: w).
Proof using Hng.
  split.
  - induction 1 as [t u Ht|X u t HX _ (Ht & w & Hd)|p u t Hp _ (Ht & w & Hd)]; (split; [done|]).
    + exists u. constructor.
    + exists w. by apply (derives_app ng [X] [] u (t :: w)).
    + exists (w ++ u). apply (derives_app ng [LHS p] (t :: w) u u); [|constructor]. etrans; [by apply derives_production|done].
  - intros (Ht & w & Hd). remember (t :: w) as v eqn:Ev. revert Ev. induction Hd as [v|u u' v Hs _ IH]; intros ->; [by constructor|].
    specialize (IH eq_refl). destruct Hs as [a p b Hp]. apply first_app in IH as [Ha|[Ha Hr]]; apply first_app; [by left|right].
    split; [done|]. apply first_app in Hr as [Hr|[Hr Hb]]; [by constructor|]. constructor; [|done].
    etrans; [by apply derives_production|done].
Qed.

Lemma first_of_starts rest t u : first_of ng rest t u ↔ starts rest u ∨ (derives ng rest [] ∧ u = t).
Proof using Hng. unfold first_of. by rewrite starts_derives. Qed.

(** A token that can begin the text behind an item comes from the kernel. *)
Lemma kernel_starts g A i t : valid_item ng (g ++ [A]) i → starts (after_dot ng i) t →
  ∃ p d, valid_item ng g (p, d) ∧ item_next ng (p, d) = Some A ∧ starts (after_dot ng (p, d + 1)) t.
Proof using.
  intros Hv%valid_snoc. induction Hv as [i (p & d & Hv & Hn & ->)|[p d] B q pr _ IH Hn HB Hq Hl]; intros Ht; [by exists p, d|].
  apply IH. rewrite (after_dot_next _ _ _ Hn). subst B. constructor; [by eapply zget_elem|].
  by rewrite (after_dot_split q pr [] (RHS pr) : _ → _ → after_dot ng (q, 0) = _) in Ht.
Qed.

(** ** Following in the LR(1) automaton *)

Definition lr1_reading (g : list Z) (A t : Z) : Prop := ∃ p d, valid_item ng g (p, d) ∧ item_next ng (p, d) = Some A ∧
  (starts (after_dot ng (p, d + 1)) t ∨ g = [] ∧ (p, d) = (AugmentProdID ng, 0) ∧ t = 0).

(** The productions of [A] get the lookahead [t] after the prefix. *)
Definition lr1_following (g : list Z) (A t : Z) : Prop := ∃ p d u, lr1_item ng g (p, d) u ∧ item_next ng (p, d) = Some A ∧
  first_of ng (after_dot ng (p, d + 1)) u t.

(** Items move along their right-hand sides. *)
Lemma lr1_along g q t p beta eta : lr1_item ng g (q, 0) t → zget (Productions ng) q = Some p → RHS p = beta ++ eta →
  lr1_item ng (g ++ beta) (q, len beta) t.
Proof using.
  intros Hi Hq. revert eta. induction beta as [|A beta IH] using rev_ind; intros eta HR; [by rewrite app_nil_r|].
  rewrite <-app_assoc in HR. rewrite app_assoc, len_app. apply lr1_shift; [by apply (IH (A :: eta))|].
  by apply (item_next_split q p beta A eta).
Qed.

(** In a productive grammar every valid item has a lookahead. *)
Lemma valid_lr1 g i : productive ng → valid_item ng g i → ∃ t, lr1_item ng g i t.
Proof using Hng.
  intros Hprod. induction 1 as [|g [p d] B q pr _ [t IH] Hn HB Hq Hl|g p d X _ [t IH] Hn]; [exists 0; constructor| |exists t; by constructor].
  assert (∃ w, Forall (λ t, 0 ≤ t < TokenCount ng) w ∧ derives ng (after_dot ng (p, d + 1)) w) as (w & Hw & Hd).
  { generalize (after_dot_range p (d + 1)). generalize (after_dot ng (p, d + 1)) as u.
    induction 1 as [|X u HX _ (w & Hw & Hd)]; [exists []; split; constructor|]. destruct (Hprod X HX) as (v & Hv & Hd').
    exists (v ++ w). split; [by apply Forall_app|]. by apply (derives_app ng [X] v u w). }
  destruct w as [|u w]; [exists t|exists u; apply list.Forall_cons_1 in Hw as [? _]]; eapply lr1_expand; try done; [by right|left; eauto].
Qed.

Lemma lr1_follow_model : productive ng → follow_model ng lr1_reading lr1_following.
Proof using Hng.
  intros Hprod. split.
  - intros g A [p d] t Hv Hn Ht. destruct (kernel_starts g A (p, d) t Hv) as (p' & d' & ? & ? & ?); [|exists p', d'; by split_and!; [..|left]].
    rewrite (after_dot_next _ _ _ Hn). by constructor.
  - intros g A C t HC (p & d & Hv & Hn & [Ht|[E _]]); [|by destruct g].
    destruct (kernel_starts g A (p, d) t Hv) as (p' & d' & ? & ? & ?); [|exists p', d'; by split_and!; [..|left]].
    rewrite (after_dot_next _ _ _ Hn). by constructor.
  - intros aug S Haug HS. exists (AugmentProdID ng), 0. split_and!; [constructor|by apply (item_next_split _ aug [] S [])|by right].
  - intros g A t (p & d & Hv & Hn & [Ht|(-> & [= -> ->] & ->)]).
    + destruct (valid_lr1 g (p, d) Hprod Hv) as [u Hu]. exists p, d, u. split_and!; [done..|]. apply first_of_starts. by left.
    + exists (AugmentProdID ng), 0, 0. split_and!; [constructor|done|]. right. split; [|done].
      destruct (la_start _ Hng) as (aug & S & Haug & HS & _). rewrite (after_dot_split _ aug [S] [] Haug HS : after_dot ng (_, 0 + 1) = _). constructor.
  - intros g p beta A eta t [q [_ Hq]]%elem_zget HR Heta (r & d & u & Hr & Hn & Hf).
    assert (lr1_item ng g (q, 0) t) as Hi.
    { eapply lr1_expand; [exact Hr|exact Hn| |exact Hq|done|done]. by apply (gw_lhs _ (lg_wf _ (la_lr0 _ Hng)) p), (zget_elem _ q). }
    exists q, (len beta), t. split_and!; [by apply (lr1_along g q t p beta (A :: eta))|by apply (item_next_split q p beta A eta)|].
    right. split; [|done]. replace (len beta + 1) with (len (beta ++ [A])) by (by rewrite len_app).
    rewrite (after_dot_split q p (beta ++ [A]) eta); [done|done|by rewrite <-app_assoc].
Qed.
End items.

(** ** The passes over the relations *)

Record passes := mkPasses {
  reads : list (list Z); readSets : list bitset; includes : list (list Z); followSets : list bitset }.

(** A set is kept along the edges of a relation. *)
Definition closed_along (rel : list (list Z)) (F : list bitset) : Prop := ∀ i j t, edge rel i j → in_set F j t → in_set F i t.

(** The pass over the relation lost nothing: there is no cycle to lose it on, or
    the result is closed. *)
Definition pass_ok (rel : list (list Z)) (F : list bitset) : Prop := acyclic rel ∨ closed_along rel F.

(** ** Completeness of the steps *)

Section complete.
Context `{SliceSort} (ng : NormalizedGrammar) (Hng : lalr_grammar ng) (ctx : lr0ctx).
Context (Hsets : sets_inv ng ctx) (Hrows : rows_inv ng (len (lalrLR0ItemSets ctx)) ctx) (Hlen : len (lalrLR0ItemSets ctx) ≤ 2 ^ 32).

Notation sets := (lalrLR0ItemSets ctx).
Notation ts := (transitions ctx).
Notation at_state := (at_state ng ctx).
Notation nts := (nt_transitions ng ts).
Notation ix := (nt_index 0 nts ∅).

Context (Hcount : len nts < infinity).

(** A prefix leads to one state. *)
Lemma at_state_unique g i s s' : valid_item ng g i → at_state g s → at_state g s' → s = s'.
Proof using Hng Hsets Hrows Hlen.
  intros Hv Hs%(walk_at_state ng (la_lr0 _ Hng) ctx Hsets Hrows Hlen g s i Hv) Hs'%(walk_at_state ng (la_lr0 _ Hng) ctx Hsets Hrows Hlen g s' i Hv).
  congruence.
Qed.

(** The symbol after a dot has a transition. *)
Lemma next_edge g i X s : valid_item ng g i → item_next ng i = Some X → at_state g s →
  ∃ t, mkLrTransition X t ∈ transitionRow ts s ∧ at_state (g ++ [X]) t.
Proof using Hng Hsets Hrows Hlen.
  intros Hv Hn Hs. pose proof Hs as (T & HT & HTv). pose proof (zget_Some_range _ _ _ HT) as Hr.
  destruct (ri_done _ _ _ Hrows s T Hr HT) as (_ & _ & Hsym). assert (X ∈ map ltSym (transitionRow ts s)) as ([X' t] & -> & Hin)%list_elem_of_fmap.
  { apply Hsym. exists i. split; [by apply HTv|done]. }
  exists t. split; [done|]. by apply (edge_facts ng Hng ctx Hsets Hrows Hlen s X' t Hin).
Qed.

Lemma target_of_edge s X t : 0 ≤ X < len (Symbols ng) → mkLrTransition X t ∈ transitionRow ts s → transitionTarget ts s X = Ret (t, true).
Proof using Hng Hsets Hrows Hlen.
  intros HX Hin. pose proof (lg_syms _ (la_lr0 _ Hng)). destruct (edge_facts ng Hng ctx Hsets Hrows Hlen s X t Hin) as (Hs & _).
  destruct (zget_in_range sets s Hs) as [T HT]. destruct (ri_done _ _ _ Hrows s T Hs HT) as (Hinc & _).
  destruct (transitionTarget_spec ts s X ltac:(lia) Hinc) as [(t' & Ht' & ->)|[[] _]]; [|apply list_elem_of_fmap; by exists (mkLrTransition X t)].
  apply elem_zget in Hin as (i & _ & Hi), Ht' as (j & _ & Hj). apply increasing_NoDup in Hinc.
  assert (i = j) as ->; [|congruence]. apply (NoDup_zget_inj _ i j X Hinc); rewrite zget_map; [by rewrite Hi|by rewrite Hj].
Qed.

(** Every transition on a nonterminal has an index. *)
Lemma nt_index_total (i : Z) (l : list ntTransition) (m : gmap (Z * Z) Z) (k : Z * Z) : is_Some (m !! k) ∨ (∃ nt, nt ∈ l ∧ (ntState nt, ntNonterm nt) = k) → is_Some (nt_index i l m !! k).
Proof using.
  revert i m. induction l as [|nt l IH]; intros i m; cbn [nt_index]; [intros [?|(nt & ?%elem_of_nil & _)]; done|].
  intros Hk. apply IH. rewrite lookup_insert. case_decide as E; [left; eauto|]. destruct Hk as [?|(nt' & [->|Hin]%elem_of_cons & Hk)]; eauto. by destruct E.
Qed.

Lemma ix_edge s A t : mkLrTransition A t ∈ transitionRow ts s → TokenCount ng ≤ A →
  ∃ j, ix !! (s, A) = Some j ∧ zget nts j = Some (mkNtTransition s A t).
Proof using Hng Hsets Hrows Hlen.
  intros Hin HA. destruct (edge_facts ng Hng ctx Hsets Hrows Hlen s A t Hin) as (Hs & _ & HAr & _).
  destruct (nt_index_total 0 nts ∅ (s, A)) as [j Hj].
  { right. exists (mkNtTransition s A t). split; [|done]. unfold nt_transitions. rewrite sort_slice_perm. apply nt_pairs_elem.
    cbn [ntState ntNonterm ntTarget]. rewrite Z.sub_0_r. unfold transitionRow in Hin. destruct (zget ts s) as [row|]; [by exists row|by apply elem_of_nil in Hin]. }
  exists j. split; [done|]. destruct (ix_lookup _ _ _ _ _ Hj) as (t' & Ht' & Hin' & _). rewrite Ht'. do 2 f_equal.
  apply (target_of_edge s A _ HAr) in Hin, Hin'. congruence.
Qed.

(** ** Traces reach every position *)

Definition extends (rel rel' : list (list Z)) : Prop := len rel' = len rel ∧ ∀ i j, edge rel i j → edge rel' i j.

Lemma extends_trans r1 r2 r3 : extends r1 r2 → extends r2 r3 → extends r1 r3.
Proof using. intros [? ?] [? ?]. split; [congruence|auto]. Qed.

Lemma add_include_complete s0 lhs cur sym rel rel' : len rel = len nts → add_include ix s0 lhs cur sym rel = Ret rel' →
  extends rel rel' ∧ ∀ src tgt, ix !! (s0, lhs) = Some src → ix !! (cur, sym) = Some tgt → edge rel' tgt src.
Proof using Hcount.
  intros Hl. unfold add_include. destruct (ix !! (s0, lhs)) as [src|] eqn:Es; [|intros [= <-]; split; [by split|done]].
  destruct (ix !! (cur, sym)) as [tgt|] eqn:Et; [|intros [= <-]; split; [by split|done]].
  destruct (ix_u32 _ _ Hcount _ _ Es) as [_ ->]. destruct (ix_u32 _ _ Hcount _ _ Et) as [Htr _].
  destruct (index_in_range rel tgt) as (es & -> & Hes); [lia|]. cbn [mbind go_bind]. rewrite store_ok by lia. intros [= <-].
  assert (∀ j, j ∈ es ++ [src] → edge (<[Z.to_nat tgt := es ++ [src]]> rel) tgt j) as Hnew.
  { intros j Hj. exists (es ++ [src]). by rewrite zget_insert_eq by lia. }
  split; [split; [by rewrite len_insert|]|].
  - intros i j (ys & Hys & Hj). destruct (decide (i = tgt)) as [->|Hne].
    + apply Hnew. simplify_eq. apply elem_of_app. by left.
    + exists ys. by rewrite zget_insert_ne by lia.
  - intros ? ? [= <-] [= <-]. apply Hnew, elem_of_app. right. by left.
Qed.

Section one_item.
Context (g : list Z) (s0 pi : Z) (p : Production).
Context (Hpi : zget (Productions ng) pi = Some p) (Hv : valid_item ng g (pi, 0)).

Lemma valid_along beta eta : RHS p = beta ++ eta → valid_item ng (g ++ beta) (pi, len beta).
Proof using Hpi Hv.
  revert eta. induction beta as [|A beta IH] using rev_ind; intros eta HR; [by rewrite app_nil_r|].
  rewrite <-app_assoc in HR. rewrite app_assoc, len_app. apply valid_shift; [by apply (IH (A :: eta))|].
  by apply (item_next_split ng pi p beta A eta).
Qed.

(** The edges for the positions from [d] on are there. *)
Definition positions_done (d : Z) (rel : list (list Z)) : Prop := ∀ beta A eta s src tgt,
  RHS p = beta ++ A :: eta → d ≤ len beta → TokenCount ng ≤ A → derives ng eta [] → at_state (g ++ beta) s →
  ix !! (s0, LHS p) = Some src → ix !! (s, A) = Some tgt → edge rel tgt src.

Lemma trace_complete rhs : ∀ beta positions cur last rel last' rel', RHS p = beta ++ rhs → pos_from ng p (len beta) positions →
  at_state (g ++ beta) cur → len rel = len nts → trace ts ix s0 (LHS p) (len beta) rhs positions cur last rel = Ret (last', rel') →
  extends rel rel' ∧ positions_done (len beta) rel' ∧ ∃ q lp, last' = Some (q, lp) ∧ at_state (g ++ RHS p) q.
Proof using Hng Hsets Hrows Hlen Hcount Hpi Hv.
  induction rhs as [|sym rhs IH]; intros beta positions cur last rel last' rel' HR Hpos Hcur Hl; cbn [trace].
  { intros [= <- <-]. rewrite app_nil_r in HR. split_and!; [by split| |exists cur, last; by rewrite HR].
    intros beta' A eta s src tgt HR' Hle. rewrite <-HR, HR', len_app, len_cons in Hle. pose proof (len_nonneg eta). lia. }
  destruct (pos_from_next ng p (len beta) positions Hpos) as [Hhere Hpos1].
  set (here := match positions with k :: _ => k =? len beta | [] => false end) in *.
  destruct (if here then add_include ix s0 (LHS p) cur sym rel else Ret rel) as [rel1| |] eqn:E1; [|done..]. cbn [mbind go_bind].
  assert (extends rel rel1 ∧ (pos_ok ng (RHS p) (len beta) → ∀ src tgt, ix !! (s0, LHS p) = Some src → ix !! (cur, sym) = Some tgt → edge rel1 tgt src))
    as [Hext Hadd].
  { destruct here; [|injection E1 as <-; split; [by split|by intros ?%Hhere]]. by destruct (add_include_complete _ _ _ _ _ _ Hl E1). }
  destruct (next_edge (g ++ beta) (pi, len beta) sym cur) as (next & Hedge & Hnext);
    [by eapply valid_along|by eapply item_next_split|done|]. rewrite <-app_assoc in Hnext.
  rewrite (target_of_edge cur sym next) by (done || by eapply (edge_facts ng Hng ctx Hsets Hrows Hlen)). cbn [mbind go_bind]. intros Hrun.
  destruct (IH (beta ++ [sym]) (if here then tail positions else positions) next cur rel1 last' rel') as (Hext' & Hdone & Hlast);
    [by rewrite <-app_assoc|by rewrite len_app|done|by rewrite (proj1 Hext)|by rewrite len_app|].
  split_and!; [by eapply extends_trans| |done]. intros beta' A eta s src tgt HR' Hle HA Heta Hs Hsrc Htgt.
  destruct (decide (len beta' = len beta)) as [El|Hne].
  - rewrite HR in HR'. apply app_inj_1 in HR' as [<- [= <- <-]]; [|unfold len in El; lia].
    assert (s = cur) as -> by (eapply at_state_unique; [by apply (valid_along beta (sym :: rhs))|done|done]).
    apply (proj2 Hext'), Hadd; [by exists beta, sym, rhs|done|done].
  - apply (Hdone beta' A eta s); [done|rewrite len_app; change (len [sym]) with 1; lia|done..].
Qed.
End one_item.

Lemma positions_done_extends g s0 p d rel rel' : extends rel rel' → positions_done g s0 p d rel → positions_done g s0 p d rel'.
Proof using. intros [_ He] Hd beta A eta s src tgt HR Hle HA Heta Hs Hsrc Htgt. apply He. by eapply Hd. Qed.

(** The completed item of a production is found. *)
Lemma lookup_valid T q g pi p : zget sets q = Some T → zget (Productions ng) pi = Some p → at_state g q → valid_item ng g (pi, len (RHS p)) →
  ∃ k, coreLookup T pi (len (RHS p)) = Ret (k, true) ∧ completes ng ctx q k pi p ∧ u32 k = k.
Proof using Hng Hsets.
  intros HT Hp (T' & HT' & Hv) Hi%Hv. assert (T' = T) as -> by congruence. destruct (lookup_completed ng Hng ctx Hsets T q pi p HT Hp) as (k & ok & Hrun & Hok).
  destruct (li_set _ _ Hsets q T HT) as (Hset & _).
  destruct (coreLookup_spec ng (la_lr0 _ Hng) T (pi, len (RHS p)) Hset (proj1 Hi)) as [(k' & Hk & _)|[_ []]]; [|done].
  cbn in Hk. rewrite Hrun in Hk. injection Hk as -> ->. exists k'. split; [done|]. by apply Hok.
Qed.

(** Everything that the item [ce] of state [s0] contributes is there. *)
Definition core_done (s0 ce : Z) (rel : list (list Z)) (lbs : list lookbackEntry) : Prop :=
  ∀ g p, at_state g s0 → entry_dot ce = 0 → zget (Productions ng) (entry_prodIdx ce) = Some p →
    positions_done g s0 p 0 rel ∧
    ∀ src, ix !! (s0, LHS p) = Some src → ∃ lb, lb ∈ lbs ∧ lbNtIdx lb = src ∧ at_state (g ++ RHS p) (lbStateIdx lb) ∧
      completes ng ctx (lbStateIdx lb) (lbCoreIdx lb) (entry_prodIdx ce) p.

Lemma core_done_extends s0 ce rel lbs rel' lbs' : extends rel rel' → lbs ⊆ lbs' → core_done s0 ce rel lbs → core_done s0 ce rel' lbs'.
Proof using.
  intros He Hsub Hd g p Hg Hdot Hp. destruct (Hd g p Hg Hdot Hp) as [Hpos Hlb]. split; [by eapply positions_done_extends|].
  intros src Hsrc. destruct (Hlb src Hsrc) as (lb & Hin & Hrest). exists lb. split; [by apply Hsub|done].
Qed.

Lemma trace_core_complete table s0 T ce rel lbs rel' lbs' : Forall2 (row_ok ng) (Productions ng) table → zget sets s0 = Some T → ce ∈ cores T →
  len rel = len nts → trace_core ng sets ts ix table s0 ce rel lbs = Ret (rel', lbs') →
  extends rel rel' ∧ lbs ⊆ lbs' ∧ core_done s0 ce rel' lbs'.
Proof using Hng Hsets Hrows Hlen Hcount.
  intros Htab HT Hce Hl. unfold trace_core. destruct (Z.eqb_spec (entry_dot ce) 0) as [Hd|Hd]; cbn [negb].
  2: { intros [= <- <-]. split_and!; [by split|done|]. intros g p _ ?. done. }
  destruct (li_set _ _ Hsets s0 T HT) as ([Hok _] & _). pose proof (has_unpacked ng _ _ Hok Hce) as Hhas. unfold unpacked in Hhas. rewrite Hd in Hhas.
  destruct (proj1 Hhas) as (p & Hp & _). cbn [fst] in Hp. set (pi := entry_prodIdx ce) in *.
  rewrite (proj2 (index_Ret _ _ _) Hp). cbn [mbind go_bind].
  destruct (zget_lookup _ _ _ Hp) as [Hpi0 Hpl]. destruct (Forall2_lookup_l _ _ _ _ _ Htab Hpl) as (ps & Hps & Hrow).
  assert (zget table pi = Some ps) as Hps' by (unfold zget; by replace (0 <=? pi) with true by lia).
  rewrite (proj2 (index_Ret _ _ _) Hps'). cbn [mbind go_bind].
  destruct (trace _ _ _ _ _ _ _ _ _ _) as [[last rel1]| |] eqn:Hrun; [|done..]. cbn [mbind go_bind].
  assert (∀ g, at_state g s0 → valid_item ng g (pi, 0) ∧ extends rel rel1 ∧ positions_done g s0 p 0 rel1 ∧ ∃ q lp, last = Some (q, lp) ∧ at_state (g ++ RHS p) q) as Hall.
  { intros g Hg. assert (valid_item ng g (pi, 0)) as Hv by (destruct Hg as (T' & HT' & Hv); simplify_eq; by apply Hv). split; [done|].
    apply (trace_complete g s0 pi p Hp Hv (RHS p) [] ps s0 s0 rel last rel1); [done|done|by rewrite app_nil_r|done|done]. }
  destruct (state_prefix ng ctx s0 Hsets (zget_Some_range _ _ _ HT)) as (g0 & _ & Hg0).
  destruct (Hall g0 Hg0) as (Hv0 & Hext & _ & q & lp & -> & Hq0). destruct (ix !! (s0, LHS p)) as [src|] eqn:Es.
  2: { intros [= <- <-]. split_and!; [done|done|]. intros g p' Hg _ Hp'. assert (p' = p) as -> by (fold pi in Hp'; congruence). split; [by apply Hall|]. intros ? ?. congruence. }
  pose proof Hq0 as (U & HU & _). rewrite (proj2 (index_Ret _ _ _) HU). cbn [mbind go_bind].
  destruct (lookup_valid U q _ pi p HU Hp Hq0) as (k & -> & Hcomp & Hk); [apply (valid_along g0 pi p Hp Hv0 (RHS p) []); by rewrite app_nil_r|].
  cbn [mbind go_bind]. intros [= <- <-]. split_and!; [done|intros lb Hlb; apply elem_of_app; by left|].
  intros g p' Hg _ Hp'. assert (p' = p) as -> by (fold pi in Hp'; congruence). destruct (Hall g Hg) as (_ & _ & Hpos & q' & lp' & [= <- <-] & Hq). split; [done|].
  intros src' Hsrc'. assert (src' = src) as -> by congruence. eexists. split; [apply elem_of_app; right; by left|]. cbn [lbStateIdx lbCoreIdx lbNtIdx].
  apply zget_Some_range in HU. rewrite (proj2 (ix_u32 _ _ Hcount _ _ Es)), (u32_id q), Hk by lia. done.
Qed.

Lemma trace_cores_complete table s0 T ces rel lbs rel' lbs' : Forall2 (row_ok ng) (Productions ng) table → zget sets s0 = Some T →
  (∀ ce, ce ∈ ces → ce ∈ cores T) → len rel = len nts → trace_cores ng sets ts ix table s0 ces rel lbs = Ret (rel', lbs') →
  extends rel rel' ∧ lbs ⊆ lbs' ∧ ∀ ce, ce ∈ ces → core_done s0 ce rel' lbs'.
Proof using Hng Hsets Hrows Hlen Hcount.
  intros Htab HT. revert rel lbs. induction ces as [|ce ces IH]; intros rel lbs Hin Hl; cbn [trace_cores].
  { intros [= <- <-]. split_and!; [by split|done|]. by intros ce ?%elem_of_nil. }
  destruct (trace_core _ _ _ _ _ _ _ _ _) as [[rel1 lbs1]| |] eqn:E; [|done..]. cbn [mbind go_bind]. intros Hrun.
  destruct (trace_core_complete _ _ _ _ _ _ _ _ Htab HT (Hin ce ltac:(left)) Hl E) as (He1 & Hs1 & Hd1).
  destruct (IH rel1 lbs1 (λ c Hc, Hin c ltac:(by right))) as (He2 & Hs2 & Hd2); [by rewrite (proj1 He1)|done|].
  split_and!; [by eapply extends_trans|by etrans|]. intros c [->|Hc]%elem_of_cons; [by eapply core_done_extends|by apply Hd2].
Qed.

Lemma trace_states_complete table rest done rel lbs rel' lbs' : Forall2 (row_ok ng) (Productions ng) table → sets = done ++ rest →
  len rel = len nts → trace_states ng sets ts ix (λ _, false) table (len done) rest rel lbs = Ret (Some (rel', lbs')) →
  extends rel rel' ∧ lbs ⊆ lbs' ∧ ∀ s T ce, len done ≤ s → zget sets s = Some T → ce ∈ cores T → core_done s ce rel' lbs'.
Proof using Hng Hsets Hrows Hlen Hcount.
  intros Htab. revert done rel lbs. induction rest as [|U rest IH]; intros done rel lbs Esets Hl; cbn [trace_states].
  { intros [= <- <-]. split_and!; [by split|done|]. intros s T ce Hs HT%zget_Some_range. rewrite Esets, app_nil_r in HT. lia. }
  rewrite andb_false_r. assert (zget sets (len done) = Some U) as HU by (by rewrite Esets, zget_app_r, Z.sub_diag by lia).
  destruct (trace_cores _ _ _ _ _ _ _ _ _) as [[rel1 lbs1]| |] eqn:E; [|done..]. cbn [mbind go_bind].
  replace (len done + 1) with (len (done ++ [U])) by (by rewrite len_app). intros Hrun.
  destruct (trace_cores_complete _ _ _ _ _ _ _ _ Htab HU (λ _ Hc, Hc) Hl E) as (He1 & Hs1 & Hd1).
  destruct (IH (done ++ [U]) rel1 lbs1) as (He2 & Hs2 & Hd2); [by rewrite <-app_assoc|by rewrite (proj1 He1)|done|].
  split_and!; [by eapply extends_trans|by etrans|]. intros s T ce Hs HT Hce. destruct (decide (s = len done)) as [->|Hne].
  - simplify_eq. eapply core_done_extends; [done..|]. by apply Hd1.
  - apply (Hd2 s T); [rewrite len_app; change (len [U]) with 1; lia|done|done].
Qed.

(** ** Lookaheads are collected *)

Definition has_la (las : list (gmap Z bitset)) (q ci t : Z) : Prop := ∃ m b, zget las q = Some m ∧ m !! ci = Some b ∧ mem b t.

Lemma has_la_insert las q m ci b : zget las q = Some m → (∀ b', m !! ci = Some b' → ∀ t, mem b' t → mem b t) →
  (∀ q' ci' t, has_la las q' ci' t → has_la (<[Z.to_nat q := <[ci := b]> m]> las) q' ci' t) ∧
  ∀ t, mem b t → has_la (<[Z.to_nat q := <[ci := b]> m]> las) q ci t.
Proof using.
  intros Hq Hb. pose proof (zget_Some_range _ _ _ Hq) as Hr.
  assert (∀ t, mem b t → has_la (<[Z.to_nat q := <[ci := b]> m]> las) q ci t) as Hnew.
  { intros t Ht. exists (<[ci := b]> m), b. rewrite zget_insert_eq by lia. by rewrite lookup_insert_eq. }
  split; [|done]. intros q' ci' t (m' & b' & Hm' & Hb' & Ht). destruct (decide (q' = q)) as [->|Hne].
  - simplify_eq. destruct (decide (ci' = ci)) as [->|Hne]; [by apply Hnew, (Hb b')|]. exists (<[ci := b]> m), b'.
    rewrite zget_insert_eq by lia. by rewrite lookup_insert_ne.
  - exists m', b'. by rewrite zget_insert_ne by lia.
Qed.

Lemma clone_complete b t : 0 ≤ t < TokenCount ng → mem b t → mem (cloneLookaheadBitset ng b) t.
Proof using.
  intros Ht (w & Hw & Hbit). exists w. split; [|done]. unfold cloneLookaheadBitset.
  assert (t / 64 < len (allocLookaheadBitset ng)) as Hlt.
  { unfold allocLookaheadBitset, newBitset. destruct (_ =? 0) eqn:E; rewrite len_make; Z.to_euclidean_division_equations; lia. }
  apply zget_lookup in Hw as [H0 Hw]. unfold zget. replace (0 <=? t / 64) with true by lia.
  rewrite lookup_app_l by (rewrite length_take; apply lookup_lt_Some in Hw; unfold len in Hlt; lia).
  rewrite lookup_take_lt; [done|]. unfold len in Hlt. lia.
Qed.

Lemma collect_complete F lbs : ∀ las las', collect_lookaheads ng F lbs las = Ret las' →
  (∀ q ci t, has_la las q ci t → has_la las' q ci t) ∧
  ∀ lb t, lb ∈ lbs → in_set F (lbNtIdx lb) t → 0 ≤ t < TokenCount ng → has_la las' (lbStateIdx lb) (lbCoreIdx lb) t.
Proof using.
  induction lbs as [|lb lbs IH]; intros las las'; cbn [collect_lookaheads].
  { intros [= <-]. split; [done|]. by intros lb t ?%elem_of_nil. }
  destruct (index las (lbStateIdx lb)) as [m| |] eqn:Em; [|done..]. cbn [mbind go_bind]. apply index_Ret in Em.
  destruct (index F (lbNtIdx lb)) as [follow| |] eqn:Ef; [|done..]. cbn [mbind go_bind]. apply index_Ret in Ef.
  set (la := match m !! lbCoreIdx lb with Some existing => (unionWith existing follow).1 | None => cloneLookaheadBitset ng follow end).
  rewrite store_ok by (by eapply zget_Some_range). cbn [mbind go_bind]. intros Hrun.
  destruct (has_la_insert las (lbStateIdx lb) m (lbCoreIdx lb) la Em) as [Hkeep Hnew].
  { intros b' Hb' t Ht. unfold la. rewrite Hb'. apply unionWith_mem. by left. }
  destruct (IH _ _ Hrun) as [Hmono Hlb]. split; [by intros q ci t ?%Hkeep%Hmono|].
  intros lb' t [->|Hin]%elem_of_cons Ht Htr; [|by apply Hlb]. apply Hmono, Hnew. destruct Ht as (b & Hb & Ht). simplify_eq.
  unfold la. destruct (m !! lbCoreIdx lb); [apply unionWith_mem; by right|by apply clone_complete].
Qed.

Lemma completes_unique q ci ci' pi p : completes ng ctx q ci pi p → completes ng ctx q ci' pi p → ci = ci'.
Proof using Hsets.
  intros (_ & T & HT & Hc) (_ & T' & HT' & Hc'). simplify_eq. destruct (li_set _ _ Hsets q T HT) as (Hset & _).
  eapply (NoDup_zget_inj (cores T) ci ci'); [by apply (core_set_NoDup ng)|done|done].
Qed.

Lemma augment_complete las las' : (∀ q m ci b, zget las q = Some m → m !! ci = Some b → words_ok b) → augment_lookahead ng sets ts las = Ret las' →
  (∀ q ci t, has_la las q ci t → has_la las' q ci t) ∧
  ∀ q ci aug, at_state (RHS aug) q → completes ng ctx q ci (AugmentProdID ng) aug → has_la las' q ci 0.
Proof using Hng Hsets Hrows Hlen.
  intros Hw. unfold augment_lookahead. destruct (la_start _ Hng) as (aug & S & Haug & HS & HSt & _).
  rewrite (proj2 (index_Ret _ _ _) Haug). cbn [mbind go_bind]. rewrite HS.
  assert (item_next ng (AugmentProdID ng, 0) = Some S) as Hn by (by apply (item_next_split ng _ aug [] S [])).
  destruct (next_edge [] (AugmentProdID ng, 0) S 0 (valid_start ng) Hn) as (s & Hedge & Hs).
  { destruct (li_first _ _ Hsets) as (T0 & HT0 & Hv0). by exists T0. }
  rewrite (target_of_edge 0 S s) by (done || by eapply (edge_facts ng Hng ctx Hsets Hrows Hlen)). cbn [mbind go_bind negb].
  pose proof Hs as (U & HU & _). rewrite (proj2 (index_Ret _ _ _) HU). cbn [mbind go_bind]. rewrite <-HS.
  assert (valid_item ng [S] (AugmentProdID ng, len (RHS aug))) as Hv.
  { rewrite HS. apply (valid_shift ng [] _ 0 S); [constructor|done]. }
  destruct (lookup_valid U s [S] _ aug HU Haug Hs Hv) as (k & -> & Hcomp & _). cbn [mbind go_bind negb].
  destruct (index las s) as [m| |] eqn:Em; [|done..]. cbn [mbind go_bind]. apply index_Ret in Em.
  destruct (newBitset_spec (TokenCount ng)) as [Hw0 Hm0]; [apply TokenCount_range|].
  destruct (add_spec (default (allocLookaheadBitset ng) (m !! k)) 0) as (b & -> & _ & Hb); [lia|destruct (m !! k) eqn:Ek; [by eapply Hw|done]|].
  cbn [mbind go_bind]. rewrite store_ok by (by eapply zget_Some_range). intros [= <-].
  destruct (has_la_insert las s m k b Em) as [Hkeep Hnew].
  { intros b' Hb' t Ht. apply Hb. left. by rewrite Hb'. }
  split; [done|]. intros q ci aug' Hq Hc. assert (aug' = aug) as -> by (destruct Hc as [? _]; congruence). rewrite HS in Hq.
  assert (q = s) as -> by (by eapply at_state_unique). rewrite (completes_unique _ _ _ _ _ Hc Hcomp). apply Hnew, Hb. by right.
Qed.

(** ** Read and follow sets *)

Lemma pass_closed f rel F : len f = len nts → Forall words_ok f → len rel = len nts → (∀ x y, edge rel x y → 0 ≤ y < len nts) →
  digraph (len nts) f rel = Ret F → pass_ok rel F → (∀ i t, in_set f i t → in_set F i t) ∧ closed_along rel F.
Proof using Hcount.
  intros Hf Hw Hl Hr HF Hok. destruct (digraph_spec (len nts) f rel Hcount Hf Hw Hl Hr) as (F' & HF' & _ & _ & Hlow & _ & Hex).
  rewrite HF in HF'. injection HF' as <-. split; [done|]. destruct Hok as [Hac|]; [|done].
  intros i j t Hij (k & Hjk & Ht)%(Hex Hac). apply (Hex Hac). exists k. split; [|done]. by eapply rtc_l.
Qed.

Lemma next_of_suffix g p d X u : valid_item ng g (p, d) → after_dot ng (p, d) = X :: u → item_next ng (p, d) = Some X ∧ after_dot ng (p, d + 1) = u.
Proof using Hng.
  intros Hv Ha. assert (0 ≤ d) as Hd.
  { revert Hv. clear Ha. remember (p, d) as i eqn:Ei. intros Hv. revert p d Ei.
    induction Hv as [|g i B q pr _ _ _ _ _ _|g p d X' _ IH _]; intros ? ? [= <- <-]; [lia..|]. specialize (IH _ _ eq_refl). lia. }
  unfold after_dot, item_next in *. cbn in *. destruct (zget (Productions ng) p) as [pr|]; [|done]. cbn.
  assert (RHS pr !! Z.to_nat d = Some X) as Hl by (by rewrite <-(Nat.add_0_r (Z.to_nat d)), <-lookup_drop, Ha).
  split; [unfold zget; by replace (0 <=? d) with true by lia|]. replace (Z.to_nat (d + 1)) with (S (Z.to_nat d)) by lia.
  rewrite (drop_S _ _ _ Hl) in Ha. by injection Ha.
Qed.

Lemma nullable_nonterminal X : derives ng [X] [] → TokenCount ng ≤ X.
Proof using Hng.
  intros Hd. destruct (computeFirstSets_inv ng (lg_wf _ (la_lr0 _ Hng))) as (_ & nullables & _ & Hnull & Hcl & _).
  pose proof (null_closed_complete ng nullables _ Hcl Hd) as [? _]%list.Forall_cons_1. by apply (ni_sound _ _ Hnull).
Qed.

Lemma state_of g i : valid_item ng g i → ∃ s, at_state g s.
Proof using Hng Hsets Hrows Hlen.
  intros Hv. destruct (walk_spec ng (la_lr0 _ Hng) ctx Hsets Hrows Hlen g) as (r & _ & Hr); [by eapply valid_item_range; [apply (la_lr0 _ Hng)|]|].
  destruct r as [s|]; [by exists s|]. by destruct (Hr i).
Qed.

Section run.
Context (rs inc : list (list Z)) (rF fF : list bitset) (lbs : list lookbackEntry).
Context (Hdirect : ∀ i nt e, zget nts i = Some nt → e ∈ transitionRow ts (ntTarget nt) → ltSym e < TokenCount ng → in_set rF i (ltSym e)).
Context (Hend : ∀ aug S i, zget (Productions ng) (AugmentProdID ng) = Some aug → RHS aug = [S] → ix !! (0, S) = Some i → in_set rF i 0).
Context (Hreads : ∀ i nt C j, zget nts i = Some nt → ix !! (ntTarget nt, C) = Some j → derives ng [C] [] → edge rs i j).
Context (Hread : closed_along rs rF) (Hsub : ∀ i t, in_set rF i t → in_set fF i t).
Context (Hfollow : closed_along inc fF).
Context (Hdone : ∀ s T ce, zget sets s = Some T → ce ∈ cores T → core_done s ce inc lbs).

(** A transition's read set has every token that begins the text behind an item
    of its target. *)
Lemma read_complete u t : starts ng u t → ∀ h i nt p d, zget nts i = Some nt → at_state h (ntTarget nt) → valid_item ng h (p, d) →
  after_dot ng (p, d) = u → in_set rF i t.
Proof using Hng Hsets Hrows Hlen Hdirect Hreads Hread.
  induction 1 as [t u Ht|X u t HX _ IH|pr u t [q [_ Hq]]%elem_zget _ IH]; intros h i nt p d Hi Hh Hv Ha;
    destruct (next_of_suffix _ _ _ _ _ Hv Ha) as [Hn Ha']; destruct (next_edge h (p, d) _ _ Hv Hn Hh) as (s & Hs & Hat).
  - by apply (Hdirect i nt (mkLrTransition t s) Hi); [|cbn; lia].
  - destruct (ix_edge _ _ _ Hs (nullable_nonterminal X HX)) as (j & Hj & Hnt).
    apply (Hread i j); [by eapply Hreads|]. apply (IH (h ++ [X]) j _ p (d + 1) Hnt Hat); [by apply valid_shift|done].
  - apply (IH h i nt q 0 Hi Hh).
    + apply (valid_expand ng h (p, d) (LHS pr) q pr); [done|done| |done|done]. by apply (gw_lhs _ (lg_wf _ (la_lr0 _ Hng)) pr), (zget_elem _ q).
    + by apply (after_dot_split ng q pr [] (RHS pr)).
Qed.

(** The lookahead of an LR(1) item is in the follow set of the transition that
    the reduction will take. *)
Definition followed (g : list Z) (p d t : Z) : Prop := ∀ pr, zget (Productions ng) p = Some pr →
  ∃ pre beta eta, RHS pr = beta ++ eta ∧ len beta = d ∧ g = pre ++ beta ∧ valid_item ng pre (p, 0) ∧
    ((p = AugmentProdID ng ∧ pre = [] ∧ t = 0) ∨ ∃ s src, at_state pre s ∧ ix !! (s, LHS pr) = Some src ∧ in_set fF src t).

(** What an item passes on to the productions of the symbol after its dot. *)
Lemma follow_passes g p d B t u s src : lr1_item ng g (p, d) t → followed g p d t → item_next ng (p, d) = Some B → TokenCount ng ≤ B →
  first_of ng (after_dot ng (p, d + 1)) t u → at_state g s → ix !! (s, B) = Some src → in_set fF src u.
Proof using Hng Hsets Hrows Hlen Hdirect Hend Hreads Hread Hsub Hfollow Hdone.
  intros Hi%lr1_valid Hf Hn HB [Hst|[Hnil ->]]%(first_of_starts ng Hng) Hs Hsrc.
  { apply Hsub. destruct (ix_lookup _ _ _ _ _ Hsrc) as (s' & Hnt & He & _). destruct (edge_facts ng Hng ctx Hsets Hrows Hlen _ _ _ He) as (_ & _ & _ & Hstep).
    apply (read_complete _ u Hst (g ++ [B]) src _ p (d + 1) Hnt); [by apply Hstep|by apply valid_shift|done]. }
  destruct (zget (Productions ng) p) as [pr|] eqn:Hp; [|unfold item_next in Hn; cbn in Hn; by rewrite Hp in Hn].
  destruct (Hf pr Hp) as (pre & beta & eta & HR & Hl & -> & Hv & Hcase).
  assert (eta = B :: after_dot ng (p, d + 1)) as ->.
  { rewrite <-(after_dot_next ng _ _ _ Hn), <-Hl. symmetry. by apply (after_dot_split ng p pr). }
  destruct Hcase as [(-> & -> & ->)|(s' & src' & Hs' & Hsrc' & Hin)].
  - destruct (la_start _ Hng) as (aug & S & Haug & HS & _). simplify_eq. rewrite HS in HR. destruct beta as [|? [|? ?]]; [|done..].
    injection HR as -> _. apply Hsub, (Hend pr B); [done|done|]. assert (s = 0) as ->; [|done].
    destruct (li_first _ _ Hsets) as (T0 & HT0 & Hv0). eapply at_state_unique; [exact Hv|done|by exists T0].
  - apply (Hfollow src src'); [|done]. pose proof Hs' as (T & HT & HTv). destruct (proj2 (HTv (p, 0)) Hv) as [Hok Hce].
    destruct (pack_item ng (la_lr0 _ Hng) _ Hok) as [_ Eu]. unfold unpacked in Eu. injection Eu as E1 E2.
    destruct (Hdone s' T _ HT Hce pre pr Hs' E2) as [Hpos _]; [by rewrite E1|].
    by apply (Hpos beta B (after_dot ng (p, d + 1)) s); [|apply len_nonneg|..].
Qed.

Lemma follow_complete g i t : lr1_item ng g i t → followed g i.1 i.2 t.
Proof using Hng Hsets Hrows Hlen Hdirect Hend Hreads Hread Hsub Hfollow Hdone.
  induction 1 as [|g p d B t q pr u Hi IH Hn HB Hq <- Hf|g p d X t Hi IH Hn]; intros pr' Hp'; cbn [fst snd] in *.
  - exists [], [], (RHS pr'). split_and!; [done..|constructor|by left].
  - assert (pr' = pr) as -> by congruence. exists g, [], (RHS pr). rewrite app_nil_r. split_and!; [done..|by eapply valid_expand; [by eapply lr1_valid|..]|]. right.
    destruct (state_of g (p, d)) as [s Hs]; [by eapply lr1_valid|]. destruct (next_edge g (p, d) _ s (lr1_valid _ _ _ _ Hi) Hn Hs) as (s' & He & _).
    destruct (ix_edge _ _ _ He HB) as (src & Hsrc & _). exists s, src. split_and!; [done..|]. by eapply follow_passes.
  - destruct (IH pr' Hp') as (pre & beta & eta & HR & Hl & -> & Hv & Hcase).
    assert (eta = X :: after_dot ng (p, d + 1)) as ->.
    { rewrite <-(after_dot_next ng _ _ _ Hn), <-Hl. symmetry. by apply (after_dot_split ng p pr'). }
    exists pre, (beta ++ [X]), (after_dot ng (p, d + 1)). rewrite len_app, <-!app_assoc. split_and!; [done|by rewrite Hl|done..].
Qed.

(** A completed LR(1) item has a lookback entry whose follow set has its lookahead. *)
Lemma lookback_complete g q ci pi p t : lr1_item ng g (pi, len (RHS p)) t → at_state g q → completes ng ctx q ci pi p →
  pi = AugmentProdID ng ∧ g = RHS p ∧ t = 0 ∨
  ∃ lb, lb ∈ lbs ∧ lbStateIdx lb = q ∧ lbCoreIdx lb = ci ∧ in_set fF (lbNtIdx lb) t.
Proof using Hng Hsets Hrows Hlen Hdirect Hend Hreads Hread Hsub Hfollow Hdone.
  intros Hi Hq Hc. destruct (follow_complete _ _ _ Hi p (proj1 Hc)) as (pre & beta & eta & HR & Hl & -> & Hv & Hcase). cbn [fst snd] in *.
  assert (eta = []) as ->.
  { rewrite HR, len_app in Hl. destruct eta as [|X eta]; [done|]. rewrite len_cons in Hl. pose proof (len_nonneg eta). lia. }
  rewrite app_nil_r in HR. subst beta. destruct Hcase as [(-> & -> & ->)|(s & src & Hs & Hsrc & Hin)]; [by left|right].
  pose proof Hs as (T & HT & HTv). destruct (proj2 (HTv (pi, 0)) Hv) as [Hok Hce].
  destruct (pack_item ng (la_lr0 _ Hng) _ Hok) as [_ Eu]. unfold unpacked in Eu. injection Eu as E1 E2.
  destruct (Hdone s T _ HT Hce pre p Hs E2) as [_ Hlb]; [rewrite E1; apply Hc|].
  destruct (Hlb src Hsrc) as (lb & Hlbin & <- & Hat & Hcomp). rewrite E1 in Hcomp.
  assert (lbStateIdx lb = q) as <- by (eapply at_state_unique; [by eapply lr1_valid|done|done]).
  exists lb. split_and!; [done|done|by apply (completes_unique _ _ _ _ _ Hcomp Hc)|done].
Qed.
End run.

(** ** The whole computation *)

Lemma seed_end_complete dr dr' : len dr = len nts → Forall words_ok dr → seed_end ng ix dr = Ret dr' →
  len dr' = len nts ∧ Forall words_ok dr' ∧ (∀ i t, in_set dr i t → in_set dr' i t) ∧
  ∀ aug S i, zget (Productions ng) (AugmentProdID ng) = Some aug → RHS aug = [S] → ix !! (0, S) = Some i → in_set dr' i 0.
Proof using Hng.
  intros Hl Hw. unfold seed_end. destruct (la_start _ Hng) as (aug & S & Haug & HS & HSt & _).
  rewrite (proj2 (index_Ret _ _ _) Haug). cbn [mbind go_bind]. rewrite HS. change (index [S] 0) with (Ret S). cbn [mbind go_bind].
  destruct (ix !! (0, S)) as [i|] eqn:Ei.
  2: { intros [= <-]. split_and!; [done..|]. intros aug' S' i Haug' HS' Hi. simplify_eq. rewrite HS in HS'. injection HS' as <-. congruence. }
  destruct (ix_lookup _ _ _ _ _ Ei) as (t & Hnt & _). pose proof (zget_Some_range _ _ _ Hnt) as Hi.
  destruct (index_in_range dr i) as (b & -> & Hb); [lia|]. cbn [mbind go_bind].
  destruct (add_spec b 0) as (b' & -> & Hw' & Hm'); [lia|by apply (Forall_zget _ _ _ _ Hw Hb)|]. cbn [mbind go_bind].
  rewrite store_ok by lia. intros [= <-].
  assert (∀ u, mem b' u → in_set (<[Z.to_nat i := b']> dr) i u) as Hnew.
  { intros u Hu. exists b'. by rewrite zget_insert_eq by lia. }
  split_and!; [by rewrite len_insert|by apply Forall_insert| |].
  - intros j u (c & Hc & Hu). destruct (decide (j = i)) as [->|Hne]; [|exists c; by rewrite zget_insert_ne by lia].
    simplify_eq. apply Hnew, Hm'. by left.
  - intros aug' S' j Haug' HS' Hj. simplify_eq. rewrite HS in HS'. injection HS' as <-. assert (j = i) as -> by congruence.
    apply Hnew, Hm'. by right.
Qed.

Lemma lr1_token g i t : lr1_item ng g i t → 0 ≤ t < TokenCount ng.
Proof using Hng. induction 1 as [|g p d B t q pr u _ IH _ _ _ _ [[? _]|[_ ->]]|]; [pose proof (la_end _ Hng); lia|done..]. Qed.

Context (nullables : list bool) (Hnull : null_inv ng nullables) (Hclosed : null_closed ng nullables).

(** The relations and the results of the two passes over them. *)
Definition lalr_passes : go passes :=
  dr ← direct_reads ng ts nts;
  dr ← seed_end ng ix dr;
  reads ← reads_relation ng nullables ts ix nts;
  readSets ← digraph (len nts) dr reads;
  table ← include_table ng nullables (Productions ng);
  traced ← trace_states ng sets ts ix (λ _, false) table 0 sets (make (len nts) []) [];
  let includes := match traced with Some (includes, _) => includes | None => [] end in
  followSets ← digraph (len nts) readSets includes;
  Ret (mkPasses reads readSets includes followSets).

Context (reading following : list Z → Z → Z → Prop) (r : lalr_steps) (R : lalr_run ng ctx reading following nullables r).

Lemma passes_of_run : lalr_passes = Ret (mkPasses (st_reads r) (st_read r) (st_includes r) (st_follow r)).
Proof using R.
  unfold lalr_passes. destruct R as [E1 _ _ _ E2 _ E3 _ _ E4 _ E5 _ E6 _ E7 _ _ _ _ _].
  rewrite E1; cbn [mbind go_bind]. rewrite E2; cbn [mbind go_bind]. rewrite E3; cbn [mbind go_bind]. rewrite E4; cbn [mbind go_bind].
  rewrite E5; cbn [mbind go_bind]. rewrite E6; cbn [mbind go_bind]. rewrite E7. done.
Qed.

Lemma run_complete : pass_ok (st_reads r) (st_read r) → pass_ok (st_includes r) (st_follow r) →
  ∀ g q ci pi p t, lr1_item ng g (pi, len (RHS p)) t → at_state g q → completes ng ctx q ci pi p → has_la (st_las r) q ci t.
Proof using Hng Hsets Hrows Hlen Hcount R.
  intros Hok1 Hok2. pose proof R as [_ Hl0 Hw0 Hm0 Hseed _ _ Hlr Hreads Hp1 Hread _ Htab Hrun Hinc Hp2 _ Hcol Hlas1 Haug _].
  destruct (seed_end_complete _ _ Hl0 Hw0 Hseed) as (Hl1 & Hw1 & Hkeep & Hend).
  destruct (trace_states_complete _ sets [] _ [] _ _ Htab eq_refl (len_make _ _ (len_nonneg _)) Hrun) as (_ & _ & Hdone).
  destruct (pass_closed (st_seed r) (st_reads r) (st_read r) Hl1 Hw1 Hlr) as [Hlow1 Hcl1]; [|done..|].
  { intros i j (nt & C & _ & Hk & _)%Hreads. by apply (ix_u32 _ _ Hcount _ _ Hk). }
  destruct (pass_closed (st_read r) (st_includes r) (st_follow r)) as [Hlow2 Hcl2]; [apply Hread|apply Hread|apply Hinc| |done..|].
  { intros i j (_ & ntj & _ & _ & _ & _ & Hj & _)%(proj2 Hinc). by eapply zget_Some_range. }
  destruct (collect_complete _ _ _ _ Hcol) as [_ Hcoll].
  destruct (augment_complete _ _ (λ q m ci b Hq Hb, proj1 (proj2 Hlas1 q m ci b Hq Hb)) Haug) as [Hmono Haug0].
  intros g q ci pi p t Hi Hq Hc.
  assert (pi = AugmentProdID ng ∧ g = RHS p ∧ t = 0 ∨
    ∃ lb, lb ∈ st_lookbacks r ∧ lbStateIdx lb = q ∧ lbCoreIdx lb = ci ∧ in_set (st_follow r) (lbNtIdx lb) t) as [(-> & -> & ->)|(lb & Hin & <- & <- & Ht)].
  - apply (lookback_complete (st_reads r) (st_includes r) (st_read r) (st_follow r) (st_lookbacks r)); try done.
    + intros i nt e Hnt He Ht. apply Hlow1, Hkeep, Hm0. by exists nt, e.
    + intros aug S i Ha HS Hix. apply Hlow1. by eapply Hend.
    + intros i nt C j Hnt Hj HC. apply Hreads. by exists nt, C.
    + intros s T ce HT Hce. apply (Hdone s T ce); [|done|done]. apply zget_Some_range in HT. change (len (@nil lr0ItemSet)) with 0. lia.
  - by eapply Haug0.
  - apply Hmono, Hcoll; [done|done|by eapply lr1_token].
Qed.

(** A lookahead that a following justifies is that of an LR(1) item. *)
Lemma following_item g pi p t : zget (Productions ng) pi = Some p → lr1_following ng g (LHS p) t ∨ pi = AugmentProdID ng ∧ g = [] ∧ t = 0 →
  lr1_item ng (g ++ RHS p) (pi, len (RHS p)) t.
Proof using Hng.
  intros Hp Hf. apply (lr1_along ng g pi t p (RHS p) []); [|done|by rewrite app_nil_r].
  destruct Hf as [(p' & d & u & Hi & Hn & Hfo)|(-> & -> & ->)]; [|constructor]. eapply lr1_expand; [exact Hi|exact Hn| |exact Hp|done|done].
  by apply (gw_lhs _ (lg_wf _ (la_lr0 _ Hng)) p), (zget_elem _ pi).
Qed.

Lemma completes_entry q ci pi p ce T : completes ng ctx q ci pi p → zget sets q = Some T → zget (cores T) ci = Some ce →
  entry_prodIdx ce = pi ∧ entry_dot ce = len (RHS p).
Proof using Hng.
  intros (Hp & T' & HT' & Hc) HT Hce. simplify_eq. assert (item_ok ng (pi, len (RHS p))) as Hok.
  { exists p. split; [done|]. cbn. pose proof (len_nonneg (RHS p)). lia. }
  destruct (pack_item ng (la_lr0 _ Hng) _ Hok) as [_ Eu]. unfold unpacked in Eu. by injection Eu.
Qed.

Lemma entry_completes q ci p ce T : zget sets q = Some T → zget (cores T) ci = Some ce → zget (Productions ng) (entry_prodIdx ce) = Some p →
  entry_dot ce = len (RHS p) → completes ng ctx q ci (entry_prodIdx ce) p.
Proof using Hsets.
  intros HT Hce Hp Hd. split; [done|]. exists T. split; [done|]. destruct (li_set _ _ Hsets q T HT) as ([Hok _] & _).
  destruct (Forall_zget _ _ _ _ Hok Hce) as [_ E]. unfold unpacked in E. rewrite Hd in E. by rewrite E.
Qed.

Lemma walk_state g q i : valid_item ng g i → lr_walk ts 0 g = Ret (Some q) → at_state g q.
Proof using Hng Hsets Hrows Hlen.
  intros Hv Hw. destruct (state_of g i Hv) as [s Hs].
  pose proof (walk_at_state ng (la_lr0 _ Hng) ctx Hsets Hrows Hlen g s i Hv Hs) as Hw'. congruence.
Qed.
End complete.

(** The items are those of the automaton. *)
Lemma materialize_items sets las : len las = len sets →
  map (map (λ e, (ceProdIdx e, ceDot e))) (materializeLALRItemSets sets las) = map (λ T, map unpacked (cores T)) sets.
Proof.
  assert (∀ ces ci m, map (λ e, (ceProdIdx e, ceDot e)) (materialize_cores ci ces m) = map unpacked ces) as Hc.
  { induction ces as [|ce ces IH]; intros ci m; cbn; [done|]. by rewrite IH. }
  revert las. induction sets as [|T sets IH]; intros [|m las] Hl; cbn [materializeLALRItemSets map]; [done|done| |].
  { rewrite len_cons in Hl. pose proof (len_nonneg sets). change (len (@nil (gmap Z bitset))) with 0 in Hl. lia. }
  rewrite Hc, IH; [done|]. rewrite !len_cons in Hl. lia.
Qed.

(** The item sets, with the lookaheads of every item. *)
Lemma lalr_items_exact `{SliceSort} ng fuel ctx F nullables ps :
  lalr_grammar ng → productive ng → (2 ^ item_count ng ≤ fuel)%nat → buildLR0 ng 0 0 (λ _, false) fuel = Ret ctx →
  len (lalrLR0ItemSets ctx) ≤ 2 ^ 32 → len (nt_transitions ng (transitions ctx)) < infinity →
  computeFirstSets ng = Ret (F, nullables) → lalr_passes ng ctx nullables = Ret ps →
  pass_ok (reads ps) (readSets ps) → pass_ok (includes ps) (followSets ps) →
  ∃ items, computeLALRLookaheads ng nullables (λ _, false) ctx = Ret items ∧
    map (map (λ e, (ceProdIdx e, ceDot e))) items = map (λ T, map unpacked (cores T)) (lalrLR0ItemSets ctx) ∧
    ∀ q ces ci e p, zget items q = Some ces → zget ces ci = Some e → zget (Productions ng) (ceProdIdx e) = Some p →
      words_ok (lookaheads e) ∧ ∀ t, mem (lookaheads e) t ↔ ceDot e = len (RHS p) ∧
        ∃ g, lr_walk (transitions ctx) 0 g = Ret (Some q) ∧ lr1_item ng g (ceProdIdx e, ceDot e) t.
Proof.
  intros Hng Hprod Hf Hrun Hlen Hcount Hfirst Hps Hok1 Hok2. pose proof (la_lr0 _ Hng) as Hlr0.
  destruct (buildLR0_inv ng Hlr0 fuel Hf) as (ctx' & Hrun' & Hs & Hr). rewrite Hrun in Hrun'. injection Hrun' as <-.
  destruct (computeFirstSets_inv ng (lg_wf _ Hlr0)) as (F' & n' & Hfirst' & Hnull & Hclosed & _). rewrite Hfirst in Hfirst'. injection Hfirst' as <- <-.
  destruct (lalr_run_exists ng Hng ctx Hs Hr Hlen _ _ (lr1_follow_model ng Hng Hprod) nullables Hnull Hclosed Hcount) as [r R].
  rewrite (lalr_run_result ng Hng ctx Hs Hr _ _ _ _ R). rewrite (passes_of_run ng ctx _ _ _ _ R) in Hps. injection Hps as <-.
  pose proof (lr_las _ _ _ _ _ _ R) as [Hl Hlas]. eexists. split_and!; [done|by apply materialize_items|].
  intros q ces ci e p Hq Hci Hp. apply materialize_spec in Hq as (T & m & HT & Hm & ->); [|done].
  apply materialize_cores_spec in Hci as (ce & Hce & Ep & Ed & El). rewrite Z.add_0_l in El. rewrite Ep in Hp |- *. rewrite Ed, El. split.
  { destruct (m !! ci) as [b|] eqn:Eb; cbn; [by apply (Hlas q m ci b Hm Eb)|constructor]. }
  intros t. split.
  - intros Ht. destruct (m !! ci) as [b|] eqn:Eb; cbn in Ht; [|destruct Ht as (x & Hx & _); by rewrite zget_nil in Hx].
    destruct (Hlas q m ci b Hm Eb) as [_ Hb]. destruct (Hb t Ht) as (_ & pi & p' & g & Hc & Hat & Hfol).
    destruct (completes_entry ng Hng ctx q ci pi p' ce T Hc HT Hce) as [<- Hd]. pose proof (proj1 Hc) as Hp'. rewrite Hp in Hp'. injection Hp' as <-.
    split; [done|]. exists (g ++ RHS p). pose proof (following_item ng Hng g _ p t Hp Hfol) as Hi. rewrite Hd. split; [|done].
    by apply (walk_at_state ng Hlr0 ctx Hs Hr Hlen _ q (entry_prodIdx ce, len (RHS p))); [by eapply lr1_valid|].
  - intros (Hd & g & Hw & Hi). rewrite Hd in Hi. destruct (run_complete ng Hng ctx Hs Hr Hlen Hcount nullables _ _ r R Hok1 Hok2 g q ci _ p t Hi) as (m' & b & Hm' & Hb & Ht).
    + eapply walk_state; [done..|by eapply lr1_valid|done].
    + by eapply entry_completes.
    + rewrite Hm in Hm'. injection Hm' as <-. exact (eq_ind_r (λ b, mem b t) Ht (f_equal (default []) Hb)).
Qed.

(** C6.  The LALR(1) lookaheads are those of the canonical LR(1) automaton with the
    states of equal core merged, on the automaton without context tags.  For a grammar with an augmented start production
    in which every symbol derives a token string, and provided each of the two
    passes either runs over a relation without cycles or leaves sets that are closed
    along it, [buildItemSetsLALR] returns the items of the LR(0) automaton, and a
    token is in the lookahead set of an item exactly if the item is completed and,
    for some prefix that leads to its state, is an LR(1) item with that lookahead. *)
Theorem lalr_lookaheads_exact `{SliceSort} ng fuel ctx F nullables ps :
  lalr_grammar ng → productive ng → (2 ^ item_count ng ≤ fuel)%nat → buildLR0 ng 0 0 (λ _, false) fuel = Ret ctx →
  len (lalrLR0ItemSets ctx) ≤ 2 ^ 32 → len (nt_transitions ng (transitions ctx)) < infinity →
  computeFirstSets ng = Ret (F, nullables) → lalr_passes ng ctx nullables = Ret ps →
  pass_ok (reads ps) (readSets ps) → pass_ok (includes ps) (followSets ps) →
  ∃ items, buildItemSetsLALR ng 0 0 (λ _, false) fuel = Ret items ∧
    map (map (λ e, (ceProdIdx e, ceDot e))) items = map (λ T, map unpacked (cores T)) (lalrLR0ItemSets ctx) ∧
    ∀ q ces ci e p t, zget items q = Some ces → zget ces ci = Some e → zget (Productions ng) (ceProdIdx e) = Some p →
      mem (lookaheads e) t ↔ ceDot e = len (RHS p) ∧
        ∃ g, lr_walk (transitions ctx) 0 g = Ret (Some q) ∧ lr1_item ng g (ceProdIdx e, ceDot e) t.
Proof.
  intros Hng Hprod Hf Hrun Hlen Hcount Hfirst Hps Hok1 Hok2.
  destruct (lalr_items_exact ng fuel ctx F nullables ps) as (items & Hitems & Hmap & Hla); [done..|].
  exists items. split_and!; [|done|intros q ces ci e p t Hq Hci Hp; by apply (Hla q ces ci e p Hq Hci Hp)].
  destruct (buildLR0_inv ng (la_lr0 _ Hng) fuel Hf) as (ctx' & Hrun' & Hs & _). rewrite Hrun in Hrun'. injection Hrun' as <-.
  unfold buildItemSetsLALR. rewrite Hfirst. cbn [mbind go_bind]. rewrite Hrun. cbn [mbind go_bind].
  by assert (lalrLR0StateBudgetExceeded ctx || lalrLR0CoreBudgetExceeded ctx = false) as -> by (destruct (li_budget _ _ Hs) as [-> ->]; done).
Qed.

(** A check that the sets are closed along a relation. *)
Definition closed_alongb (rel : list (list Z)) (F : list bitset) : bool :=
  (len rel =? len F) && forallb (λ yb : list Z * bitset, forallb (λ y, match zget F y with
    | Some c => bool_decide ((unionWith yb.2 c).1 = yb.2) | None => false end) yb.1) (zip rel F).

Lemma closed_alongb_ok rel F : closed_alongb rel F = true → closed_along rel F.
Proof.
  unfold closed_alongb. rewrite andb_true_iff, forallb_forall. intros [Hl Hall] i j t (ys & Hys & Hj) (c & Hc & Ht).
  apply zget_lookup in Hys as [Hi Hys]. destruct (lookup_lt_is_Some_2 F (Z.to_nat i)) as [b Hb].
  { apply lookup_lt_Some in Hys. unfold len in Hl. lia. }
  assert ((ys, b) ∈ zip rel F) as Hin by (apply (list_elem_of_lookup_2 _ (Z.to_nat i)); by rewrite lookup_zip_with, Hys, Hb).
  apply list_elem_of_In in Hin, Hj. specialize (Hall _ Hin). rewrite forallb_forall in Hall. specialize (Hall j Hj). cbn in Hall.
  rewrite Hc in Hall. apply bool_decide_eq_true in Hall. exists b. split; [unfold zget; by replace (0 <=? i) with true by lia|].
  rewrite <-Hall. apply unionWith_mem. by right.
Qed.

(** Tokens: the end of input (0), [=] (1), [*] (2), [id] (3).
    [S' → S], [S → L = R], [S → R], [L → * R], [L → id], [R → L]: the inclusions of
    [L] and [R] after [*] form a cycle, and the grammar is not SLR(1). *)
Definition assign_grammar : NormalizedGrammar :=
  plain_grammar
    [plain_symbol SymbolTerminal; plain_symbol SymbolTerminal; plain_symbol SymbolTerminal; plain_symbol SymbolTerminal;
     plain_symbol SymbolNonterminal; plain_symbol SymbolNonterminal; plain_symbol SymbolNonterminal; plain_symbol SymbolNonterminal]
    [plain_production 4 [5]; plain_production 5 [6; 1; 7]; plain_production 5 [7]; plain_production 6 [2; 7];
     plain_production 6 [3]; plain_production 7 [6]] 0.

Lemma assign_grammar_ok : lalr_grammar assign_grammar.
Proof. by apply lalr_grammarb_ok. Qed.

Lemma assign_productive : productive assign_grammar.
Proof.
  assert (∀ a q p b, zget (Productions assign_grammar) q = Some p → derives assign_grammar (a ++ LHS p :: b) (a ++ RHS p ++ b)) as Hstep.
  { intros a q p b Hp. apply rtc_once, derive. by eapply zget_elem. }
  assert (derives assign_grammar [6] [3]) as H6 by apply (Hstep [] 4 _ [] eq_refl).
  assert (derives assign_grammar [7] [3]) as H7 by (etrans; [apply (Hstep [] 5 _ [] eq_refl)|done]).
  assert (derives assign_grammar [5] [3]) as H5 by (etrans; [apply (Hstep [] 2 _ [] eq_refl)|done]).
  assert (derives assign_grammar [4] [3]) as H4 by (etrans; [apply (Hstep [] 0 _ [] eq_refl)|done]).
  intros X HX. change (len (Symbols assign_grammar)) with 8 in HX. change (TokenCount assign_grammar) with 4.
  assert (X < 4 ∨ X = 4 ∨ X = 5 ∨ X = 6 ∨ X = 7) as [?|[-> |[-> |[-> | ->]]]] by lia.
  2-5: exists [3]; (split; [repeat constructor; lia|done]).
  exists [X]. split; [repeat constructor; lia|constructor].
Qed.

(** The sizes of the automaton, whether the passes are closed, the state after [L]
    and the item [R → L] there. *)
Definition assign_run (fuel : nat) : option (Z * Z * bool * go (option Z) * option coreEntry) :=
  match buildLR0 assign_grammar 0 0 (λ _, false) fuel, computeFirstSets assign_grammar, buildItemSetsLALR assign_grammar 0 0 (λ _, false) fuel with
  | Ret ctx, Ret (_, nullables), Ret items =>
    match lalr_passes assign_grammar ctx nullables with
    | Ret ps => Some (len (lalrLR0ItemSets ctx), len (nt_transitions assign_grammar (transitions ctx)),
        closed_alongb (reads ps) (readSets ps) && closed_alongb (includes ps) (followSets ps),
        lr_walk (transitions ctx) 0 [6], ces ← zget items 2; zget ces 1)
    | _ => None
    end
  | _, _, _ => None
  end.

(** After [L] at the start, [R → L] is reduced before the end of input and not
    before [=], although [=] can follow [R] elsewhere. *)
Lemma lalr_lookaheads_exact_witness : ∃ ctx items ces e,
  buildLR0 assign_grammar 0 0 (λ _, false) (2 ^ 15) = Ret ctx ∧
  buildItemSetsLALR assign_grammar 0 0 (λ _, false) (2 ^ 15) = Ret items ∧ zget items 2 = Some ces ∧ zget ces 1 = Some e ∧
  (∃ g, lr_walk (transitions ctx) 0 g = Ret (Some 2) ∧ lr1_item assign_grammar g (5, 1) 0) ∧
  ¬ ∃ g, lr_walk (transitions ctx) 0 g = Ret (Some 2) ∧ lr1_item assign_grammar g (5, 1) 1.
Proof.
  assert (assign_run (2 ^ 15) = Some (10, 7, true, Ret (Some 2), Some (mkCoreEntry 5 1 [1]))) as E by (vm_compute; reflexivity).
  assert (2 ^ item_count assign_grammar ≤ 2 ^ 15)%nat as Hfuel by (apply Nat.pow_le_mono_r; [lia|vm_compute; lia]).
  unfold assign_run in E. revert E Hfuel. generalize (2 ^ 15)%nat as fuel. intros fuel E Hfuel.
  destruct (buildLR0 assign_grammar 0 0 (λ _, false) fuel) as [ctx| |] eqn:Hrun; [|discriminate..].
  destruct (computeFirstSets assign_grammar) as [[F nullables]| |] eqn:Hfirst; [|discriminate..].
  destruct (buildItemSetsLALR assign_grammar 0 0 (λ _, false) fuel) as [items| |] eqn:Hitems; [|discriminate..].
  destruct (lalr_passes assign_grammar ctx nullables) as [ps| |] eqn:Hps; [|discriminate..].
  injection E as Hn1 Hn2 Hcl Hw He. change (len (nt_transitions assign_grammar (transitions ctx)) = 7) in Hn2. apply andb_true_iff in Hcl as [Hc1 Hc2].
  destruct (lalr_lookaheads_exact assign_grammar fuel ctx F nullables ps assign_grammar_ok assign_productive Hfuel Hrun) as (items' & Hitems' & _ & Hla);
    [rewrite Hn1; lia|rewrite Hn2; reflexivity|exact Hfirst|exact Hps|right; by apply closed_alongb_ok|right; by apply closed_alongb_ok|].
  rewrite Hitems in Hitems'. injection Hitems' as <-. destruct (zget items 2) as [ces|] eqn:Hces; [|discriminate]. cbn in He.
  exists ctx, items, ces, (mkCoreEntry 5 1 [1]). split; [reflexivity|]. split; [reflexivity|]. split; [exact Hces|]. split; [exact He|].
  pose proof (λ t, Hla 2 ces 1 (mkCoreEntry 5 1 [1]) (plain_production 7 [6]) t Hces He eq_refl) as Hmem. cbn in Hmem. split.
  - apply (Hmem 0). exists 1. split; reflexivity.
  - intros Hg. destruct (proj2 (Hmem 1) (conj eq_refl Hg)) as (w & Hx & Hbit). vm_compute in Hx. injection Hx as <-. discriminate.
Defined.
