(* ===== verification/LrMinimize.v ===== *)
(** * Minimisation of parse states

    grammargen/lr_state_minimize.go: states with the same resolved behaviour are
    merged by partition refinement on string signatures, then states of one
    C-compatible core whose rows agree where both have actions, and whose other
    tokens cannot start alike, are merged as well.  The tables are those of lr.go,
    as are the matchers that tell how a terminal can start.  Go maps are [gmap]s;
    every loop over one computes a conjunction or a map, whatever the order. *)

From Stdlib Require Import ZArith Lia ZifyBool Decimal.
From stdpp Require Import base tactics list numbers option gmap fin_maps.
From S2P Require Import Prelude SliceSort Regex Nfa LexBuild LrGrammar.
Local Open Scope Z_scope.

(** ** Tables (lr.go) *)

Inductive lrActionKind := lrShift | lrReduce | lrAccept.

#[export] Instance lrActionKind_eq_dec : EqDecision lrActionKind.
Proof. solve_decision. Defined.

Record lrShiftContributor := mkContributor { scLhsSym : Z; scPrec : Z; scHasPrec : bool; scAssoc : Assoc }.

Record lrAction := mkLrAction {
  laKind : lrActionKind; laState : Z; laProdIdx : Z; laPrec : Z; laHasPrec : bool; laAssoc : Assoc;
  laLhsSym : Z; laLhsSyms : list Z; laShiftContributors : list lrShiftContributor;
  laConflictContributors : list lrShiftContributor; laIsExtra : bool; laRepeat : bool; laRepeatLHS : Z;
  laRepeatLHSSyms : list Z }.

Notation actionRow := (gmap Z (list lrAction)).
Notation gotoRow := (gmap Z Z).

Record LRTables := mkLRTables {
  ActionTable : gmap Z actionRow; GotoTable : gmap Z gotoRow; StateCount : Z; ExtraChainStateStart : Z;
  CompactCoreKeys : list (list Z) }.

(** Reading an absent row gives an empty map. *)
Definition actions_of (t : LRTables) (state : Z) : actionRow := default ∅ (ActionTable t !! state).
Definition gotos_of (t : LRTables) (state : Z) : gotoRow := default ∅ (GotoTable t !! state).

(** ** strconv and sort *)

Fixpoint uint_bytes (d : uint) : list Z :=
  match d with
  | Nil => []
  | D0 d => 48 :: uint_bytes d | D1 d => 49 :: uint_bytes d | D2 d => 50 :: uint_bytes d | D3 d => 51 :: uint_bytes d
  | D4 d => 52 :: uint_bytes d | D5 d => 53 :: uint_bytes d | D6 d => 54 :: uint_bytes d | D7 d => 55 :: uint_bytes d
  | D8 d => 56 :: uint_bytes d | D9 d => 57 :: uint_bytes d
  end.

(** [strconv.Itoa]: decimal digits, behind a minus sign for negative numbers. *)
Definition itoa (n : Z) : list Z :=
  match Z.to_int n with Pos d => uint_bytes d | Neg d => 45 :: uint_bytes d end.

Definition formatBool (b : bool) : list Z := if b then [116; 114; 117; 101] else [102; 97; 108; 115; 101].

(** The order of strings is that of their bytes. *)
Fixpoint bytes_less (a b : list Z) : bool :=
  match a, b with
  | _, [] => false
  | [], _ :: _ => true
  | x :: a, y :: b => (x <? y) || ((x =? y) && bytes_less a b)
  end.

Definition sort_strings `{SliceSort} (l : list (list Z)) : list (list Z) := sort_slice bytes_less l.

(** ** Signatures *)

Definition kind_int (k : lrActionKind) : Z := match k with lrShift => 0 | lrReduce => 1 | lrAccept => 2 end.
Definition assoc_int (a : Assoc) : Z := match a with AssocNone => 0 | AssocLeft => 1 | AssocRight => 2 end.

Definition appendInt (v : Z) : list Z := itoa v ++ [59].
Definition appendBool (b : bool) : list Z := appendInt (if b then 1 else 0).
Definition append_string (s : list Z) : list Z := appendInt (len s) ++ s.

Section minimize.
Context `{SliceSort}.

Definition appendInts (values : list Z) : list Z :=
  let values := sort_ints values in appendInt (len values) ++ concat (map appendInt values).

Definition contributor_part (c : lrShiftContributor) : list Z :=
  itoa (scLhsSym c) ++ 58 :: itoa (scPrec c) ++ 58 :: formatBool (scHasPrec c) ++ 58 :: itoa (assoc_int (scAssoc c)).

Definition appendContributors (values : list lrShiftContributor) : list Z :=
  let parts := sort_strings (map contributor_part values) in
  appendInt (len parts) ++ concat (map append_string parts).

(** Everything of an action but its target. *)
Definition action_fields (a : lrAction) : list Z :=
  appendInt (laProdIdx a) ++ appendInt (laPrec a) ++ appendBool (laHasPrec a) ++ appendInt (assoc_int (laAssoc a)) ++
  appendInt (laLhsSym a) ++ appendInts (laLhsSyms a) ++ appendContributors (laShiftContributors a) ++
  appendContributors (laConflictContributors a) ++ appendBool (laIsExtra a) ++ appendBool (laRepeat a) ++
  appendInt (laRepeatLHS a) ++ appendInts (laRepeatLHSSyms a).

(** [None] is the nil slice of the first round. *)
Definition parserActionSignature (a : lrAction) (groups : option (list Z)) : go (list Z) :=
  target ← match groups with
           | Some gs => match laKind a with lrShift => index gs (laState a) | _ => Ret 0 end
           | None => Ret 0
           end;
  Ret (appendInt (kind_int (laKind a)) ++ appendInt target ++ action_fields a).

Fixpoint action_signatures (acts : list lrAction) (groups : option (list Z)) : go (list (list Z)) :=
  match acts with
  | [] => Ret []
  | a :: acts =>
    sig ← parserActionSignature a groups;
    sigs ← action_signatures acts groups;
    Ret (sig :: sigs)
  end.

Definition sortedActionSymbols (actions : actionRow) : list Z := sort_ints (map_to_list actions).*1.
Definition sortedGotoSymbols (gotos : gotoRow) : list Z := sort_ints (map_to_list gotos).*1.

Fixpoint actions_signature (row : actionRow) (symbols : list Z) (groups : option (list Z)) : go (list Z) :=
  match symbols with
  | [] => Ret []
  | symbol :: symbols =>
    sigs ← action_signatures (default [] (row !! symbol)) groups;
    rest ← actions_signature row symbols groups;
    Ret (appendInt symbol ++ concat (map append_string (sort_strings sigs)) ++ rest)
  end.

Fixpoint gotos_signature (row : gotoRow) (symbols : list Z) (groups : option (list Z)) : go (list Z) :=
  match symbols with
  | [] => Ret []
  | symbol :: symbols =>
    g ← match groups with None => Ret 0 | Some gs => index gs (default 0 (row !! symbol)) end;
    rest ← gotos_signature row symbols groups;
    Ret (appendInt symbol ++ appendInt g ++ rest)
  end.

Definition parserStateSignature (t : LRTables) (state : Z) (groups : option (list Z)) : go (list Z) :=
  let row := actions_of t state in
  let gotos := gotos_of t state in
  a ← actions_signature row (sortedActionSymbols row) groups;
  g ← gotos_signature gotos (sortedGotoSymbols gotos) groups;
  Ret (a ++ 124 :: g).

(** ** Partition refinement *)

Fixpoint group_loop (t : LRTables) (previous : option (list Z)) (states : list Z) (bySignature : gmap (list Z) Z) : go (list Z) :=
  match states with
  | [] => Ret []
  | state :: states =>
    signature ← parserStateSignature t state previous;
    match bySignature !! signature with
    | Some group => rest ← group_loop t previous states bySignature; Ret (group :: rest)
    | None =>
      let group := Z.of_nat (size bySignature) in
      rest ← group_loop t previous states (<[signature := group]> bySignature);
      Ret (group :: rest)
    end
  end.

Definition parserStateGroups (t : LRTables) (previous : option (list Z)) : go (list Z) :=
  group_loop t previous (seqZ 0 (StateCount t)) ∅.

Definition lenGroupSet (groups : list Z) : Z := foldl (λ m g, if m <? g then g else m) (-1) groups + 1.

Fixpoint strict_loop (t : LRTables) (fuel : nat) (groups : list Z) : go (list Z) :=
  match fuel with
  | O => NoFuel
  | S fuel =>
    next ← parserStateGroups t (Some groups);
    if lenGroupSet next =? lenGroupSet groups then Ret next else strict_loop t fuel next
  end.

(** Every round but the last adds a group. *)
Definition strict_groups (t : LRTables) : go (list Z) :=
  groups ← parserStateGroups t None;
  strict_loop t (S (Z.to_nat (StateCount t))) groups.

(** ** Groups of states *)

Record parserStateGroup := mkGroup {
  pgStates : list Z; pgActions : actionRow; pgGotos : gotoRow; compactCoreKey : list Z }.

(** One state joins its group; the first one brings its rows and its core. *)
Definition join_group (t : LRTables) (state : Z) (g : parserStateGroup) : parserStateGroup :=
  match pgStates g with
  | [] => mkGroup [state] (actions_of t state) (gotos_of t state) (default [] (zget (CompactCoreKeys t) state))
  | _ => mkGroup (pgStates g ++ [state]) (pgActions g) (pgGotos g) (compactCoreKey g)
  end.

Fixpoint fill_groups (t : LRTables) (state : Z) (strictGroups : list Z) (groups : list parserStateGroup)
  : go (list parserStateGroup) :=
  match strictGroups with
  | [] => Ret groups
  | gi :: strictGroups =>
    g ← index groups gi;
    groups ← store groups gi (join_group t state g);
    fill_groups t (state + 1) strictGroups groups
  end.

(** The core of a group is kept when all its states have it. *)
Definition same_core (t : LRTables) (key : list Z) (state : Z) : bool :=
  match zget (CompactCoreKeys t) state with Some k => bool_decide (k = key) | None => false end.

Definition settle_core (t : LRTables) (g : parserStateGroup) : go parserStateGroup :=
  rest ← gslice (pgStates g) 1 (len (pgStates g));
  Ret (mkGroup (pgStates g) (pgActions g) (pgGotos g)
         (if forallb (same_core t (compactCoreKey g)) rest then compactCoreKey g else [])).

Fixpoint settle_cores (t : LRTables) (groups : list parserStateGroup) : go (list parserStateGroup) :=
  match groups with
  | [] => Ret []
  | g :: groups => g ← settle_core t g; rest ← settle_cores t groups; Ret (g :: rest)
  end.

Definition initialStateGroups (t : LRTables) (strictGroups : list Z) : go (list parserStateGroup) :=
  groups ← fill_groups t 0 strictGroups (make (lenGroupSet strictGroups) (mkGroup [] ∅ ∅ []));
  settle_cores t groups.

(** ** How a terminal can start (lr.go) *)

Record terminalStartMatcher := mkMatcher { tmAny : bool; tmRunes : gset Z }.

Definition any_start : terminalStartMatcher := mkMatcher true ∅.
Definition maxExplicitRunes : Z := 64.

(** The runes of one range; [None] when there are too many. *)
Fixpoint add_runes (rs : list Z) (runes : gset Z) : option (gset Z) :=
  match rs with
  | [] => Some runes
  | r :: rs =>
    let runes := {[ r ]} ∪ runes in
    if maxExplicitRunes <? Z.of_nat (size runes) then None else add_runes rs runes
  end.

Fixpoint start_transitions (ts : list nfaTransition) (runes : gset Z) : option (gset Z) :=
  match ts with
  | [] => Some runes
  | tr :: ts =>
    if tepsilon tr then start_transitions ts runes else
    if thi tr <? tlo tr then start_transitions ts runes else
    if (maxExplicitRunes <? thi tr - tlo tr) || (maxExplicitRunes <? Z.of_nat (size runes)) then None else
    runes ← add_runes (seqZ (tlo tr) (thi tr - tlo tr + 1)) runes;
    start_transitions ts runes
  end.

Fixpoint start_states (N : list nfaState) (closure : list Z) (runes : gset Z) : go (option (gset Z)) :=
  match closure with
  | [] => Ret (Some runes)
  | s :: closure =>
    st ← index N s;
    match start_transitions (transitions st) runes with
    | Some runes => start_states N closure runes
    | None => Ret None
    end
  end.

Context (parseRegex : list Z → go (regexError + regexNode)).

Definition terminalStartMatcherForPattern (p : TerminalPattern) : go terminalStartMatcher :=
  match tpRule p with
  | NilRule => Ret any_start
  | _ =>
    r ← buildCombinedNFA parseRegex [p];
    match r with
    | inl _ => Ret any_start
    | inr n =>
      closure ← mapEpsilonClosure n [nfaStart n];
      out ← start_states (nfaStates n) closure ∅;
      Ret match out with
          | Some runes => if bool_decide (runes = ∅) then any_start else mkMatcher false runes
          | None => any_start
          end
    end
  end.

Definition mergeTerminalStartMatchers (a b : terminalStartMatcher) : terminalStartMatcher :=
  if tmAny a || tmAny b then any_start else
  if bool_decide (tmRunes a = ∅) then b else
  if bool_decide (tmRunes b = ∅) then a else
  mkMatcher false (tmRunes a ∪ tmRunes b).

Fixpoint build_matchers (patterns : list TerminalPattern) (bySym : gmap Z terminalStartMatcher) : go (gmap Z terminalStartMatcher) :=
  match patterns with
  | [] => Ret bySym
  | pat :: patterns =>
    matcher ← terminalStartMatcherForPattern pat;
    let matcher := match bySym !! SymbolID pat with
                   | Some existing => mergeTerminalStartMatchers existing matcher
                   | None => matcher
                   end in
    build_matchers patterns (<[SymbolID pat := matcher]> bySym)
  end.

Definition buildTerminalStartMatchers (patterns : list TerminalPattern) : go (gmap Z terminalStartMatcher) :=
  build_matchers patterns ∅.

Definition terminalStartMatchersOverlap (a b : terminalStartMatcher) : bool :=
  tmAny a || tmAny b || bool_decide (tmRunes a = ∅) || bool_decide (tmRunes b = ∅) ||
  negb (bool_decide (tmRunes a ## tmRunes b)).

(** ** Merging compatible groups *)

(** The groups of every core that is not empty. *)
Fixpoint core_index (gi : Z) (groups : list parserStateGroup) (byCore : gmap (list Z) (list Z)) : gmap (list Z) (list Z) :=
  match groups with
  | [] => byCore
  | g :: groups =>
    core_index (gi + 1) groups
      (if bool_decide (compactCoreKey g = []) then byCore
       else <[compactCoreKey g := default [] (byCore !! compactCoreKey g) ++ [gi]]> byCore)
  end.

Section merge.
Context (strictGroups : list Z) (ng : NormalizedGrammar) (matchers : gmap Z terminalStartMatcher).

Definition int_in (x : Z) (l : list Z) : bool := existsb (Z.eqb x) l.

Definition disjointTerminals (left right : Z) : bool :=
  if (left <=? 0) || (right <=? 0) || (TokenCount ng <=? left) || (TokenCount ng <=? right) then false else
  if int_in left (ExternalSymbols ng) || int_in right (ExternalSymbols ng) then false else
  if (left =? WordSymbolID ng) || (right =? WordSymbolID ng) then false else
  if int_in left (KeywordSymbols ng) || int_in right (KeywordSymbols ng) then false else
  match matchers !! left, matchers !! right with
  | Some a, Some b => negb (terminalStartMatchersOverlap a b)
  | _, _ => false
  end.

Definition sameActionLists (left right : list lrAction) : go bool :=
  if negb (len left =? len right) then Ret false else
  leftKeys ← action_signatures left (Some strictGroups);
  rightKeys ← action_signatures right (Some strictGroups);
  Ret (bool_decide (sort_strings leftKeys = sort_strings rightKeys)).

(** The loops stop at the first symbol that does not fit. *)
Fixpoint all_go {A} (f : A → go bool) (l : list A) : go bool :=
  match l with
  | [] => Ret true
  | x :: l => b ← f x; if (b : bool) then all_go f l else Ret false
  end.

Definition same_goto (right : gotoRow) (st : Z * Z) : go bool :=
  match right !! st.1 with
  | None => Ret false
  | Some otherTarget =>
    a ← index strictGroups st.2;
    b ← index strictGroups otherTarget;
    Ret (a =? b)
  end.

Definition same_actions (right : actionRow) (sa : Z * list lrAction) : go bool :=
  match right !! sa.1 with Some other => sameActionLists sa.2 other | None => Ret true end.

(** The symbols of one row that the other has not. *)
Definition only_in (row other : actionRow) : list Z :=
  filter (λ x, other !! x = None) (map_to_list row).*1.

Definition stateGroupsCompatible (left right : parserStateGroup) : go bool :=
  if negb (Z.of_nat (size (pgGotos left)) =? Z.of_nat (size (pgGotos right))) then Ret false else
  b ← all_go (same_goto (pgGotos right)) (map_to_list (pgGotos left));
  if negb b then Ret false else
  b ← all_go (same_actions (pgActions right)) (map_to_list (pgActions left));
  if negb b then Ret false else
  Ret (forallb (λ x, forallb (disjointTerminals x) (only_in (pgActions right) (pgActions left)))
         (only_in (pgActions left) (pgActions right))).

(** The rows of the target win; its gotos stand for both. *)
Definition mergeStateGroups (target source : parserStateGroup) : parserStateGroup :=
  mkGroup (pgStates target ++ pgStates source) (pgActions target ∪ pgActions source) (pgGotos target) (compactCoreKey target).

(** The candidate joins the first group that fits, or comes last. *)
Fixpoint place_group (merged : list parserStateGroup) (candidate : parserStateGroup) : go (list parserStateGroup) :=
  match merged with
  | [] => Ret [candidate]
  | m :: rest =>
    ok ← if bool_decide (compactCoreKey m = compactCoreKey candidate) then stateGroupsCompatible m candidate else Ret false;
    if (ok : bool) then Ret (mergeStateGroups m candidate :: rest) else
    rest ← place_group rest candidate;
    Ret (m :: rest)
  end.

Fixpoint place_core (groups : list parserStateGroup) (candidates : list Z) (merged : list parserStateGroup) (consumed : list bool)
  : go (list parserStateGroup * list bool) :=
  match candidates with
  | [] => Ret (merged, consumed)
  | ci :: candidates =>
    c ← index consumed ci;
    if (c : bool) then place_core groups candidates merged consumed else
    candidate ← index groups ci;
    merged ← place_group merged candidate;
    consumed ← store consumed ci true;
    place_core groups candidates merged consumed
  end.

Fixpoint merge_loop (groups : list parserStateGroup) (byCore : gmap (list Z) (list Z)) (gi : Z) (rest : list parserStateGroup)
    (merged : list parserStateGroup) (consumed : list bool) : go (list parserStateGroup) :=
  match rest with
  | [] => Ret merged
  | g :: rest =>
    c ← index consumed gi;
    if (c : bool) then merge_loop groups byCore (gi + 1) rest merged consumed else
    if bool_decide (compactCoreKey g = []) then
      consumed ← store consumed gi true;
      merge_loop groups byCore (gi + 1) rest (merged ++ [g]) consumed
    else
      '(merged, consumed) ← place_core groups (default [] (byCore !! compactCoreKey g)) merged consumed;
      merge_loop groups byCore (gi + 1) rest merged consumed
  end.
End merge.

Definition mergeCompatibleStateGroups (groups : list parserStateGroup) (strictGroups : list Z) (ng : option NormalizedGrammar)
  : go (list parserStateGroup) :=
  match ng with
  | Some ng =>
    if len groups <? 2 then Ret groups else
    matchers ← buildTerminalStartMatchers (Terminals ng);
    merge_loop strictGroups ng matchers groups (core_index 0 groups ∅) 0 groups [] (make (len groups) false)
  | None => Ret groups
  end.

(** ** The merged tables *)

Fixpoint start_group (gi : Z) (groups : list parserStateGroup) : Z :=
  match groups with
  | [] => -1
  | g :: groups => if int_in 0 (pgStates g) then gi else start_group (gi + 1) groups
  end.

(** The group of the start state comes first. *)
Definition start_first (groups : list parserStateGroup) : go (list parserStateGroup) :=
  let si := start_group 0 groups in
  if 0 <? si then
    g0 ← index groups 0;
    gs ← index groups si;
    groups ← store groups 0 gs;
    store groups si g0
  else Ret groups.

Fixpoint assign_states (gi : Z) (states : list Z) (stateGroups : list Z) : go (list Z) :=
  match states with
  | [] => Ret stateGroups
  | s :: states => stateGroups ← store stateGroups s gi; assign_states gi states stateGroups
  end.

Fixpoint assign_groups (gi : Z) (groups : list parserStateGroup) (stateGroups : list Z) : go (list Z) :=
  match groups with
  | [] => Ret stateGroups
  | g :: groups => stateGroups ← assign_states gi (pgStates g) stateGroups; assign_groups (gi + 1) groups stateGroups
  end.

Definition with_state (a : lrAction) (s : Z) : lrAction :=
  mkLrAction (laKind a) s (laProdIdx a) (laPrec a) (laHasPrec a) (laAssoc a) (laLhsSym a) (laLhsSyms a)
    (laShiftContributors a) (laConflictContributors a) (laIsExtra a) (laRepeat a) (laRepeatLHS a) (laRepeatLHSSyms a).

Definition remap_action (groups : list Z) (a : lrAction) : go lrAction :=
  match laKind a with lrShift => s ← index groups (laState a); Ret (with_state a s) | _ => Ret a end.

Fixpoint map_go {A B} (f : A → go B) (l : list A) : go (list B) :=
  match l with
  | [] => Ret []
  | x :: l => y ← f x; ys ← map_go f l; Ret (y :: ys)
  end.

(** A new map with the values computed. *)
Definition gmap_go {A B} (f : A → go B) (m : gmap Z A) : go (gmap Z B) :=
  l ← map_go (λ kx, y ← f kx.2; Ret (kx.1, y)) (map_to_list m);
  Ret (list_to_map l).

Definition remapStateActions (actions : actionRow) (groups : list Z) : go actionRow := gmap_go (map_go (remap_action groups)) actions.
Definition remapStateGotos (gotos : gotoRow) (groups : list Z) : go gotoRow := gmap_go (index groups) gotos.

Fixpoint remap_groups (gi : Z) (groups : list parserStateGroup) (stateGroups : list Z)
    (actions : gmap Z actionRow) (gotos : gmap Z gotoRow) : go (gmap Z actionRow * gmap Z gotoRow) :=
  match groups with
  | [] => Ret (actions, gotos)
  | g :: groups =>
    a ← remapStateActions (pgActions g) stateGroups;
    b ← remapStateGotos (pgGotos g) stateGroups;
    remap_groups (gi + 1) groups stateGroups (<[gi := a]> actions) (<[gi := b]> gotos)
  end.

(** The number of states removed, and the tables. *)
Definition minimizeParseStates (t : LRTables) (ng : option NormalizedGrammar) : go (Z * LRTables) :=
  if StateCount t <? 2 then Ret (0, t) else
  strictGroups ← strict_groups t;
  groups ← initialStateGroups t strictGroups;
  groups ← mergeCompatibleStateGroups groups strictGroups ng;
  if len groups =? StateCount t then Ret (0, t) else
  groups ← start_first groups;
  stateGroups ← assign_groups 0 groups (make (StateCount t) 0);
  '(actions, gotos) ← remap_groups 0 groups stateGroups ∅ ∅;
  Ret (StateCount t - len groups, mkLRTables actions gotos (len groups) (ExtraChainStateStart t) []).
End minimize.
