(* ===== verification/LrSignature.v ===== *)
(** * Signatures of parse states

    The strings by which grammargen/lr_state_minimize.go compares actions and
    states can be read back: each field ends where its text says, so equal
    signatures come from equal rows, up to the order of actions and with targets
    replaced by their groups. *)

From Stdlib Require Import ZArith Lia ZifyBool Decimal DecimalFacts DecimalZ.
From stdpp Require Import base tactics list numbers option gmap fin_maps sorting.
From S2P Require Import Prelude SliceSort Partition LrGrammar LrMinimize.
Local Open Scope Z_scope.

(** ** Decimal numbers *)

Lemma uint_bytes_digits d x : x ∈ uint_bytes d → 48 ≤ x ≤ 57.
Proof. induction d; cbn; rewrite ?elem_of_nil, ?elem_of_cons; intros Hx; try done; (destruct Hx as [->|Hx]; [lia|auto]). Qed.

Lemma uint_bytes_inj d d' : uint_bytes d = uint_bytes d' → d = d'.
Proof. revert d'. induction d; intros []; cbn; intros E; try done; injection E as E; f_equal; auto. Qed.

Lemma itoa_bytes n x : x ∈ itoa n → 48 ≤ x ≤ 57 ∨ x = 45.
Proof.
  unfold itoa. destruct (Z.to_int n); [intros ?%uint_bytes_digits; lia|].
  intros [->|?%uint_bytes_digits]%elem_of_cons; lia.
Qed.

Lemma itoa_inj n m : itoa n = itoa m → n = m.
Proof.
  intros E. apply DecimalZ.to_int_inj. unfold itoa in E. destruct (Z.to_int n) as [d|d] eqn:En, (Z.to_int m) as [e|e] eqn:Em.
  - by apply uint_bytes_inj in E as ->.
  - exfalso. assert (45 ∈ uint_bytes d) as ?%uint_bytes_digits by (rewrite E; left). lia.
  - exfalso. assert (45 ∈ uint_bytes e) as ?%uint_bytes_digits by (rewrite <-E; left). lia.
  - injection E as E. by apply uint_bytes_inj in E as ->.
Qed.

Lemma itoa_cons n : ∃ x l, itoa n = x :: l.
Proof.
  unfold itoa. destruct (Z.to_int n) as [d|d] eqn:E; [|eauto]. destruct d; cbn; eauto. exfalso.
  pose proof (DecimalZ.of_to n) as Hn. rewrite E in Hn. cbn in Hn. by subst n.
Qed.

(** Numbers from 10 on have two digits. *)
Lemma itoa_two n : 10 ≤ n → ∃ x y l, itoa n = x :: y :: l.
Proof.
  intros Hn. pose proof (DecimalZ.of_to n) as E. unfold itoa. destruct (Z.to_int n) as [d|d]; cbn [Z.of_int] in E.
  2: { exfalso. unfold Z.of_uint in E. lia. }
  destruct d as [|d|d|d|d|d|d|d|d|d|d]; cbn in E; [lia|..]; destruct d; cbn in E |- *; try lia; eauto.
Qed.

(** ** Prefix codes *)

(** Where one code ends can be told from its text. *)
Definition prefix_code {A} (enc : A → list Z) (R : A → A → Prop) : Prop :=
  ∀ x y r r', enc x ++ r = enc y ++ r' → R x y ∧ r = r'.

Lemma split_at (c : Z) a b r r' : c ∉ a → c ∉ b → a ++ c :: r = b ++ c :: r' → a = b ∧ r = r'.
Proof.
  revert b. induction a as [|x a IH]; intros [|y b]; rewrite ?not_elem_of_cons; cbn; intros Ha Hb E.
  - by injection E.
  - injection E as <- _. by destruct Hb.
  - injection E as -> _. by destruct Ha.
  - injection E as -> E. destruct (IH b) as [-> ->]; naive_solver.
Qed.

Lemma itoa_not n c : c = 58 ∨ c = 59 ∨ c = 124 → c ∉ itoa n.
Proof. intros Hc ?%itoa_bytes. lia. Qed.

Lemma appendInt_code : prefix_code appendInt eq.
Proof.
  intros x y r r' E. unfold appendInt in E. rewrite <-!app_assoc in E. cbn in E.
  apply split_at in E as [?%itoa_inj ?]; [done|apply itoa_not; lia..].
Qed.

Lemma appendBool_code : prefix_code appendBool eq.
Proof. intros x y r r' [E ->]%appendInt_code. split; [|done]. by destruct x, y. Qed.

Lemma append_string_code : prefix_code append_string eq.
Proof.
  intros x y r r' E. unfold append_string in E. rewrite <-!app_assoc in E. apply appendInt_code in E as [El E].
  apply app_inj_1 in E as [-> ->]; [done|]. unfold len in El. lia.
Qed.

Lemma list_code {A} (enc : A → list Z) : prefix_code enc eq → ∀ l l' r r', length l = length l' →
  concat (map enc l) ++ r = concat (map enc l') ++ r' → l = l' ∧ r = r'.
Proof.
  intros Henc. induction l as [|x l IH]; intros [|y l'] r r' Hl; cbn; try done. rewrite <-!app_assoc.
  intros [-> E]%Henc. apply IH in E as [-> ->]; [done|]. by injection Hl.
Qed.

Section signature.
Context `{SliceSort}.

Lemma sorted_code {A} (enc : A → list Z) (sort : list A → list A) : prefix_code enc eq → (∀ l, sort l ≡ₚ l) →
  prefix_code (λ l, appendInt (len (sort l)) ++ concat (map enc (sort l))) (≡ₚ).
Proof.
  intros Henc Hs x y r r' E. rewrite <-!app_assoc in E. apply appendInt_code in E as [El E].
  apply list_code in E as [E ->]; [|done|unfold len in El; lia]. by rewrite <-(Hs x), E, Hs.
Qed.

Lemma appendInts_code : prefix_code appendInts (≡ₚ).
Proof. apply (sorted_code appendInt sort_ints appendInt_code), sort_ints_perm. Qed.

Lemma formatBool_not b : 58 ∉ formatBool b.
Proof. destruct b; apply (bool_decide_unpack _); done. Qed.

Lemma contributor_part_inj c c' : contributor_part c = contributor_part c' → c = c'.
Proof.
  unfold contributor_part. destruct c as [l p h a], c' as [l' p' h' a']. cbn. intros E.
  apply split_at in E as [?%itoa_inj E]; [|apply itoa_not; lia..].
  apply split_at in E as [?%itoa_inj E]; [|apply itoa_not; lia..].
  apply split_at in E as [Eh E]; [|apply formatBool_not..].
  apply itoa_inj in E. assert (h = h') as -> by (by destruct h, h'). assert (a = a') as -> by (by destruct a, a'). by subst.
Qed.

Lemma appendContributors_code : prefix_code appendContributors (≡ₚ).
Proof.
  intros x y r r' E. unfold appendContributors in E. rewrite <-!app_assoc in E. apply appendInt_code in E as [El E].
  apply list_code in E as [E ->]; [|apply append_string_code|unfold len in El; lia]. split; [|done].
  assert (map contributor_part x ≡ₚ map contributor_part y) as Hp.
  { etrans; [symmetry; apply (sort_slice_perm _ bytes_less)|]. change (sort_slice bytes_less ?l) with (sort_strings l). rewrite E. apply sort_slice_perm. }
  apply Permutation_map_inv in Hp as (z & Ez & Hyz). rewrite Hyz. enough (x = z) as -> by done.
  clear -Ez. revert z Ez. induction x as [|c x IH]; intros [|c' z]; cbn; try done. intros [= ->%contributor_part_inj E]. f_equal. by apply IH.
Qed.

(** ** Actions *)

(** The actions agree on all that the tables and the conflict records keep, but for
    their targets and the order of the lists. *)
Record same_fields (a b : lrAction) : Prop := {
  sf_prod : laProdIdx a = laProdIdx b;
  sf_prec : laPrec a = laPrec b;
  sf_has : laHasPrec a = laHasPrec b;
  sf_assoc : laAssoc a = laAssoc b;
  sf_lhs : laLhsSym a = laLhsSym b;
  sf_lhss : laLhsSyms a ≡ₚ laLhsSyms b;
  sf_shift : laShiftContributors a ≡ₚ laShiftContributors b;
  sf_conflict : laConflictContributors a ≡ₚ laConflictContributors b;
  sf_extra : laIsExtra a = laIsExtra b;
  sf_repeat : laRepeat a = laRepeat b;
  sf_rlhs : laRepeatLHS a = laRepeatLHS b;
  sf_rlhss : laRepeatLHSSyms a ≡ₚ laRepeatLHSSyms b }.

Lemma action_fields_code : prefix_code action_fields same_fields.
Proof.
  intros a b r r' E. unfold action_fields in E. rewrite <-!app_assoc in E.
  apply appendInt_code in E as [E1 E]. apply appendInt_code in E as [E2 E]. apply appendBool_code in E as [E3 E].
  apply appendInt_code in E as [E4 E]. apply appendInt_code in E as [E5 E]. apply appendInts_code in E as [E6 E].
  apply appendContributors_code in E as [E7 E]. apply appendContributors_code in E as [E8 E]. apply appendBool_code in E as [E9 E].
  apply appendBool_code in E as [E10 E]. apply appendInt_code in E as [E11 E]. apply appendInts_code in E as [E12 E].
  split; [|done]. split; try done. by destruct (laAssoc a), (laAssoc b).
Qed.

(** The target of a shift, as its group. *)
Definition act_target (col : Z → Z) (a : lrAction) : Z := match laKind a with lrShift => col (laState a) | _ => 0 end.
Definition act_sig (col : Z → Z) (a : lrAction) : list Z :=
  appendInt (kind_int (laKind a)) ++ appendInt (act_target col a) ++ action_fields a.

Lemma act_sig_inj col col' a b : act_sig col a = act_sig col' b →
  laKind a = laKind b ∧ act_target col a = act_target col' b ∧ action_fields a = action_fields b.
Proof. intros [E [-> ->]%appendInt_code]%appendInt_code. split; [|done]. by destruct (laKind a), (laKind b). Qed.

Lemma act_sig_same col col' a b : act_sig col a = act_sig col' b → same_fields a b.
Proof. intros (_ & _ & E)%act_sig_inj. apply (action_fields_code a b [] []). by rewrite !app_nil_r. Qed.

(** Signatures begin with one digit and are long. *)
Lemma appendInt_len n : 2 ≤ len (appendInt n).
Proof. unfold appendInt. destruct (itoa_cons n) as (x & l & ->). cbn. rewrite !len_cons, len_app. change (len [59]) with 1. pose proof (len_nonneg l). lia. Qed.

Lemma act_sig_shape col a : 10 ≤ len (act_sig col a) ∧ ∃ k l, act_sig col a = k :: 59 :: l ∧ 48 ≤ k ≤ 57.
Proof.
  split.
  - assert (∀ (x y : list Z) n m, n ≤ len x → m ≤ len y → n + m ≤ len (x ++ y)) as Hadd by (intros; rewrite len_app; lia).
    unfold act_sig, action_fields. apply (Hadd _ _ 2 8); [apply appendInt_len|]. apply (Hadd _ _ 2 6); [apply appendInt_len|].
    apply (Hadd _ _ 2 4); [apply appendInt_len|]. apply (Hadd _ _ 2 2); [apply appendInt_len|]. apply (Hadd _ _ 2 0); [apply appendInt_len|].
    apply len_nonneg.
  - unfold act_sig. exists (48 + kind_int (laKind a)), (appendInt (act_target col a) ++ action_fields a).
    destruct (laKind a); (split; [reflexivity|cbn; lia]).
Qed.

(** ** Rows *)

(** What the signature of a row is made of: symbols and actions. *)
Inductive sig_token := SymTok (s : Z) | ActTok (sig : list Z).

Definition token_bytes (k : sig_token) : list Z := match k with SymTok s => appendInt s | ActTok sig => append_string sig end.

(** Signatures look like those of actions, and symbols that follow each other
    directly increase. *)
Inductive tokens_ok : list sig_token → Prop :=
| tok_nil : tokens_ok []
| tok_sym_end s : tokens_ok [SymTok s]
| tok_sym_sym s s' l : s < s' → tokens_ok (SymTok s' :: l) → tokens_ok (SymTok s :: SymTok s' :: l)
| tok_sym_act s sig l : tokens_ok (ActTok sig :: l) → tokens_ok (SymTok s :: ActTok sig :: l)
| tok_act sig l : 10 ≤ len sig → (∃ k u, sig = k :: 59 :: u ∧ 48 ≤ k ≤ 57) → tokens_ok l → tokens_ok (ActTok sig :: l).

Lemma tokens_ok_tail k l : tokens_ok (k :: l) → tokens_ok l.
Proof. inversion 1; subst; [constructor|done|done|done]. Qed.

(** A symbol is not taken for the length of a signature. *)
Lemma sym_not_act s l sig l' r r' : tokens_ok (SymTok s :: l) → tokens_ok (ActTok sig :: l') →
  appendInt s ++ concat (map token_bytes l) ++ 124 :: r = append_string sig ++ r' → False.
Proof.
  intros Hl Hs E. inversion Hs as [| | | |? ? Hlen (k & u & -> & Hk) _]; subst. unfold append_string in E. rewrite <-app_assoc in E.
  apply appendInt_code in E as [Es E]. cbn [app] in E.
  assert (∀ n rest, 10 ≤ n → appendInt n ++ rest = k :: 59 :: u ++ r' → False) as Htwo.
  { intros n rest Hn E'. destruct (itoa_two n Hn) as (x & y & v & Ei). unfold appendInt in E'. rewrite Ei in E'. cbn in E'.
    injection E' as _ -> _. apply (itoa_not n 59); [lia|]. rewrite Ei. right. left. }
  inversion Hl as [|?|? s' l1 Hlt _|? sig' l1 Ha|]; subst; cbn [map concat token_bytes] in E.
  - cbn in E. injection E as <- _. lia.
  - rewrite <-app_assoc in E. apply (Htwo s' _ ltac:(lia) E).
  - unfold append_string in E. rewrite <-!app_assoc in E. inversion Ha as [| | | |? ? Hlen' _ _]; subst. by apply (Htwo _ _ Hlen' E).
Qed.

Lemma tokens_inj l l' r r' : tokens_ok l → tokens_ok l' →
  concat (map token_bytes l) ++ 124 :: r = concat (map token_bytes l') ++ 124 :: r' → l = l' ∧ r = r'.
Proof.
  assert (∀ n rest (r : list Z), appendInt n ++ rest = 124 :: r → False) as Hbar.
  { intros n rest q E. destruct (itoa_cons n) as (x & v & Ei). unfold appendInt in E. rewrite Ei in E. injection E as -> _.
    apply (itoa_not n 124); [lia|]. rewrite Ei. left. }
  assert (∀ k rest (r : list Z), token_bytes k ++ rest = 124 :: r → False) as Hbar'.
  { intros [s|sig] rest q; cbn; [apply Hbar|]. unfold append_string. rewrite <-app_assoc. apply Hbar. }
  revert l'. induction l as [|k l IH]; intros [|k' l'] Hl Hl'; cbn [map concat app].
  - by intros [= ->].
  - rewrite <-app_assoc. intros E. exfalso. by eapply Hbar'.
  - rewrite <-app_assoc. intros E. exfalso. by eapply Hbar'.
  - rewrite <-!app_assoc. intros E. pose proof (tokens_ok_tail _ _ Hl). pose proof (tokens_ok_tail _ _ Hl').
    destruct k as [s|sig], k' as [s'|sig']; cbn [token_bytes] in E.
    + apply appendInt_code in E as [-> E]. by destruct (IH l') as [-> ->].
    + exfalso. by eapply sym_not_act; [exact Hl|exact Hl'|].
    + exfalso. by eapply sym_not_act; [exact Hl'|exact Hl|].
    + apply append_string_code in E as [-> E]. by destruct (IH l') as [-> ->].
Qed.

(** ** States *)

Lemma bytes_less_antisym a : ∀ b, bytes_less a b = false → bytes_less b a = false → a = b.
Proof. induction a as [|x a IH]; intros [|y b]; cbn; try done. intros H1 H2. assert (x = y) as -> by lia. f_equal. apply IH; lia. Qed.

Lemma bytes_less_weak : strict_weak bytes_less.
Proof.
  split.
  - intros a. induction a as [|x a IH]; intros [|y b]; cbn; try done. specialize (IH b). intros Hl.
    destruct (bytes_less a b), (bytes_less b a); try lia; by rewrite IH in * by done.
  - intros a. induction a as [|x a IH]; intros [|y b] [|z c]; cbn; try done. specialize (IH b c).
    intros H1 H2. destruct (bytes_less b a), (bytes_less c b), (bytes_less c a); try lia; by specialize (IH eq_refl eq_refl).
Qed.

Lemma sort_strings_perm l : sort_strings l ≡ₚ l.
Proof. apply sort_slice_perm. Qed.

Lemma sort_strings_iff l l' : sort_strings l = sort_strings l' ↔ l ≡ₚ l'.
Proof.
  split; [intros E; by rewrite <-(sort_strings_perm l), E, sort_strings_perm|].
  apply sort_slice_total; [apply bytes_less_weak|by apply bytes_less_antisym].
Qed.

Section view.
Context (col : Z → Z).

Definition row_view (row : actionRow) : list (Z * list (list Z)) :=
  map (λ sym, (sym, sort_strings (map (act_sig col) (default [] (row !! sym))))) (sortedActionSymbols row).
Definition goto_view (row : gotoRow) : list (Z * Z) :=
  map (λ sym, (sym, col (default 0 (row !! sym)))) (sortedGotoSymbols row).

Definition row_tokens (v : list (Z * list (list Z))) : list sig_token := concat (map (λ r, SymTok r.1 :: map ActTok r.2) v).
Definition goto_bytes (v : list (Z * Z)) : list Z := concat (map (λ r, appendInt r.1 ++ appendInt r.2) v).

Definition state_sig (t : LRTables) (s : Z) : list Z :=
  concat (map token_bytes (row_tokens (row_view (actions_of t s)))) ++ 124 :: goto_bytes (goto_view (gotos_of t s)).
End view.

Lemma row_tokens_inj v v' : row_tokens v = row_tokens v' → v = v'.
Proof.
  assert (∀ v v' sigs sigs', map ActTok sigs ++ row_tokens v = map ActTok sigs' ++ row_tokens v' → sigs = sigs' ∧ row_tokens v = row_tokens v') as Hs.
  { intros w w'. induction sigs as [|x sigs IH]; intros [|y sigs']; cbn [map app]; [done| | |].
    - destruct w as [|[a b] w]; discriminate.
    - destruct w' as [|[a b] w']; discriminate.
    - intros [= -> E]. by destruct (IH _ E) as [-> ->]. }
  revert v'. induction v as [|[s sigs] v IH]; intros [|[s' sigs'] v']; try done. unfold row_tokens. cbn [map concat fst snd app].
  intros [= -> [-> E]%(Hs v v')]. f_equal. by apply IH.
Qed.

Lemma goto_bytes_inj v : ∀ v', goto_bytes v = goto_bytes v' → v = v'.
Proof.
  assert (∀ n (r : list Z), appendInt n ++ r = [] → False) as Hne.
  { intros n r E. unfold appendInt in E. destruct (itoa_cons n) as (x & l & Hx). by rewrite Hx in E. }
  induction v as [|[s g] v IH]; intros [|[s' g'] v']; unfold goto_bytes; cbn [map concat fst snd]; rewrite <-?app_assoc; intros E.
  - done.
  - exfalso. by eapply Hne.
  - exfalso. by eapply Hne.
  - apply appendInt_code in E as [-> [-> E]%appendInt_code]. f_equal. by apply IH.
Qed.

Lemma row_tokens_ok col row : tokens_ok (row_tokens (row_view col row)).
Proof.
  unfold row_view. assert (increasing (sortedActionSymbols row)) as Hinc by (apply sort_ints_increasing, NoDup_fst_map_to_list).
  induction Hinc as [|s l _ IH Hs]; [constructor|]. unfold row_tokens. cbn [map concat fst snd]. fold (row_tokens (map (λ sym, (sym, sort_strings (map (act_sig col) (default [] (row !! sym))))) l)).
  assert (∀ sigs, Forall (λ sig, ∃ a, sig = act_sig col a) sigs → ∀ l', tokens_ok l' → tokens_ok (map ActTok sigs ++ l')) as Hacts.
  { induction 1 as [|sig sigs (a & ->) _ IHs]; intros l' Hl'; cbn [map app]; [done|]. destruct (act_sig_shape col a) as (Hlen & k & u & Hk). constructor; [done|by exists k, u|by apply IHs]. }
  assert (Forall (λ sig, ∃ a, sig = act_sig col a) (sort_strings (map (act_sig col) (default [] (row !! s))))) as Hall.
  { apply list.Forall_forall. intros x. rewrite sort_strings_perm. intros (a & -> & _)%list_elem_of_fmap. by exists a. }
  specialize (Hacts _ Hall _ IH). destruct (sort_strings _) as [|sig sigs]; cbn [map app] in *; [|by constructor].
  destruct l as [|s' l]; [constructor|]. apply list.Forall_cons_1 in Hs as [Hs _]. by constructor.
Qed.

(** Two rows hold the same actions, up to order and with targets as groups. *)
Definition acts_agree (col : Z → Z) (l l' : list lrAction) : Prop := map (act_sig col) l ≡ₚ map (act_sig col) l'.
Definition row_agree (col : Z → Z) (r r' : actionRow) : Prop := ∀ sym, option_Forall2 (acts_agree col) (r !! sym) (r' !! sym).
Definition goto_agree (col : Z → Z) (g g' : gotoRow) : Prop := ∀ sym, col <$> g !! sym = col <$> g' !! sym.
Definition state_agree (col : Z → Z) (t : LRTables) (s s' : Z) : Prop :=
  row_agree col (actions_of t s) (actions_of t s') ∧ goto_agree col (gotos_of t s) (gotos_of t s').

Lemma graph_inj {B} (f g : Z → B) l l' : map (λ x, (x, f x)) l = map (λ x, (x, g x)) l' → l = l' ∧ ∀ x, x ∈ l → f x = g x.
Proof.
  revert l'. induction l as [|x l IH]; intros [|y l']; cbn; try done; [by split; [|intros ? ?%elem_of_nil]|].
  intros [= -> Ef E]. destruct (IH _ E) as [-> Hl]. split; [done|]. intros z [->|?]%elem_of_cons; auto.
Qed.

Lemma symbols_elem {B} (m : gmap Z B) x : x ∈ sort_ints (map_to_list m).*1 ↔ is_Some (m !! x).
Proof.
  rewrite sort_ints_elem. split.
  - intros ([y b] & -> & Hb%elem_of_map_to_list)%list_elem_of_fmap. by exists b.
  - intros [b Hb]. apply list_elem_of_fmap. exists (x, b). split; [done|]. by apply elem_of_map_to_list.
Qed.

Lemma symbols_eq {B} (m m' : gmap Z B) : sort_ints (map_to_list m).*1 = sort_ints (map_to_list m').*1 ↔
  ∀ x, is_Some (m !! x) ↔ is_Some (m' !! x).
Proof.
  split; [intros E x; by rewrite <-!symbols_elem, E|]. intros Hx.
  apply increasing_ext; [apply sort_ints_increasing, NoDup_fst_map_to_list..|]. intros x. by rewrite !symbols_elem.
Qed.

Lemma view_iff {B C} (f : option B → C) (m m' : gmap Z B) :
  map (λ x, (x, f (m !! x))) (sort_ints (map_to_list m).*1) = map (λ x, (x, f (m' !! x))) (sort_ints (map_to_list m').*1) ↔
  ∀ x, option_Forall2 (λ b b', f (Some b) = f (Some b')) (m !! x) (m' !! x).
Proof.
  split.
  - intros [Hs Hf]%(graph_inj (λ x, f (m !! x)) (λ x, f (m' !! x))) x. rewrite symbols_eq in Hs. specialize (Hs x). specialize (Hf x).
    rewrite symbols_elem in Hf. destruct (m !! x) as [b|], (m' !! x) as [b'|]; [| | |constructor].
    + constructor. by apply Hf.
    + exfalso. destruct (proj1 Hs) as [? ?]; [by exists b|done].
    + exfalso. destruct (proj2 Hs) as [? ?]; [by exists b'|done].
  - intros Hall. assert (sort_ints (map_to_list m).*1 = sort_ints (map_to_list m').*1) as <-.
    { apply symbols_eq. intros x. destruct (Hall x); split; intros []; eauto; done. }
    apply map_ext_in. intros x _. f_equal. destruct (Hall x); congruence.
Qed.

Lemma state_sig_iff col t s s' : state_sig col t s = state_sig col t s' ↔ state_agree col t s s'.
Proof.
  assert (∀ r r', row_view col r = row_view col r' ↔ row_agree col r r') as Hr.
  { intros r r'. etrans; [apply (view_iff (λ o, sort_strings (map (act_sig col) (default [] o))))|].
    split; intros Hx x; specialize (Hx x); destruct Hx as [b b' Hb|]; constructor; by apply sort_strings_iff. }
  assert (∀ g g', goto_view col g = goto_view col g' ↔ goto_agree col g g') as Hg.
  { intros g g'. etrans; [apply (view_iff (λ o, col (default 0 o)))|]. split; intros Hx x; specialize (Hx x).
    - destruct Hx as [b b' Hb|]; cbn in *; [by rewrite Hb|done].
    - destruct (g !! x), (g' !! x); cbn in Hx; try done; constructor. by injection Hx. }
  unfold state_agree. rewrite <-Hr, <-Hg. unfold state_sig. split; [|by intros [-> ->]].
  intros [E1%row_tokens_inj E2%goto_bytes_inj]%tokens_inj; [done|apply row_tokens_ok..].
Qed.

(** ** The signatures computed *)

(** The targets of a row are states. *)
Definition row_fit (n : Z) (r : actionRow) : Prop :=
  ∀ sym acts, r !! sym = Some acts → ∀ a, a ∈ acts → laKind a = lrShift → 0 ≤ laState a < n.
Definition goto_fit (n : Z) (g : gotoRow) : Prop := ∀ sym s, g !! sym = Some s → 0 ≤ s < n.
Definition tables_ok (t : LRTables) : Prop :=
  ∀ s, 0 ≤ s < StateCount t → row_fit (StateCount t) (actions_of t s) ∧ goto_fit (StateCount t) (gotos_of t s).

Definition tables_okb (t : LRTables) : bool :=
  let fit s := (0 <=? s) && (s <? StateCount t) in
  forallb (λ s, forallb (λ sa, forallb (λ a, match laKind a with lrShift => fit (laState a) | _ => true end) sa.2) (map_to_list (actions_of t s)) &&
                forallb (λ sg, fit sg.2) (map_to_list (gotos_of t s))) (seqZ 0 (StateCount t)).

Lemma tables_okb_spec t : tables_okb t = true → tables_ok t.
Proof.
  unfold tables_okb. rewrite forallb_forall. intros Ht s Hs.
  assert (In s (seqZ 0 (StateCount t))) as Hin by (apply list_elem_of_In, elem_of_seqZ; lia).
  apply Ht in Hin as [Ha Hg]%andb_true_iff. rewrite forallb_forall in Ha, Hg. split.
  - intros sym acts Hr a Hacts Hk. apply elem_of_map_to_list, list_elem_of_In, Ha in Hr. cbn in Hr. rewrite forallb_forall in Hr.
    apply list_elem_of_In, Hr in Hacts. rewrite Hk in Hacts. lia.
  - intros sym g Hr. apply elem_of_map_to_list, list_elem_of_In, Hg in Hr. cbn in Hr. lia.
Qed.

(** Before the first round all states are alike. *)
Definition group_col (groups : option (list Z)) : Z → Z := match groups with Some gs => colf gs | None => λ _, 0 end.
Definition groups_for (n : Z) (groups : option (list Z)) : Prop := match groups with Some gs => len gs = n | None => True end.

Lemma parserActionSignature_eq n groups a : groups_for n groups → (laKind a = lrShift → 0 ≤ laState a < n) →
  parserActionSignature a groups = Ret (act_sig (group_col groups) a).
Proof.
  unfold parserActionSignature, act_sig, act_target. destruct groups as [gs|]; cbn; [|by destruct (laKind a)].
  intros <- Ha. destruct (laKind a); cbn; [|done..]. by rewrite index_colf by auto.
Qed.

Lemma action_signatures_eq n groups acts : groups_for n groups → (∀ a, a ∈ acts → laKind a = lrShift → 0 ≤ laState a < n) →
  action_signatures acts groups = Ret (map (act_sig (group_col groups)) acts).
Proof.
  intros Hg. induction acts as [|a acts IH]; intros Ha; cbn; [done|].
  rewrite (parserActionSignature_eq n) by (done || apply Ha; left). cbn. rewrite IH; [done|]. intros b Hb. apply Ha. by right.
Qed.

Lemma parserStateSignature_eq t groups s : tables_ok t → groups_for (StateCount t) groups → 0 ≤ s < StateCount t →
  parserStateSignature t s groups = Ret (state_sig (group_col groups) t s).
Proof.
  intros Ht Hg Hs. destruct (Ht s Hs) as [Hr Hgo]. unfold parserStateSignature, state_sig.
  assert (∀ syms, actions_signature (actions_of t s) syms groups = Ret (concat (map token_bytes (row_tokens
     (map (λ sym, (sym, sort_strings (map (act_sig (group_col groups)) (default [] (actions_of t s !! sym))))) syms))))) as Ha.
  { induction syms as [|sym syms IH]; cbn [actions_signature]; [done|].
    rewrite (action_signatures_eq (StateCount t)); [|done|]; cbn [go_bind mbind].
    - rewrite IH. cbn [go_bind mbind]. unfold row_tokens. cbn [map concat fst snd app]. f_equal. f_equal.
      rewrite map_app, concat_app. f_equal. by rewrite map_map.
    - intros a. destruct (_ !! sym) as [acts|] eqn:E; cbn; [by apply (Hr sym)|by intros ?%elem_of_nil]. }
  assert (∀ syms, (∀ x, x ∈ syms → is_Some (gotos_of t s !! x)) → gotos_signature (gotos_of t s) syms groups = Ret (goto_bytes
     (map (λ sym, (sym, group_col groups (default 0 (gotos_of t s !! sym)))) syms))) as Hgs.
  { induction syms as [|sym syms IH]; intros Hsyms; cbn [gotos_signature]; [done|].
    assert (is_Some (gotos_of t s !! sym)) as [x Hx] by (apply Hsyms; left). rewrite Hx. change (default 0 (Some x)) with x.
    assert (match groups with Some gs => index gs x | None => Ret 0 end = Ret (group_col groups x)) as ->.
    { destruct groups as [gs|]; [|done]. cbn in Hg |- *. apply index_colf. rewrite Hg. by apply (Hgo sym). }
    cbn [go_bind mbind]. rewrite IH by (intros; apply Hsyms; by right). cbn [go_bind mbind]. unfold goto_bytes. cbn [map concat fst snd]. rewrite Hx. by rewrite <-app_assoc. }
  rewrite Ha. cbn [go_bind mbind]. rewrite Hgs by (intros x; apply symbols_elem). done.
Qed.

(** ** Coarser partitions *)

Lemma acts_agree_match col l l' : acts_agree col l l' ↔ ∃ z, z ≡ₚ l' ∧ Forall2 (λ a b, act_sig col a = act_sig col b) l z.
Proof.
  split.
  - intros (z & E & Hz)%Permutation_map_inv. exists z. split; [done|]. clear Hz. revert z E.
    induction l as [|a l IH]; intros [|b z]; cbn; try done. intros [= Ea E]. constructor; auto.
  - intros (z & Hz & Hf). unfold acts_agree. rewrite <-Hz. induction Hf as [|a b l z E _ IH] in l', Hz |- *; [done|]. cbn. rewrite E. f_equiv. by apply (IH z).
Qed.

Section coarser.
Context (col col' : Z → Z) (n : Z).
Hypothesis Hcol : ∀ x y, 0 ≤ x < n → 0 ≤ y < n → col x = col y → col' x = col' y.

Lemma act_sig_coarser a b : (laKind a = lrShift → 0 ≤ laState a < n) → (laKind b = lrShift → 0 ≤ laState b < n) →
  act_sig col a = act_sig col b → act_sig col' a = act_sig col' b.
Proof.
  intros Ha Hb (Ek & Et & Ef)%act_sig_inj. unfold act_sig. rewrite Ek, Ef. do 2 f_equal. f_equal. unfold act_target in *. rewrite Ek in Ha, Et |- *.
  destruct (laKind b); auto.
Qed.

Lemma acts_agree_coarser l l' : (∀ a, a ∈ l → laKind a = lrShift → 0 ≤ laState a < n) → (∀ a, a ∈ l' → laKind a = lrShift → 0 ≤ laState a < n) →
  acts_agree col l l' → acts_agree col' l l'.
Proof.
  intros Hl Hl'. rewrite !acts_agree_match. intros (z & Hz & Hf). exists z. split; [done|].
  assert (∀ a, a ∈ z → laKind a = lrShift → 0 ≤ laState a < n) as Hz' by (intros a; rewrite Hz; apply Hl'). clear Hz Hl' l'.
  induction Hf as [|a b l z E _ IH]; constructor.
  - apply act_sig_coarser; [apply Hl; left|apply Hz'; left|done].
  - apply IH; intros c Hc; [apply Hl|apply Hz']; by right.
Qed.

Lemma row_agree_coarser r r' : row_fit n r → row_fit n r' → row_agree col r r' → row_agree col' r r'.
Proof.
  intros Hr Hr' Ha sym. specialize (Ha sym). destruct (r !! sym) eqn:E, (r' !! sym) eqn:E'; inversion Ha; subst; constructor.
  apply acts_agree_coarser; [by apply (Hr sym)|by apply (Hr' sym)|done].
Qed.

Lemma goto_agree_coarser g g' : goto_fit n g → goto_fit n g' → goto_agree col g g' → goto_agree col' g g'.
Proof.
  intros Hg Hg' Ha sym. specialize (Ha sym). destruct (g !! sym) eqn:E, (g' !! sym) eqn:E'; cbn in *; try done. f_equal.
  injection Ha as Ha. apply Hcol; [by apply (Hg sym)|by apply (Hg' sym)|done].
Qed.
End coarser.
End signature.
