(* ===== verification/LrGroups.v ===== *)
(** * The strict groups of parse states

    Facts about the first half of LrMinimize.v: the refinement loop of
    minimizeParseStates stops within its fuel at the coarsest partition whose
    classes have the same rows, and the groups built from it hold exactly the
    states of each class. *)

From Stdlib Require Import ZArith Lia ZifyBool.
From stdpp Require Import base tactics list numbers option gmap fin_maps.
From S2P Require Import Prelude SliceSort Partition LrGrammar LrMinimize LrSignature.
Local Open Scope Z_scope.

Section groups.
Context `{SliceSort} (t : LRTables) (Ht : tables_ok t) (Hn : 0 ≤ StateCount t).

(** ** One round *)

Lemma group_loop_spec previous f states m :
  (∀ s, s ∈ states → parserStateSignature t s previous = Ret (f s)) → numbering m →
  ∃ gs m', group_loop t previous states m = Ret gs ∧ numbering m' ∧ m ⊆ m' ∧
    Forall2 (λ s g, m' !! f s = Some g) states gs ∧
    (∀ k, is_Some (m' !! k) → is_Some (m !! k) ∨ ∃ s, s ∈ states ∧ k = f s).
Proof using.
  revert m. induction states as [|s states IH]; intros m Hf Hm; cbn [group_loop].
  { exists [], m. split_and!; [done..|constructor|by left]. }
  rewrite Hf by left. cbn [mbind go_bind]. assert (∀ s', s' ∈ states → parserStateSignature t s' previous = Ret (f s')) as Hf' by (intros; apply Hf; by right).
  destruct (m !! f s) as [g|] eqn:E.
  - destruct (IH m Hf' Hm) as (gs & m' & -> & Hm' & Hsub & Hall & Hk). exists (g :: gs), m'. split_and!; [done..| |].
    + constructor; [by eapply lookup_weaken|done].
    + intros k [?|(s' & ? & ?)]%Hk; [by left|]. right. exists s'. split; [by right|done].
  - destruct (IH _ Hf' (numbering_insert m (f s) Hm E)) as (gs & m' & -> & Hm' & Hsub & Hall & Hk).
    exists (Z.of_nat (size m) :: gs), m'. split_and!; [done..| | |].
    + etrans; [by apply insert_subseteq|done].
    + constructor; [|done]. eapply lookup_weaken; [apply lookup_insert_eq|done].
    + intros k [Hi|(s' & ? & ?)]%Hk; [|right; exists s'; split; [by right|done]].
      destruct (decide (k = f s)) as [->|]; [right; exists s; split; [left|done]|]. rewrite lookup_insert_ne in Hi by done. by left.
Qed.

Lemma parserStateGroups_spec previous : groups_for (StateCount t) previous →
  ∃ gs k, parserStateGroups t previous = Ret gs ∧ coloring (StateCount t) gs k ∧ 0 ≤ k ∧
    ∀ s s', 0 ≤ s < StateCount t → 0 ≤ s' < StateCount t →
      colf gs s = colf gs s' ↔ state_agree (group_col previous) t s s'.
Proof using Ht Hn.
  intros Hg. destruct (group_loop_spec previous (state_sig (group_col previous) t) (seqZ 0 (StateCount t)) ∅) as
    (gs & m & Hrun & (Hr & Hi & Hs) & _ & Hall & Hk).
  { intros s Hs%elem_of_seqZ. apply parserStateSignature_eq; [done..|lia]. } { apply numbering_empty. }
  assert (len gs = StateCount t) as Hlen.
  { apply Forall2_length in Hall. rewrite length_seqZ in Hall. unfold len. lia. }
  assert (∀ s, 0 ≤ s < StateCount t → m !! state_sig (group_col previous) t s = Some (colf gs s)) as Hcol.
  { intros s Hsr. rewrite <-Hlen in Hsr. apply colf_zget in Hsr as Hz. apply zget_lookup in Hz as [_ Hz].
    destruct (Forall2_lookup_r _ _ _ _ _ Hall Hz) as (s' & Hs' & Hm'). apply lookup_seqZ in Hs' as [-> _].
    rewrite Z.add_0_l, Z2Nat.id in Hm' by lia. done. }
  exists gs, (Z.of_nat (size m)). split_and!; [done| |lia|].
  - split; [done| |].
    + apply list.Forall_forall. intros c (i & Hc)%list_elem_of_lookup_1.
      destruct (Forall2_lookup_r _ _ _ _ _ Hall Hc) as (s' & _ & Hm'). by eapply Hr.
    + intros c (k & Hkc)%Hs. destruct (Hk k) as [[? He]|(s & Hin%elem_of_seqZ & ->)]; [by exists c|by rewrite lookup_empty in He|].
      exists s. split; [lia|]. rewrite Hcol in Hkc by lia. by injection Hkc.
  - intros s s' Hsr Hsr'. rewrite <-state_sig_iff. split; intros E.
    + apply (Hi _ _ (colf gs s)); [by apply Hcol|]. rewrite E. by apply Hcol.
    + apply Hcol in Hsr, Hsr'. rewrite E in Hsr. congruence.
Qed.

Lemma lenGroupSet_eq gs k : coloring (StateCount t) gs k → 0 ≤ k → lenGroupSet gs = k.
Proof using.
  intros [Hl Hr Hu] Hk. unfold lenGroupSet.
  assert (∀ l a, a ≤ foldl (λ m g, if m <? g then g else m) a l ∧ (∀ x, x ∈ l → x ≤ foldl (λ m g, if m <? g then g else m) a l) ∧
    (foldl (λ m g, if m <? g then g else m) a l = a ∨ foldl (λ m g, if m <? g then g else m) a l ∈ l)) as Hmax.
  { induction l as [|x l IH]; intros a; cbn [foldl]; [split_and!; [lia|by intros ? ?%elem_of_nil|by left]|].
    destruct (IH (if a <? x then x else a)) as (H1 & H2 & H3). split_and!; [destruct (Z.ltb_spec a x); lia| |].
    - intros y [->|?]%elem_of_cons; [destruct (Z.ltb_spec a x); lia|auto].
    - rewrite elem_of_cons. destruct (Z.ltb_spec a x); naive_solver. }
  destruct (Hmax gs (-1)) as (H1 & H2 & H3). set (v := foldl _ _ _) in *. clearbody v. clear Hmax.
  rewrite list.Forall_forall in Hr. assert (v < k) as Hlt by (destruct H3 as [->|?%Hr]; lia).
  destruct (decide (k = 0)) as [->|]; [lia|]. destruct (Hu (k - 1)) as (i & Hi & Hc); [lia|].
  rewrite <-Hl in Hi. apply colf_zget, zget_elem, H2 in Hi. lia.
Qed.

(** ** The loop *)

(** Every class has one row, up to its own classes. *)
Definition stable (col : Z → Z) : Prop :=
  ∀ s s', 0 ≤ s < StateCount t → 0 ≤ s' < StateCount t → col s = col s' → state_agree col t s s'.

Lemma state_agree_coarser col col' s s' : refines (StateCount t) col col' → 0 ≤ s < StateCount t → 0 ≤ s' < StateCount t →
  state_agree col t s s' → state_agree col' t s s'.
Proof using Ht.
  intros Hr Hs Hs' [Ha Hg]. destruct (Ht s Hs) as [Hrow Hgo], (Ht s' Hs') as [Hrow' Hgo'].
  split; [by apply (row_agree_coarser col _ _ Hr)|by apply (goto_agree_coarser col _ _ Hr)].
Qed.

(** What holds of the groups between two rounds. *)
Record round_inv (gs : list Z) (k : Z) : Prop := {
  ri_col : coloring (StateCount t) gs k;
  ri_nonneg : 0 ≤ k;
  ri_step : ∀ s s', 0 ≤ s < StateCount t → 0 ≤ s' < StateCount t → state_agree (colf gs) t s s' → colf gs s = colf gs s';
  ri_coarse : ∀ col, stable col → refines (StateCount t) col (colf gs) }.

Lemma first_round : ∃ gs k, parserStateGroups t None = Ret gs ∧ round_inv gs k.
Proof using Ht Hn.
  destruct (parserStateGroups_spec None) as (gs & k & Hrun & Hc & Hk & Hiff); [done|]. exists gs, k. split; [done|].
  assert (∀ col, refines (StateCount t) col (group_col None)) as Hany by done. split; [done..| |].
  - intros s s' Hs Hs' Ha. apply Hiff; [done..|]. eapply state_agree_coarser; [apply Hany|done..].
  - intros col Hst s s' Hs Hs' E. apply Hiff; [done..|]. eapply state_agree_coarser; [apply Hany|done..|by apply Hst].
Qed.

Lemma next_round gs k : round_inv gs k →
  ∃ gs' k', parserStateGroups t (Some gs) = Ret gs' ∧ round_inv gs' k' ∧ refines (StateCount t) (colf gs') (colf gs) ∧
    (refines (StateCount t) (colf gs) (colf gs') → stable (colf gs')).
Proof using Ht Hn.
  intros [Hc Hk Hstep Hco]. destruct (parserStateGroups_spec (Some gs)) as (gs' & k' & Hrun & Hc' & Hk' & Hiff); [apply Hc|].
  cbn [group_col] in Hiff.
  assert (refines (StateCount t) (colf gs') (colf gs)) as Href.
  { intros s s' Hs Hs' E. apply Hstep; [done..|]. by apply Hiff. }
  exists gs', k'. split_and!; [done| |done|].
  - split; [done..| |].
    + intros s s' Hs Hs' Ha. apply Hiff; [done..|]. by eapply state_agree_coarser.
    + intros col Hst s s' Hs Hs' E. apply Hiff; [done..|]. eapply state_agree_coarser; [by apply Hco|done..|by apply Hst].
  - intros Hback s s' Hs Hs' E. eapply state_agree_coarser; [exact Hback|done..|]. by apply Hiff.
Qed.

(** The strict groups: the coarsest stable partition. *)
Record strict_ok (gs : list Z) (k : Z) : Prop := {
  so_col : coloring (StateCount t) gs k;
  so_nonneg : 0 ≤ k;
  so_stable : stable (colf gs);
  so_coarse : ∀ col, stable col → refines (StateCount t) col (colf gs) }.

Lemma strict_loop_spec fuel gs k : round_inv gs k → StateCount t - k < Z.of_nat fuel →
  ∃ gs' k', strict_loop t fuel gs = Ret gs' ∧ strict_ok gs' k'.
Proof using Ht Hn.
  revert gs k. induction fuel as [|fuel IH]; intros gs k Hi Hf.
  { exfalso. destruct Hi as [Hc Hk _ _]. pose proof (coloring_count _ _ _ Hc Hk). lia. }
  cbn [strict_loop]. destruct (next_round gs k Hi) as (gs' & k' & -> & Hi' & Href & Hst). cbn [mbind go_bind].
  rewrite (lenGroupSet_eq gs k), (lenGroupSet_eq gs' k') by apply Hi || apply Hi'.
  pose proof (refines_count _ _ _ _ _ (ri_col _ _ Hi) (ri_col _ _ Hi') (ri_nonneg _ _ Hi') Href) as Hle.
  destruct (Z.eqb_spec k' k) as [->|Hne]; [|apply (IH gs' k' Hi'); lia].
  exists gs', k. split; [done|]. split; [apply Hi'..| |apply Hi']. apply Hst, (refines_same _ _ _ k); [apply Hi|apply Hi'|done].
Qed.

Lemma strict_groups_spec : ∃ gs k, strict_groups t = Ret gs ∧ strict_ok gs k.
Proof using Ht Hn.
  destruct first_round as (gs & k & Hrun & Hi). unfold strict_groups. rewrite Hrun. cbn [mbind go_bind].
  apply (strict_loop_spec _ _ k Hi). pose proof (ri_nonneg _ _ Hi). lia.
Qed.

(** ** The groups of the strict classes *)

Section initial.
Context (gs : list Z) (k : Z) (Hc : coloring (StateCount t) gs k) (Hk : 0 ≤ k).

(** The states below [m] of one class. *)
Definition members (m gi : Z) : list Z := filter (λ s, colf gs s = gi) (seqZ 0 m).

Definition group_at (l : list Z) : parserStateGroup :=
  match l with
  | [] => mkGroup [] ∅ ∅ []
  | s :: _ => mkGroup l (actions_of t s) (gotos_of t s) (default [] (zget (CompactCoreKeys t) s))
  end.

Lemma join_group_at s l : join_group t s (group_at l) = group_at (l ++ [s]).
Proof using. by destruct l. Qed.

Lemma zget_map_seqZ {A} (f : Z → A) m i : 0 ≤ i < m → zget (map f (seqZ 0 m)) i = Some (f i).
Proof using. intros Hi. rewrite zget_map. unfold zget. replace (0 <=? i) with true by lia. rewrite lookup_seqZ_lt by lia. cbn. do 2 f_equal. lia. Qed.

Lemma len_map_seqZ {A} (f : Z → A) m : 0 ≤ m → len (map f (seqZ 0 m)) = m.
Proof using. intros Hm. unfold len. rewrite length_map, length_seqZ. lia. Qed.

Lemma insert_map_seqZ {A} (f g : Z → A) m i : 0 ≤ i < m → (∀ j, j ≠ i → f j = g j) →
  <[Z.to_nat i := g i]> (map f (seqZ 0 m)) = map g (seqZ 0 m).
Proof using.
  intros Hi Hfg. apply list_eq. intros j. rewrite list_lookup_insert. rewrite length_map, length_seqZ.
  case_decide as Hd.
  - destruct Hd as [<- Hj]. rewrite <-zget_nat, Z2Nat.id, zget_map_seqZ by lia. done.
  - rewrite !list_lookup_fmap. destruct (seqZ 0 m !! j) as [x|] eqn:E; [|done]. cbn. f_equal. apply Hfg.
    apply lookup_seqZ in E as [-> ?]. lia.
Qed.

Lemma fill_groups_spec rest s : 0 ≤ s → (∀ i, zget rest i = zget gs (s + i) ∨ i < 0) → s + len rest = StateCount t →
  fill_groups t s rest (map (λ gi, group_at (members s gi)) (seqZ 0 k)) =
  Ret (map (λ gi, group_at (members (StateCount t) gi)) (seqZ 0 k)).
Proof using Hc Hk.
  revert s. induction rest as [|gi rest IH]; intros s Hs Hrest Hlen.
  { rewrite len_nil, Z.add_0_r in Hlen. by subst. }
  cbn [fill_groups]. rewrite len_cons in Hlen. pose proof (len_nonneg rest).
  assert (zget gs s = Some gi) as Hgi.
  { destruct (Hrest 0) as [E|]; [|lia]. by rewrite Z.add_0_r in E. }
  assert (colf gs s = gi) as Hcs by (unfold colf; by rewrite Hgi).
  assert (0 ≤ gi < k) as Hr by (rewrite <-Hcs; eapply colf_range; [done|lia]).
  rewrite (proj2 (index_Ret _ gi (group_at (members s gi)))) by (by rewrite zget_map_seqZ). cbn [mbind go_bind].
  rewrite store_ok by (rewrite len_map_seqZ; lia). cbn [mbind go_bind]. rewrite join_group_at.
  assert (∀ j, members (s + 1) j = members s j ++ if decide (gi = j) then [s] else []) as Hmem.
  { intros j. unfold members. rewrite seqZ_app, filter_app by lia. f_equal.
    replace (seqZ (0 + s) 1) with [s] by (unfold seqZ; cbn; f_equal; lia).
    rewrite filter_cons, filter_nil, Hcs. done. }
  replace (members s gi ++ [s]) with (members (s + 1) gi) by (by rewrite Hmem, decide_True).
  rewrite (insert_map_seqZ (λ gi, group_at (members s gi)) (λ gi, group_at (members (s + 1) gi))); [|done|].
  - apply IH; [lia| |lia]. intros i. destruct (decide (i < 0)); [by right|left]. destruct (Hrest (i + 1)) as [E|]; [|lia].
    rewrite zget_cons_ne in E by lia. replace (i + 1 - 1) with i in E by lia. rewrite E. f_equal. lia.
  - intros j Hj. rewrite Hmem, decide_False, app_nil_r by done. done.
Qed.

(** One group of the class of [s]. *)
Record class_group (gi : Z) (g : parserStateGroup) : Prop := {
  cg_states : ∀ s, s ∈ pgStates g ↔ 0 ≤ s < StateCount t ∧ colf gs s = gi;
  cg_nodup : NoDup (pgStates g);
  cg_rows : ∃ s, s ∈ pgStates g ∧ pgActions g = actions_of t s ∧ pgGotos g = gotos_of t s;
  cg_core : compactCoreKey g ≠ [] → ∀ s, s ∈ pgStates g → zget (CompactCoreKeys t) s = Some (compactCoreKey g) }.

Lemma settle_core_spec gi : 0 ≤ gi < k → ∃ g, settle_core t (group_at (members (StateCount t) gi)) = Ret g ∧ class_group gi g.
Proof using Hc.
  intros Hgi. destruct (co_used _ _ _ Hc gi Hgi) as (s0 & Hs0 & Hcs0).
  assert (∀ s, s ∈ members (StateCount t) gi ↔ 0 ≤ s < StateCount t ∧ colf gs s = gi) as Hmem.
  { intros s. unfold members. rewrite list_elem_of_filter, elem_of_seqZ. intuition lia. }
  assert (NoDup (members (StateCount t) gi)) as Hnd by (apply NoDup_filter, NoDup_seqZ).
  destruct (members _ gi) as [|s l] eqn:El; [exfalso; by eapply (not_elem_of_nil s0), Hmem|].
  unfold settle_core. cbn [group_at pgStates]. rewrite gslice_ok by (rewrite ?len_cons; pose proof (len_nonneg l); lia). cbn [mbind go_bind].
  replace (slice (s :: l) 1 (len (s :: l))) with l.
  2: { pose proof (slice_app_r [s] l 0) as E. cbn [app] in E. rewrite slice_all in E. symmetry. apply E. pose proof (len_nonneg l). lia. }
  eexists. split; [reflexivity|]. split; cbn [pgStates pgActions pgGotos compactCoreKey]; [done..|exists s; split_and!; [left|done..]|].
  destruct (forallb _ _) eqn:Hall; [|done]. rewrite forallb_forall in Hall. intros Hne s' [->|Hs']%elem_of_cons.
  - by destruct (zget _ s).
  - apply list_elem_of_In, Hall in Hs'. unfold same_core in Hs'. destruct (zget _ s') as [key|]; [|done].
    apply bool_decide_eq_true in Hs'. by subst.
Qed.

Lemma initialStateGroups_spec : ∃ groups, initialStateGroups t gs = Ret groups ∧ len groups = k ∧
  ∀ gi g, zget groups gi = Some g → class_group gi g.
Proof using Hc Hk.
  unfold initialStateGroups. rewrite (lenGroupSet_eq gs k) by done.
  replace (make k (mkGroup [] ∅ ∅ [])) with (map (λ gi, group_at (members 0 gi)) (seqZ 0 k)).
  2: { apply list_eq. intros i. unfold make. rewrite list_lookup_fmap. destruct (decide (i < Z.to_nat k)%nat) as [Hi|Hi].
       - rewrite lookup_replicate_2, lookup_seqZ_lt by lia. done.
       - rewrite !(proj2 (lookup_ge_None _ i)); [done|rewrite length_replicate|rewrite length_seqZ]; lia. }
  rewrite fill_groups_spec; [|lia|intros i; by left|rewrite Z.add_0_l; apply Hc]. cbn [mbind go_bind].
  assert (∀ l, (∀ gi, gi ∈ l → 0 ≤ gi < k) → ∃ groups, settle_cores t (map (λ gi, group_at (members (StateCount t) gi)) l) = Ret groups ∧
    Forall2 class_group l groups) as Hset.
  { induction l as [|gi l IH]; intros Hl; cbn [map settle_cores]; [by exists []|].
    destruct (settle_core_spec gi) as (g & -> & Hg); [apply Hl; left|]. cbn [mbind go_bind].
    destruct IH as (groups & -> & Hall); [intros; apply Hl; by right|]. exists (g :: groups). split; [done|by constructor]. }
  destruct (Hset (seqZ 0 k)) as (groups & Hrun & Hall); [intros gi ?%elem_of_seqZ; lia|]. exists groups. split_and!; [done| |].
  - apply Forall2_length in Hall. rewrite length_seqZ in Hall. unfold len. lia.
  - intros gi g [Hpos Hg]%zget_lookup. destruct (Forall2_lookup_r _ _ _ _ _ Hall Hg) as (gi' & Hgi' & Hcg).
    apply lookup_seqZ in Hgi' as [-> _]. by replace (0 + Z.of_nat (Z.to_nat gi)) with gi in Hcg by lia.
Qed.
End initial.
End groups.
