(* ===== verification/LrMerge.v ===== *)
(** * Merging compatible groups of parse states

    Facts about the second half of LrMinimize.v: the groups that
    mergeCompatibleStateGroups returns hold every state once, keep the actions and
    the gotos of each of their states, have no action that none of their states
    has, and bring two tokens together only when one of their states has both or
    no text can start both.  At the end of minimizeParseStates the group of the start
    state comes first, every state is numbered by its group, and the rows of the
    groups become the rows of the new tables. *)

From Stdlib Require Import ZArith Lia ZifyBool.
From stdpp Require Import base tactics list numbers option gmap fin_maps fin_map_dom.
From S2P Require Import Prelude SliceSort Partition Regex Nfa LrGrammar LrMinimize LrSignature LrGroups.
Local Open Scope Z_scope.

(** ** Loops *)

Lemma all_go_spec {A} (f : A → go bool) l : (∀ x, x ∈ l → ∃ b, f x = Ret b) →
  ∃ b, all_go f l = Ret b ∧ (b = true → ∀ x, x ∈ l → f x = Ret true).
Proof.
  induction l as [|x l IH]; intros Hf; cbn [all_go]; [exists true; split; [done|by intros _ x ?%elem_of_nil]|].
  destruct (Hf x) as [b Hb]; [left|]. rewrite Hb. cbn [mbind go_bind]. destruct b; [|by exists false].
  destruct IH as (b & Hrun & Hall); [intros; apply Hf; by right|]. exists b. split; [done|].
  intros Ht y [->|?]%elem_of_cons; auto.
Qed.

Lemma option_Forall2_Some {A B} (R : A → B → Prop) x my : option_Forall2 R (Some x) my → ∃ y, my = Some y ∧ R x y.
Proof. inversion 1; eauto. Qed.

Section merge.
Context `{SliceSort} (t : LRTables) (Ht : tables_ok t).
Context (gs : list Z) (k : Z) (Hs : strict_ok t gs k).
Notation n := (StateCount t).
Notation col := (colf gs).

(** ** What a group stands for *)

(** The relation the merged tokens are in: none without a grammar. *)
Definition disjoint_in (ng : option NormalizedGrammar) (matchers : gmap Z terminalStartMatcher) (x y : Z) : bool :=
  match ng with Some ng => disjointTerminals ng matchers x y | None => false end.

Record group_ok (ng : option NormalizedGrammar) (matchers : gmap Z terminalStartMatcher) (g : parserStateGroup) : Prop := {
  go_range : ∀ s, s ∈ pgStates g → 0 ≤ s < n;
  go_closed : ∀ s s', s ∈ pgStates g → 0 ≤ s' < n → col s = col s' → s' ∈ pgStates g;
  go_keep : ∀ s sym acts, s ∈ pgStates g → actions_of t s !! sym = Some acts →
    ∃ acts', pgActions g !! sym = Some acts' ∧ acts_agree col acts acts';
  go_from : ∀ sym acts, pgActions g !! sym = Some acts → ∃ s, s ∈ pgStates g ∧ actions_of t s !! sym = Some acts;
  go_goto : ∃ s, s ∈ pgStates g ∧ pgGotos g = gotos_of t s;
  go_gotos : ∀ s, s ∈ pgStates g → goto_agree col (gotos_of t s) (pgGotos g);
  go_core : compactCoreKey g ≠ [] → ∀ s, s ∈ pgStates g → zget (CompactCoreKeys t) s = Some (compactCoreKey g);
  go_alike : compactCoreKey g = [] ∨ ng = None → ∀ s s', s ∈ pgStates g → s' ∈ pgStates g → col s = col s';
  go_pairs : ∀ x y, is_Some (pgActions g !! x) → is_Some (pgActions g !! y) →
    (∃ s, s ∈ pgStates g ∧ is_Some (actions_of t s !! x) ∧ is_Some (actions_of t s !! y)) ∨ disjoint_in ng matchers x y = true }.

Lemma class_group_ok ng ms gi g : class_group t gs gi g → group_ok ng ms g.
Proof using Hs.
  intros [Hst Hnd (r & Hr & Ea & Eg) Hcore].
  assert (∀ s, s ∈ pgStates g → 0 ≤ s < n ∧ 0 ≤ r < n ∧ col s = col r) as Hin.
  { intros s Hin. apply Hst in Hin as [? ?], Hr as [? ?]. split_and!; [lia..|congruence]. }
  assert (∀ s, s ∈ pgStates g → state_agree col t s r) as Hag by (intros s (? & ? & ?)%Hin; by apply (so_stable _ _ _ Hs)).
  split.
  - intros s [? ?]%Hst. lia.
  - intros s s' [? ?]%Hst ? ?. apply Hst. split; [lia|congruence].
  - intros s sym acts [Ha _]%Hag E. specialize (Ha sym). rewrite E in Ha. rewrite Ea. by apply option_Forall2_Some in Ha.
  - intros sym acts E. exists r. by rewrite <-Ea.
  - by exists r.
  - intros s [_ Hg]%Hag. by rewrite Eg.
  - done.
  - intros _ s s' (_ & _ & ->)%Hin (_ & _ & ->)%Hin. done.
  - intros x y Hx Hy. left. exists r. by rewrite <-Ea.
Qed.

Lemma group_fit ng ms g : group_ok ng ms g → row_fit n (pgActions g) ∧ goto_fit n (pgGotos g).
Proof using Ht.
  intros G. split.
  - intros sym acts (s & Hin & E)%(go_from _ _ _ G). destruct (Ht s) as [Hf _]; [by apply (go_range _ _ _ G)|]. by apply (Hf sym).
  - destruct (go_goto _ _ _ G) as (s & Hin & ->). apply Ht, (go_range _ _ _ G), Hin.
Qed.

(** ** Compatible groups *)

Section terminals.
Context (ng : NormalizedGrammar) (matchers : gmap Z terminalStartMatcher).
Notation D := (disjointTerminals ng matchers).

Lemma disjointTerminals_sym x y : D x y = D y x.
Proof using.
  unfold disjointTerminals, terminalStartMatchersOverlap.
  rewrite (orb_comm (_ || _ || _) (TokenCount ng <=? y)), (orb_comm (int_in x _)), (orb_comm (x =? _)), (orb_comm (int_in x (KeywordSymbols ng))).
  replace ((TokenCount ng <=? y) || ((x <=? 0) || (y <=? 0) || (TokenCount ng <=? x))) with ((y <=? 0) || (x <=? 0) || (TokenCount ng <=? y) || (TokenCount ng <=? x)) by lia.
  do 4 (case_match; [done|]). destruct (matchers !! x) as [a|], (matchers !! y) as [b|]; try done. f_equal.
  rewrite (bool_decide_ext (tmRunes a ## tmRunes b) (tmRunes b ## tmRunes a)) by (split; intros ?; by symmetry).
  destruct (tmAny a), (tmAny b), (bool_decide (tmRunes a = ∅)), (bool_decide (tmRunes b = ∅)); done.
Qed.

Record compatible (l r : parserStateGroup) : Prop := {
  cp_gotos : goto_agree col (pgGotos r) (pgGotos l);
  cp_actions : ∀ sym a b, pgActions l !! sym = Some a → pgActions r !! sym = Some b → acts_agree col a b;
  cp_only : ∀ x y, is_Some (pgActions l !! x) → pgActions r !! x = None → is_Some (pgActions r !! y) → pgActions l !! y = None → D x y = true }.

Lemma sameActionLists_spec l r : (∀ a, a ∈ l → laKind a = lrShift → 0 ≤ laState a < n) → (∀ a, a ∈ r → laKind a = lrShift → 0 ≤ laState a < n) →
  ∃ b, sameActionLists gs l r = Ret b ∧ (b = true → acts_agree col l r).
Proof using Hs.
  intros Hl Hr. unfold sameActionLists. destruct (negb _); [by exists false|]. assert (groups_for n (Some gs)) as Hg by apply Hs.
  rewrite (action_signatures_eq n), (action_signatures_eq n) by done. cbn. eexists. split; [done|].
  intros E%bool_decide_eq_true. by apply sort_strings_iff in E.
Qed.

Lemma stateGroupsCompatible_spec l r : group_ok (Some ng) matchers l → group_ok (Some ng) matchers r →
  ∃ b, stateGroupsCompatible gs ng matchers l r = Ret b ∧ (b = true → compatible l r).
Proof using Hs Ht.
  intros Gl Gr. destruct (group_fit _ _ _ Gl) as [Hal Hgl], (group_fit _ _ _ Gr) as [Har Hgr].
  assert (len gs = n) as Hlen by apply Hs. unfold stateGroupsCompatible.
  destruct (negb (_ =? _)) eqn:Hsz; [by exists false|].
  destruct (all_go_spec (same_goto gs (pgGotos r)) (map_to_list (pgGotos l))) as (b1 & -> & H1).
  { intros [sym s] E%elem_of_map_to_list. unfold same_goto. cbn [fst snd]. destruct (pgGotos r !! sym) as [s'|] eqn:E'; [|by exists false].
    rewrite (index_colf gs s), (index_colf gs s') by (rewrite Hlen; (by apply (Hgl sym)) || by apply (Hgr sym)). cbn. by eexists. }
  cbn [mbind go_bind]. destruct b1; [|by exists false].
  destruct (all_go_spec (same_actions gs (pgActions r)) (map_to_list (pgActions l))) as (b2 & -> & H2).
  { intros [sym a] E%elem_of_map_to_list. unfold same_actions. cbn [fst snd]. destruct (pgActions r !! sym) as [a'|] eqn:E'; [|by exists true].
    destruct (sameActionLists_spec a a') as (b & -> & _); [by apply (Hal sym)|by apply (Har sym)|]. by exists b. }
  cbn [mbind go_bind]. destruct b2; [|by exists false]. eexists. split; [done|]. intros H3.
  specialize (H1 eq_refl). specialize (H2 eq_refl). cbn in Hsz. split.
  - assert (∀ sym s, pgGotos l !! sym = Some s → ∃ s', pgGotos r !! sym = Some s' ∧ col s = col s') as Hlr.
    { intros sym s E. pose proof (H1 (sym, s)) as H1'. rewrite elem_of_map_to_list in H1'. specialize (H1' E). unfold same_goto in H1'. cbn [fst snd] in H1'.
      destruct (pgGotos r !! sym) as [s'|] eqn:E'; [|done]. exists s'. split; [done|].
      rewrite (index_colf gs s), (index_colf gs s') in H1' by (rewrite Hlen; (by apply (Hgl sym)) || by apply (Hgr sym)). cbn in H1'. injection H1' as H1'. lia. }
    assert (dom (pgGotos l) = dom (pgGotos r)) as Hdom.
    { apply set_subseteq_size_eq; [|rewrite !size_dom; lia].
      intros sym [s E]%elem_of_dom. destruct (Hlr _ _ E) as (s' & E' & _). apply elem_of_dom. by exists s'. }
    intros sym. destruct (pgGotos l !! sym) as [s|] eqn:E.
    + destruct (Hlr _ _ E) as (s' & -> & Ec). cbn. by rewrite Ec.
    + assert (sym ∉ dom (pgGotos l)) as Hn by (by apply not_elem_of_dom). rewrite Hdom in Hn. apply not_elem_of_dom in Hn. by rewrite Hn.
  - intros sym a b Ea Eb. pose proof (H2 (sym, a)) as H2'. rewrite elem_of_map_to_list in H2'. specialize (H2' Ea). unfold same_actions in H2'. cbn [fst snd] in H2'.
    rewrite Eb in H2'. destruct (sameActionLists_spec a b) as (c & Hc & Hag); [by apply (Hal sym)|by apply (Har sym)|]. rewrite Hc in H2'. injection H2' as ->. by apply Hag.
  - assert (∀ row other x, is_Some (row !! x) → other !! x = None → x ∈ only_in row other) as Honly.
    { intros row other x [a Ea] Eo. apply list_elem_of_filter. split; [done|]. apply list_elem_of_fmap. exists (x, a). split; [done|]. by apply elem_of_map_to_list. }
    intros x y Hx Hx' Hy Hy'. rewrite forallb_forall in H3. pose proof (H3 x) as H3'. rewrite <-list_elem_of_In in H3'. specialize (H3' (Honly _ _ _ Hx Hx')).
    rewrite forallb_forall in H3'. apply H3', list_elem_of_In, Honly; done.
Qed.

Lemma merged_actions (m g : parserStateGroup) sym acts : pgActions (mergeStateGroups m g) !! sym = Some acts →
  pgActions m !! sym = Some acts ∨ pgActions m !! sym = None ∧ pgActions g !! sym = Some acts.
Proof using. cbn. rewrite lookup_union_Some_raw. tauto. Qed.

Lemma acts_agree_sym c l l' : acts_agree c l l' → acts_agree c l' l.
Proof using. unfold acts_agree. by intros ->. Qed.

Lemma merged_pairs m g x y : group_ok (Some ng) matchers m → group_ok (Some ng) matchers g → compatible m g →
  is_Some (pgActions (mergeStateGroups m g) !! x) → is_Some (pgActions (mergeStateGroups m g) !! y) →
  (∃ s, s ∈ pgStates m ++ pgStates g ∧ is_Some (actions_of t s !! x) ∧ is_Some (actions_of t s !! y)) ∨ D x y = true.
Proof using.
  intros Gm Gg Cp Hx Hy.
  assert (∀ z, is_Some (pgActions (mergeStateGroups m g) !! z) → is_Some (pgActions m !! z) ∨ pgActions m !! z = None ∧ is_Some (pgActions g !! z)) as Hcase.
  { intros z [a [?|[? ?]]%merged_actions]; [left|right; split; [done|]]; by eexists. }
  assert (∀ G, group_ok (Some ng) matchers G → (∀ s, s ∈ pgStates G → s ∈ pgStates m ++ pgStates g) → is_Some (pgActions G !! x) → is_Some (pgActions G !! y) →
    (∃ s, s ∈ pgStates m ++ pgStates g ∧ is_Some (actions_of t s !! x) ∧ is_Some (actions_of t s !! y)) ∨ D x y = true) as Hone.
  { intros G HG Hsub Hx' Hy'. destruct (go_pairs _ _ _ HG x y Hx' Hy') as [(s & Hin & ? & ?)|?]; [left|by right]. exists s. by split_and!; [apply Hsub|..]. }
  assert (∀ z w, is_Some (pgActions m !! z) → pgActions m !! w = None → is_Some (pgActions g !! w) → is_Some (pgActions g !! z) ∨ D z w = true) as Hmix.
  { intros z w Hz Hw Hw'. destruct (pgActions g !! z) eqn:E; [by left; eexists|]. right. by apply (cp_only _ _ Cp). }
  assert (∀ s, s ∈ pgStates m → s ∈ pgStates m ++ pgStates g) as Hsm by (intros; apply elem_of_app; by left).
  assert (∀ s, s ∈ pgStates g → s ∈ pgStates m ++ pgStates g) as Hsg by (intros; apply elem_of_app; by right).
  destruct (Hcase x Hx) as [Hxm|[Hxm Hxg]], (Hcase y Hy) as [Hym|[Hym Hyg]].
  - by apply (Hone m).
  - destruct (Hmix x y) as [?|?]; [done..|by apply (Hone g)|by right].
  - destruct (Hmix y x) as [?|?]; [done..|by apply (Hone g)|]. right. by rewrite disjointTerminals_sym.
  - by apply (Hone g).
Qed.

Lemma merge_ok m g : group_ok (Some ng) matchers m → group_ok (Some ng) matchers g → compatible m g → compactCoreKey m = compactCoreKey g → compactCoreKey g ≠ [] →
  group_ok (Some ng) matchers (mergeStateGroups m g).
Proof using.
  intros Gm Gg Cp Hkey Hne. split; cbn [pgStates pgActions pgGotos compactCoreKey mergeStateGroups].
  - intros s [Hin|Hin]%elem_of_app; [by apply (go_range _ _ _ Gm)|by apply (go_range _ _ _ Gg)].
  - intros s s' [Hin|Hin]%elem_of_app Hr E; apply elem_of_app; [left; by eapply (go_closed _ _ _ Gm)|right; by eapply (go_closed _ _ _ Gg)].
  - intros s sym acts [Hin|Hin]%elem_of_app E.
    + destruct (go_keep _ _ _ Gm s sym acts Hin E) as (a & Ea & Hag). exists a. split; [by apply lookup_union_Some_l|done].
    + destruct (go_keep _ _ _ Gg s sym acts Hin E) as (a & Ea & Hag). destruct (pgActions m !! sym) as [b|] eqn:Eb.
      * exists b. split; [by apply lookup_union_Some_l|]. pose proof (cp_actions _ _ Cp sym b a Eb Ea) as Hba. unfold acts_agree in *. by rewrite Hag, Hba.
      * exists a. split; [|done]. by rewrite lookup_union_r.
  - intros sym acts [E|[_ E]]%merged_actions.
    + destruct (go_from _ _ _ Gm sym acts E) as (s & ? & ?). exists s. rewrite elem_of_app. tauto.
    + destruct (go_from _ _ _ Gg sym acts E) as (s & ? & ?). exists s. rewrite elem_of_app. tauto.
  - destruct (go_goto _ _ _ Gm) as (s & ? & ?). exists s. rewrite elem_of_app. tauto.
  - intros s [Hin|Hin]%elem_of_app; [by apply (go_gotos _ _ _ Gm)|]. intros sym. rewrite (go_gotos _ _ _ Gg s Hin sym). apply (cp_gotos _ _ Cp).
  - intros _ s [Hin|Hin]%elem_of_app; [|rewrite Hkey; by apply (go_core _ _ _ Gg)]. apply (go_core _ _ _ Gm); [congruence|done].
  - intros [?|?]; congruence.
  - intros x y. by apply merged_pairs.
Qed.

(** ** Placing the groups *)

Notation all_states := (λ l : list parserStateGroup, concat (map pgStates l)).

Lemma place_group_spec merged c : Forall (group_ok (Some ng) matchers) merged → group_ok (Some ng) matchers c → compactCoreKey c ≠ [] →
  ∃ merged', place_group gs ng matchers merged c = Ret merged' ∧ Forall (group_ok (Some ng) matchers) merged' ∧
    all_states merged' ≡ₚ pgStates c ++ all_states merged.
Proof using Hs Ht.
  intros Hm Gc Hne. induction Hm as [|m rest Gm Hrest IH]; cbn [place_group].
  { exists [c]. split_and!; [done|by constructor|done]. }
  assert (∃ b, (if bool_decide (compactCoreKey m = compactCoreKey c) then stateGroupsCompatible gs ng matchers m c else Ret false) = Ret b ∧
    (b = true → compactCoreKey m = compactCoreKey c ∧ compatible m c)) as (b & -> & Hb).
  { case_bool_decide; [|by exists false]. destruct (stateGroupsCompatible_spec m c Gm Gc) as (b & -> & Hb). exists b. split; [done|]. auto. }
  cbn [mbind go_bind]. destruct b.
  - destruct (Hb eq_refl) as [Hkey Cp]. exists (mergeStateGroups m c :: rest). split_and!; [done| |].
    + constructor; [by apply merge_ok|done].
    + cbn. rewrite <-app_assoc. rewrite Permutation_app_swap_app. done.
  - destruct IH as (merged' & -> & Hok & Hperm). exists (m :: merged'). split_and!; [done|by constructor|].
    cbn. rewrite Hperm. apply Permutation_app_swap_app.
Qed.

Section loop.
Context (groups : list parserStateGroup) (Hgroups : Forall (group_ok (Some ng) matchers) groups).

(** The states of the groups consumed so far. *)
Definition taken (consumed : list bool) : list Z :=
  concat (zip_with (λ (c : bool) g, if c then pgStates g else []) consumed groups).

Lemma taken_store consumed i g : zget consumed i = Some false → zget groups i = Some g →
  taken (<[Z.to_nat i := true]> consumed) ≡ₚ pgStates g ++ taken consumed.
Proof using.
  unfold taken. intros [_ Hc]%zget_lookup [_ Hg]%zget_lookup. revert i Hc Hg. clear Hgroups.
  intros i. generalize (Z.to_nat i). clear i. revert groups. induction consumed as [|c consumed IH]; intros [|g' groups'] [|i]; cbn; try done.
  - intros [= ->] [= ->]. done.
  - intros Hc Hg. rewrite (IH groups' i Hc Hg). apply Permutation_app_swap_app.
Qed.

Lemma taken_all consumed : len consumed = len groups → (∀ i, 0 ≤ i < len groups → zget consumed i = Some true) → taken consumed = all_states groups.
Proof using.
  unfold taken. clear Hgroups. revert groups. induction consumed as [|c consumed IH]; intros [|g groups']; try done.
  rewrite !len_cons. intros Hl Hall. cbn. pose proof (len_nonneg groups').
  assert (c = true) as -> by (specialize (Hall 0 ltac:(lia)); by injection Hall). f_equal. apply IH; [lia|].
  intros i Hi. specialize (Hall (i + 1) ltac:(lia)). rewrite zget_cons_ne in Hall by lia. by replace (i + 1 - 1) with i in Hall by lia.
Qed.

Record merge_inv (merged : list parserStateGroup) (consumed : list bool) : Prop := {
  mi_ok : Forall (group_ok (Some ng) matchers) merged;
  mi_len : len consumed = len groups;
  mi_states : all_states merged ≡ₚ taken consumed }.

Definition still (consumed consumed' : list bool) : Prop := ∀ i, zget consumed i = Some true → zget consumed' i = Some true.

Lemma still_store consumed i b : zget consumed i = Some b → still consumed (<[Z.to_nat i := true]> consumed).
Proof using.
  intros Hi j Hj. pose proof (zget_Some_range _ _ _ Hi). destruct (decide (i = j)) as [->|]; [by rewrite zget_insert_eq|].
  by rewrite zget_insert_ne by lia.
Qed.

Lemma consume_inv merged consumed ci c merged' : merge_inv merged consumed → zget consumed ci = Some false → zget groups ci = Some c →
  Forall (group_ok (Some ng) matchers) merged' → all_states merged' ≡ₚ pgStates c ++ all_states merged →
  merge_inv merged' (<[Z.to_nat ci := true]> consumed).
Proof using.
  intros [_ Hl Hp] Hc Hg Hok Hst. split; [done|by rewrite len_insert|]. etrans; [exact Hst|]. rewrite (taken_store _ _ _ Hc Hg). by rewrite Hp.
Qed.

Lemma place_core_spec candidates merged consumed :
  (∀ ci, ci ∈ candidates → ∃ c, zget groups ci = Some c ∧ compactCoreKey c ≠ []) → merge_inv merged consumed →
  ∃ merged' consumed', place_core gs ng matchers groups candidates merged consumed = Ret (merged', consumed') ∧
    merge_inv merged' consumed' ∧ still consumed consumed' ∧ ∀ ci, ci ∈ candidates → zget consumed' ci = Some true.
Proof using Hs Ht Hgroups.
  revert merged consumed. induction candidates as [|ci candidates IH]; intros merged consumed Hcand Inv; cbn [place_core].
  { exists merged, consumed. split_and!; [done|done|by unfold still|by intros ? ?%elem_of_nil]. }
  destruct (Hcand ci) as (c & Hc & Hkey); [left|]. assert (∀ ci, ci ∈ candidates → ∃ c, zget groups ci = Some c ∧ compactCoreKey c ≠ []) as Hcand' by (intros; apply Hcand; by right).
  pose proof (zget_Some_range _ _ _ Hc) as Hr. destruct (index_in_range consumed ci) as (b & -> & Hb); [by rewrite (mi_len _ _ Inv)|]. cbn [mbind go_bind].
  destruct b.
  - destruct (IH merged consumed Hcand' Inv) as (merged' & consumed' & -> & Inv' & Hst & Hall). exists merged', consumed'. split_and!; [done..|].
    intros cj [->|?]%elem_of_cons; [by apply Hst|by apply Hall].
  - rewrite (proj2 (index_Ret _ _ _) Hc). cbn [mbind go_bind].
    destruct (place_group_spec merged c (mi_ok _ _ Inv)) as (merged1 & -> & Hok1 & Hp1); [by eapply Forall_zget|done|]. cbn [mbind go_bind].
    rewrite store_ok by (by rewrite (mi_len _ _ Inv)). cbn [mbind go_bind].
    destruct (IH merged1 (<[Z.to_nat ci := true]> consumed) Hcand') as (merged' & consumed' & -> & Inv' & Hst & Hall); [by eapply consume_inv|].
    exists merged', consumed'. split_and!; [done..| |].
    + intros j Hj. apply Hst. by eapply still_store.
    + intros cj [->|?]%elem_of_cons; [|by apply Hall]. apply Hst. apply zget_insert_eq. by rewrite (mi_len _ _ Inv).
Qed.

(** Every group is listed under its core. *)
Definition index_ok (byCore : gmap (list Z) (list Z)) : Prop :=
  (∀ key cs, byCore !! key = Some cs → ∀ ci, ci ∈ cs → ∃ c, zget groups ci = Some c ∧ compactCoreKey c ≠ []).

Lemma core_index_spec gi rest byCore : 0 ≤ gi → (∀ i, 0 ≤ i → zget rest i = zget groups (gi + i)) → index_ok byCore →
  index_ok (core_index gi rest byCore) ∧
  (∀ key ci, ci ∈ default [] (byCore !! key) → ci ∈ default [] (core_index gi rest byCore !! key)) ∧
  ∀ i g, zget rest i = Some g → compactCoreKey g ≠ [] → gi + i ∈ default [] (core_index gi rest byCore !! compactCoreKey g).
Proof using.
  clear Hgroups. revert gi byCore. induction rest as [|g rest IH]; intros gi byCore Hgi Hrest Hok; cbn [core_index].
  { split_and!; [done..|]. intros i g. by rewrite zget_nil. }
  assert (zget groups gi = Some g) as Hg by (specialize (Hrest 0 ltac:(lia)); by rewrite Z.add_0_r in Hrest).
  set (byCore' := if bool_decide (compactCoreKey g = []) then byCore else _).
  assert (index_ok byCore' ∧ (∀ key ci, ci ∈ default [] (byCore !! key) → ci ∈ default [] (byCore' !! key)) ∧
    (compactCoreKey g ≠ [] → gi ∈ default [] (byCore' !! compactCoreKey g))) as (Hok' & Hkeep & Hnew).
  { unfold byCore'. case_bool_decide as Hkey; [done|]. split_and!.
    - intros key cs. rewrite lookup_insert. case_decide as Hk; [|apply Hok]. intros [= <-] ci [Hin|Hin%list_elem_of_singleton]%elem_of_app; [|subst ci].
      + destruct (byCore !! compactCoreKey g) as [cs'|] eqn:E; cbn in Hin; [by eapply Hok|by apply elem_of_nil in Hin].
      + by exists g.
    - intros key ci Hin. rewrite lookup_insert. case_decide as Hk; [|done]. subst key. cbn. apply elem_of_app. by left.
    - intros _. rewrite lookup_insert_eq. cbn. apply elem_of_app. right. left. }
  destruct (IH (gi + 1) byCore') as (H1 & H2 & H3); [lia| |done|].
  { intros i Hi. specialize (Hrest (i + 1) ltac:(lia)). rewrite zget_cons_ne in Hrest by lia. replace (i + 1 - 1) with i in Hrest by lia. rewrite Hrest. f_equal. lia. }
  split_and!; [done|auto|]. intros i g' Hi Hkey. destruct (decide (i = 0)) as [->|Hi0].
  - rewrite zget_cons_0 in Hi. injection Hi as <-. rewrite Z.add_0_r. auto.
  - rewrite zget_cons_ne in Hi by done. replace (gi + i) with (gi + 1 + (i - 1)) by lia. by apply H3.
Qed.

Lemma merge_loop_spec byCore gi rest merged consumed :
  index_ok byCore → (∀ i g, zget groups i = Some g → compactCoreKey g ≠ [] → i ∈ default [] (byCore !! compactCoreKey g)) →
  0 ≤ gi → (∀ i, 0 ≤ i → zget rest i = zget groups (gi + i)) → gi + len rest = len groups →
  merge_inv merged consumed → (∀ i, 0 ≤ i < gi → zget consumed i = Some true) →
  ∃ merged', merge_loop gs ng matchers groups byCore gi rest merged consumed = Ret merged' ∧
    Forall (group_ok (Some ng) matchers) merged' ∧ all_states merged' ≡ₚ all_states groups.
Proof using Hs Ht Hgroups.
  intros Hix Hby. revert gi merged consumed. induction rest as [|g rest IH]; intros gi merged consumed Hgi Hrest Hlen Inv Hdone; cbn [merge_loop].
  { exists merged. split_and!; [done|apply Inv|]. rewrite (mi_states _ _ Inv), taken_all; [done|apply Inv|]. rewrite len_nil in Hlen. intros i Hi. apply Hdone. lia. }
  assert (zget groups gi = Some g) as Hg by (specialize (Hrest 0 ltac:(lia)); by rewrite Z.add_0_r in Hrest).
  pose proof (zget_Some_range _ _ _ Hg) as Hr. rewrite len_cons in Hlen.
  assert (∀ i, 0 ≤ i → zget rest i = zget groups (gi + 1 + i)) as Hrest'.
  { intros i Hi. specialize (Hrest (i + 1) ltac:(lia)). rewrite zget_cons_ne in Hrest by lia. replace (i + 1 - 1) with i in Hrest by lia. rewrite Hrest. f_equal. lia. }
  assert (∀ merged' consumed', merge_inv merged' consumed' → still consumed consumed' → zget consumed' gi = Some true →
    ∃ out, merge_loop gs ng matchers groups byCore (gi + 1) rest merged' consumed' = Ret out ∧
      Forall (group_ok (Some ng) matchers) out ∧ all_states out ≡ₚ all_states groups) as Hgo.
  { intros merged' consumed' Inv' Hst Hcg. apply IH; [lia|done|lia|done|]. intros i Hi. destruct (decide (i = gi)) as [->|]; [done|]. apply Hst, Hdone. lia. }
  destruct (index_in_range consumed gi) as (b & -> & Hb); [by rewrite (mi_len _ _ Inv)|]. cbn [mbind go_bind].
  destruct b; [apply Hgo; [done|by unfold still|done]|]. case_bool_decide as Hkey.
  - rewrite store_ok by (by rewrite (mi_len _ _ Inv)). cbn [mbind go_bind]. apply Hgo.
    + eapply consume_inv; [done..| |].
      * apply list.Forall_app. split; [apply Inv|]. constructor; [by eapply Forall_zget|constructor].
      * rewrite map_app, concat_app. cbn. rewrite app_nil_r. apply Permutation_app_comm.
    + by eapply still_store.
    + apply zget_insert_eq. by rewrite (mi_len _ _ Inv).
  - destruct (place_core_spec (default [] (byCore !! compactCoreKey g)) merged consumed) as (merged' & consumed' & -> & Inv' & Hst & Hall); [|done|].
    + intros ci. destruct (byCore !! compactCoreKey g) as [cs|] eqn:E; cbn; [by apply (Hix _ _ E)|by intros ?%elem_of_nil].
    + cbn [mbind go_bind]. apply Hgo; [done..|]. by apply Hall, Hby.
Qed.
End loop.
End terminals.

(** ** The whole pass *)

Lemma mergeCompatibleStateGroups_spec parseRegex groups ng matchers :
  (∀ g, ng = Some g → buildTerminalStartMatchers parseRegex (Terminals g) = Ret matchers) →
  (∀ gi g, zget groups gi = Some g → class_group t gs gi g) →
  ∃ merged, mergeCompatibleStateGroups parseRegex groups gs ng = Ret merged ∧ Forall (group_ok ng matchers) merged ∧
    concat (map pgStates merged) ≡ₚ concat (map pgStates groups).
Proof using Hs Ht.
  intros Hm Hgroups.
  assert (∀ o, Forall (group_ok o matchers) groups) as Hall.
  { intros o. apply list.Forall_forall. intros g (gi & _ & Hg)%elem_zget. by eapply class_group_ok, Hgroups. }
  unfold mergeCompatibleStateGroups. destruct ng as [ng|]; [|by exists groups]. destruct (_ <? 2); [by exists groups|].
  rewrite (Hm ng eq_refl). cbn [mbind go_bind]. cbn [disjoint_in].
  destruct (core_index_spec groups 0 groups ∅) as (Hix & _ & Hby); [done|done|by intros ? ?; rewrite lookup_empty|].
  apply merge_loop_spec; [done|done|intros i g Hi Hk; by apply (Hby i g)|done|done|done| |lia].
  split; [constructor|apply len_make, len_nonneg|]. cbn. unfold taken, make, len. rewrite Nat2Z.id.
  clear. induction groups as [|g groups IH]; done.
Qed.
End merge.

(** * The merged parse tables *)

(** ** Maps computed entry by entry *)

Lemma map_go_spec {A B} (f : A → go B) (g : A → B) l : (∀ x, x ∈ l → f x = Ret (g x)) → map_go f l = Ret (map g l).
Proof.
  induction l as [|x l IH]; intros Hf; cbn [map_go]; [done|]. rewrite Hf by left. cbn [mbind go_bind].
  rewrite IH by (intros; apply Hf; by right). done.
Qed.

Lemma gmap_go_spec {A B} (f : A → go B) (g : A → B) (m : gmap Z A) : (∀ k x, m !! k = Some x → f x = Ret (g x)) → gmap_go f m = Ret (g <$> m).
Proof.
  intros Hf. unfold gmap_go. rewrite (map_go_spec _ (prod_map id g)).
  - cbn [mbind go_bind]. f_equal. change (map (prod_map id g) (map_to_list m)) with (prod_map id g <$> map_to_list m).
    by rewrite list_to_map_fmap, list_to_map_to_list.
  - intros [k x] E%elem_of_map_to_list. cbn [fst snd]. rewrite (Hf k x E). done.
Qed.

(** An action with its target renamed. *)
Definition renamed (h : Z → Z) (a : lrAction) : lrAction := match laKind a with lrShift => with_state a (h (laState a)) | _ => a end.

Lemma renamed_sig `{SliceSort} h a : act_sig id (renamed h a) = act_sig h a.
Proof. unfold act_sig, act_target, renamed. destruct (laKind a) eqn:E; cbn; rewrite ?E; done. Qed.

Section remap.
Context (n : Z) (h : list Z) (Hh : len h = n).

Lemma remapStateActions_eq row : row_fit n row → remapStateActions row h = Ret (map (renamed (colf h)) <$> row).
Proof using Hh.
  intros Hr. apply gmap_go_spec. intros sym acts E. apply map_go_spec. intros a Ha. unfold remap_action, renamed.
  destruct (laKind a) eqn:Ek; [|done..]. rewrite index_colf; [done|]. rewrite Hh. by apply (Hr sym acts).
Qed.

Lemma remapStateGotos_eq row : goto_fit n row → remapStateGotos row h = Ret (colf h <$> row).
Proof using Hh. intros Hr. apply gmap_go_spec. intros sym s E. apply index_colf. rewrite Hh. by apply (Hr sym). Qed.

Lemma remap_groups_eq gi groups A G : (∀ g, g ∈ groups → row_fit n (pgActions g) ∧ goto_fit n (pgGotos g)) →
  ∃ A' G', remap_groups gi groups h A G = Ret (A', G') ∧
    (∀ i, i < gi → A' !! i = A !! i ∧ G' !! i = G !! i) ∧
    ∀ i g, zget groups i = Some g → A' !! (gi + i) = Some (map (renamed (colf h)) <$> pgActions g) ∧ G' !! (gi + i) = Some (colf h <$> pgGotos g).
Proof using Hh.
  revert gi A G. induction groups as [|g groups IH]; intros gi A G Hfit; cbn [remap_groups].
  { exists A, G. split_and!; [done..|]. intros i g. by rewrite zget_nil. }
  destruct (Hfit g) as [Ha Hg]; [left|]. rewrite (remapStateActions_eq _ Ha). cbn [mbind go_bind]. rewrite (remapStateGotos_eq _ Hg). cbn [mbind go_bind].
  edestruct (IH (gi + 1)) as (A' & G' & -> & Hlow & Hrows); [intros; apply Hfit; by right|]. exists A', G'. split_and!; [done| |].
  - intros i Hi. destruct (Hlow i) as [-> ->]; [lia|]. by rewrite !lookup_insert_ne by lia.
  - intros i g' Hi. destruct (decide (i = 0)) as [->|].
    + rewrite zget_cons_0 in Hi. injection Hi as <-. rewrite Z.add_0_r. destruct (Hlow gi) as [-> ->]; [lia|]. by rewrite !lookup_insert_eq.
    + pose proof (zget_Some_range _ _ _ Hi). rewrite zget_cons_ne in Hi by done. replace (gi + i) with (gi + 1 + (i - 1)) by lia. by apply Hrows.
Qed.
End remap.

(** ** Numbering the states by their groups *)

Lemma assign_states_spec gi states sg : (∀ s, s ∈ states → 0 ≤ s < len sg) →
  ∃ sg', assign_states gi states sg = Ret sg' ∧ len sg' = len sg ∧ ∀ s, zget sg' s = if decide (s ∈ states) then Some gi else zget sg s.
Proof.
  revert sg. induction states as [|s states IH]; intros sg Hs; cbn [assign_states].
  { exists sg. split_and!; [done..|]. intros s. by rewrite decide_False by apply not_elem_of_nil. }
  rewrite store_ok by (apply Hs; left). cbn [mbind go_bind].
  destruct (IH (<[Z.to_nat s := gi]> sg)) as (sg' & -> & Hl & Hz); [intros; rewrite len_insert; apply Hs; by right|].
  exists sg'. split_and!; [done|by rewrite Hl, len_insert|]. intros s'. rewrite Hz. destruct (decide (s' ∈ states)) as [Hin|Hin].
  - rewrite decide_True; [done|by right].
  - destruct (decide (s' = s)) as [->|Hne].
    + rewrite decide_True by left. apply zget_insert_eq, Hs. left.
    + rewrite decide_False by (rewrite elem_of_cons; tauto). apply zget_insert_ne; [|done]. apply Hs. left.
Qed.

Lemma assign_groups_spec gi groups sg : (∀ g s, g ∈ groups → s ∈ pgStates g → 0 ≤ s < len sg) →
  ∃ sg', assign_groups gi groups sg = Ret sg' ∧ len sg' = len sg ∧
    ∀ s, (∃ i g, zget groups i = Some g ∧ s ∈ pgStates g ∧ zget sg' s = Some (gi + i)) ∨
         (∀ g, g ∈ groups → s ∉ pgStates g) ∧ zget sg' s = zget sg s.
Proof.
  revert gi sg. induction groups as [|g groups IH]; intros gi sg Hs; cbn [assign_groups].
  { exists sg. split_and!; [done..|]. intros s. right. split; [by intros ? ?%elem_of_nil|done]. }
  destruct (assign_states_spec gi (pgStates g) sg) as (sg1 & -> & Hl1 & Hz1); [intros s; apply Hs; left|]. cbn [mbind go_bind].
  destruct (IH (gi + 1) sg1) as (sg' & -> & Hl & Hz); [intros; rewrite Hl1; eapply Hs; [right|]; done|].
  exists sg'. split_and!; [done|lia|]. intros s. destruct (Hz s) as [(i & g' & Hi & Hin & Hsg)|[Hno Hsg]].
  - left. exists (i + 1), g'. pose proof (zget_Some_range _ _ _ Hi). rewrite zget_cons_ne by lia. replace (i + 1 - 1) with i by lia.
    split_and!; [done..|]. rewrite Hsg. f_equal. lia.
  - rewrite Hz1 in Hsg. destruct (decide (s ∈ pgStates g)) as [Hin|Hin].
    + left. exists 0, g. rewrite Z.add_0_r. done.
    + right. split; [|done]. intros g' [->|?]%elem_of_cons; auto.
Qed.

(** ** Every state in one group *)

Record covers (n : Z) (groups : list parserStateGroup) : Prop := {
  cv_some : ∀ s, 0 ≤ s < n → ∃ i g, zget groups i = Some g ∧ s ∈ pgStates g;
  cv_one : ∀ i j g g' s, zget groups i = Some g → zget groups j = Some g' → s ∈ pgStates g → s ∈ pgStates g' → i = j }.

Lemma covers_perm n groups : concat (map pgStates groups) ≡ₚ seqZ 0 n → covers n groups.
Proof.
  intros Hp. assert (NoDup (concat (map pgStates groups))) as Hnd by (rewrite Hp; apply NoDup_seqZ). split.
  - intros s Hs. assert (s ∈ concat (map pgStates groups)) as Hin by (rewrite Hp; apply elem_of_seqZ; lia).
    apply list_elem_of_In, in_concat in Hin as (l & (g & <- & Hg)%in_map_iff & Hin).
    apply list_elem_of_In in Hin, Hg. apply elem_zget in Hg as (i & _ & Hi). by exists i, g.
  - clear Hp. induction groups as [|g0 groups IH]; intros i j g g' s Hi Hj Hs Hs'; [by rewrite zget_nil in Hi|].
    cbn in Hnd. apply NoDup_app in Hnd as (_ & Hdis & Hnd).
    assert (∀ i g, zget groups i = Some g → s ∈ pgStates g → s ∈ concat (map pgStates groups)) as Hin.
    { intros i' g1 Hz%zget_elem Hs1. apply list_elem_of_In, in_concat. exists (pgStates g1). split; [apply in_map|]; by apply list_elem_of_In. }
    destruct (decide (i = 0)) as [->|Hi0], (decide (j = 0)) as [->|Hj0]; [done|..].
    + rewrite zget_cons_0 in Hi. injection Hi as ->. rewrite zget_cons_ne in Hj by done. exfalso. by eapply Hdis, Hin.
    + rewrite zget_cons_0 in Hj. injection Hj as ->. rewrite zget_cons_ne in Hi by done. exfalso. by eapply Hdis, Hin.
    + rewrite zget_cons_ne in Hi, Hj by done. enough (i - 1 = j - 1) by lia. by eapply IH.
Qed.

Lemma start_group_spec gi groups : (∃ g, g ∈ groups ∧ 0 ∈ pgStates g) →
  ∃ i g, start_group gi groups = gi + i ∧ zget groups i = Some g ∧ 0 ∈ pgStates g.
Proof.
  revert gi. induction groups as [|g groups IH]; intros gi (g' & Hg & H0); [by apply elem_of_nil in Hg|]. cbn [start_group].
  assert (int_in 0 (pgStates g) = true ↔ 0 ∈ pgStates g) as Hint.
  { unfold int_in. rewrite existsb_exists. setoid_rewrite <-list_elem_of_In. split; [intros (x & Hx & ->%Z.eqb_eq); done|intros Hx; by exists 0]. }
  destruct (int_in _ _) eqn:E; [exists 0, g; split_and!; [lia|done|by apply Hint]|].
  destruct (IH (gi + 1)) as (i & g1 & -> & Hi & H1).
  { exists g'. split; [|done]. apply elem_of_cons in Hg as [->|?]; [|done]. by apply Hint in H0. }
  exists (i + 1), g1. pose proof (zget_Some_range _ _ _ Hi). rewrite zget_cons_ne by lia. replace (i + 1 - 1) with i by lia. split_and!; [lia|done..].
Qed.

(** Two groups change places. *)
Lemma start_first_spec n groups : 0 < n → covers n groups →
  ∃ groups', start_first groups = Ret groups' ∧ len groups' = len groups ∧ covers n groups' ∧
    (∀ g, g ∈ groups' → g ∈ groups) ∧ ∃ g, zget groups' 0 = Some g ∧ 0 ∈ pgStates g.
Proof.
  intros Hn Hc. destruct (cv_some _ _ Hc 0) as (i0 & g0 & Hi0%zget_elem & Hg0); [lia|].
  destruct (start_group_spec 0 groups) as (si & gs & E & Hsi & Hgs); [by exists g0|]. unfold start_first. rewrite E, Z.add_0_l.
  pose proof (zget_Some_range _ _ _ Hsi) as Hr. destruct (Z.ltb_spec 0 si).
  2: { exists groups. assert (si = 0) as -> by lia. split_and!; [done..|]. by exists gs. }
  destruct (index_in_range groups 0) as (ga & -> & Ha); [lia|]. cbn [mbind go_bind].
  rewrite (proj2 (index_Ret _ _ _) Hsi). cbn [mbind go_bind]. rewrite store_ok by lia. cbn [mbind go_bind].
  rewrite store_ok by (rewrite len_insert; lia). set (groups' := <[_ := _]> _). exists groups'.
  assert (∀ i, zget groups' i = zget groups (if decide (i = 0) then si else if decide (i = si) then 0 else i)) as Hz.
  { intros i. unfold groups'. destruct (decide (i = si)) as [->|].
    - rewrite zget_insert_eq by (rewrite len_insert; lia). by rewrite decide_False by lia.
    - rewrite zget_insert_ne by lia. case_decide; [subst; by rewrite zget_insert_eq by lia|by rewrite zget_insert_ne by lia]. }
  split_and!; [done|unfold groups'; by rewrite !len_insert| | |].
  - split.
    + intros s Hs. destruct (cv_some _ _ Hc s Hs) as (i & g & Hi & Hin). exists (if decide (i = 0) then si else if decide (i = si) then 0 else i), g.
      split; [|done]. rewrite Hz. rewrite <-Hi. f_equal. repeat case_decide; lia.
    + intros i j g g' s. rewrite !Hz. intros Hi Hj Hs Hs'. pose proof (cv_one _ _ Hc _ _ _ _ _ Hi Hj Hs Hs'). repeat case_decide; lia.
  - intros g (i & _ & Hi)%elem_zget. rewrite Hz in Hi. by apply zget_elem in Hi.
  - exists gs. by rewrite Hz.
Qed.
