(* ===== verification/LrMinimizeCorrect.v ===== *)
(** * Minimised tables parse alike

    Facts about minimizeParseStates (LrMinimize.v): it returns tables that are a
    quotient of the tables it is given; every run of the LR machine on the old
    tables is a run on the new ones, with the same shifts and reductions; a run on
    the new tables is one on the old ones up to a token the old tables reject; and
    two tokens that only the merging brings together cannot start alike. *)

From Stdlib Require Import ZArith Lia ZifyBool.
From stdpp Require Import base tactics list numbers option gmap fin_maps.
From S2P Require Import Prelude SliceSort Partition Regex Nfa LrGrammar LrMinimize LrSignature LrGroups LrMerge.
Local Open Scope Z_scope.

(** ** Quotients of tables *)

Section minimized.
Context `{SliceSort}.

Record quotient (t t' : LRTables) (col : Z → Z) (ng : option NormalizedGrammar) (matchers : gmap Z terminalStartMatcher) (h : Z → Z) : Prop := {
  q_start : h 0 = 0;
  q_range : ∀ s, 0 ≤ s < StateCount t → 0 ≤ h s < StateCount t';
  q_onto : ∀ q, 0 ≤ q < StateCount t' → ∃ s, 0 ≤ s < StateCount t ∧ h s = q;
  q_class : ∀ s s', 0 ≤ s < StateCount t → 0 ≤ s' < StateCount t → col s = col s' → h s = h s';
  q_core : ∀ s s', 0 ≤ s < StateCount t → 0 ≤ s' < StateCount t → h s = h s' → col s = col s' ∨
    ng ≠ None ∧ ∃ key, key ≠ [] ∧ zget (CompactCoreKeys t) s = Some key ∧ zget (CompactCoreKeys t) s' = Some key;
  q_keep : ∀ s sym acts, 0 ≤ s < StateCount t → actions_of t s !! sym = Some acts →
    ∃ acts', actions_of t' (h s) !! sym = Some acts' ∧ map (act_sig h) acts ≡ₚ map (act_sig id) acts';
  q_from : ∀ q sym acts', 0 ≤ q < StateCount t' → actions_of t' q !! sym = Some acts' →
    ∃ s acts, 0 ≤ s < StateCount t ∧ h s = q ∧ actions_of t s !! sym = Some acts ∧ acts' = map (renamed h) acts;
  q_goto : ∀ s sym, 0 ≤ s < StateCount t → gotos_of t' (h s) !! sym = h <$> gotos_of t s !! sym;
  q_pairs : ∀ q x y, 0 ≤ q < StateCount t' → is_Some (actions_of t' q !! x) → is_Some (actions_of t' q !! y) →
    (∃ s, 0 ≤ s < StateCount t ∧ h s = q ∧ is_Some (actions_of t s !! x) ∧ is_Some (actions_of t s !! y)) ∨ disjoint_in ng matchers x y = true }.

Lemma quotient_fit t t' col ng ms h : tables_ok t → quotient t t' col ng ms h → tables_ok t'.
Proof.
  intros Ht Q q Hq. split.
  - intros sym acts' E a' Ha' Hk. destruct (q_from _ _ _ _ _ _ Q q sym acts' Hq E) as (s & acts & Hs & <- & Ea & ->).
    apply list_elem_of_fmap in Ha' as (a & -> & Ha). destruct (Ht s Hs) as [Hr _]. unfold renamed in *.
    destruct (laKind a) eqn:Eka; [|congruence..]. cbn. apply (q_range _ _ _ _ _ _ Q), (Hr sym acts); done.
  - intros sym g Eg. destruct (q_onto _ _ _ _ _ _ Q q Hq) as (s & Hs & <-). rewrite (q_goto _ _ _ _ _ _ Q s sym Hs) in Eg.
    apply fmap_Some in Eg as (g0 & Eg & ->). apply (q_range _ _ _ _ _ _ Q). by apply (proj2 (Ht s Hs) sym).
Qed.

(** ** The pass returns a quotient *)

Lemma length_concat_le {A} (ls : list (list A)) : Forall (λ l, l ≠ []) ls → (length ls ≤ length (concat ls))%nat.
Proof. induction 1 as [|l ls Hl _ IH]; cbn; [done|]. rewrite length_app. destruct l; [done|]. cbn. lia. Qed.

Lemma singletons {A} (ls : list (list A)) : Forall (λ l, l ≠ []) ls → length (concat ls) = length ls → ∀ l x y, l ∈ ls → x ∈ l → y ∈ l → x = y.
Proof.
  induction 1 as [|l ls Hl Hrest IH]; [by intros _ l x y ?%elem_of_nil|]. cbn. rewrite length_app.
  pose proof (length_concat_le ls Hrest). destruct l as [|a l]; [done|]. cbn. intros E. destruct l as [|b l]; [|cbn in E; lia].
  intros l' x y [->|Hin]%elem_of_cons Hx Hy; [|eapply IH; [cbn in E; lia|done..]].
  apply list_elem_of_singleton in Hx, Hy. congruence.
Qed.

Section quotient.
Context (t : LRTables) (Ht : tables_ok t) (Hn : 0 ≤ StateCount t).
Context (gs : list Z) (k : Z) (Hs : strict_ok t gs k).
Context (ng : option NormalizedGrammar) (matchers : gmap Z terminalStartMatcher).
Notation n := (StateCount t).

Lemma groups_nonempty groups : Forall (group_ok t gs ng matchers) groups → Forall (λ l, l ≠ []) (map pgStates groups).
Proof using.
  rewrite !list.Forall_forall. intros Hok l (g & -> & Hg%Hok)%list_elem_of_fmap. destruct (go_goto _ _ _ _ _ Hg) as (r & Hr & _).
  by destruct (pgStates g); [apply elem_of_nil in Hr|].
Qed.

(** Nothing was merged. *)
Lemma quotient_id groups : Forall (group_ok t gs ng matchers) groups → concat (map pgStates groups) ≡ₚ seqZ 0 n → len groups = n → quotient t t (colf gs) ng matchers id.
Proof using.
  intros Hok Hp Hlen. rewrite list.Forall_forall in Hok.
  assert (∀ s s', 0 ≤ s < n → 0 ≤ s' < n → colf gs s = colf gs s' → s = s') as Hinj.
  { intros s s' Hsr Hsr' E. destruct (cv_some _ _ (covers_perm _ _ Hp) s Hsr) as (i & g & Hi%zget_elem & Hin).
    apply (singletons (map pgStates groups)) with (l := pgStates g).
    - apply groups_nonempty. by apply list.Forall_forall.
    - rewrite Hp, length_seqZ, length_map. unfold len in Hlen. lia.
    - by apply list_elem_of_fmap_2.
    - done.
    - by eapply (go_closed _ _ _ _ _ (Hok g Hi)). }
  assert (∀ acts, map (renamed id) acts = acts) as Hren.
  { intros acts. rewrite <-map_id. apply map_ext. intros a. unfold renamed, with_state. destruct a as [[]]; done. }
  split; cbn [id]; try done.
  - eauto.
  - intros s s' _ _ ->. by left.
  - intros s sym acts _ E. by exists acts.
  - intros q sym acts Hq E. exists q, acts. by rewrite Hren.
  - intros s sym _. by destruct (_ !! _).
  - intros q x y Hq Hx Hy. left. by exists q.
Qed.

(** The states of merged groups, numbered by [h]. *)
Lemma quotient_groups groups h A G : Forall (group_ok t gs ng matchers) groups → covers n groups → len h = n →
  (∀ i g s, zget groups i = Some g → s ∈ pgStates g → colf h s = i) →
  (∃ g, zget groups 0 = Some g ∧ 0 ∈ pgStates g) →
  (∀ i g, zget groups i = Some g → A !! i = Some (map (renamed (colf h)) <$> pgActions g) ∧ G !! i = Some (colf h <$> pgGotos g)) →
  ∀ e c, quotient t (mkLRTables A G (len groups) e c) (colf gs) ng matchers (colf h).
Proof using Ht.
  intros Hok Hc Hlen Hh (g0 & Hg0 & H0) Hrows e c. set (t' := mkLRTables A G (len groups) e c).
  assert (∀ i g, zget groups i = Some g → group_ok t gs ng matchers g) as Hgok by (intros i g Hi; by eapply Forall_zget).
  assert (∀ s, 0 ≤ s < n → ∃ i g, zget groups i = Some g ∧ s ∈ pgStates g ∧ colf h s = i ∧ group_ok t gs ng matchers g) as Hstate.
  { intros s Hsr. destruct (cv_some _ _ Hc s Hsr) as (i & g & Hi & Hin). exists i, g. split_and!; eauto. }
  assert (∀ i g, zget groups i = Some g → actions_of t' i = map (renamed (colf h)) <$> pgActions g ∧ gotos_of t' i = colf h <$> pgGotos g) as Hrow.
  { intros i g [EA EG]%Hrows. unfold actions_of, gotos_of, t'. cbn. by rewrite EA, EG. }
  assert (∀ s s', 0 ≤ s < n → 0 ≤ s' < n → colf gs s = colf gs s' → colf h s = colf h s') as Hclass.
  { intros s s' Hsr Hsr' E. destruct (Hstate s Hsr) as (i & g & Hi & Hin & -> & G1). symmetry. apply (Hh i g); [done|]. by eapply (go_closed _ _ _ _ _ G1). }
  split; cbn [StateCount].
  - by apply (Hh 0 g0).
  - intros s Hsr. destruct (Hstate s Hsr) as (i & g & Hi & _ & -> & _). by apply zget_Some_range in Hi.
  - intros q [g Hq]%zget_in_range. destruct (go_goto _ _ _ _ _ (Hgok q g Hq)) as (s & Hin & _). exists s. split; [by apply (go_range _ _ _ _ _ (Hgok q g Hq))|by eapply Hh].
  - done.
  - intros s s' Hsr Hsr' E. destruct (Hstate s Hsr) as (i & g & Hi & Hin & Es & G1), (Hstate s' Hsr') as (j & g' & Hj & Hin' & Es' & _).
    assert (i = j) as <- by congruence. assert (g = g') as <- by congruence. destruct (decide (compactCoreKey g = [])) as [Hk|Hk]; [left; apply (go_alike _ _ _ _ _ G1); auto|].
    destruct ng as [ng0|]; [|left; apply (go_alike _ _ _ _ _ G1); auto]. right. split; [done|]. exists (compactCoreKey g). split_and!; [done|by apply (go_core _ _ _ _ _ G1)..].
  - intros s sym acts Hsr E. destruct (Hstate s Hsr) as (i & g & Hi & Hin & -> & G1). destruct (go_keep _ _ _ _ _ G1 s sym acts Hin E) as (acts' & E' & Hag).
    exists (map (renamed (colf h)) acts'). destruct (Hrow i g Hi) as [-> _]. rewrite lookup_fmap, E'. split; [done|].
    rewrite map_map. rewrite (map_ext _ _ (renamed_sig (colf h))). destruct (go_from _ _ _ _ _ G1 sym acts' E') as (r & Hr & Er).
    apply (acts_agree_coarser (colf gs) (colf h) n Hclass); [| |exact Hag].
    + apply (proj1 (Ht s Hsr) sym acts E).
    + apply (proj1 (Ht r (go_range _ _ _ _ _ G1 r Hr)) sym acts' Er).
  - intros q sym acts' [g Hq]%zget_in_range. destruct (Hrow q g Hq) as [-> _]. rewrite lookup_fmap. intros (acts & E & ->)%fmap_Some.
    destruct (go_from _ _ _ _ _ (Hgok q g Hq) sym acts E) as (s & Hin & Es). exists s, acts. split_and!; [apply (go_range _ _ _ _ _ (Hgok q g Hq) s Hin)..|by eapply Hh|done|done].
  - intros s sym Hsr. destruct (Hstate s Hsr) as (i & g & Hi & Hin & -> & G1). destruct (Hrow i g Hi) as [_ ->]. rewrite lookup_fmap.
    destruct (go_goto _ _ _ _ _ G1) as (r & Hr & Er). assert (goto_agree (colf h) (gotos_of t s) (pgGotos g)) as Hag; [|symmetry; apply Hag].
    apply (goto_agree_coarser (colf gs) (colf h) n Hclass); [apply Ht, Hsr| |by apply (go_gotos _ _ _ _ _ G1)].
    rewrite Er. apply Ht, (go_range _ _ _ _ _ G1), Hr.
  - intros q x y [g Hq]%zget_in_range. destruct (Hrow q g Hq) as [-> _]. rewrite !lookup_fmap, !fmap_is_Some. intros Hx Hy.
    destruct (go_pairs _ _ _ _ _ (Hgok q g Hq) x y Hx Hy) as [(s & Hin & ? & ?)|?]; [left|by right]. exists s.
    split_and!; [apply (go_range _ _ _ _ _ (Hgok q g Hq) s Hin)..|by eapply Hh|done|done].
Qed.

(** The strict groups hold every state once. *)
Lemma class_states groups gi : (∀ i g, zget groups i = Some g → class_group t gs (gi + i) g) →
  NoDup (concat (map pgStates groups)) ∧ ∀ s, s ∈ concat (map pgStates groups) ↔ 0 ≤ s < n ∧ gi ≤ colf gs s < gi + len groups.
Proof using.
  revert gi. induction groups as [|g groups IH]; intros gi Hg; cbn [map concat].
  { split; [constructor|]. intros s. rewrite elem_of_nil. change (len (@nil parserStateGroup)) with 0. lia. }
  destruct (IH (gi + 1)) as [Hnd Hin].
  { intros i g' Hi. pose proof (zget_Some_range _ _ _ Hi). replace (gi + 1 + i) with (gi + (i + 1)) by lia. apply Hg. rewrite zget_cons_ne by lia. by replace (i + 1 - 1) with i by lia. }
  pose proof (Hg 0 g eq_refl) as Hcg. rewrite Z.add_0_r in Hcg. pose proof (len_nonneg groups). rewrite len_cons. split.
  - apply NoDup_app. split_and!; [apply Hcg| |done]. intros s Hs1%(cg_states _ _ _ _ Hcg) Hs2%Hin. lia.
  - intros s. rewrite elem_of_app, Hin, (cg_states _ _ _ _ Hcg). lia.
Qed.
End quotient.

Section minimize.
Context (t : LRTables) (Ht : tables_ok t) (Hn : 0 ≤ StateCount t).
Notation n := (StateCount t).
Context (parseRegex : list Z → go (regexError + regexNode)) (ng : option NormalizedGrammar) (matchers : gmap Z terminalStartMatcher).
Hypothesis Hm : ∀ g, ng = Some g → buildTerminalStartMatchers parseRegex (Terminals g) = Ret matchers.

Lemma merge_pass : ∃ gs k groups merged, strict_groups t = Ret gs ∧ strict_ok t gs k ∧ initialStateGroups t gs = Ret groups ∧
  mergeCompatibleStateGroups parseRegex groups gs ng = Ret merged ∧ Forall (group_ok t gs ng matchers) merged ∧
  concat (map pgStates merged) ≡ₚ seqZ 0 n.
Proof using Ht Hn Hm.
  destruct (strict_groups_spec t Ht Hn) as (gs & k & Hrun & Hs). destruct (initialStateGroups_spec t gs k (so_col _ _ _ Hs) (so_nonneg _ _ _ Hs)) as (groups & Hinit & Hlen & Hcg).
  destruct (mergeCompatibleStateGroups_spec t Ht gs k Hs parseRegex groups ng matchers Hm Hcg) as (merged & Hmerge & Hok & Hp).
  exists gs, k, groups, merged. split_and!; [done..|]. etrans; [exact Hp|].
  destruct (class_states t gs groups 0 Hcg) as [Hnd Hin]. apply NoDup_Permutation; [done|apply NoDup_seqZ|]. intros s. rewrite Hin, elem_of_seqZ, Hlen.
  split; [lia|]. intros Hsr. split; [lia|]. pose proof (colf_range _ _ _ s (so_col _ _ _ Hs) ltac:(lia)). lia.
Qed.

Lemma minimize_spec : ∃ gs k removed t' h, strict_ok t gs k ∧ minimizeParseStates parseRegex t ng = Ret (removed, t') ∧
  0 ≤ removed ∧ StateCount t' = n - removed ∧ quotient t t' (colf gs) ng matchers h.
Proof using Ht Hn Hm.
  destruct merge_pass as (gs & k & groups & merged & Hrun & Hs & Hinit & Hmerge & Hok & Hp). exists gs, k. unfold minimizeParseStates.
  destruct (Z.ltb_spec n 2) as [Hsmall|Hbig].
  { exists 0, t, id. split_and!; [done|done|lia|lia|]. apply (quotient_id t gs _ _ merged); [done..|].
    pose proof (length_concat_le _ (groups_nonempty _ _ _ _ _ Hok)) as Hle. rewrite Hp, length_seqZ, length_map in Hle.
    unfold len. destruct merged as [|g merged]; cbn in *; [apply Permutation_length in Hp; rewrite length_seqZ in Hp; cbn in Hp; lia|lia]. }
  rewrite Hrun. cbn [mbind go_bind]. rewrite Hinit. cbn [mbind go_bind]. rewrite Hmerge. cbn [mbind go_bind].
  destruct (Z.eqb_spec (len merged) n) as [Hsame|Hdiff].
  { exists 0, t, id. split_and!; [done|done|lia|lia|]. by apply (quotient_id t gs _ _ merged). }
  destruct (start_first_spec n merged) as (groups' & -> & Hlen & Hc & Hsub & H0); [lia|by apply covers_perm|]. cbn [mbind go_bind].
  rewrite list.Forall_forall in Hok. assert (Forall (group_ok t gs ng matchers) groups') as Hok' by (apply list.Forall_forall; auto).
  destruct (assign_groups_spec 0 groups' (make n 0)) as (h & -> & Hlh & Hh).
  { intros g s Hg Hin. rewrite len_make by lia. by apply (go_range _ _ _ _ _ (Hok g (Hsub g Hg))). }
  rewrite len_make in Hlh by lia. cbn [mbind go_bind].
  destruct (remap_groups_eq n h Hlh 0 groups' ∅ ∅) as (A & G & -> & _ & Hrows); [intros g Hg; eapply group_fit; eauto|]. cbn [mbind go_bind].
  exists (n - len groups'). eexists _, (colf h). split_and!; [done|done| |cbn; lia|].
  - rewrite Hlen. pose proof (length_concat_le (map pgStates merged)) as Hle. rewrite Hp, length_seqZ, length_map in Hle. unfold len.
    specialize (Hle (groups_nonempty _ _ _ _ _ (proj2 (list.Forall_forall _ _) Hok))). lia.
  - apply quotient_groups; [done..| |done|done].
    intros i g s Hi Hin. destruct (Hh s) as [(j & g' & Hj & Hin' & E)|[Hno _]].
    + unfold colf. rewrite E. cbn. by eapply (cv_one _ _ Hc).
    + exfalso. by eapply Hno; [eapply zget_elem|].
Qed.
End minimize.
End minimized.

(** * The LR machine

    The automaton that parse tables stand for, as a step relation on stacks of states:
    a token is shifted, the children of a production are popped and its goto pushed,
    or the input is accepted.  Where a row has several actions for a token the machine
    may take any of them. *)

(** ** Steps *)

(** A state, and whether what led to it is an extra. *)
Notation entry := (Z * bool)%type.

(** Extras do not count as children. *)
Fixpoint pop_children (m : nat) (st : list entry) : option (list entry) :=
  match m, st with
  | O, _ => Some st
  | S _, [] => None
  | S m', (_, extra) :: st => pop_children (if (extra : bool) then m else m') st
  end.

Inductive lr_label := LShift (tok : Z) (extra repeated : bool) | LReduce (tok prod : Z) | LAccept (tok : Z).

Definition token (l : lr_label) : Z := match l with LShift x _ _ | LReduce x _ | LAccept x => x end.

Definition can (t : LRTables) (s tok : Z) (a : lrAction) : Prop := ∃ acts, actions_of t s !! tok = Some acts ∧ a ∈ acts.

Inductive lr_step (prods : list Production) (t : LRTables) : list entry → lr_label → list entry → Prop :=
| step_shift s e st tok a : can t s tok a → laKind a = lrShift →
    lr_step prods t ((s, e) :: st) (LShift tok (laIsExtra a) (laRepeat a)) ((laState a, laIsExtra a) :: (s, e) :: st)
| step_reduce s e st tok a p q e' st' g : can t s tok a → laKind a = lrReduce → zget prods (laProdIdx a) = Some p →
    pop_children (length (RHS p)) ((s, e) :: st) = Some ((q, e') :: st') → gotos_of t q !! LHS p = Some g →
    lr_step prods t ((s, e) :: st) (LReduce tok (laProdIdx a)) ((g, prIsExtra p) :: (q, e') :: st')
| step_accept s e st tok a : can t s tok a → laKind a = lrAccept → lr_step prods t ((s, e) :: st) (LAccept tok) ((s, e) :: st).

Inductive lr_run (prods : list Production) (t : LRTables) : list entry → list lr_label → list entry → Prop :=
| run_nil st : lr_run prods t st [] st
| run_cons st l st1 ls st2 : lr_step prods t st l st1 → lr_run prods t st1 ls st2 → lr_run prods t st (l :: ls) st2.

(** The machine starts in state 0. *)
Definition lr_start : list entry := [(0, false)].

(** The state on top has actions for the token. *)
Definition expects (t : LRTables) (st : list entry) (tok : Z) : Prop :=
  ∃ s e st', st = (s, e) :: st' ∧ is_Some (actions_of t s !! tok).

Definition rename (h : Z → Z) (st : list entry) : list entry := map (λ x, (h x.1, x.2)) st.

Lemma pop_rename h m st : pop_children m (rename h st) = rename h <$> pop_children m st.
Proof. revert m. induction st as [|[s e] st IH]; intros [|m]; cbn; try done. Qed.

Lemma pop_sub m st st' : pop_children m st = Some st' → ∀ x, x ∈ st' → x ∈ st.
Proof.
  revert m. induction st as [|[s e] st IH]; intros [|m]; cbn [pop_children]; [by intros [= <-]|done|by intros [= <-]|].
  intros E x Hx. right. by eapply IH.
Qed.

Lemma run_app prods t st ls1 st1 ls2 st2 : lr_run prods t st ls1 st1 → lr_run prods t st1 ls2 st2 → lr_run prods t st (ls1 ++ ls2) st2.
Proof. induction 1 as [|? ? ? ? ? Hs _ IH]; cbn; [done|]. intros Hr. econstructor; [exact Hs|auto]. Qed.

(** ** Quotients run alike *)

Section quotient.
Context `{SliceSort} (prods : list Production) (t t' : LRTables) (Ht : tables_ok t) (col : Z → Z) (ng : option NormalizedGrammar) (matchers : gmap Z terminalStartMatcher).
Context (h : Z → Z) (Q : quotient t t' col ng matchers h).

Definition in_range (st : list entry) : Prop := ∀ x, x ∈ st → 0 ≤ x.1 < StateCount t.

Lemma step_in_range st l st' : in_range st → lr_step prods t st l st' → in_range st'.
Proof using Ht.
  intros Hr Hst. destruct Hst as [s e st tok a (acts & Ea & Ha) Hk|s e st tok a p q e' st' g Hc Hk Hp Hpop Hg|]; [| |done].
  - assert (0 ≤ s < StateCount t) as Hs by (apply (Hr (s, e)); left). destruct (Ht s Hs) as [Hfit _].
    intros x [->|Hx]%elem_of_cons; [|by apply Hr]. by apply (Hfit tok acts Ea).
  - assert (in_range ((q, e') :: st')) as Hr' by (intros x Hx; by eapply Hr, pop_sub).
    assert (0 ≤ q < StateCount t) as Hq by (apply (Hr' (q, e')); left). destruct (Ht q Hq) as [_ Hfit].
    intros x [->|Hx]%elem_of_cons; [|by apply Hr']. by apply (Hfit (LHS p)).
Qed.

(** An action of the old row and one of the new row that do the same. *)
Definition same_action (a a' : lrAction) : Prop := act_sig h a = act_sig id a'.

Lemma same_action_spec a a' : same_action a a' → laKind a' = laKind a ∧ laIsExtra a' = laIsExtra a ∧ laRepeat a' = laRepeat a ∧
  laProdIdx a' = laProdIdx a ∧ (laKind a = lrShift → laState a' = h (laState a)).
Proof using.
  intros E. pose proof (act_sig_same _ _ _ _ E) as [? ? ? ? ? ? ? ? ? ? ? ?]. apply act_sig_inj in E as (Ek & Et & _). split_and!; try done.
  unfold act_target in Et. intros Hk. rewrite <-Ek, Hk in Et. done.
Qed.

Lemma perm_match (l l' : list lrAction) : map (act_sig h) l ≡ₚ map (act_sig id) l' →
  (∀ a, a ∈ l → ∃ a', a' ∈ l' ∧ same_action a a') ∧ (∀ a', a' ∈ l' → ∃ a, a ∈ l ∧ same_action a a').
Proof using.
  intros Hp. split.
  - intros a Ha. assert (act_sig h a ∈ map (act_sig id) l') as (a' & E & Ha')%list_elem_of_fmap by (rewrite <-Hp; by apply list_elem_of_fmap_2). by exists a'.
  - intros a' Ha'. assert (act_sig id a' ∈ map (act_sig h) l) as (a & E & Ha)%list_elem_of_fmap by (rewrite Hp; by apply list_elem_of_fmap_2). exists a. split; [done|]. by symmetry.
Qed.

Lemma can_forward s tok a : 0 ≤ s < StateCount t → can t s tok a → ∃ a', can t' (h s) tok a' ∧ same_action a a'.
Proof using Q.
  intros Hs (acts & Ea & Ha). destruct (q_keep _ _ _ _ _ _ Q s tok acts Hs Ea) as (acts' & Ea' & Hp).
  apply perm_match in Hp as [Hp _]. destruct (Hp a Ha) as (a' & Ha' & E). exists a'. split; [by exists acts'|done].
Qed.

Lemma can_backward s tok a' : 0 ≤ s < StateCount t → is_Some (actions_of t s !! tok) → can t' (h s) tok a' → ∃ a, can t s tok a ∧ same_action a a'.
Proof using Q.
  intros Hs [acts Ea] (acts' & Ea' & Ha'). destruct (q_keep _ _ _ _ _ _ Q s tok acts Hs Ea) as (acts1 & Ea1 & Hp).
  assert (acts1 = acts') as -> by congruence. apply perm_match in Hp as [_ Hp]. destruct (Hp a' Ha') as (a & Ha & E). exists a. split; [by exists acts|done].
Qed.

Lemma step_forward st l st' : in_range st → lr_step prods t st l st' → lr_step prods t' (rename h st) l (rename h st').
Proof using Q.
  intros Hr Hst. destruct Hst as [s e st tok a Hc Hk|s e st tok a p q e' st' g Hc Hk Hp Hpop Hg|s e st tok a Hc Hk];
    (assert (0 ≤ s < StateCount t) as Hs by (apply (Hr (s, e)); left)); destruct (can_forward s tok a Hs Hc) as (a' & Hc' & (Ek & Ex & Er & Ep & Et)%same_action_spec).
  - rewrite <-Ex, <-Er. cbn. rewrite <-(Et Hk). apply step_shift; [done|congruence].
  - rewrite <-Ep. cbn. eapply (step_reduce _ _ _ _ _ _ a' p); [done|congruence|congruence| |].
    + change ((h s, e) :: _) with (rename h ((s, e) :: st)). rewrite pop_rename, Hpop. reflexivity.
    + assert (0 ≤ q < StateCount t) as Hq by (apply (Hr (q, e')); eapply pop_sub; [done|left]).
      rewrite (q_goto _ _ _ _ _ _ Q q (LHS p) Hq), Hg. done.
  - cbn. eapply step_accept; [done|congruence].
Qed.

Lemma step_backward st l σ : in_range st → expects t st (token l) → lr_step prods t' (rename h st) l σ →
  ∃ st', lr_step prods t st l st' ∧ σ = rename h st'.
Proof using Q.
  intros Hr (s & e & st0 & -> & Hx) Hst. assert (0 ≤ s < StateCount t) as Hs by (apply (Hr (s, e)); left). cbn in Hst.
  inversion Hst as [s1 e1 st1 tok a' Hc' Hk'|s1 e1 st1 tok a' p q' e' st' g' Hc' Hk' Hp Hpop Hg|s1 e1 st1 tok a' Hc' Hk']; subst; cbn in Hx;
    destruct (can_backward s tok a' Hs Hx Hc') as (a & Hc & (Ek & Ex & Er & Ep & Et)%same_action_spec).
  - exists ((laState a, laIsExtra a) :: (s, e) :: st0). rewrite Ex, Er. split; [apply step_shift; [done|congruence]|]. cbn. by rewrite Et by congruence.
  - change ((h s, e) :: map _ st0) with (rename h ((s, e) :: st0)) in Hpop. rewrite pop_rename in Hpop.
    apply fmap_Some in Hpop as ([|[q eq] st1] & Hpop & Erest); [done|]. cbn in Erest. injection Erest as -> -> ->.
    assert (0 ≤ q < StateCount t) as Hq by (apply (Hr (q, eq)); eapply pop_sub; [done|left]).
    rewrite (q_goto _ _ _ _ _ _ Q q (LHS p) Hq) in Hg. apply fmap_Some in Hg as (g & Hg & ->).
    exists ((g, prIsExtra p) :: (q, eq) :: st1). split; [|done]. rewrite Ep. eapply step_reduce; [done|congruence|congruence|done|done].
  - exists ((s, e) :: st0). split; [|done]. eapply step_accept; [done|congruence].
Qed.

Lemma run_forward st ls st' : in_range st → lr_run prods t st ls st' → lr_run prods t' (rename h st) ls (rename h st').
Proof using Q Ht.
  intros Hr Hrun. induction Hrun as [|st l st1 ls st2 Hst _ IH]; [constructor|]. econstructor; [by apply step_forward|]. apply IH. by eapply step_in_range.
Qed.

(** The new tables follow the old ones up to a token that the old ones reject. *)
Lemma run_backward st ls σ : in_range st → lr_run prods t' (rename h st) ls σ →
  (∃ st', lr_run prods t st ls st' ∧ σ = rename h st') ∨
  ∃ ls1 l ls2 st1, ls = ls1 ++ l :: ls2 ∧ lr_run prods t st ls1 st1 ∧ ~ expects t st1 (token l).
Proof using Q Ht.
  revert st. induction ls as [|l ls IH]; intros st Hr Hrun; inversion Hrun as [|? ? σ1 ? ? Hst Hrest]; subst.
  { left. exists st. split; [constructor|done]. }
  assert (Decision (expects t st (token l))) as [Hx|Hx].
  { destruct st as [|[s e] st]; [right; by intros (? & ? & ? & ? & _)|]. destruct (actions_of t s !! token l) as [acts|] eqn:E.
    - left. exists s, e, st. split; [done|by exists acts].
    - right. intros (? & ? & ? & [= <- <- <-] & [acts Ea]). congruence. }
  2: { right. exists [], l, ls, st. split_and!; [done|constructor|done]. }
  destruct (step_backward st l σ1 Hr Hx Hst) as (st1 & Hst1 & ->).
  destruct (IH st1) as [(st' & Hrun' & ->)|(ls1 & l' & ls2 & st2 & -> & Hrun' & Hno)]; [by eapply step_in_range|done|left|right].
  - exists st'. split; [by econstructor|done].
  - exists (l :: ls1), l', ls2, st2. split_and!; [done|by econstructor|done].
Qed.
End quotient.
