(* ===== verification/LrStart.v ===== *)
(** * How terminals start

    Facts about the matchers of grammargen/lr.go (LrMinimize.v): they are built
    without a run-time panic, and a matcher that names its runes names every rune
    with which a word of the terminal can begin.  So [disjointTerminals] is sound. *)

From Stdlib Require Import ZArith Lia ZifyBool.
From stdpp Require Import base tactics list numbers option gmap fin_sets fin_map_dom.
From S2P Require Import Prelude Utf8 SliceSort Regex RegexParse Nfa NfaPath NfaBuild NfaRegex NfaRule.
From S2P Require Import NfaRule NfaCombined Dfa DfaClosure DfaCorrect LexDfa LexBuild LexPasses LrGrammar LrMinimize.
Local Open Scope Z_scope.

(** ** The runes of a state *)

Lemma add_runes_spec rs runes runes' : add_runes rs runes = Some runes' → runes ⊆ runes' ∧ ∀ r, r ∈ rs → r ∈ runes'.
Proof.
  revert runes. induction rs as [|r rs IH]; intros runes; cbn [add_runes]; [intros [= ->]; split; [done|by intros ? ?%elem_of_nil]|].
  destruct (_ <? _); [done|]. intros [Hsub Hin]%IH. split; [set_solver|]. intros x [->|?]%elem_of_cons; [set_solver|auto].
Qed.

Lemma start_transitions_spec ts runes runes' : start_transitions ts runes = Some runes' →
  runes ⊆ runes' ∧ ∀ t r, t ∈ ts → tepsilon t = false → tlo t ≤ r ≤ thi t → r ∈ runes'.
Proof.
  revert runes. induction ts as [|t ts IH]; intros runes; cbn [start_transitions]; [intros [= ->]; split; [done|by intros ? ? ?%elem_of_nil]|].
  assert (start_transitions ts runes = Some runes' → (tepsilon t = true ∨ thi t < tlo t) →
    runes ⊆ runes' ∧ ∀ t' r, t' ∈ t :: ts → tepsilon t' = false → tlo t' ≤ r ≤ thi t' → r ∈ runes') as Hskip.
  { intros [Hsub Hin]%IH Hno. split; [done|]. intros t' r [->|?]%elem_of_cons He Hr; [destruct Hno; [congruence|lia]|eauto]. }
  destruct (tepsilon t) eqn:He; [auto|]. destruct (Z.ltb_spec (thi t) (tlo t)); [auto|]. destruct (_ || _); [done|].
  intros (runes1 & [Hsub1 Hin1]%add_runes_spec & [Hsub Hin]%IH)%bind_Some. split; [set_solver|].
  intros t' r [->|?]%elem_of_cons He' Hr; [|eauto]. apply Hsub, Hin1, elem_of_seqZ. lia.
Qed.

Lemma start_states_spec N closure runes : Forall (in_states N) closure →
  ∃ out, start_states N closure runes = Ret out ∧ ∀ runes', out = Some runes' →
    runes ⊆ runes' ∧ ∀ p r y, p ∈ closure → edges N p (Some r) y → r ∈ runes'.
Proof.
  intros Hin. revert runes. induction Hin as [|p closure Hp _ IH]; intros runes; cbn [start_states].
  { exists (Some runes). split; [done|]. intros ? [= <-]. split; [done|by intros ? ? ? ?%elem_of_nil]. }
  destruct (index_in_range N p Hp) as (st & -> & Hst). cbn [mbind go_bind]. destruct (start_transitions _ _) as [runes1|] eqn:E; [|by exists None].
  apply start_transitions_spec in E as [Hsub1 Hin1]. destruct (IH runes1) as (out & Hrun & Hout). exists out. split; [done|].
  intros runes' E. destruct (Hout _ E) as [Hsub Hcl]. split; [set_solver|]. intros q r y [->|?]%elem_of_cons HE; [|eauto].
  destruct HE as (st' & tr & Hst' & Htr & _ & He & Hr). assert (st' = st) as -> by congruence. by apply Hsub, (Hin1 tr).
Qed.

(** ** Matchers *)

Section matchers.
Context `{SliceSort} (parseRegex : list Z → go (regexError + regexNode)).

(** The matcher allows every rune that starts a word of the terminal. *)
Definition admits (m : terminalStartMatcher) (p : TerminalPattern) : Prop :=
  tmAny m = true ∨ ∀ r w, rule_lang parseRegex (tpRule p) (r :: w) → r ∈ tmRunes m.

Lemma admits_any p : admits any_start p.
Proof using. by left. Qed.

Lemma matcher_spec p : terminal_ok parseRegex p = true → terminal_bounds [p] →
  ∃ m, terminalStartMatcherForPattern parseRegex p = Ret m ∧ admits m p.
Proof using.
  intros Hok Hb. unfold terminalStartMatcherForPattern. assert (forallb (terminal_ok parseRegex) [p] = true) as Hok1 by (cbn; by rewrite Hok).
  destruct (combined_exact parseRegex [p] Hok1) as (N & Hrun & Hex). destruct (combined_bounded _ _ _ Hok1 Hb Hrun) as (Hwf & _ & HN).
  destruct (mapEpsilonClosure_closure N 0 [0] Hwf) as (l & Hcl & _ & Hst & Hin).
  { constructor; [unfold in_states; lia|constructor]. } { apply NoDup_singleton. }
  destruct (start_states_spec N l ∅ Hst) as (out & Hout & Hrunes).
  destruct (tpRule p) as [|kind value children mm pr] eqn:Er; [exists any_start; split; [done|apply admits_any]|].
  rewrite Hrun. cbn [mbind go_bind nfaStart nfaStates]. rewrite Hcl. cbn [mbind go_bind]. rewrite Hout. cbn [mbind go_bind].
  eexists. split; [done|]. destruct out as [runes|]; [|apply admits_any]. case_bool_decide; [apply admits_any|]. right. cbn [tmRunes].
  intros r w Hw. destruct (Hrunes runes eq_refl) as [_ Hr]. destruct Hb as [[Hsym _]%list.Forall_cons_1 _].
  destruct (proj2 (Hex (r :: w) (SymbolID p) (Priority p) 0 ltac:(lia))) as (q & Hq & _); [by exists 0%nat, p|].
  apply path_cons_inv in Hq as (z & (p0 & y & Hp0 & HE & _)%path_rune_inv & _). apply (Hr p0 r y); [|done]. apply Hin. exists 0. split; [left|done].
Qed.

Lemma merge_admits a b p : admits a p ∨ admits b p → admits (mergeTerminalStartMatchers a b) p.
Proof using.
  unfold admits, mergeTerminalStartMatchers. destruct (tmAny a) eqn:Ea, (tmAny b) eqn:Eb; cbn; try by left.
  case_bool_decide as Ha; [|case_bool_decide as Hb]; cbn; rewrite ?Ea, ?Eb.
  - intros [[?|Hp]|[?|Hp]]; [done| |done|by right]. right. intros r w Hw. exfalso. specialize (Hp r w Hw). set_solver.
  - intros [[?|Hp]|[?|Hp]]; [done|by right|done|]. right. intros r w Hw. exfalso. specialize (Hp r w Hw). set_solver.
  - intros [[?|Hp]|[?|Hp]]; [done| |done|]; right; set_solver.
Qed.

Lemma build_matchers_spec ps bySym : forallb (terminal_ok parseRegex) ps = true → terminal_bounds ps →
  ∃ ms, build_matchers parseRegex ps bySym = Ret ms ∧
    (∀ p, p ∈ ps → ∃ m, ms !! SymbolID p = Some m ∧ admits m p) ∧
    (∀ p m, bySym !! SymbolID p = Some m → admits m p → ∃ m', ms !! SymbolID p = Some m' ∧ admits m' p).
Proof using.
  revert bySym. induction ps as [|p ps IH]; intros bySym Hok Hb; cbn [build_matchers].
  { exists bySym. split_and!; [done|by intros ? ?%elem_of_nil|eauto]. }
  cbn [forallb] in Hok. apply andb_true_iff in Hok as [Hp Hok].
  assert (terminal_bounds ps) as Hb'.
  { destruct Hb as [Hf Hl]. apply list.Forall_cons_1 in Hf as [_ Hf]. rewrite len_cons in Hl. split; [done|lia]. }
  destruct (matcher_spec p Hp) as (m & -> & Hm); [eapply terminal_bounds_one; [exact Hb|left]|]. cbn [mbind go_bind].
  set (m1 := match bySym !! SymbolID p with Some existing => mergeTerminalStartMatchers existing m | None => m end).
  assert (admits m1 p) as Hm1 by (unfold m1; destruct (bySym !! _); [apply merge_admits; by right|done]).
  destruct (IH (<[SymbolID p := m1]> bySym) Hok Hb') as (ms & -> & Hall & Hkeep). exists ms. split_and!; [done| |].
  - intros p' [->|?]%elem_of_cons; [|auto]. apply (Hkeep p m1); [apply lookup_insert_eq|done].
  - intros p' m' Hl Ha. destruct (decide (SymbolID p' = SymbolID p)) as [E|Hne].
    + apply (Hkeep p' m1); [rewrite E; apply lookup_insert_eq|]. unfold m1. rewrite <-E, Hl. apply merge_admits. by left.
    + apply (Hkeep p' m'); [by rewrite lookup_insert_ne|done].
Qed.

(** ** Disjoint terminals *)

(** No text starts a match of both tokens. *)
Definition never_alike (ng : NormalizedGrammar) (x y : Z) : Prop :=
  ∀ p q r u w, p ∈ Terminals ng → q ∈ Terminals ng → SymbolID p = x → SymbolID q = y →
    rule_lang parseRegex (tpRule p) (r :: u) → rule_lang parseRegex (tpRule q) (r :: w) → False.

(** A token that the lexer alone decides on. *)
Record lexer_token (ng : NormalizedGrammar) (x : Z) : Prop := {
  lt_range : 0 < x < TokenCount ng;
  lt_external : x ∉ ExternalSymbols ng;
  lt_word : x ≠ WordSymbolID ng;
  lt_keyword : x ∉ KeywordSymbols ng }.

Lemma int_in_spec x l : int_in x l = false → x ∉ l.
Proof using.
  unfold int_in. intros E Hin. assert (existsb (Z.eqb x) l = true); [|congruence]. apply existsb_exists. exists x. split; [by apply list_elem_of_In|lia].
Qed.

Lemma disjointTerminals_sound ng ms x y :
  (∀ p, p ∈ Terminals ng → ∃ m, ms !! SymbolID p = Some m ∧ admits m p) →
  disjointTerminals ng ms x y = true → lexer_token ng x ∧ lexer_token ng y ∧ never_alike ng x y.
Proof using.
  intros Hms. unfold disjointTerminals. destruct (_ || _) eqn:E1; [done|]. destruct (int_in x (ExternalSymbols ng) || _) eqn:E2; [done|].
  destruct ((x =? _) || _) eqn:E3; [done|]. destruct (int_in x (KeywordSymbols ng) || _) eqn:E4; [done|].
  apply orb_false_iff in E2 as [?%int_in_spec ?%int_in_spec], E4 as [?%int_in_spec ?%int_in_spec].
  destruct (ms !! x) as [a|] eqn:Ea, (ms !! y) as [b|] eqn:Eb; try done. unfold terminalStartMatchersOverlap. intros Hov.
  split_and!; [split; [lia|done|lia|done]..|]. intros p q r u w Hp Hq <- <- Hu Hw.
  destruct (Hms p Hp) as (a' & Ea' & Ha), (Hms q Hq) as (b' & Eb' & Hb). assert (a' = a) as -> by congruence. assert (b' = b) as -> by congruence.
  destruct (tmAny a) eqn:Aa, (tmAny b) eqn:Ab; cbn in Hov; try done.
  destruct Ha as [?|Ha]; [congruence|]. destruct Hb as [?|Hb]; [congruence|]. specialize (Ha r u Hu). specialize (Hb r w Hw).
  destruct (bool_decide (tmRunes a = ∅)), (bool_decide (tmRunes b = ∅)); cbn in Hov; try done.
  apply negb_true_iff, negb_false_iff, bool_decide_eq_true in Hov. set_solver.
Qed.
End matchers.
