(* ===== verification/LrMinimizeRuns.v ===== *)
(** * Theorems on the minimisation of parse states

    What minimizeParseStates (LrMinimize.v, grammargen/lr_state_minimize.go) promises
    to the parser that runs on its tables: the LR machine takes the same steps, the
    strict partition is minimal, and merged states do not confuse the lexer. *)

From Stdlib Require Import ZArith Lia ZifyBool String.
From stdpp Require Import base tactics list numbers option gmap fin_maps.
From S2P Require Import Prelude SliceSort Partition Regex RegexParse Nfa NfaRule NfaCombined LexDfa LrGrammar LrMinimize LrSignature LrGroups.
From S2P Require Import RegexParseCorrect LrMerge LrMinimizeCorrect LrStart.
Local Open Scope Z_scope.

Section theorems.
Context `{SliceSort} (parseRegex : list Z → go (regexError + regexNode)).

Lemma start_in_range t : 0 < StateCount t → in_range t lr_start.
Proof using. intros Hn x ->%list_elem_of_singleton. cbn. lia. Qed.

Lemma rename_start t t' col ng ms h : quotient t t' col ng ms h → rename h lr_start = lr_start.
Proof using. intros Q. cbn. by rewrite (q_start _ _ _ _ _ _ Q). Qed.

(** Without a grammar only states with the same rows are merged. *)
Lemma strict_expects t t' gs k ms h st tok : strict_ok t gs k → quotient t t' (colf gs) None ms h → in_range t st →
  expects t' (rename h st) tok → expects t st tok.
Proof using.
  intros Hs Q Hr (q & e & st' & E & [acts' Ha']). destruct st as [|[s e0] st]; [done|]. cbn in E. injection E as <- <- _.
  assert (0 ≤ s < StateCount t) as Hsr by (apply (Hr (s, e0)); left). exists s, e0, st. split; [done|].
  destruct (q_from _ _ _ _ _ _ Q (h s) tok acts') as (s2 & acts & Hs2 & Eh & Ea & _); [by apply (q_range _ _ _ _ _ _ Q)|done|].
  destruct (q_core _ _ _ _ _ _ Q s2 s Hs2 Hsr Eh) as [Ec|[? _]]; [|done].
  destruct (so_stable _ _ _ Hs s2 s Hs2 Hsr Ec) as [Hrow _]. specialize (Hrow tok). rewrite Ea in Hrow. apply option_Forall2_Some in Hrow as (acts2 & -> & _). eauto.
Qed.

Lemma strict_runs prods t t' gs k ms h st ls σ : tables_ok t → strict_ok t gs k → quotient t t' (colf gs) None ms h → in_range t st →
  lr_run prods t' (rename h st) ls σ → ∃ st', lr_run prods t st ls st' ∧ σ = rename h st'.
Proof using.
  intros Ht Hs Q. revert st. induction ls as [|l ls IH]; intros st Hr Hrun; inversion Hrun as [|? ? σ1 ? ? Hst Hrest]; subst.
  { exists st. split; [constructor|done]. }
  assert (expects t' (rename h st) (token l)) as Hx.
  { remember (rename h st) as st0 eqn:E0. destruct Hst as [s e st1 tok a (acts & Ea & _) _|s e st1 tok a p q e' st' g (acts & Ea & _) _ _ _ _|s e st1 tok a (acts & Ea & _) _];
      exists s, e, st1; cbn; eauto. }
  destruct (step_backward prods t t' _ _ _ _ Q st l σ1 Hr) as (st1 & Hst1 & ->); [by eapply strict_expects|done|].
  destruct (IH st1) as (st' & Hrun' & ->); [by eapply step_in_range|done|]. exists st'. split; [by econstructor|done].
Qed.

(** The matchers of terminals that the compiler produces. *)
Lemma matchers_built ng : forallb (terminal_ok parseRegex) (Terminals ng) = true → terminal_bounds (Terminals ng) →
  ∃ ms, (∀ g, Some ng = Some g → buildTerminalStartMatchers parseRegex (Terminals g) = Ret ms) ∧
    ∀ p, p ∈ Terminals ng → ∃ m, ms !! SymbolID p = Some m ∧ admits parseRegex m p.
Proof using. intros Hok Hb. destruct (build_matchers_spec parseRegex (Terminals ng) ∅ Hok Hb) as (ms & Hrun & Hall & _). exists ms. split; [by intros g [= <-]|done]. Qed.


(** C9.  Without a grammar the minimisation is exact and minimal: the LR machine has
    the same runs on both tables, and two states become one just when some partition
    in which states of a class have the same rows, targets taken as classes, puts
    them together. *)
Theorem minimizeParseStates_minimal t :
  tables_ok t → 0 < StateCount t →
  ∃ removed t' h, minimizeParseStates parseRegex t None = Ret (removed, t') ∧ StateCount t' = StateCount t - removed ∧
    (∀ prods ls σ, lr_run prods t' lr_start ls σ ↔ ∃ st, lr_run prods t lr_start ls st ∧ σ = rename h st) ∧
    (∀ s s', 0 ≤ s < StateCount t → 0 ≤ s' < StateCount t → h s = h s' ↔ ∃ col, stable t col ∧ col s = col s').
Proof using.
  intros Ht Hn. destruct (minimize_spec t Ht ltac:(lia) parseRegex None ∅) as (gs & k & removed & t' & h & Hs & Hrun & _ & Hcount & Q); [done|].
  pose proof (rename_start _ _ _ _ _ _ Q) as E0. pose proof (start_in_range t Hn) as Hr. exists removed, t', h. split_and!; [done..| |].
  - intros prods ls σ. split.
    + intros Hl. rewrite <-E0 in Hl. by eapply strict_runs.
    + intros (st & Hl & ->). rewrite <-E0. by eapply run_forward.
  - intros s s' Hsr Hsr'. split.
    + intros E. exists (colf gs). split; [apply Hs|]. by destruct (q_core _ _ _ _ _ _ Q s s' Hsr Hsr' E) as [|[? _]].
    + intros (col & Hst & E). apply (q_class _ _ _ _ _ _ Q); [done..|]. by apply (so_coarse _ _ _ Hs col Hst).
Qed.

(** C10.  Merging does not confuse the lexer: the new tables keep the actions of every
    state, and two tokens for which one new state has actions either both have
    actions in one of the states it stands for, or are tokens that the lexer alone
    decides on, no external, no keyword and not the word token, of which no text
    starts both. *)
Theorem minimizeParseStates_disjoint t ng :
  tables_ok t → 0 < StateCount t → forallb (terminal_ok parseRegex) (Terminals ng) = true → terminal_bounds (Terminals ng) →
  ∃ removed t' h, minimizeParseStates parseRegex t (Some ng) = Ret (removed, t') ∧
    (∀ s x acts, 0 ≤ s < StateCount t → actions_of t s !! x = Some acts →
      ∃ acts', actions_of t' (h s) !! x = Some acts' ∧ map (act_sig h) acts ≡ₚ map (act_sig id) acts') ∧
    ∀ q x y, 0 ≤ q < StateCount t' → is_Some (actions_of t' q !! x) → is_Some (actions_of t' q !! y) →
      (∃ s, 0 ≤ s < StateCount t ∧ h s = q ∧ is_Some (actions_of t s !! x) ∧ is_Some (actions_of t s !! y)) ∨
      lexer_token ng x ∧ lexer_token ng y ∧ never_alike parseRegex ng x y.
Proof using.
  intros Ht Hn Hok Hb. destruct (matchers_built ng Hok Hb) as (ms & Hms & Hadm).
  destruct (minimize_spec t Ht ltac:(lia) parseRegex (Some ng) ms Hms) as (gs & k & removed & t' & h & _ & Hrun & _ & _ & Q).
  exists removed, t', h. split_and!; [done|apply (q_keep _ _ _ _ _ _ Q)|]. intros q x y Hq Hx Hy.
  destruct (q_pairs _ _ _ _ _ _ Q q x y Hq Hx Hy) as [?|HD]; [by left|right]. by apply (disjointTerminals_sound _ ng ms).
Qed.
End theorems.

(** ** A grammar with two brackets *)

(** S → a X ")" | b X "]" and X → c, with its LR(1) tables.  The states after c
    differ in the bracket they expect. *)
Definition bracket_grammar : NormalizedGrammar :=
  let string_terminal id v := mkTerminalPattern id (mkRule RuleString (bytes_of v) [] 0 false) 0 false in
  mkNormalizedGrammar
    (replicate 6 (plain_symbol SymbolTerminal) ++ replicate 3 (plain_symbol SymbolNonterminal))
    [plain_production 8 [6]; plain_production 6 [1; 7; 4]; plain_production 6 [2; 7; 5]; plain_production 7 [3]]
    [string_terminal 1 "a"; string_terminal 2 "b"; string_terminal 3 "c"; string_terminal 4 ")"; string_terminal 5 "]"]%string [] 0 [] 0 [] false true.

Definition shift_to (s : Z) : lrAction := mkLrAction lrShift s 0 0 false AssocNone 0 [] [] [] false false 0 [].
Definition reduce_by (p : Z) : lrAction := mkLrAction lrReduce 0 p 0 false AssocNone 0 [] [] [] false false 0 [].
Definition accept_all : lrAction := mkLrAction lrAccept 0 0 0 false AssocNone 0 [] [] [] false false 0 [].

(** [close] is the token that ends the second form. *)
Definition bracket_tables (close : Z) : LRTables :=
  mkLRTables
    (list_to_map [(0, list_to_map [(1, [shift_to 1]); (2, [shift_to 2])]); (1, {[ 3 := [shift_to 3] ]}); (2, {[ 3 := [shift_to 4] ]});
      (3, {[ 4 := [reduce_by 3] ]}); (4, {[ close := [reduce_by 3] ]}); (5, {[ 4 := [shift_to 7] ]}); (6, {[ close := [shift_to 8] ]});
      (7, {[ 0 := [reduce_by 1] ]}); (8, {[ 0 := [reduce_by 2] ]}); (9, {[ 0 := [accept_all] ]})])
    (list_to_map [(0, {[ 6 := 9 ]}); (1, {[ 7 := 5 ]}); (2, {[ 7 := 6 ]})])
    10 10 [[1]; [2]; [3]; [4]; [4]; [5]; [6]; [7]; [8]; [9]].

Notation sample_regex := (RegexParse.parseRegex no_tables).

Lemma bracket_terminals : forallb (terminal_ok sample_regex) (Terminals bracket_grammar) = true ∧ terminal_bounds (Terminals bracket_grammar).
Proof. split; [by vm_compute|]. split; [repeat constructor; done|done]. Qed.


(** With one bracket the states after c have the same row. *)
Lemma minimizeParseStates_minimal_witness :
  tables_ok (bracket_tables 4) ∧ ∃ t' (h : Z → Z), minimizeParseStates sample_regex (bracket_tables 4) None = Ret (1, t') ∧ h 3 = h 4.
Proof.
  assert (tables_ok (bracket_tables 4)) as Ht by (apply tables_okb_spec; vm_compute; reflexivity). split; [exact Ht|].
  destruct (minimizeParseStates_minimal sample_regex (bracket_tables 4) Ht ltac:(reflexivity)) as (removed & t' & h & Hrun & _ & _ & Hmin).
  exists t', h. split.
  - assert (removed = 1) as ->; [|exact Hrun]. apply (f_equal (λ r, match r with Ret (x, _) => x | _ => 0 end)) in Hrun. vm_compute in Hrun. by symmetry.
  - apply Hmin; [cbn; lia..|]. exists (λ s, if s =? 4 then 3 else s). split; [|reflexivity].
    intros s s' Hs Hs' E. assert (s = s' ∨ s = 3 ∧ s' = 4 ∨ s = 4 ∧ s' = 3) as [->|[[-> ->]|[-> ->]]] by (destruct (Z.eqb_spec s 4), (Z.eqb_spec s' 4); lia).
    all: split; intros sym; [|reflexivity]; try reflexivity.
    all: match goal with |- option_Forall2 _ ?a ?b => change b with a; destruct a; [apply Some_Forall2; unfold acts_agree; reflexivity|apply None_Forall2] end.
Defined.

(** The merged state expects both brackets; no old state does, and they are told
    apart by their first rune. *)
Lemma minimizeParseStates_disjoint_witness :
  tables_ok (bracket_tables 5) ∧ ∃ removed t', minimizeParseStates sample_regex (bracket_tables 5) (Some bracket_grammar) = Ret (removed, t') ∧
    is_Some (actions_of t' 3 !! 4) ∧ is_Some (actions_of t' 3 !! 5) ∧ never_alike sample_regex bracket_grammar 4 5.
Proof.
  assert (tables_ok (bracket_tables 5)) as Ht by (apply tables_okb_spec; vm_compute; reflexivity). split; [exact Ht|].
  destruct (minimizeParseStates_disjoint sample_regex (bracket_tables 5) bracket_grammar Ht ltac:(reflexivity)
    (proj1 bracket_terminals) (proj2 bracket_terminals)) as (removed & t' & h & Hrun & _ & Hpairs).
  exists removed, t'. split; [exact Hrun|].
  assert (t' = match minimizeParseStates sample_regex (bracket_tables 5) (Some bracket_grammar) with Ret (_, x) => x | _ => t' end) as E by (by rewrite Hrun).
  vm_compute in E. assert (is_Some (actions_of t' 3 !! 4)) as H4 by (rewrite E; vm_compute; eexists; reflexivity).
  assert (is_Some (actions_of t' 3 !! 5)) as H5 by (rewrite E; vm_compute; eexists; reflexivity). split; [exact H4|]. split; [exact H5|].
  assert (0 ≤ 3 < StateCount t') as Hq by (rewrite E; cbn; lia).
  destruct (Hpairs 3 4 5 Hq H4 H5) as [(s & Hs & _ & Ha & Hb)|(_ & _ & Hn)]; [exfalso|exact Hn].
  assert (s ∈ seqZ 0 10) as Hin by (apply elem_of_seqZ; cbn in Hs; lia). clear -Ha Hb Hin. change (seqZ 0 10) with [0; 1; 2; 3; 4; 5; 6; 7; 8; 9] in Hin.
  repeat (apply elem_of_cons in Hin as [->|Hin]; [vm_compute in Ha, Hb; destruct Ha, Hb; discriminate|]). by apply elem_of_nil in Hin.
Defined.
