(* ===== verification/LrCompactCore.v ===== *)
(** * Compact cores of parser states

    grammargen/lr_parse_core.go: a string for every production with a dot, which
    leaves out the symbols before the dot unless fields are inherited through them,
    and from these a string for every state.  Two states with one string may be
    merged by the minimisation (LrMinimize.v).  The strings are computed without a
    failed lookup, and states with one string have the same items up to the symbols
    before the dots. *)

From Stdlib Require Import ZArith Lia ZifyBool.
From stdpp Require Import base tactics list numbers option gmap fin_maps fin_sets.
From S2P Require Import Prelude SliceSort LrGrammar Lalr LrMinimize LrSignature LrGroups LrMerge.
Local Open Scope Z_scope.

(** ** Symbols that carry fields *)

Section carriers.
Context (ng : NormalizedGrammar).

Definition isHiddenNonterminal (symbol : Z) : bool :=
  (TokenCount ng <=? symbol) && match zget (Symbols ng) symbol with Some info => negb (siVisible info) | None => false end.

Definition hasFieldAt (production : Production) (child : Z) : bool := existsb (λ f, faChildIndex f =? child) (prFields production).

Fixpoint seed_carriers (prods : list Production) (carriers : list bool) : go (list bool) :=
  match prods with
  | [] => Ret carriers
  | p :: prods =>
    if isHiddenNonterminal (LHS p) && (0 <? len (prFields p))
    then carriers ← store carriers (LHS p) true; seed_carriers prods carriers
    else seed_carriers prods carriers
  end.

(** A child of the production passes its fields on. *)
Fixpoint carries (p : Production) (child : Z) (rhs : list Z) (carriers : list bool) : go bool :=
  match rhs with
  | [] => Ret false
  | symbol :: rhs =>
    if isHiddenNonterminal symbol then
      c ← index carriers symbol;
      if c && negb (hasFieldAt p child) then Ret true else carries p (child + 1) rhs carriers
    else carries p (child + 1) rhs carriers
  end.

Fixpoint carrier_round (prods : list Production) (carriers : list bool) (changed : bool) : go (list bool * bool) :=
  match prods with
  | [] => Ret (carriers, changed)
  | p :: prods =>
    if negb (isHiddenNonterminal (LHS p)) then carrier_round prods carriers changed else
    c ← index carriers (LHS p);
    if (c : bool) then carrier_round prods carriers changed else
    b ← carries p 0 (RHS p) carriers;
    if (b : bool) then carriers ← store carriers (LHS p) true; carrier_round prods carriers true
    else carrier_round prods carriers changed
  end.

(** Every round but the last finds a new symbol. *)
Fixpoint carrier_loop (fuel : nat) (carriers : list bool) : go (list bool) :=
  match fuel with
  | O => NoFuel
  | S fuel =>
    '(carriers, changed) ← carrier_round (Productions ng) carriers false;
    if (changed : bool) then carrier_loop fuel carriers else Ret carriers
  end.

Definition compactInheritedFieldCarriers : go (list bool) :=
  carriers ← seed_carriers (Productions ng) (make (len (Symbols ng)) false);
  carrier_loop (S (length (Symbols ng))) carriers.

(** ** Productions with a dot *)

(** The length, the text and a semicolon. *)
Definition appendString (value : list Z) : list Z := append_string value ++ [59].

Fixpoint fieldAt (fields : list FieldAssign) (child : Z) : list Z :=
  match fields with
  | [] => []
  | f :: fields => if faChildIndex f =? child then faFieldName f else fieldAt fields child
  end.
Fixpoint aliasAt (aliases : list AliasInfo) (child : Z) : list Z * bool :=
  match aliases with
  | [] => ([], false)
  | a :: aliases => if aiChildIndex a =? child then (aiName a, aiNamed a) else aliasAt aliases child
  end.

Definition child_key (p : Production) (dot : Z) (hasInheritedFields : bool) (child symbol : Z) : list Z :=
  (if (dot <=? child) || hasInheritedFields then appendInt symbol else []) ++
  appendString (aliasAt (prAliases p) child).1 ++ appendBool (aliasAt (prAliases p) child).2 ++ appendString (fieldAt (prFields p) child).

Fixpoint child_keys (p : Production) (dot : Z) (hasInheritedFields : bool) (child : Z) (rhs : list Z) : list Z :=
  match rhs with
  | [] => []
  | symbol :: rhs => child_key p dot hasInheritedFields child symbol ++ child_keys p dot hasInheritedFields (child + 1) rhs
  end.

Definition compactProductionDotKey (p : Production) (dot : Z) (hasInheritedFields : bool) : list Z :=
  appendInt (LHS p) ++ appendInt dot ++ appendInt (len (RHS p)) ++ appendInt (Prec p) ++ appendBool (HasExplicitPrec p) ++
  appendInt (assoc_int (prAssoc p)) ++ appendInt (DynPrec p) ++ appendBool (prIsExtra p) ++ appendBool hasInheritedFields ++
  child_keys p dot hasInheritedFields 0 (RHS p).

(** A symbol before the dot carries fields. *)
Fixpoint inherits_fields (fieldCarriers : list bool) (before : list Z) : go bool :=
  match before with
  | [] => Ret false
  | symbol :: before =>
    if TokenCount ng <=? symbol then
      c ← index fieldCarriers symbol;
      if (c : bool) then Ret true else inherits_fields fieldCarriers before
    else inherits_fields fieldCarriers before
  end.

Definition dot_key (fieldCarriers : list bool) (p : Production) (dot : Z) : go (list Z) :=
  b ← inherits_fields fieldCarriers (take (Z.to_nat dot) (RHS p));
  Ret (compactProductionDotKey p dot b).

Definition buildCompactProductionDotKeys : go (list (list (list Z))) :=
  fieldCarriers ← compactInheritedFieldCarriers;
  map_go (λ p, map_go (dot_key fieldCarriers p) (seqZ 0 (len (RHS p) + 1))) (Productions ng).
End carriers.

(** ** States *)

Definition encodeStringList (values : list (list Z)) : list Z := concat (map append_string values).

(** The keys of the items of a state, as a set. *)
Fixpoint state_items (keysByProduction : list (list (list Z))) (state : list coreEntry) (items : gset (list Z)) : go (gset (list Z)) :=
  match state with
  | [] => Ret items
  | ce :: state =>
    row ← index keysByProduction (ceProdIdx ce);
    key ← index row (ceDot ce);
    state_items keysByProduction state ({[ key ]} ∪ items)
  end.

Definition state_key `{SliceSort} (keysByProduction : list (list (list Z))) (state : list coreEntry) : go (list Z) :=
  items ← state_items keysByProduction state ∅;
  Ret (encodeStringList (sort_strings (elements items))).

Definition buildCompactStateCoreKeys `{SliceSort} (ng : NormalizedGrammar) (states : list (list coreEntry)) : go (list (list Z)) :=
  keysByProduction ← buildCompactProductionDotKeys ng;
  map_go (state_key keysByProduction) states.

(** * What a compact core tells *)

(** ** Carriers *)

Section carriers.
Context (ng : NormalizedGrammar).

Definition unmarked (carriers : list bool) : nat := total_of (λ b : bool, if b then 0%nat else 1%nat) carriers.

Lemma hidden_range sym : isHiddenNonterminal ng sym = true → 0 ≤ sym < len (Symbols ng).
Proof using.
  unfold isHiddenNonterminal. intros [_ H]%andb_true_iff. destruct (zget (Symbols ng) sym) eqn:E; [|done]. by apply zget_Some_range in E.
Qed.

Lemma seed_carriers_spec prods carriers : len carriers = len (Symbols ng) →
  ∃ carriers', seed_carriers ng prods carriers = Ret carriers' ∧ len carriers' = len (Symbols ng).
Proof using.
  revert carriers. induction prods as [|p prods IH]; intros carriers Hl; cbn [seed_carriers]; [by exists carriers|].
  destruct (isHiddenNonterminal ng (LHS p) && _) eqn:E; [|by apply IH]. apply andb_true_iff in E as [E%hidden_range _].
  rewrite store_ok by lia. cbn [mbind go_bind]. apply IH. unfold len in *. by rewrite length_insert.
Qed.

Lemma carries_returns p child rhs carriers : len carriers = len (Symbols ng) → ∃ b, carries ng p child rhs carriers = Ret b.
Proof using.
  intros Hl. revert child. induction rhs as [|sym rhs IH]; intros child; cbn [carries]; [by exists false|].
  destruct (isHiddenNonterminal ng sym) eqn:E; [|apply IH]. apply hidden_range in E. destruct (index_in_range carriers sym) as (c & -> & _); [lia|].
  cbn [mbind go_bind]. case_match; [by exists true|apply IH].
Qed.

Lemma carrier_round_spec prods carriers changed : len carriers = len (Symbols ng) →
  ∃ carriers' changed', carrier_round ng prods carriers changed = Ret (carriers', changed') ∧ len carriers' = len (Symbols ng) ∧
    (unmarked carriers' ≤ unmarked carriers)%nat ∧ (changed' = true → changed = true ∨ (unmarked carriers' < unmarked carriers)%nat).
Proof using.
  revert carriers changed. induction prods as [|p prods IH]; intros carriers changed Hl; cbn [carrier_round].
  { exists carriers, changed. split_and!; [done|done|lia|by left]. }
  destruct (isHiddenNonterminal ng (LHS p)) eqn:E; cbn [negb]; [|by apply IH]. apply hidden_range in E.
  destruct (index_in_range carriers (LHS p)) as (c & -> & Hc); [lia|]. cbn [mbind go_bind]. destruct c; [by apply IH|].
  destruct (carries_returns p 0 (RHS p) carriers Hl) as ([|] & ->); cbn [mbind go_bind]; [|by apply IH]. rewrite store_ok by lia. cbn [mbind go_bind].
  destruct (IH (<[Z.to_nat (LHS p) := true]> carriers) true) as (c' & ch' & -> & Hl' & Hle & _); [unfold len in *; by rewrite length_insert|].
  assert (unmarked (<[Z.to_nat (LHS p) := true]> carriers) + 1 = unmarked carriers)%nat as Hm.
  { unfold unmarked. pose proof (total_of_set (λ b : bool, if b then 0%nat else 1%nat) carriers (LHS p) false true Hc) as Hs. cbn in Hs. lia. }
  exists c', ch'. split_and!; [done|done|lia|]. intros _. right. lia.
Qed.

Lemma carrier_loop_spec fuel carriers : len carriers = len (Symbols ng) → (unmarked carriers < fuel)%nat →
  ∃ carriers', carrier_loop ng fuel carriers = Ret carriers' ∧ len carriers' = len (Symbols ng).
Proof using.
  revert carriers. induction fuel as [|fuel IH]; intros carriers Hl Hf; [lia|]. cbn [carrier_loop].
  destruct (carrier_round_spec (Productions ng) carriers false Hl) as (c' & ch' & -> & Hl' & _ & Hch). cbn [mbind go_bind].
  destruct ch'; [|by exists c']. apply IH; [done|]. destruct Hch; [done|done|lia].
Qed.

Lemma carriers_return : ∃ carriers, compactInheritedFieldCarriers ng = Ret carriers ∧ len carriers = len (Symbols ng).
Proof using.
  unfold compactInheritedFieldCarriers. destruct (seed_carriers_spec (Productions ng) (make (len (Symbols ng)) false)) as (c & -> & Hc); [apply len_make, len_nonneg|].
  cbn [mbind go_bind]. apply carrier_loop_spec; [done|]. unfold unmarked. pose proof (total_of_bound (λ b : bool, if b then 0%nat else 1%nat) 1 c) as Hb.
  unfold len in Hc. rewrite Nat.mul_1_r in Hb. apply Nat.lt_succ_r. etrans; [apply Hb|lia]. apply list.Forall_forall. intros [|] _; lia.
Qed.

(** ** Keys of items *)

Lemma inherits_returns carriers before : grammar_wf ng → len carriers = len (Symbols ng) → Forall (λ x, 0 ≤ x < len (Symbols ng)) before →
  ∃ b, inherits_fields ng carriers before = Ret b.
Proof using.
  intros Hwf Hl. induction 1 as [|x before Hx _ IH]; cbn [inherits_fields]; [by exists false|]. destruct (TokenCount ng <=? x); [|done].
  destruct (index_in_range carriers x) as (c & -> & _); [lia|]. cbn [mbind go_bind]. destruct c; [by exists true|done].
Qed.

(** The key of an item. *)
Definition key_at (keys : list (list (list Z))) (q d : Z) (k : list Z) : Prop := ∃ row, zget keys q = Some row ∧ zget row d = Some k.

Lemma map_go_returns {A B} (f : A → go B) l : (∀ x, x ∈ l → ∃ y, f x = Ret y) →
  ∃ l', map_go f l = Ret l' ∧ ∀ i x, zget l i = Some x → ∃ y, f x = Ret y ∧ zget l' i = Some y.
Proof using.
  induction l as [|x l IH]; intros Hf; cbn [map_go]; [exists []; split; [done|]; intros i x; by rewrite zget_nil|].
  destruct (Hf x) as (y & Hy); [left|]. destruct IH as (l' & Hl' & Hi); [intros; apply Hf; by right|]. rewrite Hy. cbn [mbind go_bind]. rewrite Hl'. cbn [mbind go_bind].
  exists (y :: l'). split; [done|]. intros i z Hz. destruct (decide (i = 0)) as [->|].
  - rewrite zget_cons_0 in Hz. injection Hz as <-. exists y. by rewrite zget_cons_0.
  - rewrite zget_cons_ne in Hz by done. rewrite zget_cons_ne by done. by apply Hi.
Qed.

Lemma map_go_length {A B} (f : A → go B) l l' : map_go f l = Ret l' → length l' = length l.
Proof using.
  revert l'. induction l as [|x l IH]; intros l'; cbn [map_go]; [by intros [= <-]|]. destruct (f x); cbn; [|done..].
  destruct (map_go f l) as [k| |]; cbn; [|done..]. intros [= <-]. cbn. by rewrite (IH k).
Qed.

Lemma dot_keys_return : grammar_wf ng → ∃ keys, buildCompactProductionDotKeys ng = Ret keys ∧
  ∀ q p d, zget (Productions ng) q = Some p → 0 ≤ d ≤ len (RHS p) → ∃ b, key_at keys q d (compactProductionDotKey p d b).
Proof using.
  intros Hwf. unfold buildCompactProductionDotKeys. destruct carriers_return as (carriers & -> & Hl). cbn [mbind go_bind].
  assert (∀ p, p ∈ Productions ng → ∃ row, map_go (dot_key ng carriers p) (seqZ 0 (len (RHS p) + 1)) = Ret row ∧
    ∀ d, 0 ≤ d ≤ len (RHS p) → ∃ b, zget row d = Some (compactProductionDotKey p d b)) as Hrow.
  { intros p Hp. assert (∀ d, ∃ b, dot_key ng carriers p d = Ret (compactProductionDotKey p d b)) as Hdot.
    { intros d. unfold dot_key. destruct (inherits_returns carriers (take (Z.to_nat d) (RHS p)) Hwf Hl) as (b & ->); [|by exists b].
      apply Forall_take, list.Forall_forall. intros x Hx. by apply (gw_rhs _ Hwf p). }
    destruct (map_go_returns (dot_key ng carriers p) (seqZ 0 (len (RHS p) + 1))) as (row & Hrow & Hi); [intros d _; destruct (Hdot d) as (b & ->); eauto|].
    exists row. split; [done|]. intros d Hd. destruct (Hdot d) as (b & Hb). exists b. destruct (Hi d d) as (y & Hy & Hz); [by rewrite <-(map_id (seqZ _ _)), zget_map_seqZ by lia|]. congruence. }
  destruct (map_go_returns (λ p, map_go (dot_key ng carriers p) (seqZ 0 (len (RHS p) + 1))) (Productions ng)) as (keys & Hk & Hi); [intros p Hp; destruct (Hrow p Hp) as (row & -> & _); eauto|].
  exists keys. split; [done|]. intros q p d Hq Hd. destruct (Hi q p Hq) as (row & Hr & Hz). destruct (Hrow p (zget_elem _ _ _ Hq)) as (row' & Hr' & Hb).
  assert (row' = row) as -> by congruence. destruct (Hb d Hd) as (b & Hzd). exists b, row. done.
Qed.
End carriers.

(** ** Keys are read back *)

Lemma appendString_code : prefix_code appendString eq.
Proof.
  intros x y r r' E. unfold appendString in E. rewrite <-!app_assoc in E. apply append_string_code in E as [-> E]. by injection E.
Qed.

(** The symbols from the dot on. *)
Lemma child_keys_code p p' dot b child rhs rhs' r r' : length rhs = length rhs' →
  child_keys p dot b child rhs ++ r = child_keys p' dot b child rhs' ++ r' → ∀ i, dot ≤ child + i → zget rhs i = zget rhs' i.
Proof.
  revert child rhs'. induction rhs as [|x rhs IH]; intros child [|x' rhs'] Hl E i Hi; try done. cbn [child_keys] in E. unfold child_key in E.
  rewrite <-!app_assoc in E. assert ((dot ≤ child → x = x') ∧ child_keys p dot b (child + 1) rhs ++ r = child_keys p' dot b (child + 1) rhs' ++ r') as [Hx E'].
  { destruct ((dot <=? child) || b) eqn:Eb.
    - apply appendInt_code in E as [-> E]. split; [done|]. by apply appendString_code in E as [_ [_ [_ E]%appendString_code]%appendBool_code].
    - split; [lia|]. by apply appendString_code in E as [_ [_ [_ E]%appendString_code]%appendBool_code]. }
  injection Hl as Hl. destruct (decide (i = 0)) as [->|]; [rewrite !zget_cons_0; f_equal; apply Hx; lia|].
  rewrite !zget_cons_ne by done. apply (IH (child + 1) rhs' Hl E'). lia.
Qed.

(** The items agree up to the symbols before the dot. *)
Definition similar_items (ng : NormalizedGrammar) (q d q' d' : Z) : Prop := d = d' ∧ ∃ p p', zget (Productions ng) q = Some p ∧
  zget (Productions ng) q' = Some p' ∧ LHS p = LHS p' ∧ length (RHS p) = length (RHS p') ∧ ∀ i, d ≤ i → zget (RHS p) i = zget (RHS p') i.

Lemma dot_key_inj p d b p' d' b' : compactProductionDotKey p d b = compactProductionDotKey p' d' b' →
  d = d' ∧ LHS p = LHS p' ∧ length (RHS p) = length (RHS p') ∧ ∀ i, d ≤ i → zget (RHS p) i = zget (RHS p') i.
Proof.
  unfold compactProductionDotKey. intros E. apply appendInt_code in E as [EL E]. apply appendInt_code in E as [<- E]. apply appendInt_code in E as [El E].
  apply appendInt_code in E as [_ E]. apply appendBool_code in E as [_ E]. apply appendInt_code in E as [_ E]. apply appendInt_code in E as [_ E].
  apply appendBool_code in E as [_ E]. apply appendBool_code in E as [<- E]. unfold len in El. split_and!; [done|done|lia|].
  intros i Hi. apply (child_keys_code p p' d b 0 _ _ [] []); [lia|by rewrite !app_nil_r|lia].
Qed.

(** A list of strings is read back from its text. *)
Lemma append_string_cons x : ∃ y l, append_string x = y :: l.
Proof. unfold append_string, appendInt. destruct (itoa_cons (len x)) as (y & l & ->). eexists _, _. reflexivity. Qed.

Lemma encode_inj l l' : encodeStringList l = encodeStringList l' → l = l'.
Proof.
  unfold encodeStringList. revert l'. induction l as [|x l IH]; intros [|x' l']; cbn; [done|..].
  - destruct (append_string_cons x') as (y & u & ->). done.
  - destruct (append_string_cons x) as (y & u & ->). done.
  - intros [-> E]%append_string_code. f_equal. by apply IH.
Qed.

(** ** States *)

Section states.
Context `{SliceSort} (ng : NormalizedGrammar) (Hwf : grammar_wf ng) (states : list (list coreEntry)).
Context (Hstates : ∀ ces ce, ces ∈ states → ce ∈ ces → ∃ p, zget (Productions ng) (ceProdIdx ce) = Some p ∧ 0 ≤ ceDot ce ≤ len (RHS p)).

Definition entry_key (keys : list (list (list Z))) (ce : coreEntry) (k : list Z) : Prop := key_at keys (ceProdIdx ce) (ceDot ce) k.

Lemma state_items_spec keys ces items : (∀ ce, ce ∈ ces → ∃ k, entry_key keys ce k) →
  ∃ I, state_items keys ces items = Ret I ∧ ∀ k, k ∈ I ↔ k ∈ items ∨ ∃ ce, ce ∈ ces ∧ entry_key keys ce k.
Proof using.
  clear Hwf Hstates. revert items. induction ces as [|ce ces IH]; intros items Hk; cbn [state_items].
  { exists items. split; [done|]. intros k. split; [by left|]. by intros [?|(ce & ?%elem_of_nil & _)]. }
  destruct (Hk ce) as (k0 & row & Hr & Hd); [left|]. rewrite (proj2 (index_Ret _ _ _) Hr). cbn [mbind go_bind]. rewrite (proj2 (index_Ret _ _ _) Hd). cbn [mbind go_bind].
  destruct (IH ({[k0]} ∪ items)) as (I & -> & HI); [intros; apply Hk; by right|]. exists I. split; [done|]. intros k. rewrite HI, elem_of_union, elem_of_singleton. split.
  - intros [[->|?]|(ce' & ? & ?)]; [right; exists ce; split; [left|by exists row]|by left|right; exists ce'; split; [by right|done]].
  - intros [?|(ce' & [->|Hin]%elem_of_cons & Hce)]; [by left; right| |right; by exists ce'].
    left. left. destruct Hce as (row' & Hr' & Hd'). congruence.
Qed.

(** States with one key have similar items. *)
Lemma core_keys_spec : ∃ keys, buildCompactStateCoreKeys ng states = Ret keys ∧
  ∀ s s' ces ces' key, zget states s = Some ces → zget states s' = Some ces' → zget keys s = Some key → zget keys s' = Some key →
    ∀ ce, ce ∈ ces → ∃ ce', ce' ∈ ces' ∧ similar_items ng (ceProdIdx ce) (ceDot ce) (ceProdIdx ce') (ceDot ce').
Proof using Hwf Hstates.
  unfold buildCompactStateCoreKeys. destruct (dot_keys_return ng Hwf) as (dks & -> & Hdks). cbn [mbind go_bind].
  assert (∀ ces, ces ∈ states → ∃ I : gset (list Z), state_key dks ces = Ret (encodeStringList (sort_strings (elements I))) ∧ ∀ k, k ∈ I ↔ ∃ ce, ce ∈ ces ∧ entry_key dks ce k) as Hkey.
  { intros ces Hces. unfold state_key. destruct (state_items_spec dks ces ∅) as (I & -> & HI).
    - intros ce Hce. destruct (Hstates ces ce Hces Hce) as (p & Hp & Hd). destruct (Hdks _ p _ Hp Hd) as (b & Hb). by eexists.
    - exists I. split; [done|]. intros k. rewrite HI. split; [by intros [[]%not_elem_of_empty|?]|by right]. }
  destruct (map_go_returns (state_key dks) states) as (keys & Hrun & Hi); [intros ces Hces; destruct (Hkey ces Hces) as (I & -> & _); eauto|].
  exists keys. split; [done|]. intros s s' ces ces' key Hs Hs' Hk Hk' ce Hce. pose proof (zget_elem _ _ _ Hs) as Hin. pose proof (zget_elem _ _ _ Hs') as Hin'.
  destruct (Hi s ces Hs) as (y & Hy & Hz), (Hi s' ces' Hs') as (y' & Hy' & Hz'). destruct (Hkey ces Hin) as (I & HI & HIk), (Hkey ces' Hin') as (I' & HI' & HIk').
  assert (encodeStringList (sort_strings (elements I)) = encodeStringList (sort_strings (elements I'))) as E%encode_inj by congruence.
  assert (elements I ≡ₚ elements I') as HE.
  { unfold sort_strings in E. rewrite <-(sort_slice_perm _ bytes_less (elements I)), E. apply sort_slice_perm. }
  destruct (Hstates ces ce Hin Hce) as (p & Hp & Hd). destruct (Hdks _ p _ Hp Hd) as (b & Hb).
  assert (compactProductionDotKey p (ceDot ce) b ∈ I') as (ce' & Hce' & row & Hr & Hd')%HIk'.
  { apply elem_of_elements. rewrite <-HE. apply elem_of_elements, HIk. by exists ce. }
  exists ce'. split; [done|]. destruct (Hstates ces' ce' Hin' Hce') as (p' & Hp' & Hr'). destruct (Hdks _ p' _ Hp' Hr') as (b' & row' & Hrow' & Hb').
  assert (compactProductionDotKey p (ceDot ce) b = compactProductionDotKey p' (ceDot ce') b') as (Ed & EL & El & Ei)%dot_key_inj by congruence.
  split; [done|]. by exists p, p'.
Qed.
End states.
