(* ===== verification/LrTables.v ===== *)
(** * Parse tables from item sets

    grammargen/lr.go: the contributors that an action keeps for the resolution of
    conflicts, [LRTables.addAction], the loop of [buildLRTablesInternal] that turns
    item sets into actions and gotos, and [propagateEntryShiftMetadata].  A row is the
    map of one state; the loops write to no other.  The caches of
    [completedRepeatWrapperStateLHSSyms] and [leadingNonterminalsFrom] hold values of
    pure functions and are left out. *)

From Stdlib Require Import ZArith Lia ZifyBool.
From stdpp Require Import base tactics list numbers option gmap fin_maps.
From S2P Require Import Prelude SliceSort Bitset LrGrammar LrFirst Lr0 Lalr LrMinimize LrCompactCore.
Local Open Scope Z_scope.

(** ** Fields of an action *)

Definition with_repeat (a : lrAction) (lhs : Z) (syms : list Z) : lrAction :=
  mkLrAction (laKind a) (laState a) (laProdIdx a) (laPrec a) (laHasPrec a) (laAssoc a) (laLhsSym a) (laLhsSyms a)
    (laShiftContributors a) (laConflictContributors a) (laIsExtra a) true lhs syms.
Definition with_shift_contributors (a : lrAction) (cs : list lrShiftContributor) : lrAction :=
  mkLrAction (laKind a) (laState a) (laProdIdx a) (laPrec a) (laHasPrec a) (laAssoc a) (laLhsSym a) (laLhsSyms a)
    cs (laConflictContributors a) (laIsExtra a) (laRepeat a) (laRepeatLHS a) (laRepeatLHSSyms a).
Definition with_conflict_contributors (a : lrAction) (cs : list lrShiftContributor) : lrAction :=
  mkLrAction (laKind a) (laState a) (laProdIdx a) (laPrec a) (laHasPrec a) (laAssoc a) (laLhsSym a) (laLhsSyms a)
    (laShiftContributors a) cs (laIsExtra a) (laRepeat a) (laRepeatLHS a) (laRepeatLHSSyms a).
Definition with_prec (a : lrAction) (prec : Z) (has : bool) (assoc : Assoc) : lrAction :=
  mkLrAction (laKind a) (laState a) (laProdIdx a) prec has assoc (laLhsSym a) (laLhsSyms a)
    (laShiftContributors a) (laConflictContributors a) (laIsExtra a) (laRepeat a) (laRepeatLHS a) (laRepeatLHSSyms a).
Definition with_lhs_syms (a : lrAction) (syms : list Z) : lrAction :=
  mkLrAction (laKind a) (laState a) (laProdIdx a) (laPrec a) (laHasPrec a) (laAssoc a) (laLhsSym a) syms
    (laShiftContributors a) (laConflictContributors a) (laIsExtra a) (laRepeat a) (laRepeatLHS a) (laRepeatLHSSyms a).
Definition with_extra (a : lrAction) (extra : bool) : lrAction :=
  mkLrAction (laKind a) (laState a) (laProdIdx a) (laPrec a) (laHasPrec a) (laAssoc a) (laLhsSym a) (laLhsSyms a)
    (laShiftContributors a) (laConflictContributors a) extra (laRepeat a) (laRepeatLHS a) (laRepeatLHSSyms a).

Definition addRepeatLHS (a : lrAction) (lhs : Z) : lrAction :=
  if lhs <=? 0 then a else
  if laRepeatLHS a =? 0 then with_repeat a lhs (laRepeatLHSSyms a) else
  if (laRepeatLHS a =? lhs) || int_in lhs (laRepeatLHSSyms a) then with_repeat a (laRepeatLHS a) (laRepeatLHSSyms a) else
  with_repeat a (laRepeatLHS a) (laRepeatLHSSyms a ++ [lhs]).

Definition addRepeatLHSFrom (a other : lrAction) : lrAction :=
  let a := foldl addRepeatLHS (addRepeatLHS a (laRepeatLHS other)) (laRepeatLHSSyms other) in
  if laRepeat other && (laRepeatLHS a =? 0) && (len (laRepeatLHSSyms a) =? 0)
  then with_repeat a (laRepeatLHS a) (laRepeatLHSSyms a) else a.

(** Both lists of contributors grow alike. *)
Definition same_contributor (lhs prec : Z) (has : bool) (assoc : Assoc) (c : lrShiftContributor) : bool :=
  (scLhsSym c =? lhs) && (scPrec c =? prec) && eqb (scHasPrec c) has && bool_decide (scAssoc c = assoc).
Definition add_contributor (cs : list lrShiftContributor) (lhs prec : Z) (has : bool) (assoc : Assoc) : list lrShiftContributor :=
  if lhs <=? 0 then cs else
  if existsb (same_contributor lhs prec has assoc) cs then cs else cs ++ [mkContributor lhs prec has assoc].

Definition addShiftContributor (a : lrAction) (lhs prec : Z) (has : bool) (assoc : Assoc) : lrAction :=
  with_shift_contributors a (add_contributor (laShiftContributors a) lhs prec has assoc).
Definition addConflictContributor (a : lrAction) (lhs prec : Z) (has : bool) (assoc : Assoc) : lrAction :=
  with_conflict_contributors a (add_contributor (laConflictContributors a) lhs prec has assoc).

Definition is_shift (a : lrAction) : bool := bool_decide (laKind a = lrShift).

Definition ensureShiftContributors (a : lrAction) : lrAction :=
  if negb (is_shift a) || (0 <? len (laShiftContributors a)) then a else
  foldl (λ a' lhs, addShiftContributor a' lhs (laPrec a) (laHasPrec a) (laAssoc a)) a (laLhsSym a :: laLhsSyms a).

Definition mergeShiftContributors (a other : lrAction) : lrAction :=
  if negb (is_shift a) || negb (is_shift other) then a else
  let a := ensureShiftContributors a in
  let other := ensureShiftContributors other in
  let a := foldl (λ a c, addShiftContributor a (scLhsSym c) (scPrec c) (scHasPrec c) (scAssoc c)) a (laShiftContributors other) in
  foldl (λ a c, addConflictContributor a (scLhsSym c) (scPrec c) (scHasPrec c) (scAssoc c)) a (laConflictContributors other).

(** ** addAction *)

(** A shift [action] to the target that [a] already shifts to; [prefer] takes over
    the higher precedence. *)
Definition prefer (e a action : lrAction) : lrAction :=
  if laPrec a <? laPrec action then with_prec e (laPrec action) (laHasPrec action) (laAssoc action) else
  if (laPrec action =? laPrec a) && laHasPrec action && negb (laHasPrec e)
  then with_prec e (laPrec e) true (if bool_decide (laAssoc e = AssocNone) then laAssoc action else laAssoc e) else e.

Definition merge_shift (a action : lrAction) : lrAction :=
  if negb (laIsExtra a) && laIsExtra action then a else
  let e := if laIsExtra a && negb (laIsExtra action) then with_extra a false else a in
  let e := addRepeatLHSFrom e action in
  let e := mergeShiftContributors e action in
  let e := prefer e a action in
  if negb (laLhsSym action =? laLhsSym a) && negb (laLhsSym action =? 0) && negb (int_in (laLhsSym action) (laLhsSyms e))
  then with_lhs_syms e (laLhsSyms e ++ [laLhsSym action]) else e.

(** The list with the action taken in, if one of its actions takes it in. *)
Fixpoint take_in (existing : list lrAction) (action : lrAction) : option (list lrAction) :=
  match existing with
  | [] => None
  | a :: rest =>
    if bool_decide (laKind a = laKind action) && (laState a =? laState action) && (is_shift a || (laProdIdx a =? laProdIdx action))
    then Some ((if is_shift a then merge_shift a action else a) :: rest)
    else cons a <$> take_in rest action
  end.

Definition addAction (row : actionRow) (sym : Z) (action : lrAction) : actionRow :=
  let action := if is_shift action then ensureShiftContributors action else action in
  let existing := default [] (row !! sym) in
  <[sym := match take_in existing action with Some l => l | None => existing ++ [action] end]> row.

(** ** Repeat helpers *)

Section tables.
Context (ng : NormalizedGrammar) (ts : list lrTransitionRow) (itemSets : list (list coreEntry)).

Definition repeat_wrapper (sym : Z) : bool := match zget (Symbols ng) sym with Some info => siGeneratedRepeatAux info | None => false end.

(** The generated helpers that the state completes over [sym] alone. *)
Fixpoint completed_wrappers (set : list coreEntry) (sym : Z) (lhsSyms : list Z) : go (list Z) :=
  match set with
  | [] => Ret lhsSyms
  | ce :: set =>
    prod ← index (Productions ng) (ceProdIdx ce);
    if (ceDot ce =? len (RHS prod)) && bool_decide (RHS prod = [sym]) && repeat_wrapper (LHS prod) && negb (int_in (LHS prod) lhsSyms)
    then completed_wrappers set sym (lhsSyms ++ [LHS prod]) else completed_wrappers set sym lhsSyms
  end.

Definition completedRepeatWrapperLHSSymsAcrossTransitions (set : list coreEntry) (sym : Z) (allowTerminal : bool) : go (list Z) :=
  if (sym <? TokenCount ng) && negb allowTerminal then Ret [] else completed_wrappers set sym [].

Fixpoint recursive_source (set : list coreEntry) (lhs : Z) : go bool :=
  match set with
  | [] => Ret false
  | ce :: set =>
    prod ← index (Productions ng) (ceProdIdx ce);
    if (LHS prod =? lhs) && (ceDot ce =? len (RHS prod)) && int_in lhs (RHS prod) then Ret true else recursive_source set lhs
  end.

Definition stateHasRecursiveRepeatSource (set : list coreEntry) (lhs : Z) : go bool :=
  if lhs <? 0 then Ret false else recursive_source set lhs.

Fixpoint recursive_sources (source : list coreEntry) (targets : list Z) : go (list Z) :=
  match targets with
  | [] => Ret []
  | lhs :: targets =>
    b ← stateHasRecursiveRepeatSource source lhs;
    rest ← recursive_sources source targets;
    Ret (if (b : bool) then lhs :: rest else rest)
  end.

Definition repetitionShiftHelperLHSSyms (sourceState sym targetState : Z) : go (list Z) :=
  match zget itemSets sourceState, zget itemSets targetState with
  | Some source, Some target =>
    targetLHSs ← completedRepeatWrapperLHSSymsAcrossTransitions target sym true;
    recursive_sources source targetLHSs
  | _, _ => Ret []
  end.

(** ** One item *)

Definition shift_action (prod : Production) (dot target : Z) (repeatLHSs : list Z) : lrAction :=
  let action := mkLrAction lrShift target 0 (if dot =? 0 then 0 else Prec prod) (HasExplicitPrec prod)
    (if dot =? 0 then AssocNone else prAssoc prod) (LHS prod) [] [] [] (prIsExtra prod) false 0 [] in
  let action := if 0 <? dot then addConflictContributor action (LHS prod) (Prec prod) (HasExplicitPrec prod) (prAssoc prod) else action in
  foldl addRepeatLHS action repeatLHSs.
Definition accept_action : lrAction := mkLrAction lrAccept 0 0 0 false AssocNone 0 [] [] [] false false 0 [].
Definition reduce_action (prodIdx : Z) (prod : Production) : lrAction :=
  mkLrAction lrReduce 0 prodIdx (Prec prod) (HasExplicitPrec prod) (prAssoc prod) (LHS prod) [] [] [] (prIsExtra prod) false 0 [].

Definition fill_core (stateIdx : Z) (ce : coreEntry) (row : actionRow) (gotos : gotoRow) : go (actionRow * gotoRow) :=
  prod ← index (Productions ng) (ceProdIdx ce);
  if ceDot ce <? len (RHS prod) then
    nextSym ← index (RHS prod) (ceDot ce);
    '(target, ok) ← transitionTarget ts stateIdx nextSym;
    if negb ok then Ret (row, gotos) else
    if nextSym <? TokenCount ng then
      repeatLHSs ← repetitionShiftHelperLHSSyms stateIdx nextSym target;
      Ret (addAction row nextSym (shift_action prod (ceDot ce) target repeatLHSs), gotos)
    else Ret (row, <[nextSym := target]> gotos)
  else if ceProdIdx ce =? AugmentProdID ng then Ret (addAction row 0 accept_action, gotos)
  else Ret (foldl (λ row la, addAction row la (reduce_action (ceProdIdx ce) prod)) row (forEach 0 (lookaheads ce)), gotos).

Fixpoint fill_cores (stateIdx : Z) (set : list coreEntry) (row : actionRow) (gotos : gotoRow) : go (actionRow * gotoRow) :=
  match set with
  | [] => Ret (row, gotos)
  | ce :: set => '(row, gotos) ← fill_core stateIdx ce row gotos; fill_cores stateIdx set row gotos
  end.

Fixpoint fill_states (stateIdx : Z) (sets : list (list coreEntry)) (A : gmap Z actionRow) (G : gmap Z gotoRow)
  : go (gmap Z actionRow * gmap Z gotoRow) :=
  match sets with
  | [] => Ret (A, G)
  | set :: sets =>
    '(row, gotos) ← fill_cores stateIdx set ∅ ∅;
    fill_states (stateIdx + 1) sets (<[stateIdx := row]> A) (<[stateIdx := gotos]> G)
  end.

(** ** Entry metadata *)

Context (firstSets : list bitset) (nullables : list bool).

Definition entryShiftMetadataTransparentWrapper (sym : Z) : bool :=
  match zget (Symbols ng) sym with
  | Some info => siGeneratedRepeatAux info || siSupertype info || (negb (siVisible info) && negb (siNamed info))
  | None => false
  end.

Definition known_symbol (sym : Z) : bool := (TokenCount ng <=? sym) && (0 <=? sym) && (sym <? len (Symbols ng)).

(** Every production of the symbol fits the test. *)
Definition all_prods (test : Production → bool) (sym : Z) : bool :=
  negb (len (prodsByLHS ng sym) =? 0) &&
  forallb (λ i, match zget (Productions ng) i with Some prod => test prod | None => false end) (prodsByLHS ng sym).

Definition entryShiftMetadataPostPrefixChoiceWrapper (sym : Z) : bool :=
  known_symbol sym && all_prods (λ prod, match RHS prod with [x] => TokenCount ng <=? x | _ => false end) sym.

Definition entryShiftMetadataPostPrefixVisibleLeadingWrapper (sym : Z) : bool :=
  known_symbol sym &&
  match zget (Symbols ng) sym with Some info => siVisible info || siNamed info || siSupertype info | None => false end &&
  all_prods (λ prod, match RHS prod with x :: _ => TokenCount ng <=? x | [] => false end) sym.

(** The calls that one production brings, in order. *)
Fixpoint leading_edge (rhs : list Z) : list Z :=
  match rhs with
  | [] => []
  | sym :: rhs =>
    (if TokenCount ng <=? sym then [sym] else []) ++
    match zget nullables sym with Some true => leading_edge rhs | _ => [] end
  end.

Definition first_symbol (prod : Production) : go (list Z) := x ← index (RHS prod) 0; Ret [x].
Definition unary_symbol (prod : Production) : list Z :=
  match RHS prod with [x] => if TokenCount ng <=? x then [x] else [] | _ => [] end.

Definition walk_calls (includeContinuations : bool) (cur : Z) (prod : Production) : go (list Z) :=
  if negb (entryShiftMetadataTransparentWrapper cur) then first_symbol prod
  else if includeContinuations && repeat_wrapper cur then Ret (leading_edge (RHS prod))
  else Ret (unary_symbol prod).

Definition walks_on (includeContinuations : bool) (cur : Z) : bool :=
  entryShiftMetadataTransparentWrapper cur ||
  (includeContinuations && (entryShiftMetadataPostPrefixChoiceWrapper cur || entryShiftMetadataPostPrefixVisibleLeadingWrapper cur)).

Fixpoint each {A S} (f : A → S → go S) (l : list A) (s : S) : go S :=
  match l with
  | [] => Ret s
  | x :: l => s ← f x s; each f l s
  end.

(** One nested call for every symbol not yet seen. *)
Fixpoint lead_walk (includeContinuations : bool) (fuel : nat) (cur : Z) (seen : gset Z) : go (gset Z) :=
  match fuel with
  | O => NoFuel
  | S fuel =>
    if negb (known_symbol cur) || bool_decide (cur ∈ seen) then Ret seen else
    let seen := {[ cur ]} ∪ seen in
    if walks_on includeContinuations cur then
      each (λ i seen,
        prod ← index (Productions ng) i;
        calls ← walk_calls includeContinuations cur prod;
        each (lead_walk includeContinuations fuel) calls seen) (prodsByLHS ng cur) seen
    else Ret seen
  end.

(** The nil map when the symbol is a token. *)
Definition leadingNonterminalsFrom (sym : Z) (includeContinuations : bool) : go (gset Z) :=
  if negb (known_symbol sym) then Ret ∅ else lead_walk includeContinuations (S (length (Symbols ng))) sym ∅.

Definition shiftLHSMatchesEntry (lhs sym : Z) (leading : gset Z) : bool := (lhs =? sym) || bool_decide (lhs ∈ leading).
Definition shiftMatchesEntrySymbol (act : lrAction) (sym : Z) (leading : gset Z) : bool :=
  shiftLHSMatchesEntry (laLhsSym act) sym leading || existsb (λ lhs, shiftLHSMatchesEntry lhs sym leading) (laLhsSyms act).

Definition entry_action (prod : Production) (dot : Z) (act : lrAction) : lrAction :=
  let action := mkLrAction lrShift (laState act) 0 (Prec prod) (HasExplicitPrec prod) (prAssoc prod) (LHS prod) [] [] []
    (prIsExtra prod) (laRepeat act) (laRepeatLHS act) (laRepeatLHSSyms act) in
  if 0 <? dot then addConflictContributor action (LHS prod) (Prec prod) (HasExplicitPrec prod) (prAssoc prod) else action.

(** The loop reads the actions of the row as it is changed: a shift is always taken
    in by the actions that are there, in place. *)
Fixpoint propagate_actions (prod : Production) (dot nextSym la : Z) (leading : gset Z) (idxs : list Z) (row : actionRow) : go actionRow :=
  match idxs with
  | [] => Ret row
  | i :: idxs =>
    act ← index (default [] (row !! la)) i;
    propagate_actions prod dot nextSym la leading idxs
      (if is_shift act && shiftMatchesEntrySymbol act nextSym leading then addAction row la (entry_action prod dot act) else row)
  end.

Definition propagate_token (prod : Production) (dot nextSym : Z) (la : Z) (row : actionRow) : go actionRow :=
  leading ← leadingNonterminalsFrom nextSym (0 <? dot);
  propagate_actions prod dot nextSym la leading (seqZ 0 (len (default [] (row !! la)))) row.

Definition propagate_core (ce : coreEntry) (row : actionRow) : go actionRow :=
  prod ← index (Productions ng) (ceProdIdx ce);
  if len (RHS prod) <=? ceDot ce then Ret row else
  nextSym ← index (RHS prod) (ceDot ce);
  if nextSym <? TokenCount ng then Ret row else
  first ← index firstSets nextSym;
  each (propagate_token prod (ceDot ce) nextSym) (forEach 0 first) row.

Fixpoint propagate_states (stateIdx : Z) (sets : list (list coreEntry)) (A : gmap Z actionRow) : go (gmap Z actionRow) :=
  match sets with
  | [] => Ret A
  | set :: sets =>
    row ← each propagate_core set (default ∅ (A !! stateIdx));
    propagate_states (stateIdx + 1) sets (<[stateIdx := row]> A)
  end.

Definition propagateEntryShiftMetadata (t : LRTables) : go LRTables :=
  A ← propagate_states 0 itemSets (ActionTable t);
  Ret (mkLRTables A (GotoTable t) (StateCount t) (ExtraChainStateStart t) (CompactCoreKeys t)).

(** The nil slice of keys when states are not compacted. *)
Definition fill_tables `{SliceSort} : go LRTables :=
  keys ← if CompactParseStates ng then buildCompactStateCoreKeys ng itemSets else Ret [];
  '(A, G) ← fill_states 0 itemSets ∅ ∅;
  Ret (mkLRTables A G (len itemSets) (-1) keys).
End tables.

(** ** Nonterminal extras *)

Section extra_starts.
Context (ng : NormalizedGrammar) (firstSets : list bitset).

Definition realStartSymbol : Z :=
  match zget (Productions ng) (AugmentProdID ng) with
  | Some aug => default (-1) (list.head (RHS aug))
  | None => -1
  end.

Definition is_token (sym : Z) : bool := (0 <? sym) && (sym <? TokenCount ng).

(** The tokens that can stand at a later position of an extra. *)
Definition internal_starts (sym : Z) : gset Z :=
  if is_token sym then {[ sym ]} else
  match zget firstSets sym with
  | Some first => list_to_set (filter (λ x, is_token x = true) (forEach 0 first))
  | None => ∅
  end.

(** The tokens that start an extra, and those inside one. *)
Definition extra_start (starts : gset Z * gset Z) (prod : Production) : gset Z * gset Z :=
  match RHS prod with
  | first :: rest =>
    if negb (prIsExtra prod) || negb (int_in (LHS prod) (ExtraSymbols ng)) then starts else
    ((if is_token first then {[ first ]} else ∅) ∪ starts.1, ⋃ (internal_starts <$> rest) ∪ starts.2)
  | [] => starts
  end.

Definition extraStarts : gset Z :=
  let '(starts, inside) := foldl extra_start (∅, ∅) (Productions ng) in starts ∖ inside.

(** The reductions of a row that are no extras; the loop wants one production. *)
Definition row_reduces (row : actionRow) : list lrAction :=
  filter (λ a, laKind a = lrReduce ∧ laIsExtra a = false) (mjoin (snd <$> map_to_list row)).

Definition single_reduce (row : actionRow) : option lrAction :=
  match row_reduces row with
  | [] => None
  | reduce :: rest => if forallb (λ a, laProdIdx a =? laProdIdx reduce) rest then Some reduce else None
  end.

Definition start_blocked (a : lrAction) : bool :=
  match laKind a with lrAccept => true | lrShift => negb (laIsExtra a) | lrReduce => false end.

Definition augment_row (starts : gset Z) (row : actionRow) : actionRow :=
  match single_reduce row with
  | None => row
  | Some reduce =>
    if match zget (Productions ng) (laProdIdx reduce) with Some prod => LHS prod =? realStartSymbol | None => false end then row else
    foldl (λ row start, if existsb start_blocked (default [] (row !! start)) then row else addAction row start reduce) row (elements starts)
  end.

(** Go ranges over maps in any order; the rows do not depend on each other, nor the
    cells of one row, and all reductions by a production are equal. *)
Definition augmentSingleReduceLookaheadsForNonterminalExtraStarts (t : LRTables) : LRTables :=
  if len (ExtraSymbols ng) =? 0 then t else
  if decide (extraStarts = ∅) then t else
  mkLRTables (augment_row extraStarts <$> ActionTable t) (GotoTable t) (StateCount t) (ExtraChainStateStart t) (CompactCoreKeys t).

(** A grammar without productions for extras has nothing to add. *)
Lemma augment_plain t : (∀ p, p ∈ Productions ng → prIsExtra p = false) → augmentSingleReduceLookaheadsForNonterminalExtraStarts t = t.
Proof.
  intros Hplain. unfold augmentSingleReduceLookaheadsForNonterminalExtraStarts. assert (extraStarts = ∅) as ->; [|by destruct (_ =? 0)].
  unfold extraStarts. assert (foldl extra_start (∅, ∅) (Productions ng) = (∅, ∅)) as ->; [|set_solver].
  revert Hplain. induction (Productions ng) as [|p prods IH]; intros Hplain; [done|]. cbn [foldl].
  replace (extra_start (∅, ∅) p) with (∅ : gset Z, ∅ : gset Z); [apply IH; intros; apply Hplain; by right|].
  unfold extra_start. rewrite (Hplain p ltac:(left)). by destruct (RHS p).
Qed.
End extra_starts.

(** ** The builder *)

(** The environment variables that are "1". *)
Record lrEnv := mkLrEnv { GOT_LR_FORCE_EXTERNAL_LALR : bool; GOT_LR_FORCE_PRECISE_EXTERNAL : bool; GOT_LR_DISABLE_CONTEXT_TAGS : bool }.

Section builder.
Context (env : lrEnv) (ng : NormalizedGrammar).

Definition usePreciseExternalBuilder : bool :=
  let use := 0 <? len (ExternalSymbols ng) in
  let use := if (24 <=? len (ExternalSymbols ng)) && negb (PreferPreciseExternalLexStates ng) then false else use in
  let use := if 5000 <? len (Productions ng) then false else use in
  let use := if GOT_LR_FORCE_EXTERNAL_LALR env then false else use in
  if GOT_LR_FORCE_PRECISE_EXTERNAL env then 0 <? len (ExternalSymbols ng) else use.

(** Whether the item sets come from [buildItemSetsLALR] at once. *)
Definition usesLALR : bool := (400 <? len (Productions ng)) && negb usePreciseExternalBuilder.

Definition contextTagsEnabled : bool := negb (GOT_LR_DISABLE_CONTEXT_TAGS env) && (2000 <=? len (Productions ng)).
End builder.

(** The path through [buildLRTablesInternal] on which [buildItemSetsLALR] makes the
    item sets, without context tags; the count of states is an error. *)
Definition buildLRTables_lalr `{SliceSort} (ng : NormalizedGrammar) (fuel : nat) : go (Z + LRTables) :=
  '(firstSets, nullables) ← computeFirstSets ng;
  ctx ← buildLR0 ng 0 0 (λ _, false) fuel;
  itemSets ← computeLALRLookaheads ng nullables (λ _, false) ctx;
  if 2 ^ 32 - 1 <? len itemSets then Ret (inl (len itemSets)) else
  t ← fill_tables ng (transitions ctx) itemSets;
  t ← propagateEntryShiftMetadata ng itemSets firstSets nullables t;
  Ret (inr (augmentSingleReduceLookaheadsForNonterminalExtraStarts ng firstSets t)).

(** [buildLRTables], which no context cancels.  [None] is a grammar for which it
    takes a construction that is not modelled: the precise LR(1) builder, or context
    tags. *)
Definition buildLRTables `{SliceSort} (env : lrEnv) (ng : NormalizedGrammar) (fuel : nat) : go (option (Z + LRTables)) :=
  if usesLALR env ng && negb (contextTagsEnabled env ng) then r ← buildLRTables_lalr ng fuel; Ret (Some r) else Ret None.

(** A run that returned returns the same with more fuel. *)
Lemma lr0_loop_more `{SliceSort} ng seeds b1 b2 cancelled fuel fuel' i ctx r :
  (fuel ≤ fuel')%nat → lr0_loop ng seeds b1 b2 cancelled fuel i ctx = Ret r → lr0_loop ng seeds b1 b2 cancelled fuel' i ctx = Ret r.
Proof.
  revert fuel' i ctx. induction fuel as [|fuel IH]; intros [|fuel'] i ctx Hle Hrun; [done| |lia|]; cbn [lr0_loop] in *.
  - by destruct (i <? _).
  - destruct (i <? _); [|done]. destruct (_ && _); [done|]. destruct (expand_lr0_state _ _ _ _ _ _) as [[ctx' stop]| |]; cbn [mbind go_bind] in *; [|done..].
    destruct stop; [done|]. by apply IH; [lia|].
Qed.

Lemma buildLR0_more `{SliceSort} ng b1 b2 cancelled fuel fuel' ctx :
  (fuel ≤ fuel')%nat → buildLR0 ng b1 b2 cancelled fuel = Ret ctx → buildLR0 ng b1 b2 cancelled fuel' = Ret ctx.
Proof.
  intros Hle. unfold buildLR0. destruct (ensureLR0Dot0ClosureSeeds _) as [seeds| |]; cbn [mbind go_bind]; [|done..].
  destruct (lr0Closure _ _ _) as [set| |]; cbn [mbind go_bind]; [|done..]. destruct (append_state _ _ _ _) as [ctx' [|]]; [done|]. by apply lr0_loop_more.
Qed.

Lemma buildLRTables_more `{SliceSort} env ng fuel fuel' r : (fuel ≤ fuel')%nat → buildLRTables env ng fuel = Ret r → buildLRTables env ng fuel' = Ret r.
Proof.
  intros Hle. unfold buildLRTables. destruct (_ && _); [|done]. unfold buildLRTables_lalr. destruct (computeFirstSets ng) as [[F nullables]| |]; cbn [mbind go_bind]; [|done..].
  destruct (buildLR0 ng 0 0 _ fuel) as [ctx| |] eqn:E; cbn [mbind go_bind]; [|done..]. by rewrite (buildLR0_more _ _ _ _ fuel fuel' ctx Hle E).
Qed.
