(* ===== verification/LrTablesCorrect.v ===== *)
(** * What the parse tables hold

    Facts about LrTables.v: for a grammar without extra productions the loop over
    the item sets returns, a row holds exactly the shifts, reductions and acceptances
    that its items call for, whatever the order, and the propagation of metadata
    changes none of them. *)

From Stdlib Require Import ZArith Lia ZifyBool.
From stdpp Require Import base tactics list numbers option gmap fin_maps fin_sets.
From S2P Require Import Prelude SliceSort Bitset LrGrammar LrFirst Lr0 Lr0Closure Lalr LrMinimize LrTables.
Local Open Scope Z_scope.

(** ** Actions up to metadata *)

(** What the parser does: the kind, the target and the production. *)
Definition skel (a : lrAction) : lrActionKind * Z * Z := (laKind a, laState a, laProdIdx a).

(** No extra; shifts have no production. *)
Definition plain (a : lrAction) : Prop := laIsExtra a = false ∧ (laKind a = lrShift → laProdIdx a = 0).

(** [a] and [b] differ in metadata only. *)
Definition alike (a b : lrAction) : Prop := skel a = skel b ∧ laIsExtra a = laIsExtra b.

Lemma alike_refl a : alike a a.
Proof. done. Qed.

Lemma alike_trans a b c : alike a b → alike b c → alike a c.
Proof. unfold alike. intros [-> ->]. done. Qed.

Lemma alike_plain a b : alike a b → plain b → plain a.
Proof. intros [E Ex] [Hb Hs]. injection E as Ek _ Ep. split; [congruence|]. rewrite Ek, Ep. done. Qed.

Lemma foldl_alike {A} (f : lrAction → A → lrAction) l a : (∀ a x, alike (f a x) a) → alike (foldl f a l) a.
Proof.
  intros Hf. revert a. induction l as [|x l IH]; intros a; cbn; [apply alike_refl|]. eapply alike_trans; [apply IH|apply Hf].
Qed.

Lemma addRepeatLHS_alike a lhs : alike (addRepeatLHS a lhs) a.
Proof. unfold addRepeatLHS. repeat case_match; done. Qed.

Lemma addRepeatLHSFrom_alike a other : alike (addRepeatLHSFrom a other) a.
Proof.
  unfold addRepeatLHSFrom. set (b := foldl _ _ _).
  assert (alike b a) as Hb by (eapply alike_trans; [apply foldl_alike, addRepeatLHS_alike|apply addRepeatLHS_alike]).
  case_match; [|done]. by eapply alike_trans; [|exact Hb].
Qed.

Lemma ensure_alike a : alike (ensureShiftContributors a) a.
Proof. unfold ensureShiftContributors. case_match; [apply alike_refl|]. by apply foldl_alike. Qed.

Lemma mergeContributors_alike a other : alike (mergeShiftContributors a other) a.
Proof.
  unfold mergeShiftContributors. case_match; [apply alike_refl|].
  eapply alike_trans; [by apply foldl_alike|]. eapply alike_trans; [by apply foldl_alike|]. apply ensure_alike.
Qed.

Lemma prefer_alike e a action : alike (prefer e a action) e.
Proof. unfold prefer. repeat case_match; done. Qed.

Lemma merge_shift_alike a action : laIsExtra a = false → alike (merge_shift a action) a.
Proof.
  intros Ha. unfold merge_shift. rewrite Ha. cbn [negb andb]. case_match; [apply alike_refl|].
  set (e := prefer _ _ _). assert (alike e a) as He.
  { eapply alike_trans; [apply prefer_alike|]. eapply alike_trans; [apply mergeContributors_alike|apply addRepeatLHSFrom_alike]. }
  case_match; [|done]. by eapply alike_trans; [|exact He].
Qed.

(** ** Rows *)

Definition plain_row (row : actionRow) : Prop := ∀ sym acts, row !! sym = Some acts → acts ≠ [] ∧ ∀ a, a ∈ acts → plain a.

Definition row_has (row : actionRow) (sym : Z) (k : lrActionKind * Z * Z) : Prop :=
  ∃ acts a, row !! sym = Some acts ∧ a ∈ acts ∧ skel a = k.

Lemma is_shift_spec a : is_shift a = true ↔ laKind a = lrShift.
Proof. apply bool_decide_eq_true. Qed.

Lemma take_in_spec existing action : (∀ a, a ∈ existing → plain a) → plain action →
  match take_in existing action with
  | Some l => Forall2 alike l existing ∧ ∃ a, a ∈ existing ∧ skel a = skel action
  | None => True
  end.
Proof.
  intros He Ha. induction existing as [|a existing IH]; cbn [take_in]; [done|].
  destruct (bool_decide _ && _ && _) eqn:E.
  - apply andb_true_iff in E as [E Ep]. apply andb_true_iff in E as [Ek%bool_decide_eq_true Es].
    destruct (He a) as [Hx Hs]; [left|]. split.
    + constructor; [|clear; induction existing; constructor; [apply alike_refl|done]].
      destruct (is_shift a); [by apply merge_shift_alike|apply alike_refl].
    + exists a. split; [left|]. unfold skel. f_equal; [f_equal; [done|lia]|]. apply orb_true_iff in Ep as [Ep%is_shift_spec|Ep]; [|lia].
      destruct Ha as [_ Ha]. rewrite Hs, Ha by congruence. done.
  - specialize (IH (λ b Hb, He b ltac:(by right))). destruct (take_in existing action) as [l|]; [|done]. cbn.
    destruct IH as (Hall & b & Hb & Eb). split; [constructor; [apply alike_refl|done]|]. exists b. split; [by right|done].
Qed.

Lemma addAction_spec row sym action : plain_row row → plain action →
  plain_row (addAction row sym action) ∧
  ∀ x k, row_has (addAction row sym action) x k ↔ row_has row x k ∨ x = sym ∧ k = skel action.
Proof.
  intros Hr Ha. unfold addAction. set (action' := if is_shift action then _ else _).
  assert (alike action' action) as Hal by (unfold action'; destruct (is_shift _); [apply ensure_alike|apply alike_refl]).
  assert (plain action') as Ha' by by eapply alike_plain. destruct Hal as [Esk _]. rewrite <-Esk. clearbody action'. clear Ha Esk.
  assert (∀ a, a ∈ default [] (row !! sym) → plain a) as He.
  { intros a. destruct (row !! sym) as [acts|] eqn:E; cbn; [apply (Hr sym acts E)|by intros ?%elem_of_nil]. }
  pose proof (take_in_spec _ _ He Ha') as Ht. set (l := match take_in _ _ with Some l => l | None => _ end).
  assert ((∀ a, a ∈ l → plain a) ∧ ∀ k, (∃ a, a ∈ l ∧ skel a = k) ↔ (∃ a, a ∈ default [] (row !! sym) ∧ skel a = k) ∨ k = skel action') as [Hl Hk].
  { unfold l. destruct (take_in _ _) as [l'|].
    - destruct Ht as (Hall & b & Hb & Eb). split.
      + intros a (i & Hi)%list_elem_of_lookup_1. destruct (Forall2_lookup_l _ _ _ _ _ Hall Hi) as (c & Hc & Hal). eapply alike_plain; [exact Hal|]. by apply He, list_elem_of_lookup_2 with i.
      + intros k. split.
        * intros (a & (i & Hi)%list_elem_of_lookup_1 & <-). destruct (Forall2_lookup_l _ _ _ _ _ Hall Hi) as (c & Hc & [-> _]). left. exists c. split; [|done]. by apply list_elem_of_lookup_2 with i.
        * assert (∀ c, c ∈ default [] (row !! sym) → ∃ a, a ∈ l' ∧ skel a = skel c) as Hback.
          { intros c (i & Hi)%list_elem_of_lookup_1. destruct (Forall2_lookup_r _ _ _ _ _ Hall Hi) as (a & Ha1 & [E _]). exists a. split; [|done]. by apply list_elem_of_lookup_2 with i. }
          intros [(c & Hc & <-)|E]; [by apply Hback|]. rewrite E, <-Eb. by apply Hback.
    - split.
      + intros a [?|E%list_elem_of_singleton]%elem_of_app; [auto|by subst].
      + intros k. setoid_rewrite elem_of_app. setoid_rewrite list_elem_of_singleton. naive_solver. }
  clearbody l. split.
  - intros x acts. rewrite lookup_insert. case_decide; [|apply Hr]. intros [= <-]. split; [|exact Hl]. intros E.
    destruct (proj2 (Hk (skel action'))) as (a & Hin & _); [by right|]. rewrite E in Hin. by apply elem_of_nil in Hin.
  - intros x k. unfold row_has. setoid_rewrite lookup_insert. case_decide as E.
    + subst x. split.
      * intros (acts & a & [= <-] & Hin & Ek). destruct (proj1 (Hk k)) as [(b & Hb & Eb)|?]; [by exists a| |by right].
        left. destruct (row !! sym) as [acts'|]; cbn in Hb; [|by apply elem_of_nil in Hb]. by exists acts', b.
      * intros Hor. destruct (proj2 (Hk k)) as (a & Hin & Ea); [|by exists l, a]. destruct Hor as [(acts & a & Er & Hin & Ea)|[_ ->]]; [left|by right].
        exists a. by rewrite Er.
    + split; [by left|]. intros [?|[-> _]]; done.
Qed.

Lemma empty_row : plain_row ∅ ∧ ∀ x k, ¬ row_has ∅ x k.
Proof. split; [intros ? ?; by rewrite lookup_empty|]. intros x k (acts & a & E & _). by rewrite lookup_empty in E. Qed.

Lemma fold_actions_spec (action : lrAction) las row : plain_row row → plain action →
  plain_row (foldl (λ row la, addAction row la action) row las) ∧
  ∀ x k, row_has (foldl (λ row la, addAction row la action) row las) x k ↔ row_has row x k ∨ x ∈ las ∧ k = skel action.
Proof.
  intros Hr Ha. revert row Hr. induction las as [|la las IH]; intros row Hr; cbn [foldl].
  { split; [done|]. intros x k. rewrite elem_of_nil. tauto. }
  destruct (addAction_spec row la action Hr Ha) as [Hr' Hk]. destruct (IH _ Hr') as [Hr2 Hk2]. split; [done|].
  intros x k. rewrite Hk2, Hk, elem_of_cons. tauto.
Qed.

(** ** The items of a state *)

Section fill.
Context (ng : NormalizedGrammar) (ts : list lrTransitionRow) (items : list (list coreEntry)).
Hypothesis Hwf : grammar_wf ng.
Hypothesis Hplain : ∀ p, p ∈ Productions ng → prIsExtra p = false.
Hypothesis Hitems : ∀ ces ce, ces ∈ items → ce ∈ ces → ∃ p, zget (Productions ng) (ceProdIdx ce) = Some p ∧ 0 ≤ ceDot ce ≤ len (RHS p).
Hypothesis Htarget : ∀ s X, 0 ≤ X < len (Symbols ng) → ∃ t ok, transitionTarget ts s X = Ret (t, ok).

(** The action that an item calls for. *)
Inductive core_gives (s : Z) (ce : coreEntry) : Z → lrActionKind * Z * Z → Prop :=
| gives_shift p x t : zget (Productions ng) (ceProdIdx ce) = Some p → zget (RHS p) (ceDot ce) = Some x → x < TokenCount ng →
    transitionTarget ts s x = Ret (t, true) → core_gives s ce x (lrShift, t, 0)
| gives_accept p : zget (Productions ng) (ceProdIdx ce) = Some p → ceDot ce = len (RHS p) → ceProdIdx ce = AugmentProdID ng →
    core_gives s ce 0 (lrAccept, 0, 0)
| gives_reduce p x : zget (Productions ng) (ceProdIdx ce) = Some p → ceDot ce = len (RHS p) → ceProdIdx ce ≠ AugmentProdID ng →
    x ∈ forEach 0 (lookaheads ce) → core_gives s ce x (lrReduce, 0, ceProdIdx ce).

Definition core_goto (s : Z) (ce : coreEntry) (B q : Z) : Prop :=
  ∃ p, zget (Productions ng) (ceProdIdx ce) = Some p ∧ zget (RHS p) (ceDot ce) = Some B ∧ TokenCount ng ≤ B ∧ transitionTarget ts s B = Ret (q, true).

(** The row has what the items that are done call for. *)
Record row_inv (s : Z) (done : list coreEntry) (row : actionRow) (gotos : gotoRow) : Prop := {
  rv_plain : plain_row row;
  rv_has : ∀ x k, row_has row x k ↔ ∃ ce, ce ∈ done ∧ core_gives s ce x k;
  rv_goto : ∀ B q, gotos !! B = Some q ↔ ∃ ce, ce ∈ done ∧ core_goto s ce B q }.

Lemma index_prod ces ce : ces ∈ items → ce ∈ ces → ∃ p, index (Productions ng) (ceProdIdx ce) = Ret p ∧
  zget (Productions ng) (ceProdIdx ce) = Some p ∧ 0 ≤ ceDot ce ≤ len (RHS p).
Proof using Hitems. intros H1 H2. destruct (Hitems ces ce H1 H2) as (p & Hp & Hd). exists p. by rewrite index_Ret. Qed.

Lemma completed_wrappers_returns ces set sym l : ces ∈ items → (∀ ce, ce ∈ set → ce ∈ ces) → ∃ l', completed_wrappers ng set sym l = Ret l'.
Proof using Hitems.
  intros Hces. revert l. induction set as [|ce set IH]; intros l Hset; cbn [completed_wrappers]; [by exists l|].
  destruct (index_prod ces ce Hces) as (p & -> & _); [apply Hset; left|]. cbn [mbind go_bind]. case_match; apply IH; intros; apply Hset; by right.
Qed.

Lemma recursive_source_returns ces set lhs : ces ∈ items → (∀ ce, ce ∈ set → ce ∈ ces) → ∃ b, recursive_source ng set lhs = Ret b.
Proof using Hitems.
  intros Hces. induction set as [|ce set IH]; intros Hset; cbn [recursive_source]; [by exists false|].
  destruct (index_prod ces ce Hces) as (p & -> & _); [apply Hset; left|]. cbn [mbind go_bind]. case_match; [by exists true|]. apply IH. intros; apply Hset; by right.
Qed.

Lemma repetition_returns s x t : ∃ l, repetitionShiftHelperLHSSyms ng items s x t = Ret l.
Proof using Hitems.
  unfold repetitionShiftHelperLHSSyms. destruct (zget items s) as [src|] eqn:Es, (zget items t) as [tgt|] eqn:Et; [|by exists []..].
  apply zget_elem in Es, Et. unfold completedRepeatWrapperLHSSymsAcrossTransitions. rewrite andb_false_r.
  destruct (completed_wrappers_returns tgt tgt x [] Et (λ _ H, H)) as (l & ->). cbn [mbind go_bind].
  induction l as [|lhs l (r & IH)]; cbn [recursive_sources]; [by exists []|]. unfold stateHasRecursiveRepeatSource.
  assert (∃ b, (if lhs <? 0 then Ret false else recursive_source ng src lhs) = Ret b) as (b & ->).
  { case_match; [by exists false|]. by apply (recursive_source_returns src). }
  cbn [mbind go_bind]. rewrite IH. cbn. by eexists.
Qed.

Lemma shift_action_plain p dot t l : prIsExtra p = false → plain (shift_action p dot t l) ∧ skel (shift_action p dot t l) = (lrShift, t, 0).
Proof using.
  intros Hp. unfold shift_action. set (a := mkLrAction _ _ _ _ _ _ _ _ _ _ _ _ _ _).
  set (b := if 0 <? dot then _ else _). assert (alike b a) as Hb by (unfold b; by case_match).
  assert (alike (foldl addRepeatLHS b l) a) as Hf by (eapply alike_trans; [apply foldl_alike, addRepeatLHS_alike|done]).
  split; [eapply alike_plain; [exact Hf|done]|]. by destruct Hf as [-> _].
Qed.

Lemma fill_core_spec s ces ce done row gotos : ces ∈ items → ce ∈ ces → row_inv s done row gotos →
  ∃ row' gotos', fill_core ng ts items s ce row gotos = Ret (row', gotos') ∧ row_inv s (done ++ [ce]) row' gotos'.
Proof using Hwf Hplain Hitems Htarget.
  intros Hces Hce [Hr Hh Hg]. destruct (index_prod ces ce Hces Hce) as (p & Hi & Hp & Hd). unfold fill_core. rewrite Hi. cbn [mbind go_bind].
  pose proof (zget_elem _ _ _ Hp) as Hpin. pose proof (Hplain p Hpin) as Hx.
  assert (∀ row' gotos', plain_row row' → (∀ x k, row_has row' x k ↔ row_has row x k ∨ core_gives s ce x k) →
    (∀ B q, gotos' !! B = Some q ↔ gotos !! B = Some q ∨ core_goto s ce B q) → row_inv s (done ++ [ce]) row' gotos') as Hmk.
  { intros row' gotos' Hpl Hh' Hg'. split; [done| |].
    - intros x k. rewrite Hh', Hh. setoid_rewrite elem_of_app. setoid_rewrite list_elem_of_singleton. naive_solver.
    - intros B q. rewrite Hg', Hg. setoid_rewrite elem_of_app. setoid_rewrite list_elem_of_singleton. naive_solver. }
  destruct (Z.ltb_spec (ceDot ce) (len (RHS p))) as [Hlt|Hge].
  - destruct (index_in_range (RHS p) (ceDot ce)) as (X & -> & HX); [lia|]. cbn [mbind go_bind].
    pose proof (gw_rhs _ Hwf p X Hpin (zget_elem _ _ _ HX)) as HXr. destruct (Htarget s X HXr) as (t & ok & Ht). rewrite Ht. cbn [mbind go_bind].
    assert (∀ x k, core_gives s ce x k → x = X ∧ x < TokenCount ng ∧ ok = true ∧ k = (lrShift, t, 0)) as Honly.
    { intros x k [p' x' t' Hp' Hx' Htok Ht'|p' Hp' Hd' _|p' x' Hp' Hd' _ _]; simplify_eq; [|lia|lia]. rewrite Ht in Ht'. by injection Ht' as -> ->. }
    assert (∀ B q, core_goto s ce B q → B = X ∧ TokenCount ng ≤ B ∧ ok = true ∧ q = t) as Hgonly.
    { intros B q (p' & Hp' & HB & Htok & Hq). simplify_eq. rewrite Ht in Hq. by injection Hq as -> ->. }
    destruct ok; cbn [negb].
    + destruct (Z.ltb_spec X (TokenCount ng)) as [Htok|Htok].
      * destruct (repetition_returns s X t) as (l & ->). cbn [mbind go_bind]. destruct (shift_action_plain p (ceDot ce) t l Hx) as [Hpl Hsk].
        destruct (addAction_spec row X _ Hr Hpl) as [Hr' Hh']. eexists _, _. split; [done|]. apply Hmk; [done| |].
        -- intros x k. rewrite Hh', Hsk. split; (intros [?|Hk]; [by left|right]).
           ++ destruct Hk as [-> ->]. by eapply gives_shift.
           ++ by destruct (Honly x k Hk) as (-> & _ & _ & ->).
        -- intros B q. split; [by left|]. intros [?|(-> & ? & _)%Hgonly]; [done|lia].
      * eexists _, _. split; [done|]. apply Hmk; [done| |].
        -- intros x k. split; [by left|]. intros [?|(-> & ? & _)%Honly]; [done|lia].
        -- intros B q. rewrite lookup_insert. case_decide as E.
           ++ subst B. split; [intros [= <-]; right; by exists p|]. intros [Hq|(_ & _ & _ & ->)%Hgonly]; [|done].
              apply Hg in Hq as (ce' & _ & p' & _ & _ & _ & Hq). congruence.
           ++ split; [by left|]. intros [?|(-> & _)%Hgonly]; done.
    + eexists _, _. split; [done|]. apply Hmk; [done| |].
      * intros x k. split; [by left|]. by intros [?|(_ & _ & ? & _)%Honly].
      * intros B q. split; [by left|]. by intros [?|(_ & _ & ? & _)%Hgonly].
  - assert (ceDot ce = len (RHS p)) as Hde by lia.
    assert (∀ B q, ¬ core_goto s ce B q) as Hnog.
    { intros B q (p' & Hp' & HB & _). simplify_eq. apply zget_Some_range in HB. lia. }
    assert (∀ x k, core_gives s ce x k ↔ (ceProdIdx ce = AugmentProdID ng ∧ x = 0 ∧ k = (lrAccept, 0, 0)) ∨
      (ceProdIdx ce ≠ AugmentProdID ng ∧ x ∈ forEach 0 (lookaheads ce) ∧ k = (lrReduce, 0, ceProdIdx ce))) as Hiff.
    { intros x k. split.
      - intros [p' x' t' Hp' Hx' _ _|p' Hp' _ Ha|p' x' Hp' _ Ha Hin]; [|by left|by right]. simplify_eq. apply zget_Some_range in Hx'. lia.
      - intros [(Ha & -> & ->)|(Ha & Hin & ->)]; [by eapply gives_accept|by eapply gives_reduce]. }
    destruct (Z.eqb_spec (ceProdIdx ce) (AugmentProdID ng)) as [Ha|Ha].
    + destruct (addAction_spec row 0 accept_action Hr) as [Hr' Hh']; [done|]. eexists _, _. split; [done|]. apply Hmk; [done| |].
      * intros x k. rewrite Hh', Hiff. change (skel accept_action) with (lrAccept, 0, 0). naive_solver.
      * intros B q. split; [by left|]. by intros [?|[]%Hnog].
    + destruct (fold_actions_spec (reduce_action (ceProdIdx ce) p) (forEach 0 (lookaheads ce)) row Hr) as [Hr' Hh']; [done|].
      eexists _, _. split; [done|]. apply Hmk; [done| |].
      * intros x k. rewrite Hh', Hiff. change (skel (reduce_action (ceProdIdx ce) p)) with (lrReduce, 0, ceProdIdx ce). naive_solver.
      * intros B q. split; [by left|]. by intros [?|[]%Hnog].
Qed.

Lemma fill_cores_spec s ces set done row gotos : ces ∈ items → (∀ ce, ce ∈ set → ce ∈ ces) → row_inv s done row gotos →
  ∃ row' gotos', fill_cores ng ts items s set row gotos = Ret (row', gotos') ∧ row_inv s (done ++ set) row' gotos'.
Proof using Hwf Hplain Hitems Htarget.
  intros Hces. revert done row gotos. induction set as [|ce set IH]; intros done row gotos Hset Hi; cbn [fill_cores].
  { exists row, gotos. by rewrite app_nil_r. }
  destruct (fill_core_spec s ces ce done row gotos Hces) as (row1 & gotos1 & -> & Hi1); [apply Hset; left|done|]. cbn [mbind go_bind].
  destruct (IH (done ++ [ce]) row1 gotos1) as (row' & gotos' & -> & Hi'); [intros; apply Hset; by right|done|].
  exists row', gotos'. rewrite <-app_assoc in Hi'. done.
Qed.

Lemma fill_states_spec s sets A G : (∀ ces, ces ∈ sets → ces ∈ items) →
  ∃ A' G', fill_states ng ts items s sets A G = Ret (A', G') ∧
    (∀ i, i < s ∨ s + len sets ≤ i → A' !! i = A !! i ∧ G' !! i = G !! i) ∧
    ∀ i ces, zget sets i = Some ces → ∃ row gotos, A' !! (s + i) = Some row ∧ G' !! (s + i) = Some gotos ∧ row_inv (s + i) ces row gotos.
Proof using Hwf Hplain Hitems Htarget.
  revert s A G. induction sets as [|ces sets IH]; intros s A G Hsets; cbn [fill_states].
  { exists A, G. split_and!; [done..|]. intros i ces. by rewrite zget_nil. }
  destruct (fill_cores_spec s ces ces [] ∅ ∅) as (row & gotos & -> & Hi); [apply Hsets; left|done| |].
  { destruct empty_row as [He Hno]. split; [done| |].
    - intros x k. split; [by intros []%Hno|]. by intros (ce & ?%elem_of_nil & _).
    - intros B q. rewrite lookup_empty. split; [done|]. by intros (ce & ?%elem_of_nil & _). }
  cbn [mbind go_bind]. edestruct (IH (s + 1)) as (A' & G' & -> & Hlow & Hrows); [intros; apply Hsets; by right|]. exists A', G'. split_and!; [done| |].
  - intros i Hi'. rewrite len_cons in Hi'. pose proof (len_nonneg sets). destruct (Hlow i) as [-> ->]; [lia|]. by rewrite !lookup_insert_ne by lia.
  - intros i ces' Hz. destruct (decide (i = 0)) as [->|].
    + rewrite zget_cons_0 in Hz. injection Hz as <-. rewrite Z.add_0_r. destruct (Hlow s) as [-> ->]; [lia|]. exists row, gotos. by rewrite !lookup_insert_eq.
    + pose proof (zget_Some_range _ _ _ Hz). rewrite zget_cons_ne in Hz by done. replace (s + i) with (s + 1 + (i - 1)) by lia. by apply Hrows.
Qed.
End fill.

(** ** Propagation *)

Lemma each_inv {A S} (I : S → Prop) (f : A → S → go S) l s :
  (∀ x s, x ∈ l → I s → ∃ s', f x s = Ret s' ∧ I s') → I s → ∃ s', each f l s = Ret s' ∧ I s'.
Proof.
  revert s. induction l as [|x l IH]; intros s Hf Hs; cbn [each]; [by exists s|].
  destruct (Hf x s) as (s1 & -> & Hs1); [left|done|]. cbn [mbind go_bind]. apply IH; [|done]. intros y s' Hy. apply Hf. by right.
Qed.

(** The rows differ in metadata only. *)
Definition row_alike (row' row : actionRow) : Prop := ∀ sym, option_Forall2 (Forall2 alike) (row' !! sym) (row !! sym).

Lemma row_alike_refl row : row_alike row row.
Proof. intros sym. destruct (row !! sym) as [l|]; constructor. induction l; constructor; [apply alike_refl|done]. Qed.

Lemma row_alike_trans r1 r2 r3 : row_alike r1 r2 → row_alike r2 r3 → row_alike r1 r3.
Proof.
  assert (∀ l1 l2, Forall2 alike l1 l2 → ∀ l3, Forall2 alike l2 l3 → Forall2 alike l1 l3) as Hl.
  { induction 1 as [|a b l1 l2 Hab _ IH]; intros l3 H23; inversion H23; subst; constructor; [by eapply alike_trans|by apply IH]. }
  intros H1 H2 sym. specialize (H1 sym). specialize (H2 sym). destruct (r1 !! sym), (r2 !! sym), (r3 !! sym); inversion H1; inversion H2; subst; constructor. by eapply Hl.
Qed.

Lemma row_alike_has row' row x k : row_alike row' row → row_has row' x k ↔ row_has row x k.
Proof.
  intros Hr. specialize (Hr x). unfold row_has. destruct (row' !! x) as [l'|], (row !! x) as [l|]; inversion Hr as [? ? Hl|]; subst; [|naive_solver]. split.
  - intros (acts & a & [= <-] & (i & Hi)%list_elem_of_lookup_1 & <-). destruct (Forall2_lookup_l _ _ _ _ _ Hl Hi) as (b & Hb & [-> _]).
    exists l, b. split_and!; [done|by apply list_elem_of_lookup_2 with i|done].
  - intros (acts & a & [= <-] & (i & Hi)%list_elem_of_lookup_1 & <-). destruct (Forall2_lookup_r _ _ _ _ _ Hl Hi) as (b & Hb & [E _]).
    exists l', b. split_and!; [done|by apply list_elem_of_lookup_2 with i|done].
Qed.

Lemma row_alike_plain row' row : row_alike row' row → plain_row row → plain_row row'.
Proof.
  intros Hr Hp sym acts E. specialize (Hr sym). rewrite E in Hr. inversion Hr as [? l Hl El|]; subst. destruct (Hp sym l) as [Hne Hpl]; [done|].
  split; [intros ->; inversion Hl; by subst|]. intros a Ha.
  apply list_elem_of_lookup_1 in Ha as (i & Hi). destruct (Forall2_lookup_l _ _ _ _ _ Hl Hi) as (b & Hb & Hal).
  eapply alike_plain; [exact Hal|]. apply Hpl. by apply list_elem_of_lookup_2 with i.
Qed.

(** A shift to a known target is taken in. *)
Lemma addAction_known row sym action acts a : plain_row row → plain action → row !! sym = Some acts → a ∈ acts →
  laKind action = lrShift → laKind a = lrShift → laState a = laState action → row_alike (addAction row sym action) row.
Proof.
  intros Hr Ha E Hin Hk Hka Hst sym'. unfold addAction. replace (is_shift action) with true by (symmetry; by apply is_shift_spec).
  pose proof (ensure_alike action) as Hal. set (action' := ensureShiftContributors action) in *. assert (plain action') as Hp by by eapply alike_plain.
  destruct Hal as [Esk _]. injection Esk as Ek Es _. rewrite E. change (default [] (Some acts)) with acts. rewrite lookup_insert. case_decide as Hsym; [|apply row_alike_refl].
  subst sym'. rewrite E. constructor. pose proof (take_in_spec acts action' (proj2 (Hr sym acts E)) Hp) as Ht.
  destruct (take_in acts action') as [l|] eqn:El; [by destruct Ht|]. exfalso. clear Ht E Hr Hp.
  induction acts as [|b acts IH]; cbn [take_in] in El; [by apply elem_of_nil in Hin|].
  destruct (bool_decide _ && _ && _) eqn:Et; [done|]. apply elem_of_cons in Hin as [->|Hin].
  - assert (bool_decide (laKind b = laKind action') = true) as Hb1 by (apply bool_decide_eq_true; congruence).
    assert (is_shift b = true) as Hb2 by (by apply is_shift_spec). rewrite Hb1, Hb2 in Et. cbn in Et. rewrite andb_true_r in Et. lia.
  - apply IH; [done|]. by destruct (take_in acts action').
Qed.

Section propagate.
Context (ng : NormalizedGrammar) (items : list (list coreEntry)) (firstSets : list bitset) (nullables : list bool).
Hypothesis Hwf : grammar_wf ng.
Hypothesis Hplain : ∀ p, p ∈ Productions ng → prIsExtra p = false.
Hypothesis Hfirst : len firstSets = len (Symbols ng).

(** The symbols the walk has not seen. *)
Definition unseen (seen : gset Z) : nat := size (list_to_set (seqZ 0 (len (Symbols ng))) ∖ seen).

Lemma walk_calls_returns b cur i : walks_on ng b cur = true → i ∈ prodsByLHS ng cur →
  ∃ prod calls, index (Productions ng) i = Ret prod ∧ walk_calls ng nullables b cur prod = Ret calls.
Proof using.
  intros Hw Hi. pose proof Hi as (prod & Hp & _)%prodsByLHS_elem. exists prod. unfold walk_calls.
  destruct (entryShiftMetadataTransparentWrapper ng cur) eqn:Ht; cbn [negb].
  - destruct (b && repeat_wrapper ng cur); eexists; (split; [by apply index_Ret|done]).
  - unfold walks_on in Hw. rewrite Ht in Hw. cbn in Hw. apply andb_true_iff in Hw as [_ Hw].
    assert (∀ test, all_prods ng test cur = true → test prod = true) as Hall.
    { intros test [_ Hf]%andb_true_iff. rewrite forallb_forall in Hf. apply list_elem_of_In, Hf in Hi. by rewrite Hp in Hi. }
    assert (∃ x l, RHS prod = x :: l) as (x & l & HR).
    { apply orb_true_iff in Hw as [[_ Hw%Hall]%andb_true_iff|[_ Hw%Hall]%andb_true_iff]; destruct (RHS prod); try done; eauto. }
    exists [x]. split; [by apply index_Ret|]. unfold first_symbol. rewrite (proj2 (index_Ret _ 0 x)) by by rewrite HR. done.
Qed.

Lemma lead_walk_returns b fuel cur seen : (unseen seen < fuel)%nat → ∃ seen', lead_walk ng nullables b fuel cur seen = Ret seen' ∧ seen ⊆ seen'.
Proof using.
  clear Hwf Hplain Hfirst. revert cur seen. induction fuel as [|fuel IH]; intros cur seen Hf; [lia|]. cbn [lead_walk].
  destruct (negb _ || _) eqn:E; [by exists seen|]. apply orb_false_iff in E as [Ek Es]. apply negb_false_iff in Ek. apply bool_decide_eq_false in Es.
  destruct (walks_on ng b cur) eqn:Hw; [|exists ({[cur]} ∪ seen); split; [done|set_solver]].
  assert (∀ seen', {[cur]} ∪ seen ⊆ seen' → (unseen seen' < fuel)%nat) as Hless.
  { intros seen' Hsub. unfold unseen in *. enough (size (list_to_set (seqZ 0 (len (Symbols ng))) ∖ seen' : gset Z) < size (list_to_set (seqZ 0 (len (Symbols ng))) ∖ seen : gset Z))%nat by lia.
    apply subset_size. split; [set_solver|]. intros Hback. specialize (Hback cur). unfold known_symbol in Ek.
    assert (cur ∈ (list_to_set (seqZ 0 (len (Symbols ng))) ∖ seen : gset Z)) as Hin.
    { apply elem_of_difference. split; [|done]. apply elem_of_list_to_set, elem_of_seqZ. lia. }
    apply Hback in Hin. set_solver. }
  destruct (each_inv (λ seen', {[cur]} ∪ seen ⊆ seen') (λ i seen0, prod ← index (Productions ng) i; calls ← walk_calls ng nullables b cur prod;
    each (lead_walk ng nullables b fuel) calls seen0) (prodsByLHS ng cur) ({[cur]} ∪ seen)) as (seen' & -> & Hsub); [|done|].
  - intros i seen1 Hi Hsub1. destruct (walk_calls_returns b cur i Hw Hi) as (prod & calls & -> & Hc). cbn [mbind go_bind]. rewrite Hc. cbn [mbind go_bind].
    apply each_inv; [|done]. intros x seen2 _ Hsub2. destruct (IH x seen2 (Hless _ Hsub2)) as (seen3 & -> & Hsub3). exists seen3. split; [done|]. set_solver.
  - exists seen'. split; [done|]. set_solver.
Qed.

Lemma leading_returns sym b : ∃ leading, leadingNonterminalsFrom ng nullables sym b = Ret leading.
Proof using.
  clear Hwf Hplain Hfirst. unfold leadingNonterminalsFrom. case_match; [by eexists|]. destruct (lead_walk_returns b (S (length (Symbols ng))) sym ∅) as (l & -> & _); [|by exists l].
  unfold unseen. apply Nat.lt_succ_r. etrans; [apply subseteq_size; apply subseteq_difference_l; reflexivity|].
  rewrite size_list_to_set by apply NoDup_seqZ. rewrite length_seqZ. unfold len. lia.
Qed.

Lemma entry_action_plain p dot act : prIsExtra p = false → plain (entry_action p dot act) ∧ skel (entry_action p dot act) = (lrShift, laState act, 0).
Proof using. intros Hp. unfold entry_action. by case_match. Qed.

Lemma propagate_actions_spec p dot X la leading idxs row0 row : prIsExtra p = false → plain_row row0 → row_alike row row0 →
  (∀ i, i ∈ idxs → 0 ≤ i < len (default [] (row0 !! la))) →
  ∃ row', propagate_actions p dot X la leading idxs row = Ret row' ∧ row_alike row' row0.
Proof using.
  intros Hp Hr0. revert row. induction idxs as [|i idxs IH]; intros row Hal Hidx; cbn [propagate_actions]; [by exists row|].
  assert (len (default [] (row !! la)) = len (default [] (row0 !! la))) as Hlen.
  { specialize (Hal la). destruct Hal as [l l0 Hl|]; [|done]. cbn. apply Forall2_length in Hl. unfold len. lia. }
  destruct (index_in_range (default [] (row !! la)) i) as (act & -> & Hact); [rewrite Hlen; apply Hidx; left|]. cbn [mbind go_bind].
  apply IH; [|intros; apply Hidx; by right]. destruct (is_shift act && _) eqn:Es; [|done]. apply andb_true_iff in Es as [Es%is_shift_spec _].
  eapply row_alike_trans; [|exact Hal]. destruct (entry_action_plain p dot act Hp) as [Hpl Hsk]. injection Hsk as Hk Hst _.
  destruct (row !! la) as [acts|] eqn:Er; cbn in Hact; [|by rewrite zget_nil in Hact].
  eapply addAction_known; [by eapply row_alike_plain|done|exact Er|by eapply zget_elem|done|done|done].
Qed.

Lemma propagate_core_spec ce row : (∃ p, zget (Productions ng) (ceProdIdx ce) = Some p ∧ 0 ≤ ceDot ce ≤ len (RHS p)) → plain_row row →
  ∃ row', propagate_core ng firstSets nullables ce row = Ret row' ∧ row_alike row' row.
Proof using Hwf Hplain Hfirst.
  intros (p & Hp & Hd) Hr. unfold propagate_core. rewrite (proj2 (index_Ret _ _ _) Hp). cbn [mbind go_bind].
  destruct (Z.leb_spec (len (RHS p)) (ceDot ce)); [exists row; split; [done|apply row_alike_refl]|].
  destruct (index_in_range (RHS p) (ceDot ce)) as (X & -> & HX); [lia|]. cbn [mbind go_bind].
  destruct (X <? TokenCount ng); [exists row; split; [done|apply row_alike_refl]|].
  pose proof (gw_rhs _ Hwf p X (zget_elem _ _ _ Hp) (zget_elem _ _ _ HX)) as HXr.
  destruct (index_in_range firstSets X) as (b & -> & _); [by rewrite Hfirst|]. cbn [mbind go_bind].
  apply (each_inv (λ row', row_alike row' row)); [|apply row_alike_refl].
  intros la row1 _ H1. unfold propagate_token. destruct (leading_returns X (0 <? ceDot ce)) as (leading & ->). cbn [mbind go_bind].
  destruct (propagate_actions_spec p (ceDot ce) X la leading (seqZ 0 (len (default [] (row1 !! la)))) row1 row1) as (row' & -> & H').
  - apply Hplain. by eapply zget_elem.
  - by eapply row_alike_plain.
  - apply row_alike_refl.
  - intros i Hi%elem_of_seqZ. lia.
  - exists row'. split; [done|]. by eapply row_alike_trans.
Qed.

Lemma propagate_states_spec s sets A :
  (∀ ces ce, ces ∈ sets → ce ∈ ces → ∃ p, zget (Productions ng) (ceProdIdx ce) = Some p ∧ 0 ≤ ceDot ce ≤ len (RHS p)) →
  (∀ i, plain_row (default ∅ (A !! i))) →
  ∃ A', propagate_states ng firstSets nullables s sets A = Ret A' ∧ ∀ i, row_alike (default ∅ (A' !! i)) (default ∅ (A !! i)).
Proof using Hwf Hplain Hfirst.
  revert s A. induction sets as [|ces sets IH]; intros s A Hsets Hpl; cbn [propagate_states].
  { exists A. split; [done|]. intros i. apply row_alike_refl. }
  destruct (each_inv (λ row', row_alike row' (default ∅ (A !! s))) (propagate_core ng firstSets nullables) ces (default ∅ (A !! s))) as (row & -> & Hrow); [|apply row_alike_refl|].
  { intros ce row1 Hce H1. destruct (propagate_core_spec ce row1) as (row' & -> & H'); [apply (Hsets ces); [left|done]|by eapply row_alike_plain|].
    exists row'. split; [done|]. by eapply row_alike_trans. }
  cbn [mbind go_bind]. assert (∀ i, row_alike (default ∅ (<[s := row]> A !! i)) (default ∅ (A !! i))) as Hins.
  { intros i. rewrite lookup_insert. case_decide as E; [by subst|apply row_alike_refl]. }
  destruct (IH (s + 1) (<[s := row]> A)) as (A' & -> & HA'); [intros; eapply Hsets; [by right|done]|intros i; by eapply row_alike_plain|].
  exists A'. split; [done|]. intros i. by eapply row_alike_trans.
Qed.
End propagate.
