(* ===== verification/LrParse.v ===== *)
(** * Parsing with LR tables

    The LR machine (LrMinimizeCorrect.v) on an input: tokens are shifted from it, reductions
    look at its first token.  [lr_automaton] states what tables have to say about the
    items of a grammar; from it alone the machine is shown to accept exactly the
    sentences of the grammar, whether or not the tables have conflicts. *)

From Stdlib Require Import ZArith Lia ZifyBool.
From stdpp Require Import base tactics list numbers option relations gmap fin_maps.
From S2P Require Import Prelude LrGrammar LrFirst Lr0 Lr0Closure Lr0Correct LalrSteps LalrSound LalrExact LrMinimize LrMinimizeCorrect.
From S2P Require Import LrTablesCorrect.
Local Open Scope Z_scope.

(** ** The machine on an input *)

Notation config := (list entry * list Z)%type.

Inductive reads_step (prods : list Production) (t : LRTables) : config → config → Prop :=
| reads_shift st x e r st' w : lr_step prods t st (LShift x e r) st' → reads_step prods t (st, x :: w) (st', w)
| reads_reduce st x q st' w : lr_step prods t st (LReduce x q) st' → begins w x → reads_step prods t (st, w) (st', w).

(** The machine can read the whole input and accept at its end. *)
Definition accepts (prods : list Production) (t : LRTables) (w : list Z) : Prop :=
  ∃ st st', rtc (reads_step prods t) (lr_start, w) (st, []) ∧ lr_step prods t st (LAccept 0) st'.

(** ** Derivations of token strings *)

Section derivations.
Context (ng : NormalizedGrammar).

Definition tokens (w : list Z) : Prop := Forall (λ x, 0 ≤ x < TokenCount ng) w.

(** A sequence of symbols and the tokens below it. *)
Inductive yields : list Z → list Z → Prop :=
| yields_nil : yields [] []
| yields_token x u w : 0 ≤ x < TokenCount ng → yields u w → yields (x :: u) (x :: w)
| yields_production p u v w : p ∈ Productions ng → yields (RHS p) v → yields u w → yields (LHS p :: u) (v ++ w).

Lemma yields_tokens u w : yields u w → tokens w.
Proof using. induction 1; [constructor|by constructor|by apply Forall_app]. Qed.

Lemma yields_derives u w : yields u w → derives ng u w.
Proof using.
  induction 1 as [|x u w _ _ IH|p u v w Hp _ IH1 _ IH2]; [constructor| |].
  - apply (derives_app ng [x] [x] u w); [constructor|done].
  - apply (derives_app ng [LHS p] v u w); [|done]. etrans; [by apply derives_production|done].
Qed.

Lemma yields_join u v u' v' : yields u v → yields u' v' → yields (u ++ u') (v ++ v').
Proof using.
  induction 1 as [|x u v Hx _ IH|p u v w Hp Hr _ _ IH]; intros H'; [done| |].
  - cbn. constructor; [done|by apply IH].
  - cbn. rewrite <-app_assoc. constructor; [done..|]. by apply IH.
Qed.

Lemma yields_split u u' w : yields (u ++ u') w → ∃ v v', w = v ++ v' ∧ yields u v ∧ yields u' v'.
Proof using.
  revert w. induction u as [|X u IH]; intros w Hy; [exists [], w; split_and!; [done|constructor|done]|].
  cbn in Hy. inversion Hy as [|x u0 w0 Hx Hu|p u0 v0 w0 Hp Hr Hu]; subst; apply IH in Hu as (v & v' & -> & Hv & Hv').
  - exists (X :: v), v'. split_and!; [done|by constructor|done].
  - exists (v0 ++ v), v'. split_and!; [by rewrite app_assoc|by constructor|done].
Qed.

Lemma tokens_yield w : tokens w → yields w w.
Proof using. induction 1; by constructor. Qed.

Lemma derives_yields u w : tokens w → derives ng u w → yields u w.
Proof using.
  intros Hw Hd. induction Hd as [w|u v w Hs _ IH]; [by apply tokens_yield|]. specialize (IH Hw). destruct Hs as [a p b Hp].
  apply yields_split in IH as (v1 & v' & -> & H1 & (v2 & v3 & -> & H2 & H3)%yields_split).
  apply yields_join; [done|]. by constructor.
Qed.

(** The tokens of the right-hand side of the augmented production. *)
Definition sentence (w : list Z) : Prop :=
  tokens w ∧ ∃ aug, zget (Productions ng) (AugmentProdID ng) = Some aug ∧ derives ng (RHS aug) w.

Lemma sentence_yields w : sentence w ↔ ∃ aug, zget (Productions ng) (AugmentProdID ng) = Some aug ∧ yields (RHS aug) w.
Proof using.
  split; [intros (Hw & aug & Ha & Hd); exists aug; split; [done|by apply derives_yields]|].
  intros (aug & Ha & Hy). split; [by eapply yields_tokens|]. exists aug. split; [done|by apply yields_derives].
Qed.
End derivations.

(** The symbol is on a right-hand side. *)
Definition occurs (ng : NormalizedGrammar) (x : Z) : Prop := ∃ p, p ∈ Productions ng ∧ x ∈ RHS p.

Lemma derives_occurs ng u v x : derives ng u v → x ∈ v → x ∈ u ∨ occurs ng x.
Proof.
  induction 1 as [|u v w Hs _ IH]; [by left|]. intros [Hx|?]%IH; [|by right]. destruct Hs as [a p b Hp]. set_unfold in Hx.
  destruct Hx as [?|[?|?]]; [left; set_solver|right; by exists p|left; set_solver].
Qed.

Lemma lr1_occurs ng g i u : lr1_item ng g i u → u = 0 ∨ occurs ng u.
Proof.
  induction 1 as [|g p d B t q pr u _ IH Hn HB Hq Hl [[_ (w & Hd)]|[_ ->]]|]; [by left| |done|done]. right.
  destruct (derives_occurs ng _ _ u Hd) as [Hu|?]; [left| |done]. unfold after_dot in Hu. cbn in Hu. destruct (zget (Productions ng) p) as [p'|] eqn:Hp; [|by apply elem_of_nil in Hu].
  exists p'. split; [by eapply zget_elem|]. rewrite <-(take_drop (Z.to_nat (d + 1)) (RHS p')). apply elem_of_app. by right.
Qed.

(** ** What the tables promise *)

(** The completed item does what the production says: it pops as much and pushes the
    same symbol. *)
Definition completes_like (ng : NormalizedGrammar) (g : list Z) (p : Production) : Prop :=
  ∃ q' p', zget (Productions ng) q' = Some p' ∧ valid_item ng g (q', len (RHS p')) ∧ LHS p' = LHS p ∧ length (RHS p') = length (RHS p).

(** [at_prefix g s]: the machine is in [s] after the symbols [g].  The tables have at
    least the actions of the LR(1) items, and every action does what an item of the
    prefix says. *)
Record lr_automaton (ng : NormalizedGrammar) (t : LRTables) (at_prefix : list Z → Z → Prop) : Prop := {
  au_start : at_prefix [] 0;
  au_first g : at_prefix g 0 → g = [];
  au_reached s : 0 ≤ s < StateCount t → ∃ g, at_prefix g s;
  au_token g s x k : at_prefix g s → row_has (actions_of t s) x k → x = 0 ∨ occurs ng x;
  au_plain g s : at_prefix g s → plain_row (actions_of t s);
  au_shift g q d u x s : lr1_item ng g (q, d) u → item_next ng (q, d) = Some x → x < TokenCount ng → at_prefix g s →
    ∃ s' r, row_has (actions_of t s) x (lrShift, s', r);
  au_goto g q d u B s : lr1_item ng g (q, d) u → item_next ng (q, d) = Some B → TokenCount ng ≤ B → at_prefix g s →
    is_Some (gotos_of t s !! B);
  au_reduce g q p u s : lr1_item ng g (q, len (RHS p)) u → zget (Productions ng) q = Some p → q ≠ AugmentProdID ng → at_prefix g s →
    ∃ r, row_has (actions_of t s) u (lrReduce, r, q);
  au_accept g p u s : lr1_item ng g (AugmentProdID ng, len (RHS p)) u → zget (Productions ng) (AugmentProdID ng) = Some p → at_prefix g s →
    ∃ r r', row_has (actions_of t s) 0 (lrAccept, r, r');
  au_shifted g s x s' r : at_prefix g s → row_has (actions_of t s) x (lrShift, s', r) → 0 ≤ x < TokenCount ng ∧ at_prefix (g ++ [x]) s';
  au_gone g s B s' : at_prefix g s → gotos_of t s !! B = Some s' → at_prefix (g ++ [B]) s';
  au_reduced g s x r q : at_prefix g s → row_has (actions_of t s) x (lrReduce, r, q) →
    ∃ p, zget (Productions ng) q = Some p ∧ completes_like ng g p;
  au_produced g s x r q p : at_prefix g s → row_has (actions_of t s) x (lrReduce, r, q) → zget (Productions ng) q = Some p → occurs ng (LHS p);
  au_accepted g s x r r' : at_prefix g s → row_has (actions_of t s) x (lrAccept, r, r') →
    ∃ p, zget (Productions ng) (AugmentProdID ng) = Some p ∧ completes_like ng g p }.

Section automaton.
Context (ng : NormalizedGrammar) (Hng : lalr_grammar ng) (Hplain : ∀ p, p ∈ Productions ng → prIsExtra p = false).
Context (t : LRTables) (at_prefix : list Z → Z → Prop) (Ha : lr_automaton ng t at_prefix).

Notation reads := (reads_step (Productions ng) t).

(** A stack spells a prefix. *)
Inductive spells : list Z → list entry → Prop :=
| spells_start : spells [] lr_start
| spells_push g st X s : spells g st → at_prefix (g ++ [X]) s → spells (g ++ [X]) ((s, false) :: st).

Lemma spells_top g st : spells g st → ∃ s st', st = (s, false) :: st' ∧ at_prefix g s.
Proof using Ha. destruct 1 as [|g st X s _ Hs]; [exists 0, []; split; [reflexivity|apply (au_start _ _ _ Ha)]|by exists s, st]. Qed.

Lemma spells_pop g u st : spells (g ++ u) st → ∃ st', pop_children (length u) st = Some st' ∧ spells g st'.
Proof using.
  revert st. induction u as [|X u IH] using rev_ind; intros st Hs; [rewrite app_nil_r in Hs; exists st; by destruct st|].
  rewrite app_assoc in Hs. inversion Hs as [E|g' st1 X' s Hs1 _ E]; [by destruct (g ++ u)|]. apply app_inj_tail in E as [-> ->].
  rewrite length_app, Nat.add_comm. cbn. by apply IH.
Qed.

Lemma has_can g s x k : at_prefix g s → row_has (actions_of t s) x k → ∃ a, can t s x a ∧ skel a = k ∧ laIsExtra a = false.
Proof using Ha. intros Hs (acts & a & E & Hin & Hk). exists a. split_and!; [by exists acts|done|]. by apply (proj2 (au_plain _ _ _ Ha g s Hs x acts E) a). Qed.

(** ** Every sentence is accepted *)

Lemma run_shift g q d u x w st : lr1_item ng g (q, d) u → item_next ng (q, d) = Some x → x < TokenCount ng → spells g st →
  ∃ st', reads (st, x :: w) (st', w) ∧ spells (g ++ [x]) st'.
Proof using Ha.
  intros Hi Hn Hx Hst. destruct (spells_top g st Hst) as (s & st0 & -> & Hs).
  destruct (au_shift _ _ _ Ha g q d u x s Hi Hn Hx Hs) as (s' & r & Hh). destruct (au_shifted _ _ _ Ha g s x s' r Hs Hh) as [_ Hs'].
  destruct (has_can g s x _ Hs Hh) as (a & Hc & Hk & He). injection Hk as Hk Hst' _. exists ((s', false) :: (s, false) :: st0).
  split; [|by constructor]. eapply reads_shift. pose proof (step_shift (Productions ng) t s false st0 x a Hc Hk) as Hl. rewrite He, Hst' in Hl. exact Hl.
Qed.

Lemma run_reduce g q p u B d r w st x : lr1_item ng g (r, d) u → item_next ng (r, d) = Some B → zget (Productions ng) q = Some p → LHS p = B →
  lr1_item ng (g ++ RHS p) (q, len (RHS p)) x → begins w x → spells (g ++ RHS p) st →
  ∃ st', reads (st, w) (st', w) ∧ spells (g ++ [B]) st'.
Proof using Hng Hplain Ha.
  intros Hr Hn Hq HB Hi Hw Hst. subst B. pose proof (zget_elem _ _ _ Hq) as Hp. pose proof (gw_lhs _ (lg_wf _ (la_lr0 _ Hng)) p Hp) as HL.
  assert (q ≠ AugmentProdID ng) as Hne.
  { intros ->. destruct (la_start _ Hng) as (aug & S & Haug & _ & _ & Hno). simplify_eq. unfold item_next in Hn. cbn in Hn.
    destruct (zget (Productions ng) r) as [pr|] eqn:Hpr; [|done]. apply (Hno pr); by eapply zget_elem. }
  destruct (spells_top _ st Hst) as (s & st0 & -> & Hs). destruct (au_reduce _ _ _ Ha _ q p x s Hi Hq Hne Hs) as (r0 & Hh).
  destruct (has_can _ s x _ Hs Hh) as (a & Hc & Hk & He). injection Hk as Hk _ Hpi.
  destruct (spells_pop g (RHS p) _ Hst) as (st1 & Hpop & Hst1). destruct (spells_top g st1 Hst1) as (s1 & st2 & -> & Hs1).
  destruct (au_goto _ _ _ Ha g r d u (LHS p) s1 Hr Hn ltac:(lia) Hs1) as [s2 Hg]. exists ((s2, false) :: (s1, false) :: st2). split.
  - apply (reads_reduce _ _ _ x q); [|done]. rewrite <-Hpi in Hq |- *.
    pose proof (step_reduce (Productions ng) t s false st0 x a p s1 false st2 s2 Hc Hk Hq Hpop Hg) as Hl. by rewrite (Hplain p Hp) in Hl.
  - constructor; [done|]. by eapply au_gone.
Qed.

(** The machine reads the tokens below what follows the dot. *)
Lemma run_yields u w : yields ng u w → ∀ g q d x v st, lr1_item ng g (q, d) x → after_dot ng (q, d) = u → begins v x → spells g st →
  ∃ st', rtc reads (st, w ++ v) (st', v) ∧ spells (g ++ u) st'.
Proof using Hng Hplain Ha.
  assert (∀ q d X u, after_dot ng (q, d) = X :: u → 0 ≤ d → item_next ng (q, d) = Some X ∧ after_dot ng (q, d + 1) = u) as Hnext.
  { intros q d X u' E Hd. unfold after_dot, item_next in *. cbn in *. destruct (zget (Productions ng) q) as [p|]; [|done]. cbn.
    assert (RHS p !! Z.to_nat d = Some X) as Hl by (by rewrite <-(Nat.add_0_r (Z.to_nat d)), <-lookup_drop, E).
    rewrite (drop_S _ _ _ Hl) in E. injection E as E. split; [unfold zget; by replace (0 <=? d) with true by lia|].
    by replace (Z.to_nat (d + 1)) with (S (Z.to_nat d)) by lia. }
  assert (∀ g q d x, lr1_item ng g (q, d) x → 0 ≤ d) as Hdot.
  { intros g q d x (p & _ & _ & _ & _ & ? & _)%lr1_valid%(valid_derives ng Hng). done. }
  induction 1 as [|x0 u w Hx _ IH|p u w1 w2 Hp Hr IH1 Hy IH2]; intros g q d x v st Hi Hu Hv Hst.
  - exists st. rewrite app_nil_r. split; [constructor|done].
  - apply Hnext in Hu as [Hn Hu]; [|by eapply Hdot]. destruct (run_shift g q d x x0 (w ++ v) st Hi Hn ltac:(lia) Hst) as (st1 & Hstep & Hst1).
    destruct (IH (g ++ [x0]) q (d + 1) x v st1) as (st' & Hrun & Hst'); [by constructor|done..|].
    exists st'. split; [by eapply rtc_l|]. by rewrite <-app_assoc in Hst'.
  - apply Hnext in Hu as [Hn Hu]; [|by eapply Hdot]. apply elem_zget in Hp as (pi & _ & Hpi).
    assert (∃ x', begins (w2 ++ v) x' ∧ first_of ng (after_dot ng (q, d + 1)) x x') as (x' & Hb & Hf).
    { rewrite Hu. destruct w2 as [|y w2]; [exists x; split; [done|right; split; [by apply yields_derives|done]]|].
      exists y. split; [done|]. left. pose proof (yields_tokens _ _ _ Hy) as Ht. apply list.Forall_cons_1 in Ht as [? _].
      split; [done|]. exists w2. by apply yields_derives. }
    assert (lr1_item ng g (pi, 0) x') as Hi0.
    { eapply lr1_expand; [exact Hi|exact Hn| |exact Hpi|done|done]. by apply (gw_lhs _ (lg_wf _ (la_lr0 _ Hng)) p), (zget_elem _ pi). }
    destruct (IH1 g pi 0 x' (w2 ++ v) st Hi0 (after_dot_split ng pi p [] (RHS p) Hpi eq_refl) Hb Hst) as (st1 & Hrun1 & Hst1).
    assert (lr1_item ng (g ++ RHS p) (pi, len (RHS p)) x') as Hi1 by (by apply (lr1_along ng g pi x' p (RHS p) []); [..|rewrite app_nil_r]).
    destruct (run_reduce g pi p x (LHS p) d q (w2 ++ v) st1 x' Hi Hn Hpi eq_refl Hi1 Hb Hst1) as (st2 & Hstep & Hst2).
    destruct (IH2 (g ++ [LHS p]) q (d + 1) x v st2) as (st' & Hrun2 & Hst'); [by constructor|done..|].
    exists st'. rewrite <-app_assoc. split; [|by rewrite <-app_assoc in Hst']. etrans; [exact Hrun1|]. by eapply rtc_l.
Qed.

Lemma accepts_sentence w : sentence ng w → accepts (Productions ng) t w.
Proof using Hng Hplain Ha.
  intros (aug & Haug & Hy)%sentence_yields. pose proof (lr1_start ng) as Hi.
  destruct (run_yields _ w Hy [] (AugmentProdID ng) 0 0 [] lr_start Hi) as (st & Hrun & Hst);
    [by apply (after_dot_split ng _ aug [] (RHS aug))|done|constructor|]. rewrite app_nil_r in Hrun.
  assert (lr1_item ng (RHS aug) (AugmentProdID ng, len (RHS aug)) 0) as Hi1 by (by apply (lr1_along ng [] _ 0 aug (RHS aug) []); [..|rewrite app_nil_r]).
  destruct (spells_top _ st Hst) as (s & st0 & -> & Hs). destruct (au_accept _ _ _ Ha _ aug 0 s Hi1 Haug Hs) as (r & r' & Hh).
  destruct (has_can _ s 0 _ Hs Hh) as (a & Hc & Hk & _). injection Hk as Hk _ _. eexists _, _. split; [exact Hrun|]. by apply (step_accept _ _ s false st0 0 a).
Qed.

(** ** Every accepted input is a sentence *)

Lemma valid_back g q d : valid_item ng g (q, d) → ∃ p pre, zget (Productions ng) q = Some p ∧ 0 ≤ d ∧ g = pre ++ take (Z.to_nat d) (RHS p) ∧ valid_item ng pre (q, 0).
Proof using Hng.
  remember (q, d) as i eqn:Ei. intros Hv. revert q d Ei. induction Hv as [|g i B q p Hv IH Hn HB Hq Hl|g r e X Hv IH Hn]; intros q' d [= <- <-].
  - destruct (la_start _ Hng) as (aug & _ & Haug & _). exists aug, []. split_and!; [done|lia|done|constructor].
  - exists p, g. split_and!; [done|lia|by rewrite app_nil_r|by eapply valid_expand].
  - destruct (IH r e eq_refl) as (p & pre & Hr & He & -> & H0). exists p, pre. split_and!; [done|lia| |done].
    unfold item_next in Hn. cbn in Hn. rewrite Hr in Hn. cbn in Hn. apply zget_lookup in Hn as [_ Hn].
    replace (Z.to_nat (e + 1)) with (S (Z.to_nat e)) by lia. rewrite (take_S_r _ _ _ Hn). by rewrite app_assoc.
Qed.

Lemma valid_completed g q p : zget (Productions ng) q = Some p → valid_item ng g (q, len (RHS p)) → ∃ pre, g = pre ++ RHS p ∧ valid_item ng pre (q, 0).
Proof using Hng.
  intros Hq Hv. destruct (valid_back g q _ Hv) as (p' & pre & Hq' & _ & -> & H0). simplify_eq. exists pre.
  unfold len. by rewrite Nat2Z.id, firstn_all.
Qed.

Lemma can_has g s x a : at_prefix g s → can t s x a → row_has (actions_of t s) x (skel a) ∧ laIsExtra a = false.
Proof using Ha. intros Hs (acts & E & Hin). split; [by exists acts, a|]. by apply (proj2 (au_plain _ _ _ Ha g s Hs x acts E) a). Qed.

Lemma reads_sound g c st w st' w' : spells g st → yields ng g c → reads (st, w) (st', w') →
  ∃ g' c', spells g' st' ∧ yields ng g' c' ∧ c' ++ w' = c ++ w.
Proof using Hng Hplain Ha.
  intros Hst Hy Hstep. destruct (spells_top g st Hst) as (s & st0 & -> & Hs).
  inversion Hstep as [? x e r ? ? Hl|? x q ? ? Hl Hb]; subst.
  - inversion Hl as [? ? ? ? a Hc Hk| |]; subst. destruct (can_has g s x a Hs Hc) as [Hh ->]. unfold skel in Hh. rewrite Hk in Hh.
    destruct (au_shifted _ _ _ Ha g s x _ _ Hs Hh) as [Hx Hs']. exists (g ++ [x]), (c ++ [x]). split_and!; [by constructor| |by rewrite <-app_assoc].
    apply yields_join; [done|]. constructor; [done|constructor].
  - inversion Hl as [|? ? ? ? a p q' e' st1 s' Hc Hk Hp Hpop Hg|]; subst. destruct (can_has g s x a Hs Hc) as [Hh _]. unfold skel in Hh. rewrite Hk in Hh.
    destruct (au_reduced _ _ _ Ha g s x _ _ Hs Hh) as (p' & Hp' & q2 & p2 & Hq2 & Hv & HL & HR). simplify_eq. destruct (valid_completed g _ p2 Hq2 Hv) as (pre & -> & _).
    destruct (spells_pop pre (RHS p2) _ Hst) as (st2 & Hpop' & Hst2). rewrite HR, Hpop in Hpop'. injection Hpop' as <-.
    destruct (spells_top pre _ Hst2) as (? & ? & [= <- -> <-] & Hs1). exists (pre ++ [LHS p]), c. rewrite (Hplain p) by by eapply zget_elem.
    split_and!; [constructor; [done|by eapply au_gone]| |done]. apply yields_split in Hy as (c1 & c2 & -> & H1 & H2). apply yields_join; [done|].
    rewrite <-(app_nil_r c2), <-HL. constructor; [by eapply zget_elem|done|constructor].
Qed.

(** Only the augmented production rewrites its symbol. *)
Lemma start_production g q p aug : zget (Productions ng) (AugmentProdID ng) = Some aug → zget (Productions ng) q = Some p →
  valid_item ng g (q, 0) → LHS p = LHS aug → g = [] ∧ q = AugmentProdID ng.
Proof using Hng.
  intros Haug Hq Hv HL. assert (q = AugmentProdID ng) as ->; [|split; [by apply (start_item_prefix ng g Hng)|done]].
  destruct (la_start _ Hng) as (aug' & S & Haug' & _ & _ & Hno). simplify_eq. inversion Hv as [|? [r d] B ? p' _ Hn _ Hq' HB|g0 r d X Hv0 Hn]; subst; [done| |].
  - simplify_eq. unfold item_next in Hn. cbn in Hn. destruct (zget (Productions ng) r) as [pr|] eqn:Hpr; [|done].
    destruct (Hno pr); [by eapply zget_elem|]. rewrite <-HL. by eapply zget_elem.
  - pose proof (valid_back _ _ _ Hv0) as (_ & _ & _ & ? & _). lia.
Qed.

(** Every other completed production rewrites a symbol of a right-hand side. *)
Lemma completed_occurs g q p : zget (Productions ng) q = Some p → q ≠ AugmentProdID ng → valid_item ng g (q, len (RHS p)) → occurs ng (LHS p).
Proof using Hng.
  intros Hq Hne Hv. destruct (valid_completed g q p Hq Hv) as (pre & -> & H0). inversion H0 as [|? [r d] B ? p' _ Hn _ Hq' HB|g0 r d X Hv0 Hn]; subst; [done| |].
  - simplify_eq. unfold item_next in Hn. cbn in Hn. destruct (zget (Productions ng) r) as [pr|] eqn:Hpr; [|done]. exists pr. split; by eapply zget_elem.
  - pose proof (valid_back _ _ _ Hv0) as (_ & _ & _ & ? & _). lia.
Qed.

(** Only the start symbol completes the augmented production. *)
Lemma accept_prefix g aug : zget (Productions ng) (AugmentProdID ng) = Some aug → completes_like ng g aug → g = RHS aug.
Proof using Hng.
  intros Haug (q & p & Hq & Hv & HL & _). destruct (valid_completed g q p Hq Hv) as (pre & -> & H0).
  destruct (start_production pre q p aug Haug Hq H0 HL) as [-> ->]. by simplify_eq.
Qed.

Lemma accepts_sound w : accepts (Productions ng) t w → sentence ng w.
Proof using Hng Hplain Ha.
  intros (st & st' & Hrun & Hacc).
  assert (∀ cf cf', rtc reads cf cf' → ∀ g c, spells g cf.1 → yields ng g c → ∃ g' c', spells g' cf'.1 ∧ yields ng g' c' ∧ c' ++ cf'.2 = c ++ cf.2) as Hinv.
  { induction 1 as [cf|[st1 w1] [st2 w2] cf3 Hs _ IH]; intros g c Hg Hc; [by exists g, c|].
    destruct (reads_sound g c st1 w1 st2 w2 Hg Hc Hs) as (g' & c' & Hg' & Hc' & E). destruct (IH g' c' Hg' Hc') as (g2 & c2 & ? & ? & E2).
    exists g2, c2. split_and!; [done..|]. cbn in *. congruence. }
  destruct (Hinv _ _ Hrun [] []) as (g & c & Hg & Hc & E); [constructor|constructor|]. cbn in E. rewrite app_nil_r in E. subst c.
  apply sentence_yields. cbn in Hg. destruct (spells_top g st Hg) as (s & st0 & -> & Hs). inversion Hacc as [| |? ? ? ? a Hcan Hk]; subst.
  destruct (can_has g s 0 a Hs Hcan) as [Hh _]. unfold skel in Hh. rewrite Hk in Hh. destruct (au_accepted _ _ _ Ha g s 0 _ _ Hs Hh) as (p & Hp & Hl).
  exists p. split; [done|]. by rewrite (accept_prefix g p Hp Hl) in Hc.
Qed.
End automaton.
