(* ===== verification/LrLanguage.v ===== *)
(** * The language of the parse tables

    [buildLRTables] on item sets from [buildItemSetsLALR] (LrTables.v) gives tables
    that are an LR automaton (LrParse.v) of the grammar, and the minimisation of
    states keeps what they accept. *)

From Stdlib Require Import ZArith Lia ZifyBool String.
From stdpp Require Import base tactics list numbers option relations gmap fin_maps.
From S2P Require Import Prelude SliceSort Bitset Partition Regex RegexParse Nfa NfaRule NfaCombined LexDfa LrGrammar LrFirst Digraph Lr0 Lr0Closure Lr0Kernels Lr0Correct Lalr LalrSteps LalrSound LalrExact.
From S2P Require Import RegexParseCorrect LrMinimize LrSignature LrGroups LrMerge LrMinimizeCorrect LrMinimizeRuns LrCompactCore LrTables LrTablesCorrect LrParse.
Local Open Scope Z_scope.

Section build.
Context `{SliceSort} (ng : NormalizedGrammar) (Hng : lalr_grammar ng) (Hplain : ∀ p, p ∈ Productions ng → prIsExtra p = false) (ctx : lr0ctx).
Context (Hsets : sets_inv ng ctx) (Hrows : rows_inv ng (len (lalrLR0ItemSets ctx)) ctx) (Hlen : len (lalrLR0ItemSets ctx) ≤ 2 ^ 32).
Context (items : list (list coreEntry)).
Context (Hmap : map (map (λ e, (ceProdIdx e, ceDot e))) items = map (λ T, map unpacked (cores T)) (lalrLR0ItemSets ctx)).
Context (Hla : ∀ q ces ci e p, zget items q = Some ces → zget ces ci = Some e → zget (Productions ng) (ceProdIdx e) = Some p →
  words_ok (lookaheads e) ∧ ∀ t, mem (lookaheads e) t ↔ ceDot e = len (RHS p) ∧
    ∃ g, lr_walk (transitions ctx) 0 g = Ret (Some q) ∧ lr1_item ng g (ceProdIdx e, ceDot e) t).

Notation sets := (lalrLR0ItemSets ctx).
Notation ts := (transitions ctx).
Notation at_state := (at_state ng ctx).
Notation edge_facts := (edge_facts ng Hng ctx Hsets Hrows Hlen).

Lemma items_len : len items = len sets.
Proof using Hmap. pose proof (f_equal (λ l, len l) Hmap) as E. cbn in E. unfold len in *. rewrite !length_map in E. lia. Qed.

(** The entries of a state are its items. *)
Lemma state_entries s T : zget sets s = Some T → ∃ ces, zget items s = Some ces ∧
  ∀ i, has ng (cores T) i ↔ ∃ ce, ce ∈ ces ∧ (ceProdIdx ce, ceDot ce) = i.
Proof using Hng Hsets Hmap.
  intros HT. pose proof (f_equal (λ l, zget l s) Hmap) as E. cbn in E. rewrite !zget_map, HT in E. cbn in E.
  destruct (zget items s) as [ces|]; [|done]. cbn in E. injection E as E. exists ces. split; [done|]. intros i.
  destruct (li_set _ _ Hsets s T HT) as ([Hok _] & _). split.
  - intros [Hi Hin]. destruct (pack_item ng (la_lr0 _ Hng) i Hi) as [_ Eu]. assert (i ∈ map unpacked (cores T)) as Hin'.
    { rewrite <-Eu. by apply list_elem_of_fmap_2. }
    rewrite <-E in Hin'. apply list_elem_of_fmap in Hin' as (ce & -> & Hce). by exists ce.
  - intros (ce & Hce & <-). assert ((ceProdIdx ce, ceDot ce) ∈ map unpacked (cores T)) as Hin.
    { rewrite <-E. apply list_elem_of_fmap. by exists ce. }
    apply list_elem_of_fmap in Hin as (x & -> & Hx). by apply has_unpacked.
Qed.

Lemma prefix_entries g s : at_state g s → ∃ ces, zget items s = Some ces ∧
  ∀ i, valid_item ng g i ↔ ∃ ce, ce ∈ ces ∧ (ceProdIdx ce, ceDot ce) = i.
Proof using Hng Hsets Hmap.
  intros (T & HT & Hv). destruct (state_entries s T HT) as (ces & Hc & Hi). exists ces. split; [done|]. intros i. by rewrite <-Hv.
Qed.

Lemma items_valid ces ce : ces ∈ items → ce ∈ ces → ∃ p, zget (Productions ng) (ceProdIdx ce) = Some p ∧ 0 ≤ ceDot ce ≤ len (RHS p).
Proof using Hng Hsets Hmap.
  intros (s & Hs & Hz)%elem_zget Hce. rewrite items_len in Hs. destruct (zget_in_range sets s Hs) as [T HT].
  destruct (state_entries s T HT) as (ces' & Hc & Hi). simplify_eq. by apply (proj2 (Hi (ceProdIdx ce, ceDot ce))); [exists ce].
Qed.

Lemma targets_return s X : 0 ≤ X < len (Symbols ng) → ∃ t ok, transitionTarget ts s X = Ret (t, ok).
Proof using Hng Hrows. intros HX. destruct (target_edge ng Hng ctx Hrows s X HX) as (t & ok & E & _). by exists t, ok. Qed.

Lemma target_facts s X q : 0 ≤ X < len (Symbols ng) → transitionTarget ts s X = Ret (q, true) →
  0 ≤ q < len sets ∧ ∀ g, at_state g s → at_state (g ++ [X]) q.
Proof using Hng Hsets Hrows Hlen.
  intros HX Ht. destruct (target_edge ng Hng ctx Hrows s X HX) as (t & ok & E & He). rewrite Ht in E. injection E as <- <-.
  destruct (edge_facts s X q (He eq_refl)) as (_ & Hq & _ & Hat). split; [done|]. intros g Hg. by apply Hat.
Qed.

(** Tables whose rows hold what the items call for. *)
Record filled (t : LRTables) : Prop := {
  fl_count : StateCount t = len sets;
  fl_plain s : plain_row (actions_of t s);
  fl_has s ces x k : zget items s = Some ces → row_has (actions_of t s) x k ↔ ∃ ce, ce ∈ ces ∧ core_gives ng ts s ce x k;
  fl_goto s ces B q : zget items s = Some ces → gotos_of t s !! B = Some q ↔ ∃ ce, ce ∈ ces ∧ core_goto ng ts s ce B q;
  fl_keys s s' ces ces' key : zget items s = Some ces → zget items s' = Some ces' →
    zget (CompactCoreKeys t) s = Some key → zget (CompactCoreKeys t) s' = Some key →
    ∀ ce, ce ∈ ces → ∃ ce', ce' ∈ ces' ∧ similar_items ng (ceProdIdx ce) (ceDot ce) (ceProdIdx ce') (ceDot ce') }.

Section filled.
Context (t : LRTables) (Ht : filled t).

Lemma next_symbol_range ce p X : zget (Productions ng) (ceProdIdx ce) = Some p → zget (RHS p) (ceDot ce) = Some X → 0 ≤ X < len (Symbols ng).
Proof using Hng. intros Hp HX. apply (gw_rhs _ (lg_wf _ (la_lr0 _ Hng)) p); by eapply zget_elem. Qed.

Lemma filled_ok : tables_ok t.
Proof using Hng Hsets Hrows Hlen Hmap Ht.
  intros s Hs. rewrite (fl_count _ Ht) in Hs |- *. rewrite <-items_len in Hs. destruct (zget_in_range items s Hs) as [ces Hz]. split.
  - intros x acts Ea a Hin Hk. destruct (proj1 (fl_has _ Ht s ces x (skel a) Hz)) as (ce & _ & Hgv); [by exists acts, a|]. unfold skel in Hgv. rewrite Hk in Hgv.
    inversion Hgv as [p x' q Hp HX _ Hq| |]; subst. by destruct (target_facts s x _ (next_symbol_range ce p x Hp HX) Hq).
  - intros B q Hg. destruct (proj1 (fl_goto _ Ht s ces B q Hz) Hg) as (ce & _ & p & Hp & HB & _ & Hq).
    by destruct (target_facts s B q (next_symbol_range ce p B Hp HB) Hq).
Qed.

Lemma next_target g q d X s : valid_item ng g (q, d) → item_next ng (q, d) = Some X → at_state g s →
  ∃ ces ce p s', zget items s = Some ces ∧ ce ∈ ces ∧ zget (Productions ng) (ceProdIdx ce) = Some p ∧ zget (RHS p) (ceDot ce) = Some X ∧
    transitionTarget ts s X = Ret (s', true).
Proof using Hng Hsets Hrows Hlen Hmap.
  intros Hv Hn Hs. destruct (prefix_entries g s Hs) as (ces & Hz & Hi). destruct (proj1 (Hi _) Hv) as (ce & Hce & [= <- <-]).
  destruct (next_edge ng Hng ctx Hsets Hrows Hlen g _ X s Hv Hn Hs) as (s' & He & _). pose proof (edge_facts s X s' He) as (_ & _ & HX & _).
  unfold item_next in Hn. cbn in Hn. destruct (zget (Productions ng) (ceProdIdx ce)) as [p|] eqn:Hp; [|done]. exists ces, ce, p, s'.
  split_and!; [done..|]. by apply (target_of_edge ng Hng ctx Hsets Hrows Hlen).
Qed.

(** The entry of a completed item has the lookaheads of the state. *)
Lemma completed_entry g q p s : valid_item ng g (q, len (RHS p)) → zget (Productions ng) q = Some p → at_state g s →
  ∃ ces ce, zget items s = Some ces ∧ ce ∈ ces ∧ ceProdIdx ce = q ∧ ceDot ce = len (RHS p) ∧
    ∀ u, lr1_item ng g (q, len (RHS p)) u → u ∈ forEach 0 (lookaheads ce).
Proof using Hng Hsets Hrows Hlen Hmap Hla.
  intros Hv Hp Hs. destruct (prefix_entries g s Hs) as (ces & Hz & Hi). destruct (proj1 (Hi _) Hv) as (ce & Hce & [= <- Hd]).
  exists ces, ce. split_and!; [done..|]. intros u Hu. apply elem_zget in Hce as (ci & _ & Hci). destruct (Hla s ces ci ce p Hz Hci Hp) as [Hw Hmem].
  destruct (forEach_from (lookaheads ce) 0 Hw ltac:(lia)) as [Hfe _]. apply Hfe. rewrite Z.mul_0_l, Z.sub_0_r. cut (mem (lookaheads ce) u).
  { intros Hm. split; [by apply mem_nonneg in Hm|done]. }
  apply Hmem. split; [done|]. exists g. rewrite Hd. split; [by apply (walk_at_state ng (la_lr0 _ Hng) ctx Hsets Hrows Hlen g s _ Hv)|done].
Qed.

(** The actions of a state are those of its items. *)
Lemma prefix_has g s x k : at_state g s → row_has (actions_of t s) x k → ∃ ces ce, zget items s = Some ces ∧ ce ∈ ces ∧
  valid_item ng g (ceProdIdx ce, ceDot ce) ∧ core_gives ng ts s ce x k.
Proof using Hng Hsets Hmap Ht.
  intros Hs Hh. destruct (prefix_entries g s Hs) as (ces & Hz & Hi). destruct (proj1 (fl_has _ Ht s ces x k Hz) Hh) as (ce & Hce & Hgv).
  exists ces, ce. split_and!; [done|done| |done]. apply Hi. by exists ce.
Qed.

Lemma lookahead_occurs s ces ce p x : zget items s = Some ces → ce ∈ ces → zget (Productions ng) (ceProdIdx ce) = Some p →
  x ∈ forEach 0 (lookaheads ce) → x = 0 ∨ occurs ng x.
Proof using Hla.
  intros Hz (ci & _ & Hci)%elem_zget Hp Hx. destruct (Hla s ces ci ce p Hz Hci Hp) as [Hw Hmem].
  destruct (forEach_from (lookaheads ce) 0 Hw ltac:(lia)) as [Hfe _]. apply Hfe in Hx as [_ Hx]. rewrite Z.mul_0_l, Z.sub_0_r in Hx.
  apply Hmem in Hx as (_ & g & _ & Hi). by apply (lr1_occurs ng g (ceProdIdx ce, ceDot ce)).
Qed.

Lemma filled_automaton : lr_automaton ng t at_state.
Proof using Hng Hsets Hrows Hlen Hmap Hla Ht.
  split.
  - destruct (li_first _ _ Hsets) as (T & HT & Hv). by exists T.
  - intros g (T & HT & Hv). destruct (li_first _ _ Hsets) as (T' & HT' & Hv'). simplify_eq. apply (start_item_prefix ng g Hng), Hv, Hv'. constructor.
  - intros s Hs. rewrite (fl_count _ Ht) in Hs. destruct (state_prefix ng ctx s Hsets Hs) as (g & _ & Hg). by exists g.
  - intros g s x k Hs Hh. destruct (prefix_has g s x k Hs Hh) as (ces & ce & Hz & Hce & Hv & Hgv). destruct Hgv as [p x' q Hp HX _ _|p _ _ _|p x' Hp Hd _ Hin]; [|by left|].
    + right. exists p. split; by eapply zget_elem.
    + by apply (lookahead_occurs s ces ce p).
  - intros g s _. apply (fl_plain _ Ht).
  - intros g q d u x s Hi%lr1_valid Hn Hx Hs. destruct (next_target g q d x s Hi Hn Hs) as (ces & ce & p & s' & Hz & Hce & Hp & HX & Hs').
    exists s', 0. apply (fl_has _ Ht s ces _ _ Hz). exists ce. split; [done|]. by eapply gives_shift.
  - intros g q d u B s Hi%lr1_valid Hn HB Hs. destruct (next_target g q d B s Hi Hn Hs) as (ces & ce & p & s' & Hz & Hce & Hp & HX & Hs').
    exists s'. apply (fl_goto _ Ht s ces _ _ Hz). exists ce. split; [done|]. by exists p.
  - intros g q p u s Hi Hp Hne Hs. destruct (completed_entry g q p s (lr1_valid _ _ _ _ Hi) Hp Hs) as (ces & ce & Hz & Hce & Eq & Hd & Hu).
    specialize (Hu u Hi). clear Hi. subst q. exists 0. apply (fl_has _ Ht s ces _ _ Hz). exists ce. split; [done|]. by eapply gives_reduce.
  - intros g p u s Hi Hp Hs. destruct (completed_entry g _ p s (lr1_valid _ _ _ _ Hi) Hp Hs) as (ces & ce & Hz & Hce & Eq & Hd & _).
    exists 0, 0. apply (fl_has _ Ht s ces _ _ Hz). exists ce. split; [done|]. eapply gives_accept; [by rewrite Eq|done|done].
  - intros g s x s' r Hs Hh. destruct (prefix_has g s x _ Hs Hh) as (_ & ce & _ & _ & _ & Hgv).
    inversion Hgv as [p x' q Hp HX Htok Hq| |]; subst. pose proof (next_symbol_range ce p x Hp HX). split; [lia|]. by apply (target_facts s x s').
  - intros g s B s' Hs Hg. destruct (prefix_entries g s Hs) as (ces & Hz & _). destruct (proj1 (fl_goto _ Ht s ces B s' Hz) Hg) as (ce & Hce & p & Hp & HB & _ & Hq).
    apply (target_facts s B s'); [by eapply next_symbol_range|done|done].
  - intros g s x r q Hs Hh. destruct (prefix_has g s x _ Hs Hh) as (_ & ce & _ & _ & Hv & Hgv).
    inversion Hgv as [| |p x' Hp Hd Hne Hin]; subst. rewrite Hd in Hv. exists p. split; [done|]. by exists (ceProdIdx ce), p.
  - intros g s x r q p Hs Hh Hp. destruct (prefix_has g s x _ Hs Hh) as (_ & ce & _ & _ & Hv & Hgv).
    inversion Hgv as [| |p' x' Hp' Hd Hne Hin]; subst. simplify_eq. rewrite Hd in Hv. by apply (completed_occurs ng Hng g (ceProdIdx ce)).
  - intros g s x r r' Hs Hh. destruct (prefix_has g s x _ Hs Hh) as (_ & ce & _ & _ & Hv & Hgv).
    inversion Hgv as [|p Hp Hd Ea|]; subst. rewrite Hd in Hv. exists p. rewrite <-Ea. split; [done|]. by exists (ceProdIdx ce), p.
Qed.
(** ** Merged states *)

Section merged.
Context (t' : LRTables) (gs : list Z) (k : Z) (ong : option NormalizedGrammar) (ms : gmap Z terminalStartMatcher) (h : Z → Z).
Context (Hstrict : strict_ok t gs k) (Q : quotient t t' (colf gs) ong ms h).

Definition at_merged (g : list Z) (q : Z) : Prop := ∃ s, at_state g s ∧ h s = q.

Lemma state_range g s : at_state g s → 0 ≤ s < StateCount t.
Proof using Ht. intros (T & HT & _). rewrite (fl_count _ Ht). by eapply zget_Some_range. Qed.

(** An action of a state, seen from a state merged with it: the same row, or similar
    items. *)
Lemma twin_action g s s2 x K y r : at_state g s → 0 ≤ s2 < StateCount t → h s2 = h s → row_has (actions_of t s2) x (K, y, r) →
  (∃ y', row_has (actions_of t s) x (K, y', r)) ∨
  ∃ ce ce2, valid_item ng g (ceProdIdx ce, ceDot ce) ∧ core_gives ng ts s2 ce2 x (K, y, r) ∧
    similar_items ng (ceProdIdx ce2) (ceDot ce2) (ceProdIdx ce) (ceDot ce).
Proof using Hng Hsets Hmap Ht Hstrict Q.
  intros Hs Hs2 Eh Hh. pose proof (state_range g s Hs) as Hr. destruct (q_core _ _ _ _ _ _ Q s2 s Hs2 Hr Eh) as [Ec|(_ & key & _ & Hk2 & Hk)].
  - left. destruct (so_stable _ _ _ Hstrict s2 s Hs2 Hr Ec) as [Hrow _]. destruct Hh as (acts & a & Ea & Hin & Hsk). specialize (Hrow x). rewrite Ea in Hrow.
    apply option_Forall2_Some in Hrow as (acts' & Ea' & Hp). assert (act_sig (colf gs) a ∈ map (act_sig (colf gs)) acts') as (a' & E & Hin')%list_elem_of_fmap.
    { unfold acts_agree in Hp. rewrite <-Hp. by apply list_elem_of_fmap_2. }
    pose proof (act_sig_inj _ _ _ _ E) as (Ek & _). pose proof (act_sig_same _ _ _ _ E) as Hf. unfold skel in Hsk. injection Hsk as <- _ <-.
    exists (laState a'), acts', a'. split_and!; [done..|]. unfold skel. rewrite Ek, (sf_prod _ _ Hf). done.
  - right. destruct (prefix_entries g s Hs) as (ces & Hz & Hi). rewrite (fl_count _ Ht), <-items_len in Hs2. destruct (zget_in_range items s2 Hs2) as [ces2 Hz2].
    destruct (proj1 (fl_has _ Ht s2 ces2 x _ Hz2) Hh) as (ce2 & Hce2 & Hgv). destruct (fl_keys _ Ht s2 s ces2 ces key Hz2 Hz Hk2 Hk ce2 Hce2) as (ce & Hce & Hsim).
    exists ce, ce2. split_and!; [apply Hi; by exists ce|done|done].
Qed.

(** An action of the merged tables, in a state that it comes from. *)
Lemma merged_source g q x K y r : at_merged g q → row_has (actions_of t' q) x (K, y, r) →
  ∃ s s2 y2, at_state g s ∧ h s = q ∧ 0 ≤ s2 < StateCount t ∧ h s2 = h s ∧ row_has (actions_of t s2) x (K, y2, r).
Proof using Ht Q.
  intros (s & Hs & <-) (acts' & a' & Ea' & Hin' & Hsk). pose proof (state_range g s Hs) as Hr.
  destruct (q_from _ _ _ _ _ _ Q (h s) x acts' (q_range _ _ _ _ _ _ Q s Hr) Ea') as (s2 & acts & Hs2 & Eh & Ea & ->).
  apply list_elem_of_fmap in Hin' as (a & -> & Hin). exists s, s2, (laState a). split; [done|]. split; [done|]. split; [done|]. split; [done|].
  exists acts, a. split_and!; [done..|]. unfold skel, renamed in *. destruct (laKind a) eqn:Ek; cbn in Hsk; rewrite ?Ek in Hsk; by injection Hsk as <- _ <-.
Qed.

Lemma merged_completes g q x K y r : at_merged g q → row_has (actions_of t' q) x (K, y, r) → K ≠ lrShift →
  ∃ p, completes_like ng g p ∧ match K with lrReduce => zget (Productions ng) r = Some p | _ => zget (Productions ng) (AugmentProdID ng) = Some p end.
Proof using Hng Hsets Hrows Hlen Hmap Hla Ht Hstrict Q.
  intros Hq Hh HK. destruct (merged_source g q x K y r Hq Hh) as (s & s2 & y2 & Hs & _ & Hs2 & Eh & Hh2).
  destruct (twin_action g s s2 x K y2 r Hs Hs2 Eh Hh2) as [(y' & Hh')|(ce & ce2 & Hv & Hgv & Ed & p2 & p & Hp2 & Hp & HL & HR & _)].
  - destruct K; [done| |].
    + destruct (au_reduced _ _ _ filled_automaton g s x y' r Hs Hh') as (p & Hp & Hc). by exists p.
    + destruct (au_accepted _ _ _ filled_automaton g s x y' r Hs Hh') as (p & Hp & Hc). by exists p.
  - assert (ceDot ce2 = len (RHS p2) → completes_like ng g p2) as Hc.
    { intros Hd. exists (ceProdIdx ce), p. split_and!; [done| |done|done]. rewrite <-Ed, Hd in Hv. unfold len in *. by rewrite <-HR. }
    exists p2. inversion Hgv as [|p3 Hp3 Hd Ea|p3 x' Hp3 Hd Hne Hin]; subst; [done|..]; simplify_eq; (split; [by apply Hc|]); [by rewrite <-Ea|done].
Qed.

Lemma merged_shift g q x y r : at_merged g q → row_has (actions_of t' q) x (lrShift, y, r) → 0 ≤ x < TokenCount ng ∧ at_merged (g ++ [x]) y.
Proof using Hng Hsets Hrows Hlen Hmap Hla Ht Hstrict Q.
  intros Hq Hh. destruct (merged_source g q x _ y r Hq Hh) as (s & s2 & y2 & Hs & <- & Hs2 & Eh & Hh2).
  assert (∃ y' r', row_has (actions_of t s) x (lrShift, y', r')) as (y' & r' & Hh').
  { destruct (twin_action g s s2 x _ y2 r Hs Hs2 Eh Hh2) as [(y' & Hh')|(ce & ce2 & Hv & Hgv & Ed & p2 & p & Hp2 & Hp & HL & HR & Hi)]; [eauto|].
    inversion Hgv as [p3 x' y3 Hp3 HX Htok _| |]; subst. simplify_eq. rewrite Hi in HX by lia. rewrite Ed in HX.
    destruct (next_target g _ _ x s Hv) as (ces' & ce' & p' & s' & Hz & Hce & Hp' & HX' & Hs'); [unfold item_next; cbn; by rewrite Hp|done|].
    exists s', 0. apply (fl_has _ Ht s ces' _ _ Hz). exists ce'. split; [done|]. by eapply gives_shift. }
  pose proof (state_range g s Hs) as Hr. destruct Hh as (acts' & a' & Ea' & Hin' & Hsk). destruct Hh' as (acts & a0 & Ea & _).
  destruct (can_backward t t' _ _ _ h Q s x a' Hr) as (a & (acts1 & Ea1 & Hin) & (Ek & _ & _ & Ep & Et)%same_action_spec); [by eexists|by exists acts'|].
  unfold skel in Hsk. injection Hsk as Hk <- _.
  assert (row_has (actions_of t s) x (lrShift, laState a, laProdIdx a)) as Hha by (exists acts1, a; split_and!; [done..|unfold skel; congruence]).
  destruct (au_shifted _ _ _ filled_automaton g s x _ _ Hs Hha) as [Hx Hs']. split; [done|]. exists (laState a). split; [done|]. symmetry. apply Et. congruence.
Qed.

Lemma merged_has g s x K y r : at_state g s → row_has (actions_of t s) x (K, y, r) → ∃ y', row_has (actions_of t' (h s)) x (K, y', r).
Proof using Ht Q.
  intros Hs (acts & a & Ea & Hin & Hsk). pose proof (state_range g s Hs) as Hr.
  destruct (can_forward t t' _ _ _ h Q s x a Hr) as (a' & (acts' & Ea' & Hin') & (Ek & _ & _ & Ep & _)%same_action_spec); [by exists acts|].
  unfold skel in Hsk. injection Hsk as <- _ <-. exists (laState a'), acts', a'. split_and!; [done..|]. unfold skel. congruence.
Qed.

Lemma merged_plain g q : at_merged g q → plain_row (actions_of t' q).
Proof using Ht Q.
  intros (s & Hs & <-) x acts' Ea'. pose proof (state_range g s Hs) as Hr.
  destruct (q_from _ _ _ _ _ _ Q (h s) x acts' (q_range _ _ _ _ _ _ Q s Hr) Ea') as (s2 & acts & _ & _ & Ea & ->).
  destruct (fl_plain _ Ht s2 x acts Ea) as [Hne Hpl]. split; [by destruct acts|]. intros a' (a & -> & Hin)%list_elem_of_fmap. destruct (Hpl a Hin) as [Hx Hp].
  unfold plain, renamed. destruct (laKind a) eqn:Ek; cbn; rewrite ?Ek; auto.
Qed.

Lemma merged_first g : at_merged g 0 → g = [].
Proof using Hng Hsets Hrows Hlen Hmap Hla Ht Hstrict Q.
  intros (s & Hs & Eh). pose proof filled_automaton as Ha. pose proof (state_range g s Hs) as Hr. pose proof (au_start _ _ _ Ha) as H0. pose proof (state_range [] 0 H0) as Hr0.
  destruct (la_start _ Hng) as (aug & S & Haug & HS & HST & _). pose proof (q_start _ _ _ _ _ _ Q) as E0.
  destruct (q_core _ _ _ _ _ _ Q 0 s Hr0 Hr ltac:(congruence)) as [Ec|(_ & key & _ & Hk0 & Hk)].
  - destruct (so_stable _ _ _ Hstrict 0 s Hr0 Hr Ec) as [_ Hgo]. pose proof (lr1_start ng) as Hi. pose proof (item_next_split ng _ aug [] S [] Haug HS) as Hn.
    destruct (au_goto _ _ _ Ha [] _ 0 0 S 0 Hi Hn HST H0) as [f Hf]. specialize (Hgo S). rewrite Hf in Hgo. destruct (gotos_of t s !! S) as [f'|] eqn:Hf'; [|done]. cbn in Hgo. injection Hgo as Ef.
    pose proof (au_gone _ _ _ Ha [] 0 S f H0 Hf) as Hat. pose proof (au_gone _ _ _ Ha g s S f' Hs Hf') as Hat'.
    assert (lr1_item ng [S] (AugmentProdID ng, len (RHS aug)) 0) as Hi1 by (rewrite HS; by apply (lr1_shift ng [] _ 0 S 0)).
    destruct (au_accept _ _ _ Ha [S] aug 0 f Hi1 Haug Hat) as (r & r' & acts & a & Ea & Hin & Hsk). unfold skel in Hsk. injection Hsk as Hk _ _.
    destruct (so_stable _ _ _ Hstrict f f' (state_range _ _ Hat) (state_range _ _ Hat') Ef) as [Hrow _]. specialize (Hrow 0). rewrite Ea in Hrow.
    apply option_Forall2_Some in Hrow as (acts' & Ea' & Hp). assert (act_sig (colf gs) a ∈ map (act_sig (colf gs)) acts') as (a' & E & Hin')%list_elem_of_fmap.
    { unfold acts_agree in Hp. rewrite <-Hp. by apply list_elem_of_fmap_2. }
    pose proof (act_sig_inj _ _ _ _ E) as (Ek & _). destruct (au_accepted _ _ _ Ha (g ++ [S]) f' 0 (laState a') (laProdIdx a') Hat') as (p & Hp' & Hc); [exists acts', a'; split_and!; [done..|]; unfold skel; congruence|].
    rewrite Haug in Hp'. injection Hp' as <-. pose proof (accept_prefix ng Hng (g ++ [S]) aug Haug Hc) as Eg. rewrite HS in Eg. by destruct g as [|? [|]].
  - destruct (prefix_entries [] 0 H0) as (ces0 & Hz0 & Hi0). destruct (prefix_entries g s Hs) as (ces & Hz & Hi).
    destruct (proj1 (Hi0 (AugmentProdID ng, 0))) as (ce0 & Hce0 & [= Ep Ed]); [constructor|].
    destruct (fl_keys _ Ht 0 s ces0 ces key Hz0 Hz Hk0 Hk ce0 Hce0) as (ce & Hce & Ed' & p0 & p & Hp0 & Hp & HL & _).
    rewrite Ep, Haug in Hp0. injection Hp0 as <-. apply (start_production ng Hng g (ceProdIdx ce) p aug); [done|done| |done]. apply Hi. exists ce. split; [done|]. f_equal. lia.
Qed.

Lemma merged_token g q x K y r : at_merged g q → row_has (actions_of t' q) x (K, y, r) → x = 0 ∨ occurs ng x.
Proof using Hng Hsets Hrows Hlen Hmap Hla Ht Hstrict Q.
  intros Hq Hh. destruct (merged_source g q x K y r Hq Hh) as (s & s2 & y2 & _ & _ & Hs2 & _ & Hh2). pose proof filled_automaton as Ha.
  destruct (au_reached _ _ _ Ha s2 Hs2) as (g2 & Hg2). by apply (au_token _ _ _ Ha g2 s2 x _ Hg2 Hh2).
Qed.

Lemma merged_automaton : lr_automaton ng t' at_merged.
Proof using Hng Hsets Hrows Hlen Hmap Hla Ht Hstrict Q.
  pose proof filled_automaton as Ha. split.
  - exists 0. split; [apply (au_start _ _ _ Ha)|apply (q_start _ _ _ _ _ _ Q)].
  - apply merged_first.
  - intros q Hq. destruct (q_onto _ _ _ _ _ _ Q q Hq) as (s & Hs & <-). destruct (au_reached _ _ _ Ha s Hs) as (g & Hg). by exists g, s.
  - intros g q x [[K y] r] Hq Hh. by eapply merged_token.
  - apply merged_plain.
  - intros g q d u x ? Hi Hn Hx (s & Hs & <-). destruct (au_shift _ _ _ Ha g q d u x s Hi Hn Hx Hs) as (s' & r & Hh).
    destruct (merged_has g s x _ _ _ Hs Hh) as (y & Hy). by exists y, r.
  - intros g q d u B ? Hi Hn HB (s & Hs & <-). destruct (au_goto _ _ _ Ha g q d u B s Hi Hn HB Hs) as [s' Hg].
    rewrite (q_goto _ _ _ _ _ _ Q s B (state_range g s Hs)), Hg. by eexists.
  - intros g q p u ? Hi Hp Hne (s & Hs & <-). destruct (au_reduce _ _ _ Ha g q p u s Hi Hp Hne Hs) as (r & Hh). by eapply merged_has.
  - intros g p u ? Hi Hp (s & Hs & <-). destruct (au_accept _ _ _ Ha g p u s Hi Hp Hs) as (r & r' & Hh).
    destruct (merged_has g s 0 _ _ _ Hs Hh) as (y & Hy). by exists y, r'.
  - intros g q x y r Hq Hh. by eapply merged_shift.
  - intros g ? B y (s & Hs & <-) Hg. rewrite (q_goto _ _ _ _ _ _ Q s B (state_range g s Hs)) in Hg. apply fmap_Some in Hg as (s' & Hg & ->).
    exists s'. split; [|done]. by eapply (au_gone _ _ _ Ha).
  - intros g q x y r Hq Hh. destruct (merged_completes g q x _ y r Hq Hh) as (p & Hc & Hp); [done|]. by exists p.
  - intros g q x y r p Hq Hh Hp. destruct (merged_source g q x _ y r Hq Hh) as (s & s2 & y2 & _ & _ & Hs2 & _ & Hh2).
    destruct (au_reached _ _ _ Ha s2 Hs2) as (g2 & Hg2). by apply (au_produced _ _ _ Ha g2 s2 x _ _ _ Hg2 Hh2).
  - intros g q x y r Hq Hh. destruct (merged_completes g q x _ y r Hq Hh) as (p & Hc & Hp); [done|]. by exists p.
Qed.
End merged.
End filled.

(** The loops return such tables. *)
Lemma tables_filled F nullables : len F = len (Symbols ng) →
  ∃ t, (t0 ← fill_tables ng ts items; propagateEntryShiftMetadata ng items F nullables t0) = Ret t ∧ filled t.
Proof using Hng Hplain Hsets Hrows Hlen Hmap.
  intros HF. pose proof (lg_wf _ (la_lr0 _ Hng)) as Hwf. unfold fill_tables.
  assert (∃ keys, (if CompactParseStates ng then buildCompactStateCoreKeys ng items else Ret []) = Ret keys ∧
    ∀ s s' ces ces' key, zget items s = Some ces → zget items s' = Some ces' → zget keys s = Some key → zget keys s' = Some key →
    ∀ ce, ce ∈ ces → ∃ ce', ce' ∈ ces' ∧ similar_items ng (ceProdIdx ce) (ceDot ce) (ceProdIdx ce') (ceDot ce')) as (keys & -> & Hkeys).
  { destruct (CompactParseStates ng); [by apply core_keys_spec; [|apply items_valid]|]. exists []. split; [done|]. intros s s' ces ces' key _ _ Hk. by rewrite zget_nil in Hk. }
  cbn [mbind go_bind].
  destruct (fill_states_spec ng ts items Hwf Hplain items_valid targets_return 0 items ∅ ∅) as (A & G & -> & Hout & Hin); [done|]. cbn [mbind go_bind].
  assert (∀ i, plain_row (default ∅ (A !! i))) as Hpl.
  { intros i. destruct (decide (0 ≤ i < len items)) as [Hi|Hi].
    - destruct (zget_in_range items i Hi) as [ces Hz]. destruct (Hin i ces Hz) as (row & gotos & Hr & _ & Hinv). rewrite Z.add_0_l in Hr. rewrite Hr. apply Hinv.
    - destruct (Hout i) as [-> _]; [lia|]. rewrite lookup_empty. apply empty_row. }
  unfold propagateEntryShiftMetadata. cbn [ActionTable GotoTable].
  destruct (propagate_states_spec ng F nullables Hwf Hplain HF 0 items A items_valid Hpl) as (A' & -> & Hal). cbn [mbind go_bind].
  eexists. split; [done|].
  assert (∀ s ces, zget items s = Some ces → ∃ row gotos, A !! s = Some row ∧ G !! s = Some gotos ∧ row_inv ng ts s ces row gotos) as Hrow by (intros s ces Hz; by apply (Hin s ces)).
  split; unfold actions_of, gotos_of; cbn [StateCount ActionTable GotoTable CompactCoreKeys].
  - apply items_len.
  - intros s. eapply row_alike_plain; [apply Hal|apply Hpl].
  - intros s ces x k Hz. destruct (Hrow s ces Hz) as (row & gotos & Hr & _ & Hinv). rewrite (row_alike_has _ _ x k (Hal s)), Hr. apply (rv_has _ _ _ _ _ _ Hinv).
  - intros s ces B q Hz. destruct (Hrow s ces Hz) as (row & gotos & _ & Hg & Hinv). rewrite Hg. apply (rv_goto _ _ _ _ _ _ Hinv).
  - apply Hkeys.
Qed.
End build.

(** ** The theorems *)

(** The conditions under which the LALR(1) construction is exact.  The grammar is
    well-formed and within the bounds of the packed items ([lalr_grammar]), every
    symbol derives a string of tokens, and no production is an extra.  The LR(0) loop
    has its fuel, the states have 32-bit numbers and the nonterminal transitions fit
    the traversal's counter.  Each of the two passes over a relation meets no cycle or
    ends with closed sets, so that no lookahead is lost. *)
Record exact_build `{SliceSort} (ng : NormalizedGrammar) (fuel : nat) (ctx : lr0ctx) (F : list bitset) (nullables : list bool) (ps : passes) : Prop := {
  eb_grammar : lalr_grammar ng;
  eb_productive : productive ng;
  eb_plain : ∀ p, p ∈ Productions ng → prIsExtra p = false;
  eb_fuel : (2 ^ item_count ng ≤ fuel)%nat;
  eb_lr0 : buildLR0 ng 0 0 (λ _, false) fuel = Ret ctx;
  eb_states : len (lalrLR0ItemSets ctx) < 2 ^ 32;
  eb_transitions : len (nt_transitions ng (transitions ctx)) < infinity;
  eb_first : computeFirstSets ng = Ret (F, nullables);
  eb_passes : lalr_passes ng ctx nullables = Ret ps;
  eb_reads : pass_ok (reads ps) (readSets ps);
  eb_includes : pass_ok (includes ps) (followSets ps) }.

Section theorems.
Context `{SliceSort} (ng : NormalizedGrammar) (fuel : nat) (ctx : lr0ctx) (F : list bitset) (nullables : list bool) (ps : passes).

(** The tables, with the facts about them that the theorems rest on. *)
Lemma built_tables : exact_build ng fuel ctx F nullables ps →
  ∃ t, buildLRTables_lalr ng fuel = Ret (inr t) ∧ tables_ok t ∧ 0 < StateCount t ∧ StateCount t = len (lalrLR0ItemSets ctx) ∧ lr_automaton ng t (at_state ng ctx) ∧
    ∀ t' gs k ong ms h, strict_ok t gs k → quotient t t' (colf gs) ong ms h → lr_automaton ng t' (at_merged ng ctx h).
Proof using.
  intros [Hng Hprod Hplain Hf Hrun Hlen Hcount Hfirst Hps Hok1 Hok2]. pose proof (la_lr0 _ Hng) as Hlr0.
  assert (len (lalrLR0ItemSets ctx) ≤ 2 ^ 32) as Hle by lia.
  destruct (buildLR0_inv ng Hlr0 fuel Hf) as (ctx' & Hrun' & Hs & Hr). rewrite Hrun in Hrun'. injection Hrun' as <-.
  destruct (lalr_items_exact ng fuel ctx F nullables ps) as (items & Hitems & Hmap & Hla); [done..|].
  destruct (computeFirstSets_inv ng (lg_wf _ Hlr0)) as (F' & n' & Hfirst' & _ & _ & HF & _). rewrite Hfirst in Hfirst'. injection Hfirst' as <- <-.
  destruct (tables_filled ng Hng Hplain ctx Hs Hr Hle items Hmap F nullables (fi_len _ _ HF)) as (t & Ht & Hfill). exists t.
  assert (len items = len (lalrLR0ItemSets ctx)) as Eitems by (by apply items_len).
  apply go_bind_ret in Ht as (t0 & Ht0 & Ht).
  unfold buildLRTables_lalr. rewrite Hfirst. cbn [mbind go_bind]. rewrite Hrun. cbn [mbind go_bind]. rewrite Hitems. cbn [mbind go_bind].
  rewrite Eitems. replace (2 ^ 32 - 1 <? len (lalrLR0ItemSets ctx)) with false by lia. rewrite Ht0. cbn [mbind go_bind]. rewrite Ht. cbn [mbind go_bind]. split_and!.
  - by rewrite augment_plain.
  - by eapply filled_ok.
  - rewrite (fl_count _ _ _ _ Hfill). destruct (li_first _ _ Hs) as (T & HT & _). apply zget_Some_range in HT. lia.
  - apply (fl_count _ _ _ _ Hfill).
  - by eapply filled_automaton.
  - intros. by eapply merged_automaton.
Qed.

(** The builder that the code takes. *)
Lemma chosen_builder env r : usesLALR env ng = true → contextTagsEnabled env ng = false → buildLRTables_lalr ng fuel = Ret r → buildLRTables env ng fuel = Ret (Some r).
Proof using. intros Hu Ht Hr. unfold buildLRTables. rewrite Hu, Ht. cbn [negb andb]. by rewrite Hr. Qed.

(** C3.  The LALR(1) tables parse the grammar.  The grammar is one that
    [buildLRTables] hands to [buildItemSetsLALR] without context tags: more than 400
    productions, fewer than 2000 or tags disabled, and no precise external builder.
    It has no productions for extras, every symbol of it derives a string of tokens,
    and the construction loses no lookahead and stays within its widths
    ([exact_build]).  Then [buildLRTables] returns well-formed tables, and the LR
    machine can read an input on them and accept just when the input is a sentence of
    the grammar.  These are the tables before conflicts are resolved: where a cell
    has several actions the machine may take any. *)
Theorem buildLRTables_language env : usesLALR env ng = true → contextTagsEnabled env ng = false → exact_build ng fuel ctx F nullables ps →
  ∃ t, buildLRTables env ng fuel = Ret (Some (inr t)) ∧ tables_ok t ∧ ∀ w, accepts (Productions ng) t w ↔ sentence ng w.
Proof using.
  intros Hu Htags Hb. destruct (built_tables Hb) as (t & Hrun & Hok & _ & _ & Ha & _). exists t. split_and!; [by apply chosen_builder|done|].
  intros w. destruct Hb. split; [by eapply accepts_sound|by eapply accepts_sentence].
Qed.

End theorems.

(** ** Productive symbols *)

(** The left-hand sides whose productions, read from the last to the first, lead to
    tokens. *)
Definition add_productive (T : Z) (p : Production) (known : list Z) : list Z :=
  if forallb (λ x, (0 <=? x) && (x <? T) || int_in x known) (RHS p) then LHS p :: known else known.

Definition productiveb (ng : NormalizedGrammar) : bool :=
  forallb (λ X, int_in X (foldr (add_productive (TokenCount ng)) [] (Productions ng))) (seqZ (TokenCount ng) (len (Symbols ng) - TokenCount ng)).

Lemma int_in_elem x l : int_in x l = true ↔ x ∈ l.
Proof. unfold int_in. rewrite existsb_exists. setoid_rewrite <-list_elem_of_In. split; [by intros (y & ? & ->%Z.eqb_eq)|intros ?; exists x; split; [done|lia]]. Qed.

(** A string whose symbols derive tokens derives tokens. *)
Lemma derives_each ng l : (∀ x, x ∈ l → ∃ w, Forall (λ y, 0 ≤ y < TokenCount ng) w ∧ derives ng [x] w) → ∃ w, Forall (λ y, 0 ≤ y < TokenCount ng) w ∧ derives ng l w.
Proof.
  induction l as [|x l IH]; intros Hl; [exists []; split; [constructor|constructor]|].
  destruct (Hl x ltac:(left)) as (w1 & Hw1 & Hd1). destruct IH as (w2 & Hw2 & Hd2); [intros; apply Hl; by right|].
  exists (w1 ++ w2). split; [by apply Forall_app|]. by apply (derives_app ng [x] w1 l w2).
Qed.

Lemma productiveb_ok ng : productiveb ng = true → productive ng.
Proof.
  intros Hb. assert (∀ ps, (∀ p, p ∈ ps → p ∈ Productions ng) → ∀ X, X ∈ foldr (add_productive (TokenCount ng)) [] ps →
    ∃ w, Forall (λ y, 0 ≤ y < TokenCount ng) w ∧ derives ng [X] w) as Hknown.
  { induction ps as [|p ps IH]; intros Hps X; cbn [foldr]; [by intros ?%elem_of_nil|]. specialize (IH (λ q Hq, Hps q ltac:(by right))). unfold add_productive at 1.
    destruct (forallb _ (RHS p)) eqn:Er; [|by apply IH]. intros [->|HX]%elem_of_cons; [|by apply IH]. rewrite forallb_forall in Er.
    destruct (derives_each ng (RHS p)) as (w & Hw & Hd).
    - intros x Hx. apply list_elem_of_In, Er in Hx. destruct (int_in x _) eqn:Ei; [apply IH; by apply int_in_elem|]. exists [x]. split; [repeat constructor; lia|constructor].
    - exists w. split; [done|]. eapply rtc_l; [|exact Hd]. pose proof (derive ng [] p [] (Hps p ltac:(left))) as Hs. by rewrite app_nil_r in Hs. }
  intros X HX. destruct (Z.ltb_spec X (TokenCount ng)) as [Hlt|Hge]; [exists [X]; split; [repeat constructor; lia|constructor]|].
  unfold productiveb in Hb. rewrite forallb_forall in Hb. apply (Hknown (Productions ng)); [done|]. apply int_in_elem, Hb, list_elem_of_In, elem_of_seqZ. lia.
Qed.

(** ** Checking a grammar *)

(** A run with the sizes of the automaton, and whether the passes are closed. *)
Definition lalr_sizes `{SliceSort} (ng : NormalizedGrammar) (fuel : nat) : option (Z * Z * bool) :=
  match buildLR0 ng 0 0 (λ _, false) fuel, computeFirstSets ng with
  | Ret ctx, Ret (_, nullables) =>
    match lalr_passes ng ctx nullables with
    | Ret ps => Some (len (lalrLR0ItemSets ctx), len (nt_transitions ng (transitions ctx)),
        closed_alongb (reads ps) (readSets ps) && closed_alongb (includes ps) (followSets ps))
    | _ => None
    end
  | _, _ => None
  end.

Definition exact_grammarb (ng : NormalizedGrammar) : bool := lalr_grammarb ng && productiveb ng && forallb (λ p, negb (prIsExtra p)) (Productions ng).

(** A run with little fuel shows that the construction is exact. *)
Lemma exact_build_check `{SliceSort} ng fuel0 fuel n k : exact_grammarb ng = true → lalr_sizes ng fuel0 = Some (n, k, true) → n < 2 ^ 32 → k < infinity →
  (fuel0 ≤ fuel)%nat → (2 ^ item_count ng ≤ fuel)%nat → ∃ ctx F nullables ps, exact_build ng fuel ctx F nullables ps ∧ len (lalrLR0ItemSets ctx) = n.
Proof.
  unfold exact_grammarb, lalr_sizes. rewrite !andb_true_iff, forallb_forall. intros [[Hg Hp] Hx] E Hn Hk Hle Hfuel.
  destruct (buildLR0 ng 0 0 (λ _, false) fuel0) as [ctx| |] eqn:Hrun; [|done..]. destruct (computeFirstSets ng) as [[F nullables]| |] eqn:Hfirst; [|done..].
  destruct (lalr_passes ng ctx nullables) as [ps| |] eqn:Hps; [|done..]. injection E as Hn1 Hn2 [Hc1 Hc2]%andb_true_iff. apply (buildLR0_more _ _ _ _ fuel0 fuel ctx Hle) in Hrun.
  exists ctx, F, nullables, ps. split; [|done]. split; [by apply lalr_grammarb_ok|by apply productiveb_ok| |done|done|lia|by rewrite (eq_trans (eq_refl _) Hn2)|done|done|right; by apply closed_alongb_ok..].
  intros p Hin. apply list_elem_of_In, Hx in Hin. by destruct (prIsExtra p).
Qed.

(** ** A grammar for the LALR builder *)

(** S -> A_i u_i for every i, and A_i -> r_j for every i and j: the next token tells
    which A_i to reduce to.  With blanks as extras; 421 productions. *)
Definition switch_grammar (compact : bool) : NormalizedGrammar :=
  let byte_terminal id b := mkTerminalPattern id (mkRule RuleString [b] [] 0 false) 0 false in
  let twenty := seqZ 0 20 in
  mkNormalizedGrammar
    (replicate 42 (plain_symbol SymbolTerminal) ++ replicate 22 (plain_symbol SymbolNonterminal))
    (plain_production 63 [62] :: map (λ i, plain_production 62 [42 + i; 21 + i]) twenty ++
      concat (map (λ i, map (λ j, plain_production (42 + i) [1 + j]) twenty) twenty))
    (map (λ j, byte_terminal (1 + j) (97 + j)) twenty ++ map (λ i, byte_terminal (21 + i) (65 + i)) twenty ++ [byte_terminal 41 32])
    [41] 0 [] 0 [] false compact.

Definition plain_env : lrEnv := mkLrEnv false false false.

Lemma switch_exact b fuel : (2 ^ item_count (switch_grammar b) ≤ fuel)%nat →
  ∃ ctx F nullables ps, exact_build (switch_grammar b) fuel ctx F nullables ps ∧ len (lalrLR0ItemSets ctx) = 62.
Proof.
  intros Hfuel. apply (exact_build_check _ 100 fuel 62 21); [destruct b; vm_compute; reflexivity|destruct b; vm_compute; reflexivity|lia|reflexivity| |exact Hfuel].
  etrans; [|exact Hfuel]. etrans; [|apply (Nat.pow_le_mono_r 2 7); [lia|apply Nat.leb_le; vm_compute; reflexivity]]. apply Nat.leb_le. reflexivity.
Qed.

Lemma switch_sentence b : sentence (switch_grammar b) [1; 21].
Proof.
  assert (∀ a q p c, zget (Productions (switch_grammar b)) q = Some p → derives (switch_grammar b) (a ++ LHS p :: c) (a ++ RHS p ++ c)) as Hstep.
  { intros a q p c Hp. apply rtc_once, derive. by eapply zget_elem. }
  split; [change (TokenCount (switch_grammar b)) with 42; repeat constructor; lia|]. eexists. split; [reflexivity|].
  etrans; [apply (Hstep [] 1 _ [] eq_refl)|]. apply (Hstep [] 21 _ [21] eq_refl).
Qed.

Lemma buildLRTables_language_witness : ∃ fuel t, buildLRTables plain_env (switch_grammar false) fuel = Ret (Some (inr t)) ∧
  accepts (Productions (switch_grammar false)) t [1; 21].
Proof.
  destruct (switch_exact false (2 ^ item_count (switch_grammar false)) (Nat.le_refl _)) as (ctx & F & nullables & ps & Hb & _).
  destruct (buildLRTables_language (switch_grammar false) (2 ^ item_count (switch_grammar false)) ctx F nullables ps plain_env) as (t & Hrun & _ & Hw); [reflexivity|reflexivity|exact Hb|].
  eexists _, t. split; [exact Hrun|]. apply Hw, switch_sentence.
Defined.

