(* ===== verification/Assemble.v ===== *)
(** * Runtime parse tables from LR tables

    grammargen/assemble.go, [buildParseTables]: actions are grouped into entries,
    every state gets a row of entry numbers and gotos, a state for error recovery is
    put in front, and the rows are written densely or compressed into the arrays that
    the runtime looks up (ParseTables.v). *)

From Stdlib Require Import ZArith Lia ZifyBool String.
From stdpp Require Import base tactics list numbers option gmap fin_maps.
From S2P Require Import Prelude SliceSort ParseTables LrGrammar LrMinimize.
Local Open Scope Z_scope.

(** ** Errors *)

Inductive index_field := ActionGroup | TableCell.
Record indexError := mkIndexError { ieField : index_field; ieValue : Z }.

Definition maxUint16Index : Z := 65535.

Definition checkUint16Index (field : index_field) (value : Z) : option indexError :=
  if maxUint16Index <? value then Some (mkIndexError field value) else None.

(** ** Entries *)

Definition i16 (z : Z) : Z := (z + 2 ^ 15) mod 2 ^ 16 - 2 ^ 15.
Definition bool_byte (b : bool) : Z := if b then 1 else 0.
Definition two_bytes (v : Z) : list Z := [u8 (Z.shiftr v 8); u8 v].

Record action_groups := mkGroups {
  gActions : list ParseActionEntry; gIndex : gmap (list Z) Z; gErr : option indexError }.

Section assemble.
Context `{SliceSort} (ng : NormalizedGrammar).

Definition serialize_action (a : lrAction) : go (list Z) :=
  match laKind a with
  | lrShift => Ret (kind_int lrShift :: bool_byte (laIsExtra a) :: bool_byte (laRepeat a) :: two_bytes (laState a))
  | lrReduce =>
    prod ← index (Productions ng) (laProdIdx a);
    Ret (kind_int lrReduce :: bool_byte (laIsExtra a) :: bool_byte (laRepeat a) :: two_bytes (LHS prod) ++ u8 (len (RHS prod)) ::
         two_bytes (DynPrec prod) ++ two_bytes (ProductionID prod) ++ [bool_byte (prIsExtra prod)])
  | lrAccept => Ret [kind_int lrAccept]
  end.

Definition serializeActions (acts : list lrAction) : go (list Z) :=
  keys ← map_go serialize_action acts;
  Ret (concat keys).

Definition parse_action (a : lrAction) : go ParseAction :=
  match laKind a with
  | lrShift => Ret (mkParseAction ParseActionShift (u32 (laState a)) 0 0 0 0
      (laIsExtra a && (laState a =? 0)) (laIsExtra a && negb (laState a =? 0)) (laRepeat a))
  | lrReduce =>
    prod ← index (Productions ng) (laProdIdx a);
    Ret (mkParseAction ParseActionReduce 0 (u16 (LHS prod)) (u8 (len (RHS prod))) (i16 (DynPrec prod)) (u16 (ProductionID prod))
      (prIsExtra prod) false false)
  | lrAccept => Ret (mkParseAction ParseActionAccept 0 0 0 0 0 false false false)
  end.

(** The first error is kept. *)
Definition getOrAddActionGroup (g : action_groups) (acts : list lrAction) : go (action_groups * Z) :=
  if len acts =? 0 then Ret (g, 0) else
  key ← serializeActions acts;
  match gIndex g !! key with
  | Some idx => Ret (g, u16 idx)
  | None =>
    let idx := len (gActions g) in
    match checkUint16Index ActionGroup idx with
    | Some err => Ret (mkGroups (gActions g) (gIndex g) (Some (default err (gErr g))), 0)
    | None =>
      pas ← map_go parse_action acts;
      Ret (mkGroups (gActions g ++ [mkParseActionEntry false pas]) (<[key := idx]> (gIndex g)) (gErr g), u16 idx)
    end
  end.

(** ** Rows *)

Fixpoint fill_actions (acts : actionRow) (syms : list Z) (row : list Z) (g : action_groups) : go (list Z * action_groups) :=
  match syms with
  | [] => Ret (row, g)
  | sym :: syms =>
    '(g, idx) ← getOrAddActionGroup g (default [] (acts !! sym));
    row ← store row sym idx;
    fill_actions acts syms row g
  end.

Fixpoint fill_extras (extraShiftIdx : Z) (extras : list Z) (row : list Z) : go (list Z) :=
  match extras with
  | [] => Ret row
  | extraSym :: extras =>
    if TokenCount ng <=? extraSym then fill_extras extraShiftIdx extras row else
    v ← index row extraSym;
    row ← if v =? 0 then store row extraSym extraShiftIdx else Ret row;
    fill_extras extraShiftIdx extras row
  end.

Fixpoint fill_gotos (gotos : gotoRow) (syms : list Z) (row : list Z) : go (list Z) :=
  match syms with
  | [] => Ret row
  | sym :: syms =>
    row ← store row sym (u32 (default 0 (gotos !! sym)));
    fill_gotos gotos syms row
  end.

Definition raw_row (t : LRTables) (extraShiftIdx state : Z) (g : action_groups) : go (list Z * action_groups) :=
  let acts := actions_of t state in
  let gotos := gotos_of t state in
  '(row, g) ← fill_actions acts (sort_ints (filter (λ x, x < TokenCount ng) (map_to_list acts).*1)) (make (len (Symbols ng)) 0) g;
  row ← fill_extras extraShiftIdx (ExtraSymbols ng) row;
  row ← fill_gotos gotos (sort_ints (filter (λ x, TokenCount ng ≤ x < len (Symbols ng)) (map_to_list gotos).*1)) row;
  Ret (row, g).

Fixpoint raw_table (t : LRTables) (extraShiftIdx : Z) (states : list Z) (g : action_groups) : go (list (list Z) * action_groups) :=
  match states with
  | [] => Ret ([], g)
  | state :: states =>
    '(row, g) ← raw_row t extraShiftIdx state g;
    '(rows, g) ← raw_table t extraShiftIdx states g;
    Ret (row :: rows, g)
  end.

(** The entry for the error and, with extras, the one that shifts an extra, whose
    index 1 always passes the check. *)
Definition first_entries : action_groups * Z :=
  let error := mkParseActionEntry false [] in
  let extra := mkParseActionEntry false [mkParseAction ParseActionShift 0 0 0 0 0 true false false] in
  if 0 <? len (ExtraSymbols ng) then (mkGroups [error; extra] ∅ None, 1) else (mkGroups [error] ∅ None, 0).

(** ** States renumbered *)

Definition nonZero (row : list Z) : Z := len (filter (λ v, v ≠ 0) row).

Definition dense_threshold (rawTable : list (list Z)) : go Z :=
  let infos := sort_slice (λ a b, b <? a) (map nonZero rawTable) in
  if len infos =? 0 then Ret 1 else
  median ← index infos (len infos / 2);
  Ret (if median + 1 <? 2 then 2 else median + 1).

Fixpoint remap_row (stateRemap : list Z) (sym : Z) (row : list Z) : go (list Z) :=
  match row with
  | [] => Ret []
  | val :: row =>
    v ← if val =? 0 then Ret 0 else if TokenCount ng <=? sym then index stateRemap val else Ret val;
    rest ← remap_row stateRemap (sym + 1) row;
    Ret (v :: rest)
  end.

Definition remap_parse_action (stateRemap : list Z) (a : ParseAction) : ParseAction :=
  if bool_decide (paType a = ParseActionShift) && (negb (paExtra a) || negb (paState a =? 0)) then
    match zget stateRemap (paState a) with
    | Some s => mkParseAction (paType a) (u32 s) (paSymbol a) (paChildCount a) (paDynamicPrecedence a) (paProductionID a)
                  (paExtra a) (paExtraChain a) (paRepetition a)
    | None => a
    end
  else a.
Definition remap_entry (stateRemap : list Z) (e : ParseActionEntry) : ParseActionEntry :=
  mkParseActionEntry (peReusable e) (map (remap_parse_action stateRemap) (peActions e)).

Fixpoint large_prefix (threshold : Z) (rows : list (list Z)) : Z :=
  match rows with
  | [] => 0
  | row :: rows => if threshold <=? nonZero row then 1 + large_prefix threshold rows else 0
  end.

Definition large_states (threshold : Z) (rows : list (list Z)) : Z :=
  let n := large_prefix threshold rows in
  let n := if n <? 2 then 2 else n in
  if len rows <? n then len rows else n.

(** ** The arrays *)

Definition recordLargeGoto (gotos : gmap Z Z) (state sym target : Z) : gmap Z Z :=
  <[largeStateGotoKey (u32 state) (u16 sym) := u32 target]> gotos.

Definition downcastCell (gotos : gmap Z Z) (state sym val : Z) : indexError + gmap Z Z * Z :=
  if val =? 0 then inr (gotos, 0) else
  if (TokenCount ng <=? sym) && (maxUint16Index <? val) then inr (recordLargeGoto gotos state sym val, 0) else
  match checkUint16Index TableCell val with
  | Some err => inl err
  | None => inr (gotos, u16 val)
  end.

Fixpoint downcast_row (gotos : gmap Z Z) (state sym : Z) (row : list Z) : indexError + gmap Z Z * list Z :=
  match row with
  | [] => inr (gotos, [])
  | val :: row =>
    match downcastCell gotos state sym val with
    | inl err => inl err
    | inr (gotos, v) =>
      match downcast_row gotos state (sym + 1) row with
      | inl err => inl err
      | inr (gotos, rest) => inr (gotos, v :: rest)
      end
    end
  end.

Fixpoint dense_rows (gotos : gmap Z Z) (state : Z) (rows : list (list Z)) : indexError + gmap Z Z * list (list Z) :=
  match rows with
  | [] => inr (gotos, [])
  | row :: rows =>
    match downcast_row gotos state 0 row with
    | inl err => inl err
    | inr (gotos, row) =>
      match dense_rows gotos (state + 1) rows with
      | inl err => inl err
      | inr (gotos, rest) => inr (gotos, row :: rest)
      end
    end
  end.

(** The symbols of every value, in the order of the row. *)
Fixpoint group_cells (sym : Z) (cells : list Z) (groups : gmap Z (list Z)) : gmap Z (list Z) :=
  match cells with
  | [] => groups
  | v :: cells =>
    group_cells (sym + 1) cells (if v =? 0 then groups else <[v := default [] (groups !! v) ++ [u16 sym]]> groups)
  end.

Definition group_words (groups : gmap Z (list Z)) (val : Z) : list Z :=
  let syms := sort_ints (default [] (groups !! val)) in
  val :: u16 (len syms) :: syms.

Definition row_words (cells : list Z) : list Z :=
  let groups := group_cells 0 cells ∅ in
  u16 (Z.of_nat (size groups)) :: concat (map (group_words groups) (sort_ints (map_to_list groups).*1)).

Fixpoint small_rows (gotos : gmap Z Z) (state : Z) (rows : list (list Z)) (smallTable smallMap : list Z)
  : indexError + gmap Z Z * (list Z * list Z) :=
  match rows with
  | [] => inr (gotos, (smallTable, smallMap))
  | row :: rows =>
    match downcast_row gotos state 0 row with
    | inl err => inl err
    | inr (gotos, cells) =>
      small_rows gotos (state + 1) rows (smallTable ++ row_words cells) (smallMap ++ [u32 (len smallTable)])
    end
  end.

(** ** The whole of [buildParseTables] *)

(** The lexing modes move up with their states; [zero] is a mode not set. *)
Definition remap_modes {A} (zero : A) (n : Z) (modes : list A) : list A :=
  match modes with
  | [] => make (n + 1) zero
  | m :: _ => m :: take (Z.to_nat n) modes ++ make (n - len modes) zero
  end.

Definition productionIDCount : Z :=
  u32 (foldl (λ m p, if m <? ProductionID p then ProductionID p else m) 0 (Productions ng) + 1).

Definition with_parse_tables (lang : Language) (actions : list ParseActionEntry) (states large : Z) (table : list (list Z)) (small smallMap : list Z)
  (gotos : gmap Z Z) (modes : Z) : Language :=
  mkLanguage (Name lang) (GeneratedByGrammargen lang) (SymbolCount lang) (ParseTables.TokenCount lang) (u32 states) (u32 large) (InitialState lang)
    table small smallMap actions gotos (ParseTables.ExternalSymbols lang) (ExternalLexStates lang) modes.

(** The fields that [assemble] sets before it builds the tables. *)
Definition new_language (name : string) (t : LRTables) : Language :=
  mkLanguage name true (u32 (len (Symbols ng))) (u32 (TokenCount ng)) (u32 (StateCount t)) 0 1 [] [] [] [] ∅ [] [] (StateCount t).

(** The language, its lexing modes and the number of production ids. *)
Definition buildParseTables {A} (zero : A) (lang : Language) (modes : list A) (t : LRTables) : go (indexError + Language * list A * Z) :=
  let '(g, extraShiftIdx) := first_entries in
  '(rawTable, g) ← raw_table t extraShiftIdx (seqZ 0 (StateCount t)) g;
  match gErr g with
  | Some err => Ret (inl err)
  | None =>
    threshold ← dense_threshold rawTable;
    let stateRemap := map (λ i, i + 1) (seqZ 0 (StateCount t)) in
    rows ← map_go (remap_row stateRemap 0) rawTable;
    let rows := make (len (Symbols ng)) 0 :: rows in
    let actions := map (remap_entry stateRemap) (gActions g) in
    let large := large_states threshold rows in
    match dense_rows (LargeStateGotos lang) 0 (take (Z.to_nat large) rows) with
    | inl err => Ret (inl err)
    | inr (gotos, table) =>
      match small_rows gotos large (drop (Z.to_nat large) rows) [] [] with
      | inl err => Ret (inl err)
      | inr (gotos, (small, smallMap)) =>
        let modes := remap_modes zero (StateCount t) modes in
        Ret (inr (with_parse_tables lang actions (len rows) large table small smallMap gotos (len modes), modes, productionIDCount))
      end
    end
  end.
End assemble.
