(* ===== verification/AssembleRows.v ===== *)
(** * The rows of the runtime tables

    Facts about Assemble.v: the bytes of a list of actions determine the runtime
    actions it stands for when the states fit 16 bits, so lists that share an entry
    agree; the row of a state holds the entries of its actions and its gotos.  A row written
    as groups of symbols with one value is found again by the walk over the compressed
    table (ParseTables.v), wherever in the table it stands. *)

From Stdlib Require Import ZArith Lia ZifyBool Sorted.
From stdpp Require Import base tactics list numbers option gmap fin_maps.
From S2P Require Import Prelude SliceSort ParseTables ParseTablesCorrect LrGrammar LrMinimize LrSignature LrGroups LrCompactCore Assemble.
Local Open Scope Z_scope.

(** ** Bytes *)

Lemma two_bytes_inj v w : two_bytes v = two_bytes w → u16 v = u16 w.
Proof.
  unfold two_bytes. intros [= E1 E2]. unfold u8, u16 in *. rewrite !Z.shiftr_div_pow2 in E1 by lia.
  change (2 ^ 8) with 256 in *. change (2 ^ 16) with 65536. Z.div_mod_to_equations. lia.
Qed.

Lemma bool_byte_inj b c : bool_byte b = bool_byte c → b = c.
Proof. by destruct b, c. Qed.

Lemma i16_u16 v w : u16 v = u16 w → i16 v = i16 w.
Proof. unfold u16, i16. intros E. f_equal. by rewrite Z.add_mod, E, <-Z.add_mod. Qed.

Section groups.
Context `{SliceSort} (ng : NormalizedGrammar).

(** An action that the tables can hold. *)
Definition action_fit (a : lrAction) : Prop :=
  (laKind a = lrShift → 0 ≤ laState a < 2 ^ 16) ∧ (laKind a = lrReduce → is_Some (zget (Productions ng) (laProdIdx a))).

Lemma action_returns a : action_fit a → ∃ k pa, serialize_action ng a = Ret k ∧ parse_action ng a = Ret pa ∧ k ≠ [].
Proof using.
  intros [_ Hr]. unfold serialize_action, parse_action. destruct (laKind a); [eexists _, _; done| |eexists _, _; done].
  destruct (Hr eq_refl) as [p Hp]. rewrite (proj2 (index_Ret _ _ _) Hp). eexists _, _. done.
Qed.

(** Where the bytes of one action end, and what they say. *)
Lemma serialize_code a a' k k' r r' : action_fit a → action_fit a' → serialize_action ng a = Ret k → serialize_action ng a' = Ret k' →
  k ++ r = k' ++ r' → parse_action ng a = parse_action ng a' ∧ r = r'.
Proof using.
  intros [Hs Hr] [Hs' Hr']. unfold serialize_action, parse_action.
  destruct (laKind a), (laKind a'); try (destruct (Hr eq_refl) as [p Hp]; rewrite (proj2 (index_Ret _ _ _) Hp)); cbn [mbind go_bind];
    try (destruct (Hr' eq_refl) as [p' Hp']; rewrite (proj2 (index_Ret _ _ _) Hp')); cbn [mbind go_bind]; intros [= <-] [= <-]; try (intros E; discriminate E).
  - intros [= Ee%bool_byte_inj Er%bool_byte_inj E1 E2 ->]. specialize (Hs eq_refl). specialize (Hs' eq_refl).
    assert (u16 (laState a) = u16 (laState a')) as Eu by (apply two_bytes_inj; unfold two_bytes; congruence).
    rewrite !u16_id in Eu by lia. rewrite Ee, Er, Eu. done.
  - intros [= _ _ E1 E2 Ec E3 E4 E5 E6 Ex%bool_byte_inj ->].
    assert (u16 (LHS p) = u16 (LHS p')) as -> by (apply two_bytes_inj; unfold two_bytes; congruence).
    assert (u16 (DynPrec p) = u16 (DynPrec p')) as ->%i16_u16 by (apply two_bytes_inj; unfold two_bytes; congruence).
    assert (u16 (ProductionID p) = u16 (ProductionID p')) as -> by (apply two_bytes_inj; unfold two_bytes; congruence).
    rewrite Ec, Ex. done.
  - by intros [= ->].
Qed.

(** The runtime actions of a list. *)
Lemma list_returns acts : Forall action_fit acts → ∃ key pas, serializeActions ng acts = Ret key ∧ map_go (parse_action ng) acts = Ret pas.
Proof using.
  unfold serializeActions. induction 1 as [|a acts Ha _ (key & pas & Hk & Hp)]; cbn [map_go]; [by eexists _, _|].
  destruct (action_returns a Ha) as (k & pa & -> & -> & _). cbn [mbind go_bind]. destruct (map_go (serialize_action ng) acts) as [ks| |]; [|done..].
  rewrite Hp. cbn. by eexists _, _.
Qed.

Lemma actions_code acts acts' key : Forall action_fit acts → Forall action_fit acts' → serializeActions ng acts = Ret key → serializeActions ng acts' = Ret key →
  map_go (parse_action ng) acts = map_go (parse_action ng) acts'.
Proof using.
  unfold serializeActions. intros Ha. revert acts' key. induction Ha as [|a acts Ha Hacts IH]; intros [|a' acts'] key Ha'; cbn [map_go]; [done|..].
  - apply list.Forall_cons_1 in Ha' as [Ha' Hl']. destruct (action_returns a' Ha') as (k & pa & -> & _ & Hne). cbn [mbind go_bind].
    destruct (map_go _ acts') as [ks| |]; cbn; [|done..]. intros [= <-] [= E]. by destruct k.
  - destruct (action_returns a Ha) as (k & pa & -> & _ & Hne). cbn [mbind go_bind]. destruct (map_go _ acts) as [ks| |]; cbn; [|done..].
    intros [= <-] [= E]. by destruct k.
  - apply list.Forall_cons_1 in Ha' as [Ha' Hl']. destruct (action_returns a Ha) as (k & pa & Hk & Hpa & _). destruct (action_returns a' Ha') as (k' & pa' & Hk' & Hpa' & _).
    rewrite Hk, Hk'. cbn [mbind go_bind]. destruct (map_go (serialize_action ng) acts) as [ks| |] eqn:E1; cbn; [|done..].
    destruct (map_go (serialize_action ng) acts') as [ks'| |] eqn:E2; cbn; [|done..]. intros [= <-] [= E].
    destruct (serialize_code a a' k k' (concat ks) (concat ks') Ha Ha' Hk Hk' (eq_sym E)) as [-> E'].
    by rewrite (IH acts' (concat ks) Hl' eq_refl) by (rewrite E2; cbn; by rewrite E').
Qed.

(** ** Groups *)

(** The entry that a cell names holds the runtime actions. *)
Definition cell_entry (entries : list ParseActionEntry) (idx : Z) (acts : list lrAction) : Prop :=
  match acts with
  | [] => idx = 0
  | _ => 0 < idx ≤ maxUint16Index ∧ ∃ pas, map_go (parse_action ng) acts = Ret pas ∧ zget entries idx = Some (mkParseActionEntry false pas)
  end.

Record groups_inv (g : action_groups) : Prop := {
  gi_first : 0 < len (gActions g);
  gi_index key idx : gIndex g !! key = Some idx → 0 < idx ≤ maxUint16Index ∧ ∃ acts pas, Forall action_fit acts ∧ serializeActions ng acts = Ret key ∧
    map_go (parse_action ng) acts = Ret pas ∧ zget (gActions g) idx = Some (mkParseActionEntry false pas);
  gi_err err : gErr g = Some err → maxUint16Index < ieValue err }.

(** Entries are added at the end; an error stays. *)
Definition grows (g g' : action_groups) : Prop :=
  (∃ more, gActions g' = gActions g ++ more) ∧ (gErr g' = None → gErr g = None).

Lemma groups_grow_refl g : grows g g.
Proof using. split; [exists []; by rewrite app_nil_r|done]. Qed.

Lemma groups_grow_trans g1 g2 g3 : grows g1 g2 → grows g2 g3 → grows g1 g3.
Proof using. intros [[m1 E1] H1] [[m2 E2] H2]. split; [exists (m1 ++ m2); by rewrite E2, E1, app_assoc|auto]. Qed.

Lemma cell_entry_grows g g' idx acts : grows g g' → cell_entry (gActions g) idx acts → cell_entry (gActions g') idx acts.
Proof using.
  intros [[more ->] _]. destruct acts as [|a acts]; [done|]. intros (Hi & pas & Hp & Hz). split; [done|]. exists pas. split; [done|].
  by apply zget_app_Some.
Qed.

Lemma getOrAdd_spec g acts : groups_inv g → Forall action_fit acts →
  ∃ g' idx, getOrAddActionGroup ng g acts = Ret (g', idx) ∧ groups_inv g' ∧ grows g g' ∧ (gErr g' = None → cell_entry (gActions g') idx acts).
Proof using.
  intros Hg Ha. unfold getOrAddActionGroup. destruct (Z.eqb_spec (len acts) 0) as [E0|E0].
  { destruct acts; [|rewrite len_cons in E0; pose proof (len_nonneg acts); lia]. exists g, 0. split_and!; [done|done|apply groups_grow_refl|done]. }
  destruct (list_returns acts Ha) as (key & pas & Hk & Hp). rewrite Hk. cbn [mbind go_bind].
  assert (∀ idx entries, 0 < idx ≤ maxUint16Index → zget entries idx = Some (mkParseActionEntry false pas) → cell_entry entries idx acts) as Hcell.
  { intros idx entries Hi Hz. destruct acts; [done|]. split; [done|]. by exists pas. }
  destruct (gIndex g !! key) as [idx|] eqn:Ei.
  - destruct (gi_index _ Hg key idx Ei) as (Hi & acts' & pas' & Ha' & Hk' & Hp' & Hz). exists g, (u16 idx). split_and!; [done|done|apply groups_grow_refl|].
    intros _. unfold maxUint16Index in *. rewrite u16_id by lia. apply Hcell; [unfold maxUint16Index; lia|].
    rewrite (actions_code acts acts' key Ha Ha' Hk Hk') in Hp. congruence.
  - unfold checkUint16Index. destruct (Z.ltb_spec maxUint16Index (len (gActions g))) as [Hbig|Hok].
    + eexists _, _. split; [done|]. split_and!.
      * destruct Hg as [H1 H2 H3]. split; [done|done|]. cbn. intros err [= <-]. destruct (gErr g) as [e|] eqn:Ee; cbn; [by apply H3|done].
      * split; [exists []; by rewrite app_nil_r|done].
      * done.
    + rewrite Hp. cbn [mbind go_bind]. pose proof (gi_first _ Hg). eexists _, _. split; [done|]. cbn. split_and!.
      * destruct Hg as [H1 H2 H3]. split; cbn; [rewrite len_app; change (len [_]) with 1; lia| |done]. intros key' idx. rewrite lookup_insert. case_decide as E.
        -- intros [= <-]. subst key'. split; [lia|]. exists acts, pas. split_and!; [done..|]. by rewrite zget_app_r, Z.sub_diag by lia.
        -- intros Hi. destruct (H2 key' idx Hi) as (? & acts' & pas' & ? & ? & ? & ?). split; [done|]. exists acts', pas'. split_and!; [done..|]. by apply zget_app_Some.
      * split; [by eexists|done].
      * intros _. unfold maxUint16Index in *. rewrite u16_id by lia. apply Hcell; [unfold maxUint16Index; lia|]. by rewrite zget_app_r, Z.sub_diag by lia.
Qed.
End groups.

(** ** Rows *)

Lemma if_bool_decide_ext {A} (P Q : Prop) `{!Decision P, !Decision Q} (x y : A) : (P ↔ Q) → (if bool_decide P then x else y) = if bool_decide Q then x else y.
Proof. intros E. by rewrite (bool_decide_ext P Q E). Qed.

Section rows.
Context `{SliceSort} (ng : NormalizedGrammar) (t : LRTables).

(** The tables fit the runtime's: symbols and productions exist, the states fit 16
    bits and nothing leads back to the first state. *)
Record rows_fit : Prop := {
  rf_states : 0 ≤ StateCount t < 2 ^ 16;
  rf_symbols : len (Symbols ng) < 2 ^ 16;
  rf_action s x acts : 0 ≤ s < StateCount t → actions_of t s !! x = Some acts → 0 ≤ x ∧ Forall (action_fit ng) acts;
  rf_target s x acts a : 0 ≤ s < StateCount t → actions_of t s !! x = Some acts → a ∈ acts → laKind a = lrShift → 0 ≤ laState a < StateCount t;
  rf_goto s B q : 0 ≤ s < StateCount t → gotos_of t s !! B = Some q → 0 < q < StateCount t;
  rf_extra x : x ∈ ExtraSymbols ng → 0 ≤ x }.

Context (Hfit : rows_fit).
Notation N := (len (Symbols ng)).
Notation T := (TokenCount ng).

Lemma fill_actions_spec acts syms row g : groups_inv ng g → NoDup syms → (∀ x, x ∈ syms → 0 ≤ x < len row) →
  (∀ x l, acts !! x = Some l → Forall (action_fit ng) l) →
  ∃ row' g', fill_actions ng acts syms row g = Ret (row', g') ∧ groups_inv ng g' ∧ grows g g' ∧ len row' = len row ∧
    (∀ x, x ∉ syms → zget row' x = zget row x) ∧
    (gErr g' = None → ∀ x, x ∈ syms → ∃ v, zget row' x = Some v ∧ cell_entry ng (gActions g') v (default [] (acts !! x))).
Proof using.
  clear Hfit. intros Hg Hnd Hr Ha. revert row g Hg Hr. induction Hnd as [|x syms Hx Hnd IH]; intros row g Hg Hr; cbn [fill_actions].
  { exists row, g. split_and!; [done|done|apply groups_grow_refl|done|done|]. by intros _ x ?%elem_of_nil. }
  destruct (getOrAdd_spec ng g (default [] (acts !! x)) Hg) as (g1 & idx & -> & Hg1 & Hgr1 & Hc); [destruct (acts !! x) eqn:E; cbn; [by eapply Ha|constructor]|].
  cbn [mbind go_bind]. assert (0 ≤ x < len row) as Hxr by (apply Hr; left). rewrite store_ok by done. cbn [mbind go_bind].
  destruct (IH (<[Z.to_nat x := idx]> row) g1 Hg1) as (row' & g' & -> & Hg' & Hgr' & Hl & Hout & Hin); [intros y Hy; rewrite len_insert; apply Hr; by right|].
  exists row', g'. rewrite len_insert in Hl. split_and!; [done|done|by eapply groups_grow_trans|done| |].
  - intros y Hy. apply not_elem_of_cons in Hy as [Hne Hy]. rewrite Hout by done. rewrite zget_insert_ne by lia. done.
  - intros He y [->|Hy]%elem_of_cons; [|by apply Hin]. exists idx. rewrite Hout, zget_insert_eq by done. split; [done|].
    eapply cell_entry_grows; [done|]. apply Hc. by apply Hgr'.
Qed.

Lemma fill_extras_spec idx extras row : (∀ x, x ∈ extras → x < T → 0 ≤ x < len row) →
  ∃ row', fill_extras ng idx extras row = Ret row' ∧ len row' = len row ∧
    ∀ x, zget row' x = if bool_decide (x ∈ extras ∧ x < T ∧ zget row x = Some 0) then Some idx else zget row x.
Proof using.
  clear Hfit. revert row. induction extras as [|e extras IH]; intros row Hr; cbn [fill_extras].
  { exists row. split_and!; [done|done|]. intros x. rewrite bool_decide_eq_false_2; [done|]. by intros [?%elem_of_nil _]. }
  destruct (Z.leb_spec T e) as [He|He].
  { destruct (IH row) as (row' & -> & Hl & Hx); [intros x Hx; apply Hr; by right|]. exists row'. split_and!; [done|done|]. intros x. rewrite Hx.
    apply if_bool_decide_ext. rewrite elem_of_cons. split; [naive_solver|]. intros ([->|?] & ? & ?); [lia|done]. }
  assert (0 ≤ e < len row) as Her by (apply Hr; [left|done]). destruct (index_in_range row e Her) as (v & -> & Hv). cbn [mbind go_bind].
  destruct (Z.eqb_spec v 0) as [->|Hv0].
  - rewrite store_ok by done. cbn [mbind go_bind]. destruct (IH (<[Z.to_nat e := idx]> row)) as (row' & -> & Hl & Hx); [intros x Hx; rewrite len_insert; apply Hr; by right|].
    rewrite len_insert in Hl. exists row'. split_and!; [done|done|]. intros x. rewrite Hx. destruct (decide (x = e)) as [->|Hne].
    + rewrite zget_insert_eq by done. rewrite (bool_decide_eq_true_2 (e ∈ e :: extras ∧ _)) by (split_and!; [left|done|done]). by case_bool_decide.
    + rewrite zget_insert_ne by lia. apply if_bool_decide_ext. rewrite elem_of_cons. naive_solver.
  - cbn [mbind go_bind]. destruct (IH row) as (row' & -> & Hl & Hx); [intros x Hx; apply Hr; by right|]. exists row'. split_and!; [done|done|]. intros x. rewrite Hx.
    apply if_bool_decide_ext. rewrite elem_of_cons. split; [naive_solver|]. intros ([->|?] & ? & ?); [congruence|done].
Qed.

Lemma fill_gotos_spec gotos syms row : NoDup syms → (∀ x, x ∈ syms → 0 ≤ x < len row) →
  ∃ row', fill_gotos gotos syms row = Ret row' ∧ len row' = len row ∧
    ∀ x, zget row' x = if bool_decide (x ∈ syms) then Some (u32 (default 0 (gotos !! x))) else zget row x.
Proof using.
  clear Hfit. intros Hnd. revert row. induction Hnd as [|e syms He Hnd IH]; intros row Hr; cbn [fill_gotos]; [by exists row|].
  assert (0 ≤ e < len row) as Her by (apply Hr; left). rewrite store_ok by done. cbn [mbind go_bind].
  destruct (IH (<[Z.to_nat e := u32 (default 0 (gotos !! e))]> row)) as (row' & -> & Hl & Hx); [intros x Hx; rewrite len_insert; apply Hr; by right|].
  rewrite len_insert in Hl. exists row'. split_and!; [done|done|]. intros x. rewrite Hx. destruct (decide (x = e)) as [->|Hne].
  - rewrite zget_insert_eq, (bool_decide_eq_true_2 (e ∈ e :: syms)) by (done || left). by case_bool_decide.
  - rewrite zget_insert_ne by lia. apply if_bool_decide_ext. rewrite elem_of_cons. naive_solver.
Qed.

(** What a cell of a state holds. *)
Definition token_cell (entries : list ParseActionEntry) (extraIdx s x v : Z) : Prop :=
  match default [] (actions_of t s !! x) with
  | [] => v = if bool_decide (x ∈ ExtraSymbols ng) then extraIdx else 0
  | acts => cell_entry ng entries v acts
  end.

Record row_ok (entries : list ParseActionEntry) (extraIdx s : Z) (row : list Z) : Prop := {
  ro_len : len row = N;
  ro_token x : 0 ≤ x < T → ∃ v, zget row x = Some v ∧ token_cell entries extraIdx s x v;
  ro_goto B : T ≤ B < N → zget row B = Some (default 0 (gotos_of t s !! B)) }.

Lemma keys_spec {A} (m : gmap Z A) (P : Z → Prop) `{∀ x, Decision (P x)} x :
  x ∈ sort_ints (filter P (map_to_list m).*1) ↔ P x ∧ is_Some (m !! x).
Proof using.
  rewrite sort_ints_elem, list_elem_of_filter, list_elem_of_fmap. split.
  - intros [HP ([y a] & -> & Hin%elem_of_map_to_list)]. split; [done|by exists a].
  - intros [HP [a Ha]]. split; [done|]. exists (x, a). split; [done|]. by apply elem_of_map_to_list.
Qed.

Lemma keys_NoDup {A} (m : gmap Z A) (P : Z → Prop) `{∀ x, Decision (P x)} : NoDup (sort_ints (filter P (map_to_list m).*1)).
Proof using. rewrite sort_ints_perm. apply NoDup_filter, NoDup_fst_map_to_list. Qed.

Lemma raw_row_spec idx s g : groups_inv ng g → 0 ≤ s < StateCount t →
  ∃ row g', raw_row ng t idx s g = Ret (row, g') ∧ groups_inv ng g' ∧ grows g g' ∧ (gErr g' = None → row_ok (gActions g') idx s row).
Proof using Hfit.
  intros Hg Hs. pose proof (TokenCount_range ng) as HT. unfold raw_row.
  destruct (fill_actions_spec (actions_of t s) (sort_ints (filter (λ x, x < T) (map_to_list (actions_of t s)).*1)) (make N 0) g Hg)
    as (row1 & g' & -> & Hg' & Hgr & Hl1 & Hout & Hin).
  { apply keys_NoDup. }
  { intros x [Hx [acts Ea]]%keys_spec. destruct (rf_action Hfit s x acts Hs Ea) as [H0 _]. rewrite len_make by lia. lia. }
  { intros x l Hx. by apply (rf_action Hfit s x l Hs). }
  rewrite len_make in Hl1 by lia. cbn [mbind go_bind].
  destruct (fill_extras_spec idx (ExtraSymbols ng) row1) as (row2 & -> & Hl2 & Hx2); [intros x Hx ?; pose proof (rf_extra Hfit x Hx); lia|]. cbn [mbind go_bind].
  destruct (fill_gotos_spec (gotos_of t s) (sort_ints (filter (λ x, T ≤ x < N) (map_to_list (gotos_of t s)).*1)) row2) as (row3 & -> & Hl3 & Hx3).
  { apply keys_NoDup. }
  { intros x [Hx _]%keys_spec. lia. }
  cbn [mbind go_bind]. exists row3, g'. split_and!; [done..|]. intros He. split; [congruence| |].
  - intros x Hx. rewrite Hx3, bool_decide_eq_false_2 by (rewrite keys_spec; lia). rewrite Hx2. unfold token_cell.
    destruct (actions_of t s !! x) as [acts|] eqn:Ea.
    + destruct (Hin He x) as (v & Hv & Hc); [apply keys_spec; split; [lia|by exists acts]|]. rewrite Ea in Hc. cbn [default from_option id] in *. rewrite Hv.
      destruct acts as [|a acts].
      * cbn in Hc. subst v. case_bool_decide as Hd; (eexists; split; [done|]); case_bool_decide; try done; [by destruct Hd|]. destruct Hd. split_and!; [done|lia|done].
      * destruct Hc as [Hpos Hrest]. rewrite bool_decide_eq_false_2 by (intros (_ & _ & [= ->]); lia). exists v. done.
    + cbn [default from_option id]. rewrite Hout by (rewrite keys_spec, Ea; intros [_ [? ?]]; done). rewrite zget_make by lia.
      case_bool_decide as Hd; (eexists; split; [done|]); case_bool_decide; try done; [by destruct Hd|]. destruct Hd. split_and!; [done|lia|done].
  - intros B HB. rewrite Hx3. destruct (gotos_of t s !! B) as [q|] eqn:Eq.
    + rewrite bool_decide_eq_true_2 by (rewrite keys_spec; split; [lia|by exists q]). cbn. pose proof (rf_goto Hfit s B q Hs Eq). pose proof (rf_states Hfit). rewrite u32_id by lia. done.
    + rewrite bool_decide_eq_false_2 by (rewrite keys_spec, Eq; intros [_ [? ?]]; done). cbn. rewrite Hx2, bool_decide_eq_false_2 by (intros (_ & ? & _); lia).
      rewrite Hout by (rewrite keys_spec; lia). apply zget_make. lia.
Qed.

Lemma row_ok_grows g g' idx s row : grows g g' → row_ok (gActions g) idx s row → row_ok (gActions g') idx s row.
Proof using.
  intros Hgr [H1 H2 H3]. split; [done| |done]. intros x Hx. destruct (H2 x Hx) as (v & Hv & Hc). exists v. split; [done|]. unfold token_cell in *.
  destruct (default [] _); [done|]. by eapply cell_entry_grows.
Qed.

Lemma raw_table_spec idx states g : groups_inv ng g → (∀ s, s ∈ states → 0 ≤ s < StateCount t) →
  ∃ rows g', raw_table ng t idx states g = Ret (rows, g') ∧ groups_inv ng g' ∧ grows g g' ∧ length rows = length states ∧
    (gErr g' = None → ∀ i s, zget states i = Some s → ∃ row, zget rows i = Some row ∧ row_ok (gActions g') idx s row).
Proof using Hfit.
  revert g. induction states as [|s states IH]; intros g Hg Hs; cbn [raw_table].
  { exists [], g. split_and!; [done|done|apply groups_grow_refl|done|]. intros _ i s. by rewrite zget_nil. }
  destruct (raw_row_spec idx s g Hg) as (row & g1 & -> & Hg1 & Hgr1 & Hrow); [apply Hs; left|]. cbn [mbind go_bind].
  destruct (IH g1 Hg1) as (rows & g' & -> & Hg' & Hgr' & Hl & Hrows); [intros; apply Hs; by right|]. cbn [mbind go_bind].
  exists (row :: rows), g'. split_and!; [done|done|by eapply groups_grow_trans|cbn; by rewrite Hl|]. intros He i s' Hi. destruct (decide (i = 0)) as [->|].
  - rewrite zget_cons_0 in Hi. injection Hi as <-. exists row. rewrite zget_cons_0. split; [done|]. eapply row_ok_grows; [done|]. apply Hrow. by apply Hgr'.
  - rewrite zget_cons_ne in Hi by done. rewrite zget_cons_ne by done. by apply Hrows.
Qed.

(** ** Renumbering *)

Notation remap := (map (λ i, i + 1) (seqZ 0 (StateCount t))).

Lemma zget_remap q : 0 ≤ q < StateCount t → zget remap q = Some (q + 1).
Proof using. clear Hfit. intros Hq. by rewrite zget_map_seqZ by lia. Qed.

Lemma remap_row_spec sym row : 0 ≤ sym → (∀ i v, zget row i = Some v → T ≤ sym + i → 0 ≤ v < StateCount t) →
  ∃ row', remap_row ng remap sym row = Ret row' ∧
    ∀ i, zget row' i = (λ v, if (v =? 0) || (sym + i <? T) then v else v + 1) <$> zget row i.
Proof using.
  clear Hfit. revert sym. induction row as [|v row IH]; intros sym Hsym Hv; cbn [remap_row]; [exists []; split; [done|]; intros i; by rewrite zget_nil|].
  destruct (IH (sym + 1)) as (row' & Hrun & Hrow); [lia|intros i w Hw Hle; pose proof (zget_Some_range _ _ _ Hw); apply (Hv (i + 1) w); [rewrite zget_cons_ne by lia; by replace (i + 1 - 1) with i by lia|lia]|].
  assert ((if v =? 0 then Ret 0 else if T <=? sym then index remap v else Ret v) = Ret (if (v =? 0) || (sym <? T) then v else v + 1)) as ->.
  { destruct (Z.eqb_spec v 0) as [->|]; cbn [orb]; [done|]. destruct (Z.leb_spec T sym), (Z.ltb_spec sym T); try lia; [|done].
    apply index_Ret, zget_remap. apply (Hv 0 v); [apply zget_cons_0|lia]. }
  cbn [mbind go_bind]. rewrite Hrun. cbn [mbind go_bind]. eexists. split; [done|]. intros i. destruct (decide (i = 0)) as [->|].
  - rewrite !zget_cons_0, Z.add_0_r. done.
  - rewrite !zget_cons_ne by done. rewrite Hrow. by replace (sym + 1 + (i - 1)) with (sym + i) by lia.
Qed.

(** The row of the error state is empty, so only it and the first state are dense. *)
Lemma large_states_two threshold rows : 0 < threshold → 0 ≤ N → large_states threshold (make N 0 :: rows) = Z.min 2 (1 + len rows).
Proof using.
  clear Hfit. intros Ht HN. unfold large_states. cbn [large_prefix]. assert (nonZero (make N 0) = 0) as ->.
  { unfold nonZero, make. induction (Z.to_nat N) as [|n IH]; [done|].
    change (replicate (S n) 0) with (0 :: replicate n 0). rewrite filter_cons, decide_False by (by intros []). exact IH. }
  destruct (Z.leb_spec threshold 0); [lia|]. cbn. rewrite len_cons. case_match; lia.
Qed.

Lemma dense_threshold_returns rawTable : ∃ threshold, dense_threshold rawTable = Ret threshold ∧ 0 < threshold.
Proof using.
  unfold dense_threshold. set (infos := sort_slice _ _). destruct (Z.eqb_spec (len infos) 0); [by exists 1|].
  pose proof (len_nonneg infos). destruct (index_in_range infos (len infos / 2)) as (m & -> & _); [Z.div_mod_to_equations; lia|]. cbn [mbind go_bind]. eexists. split; [done|]. case_match; lia.
Qed.
End rows.

(** * The compressed rows are read back *)

(** ** Groups of cells *)

Record cells_grouped (cells : list Z) (groups : gmap Z (list Z)) : Prop := {
  cg_in v x : x ∈ default [] (groups !! v) ↔ v ≠ 0 ∧ zget cells x = Some v;
  cg_some v l : groups !! v = Some l → l ≠ [] ∧ NoDup l }.

Lemma group_cells_spec pre cells groups : len (pre ++ cells) ≤ 2 ^ 16 → cells_grouped pre groups →
  cells_grouped (pre ++ cells) (group_cells (len pre) cells groups).
Proof.
  revert pre groups. induction cells as [|v cells IH]; intros pre groups Hl Hg; cbn [group_cells]; [by rewrite app_nil_r|].
  replace (pre ++ v :: cells) with ((pre ++ [v]) ++ cells) in * by (by rewrite <-app_assoc).
  replace (len pre + 1) with (len (pre ++ [v])) by (rewrite len_app; done). apply IH; [done|].
  pose proof (len_nonneg pre). pose proof (len_nonneg cells). assert (len pre < 2 ^ 16) as Hp by (rewrite !len_app in Hl; change (len [v]) with 1 in Hl; lia).
  assert (∀ x w, zget (pre ++ [v]) x = Some w ↔ zget pre x = Some w ∨ x = len pre ∧ v = w) as Hz.
  { intros x w. destruct (decide (x < len pre)).
    - rewrite zget_app_l by done. split; [by left|]. intros [?|[-> _]]; [done|lia].
    - rewrite zget_app_r by lia. split.
      + intros E. pose proof (zget_Some_range _ _ _ E) as Hr. change (len [v]) with 1 in Hr. assert (x = len pre) as -> by lia. rewrite Z.sub_diag, zget_cons_0 in E. injection E as ->. by right.
      + intros [E|[-> ->]]; [apply zget_Some_range in E; lia|]. by rewrite Z.sub_diag. }
  destruct (Z.eqb_spec v 0) as [->|Hv].
  - destruct Hg as [H1 H2]. split; [|done]. intros w x. rewrite H1, Hz. naive_solver.
  - rewrite u16_id by lia. destruct Hg as [H1 H2]. split.
    + intros w x. rewrite lookup_insert. case_decide as E.
      * subst w. cbn [default from_option id]. rewrite elem_of_app, list_elem_of_singleton, H1, Hz. naive_solver.
      * rewrite H1, Hz. naive_solver.
    + intros w l. rewrite lookup_insert. case_decide as E; [|apply H2]. intros [= <-]. split; [by destruct (default [] (groups !! v))|].
      apply NoDup_app. split_and!; [|intros x Hx ->%list_elem_of_singleton|apply NoDup_singleton].
      * destruct (groups !! v) eqn:Eg; [by apply (H2 v)|constructor].
      * apply H1 in Hx as [_ Hx%zget_Some_range]. lia.
Qed.

Section small.
Context `{SliceSort}.

(** The pairs of a row, in the order in which they are written. *)
Definition row_pairs (cells : list Z) : list smallActionPair :=
  let groups := group_cells 0 cells ∅ in
  concat (map (λ v, map (λ s, mkPair s v) (sort_ints (default [] (groups !! v)))) (sort_ints (map_to_list groups).*1)).

Context (cells : list Z) (Hlen : len cells < 2 ^ 16).
Notation groups := (group_cells 0 cells ∅).
Notation vals := (sort_ints (map_to_list groups).*1).

Lemma groups_spec : cells_grouped cells groups.
Proof using Hlen.
  apply (group_cells_spec [] cells ∅); [cbn; lia|]. split; [|intros v l; by rewrite lookup_empty]. intros v x. rewrite lookup_empty. cbn. rewrite zget_nil, elem_of_nil. naive_solver.
Qed.

Lemma vals_spec v : v ∈ vals ↔ v ≠ 0 ∧ v ∈ cells.
Proof using Hlen.
  rewrite sort_ints_elem, list_elem_of_fmap. pose proof groups_spec as [H1 H2]. split.
  - intros ([w l] & -> & Hin%elem_of_map_to_list). destruct (H2 _ _ Hin) as [Hne _]. destruct l as [|x l]; [done|].
    destruct (proj1 (H1 w x)) as [? Hz]; [rewrite Hin; left|]. split; [done|by eapply zget_elem].
  - intros [Hv (x & _ & Hx)%elem_zget]. pose proof (proj2 (H1 v x) (conj Hv Hx)) as Hin. destruct (groups !! v) as [l|] eqn:E; [|by apply elem_of_nil in Hin].
    exists (v, l). split; [done|]. by apply elem_of_map_to_list.
Qed.

Lemma vals_NoDup : NoDup vals.
Proof using. rewrite sort_ints_perm. apply NoDup_fst_map_to_list. Qed.

Lemma row_pairs_elem p : p ∈ row_pairs cells ↔ val p ≠ 0 ∧ zget cells (sym p) = Some (val p).
Proof using Hlen.
  unfold row_pairs. rewrite list_elem_of_In, in_concat. setoid_rewrite <-list_elem_of_In. split.
  - intros (l & (v & -> & Hv)%list_elem_of_fmap & (x & -> & Hx)%list_elem_of_fmap). rewrite sort_ints_elem in Hx. cbn. by apply (cg_in _ _ groups_spec).
  - intros [Hv Hz]. exists (map (λ s, mkPair s (val p)) (sort_ints (default [] (groups !! val p)))). split.
    + apply list_elem_of_fmap. exists (val p). split; [done|]. apply vals_spec. split; [done|by eapply zget_elem].
    + apply list_elem_of_fmap. exists (sym p). split; [by destruct p|]. rewrite sort_ints_elem. by apply (cg_in _ _ groups_spec).
Qed.

Lemma row_pairs_NoDup : NoDup (map sym (row_pairs cells)).
Proof using Hlen.
  unfold row_pairs. assert (∀ vs, NoDup vs → (∀ v, v ∈ vs → v ≠ 0) →
    NoDup (map sym (concat (map (λ v, map (λ s, mkPair s v) (sort_ints (default [] (groups !! v)))) vs)))) as Hvs; [|apply Hvs; [apply vals_NoDup|intros v Hv; by apply vals_spec in Hv as [? _]]].
  assert (∀ v, map sym (map (λ s, mkPair s v) (sort_ints (default [] (groups !! v)))) = sort_ints (default [] (groups !! v))) as Hsym.
  { intros v. rewrite map_map. apply map_id. }
  pose proof groups_spec as [H1 H2]. induction 1 as [|v vs Hv Hnd IH]; intros Hne; cbn; [constructor|]. rewrite map_app, Hsym. apply NoDup_app. split_and!.
  - rewrite sort_ints_perm. destruct (groups !! v) eqn:E; [by apply (H2 v)|constructor].
  - intros x Hx (p & -> & Hp)%list_elem_of_fmap. rewrite sort_ints_elem in Hx. apply H1 in Hx as [_ Hx]. apply list_elem_of_In, in_concat in Hp as (l & Hl & Hp).
    apply list_elem_of_In in Hl, Hp. apply list_elem_of_fmap in Hl as (w & -> & Hw). apply list_elem_of_fmap in Hp as (y & -> & Hy). rewrite sort_ints_elem in Hy.
    apply H1 in Hy as [_ Hy]. cbn in Hx. congruence.
  - apply IH. intros w Hw. apply Hne. by right.
Qed.

Lemma find_row_pairs x : find_val (row_pairs cells) 0 x = default 0 (zget cells x).
Proof using Hlen.
  destruct (decide (x ∈ map sym (row_pairs cells))) as [(p & -> & Hp)%list_elem_of_fmap|Hno].
  - rewrite (find_val_in _ _ _ row_pairs_NoDup Hp). apply row_pairs_elem in Hp as [_ ->]. done.
  - rewrite find_val_notin by done. destruct (zget cells x) as [v|] eqn:E; [|done]. cbn. destruct (decide (v = 0)) as [|Hv]; [done|].
    destruct Hno. apply list_elem_of_fmap. exists (mkPair x v). split; [done|]. by apply row_pairs_elem.
Qed.

(** ** Walking the words *)

Lemma visit_syms_app pre syms post : visit_syms (pre ++ syms ++ post) (length syms) (len pre) = (syms, len pre + len syms).
Proof using.
  clear Hlen. revert pre. induction syms as [|x syms IH]; intros pre; cbn [visit_syms length]; [f_equal; change (len (@nil Z)) with 0; lia|].
  rewrite zget_app_r, Z.sub_diag by lia. cbn [app]. rewrite zget_cons_0.
  replace (pre ++ x :: syms ++ post) with ((pre ++ [x]) ++ syms ++ post) by (by rewrite <-app_assoc).
  replace (len pre + 1) with (len (pre ++ [x])) by (by rewrite len_app). rewrite IH. f_equal. unfold len. rewrite length_app. cbn [length]. lia.
Qed.

Lemma visit_groups_app pre vs post : (∀ v, v ∈ vs → len (default [] (groups !! v)) < 2 ^ 16) →
  visit_groups (pre ++ concat (map (group_words groups) vs) ++ post) (length vs) (len pre) =
  concat (map (λ v, map (λ s, mkPair s v) (sort_ints (default [] (groups !! v)))) vs).
Proof using.
  clear Hlen. revert pre. induction vs as [|v vs IH]; intros pre Hv; [done|].
  set (syms := sort_ints (default [] (groups !! v))). set (rest := concat (map (group_words groups) vs)).
  assert (len syms < 2 ^ 16) as Hs by (unfold syms, len; rewrite sort_ints_perm; apply Hv; left). pose proof (len_nonneg syms). pose proof (len_nonneg pre).
  assert (pre ++ concat (map (group_words groups) (v :: vs)) ++ post = (pre ++ [v; len syms]) ++ syms ++ (rest ++ post)) as ->.
  { cbn [map concat]. unfold group_words at 1. fold syms rest. rewrite u16_id by lia. cbn [app]. rewrite <-!app_assoc. done. }
  cbn [visit_groups length]. assert (len (pre ++ [v; len syms]) = len pre + 2) as Hl by (by rewrite len_app).
  rewrite !(zget_app_l (pre ++ [v; len syms])) by lia. rewrite !zget_app_r by lia. rewrite Z.sub_diag, zget_cons_0.
  replace (len pre + 1 - len pre) with 1 by lia. rewrite zget_cons_ne by lia. change (1 - 1) with 0. rewrite zget_cons_0.
  rewrite <-Hl. replace (Z.to_nat (len syms)) with (length syms) by (unfold len; by rewrite Nat2Z.id). rewrite visit_syms_app.
  cbn [map concat]. fold syms. f_equal. rewrite <-len_app, app_assoc. apply IH. intros w Hw. apply Hv. by right.
Qed.

Lemma pairs_sub {A} (l : list A) (k : list A) : NoDup l → (∀ x, x ∈ l → x ∈ k) → (length l ≤ length k)%nat.
Proof using. clear Hlen. intros Hnd Hsub. apply submseteq_length, NoDup_submseteq; [done|]. intros x. apply Hsub. Qed.

Lemma group_small v : len (default [] (groups !! v)) < 2 ^ 16.
Proof using Hlen.
  enough (length (default [] (groups !! v)) ≤ length (seqZ 0 (len cells)))%nat as Hle by (rewrite length_seqZ in Hle; unfold len in *; lia). apply pairs_sub.
  - destruct (groups !! v) eqn:E; [by apply (cg_some _ _ groups_spec v)|constructor].
  - intros x Hx. apply (cg_in _ _ groups_spec) in Hx as [_ Hx%zget_Some_range]. by apply elem_of_seqZ.
Qed.

Lemma vals_small : (length vals ≤ length cells)%nat.
Proof using Hlen. apply pairs_sub; [apply vals_NoDup|]. intros v Hv. by apply vals_spec in Hv as [_ ?]. Qed.

(** A row is read back from its words. *)
Lemma visit_row_words pre post : visit_row (pre ++ row_words cells ++ post) (len pre) = row_pairs cells.
Proof using Hlen.
  unfold visit_row, row_words. rewrite zget_app_r, Z.sub_diag by lia. cbn [app]. rewrite zget_cons_0.
  assert (size groups = length vals) as Hsize by (rewrite sort_ints_perm, length_fmap; symmetry; apply length_map_to_list).
  pose proof vals_small. rewrite Hsize, u16_id by (unfold len in Hlen; lia). rewrite Nat2Z.id.
  rewrite (cons_middle (Z.of_nat (length vals)) pre), (app_assoc pre).
  replace (len pre + 1) with (len (pre ++ [Z.of_nat (length vals)])) by (by rewrite len_app).
  apply visit_groups_app. intros v _. apply group_small.
Qed.

Lemma row_words_len : 0 < len (row_words cells) ≤ 1 + 3 * len cells.
Proof using Hlen.
  assert (len (row_words cells) = 1 + 2 * len vals + len (row_pairs cells)) as ->.
  { unfold row_words, row_pairs. rewrite len_cons. generalize vals. intros vs.
    enough (len (concat (map (group_words groups) vs)) = 2 * len vs + len (concat (map (λ v, map (λ s, mkPair s v) (sort_ints (default [] (groups !! v)))) vs))) by lia.
    induction vs as [|v vs IH]; [done|]. cbn [map concat]. rewrite !len_app, len_cons, IH. unfold group_words. rewrite !len_cons. unfold len. rewrite length_map. lia. }
  pose proof (len_nonneg vals). pose proof (len_nonneg (row_pairs cells)). pose proof vals_small as Hv.
  assert (length (map sym (row_pairs cells)) ≤ length (seqZ 0 (len cells)))%nat as Hp.
  { apply pairs_sub; [apply row_pairs_NoDup|]. intros x (p & -> & [_ Hz%zget_Some_range]%row_pairs_elem)%list_elem_of_fmap. by apply elem_of_seqZ. }
  rewrite length_map, length_seqZ in Hp. unfold len in *. lia.
Qed.
End small.
