(* ===== verification/AssembleCorrect.v ===== *)
(** * The runtime looks up the LR tables

    [buildParseTables] (Assemble.v) and the lookups of the runtime (ParseTables.v)
    together: what the parser finds for a state and a symbol is what the LR tables
    have there, one state further up. *)

From Stdlib Require Import ZArith Lia ZifyBool String.
From stdpp Require Import base tactics list numbers option gmap fin_maps.
From S2P Require Import Prelude SliceSort ParseTables ParseTablesCorrect LrGrammar LrMinimize LrSignature LrGroups LrMerge LrCompactCore Assemble AssembleRows.
Local Open Scope Z_scope.

(** ** Cells *)

Section cells.
Context `{SliceSort} (ng : NormalizedGrammar).
Notation N := (len (Symbols ng)).

(** A row whose cells fit 16 bits. *)
Definition row_small (row : list Z) : Prop := len row = N ∧ ∀ v, v ∈ row → 0 ≤ v ≤ maxUint16Index.

Lemma downcast_row_id gotos state sym row : (∀ v, v ∈ row → 0 ≤ v ≤ maxUint16Index) → downcast_row ng gotos state sym row = inr (gotos, row).
Proof using.
  revert sym. induction row as [|v row IH]; intros sym Hv; cbn [downcast_row]; [done|]. assert (0 ≤ v ≤ maxUint16Index) as Hr by (apply Hv; left).
  assert (downcastCell ng gotos state sym v = inr (gotos, v)) as ->.
  { unfold downcastCell, checkUint16Index. destruct (Z.eqb_spec v 0) as [->|]; [done|]. destruct (Z.ltb_spec maxUint16Index v); [lia|].
    rewrite andb_false_r, u16_id by (unfold maxUint16Index in *; lia). done. }
  rewrite IH; [done|]. intros w Hw. apply Hv. by right.
Qed.

Lemma dense_rows_id gotos state rows : Forall row_small rows → dense_rows ng gotos state rows = inr (gotos, rows).
Proof using.
  intros Hr. revert state. induction Hr as [|row rows [_ Hrow] _ IH]; intros state; cbn [dense_rows]; [done|]. by rewrite downcast_row_id, IH.
Qed.

Context (HN : N < 2 ^ 16).

(** The compressed table holds the words of every row at the offset of the row. *)
Lemma small_rows_spec gotos state rows tbl offs : Forall row_small rows → len tbl + len rows * (1 + 3 * N) < 2 ^ 32 →
  ∃ more new, small_rows ng gotos state rows tbl offs = inr (gotos, (tbl ++ more, offs ++ new)) ∧ length new = length rows ∧
    ∀ i row, zget rows i = Some row → ∃ pre post, tbl ++ more = pre ++ row_words row ++ post ∧ zget new i = Some (len pre).
Proof using HN.
  intros Hr. revert state tbl offs. induction Hr as [|row rows [Hl Hrow] _ IH]; intros state tbl offs Hb; cbn [small_rows].
  { exists [], []. rewrite !app_nil_r. split_and!; [done|done|]. intros i row. by rewrite zget_nil. }
  rewrite downcast_row_id by done. pose proof (len_nonneg tbl). pose proof (len_nonneg rows). pose proof (len_nonneg (Symbols ng)).
  pose proof (row_words_len row ltac:(lia)) as Hw. rewrite len_cons in Hb. rewrite u32_id by nia.
  destruct (IH (state + 1) (tbl ++ row_words row) (offs ++ [len tbl])) as (more & new & -> & Hn & Hi); [rewrite len_app; nia|].
  exists (row_words row ++ more), (len tbl :: new). rewrite <-(app_assoc tbl) in Hi |- *. rewrite <-(app_assoc offs). split_and!; [done|cbn; by rewrite Hn|].
  intros i row' Hz. destruct (decide (i = 0)) as [->|].
  - rewrite zget_cons_0 in Hz. injection Hz as <-. exists tbl, more. split; [done|apply zget_cons_0].
  - rewrite zget_cons_ne in Hz by done. destruct (Hi _ _ Hz) as (pre & post & E & Ho). exists pre, post. split; [done|]. by rewrite zget_cons_ne by done.
Qed.
End cells.

(** ** Lookups in written rows *)

Section written.
Context `{SliceSort} (ng : NormalizedGrammar) (lang : Language) (rows : list (list Z)) (large : Z) (offs : list Z).
Notation N := (len (Symbols ng)).

(** The language holds the rows: the first ones densely, the others compressed. *)
Record written : Prop := {
  wr_symbols : N < 2 ^ 16;
  wr_counts : 0 ≤ ParseTables.TokenCount lang ∧ 0 ≤ SymbolCount lang;
  wr_rows : Forall (row_small ng) rows;
  wr_large : 0 < large ≤ len rows;
  wr_limit : LargeStateCount lang = large;
  wr_dense : ParseTable lang = take (Z.to_nat large) rows;
  wr_map : SmallParseTableMap lang = offs;
  wr_count : length offs = length (drop (Z.to_nat large) rows);
  wr_small i row : zget (drop (Z.to_nat large) rows) i = Some row → ∃ pre post,
    SmallParseTable lang = pre ++ row_words row ++ post ∧ zget offs i = Some (len pre) }.

Context (W : written).

Lemma small_row_len i row : zget (drop (Z.to_nat large) rows) i = Some row → len row < 2 ^ 16.
Proof using W.
  intros Hz%zget_elem. pose proof (wr_rows W) as Hr. rewrite list.Forall_forall in Hr. destruct (Hr row) as [-> _]; [|apply (wr_symbols W)].
  rewrite <-(take_drop (Z.to_nat large) rows). apply elem_of_app. by right.
Qed.

Lemma written_ok : ParseTablesCorrect.tables_ok lang.
Proof using W.
  split; [apply (wr_counts W)|]. rewrite (wr_map W). intros off (i & Hi & Hz)%elem_zget.
  destruct (zget_in_range (drop (Z.to_nat large) rows) i) as [row Hrow]; [pose proof (wr_count W); unfold len in *; lia|].
  destruct (wr_small W i row Hrow) as (pre & post & Ht & Ho). assert (off = len pre) as -> by congruence. unfold unique_row.
  rewrite Ht, visit_row_words by (by eapply small_row_len). apply row_pairs_NoDup. by eapply small_row_len.
Qed.

Lemma written_lookup k row x : zget rows k = Some row → 0 ≤ x → lookupActionIndex (derived_view lang) k x = Ret (default 0 (zget row x)).
Proof using W.
  intros Hk Hx. rewrite (lookupActionIndex_derived lang k x written_ok Hx). unfold lookupActionIndex. cbn [plain_view denseLimit language].
  pose proof (zget_Some_range _ _ _ Hk) as Hr. pose proof (wr_large W) as Hl.
  assert (languageDenseLimit lang = large) as -> by (unfold languageDenseLimit; rewrite (wr_limit W); by replace (0 <? large) with true by lia).
  destruct (Z.ltb_spec k large) as [Hd|Hd].
  - rewrite (wr_dense W). assert (zget (take (Z.to_nat large) rows) k = Some row) as ->; [|done].
    rewrite <-(take_drop (Z.to_nat large) rows) in Hk. rewrite zget_app_l in Hk; [done|]. unfold len. rewrite length_take. unfold len in *. lia.
  - assert (zget (drop (Z.to_nat large) rows) (k - large) = Some row) as Hz.
    { rewrite <-(take_drop (Z.to_nat large) rows) in Hk. assert (len (take (Z.to_nat large) rows) = large) as Ht by (unfold len in *; rewrite length_take; lia).
      rewrite zget_app_r, Ht in Hk by lia. done. }
    destruct (wr_small W _ row Hz) as (pre & post & Ht & Ho). unfold lookupActionIndexSmall. cbn [plain_view denseLimit language smallBase smallTokenLookup smallLookup].
    rewrite (wr_limit W), (wr_map W), Ho, !zget_nil. cbn [default from_option]. change (len (@nil Z)) with 0. destruct (Z.ltb_spec x 0); [lia|].
    rewrite lookup_row_find, Ht, visit_row_words by (by eapply small_row_len). by rewrite find_row_pairs by (by eapply small_row_len).
Qed.
End written.

(** ** The theorem *)

Section tables.
Context `{SliceSort} (ng : NormalizedGrammar) (t : LRTables).
Notation N := (len (Symbols ng)).
Notation T := (TokenCount ng).
Notation n := (StateCount t).
Notation remap := (map (λ i, i + 1) (seqZ 0 n)).

(** What the runtime is to do for an action: states are one further up, but for the
    shift of an extra that stays where it is. *)
Definition runtime_action (a : lrAction) : ParseAction :=
  match laKind a with
  | lrShift =>
    let stays := laIsExtra a && (laState a =? 0) in
    mkParseAction ParseActionShift (if stays then 0 else laState a + 1) 0 0 0 0 stays (laIsExtra a && negb (laState a =? 0)) (laRepeat a)
  | lrReduce =>
    match zget (Productions ng) (laProdIdx a) with
    | Some p => mkParseAction ParseActionReduce 0 (u16 (LHS p)) (u8 (len (RHS p))) (i16 (DynPrec p)) (u16 (ProductionID p)) (prIsExtra p) false false
    | None => mkParseAction ParseActionRecover 0 0 0 0 0 false false false
    end
  | lrAccept => mkParseAction ParseActionAccept 0 0 0 0 0 false false false
  end.

Definition shift_extra : ParseActionEntry := mkParseActionEntry false [mkParseAction ParseActionShift 0 0 0 0 0 true false false].

(** What the runtime is to find for a token. *)
Definition runtime_cell (s x : Z) : option ParseActionEntry :=
  match default [] (actions_of t s !! x) with
  | [] => if bool_decide (x ∈ ExtraSymbols ng) then Some shift_extra else None
  | acts => Some (mkParseActionEntry false (map runtime_action acts))
  end.

Definition runtime_goto (s B : Z) : Z := match gotos_of t s !! B with Some q => q + 1 | None => 0 end.

Lemma remap_action_spec a pa : n < 2 ^ 16 → action_fit ng a → (laKind a = lrShift → 0 ≤ laState a < n) → parse_action ng a = Ret pa →
  remap_parse_action remap pa = runtime_action a.
Proof using.
  intros Hn [_ Hr] Hs. unfold parse_action, runtime_action. destruct (laKind a).
  - specialize (Hs eq_refl). intros [= <-]. unfold remap_parse_action. cbn. rewrite u32_id by lia. destruct (laIsExtra a), (Z.eqb_spec (laState a) 0) as [E|E]; cbn;
      try (rewrite zget_remap by lia; rewrite u32_id by lia); try rewrite E; done.
  - destruct (Hr eq_refl) as [p Hp]. rewrite (proj2 (index_Ret _ _ _) Hp), Hp. cbn. by intros [= <-].
  - by intros [= <-].
Qed.

Lemma remap_actions_spec acts pas : n < 2 ^ 16 → Forall (action_fit ng) acts → (∀ a, a ∈ acts → laKind a = lrShift → 0 ≤ laState a < n) →
  map_go (parse_action ng) acts = Ret pas → map (remap_parse_action remap) pas = map runtime_action acts.
Proof using.
  intros Hn Hf. revert pas. induction Hf as [|a acts Ha _ IH]; intros pas Hs; cbn [map_go]; [by intros [= <-]|].
  destruct (parse_action ng a) as [pa| |] eqn:Ep; cbn [mbind go_bind]; [|done..]. destruct (map_go (parse_action ng) acts) as [rest| |] eqn:Er; cbn; [|done..].
  intros [= <-]. cbn. rewrite (remap_action_spec a pa Hn Ha (Hs a ltac:(left)) Ep). f_equal. apply IH; [|done]. intros b Hb. apply Hs. by right.
Qed.

Context (Hfit : rows_fit ng t) (Hwords : (n + 1) * (1 + 3 * N) < 2 ^ 32).

(** The entries behind the first one, renumbered, are what the cells stand for. *)
Lemma cell_lookup entries s x v idx0 : 0 ≤ s < n → token_cell ng t entries idx0 s x v →
  (len (ExtraSymbols ng) ≠ 0 → idx0 = 1 ∧ zget entries 1 = Some shift_extra) →
  (0 ≤ v ≤ maxUint16Index) ∧ (if v =? 0 then None else zget (map (remap_entry remap) entries) v) = runtime_cell s x.
Proof using Hfit.
  intros Hs Hc Hx. unfold token_cell, runtime_cell in *.
  assert (v = (if bool_decide (x ∈ ExtraSymbols ng) then idx0 else 0) → (0 ≤ v ≤ maxUint16Index) ∧
    (if v =? 0 then None else zget (map (remap_entry remap) entries) v) = if bool_decide (x ∈ ExtraSymbols ng) then Some shift_extra else None) as Hno.
  { case_bool_decide as Hin; intros ->; [|split; [unfold maxUint16Index; lia|done]].
    destruct Hx as [-> Hz]; [destruct (ExtraSymbols ng) as [|e l]; [by apply elem_of_nil in Hin|rewrite len_cons; pose proof (len_nonneg l); lia]|].
    split; [unfold maxUint16Index; lia|]. rewrite zget_map, Hz. done. }
  destruct (actions_of t s !! x) as [[|a acts]|] eqn:Ea; cbn [default from_option id] in *; [by apply Hno| |by apply Hno].
  destruct Hc as (Hv & pas & Hp & Hz). split; [lia|]. destruct (Z.eqb_spec v 0); [lia|]. rewrite zget_map, Hz. cbn. unfold remap_entry. cbn [peReusable peActions]. do 2 f_equal.
  destruct (rf_action _ _ Hfit s x _ Hs Ea) as [_ Hf]. rewrite (remap_actions_spec _ pas (proj2 (rf_states _ _ Hfit)) Hf); [done| |done].
  intros b Hb. by apply (rf_target _ _ Hfit s x (a :: acts)).
Qed.

(** The row of a state after renumbering. *)
Record new_row (entries : list ParseActionEntry) (s : Z) (row : list Z) : Prop := {
  nr_small : row_small ng row;
  nr_token x : 0 ≤ x < T → ∃ v, zget row x = Some v ∧ (if v =? 0 then None else zget (map (remap_entry remap) entries) v) = runtime_cell s x;
  nr_goto B : T ≤ B < N → zget row B = Some (runtime_goto s B) }.

Lemma remap_row_ok entries idx0 s row : 0 ≤ s < n → row_ok ng t entries idx0 s row → (len (ExtraSymbols ng) ≠ 0 → idx0 = 1 ∧ zget entries 1 = Some shift_extra) →
  ∃ row', remap_row ng remap 0 row = Ret row' ∧ new_row entries s row'.
Proof using Hfit.
  intros Hs [Hl Ht Hg] Hx. pose proof (TokenCount_range ng) as HT. pose proof (rf_states _ _ Hfit) as Hn.
  assert (∀ B, T ≤ B < N → 0 ≤ default 0 (gotos_of t s !! B) < n) as Hrange.
  { intros B HB. destruct (gotos_of t s !! B) as [q|] eqn:Eq; cbn; [|lia]. pose proof (rf_goto _ _ Hfit s B q Hs Eq). lia. }
  destruct (remap_row_spec ng t 0 row) as (row' & Hrun & Hrow); [lia|intros i v Hv Hi; pose proof (zget_Some_range _ _ _ Hv); rewrite Hg in Hv by lia; injection Hv as <-; apply Hrange; lia|].
  assert (∀ x v, 0 ≤ x < T → zget row x = Some v → zget row' x = Some v) as Htok.
  { intros x v Hxr Hv. rewrite Hrow, Hv. cbn. replace (0 + x <? T) with true by lia. by rewrite orb_true_r. }
  assert (∀ B, T ≤ B < N → zget row' B = Some (runtime_goto s B)) as Hgot.
  { intros B HB. rewrite Hrow, Hg by done. cbn. replace (0 + B <? T) with false by lia. rewrite orb_false_r. unfold runtime_goto.
    destruct (gotos_of t s !! B) as [q|] eqn:Eq; cbn; [|done]. pose proof (rf_goto _ _ Hfit s B q Hs Eq). by destruct (Z.eqb_spec q 0); [lia|]. }
  assert (len row' = N) as Hl'.
  { pose proof (len_nonneg row'). pose proof (len_nonneg row). destruct (Z.lt_trichotomy (len row') N) as [Hlt|[?|Hgt]]; [|done|].
    - pose proof (zget_None row' (len row')) as Hno. rewrite Hrow in Hno. destruct (zget_in_range row (len row')) as [v Hv]; [lia|]. rewrite Hv in Hno. cbn in Hno.
      by discriminate (proj2 Hno ltac:(lia)).
    - destruct (zget_in_range row' N) as [v Hv]; [lia|]. rewrite Hrow, (proj2 (zget_None row N)) in Hv by lia. done. }
  exists row'. split; [done|]. split; [split; [done|]| |done].
  - intros v (i & Hi & Hv)%elem_zget. destruct (decide (i < T)).
    + destruct (Ht i) as (w & Hw & Hc); [lia|]. rewrite (Htok i w) in Hv by (done || lia). injection Hv as <-. by apply (cell_lookup entries s i w idx0).
    + rewrite Hgot in Hv by lia. injection Hv as <-. unfold runtime_goto. destruct (gotos_of t s !! i) as [q|] eqn:Eq; [|unfold maxUint16Index; lia].
      pose proof (rf_goto _ _ Hfit s i q Hs Eq). unfold maxUint16Index. lia.
  - intros x Hxr. destruct (Ht x Hxr) as (v & Hv & Hc). exists v. split; [by apply Htok|]. by apply (cell_lookup entries s x v idx0).
Qed.

Lemma first_entries_spec g idx0 : first_entries ng = (g, idx0) → groups_inv ng g ∧ (len (ExtraSymbols ng) ≠ 0 → idx0 = 1 ∧ zget (gActions g) 1 = Some shift_extra).
Proof using.
  clear Hfit Hwords. unfold first_entries. pose proof (len_nonneg (ExtraSymbols ng)). destruct (Z.ltb_spec 0 (len (ExtraSymbols ng))); intros [= <- <-]; (split; [|intros; first [lia|done]]); (split; cbn; [done| |done]); intros key idx; by rewrite lookup_empty.
Qed.

(** What the finished tables answer. *)
Record runtime_tables (lang : Language) : Prop := {
  rt_states : ParseTables.StateCount lang = n + 1;
  rt_dense : LargeStateCount lang = Z.min 2 (n + 1);
  rt_initial : InitialState lang = 1;
  rt_action s x : 0 ≤ s < n → 0 ≤ x < T → lookupAction (derived_view lang) (s + 1) x = Ret (runtime_cell s x);
  rt_goto s B : 0 ≤ s < n → T ≤ B < N → lookupGoto (derived_view lang) (s + 1) B = Ret (runtime_goto s B) }.

Lemma raw_rows_new entries idx0 rawTable : length rawTable = length (seqZ 0 n) →
  (∀ i s, zget (seqZ 0 n) i = Some s → ∃ row, zget rawTable i = Some row ∧ row_ok ng t entries idx0 s row) →
  (len (ExtraSymbols ng) ≠ 0 → idx0 = 1 ∧ zget entries 1 = Some shift_extra) →
  ∃ rows, map_go (remap_row ng remap 0) rawTable = Ret rows ∧ len rows = n ∧ ∀ s, 0 ≤ s < n → ∃ row, zget rows s = Some row ∧ new_row entries s row.
Proof using Hfit.
  intros Hl Hraw Hx. pose proof (rf_states _ _ Hfit) as Hn. rewrite length_seqZ in Hl.
  assert (∀ s, 0 ≤ s < n → ∃ row row', zget rawTable s = Some row ∧ remap_row ng remap 0 row = Ret row' ∧ new_row entries s row') as Hrow.
  { intros s Hs. destruct (Hraw s s) as (row & Hz & Hok); [by rewrite <-(map_id (seqZ 0 n)), zget_map_seqZ|].
    destruct (remap_row_ok entries idx0 s row Hs Hok Hx) as (row' & Hr & Hnew). by exists row, row'. }
  destruct (map_go_returns (remap_row ng remap 0) rawTable) as (rows & Hrun & Hi).
  { intros row (s & Hs & Hz)%elem_zget. destruct (Hrow s) as (row1 & row' & Hz1 & Hr & _); [unfold len in Hs; lia|]. exists row'. congruence. }
  exists rows. split; [done|]. split.
  - pose proof (map_go_length _ _ _ Hrun). unfold len. lia.
  - intros s Hs. destruct (Hrow s Hs) as (row & row' & Hz & Hr & Hnew). destruct (Hi s row Hz) as (y & Hy & Hzy). exists row'. split; [congruence|done].
Qed.

(** [buildParseTables] returns and the runtime finds in its arrays what the rows
    held. *)
Lemma parse_tables_spec {A} (zero : A) (name : string) (modes : list A) : 0 < T →
  ∃ r, buildParseTables ng zero (new_language ng name t) modes t = Ret r ∧
    match r with
    | inl err => maxUint16Index < ieValue err
    | inr (lang, modes', _) => runtime_tables lang ∧ ∀ s m, 0 ≤ s < n → zget modes s = Some m → zget modes' (s + 1) = Some m
    end.
Proof using Hfit Hwords.
  intros HT0. pose proof (rf_states _ _ Hfit) as Hn. pose proof (rf_symbols _ _ Hfit) as HN. pose proof (TokenCount_range ng) as HT.
  unfold buildParseTables. destruct (first_entries ng) as [g0 idx0] eqn:Ef. destruct (first_entries_spec g0 idx0 Ef) as [Hg0 Hx0].
  destruct (raw_table_spec ng t Hfit idx0 (seqZ 0 n) g0 Hg0) as (rawTable & g & -> & Hg & Hgr & Hl & Hraw); [intros s Hs%elem_of_seqZ; lia|]. cbn [mbind go_bind].
  destruct (gErr g) as [err|] eqn:Ee; [eexists; split; [done|]; by apply (gi_err _ _ Hg)|]. specialize (Hraw eq_refl).
  destruct (dense_threshold_returns rawTable) as (threshold & -> & Hth). cbn [mbind go_bind].
  destruct (raw_rows_new (gActions g) idx0 rawTable Hl Hraw) as (rows0 & -> & Hlr & Hrows0).
  { intros Hne. destruct (Hx0 Hne) as [-> Hz]. split; [done|]. destruct Hgr as [[more ->] _]. by apply zget_app_Some. }
  cbn [mbind go_bind]. rewrite large_states_two by lia. set (rows := make N 0 :: rows0). set (large := Z.min 2 (1 + len rows0)).
  assert (len rows = n + 1) as Hlrows by (unfold rows; rewrite len_cons; lia).
  assert (Forall (row_small ng) rows) as Hsmall.
  { constructor; [split; [apply len_make; lia|]; intros v (i & Hi & Hv)%elem_zget; rewrite len_make in Hi by lia; rewrite zget_make in Hv by lia; injection Hv as <-; unfold maxUint16Index; lia|].
    apply list.Forall_forall. intros row (s & Hs & Hz)%elem_zget. destruct (Hrows0 s) as (row' & Hz' & Hnew); [lia|]. rewrite Hz in Hz'. injection Hz' as <-. apply (nr_small _ _ _ Hnew). }
  rewrite dense_rows_id by (by apply Forall_take). 
  destruct (small_rows_spec ng HN (LargeStateGotos (new_language ng name t)) large (drop (Z.to_nat large) rows) [] []) as (small & offs & -> & Hoffs & Hsm);
    [by apply Forall_drop|change (len (@nil Z)) with 0; unfold len at 1; rewrite length_drop; unfold len in *; nia|].
  eexists. split; [done|]. cbn [app] in *. set (lang := with_parse_tables _ _ _ _ _ _ _ _ _).
  assert (written ng lang rows large offs) as W.
  { split; try done; [cbn; unfold u32; pose proof (Z.mod_pos_bound T (2 ^ 32)); pose proof (Z.mod_pos_bound N (2 ^ 32)); lia|lia|cbn; apply u32_id; lia]. }
  assert (∀ s, 0 ≤ s < n → ∃ row, zget rows (s + 1) = Some row ∧ new_row (gActions g) s row) as Hrow.
  { intros s Hs. destruct (Hrows0 s Hs) as (row & Hz & Hnew). exists row. unfold rows. rewrite zget_cons_ne by lia. by replace (s + 1 - 1) with s by lia. }
  split; [split|].
  - cbn. rewrite u32_id by lia. done.
  - rewrite (wr_limit _ _ _ _ _ W). unfold large. rewrite Hlr. lia.
  - done.
  - intros s x Hs Hx. destruct (Hrow s Hs) as (row & Hz & Hnew). unfold lookupAction. rewrite (written_lookup _ _ _ _ _ W (s + 1) row x Hz) by lia. cbn [mbind go_bind].
    destruct (nr_token _ _ _ Hnew x Hx) as (v & Hv & Hc). rewrite Hv. cbn [default from_option id]. f_equal. exact Hc.
  - intros s B Hs HB. destruct (Hrow s Hs) as (row & Hz & Hnew). unfold lookupGoto. cbn [derived_view language lang with_parse_tables ParseTables.TokenCount ParseTables.StateCount InitialState new_language].
    rewrite (written_lookup _ _ _ _ _ W (s + 1) row B Hz) by lia. rewrite (nr_goto _ _ _ Hnew B HB). rewrite !(u32_id T) by lia. rewrite (u32_id (len rows)) by lia.
    replace ((0 <? T) && (T <=? B)) with true by lia. unfold lookupLargeStateGoto. change (LargeStateGotos _) with (∅ : gmap Z Z). rewrite lookup_empty. cbn [default from_option id Z.eqb negb mbind go_bind].
    destruct (Z.eqb_spec (runtime_goto s B) 0) as [->|]; [done|]. by replace (0 <? len rows) with true by lia.
  - intros s m Hs Hm. unfold remap_modes. destruct modes as [|m0 modes]; [by rewrite zget_nil in Hm|]. rewrite zget_cons_ne by lia. replace (s + 1 - 1) with s by lia.
    pose proof (zget_Some_range _ _ _ Hm). rewrite zget_app_l by (unfold len in *; rewrite length_take; lia). unfold zget in *. replace (0 <=? s) with true in * by lia. rewrite lookup_take_lt by lia. done.
Qed.
End tables.
