(* ===== verification/ParserStack.v ===== *)
(** * The stack of the parser

    glr.go, glr_gss.go and parser_reduce.go: a stack version is kept as a contiguous
    slice of entries, as a linked list that versions share, or as both; shifts push
    leaves, reductions replace the window of their children by a parent.  Nodes carry
    what these moves read and write (the fields of noTreeNode).

    The reductions are those of the lane that builds no tree, which the parser takes
    when its flag [noTreeBenchmarkOnly] is set; their names end in [_noTree].  The
    lane that builds trees differs on the stack: a collapsed unary reduction puts the
    child back in place of a parent, and parents may be pending or grow over extras. *)

From Stdlib Require Import ZArith Lia ZifyBool String.
From stdpp Require Import base tactics list numbers option.
From S2P Require Import Prelude Tokens ParseTables.
Local Open Scope Z_scope.

(** ** Entries *)

Record noTreeNode := mkNode {
  nSymbol : Z; nStart : Z; nEnd : Z; nParseState : Z; nPreGoto : Z; nDynPrec : Z; nProductionID : Z; nExtra : bool; nHasError : bool }.

(** The bottom entry has no node. *)
Record stackEntry := mkStackEntry { seState : Z; seNode : option noTreeNode }.

Definition stackEntryHasNode (e : stackEntry) : bool := match seNode e with Some _ => true | None => false end.
Definition stackEntryNodeIsExtra (e : stackEntry) : bool := match seNode e with Some n => nExtra n | None => false end.
Definition stackEntryNodeHasError (e : stackEntry) : bool := match seNode e with Some n => nHasError n | None => false end.
Definition stackEntryDynamicPrecedence (e : stackEntry) : Z := match seNode e with Some n => nDynPrec n | None => 0 end.

(** Counts as a child. *)
Definition is_child (e : stackEntry) : bool := stackEntryHasNode e && negb (stackEntryNodeIsExtra e).
Definition is_extra (e : stackEntry) : bool := stackEntryHasNode e && stackEntryNodeIsExtra e.

(** The code writes the state into the node, which other versions may share, and
    keeps the pointer; the moves never read the state that a node records, and here
    the node is copied.  The four kinds of payload are one type. *)
Definition retargetStackEntryPayload (e : stackEntry) (state : Z) : option stackEntry :=
  match seNode e with
  | Some n => Some (mkStackEntry state (Some (mkNode (nSymbol n) (nStart n) (nEnd n) state (nPreGoto n) (nDynPrec n) (nProductionID n) (nExtra n) (nHasError n))))
  | None => None
  end.

(** The end of the last node, from the top of the stack. *)
Fixpoint gss_byteOffset (g : list stackEntry) : Z :=
  match g with
  | [] => 0
  | e :: g => match seNode e with Some n => nEnd n | None => gss_byteOffset g end
  end.

(** The same over a slice, from its end. *)
Definition stackByteOffset (es : list stackEntry) : Z := gss_byteOffset (rev es).

(** ** The linked list, from its head *)

Definition max_depth : Z := 2 ^ 32 - 1.

Definition gss_push (g : list stackEntry) (e : stackEntry) : go (list stackEntry) :=
  if len g =? max_depth then Panic else Ret (e :: g).

Fixpoint buildGSSStack (es g : list stackEntry) : go (list stackEntry) :=
  match es with
  | [] => Ret g
  | e :: es => g ← gss_push g e; buildGSSStack es g
  end.

Fixpoint keep_depth (g : list stackEntry) (depth : Z) : option (list stackEntry) :=
  match g with
  | [] => None
  | _ :: below => if depth <? len g then keep_depth below depth else if len g =? depth then Some g else None
  end.

Definition gss_truncate (g : list stackEntry) (depth : Z) : option (list stackEntry) :=
  if depth <=? 0 then Some [] else
  if len g =? 0 then None else
  if max_depth <? depth then None else
  if len g <? depth then None else keep_depth g depth.

Definition materialize (g : list stackEntry) : list stackEntry := rev g.

(** ** Stack versions *)

(** [None] is the nil slice. *)
Record glrStack := mkStack {
  gss : list stackEntry; entries : option (list stackEntry); cacheEntries : bool; byteOffset : Z; score : Z;
  dead : bool; accepted : bool; shifted : bool; recoverabilityKnown : bool; mayRecover : bool }.

Definition newGLRStack (initial : Z) : glrStack :=
  mkStack [] (Some [mkStackEntry initial None]) true 0 0 false false false false false.

Definition set_entries (s : glrStack) (g : list stackEntry) (es : option (list stackEntry)) : glrStack :=
  mkStack g es (cacheEntries s) (byteOffset s) (score s) (dead s) (accepted s) (shifted s) (recoverabilityKnown s) (mayRecover s).
Definition set_offset (s : glrStack) (o : Z) : glrStack :=
  mkStack (gss s) (entries s) (cacheEntries s) o (score s) (dead s) (accepted s) (shifted s) (recoverabilityKnown s) (mayRecover s).
Definition set_score (s : glrStack) (sc : Z) : glrStack :=
  mkStack (gss s) (entries s) (cacheEntries s) (byteOffset s) sc (dead s) (accepted s) (shifted s) (recoverabilityKnown s) (mayRecover s).
Definition set_dead (s : glrStack) : glrStack :=
  mkStack (gss s) (entries s) (cacheEntries s) (byteOffset s) (score s) true (accepted s) (shifted s) (recoverabilityKnown s) (mayRecover s).
Definition set_accepted (s : glrStack) : glrStack :=
  mkStack (gss s) (entries s) (cacheEntries s) (byteOffset s) (score s) (dead s) true (shifted s) (recoverabilityKnown s) (mayRecover s).
Definition set_shifted (s : glrStack) : glrStack :=
  mkStack (gss s) (entries s) (cacheEntries s) (byteOffset s) (score s) (dead s) (accepted s) true (recoverabilityKnown s) (mayRecover s).
Definition set_mayRecover (s : glrStack) : glrStack :=
  mkStack (gss s) (entries s) (cacheEntries s) (byteOffset s) (score s) (dead s) (accepted s) (shifted s) (recoverabilityKnown s) true.

Definition slice_of (es : option (list stackEntry)) : list stackEntry := default [] es.
Definition linked (s : glrStack) : bool := match gss s with [] => false | _ => true end.

Definition depth (s : glrStack) : Z := if linked s then len (gss s) else len (slice_of (entries s)).

Definition zero_entry : stackEntry := mkStackEntry 0 None.

Definition top (s : glrStack) : stackEntry :=
  match gss s with
  | e :: _ => e
  | [] => default zero_entry (list.last (slice_of (entries s)))
  end.

Definition ensureGSS (s : glrStack) : go glrStack :=
  if linked s || (len (slice_of (entries s)) =? 0) then Ret s else
  g ← buildGSSStack (slice_of (entries s)) [];
  Ret (set_entries s g (entries s)).

(** The versions of a fork share the list; the slice stays with the first. *)
Definition cloneWithScratch (s : glrStack) : go (glrStack * glrStack) :=
  s ← ensureGSS s;
  Ret (s, mkStack (gss s) None false (byteOffset s) (score s) false false false (recoverabilityKnown s) (mayRecover s)).

Definition ensureEntries (s : glrStack) : glrStack :=
  match entries s with
  | Some _ => s
  | None => if linked s then set_entries s (gss s) (Some (materialize (gss s))) else s
  end.

(** Without packed links, which a list has none of. *)
Definition demoteLinearGSS (s : glrStack) : glrStack * bool :=
  if negb (linked s) then (s, false) else
  let es := materialize (gss s) in
  (mkStack [] (Some es) true (stackByteOffset es) (score s) (dead s) (accepted s) (shifted s) (recoverabilityKnown s) (mayRecover s), true).

Definition entriesForRead (s : glrStack) : option (list stackEntry) :=
  match entries s with
  | Some es => Some es
  | None => if linked s then Some (materialize (gss s)) else None
  end.

Definition pushEntry (s : glrStack) (e : stackEntry) : go glrStack :=
  g ← (if linked s then gss_push (gss s) e else Ret []);
  let es := match entries s with
    | Some es => Some (es ++ [e])
    | None => if linked s then None else Some [e]
    end in
  let s := set_entries s g es in
  Ret (match seNode e with Some n => set_offset s (nEnd n) | None => s end).

(** The slice is cut by its bounds check, or filled again from the list. *)
Definition truncateBeforePush (s : glrStack) (d : Z) : go (glrStack * bool) :=
  if linked s then
    match gss_truncate (gss s) d with
    | None => Ret (s, false)
    | Some g =>
      es ← match entries s with
        | None => Ret None
        | Some es => if d <=? len es then es ← gslice es 0 d; Ret (Some es) else Ret (Some (materialize g))
        end;
      Ret (set_entries s g es, true)
    end
  else if (d <? 0) || (len (slice_of (entries s)) <? d) then Ret (s, false)
  else Ret (set_entries s [] (take (Z.to_nat d) <$> entries s), true).

Definition truncate (s : glrStack) (d : Z) : go (glrStack * bool) :=
  '(s', ok) ← truncateBeforePush s d;
  Ret (if (ok : bool) then set_offset s' (if linked s then gss_byteOffset (gss s') else stackByteOffset (slice_of (entries s'))) else s', ok).

Definition truncateStackForReduce (s : glrStack) (targetDepth : Z) : go (glrStack * bool) :=
  if targetDepth <? 0 then Ret (set_dead s, false) else
  '(s, ok) ← truncateBeforePush s targetDepth;
  Ret (if (ok : bool) then (s, true) else (set_dead s, false)).

(** ** The window of a reduction *)

Record reduceRange := mkRange { rrStart : Z; rrReducedEnd : Z; rrActualEnd : Z; rrTopState : Z }.

(** The loop that steps [start] down over the slice; entry 0 is never a child. *)
Fixpoint reduce_start (es : list stackEntry) (childCount found : Z) (start : nat) : nat * Z :=
  if found <? childCount then
    match start with
    | S (S _ as start') => reduce_start es childCount (if is_child (default zero_entry (es !! start')) then found + 1 else found) start'
    | _ => (start, found)
    end
  else (start, found).

Fixpoint trailing_start (es : list stackEntry) (start : nat) (e : nat) : nat :=
  match e with
  | O => O
  | S i => if (start <=? i)%nat && is_extra (default zero_entry (es !! i)) then trailing_start es start i else e
  end.

Definition computeReduceRangePayload (es : list stackEntry) (childCount : Z) : go (option reduceRange) :=
  let '(start, found) := reduce_start es childCount 0 (length es) in
  if found <? childCount then Ret None else
  below ← index es (Z.of_nat start - 1);
  Ret (Some (mkRange (Z.of_nat start) (Z.of_nat (trailing_start es start (length es))) (len es) (seState below))).

Fixpoint gss_window (g : list stackEntry) (childCount found : Z) (rv : list stackEntry) : option (list stackEntry * Z) :=
  match g with
  | [] => None
  | e :: g =>
    let rv := rv ++ [e] in
    if is_child e then
      if found + 1 =? childCount then
        match g with [] => None | below :: _ => Some (rev rv, seState below) end
      else gss_window g childCount (found + 1) rv
    else gss_window g childCount found rv
  end.

Definition reduceWindowFromGSS (s : glrStack) (childCount : Z) : option (list stackEntry * Z) :=
  if negb (linked s) || (depth s =? 0) then None else
  if childCount =? 0 then Some ([], seState (top s)) else gss_window (gss s) childCount 0 [].

Definition reducedEndBeforeTrailingExtras (es : list stackEntry) : Z := Z.of_nat (trailing_start es 0 (length es)).

Definition reduceWindowRangeFromGSS (s : glrStack) (childCount : Z) : option (list stackEntry * reduceRange) :=
  '(es, topState) ← reduceWindowFromGSS s childCount;
  Some (es, mkRange 0 (reducedEndBeforeTrailingExtras es) (len es) topState).

(** ** Moves *)

Definition extraShiftTargetState (current : Z) (act : ParseAction) : Z :=
  if negb (paExtra act) || negb (paState act =? 0) then paState act else current.

Definition reduceWindowDynamicPrecedence (window : list stackEntry) (act : ParseAction) : Z :=
  i32 (foldl (λ dyn e, i32 (dyn + stackEntryDynamicPrecedence e)) 0 window + paDynamicPrecedence act).

(** The languages whose empty tokens stand for missing ones. *)
Definition shiftTokenIsMissingError (lang : Language) (tok : Token) : bool :=
  tMissing tok ||
  (String.eqb (Name lang) "c" || String.eqb (Name lang) "cpp" || String.eqb (Name lang) "objc")%string &&
  negb (tSymbol tok =? 0) && (tStartByte tok =? tEndByte tok) && (len (tText tok) =? 0).

Section parser.
Context (v : parserActionTableView) (hasRecoverState : list bool) (captureRawShape : bool).

Definition stateCanRecover (state : Z) : bool :=
  (len hasRecoverState =? 0) || default false (zget hasRecoverState state).

Definition pushStackEntry (s : glrStack) (e : stackEntry) : go glrStack :=
  s ← pushEntry s e;
  Ret (if recoverabilityKnown s && negb (mayRecover s) && stateCanRecover (seState e) then set_mayRecover s else s).

Definition applyShiftAction (s : glrStack) (act : ParseAction) (tok : Token) (trackChildErrors : bool) : go (glrStack * bool) :=
  let currentState := seState (top s) in
  let targetState := extraShiftTargetState currentState act in
  let isMissing := shiftTokenIsMissingError (language v) tok in
  let leaf := mkNode (tSymbol tok) (tStartByte tok) (tEndByte tok) targetState currentState 0 0 (paExtra act) isMissing in
  s ← pushStackEntry s (mkStackEntry targetState (Some leaf));
  Ret (set_shifted s, trackChildErrors || isMissing).

(** The parent of a window, before its states are set. *)
Definition newNoTreeReduceNode (act : ParseAction) (window : list stackEntry) (tok : Token) (trackChildErrors extra : bool) (parse preGoto : Z) : noTreeNode :=
  let node start end_ dyn err := mkNode (paSymbol act) start end_ parse preGoto dyn (paProductionID act) extra err in
  if negb captureRawShape then node (tStartByte tok) (tStartByte tok) (i32 (paDynamicPrecedence act)) false else
  let children := filter (λ e, is_child e = true) window in
  let start_of e := match seNode e with Some n => nStart n | None => tStartByte tok end in
  let end_of e := match seNode e with Some n => nEnd n | None => tStartByte tok end in
  node (match list.head children, list.head window with Some e, _ | None, Some e => start_of e | None, None => tStartByte tok end)
    (match list.last children, list.last window with Some e, _ | None, Some e => end_of e | None, None => tStartByte tok end)
    (reduceWindowDynamicPrecedence window act)
    (trackChildErrors && existsb stackEntryNodeHasError window).

Fixpoint push_trailing (s : glrStack) (targetState : Z) (trailing : list stackEntry) : go glrStack :=
  match trailing with
  | [] => Ret s
  | e :: trailing =>
    match retargetStackEntryPayload e targetState with
    | None => push_trailing s targetState trailing
    | Some e => s ← pushStackEntry s e; push_trailing s targetState trailing
    end
  end.

Definition pushNoTreeReduceNode (s : glrStack) (act : ParseAction) (tok : Token) (es : list stackEntry) (r : reduceRange) (trackChildErrors : bool) : go glrStack :=
  gotoState ← lookupGoto v (rrTopState r) (paSymbol act);
  let targetState := if negb (gotoState =? 0) then gotoState else rrTopState r in
  window ← gslice es (rrStart r) (rrReducedEnd r);
  let extra := tNoLookahead tok && (targetState =? rrTopState r) in
  let parent := newNoTreeReduceNode act window tok trackChildErrors extra targetState (rrTopState r) in
  s ← pushStackEntry s (mkStackEntry targetState (Some parent));
  trailing ← gslice es (rrReducedEnd r) (rrActualEnd r);
  push_trailing s targetState trailing.

Definition markReduceApplied (s : glrStack) (act : ParseAction) : glrStack * bool := (set_score s (score s + paDynamicPrecedence act), true).

(** Whether the reduction was done comes with the stack.  A list that merging has
    made branch is killed first when faithful merging is on; versions here are linear,
    so that the test never fires. *)
Definition applyNoTreeReduceActionFromGSS (s : glrStack) (act : ParseAction) (tok : Token) (trackChildErrors : bool) : go (glrStack * bool) :=
  match reduceWindowRangeFromGSS s (paChildCount act) with
  | None => Ret (set_dead s, false)
  | Some (window, r) =>
    '(s, ok) ← truncateStackForReduce s (depth s - rrActualEnd r);
    if negb ok then Ret (s, false) else
    s ← pushNoTreeReduceNode s act tok window r trackChildErrors;
    Ret (markReduceApplied s act)
  end.

(** [applyReduceAction] when [noTreeBenchmarkOnly] is set. *)
Definition applyReduceAction_noTree (s : glrStack) (act : ParseAction) (tok : Token) (es : list stackEntry) (trackChildErrors : bool) : go (glrStack * bool) :=
  r ← computeReduceRangePayload es (paChildCount act);
  match r with
  | None => Ret (set_dead s, false)
  | Some r =>
    '(s, ok) ← truncateBeforePush s (rrStart r);
    if negb ok then Ret (set_dead s, false) else
    s ← pushNoTreeReduceNode s act tok es r trackChildErrors;
    Ret (markReduceApplied s act)
  end.

(** [applyReduceActionDispatch] when [noTreeBenchmarkOnly] is set: the call of
    [applyReduceActionFromGSS] then ends in [applyNoTreeReduceActionFromGSS]. *)
Definition applyReduceActionDispatch_noTree (s : glrStack) (act : ParseAction) (tok : Token) (trackChildErrors : bool) : go (glrStack * bool) :=
  match entries s with
  | Some es => applyReduceAction_noTree s act tok es trackChildErrors
  | None =>
    if negb (cacheEntries s) && linked s then applyNoTreeReduceActionFromGSS s act tok trackChildErrors else
    if cacheEntries s then let s := ensureEntries s in applyReduceAction_noTree s act tok (slice_of (entries s)) trackChildErrors
    else applyReduceAction_noTree s act tok (slice_of (entriesForRead s)) trackChildErrors
  end.

Definition applyAcceptAction (s : glrStack) : glrStack := set_accepted s.
End parser.
