(* ===== verification/ParserStackCorrect.v ===== *)
(** * The representations of a parser stack agree

    Whether a stack version is a slice, a linked list or both (ParserStack.v), its
    moves are those of one list of entries: pushes, cuts and whole reductions do to
    the list what [reduced] says, keep the two representations the same, the byte
    offset that of the last node, and the recoverability bit conservative. *)

From Stdlib Require Import ZArith Lia ZifyBool String.
From stdpp Require Import base tactics list numbers option sets relations.
From S2P Require Import Prelude Tokens ParseTables ParserStack.
Local Open Scope Z_scope.

(** ** The list that a stack stands for, from its top *)

Definition view (s : glrStack) : list stackEntry := if linked s then gss s else rev (slice_of (entries s)).

Definition coherent (s : glrStack) : Prop := linked s = true → ∀ es, entries s = Some es → es = rev (gss s).

(** What the moves leave alone. *)
Definition same_flags (s s' : glrStack) : Prop :=
  cacheEntries s' = cacheEntries s ∧ score s' = score s ∧ dead s' = dead s ∧ accepted s' = accepted s ∧ shifted s' = shifted s ∧ recoverabilityKnown s' = recoverabilityKnown s ∧
  (linked s' = true → linked s = true).

Lemma same_flags_trans s1 s2 s3 : same_flags s1 s2 → same_flags s2 s3 → same_flags s1 s3.
Proof. intros (? & ? & ? & ? & ? & ? & ?) (? & ? & ? & ? & ? & ? & ?). split_and!; try congruence. auto. Qed.

Lemma linked_false s : linked s = false → gss s = [].
Proof. unfold linked. by destruct (gss s). Qed.

Lemma view_linked s e st : coherent s → view s = e :: st → (linked s = true ∧ gss s = e :: st) ∨ (linked s = false ∧ ∃ es, entries s = Some es ∧ es = rev (e :: st)).
Proof.
  unfold view. intros Hc Hv. destruct (linked s); [by left|right]. split; [done|]. destruct (entries s) as [es|]; cbn in Hv; [|done].
  exists es. split; [done|]. by rewrite <-Hv, rev_involutive.
Qed.

Lemma coherent_slice s es : coherent s → entries s = Some es → es = rev (view s).
Proof. intros Hc He. unfold view. destruct (linked s) eqn:El; [by apply Hc|]. rewrite He. cbn. by rewrite rev_involutive. Qed.

Section stack.
Context (v : parserActionTableView) (hasRecoverState : list bool) (captureRawShape : bool).
Notation can_recover := (stateCanRecover hasRecoverState).
Notation push_entry := (pushStackEntry hasRecoverState).

(** A stack between the cut of a reduction and its push: the byte offset may be that
    of a node already gone. *)
Record holds (s : glrStack) (st : list stackEntry) : Prop := {
  ho_view : view s = st;
  ho_coherent : coherent s;
  ho_recover : recoverabilityKnown s = true → mayRecover s = false → ∀ e, e ∈ st → can_recover (seState e) = false }.

Record stack_ok (s : glrStack) (st : list stackEntry) : Prop := {
  so_holds : holds s st;
  so_offset : byteOffset s = gss_byteOffset st }.

Lemma new_ok initial : stack_ok (newGLRStack initial) [mkStackEntry initial None].
Proof using. split; [split|]; done. Qed.

Lemma depth_view s st : holds s st → depth s = len st.
Proof using. intros [<- _ _]. unfold depth, view. destruct (linked s); [done|]. unfold len. by rewrite length_rev. Qed.

Lemma top_view s e st : holds s (e :: st) → top s = e.
Proof using.
  intros [Hv Hc _]. destruct (view_linked s e st Hc Hv) as [[_ E]|(El & es & He & Ees)]; unfold top; [by rewrite E|].
  rewrite (linked_false _ El), He. cbn. rewrite Ees. cbn. by rewrite last_snoc.
Qed.

(** ** Pushes and cuts *)

Lemma push_spec s st e : holds s st → (linked s = true → len st < max_depth) → is_Some (seNode e) →
  ∃ s', push_entry s e = Ret s' ∧ stack_ok s' (e :: st) ∧ same_flags s s'.
Proof using.
  intros [Hv Hc Hr] Hd [n Hn]. unfold pushStackEntry, pushEntry.
  set (g := if linked s then e :: gss s else []). assert ((if linked s then gss_push (gss s) e else Ret []) = Ret g) as ->.
  { unfold g. destruct (linked s) eqn:El; [|done]. unfold gss_push. unfold view in Hv. rewrite El in Hv. rewrite Hv. specialize (Hd eq_refl). by replace (len st =? max_depth) with false by lia. }
  cbn [mbind go_bind]. rewrite Hn. set (es := match entries s with Some es => _ | None => _ end).
  eexists. split; [reflexivity|].
  assert (view (set_entries s g es) = e :: st ∧ coherent (set_entries s g es)) as [Hv' Hc'].
  { unfold g, es, view, coherent, linked in *. cbn. destruct (gss s) as [|e0 g0] eqn:Eg; cbn in *.
    - split; [|done]. destruct (entries s) as [es0|]; cbn in *; [rewrite rev_app_distr; cbn; by rewrite Hv|]. by rewrite <-Hv.
    - split; [by rewrite <-Hv|]. intros _ es1. destruct (entries s) as [es0|]; [|done]. intros [= <-]. by rewrite (Hc eq_refl es0). }
  assert (linked (set_entries s g es) = true → linked s = true) as Hl.
  { unfold g. destruct (linked s) eqn:El; [done|]. unfold linked at 1. cbn. done. }
  set (s1 := set_offset _ _). cbn [recoverabilityKnown mayRecover s1 set_offset set_entries].
  destruct (recoverabilityKnown s && negb (mayRecover s) && can_recover (seState e)) eqn:Eb.
  - split; [|done]. split; [split|]; [done|done|done|]. cbn. by rewrite Hn.
  - split; [|done]. split; [split|]; [done|done| |cbn; by rewrite Hn]. cbn. intros Hk Hm e' [->|Hin]%elem_of_cons; [|by apply Hr].
    rewrite Hk, Hm in Eb. done.
Qed.

Lemma keep_depth_drop g d : 0 < d ≤ len g → keep_depth g d = Some (drop (Z.to_nat (len g - d)) g).
Proof using.
  induction g as [|e g IH]; intros Hd; [unfold len in Hd; cbn in Hd; lia|]. cbn [keep_depth]. rewrite len_cons in *. destruct (Z.ltb_spec d (len g + 1)).
  - rewrite IH by lia. replace (Z.to_nat (len g + 1 - d)) with (S (Z.to_nat (len g - d))) by lia. done.
  - replace (len g + 1 =? d) with true by lia. by replace (Z.to_nat (len g + 1 - d)) with 0%nat by lia.
Qed.

Lemma gss_truncate_drop g d : 0 ≤ d ≤ len g → len g ≤ max_depth → gss_truncate g d = Some (drop (Z.to_nat (len g - d)) g).
Proof using.
  intros Hd Hm. unfold gss_truncate. destruct (Z.leb_spec d 0); [by rewrite drop_ge by (unfold len in *; lia)|].
  replace (len g =? 0) with false by lia. replace (max_depth <? d) with false by lia. replace (len g <? d) with false by lia. apply keep_depth_drop. lia.
Qed.

Lemma take_rev_drop {A} (l : list A) d : 0 ≤ d ≤ len l → take (Z.to_nat d) (rev l) = rev (drop (Z.to_nat (len l - d)) l).
Proof using.
  intros Hd. rewrite <-(take_drop (Z.to_nat (len l - d)) l) at 1. rewrite rev_app_distr. apply take_app_length'. rewrite length_rev, length_drop. unfold len in *. lia.
Qed.

Lemma cut_spec s st d : holds s st → (linked s = true → len st ≤ max_depth) → 0 ≤ d ≤ len st →
  ∃ s', truncateBeforePush s d = Ret (s', true) ∧ holds s' (drop (Z.to_nat (len st - d)) st) ∧ same_flags s s' ∧ byteOffset s' = byteOffset s ∧ mayRecover s' = mayRecover s.
Proof using.
  intros [Hv Hc Hr] Hm Hd. unfold truncateBeforePush.
  assert (∀ s', recoverabilityKnown s' = recoverabilityKnown s → mayRecover s' = mayRecover s → recoverabilityKnown s' = true → mayRecover s' = false →
    ∀ e, e ∈ drop (Z.to_nat (len st - d)) st → can_recover (seState e) = false) as Hr'.
  { intros s' -> -> Hk Hmr e He. apply Hr; [done|done|]. rewrite <-(take_drop (Z.to_nat (len st - d)) st); apply elem_of_app; by right. }
  destruct (linked s) eqn:El.
  - assert (gss s = st) as Eg by (unfold view in Hv; by rewrite El in Hv). specialize (Hm eq_refl). rewrite Eg, gss_truncate_drop by lia. set (g := drop _ st).
    assert (len g = d) as Hg by (unfold g, len in *; rewrite length_drop; lia).
    destruct (entries s) as [es|] eqn:Ee; cbn [mbind go_bind].
    + pose proof (Hc El es Ee) as Ees. rewrite Eg in Ees. assert (len es = len st) as Hl by (rewrite Ees; unfold len; by rewrite length_rev).
      replace (d <=? len es) with true by lia. rewrite gslice_ok by lia. cbn [mbind go_bind]. eexists. split; [done|]. split_and!; [|done..].
      assert (slice es 0 d = rev g) as Esl. { unfold slice. rewrite drop_0, Z.sub_0_r, Ees. by apply take_rev_drop. }
      split; [| |by apply (Hr' (set_entries s g _))].
      * unfold view, linked. cbn. destruct g eqn:Eg'; [cbn; by rewrite Esl|done].
      * intros _ es'. cbn. intros [= <-]. done.
    + eexists. split; [done|]. split_and!; [|done..]. split; [| |by apply (Hr' (set_entries s g None))].
      * unfold view, linked. cbn. by destruct g.
      * by intros _ es'.
  - assert (rev (slice_of (entries s)) = st) as Es by (unfold view in Hv; by rewrite El in Hv).
    assert (len (slice_of (entries s)) = len st) as Hl by (rewrite <-Es; unfold len; by rewrite length_rev).
    replace ((d <? 0) || (len (slice_of (entries s)) <? d)) with false by lia. eexists. split; [done|]. split_and!; [|done..].
    split; [| |by apply (Hr' (set_entries s [] _))].
    + unfold view. cbn. unfold slice_of in *. destruct (entries s) as [es|]; cbn in *; [|rewrite <-Es; symmetry; apply drop_nil].
      assert (es = rev st) as -> by (by rewrite <-Es, rev_involutive). rewrite take_rev_drop by done. by rewrite rev_involutive.
    + done.
Qed.

Lemma cut_below s w rest : holds s (w ++ rest) → (linked s = true → len (w ++ rest) ≤ max_depth) →
  ∃ s', truncateBeforePush s (len rest) = Ret (s', true) ∧ holds s' rest ∧ same_flags s s'.
Proof using.
  intros Hs Hd. rewrite len_app in Hd. pose proof (len_nonneg w). pose proof (len_nonneg rest).
  destruct (cut_spec s (w ++ rest) (len rest) Hs) as (s' & Hrun & Hs' & Hf & _); [intros Hl; specialize (Hd Hl); rewrite len_app; lia|rewrite len_app; lia|].
  exists s'. split_and!; [done| |done]. replace (Z.to_nat (len (w ++ rest) - len rest)) with (length w) in Hs' by (rewrite len_app; unfold len; lia). by rewrite drop_app_length in Hs'.
Qed.

(** ** Windows *)

(** The entries above and with the last of so many children, and those below. *)
Fixpoint pop_window (m : nat) (st : list stackEntry) : option (list stackEntry * list stackEntry) :=
  match m, st with
  | O, _ => Some ([], st)
  | S _, [] => None
  | S m', e :: st =>
    '(w, rest) ← pop_window (if is_child e then m' else m) st;
    Some (e :: w, rest)
  end.

(** The extras on top of a window. *)
Fixpoint split_extras (w : list stackEntry) : list stackEntry * list stackEntry :=
  match w with
  | [] => ([], [])
  | e :: w' => if is_extra e then (e :: (split_extras w').1, (split_extras w').2) else ([], w)
  end.

Lemma pop_window_app m st w rest : pop_window m st = Some (w, rest) → st = w ++ rest.
Proof using.
  revert m w rest. induction st as [|e st IH]; intros [|m] w rest; cbn [pop_window]; [by intros [= <- <-]|done|by intros [= <- <-]|].
  destruct (pop_window _ st) as [[w' rest']|] eqn:E; cbn; [|done]. intros [= <- <-]. cbn. f_equal. by eapply IH.
Qed.

Lemma split_extras_app w : w = (split_extras w).1 ++ (split_extras w).2.
Proof using. induction w as [|e w IH]; cbn; [done|]. destruct (is_extra e); cbn; [by f_equal|done]. Qed.

Lemma split_extras_node w e : e ∈ (split_extras w).1 → is_extra e = true.
Proof using.
  induction w as [|e' w IH]; cbn; [by intros ?%elem_of_nil|]. destruct (is_extra e') eqn:E; cbn; [|by intros ?%elem_of_nil].
  intros [->|?]%elem_of_cons; [done|by apply IH].
Qed.

Lemma lookup_rev_snoc (st : list stackEntry) e tail : (rev (e :: st) ++ tail) !! length st = Some e.
Proof using. cbn. rewrite <-app_assoc. rewrite lookup_app_r by (rewrite length_rev; lia). by rewrite length_rev, Nat.sub_diag. Qed.

Lemma reduce_start_spec es childCount st tail found : es = rev st ++ tail → 0 ≤ found ≤ childCount → st ≠ [] →
  match pop_window (Z.to_nat (childCount - found)) st with
  | Some (_, (_ :: _) as rest) => reduce_start es childCount found (length st) = (length rest, childCount)
  | _ => ∃ k f, reduce_start es childCount found (length st) = (k, f) ∧ f < childCount
  end.
Proof using.
  revert tail found. induction st as [|e st IH]; intros tail found Ees Hf Hne; [done|]. clear Hne.
  destruct (decide (found = childCount)) as [->|Hlt].
  { rewrite Z.sub_diag. cbn [pop_window Z.to_nat]. cbn [length reduce_start]. by rewrite Z.ltb_irrefl. }
  replace (Z.to_nat (childCount - found)) with (S (Z.to_nat (childCount - (found + 1)))) by lia. cbn [pop_window length reduce_start]. replace (found <? childCount) with true by lia.
  destruct st as [|e2 st].
  { destruct (is_child e); [destruct (Z.to_nat (childCount - (found + 1)))|]; cbn; eexists _, _; split; try done; lia. }
  assert (es !! length (e2 :: st) = Some e) as -> by (rewrite Ees; apply lookup_rev_snoc). cbn [default from_option id].
  cbn [length]. assert (es = rev (e2 :: st) ++ e :: tail) as Ees' by (rewrite Ees; cbn; by rewrite <-!app_assoc).
  destruct (is_child e).
  - specialize (IH (e :: tail) (found + 1) Ees' ltac:(lia) ltac:(done)). cbn [length] in IH.
    destruct (pop_window _ (e2 :: st)) as [[w [|b rest]]|]; exact IH.
  - specialize (IH (e :: tail) found Ees' ltac:(lia) ltac:(done)). cbn [length] in IH. replace (Z.to_nat (childCount - found)) with (S (Z.to_nat (childCount - (found + 1)))) in IH by lia.
    destruct (pop_window _ (e2 :: st)) as [[w [|b rest]]|]; exact IH.
Qed.

Lemma trailing_start_spec pre w tail : trailing_start (pre ++ rev w ++ tail) (length pre) (length pre + length w) = (length pre + length (split_extras w).2)%nat.
Proof using.
  revert tail. induction w as [|e w IH]; intros tail; cbn [length split_extras].
  - rewrite Nat.add_0_r. destruct pre as [|p pre]; [done|]. cbn [length trailing_start]. by replace (S (length pre) <=? length pre)%nat with false by (symmetry; apply Nat.leb_gt; lia).
  - rewrite Nat.add_succ_r. cbn [trailing_start]. replace (length pre <=? length pre + length w)%nat with true by (symmetry; apply Nat.leb_le; lia).
    rewrite lookup_app_r by lia. replace (length pre + length w - length pre)%nat with (length w) by lia. rewrite lookup_rev_snoc. cbn [andb default from_option id].
    destruct (is_extra e); cbn [length snd]; [|lia]. specialize (IH (e :: tail)). rewrite <-IH. cbn [rev]. by rewrite <-!app_assoc.
Qed.

(** The slice's window is that of the list. *)
Lemma range_spec st childCount : st ≠ [] → 0 ≤ childCount →
  computeReduceRangePayload (rev st) childCount = Ret match pop_window (Z.to_nat childCount) st with
  | Some (w, (below :: _) as rest) => Some (mkRange (len rest) (len rest + len (split_extras w).2) (len st) (seState below))
  | _ => None
  end.
Proof using.
  intros Hne Hc. unfold computeReduceRangePayload. pose proof (reduce_start_spec (rev st) childCount st [] 0 ltac:(by rewrite app_nil_r) ltac:(lia) Hne) as Hs.
  rewrite length_rev. rewrite Z.sub_0_r in Hs. destruct (pop_window (Z.to_nat childCount) st) as [[w [|b rest]]|] eqn:Ew;
    [destruct Hs as (k & f & -> & Hf); by replace (f <? childCount) with true by lia| |destruct Hs as (k & f & -> & Hf); by replace (f <? childCount) with true by lia].
  rewrite Hs, Z.ltb_irrefl. pose proof (pop_window_app _ _ _ _ Ew) as ->.
  assert (index (rev (w ++ b :: rest)) (Z.of_nat (length (b :: rest)) - 1) = Ret b) as ->.
  { apply index_Ret. replace (Z.of_nat (length (b :: rest)) - 1) with (Z.of_nat (length rest)) by (cbn; lia). rewrite zget_nat, rev_app_distr. apply lookup_rev_snoc. }
  cbn [mbind go_bind]. pose proof (trailing_start_spec (rev (b :: rest)) w []) as Ht. rewrite app_nil_r, <-rev_app_distr, length_rev in Ht.
  rewrite length_app, Nat.add_comm, Ht. unfold len. rewrite length_rev. do 3 f_equal. lia.
Qed.

Lemma gss_window_spec g childCount found rv : found < childCount →
  gss_window g childCount found rv = match pop_window (Z.to_nat (childCount - found)) g with
  | Some (w, below :: _) => Some (rev (rv ++ w), seState below)
  | _ => None
  end.
Proof using.
  revert found rv. induction g as [|e g IH]; intros found rv Hlt; cbn [gss_window];
    replace (Z.to_nat (childCount - found)) with (S (Z.to_nat (childCount - (found + 1)))) by lia; cbn [pop_window]; [done|].
  destruct (is_child e).
  - destruct (Z.eqb_spec (found + 1) childCount) as [<-|].
    + rewrite Z.sub_diag. cbn [pop_window Z.to_nat]. destruct g as [|b g]; [done|]. done.
    + rewrite IH by lia. destruct (pop_window _ g) as [[w [|b rest]]|]; cbn; [done| |done]. by rewrite <-app_assoc.
  - rewrite IH by lia. replace (Z.to_nat (childCount - found)) with (S (Z.to_nat (childCount - (found + 1)))) by lia.
    destruct (pop_window _ g) as [[w [|b rest]]|]; cbn; [done| |done]. by rewrite <-app_assoc.
Qed.

(** The list's own window, counted from its first entry. *)
Lemma gss_range_spec s st childCount : linked s = true → gss s = st → 0 ≤ childCount →
  reduceWindowRangeFromGSS s childCount = match pop_window (Z.to_nat childCount) st with
  | Some (w, below :: _) => Some (rev w, mkRange 0 (len (split_extras w).2) (len w) (seState below))
  | _ => None
  end.
Proof using.
  intros El Eg Hc. unfold reduceWindowRangeFromGSS, reduceWindowFromGSS, depth. rewrite El, Eg. cbn [negb orb]. unfold linked in El. rewrite Eg in El.
  assert (∀ w, reducedEndBeforeTrailingExtras (rev w) = len (split_extras w).2) as Hred.
  { intros w. unfold reducedEndBeforeTrailingExtras. pose proof (trailing_start_spec [] w []) as Ht. cbn [length app] in Ht. rewrite app_nil_r in Ht. rewrite length_rev. cbn in Ht. by rewrite Ht. }
  destruct st as [|e st]; [done|]. rewrite len_cons. pose proof (len_nonneg st). replace (len st + 1 =? 0) with false by lia.
  destruct (Z.eqb_spec childCount 0) as [->|].
  - cbn [pop_window Z.to_nat mbind option_bind]. unfold top. rewrite Eg. done.
  - rewrite gss_window_spec, Z.sub_0_r by lia. destruct (pop_window _ (e :: st)) as [[w [|b rest]]|]; cbn [mbind option_bind]; [done| |done].
    cbn [app]. rewrite Hred. unfold len at 2. by rewrite length_rev.
Qed.

(** ** Reductions *)

Definition retarget (target : Z) (e : stackEntry) : stackEntry := default e (retargetStackEntryPayload e target).

(** What a reduction does to the list: the extras above the last child go back on
    top of the parent, in its state. *)
Definition reduced (act : ParseAction) (tok : Token) (trackChildErrors : bool) (st : list stackEntry) : go (option (list stackEntry)) :=
  match pop_window (Z.to_nat (paChildCount act)) st with
  | Some (w, below :: rest) =>
    gotoState ← lookupGoto v (seState below) (paSymbol act);
    let target := if gotoState =? 0 then seState below else gotoState in
    let parent := newNoTreeReduceNode captureRawShape act (rev (split_extras w).2) tok trackChildErrors (tNoLookahead tok && (target =? seState below)) target (seState below) in
    Ret (Some (map (retarget target) (split_extras w).1 ++ mkStackEntry target (Some parent) :: below :: rest))
  | _ => Ret None
  end.

Lemma push_trailing_spec s st target extras : stack_ok s st → (∀ e, e ∈ extras → is_extra e = true) → (linked s = true → len st + len extras ≤ max_depth) →
  ∃ s', push_trailing hasRecoverState s target (rev extras) = Ret s' ∧ stack_ok s' (map (retarget target) extras ++ st) ∧ same_flags s s'.
Proof using.
  revert s st. induction extras as [|e extras IH] using rev_ind; intros s st Hs Hx Hd; [by exists s|]. rewrite rev_app_distr. cbn [rev app push_trailing].
  assert (is_extra e = true) as He by (apply Hx; set_solver). rewrite len_app, len_cons in Hd. change (len (@nil stackEntry)) with 0 in Hd. pose proof (len_nonneg extras).
  destruct (retargetStackEntryPayload e target) as [e'|] eqn:Er; [|unfold retargetStackEntryPayload, is_extra, stackEntryHasNode in *; by destruct (seNode e)].
  destruct (push_spec s st e') as (s1 & -> & Hs1 & Hf1); [apply Hs|intros Hl; specialize (Hd Hl); lia|unfold retargetStackEntryPayload in Er; destruct (seNode e); [injection Er as <-; by eexists|done]|].
  cbn [mbind go_bind]. destruct (IH s1 (e' :: st) Hs1) as (s2 & Hrun & Hs2 & Hf2); [intros; apply Hx; set_solver|intros Hl; destruct Hf1 as (_ & _ & _ & _ & _ & _ & Hl1); specialize (Hd (Hl1 Hl)); rewrite len_cons; lia|].
  exists s2. split_and!; [done| |by eapply same_flags_trans]. rewrite map_app. cbn [map]. unfold retarget at 2. rewrite Er. cbn. by rewrite <-app_assoc.
Qed.

(** The parent goes on the cut stack, and the extras on it. *)
Lemma push_node_spec s act tok es r track w below rest :
  holds s (below :: rest) → gslice es (rrStart r) (rrReducedEnd r) = Ret (rev (split_extras w).2) → gslice es (rrReducedEnd r) (rrActualEnd r) = Ret (rev (split_extras w).1) →
  rrTopState r = seState below → (linked s = true → len w + len rest + 2 ≤ max_depth) → pop_window (Z.to_nat (paChildCount act)) (w ++ below :: rest) = Some (w, below :: rest) →
  match reduced act tok track (w ++ below :: rest) with
  | Ret (Some st') => ∃ s', pushNoTreeReduceNode v hasRecoverState captureRawShape s act tok es r track = Ret s' ∧ stack_ok s' st' ∧ same_flags s s'
  | Ret None => False
  | Panic => pushNoTreeReduceNode v hasRecoverState captureRawShape s act tok es r track = Panic
  | NoFuel => pushNoTreeReduceNode v hasRecoverState captureRawShape s act tok es r track = NoFuel
  end.
Proof using.
  intros Hs Hwin Htr Htop Hd Hw. unfold reduced, pushNoTreeReduceNode. rewrite Hw, Htop. destruct (lookupGoto v (seState below) (paSymbol act)) as [gt| |]; cbn [mbind go_bind]; [|done..].
  rewrite Hwin, Htr. cbn [mbind go_bind]. replace (if negb (gt =? 0) then gt else seState below) with (if gt =? 0 then seState below else gt) by (by destruct (gt =? 0)).
  set (target := if gt =? 0 then _ else _). set (parent := newNoTreeReduceNode _ _ _ _ _ _ _ _).
  pose proof (split_extras_app w) as Esp. assert (len w = len (split_extras w).1 + len (split_extras w).2) as Hlw by (rewrite Esp at 1; apply len_app).
  pose proof (len_nonneg (split_extras w).1). pose proof (len_nonneg (split_extras w).2).
  destruct (push_spec s (below :: rest) (mkStackEntry target (Some parent)) Hs) as (s1 & -> & Hs1 & Hf1); [intros Hl; specialize (Hd Hl); rewrite len_cons; lia|by eexists|]. cbn [mbind go_bind].
  destruct (push_trailing_spec s1 _ target (split_extras w).1 Hs1) as (s2 & Hrun & Hs2 & Hf2); [apply split_extras_node|intros Hl; destruct Hf1 as (_ & _ & _ & _ & _ & _ & Hl1); specialize (Hd (Hl1 Hl)); rewrite !len_cons; lia|].
  exists s2. split_and!; [done|done|by eapply same_flags_trans].
Qed.

(** A reduction of a stack as one of its list. *)
Definition reduces (s : glrStack) (act : ParseAction) (tok : Token) (track : bool) (st : list stackEntry) (run : go (glrStack * bool)) : Prop :=
  match reduced act tok track st with
  | Ret (Some st') => ∃ s', run = Ret (s', true) ∧ stack_ok s' st' ∧ score s' = score s + paDynamicPrecedence act ∧
      dead s' = dead s ∧ accepted s' = accepted s ∧ shifted s' = shifted s ∧ (linked s' = true → linked s = true)
  | Ret None => ∃ s', run = Ret (s', false) ∧ stack_ok s' st ∧ dead s' = true ∧ score s' = score s ∧ accepted s' = accepted s ∧ shifted s' = shifted s
  | Panic => run = Panic
  | NoFuel => run = NoFuel
  end.

Lemma dead_ok s st : stack_ok s st → stack_ok (set_dead s) st.
Proof using. intros [[Hv Hc Hr] Ho]. by split; [split|]. Qed.

Lemma score_ok s st n : stack_ok s st → stack_ok (set_score s n) st.
Proof using. intros [[Hv Hc Hr] Ho]. by split; [split|]. Qed.

Lemma slice_rev_app (w rest : list stackEntry) : slice (rev (w ++ rest)) (len rest) (len rest + len w) = rev w.
Proof using. unfold slice. rewrite rev_app_distr. rewrite drop_app_length' by (rewrite length_rev; unfold len; lia). apply take_ge. rewrite length_rev. unfold len. lia. Qed.

Lemma slice_reduce_spec s st act tok track : stack_ok s st → st ≠ [] → (linked s = true → len st < max_depth) → 0 ≤ paChildCount act →
  reduces s act tok track st (applyReduceAction_noTree v hasRecoverState captureRawShape s act tok (rev st) track).
Proof using.
  intros Hs Hne Hd Hc. unfold reduces, applyReduceAction_noTree. rewrite range_spec by done. cbn [mbind go_bind].
  destruct (pop_window (Z.to_nat (paChildCount act)) st) as [[w [|below rest]]|] eqn:Ew; [unfold reduced; rewrite Ew; by exists (set_dead s); split_and!; [|apply dead_ok|..]| |unfold reduced; rewrite Ew; by exists (set_dead s); split_and!; [|apply dead_ok|..]].
  pose proof (pop_window_app _ _ _ _ Ew) as ->. cbn [rrStart]. rewrite len_app, len_cons in Hd. pose proof (len_nonneg w). pose proof (len_nonneg rest).
  destruct (cut_below s w (below :: rest) (so_holds _ _ Hs)) as (s1 & -> & Hs1 & Hf1); [intros Hl; specialize (Hd Hl); rewrite len_app, len_cons; lia|]. cbn [mbind go_bind negb].
  set (r := mkRange _ _ _ _). pose proof (split_extras_app w) as Esp. set (ex := (split_extras w).1) in *. set (ch := (split_extras w).2) in *.
  assert (len w = len ex + len ch) as Hlw by (rewrite Esp; apply len_app). pose proof (len_nonneg ex). pose proof (len_nonneg ch).
  assert (gslice (rev (w ++ below :: rest)) (rrStart r) (rrReducedEnd r) = Ret (rev ch)) as Hwin.
  { cbn. rewrite gslice_ok; [|rewrite ?len_cons; lia|rewrite ?len_cons; lia|rewrite len_cons; unfold len in *; rewrite length_rev, length_app; cbn [length]; lia].
    f_equal. rewrite Esp, <-app_assoc. rewrite rev_app_distr, slice_app_l; [apply slice_rev_app|rewrite len_cons; lia|unfold len; rewrite length_rev, length_app; cbn [length]; lia]. }
  assert (gslice (rev (w ++ below :: rest)) (rrReducedEnd r) (rrActualEnd r) = Ret (rev ex)) as Htr.
  { cbn. rewrite gslice_ok; [|rewrite ?len_cons; lia|rewrite len_app, !len_cons; lia|rewrite len_app; unfold len in *; rewrite length_rev, length_app; lia].
    f_equal. rewrite Esp, <-app_assoc. replace (len (below :: rest) + len ch) with (len (ch ++ below :: rest)) by (rewrite len_app; lia).
    replace (len (ex ++ ch ++ below :: rest)) with (len (ch ++ below :: rest) + len ex) by (rewrite !len_app; lia). apply slice_rev_app. }
  pose proof (push_node_spec s1 act tok _ r track w below rest Hs1 Hwin Htr eq_refl ltac:(destruct Hf1 as (_ & _ & _ & _ & _ & _ & Hl1); intros Hl; specialize (Hl1 Hl); try specialize (Hd Hl1); lia) Ew) as Hp.
  destruct (reduced act tok track (w ++ below :: rest)) as [[st'|]| |]; [|done|by rewrite Hp|by rewrite Hp].
  destruct Hp as (s2 & -> & Hs2 & Hf2). cbn [mbind go_bind]. destruct (same_flags_trans _ _ _ Hf1 Hf2) as (_ & Hsc & Hde & Hac & Hsh & _ & Hlk).
  eexists. split; [done|]. cbn. split_and!; [by apply score_ok|by rewrite Hsc|done..].
Qed.

Lemma list_reduce_spec s st act tok track : stack_ok s st → linked s = true → len st < max_depth → 0 ≤ paChildCount act →
  reduces s act tok track st (applyNoTreeReduceActionFromGSS v hasRecoverState captureRawShape s act tok track).
Proof using.
  intros Hs El Hd Hc. assert (gss s = st) as Eg by (destruct Hs as [[Hv _ _] _]; unfold view in Hv; by rewrite El in Hv).
  unfold reduces, applyNoTreeReduceActionFromGSS. rewrite (gss_range_spec s st) by done.
  destruct (pop_window (Z.to_nat (paChildCount act)) st) as [[w [|below rest]]|] eqn:Ew; [unfold reduced; rewrite Ew; by exists (set_dead s); split_and!; [|apply dead_ok|..]| |unfold reduced; rewrite Ew; by exists (set_dead s); split_and!; [|apply dead_ok|..]].
  pose proof (pop_window_app _ _ _ _ Ew) as Est. rewrite (depth_view s st (so_holds _ _ Hs)). cbn [rrActualEnd].
  assert (len st - len w = len (below :: rest)) as Hdep by (rewrite Est, len_app; lia). rewrite Hdep. clear Eg. subst st. rewrite len_app, len_cons in Hd. pose proof (len_nonneg w). pose proof (len_nonneg rest).
  unfold truncateStackForReduce. replace (len (below :: rest) <? 0) with false by (rewrite len_cons; lia).
  destruct (cut_below s w (below :: rest) (so_holds _ _ Hs)) as (s1 & -> & Hs1 & Hf1); [intros _; rewrite len_app, len_cons; lia|]. cbn [mbind go_bind negb].
  set (r := mkRange _ _ _ _). pose proof (split_extras_app w) as Esp. set (ex := (split_extras w).1) in *. set (ch := (split_extras w).2) in *.
  assert (len w = len ex + len ch) as Hlw by (rewrite Esp; apply len_app). pose proof (len_nonneg ex). pose proof (len_nonneg ch). assert (len (rev w) = len w) as Hlr by (unfold len; by rewrite length_rev).
  assert (gslice (rev w) (rrStart r) (rrReducedEnd r) = Ret (rev ch)) as Hwin.
  { cbn. rewrite gslice_ok by lia. f_equal. rewrite Esp, rev_app_distr, slice_app_l; [|lia|unfold len; rewrite length_rev; lia]. replace (len ch) with (len (rev ch)) by (unfold len; by rewrite length_rev). apply slice_all. }
  assert (gslice (rev w) (rrReducedEnd r) (rrActualEnd r) = Ret (rev ex)) as Htr.
  { cbn. rewrite gslice_ok by lia. f_equal. rewrite Hlw, Esp, Z.add_comm. apply slice_rev_app. }
  pose proof (push_node_spec s1 act tok _ r track w below rest Hs1 Hwin Htr eq_refl ltac:(destruct Hf1 as (_ & _ & _ & _ & _ & _ & Hl1); intros Hl; specialize (Hl1 Hl); try specialize (Hd Hl1); lia) Ew) as Hp.
  destruct (reduced act tok track (w ++ below :: rest)) as [[st'|]| |]; [|done|by rewrite Hp|by rewrite Hp].
  destruct Hp as (s2 & -> & Hs2 & Hf2). cbn [mbind go_bind]. destruct (same_flags_trans _ _ _ Hf1 Hf2) as (_ & Hsc & Hde & Hac & Hsh & _ & Hlk).
  eexists. split; [done|]. cbn. split_and!; [by apply score_ok|by rewrite Hsc|done..].
Qed.

(** ** Stacks without a list *)

(** A shift of the parser pushes a leaf. *)
Lemma shift_spec s rst act tok track : stack_ok s rst → (linked s = true → len rst < max_depth) →
  ∃ s' track', applyShiftAction v hasRecoverState s act tok track = Ret (s', track') ∧ (linked s' = true → linked s = true) ∧ ∃ m, nExtra m = paExtra act ∧
    stack_ok s' (mkStackEntry (extraShiftTargetState (seState (top s)) act) (Some m) :: rst).
Proof using.
  intros Hk Hd. unfold applyShiftAction. set (leaf := mkNode _ _ _ _ _ _ _ _ _).
  destruct (push_spec s rst (mkStackEntry (extraShiftTargetState (seState (top s)) act) (Some leaf)) (so_holds _ _ Hk)) as (s1 & -> & Hk1 & Hf); [done|by eexists|].
  cbn [mbind go_bind]. eexists _, _. split; [done|]. destruct Hf as (_ & _ & _ & _ & _ & _ & Hl1). split; [done|].
  exists leaf. split; [done|]. destruct Hk1 as [[Hv Hc Hr] Ho]. by split; [split|].
Qed.

Lemma flat_shift s rst act tok track : stack_ok s rst → linked s = false →
  ∃ s' track', applyShiftAction v hasRecoverState s act tok track = Ret (s', track') ∧ linked s' = false ∧ ∃ m, nExtra m = paExtra act ∧
    stack_ok s' (mkStackEntry (extraShiftTargetState (seState (top s)) act) (Some m) :: rst).
Proof using.
  intros Hk Hl. destruct (shift_spec s rst act tok track Hk) as (s' & track' & Hrun & Hl' & Hm); [by rewrite Hl|]. exists s', track'. split_and!; [done| |done].
  destruct (linked s'); [|done]. rewrite Hl in Hl'. by discriminate (Hl' eq_refl).
Qed.

(** A stack that is a slice only stays one. *)
Lemma flat_reduce s rst act tok track rst' : stack_ok s rst → linked s = false → rst ≠ [] → 0 ≤ paChildCount act → reduced act tok track rst = Ret (Some rst') →
  ∃ s', applyReduceActionDispatch_noTree v hasRecoverState captureRawShape s act tok track = Ret (s', true) ∧ stack_ok s' rst' ∧ linked s' = false.
Proof using.
  intros Hk Hl Hne Hc Hred. assert (entries s = Some (rev rst)) as Ee.
  { destruct rst as [|e rst]; [done|]. destruct Hk as [[Hv Hco _] _]. destruct (view_linked s e rst Hco Hv) as [[El _]|(_ & es & -> & ->)]; [congruence|done]. }
  unfold applyReduceActionDispatch_noTree. rewrite Ee. assert (linked s = true → len rst < max_depth) as Hd by (by rewrite Hl).
  pose proof (slice_reduce_spec s rst act tok track Hk Hne Hd Hc) as H0. unfold reduces in H0. rewrite Hred in H0.
  destruct H0 as (s' & -> & Hk' & _ & _ & _ & _ & Hl'). exists s'. split_and!; [done|done|]. destruct (linked s'); [|done]. rewrite Hl in Hl'. by discriminate (Hl' eq_refl).
Qed.

(** ** Changes of representation *)

Inductive reshaped : glrStack → glrStack → Prop :=
| reshaped_linked s s' : ensureGSS s = Ret s' → reshaped s s'
| reshaped_sliced s : reshaped s (ensureEntries s)
| reshaped_demoted s : reshaped s (demoteLinearGSS s).1
| reshaped_base s s' c : cloneWithScratch s = Ret (s', c) → reshaped s s'
| reshaped_fork s s' c : cloneWithScratch s = Ret (s', c) → reshaped s c.

Lemma build_spec es g : len es + len g ≤ max_depth → buildGSSStack es g = Ret (rev es ++ g).
Proof using.
  revert g. induction es as [|e es IH]; intros g Hd; cbn [buildGSSStack]; [done|]. rewrite len_cons in Hd. pose proof (len_nonneg es). unfold gss_push.
  replace (len g =? max_depth) with false by lia. cbn [mbind go_bind]. rewrite IH by (rewrite len_cons; lia). cbn [rev]. by rewrite <-app_assoc.
Qed.

Lemma ensureGSS_ok s st : stack_ok s st → len st ≤ max_depth → ∃ s', ensureGSS s = Ret s' ∧ stack_ok s' st ∧ (st ≠ [] → gss s' = st).
Proof using.
  intros Hs Hd. pose proof Hs as [[Hv Hc Hr] Ho]. unfold ensureGSS. destruct (linked s) eqn:El; cbn [orb].
  { exists s. unfold view in Hv. rewrite El in Hv. done. }
  assert (rev (slice_of (entries s)) = st) as Es by (unfold view in Hv; by rewrite El in Hv). pose proof (linked_false s El) as Eg. destruct (Z.eqb_spec (len (slice_of (entries s))) 0) as [E0|E0].
  { exists s. split_and!; [done|done|]. intros Hne. destruct Hne. rewrite <-Es. destruct (slice_of (entries s)) as [|e l]; [done|]. rewrite len_cons in E0. pose proof (len_nonneg l). lia. }
  rewrite build_spec by (rewrite <-Es in Hd; unfold len in *; rewrite length_rev in Hd; cbn; lia). cbn [mbind go_bind]. rewrite app_nil_r, Es. eexists. split; [done|]. split; [|done].
  split; [split|]; [|by intros _ es He; cbn in *; rewrite He in Es; cbn in Es; rewrite <-Es, rev_involutive|done|done].
  unfold view, linked. cbn. destruct st; [done|done].
Qed.

Lemma reshaped_ok s s' st : reshaped s s' → len st ≤ max_depth → stack_ok s st → stack_ok s' st.
Proof using.
  intros Hr Hd Hs. destruct Hr as [s s' H|s|s|s s' c H|s s' c H].
  - destruct (ensureGSS_ok s st Hs Hd) as (s1 & E & Hs1 & _). rewrite H in E. by injection E as ->.
  - unfold ensureEntries. destruct (entries s) as [es|] eqn:Ee; [done|]. destruct (linked s) eqn:El; [|done]. destruct Hs as [[Hv Hc Hr] Ho].
    split; [split|]; [by unfold view, linked in *; cbn; destruct (gss s)|by intros _ es [= <-]|done|done].
  - unfold demoteLinearGSS. destruct (linked s) eqn:El; [|done]. destruct Hs as [[Hv Hc Hr] Ho]. unfold view in Hv. rewrite El in Hv. cbn.
    assert (rev (materialize (gss s)) = st) as Em by (unfold materialize; by rewrite rev_involutive).
    split; [split|]; [done|done|done|]. cbn. unfold stackByteOffset. by rewrite Em.
  - unfold cloneWithScratch in H. destruct (ensureGSS_ok s st Hs Hd) as (s1 & E & Hs1 & _). rewrite E in H. cbn in H. by injection H as <- _.
  - unfold cloneWithScratch in H. destruct (ensureGSS_ok s st Hs Hd) as (s1 & E & Hs1 & Hg). rewrite E in H. cbn in H. injection H as _ <-. destruct Hs1 as [[Hv Hc Hr] Ho].
    split; [split|]; [|done|done|done]. unfold view, linked. cbn. destruct (gss s1) as [|e g] eqn:Eg; [|by rewrite <-Hg by (intros ->; unfold view, linked in Hv; rewrite Eg in Hv; done)].
    destruct st; [done|]. by discriminate Hg.
Qed.

(** A reduction through any representation. *)
Lemma dispatch_reduce_spec s st act tok track : stack_ok s st → st ≠ [] → (linked s = true → len st < max_depth) → 0 ≤ paChildCount act →
  reduces s act tok track st (applyReduceActionDispatch_noTree v hasRecoverState captureRawShape s act tok track).
Proof using.
  intros Hs Hne Hd Hc. unfold applyReduceActionDispatch_noTree. destruct (entries s) as [es|] eqn:Ee.
  { pose proof Hs as [[Hv Hco _] _]. rewrite (coherent_slice s es Hco Ee), Hv. by apply slice_reduce_spec. }
  destruct (linked s) eqn:El; [|destruct Hs as [[Hv _ _] _]; unfold view in Hv; rewrite El, Ee in Hv; by destruct Hne]. specialize (Hd eq_refl).
  destruct (cacheEntries s) eqn:Eca; cbn [negb andb]; [|by apply list_reduce_spec].
  assert (stack_ok (ensureEntries s) st) as Hs' by (apply (reshaped_ok s); [constructor|lia|done]). pose proof Hs' as [[Hv Hco _] _].
  assert (entries (ensureEntries s) = Some (rev st)) as -> by (unfold ensureEntries; rewrite Ee, El; cbn; unfold materialize; destruct Hs as [[Hv0 _ _] _]; unfold view in Hv0; rewrite El in Hv0; by rewrite Hv0).
  assert (score (ensureEntries s) = score s ∧ dead (ensureEntries s) = dead s ∧ accepted (ensureEntries s) = accepted s ∧ shifted (ensureEntries s) = shifted s) as (E1 & E2 & E3 & E4) by (unfold ensureEntries; by rewrite Ee, El).
  pose proof (slice_reduce_spec (ensureEntries s) st act tok track Hs' Hne (λ _, Hd) Hc) as H. unfold reduces in *. rewrite E1, E2, E3, E4 in H. rewrite El. destruct (reduced act tok track st) as [[st'|]| |]; [|done..]. destruct H as (s1 & H & ? & ? & ? & ? & ? & _). by exists s1.
Qed.

(** C12.  A reduction of the lane that builds no tree (the flag
    [noTreeBenchmarkOnly] is set) does the same to a stack version however the version
    is kept: as a slice, as a linked list, as both, and across promotion, forking,
    materialisation and demotion.  The version is a linear, non-empty stack below the
    depth limit.  With too few entries it dies and keeps its entries.  Otherwise the
    children and the extras between them are replaced by a parent in the goto state,
    the extras above the last child go back on top of it in that state, the score
    takes the production's dynamic precedence, and the list and the slice, the byte
    offset and the recoverability bit stay true.  The reductions that build trees, where a
    unary reduction may put its child back, are not covered. *)
Theorem noTree_reduce_refines s0 s st act tok track : stack_ok s0 st → rtc reshaped s0 s → st ≠ [] → len st < max_depth → 0 ≤ paChildCount act →
  reduces s act tok track st (applyReduceActionDispatch_noTree v hasRecoverState captureRawShape s act tok track).
Proof using.
  intros Hs0 Hr Hne Hd Hc. apply dispatch_reduce_spec; [|done|done|done].
  clear Hc. induction Hr as [s|s1 s2 s3 H12 _ IH]; [done|]. apply IH. apply (reshaped_ok s1); [done|lia|done].
Qed.
End stack.

(** ** A stack with extras *)

(** Two tokens with an extra between them and one after them, over tables with one
    goto. *)
Definition pair_entries : list stackEntry :=
  [mkStackEntry 1 None; mkStackEntry 3 (Some (mkNode 1 0 1 3 1 0 0 false false)); mkStackEntry 3 (Some (mkNode 2 1 2 3 3 0 0 true false));
   mkStackEntry 4 (Some (mkNode 1 2 3 4 3 5 0 false false)); mkStackEntry 4 (Some (mkNode 2 3 4 4 4 0 0 true false))].
Definition pair_stack : glrStack := mkStack [] (Some pair_entries) true 4 0 false false false true true.
Definition pair_language : Language := mkLanguage "pairs" true 6 5 5 2 1 [] [] [] [] {[largeStateGotoKey 1 5 := 7]} [] [] 0.
Definition pair_view : parserActionTableView := mkView pair_language (languageDenseLimit pair_language) (LargeStateCount pair_language) [] [].
Definition pair_action : ParseAction := mkParseAction ParseActionReduce 0 5 2 3 0 false false false.

Definition pair_fork : glrStack := match cloneWithScratch pair_stack with Ret (_, c) => c | _ => pair_stack end.

Definition shape_of (r : go (option (list stackEntry))) : option (list (Z * option Z * option Z)) :=
  match r with
  | Ret (Some st) => Some (map (λ e, (seState e, option_map nSymbol (seNode e), option_map nDynPrec (seNode e))) st)
  | _ => None
  end.

Lemma noTree_reduce_refines_witness :
  reduces pair_view [] true pair_fork pair_action zeroToken true (rev pair_entries)
    (applyReduceActionDispatch_noTree pair_view [] true pair_fork pair_action zeroToken true) ∧
  shape_of (reduced pair_view true pair_action zeroToken true (rev pair_entries)) = Some [(7, Some 2, Some 0); (7, Some 5, Some 8); (1, None, None)].
Proof.
  split; [|vm_compute; reflexivity].
  apply (noTree_reduce_refines pair_view [] true pair_stack pair_fork (rev pair_entries)); [split; [split|]| |discriminate|vm_compute; reflexivity|discriminate].
  - reflexivity.
  - discriminate.
  - discriminate.
  - reflexivity.
  - apply rtc_once. by eapply reshaped_fork.
Defined.
