(* ===== verification/LrRuntime.v ===== *)
(** * The parser on the runtime tables

    The stack of the parser (ParserStack.v) driven by the tables that
    [buildParseTables] wrote (Assemble.v): a token is shifted, a window of the stack
    reduced (on the lane that builds no tree), or the input accepted, by any of the
    actions the tables have for the state on top and the next token.  Extras are
    shifted in every state and do not count.  This machine, one version of the stack
    that chooses among the actions, makes the moves of the LR machine on the LR tables
    (LrParse.v), so it accepts the sentences of the grammar with extras anywhere.

    Three stages of the table compiler are composed at the end: LR tables by the LALR
    builder (LrTables.v), merged when the grammar asks for compact states
    (LrMinimize.v), written for the runtime.  Between the first two the generator
    resolves conflicts (not modelled): here every action of a conflict is kept.  After
    the second it adds chains for nonterminal extras, which returns at once for a
    grammar without productions for extras. *)

From Stdlib Require Import ZArith Lia ZifyBool String.
From stdpp Require Import base tactics list numbers option relations gmap fin_maps.
From S2P Require Import Prelude SliceSort Tokens ParseTables Regex RegexParse Nfa NfaRule NfaCombined LexDfa Bitset LrGrammar LrFirst Lr0 Lr0Closure Lr0Correct Lalr LalrSteps LalrSound.
From S2P Require Import LalrExact LrMinimize LrSignature LrMerge LrMinimizeCorrect LrMinimizeRuns LrTables LrTablesCorrect LrParse LrLanguage Assemble AssembleRows AssembleCorrect.
From S2P Require Import ParserStack ParserStackCorrect.
Local Open Scope Z_scope.

(** ** The machine *)

Section machine.
Context (v : parserActionTableView) (hasRecoverState : list bool) (captureRawShape : bool) (eof : Token).

(** The next token, or the end of input. *)
Definition lookahead (w : list Token) : Token := default eof (list.head w).

(** An action the tables have for the state on top. *)
Definition offers (s : glrStack) (tok : Token) (act : ParseAction) : Prop :=
  ∃ entry, lookupAction v (seState (top s)) (tSymbol tok) = Ret (Some entry) ∧ act ∈ peActions entry.

Inductive parser_step : glrStack * list Token → glrStack * list Token → Prop :=
| parser_shift s tok w act track s' track' : offers s tok act → paType act = ParseActionShift →
    applyShiftAction v hasRecoverState s act tok track = Ret (s', track') → parser_step (s, tok :: w) (s', w)
| parser_reduce s w act track s' : offers s (lookahead w) act → paType act = ParseActionReduce →
    applyReduceActionDispatch_noTree v hasRecoverState captureRawShape s act (lookahead w) track = Ret (s', true) → parser_step (s, w) (s', w).

(** Some choice of actions reads the whole input and accepts. *)
Definition parser_accepts (w : list Token) : Prop :=
  ∃ s act, rtc parser_step (newGLRStack (InitialState (language v)), w) (s, []) ∧ offers s eof act ∧ paType act = ParseActionAccept.
End machine.

(** ** Tables of an automaton fit the runtime *)

Lemma automaton_fits ng t at_prefix : lalr_grammar ng → lr_automaton ng t at_prefix → tables_ok t → 0 ≤ StateCount t < 2 ^ 16 → len (Symbols ng) < 2 ^ 16 →
  (∀ x, x ∈ ExtraSymbols ng → 0 ≤ x) → rows_fit ng t.
Proof.
  intros Hng Ha Hok Hn HN Hx. split; [done|done| | | |done].
  - intros s x acts Hs Ea. destruct (au_reached _ _ _ Ha s Hs) as (g & Hg). destruct (au_plain _ _ _ Ha g s Hg x acts Ea) as [Hne _].
    assert (∀ a, a ∈ acts → row_has (actions_of t s) x (skel a)) as Hh by (intros a Hin; by exists acts, a). split.
    + destruct acts as [|a acts]; [done|]. destruct (au_token _ _ _ Ha g s x _ Hg (Hh a ltac:(left))) as [->|(p & Hp & Hin)]; [done|].
      by apply (gw_rhs _ (lg_wf _ (la_lr0 _ Hng)) p x Hp).
    + apply list.Forall_forall. intros a Hin. split.
      * intros Hk. destruct (Hok s Hs) as [Hr _]. specialize (Hr x acts Ea a Hin Hk). lia.
      * intros Hk. pose proof (Hh a Hin) as H. unfold skel in H. rewrite Hk in H. destruct (au_reduced _ _ _ Ha g s x _ _ Hg H) as (p & Hp & _). by eexists.
  - intros s x acts a Hs Ea Hin Hk. destruct (Hok s Hs) as [Hr _]. by apply (Hr x acts Ea).
  - intros s B q Hs Eg. destruct (Hok s Hs) as [_ Hr]. specialize (Hr B q Eg). destruct (au_reached _ _ _ Ha s Hs) as (g & Hg).
    pose proof (au_gone _ _ _ Ha g s B q Hg Eg) as Hq. destruct (decide (q = 0)) as [->|]; [|lia]. pose proof (au_first _ _ _ Ha _ Hq). by destruct g.
Qed.

(** ** The two machines *)

Section runtime.
Context `{SliceSort} (ng : NormalizedGrammar) (Hng : lalr_grammar ng) (Hprod : productive ng) (Hplain : ∀ p, p ∈ Productions ng → prIsExtra p = false) (HN : len (Symbols ng) < 2 ^ 16).
Context (Hextras : ∀ x, x ∈ ExtraSymbols ng → 0 < x < TokenCount ng ∧ ¬ occurs ng x).
Context (t : LRTables) (Hok : tables_ok t) (Hn0 : 0 < StateCount t) (at_prefix : list Z → Z → Prop) (Ha : lr_automaton ng t at_prefix).
Context (lang : Language) (Hrt : runtime_tables ng t lang).
Context (hasRecoverState : list bool) (captureRawShape : bool) (eof : Token) (Heof : tSymbol eof = 0 ∧ tNoLookahead eof = false).

Notation T := (TokenCount ng).
Notation n := (StateCount t).
Notation v := (derived_view lang).
Notation reads := (reads_step (Productions ng) t).
Notation step := (parser_step v hasRecoverState captureRawShape eof).
Notation next := (lookahead eof).

(** The stacks are the same but for extras, which are in the state below them. *)
Inductive same_stack : list LrMinimizeCorrect.entry → list stackEntry → Prop :=
| same_start : same_stack lr_start [mkStackEntry 1 None]
| same_push s st rst m : same_stack st rst → nExtra m = false → same_stack ((s, false) :: st) (mkStackEntry (s + 1) (Some m) :: rst)
| same_extra st e rst m : same_stack st (e :: rst) → nExtra m = true → same_stack st (mkStackEntry (seState e) (Some m) :: e :: rst).

Lemma same_top st rst : same_stack st rst → ∃ s st' e rst', st = (s, false) :: st' ∧ rst = e :: rst' ∧ seState e = s + 1.
Proof using.
  induction 1 as [|s st rst m _ IH Hm|st e rst m _ IH Hm]; [eexists 0, [], _, _; done|eexists s, st, _, _; done|].
  destruct IH as (s & st' & e' & rst' & -> & [= <- <-] & E). eexists s, st', _, _. split_and!; [done..|]. done.
Qed.

Lemma same_pop m st rst q e' st' : same_stack st rst → pop_children m st = Some ((q, e') :: st') →
  ∃ w below rest, pop_window m rst = Some (w, below :: rest) ∧ same_stack ((q, e') :: st') (below :: rest) ∧ seState below = q + 1.
Proof using.
  intros Hs. revert m. induction Hs as [|s st rst nd Hs IH Hx|st e rst nd Hs IH Hx]; intros [|m] Hp.
  - injection Hp as <- <- <-. exists [], (mkStackEntry 1 None), []. split_and!; [done|constructor|done].
  - by destruct m.
  - injection Hp as <- <- <-. eexists [], _, rst. split_and!; [done|by constructor|done].
  - cbn in Hp. destruct (IH m Hp) as (w & below & rest & Hw & Hr & Eb). eexists (_ :: w), below, rest. split_and!; [|done..]. cbn [pop_window].
    unfold is_child, stackEntryHasNode, stackEntryNodeIsExtra. cbn. rewrite Hx. cbn. by rewrite Hw.
  - destruct (same_top _ _ (same_extra st e rst nd Hs Hx)) as (s & st0 & e0 & rst0 & -> & [= <- <-] & E). injection Hp as <- <- <-.
    eexists [], _, (e :: rst). split_and!; [done|by constructor|done].
  - destruct (IH (S m) Hp) as (w & below & rest & Hw & Hr & Eb). eexists (_ :: w), below, rest. split_and!; [|done..].
    change (pop_window (S m) (mkStackEntry (seState e) (Some nd) :: e :: rst)) with
      (pop_window (if is_child (mkStackEntry (seState e) (Some nd)) then m else S m) (e :: rst) ≫= λ '(w, rest), Some (mkStackEntry (seState e) (Some nd) :: w, rest)).
    unfold is_child, stackEntryHasNode, stackEntryNodeIsExtra. cbn [seNode]. rewrite Hx. cbn [negb andb]. by rewrite Hw.
Qed.

Lemma same_retarget st e rst xs : same_stack st (e :: rst) → (∀ x, x ∈ xs → is_extra x = true) → same_stack st (map (retarget (seState e)) xs ++ e :: rst).
Proof using.
  intros Hs. induction xs as [|x xs IH]; intros Hx; [done|]. specialize (IH (λ y Hy, Hx y ltac:(by right))).
  assert (∃ m, retarget (seState e) x = mkStackEntry (seState e) (Some m) ∧ nExtra m = true) as (m & Em & Hm).
  { specialize (Hx x ltac:(left)). unfold is_extra, stackEntryHasNode, stackEntryNodeIsExtra in Hx. unfold retarget, retargetStackEntryPayload. destruct (seNode x) as [nd|]; [|done].
    cbn. eexists. split; [done|]. done. }
  cbn [map app]. rewrite Em. destruct xs as [|y ys]; cbn [map app] in *; [by constructor|].
  destruct (retarget (seState e) y) as [sy ny] eqn:Ey. assert (sy = seState e) as ->; [|by apply (same_extra st (mkStackEntry (seState e) ny))].
  specialize (Hx y ltac:(right; left)). unfold is_extra, stackEntryHasNode in Hx. unfold retarget, retargetStackEntryPayload in Ey. destruct (seNode y); [by injection Ey as <- _|done].
Qed.

(** ** Actions *)

Lemma no_extra_actions g s x a : at_prefix g s → can t s x a → x ∉ ExtraSymbols ng.
Proof using Ha Hextras.
  intros Hs Hc Hx. destruct (can_has ng t at_prefix Ha g s x a Hs Hc) as [Hh _]. destruct (Hextras x Hx) as [Hr Hno].
  destruct (au_token _ _ _ Ha g s x _ Hs Hh) as [->|Hocc]; [by destruct (Z.lt_irrefl 0 (proj1 Hr))|done].
Qed.

(** The runtime offers what the LR tables have, and the extras. *)
Lemma offers_iff g s stk tok act : at_prefix g s → 0 ≤ s < n → seState (top stk) = s + 1 → 0 ≤ tSymbol tok < T →
  offers v stk tok act ↔ (∃ a, can t s (tSymbol tok) a ∧ act = runtime_action ng a) ∨ tSymbol tok ∈ ExtraSymbols ng ∧ act ∈ peActions shift_extra.
Proof using Ha Hextras Hrt.
  intros Hs Hr Ht Hx. unfold offers. rewrite Ht, (rt_action _ _ _ Hrt s _ Hr Hx). unfold runtime_cell.
  destruct (actions_of t s !! tSymbol tok) as [[|a acts]|] eqn:Ea; cbn [default from_option id].
  - destruct (au_plain _ _ _ Ha g s Hs _ _ Ea). done.
  - assert (tSymbol tok ∉ ExtraSymbols ng) as Hno by (apply (no_extra_actions g s _ a Hs); exists (a :: acts); split; [done|left]). split.
    + intros (e & [= <-] & Hin). change (act ∈ runtime_action ng <$> (a :: acts)) in Hin. apply list_elem_of_fmap in Hin as (b & -> & Hb). left. exists b. split; [by exists (a :: acts)|done].
    + intros [(b & (acts' & E & Hb) & ->)|[? _]]; [|done]. rewrite Ea in E. injection E as <-. eexists. split; [done|]. change (runtime_action ng b ∈ runtime_action ng <$> (a :: acts)). by apply list_elem_of_fmap_2.
  - case_bool_decide as Hin; split.
    + intros (e & [= <-] & Hact). by right.
    + intros [(b & (acts' & E & Hb) & ->)|[_ Hact]]; [by rewrite Ea in E|]. by eexists.
    + by intros (e & ? & _).
    + intros [(b & (acts' & E & Hb) & ->)|[? _]]; [by rewrite Ea in E|done].
Qed.

Lemma shift_extra_action act : act ∈ peActions shift_extra → act = mkParseAction ParseActionShift 0 0 0 0 0 true false false.
Proof using. by intros ->%list_elem_of_singleton. Qed.

(** ** Configurations *)

Definition good (tok : Token) : Prop := 0 < tSymbol tok < T ∧ tNoLookahead tok = false.

(** The tokens that are no extras. *)
Definition without_extras (w : list Token) : list Z := filter (λ x, x ∉ ExtraSymbols ng) (tSymbol <$> w).

Record same_config (c : config) (c' : glrStack * list Token) : Prop := {
  sc_prefix : ∃ g, spells at_prefix g c.1;
  sc_range : in_range t c.1;
  sc_stack : ∃ rst, same_stack c.1 rst ∧ stack_ok hasRecoverState c'.1 rst;
  sc_flat : linked c'.1 = false;
  sc_tokens : Forall good c'.2;
  sc_input : c.2 = without_extras c'.2 }.

(** The tops of the two stacks. *)
Lemma config_top c s w : same_config c (s, w) → ∃ g q st rst, c.1 = (q, false) :: st ∧ at_prefix g q ∧ 0 ≤ q < n ∧ spells at_prefix g c.1 ∧
  same_stack c.1 rst ∧ stack_ok hasRecoverState s rst ∧ seState (top s) = q + 1.
Proof using Ha.
  intros [(g & Hg) Hr (rst & Hs & Hk) _ _ _]. destruct (spells_top ng t at_prefix Ha g _ Hg) as (q & st & E & Hq). destruct (same_top _ _ Hs) as (q' & st' & e & rst' & E' & -> & Ee).
  rewrite E in E'. injection E' as <- <-. exists g, q, st, (e :: rst'). split_and!; [done|done| | |done|done|done|].
  - apply (Hr (q, false)). rewrite E. left.
  - apply (Hr (q, false)). rewrite E. left.
  - by rewrite (top_view hasRecoverState s e rst' (so_holds _ _ _ Hk)).
Qed.

(** An extra is shifted and nothing else happens. *)
Lemma skip_extra c s tok w : same_config c (s, tok :: w) → tSymbol tok ∈ ExtraSymbols ng → ∃ s', step (s, tok :: w) (s', w) ∧ same_config c (s', w).
Proof using Ha Hextras Hrt Heof.
  intros Hc Hx. destruct (config_top c s _ Hc) as (g & q & st & rst & E & Hq & Hr & Hg & Hs & Hk & Htop). destruct Hc as [Hpre Hin _ Hl Ht Hi]. cbn [fst snd] in *.
  apply list.Forall_cons_1 in Ht as [Htok Ht]. set (act := mkParseAction ParseActionShift 0 0 0 0 0 true false false).
  destruct (flat_shift v hasRecoverState s rst act tok false Hk Hl) as (s' & track' & Hrun & Hl' & m & Hm & Hk'). exists s'. split.
  - eapply (parser_shift _ _ _ _ s tok w act); [|done|exact Hrun]. apply (offers_iff g q); [done|done|done|destruct Htok; lia|]. right. split; [done|]. by apply list_elem_of_singleton.
  - split; cbn [fst snd]; [by exists g|done| |done|done|rewrite Hi; unfold without_extras; rewrite fmap_cons, filter_cons_False; [done|tauto]].
    destruct rst as [|e rst]; [by apply same_top in Hs as (? & ? & ? & ? & _ & ? & _)|]. rewrite (top_view hasRecoverState s e rst (so_holds _ _ _ Hk)) in Hk'. cbn in Hk'.
    exists (mkStackEntry (seState e) (Some m) :: e :: rst). split; [by constructor|done].
Qed.

(** The extras in front are shifted. *)
Lemma skip_extras c s w : same_config c (s, w) → ∃ s' w', rtc step (s, w) (s', w') ∧ same_config c (s', w') ∧ begins c.2 (tSymbol (next w')) ∧
  (c.2 = [] → w' = []) ∧ ∀ x w1, c.2 = x :: w1 → ∃ tok w2, w' = tok :: w2 ∧ tSymbol tok = x ∧ w1 = without_extras w2.
Proof using Ha Hextras Hrt Heof.
  revert s. induction w as [|tok w IH]; intros s Hc.
  - exists s, []. pose proof (sc_input _ _ Hc) as Ei. cbn in Ei. rewrite Ei. split_and!; [constructor|done|cbn; apply Heof|done|by intros x w1 [=]].
  - destruct (decide (tSymbol tok ∈ ExtraSymbols ng)) as [Hx|Hx].
    + destruct (skip_extra c s tok w Hc Hx) as (s1 & Hstep & Hc1). destruct (IH s1 Hc1) as (s' & w' & Hrun & Hc' & Hb & Hrest). exists s', w'. split; [by eapply rtc_l|done].
    + exists s, (tok :: w). pose proof (sc_input _ _ Hc) as Ei. unfold without_extras in Ei. cbn [snd] in Ei. rewrite fmap_cons, filter_cons_True in Ei by done. rewrite Ei.
      split_and!; [constructor|done|done|done|]. intros x w1 [= <- <-]. by exists tok, w.
Qed.

Lemma next_good c s w : same_config c (s, w) → 0 ≤ tSymbol (next w) < T ∧ tNoLookahead (next w) = false.
Proof using Hng Heof.
  intros [_ _ _ _ Ht _]. pose proof (la_end _ Hng) as HT. destruct w as [|tok w]; [change (next []) with eof; destruct Heof as [-> ->]; split; [lia|done]|]. apply list.Forall_cons_1 in Ht as [[? ?] _]. split; [cbn in *; lia|done].
Qed.

(** The reductions of the two machines, over the same window. *)
Lemma reduce_spec g s rst x a p q e' st' gq tok track : at_prefix g x → spells at_prefix g ((x, false) :: s) → in_range t ((x, false) :: s) →
  laKind a = lrReduce → zget (Productions ng) (laProdIdx a) = Some p → pop_children (length (RHS p)) ((x, false) :: s) = Some ((q, e') :: st') →
  gotos_of t q !! LHS p = Some gq → same_stack ((x, false) :: s) rst → tNoLookahead tok = false →
  ∃ rst', reduced v captureRawShape (runtime_action ng a) tok track rst = Ret (Some rst') ∧ same_stack ((gq, false) :: (q, e') :: st') rst'.
Proof using Hng HN Hok Hrt Heof.
  intros Hx Hg Hin Hk Hp Hpop Hgo Hs Htok. destruct (same_pop _ _ _ _ _ _ Hs Hpop) as (w & below & rest & Hw & Hrel & Eb).
  pose proof (zget_elem _ _ _ Hp) as Hpin. pose proof (lg_rhs _ (la_lr0 _ Hng) p Hpin) as Hrhs. pose proof (gw_lhs _ (lg_wf _ (la_lr0 _ Hng)) p Hpin) as Hlhs.
  assert (0 ≤ q < n) as Hq. { apply (Hin (q, e')). eapply pop_sub; [exact Hpop|left]. }
  assert (0 ≤ gq < n) as Hgq by (destruct (Hok q Hq) as [_ Hf]; by apply (Hf (LHS p))).
  unfold reduced, runtime_action. rewrite Hk, Hp. cbn [paChildCount paSymbol]. pose proof (len_nonneg (RHS p)). pose proof (TokenCount_range ng).
  unfold u8. rewrite Z.mod_small by lia. unfold len in *. rewrite Nat2Z.id, Hw. rewrite Eb. rewrite (u16_id (LHS p)) by (unfold len in HN; lia).
  rewrite (rt_goto _ _ _ Hrt q (LHS p) Hq) by (unfold len; lia). cbn [mbind go_bind]. unfold runtime_goto. rewrite Hgo. replace (gq + 1 =? 0) with false by lia. rewrite Htok. cbn [andb].
  eexists. split; [done|]. set (parent := newNoTreeReduceNode _ _ _ _ _ _ _ _).
  apply (same_retarget _ (mkStackEntry (gq + 1) (Some parent)) (below :: rest)); [|apply split_extras_node]. constructor; [done|]. unfold parent, newNoTreeReduceNode. by destruct captureRawShape.
Qed.

Lemma action_children a : 0 ≤ paChildCount (runtime_action ng a).
Proof using.
  unfold runtime_action. destruct (laKind a); [done| |done]. destruct (zget _ _) as [p|]; [|done]. cbn. unfold u8. by apply Z.mod_pos_bound.
Qed.

Lemma action_type a : paType (runtime_action ng a) = match laKind a with lrShift => ParseActionShift | lrReduce => match zget (Productions ng) (laProdIdx a) with Some _ => ParseActionReduce | None => ParseActionRecover end | lrAccept => ParseActionAccept end.
Proof using. unfold runtime_action. destruct (laKind a); [done| |done]. by destruct (zget _ _). Qed.

(** Every step of the LR machine is made. *)
Lemma simulate c c1 c' : same_config c c' → reads c c1 → ∃ c1', rtc step c' c1' ∧ same_config c1 c1'.
Proof using Hng Hplain HN Hextras Hok Ha Hrt Heof.
  destruct c' as [s w]. intros Hc Hstep. destruct (skip_extras c s w Hc) as (s1 & w1 & Hskip & Hc1 & Hb & _ & Hcons).
  destruct (config_top c s1 w1 Hc1) as (g & q & st & rst & E & Hq & Hr & Hg & Hs & Hk & Htop). pose proof (next_good c s1 w1 Hc1) as [Hnx Hnl].
  assert (rst ≠ []) as Hne by (apply same_top in Hs as (? & ? & ? & ? & _ & -> & _); done).
  pose proof (sc_range _ _ Hc1) as Hin. pose proof (sc_flat _ _ Hc1) as Hl. pose proof (sc_tokens _ _ Hc1) as Htoks. pose proof (sc_input _ _ Hc1) as Hi. cbn [fst snd] in *.
  assert (in_range t c1.1) as Hin1 by (inversion Hstep; subst; by eapply (step_in_range _ _ Hok)).
  assert (∃ g1, spells at_prefix g1 c1.1) as Hg1.
  { inversion Hstep as [? x e r ? w0 Hst|? x r ? w0 Hst Hbx]; subst; cbn [fst snd] in *; rewrite E in *.
    - inversion Hst as [? ? ? ? a Hcan Hka| |]; subst. destruct (can_has ng t at_prefix Ha g q x a Hq Hcan) as [Hh ->]. unfold skel in Hh. rewrite Hka in Hh.
      destruct (au_shifted _ _ _ Ha g q x _ _ Hq Hh) as [_ Hq']. exists (g ++ [x]). by constructor.
    - inversion Hst as [|? ? ? ? a p q2 e2 st2 gq Hcan Hka Hp Hpop Hgo|]; subst. destruct (can_has ng t at_prefix Ha g q x a Hq Hcan) as [Hh _]. unfold skel in Hh. rewrite Hka in Hh.
      destruct (au_reduced _ _ _ Ha g q x _ _ Hq Hh) as (p' & Hp' & q3 & p3 & Hq3 & Hv & HL & HR). simplify_eq. destruct (valid_completed ng Hng g _ p3 Hq3 Hv) as (pre & -> & _).
      destruct (spells_pop at_prefix pre (RHS p3) _ Hg) as (st3 & Hpop' & Hst3). rewrite HR, Hpop in Hpop'. injection Hpop' as <-.
      destruct (spells_top ng t at_prefix Ha pre _ Hst3) as (? & ? & [= <- -> <-] & Hs1). exists (pre ++ [LHS p]). rewrite (Hplain p) by by eapply zget_elem.
      constructor; [done|]. by eapply (au_gone _ _ _ Ha). }
  inversion Hstep as [? x e r ? w0 Hst|? x r ? w0 Hst Hbx]; subst; cbn [fst snd] in *; rewrite E in *.
  - inversion Hst as [? ? ? ? a Hcan Hka| |]; subst. destruct (can_has ng t at_prefix Ha g q x a Hq Hcan) as [_ Hex].
    destruct (Hcons x w0 eq_refl) as (tok & w2 & -> & Htok & ->). apply list.Forall_cons_1 in Htoks as [Hgt Htoks].
    destruct (flat_shift v hasRecoverState s1 rst (runtime_action ng a) tok false Hk Hl) as (s2 & tr & Hrun & Hl2 & m & Hm & Hk2). exists (s2, w2). split.
    + etrans; [exact Hskip|]. apply rtc_once. eapply parser_shift; [|by rewrite action_type, Hka|exact Hrun].
      apply (offers_iff g q); [done|done|done|destruct Hgt; lia|]. left. exists a. by rewrite Htok.
    + rewrite Hex in *. unfold runtime_action in Hm, Hk2. rewrite Hka, Hex in Hm, Hk2. cbn in Hm, Hk2.
      split; cbn [fst snd]; [done|done| |done|done|done]. eexists. split; [|exact Hk2]. by constructor.
  - assert (x = tSymbol (next w1)) as -> by (unfold begins in *; destruct w0; congruence).
    inversion Hst as [|? ? ? ? a p q2 e2 st2 gq Hcan Hka Hp Hpop Hgo|]; subst. rewrite (Hplain p) in * by by eapply zget_elem.
    destruct (reduce_spec g st rst q a p q2 e2 st2 gq (next w1) false Hq Hg Hin Hka Hp Hpop Hgo Hs Hnl) as (rst' & Hred & Hs').
    destruct (flat_reduce v hasRecoverState captureRawShape s1 rst _ (next w1) false rst' Hk Hl Hne (action_children a) Hred) as (s2 & Hrun & Hk2 & Hl2). exists (s2, w1). split.
    + etrans; [exact Hskip|]. apply rtc_once. eapply parser_reduce; [|by rewrite action_type, Hka, Hp|exact Hrun]. apply (offers_iff g q); [done..|]. left. by exists a.
    + split; cbn [fst snd]; [done|done|by exists rst'|done|done|done].
Qed.

(** A reduction finds its children and its goto. *)
Lemma reduce_exists g q st x a : spells at_prefix g ((q, false) :: st) → at_prefix g q → can t q x a → laKind a = lrReduce →
  ∃ p g' q2 st2 gq, zget (Productions ng) (laProdIdx a) = Some p ∧ pop_children (length (RHS p)) ((q, false) :: st) = Some ((q2, false) :: st2) ∧
    gotos_of t q2 !! LHS p = Some gq ∧ spells at_prefix g' ((gq, false) :: (q2, false) :: st2).
Proof using Hng Hprod Ha Heof.
  intros Hg Hq Hc Hk. destruct (can_has ng t at_prefix Ha g q x a Hq Hc) as [Hh _]. unfold skel in Hh. rewrite Hk in Hh.
  destruct (au_reduced _ _ _ Ha g q x _ _ Hq Hh) as (p & Hp & q3 & p3 & Hq3 & Hv & HL & HR). pose proof (au_produced _ _ _ Ha g q x _ _ p Hq Hh Hp) as Hocc.
  destruct (valid_completed ng Hng g _ p3 Hq3 Hv) as (pre & -> & H0). destruct (spells_pop at_prefix pre (RHS p3) _ Hg) as (st3 & Hpop & Hst3).
  destruct (spells_top ng t at_prefix Ha pre _ Hst3) as (q2 & st2 & -> & Hq2). rewrite HR in Hpop.
  assert (is_Some (gotos_of t q2 !! LHS p)) as [gq Hgo].
  { inversion H0 as [E1 E2|? [r d] B ? p' Hvr Hn HB Hq' HBl|g0 r d X Hv0 Hn]; subst.
    - destruct (la_start _ Hng) as (aug & S & Haug & _ & _ & Hno). simplify_eq. destruct Hocc as (pr & Hpr & Hin). rewrite <-HL in Hin. by destruct (Hno pr Hpr).
    - simplify_eq. destruct (valid_lr1 ng Hng pre (r, d) Hprod Hvr) as (u & Hu). rewrite <-HL. by apply (au_goto _ _ _ Ha pre r d u _ q2 Hu Hn).
    - pose proof (valid_back ng Hng _ _ _ Hv0) as (_ & _ & _ & ? & _). lia. }
  exists p, (pre ++ [LHS p]), q2, st2, gq. split_and!; [done..|]. constructor; [done|]. by eapply (au_gone _ _ _ Ha).
Qed.

(** Every step of the parser is one of the LR machine, or shifts an extra. *)
Lemma simulated c c' c1' : same_config c c' → step c' c1' → ∃ c1, rtc reads c c1 ∧ same_config c1 c1'.
Proof using Hng Hplain HN Hextras Hok Ha Hrt Heof Hprod.
  destruct c' as [s w]. intros Hc Hstep. destruct (config_top c s w Hc) as (g & q & st & rst & E & Hq & Hr & Hg & Hs & Hk & Htop).
  pose proof (next_good c s w Hc) as [Hnx Hnl]. assert (rst ≠ []) as Hne by (apply same_top in Hs as (? & ? & ? & ? & _ & -> & _); done).
  pose proof (sc_range _ _ Hc) as Hin. pose proof (sc_flat _ _ Hc) as Hl. pose proof (sc_tokens _ _ Hc) as Htoks. pose proof (sc_input _ _ Hc) as Hi. destruct c as [cst cw]. cbn [fst snd] in *. subst cst.
  inversion Hstep as [? tok w0 act track s1 tr Hoff Hty Hrun|? ? act track s1 Hoff Hty Hrun]; subst.
  - apply list.Forall_cons_1 in Htoks as [Hgt Htoks]. destruct (flat_shift v hasRecoverState s rst act tok track Hk Hl) as (s2 & tr2 & Hrun2 & Hl2 & m & Hm & Hk2). rewrite Hrun in Hrun2. injection Hrun2 as <- <-.
    apply (offers_iff g q) in Hoff as [(a & Hcan & ->)|[Hx ->%shift_extra_action]]; [| |done|done|done|destruct Hgt; lia].
    + assert (laKind a = lrShift) as Hka by (rewrite action_type in Hty; destruct (laKind a); [done|by destruct (zget _ _)|done]).
      destruct (can_has ng t at_prefix Ha g q _ a Hq Hcan) as [Hh Hex]. unfold skel in Hh. rewrite Hka in Hh. destruct (au_shifted _ _ _ Ha g q _ _ _ Hq Hh) as [_ Hq'].
      pose proof (step_shift (Productions ng) t q false st _ a Hcan Hka) as Hl1. rewrite Hex in Hl1. exists ((laState a, false) :: (q, false) :: st, without_extras w0). split.
      * apply rtc_once. unfold without_extras at 1. rewrite fmap_cons, filter_cons_True by (by apply (no_extra_actions g q _ a)). eapply reads_shift. exact Hl1.
      * unfold runtime_action in Hm, Hk2. rewrite Hka, Hex in Hm, Hk2. cbn in Hm, Hk2.
        split; cbn [fst snd]; [exists (g ++ [tSymbol tok]); by constructor|by eapply (step_in_range _ _ Hok)| |done|done|done]. eexists. split; [|exact Hk2]. by constructor.
    + destruct (skip_extra _ s tok w0 Hc Hx) as (s3 & _ & Hc3). eexists. split; [constructor|]. destruct Hc3. split; cbn [fst snd] in *; [by exists g|done| |done|done|done].
      destruct rst as [|e rst]; [done|]. rewrite (top_view hasRecoverState s e rst (so_holds _ _ _ Hk)) in Hk2. cbn in Hm, Hk2. eexists. split; [|exact Hk2]. by constructor.
  - apply (offers_iff g q) in Hoff as [(a & Hcan & ->)|[Hx ->%shift_extra_action]]; [|done|done..].
    assert (laKind a = lrReduce) as Hka by (rewrite action_type in Hty; by destruct (laKind a)).
    destruct (reduce_exists g q st _ a Hg Hq Hcan Hka) as (p & g' & q2 & st2 & gq & Hp & Hpop & Hgo & Hg').
    destruct (reduce_spec g st rst q a p q2 false st2 gq (next w) track Hq Hg Hin Hka Hp Hpop Hgo Hs Hnl) as (rst' & Hred & Hs').
    destruct (flat_reduce v hasRecoverState captureRawShape s rst _ (next w) track rst' Hk Hl Hne (action_children a) Hred) as (s2 & Hrun2 & Hk2 & Hl2). rewrite Hrun in Hrun2. injection Hrun2 as <-.
    pose proof (step_reduce (Productions ng) t q false st _ a p q2 false st2 gq Hcan Hka Hp Hpop Hgo) as Hl1. rewrite (Hplain p) in Hl1 by by eapply zget_elem.
    exists ((gq, false) :: (q2, false) :: st2, without_extras w). split.
    + apply rtc_once. eapply reads_reduce; [exact Hl1|]. destruct w as [|tok w]; [apply Heof|]. unfold without_extras. rewrite fmap_cons, filter_cons_True; [done|]. by apply (no_extra_actions g q _ a).
    + split; cbn [fst snd]; [by exists g'|by eapply (step_in_range _ _ Hok)|by exists rst'|done|done|done].
Qed.

Lemma start_config w : Forall good w → same_config (lr_start, without_extras w) (newGLRStack (InitialState lang), w).
Proof using Hn0 Hrt.
  intros Hw. rewrite (rt_initial _ _ _ Hrt). split; cbn [fst snd]; [exists []; constructor| |exists [mkStackEntry 1 None]; split; [constructor|apply new_ok]|done|done|done].
  intros x ->%list_elem_of_singleton. cbn. split; [done|exact Hn0].
Qed.

(** The parser accepts what the LR machine accepts without the extras. *)
Lemma parser_accepts_iff w : Forall good w → parser_accepts v hasRecoverState captureRawShape eof w ↔ accepts (Productions ng) t (without_extras w).
Proof using All.
  intros Hw. pose proof (start_config w Hw) as Hstart. pose proof (la_end _ Hng) as HT. destruct Heof as [He0 _]. split.
  - intros (s & act & Hrun & Hoff & Hty).
    assert (∀ c1 c2, rtc step c1 c2 → ∀ c, same_config c c1 → ∃ c', rtc reads c c' ∧ same_config c' c2) as Hsim.
    { induction 1 as [c1|c1 c2 c3 H12 _ IH]; intros c Hc; [exists c; split; [constructor|done]|]. destruct (simulated c c1 c2 Hc H12) as (c' & Hr & Hc').
      destruct (IH c' Hc') as (c'' & Hr' & Hc''). exists c''. split; [by etrans|done]. }
    destruct (Hsim _ _ Hrun _ Hstart) as ([st w'] & Hr & Hc). destruct (config_top _ s [] Hc) as (g & q & st' & rst & E & Hq & Hrange & Hg & _ & _ & Htop).
    apply (offers_iff g q) in Hoff as [(a & Hcan & ->)|[Hx _]]; [| |done|done|done|rewrite He0; split; [done|exact HT]].
    + cbn [fst] in E. pose proof (sc_input _ _ Hc) as Ei. cbn in Ei. subst st w'. eexists _, _. split; [exact Hr|].
      rewrite He0 in Hcan. apply (step_accept _ _ q false st' 0 a Hcan). rewrite action_type in Hty. destruct (laKind a); [done|by destruct (zget _ _)|done].
    + rewrite He0 in Hx. destruct (Hextras 0 Hx) as [Hlt _]. by destruct (Z.lt_irrefl 0 (proj1 Hlt)).
  - intros (st & st' & Hrun & Hacc).
    assert (∀ c1 c2, rtc reads c1 c2 → ∀ c, same_config c1 c → ∃ c', rtc step c c' ∧ same_config c2 c') as Hsim.
    { induction 1 as [c1|c1 c2 c3 H12 _ IH]; intros c Hc; [exists c; split; [constructor|done]|]. destruct (simulate c1 c2 c Hc H12) as (c' & Hr & Hc').
      destruct (IH c' Hc') as (c'' & Hr' & Hc''). exists c''. split; [by etrans|done]. }
    destruct (Hsim _ _ Hrun _ Hstart) as ([s w'] & Hr & Hc). destruct (skip_extras _ s w' Hc) as (s1 & w1 & Hskip & Hc1 & _ & Hnil & _). rewrite (Hnil eq_refl) in *.
    destruct (config_top _ s1 [] Hc1) as (g & q & st0 & rst & E & Hq & Hrange & Hg & _ & _ & Htop). cbn [fst] in E. subst st. inversion Hacc as [| |? ? ? ? a Hcan Hk]; subst.
    exists s1, (runtime_action ng a). split_and!; [by etrans| |by rewrite action_type, Hk]. apply (offers_iff g q); [done|done|done|rewrite He0; split; [done|exact HT]|]. left. exists a. by rewrite He0.
Qed.

Lemma parser_language w : Forall good w → parser_accepts v hasRecoverState captureRawShape eof w ↔ sentence ng (without_extras w).
Proof using All.
  intros Hw. rewrite parser_accepts_iff by done. split; [by eapply accepts_sound|by eapply accepts_sentence].
Qed.
End runtime.

(** * From a grammar to the parser *)

(** ** The stages *)

(** The merging of states, which the generator runs when the grammar asks for compact
    states. *)
Definition minimize_stage `{SliceSort} (parseRegex : list Z → go (regexError + regexNode)) (ng : NormalizedGrammar) (t : LRTables) : go LRTables :=
  if CompactParseStates ng then '(_, t) ← minimizeParseStates parseRegex t (Some ng); Ret t else Ret t.

(** C11.  The runtime tables answer like the LR tables.  Let LR tables, wherever they
    come from, fit the runtime ([rows_fit]): fewer than 2^16 states and symbols,
    actions only on symbols and by productions of the grammar, shifts to states of the
    tables, gotos to states other than the first, and arrays that 32-bit offsets
    reach.  Then [buildParseTables] returns, with an error only when there are more
    groups of actions than 16 bits can number; otherwise the runtime's lookups, over
    the dense rows, the compressed rows and everything derived from them, find for
    every state, one number up, the actions of its tokens with the fields of their
    productions, the shift of an extra where a token has no action, and its gotos, and
    nothing else.  Only the error state and the first state get dense rows, however
    full the others are. *)
Theorem buildParseTables_lookup `{SliceSort} {A} (ng : NormalizedGrammar) (t : LRTables) (zero : A) (name : string) (modes : list A) :
  rows_fit ng t → (StateCount t + 1) * (1 + 3 * len (Symbols ng)) < 2 ^ 32 → 0 < TokenCount ng →
  ∃ r, buildParseTables ng zero (new_language ng name t) modes t = Ret r ∧
    match r with
    | inl err => maxUint16Index < ieValue err
    | inr (lang, modes', _) => runtime_tables ng t lang ∧ ∀ s m, 0 ≤ s < StateCount t → zget modes s = Some m → zget modes' (s + 1) = Some m
    end.
Proof. intros Hfit Hwords HT. by apply parse_tables_spec. Qed.

Section pipeline.
Context `{SliceSort} (parseRegex : list Z → go (regexError + regexNode)) (env : lrEnv) (ng : NormalizedGrammar) (fuel : nat) (ctx : lr0ctx) (F : list bitset) (nullables : list bool) (ps : passes).
Context (Hlalr : usesLALR env ng = true) (Htags : contextTagsEnabled env ng = false) (Hb : exact_build ng fuel ctx F nullables ps).
Context (Hterm : forallb (terminal_ok parseRegex) (Terminals ng) = true) (Hbounds : terminal_bounds (Terminals ng)).
Context (HN : len (Symbols ng) < 2 ^ 16) (Hn : len (lalrLR0ItemSets ctx) < 2 ^ 16) (Hwords : (len (lalrLR0ItemSets ctx) + 1) * (1 + 3 * len (Symbols ng)) < 2 ^ 32).
Context (Hextras : ∀ x, x ∈ ExtraSymbols ng → 0 < x < TokenCount ng ∧ ¬ occurs ng x).

(** What the first two stages give. *)
Lemma stage_tables : ∃ t t' at_prefix, buildLRTables env ng fuel = Ret (Some (inr t)) ∧ minimize_stage parseRegex ng t = Ret t' ∧ tables_ok t' ∧
  0 < StateCount t' ≤ len (lalrLR0ItemSets ctx) ∧ lr_automaton ng t' at_prefix ∧ rows_fit ng t'.
Proof using All.
  destruct (built_tables ng fuel ctx F nullables ps Hb) as (t & Hrun & Hok & H0 & Hlen & Ha & Hm). apply (chosen_builder ng fuel env _ Hlalr Htags) in Hrun.
  pose proof (eb_grammar _ _ _ _ _ _ Hb) as Hng.
  assert (∀ t' at_prefix, lr_automaton ng t' at_prefix → tables_ok t' → 0 < StateCount t' ≤ len (lalrLR0ItemSets ctx) → rows_fit ng t') as Hfit.
  { intros t' at_prefix Ha' Hok' Hr. apply (automaton_fits ng t' at_prefix); [done|done|done|lia|done|]. intros x Hx. destruct (Hextras x Hx). lia. }
  exists t. unfold minimize_stage. destruct (CompactParseStates ng).
  - destruct (matchers_built parseRegex ng Hterm Hbounds) as (ms & Hms & _).
    destruct (minimize_spec t Hok ltac:(lia) parseRegex (Some ng) ms Hms) as (gs & k & removed & t' & h & Hs & Hmin & Hrem & Hcount & Q).
    pose proof (q_range _ _ _ _ _ _ Q 0 ltac:(lia)) as Hq. assert (tables_ok t') as Hok' by (by eapply quotient_fit). pose proof (Hm t' gs k (Some ng) ms h Hs Q) as Ha'.
    exists t', (at_merged ng ctx h). split_and!; [done|by rewrite Hmin|done|lia|lia|done|]. apply (Hfit t' _ Ha' Hok'). lia.
  - exists t, (at_state ng ctx). split_and!; [done|done|done|lia|lia|done|]. apply (Hfit t _ Ha Hok). lia.
Qed.

(** C1.  The language of the parser over LALR(1) tables.  Three stages of the table
    compiler are composed: [buildLRTables], for a grammar that it hands to its LALR
    builder (more than 400 productions, fewer than 2000 or context tags disabled, no
    precise external builder), [minimizeParseStates] when the grammar asks for compact
    states, and [buildParseTables].  Conflict resolution, which the code runs after
    the first stage, is left out, so that every action of a cell is kept; chains for
    nonterminal extras are not needed, since no production is an extra.  Every symbol
    derives a string of tokens, the construction loses no lookahead ([exact_build]),
    the patterns of the terminals are well-formed, the extras are tokens that no
    production mentions, and states, symbols and rows fit 16 and 32 bits.  Then the
    stages return (with an error only for more groups of actions than 16 bits can
    number), and a single version of the parser's stack, from the initial state,
    driven by lookups in the runtime tables, with shifts and the reductions of the lane
    that builds no tree, can read an input of ordinary tokens and accept just when
    the input without its extras is a sentence of the grammar; extras may stand
    anywhere. *)
Theorem lalr_parser_language {A} (zero : A) (name : string) (modes : list A) :
  ∃ t t' r, buildLRTables env ng fuel = Ret (Some (inr t)) ∧ minimize_stage parseRegex ng t = Ret t' ∧
    buildParseTables ng zero (new_language ng name t') modes t' = Ret r ∧
    match r with
    | inl err => maxUint16Index < ieValue err
    | inr (lang, _, _) => ∀ hasRecoverState captureRawShape eof w, tSymbol eof = 0 → tNoLookahead eof = false → Forall (good ng) w →
        parser_accepts (derived_view lang) hasRecoverState captureRawShape eof w ↔ sentence ng (without_extras ng w)
    end.
Proof using All.
  destruct stage_tables as (t & t' & at_prefix & Hrun & Hmin & Hok & Hlen & Ha & Hfit). pose proof (eb_grammar _ _ _ _ _ _ Hb) as Hng. pose proof (len_nonneg (Symbols ng)).
  destruct (parse_tables_spec ng t' Hfit ltac:(nia) zero name modes (la_end _ Hng)) as (r & Hr & Hm). exists t, t', r. split; [exact Hrun|]. split; [exact Hmin|]. split; [exact Hr|].
  destruct r as [err|[[lang modes'] ids]]; [done|]. destruct Hm as [Hrt _]. intros hasR cap eof w He1 He2 Hw. destruct Hlen as [Hpos _].
  apply (parser_language ng Hng (eb_productive _ _ _ _ _ _ Hb) (eb_plain _ _ _ _ _ _ Hb) HN Hextras t' Hok Hpos at_prefix Ha lang Hrt hasR cap eof (conj He1 He2) w Hw).
Qed.
End pipeline.

(** ** The stages on a grammar *)

Lemma switch_extras b x : x ∈ ExtraSymbols (switch_grammar b) → 0 < x < TokenCount (switch_grammar b) ∧ ¬ occurs (switch_grammar b) x.
Proof.
  intros ->%list_elem_of_singleton. split; [destruct b; vm_compute; by split|]. intros (p & Hp & Hin).
  assert (forallb (λ p, negb (int_in 41 (RHS p))) (Productions (switch_grammar b)) = true) as Hall by (destruct b; vm_compute; reflexivity).
  rewrite forallb_forall in Hall. apply list_elem_of_In, Hall, negb_true_iff in Hp. apply int_in_elem in Hin. congruence.
Qed.

(** A token of one byte. *)
Definition byte_token (sym at_ : Z) : Token := span_token sym [] at_ (at_ + 1) point0 point0.

(** The input [ a A ], blanks and all. *)
Definition switch_input : list Token := [byte_token 41 0; byte_token 1 1; byte_token 41 2; byte_token 21 3; byte_token 41 4].

(** The stages without merging. *)
Definition stage_build `{SliceSort} (env : lrEnv) (ng : NormalizedGrammar) (name : string) (fuel : nat) : go (indexError + Language * list Z * Z) :=
  r ← buildLRTables env ng fuel;
  match r with
  | Some (inr t) => buildParseTables ng 0 (new_language ng name t) [] t
  | _ => Panic
  end.

Definition returns_tables (r : go (indexError + Language * list Z * Z)) : bool := match r with Ret (inr _) => true | _ => false end.

(** A run with little fuel tells what the run with more fuel returns. *)
Lemma stage_build_more `{SliceSort} env ng name fuel0 fuel t r : returns_tables (stage_build env ng name fuel0) = true → (fuel0 ≤ fuel)%nat →
  buildLRTables env ng fuel = Ret (Some (inr t)) → buildParseTables ng 0 (new_language ng name t) [] t = Ret r → ∃ out, r = inr out ∧ stage_build env ng name fuel = Ret (inr out).
Proof.
  unfold stage_build. intros Hret Hle Ht Hr. destruct (buildLRTables env ng fuel0) as [r0| |] eqn:E; [|done..]. rewrite (buildLRTables_more _ _ fuel0 fuel r0 Hle E) in *.
  injection Ht as ->. cbn [mbind go_bind] in *. rewrite Hr in *. destruct r as [err|out]; [done|]. by exists out.
Qed.

Lemma switch_returns : returns_tables (stage_build plain_env (switch_grammar false) "switch" 100) = true.
Proof. vm_compute. reflexivity. Qed.

Lemma switch_fuel : (100 ≤ 2 ^ item_count (switch_grammar false))%nat.
Proof. etrans; [|apply (Nat.pow_le_mono_r 2 7); [lia|apply Nat.leb_le; vm_compute; reflexivity]]. apply Nat.leb_le. reflexivity. Qed.

Lemma lalr_parser_language_witness : ∃ fuel lang modes ids, stage_build plain_env (switch_grammar false) "switch" fuel = Ret (inr (lang, modes, ids)) ∧
  parser_accepts (derived_view lang) [] true zeroToken switch_input.
Proof.
  pose proof switch_fuel as Hle. destruct (switch_exact false (2 ^ item_count (switch_grammar false)) (Nat.le_refl _)) as (ctx & F & nullables & ps & Hb & Hlen).
  revert Hle Hb. generalize (2 ^ item_count (switch_grammar false))%nat as fuel. intros fuel Hle Hb.
  destruct (lalr_parser_language sample_regex plain_env (switch_grammar false) fuel ctx F nullables ps) with (zero := 0) (name := "switch"%string) (modes := @nil Z) as (t & t' & r & Ht & Hmin & Hr & Hm).
  - reflexivity.
  - reflexivity.
  - exact Hb.
  - vm_compute. reflexivity.
  - split; [repeat constructor; done|done].
  - reflexivity.
  - rewrite Hlen. reflexivity.
  - rewrite Hlen. reflexivity.
  - apply switch_extras.
  - change (Ret t = Ret t') in Hmin. injection Hmin as <-. destruct (stage_build_more _ _ _ 100 fuel t r switch_returns Hle Ht Hr) as ([[lang modes] ids] & -> & Hrun).
    exists fuel, lang, modes, ids. split; [exact Hrun|]. apply Hm; [reflexivity|reflexivity|repeat constructor|]. apply switch_sentence.
Defined.

Lemma buildParseTables_lookup_witness : ∃ fuel t lang modes ids, buildLRTables plain_env (switch_grammar false) fuel = Ret (Some (inr t)) ∧
  stage_build plain_env (switch_grammar false) "switch" fuel = Ret (inr (lang, modes, ids)) ∧ runtime_tables (switch_grammar false) t lang.
Proof.
  pose proof switch_fuel as Hle. destruct (switch_exact false (2 ^ item_count (switch_grammar false)) (Nat.le_refl _)) as (ctx & F & nullables & ps & Hb & Hlen).
  revert Hle Hb. generalize (2 ^ item_count (switch_grammar false))%nat as fuel. intros fuel Hle Hb.
  destruct (stage_tables sample_regex plain_env (switch_grammar false) fuel ctx F nullables ps) as (t & t' & at_prefix & Ht & Hmin & _ & [_ Hcount] & _ & Hfit).
  - reflexivity.
  - reflexivity.
  - exact Hb.
  - vm_compute. reflexivity.
  - split; [repeat constructor; done|done].
  - reflexivity.
  - rewrite Hlen. reflexivity.
  - rewrite Hlen. reflexivity.
  - apply switch_extras.
  - change (Ret t = Ret t') in Hmin. injection Hmin as <-. destruct (buildParseTables_lookup (switch_grammar false) t 0 "switch"%string (@nil Z) Hfit) as (r & Hr & Hm).
    + change (len (Symbols (switch_grammar false))) with 64. rewrite Hlen in Hcount. lia.
    + reflexivity.
    + destruct (stage_build_more _ _ _ 100 fuel t r switch_returns Hle Ht Hr) as ([[lang modes] ids] & -> & Hrun). exists fuel, t, lang, modes, ids. split; [exact Ht|]. split; [exact Hrun|]. apply Hm.
Defined.
