(* ===== verification/MissingToken.v ===== *)
(** * Missing tokens

    parser.go: before it gives up on a token the parser looks for a token to insert
    in front of it.  [findRecoverWithMissingShiftAtStates] tries the tokens in order
    and simulates on a copy of the stack's states whether the real token can be
    shifted after the inserted one and some reductions.  On a stack without extras
    the simulation is sound: the parser itself can make these moves.  With extras it
    counts them as children, which the parser does not. *)

From Stdlib Require Import ZArith Lia ZifyBool String.
From stdpp Require Import base tactics list numbers option sets relations.
From S2P Require Import Prelude Tokens ParseTables ParserStack ParserStackCorrect LrRuntime.
Local Open Scope Z_scope.

(** ** The search *)

(** The states of a stack, bottom first. *)
Definition collectStackStates (s : glrStack) : list Z :=
  if negb (linked s) && (0 <? len (slice_of (entries s))) then map seState (slice_of (entries s)) else rev (map seState (gss s)).

Section search.
Context (v : parserActionTableView).

Definition stateHasLeadingReduceAction (state s : Z) : go bool :=
  entry ← lookupAction v state s;
  Ret match entry with
    | Some e => match peActions e with a :: _ => bool_decide (paType a = ParseActionReduce) | [] => false end
    | None => false
    end.

(** [inl] when the token can be shifted, otherwise the first reduction with
    children. *)
Fixpoint scan_actions (actions : list ParseAction) (reduce : option ParseAction) : unit + option ParseAction :=
  match actions with
  | [] => inr reduce
  | act :: actions =>
    match paType act with
    | ParseActionShift | ParseActionRecover =>
      if negb (paExtra act) && negb (paRepetition act) then inl tt else scan_actions actions reduce
    | ParseActionReduce =>
      scan_actions actions (match reduce with None => if 0 <? paChildCount act then Some act else None | Some _ => reduce end)
    | ParseActionAccept => scan_actions actions reduce
    end
  end.

Definition maxSimSteps : nat := 1024.

Fixpoint sim_loop (lookahead : Z) (steps : nat) (states : list Z) : go bool :=
  match steps with
  | O => Ret false
  | S steps =>
    match list.last states with
    | None => Ret false
    | Some top =>
      entry ← lookupAction v top lookahead;
      match scan_actions (default [] (peActions <$> entry)) None with
      | inl _ => Ret true
      | inr None => Ret false
      | inr (Some reduce) =>
        if len states <? paChildCount reduce then Ret false else
        let states := take (Z.to_nat (len states - paChildCount reduce)) states in
        match list.last states with
        | None => Ret false
        | Some below =>
          gotoState ← lookupGoto v below (paSymbol reduce);
          if gotoState =? 0 then Ret false else sim_loop lookahead steps (states ++ [gotoState])
        end
      end
    end
  end.

Definition canShiftAfterReductions (states : list Z) (lookahead : Z) : go bool := sim_loop lookahead maxSimSteps states.

(** The action with which the token is inserted, when it may be. *)
Definition missing_action (baseStates : list Z) (state lookahead ms : Z) : go (option ParseAction) :=
  if ms =? lookahead then Ret None else
  idx ← lookupActionIndex v state ms;
  if (idx =? 0) || (len (ParseActions (language v)) <=? idx) then Ret None else
  entry ← index (ParseActions (language v)) idx;
  match list.last (peActions entry) with
  | None => Ret None
  | Some act =>
    if negb (bool_decide (paType act = ParseActionShift)) || paExtra act then Ret None else
    if (paState act =? 0) || (paState act =? state) then Ret None else
    leads ← stateHasLeadingReduceAction (paState act) lookahead;
    if negb leads then Ret None else
    ok ← canShiftAfterReductions (baseStates ++ [paState act]) lookahead;
    Ret (if (ok : bool) then Some act else None)
  end.

Fixpoint missing_loop (baseStates : list Z) (state lookahead : Z) (tokens : list Z) : go (option (Z * ParseAction)) :=
  match tokens with
  | [] => Ret None
  | ms :: tokens =>
    act ← missing_action baseStates state lookahead ms;
    match act with
    | Some act => Ret (Some (ms, act))
    | None => missing_loop baseStates state lookahead tokens
    end
  end.

Definition findRecoverWithMissingShiftAtStates (baseStates : list Z) (state lookahead : Z) : go (option (Z * ParseAction)) :=
  missing_loop baseStates state lookahead (seqZ 1 (u16 (TokenCount (language v)) - 1)).

Definition findRecoverWithMissingShift (s : glrStack) (state lookahead : Z) : go (option (Z * ParseAction)) :=
  let baseStates := collectStackStates s in
  if len baseStates =? 0 then Ret None else findRecoverWithMissingShiftAtStates baseStates state lookahead.

(** The first entry of the state that does nothing but reduce. *)
Definition anyLookaheadReduceAction (state : Z) : option ParseAction :=
  forEachActionIndexInState v state (λ found _ idx,
    match found with
    | Some _ => (found, false)
    | None =>
      match zget (ParseActions (language v)) idx with
      | None => (None, true)
      | Some entry =>
        match peActions entry with
        | [act] => if negb (bool_decide (paType act = ParseActionReduce)) || (paChildCount act <=? 0) then (None, true) else (Some act, false)
        | _ => (None, true)
        end
      end
    end) None.

(** One reduction is tried before the insertion. *)
Definition findRecoverWithMissingAfterReductionsAtStates (baseStates : list Z) (state lookahead : Z) : go (option (list ParseAction * Z * ParseAction)) :=
  if len baseStates =? 0 then Ret None else
  match anyLookaheadReduceAction state with
  | None => Ret None
  | Some reduceAct =>
    let childCount := paChildCount reduceAct in
    if (childCount <=? 0) || (len baseStates <=? childCount) then Ret None else
    let states := take (Z.to_nat (len baseStates - childCount)) baseStates in
    match list.last states with
    | None => Ret None
    | Some below =>
      gotoState ← lookupGoto v below (paSymbol reduceAct);
      if gotoState =? 0 then Ret None else
      found ← findRecoverWithMissingShiftAtStates (states ++ [gotoState]) gotoState lookahead;
      Ret match found with Some (ms, act) => Some ([reduceAct], ms, act) | None => None end
    end
  end.

Definition findRecoverWithMissingAfterReductions (s : glrStack) (state lookahead : Z) : go (option (list ParseAction * Z * ParseAction)) :=
  findRecoverWithMissingAfterReductionsAtStates (collectStackStates s) state lookahead.
End search.

(** ** The simulation and the parser *)

(** No extras: every entry above the bottom is a child. *)
Definition all_children (st : list stackEntry) : Prop := ∃ children bottom, st = children ++ [bottom] ∧ ∀ e, e ∈ children → is_child e = true.

Lemma collect_view hasRecoverState s e st : holds hasRecoverState s (e :: st) → collectStackStates s = map seState (rev (e :: st)).
Proof.
  intros [Hv Hc _]. unfold collectStackStates. destruct (view_linked s e st Hc Hv) as [[El E]|(El & es & Ee & Ees)]; rewrite El; cbn [negb andb].
  - by rewrite E, map_rev.
  - rewrite Ee, Ees. cbn [slice_of default from_option id]. replace (0 <? len (rev (e :: st))) with true; [done|]. unfold len. rewrite length_rev. cbn. lia.
Qed.

Lemma pop_children_window m children bottom : (∀ e, e ∈ children → is_child e = true) → (m ≤ length children)%nat →
  pop_window m (children ++ [bottom]) = Some (take m children, drop m children ++ [bottom]).
Proof.
  revert m. induction children as [|e children IH]; intros m Hc Hm; [by destruct m as [|m]; [|cbn in Hm; lia]|].
  destruct m as [|m]; [done|]. cbn [app pop_window]. rewrite (Hc e ltac:(left)), IH; [done|intros; apply Hc; by right|cbn in Hm; lia].
Qed.

Lemma child_no_extra e : is_child e = true → is_extra e = false.
Proof. unfold is_child, is_extra. by destruct (stackEntryHasNode e), (stackEntryNodeIsExtra e). Qed.

Lemma split_children w : (∀ e, e ∈ w → is_child e = true) → split_extras w = ([], w).
Proof. intros Hw. destruct w as [|e w]; [done|]. cbn. by rewrite (child_no_extra e (Hw e ltac:(left))). Qed.

Lemma scan_actions_spec actions r : (∀ act, r = Some act → paType act = ParseActionReduce ∧ 0 < paChildCount act) →
  match scan_actions actions r with
  | inl _ => ∃ act, act ∈ actions ∧ (paType act = ParseActionShift ∨ paType act = ParseActionRecover) ∧ paExtra act = false ∧ paRepetition act = false
  | inr (Some act) => (act ∈ actions ∨ r = Some act) ∧ paType act = ParseActionReduce ∧ 0 < paChildCount act
  | inr None => True
  end.
Proof.
  revert r. induction actions as [|a actions IH]; intros r Hr; cbn [scan_actions].
  { destruct r as [act|]; [|done]. split; [by right|by apply Hr]. }
  assert (∀ r', (∀ act, r' = Some act → paType act = ParseActionReduce ∧ 0 < paChildCount act) → (∀ act, r' = Some act → act ∈ a :: actions ∨ r = Some act) →
    match scan_actions actions r' with
    | inl _ => ∃ act, act ∈ a :: actions ∧ (paType act = ParseActionShift ∨ paType act = ParseActionRecover) ∧ paExtra act = false ∧ paRepetition act = false
    | inr (Some act) => (act ∈ a :: actions ∨ r = Some act) ∧ paType act = ParseActionReduce ∧ 0 < paChildCount act
    | inr None => True
    end) as Hrest.
  { intros r' Hr' Hsub. specialize (IH r' Hr'). destruct (scan_actions actions r') as [_|[act|]]; [|..|done].
    - destruct IH as (act & Hin & H). exists act. split; [by right|done].
    - destruct IH as [[Hin|E] H]; (split; [|done]); [left; by right|by apply Hsub]. }
  destruct (paType a) eqn:Et.
  - destruct (paExtra a) eqn:Ex, (paRepetition a) eqn:Er; cbn; try (apply Hrest; [done|by right]). exists a. split_and!; [left|by left|done|done].
  - apply Hrest.
    + intros act. destruct r as [r0|]; [intros E; by apply Hr|]. destruct (Z.ltb_spec 0 (paChildCount a)); [by intros [= <-]|done].
    + intros act. destruct r as [r0|]; [intros E; by right|]. destruct (Z.ltb_spec 0 (paChildCount a)); [intros [= <-]; left; left|done].
  - apply Hrest; [done|by right].
  - destruct (paExtra a) eqn:Ex, (paRepetition a) eqn:Er; cbn; try (apply Hrest; [done|by right]). exists a. split_and!; [left|by right|done|done].
Qed.

Section sound.
Context (v : parserActionTableView) (hasRecoverState : list bool) (captureRawShape : bool) (eof : Token).
Notation step := (parser_step v hasRecoverState captureRawShape eof).

(** The parser, with the token in front of it, gets by reductions to where it can
    shift the token or recover on it. *)
Definition can_go_on (s : glrStack) (tok : Token) (w : list Token) : Prop :=
  ∃ s' act, rtc step (s, tok :: w) (s', tok :: w) ∧ offers v s' tok act ∧ (paType act = ParseActionShift ∨ paType act = ParseActionRecover) ∧
    paExtra act = false ∧ paRepetition act = false.

(** A reduction of a stack without extras. *)
Lemma plain_reduce act tok track children bottom gotoState below :
  tNoLookahead tok = false → (∀ e, e ∈ children → is_child e = true) → 0 < paChildCount act → (Z.to_nat (paChildCount act) ≤ length children)%nat →
  list.head (drop (Z.to_nat (paChildCount act)) children ++ [bottom]) = Some below → lookupGoto v (seState below) (paSymbol act) = Ret gotoState → gotoState ≠ 0 →
  ∃ parent, reduced v captureRawShape act tok track (children ++ [bottom]) = Ret (Some (mkStackEntry gotoState (Some parent) :: drop (Z.to_nat (paChildCount act)) children ++ [bottom])) ∧ nExtra parent = false.
Proof using.
  intros Hnl Hc Hpos Hm Hb Hg Hne. unfold reduced. rewrite pop_children_window by done. destruct (drop (Z.to_nat (paChildCount act)) children ++ [bottom]) as [|b rest]; [done|]. injection Hb as ->.
  rewrite Hg. cbn [mbind go_bind]. replace (gotoState =? 0) with false by lia.
  assert (split_extras (take (Z.to_nat (paChildCount act)) children) = ([], take (Z.to_nat (paChildCount act)) children)) as ->.
  { apply split_children. intros e He. apply Hc. rewrite <-(take_drop (Z.to_nat (paChildCount act)) children). apply elem_of_app. by left. }
  cbn [fst snd map app]. rewrite Hnl. cbn [andb]. eexists. split; [done|]. unfold newNoTreeReduceNode. by destruct captureRawShape.
Qed.

Lemma sim_sound steps s rst tok w : stack_ok hasRecoverState s rst → (linked s = true → len rst < max_depth) → all_children rst → tNoLookahead tok = false →
  sim_loop v (tSymbol tok) steps (map seState (rev rst)) = Ret true → can_go_on s tok w.
Proof using.
  revert s rst. induction steps as [|steps IH]; intros s rst Hs Hl (children & bottom & -> & Hc) Hnl; cbn [sim_loop]; [done|].
  destruct (children ++ [bottom]) as [|e rest] eqn:Erst; [by destruct children|]. rewrite map_rev. cbn [map rev]. rewrite last_snoc.
  pose proof (top_view hasRecoverState s e rest (so_holds _ _ _ Hs)) as Htop. destruct (lookupAction v (seState e) (tSymbol tok)) as [entry| |] eqn:El; cbn [mbind go_bind]; [|done..].
  pose proof (scan_actions_spec (default [] (peActions <$> entry)) None ltac:(done)) as Hscan.
  assert (∀ act, act ∈ default [] (peActions <$> entry) → offers v s tok act) as Hoff.
  { intros act Hin. destruct entry as [entry|]; cbn in Hin; [|by apply elem_of_nil in Hin]. exists entry. rewrite Htop. by split. }
  destruct (scan_actions _ None) as [_|[reduce|]]; [|..|done].
  - intros _. destruct Hscan as (act & Hin & H). exists s, act. split; [constructor|]. split; [by apply Hoff|done].
  - destruct Hscan as ([Hin|?] & Hty & Hpos); [|done]. assert (rev (map seState rest) ++ [seState e] = map seState (rev (children ++ [bottom]))) as Est by (by rewrite Erst, map_rev).
    rewrite Est. assert (len (map seState (rev (children ++ [bottom]))) = len children + 1) as Hlen by (unfold len; rewrite length_map, length_rev, length_app; cbn; lia).
    rewrite Hlen. destruct (Z.ltb_spec (len children + 1) (paChildCount reduce)) as [|Hcc]; [done|]. set (m := Z.to_nat (paChildCount reduce)).
    destruct (decide (paChildCount reduce = len children + 1)) as [Eall|Hlt]; [rewrite Eall, Z.sub_diag; done|].
    assert (m ≤ length children)%nat as Hm by (unfold m, len in *; lia).
    assert (take (Z.to_nat (len children + 1 - paChildCount reduce)) (map seState (rev (children ++ [bottom]))) = map seState (rev (drop m children ++ [bottom]))) as ->.
    { rewrite !map_rev, take_rev_drop by (unfold len in *; rewrite length_map, length_app; cbn; lia). f_equal. rewrite <-fmap_drop. f_equal.
      replace (Z.to_nat _) with m by (unfold m, len in *; rewrite length_map, length_app; cbn; lia). by rewrite drop_app_le. }
    destruct (drop m children ++ [bottom]) as [|below rest'] eqn:Ed; [by destruct (drop m children)|]. rewrite map_rev. cbn [map rev]. rewrite last_snoc.
    destruct (lookupGoto v (seState below) (paSymbol reduce)) as [gt| |] eqn:Eg; cbn [mbind go_bind]; [|done..]. destruct (Z.eqb_spec gt 0) as [|Hgt]; [done|]. intros Hsim.
    destruct (plain_reduce reduce tok false children bottom gt below Hnl Hc Hpos Hm) as (parent & Hred & Hx); [fold m; by rewrite Ed|done|done|]. rewrite Erst in Hred. fold m in Hred. rewrite Ed in Hred.
    pose proof (dispatch_reduce_spec v hasRecoverState captureRawShape s (e :: rest) reduce tok false Hs ltac:(done) Hl ltac:(lia)) as Hrun. unfold reduces in Hrun. rewrite Hred in Hrun.
    destruct Hrun as (s1 & Hrun & Hs1 & _ & _ & _ & _ & Hl1).
    destruct (IH s1 _ Hs1) as (s2 & act & Hsteps & Hend); [| |done| |].
    + intros E. specialize (Hl (Hl1 E)). assert (len (below :: rest') ≤ len (children ++ [bottom]) - 1) as Hsh by (rewrite <-Ed; unfold len, m in *; rewrite !length_app, length_drop; lia).
      rewrite Erst in Hsh. rewrite !len_cons in *. lia.
    + exists (mkStackEntry gt (Some parent) :: drop m children), bottom. split; [cbn; by rewrite Ed|]. intros e' [->|He']%elem_of_cons.
      * unfold is_child, stackEntryHasNode, stackEntryNodeIsExtra. cbn. by rewrite Hx.
      * apply Hc. rewrite <-(take_drop m children). apply elem_of_app. by right.
    + rewrite map_rev. cbn [map rev]. exact Hsim.
    + exists s2, act. split; [|done]. eapply rtc_l; [|exact Hsteps]. eapply (parser_reduce _ _ _ _ s (tok :: w) reduce false s1); [by apply Hoff|done|exact Hrun].
Qed.

Lemma can_shift_sound s rst tok w : stack_ok hasRecoverState s rst → (linked s = true → len rst < max_depth) → all_children rst → tNoLookahead tok = false →
  canShiftAfterReductions v (map seState (rev rst)) (tSymbol tok) = Ret true → can_go_on s tok w.
Proof using. unfold canShiftAfterReductions. generalize maxSimSteps as steps. intros steps. apply sim_sound. Qed.

Lemma states_push e st : map seState (rev (e :: st)) = map seState (rev st) ++ [seState e].
Proof using. cbn [rev]. by rewrite map_app. Qed.

Lemma seqZ_split a n before x after : seqZ a n = before ++ x :: after → a ≤ x ∧ ∀ m, a ≤ m < x → m ∈ before.
Proof using.
  intros E. assert (x = a + Z.of_nat (length before)) as Ex.
  { assert (seqZ a n !! length before = Some x) as [-> _]%lookup_seqZ by (by rewrite E, lookup_app_r, Nat.sub_diag). done. }
  split; [lia|]. intros m Hm. apply list_elem_of_lookup_2 with (Z.to_nat (m - a)). rewrite <-(lookup_app_l before (x :: after)), <-E by lia. apply lookup_seqZ.
  assert (length (seqZ a n) = length (before ++ x :: after)) as El by (by rewrite E). rewrite length_seqZ, length_app in El. cbn in El. lia.
Qed.

Lemma missing_loop_spec states state x tokens ms act : missing_loop v states state x tokens = Ret (Some (ms, act)) →
  ∃ before after, tokens = before ++ ms :: after ∧ missing_action v states state x ms = Ret (Some act) ∧ ∀ m, m ∈ before → missing_action v states state x m = Ret None.
Proof using.
  induction tokens as [|m tokens IH]; cbn [missing_loop]; [done|]. destruct (missing_action v states state x m) as [[a|]| |] eqn:Em; cbn [mbind go_bind]; [| |done..].
  - intros [= -> ->]. exists [], tokens. split_and!; [done|done|]. by intros m' ?%elem_of_nil.
  - intros (before & after & -> & Ha & Hb)%IH. exists (m :: before), after. split_and!; [done|done|]. intros m' [->|?]%elem_of_cons; [done|by apply Hb].
Qed.

Lemma missing_action_spec s states x ms act mtok : missing_action v states (seState (top s)) x ms = Ret (Some act) → tSymbol mtok = ms →
  ms ≠ x ∧ offers v s mtok act ∧ paType act = ParseActionShift ∧ paExtra act = false ∧ canShiftAfterReductions v (states ++ [paState act]) x = Ret true.
Proof using.
  intros Hm Et. subst ms. unfold missing_action in Hm. destruct (Z.eqb_spec (tSymbol mtok) x) as [|Hne]; [done|]. apply go_bind_ret in Hm as (idx & Hidx & Hm).
  destruct ((idx =? 0) || (len (ParseActions (language v)) <=? idx)) eqn:Eb; [done|]. apply go_bind_ret in Hm as (entry & Hentry%index_Ret & Hm).
  destruct (list.last (peActions entry)) as [a|] eqn:Ea; [|done]. destruct (negb (bool_decide (paType a = ParseActionShift)) || paExtra a) eqn:Ety; [done|].
  destruct ((paState a =? 0) || (paState a =? seState (top s))); [done|]. apply go_bind_ret in Hm as (leads & _ & Hm). destruct (negb leads); [done|].
  apply go_bind_ret in Hm as (ok & Hok & Hm). destruct ok; [|done]. injection Hm as ->. apply orb_false_iff in Ety as [Ety%negb_false_iff%bool_decide_eq_true Ex].
  split_and!; [done| |done|done|done]. exists entry. split; [|by apply last_Some_elem_of]. unfold lookupAction. rewrite Hidx. cbn [mbind go_bind].
  apply orb_false_iff in Eb as [-> _]. by rewrite Hentry.
Qed.

(** C13.  Inserted tokens help.  Let a stack version, kept in any representation and
    with room for one more entry if it is a linked list, hold no extras, and let the
    real token be one of the source, not the end of a nonterminal extra
    ([tNoLookahead] is false).  When the search returns a token for it, it is the
    first that qualifies, the parser can shift it in the state on top, and then, with
    the real token in front of it, gets by reductions of the lane that builds no tree
    to a state where it shifts that token or recovers on it. *)
Theorem missing_token_sound s rst x ms act tok mtok track w : stack_ok hasRecoverState s rst → (linked s = true → len rst + 1 < max_depth) → all_children rst →
  tSymbol tok = x → tNoLookahead tok = false → tSymbol mtok = ms →
  findRecoverWithMissingShift v s (seState (top s)) x = Ret (Some (ms, act)) →
  (1 ≤ ms ∧ ms ≠ x ∧ ∀ m, 1 ≤ m < ms → missing_action v (collectStackStates s) (seState (top s)) x m = Ret None) ∧
  ∃ s' track', offers v s mtok act ∧ paType act = ParseActionShift ∧ applyShiftAction v hasRecoverState s act mtok track = Ret (s', track') ∧ can_go_on s' tok w.
Proof using.
  intros Hs Hl Hall Hx Hnl Hms Hfind. pose proof Hall as (children & bottom & -> & Hc). destruct (children ++ [bottom]) as [|e rest] eqn:Erst; [by destruct children|].
  unfold findRecoverWithMissingShift in Hfind. rewrite (collect_view _ _ _ _ (so_holds _ _ _ Hs)) in Hfind |- *. destruct (len _ =? 0); [done|].
  unfold findRecoverWithMissingShiftAtStates in Hfind. apply missing_loop_spec in Hfind as (before & after & Eseq & Hact & Hbefore).
  destruct (missing_action_spec s _ x ms act mtok Hact Hms) as (Hne & Hoff & Hty & Hex & Hcan).
  destruct (seqZ_split _ _ _ _ _ Eseq) as [Hge Hlow]. split; [split_and!; [done|done|]; intros m Hm; by apply Hbefore, Hlow|].
  destruct (shift_spec v hasRecoverState s (e :: rest) act mtok track Hs) as (s1 & tr & Hrun & Hl1 & leaf & Hleaf & Hs1); [intros E; specialize (Hl E); lia|]. exists s1, tr. split_and!; [done|done|done|].
  assert (extraShiftTargetState (seState (top s)) act = paState act) as Etgt by (unfold extraShiftTargetState; by rewrite Hex). rewrite Etgt in Hs1.
  apply (can_shift_sound s1 _ tok w Hs1); [intros E; specialize (Hl (Hl1 E)); rewrite (len_cons _ (e :: rest)); lia| |done|].
  - exists (mkStackEntry (paState act) (Some leaf) :: children), bottom. split; [cbn; by rewrite Erst|]. intros e' [->|He']%elem_of_cons; [|by apply Hc].
    unfold is_child, stackEntryHasNode, stackEntryNodeIsExtra. cbn. by rewrite Hleaf, Hex.
  - rewrite Hx, states_push. exact Hcan.
Qed.
End sound.

(** ** A token to insert *)

(** The production [A -> a b] in front of [c], with the gotos of states 1 and 2. *)
Definition pair_tables (goto1 goto2 : Z) : parserActionTableView :=
  let shift_to state := mkParseAction ParseActionShift state 0 0 0 0 false false false in
  let lang := mkLanguage "missing" true 5 4 6 6 1
    [[0; 0; 0; 0; 0]; [0; 0; 0; 0; goto1]; [0; 0; 1; 0; goto2]; [0; 0; 0; 2; 0]; [0; 0; 0; 3; 0]; [0; 0; 0; 0; 0]] [] []
    [mkParseActionEntry false []; mkParseActionEntry false [shift_to 3];
     mkParseActionEntry false [mkParseAction ParseActionReduce 0 4 2 0 0 false false false]; mkParseActionEntry false [shift_to 5]] ∅ [] [] 0 in
  mkView lang (languageDenseLimit lang) (LargeStateCount lang) [] [].

(** After [a], without and with an extra behind it. *)
Definition after_a : list stackEntry := [mkStackEntry 1 None; mkStackEntry 2 (Some (mkNode 1 0 1 2 1 0 0 false false))].
Definition flat_stack (es : list stackEntry) : glrStack := mkStack [] (Some es) true 1 0 false false false false false.
Definition after_extra : list stackEntry := after_a ++ [mkStackEntry 2 (Some (mkNode 9 0 1 2 2 0 0 true false))].

Definition sample_token (sym : Z) : Token := span_token sym [] 1 2 point0 point0.

(** The stack after [a] as a linked list. *)
Definition linked_stack : glrStack := mkStack (rev after_a) None false 1 0 false false false false false.

Lemma missing_token_sound_witness : ∃ s' track', applyShiftAction (pair_tables 4 0) [] linked_stack (mkParseAction ParseActionShift 3 0 0 0 0 false false false) (sample_token 2) false = Ret (s', track') ∧
  can_go_on (pair_tables 4 0) [] true zeroToken s' (sample_token 3) [].
Proof.
  destruct (missing_token_sound (pair_tables 4 0) [] true zeroToken linked_stack (rev after_a) 3 2 (mkParseAction ParseActionShift 3 0 0 0 0 false false false) (sample_token 3) (sample_token 2) false [])
    as (_ & s' & track' & _ & _ & Hrun & Hgo); [| | |reflexivity|reflexivity|reflexivity|vm_compute; reflexivity|].
  - split; [split|]; [reflexivity|discriminate|discriminate|reflexivity].
  - reflexivity.
  - exists [mkStackEntry 2 (Some (mkNode 1 0 1 2 1 0 0 false false))], (mkStackEntry 1 None). split; [reflexivity|]. by intros e ->%list_elem_of_singleton.
  - exists s', track'. split; [exact Hrun|exact Hgo].
Defined.

(** The token inserted, the one reduction there is made: what the state then has for
    the real token. *)
Definition inserted (v : parserActionTableView) (s : glrStack) (act : ParseAction) : go (option ParseActionEntry) :=
  '(s, track) ← applyShiftAction v [] s act (sample_token 2) false;
  entry ← lookupAction v (seState (top s)) 3;
  match peActions <$> entry with
  | Some [reduce] =>
    '(s, _) ← applyReduceActionDispatch_noTree v [] true s reduce (sample_token 3) track;
    lookupAction v (seState (top s)) 3
  | _ => Panic
  end.

(** With an extra on the stack the simulation pops it in place of a child: the search
    returns a token after which the parser is in a state without an action for the
    real one. *)
Example missing_token_counts_extras : let act := mkParseAction ParseActionShift 3 0 0 0 0 false false false in
  findRecoverWithMissingShift (pair_tables 5 4) (flat_stack after_extra) 2 3 = Ret (Some (2, act)) ∧ inserted (pair_tables 5 4) (flat_stack after_extra) act = Ret None.
Proof. split; vm_compute; reflexivity. Qed.
